(* ===== verification/_CoqProject ===== *)
-Q . S2P
Prelude.v
IntData.v
IntEval.v
IntBasic.v
IntAddSub.v
IntMul.v
IntDiv.v
IntDivRun.v
IntText.v
IntOps.v
IntSpec.v
Scanner.v
ScannerSpec.v
Table.v
TableSpec.v
YargType.v
YargTypeSpec.v
Value.v
CellTable.v
Intern.v
Packed.v
Arith.v
ValueSpec.v
ArithSpec.v
PackedSpec.v
StorageSpec.v
Channel.v
ChannelSpec.v
Object.v
Text.v
Routine.v
Vm.v
Step.v
Builtins.v
Machine.v
RoutineSpec.v
FrameSpec.v
CallSpec.v
ErrorSpec.v
StackSpec.v
RunSpec.v
BuiltinSpec.v
Gc.v
GcSpec.v
Ast.v
AstWf.v
Compiler.v
Verify.v
CompilerFrame.v
CompilerInv.v
CompilerVars.v
CompilerBlocks.v
CompilerJumps.v
CompilerExprs.v
CompilerFunctions.v
CompilerStmts.v
CompilerSpec.v
Parser.v
Compile.v
Pack.v
Load.v
PackFlat.v
PackOffsets.v
PackRead.v
PackImage.v
LoadSpec.v
PackSpec.v
ParserTokens.v
ParserInv.v
ParserLeaves.v
ParserExprs.v
ParserRules.v
ParserStmts.v
ParserProgram.v
ParserSpec.v
CompileSpec.v
RunInv.v
RunOps.v
RunVerified.v
RunBuiltins.v
