(* ===== verification/Prelude.v ===== *)
(** * Yarg-Lang: a verification library for the cyarg virtual machine

    Yarg is a dynamically typed language for microcontrollers and hosts.  Its
    implementation, [src/cyarg], is a C program: a scanner and a parser make a
    syntax tree, a compiler turns it into byte code, and a virtual machine with
    cooperative routines, channels, typed storage, arbitrary-precision
    integers and a mark-sweep collector runs the byte code.  This library
    models that program and proves what its parts promise to each other.

    ** Conventions

    A C function is a Definition with the name of the function.  A function
    that writes a store is an action of the monad [st] below: from the store to
    the answer and the new store, or to [None] for a failed assertion and for
    undefined behaviour.  That a run is [Some] is therefore a promise, and the
    theorems prove it: "the function returns" is never an assumption.
    Machine integers are [Z] with their wrap-around written out ([usize],
    [wrap], [c_signed]); signed overflow is undefined.  Loops that are not
    structural have fuel.  Pointers are keys of finite maps ([positive]) or
    indexes, so that aliasing is visible.  A type class holds what the program
    does not fix: [Target] the size and the alignment of a pointer, [Uninit]
    the contents of fresh memory, [Host] what the C library makes of a [double]
    and of a pointer.  Every theorem holds for all of their instances; the
    witnesses choose one.

    ** Parts and files

    - Arbitrary-precision integers, [big-int/big-int.c]: [IntData] (the [Int]
      objects and their store), [IntEval] (the number that digits denote),
      [IntBasic], [IntAddSub], [IntMul], [IntDiv], [IntDivRun], [IntText] (the
      operations and their runs), [IntOps] (the operators of [vm.c] on
      them), [IntSpec] (the properties).
    - Scanner, [scanner.c]: [Scanner], [ScannerSpec].
    - Hash tables, [table.c]: [Table] with the interface [TableValue],
      [TableSpec]; the two instances that the program has and their common
      contract in [CellTable].
    - Strings, [yargobject.c]: [Intern].
    - Types, [yargtype.c]: [YargType], [YargTypeSpec].
    - Values and typed cells, [value.c], [value_cell.c]: [Value], [ValueSpec];
      the operators of [vm.c] on values in [Arith], [ArithSpec].
    - Packed containers, [packed_containers.c]: [Packed], [PackedSpec] (access),
      [StorageSpec] (creation).
    - Channels and sync groups, [channel.c], [sync_group.c], [vm_mutex.c]:
      [Channel], [ChannelSpec]; threads take atomic steps, and a schedule says
      whose turn it is.
    - Objects and state, [chunk.c], [yargobject.c], [vmobject.c], the root
      array of [memory.c]: [Object].  Text of values, [value.c], [object.c]:
      [Text].
    - Routines, [routine.c]: [Routine]; [RoutineSpec] (the stack is a list),
      [FrameSpec] and [CallSpec] (upvalues and returns), [ErrorSpec] (errors),
      [StackSpec], [RunSpec] (the properties).
    - Virtual machine, [vm.c]: [Vm] (calls, properties, elements), [Step] (a
      Definition per instruction and [turn], one turn of the loop of [run]),
      [Machine] (start of the machine and boot code).
    - Built-in functions, [builtin.c]: [Builtins], which also ties the knot
      between [run] and the functions that run other routines; [BuiltinSpec].
    - Garbage collector, [memory.c] and the mark functions of the other files:
      [Gc], [GcSpec].
    - Syntax tree, [ast.h]: [Ast] (the nodes), [AstWf] (the shapes that the
      parser makes: which nodes start an expression and which follow).
    - Compiler, [compiler.c]: [Compiler] (a Definition per function, over a
      stack of compilers and the machine); [Verify], a verifier of byte code in
      the manner of the JVM: the effect of each instruction on the height of the
      stack, its operands, its captures, its successors.  [CompilerFrame] (what
      an emission leaves alone), [CompilerInv] (the invariant of the compilers),
      [CompilerVars] (scopes, locals, upvalues, constants), [CompilerBlocks] and
      [CompilerJumps] (blocks of code with jumps that are still to be patched),
      [CompilerExprs], [CompilerFunctions], [CompilerStmts] (each function of
      [compiler.c] keeps the invariant), [CompilerSpec] (a script that
      compiles without errors is verified).
    - Parser, [parser.c] and the constructors of [ast.c]: [Parser] (the rules of
      expressions with their table, statements, declarations, panic and
      synchronisation; a run can be undefined or lack fuel).  [ParserTokens] (the
      scanner as a list of tokens, rules for such runs), [ParserInv] (what holds
      while the parser runs, under two switches that say what is promised),
      [ParserLeaves], [ParserExprs], [ParserRules], [ParserStmts],
      [ParserProgram] (each function of [parser.c] keeps it), [ParserSpec] (the
      properties, numbers, examples).
    - The whole run, [compile] of [compiler.c] and [compileBuiltin] of
      [builtin.c]: [Compile], [CompileSpec] (from source to verified code).
    - Packages, [pack.c] and [pack_load.c], with [loadBuiltin] of [builtin.c]:
      [Pack] (a script becomes flat files and these an image), [Load] (an image
      in memory becomes functions).  [PackFlat] (every function that is reached
      is flattened, and every constant has an item that leads to it),
      [PackOffsets] (lengths and offsets), [PackRead] (what the readers of
      [Load] find at a place where [Pack] wrote; the form of integers),
      [PackImage] (the image and its parts), [LoadSpec] (constants
      are loaded with the same values), [PackSpec] (the round trip, also for
      the verifier of byte code).  The fuel of the flattening is the depth of
      the nesting of functions.
    - The verifier and the machine: [RunInv] (the functions and closures that
      are known, the shape of a routine, and the commands that keep them),
      [RunOps] (the instructions of one frame move the height of the stack as
      [Verify] says), [RunVerified] (jumps, calls, closures and returns; a
      routine that enters verified code stays within the code, the constants,
      the locals and the stack of its frames, for any number of turns),
      [RunBuiltins] (the interface [keeps_caller] that the calls of foreign
      functions have to meet, and that the built-in functions other than [pin]
      meet it).
    The state of the machine, [Vm] of [Object], holds the integer store
    ([Heap]), the pool of strings ([Pool]), the byte memory of containers, the
    channels and the map of the other objects, each the state of the component
    that owns it; an operation of a component is lifted to the machine by a
    projection ([with_heap], [with_pool], [vm_ints] in [Object]).  [Table] is used three times: globals,
    interned strings and methods; [Intern] proves on it that equal strings
    are one object, which is what [Value] compares.

    ** What the theorems show

    - Refinement: a table is a finite map over any sequence of operations; the
      stack of slices is a list; a channel is a queue; a collection keeps
      exactly what the roots reach.
    - Functional behaviour: the integer operations compute on [Z], whatever
      aliasing of operands and result; a call, a return, a promotion, a
      resumption on each of their branches; element access through arrays,
      structs and pointers; creation of initialised storage.
    - Invariants and types: interning, sorted open upvalues with one upvalue
      per cell, sound struct layout, typed cells keep their type, the heap
      after a collection has no dangling pointer.
    - Errors and bounds: every runtime error ends in a trace and an empty
      stack; index checks; conversions between widths; overflow.
    - Safety of the front end: a tree that the parser returns without errors
      can be compiled, what is compiled without errors passes the verifier, and
      so does what [compile] makes of a source.
    - Safety of the machine: code that passes the verifier runs within its
      bounds.  The theorem speaks of every state that is reached; that a turn is
      defined is shown for what the loop itself reads (opcode, operands, the
      values on the stack), not for the operation on the values.
    - Termination: the scanner ends on every text, the parser on every text
      without [struct]; every function that is proved to have a run ends.
    - Round trips: decimal text of integers, numbers to text and back, scripts
      through a package: the function that is loaded has the code, the sizes and
      the constants of the one that was packed, and passes the verifier if that
      did.
    - Concurrency: one sender and one receiver of a channel, under every
      schedule, keep the order and lose nothing; with two senders or a
      semaphore they do not.
    - Several theorems state behaviour that the code has and does not mean to
      have; they are the findings of the manifest.

    ** Fuel

    Bounds are large enough by proof, not by assumption: [div_fuel] 4072 is an
    exponent ([iter_pow2] runs up to [2^4072] turns; the value of 254 digits is
    smaller); [to_s_fuel] 67 blocks of 19 digits cover 254 digits; [int_mul]
    has 256 rounds for at most 254 digits; the scanner has one turn per
    character and one more ([scan_all_total]); a probe of a table has one per
    slot; [upvalue_fuel] and the fuel of [mark_upvalues] and
    [traceReferences] is one more than the number of objects, because a list
    of upvalues has no cycle and an object turns gray once.  [text_fuel] 64
    bounds the nesting of types and of objects in the text of a value and [run]
    takes its fuel as an argument: a program of the language need not end.  So
    does [parse]: three times the number of tokens, and three, is enough unless
    the source has a [struct], whose loop over the fields may not end.

    ** Not modelled

    - Opening, closing and removing the file of a package: output.
      [Builtins] has compile, load and the reading of files as parameters;
      [Compile] gives compile, [Load] gives load.
    - [native.c], [main.c], [hosted.c], [xip_library.c]: hardware, files and
      the command line; natives are a parameter of [Builtins].
    - [debug.c], [print.h] and the printing functions that only trace: output.
    - [test-system]: a double of the hardware for the tests.
    - The Go programs under [hostyarg]: device images and test runs.
    - The lock [vm.env], the second core and the re-entry of a pinned routine
      from an interrupt: one routine runs at a time here.  The allocator
      (o1heap, not under [src/cyarg]) and the number of bytes it counts are a
      parameter of the collector.
    - [Gc] sees the heap as a graph of objects; that the graph of a machine
      state of [Object] is the one that the mark functions walk is not
      proved.

    ** Later stages

    - The interface of [RunBuiltins] for the loop that runs another routine: the
      run is a hypothesis of the theorem about the built-in functions.  [pin] is
      excluded, since it breaks the frames of a routine that pins itself, and a
      routine that is pinned may not add slices, which [RunInv] assumes.
    - That the bytes of compiled code are below 256, which the machine types of
      the code say and [Loaded] asks for.
    - The round trip of packages with line tables. *)
From Stdlib Require Export ZArith Lia.
From stdpp Require Export base tactics list gmap numbers.

#[global] Set Default Goal Selector "!".
#[global] Arguments Nat.modulo : simpl never.
#[global] Arguments Nat.div : simpl never.
#[global] Arguments Z.modulo : simpl never.
#[global] Arguments Z.div : simpl never.
#[global] Arguments Z.mul : simpl never.

(** ** A state monad with failure

    A C function that reads and writes a store is a function of type
    [st Σ A]: from a store to [None] (an assertion that fails, or an access
    outside an object: undefined behaviour of the C program) or to a result
    and the new store. *)
Definition st (S A : Type) : Type := S → option (A * S).

#[export] Instance st_ret Σ : MRet (st Σ) := λ A a s, Some (a, s).
#[export] Instance st_bind Σ : MBind (st Σ) :=
  λ A B f c s, match c s with Some (a, s') => f a s' | None => None end.

Definition st_fail {Σ A} : st Σ A := λ _, None.
(** [assert(b)] of the C code. *)
Definition st_assert {Σ} (b : bool) : st Σ unit := if b then mret () else st_fail.

Lemma st_bind_run {Σ A B} (c : st Σ A) (f : A → st Σ B) s a s' :
  c s = Some (a, s') → (c ≫= f) s = f a s'.
Proof. intros H. unfold mbind, st_bind. by rewrite H. Qed.

Lemma st_bind_run_or {Σ A B} (c : st Σ A) (f : A → st Σ B) s o :
  c s = o → (c ≫= f) s = match o with Some (a, s') => f a s' | None => None end.
Proof. intros <-. done. Qed.

Lemma st_ret_run {Σ A} (a : A) (s : Σ) : mret (M := st Σ) a s = Some (a, s).
Proof. done. Qed.

Lemma st_assert_run {Σ} (b : bool) (s : Σ) :
  b = true → st_assert b s = Some ((), s).
Proof. by intros ->. Qed.

(** [post c s Q]: if [c] has a run from [s], the answer and the new store
    satisfy [Q].  The rules follow the commands. *)
Definition post {Σ A} (c : st Σ A) (s : Σ) (Q : A → Σ → Prop) : Prop := ∀ a s', c s = Some (a, s') → Q a s'.

Lemma post_bind {Σ A B} (c : st Σ A) (f : A → st Σ B) s Q :
  post c s (λ a s', post (f a) s' Q) → post (c ≫= f) s Q.
Proof.
  intros H b s'. unfold mbind, st_bind. destruct (c s) as [[a s1]|] eqn:E; [|done]. by apply (H a s1).
Qed.
Lemma post_ret {Σ A} (a : A) (s : Σ) (Q : A → Σ → Prop) : Q a s → post (mret a) s Q.
Proof. by intros H ? ? [= <- <-]. Qed.
Lemma post_mono {Σ A} (c : st Σ A) s (Q Q' : A → Σ → Prop) :
  post c s Q → (∀ a s', Q a s' → Q' a s') → post c s Q'.
Proof. intros H HQ a s' E. by apply HQ, H. Qed.
Lemma post_fail {Σ A} s Q : post (A := A) (Σ := Σ) st_fail s Q.
Proof. by intros a s'. Qed.
Lemma post_assert {Σ} b (s : Σ) (Q : () → Σ → Prop) : (b = true → Q () s) → post (st_assert b) s Q.
Proof. intros H. destruct b; [by apply post_ret, H|apply post_fail]. Qed.

Create HintDb st_run.
#[export] Hint Resolve st_ret_run st_assert_run : st_run.

(** [step]: run the first command of a sequence whose run is known to the
    hint database or to the context. *)
Ltac step := erewrite st_bind_run; [| by eauto with st_run]; cbv beta.
Ltac steps := repeat (step; simpl).
(** [step_with H]: the same with the run given. *)
Ltac step_with H := erewrite st_bind_run; [| by eapply H]; cbv beta.

(** ** Loops that have no static bound

    [iter_pow2 k body s] runs [body] until it answers [inr], at most [2 ^ k]
    times; [inl] carries the state of the next iteration.  It stops as soon
    as [body] answers [inr], so a large [k] costs nothing. *)
Section IterPow2.
Context {Σ A R : Type}.
Variable body : A → st Σ (A + R).

Fixpoint iter_pow2 (k : nat) (a : A) : st Σ (A + R) :=
  match k with
  | O => body a
  | S k' =>
      x ← iter_pow2 k' a;
      match x with
      | inl a' => iter_pow2 k' a'
      | inr r => mret (inr r)
      end
  end.

(** Enough fuel: a measure that every iteration decreases, an invariant that
    every iteration keeps, and the post-condition of the last one. *)
Variable Inv : A → Σ → Prop.
Variable Post : R → Σ → Prop.
Variable μ : A → Σ → Z.
Hypothesis body_ok : ∀ a s, Inv a s →
  (∃ a' s', body a s = Some (inl a', s') ∧ Inv a' s' ∧ (0 ≤ μ a' s' < μ a s)%Z) ∨
  (∃ r s', body a s = Some (inr r, s') ∧ Post r s').

Lemma iter_pow2_run k : ∀ a s, Inv a s →
  (∃ a' s', iter_pow2 k a s = Some (inl a', s') ∧ Inv a' s' ∧
     (0 ≤ μ a' s' ∧ μ a' s' + 2 ^ Z.of_nat k ≤ μ a s)%Z) ∨
  (∃ r s', iter_pow2 k a s = Some (inr r, s') ∧ Post r s').
Proof.
  induction k as [|k IH]; intros a s HI; simpl.
  - destruct (body_ok a s HI) as [(a' & s' & E & HI' & Hμ)|(r & s' & E & HP)].
    + left. exists a', s'. rewrite E. split; [done|]. split; [done|]. simpl. lia.
    + right. exists r, s'. by rewrite E.
  - rewrite Nat2Z.inj_succ, Z.pow_succ_r by lia.
    destruct (IH a s HI) as [(a1 & s1 & E1 & HI1 & Hμ1)|(r & s' & E & HP)].
    + rewrite (st_bind_run _ _ _ _ _ E1).
      destruct (IH a1 s1 HI1) as [(a2 & s2 & E2 & HI2 & Hμ2)|(r & s' & E & HP)].
      * left. exists a2, s2. split; [done|]. split; [done|]. lia.
      * right. by exists r, s'.
    + right. exists r, s'. by rewrite (st_bind_run _ _ _ _ _ E).
Qed.

Lemma iter_pow2_total k a s :
  Inv a s → (μ a s < 2 ^ Z.of_nat k)%Z →
  ∃ r s', iter_pow2 k a s = Some (inr r, s') ∧ Post r s'.
Proof.
  intros HI Hμ. destruct (iter_pow2_run k a s HI) as [(a' & s' & _ & _ & ?)|?]; [lia|done].
Qed.
End IterPow2.

(** ** Fixed-width integers

    A [w]-bit unsigned value is a [Z] in [0, 2^w); a conversion to the type
    is the reduction below.  A signed value is a [Z] in [-2^(w-1), 2^(w-1));
    conversions wrap (two's complement, what the supported compilers do). *)
Definition u8 (x : Z) : Z := (x mod 2 ^ 8)%Z.
Definition u16 (x : Z) : Z := (x mod 2 ^ 16)%Z.
Definition u32 (x : Z) : Z := (x mod 2 ^ 32)%Z.
Definition u64 (x : Z) : Z := (x mod 2 ^ 64)%Z.
Definition swrap (w x : Z) : Z := ((x + 2 ^ (w - 1)) mod 2 ^ w - 2 ^ (w - 1))%Z.
Definition i8 : Z → Z := swrap 8.
Definition i16 : Z → Z := swrap 16.
Definition i32 : Z → Z := swrap 32.
Definition i64 : Z → Z := swrap 64.

Lemma swrap_small w x : (0 < w → - 2 ^ (w - 1) ≤ x < 2 ^ (w - 1) → swrap w x = x)%Z.
Proof.
  intros Hw Hx. unfold swrap.
  assert (2 ^ w = 2 * 2 ^ (w - 1))%Z as E.
  { rewrite <-Z.pow_succ_r by lia. f_equal. lia. }
  rewrite Z.mod_small by lia. lia.
Qed.

Lemma u8_small x : (0 ≤ x < 2 ^ 8 → u8 x = x)%Z.
Proof. intros. by apply Z.mod_small. Qed.
Lemma u16_small x : (0 ≤ x < 2 ^ 16 → u16 x = x)%Z.
Proof. intros. by apply Z.mod_small. Qed.
Lemma u32_small x : (0 ≤ x < 2 ^ 32 → u32 x = x)%Z.
Proof. intros. by apply Z.mod_small. Qed.
Lemma u64_small x : (0 ≤ x < 2 ^ 64 → u64 x = x)%Z.
Proof. intros. by apply Z.mod_small. Qed.
Lemma u16_range x : (0 ≤ u16 x < 2 ^ 16)%Z.
Proof. by apply Z.mod_pos_bound. Qed.

(** ** Reading a list with a default *)
Definition dg (l : list Z) (i : nat) : Z := default 0%Z (l !! i).

Lemma dg_insert l i j v :
  i < length l → dg (<[i:=v]> l) j = if decide (i = j) then v else dg l j.
Proof.
  intros Hi. unfold dg. case_decide as E.
  - subst. by rewrite list_lookup_insert_eq.
  - by rewrite list_lookup_insert_ne.
Qed.

Lemma dg_lookup l i : i < length l → l !! i = Some (dg l i).
Proof.
  intros Hi. destruct (lookup_lt_is_Some_2 l i Hi) as [v E]. unfold dg. by rewrite E.
Qed.

Lemma dg_Forall (P : Z → Prop) l i : P 0%Z → Forall P l → P (dg l i).
Proof.
  intros H0 Hl. unfold dg. destruct (l !! i) eqn:E; simpl; [|done].
  by eapply Forall_lookup_1.
Qed.
