(* ===== verification/IntData.v ===== *)
(** * The arbitrary-precision integers of [cyarg/big-int]: objects and store

    The C structure [Int] as a record, the store of such objects that the
    functions of [big-int.c] work on through pointers, the accessors that
    read and write halfwords and 32-bit words in place, and local objects.
    The operations are in [IntBasic], [IntAddSub], [IntMul], [IntDiv] and
    [IntText]. *)
From S2P Require Export Prelude.

(** ** Objects *)

(** [struct Int].  The flexible array [w_] of [m_ / 2] 32-bit words is kept
    as its [m_] halfwords, least significant first: the code reads the same
    memory through [uint16_t *] and [uint32_t *] pointers and relies on a
    little-endian layout, as the union [TwoDigits] does. *)
Record Int := mkInt {
  neg_ : bool;
  overflow_ : bool;
  obj_ : bool;
  literal_ : bool;
  d_ : nat;           (* number of halfword digits in use *)
  m_ : nat;           (* number of halfwords allocated *)
  h_ : list Z         (* the halfwords *)
}.

Definition set_neg_ (b : bool) (i : Int) : Int :=
  mkInt b (overflow_ i) (obj_ i) (literal_ i) (d_ i) (m_ i) (h_ i).
Definition set_overflow_ (b : bool) (i : Int) : Int :=
  mkInt (neg_ i) b (obj_ i) (literal_ i) (d_ i) (m_ i) (h_ i).
Definition set_obj_ (b : bool) (i : Int) : Int :=
  mkInt (neg_ i) (overflow_ i) b (literal_ i) (d_ i) (m_ i) (h_ i).
Definition set_literal_ (b : bool) (i : Int) : Int :=
  mkInt (neg_ i) (overflow_ i) (obj_ i) b (d_ i) (m_ i) (h_ i).
(** [d_] is a [uint8_t]. *)
Definition set_d_ (d : nat) (i : Int) : Int :=
  mkInt (neg_ i) (overflow_ i) (obj_ i) (literal_ i) (d mod 256) (m_ i) (h_ i).
Definition set_m_ (m : nat) (i : Int) : Int :=
  mkInt (neg_ i) (overflow_ i) (obj_ i) (literal_ i) (d_ i) m (h_ i).
Definition set_h_ (h : list Z) (i : Int) : Int :=
  mkInt (neg_ i) (overflow_ i) (obj_ i) (literal_ i) (d_ i) (m_ i) h.

Inductive IntComp := INT_LT | INT_EQ | INT_GT.
Inductive IntRange := INT_BELOW | INT_WITHIN | INT_ABOVE.

#[export] Instance IntComp_eq_dec : EqDecision IntComp.
Proof. solve_decision. Defined.
#[export] Instance IntRange_eq_dec : EqDecision IntRange.
Proof. solve_decision. Defined.

(** ** The store

    Pointers to [Int] are keys of a finite map, so that the calls that pass
    the same pointer as operand and result are runs of the same functions. *)
Abbreviation ptr := positive.
Abbreviation store := (gmap positive Int).
Abbreviation M := (st (gmap positive Int)).

Definition get (p : ptr) : M Int :=
  λ s, match s !! p with Some i => Some (i, s) | None => None end.
Definition modify (p : ptr) (f : Int → Int) : M () :=
  λ s, match s !! p with Some i => Some ((), <[p := f i]> s) | None => None end.

(** [((uint16_t * )p->w_)[k]]: out of the allocated array it is undefined
    behaviour. *)
Definition rd_h (p : ptr) (k : nat) : M Z :=
  λ s, match s !! p with
       | Some i => match h_ i !! k with Some v => Some (v, s) | None => None end
       | None => None
       end.
Definition wr_h (p : ptr) (k : nat) (v : Z) : M () :=
  λ s, match s !! p with
       | Some i => if decide (k < length (h_ i))
                   then Some ((), <[p := set_h_ (<[k := v]> (h_ i)) i]> s) else None
       | None => None
       end.

(** [p->w_[k]]: a word is two halfwords. *)
Definition rd_w (p : ptr) (k : nat) : M Z :=
  l ← rd_h p (2 * k); h ← rd_h p (2 * k + 1); mret (l + 65536 * h)%Z.
Definition wr_w (p : ptr) (k : nat) (v : Z) : M () :=
  wr_h p (2 * k) (u16 v) ;; wr_h p (2 * k + 1) (u16 (v / 65536)%Z).

(** ** Local objects

    [IntConcreteX x;] on the C stack: an object at an address no live pointer
    has, with indeterminate contents, gone when the function returns.  The
    indeterminate contents are a parameter of the whole development. *)
Class Uninit := {
  uninit : Int;
  uninit_length : 254 ≤ length (h_ uninit);
  uninit_digits : Forall (λ v, 0 ≤ v < 65536)%Z (h_ uninit)
}.

Definition fresh_ptr (s : store) : ptr :=
  Pos.succ (map_fold (λ k _ acc, Pos.max k acc) 1%positive s).

(** [{ T x = o; ... }] *)
Definition with_object {A} (o : Int) (k : ptr → M A) : M A :=
  λ s, let p := fresh_ptr s in
       match k p (<[p := o]> s) with
       | Some (a, s') => Some (a, delete p s')
       | None => None
       end.

Definition with_local `{Uninit} {A} (m : nat) (k : ptr → M A) : M A :=
  with_object (set_h_ (take m (h_ uninit)) uninit) k.

(** ** Running the accessors *)
Lemma get_run p i (s : store) : s !! p = Some i → get p s = Some (i, s).
Proof. unfold get. by intros ->. Qed.

Lemma modify_run p f i (s : store) :
  s !! p = Some i → modify p f s = Some ((), <[p := f i]> s).
Proof. unfold modify. by intros ->. Qed.

Lemma rd_h_run p k i (s : store) :
  s !! p = Some i → k < length (h_ i) → rd_h p k s = Some (dg (h_ i) k, s).
Proof. intros E Hk. unfold rd_h. by rewrite E, dg_lookup. Qed.

Lemma wr_h_run p k v i (s : store) :
  s !! p = Some i → k < length (h_ i) →
  wr_h p k v s = Some ((), <[p := set_h_ (<[k := v]> (h_ i)) i]> s).
Proof. intros E Hk. unfold wr_h. rewrite E. by rewrite decide_True. Qed.

Lemma rd_w_run p k i (s : store) :
  s !! p = Some i → 2 * k + 1 < length (h_ i) →
  rd_w p k s = Some (dg (h_ i) (2 * k) + 65536 * dg (h_ i) (2 * k + 1), s)%Z.
Proof.
  intros E Hk. unfold rd_w.
  rewrite (st_bind_run _ _ _ _ _ (rd_h_run p (2 * k) i s E ltac:(lia))).
  by rewrite (st_bind_run _ _ _ _ _ (rd_h_run p (2 * k + 1) i s E ltac:(lia))).
Qed.

Lemma wr_w_run p k v i (s : store) :
  s !! p = Some i → 2 * k + 1 < length (h_ i) →
  wr_w p k v s =
    Some ((), <[p := set_h_ (<[2 * k + 1 := u16 (v / 65536)]>
                             (<[2 * k := u16 v]> (h_ i))) i]> s).
Proof.
  intros E Hk. unfold wr_w.
  rewrite (st_bind_run _ _ _ _ _ (wr_h_run p (2 * k) (u16 v) i s E ltac:(lia))).
  erewrite wr_h_run; [| apply lookup_insert_eq | simpl; rewrite length_insert; lia].
  by rewrite insert_insert_eq.
Qed.

Lemma fresh_ptr_spec (s : store) k : is_Some (s !! k) → (k < fresh_ptr s)%positive.
Proof.
  unfold fresh_ptr. intros Hk.
  assert (k ≤ map_fold (λ k (_ : Int) acc, Pos.max k acc) 1 s)%positive; [|lia].
  revert k Hk.
  apply (map_fold_weak_ind (λ acc s, ∀ k, is_Some (s !! k) → (k ≤ acc)%positive)).
  - intros k [? Hk]. by rewrite lookup_empty in Hk.
  - intros i x m r Hi IH k Hk. destruct (decide (k = i)) as [->|Hne]; [lia|].
    rewrite lookup_insert_ne in Hk by done. specialize (IH k Hk). lia.
Qed.

Lemma fresh_ptr_None (s : store) : s !! fresh_ptr s = None.
Proof.
  destruct (s !! fresh_ptr s) eqn:E; [|done].
  assert (fresh_ptr s < fresh_ptr s)%positive; [apply fresh_ptr_spec; by rewrite E|lia].
Qed.

(** A block with a local object: it runs with a new pointer, and if it leaves
    the rest of the store as [s'], so does the block. *)
Lemma with_object_run {A} o (k : ptr → M A) s a o' s' :
  (∀ p, s !! p = None → s' !! p = None ∧ k p (<[p := o]> s) = Some (a, <[p := o']> s')) →
  with_object o k s = Some (a, s').
Proof.
  intros Hk. unfold with_object. destruct (Hk _ (fresh_ptr_None s)) as [E1 E2].
  rewrite E2. by rewrite delete_insert_id.
Qed.

(** ** Automation for runs of the accessors *)

(** [lk]: the object at a pointer, through updates of the store. *)
Ltac lk :=
  first [ eassumption
        | apply lookup_insert_eq
        | rewrite lookup_insert_ne by congruence; lk ].
#[export] Hint Resolve get_run modify_run rd_h_run wr_h_run rd_w_run wr_w_run : st_run.
#[export] Hint Extern 1 (_ !! _ = Some _) => lk : st_run.
#[export] Hint Extern 1 (_ < length _)%nat => (simpl; rewrite ?length_insert; lia) : st_run.
