(* ===== verification/IntEval.v ===== *)
(** * The arbitrary-precision integers: values and well-formedness

    The number a digit sequence denotes, the value of an [Int] object, the
    invariant of [int_invariant], and the arithmetic of digit sequences that
    the proofs of the operations share. *)
From S2P Require Export IntData.
Open Scope Z_scope.

(** The base of the digits, and its powers. *)
Abbreviation BASE := 65536.
Definition Bp (n : nat) : Z := BASE ^ Z.of_nat n.

Lemma Bp_0 : Bp 0 = 1.
Proof. done. Qed.
Lemma Bp_S n : Bp (S n) = BASE * Bp n.
Proof. unfold Bp. rewrite Nat2Z.inj_succ, Z.pow_succ_r; lia. Qed.
Lemma Bp_pos n : 0 < Bp n.
Proof. unfold Bp. apply Z.pow_pos_nonneg; lia. Qed.
Lemma Bp_add a b : Bp (a + b) = Bp a * Bp b.
Proof. unfold Bp. rewrite Nat2Z.inj_add, Z.pow_add_r; lia. Qed.
Lemma Bp_le a b : (a ≤ b)%nat → Bp a ≤ Bp b.
Proof. intros. unfold Bp. apply Z.pow_le_mono_r; lia. Qed.
Lemma Bp_lt a b : (a < b)%nat → Bp a < Bp b.
Proof. intros. unfold Bp. apply Z.pow_lt_mono_r; lia. Qed.
Lemma Bp_lt_inv a b : Bp a < Bp b → (a < b)%nat.
Proof. intros H. destruct (decide (a < b)%nat); [done|]. pose proof (Bp_le b a). lia. Qed.

(** The value of the first [n] digits of a digit sequence. *)
Fixpoint ev (n : nat) (f : nat → Z) : Z :=
  match n with
  | O => 0
  | S n' => ev n' f + f n' * Bp n'
  end.

Definition digit (v : Z) : Prop := 0 ≤ v < BASE.

Lemma ev_ext n f g : (∀ i, (i < n)%nat → f i = g i) → ev n f = ev n g.
Proof.
  induction n as [|n IH]; simpl; intros H; [done|].
  rewrite IH by (intros; apply H; lia). rewrite H by lia. done.
Qed.

Lemma ev_bound n f : (∀ i, (i < n)%nat → digit (f i)) → 0 ≤ ev n f < Bp n.
Proof.
  unfold digit. induction n as [|n IH]; simpl; intros H; [rewrite Bp_0; lia|].
  specialize (IH ltac:(intros; apply H; lia)). specialize (H n ltac:(lia)).
  rewrite Bp_S. pose proof (Bp_pos n). nia.
Qed.

Lemma ev_nonneg n f : (∀ i, (i < n)%nat → digit (f i)) → 0 ≤ ev n f.
Proof. intros H. by apply ev_bound. Qed.

Lemma ev_zeros n k f :
  (n ≤ k)%nat → (∀ i, (n ≤ i < k)%nat → f i = 0) → ev k f = ev n f.
Proof.
  induction 1 as [|k Hk IH]; intros H; [done|]. simpl.
  rewrite (H k) by lia. rewrite IH by (intros; apply H; lia). lia.
Qed.

Lemma ev_split n k f : ev (n + k) f = ev n f + Bp n * ev k (λ i, f (n + i)%nat).
Proof.
  induction k as [|k IH]; [rewrite Nat.add_0_r; simpl; lia|].
  rewrite Nat.add_succ_r. simpl. rewrite IH, Bp_add. lia.
Qed.

Lemma ev_mono n k f :
  (n ≤ k)%nat → (∀ i, (i < k)%nat → digit (f i)) → ev n f ≤ ev k f.
Proof.
  intros Hk H. replace k with (n + (k - n))%nat by lia. rewrite ev_split.
  pose proof (Bp_pos n).
  assert (0 ≤ ev (k - n) (λ i, f (n + i)%nat)); [|nia].
  apply ev_nonneg. intros. apply H. lia.
Qed.

Lemma ev_digit_le n f i :
  (i < n)%nat → (∀ j, (j < n)%nat → digit (f j)) → ev i f + f i * Bp i ≤ ev n f.
Proof. intros Hi H. change (ev (S i) f ≤ ev n f). apply ev_mono; [lia|done]. Qed.

Lemma ev_lower n f :
  (0 < n)%nat → (∀ i, (i < n)%nat → digit (f i)) → f (n - 1)%nat ≠ 0 →
  Bp (n - 1) ≤ ev n f.
Proof.
  intros Hn H Htop. pose proof (ev_digit_le n f (n - 1) ltac:(lia) H).
  pose proof (H (n - 1)%nat ltac:(lia)) as Hd. unfold digit in Hd.
  pose proof (ev_nonneg (n - 1) f ltac:(intros; apply H; lia)).
  pose proof (Bp_pos (n - 1)). nia.
Qed.

(** ** Values of objects *)

(** Magnitude and value of an object. *)
Definition mag (i : Int) : Z := ev (d_ i) (dg (h_ i)).
Definition val (i : Int) : Z := if neg_ i then - mag i else mag i.

(** What an object must satisfy for the functions to stay inside it. *)
Record alloc (i : Int) : Prop := mkAlloc {
  al_len : length (h_ i) = m_ i;
  al_even : Nat.Even (m_ i);
  al_m : (2 ≤ m_ i ≤ 254)%nat;
  al_digits : Forall digit (h_ i)
}.
Record safe (i : Int) : Prop := mkSafe {
  safe_alloc : alloc i;
  safe_d : (1 ≤ d_ i ≤ m_ i)%nat
}.

(** [int_invariant] of the code, less its test of the overflow flag. *)
Record wf (i : Int) : Prop := mkWf {
  wf_safe : safe i;
  wf_pad : Nat.Odd (d_ i) → dg (h_ i) (d_ i) = 0;
  wf_top : (1 < d_ i)%nat → dg (h_ i) (d_ i - 1) ≠ 0
}.

#[export] Hint Resolve wf_safe safe_alloc : core.

Lemma alloc_dg i k : alloc i → digit (dg (h_ i) k).
Proof. intros H. apply dg_Forall; [done|apply H]. Qed.
Lemma safe_dg i k : safe i → digit (dg (h_ i) k).
Proof. intros H. apply alloc_dg, H. Qed.
Lemma wf_dg i k : wf i → digit (dg (h_ i) k).
Proof. intros H. apply safe_dg, H. Qed.

Lemma mag_bound i : safe i → 0 ≤ mag i < Bp (d_ i).
Proof. intros H. apply ev_bound. intros. by apply safe_dg. Qed.

Lemma mag_nonneg i : safe i → 0 ≤ mag i.
Proof. intros H. by apply mag_bound. Qed.

Lemma mag_lower i : wf i → (1 < d_ i)%nat → Bp (d_ i - 1) ≤ mag i.
Proof.
  intros H Hd. apply ev_lower; [lia| |by apply H]. intros. by apply wf_dg.
Qed.

Lemma digits_pos i x : wf x → mag x ≠ 0 → (i < d_ x)%nat → Bp i ≤ mag x.
Proof.
  intros W Hz Hi. pose proof (mag_nonneg x ltac:(auto)).
  destruct (decide (d_ x = 1)%nat).
  - assert (i = 0)%nat as -> by lia. rewrite Bp_0. lia.
  - pose proof (mag_lower x W ltac:(lia)). pose proof (Bp_le i (d_ x - 1) ltac:(lia)). lia.
Qed.

Lemma wf_d_le i k : wf i → (1 ≤ k)%nat → mag i < Bp k → (d_ i ≤ k)%nat.
Proof.
  intros H Hk Hm. destruct (decide (d_ i ≤ 1)%nat); [lia|].
  pose proof (mag_lower i H ltac:(lia)) as Hl.
  assert (d_ i - 1 < k)%nat; [|lia]. apply Bp_lt_inv. lia.
Qed.

Lemma wf_mag_lt_m i : wf i → mag i < Bp (m_ i).
Proof.
  intros H. pose proof (mag_bound i ltac:(apply H)).
  pose proof (Bp_le (d_ i) (m_ i) ltac:(apply H; apply H)). lia.
Qed.

Lemma val_abs i : safe i → Z.abs (val i) = mag i.
Proof. intros H. pose proof (mag_nonneg i H). unfold val. destruct (neg_ i); lia. Qed.

(** An operand read beyond its length counts as zero. *)
Definition zx (i : Int) (k : nat) : Z := if decide (k < d_ i)%nat then dg (h_ i) k else 0.

Lemma zx_digit i k : safe i → digit (zx i k).
Proof. intros H. unfold zx. case_decide; [by apply safe_dg|done]. Qed.

Lemma ev_zx i n : (d_ i ≤ n)%nat → ev n (zx i) = mag i.
Proof.
  intros H. rewrite (ev_zeros (d_ i) n); [|done|].
  - apply ev_ext. intros k Hk. unfold zx. by rewrite decide_True by done.
  - intros k Hk. unfold zx. rewrite decide_False by lia. done.
Qed.

(** A well-formed object with one digit. *)
Lemma mag_d1 i : d_ i = 1%nat → mag i = dg (h_ i) 0.
Proof. intros E. unfold mag. rewrite E. simpl. rewrite Bp_0. lia. Qed.

(** The zero test the code makes. *)
Lemma mag_zero_iff i : wf i → mag i = 0 ↔ d_ i = 1%nat ∧ dg (h_ i) 0 = 0.
Proof.
  intros H. split.
  - intros Hm. assert (d_ i = 1)%nat as E.
    { destruct (decide (d_ i ≤ 1)%nat); [pose proof (safe_d i ltac:(apply H)); lia|].
      pose proof (mag_lower i H ltac:(lia)). pose proof (Bp_pos (d_ i - 1)). lia. }
    split; [done|]. by rewrite <-mag_d1.
  - intros [E E0]. by rewrite mag_d1.
Qed.

