(* ===== verification/IntBasic.v ===== *)
(** * The arbitrary-precision integers: construction, comparison, conversion

    [int_init], [int_set_u], [int_set_i], [int_set_t], [int_shift],
    [int_neg], the comparisons [int_is_zero], [int_is_abs], [int_is],
    [int_is_range] and the conversions to machine integers of
    [cyarg/big-int/big-int.c]. *)
From S2P Require Export IntEval.

(** ** Operations *)

(** [assert(i->m_ != 0 && i->m_ % 2 == 0)] *)
Definition assert_m (i : ptr) : M () :=
  io ← get i; st_assert (negb (m_ io =? 0)%nat && Nat.even (m_ io)).

Definition int_init (i : ptr) : M () :=
  assert_m i ;;
  modify i (set_neg_ false) ;; modify i (set_overflow_ false) ;;
  modify i (set_literal_ false) ;; modify i (set_d_ 1) ;; wr_w i 0 0.

(** [int_init_concrete2], [int_init_concrete4], [int_init_concrete254]:
    [m] is 2, 4, 254. *)
Definition int_init_concrete (m : nat) (i : ptr) : M () :=
  modify i (set_m_ m) ;; modify i (set_obj_ false) ;; int_init i.

(** The loop of [int_set_u]: [n] words are left, [k] is [ip - i->w_]. *)
Fixpoint set_u_loop (n k : nat) (to : Z) (i : ptr) : M (nat * Z) :=
  match n with
  | O => mret (k, to)
  | S n' => if 0 <? to then wr_w i k (u32 to) ;; set_u_loop n' (S k) (to / 4294967296) i
            else mret (k, to)
  end.

Definition int_set_u (to : Z) (i : ptr) : M () :=
  assert_m i ;;
  modify i (set_overflow_ false) ;; modify i (set_neg_ false) ;;
  io ← get i;
  '(k, to) ← set_u_loop (m_ io / 2) 0 to i;
  (if 0 <? to then modify i (set_overflow_ true) else mret ()) ;;
  modify i (set_d_ (k * 2)) ;;
  io ← get i;
  if (d_ io =? 0)%nat then wr_w i 0 0 ;; modify i (set_d_ 1)
  else v ← rd_h i (d_ io - 1);
       if v =? 0 then modify i (set_d_ (d_ io - 1)) else mret ().

Definition INT64_MIN : Z := - 2 ^ 63.
Definition INT64_MAX : Z := 2 ^ 63 - 1.
Definition UINT64_MAX : Z := 2 ^ 64 - 1.

Definition int_set_i (to : Z) (i : ptr) : M () :=
  assert_m i ;;
  modify i (set_overflow_ false) ;;
  let v := if to <? 0 then (if to =? INT64_MIN then 9223372036854775808 else u64 (- to))
           else u64 to in
  int_set_u v i ;;
  modify i (set_neg_ (to <? 0)).

(** [memcpy(i->w_, v->w_, n * sizeof v->w_[0])], a word at a time. *)
Fixpoint copy_words (n : nat) (v i : ptr) : M () :=
  match n with
  | O => mret ()
  | S n' => copy_words n' v i ;; w ← rd_w v n'; wr_w i n' w
  end.

Definition int_set_t (v i : ptr) : M () :=
  io ← get i; vo ← get v;
  st_assert (negb (m_ io =? 0)%nat && Nat.even (m_ io) && (d_ vo <=? m_ io)%nat) ;;
  modify i (set_neg_ (neg_ vo)) ;; modify i (set_overflow_ (overflow_ vo)) ;;
  modify i (set_d_ (d_ vo)) ;;
  copy_words ((d_ vo + 1) / 2) v i.

Definition int_neg (i : ptr) : M () := modify i (λ io, set_neg_ (negb (neg_ io)) io).

Definition int_is_zero (i : ptr) : M bool :=
  v ← rd_h i 0; io ← get i; mret ((v =? 0) && (d_ io =? 1)%nat).

(** The loop of [int_is_abs]: [n] words are left, from the last to the first. *)
Fixpoint is_abs_loop (n : nat) (a b : ptr) : M IntComp :=
  match n with
  | O => mret INT_EQ
  | S k =>
      ad ← rd_w a k; bd ← rd_w b k;
      if bd <? ad then mret INT_GT
      else if ad <? bd then mret INT_LT
      else is_abs_loop k a b
  end.

Definition int_is_abs (a b : ptr) : M IntComp :=
  ao ← get a; bo ← get b;
  if (d_ ao =? d_ bo)%nat then is_abs_loop ((d_ ao + 1) / 2) a b
  else if (d_ bo <? d_ ao)%nat then mret INT_GT
  else mret INT_LT.

Definition int_is (a b : ptr) : M IntComp :=
  if decide (a = b) then mret INT_EQ
  else
    ao ← get a; bo ← get b;
    if negb (eqb (neg_ ao) (neg_ bo)) then
      a0 ← rd_h a 0; b0 ← rd_h b 0;
      if (d_ ao =? 1)%nat && (d_ bo =? 1)%nat && (a0 =? 0) && (b0 =? 0) then mret INT_EQ
      else mret (if neg_ ao then INT_LT else INT_GT)
    else
      r ← int_is_abs a b;
      mret (if neg_ ao then match r with INT_LT => INT_GT | INT_GT => INT_LT | INT_EQ => INT_EQ end
            else r).

Definition int_is_range `{Uninit} (i : ptr) (l u : Z) : M IntRange :=
  with_local 254 (λ t,
    int_init_concrete 254 t ;;
    int_set_u u t ;;
    r ← int_is i t;
    if decide (r = INT_GT) then mret INT_ABOVE
    else
      int_set_i l t ;;
      r ← int_is i t;
      if decide (r = INT_LT) then mret INT_BELOW else mret INT_WITHIN).

(** The moves of [int_shift] over the halfwords: [memmove] and [memset] on
    the array as a whole. *)
Definition memmove (dst src n : nat) (l : list Z) : option (list Z) :=
  if decide (src + n ≤ length l ∧ dst + n ≤ length l)%nat
  then Some (take dst l ++ take n (drop src l) ++ drop (dst + n) l) else None.
Definition memset0 (dst n : nat) (l : list Z) : option (list Z) :=
  if decide (dst + n ≤ length l)%nat
  then Some (take dst l ++ replicate n 0 ++ drop (dst + n) l) else None.
Definition on_h (i : ptr) (f : list Z → option (list Z)) : M () :=
  io ← get i;
  match f (h_ io) with Some l => modify i (set_h_ l) | None => st_fail end.

Definition int_shift (shift : Z) (i : ptr) : M () :=
  io ← get i; h0 ← rd_h i 0;
  if negb (d_ io =? 1)%nat || negb (h0 =? 0) then
    if 0 <=? shift then
      if Z.of_nat (m_ io) <? Z.of_nat (d_ io) + shift then modify i (set_overflow_ true)
      else
        let s := Z.to_nat shift in
        on_h i (memmove s 0 (d_ io)) ;;
        on_h i (memset0 0 s) ;;
        modify i (set_d_ (d_ io + s)) ;;
        io ← get i;
        if (d_ io <? m_ io)%nat then wr_h i (d_ io) 0 else mret ()
    else
      st_assert (0 <=? Z.of_nat (d_ io) + shift) ;;
      let s := Z.to_nat (- shift) in
      on_h i (memmove 0 s (d_ io - s)) ;;
      on_h i (memset0 (d_ io - s) s) ;;
      modify i (set_d_ (d_ io - s)) ;;
      io ← get i;
      if (d_ io =? 0)%nat then modify i (set_d_ 1) ;; h0 ← rd_h i 0; st_assert (h0 =? 0)
      else mret ()
  else mret ().

(** The unions [FourDigits] and [TwoDigits]: a low and a high word. *)
Definition four_digits (i : ptr) : M Z :=
  io ← get i; l ← rd_w i 0;
  h ← (if (d_ io <=? 2)%nat then mret 0 else rd_w i 1);
  mret (l + 4294967296 * h).

Definition int_to_i64 (i : ptr) : M Z :=
  io ← get i; r ← four_digits i;
  if neg_ io then
    if 9223372036854775808 <=? r then mret INT64_MIN else mret (- i64 r)
  else mret (i64 (Z.land r 9223372036854775807)).

Definition int_to_u64 (i : ptr) : M Z :=
  io ← get i; r ← four_digits i;
  mret (if neg_ io then 0 else r).

(** [-r.i32_] overflows, which is undefined behaviour, when [r.i32_] is the
    least [int32_t]. *)
Definition int_to_i32 (i : ptr) : M Z :=
  io ← get i; r ← rd_w i 0;
  if neg_ io then
    let r := if 2147483648 <? r then u32 (- 2147483648) else r in
    st_assert (negb (i32 r =? - 2 ^ 31)) ;; mret (- i32 r)
  else mret (i32 (if 2147483647 <? r then 2147483647 else r)).

Definition int_to_u32 (i : ptr) : M Z := rd_w i 0.

(** ** Runs of the operations

    Each lemma gives the run of one operation on a store: it returns, it
    changes at most its result object, and how.  Objects are read and written
    through pointers, so operands and result may be the same object wherever
    the lemma does not exclude it. *)

Lemma alloc_assert i io (s : store) : s !! i = Some io → alloc io → assert_m i s = Some ((), s).
Proof.
  intros E H. unfold assert_m. step.
  destruct H as [? He ? ?].
  apply st_assert_run. apply andb_true_intro. split.
  - destruct (Nat.eqb_spec (m_ io) 0); [lia|done].
  - by apply Nat.even_spec.
Qed.
#[export] Hint Resolve alloc_assert : st_run.

Ltac fields :=
  unfold set_h_, set_neg_, set_overflow_, set_d_, set_m_, set_obj_, set_literal_;
  cbn [neg_ overflow_ obj_ literal_ d_ m_ h_].
Ltac norm_store :=
  rewrite ?insert_insert_eq; fields;
  repeat match goal with |- context [(?n mod 256)%nat] => rewrite (Nat.mod_small n 256) by lia end.

Lemma dg_insert2 l k v w j :
  (2 * k + 1 < length l)%nat →
  dg (<[(2 * k + 1)%nat := w]> (<[(2 * k)%nat := v]> l)) j =
  if decide (j = 2 * k)%nat then v else if decide (j = 2 * k + 1)%nat then w else dg l j.
Proof.
  intros H. rewrite !dg_insert by (rewrite ?length_insert; lia).
  repeat case_decide; try done; lia.
Qed.

Lemma split32 v : 0 ≤ v → u16 (u32 v) + BASE * u16 (u32 v / 65536) + 4294967296 * (v / 4294967296) = v.
Proof.
  intros Hv. unfold u16, u32.
  pose proof (Z.div_mod v 4294967296 ltac:(lia)).
  pose proof (Z.mod_pos_bound v 4294967296 ltac:(lia)) as Hr.
  change (2 ^ 16) with 65536. change (2 ^ 32) with 4294967296.
  set (r := v mod 4294967296) in *.
  assert (0 ≤ r / 65536 < 65536). { split; [apply Z.div_pos; lia|apply Z.div_lt_upper_bound; lia]. }
  rewrite (Z.mod_small (r / 65536)) by lia.
  pose proof (Z.div_mod r 65536 ltac:(lia)). lia.
Qed.

Lemma alloc_like io R :
  alloc io → m_ R = m_ io → length (h_ R) = length (h_ io) → Forall digit (h_ R) → alloc R.
Proof. intros [H1 H2 H3 H4] Hm Hl Hd. by split; rewrite ?Hm, ?Hl. Qed.

Lemma alloc_eq io R : alloc io → m_ R = m_ io → h_ R = h_ io → alloc R.
Proof. intros H Hm Hh. apply (alloc_like io); rewrite ?Hh; try done. apply H. Qed.

Lemma digit_u16 v : digit (u16 v).
Proof. apply u16_range. Qed.
Lemma digit_0 : digit 0.
Proof. done. Qed.
#[export] Hint Resolve digit_u16 digit_0 : core.

Lemma set_u_loop_run n : ∀ k to i io (s : store),
  s !! i = Some io → alloc io → (2 * (k + n) ≤ m_ io)%nat → 0 ≤ to →
  ∃ l k' to',
    set_u_loop n k to i s = Some ((k', to'), <[i := set_h_ l io]> s) ∧
    length l = length (h_ io) ∧ Forall digit l ∧
    (k ≤ k' ≤ k + n)%nat ∧ 0 ≤ to' ∧ (to' = 0 ∨ k' = (k + n)%nat) ∧ (k' = k → to' = to) ∧
    (∀ j, (j < 2 * k)%nat → dg l j = dg (h_ io) j) ∧
    ev (2 * k') (dg l) + Bp (2 * k') * to' = ev (2 * k) (dg (h_ io)) + Bp (2 * k) * to ∧
    ((k < k')%nat → to' = 0 → dg l (2 * k' - 2) + BASE * dg l (2 * k' - 1) ≠ 0).
Proof.
  induction n as [|n IH]; intros k to i io s E Ha Hm Hto; cbn [set_u_loop].
  - exists (h_ io), k, to. rewrite insert_id by (rewrite E; by destruct io).
    destruct Ha. repeat split; try done; lia.
  - case (Z.ltb_spec 0 to); intros Hpos.
    2:{ exists (h_ io), k, to. rewrite insert_id by (rewrite E; by destruct io).
        destruct Ha. repeat split; try done; lia. }
    pose proof (al_len _ Ha) as Hlen.
    step.
    set (l1 := <[_ := _]> (<[_ := _]> (h_ io))).
    assert (Hl1 : ∀ j, dg l1 j = if decide (j = 2 * k)%nat then u16 (u32 to)
                    else if decide (j = 2 * k + 1)%nat then u16 (u32 to / 65536) else dg (h_ io) j).
    { intros j. unfold l1. apply dg_insert2. lia. }
    assert (length l1 = length (h_ io)) as Hll by (unfold l1; by rewrite !length_insert).
    assert (alloc (set_h_ l1 io)) as Ha1.
    { apply (alloc_like io); [done|done|done|]. unfold l1. do 2 (apply Forall_insert; [|done]). apply Ha. }
    destruct (IH (S k) (to / 4294967296) i (set_h_ l1 io) (<[i:=set_h_ l1 io]> s))
      as (l & k' & to' & E' & Hl & Hd & Hk & Hto' & Hend & Hst & Hfr & Hev & Hnz);
      [apply lookup_insert_eq|done|simpl; lia|apply Z.div_pos; lia|].
    exists l, k', to'. rewrite E', insert_insert_eq.
    split; [done|]. split; [simpl in Hl; lia|]. split; [done|].
    split; [lia|]. split; [done|]. split; [lia|]. split; [lia|].
    split; [intros j Hj; rewrite Hfr by lia; simpl; rewrite Hl1; repeat case_decide; try done; lia|].
    simpl in Hfr. split.
    + rewrite Hev. simpl h_. replace (2 * S k)%nat with (S (S (2 * k))) by lia. cbn [ev].
      rewrite !Hl1. repeat case_decide; try lia. rewrite !Bp_S.
      rewrite (ev_ext (2 * k) (dg l1) (dg (h_ io))).
      2:{ intros j Hj. rewrite Hl1. repeat case_decide; try done; lia. }
      pose proof (split32 to ltac:(lia)). nia.
    + intros _ Hz. destruct (decide (S k < k')%nat) as [Hlt|Hge]; [by apply Hnz|].
      assert (k' = S k) as -> by lia. rewrite !Hfr by lia. rewrite !Hl1.
      repeat case_decide; try lia. pose proof (split32 to ltac:(lia)).
      specialize (Hst eq_refl). lia.
Qed.
Definition kept (io R : Int) : Prop :=
  m_ R = m_ io ∧ obj_ R = obj_ io ∧ literal_ R = literal_ io.

Lemma set_d_u8 d io : (d < 256)%nat → d_ (set_d_ d io) = d.
Proof. intros. simpl. by rewrite Nat.mod_small. Qed.

Lemma even_div2 m : Nat.Even m → (2 * (m / 2) = m)%nat.
Proof. intros [k ->]. rewrite (Nat.mul_comm 2 k), Nat.div_mul by lia. lia. Qed.

Lemma int_set_u_run to i io (s : store) :
  s !! i = Some io → alloc io → 0 ≤ to →
  ∃ R, int_set_u to i s = Some ((), <[i := R]> s) ∧ kept io R ∧ safe R ∧
    neg_ R = false ∧ overflow_ R = negb (to <? Bp (m_ io)) ∧
    (to < Bp (m_ io) → wf R ∧ mag R = to).
Proof.
  intros E Ha Hto. pose proof (al_len _ Ha) as Hlen. pose proof (al_m _ Ha) as Hm.
  pose proof (even_div2 _ (al_even _ Ha)) as Hev2.
  unfold int_set_u. step. step. step. step. norm_store.
  set (io1 := mkInt false false _ _ _ _ _).
  assert (alloc io1) as Ha1 by (destruct Ha; by split).
  destruct (set_u_loop_run (m_ io / 2) 0 to i io1 (<[i:=io1]> s))
    as (l & k' & to' & E' & Hl & Hd & Hk & Hto' & Hend & Hst & Hfr & Hev & Hnz);
    [lk|done|simpl; lia|done|]. simpl in Hl. 
  step_with E'. rewrite insert_insert_eq.
  change (ev (2 * 0) (dg (h_ io1))) with 0 in Hev. change (Bp (2 * 0)) with 1 in Hev.
  assert (∀ j, digit (dg l j)) as Hdl by (intros; by apply dg_Forall).
  pose proof (ev_bound (2 * k') (dg l) ltac:(intros; apply Hdl)) as Hb.
  assert ((0 <? to') = negb (to <? Bp (m_ io))) as Hov.
  { destruct (Z.ltb_spec 0 to'), (Z.ltb_spec to (Bp (m_ io))); try done; exfalso.
    - assert (k' = m_ io / 2)%nat as -> by lia. rewrite Hev2 in *.
      pose proof (Bp_pos (m_ io)). nia.
    - assert (to' = 0) as -> by lia. pose proof (Bp_le (2 * k') (m_ io) ltac:(lia)). lia. }
  assert ((if 0 <? to' then modify i (set_overflow_ true) else mret ()) (<[i:=set_h_ l io1]> s)
    = Some ((), <[i := set_overflow_ (0 <? to') (set_h_ l io1)]> s)) as E2.
  { destruct (0 <? to'); [|done]. erewrite modify_run by lk. by rewrite insert_insert_eq. }
  step_with E2. step. step. norm_store.
  destruct (Nat.eqb_spec (k' * 2) 0) as [Hz|Hz].
  - step. erewrite modify_run by lk. norm_store.
    assert (k' = 0)%nat as -> by lia. pose proof (Hst eq_refl); subst to'.
    eexists; split; [done|]. split; [done|]. split.
    { split; [|simpl; lia]. apply (alloc_like io); [done|done|simpl|simpl].
      - rewrite !length_insert. lia.
      - by do 2 (apply Forall_insert; [|done]). }
    simpl. split; [done|]. split; [by rewrite Hov|]. intros Hfit.
    assert (to = 0) as -> by lia. split.
    + split; simpl; [|intros _|lia].
      * split; [|simpl; lia]. apply (alloc_like io); [done|done|simpl|simpl].
        -- rewrite !length_insert. lia.
        -- by do 2 (apply Forall_insert; [|done]).
      * rewrite (dg_insert2 l 0) by lia. done.
    + rewrite mag_d1 by done. simpl. rewrite (dg_insert2 l 0) by lia. done.
  - step. simpl. 
    set (d := if dg l (k' * 2 - 1) =? 0 then (k' * 2 - 1)%nat else (k' * 2)%nat).
    exists (mkInt false (0 <? to') (obj_ io) (literal_ io) d (m_ io) l).
    split.
    { destruct (dg l (k' * 2 - 1) =? 0); unfold d.
      - erewrite modify_run by lk. norm_store. done.
      - done. }
    split; [done|]. 
    assert (safe (mkInt false (0 <? to') (obj_ io) (literal_ io) d (m_ io) l)) as Hs.
    { split; [by apply (alloc_like io)|]. simpl. unfold d. clear -Hz Hk Hev2 Hm. destruct (_ =? 0); lia. }
    split; [done|]. split; [done|]. split; [done|]. intros Hfit.
    assert (to' = 0) as ->.
    { rewrite (proj2 (Z.ltb_lt to (Bp (m_ io))) Hfit) in Hov. apply Z.ltb_ge in Hov. lia. }
    specialize (Hnz ltac:(lia) eq_refl). replace (2 * k')%nat with (k' * 2)%nat in * by lia.
    assert (dg l (k' * 2 - 1) = 0 → dg l (k' * 2 - 2) ≠ 0) as Hnz' by (intros Hz1; rewrite Hz1 in Hnz; lia).
    split.
    + split; [done| |]; simpl; unfold d; intros Hodd; destruct (Z.eqb_spec (dg l (k' * 2 - 1)) 0); try done.
      * exfalso. destruct Hodd. lia.
      * intros Hc. apply Hnz'; [done|]. by replace (k' * 2 - 2)%nat with (k' * 2 - 1 - 1)%nat by lia.
    + transitivity (ev (k' * 2) (dg l)); [|lia]. unfold mag. simpl. unfold d.
      destruct (Z.eqb_spec (dg l (k' * 2 - 1)) 0); [|done]. symmetry. apply ev_zeros; [lia|].
      intros j Hj. by assert (j = k' * 2 - 1)%nat as -> by lia.
Qed.

Lemma int_set_i_run to i io (s : store) :
  s !! i = Some io → alloc io → INT64_MIN ≤ to ≤ INT64_MAX →
  ∃ R, int_set_i to i s = Some ((), <[i := R]> s) ∧ kept io R ∧ safe R ∧
    neg_ R = (to <? 0) ∧ overflow_ R = negb (Z.abs to <? Bp (m_ io)) ∧
    (Z.abs to < Bp (m_ io) → wf R ∧ val R = to).
Proof.
  unfold INT64_MIN, INT64_MAX. intros E Ha Hto. unfold int_set_i. step. step.
  set (v := if to <? 0 then _ else _).
  assert (v = Z.abs to) as ->.
  { unfold v. destruct (Z.ltb_spec to 0).
    - unfold INT64_MIN. destruct (Z.eqb_spec to (- 2 ^ 63)) as [->|]; [done|].
      rewrite u64_small; lia.
    - rewrite u64_small; lia. }
  set (io1 := set_overflow_ false io).
  assert (alloc io1) as Ha1 by (by apply (alloc_eq io)).
  destruct (int_set_u_run (Z.abs to) i io1 (<[i:=io1]> s)) as (R & ER & HK & HS & HN & HO & HV);
    [lk|done|lia|].
  step_with ER. erewrite modify_run by lk. rewrite !insert_insert_eq.
  exists (set_neg_ (to <? 0) R). split; [done|]. split; [done|].
  destruct HS as [HSa HSd]. split.
  { split; [|done]. by apply (alloc_eq R). }
  split; [done|]. split; [done|]. intros Hfit. destruct (HV Hfit) as [HW HM].
  destruct HW as [? ? ?]. split.
  { split; [|done|done]. split; [|done]. by apply (alloc_eq R). }
  unfold val. simpl. change (mag (set_neg_ (to <? 0) R)) with (mag R). rewrite HM.
  destruct (Z.ltb_spec to 0); lia.
Qed.

(** Copying the first words of an object, itself included. *)
Lemma copy_words_run n v i vo io (s : store) :
  s !! v = Some vo → s !! i = Some io →
  (2 * n ≤ length (h_ vo))%nat → (2 * n ≤ length (h_ io))%nat →
  Forall digit (h_ vo) → Forall digit (h_ io) →
  ∃ l, copy_words n v i s = Some ((), <[i := set_h_ l io]> s) ∧
    length l = length (h_ io) ∧ Forall digit l ∧
    ∀ j, dg l j = if decide (j < 2 * n)%nat then dg (h_ vo) j else dg (h_ io) j.
Proof.
  intros Ev Ei Hv Hi Dv Di. induction n as [|n IH]; cbn [copy_words].
  - exists (h_ io). rewrite insert_id by (rewrite Ei; by destruct io).
    split; [done|]. split; [done|]. split; [done|]. intros. by rewrite decide_False by lia.
  - destruct IH as (l & E & Hl & Hd & Hj); [lia..|]. step_with E.
    set (s1 := <[i:=set_h_ l io]> s).
    assert (rd_w v n s1 = Some (dg (h_ vo) (2 * n) + 65536 * dg (h_ vo) (2 * n + 1), s1)) as Er.
    { destruct (decide (v = i)) as [->|Hne].
      - assert (vo = io) as -> by congruence.
        erewrite rd_w_run; [|apply lookup_insert_eq|simpl; lia]. simpl h_.
        rewrite !Hj. by rewrite !decide_False by lia.
      - erewrite rd_w_run; [done|unfold s1; lk|lia]. }
    step_with Er. unfold s1. erewrite wr_w_run; [|lk|simpl; lia].
    norm_store. eexists. split; [done|]. rewrite !length_insert. split; [done|].
    split; [by do 2 (apply Forall_insert; [|done])|].
    intros j. rewrite dg_insert2 by lia. rewrite Hj.
    pose proof (dg_Forall digit (h_ vo) (2 * n) ltac:(done) Dv) as D1.
    pose proof (dg_Forall digit (h_ vo) (2 * n + 1) ltac:(done) Dv) as D2.
    unfold digit in D1, D2.
    destruct (decide (j = 2 * n)%nat) as [->|]; [|destruct (decide (j = 2 * n + 1)%nat) as [->|]].
    + rewrite decide_True by lia. unfold u16.
      rewrite Z.mul_comm, Z.mod_add by lia. apply Z.mod_small. lia.
    + rewrite decide_True by lia. unfold u16.
      rewrite Z.mul_comm, Z.div_add, Z.div_small by lia. apply Z.mod_small. lia.
    + repeat case_decide; try done; lia.
Qed.

Lemma half_up d : (d ≤ 2 * ((d + 1) / 2) ≤ d + 1)%nat ∧ (Nat.Even d → 2 * ((d + 1) / 2) = d)%nat.
Proof.
  pose proof (Nat.div_mod_eq (d + 1) 2). pose proof (Nat.mod_upper_bound (d + 1) 2 ltac:(lia)).
  split; [lia|]. intros [k ->]. lia.
Qed.

Lemma even_ge_odd d m : Nat.Even m → (d ≤ m)%nat → (2 * ((d + 1) / 2) ≤ m)%nat.
Proof.
  intros [k ->] Hd. destruct (half_up d) as [H1 H2]. destruct (decide (d = 2 * k)%nat) as [->|].
  - rewrite H2; [lia|by exists k].
  - lia.
Qed.

Lemma half_up_odd d : Nat.Odd d → (2 * ((d + 1) / 2) = d + 1)%nat.
Proof.
  intros [k ->]. replace (2 * k + 1 + 1)%nat with ((k + 1) * 2)%nat by lia.
  rewrite Nat.div_mul; lia.
Qed.

Lemma int_set_t_run v i vo io (s : store) :
  s !! v = Some vo → s !! i = Some io → alloc io → safe vo → (d_ vo ≤ m_ io)%nat →
  ∃ R, int_set_t v i s = Some ((), <[i := R]> s) ∧ kept io R ∧ safe R ∧
    neg_ R = neg_ vo ∧ overflow_ R = overflow_ vo ∧ d_ R = d_ vo ∧
    (∀ j, (j < d_ vo)%nat → dg (h_ R) j = dg (h_ vo) j) ∧
    (∀ j, (d_ vo + 1 ≤ j)%nat → dg (h_ R) j = dg (h_ io) j) ∧
    mag R = mag vo ∧ (wf vo → wf R).
Proof.
  intros Ev Ei Ha Hs Hd. pose proof (al_len _ Ha). pose proof (al_m _ Ha).
  pose proof (safe_d _ Hs). pose proof (safe_alloc _ Hs) as Hva. pose proof (al_len _ Hva).
  pose proof (al_m _ Hva).
  unfold int_set_t. step. step.
  erewrite st_bind_run; [|apply st_assert_run].
  2:{ rewrite (proj2 (Nat.even_spec _) (al_even _ Ha)). rewrite (proj2 (Nat.leb_le _ _) Hd).
      destruct (Nat.eqb_spec (m_ io) 0); [lia|done]. }
  step. step. step. norm_store.
  set (io1 := mkInt _ _ _ _ _ _ _).
  assert (∃ vo', (<[i:=io1]> s) !! v = Some vo' ∧ h_ vo' = h_ vo) as (vo' & Ev' & Hh).
  { destruct (decide (v = i)) as [->|]; [exists io1|exists vo].
    - rewrite lookup_insert_eq. by assert (vo = io) as -> by congruence.
    - by rewrite lookup_insert_ne by done. }
  pose proof (even_ge_odd (d_ vo) _ (al_even _ Hva) ltac:(lia)).
  pose proof (even_ge_odd _ _ (al_even _ Ha) Hd).
  destruct (copy_words_run ((d_ vo + 1) / 2) v i vo' io1 (<[i:=io1]> s)) as (l & E & Hl & Hld & Hj);
    [done|lk|rewrite ?Hh; lia|fields; unfold io1; fields; lia|rewrite Hh; by apply Hva|by apply Ha|].
  rewrite E, insert_insert_eq. rewrite Hh in Hj. destruct (half_up (d_ vo)) as [Hu _].
  assert (safe (set_h_ l io1)) as HsR.
  { split; [by apply (alloc_like io)|simpl; lia]. }
  eexists. split; [done|]. split; [done|]. split; [done|].
  do 3 (split; [done|]). simpl.
  assert (∀ j, (j < d_ vo)%nat → dg l j = dg (h_ vo) j) as Hlow.
  { intros j ?. rewrite Hj. by rewrite decide_True by lia. }
  split; [done|]. split; [intros j ?; rewrite Hj; by rewrite decide_False by lia|].
  split; [by apply ev_ext|].
  intros [? Hp Ht]. split; [done| |]; simpl.
  - intros Ho. rewrite Hj. rewrite half_up_odd by done. rewrite decide_True by lia. by apply Hp.
  - intros Ho. rewrite Hlow by lia. by apply Ht.
Qed.

Lemma int_init_run i io (s : store) :
  s !! i = Some io → alloc io →
  ∃ R, int_init i s = Some ((), <[i := R]> s) ∧
    m_ R = m_ io ∧ obj_ R = obj_ io ∧ wf R ∧ mag R = 0 ∧ neg_ R = false ∧
    overflow_ R = false ∧ literal_ R = false ∧ d_ R = 1%nat ∧
    dg (h_ R) 0 = 0 ∧ dg (h_ R) 1 = 0.
Proof.
  intros E H. pose proof (al_len _ H). pose proof (al_m _ H). unfold int_init.
  do 5 step. erewrite wr_w_run; [|lk|fields; lia]. norm_store.
  eexists; split; [done|]. fields.
  assert (∀ j, dg (<[(2 * 0 + 1)%nat:=u16 (0 / 65536)]> (<[(2 * 0)%nat:=u16 0]> (h_ io))) j =
    if decide (j < 2)%nat then 0 else dg (h_ io) j) as Hj.
  { intros j. rewrite dg_insert2 by lia. repeat case_decide; try done; lia. }
  repeat split; fields; rewrite ?Hj; try done; try lia.
  - rewrite !length_insert. lia.
  - apply H.
  - do 2 (apply Forall_insert; [|done]). apply H.
  - rewrite mag_d1 by done. fields. by rewrite Hj.
Qed.

Lemma int_init_concrete_run m i io (s : store) :
  s !! i = Some io → Nat.Even m → (2 ≤ m ≤ 254)%nat → length (h_ io) = m →
  Forall digit (h_ io) →
  ∃ R, int_init_concrete m i s = Some ((), <[i := R]> s) ∧
    m_ R = m ∧ obj_ R = false ∧ wf R ∧ mag R = 0 ∧ neg_ R = false ∧
    overflow_ R = false ∧ d_ R = 1%nat ∧ dg (h_ R) 0 = 0 ∧ dg (h_ R) 1 = 0 ∧
    literal_ R = false.
Proof.
  intros E He Hm Hl Hd. unfold int_init_concrete. do 2 step. rewrite insert_insert_eq.
  set (io1 := set_obj_ false _). assert (alloc io1) as Ha by (constructor; done).
  destruct (int_init_run i io1 (<[i:=io1]> s)) as (R & ER & ? & ? & ? & ? & ? & ? & ? & ?); [lk|done|].
  exists R. rewrite ER, insert_insert_eq. tauto.
Qed.

(** ** Comparisons *)

Definition int_comp (c : comparison) : IntComp :=
  match c with Lt => INT_LT | Eq => INT_EQ | Gt => INT_GT end.

Lemma is_abs_loop_run n a b ao bo (s : store) :
  s !! a = Some ao → s !! b = Some bo →
  (2 * n ≤ length (h_ ao))%nat → (2 * n ≤ length (h_ bo))%nat →
  Forall digit (h_ ao) → Forall digit (h_ bo) →
  is_abs_loop n a b s =
    Some (int_comp (ev (2 * n) (dg (h_ ao)) ?= ev (2 * n) (dg (h_ bo))), s).
Proof.
  intros Ea Eb Ha Hb Da Db. induction n as [|n IH]; cbn [is_abs_loop]; [done|].
  step. step. replace (2 * S n)%nat with (S (S (2 * n))) by lia. cbn [ev].
  replace (2 * n + 1)%nat with (S (2 * n)) by lia. rewrite Bp_S.
  set (fa := dg (h_ ao)) in *. set (fb := dg (h_ bo)) in *.
  assert (∀ j, digit (fa j)) as Dfa by (intros; by apply dg_Forall).
  assert (∀ j, digit (fb j)) as Dfb by (intros; by apply dg_Forall).
  pose proof (ev_bound (2 * n) fa ltac:(intros; apply Dfa)) as Ba.
  pose proof (ev_bound (2 * n) fb ltac:(intros; apply Dfb)) as Bb.
  set (wa := fa (2 * n)%nat + 65536 * fa (S (2 * n))).
  set (wb := fb (2 * n)%nat + 65536 * fb (S (2 * n))).
  assert (ev (2 * n) fa + fa (2 * n)%nat * Bp (2 * n) + fa (S (2 * n)) * (65536 * Bp (2 * n))
    = ev (2 * n) fa + wa * Bp (2 * n)) as -> by (unfold wa; ring).
  assert (ev (2 * n) fb + fb (2 * n)%nat * Bp (2 * n) + fb (S (2 * n)) * (65536 * Bp (2 * n))
    = ev (2 * n) fb + wb * Bp (2 * n)) as -> by (unfold wb; ring).
  destruct (Z.ltb_spec wb wa); [|destruct (Z.ltb_spec wa wb)].
  - rewrite (proj2 (Z.compare_gt_iff _ _)); [done|]. nia.
  - rewrite (proj2 (Z.compare_lt_iff _ _)); [done|]. nia.
  - rewrite IH by lia. do 3 f_equal. assert (wa = wb) as -> by lia.
    by rewrite (Z.add_comm (ev _ fa)), (Z.add_comm (ev _ fb)), Zcompare_plus_compat.
Qed.

Lemma ev_words i : wf i → ev (2 * ((d_ i + 1) / 2)) (dg (h_ i)) = mag i.
Proof.
  intros H. destruct (half_up (d_ i)) as [H1 H2]. unfold mag. apply ev_zeros; [lia|].
  intros j Hj. assert (Nat.Odd (d_ i)) as Ho.
  { destruct (Nat.Even_or_Odd (d_ i)) as [He|Ho]; [specialize (H2 He); lia|done]. }
  assert (j = d_ i) as -> by lia. by apply H.
Qed.

Lemma wf_words i : wf i → (2 * ((d_ i + 1) / 2) ≤ length (h_ i))%nat.
Proof.
  intros H. assert (safe i) as Hs by auto. assert (alloc i) as Ha by auto.
  rewrite (al_len _ Ha). apply even_ge_odd; [apply Ha|]. apply Hs.
Qed.

Lemma mag_lt_of_d a b : wf a → wf b → (d_ a < d_ b)%nat → mag a < mag b.
Proof.
  intros Ha Hb Hd. pose proof (mag_bound a ltac:(auto)).
  pose proof (safe_d a ltac:(auto)).
  pose proof (mag_lower b Hb ltac:(lia)). pose proof (Bp_le (d_ a) (d_ b - 1) ltac:(lia)). lia.
Qed.

Lemma int_is_abs_run a b ao bo (s : store) :
  s !! a = Some ao → s !! b = Some bo → wf ao → wf bo →
  int_is_abs a b s = Some (int_comp (mag ao ?= mag bo), s).
Proof.
  intros Ea Eb Ha Hb. unfold int_is_abs. step. step.
  destruct (Nat.eqb_spec (d_ ao) (d_ bo)) as [Hd|Hd]; [|destruct (Nat.ltb_spec (d_ bo) (d_ ao))].
  - erewrite is_abs_loop_run; [|done..| | | |].
    + rewrite ev_words by done. rewrite Hd, ev_words by done. done.
    + by apply wf_words.
    + rewrite Hd. by apply wf_words.
    + apply al_digits; auto.
    + apply al_digits; auto.
  - rewrite (proj2 (Z.compare_gt_iff _ _)); [done|]. by apply mag_lt_of_d.
  - rewrite (proj2 (Z.compare_lt_iff _ _)); [done|]. apply mag_lt_of_d; [done..|lia].
Qed.

Lemma int_is_zero_run i io (s : store) :
  s !! i = Some io → wf io → int_is_zero i s = Some (mag io =? 0, s).
Proof.
  intros E H. assert (0 < length (h_ io))%nat.
  { pose proof (wf_words io H). destruct (half_up (d_ io)). pose proof (safe_d io ltac:(auto)). lia. }
  unfold int_is_zero. step. step. rewrite st_ret_run. do 2 f_equal.
  destruct (Z.eqb_spec (mag io) 0) as [Hz|Hz]; rewrite (mag_zero_iff io H) in Hz.
  - destruct Hz as [-> ->]. done.
  - destruct (Z.eqb_spec (dg (h_ io) 0) 0), (Nat.eqb_spec (d_ io) 1); try done. tauto.
Qed.

Lemma int_is_run a b ao bo (s : store) :
  s !! a = Some ao → s !! b = Some bo → wf ao → wf bo →
  int_is a b s = Some (int_comp (val ao ?= val bo), s).
Proof.
  intros Ea Eb Ha Hb. unfold int_is. case_decide as Heq.
  { assert (ao = bo) as -> by congruence. by rewrite Z.compare_refl. }
  step. step. pose proof (mag_nonneg ao ltac:(auto)).
  pose proof (mag_nonneg bo ltac:(auto)).
  pose proof (wf_words ao Ha). pose proof (wf_words bo Hb).
  destruct (half_up (d_ ao)), (half_up (d_ bo)).
  pose proof (safe_d ao ltac:(auto)). pose proof (safe_d bo ltac:(auto)).
  destruct (Bool.eqb (neg_ ao) (neg_ bo)) eqn:En; cbn [negb].
  - step_with (int_is_abs_run a b ao bo s Ea Eb Ha Hb). apply Bool.eqb_prop in En.
    unfold val. rewrite <-En. destruct (neg_ ao); [|done].
    rewrite Z.compare_opp. rewrite (Z.compare_antisym (mag bo) (mag ao)).
    by destruct (mag bo ?= mag ao).
  - step. step.
    assert (Hz : (d_ ao =? 1)%nat && (d_ bo =? 1)%nat && (dg (h_ ao) 0 =? 0) && (dg (h_ bo) 0 =? 0)
      = (mag ao =? 0) && (mag bo =? 0)).
    { pose proof (mag_zero_iff ao Ha). pose proof (mag_zero_iff bo Hb).
      destruct (Nat.eqb_spec (d_ ao) 1), (Nat.eqb_spec (d_ bo) 1),
        (Z.eqb_spec (dg (h_ ao) 0) 0), (Z.eqb_spec (dg (h_ bo) 0) 0),
        (Z.eqb_spec (mag ao) 0), (Z.eqb_spec (mag bo) 0); tauto. }
    rewrite Hz. unfold val.
    destruct (Z.eqb_spec (mag ao) 0) as [->|]; destruct (Z.eqb_spec (mag bo) 0) as [->|];
      cbn [andb]; rewrite st_ret_run; do 2 f_equal;
      destruct (neg_ ao), (neg_ bo); try done; symmetry;
      try (rewrite (proj2 (Z.compare_lt_iff _ _)); [done|lia]);
      try (rewrite (proj2 (Z.compare_gt_iff _ _)); [done|lia]).
Qed.

(** ** Moving halfwords *)
Lemma dg_app l1 l2 j :
  dg (l1 ++ l2) j = if decide (j < length l1)%nat then dg l1 j else dg l2 (j - length l1).
Proof.
  unfold dg. case_decide.
  - by rewrite lookup_app_l.
  - by rewrite lookup_app_r by lia.
Qed.
Lemma dg_take n l j : dg (take n l) j = if decide (j < n)%nat then dg l j else 0.
Proof.
  unfold dg. case_decide; [by rewrite lookup_take_lt|by rewrite lookup_take_ge by lia].
Qed.
Lemma dg_drop n l j : dg (drop n l) j = dg l (n + j).
Proof. unfold dg. by rewrite lookup_drop. Qed.
Lemma dg_replicate0 n j : dg (replicate n 0) j = 0.
Proof.
  unfold dg. destruct (replicate n 0 !! j) eqn:E; [|done].
  by apply lookup_replicate in E as [-> _].
Qed.

Lemma memmove_spec dst src n l :
  (src + n ≤ length l)%nat → (dst + n ≤ length l)%nat →
  ∃ l', memmove dst src n l = Some l' ∧ length l' = length l ∧
    (Forall digit l → Forall digit l') ∧
    ∀ j, dg l' j = if decide (dst ≤ j < dst + n)%nat then dg l (src + (j - dst)) else dg l j.
Proof.
  intros Hs Hd. unfold memmove. rewrite decide_True by lia. eexists. split; [done|].
  split; [rewrite !length_app, !length_take, !length_drop; lia|]. split.
  { intros H. repeat apply Forall_app_2;
      repeat first [apply Forall_take | apply Forall_drop]; done. }
  intros j. rewrite !dg_app, !dg_take, !dg_drop, !length_take, !length_drop.
  repeat case_decide; try lia; f_equal; lia.
Qed.

Lemma memset0_spec dst n l :
  (dst + n ≤ length l)%nat →
  ∃ l', memset0 dst n l = Some l' ∧ length l' = length l ∧
    (Forall digit l → Forall digit l') ∧
    ∀ j, dg l' j = if decide (dst ≤ j < dst + n)%nat then 0 else dg l j.
Proof.
  intros Hd. unfold memset0. rewrite decide_True by lia. eexists. split; [done|].
  split; [rewrite !length_app, !length_take, !length_drop, length_replicate; lia|]. split.
  { intros H. repeat apply Forall_app_2; [by apply Forall_take| |by apply Forall_drop].
    apply Forall_replicate. done. }
  intros j. rewrite !dg_app, !dg_take, !dg_drop, dg_replicate0, !length_take, length_replicate.
  repeat case_decide; try lia; f_equal; lia.
Qed.

Lemma on_h_run i f io l (s : store) :
  s !! i = Some io → f (h_ io) = Some l → on_h i f s = Some ((), <[i := set_h_ l io]> s).
Proof. intros E Ef. unfold on_h. step. rewrite Ef. by apply modify_run. Qed.

Definition int_zero_test (io : Int) : bool := (d_ io =? 1)%nat && (dg (h_ io) 0 =? 0).

Lemma zero_test_mag io : wf io → int_zero_test io = (mag io =? 0).
Proof.
  intros H. pose proof (mag_zero_iff io H). unfold int_zero_test.
  destruct (Nat.eqb_spec (d_ io) 1), (Z.eqb_spec (dg (h_ io) 0) 0), (Z.eqb_spec (mag io) 0); tauto.
Qed.

(** [int_shift] to the left. *)
Lemma int_shift_left_run n i io (s : store) :
  s !! i = Some io → wf io →
  ∃ R, int_shift (Z.of_nat n) i s = Some ((), <[i := R]> s) ∧ kept io R ∧ neg_ R = neg_ io ∧
    (mag io = 0 → R = io) ∧
    (mag io ≠ 0 → (m_ io < d_ io + n)%nat → R = set_overflow_ true io) ∧
    (mag io ≠ 0 → (d_ io + n ≤ m_ io)%nat →
       wf R ∧ mag R = mag io * Bp n ∧ d_ R = (d_ io + n)%nat ∧ overflow_ R = overflow_ io).
Proof.
  intros E H. assert (safe io) as Hs by auto. assert (alloc io) as Ha by auto.
  pose proof (al_len _ Ha). pose proof (al_m _ Ha). pose proof (safe_d _ Hs).
  unfold int_shift. step. step.
  rewrite <-negb_andb. change (_ && _) with (int_zero_test io). rewrite zero_test_mag by done.
  destruct (Z.eqb_spec (mag io) 0) as [Hz|Hz]; cbn [negb].
  { exists io. rewrite insert_id by done. rewrite st_ret_run. done. }
  rewrite (proj2 (Z.leb_le 0 _)) by lia. rewrite Nat2Z.id.
  destruct (Z.ltb_spec (Z.of_nat (m_ io)) (Z.of_nat (d_ io) + Z.of_nat n)) as [Hlt|Hge].
  { erewrite modify_run by done. eexists. split; [done|]. split; [done|]. split; [done|].
    split; [done|]. split; [done|]. lia. }
  destruct (memmove_spec n 0 (d_ io) (h_ io)) as (l1 & E1 & L1 & F1 & D1); [lia..|].
  step_with (on_h_run i _ io l1 s E E1).
  destruct (memset0_spec 0 n l1) as (l2 & E2 & L2 & F2 & D2); [lia|].
  erewrite st_bind_run; [|eapply on_h_run; [lk|exact E2]]. cbv beta.
  step. step. norm_store.
  set (d := (d_ io + n)%nat).
  set (l3 := if (d <? m_ io)%nat then <[d := 0]> l2 else l2).
  assert (Forall digit l3) as F3.
  { unfold l3. pose proof (F2 (F1 (al_digits _ Ha))). case_match; [|done].
    by apply Forall_insert. }
  assert (length l3 = length (h_ io)) as L3.
  { unfold l3. case_match; rewrite ?length_insert; lia. }
  assert (∀ j, (j < d)%nat → dg l3 j = if decide (j < n)%nat then 0 else dg (h_ io) (j - n)) as D3.
  { intros j Hj. unfold l3. assert (dg l2 j = if decide (j < n)%nat then 0 else dg (h_ io) (j - n)) as Dj.
    { rewrite D2, D1. unfold d in *. repeat case_decide; try lia; f_equal; lia. }
    destruct (d <? m_ io)%nat eqn:Ed; [|done]. apply Nat.ltb_lt in Ed.
    rewrite dg_insert by lia. rewrite decide_False by lia. done. }
  exists (mkInt (neg_ io) (overflow_ io) (obj_ io) (literal_ io) d (m_ io) l3).
  split.
  { unfold l3. fold d. destruct (d <? m_ io)%nat eqn:Ed; [|done]. apply Nat.ltb_lt in Ed.
    erewrite wr_h_run; [|lk|fields; lia]. by norm_store. }
  split; [done|]. split; [done|]. split; [done|]. split; [lia|]. intros _ _.
  assert (safe (mkInt (neg_ io) (overflow_ io) (obj_ io) (literal_ io) d (m_ io) l3)) as HsR.
  { split; [by apply (alloc_like io)|]. simpl. unfold d. lia. }
  split; [|split; [|done]].
  - split; [done| |]; fields.
    + intros Ho. assert (d < m_ io)%nat.
      { destruct (al_even _ Ha) as [k Hk]. destruct Ho as [k' Hk']. unfold d in *. lia. }
      unfold l3. rewrite (proj2 (Nat.ltb_lt _ _)) by done. rewrite dg_insert by lia.
      by rewrite decide_True by done.
    + intros _. rewrite D3 by (unfold d; lia). unfold d. rewrite decide_False by lia.
      replace (d_ io + n - 1 - n)%nat with (d_ io - 1)%nat by lia.
      destruct (decide (d_ io = 1)%nat) as [E1d|]; [|apply H; lia].
      rewrite mag_d1 in Hz by done. by rewrite E1d.
  - unfold mag. fields. unfold d. rewrite Nat.add_comm, ev_split.
    rewrite (ev_zeros 0 n) by (try intros; try lia; rewrite D3 by (unfold d; lia); by rewrite decide_True by lia).
    cbn [ev]. rewrite (ev_ext (d_ io) (λ j, dg l3 (n + j)%nat) (dg (h_ io))); [lia|].
    intros j Hj. rewrite D3 by (unfold d; lia). rewrite decide_False by lia. f_equal. lia.
Qed.

Lemma ev_div n k f :
  (∀ i, (i < n + k)%nat → digit (f i)) → ev (n + k) f / Bp n = ev k (λ i, f (n + i)%nat).
Proof.
  intros H. rewrite ev_split. pose proof (ev_bound n f ltac:(intros; apply H; lia)).
  pose proof (Bp_pos n). rewrite Z.mul_comm, Z.div_add by lia. rewrite Z.div_small; lia.
Qed.

(** [int_shift] to the right: the low digits are lost. *)
Lemma int_shift_right_run n i io (s : store) :
  s !! i = Some io → wf io → (1 ≤ n ≤ d_ io)%nat →
  ∃ R, int_shift (- Z.of_nat n) i s = Some ((), <[i := R]> s) ∧ kept io R ∧ neg_ R = neg_ io ∧
    overflow_ R = overflow_ io ∧ wf R ∧ mag R = mag io / Bp n ∧
    ((n < d_ io)%nat → d_ R = (d_ io - n)%nat).
Proof.
  intros E H Hn. assert (safe io) as Hs by auto. assert (alloc io) as Ha by auto.
  pose proof (al_len _ Ha). pose proof (al_m _ Ha). pose proof (safe_d _ Hs).
  unfold int_shift. step. step.
  rewrite <-negb_andb. change (_ && _) with (int_zero_test io). rewrite zero_test_mag by done.
  destruct (Z.eqb_spec (mag io) 0) as [Hz|Hz]; cbn [negb].
  { exists io. rewrite insert_id by done. rewrite st_ret_run, Hz, Z.div_0_l by (pose proof (Bp_pos n); lia).
    apply (mag_zero_iff io H) in Hz as [Hz _]. repeat split; try done; try apply H. lia. }
  rewrite (proj2 (Z.leb_gt 0 _)) by lia.
  erewrite st_bind_run; [|apply st_assert_run; apply Z.leb_le; lia].
  rewrite Z.opp_involutive, Nat2Z.id.
  destruct (memmove_spec 0 n (d_ io - n) (h_ io)) as (l1 & E1 & L1 & F1 & D1); [lia..|].
  step_with (on_h_run i _ io l1 s E E1).
  destruct (memset0_spec (d_ io - n) n l1) as (l2 & E2 & L2 & F2 & D2); [lia|].
  erewrite st_bind_run; [|eapply on_h_run; [lk|exact E2]]. cbv beta.
  step. step. norm_store.
  assert (Forall digit l2) as F3 by (apply F2, F1, Ha).
  assert (∀ j, dg l2 j = if decide (j < d_ io - n)%nat then dg (h_ io) (n + j)
                         else if decide (j < d_ io)%nat then 0 else dg (h_ io) j) as D3.
  { intros j. rewrite D2, D1. repeat case_decide; try lia; try done. f_equal. lia. }
  assert (mag io / Bp n = ev (d_ io - n) (λ j, dg (h_ io) (n + j)%nat)) as Hdiv.
  { unfold mag. replace (d_ io) with (n + (d_ io - n))%nat at 1 by lia.
    apply ev_div. intros. by apply alloc_dg. }
  set (R := λ d, mkInt (neg_ io) (overflow_ io) (obj_ io) (literal_ io) d (m_ io) l2).
  assert (∀ d, (1 ≤ d ≤ m_ io)%nat → safe (R d)) as HsR.
  { intros. split; [by apply (alloc_like io); [| |simpl; lia|]|done]. }
  destruct (Nat.eqb_spec (d_ io - n) 0) as [Hd0|Hd0].
  - step. norm_store. step. fields.
    rewrite st_assert_run by (rewrite D3; repeat case_decide; [lia|done|lia]).
    exists (R 1%nat). split; [done|]. do 3 (split; [done|]). rewrite Hdiv, Hd0.
    split; [|split; [|lia]].
    + split; [apply HsR; lia| |]; simpl; [|lia]. intros _. rewrite D3.
      repeat case_decide; [lia|done|]. assert (d_ io = 1)%nat as Ed1 by lia.
      rewrite <-Ed1. apply H. rewrite Ed1. by exists 0%nat.
    + rewrite mag_d1 by done. simpl. rewrite D3. repeat case_decide; [lia|done|lia].
  - exists (R (d_ io - n)%nat). split; [done|]. do 3 (split; [done|]). rewrite Hdiv.
    split; [|split; [|done]].
    + split; [apply HsR; lia| |]; simpl; intros Ho; rewrite D3; repeat case_decide; try lia; try done.
      * replace (n + (d_ io - n - 1))%nat with (d_ io - 1)%nat by lia. apply H. lia.
    + unfold mag. simpl. apply ev_ext. intros j Hj. rewrite D3. by rewrite decide_True by done.
Qed.

Lemma int_neg_run i io (s : store) :
  s !! i = Some io → int_neg i s = Some ((), <[i := set_neg_ (negb (neg_ io)) io]> s).
Proof. intros E. unfold int_neg. by apply (modify_run i (λ io, set_neg_ (negb (neg_ io)) io)). Qed.

(** ** Local objects *)
Lemma uninit_take m `{U : Uninit} :
  (m ≤ 254)%nat → length (take m (h_ uninit)) = m ∧ Forall digit (take m (h_ uninit)).
Proof.
  intros Hm. pose proof uninit_length. rewrite length_take. split; [lia|].
  apply Forall_take, uninit_digits.
Qed.

(** A local object that [int_init_concreteX] has initialised: whatever its
    address and its indeterminate digits, the block returns with [Q]. *)
Lemma with_local_ex `{U : Uninit} {A} m (k : ptr → M A) (s : store) (Q : A → store → Prop) :
  Nat.Even m → (2 ≤ m ≤ 254)%nat →
  (∀ p L, s !! p = None → m_ L = m → wf L → mag L = 0 → neg_ L = false → overflow_ L = false →
     ∃ a s', k p (<[p := L]> s) = Some (a, s') ∧ Q a (delete p s')) →
  ∃ a s', with_local m (λ p, int_init_concrete m p ;; k p) s = Some (a, s') ∧ Q a s'.
Proof.
  intros He Hm Hk. unfold with_local, with_object.
  set (p := fresh_ptr s). pose proof (fresh_ptr_None s : s !! p = None) as Hp.
  destruct (uninit_take m) as [Hl Hd]; [lia|].
  destruct (int_init_concrete_run m p (set_h_ (take m (h_ uninit)) uninit)
    (<[p := set_h_ (take m (h_ uninit)) uninit]> s)) as (L & EL & HL); [lk|done..|].
  step_with EL. rewrite insert_insert_eq.
  destruct HL as (?&?&?&?&?&?&?&?&?).
  destruct (Hk p L) as (a & s' & E & HQ); [done..|].
  rewrite E. by exists a, (delete p s').
Qed.

Lemma with_local_run `{U : Uninit} {A} m (k : ptr → M A) (s s' : store) (a : A) :
  Nat.Even m → (2 ≤ m ≤ 254)%nat →
  (∀ p L, s !! p = None → m_ L = m → wf L → mag L = 0 → neg_ L = false → overflow_ L = false →
     s' !! p = None ∧ ∃ L', k p (<[p := L]> s) = Some (a, <[p := L']> s')) →
  with_local m (λ p, int_init_concrete m p ;; k p) s = Some (a, s').
Proof.
  intros He Hm Hk.
  destruct (with_local_ex m k s (λ a' s'', a' = a ∧ s'' = s')) as (a' & s'' & E & -> & ->); try done.
  intros p L Hp H1 H2 H3 H4 H5. destruct (Hk p L Hp H1 H2 H3 H4 H5) as [Hs (L' & E)].
  exists a, (<[p := L']> s'). split; [done|]. split; [done|]. by apply delete_insert_id.
Qed.

Lemma int_is_range_run `{U : Uninit} i l u io (s : store) :
  s !! i = Some io → wf io → INT64_MIN ≤ l ≤ INT64_MAX → 0 ≤ u ≤ UINT64_MAX →
  int_is_range i l u s =
    Some (if u <? val io then INT_ABOVE else if val io <? l then INT_BELOW else INT_WITHIN, s).
Proof.
  intros E H Hl Hu. unfold int_is_range.
  assert (2 ^ 64 < Bp 254) as HB by (vm_compute; done).
  unfold INT64_MIN, INT64_MAX, UINT64_MAX in *.
  apply with_local_run; [by exists 127%nat|lia|].
  intros p L Hp HL HwL _ _ _. split; [done|].
  assert (p ≠ i) as Hpi by congruence.
  destruct (int_set_u_run u p L (<[p:=L]> s)) as (R & ER & HK & HS & HN & HO & HV); [lk|auto|lia|].
  step_with ER. rewrite insert_insert_eq. destruct (HV ltac:(rewrite HL; lia)) as [HwR HmR].
  erewrite st_bind_run; [|eapply (int_is_run i p io R); [lk|lk|done|done]]. cbv beta.
  assert (val R = u) as HvR by (unfold val; by rewrite HN).
  rewrite HvR. destruct (Z.ltb_spec u (val io)) as [Hlt|Hge].
  { rewrite (proj2 (Z.compare_gt_iff _ _)) by done. by exists R. }
  rewrite decide_False by (destruct (Z.compare_spec (val io) u); [done|done|lia]).
  destruct HK as (HKm & _ & _).
  destruct (int_set_i_run l p R (<[p:=R]> s)) as (R' & ER' & _ & _ & _ & _ & HV'); [lk|auto|done|].
  step_with ER'. rewrite insert_insert_eq. destruct (HV' ltac:(rewrite HKm, HL; lia)) as [HwR' HvR'].
  erewrite st_bind_run; [|eapply (int_is_run i p io R'); [lk|lk|done|done]]. cbv beta.
  rewrite HvR'. exists R'.
  destruct (Z.ltb_spec (val io) l) as [Hlt|Hge'].
  - by rewrite (proj2 (Z.compare_lt_iff _ _)) by done.
  - by destruct (Z.compare_spec (val io) l); [| lia |].
Qed.

(** ** Conversions to machine integers *)

Lemma wf_zx i k : wf i → (k < 2 * ((d_ i + 1) / 2))%nat → zx i k = dg (h_ i) k.
Proof.
  intros H Hk. unfold zx. case_decide; [done|].
  destruct (half_up (d_ i)) as [Hu1 Hu2]. destruct (Nat.Even_or_Odd (d_ i)) as [He|Ho]; [specialize (Hu2 He); lia|].
  rewrite half_up_odd in Hk by done. assert (k = d_ i) as -> by lia. symmetry. by apply H.
Qed.

Lemma ev_mod n k f :
  (∀ i, (i < n + k)%nat → digit (f i)) → ev (n + k) f mod Bp n = ev n f.
Proof.
  intros H. rewrite ev_split. pose proof (ev_bound n f ltac:(intros; apply H; lia)).
  pose proof (Bp_pos n). rewrite Z.mul_comm, Z.mod_add by lia. apply Z.mod_small. lia.
Qed.

Lemma mag_mod i k : wf i → mag i mod Bp k = ev k (zx i).
Proof.
  intros H. assert (∀ j, digit (zx i j)) as D by (intros; apply zx_digit; auto).
  rewrite <-(ev_zx i (k + d_ i)) by lia. apply ev_mod. intros. apply D.
Qed.

Lemma rd_w0_run i io (s : store) :
  s !! i = Some io → wf io → rd_w i 0 s = Some (mag io mod 2 ^ 32, s).
Proof.
  intros E H. pose proof (safe_d io ltac:(auto)). destruct (half_up (d_ io)) as [Hu1 Hu2].
  pose proof (wf_words io H).
  erewrite rd_w_run; [|done|lia]. change (2 ^ 32) with (Bp 2). rewrite mag_mod by done.
  cbn [ev]. rewrite !wf_zx by (try done; lia). rewrite Bp_0, Bp_S, Bp_0. simpl. do 2 f_equal. lia.
Qed.

Lemma four_digits_run i io (s : store) :
  s !! i = Some io → wf io → four_digits i s = Some (mag io mod 2 ^ 64, s).
Proof.
  intros E H. pose proof (safe_d io ltac:(auto)). destruct (half_up (d_ io)) as [Hu1 Hu2].
  pose proof (wf_words io H). unfold four_digits. step.
  step_with (rd_w0_run i io s E H).
  assert (mag io mod 2 ^ 64 = mag io mod 2 ^ 32 + 4294967296 * (zx io 2 + BASE * zx io 3)) as ->.
  { change (2 ^ 64) with (Bp 4). change (2 ^ 32) with (Bp 2). rewrite !mag_mod by done.
    cbn [ev]. rewrite !Bp_S, Bp_0. lia. }
  destruct (Nat.leb_spec (d_ io) 2) as [Hd|Hd].
  - step. rewrite st_ret_run. do 2 f_equal. unfold zx. rewrite !decide_False by lia. lia.
  - assert (2 * 1 + 1 < length (h_ io))%nat.
    { assert (d_ io = 3 ∨ 4 ≤ d_ io)%nat as [E3|] by lia; [|lia].
      rewrite half_up_odd in * by (exists 1%nat; lia). lia. }
    erewrite st_bind_run; [|by eapply rd_w_run]. rewrite st_ret_run.
    do 2 f_equal. rewrite !wf_zx; [done|done| |done|];
    (destruct (Nat.Even_or_Odd (d_ io)) as [He|Ho];
      [destruct He; rewrite Hu2 by (by eexists); lia|rewrite half_up_odd by done; lia]).
Qed.
