(* ===== verification/IntAddSub.v ===== *)
(** * The arbitrary-precision integers: addition and subtraction

    [addPos], [subAGtB], [int_sub_abs], [int_add] and [int_sub] of
    [cyarg/big-int/big-int.c], in place on the store: the result may be
    either operand, as in [int_add(r, &pp, r)]. *)
From S2P Require Export IntBasic.

Section AddPos.
Variables a b r : ptr.
Variables (m da db : nat).  (* r->m_, a->d_, b->d_ at entry *)

(** The digit loop: [n] iterations are left, [i] is [ap - a->w_] and
    [bp - b->w_], [rp] an index into [r].  [None] is the early return. *)
Fixpoint addPos_loop (n i rp : nat) (carry : Z) : M (option (nat * Z)) :=
  match n with
  | O => mret (Some (rp, carry))
  | S n' =>
      ps ← (if (da <=? i)%nat then bd ← rd_h b i; mret (u32 (bd + carry))
            else if (db <=? i)%nat then ad ← rd_h a i; mret (u32 (ad + carry))
            else ad ← rd_h a i; bd ← rd_h b i; mret (u32 (ad + bd + carry)));
      if (rp <? m)%nat then
        wr_h r rp (u16 ps) ;; addPos_loop n' (S i) (S rp) (u16 (ps / 65536))
      else if negb (ps =? 0) then modify r (set_overflow_ true) ;; mret None
      else addPos_loop n' (S i) rp carry
  end.

(** What follows the loop. *)
Definition addPos_end (rp : nat) (carry : Z) : M () :=
  rp ← (if (rp <? m)%nat then
          wr_h r rp carry ;;
          if 0 <? carry then
            (if (S rp <? m)%nat then wr_h r (S rp) 0 else mret ()) ;; mret (S rp)
          else mret rp
        else
          (if 0 <? carry then modify r (set_overflow_ true) else mret ()) ;; mret rp);
  modify r (set_d_ rp).
End AddPos.

Definition addPos (a b r : ptr) : M () :=
  ro ← get r; ao ← get a; bo ← get b;
  res ← addPos_loop a b r (m_ ro) (d_ ao) (d_ bo) (Nat.max (d_ ao) (d_ bo)) 0 0 0;
  match res with
  | Some (rp, carry) => addPos_end r (m_ ro) rp carry
  | None => mret ()
  end.

Section SubAGtB.
Variables a b r : ptr.
Variables (m db : nat).

(** [n] iterations are left; the result is [Some rp], or [None] for the early
    return. *)
Fixpoint subAGtB_loop (n i rp : nat) (borrow : Z) : M (option nat) :=
  match n with
  | O => mret (Some rp)
  | S n' =>
      ad ← rd_h a i;
      bd ← (if (i <? db)%nat then rd_h b i else mret 0);
      let pd := u32 (bd + borrow) in
      let borrow' := if ad <? pd then 1 else 0 in
      let pd' := if ad <? pd then u32 (65536 + ad - pd) else u32 (ad - pd) in
      st_assert (u16 (pd' / 65536) =? 0) ;;
      if (rp <? m)%nat then
        wr_h r rp (u16 pd') ;; subAGtB_loop n' (S i) (S rp) borrow'
      else if negb (u16 pd' =? 0) then modify r (set_overflow_ true) ;; mret None
      else subAGtB_loop n' (S i) rp borrow'
  end.

(** [while (r->d_ > 1 && rh[r->d_ - 1] == 0) r->d_--;]: at most [n] times. *)
Fixpoint trim_loop (n : nat) : M () :=
  ro ← get r;
  if (1 <? d_ ro)%nat then
    v ← rd_h r (d_ ro - 1);
    if v =? 0 then
      match n with
      | O => st_fail
      | S n' => modify r (set_d_ (d_ ro - 1)) ;; trim_loop n'
      end
    else mret ()
  else mret ().
End SubAGtB.

Definition subAGtB (a b r : ptr) : M () :=
  ro ← get r; ao ← get a; bo ← get b;
  res ← subAGtB_loop a b r (m_ ro) (d_ bo) (d_ ao) 0 0 0;
  match res with
  | None => mret ()
  | Some rp =>
      modify r (set_d_ rp) ;;
      ro ← get r;
      (if Nat.odd (d_ ro) then wr_h r (d_ ro) 0 else mret ()) ;;
      trim_loop r (d_ ro)
  end.

Definition int_sub_abs (a b r : ptr) : M () :=
  comp ← int_is_abs a b;
  if decide (comp = INT_LT) then subAGtB b a r ;; modify r (set_neg_ true)
  else subAGtB a b r ;; modify r (set_neg_ false).

Definition int_add (a b r : ptr) : M () :=
  ao ← get a; bo ← get b;
  if neg_ ao then
    if neg_ bo then addPos a b r ;; modify r (set_neg_ true)
    else int_sub_abs b a r
  else
    if neg_ bo then int_sub_abs a b r
    else addPos a b r ;; modify r (set_neg_ false).

Definition int_sub (a b r : ptr) : M () :=
  ao ← get a; bo ← get b;
  if neg_ ao then
    if neg_ bo then int_sub_abs b a r
    else addPos a b r ;; modify r (set_neg_ true)
  else
    if neg_ bo then addPos a b r ;; modify r (set_neg_ false)
    else int_sub_abs a b r.

(** ** In-place reads

    The loops write [r] from the bottom up and read the operands at or above
    the position written next, so an operand that is [r] is still intact
    there. *)
Section InPlace.
Variables (r : ptr) (ro : Int) (s0 : store) (l : list Z) (i : nat).
Hypothesis Hr : s0 !! r = Some ro.
Hypothesis Hl : length l = length (h_ ro).
Hypothesis Hfr : ∀ j, (i ≤ j)%nat → dg l j = dg (h_ ro) j.

Lemma rd_in_place a ao j :
  s0 !! a = Some ao → (i ≤ j < length (h_ ao))%nat →
  rd_h a j (<[r := set_h_ l ro]> s0) = Some (dg (h_ ao) j, <[r := set_h_ l ro]> s0).
Proof.
  intros Ha Hj. destruct (decide (a = r)) as [->|Hne].
  - assert (ao = ro) as -> by congruence.
    erewrite rd_h_run; [|apply lookup_insert_eq|fields; lia]. fields. rewrite Hfr by lia. done.
  - eapply rd_h_run; [by rewrite lookup_insert_ne by done|lia].
Qed.
End InPlace.

Lemma digit_sum_split ps :
  0 ≤ ps < 131072 → u16 ps + BASE * u16 (ps / 65536) = ps ∧ 0 ≤ u16 (ps / 65536) ≤ 1.
Proof.
  intros H. unfold u16. pose proof (Z.div_mod ps 65536 ltac:(lia)).
  assert (0 ≤ ps / 65536 < 2) by (split; [apply Z.div_pos|apply Z.div_lt_upper_bound]; lia).
  rewrite (Z.mod_small (ps / 65536)) by lia. change (2 ^ 16) with 65536. lia.
Qed.

(** ** The addition loop *)
Section AddPosLoop.
Variables (a b r : ptr) (ao bo ro : Int) (s0 : store).
Hypothesis (Ha : s0 !! a = Some ao) (Hb : s0 !! b = Some bo) (Hr : s0 !! r = Some ro).
Hypothesis (Sa : safe ao) (Sb : safe bo) (Ar : alloc ro).
Notation m := (m_ ro).
Notation N := (Nat.max (d_ ao) (d_ bo)).
Notation st l := (<[r := set_h_ l ro]> s0).

Lemma read_operand l i x xo :
  s0 !! x = Some xo → safe xo → length l = length (h_ ro) →
  (∀ j, (i ≤ j)%nat → dg l j = dg (h_ ro) j) → (i < d_ xo)%nat →
  rd_h x i (st l) = Some (zx xo i, st l).
Proof.
  intros Hx Sx Hl Hfr Hi. pose proof (safe_d _ Sx). pose proof (al_len _ (safe_alloc _ Sx)).
  rewrite (rd_in_place r ro s0 l i Hr Hl Hfr x xo i Hx) by lia.
  unfold zx. by rewrite decide_True by done.
Qed.

(** The digit sum of one iteration. *)
Lemma addPos_digit l i carry :
  length l = length (h_ ro) → (∀ j, (i ≤ j)%nat → dg l j = dg (h_ ro) j) → (i < N)%nat →
  0 ≤ carry ≤ 1 →
  (if (d_ ao <=? i)%nat then bd ← rd_h b i; mret (u32 (bd + carry))
   else if (d_ bo <=? i)%nat then ad ← rd_h a i; mret (u32 (ad + carry))
   else ad ← rd_h a i; bd ← rd_h b i; mret (u32 (ad + bd + carry))) (st l)
  = Some (zx ao i + zx bo i + carry, st l).
Proof.
  intros Hl Hfr Hi Hc.
  pose proof (zx_digit ao i Sa) as Da. pose proof (zx_digit bo i Sb) as Db. unfold digit in Da, Db.
  destruct (Nat.leb_spec (d_ ao) i); [|destruct (Nat.leb_spec (d_ bo) i)].
  - step_with (read_operand l i b bo Hb Sb Hl Hfr ltac:(lia)). rewrite st_ret_run.
    rewrite u32_small by lia. unfold zx at 2. rewrite decide_False by lia. do 2 f_equal.
  - step_with (read_operand l i a ao Ha Sa Hl Hfr ltac:(lia)). rewrite st_ret_run.
    rewrite u32_small by lia. unfold zx at 3. rewrite decide_False by lia. do 2 f_equal. lia.
  - step_with (read_operand l i a ao Ha Sa Hl Hfr ltac:(lia)).
    step_with (read_operand l i b bo Hb Sb Hl Hfr ltac:(lia)). rewrite st_ret_run.
    by rewrite u32_small by lia.
Qed.

Lemma addPos_loop_run n : ∀ i carry l,
  (i + n = N)%nat → length l = length (h_ ro) → Forall digit l →
  (∀ j, (i ≤ j)%nat → dg l j = dg (h_ ro) j) →
  0 ≤ carry ≤ 1 → ((i ≤ m)%nat ∨ carry = 0) →
  ev (i `min` m) (dg l) + carry * Bp (i `min` m) = ev i (zx ao) + ev i (zx bo) →
  ∃ l', length l' = length (h_ ro) ∧ Forall digit l' ∧
    ((∃ carry', addPos_loop a b r m (d_ ao) (d_ bo) n i (i `min` m) carry (st l)
        = Some (Some (N `min` m, carry')%nat, st l') ∧
        0 ≤ carry' ≤ 1 ∧ ((N ≤ m)%nat ∨ carry' = 0) ∧
        ev (N `min` m) (dg l') + carry' * Bp (N `min` m) = mag ao + mag bo) ∨
     (addPos_loop a b r m (d_ ao) (d_ bo) n i (i `min` m) carry (st l)
        = Some (None, <[r := set_overflow_ true (set_h_ l' ro)]> s0) ∧
        Bp m ≤ mag ao + mag bo)).
Proof.
  pose proof (al_len _ Ar) as Hlen.
  induction n as [|n IH]; intros i carry l Hi Hl Hd Hfr Hc Hm Hev; cbn [addPos_loop].
  - exists l. split; [done|]. split; [done|]. left. exists carry.
    assert (i = N) as -> by lia. rewrite st_ret_run. split; [done|]. split; [done|].
    split; [done|]. rewrite !ev_zx in Hev by lia. done.
  - step_with (addPos_digit l i carry Hl Hfr ltac:(lia) Hc).
    pose proof (zx_digit ao i Sa) as Da. pose proof (zx_digit bo i Sb) as Db. unfold digit in Da, Db.
    set (ps := zx ao i + zx bo i + carry).
    destruct (digit_sum_split ps) as [Hps Hc']; [unfold ps; lia|].
    destruct (Nat.ltb_spec (i `min` m) m) as [Him|Him].
    + assert (i `min` m = i)%nat as Emin by lia. rewrite Emin in *.
      assert (S i = S i `min` m)%nat as ES by lia.
      erewrite st_bind_run; [|eapply wr_h_run; [lk|fields; lia]]. norm_store.
      specialize (IH (S i) (u16 (ps / 65536)) (<[i:=u16 ps]> l)). rewrite <-ES in IH.
      apply IH; [lia|by rewrite length_insert|by apply Forall_insert| |lia|lia|].
      * intros j Hj. rewrite dg_insert by lia. rewrite decide_False by lia. apply Hfr. lia.
      * cbn [ev]. rewrite dg_insert, decide_True by lia.
        rewrite (ev_ext i _ (dg l)).
        2:{ intros j Hj. rewrite dg_insert by lia. by rewrite decide_False by lia. }
        rewrite Bp_S. unfold ps in *. nia.
    + assert (i `min` m = m)%nat as Emin by lia. assert (S i `min` m = m)%nat as ES by lia.
      rewrite Emin in *. destruct (Z.eqb_spec ps 0) as [Hz|Hz]; cbn [negb].
      * assert (carry = 0 ∧ zx ao i = 0 ∧ zx bo i = 0) as (-> & Za & Zb) by (unfold ps in Hz; lia).
        specialize (IH (S i) 0 l). rewrite ES in IH. apply IH; try done; try lia.
        -- intros j Hj. apply Hfr. lia.
        -- cbn [ev]. rewrite Za, Zb. lia.
      * exists l. split; [done|]. split; [done|]. right. step. norm_store. rewrite st_ret_run.
        split; [done|]. rewrite <-(ev_zx ao N), <-(ev_zx bo N) by lia.
        pose proof (ev_digit_le N (zx ao) i ltac:(lia) ltac:(intros; by apply zx_digit)).
        pose proof (ev_digit_le N (zx bo) i ltac:(lia) ltac:(intros; by apply zx_digit)).
        pose proof (Bp_le m i ltac:(lia)). pose proof (Bp_pos m).
        pose proof (ev_nonneg m (dg l) ltac:(intros; by apply dg_Forall)).
        assert (carry * Bp m + (zx ao i + zx bo i) * Bp i ≤ mag ao + mag bo).
        { rewrite <-(ev_zx ao N), <-(ev_zx bo N) by lia. nia. }
        rewrite <-(ev_zx ao N), <-(ev_zx bo N) in * by lia. unfold ps in *. nia.
Qed.
End AddPosLoop.

Lemma ev_top n f :
  (0 < n)%nat → (∀ i, (i < n)%nat → digit (f i)) → Bp (n - 1) ≤ ev n f → f (n - 1)%nat ≠ 0.
Proof.
  intros Hn H Hle Hz. pose proof (ev_bound (n - 1) f ltac:(intros; apply H; lia)).
  replace n with (S (n - 1)) in Hle by lia. cbn [ev] in Hle. rewrite Hz in Hle.
  replace (S (n - 1) - 1)%nat with (n - 1)%nat in Hle by lia. lia.
Qed.

(** [addPos_end]: the last carry is stored, and the length set. *)
Lemma addPos_end_run r ro rp carry (s : store) :
  s !! r = Some ro → alloc ro → (1 ≤ rp ≤ m_ ro)%nat → 0 ≤ carry ≤ 1 →
  ∃ l d, addPos_end r (m_ ro) rp carry s =
      Some ((), <[r := set_d_ d (set_overflow_ (overflow_ ro || ((rp =? m_ ro)%nat && (0 <? carry)))
                                   (set_h_ l ro))]> s) ∧
    length l = length (h_ ro) ∧ Forall digit l ∧
    d = (if decide (rp < m_ ro)%nat then if 0 <? carry then S rp else rp else rp) ∧
    (∀ j, (j < rp)%nat → dg l j = dg (h_ ro) j) ∧
    ((rp < m_ ro)%nat → dg l rp = carry ∧ (0 < carry → (S rp < m_ ro)%nat → dg l (S rp) = 0)).
Proof.
  intros E Ha Hrp Hc. pose proof (al_len _ Ha) as Hl. unfold addPos_end.
  destruct (Nat.ltb_spec rp (m_ ro)) as [Hlt|Hge].
  - rewrite decide_True by done. assert (rp =? m_ ro = false)%nat as -> by (apply Nat.eqb_neq; lia).
    cbn [andb]. rewrite orb_false_r.
    assert (Forall digit (<[rp := carry]> (h_ ro))) as F1.
    { apply Forall_insert; [apply Ha|unfold digit; lia]. }
    destruct (Z.ltb_spec 0 carry) as [Hpos|Hz].
    + destruct (Nat.ltb_spec (S rp) (m_ ro)) as [Hlt2|Hge2].
      * exists (<[S rp := 0]> (<[rp := carry]> (h_ ro))), (S rp). split.
        { erewrite st_bind_run; [|step; erewrite st_bind_run;
            [done|eapply wr_h_run; [lk|fields; rewrite length_insert; lia]]].
          erewrite modify_run by lk. by norm_store. }
        rewrite !length_insert. split; [done|]. split; [by apply Forall_insert|].
        split; [done|]. split; [intros j Hj|intros _; split; [|intros _ _]];
          rewrite !dg_insert by (rewrite ?length_insert; lia); repeat case_decide; try done; lia.
      * exists (<[rp := carry]> (h_ ro)), (S rp). split.
        { erewrite st_bind_run; [|step; done]. erewrite modify_run by lk. by norm_store. }
        rewrite !length_insert. split; [done|]. split; [done|].
        split; [done|]. split; [intros j Hj|intros _; split; [|lia]];
          rewrite !dg_insert by lia; repeat case_decide; try done; lia.
    + exists (<[rp := carry]> (h_ ro)), rp. split.
      { erewrite st_bind_run; [|step; done]. erewrite modify_run by lk. by norm_store. }
      rewrite !length_insert. split; [done|]. split; [done|].
      split; [done|]. split; [intros j Hj|intros _; split; [|lia]];
        rewrite !dg_insert by lia; repeat case_decide; try done; lia.
  - assert (rp = m_ ro) as -> by lia. rewrite decide_False, Nat.eqb_refl by lia. cbn [andb].
    exists (h_ ro), (m_ ro). split; [|destruct Ha; repeat split; try done; lia].
    destruct (0 <? carry); [rewrite orb_true_r|rewrite orb_false_r].
    + erewrite st_bind_run; [|step; done]. erewrite modify_run by lk. by norm_store.
    + erewrite st_bind_run; [|done]. erewrite modify_run by lk. norm_store. by destruct ro.
Qed.

(** The outcome of an operation that leaves [v] in [R], where [ro] was: the
    exact value in normal form if it fits the digits allocated, and the
    overflow flag otherwise. *)
Definition leaves (ro R : Int) (v : Z) : Prop :=
  kept ro R ∧
  ((Z.abs v < Bp (m_ ro) ∧ wf R ∧ val R = v ∧ overflow_ R = overflow_ ro) ∨
   (Bp (m_ ro) ≤ Z.abs v ∧ alloc R ∧ overflow_ R = true ∧ (d_ R = d_ ro ∨ d_ R = m_ ro))).

(** [addPos] on objects that are merely [safe]: the sum or the overflow flag;
    in normal form if the operands are. *)
Lemma addPos_run a b r ao bo ro (s : store) :
  s !! a = Some ao → s !! b = Some bo → s !! r = Some ro →
  safe ao → safe bo → alloc ro →
  ∃ R, addPos a b r s = Some ((), <[r := R]> s) ∧ kept ro R ∧ neg_ R = neg_ ro ∧
    ((safe R ∧ mag R = mag ao + mag bo ∧ overflow_ R = overflow_ ro ∧ (wf ao → wf bo → wf R)) ∨
     (alloc R ∧ Bp (m_ ro) ≤ mag ao + mag bo ∧ overflow_ R = true ∧
      (d_ R = d_ ro ∨ d_ R = m_ ro))).
Proof.
  intros Ha Hb Hr Sa Sb Ar. pose proof (safe_d _ Sa). pose proof (safe_d _ Sb).
  pose proof (al_m _ Ar) as Hm. pose proof (al_len _ Ar) as Hlen.
  unfold addPos. step. step. step.
  set (N := Nat.max (d_ ao) (d_ bo)).
  destruct (addPos_loop_run a b r ao bo ro s Ha Hb Hr Sa Sb Ar N 0 0 (h_ ro))
    as (l & Hl & Fl & [(carry & E & Hc & HN & Hev)|(E & Hov)]); try done; try lia; [apply Ar|..];
    rewrite Nat.min_0_l in E; change (set_h_ (h_ ro) ro) with (set_h_ (h_ ro) ro) in E;
    rewrite insert_id in E by (rewrite Hr; by destruct ro); fold N in E.
  - step_with E. fold N in HN, Hev. set (rp := (N `min` m_ ro)%nat) in *.
    assert (alloc (set_h_ l ro)) as Al by (by apply (alloc_like ro)).
    destruct (addPos_end_run r (set_h_ l ro) rp carry (<[r:=set_h_ l ro]> s))
      as (l' & d & E' & Hl' & Fl' & Hd & Hlow & Htop); [lk|done|fields; unfold rp, N; lia|done|].
    change (m_ (set_h_ l ro)) with (m_ ro) in *. rewrite E'. rewrite insert_insert_eq.
    change (h_ (set_h_ l ro)) with l in *.
    set (R := set_d_ _ _). exists R. split; [done|]. split; [done|]. split; [done|].
    assert (1 ≤ d ≤ m_ ro)%nat as Hdm.
    { rewrite Hd. unfold rp, N. repeat case_match; lia. }
    assert (d_ R = d) as EdR by (unfold R; apply set_d_u8; lia).
    assert (alloc R) as AR by (apply (alloc_like ro); [done|done|simpl; lia|done]).
    assert (safe R) as SR by (split; [done|]; rewrite EdR; simpl; lia).
    assert (∀ j, digit (dg l' j)) as Dl' by (intros; by apply dg_Forall).
    destruct (decide (rp = m_ ro ∧ 0 < carry)) as [[Hrm Hpos]|Hfit].
    { right. split; [done|]. split; [|split].
      - rewrite Hrm in Hev. pose proof (ev_nonneg (m_ ro) (dg l) ltac:(intros; by apply dg_Forall)).
        pose proof (Bp_pos (m_ ro)). nia.
      - simpl. rewrite Hrm, Nat.eqb_refl. rewrite (proj2 (Z.ltb_lt _ _)) by done.
        by rewrite orb_true_r.
      - right. rewrite EdR, Hd. rewrite decide_False by lia. done. }
    left. split; [done|].
    assert (mag R = mag ao + mag bo) as HmR.
    { rewrite <-Hev. unfold mag. rewrite EdR. simpl h_.
      rewrite (ev_ext rp (dg l) (dg l')) by (intros; symmetry; by apply Hlow).
      rewrite Hd. destruct (decide (rp < m_ ro)%nat) as [Hlt|Hge]; destruct (Z.ltb_spec 0 carry); try lia.
      - cbn [ev]. destruct (Htop Hlt) as [-> _]. done.
      - assert (carry = 0) as -> by lia. lia.
      - assert (carry = 0) as -> by lia. lia. }
    split; [done|]. split.
    { simpl. destruct (Nat.eqb_spec rp (m_ ro)), (Z.ltb_spec 0 carry); simpl;
        try apply orb_false_r; lia. }
    intros Wa Wb. split; [done| |]; rewrite EdR; simpl h_.
    + intros Ho. assert (d < m_ ro)%nat as Hdm'.
      { destruct (al_even _ Ar) as [k Hk]. destruct Ho as [k' Hk']. lia. }
      rewrite Hd in Hdm' |- *. destruct (decide (rp < m_ ro)%nat) as [Hlt|Hge]; [|lia].
      destruct (Htop Hlt) as [E1 E2]. destruct (Z.ltb_spec 0 carry); [by apply E2|lia].
    + intros Hd1. apply ev_top; [lia|done|]. 
      assert (ev d (dg l') = mag ao + mag bo) as -> by (rewrite <-HmR; unfold mag; by rewrite EdR).
      destruct (decide (N < d)%nat) as [HNd|HNd].
      * assert (rp = N ∧ d = S N ∧ 0 < carry) as (ErN & EdN & Hpos).
        { rewrite Hd in HNd |- *. unfold rp in *. repeat case_match; lia. }
        rewrite <-Hev, ErN, EdN. replace (S N - 1)%nat with N by lia.
        pose proof (ev_nonneg N (dg l) ltac:(intros; by apply dg_Forall)). pose proof (Bp_pos N). nia.
      * pose proof (mag_nonneg ao Sa). pose proof (mag_nonneg bo Sb).
        pose proof (Bp_le (d - 1) (N - 1) ltac:(lia)).
        destruct (Nat.max_spec (d_ ao) (d_ bo)) as [[? EN]|[? EN]]; fold N in EN.
        -- pose proof (mag_lower bo Wb ltac:(lia)). rewrite EN in *. lia.
        -- pose proof (mag_lower ao Wa ltac:(lia)). rewrite EN in *. lia.
  - step_with E. eexists. split; [done|]. split; [done|]. split; [done|].
    right. split; [by apply (alloc_like ro)|]. split; [done|]. split; [done|]. by left.
Qed.

(** ** The subtraction loop *)

Lemma sub_digit ad bd borrow :
  digit ad → digit bd → 0 ≤ borrow ≤ 1 →
  let pd := u32 (bd + borrow) in
  let pd' := if ad <? pd then u32 (65536 + ad - pd) else u32 (ad - pd) in
  let borrow' := if ad <? pd then 1 else 0 in
  digit pd' ∧ 0 ≤ borrow' ≤ 1 ∧ pd' = ad - bd - borrow + BASE * borrow' ∧
  (u16 (pd' / 65536) =? 0) = true ∧ u16 pd' = pd'.
Proof.
  unfold digit. intros Ha Hb Hc. cbv zeta. rewrite (u32_small (bd + borrow)) by lia.
  assert (∀ v, 0 ≤ v < 65536 → (u16 (v / 65536) =? 0) = true ∧ u16 v = v) as Hu.
  { intros v Hv. rewrite Z.div_small by lia. split; [done|]. by apply u16_small. }
  destruct (Z.ltb_spec ad (bd + borrow)); rewrite u32_small by lia;
    destruct (Hu (if ad <? bd + borrow then 65536 + ad - (bd + borrow) else ad - (bd + borrow)));
    repeat case_match; try lia; repeat split; try lia; done.
Qed.

Section SubLoop.
Variables (a b r : ptr) (ao bo ro : Int) (s0 : store).
Hypothesis (Ha : s0 !! a = Some ao) (Hb : s0 !! b = Some bo) (Hr : s0 !! r = Some ro).
Hypothesis (Sa : safe ao) (Sb : safe bo) (Ar : alloc ro).
Hypothesis (Hle : mag bo ≤ mag ao) (Hd : (d_ bo ≤ d_ ao)%nat).
Notation m := (m_ ro).
Notation N := (d_ ao).
Notation st l := (<[r := set_h_ l ro]> s0).

(** Once the digits up to [i] are subtracted, what is left is not negative. *)
Lemma sub_rest i borrow low :
  (i ≤ N)%nat → low - borrow * Bp i = ev i (zx ao) - ev i (zx bo) → low < Bp i →
  low ≤ mag ao - mag bo.
Proof.
  intros Hi Hev Hlow.
  rewrite <-(ev_zx ao N), <-(ev_zx bo N) in * by lia.
  replace N with (i + (N - i))%nat in Hle |- * by lia. rewrite !ev_split in *.
  set (ra := ev (N - i) (λ j, zx ao (i + j)%nat)) in *.
  set (rb := ev (N - i) (λ j, zx bo (i + j)%nat)) in *.
  pose proof (Bp_pos i). assert (0 ≤ ra - rb - borrow) by nia. nia.
Qed.

Lemma subAGtB_loop_run n : ∀ i borrow l,
  (i + n = N)%nat → length l = length (h_ ro) → Forall digit l →
  (∀ j, (i ≤ j)%nat → dg l j = dg (h_ ro) j) → 0 ≤ borrow ≤ 1 →
  ev (i `min` m) (dg l) - borrow * Bp i = ev i (zx ao) - ev i (zx bo) →
  ∃ l', length l' = length (h_ ro) ∧ Forall digit l' ∧
    ((∃ borrow', subAGtB_loop a b r m (d_ bo) n i (i `min` m) borrow (st l)
        = Some (Some (N `min` m)%nat, st l') ∧ 0 ≤ borrow' ≤ 1 ∧
        (∀ j, (N ≤ j)%nat → dg l' j = dg (h_ ro) j) ∧
        ev (N `min` m) (dg l') - borrow' * Bp N = mag ao - mag bo) ∨
     (subAGtB_loop a b r m (d_ bo) n i (i `min` m) borrow (st l)
        = Some (None, <[r := set_overflow_ true (set_h_ l' ro)]> s0) ∧
        Bp m ≤ mag ao - mag bo)).
Proof.
  pose proof (al_len _ Ar) as Hlen.
  induction n as [|n IH]; intros i borrow l Hi Hl Fl Hfr Hc Hev; cbn [subAGtB_loop].
  - exists l. split; [done|]. split; [done|]. left. exists borrow.
    assert (i = N) as -> by lia. split; [done|]. split; [done|]. split; [done|].
    rewrite !ev_zx in Hev by lia. done.
  - pose proof (zx_digit ao i Sa) as Da. pose proof (zx_digit bo i Sb) as Db.
    step_with (read_operand r ro s0 Hr l i a ao Ha Sa Hl Hfr ltac:(lia)).
    assert ((if (i <? d_ bo)%nat then rd_h b i else mret 0) (st l) = Some (zx bo i, st l)) as Eb.
    { destruct (Nat.ltb_spec i (d_ bo)).
      - apply (read_operand r ro s0 Hr l i b bo Hb Sb Hl Hfr). lia.
      - unfold zx. by rewrite decide_False by lia. }
    step_with Eb. cbv zeta.
    destruct (sub_digit (zx ao i) (zx bo i) borrow Da Db Hc) as (Dp & Hc' & Hpd & Hh & Hu).
    cbv zeta in Dp, Hc', Hpd, Hh, Hu.
    set (borrow' := if zx ao i <? u32 (zx bo i + borrow) then 1 else 0) in *.
    set (pd := if zx ao i <? u32 (zx bo i + borrow) then _ else _) in *.
    erewrite st_bind_run; [|by apply st_assert_run]. cbv beta. rewrite Hu.
    assert (pd * Bp i + (ev (i `min` m) (dg l) - borrow' * Bp (S i))
      = ev (S i) (zx ao) - ev (S i) (zx bo)) as Hev'.
    { cbn [ev]. rewrite Bp_S. nia. }
    destruct (Nat.ltb_spec (i `min` m) m) as [Him|Him].
    + assert (i `min` m = i)%nat as Emin by lia. rewrite Emin in *.
      assert (S i = S i `min` m)%nat as ES by lia.
      erewrite st_bind_run; [|eapply wr_h_run; [lk|fields; lia]]. norm_store.
      specialize (IH (S i) borrow' (<[i:=pd]> l)). rewrite <-ES in IH.
      apply IH; [lia|by rewrite length_insert|by apply Forall_insert| |lia|].
      * intros j Hj. rewrite dg_insert by lia. rewrite decide_False by lia. apply Hfr. lia.
      * rewrite <-Hev'. cbn [ev]. rewrite dg_insert, decide_True by lia.
        rewrite (ev_ext i _ (dg l)).
        2:{ intros j Hj. rewrite dg_insert by lia. by rewrite decide_False by lia. }
        lia.
    + assert (i `min` m = m)%nat as Emin by lia. assert (S i `min` m = m)%nat as ES by lia.
      rewrite Emin in *. destruct (Z.eqb_spec pd 0) as [Hz|Hz]; cbn [negb].
      * specialize (IH (S i) borrow' l). rewrite ES in IH. apply IH; try done; try lia.
        intros j Hj. apply Hfr. lia.
      * exists l. split; [done|]. split; [done|]. right. step. norm_store. rewrite st_ret_run.
        split; [done|]. pose proof (ev_bound m (dg l) ltac:(intros; by apply dg_Forall)).
        pose proof (Bp_le m i ltac:(lia)). pose proof (Bp_pos m). unfold digit in Dp.
        pose proof (sub_rest (S i) borrow' (ev m (dg l) + pd * Bp i) ltac:(lia) ltac:(lia)) as Hr'.
        rewrite Bp_S in Hr'. assert (Bp m ≤ pd * Bp i) by nia.
        specialize (Hr' ltac:(nia)). lia.
Qed.
End SubLoop.

(** [trim_loop] removes the leading zeros and only those. *)
Lemma trim_loop_run r n : ∀ ro (s : store),
  s !! r = Some ro → safe ro → (d_ ro ≤ n)%nat →
  (Nat.Odd (d_ ro) → dg (h_ ro) (d_ ro) = 0) →
  ∃ d, trim_loop r n s = Some ((), <[r := set_d_ d ro]> s) ∧ (d ≤ d_ ro)%nat ∧
    wf (set_d_ d ro) ∧ mag (set_d_ d ro) = mag ro.
Proof.
  induction n as [|n IH]; intros ro s E Hs Hn Hp; pose proof (safe_d _ Hs);
    pose proof (al_m _ (safe_alloc _ Hs)); [lia|].
  pose proof (al_len _ (safe_alloc _ Hs)).
  cbn [trim_loop]. step.
  assert (set_d_ (d_ ro) ro = ro) as Eid.
  { unfold set_d_. rewrite Nat.mod_small by lia. by destruct ro. }
  destruct (Nat.ltb_spec 1 (d_ ro)) as [Hone|Hone].
  2:{ exists (d_ ro). rewrite Eid, insert_id by done. split; [done|]. split; [done|].
      split; [|done]. split; [done|done|lia]. }
  step. destruct (Z.eqb_spec (dg (h_ ro) (d_ ro - 1)) 0) as [Hz|Hz].
  - step. set (ro1 := set_d_ (d_ ro - 1) ro). assert (d_ ro1 = d_ ro - 1)%nat as E1.
    { apply set_d_u8. lia. }
    destruct (IH ro1 (<[r:=ro1]> s)) as (d & Ed & Hd & Hw & Hm); [lk| |lia| |].
    + split; [by apply (alloc_eq ro); [apply Hs|..]|]. rewrite E1. simpl. lia.
    + rewrite E1. intros _. by simpl.
    + exists d. rewrite Ed, insert_insert_eq. split; [done|]. split; [lia|]. split; [done|].
      change (set_d_ d ro) with (set_d_ d ro1). rewrite Hm. unfold mag. rewrite E1. simpl h_.
      symmetry. apply ev_zeros; [lia|]. intros j Hj. by assert (j = d_ ro - 1)%nat as -> by lia.
  - exists (d_ ro). rewrite Eid, insert_id by done. split; [done|]. split; [done|].
    split; [|done]. split; [done|done|done].
Qed.

Lemma subAGtB_run a b r ao bo ro (s : store) :
  s !! a = Some ao → s !! b = Some bo → s !! r = Some ro →
  wf ao → wf bo → alloc ro → mag bo ≤ mag ao →
  ∃ R, subAGtB a b r s = Some ((), <[r := R]> s) ∧ kept ro R ∧ neg_ R = neg_ ro ∧
    ((wf R ∧ mag R = mag ao - mag bo ∧ mag R < Bp (m_ ro) ∧ overflow_ R = overflow_ ro ∧
      (∀ j, (d_ R ≤ j < d_ ao `min` m_ ro)%nat → dg (h_ R) j = 0) ∧
      (∀ j, (d_ ao ≤ j)%nat → dg (h_ R) j = dg (h_ ro) j ∨ dg (h_ R) j = 0)) ∨
     (alloc R ∧ Bp (m_ ro) ≤ mag ao - mag bo ∧ overflow_ R = true ∧ d_ R = d_ ro)).
Proof.
  intros Ha Hb Hr Wa Wb Ar Hle.
  assert (safe ao) as Sa by auto. assert (safe bo) as Sb by auto.
  pose proof (safe_d _ Sa). pose proof (al_m _ Ar) as Hm. pose proof (al_len _ Ar) as Hlen.
  assert (d_ bo ≤ d_ ao)%nat as Hd.
  { destruct (decide (d_ bo ≤ d_ ao)%nat); [done|]. pose proof (mag_lt_of_d ao bo Wa Wb). lia. }
  unfold subAGtB. step. step. step.
  destruct (subAGtB_loop_run a b r ao bo ro s Ha Hb Hr Sa Sb Ar Hle Hd (d_ ao) 0 0 (h_ ro))
    as (l & Hl & Fl & [(borrow & E & Hc & Hfr & Hev)|(E & Hov)]); try done; [apply Ar|..];
    rewrite Nat.min_0_l in E; rewrite insert_id in E by (rewrite Hr; by destruct ro).
  - step_with E. set (rp := (d_ ao `min` m_ ro)%nat) in *.
    pose proof (ev_bound rp (dg l) ltac:(intros; by apply dg_Forall)) as Hb1.
    pose proof (Bp_le rp (d_ ao) ltac:(lia)). pose proof (Bp_le rp (m_ ro) ltac:(lia)).
    assert (borrow = 0) as -> by nia.
    step. step. norm_store.
    set (l2 := if Nat.odd rp then <[rp := 0]> l else l).
    set (ro2 := mkInt (neg_ ro) (overflow_ ro) (obj_ ro) (literal_ ro) rp (m_ ro) l2).
    assert (rp < m_ ro ∨ Nat.odd rp = false)%nat as Hodd.
    { destruct (decide (rp < m_ ro)%nat); [by left|right]. assert (rp = m_ ro) as -> by lia.
      destruct (al_even _ Ar) as [k ->]. rewrite Nat.odd_mul. done. }
    assert (length l2 = length (h_ ro)) as Hl2.
    { unfold l2. case_match; rewrite ?length_insert; lia. }
    assert (Forall digit l2) as Fl2.
    { unfold l2. case_match; [by apply Forall_insert|done]. }
    assert (∀ j, (j < rp)%nat → dg l2 j = dg l j) as Hlow.
    { intros j Hj. unfold l2. case_match; [|done].
      rewrite dg_insert by lia. by rewrite decide_False by lia. }
    assert (safe ro2) as S2.
    { split; [by apply (alloc_like ro)|]. simpl. lia. }
    assert ((if Nat.odd rp then wr_h r rp 0 else mret ())
      (<[r := mkInt (neg_ ro) (overflow_ ro) (obj_ ro) (literal_ ro) rp (m_ ro) l]> s)
      = Some ((), <[r := ro2]> s)) as Ew.
    { unfold ro2, l2. destruct (Nat.odd rp) eqn:Eo; [|done].
      erewrite wr_h_run; [|lk|fields; destruct Hodd; [lia|done]]. by norm_store. }
    step_with Ew.
    destruct (trim_loop_run r rp ro2 (<[r:=ro2]> s)) as (d & Ed & Hdle & Hw & Hmg);
      [lk|done|done| |].
    { simpl. intros Ho. apply Nat.odd_spec in Ho. unfold l2. rewrite Ho.
      rewrite dg_insert by (destruct Hodd; [lia|congruence]). by rewrite decide_True. }
    rewrite Ed, insert_insert_eq. exists (set_d_ d ro2). split; [done|]. split; [done|].
    split; [done|]. left.
    assert (mag (set_d_ d ro2) = mag ao - mag bo) as HmR.
    { rewrite Hmg. unfold mag at 1. simpl. rewrite (ev_ext rp _ (dg l)) by done. lia. }
    split; [done|]. split; [done|]. split; [lia|]. split; [done|]. split.
    2:{ intros j Hj. simpl. unfold l2. destruct (Nat.odd rp) eqn:Eo; [|left; by apply Hfr].
        rewrite dg_insert by (destruct Hodd; [lia|congruence]). case_decide; [by right|left].
        by apply Hfr. }
    intros j Hj. destruct (decide (dg (h_ (set_d_ d ro2)) j = 0)) as [|Hnz]; [done|exfalso].
    assert (d_ (set_d_ d ro2) = d) as Ed2 by (apply set_d_u8; simpl in Hdle; lia).
    rewrite Ed2 in Hj. simpl in Hnz, Hdle.
    assert (∀ k, digit (dg l2 k)) as D2 by (intros; by apply dg_Forall).
    pose proof (ev_digit_le rp (dg l2) j ltac:(lia) ltac:(done)).
    pose proof (ev_mono d j (dg l2) ltac:(lia) ltac:(done)).
    specialize (D2 j) as Dj. unfold digit in Dj. pose proof (Bp_pos j).
    assert (ev d (dg l2) = ev rp (dg l2)); [|nia].
    transitivity (mag (set_d_ d ro2)); [unfold mag; by rewrite Ed2|by rewrite Hmg].
  - step_with E. eexists. split; [done|]. split; [done|]. split; [done|].
    right. split; [by apply (alloc_like ro)|]. split; [done|]. by split.
Qed.

Lemma set_neg_wf b R : wf R → wf (set_neg_ b R).
Proof.
  intros [[Ha Hd] Hp Ht]. split; [|done|done]. split; [by apply (alloc_eq R)|done].
Qed.
Lemma set_neg_alloc b R : alloc R → alloc (set_neg_ b R).
Proof. intros H. by apply (alloc_eq R). Qed.
Lemma val_set_neg b R : val (set_neg_ b R) = if b then - mag R else mag R.
Proof. done. Qed.

(** A magnitude followed by its sign. *)
Lemma leaves_signed ro R (b : bool) (v w : Z) :
  kept ro R → 0 ≤ w → v = (if b then - w else w) →
  ((wf R ∧ mag R = w ∧ overflow_ R = overflow_ ro) ∨
   (alloc R ∧ Bp (m_ ro) ≤ w ∧ overflow_ R = true ∧ (d_ R = d_ ro ∨ d_ R = m_ ro))) →
  leaves ro (set_neg_ b R) v.
Proof.
  intros HK Hw -> H. split; [done|].
  destruct H as [(HW & HM & HO)|(HA & HB & HO & HD)]; [left|right].
  - pose proof (wf_mag_lt_m R HW). destruct HK as (HKm & _ & _). rewrite HKm in *.
    split; [destruct b; lia|]. split; [by apply set_neg_wf|].
    split; [rewrite val_set_neg; by rewrite HM|done].
  - split; [destruct b; lia|]. split; [by apply set_neg_alloc|]. done.
Qed.

Section Signed.
Variables (a b r : ptr) (ao bo ro : Int) (s : store).
Hypothesis (Ha : s !! a = Some ao) (Hb : s !! b = Some bo) (Hr : s !! r = Some ro).
Hypothesis (Wa : wf ao) (Wb : wf bo) (Ar : alloc ro).

Lemma add_then_sign c :
  ∃ R, (addPos a b r ;; modify r (set_neg_ c)) s = Some ((), <[r := R]> s) ∧
    leaves ro R (if c then - (mag ao + mag bo) else mag ao + mag bo).
Proof.
  assert (safe ao) as Sa by auto. assert (safe bo) as Sb by auto.
  pose proof (mag_nonneg ao Sa). pose proof (mag_nonneg bo Sb).
  destruct (addPos_run a b r ao bo ro s Ha Hb Hr Sa Sb Ar) as (R & E & HK & _ & HR).
  step_with E. erewrite modify_run by lk. rewrite insert_insert_eq.
  exists (set_neg_ c R). split; [done|].
  eapply (leaves_signed _ _ _ _ (mag ao + mag bo)); [done|lia|done|].
  destruct HR as [(? & ? & ? & HW)|?]; [left|right; tauto]. split; [by apply HW|done].
Qed.

End Signed.

Lemma sub_then_sign a b r ao bo ro (s : store) c :
  s !! a = Some ao → s !! b = Some bo → s !! r = Some ro →
  wf ao → wf bo → alloc ro → mag bo ≤ mag ao →
  ∃ R, (subAGtB a b r ;; modify r (set_neg_ c)) s = Some ((), <[r := R]> s) ∧
    leaves ro R (if c then - (mag ao - mag bo) else mag ao - mag bo).
Proof.
  intros Ha Hb Hr Wa Wb Ar Hle.
  destruct (subAGtB_run a b r ao bo ro s Ha Hb Hr Wa Wb Ar Hle) as (R & E & HK & _ & HR).
  step_with E. erewrite modify_run by lk. rewrite insert_insert_eq.
  exists (set_neg_ c R). split; [done|].
  eapply (leaves_signed _ _ _ _ (mag ao - mag bo)); [done|lia|done|]. tauto.
Qed.

Lemma int_sub_abs_run a b r ao bo ro (s : store) :
  s !! a = Some ao → s !! b = Some bo → s !! r = Some ro →
  wf ao → wf bo → alloc ro →
  ∃ R, int_sub_abs a b r s = Some ((), <[r := R]> s) ∧ leaves ro R (mag ao - mag bo).
Proof.
  intros Ha Hb Hr Wa Wb Ar. unfold int_sub_abs.
  step_with (int_is_abs_run a b ao bo s Ha Hb Wa Wb).
  destruct (Z.compare_spec (mag ao) (mag bo)) as [Hc|Hc|Hc]; cbn [int_comp].
  - rewrite decide_False by done. apply (sub_then_sign a b r ao bo ro s false); try done. lia.
  - rewrite decide_True by done.
    destruct (sub_then_sign b a r bo ao ro s true) as (R & E & HL); try done; [lia|].
    exists R. split; [done|]. by replace (mag ao - mag bo) with (- (mag bo - mag ao)) by lia.
  - rewrite decide_False by done. apply (sub_then_sign a b r ao bo ro s false); try done. lia.
Qed.

Lemma int_add_run a b r ao bo ro (s : store) :
  s !! a = Some ao → s !! b = Some bo → s !! r = Some ro →
  wf ao → wf bo → alloc ro →
  ∃ R, int_add a b r s = Some ((), <[r := R]> s) ∧ leaves ro R (val ao + val bo).
Proof.
  intros Ha Hb Hr Wa Wb Ar. unfold int_add, val. step. step.
  destruct (neg_ ao), (neg_ bo).
  - destruct (add_then_sign a b r ao bo ro s Ha Hb Hr Wa Wb Ar true) as (R & E & HL).
    exists R. split; [done|]. by replace (- mag ao + - mag bo) with (- (mag ao + mag bo)) by lia.
  - replace (- mag ao + mag bo) with (mag bo - mag ao) by lia. by apply int_sub_abs_run.
  - replace (mag ao + - mag bo) with (mag ao - mag bo) by lia. by apply int_sub_abs_run.
  - apply (add_then_sign a b r ao bo ro s Ha Hb Hr Wa Wb Ar false).
Qed.

Lemma int_sub_run a b r ao bo ro (s : store) :
  s !! a = Some ao → s !! b = Some bo → s !! r = Some ro →
  wf ao → wf bo → alloc ro →
  ∃ R, int_sub a b r s = Some ((), <[r := R]> s) ∧ leaves ro R (val ao - val bo).
Proof.
  intros Ha Hb Hr Wa Wb Ar. unfold int_sub, val. step. step.
  destruct (neg_ ao), (neg_ bo).
  - replace (- mag ao - - mag bo) with (mag bo - mag ao) by lia. by apply int_sub_abs_run.
  - destruct (add_then_sign a b r ao bo ro s Ha Hb Hr Wa Wb Ar true) as (R & E & HL).
    exists R. split; [done|]. by replace (- mag ao - mag bo) with (- (mag ao + mag bo)) by lia.
  - destruct (add_then_sign a b r ao bo ro s Ha Hb Hr Wa Wb Ar false) as (R & E & HL).
    exists R. split; [done|]. by replace (mag ao - - mag bo) with (mag ao + mag bo) by lia.
  - by apply int_sub_abs_run.
Qed.
