(* ===== verification/IntMul.v ===== *)
(** * The arbitrary-precision integers: multiplication

    [int_mul] of [cyarg/big-int/big-int.c]: long multiplication, one digit
    product at a time, shifted and added into the result. *)
From S2P Require Export IntAddSub.

Section Mul.
Context `{U : Uninit}.
Variables a b r pp : ptr.

(** The inner loop for digit [i] of [a], from digit [j] of [b].  A length is
    a [uint8_t], so 256 iterations reach the end of any operand. *)
Fixpoint mul_inner (fuel i j : nat) : M () :=
  match fuel with
  | O => st_fail
  | S fuel' =>
      bo ← get b;
      if (j <? d_ bo)%nat then
        ad ← rd_h a i; bd ← rd_h b j;
        int_set_i (u32 (ad * bd)) pp ;;
        ppo ← get pp; ro ← get r;
        if (m_ ro <? i + j + d_ ppo)%nat then modify r (set_overflow_ true)
        else
          int_shift (Z.of_nat (i + j)) pp ;;
          int_add r pp r ;;
          ro ← get r;
          if overflow_ ro then mret () else mul_inner fuel' i (S j)
      else mret ()
  end.

Fixpoint mul_outer (fuel i : nat) : M () :=
  match fuel with
  | O => st_fail
  | S fuel' =>
      ao ← get a;
      if (i <? d_ ao)%nat then mul_inner 256 i 0 ;; mul_outer fuel' (S i)
      else mret ()
  end.
End Mul.

Definition int_mul `{U : Uninit} (a b r : ptr) : M () :=
  with_local 254 (λ pp,
    int_init_concrete 254 pp ;;
    int_set_i 0 r ;;
    mul_outer a b r pp 256 0 ;;
    ao ← get a; bo ← get b;
    modify r (set_neg_ (xorb (neg_ ao) (neg_ bo)))).

(** ** Runs *)

Section MulRun.
Variables (a b r pp : ptr) (ao bo ro : Int) (s0 : store).
Hypothesis (Ha : s0 !! a = Some ao) (Hb : s0 !! b = Some bo).
Hypothesis (Har : a ≠ r) (Hbr : b ≠ r) (Hap : a ≠ pp) (Hbp : b ≠ pp) (Hrp : r ≠ pp).
Hypothesis (Wa : wf ao) (Wb : wf bo) (Aro : alloc ro).
(** A product that is zero must not be looked for beyond the result. *)
Hypothesis Hzero : mag ao = 0 ∨ mag bo = 0 → (d_ ao ≤ m_ ro ∧ d_ bo ≤ m_ ro)%nat.
Abbreviation Prod := (mag ao * mag bo).

(** The result object while the partial sum is [P]. *)
Definition mul_inv (X : Int) (P : Z) : Prop :=
  kept ro X ∧ neg_ X = false ∧
  ((overflow_ X = false ∧ wf X ∧ mag X = P) ∨
   (overflow_ X = true ∧ safe X ∧ Bp (m_ ro) ≤ Prod)).

Abbreviation mst X L := (<[pp := L]> (<[r := X]> s0)).

Lemma mst_swap (X L X' : Int) : <[r := X']> (mst X L) = mst X' L.
Proof. rewrite insert_insert_ne by done. by rewrite insert_insert_eq. Qed.

(** One digit product is added, or the overflow flag is raised. *)
Lemma mul_add_digit X L v n P :
  mul_inv X P → wf L → val L = v → neg_ L = false → m_ L = 254%nat → 0 ≤ v →
  (n + d_ L ≤ m_ ro)%nat → (overflow_ X = false → P + v * Bp n ≤ Prod) →
  ∃ X' L', int_shift (Z.of_nat n) pp (mst X L) = Some ((), mst X L') ∧
    int_add r pp r (mst X L') = Some ((), mst X' L') ∧
    alloc L' ∧ m_ L' = 254%nat ∧ mul_inv X' (P + v * Bp n).
Proof.
  intros (HK & HN & HX) WL HvL HnL HmL Hv Hfit Hle.
  pose proof (al_m _ Aro). destruct HK as (HKm & HKo & HKl).
  assert (mag L = v) as HmgL by (unfold val in HvL; by rewrite HnL in HvL).
  destruct (int_shift_left_run n pp L (mst X L)) as (L' & EL & (HLm & _) & HLn & Hz & _ & Hnz); [lk|done|].
  assert (wf L' ∧ mag L' = v * Bp n) as [WL' HmgL'].
  { destruct (decide (mag L = 0)) as [Z0|NZ].
    - rewrite (Hz Z0). split; [done|]. lia.
    - destruct (Hnz NZ ltac:(lia)) as (? & ? & _). split; [done|]. congruence. }
  rewrite insert_insert_eq in EL.
  assert (safe X) as SX by (destruct HX as [(_ & ? & _)|(_ & ? & _)]; auto).
  destruct (addPos_run r pp r X L' X (mst X L')) as (X1 & E1 & (HK1 & HK2 & HK3) & HN1 & HX1);
    [lk|lk|lk|done|auto|auto|].
  exists (set_neg_ false X1), L'. split; [done|]. split.
  { unfold int_add. step. step. rewrite HN. rewrite HLn, HnL.
    step_with E1. erewrite modify_run by lk. by rewrite insert_insert_eq, mst_swap. }
  split; [auto|]. split; [congruence|].
  pose proof (safe_d _ SX).
  split; [repeat split; simpl; congruence|]. split; [done|]. rewrite HKm in HX1.
  destruct HX1 as [(S1 & M1 & O1 & W1)|(A1 & B1 & O1 & D1)].
  - destruct HX as [(HO & WX & HP)|(HO & _ & HB)]; [left|right].
    + split; [simpl; congruence|]. split; [by apply set_neg_wf, W1|].
      change (mag X1 = P + v * Bp n). lia.
    + split; [simpl; congruence|]. split; [|done]. split; [by apply set_neg_alloc; auto|apply S1].
  - right. split; [done|]. split.
    + split; [by apply set_neg_alloc|]. pose proof (al_m _ A1). simpl. rewrite HK1, HKm in *.
      destruct D1 as [->| ->]; lia.
    + destruct HX as [(HO & WX & HP)|(HO & _ & HB)]; [|done]. specialize (Hle HO). lia.
Qed.

Lemma mul_inner_run k : ∀ i j X L P,
  (i < d_ ao)%nat → (j + k = d_ bo)%nat → mul_inv X P → alloc L → m_ L = 254%nat →
  (overflow_ X = true → j = 0)%nat →
  P = (ev i (dg (h_ ao)) * mag bo + dg (h_ ao) i * Bp i * ev j (dg (h_ bo))) →
  ∀ fuel, (k < fuel)%nat →
  ∃ X' L', mul_inner a b r pp fuel i j (mst X L) = Some ((), mst X' L') ∧
    alloc L' ∧ m_ L' = 254%nat ∧ mul_inv X' (ev (S i) (dg (h_ ao)) * mag bo).
Proof.
  pose proof (wf_dg ao) as DA. pose proof (wf_dg bo) as DB.
  pose proof (al_len _ (safe_alloc _ (wf_safe _ Wa))). pose proof (safe_d _ (wf_safe _ Wa)).
  pose proof (al_len _ (safe_alloc _ (wf_safe _ Wb))). pose proof (safe_d _ (wf_safe _ Wb)).
  pose proof (al_m _ Aro).
  induction k as [|k IH]; intros i j X L P Hi Hj HX AL HmL Hov HP [|fuel] Hf; try lia;
    cbn [mul_inner]; step.
  - rewrite (proj2 (Nat.ltb_ge _ _)) by lia. exists X, L. split; [done|]. split; [done|].
    split; [done|]. assert (j = d_ bo) as -> by lia.
    assert (ev (S i) (dg (h_ ao)) * mag bo = P) as ->; [|done].
    rewrite HP. cbn [ev]. unfold mag. ring.
  - rewrite (proj2 (Nat.ltb_lt _ _)) by lia. step. step.
    specialize (DA i Wa) as Di. specialize (DB j Wb) as Dj. unfold digit in Di, Dj.
    set (v := dg (h_ ao) i * dg (h_ bo) j). assert (0 ≤ v < 2 ^ 32) as Hv by (unfold v; nia).
    rewrite u32_small by done.
    assert (0 ≤ v * Bp (i + j) ∧ P + v * Bp (i + j) ≤ Prod) as [Hv0 HPv].
    { pose proof (Bp_pos (i + j)). split; [nia|].
      pose proof (ev_digit_le (d_ ao) (dg (h_ ao)) i Hi ltac:(intros; by apply wf_dg)) as Hda.
      pose proof (ev_digit_le (d_ bo) (dg (h_ bo)) j ltac:(lia) ltac:(intros; by apply wf_dg)) as Hdb.
      fold (mag ao) in Hda. fold (mag bo) in Hdb. rewrite HP, Bp_add. unfold v.
      pose proof (Bp_pos i). pose proof (Bp_pos j). pose proof (mag_nonneg bo ltac:(auto)).
      transitivity ((ev i (dg (h_ ao)) + dg (h_ ao) i * Bp i) * mag bo); [nia|].
      apply Z.mul_le_mono_nonneg_r; [done|]. lia. }
    destruct (int_set_i_run v pp L (mst X L)) as (L1 & E1 & (HL1 & _) & _ & HN1 & _ & HV1);
      [lk|done|unfold INT64_MIN, INT64_MAX; lia|].
    assert (Bp 2 ≤ Bp (m_ L)) as HB2 by (apply Bp_le; lia).
    change (Bp 2) with (2 ^ 32) in HB2. destruct (HV1 ltac:(lia)) as [WL1 HvL1].
    rewrite (proj2 (Z.ltb_ge _ _)) in HN1 by lia.
    step_with E1. rewrite insert_insert_eq. step. step.
    destruct HX as (HK & HN & HX). destruct HK as (HKm & HKr). rewrite HKm.
    assert (mag L1 = v) as HmL1 by (unfold val in HvL1; by rewrite HN1 in HvL1).
    destruct (Nat.ltb_spec (m_ ro) (i + j + d_ L1)) as [Hbig|Hfit].
    + erewrite modify_run by lk. rewrite mst_swap. exists (set_overflow_ true X), L1.
      split; [done|]. split; [auto|]. split; [lia|]. split; [by split|]. split; [done|]. right.
      assert (safe X) as SX by (destruct HX as [(_ & ? & _)|(_ & ? & _)]; auto).
      split; [done|]. split; [split; [by apply (alloc_eq X); auto|apply SX]|].
      destruct (decide (v = 0)) as [Hv00|Hvn].
      * apply mag_zero_iff in WL1 as Hz1. rewrite HmL1 in Hz1. apply Hz1 in Hv00 as [Ed1 _].
        rewrite Ed1 in Hbig.
        assert (¬ (mag ao = 0 ∨ mag bo = 0)) as Hnz.
        { intros Hz. destruct (Hzero Hz). destruct Hz as [Hz|Hz].
          - apply (mag_zero_iff ao Wa) in Hz. lia.
          - apply (mag_zero_iff bo Wb) in Hz. lia. }
        pose proof (digits_pos i ao Wa ltac:(tauto) Hi). pose proof (digits_pos j bo Wb ltac:(tauto) ltac:(lia)).
        pose proof (Bp_le (m_ ro) (i + j) ltac:(lia)) as Hle. rewrite Bp_add in Hle.
        pose proof (Bp_pos i). pose proof (Bp_pos j).
        etransitivity; [exact Hle|]. apply Z.mul_le_mono_nonneg; lia.
      * pose proof (safe_d L1 ltac:(auto)).
        pose proof (digits_pos (d_ L1 - 1) L1 WL1 ltac:(lia) ltac:(lia)) as Hl. rewrite HmL1 in Hl.
        pose proof (Bp_le (m_ ro) (i + j + (d_ L1 - 1)) ltac:(lia)) as Hle. rewrite Bp_add in Hle.
        pose proof (Bp_pos (i + j)).
        assert (0 ≤ P).
        { rewrite HP. pose proof (mag_nonneg bo ltac:(auto)). pose proof (Bp_pos i).
          pose proof (ev_nonneg i (dg (h_ ao)) ltac:(intros; by apply wf_dg)).
          pose proof (ev_nonneg j (dg (h_ bo)) ltac:(intros; by apply wf_dg)). nia. }
        nia.
    + destruct (mul_add_digit X L1 v (i + j) P) as (X' & L' & Es & E' & AL' & HmL' & HX');
        [by repeat split; tauto|exact WL1|exact HvL1|exact HN1|lia|lia|lia|intros _; exact HPv|].
      step_with Es. step_with E'. step.
      destruct HX' as (HK' & HN' & HX'').
      destruct (overflow_ X') eqn:HO'.
      * exists X', L'. split; [done|]. split; [done|]. split; [done|]. split; [done|].
        split; [done|]. right. destruct HX'' as [(? & _)|(_ & ? & ?)]; [congruence|by split].
      * destruct HX'' as [HX''|(? & _)]; [|congruence].
        apply (IH i (S j) X' L' (P + v * Bp (i + j)));
          [exact Hi|lia| |exact AL'|exact HmL'|congruence| |lia].
        -- split; [exact HK'|]. split; [exact HN'|]. left.
           split; [exact HO'|apply HX''].
        -- rewrite HP. cbn [ev]. rewrite Bp_add. unfold v. ring.
Qed.

Lemma mul_outer_run k : ∀ i X L,
  (i + k = d_ ao)%nat → mul_inv X (ev i (dg (h_ ao)) * mag bo) → alloc L → m_ L = 254%nat →
  ∀ fuel, (k < fuel)%nat →
  ∃ X' L', mul_outer a b r pp fuel i (mst X L) = Some ((), mst X' L') ∧
    alloc L' ∧ mul_inv X' Prod.
Proof.
  pose proof (safe_d _ (wf_safe _ Wb)). pose proof (al_m _ (safe_alloc _ (wf_safe _ Wb))).
  induction k as [|k IH]; intros i X L Hi HX AL HmL [|fuel] Hf; try lia;
    cbn [mul_outer]; step.
  - rewrite (proj2 (Nat.ltb_ge _ _)) by lia. exists X, L. split; [done|]. split; [done|].
    by assert (d_ ao = i) as <- by lia.
  - rewrite (proj2 (Nat.ltb_lt _ _)) by lia.
    destruct (mul_inner_run (d_ bo) i 0 X L _ ltac:(lia) ltac:(lia) HX AL HmL) with (fuel := 256%nat)
      as (X1 & L1 & E1 & AL1 & HmL1 & HX1); [done|cbn [ev]; ring|lia|].
    step_with E1. apply (IH (S i) X1 L1); try done; lia.
Qed.
End MulRun.

(** Multiplication returns for every result object; it leaves the product,
    or the overflow flag when the product does not fit. *)
Lemma int_mul_run `{U : Uninit} a b r ao bo ro (s : store) :
  s !! a = Some ao → s !! b = Some bo → s !! r = Some ro → a ≠ r → b ≠ r →
  wf ao → wf bo → alloc ro →
  (mag ao = 0 ∨ mag bo = 0 → (d_ ao ≤ m_ ro ∧ d_ bo ≤ m_ ro)%nat) →
  ∃ R, int_mul a b r s = Some ((), <[r := R]> s) ∧ kept ro R ∧
    neg_ R = xorb (neg_ ao) (neg_ bo) ∧
    ((Z.abs (val ao * val bo) < Bp (m_ ro) ∧ wf R ∧ val R = val ao * val bo ∧ overflow_ R = false) ∨
     (Bp (m_ ro) ≤ Z.abs (val ao * val bo) ∧ safe R ∧ overflow_ R = true)).
Proof.
  intros Ha Hb Hr Har Hbr Wa Wb Ar Hz.
  pose proof (safe_d _ (wf_safe _ Wa)). pose proof (al_m _ (safe_alloc _ (wf_safe _ Wa))).
  assert (∃ a' s', int_mul a b r s = Some (a', s') ∧ ∃ R, s' = <[r := R]> s ∧ kept ro R ∧
    neg_ R = xorb (neg_ ao) (neg_ bo) ∧
    ((mag ao * mag bo < Bp (m_ ro) ∧ wf R ∧ mag R = mag ao * mag bo ∧ overflow_ R = false) ∨
     (Bp (m_ ro) ≤ mag ao * mag bo ∧ safe R ∧ overflow_ R = true))) as ([] & s' & E & R & -> & HK & HN & HR).
  - apply with_local_ex; [by exists 127%nat|lia|]. intros p L Hp HmL WL _ _ _.
    assert (a ≠ p ∧ b ≠ p ∧ r ≠ p) as (Hap & Hbp & Hrp) by (repeat split; congruence).
    destruct (int_set_i_run 0 r ro (<[p:=L]> s)) as (R0 & E0 & HK0 & _ & HN0 & HO0 & HV0);
      [lk|done|by vm_compute|].
    pose proof (Bp_pos (m_ ro)). destruct (HV0 ltac:(lia)) as [W0 V0].
    rewrite (proj2 (Z.ltb_lt _ _)) in HO0 by lia.
    step_with E0. rewrite insert_insert_ne by done.
    destruct (mul_outer_run a b r p ao bo ro s Ha Hb Har Hbr Hap Hbp Hrp Wa Wb Ar Hz
      (d_ ao) 0 R0 L) with (fuel := 256%nat) as (X & L' & E1 & AL' & HKX & HNX & HX);
      [lia| |auto|done|lia|].
    { split; [done|]. split; [done|]. left. split; [done|]. split; [done|].
      unfold val in V0. rewrite HN0 in V0. change (0 <? 0) with false in V0. cbn [ev]. lia. }
    step_with E1. step. step. erewrite modify_run by lk.
    rewrite insert_insert_ne by done. rewrite insert_insert_eq.
    set (R := set_neg_ _ X). exists (), (<[p := L']> (<[r := R]> s)). split; [done|].
    exists R. split; [apply delete_insert_id; by rewrite lookup_insert_ne|]. split; [done|]. split; [done|].
    destruct HX as [(HO & WX & HP)|(HO & SX & HB)]; [left|right].
    + pose proof (wf_mag_lt_m X WX) as Hlt. destruct HKX as (HKm & _). rewrite HKm, HP in Hlt.
      split; [done|]. split; [by apply set_neg_wf|]. done.
    + split; [done|]. split; [|done]. split; [by apply set_neg_alloc; auto|apply SX].
  - exists R. split; [done|]. split; [done|]. split; [done|].
    rewrite Z.abs_mul, !val_abs by auto.
    destruct HR as [(H1 & H2 & H3 & H4)|?]; [left|by right].
    split; [done|]. split; [done|]. split; [|done].
    unfold val. rewrite HN, H3. destruct (neg_ ao), (neg_ bo); simpl; ring.
Qed.
