(* ===== verification/IntDiv.v ===== *)
(** * The arbitrary-precision integers: division

    [int_div] of [cyarg/big-int/big-int.c]: schoolbook division that guesses
    one quotient digit from the two leading digits of the numerator.  A guess
    is never above what can be subtracted, so the loop only subtracts. *)
From S2P Require Export IntMul.

Section Div.
Context `{U : Uninit}.
Variables (q qd rb R SD : ptr) (testDenominator : Z).

(** The two leading digits: [guessNumerator]. *)
Definition guess_numerator (nDigit : Z) : M Z :=
  if nDigit <? 1 then st_assert (nDigit =? 0) ;; rd_h R 0
  else
    Ro ← get R;
    h ← (if Z.of_nat (d_ Ro) <=? nDigit then mret 0 else rd_h R (Z.to_nat nDigit));
    l ← rd_h R (Z.to_nat (nDigit - 1));
    mret (l + 65536 * h).

(** Guess, and subtract unless the guess is too high. *)
Definition div_reduce (nDigit : Z) : M () :=
  gn ← guess_numerator nDigit;
  let guess := if gn / testDenominator =? 0 then 1 else gn / testDenominator in
  int_set_i guess qd ;;
  int_mul SD qd rb ;;
  c ← int_is_abs R rb;
  if decide (c = INT_LT) then mret ()
  else subAGtB R rb R ;; addPos qd q q.

(** One iteration; [inr true] leaves the loop, [inr false] the function. *)
Definition div_body (x : Z * Z) : M (Z * Z + bool) :=
  let '(shift, nDigit) := x in
  c ← int_is_abs R SD;
  if decide (c = INT_LT) then
    if shift =? 0 then mret (inr true)
    else
      int_shift (-1) SD ;;
      int_shift 1 q ;;
      qo ← get q;
      if overflow_ qo then mret (inr false)
      else div_reduce (nDigit - 1) ;; mret (inl (shift - 1, nDigit - 1))
  else div_reduce nDigit ;; mret (inl (shift, nDigit)).
End Div.

(** 2^4072 iterations are more than the 254 digits of a numerator allow. *)
Definition div_fuel : nat := 4072.

(** [n] is adjusted towards the sign of [d] ("weird %"). *)
Definition signs_differ (nSign dSign : bool) : bool :=
  (nSign && negb dSign) || (negb nSign && dSign).

(** Shift the denominator to be one digit to the right of the numerator; if
    both have the same length, assume the numerator is one longer. *)
Definition div_setup (n d R SD : ptr) : M (Z * Z) :=
  int_set_t n R ;; modify R (set_neg_ false) ;;
  Ro ← get R;
  let nDigit := Z.of_nat (d_ Ro) - 1 in
  int_set_t d SD ;; modify SD (set_neg_ false) ;;
  SDo ← get SD;
  let shift := Z.of_nat (d_ Ro) - Z.of_nat (d_ SDo) - 1 in
  if shift =? -1 then mret (0, nDigit + 1)
  else if 1 <=? shift then int_shift shift SD ;; mret (shift, nDigit)
  else st_assert (shift =? 0) ;; mret (shift, nDigit).

(** The signs and the remainder, after the loop. *)
Definition div_finish (n d q R : ptr) (r : option ptr) (nSign dSign : bool) : M () :=
  modify q (set_neg_ (xorb nSign dSign)) ;;
  match r with
  | None => mret ()
  | Some r =>
      int_set_t R r ;; modify r (set_neg_ nSign) ;;
      z ← int_is_zero n;
      if negb z && signs_differ nSign dSign then int_add r d r else mret ()
  end.

Definition div_long_body `{U : Uninit} (n d q : ptr) (r : option ptr) (nSign dSign : bool)
    (qDigit reduceBy reducingNumerator shiftingDenominator : ptr) : M () :=
  do_ ← get d;
  top ← rd_h d (d_ do_ - 1);
  st_assert (negb (top =? 0)) ;;
  x ← div_setup n d reducingNumerator shiftingDenominator;
  int_init q ;;
  res ← iter_pow2 (div_body q qDigit reduceBy reducingNumerator shiftingDenominator (top + 1))
          div_fuel x;
  match res with
  | inl _ => st_fail
  | inr false => mret ()
  | inr true => div_finish n d q reducingNumerator r nSign dSign
  end.

Definition div_long `{U : Uninit} (n d q : ptr) (r : option ptr) (nSign dSign : bool) : M () :=
  with_local 254 (λ qd, int_init_concrete 254 qd ;;
  with_local 254 (λ rb, int_init_concrete 254 rb ;;
  with_local 254 (λ R, int_init_concrete 254 R ;;
  with_local 254 (λ SD, int_init_concrete 254 SD ;;
    div_long_body n d q r nSign dSign qd rb R SD)))).

Definition int_div `{U : Uninit} (n d q : ptr) (r : option ptr) : M () :=
  no ← get n; do_ ← get d;
  let nSign := neg_ no in
  let dSign := neg_ do_ in
  c ← int_is_abs n d;
  if decide (c = INT_LT) then
    (match r with
     | None => mret ()
     | Some r =>
         z ← int_is_zero n;
         if negb z && signs_differ nSign dSign then int_add n d r else int_set_t n r
     end) ;;
    int_init q
  else
    toosmall ← (match r with
                | None => mret false
                | Some r => ro ← get r; mret (m_ ro <? d_ do_)%nat
                end);
    match r, toosmall with
    | Some r, true => modify r (set_overflow_ true)
    | _, _ => div_long n d q r nSign dSign
    end.

(** A pointer outside a list of pointers that are written. *)
Ltac outside Hp :=
  let H := fresh in pose proof Hp as H; rewrite ?not_elem_of_cons in H;
  repeat match type of H with _ ∧ _ => let H1 := fresh in destruct H as [H1 H] end;
  rewrite ?lookup_insert_ne by (apply not_eq_sym; assumption); clear H.

(** ** The loop *)
Section Loop.
Context `{U : Uninit}.
Variables (q qd rb R SD : ptr) (s0 : store) (test D N0 : Z) (dd mq : nat).
Hypothesis (Hdd : (1 ≤ dd)%nat) (HD : 0 < D) (Ht : 2 ≤ test ≤ 65536).
(** [testDenominator] is above the leading digit of [D]. *)
Hypothesis HDtest : D < test * Bp (dd - 1).
Hypothesis Hfit : N0 / D < Bp mq.

(** What the loop keeps: the numerator is what is left of [N0], the
    denominator is [D] shifted by [k] digits. *)
Record dinv (k : nat) (qo qdo rbo Ro SDo : Int) : Prop := {
  di_q : wf qo; di_qo : overflow_ qo = false; di_qm : m_ qo = mq; di_qn : neg_ qo = false;
  di_qd : alloc qdo; di_qdm : m_ qdo = 254%nat;
  di_rb : alloc rbo; di_rbm : m_ rbo = 254%nat;
  di_SD : wf SDo; di_SDv : val SDo = D * Bp k; di_SDd : d_ SDo = (dd + k)%nat;
  di_SDm : m_ SDo = 254%nat;
  di_R : wf Ro; di_Rm : m_ Ro = 254%nat; di_Rn : neg_ Ro = false;
  di_Rlt : mag Ro < Bp (dd + k + 1);
  di_Rz : ∀ j, (d_ Ro ≤ j < dd + k)%nat → dg (h_ Ro) j = 0;
  di_sum : mag Ro + mag qo * Bp k * D = N0
}.

(** What the loop does not touch. *)
Record dst (s : store) (ov lit ob : bool) (qo qdo rbo Ro SDo : Int) : Prop := {
  ds_q : s !! q = Some qo; ds_qd : s !! qd = Some qdo; ds_rb : s !! rb = Some rbo;
  ds_R : s !! R = Some Ro; ds_SD : s !! SD = Some SDo;
  ds_fr : ∀ p, p ∉ [q; qd; rb; R; SD] → s !! p = s0 !! p;
  ds_ov : overflow_ Ro = ov; ds_lit : literal_ qo = lit; ds_ob : obj_ qo = ob
}.
Variables ov lit ob : bool.

Lemma SD_mag k qo qdo rbo Ro SDo : dinv k qo qdo rbo Ro SDo → mag SDo = D * Bp k.
Proof.
  intros H. rewrite <-(val_abs SDo) by (apply wf_safe, H). rewrite (di_SDv _ _ _ _ _ _ H).
  pose proof (Bp_pos k). nia.
Qed.

(** The guess: at least 1, and what it subtracts is at most the numerator
    unless it had to be raised to 1. *)
Lemma guess_run k qo qdo rbo Ro SDo (s : store) :
  dinv k qo qdo rbo Ro SDo → s !! R = Some Ro →
  ∃ gn, guess_numerator R (Z.of_nat (dd + k)) s = Some (gn, s) ∧ 0 ≤ gn < 2 ^ 32 ∧
    gn * Bp (dd + k - 1) ≤ mag Ro.
Proof.
  intros H E. set (nd := (dd + k)%nat). unfold guess_numerator.
  rewrite (proj2 (Z.ltb_ge _ _)) by lia.
  pose proof (di_R _ _ _ _ _ _ H) as W. pose proof (al_len _ (safe_alloc _ (wf_safe _ W))) as Hl.
  pose proof (safe_d _ (wf_safe _ W)) as Hd. rewrite (di_Rm _ _ _ _ _ _ H) in *.
  pose proof (di_SDd _ _ _ _ _ _ H) as HSd. pose proof (di_SD _ _ _ _ _ _ H) as WS.
  pose proof (safe_d _ (wf_safe _ WS)) as HSm. rewrite (di_SDm _ _ _ _ _ _ H), HSd in HSm.
  assert (d_ Ro ≤ nd + 1)%nat as Hdn.
  { apply wf_d_le; [done|lia|]. apply (di_Rlt _ _ _ _ _ _ H). }
  step.
  assert ((if Z.of_nat (d_ Ro) <=? Z.of_nat nd then mret 0 else rd_h R (Z.to_nat (Z.of_nat nd))) s
    = Some (zx Ro nd, s)) as Eh.
  { unfold zx. destruct (Z.leb_spec (Z.of_nat (d_ Ro)) (Z.of_nat nd)).
    - by rewrite decide_False by lia.
    - rewrite decide_True by lia. rewrite Nat2Z.id. eapply rd_h_run; [done|lia]. }
  step_with Eh.
  replace (Z.to_nat (Z.of_nat nd - 1)) with (nd - 1)%nat by lia.
  erewrite st_bind_run; [|eapply rd_h_run; [done|lia]]. cbv beta.
  assert (dg (h_ Ro) (nd - 1) = zx Ro (nd - 1)) as Ez.
  { unfold zx. case_decide; [done|]. apply (di_Rz _ _ _ _ _ _ H). lia. }
  rewrite Ez. exists (zx Ro (nd - 1) + 65536 * zx Ro nd). split; [done|].
  pose proof (zx_digit Ro (nd - 1) (wf_safe _ W)) as D1. pose proof (zx_digit Ro nd (wf_safe _ W)) as D2.
  unfold digit in D1, D2. split; [lia|].
  rewrite <-(ev_zx Ro (nd + 1)) by lia.
  replace (nd + 1)%nat with (S (S (nd - 1))) by lia. cbn [ev].
  replace (S (nd - 1)) with nd by lia.
  pose proof (ev_nonneg (nd - 1) (zx Ro) ltac:(intros; by apply zx_digit, wf_safe)).
  replace (Bp nd) with (BASE * Bp (nd - 1)) by (rewrite <-Bp_S; f_equal; lia). lia.
Qed.

Lemma guess_small k gn m :
  0 ≤ gn → gn * Bp (dd + k - 1) ≤ m → gn / test ≠ 0 → gn / test * (D * Bp k) ≤ m.
Proof.
  intros H0 Hm Hg. pose proof (Z.div_pos gn test H0 ltac:(lia)).
  pose proof (Z.mul_div_le gn test ltac:(lia)).
  replace (dd + k - 1)%nat with (dd - 1 + k)%nat in Hm by lia. rewrite Bp_add in Hm.
  pose proof (Bp_pos k). pose proof (Bp_pos (dd - 1)).
  transitivity (gn * (Bp (dd - 1) * Bp k)); [|done].
  transitivity (gn / test * test * (Bp (dd - 1) * Bp k)); [|apply Z.mul_le_mono_nonneg_r; lia].
  rewrite <-Z.mul_assoc. apply Z.mul_le_mono_nonneg_l; [done|].
  rewrite Z.mul_assoc. apply Z.mul_le_mono_nonneg_r; lia.
Qed.

(** The quotient so far fits. *)
Lemma quotient_fits k a m : 0 ≤ m → m + a * Bp k * D = N0 → a * Bp k < Bp mq.
Proof.
  intros Hm HN. apply Z.le_lt_trans with (N0 / D); [|done].
  apply Z.div_le_lower_bound; lia.
Qed.
(** The quotient has room for the digit it is shifted by. *)
Lemma quotient_room k qo qdo rbo Ro SDo :
  dinv (S k) qo qdo rbo Ro SDo → mag qo ≠ 0 → (d_ qo < mq)%nat.
Proof.
  intros H Hq0. pose proof (di_q _ _ _ _ _ _ H) as Wq. pose proof (safe_d _ (wf_safe _ Wq)).
  pose proof (quotient_fits (S k) (mag qo) (mag Ro)
    (mag_nonneg _ (wf_safe _ (di_R _ _ _ _ _ _ H))) (di_sum _ _ _ _ _ _ H)) as Hf.
  rewrite Bp_S in Hf. pose proof (Bp_pos k). apply Bp_lt_inv.
  pose proof (mag_nonneg qo ltac:(auto)). pose proof (Bp_pos (d_ qo - 1)).
  pose proof (digits_pos (d_ qo - 1) qo Wq Hq0 ltac:(lia)) as Hl.
  replace (Bp (d_ qo)) with (BASE * Bp (d_ qo - 1)) by (rewrite <-Bp_S; f_equal; lia).
  eapply Z.le_lt_trans; [|exact Hf].
  pose proof (Z.mul_le_mono_nonneg_l (Bp (d_ qo - 1)) (mag qo) BASE ltac:(lia) Hl).
  pose proof (Z.mul_le_mono_nonneg_l 1 (Bp k) (mag qo * BASE) ltac:(lia) ltac:(lia)). lia.
Qed.

(** Denominator and quotient move by one digit. *)
Lemma dinv_shift k qo qdo rbo Ro SDo Q1 S1 :
  dinv (S k) qo qdo rbo Ro SDo → mag Ro < D * Bp (S k) →
  wf Q1 → mag Q1 = mag qo * BASE → overflow_ Q1 = false → m_ Q1 = m_ qo → neg_ Q1 = neg_ qo →
  wf S1 → mag S1 = mag SDo / BASE → neg_ S1 = neg_ SDo → m_ S1 = m_ SDo →
  ((1 < d_ SDo)%nat → d_ S1 = d_ SDo - 1)%nat →
  dinv k Q1 qdo rbo Ro S1.
Proof.
  intros H Hlt WQ1 MQ1 OQ1 HmQ HnQ W1 M1 HnS HmS d1.
  pose proof (SD_mag _ _ _ _ _ _ H) as HSDm.
  destruct H as [Wq Oq Mq Nq Aqd Mqd Arb Mrb WSD VSD dSD MSD WR MR NR HRlt HRz Hsum].
  pose proof (Bp_pos k). pose proof (Z.mul_pos_pos D (Bp k) HD ltac:(done)).
  rewrite Bp_S in *. replace (D * (BASE * Bp k)) with (D * Bp k * BASE) in * by ring.
  rewrite HSDm, Z.div_mul in M1 by lia.
  assert (neg_ SDo = false) as NSD.
  { unfold val in VSD. rewrite HSDm in VSD. destruct (neg_ SDo); [lia|done]. }
  split; try done; try congruence.
  - unfold val. rewrite HnS, NSD. done.
  - rewrite d1 by lia. lia.
  - replace (dd + k + 1)%nat with (dd + S k)%nat by lia.
    pose proof (mag_bound SDo ltac:(auto)) as Hb. rewrite dSD, HSDm in Hb. lia.
  - intros j Hj. apply HRz. lia.
  - rewrite MQ1. lia.
Qed.

Hypothesis (Hqqd : q ≠ qd) (Hqrb : q ≠ rb) (HqR : q ≠ R) (HqSD : q ≠ SD) (Hqdrb : qd ≠ rb)
  (HqdR : qd ≠ R) (HqdSD : qd ≠ SD) (HrbR : rb ≠ R) (HrbSD : rb ≠ SD) (HRSD : R ≠ SD).

(** The subtraction of [g] times the denominator, [P]. *)
Lemma div_subtract_run k qo G P Ro SDo g s :
  dst s ov lit ob qo G P Ro SDo → dinv k qo G P Ro SDo →
  wf G → mag G = g → wf P → mag P = g * (D * Bp k) → mag P ≤ mag Ro → 1 ≤ g →
  ∃ qo' Ro' s',
    (subAGtB R rb R ;; addPos qd q q) s = Some ((), s') ∧
    dst s' ov lit ob qo' G P Ro' SDo ∧ dinv k qo' G P Ro' SDo ∧ mag Ro' < mag Ro.
Proof.
  intros HS H WG MG WP MP Hle Hg.
  destruct HS as [Eq Eqd Erb ER ESD Efr Hov Hlit Hob].
  destruct H as [Wq Oq Mq Nq Aqd Mqd Arb Mrb WSD VSD dSD MSD WR MR NR HRlt HRz Hsum].
  pose proof (Z.mul_pos_pos D (Bp k) HD (Bp_pos k)) as HDk.
  assert (0 < mag P) as HP0 by (rewrite MP; apply Z.mul_pos_pos; lia).
  pose proof (wf_mag_lt_m _ WR) as HRm. rewrite MR in HRm.
  destruct (subAGtB_run R rb R Ro P Ro s)
    as (R' & ER' & (HRm' & HRo' & HRl') & HRn' & HR'); [done..|auto|done|].
  step_with ER'. destruct HR' as [(WR' & MR' & _ & OR' & HRz1 & HRz2)|(_ & Hbig & _)];
    [|rewrite MR in Hbig; lia].
  destruct (addPos_run qd q q G qo qo (<[R:=R']> s))
    as (Q' & EQ' & (HQm' & HQo' & HQl') & HQn' & HQ'); [lk|lk|lk|auto..|].
  rewrite EQ'. exists Q', R'. eexists. split; [done|].
  assert (mag R' + (mag G + mag qo) * Bp k * D = N0) as Hsum' by (rewrite MR', MP, MG; lia).
  destruct HQ' as [(_ & MQ & OQ & WQ)|(_ & Hbig & _)].
  2:{ pose proof (quotient_fits k (mag G + mag qo) (mag R') ltac:(apply mag_nonneg; auto) Hsum') as Hf.
      rewrite Mq in Hbig. pose proof (Bp_pos k).
      pose proof (mag_nonneg qo ltac:(auto)).
      pose proof (Z.mul_le_mono_nonneg_l 1 (Bp k) (mag G + mag qo) ltac:(lia) ltac:(lia)). lia. }
  split; [split; try lk; try congruence|].
  { intros p Hp. by outside Hp; apply Efr. }
  split; [|lia].
  split; try done; try (auto; fail); try congruence; [lia|].
  intros j Hj. pose proof (safe_d _ (wf_safe _ WR)). destruct (decide (j < d_ Ro)%nat).
  - apply HRz1. rewrite MR. rewrite MR in *. lia.
  - destruct (HRz2 j ltac:(lia)) as [->| ->]; [apply HRz; lia|done].
Qed.

(** One reduction: [g] times the denominator is subtracted, [g] is added to
    the quotient. *)
Lemma div_reduce_run k qo qdo rbo Ro SDo s :
  dst s ov lit ob qo qdo rbo Ro SDo → dinv k qo qdo rbo Ro SDo →
  ∃ qo' qdo' rbo' Ro' s',
    div_reduce q qd rb R SD test (Z.of_nat (dd + k)) s = Some ((), s') ∧
    dst s' ov lit ob qo' qdo' rbo' Ro' SDo ∧ dinv k qo' qdo' rbo' Ro' SDo ∧
    mag Ro' ≤ mag Ro ∧ (D * Bp k ≤ mag Ro → mag Ro' < mag Ro).
Proof.
  intros HS H. pose proof (SD_mag _ _ _ _ _ _ H) as HSDm.
  destruct (guess_run k _ _ _ _ _ s H (ds_R _ _ _ _ _ _ _ _ _ HS)) as (gn & Eg & Hgn & Hgm).
  unfold div_reduce. step_with Eg. cbv zeta.
  pose proof (guess_small k gn (mag Ro) ltac:(lia) Hgm) as Hsm.
  assert (0 ≤ gn / test ≤ gn) as Hdiv.
  { split; [apply Z.div_pos; lia|]. apply Z.div_le_upper_bound; nia. }
  set (g := if gn / test =? 0 then 1 else gn / test).
  assert (1 ≤ g < 2 ^ 32 ∧ (g = 1 ∨ g * (D * Bp k) ≤ mag Ro)) as [Hg1 Hg2].
  { unfold g. destruct (Z.eqb_spec (gn / test) 0); [lia|]. split; [lia|right; by apply Hsm]. }
  clearbody g. clear Hsm Hdiv Hgm Hgn Eg gn.
  pose proof (Z.mul_pos_pos D (Bp k) HD (Bp_pos k)) as HDk.
  pose proof HS as [Eq Eqd Erb ER ESD Efr Hov Hlit Hob].
  pose proof H as [Wq Oq Mq Nq Aqd Mqd Arb Mrb WSD VSD dSD MSD WR MR NR HRlt HRz Hsum].
  destruct (int_set_i_run g qd qdo s) as (G & EG & (HGm & _) & _ & HGn & _ & HGv);
    [done..|unfold INT64_MIN, INT64_MAX; lia|].
  rewrite (proj2 (Z.ltb_ge g 0)) in HGn by lia.
  destruct HGv as [WG VG].
  { rewrite Mqd. assert (2 ^ 64 < Bp 254) by (vm_compute; done). lia. }
  step_with EG.
  assert (mag G = g) as MG by (unfold val in VG; by rewrite HGn in VG).
  destruct (int_mul_run SD qd rb SDo G rbo (<[qd:=G]> s))
    as (P & EP & (HPm & _) & HPn & HPv); [lk|lk|lk|done..| |].
  { rewrite MG, HSDm. lia. }
  step_with EP. rewrite VG, VSD, Mrb in HPv. rewrite (Z.mul_comm (D * Bp k)) in HPv.
  rewrite Z.abs_eq in HPv by (apply Z.mul_nonneg_nonneg; lia).
  pose proof (wf_mag_lt_m _ WR) as HRm. rewrite MR in HRm.
  assert (g * (D * Bp k) < Bp 254) as Hfits.
  { pose proof (wf_mag_lt_m _ WSD) as HSDlt. rewrite MSD, HSDm in HSDlt. destruct Hg2 as [-> |]; lia. }
  destruct HPv as [(_ & WP & VP & _)|(Hbig & _)]; [|lia].
  assert (mag P = g * (D * Bp k)) as MP.
  { rewrite <-(val_abs P), VP by auto. apply Z.abs_eq, Z.mul_nonneg_nonneg; lia. }
  set (s1 := <[rb:=P]> (<[qd:=G]> s)).
  assert (dst s1 ov lit ob qo G P Ro SDo) as HS1.
  { unfold s1. split; try done; try lk.
    intros p Hp. by outside Hp; apply Efr. }
  assert (dinv k qo G P Ro SDo) as H1.
  { split; try done; auto; congruence. }
  erewrite st_bind_run; [|eapply int_is_abs_run; [apply HS1|apply HS1|done..]]. cbv beta.
  destruct (Z.compare_spec (mag Ro) (mag P)) as [Hc|Hc|Hc]; cbn [int_comp];
    [rewrite decide_False by done|rewrite decide_True by done|rewrite decide_False by done].
  2:{ exists qo, G, P, Ro, s1. split; [done|]. split; [done|]. split; [done|]. split; [lia|].
      rewrite MP in Hc. destruct Hg2 as [-> |]; lia. }
  all: destruct (div_subtract_run k qo G P Ro SDo g s1 HS1 H1) as (qo' & Ro' & s' & E & HS' & H' & Hlt);
    [done..|lia|lia|]; rewrite E; exists qo', G, P, Ro', s'; split_and!; try done; lia.
Qed.
(** The shift of one iteration. *)
Lemma div_shift_run k qo qdo rbo Ro SDo s :
  dst s ov lit ob qo qdo rbo Ro SDo → dinv (S k) qo qdo rbo Ro SDo → mag Ro < D * Bp (S k) →
  ∃ qo' SDo' s1 s2,
    int_shift (-1) SD s = Some ((), s1) ∧ int_shift 1 q s1 = Some ((), s2) ∧
    dst s2 ov lit ob qo' qdo rbo Ro SDo' ∧ dinv k qo' qdo rbo Ro SDo'.
Proof.
  intros HS H Hlt. destruct HS as [Eq Eqd Erb ER ESD Efr Hov Hlit Hob].
  destruct (int_shift_right_run 1 SD SDo s) as (S1 & E1 & (Hm1 & _) & Hn1 & _ & W1 & M1 & d1);
    [done|apply H|rewrite (di_SDd _ _ _ _ _ _ H); clear -Hdd; lia|]. change (- Z.of_nat 1) with (-1) in E1.
  destruct (int_shift_left_run 1 q qo (<[SD:=S1]> s)) as (Q1 & E2 & (Hm2 & Ho2 & Hl2) & Hn2 & Hz & _ & Hnz);
    [lk|apply H|]. change (Z.of_nat 1) with 1 in E2.
  exists Q1, S1. eexists. eexists. split; [exact E1|]. split; [exact E2|].
  assert (wf Q1 ∧ mag Q1 = mag qo * BASE ∧ overflow_ Q1 = false) as (WQ1 & MQ1 & OQ1).
  { destruct (decide (mag qo = 0)) as [Hq0|Hq0].
    - rewrite (Hz Hq0). split_and!; [apply H|by rewrite Hq0|apply H].
    - destruct Hnz as (? & HM & _ & HO); [done| |split_and!; try done; rewrite HO; apply H].
      pose proof (quotient_room k _ _ _ _ _ H Hq0) as Hroom. rewrite (di_qm _ _ _ _ _ _ H).
      clear -Hroom. lia. }
  split; [|by eapply dinv_shift].
  split; try lk; try congruence. intros p Hp. by outside Hp; apply Efr.
Qed.

(** The state of the loop, its end and its measure. *)
Definition linv (x : Z * Z) (s : store) : Prop :=
  ∃ k qo qdo rbo Ro SDo, x = (Z.of_nat k, Z.of_nat (dd + k)) ∧
    dst s ov lit ob qo qdo rbo Ro SDo ∧ dinv k qo qdo rbo Ro SDo.
Definition lpost (res : bool) (s : store) : Prop :=
  res = true ∧ ∃ qo qdo rbo Ro SDo,
    dst s ov lit ob qo qdo rbo Ro SDo ∧ dinv 0 qo qdo rbo Ro SDo ∧ mag Ro < D.
Definition lmeasure (x : Z * Z) (s : store) : Z :=
  from_option mag 0 (s !! R) + x.1.

Lemma div_body_run x s : linv x s →
  (∃ x' s', div_body q qd rb R SD test x s = Some (inl x', s') ∧ linv x' s' ∧
     0 ≤ lmeasure x' s' < lmeasure x s) ∨
  (∃ res s', div_body q qd rb R SD test x s = Some (inr res, s') ∧ lpost res s').
Proof.
  intros (k & qo & qdo & rbo & Ro & SDo & -> & HS & H). pose proof (SD_mag _ _ _ _ _ _ H) as HSDm.
  unfold div_body, lmeasure. cbn [fst]. rewrite (ds_R _ _ _ _ _ _ _ _ _ HS). cbn [from_option].
  pose proof (mag_nonneg Ro (wf_safe _ (di_R _ _ _ _ _ _ H))) as HR0.
  erewrite st_bind_run; [|eapply int_is_abs_run; [apply HS|apply HS|apply H|apply H]]. cbv beta.
  rewrite HSDm.
  assert (mag Ro < D * Bp k ∨ D * Bp k ≤ mag Ro) as [Hc|Hc] by lia.
  - rewrite (proj2 (Z.compare_lt_iff _ _)), decide_True by done.
    destruct (Z.eqb_spec (Z.of_nat k) 0) as [Hk|Hk].
    + right. exists true, s. split; [done|]. split; [done|].
      assert (k = 0)%nat as -> by lia. rewrite Bp_0, Z.mul_1_r in Hc.
      by exists qo, qdo, rbo, Ro, SDo.
    + destruct k as [|k]; [lia|].
      destruct (div_shift_run k qo qdo rbo Ro SDo s HS H Hc) as (qo1 & SDo1 & s1 & s2 & E1 & E2 & HS2 & H2).
      step_with E1. step_with E2.
      erewrite st_bind_run; [|apply get_run, HS2]. cbv beta.
      rewrite (di_qo _ _ _ _ _ _ H2).
      replace (Z.of_nat (dd + S k) - 1) with (Z.of_nat (dd + k)) by lia.
      destruct (div_reduce_run k _ _ _ _ _ _ HS2 H2) as (qo' & qdo' & rbo' & Ro' & s' & E & HS' & H' & Hle & _).
      step_with E. left. eexists. exists s'. split; [done|].
      split; [exists k, qo', qdo', rbo', Ro', SDo1; split_and!; try done; f_equal; lia|].
      cbn [fst]. rewrite (ds_R _ _ _ _ _ _ _ _ _ HS'). cbn [from_option].
      pose proof (mag_nonneg Ro' (wf_safe _ (di_R _ _ _ _ _ _ H'))). lia.
  - assert (int_comp (mag Ro ?= D * Bp k) ≠ INT_LT) as Hne.
    { destruct (Z.compare_spec (mag Ro) (D * Bp k)); [done|lia|done]. }
    rewrite decide_False by done.
    destruct (div_reduce_run k _ _ _ _ _ _ HS H) as (qo' & qdo' & rbo' & Ro' & s' & E & HS' & H' & _ & Hlt).
    step_with E. left. eexists. exists s'. split; [done|].
    split; [by exists k, qo', qdo', rbo', Ro', SDo|].
    cbn [fst]. rewrite (ds_R _ _ _ _ _ _ _ _ _ HS'). cbn [from_option].
    pose proof (mag_nonneg Ro' (wf_safe _ (di_R _ _ _ _ _ _ H'))). specialize (Hlt Hc). lia.
Qed.

(** The loop terminates, with quotient and remainder of the magnitudes. *)
Lemma div_loop_run k qo qdo rbo Ro SDo s :
  dst s ov lit ob qo qdo rbo Ro SDo → dinv k qo qdo rbo Ro SDo →
  ∃ s', iter_pow2 (div_body q qd rb R SD test) div_fuel (Z.of_nat k, Z.of_nat (dd + k)) s
          = Some (inr true, s') ∧
    ∃ qo' qdo' rbo' Ro' SDo', dst s' ov lit ob qo' qdo' rbo' Ro' SDo' ∧
      dinv 0 qo' qdo' rbo' Ro' SDo' ∧ mag qo' = N0 / D ∧ mag Ro' = N0 mod D.
Proof.
  intros HS H.
  destruct (iter_pow2_total (div_body q qd rb R SD test) linv lpost lmeasure div_body_run div_fuel
    (Z.of_nat k, Z.of_nat (dd + k)) s) as (res & s' & E & -> & HP).
  - by exists k, qo, qdo, rbo, Ro, SDo.
  - unfold lmeasure. rewrite (ds_R _ _ _ _ _ _ _ _ _ HS). cbn [from_option fst].
    pose proof (wf_mag_lt_m _ (di_R _ _ _ _ _ _ H)) as Hm. rewrite (di_Rm _ _ _ _ _ _ H) in Hm.
    pose proof (safe_d _ (wf_safe _ (di_SD _ _ _ _ _ _ H))) as Hd.
    rewrite (di_SDd _ _ _ _ _ _ H), (di_SDm _ _ _ _ _ _ H) in Hd.
    assert (Bp 254 + 254 < 2 ^ Z.of_nat div_fuel) by (vm_compute; done). lia.
  - exists s'. split; [done|]. destruct HP as (qo' & qdo' & rbo' & Ro' & SDo' & HS' & H' & Hlt).
    exists qo', qdo', rbo', Ro', SDo'. split; [done|]. split; [done|].
    pose proof (di_sum _ _ _ _ _ _ H') as Hsum. rewrite Bp_0, Z.mul_1_r in Hsum.
    pose proof (mag_nonneg Ro' (wf_safe _ (di_R _ _ _ _ _ _ H'))).
    split; [apply (Z.div_unique_pos _ _ _ (mag Ro'))|apply (Z.mod_unique_pos _ _ (mag qo'))]; lia.
Qed.
End Loop.
