(* ===== verification/IntDivRun.v ===== *)
(** * The arbitrary-precision integers: division, the whole function

    The runs of [int_div]: the set-up, the loop of [IntDiv], the signs and
    the adjusted remainder, with the locals gone at the end. *)
From S2P Require Export IntDiv.

(** ** The whole function *)

(** The remainder of the language: that of the truncated quotient, plus the
    divisor when the operands have different signs. *)
Definition yarg_rem (a b : Z) : Z := Z.rem a b + (if a * b <? 0 then b else 0).

Lemma quot_signed (sn sd : bool) N D :
  0 ≤ N → 0 < D →
  Z.quot (if sn then - N else N) (if sd then - D else D) =
    (if xorb sn sd then - (N / D) else N / D).
Proof.
  intros. rewrite <-Z.quot_div_nonneg by lia.
  destruct sn, sd; simpl; rewrite ?Z.quot_opp_opp, ?Z.quot_opp_l, ?Z.quot_opp_r by lia; lia.
Qed.
Lemma rem_signed (sn sd : bool) N D :
  0 ≤ N → 0 < D →
  Z.rem (if sn then - N else N) (if sd then - D else D) = (if sn then - (N mod D) else N mod D).
Proof.
  intros. rewrite <-Z.rem_mod_nonneg by lia.
  destruct sn, sd; simpl; rewrite ?Z.rem_opp_opp, ?Z.rem_opp_l, ?Z.rem_opp_r by lia; lia.
Qed.
Lemma signs_signed (sn sd : bool) N D :
  0 ≤ N → 0 < D →
  ((if sn then - N else N) * (if sd then - D else D) <? 0) = negb (N =? 0) && signs_differ sn sd.
Proof.
  intros HN HD.
  destruct (Z.eqb_spec N 0) as [->|].
  - simpl. apply Z.ltb_ge. destruct sn, sd; lia.
  - assert (0 < N * D) by (apply Z.mul_pos_pos; lia).
    destruct sn, sd; simpl; rewrite ?Z.mul_opp_l, ?Z.mul_opp_r;
      first [apply Z.ltb_lt; lia | apply Z.ltb_ge; lia].
Qed.

(** The remainder has room: for the length of the divisor, or for that of the
    numerator when it is the remainder unchanged. *)
Definition rem_room (no do_ ro : Int) : Prop :=
  (d_ do_ ≤ m_ ro)%nat ∨
  ((d_ no ≤ m_ ro)%nat ∧ mag no < mag do_ ∧ 0 ≤ val no * val do_).

(** What [int_div] leaves in the store: the quotient at [q] and, if asked
    for, the remainder at [r]; [F] lists the local objects still there. *)
Definition div_post (F : list ptr) (q : ptr) (r : option ptr) (no do_ qo : Int) (s s' : store) : Prop :=
  (∃ Q, s' !! q = Some Q ∧ m_ Q = m_ qo ∧ obj_ Q = obj_ qo ∧ literal_ Q = false ∧
     wf Q ∧ overflow_ Q = false ∧ val Q = Z.quot (val no) (val do_)) ∧
  (∀ r', r = Some r' → ∃ ro R, s !! r' = Some ro ∧ s' !! r' = Some R ∧ kept ro R ∧ wf R ∧
     overflow_ R = overflow_ no ∧ val R = yarg_rem (val no) (val do_)) ∧
  (∀ p, p ≠ q → r ≠ Some p → p ∉ F → s' !! p = s !! p).

Lemma div_post_delete l F q r no do_ qo (s s' : store) :
  s !! l = None → l ≠ q → r ≠ Some l →
  div_post (l :: F) q r no do_ qo s s' → div_post F q r no do_ qo s (delete l s').
Proof.
  intros Hl Hq Hr ((Q & EQ & HQ) & HR & Hf). split; [|split].
  - exists Q. by rewrite lookup_delete_ne by done.
  - intros r' Er. destruct (HR r' Er) as (ro & R & E1 & E2 & HR'). exists ro, R.
    rewrite lookup_delete_ne by congruence. done.
  - intros p Hp1 Hp2 Hp3. destruct (decide (p = l)) as [->|Hne].
    + by rewrite lookup_delete_eq.
    + rewrite lookup_delete_ne by done. apply Hf; [done|done|]. rewrite not_elem_of_cons. done.
Qed.

(** Facts on the pointers of the four locals. *)
Lemma in_R (qd rb R SD : ptr) : R ∈ [qd; rb; R; SD].
Proof. set_solver. Qed.
Lemma in_SD (qd rb R SD : ptr) : SD ∈ [qd; rb; R; SD].
Proof. set_solver. Qed.
Lemma NoDup_R_SD (q qd rb R SD : ptr) : NoDup [q; qd; rb; R; SD] → R ≠ SD.
Proof.
  intros H. apply list.NoDup_cons in H as [_ H]. apply list.NoDup_cons in H as [_ H].
  apply list.NoDup_cons in H as [_ H]. apply list.NoDup_cons in H as [H _]. set_solver.
Qed.
Lemma NoDup_q_R (q qd rb R SD : ptr) : NoDup [q; qd; rb; R; SD] → q ≠ R.
Proof. intros H. apply list.NoDup_cons in H as [H _]. set_solver. Qed.
Lemma frame_notin (q qd rb R SD p : ptr) : p ≠ q → p ∉ [SD; R; rb; qd] → p ∉ [q; qd; rb; R; SD].
Proof. set_solver. Qed.

Lemma NoDup_five (q qd rb R SD : ptr) : NoDup [q; qd; rb; R; SD] →
  q ≠ qd ∧ q ≠ rb ∧ q ≠ R ∧ q ≠ SD ∧ qd ≠ rb ∧ qd ≠ R ∧ qd ≠ SD ∧ rb ≠ R ∧ rb ≠ SD ∧ R ≠ SD.
Proof.
  intros H. do 4 (apply list.NoDup_cons in H as [? H]). rewrite !not_elem_of_cons in *. tauto.
Qed.

Section Whole.
Context `{U : Uninit}.
Variables (n d q : ptr) (r : option ptr) (no do_ qo : Int) (s : store).
Hypothesis (En : s !! n = Some no) (Ed : s !! d = Some do_) (Eq : s !! q = Some qo).
Hypothesis (Wn : wf no) (Wd : wf do_) (Aq : alloc qo) (Hqd : q ≠ d) (HD : mag do_ ≠ 0).
Hypothesis Hfit : mag no / mag do_ < Bp (m_ qo).
Hypothesis Hr : ∀ r', r = Some r' → r' ≠ q ∧ r' ≠ d ∧ r' ≠ n ∧
  ∃ ro, s !! r' = Some ro ∧ alloc ro ∧ rem_room no do_ ro ∧ overflow_ ro = overflow_ no.

Lemma D_pos : 0 < mag do_.
Proof. pose proof (mag_nonneg do_ ltac:(auto)). lia. Qed.

(** The leading digit of the denominator. *)
Lemma top_digit :
  1 ≤ dg (h_ do_) (d_ do_ - 1) < BASE ∧ mag do_ < (dg (h_ do_) (d_ do_ - 1) + 1) * Bp (d_ do_ - 1).
Proof.
  pose proof (safe_d _ (wf_safe _ Wd)) as Hd.
  pose proof (wf_dg do_ (d_ do_ - 1) Wd) as Dt. unfold digit in Dt.
  assert (dg (h_ do_) (d_ do_ - 1) ≠ 0) as Hnz.
  { destruct (decide (1 < d_ do_)%nat) as [|H1]; [by apply Wd|].
    assert (d_ do_ = 1)%nat as E by lia. rewrite E. change (1 - 1)%nat with 0%nat.
    by rewrite <-mag_d1. }
  split; [lia|]. unfold mag. replace (d_ do_) with (S (d_ do_ - 1)) at 1 by lia. cbn [ev].
  pose proof (ev_bound (d_ do_ - 1) (dg (h_ do_)) ltac:(intros; by apply wf_dg)). lia.
Qed.

Section Core.
Variables (qd rb R SD : ptr) (Lqd Lrb LR LSD : Int) (sc : store).
Hypothesis Hnd : NoDup [q; qd; rb; R; SD].
Hypothesis Hlive : ∀ p, p ∈ [qd; rb; R; SD] → s !! p = None.
Hypothesis (Eqd : sc !! qd = Some Lqd) (Erb : sc !! rb = Some Lrb) (ER : sc !! R = Some LR)
  (ESD : sc !! SD = Some LSD).
Hypothesis (Aqd : alloc Lqd) (Arb : alloc Lrb) (WR : wf LR) (WSD : wf LSD).
Hypothesis HzR : mag LR = 0.
Hypothesis (Mqd : m_ Lqd = 254%nat) (Mrb : m_ Lrb = 254%nat) (MR : m_ LR = 254%nat)
  (MSD : m_ LSD = 254%nat).
Hypothesis Hsc : ∀ p, p ∉ [qd; rb; R; SD] → sc !! p = s !! p.

Lemma live_ne p i l : s !! p = Some i → l ∈ [qd; rb; R; SD] → p ≠ l.
Proof. intros E H ->. rewrite Hlive in E by done. done. Qed.
Lemma live_notin p i : s !! p = Some i → p ∉ [qd; rb; R; SD].
Proof. intros E H. by apply (live_ne p i p E H). Qed.
Lemma live_notin_q p i : s !! p = Some i → p ≠ q → p ∉ [q; qd; rb; R; SD].
Proof. intros E Hq H. apply elem_of_cons in H as [->|H]; [done|]. by apply (live_ne p i p E H). Qed.
Local Abbreviation R_in := (in_R qd rb R SD).
Local Abbreviation SD_in := (in_SD qd rb R SD).

(** The set-up establishes the invariant of the loop. *)
Lemma div_setup_run :
  mag do_ ≤ mag no →
  ∃ k Ro SDo,
    div_setup n d R SD sc =
      Some ((Z.of_nat k, Z.of_nat (d_ do_ + k)), <[SD := SDo]> (<[R := Ro]> sc)) ∧
    wf Ro ∧ m_ Ro = 254%nat ∧ neg_ Ro = false ∧ mag Ro = mag no ∧ overflow_ Ro = overflow_ no ∧
    wf SDo ∧ m_ SDo = 254%nat ∧ val SDo = mag do_ * Bp k ∧ d_ SDo = (d_ do_ + k)%nat ∧
    (d_ do_ + k ≤ d_ Ro ≤ d_ do_ + k + 1)%nat.
Proof.
  intros Hle.
  assert (d_ do_ ≤ d_ no)%nat as Hdd.
  { destruct (decide (d_ do_ ≤ d_ no)%nat); [done|]. pose proof (mag_lt_of_d no do_ Wn Wd). lia. }
  pose proof (safe_d _ (wf_safe _ Wn)) as Sn. pose proof (al_m _ (safe_alloc _ (wf_safe _ Wn))) as Mn.
  pose proof (live_ne n no R En R_in) as HnR.
  pose proof (live_ne d do_ SD Ed SD_in) as HdSD.
  pose proof (live_ne d do_ R Ed R_in) as HdR.
  assert (sc !! n = Some no) as En' by (rewrite Hsc; [done|by eapply live_notin]).
  assert (sc !! d = Some do_) as Ed' by (rewrite Hsc; [done|by eapply live_notin]).
  pose proof (NoDup_R_SD _ _ _ _ _ Hnd) as HRS. unfold div_setup.
  destruct (int_set_t_run n R no LR sc) as (R1 & E1 & (HK1 & _) & _ & _ & HO1 & HD1 & _ & _ & HM1 & HW1);
    [done|done|auto|auto|lia|].
  step_with E1. step. rewrite insert_insert_eq. set (Ro := set_neg_ false R1). step.
  assert (wf Ro) as WRo by (by apply set_neg_wf, HW1).
  assert (d_ Ro = d_ no) as DRo by done. assert (m_ Ro = 254%nat) as MRo by (change (m_ Ro) with (m_ R1); congruence).
  assert (mag Ro = mag no) as GRo by done. assert (overflow_ Ro = overflow_ no) as ORo by done.
  assert (neg_ Ro = false) as NRo by done.
  rewrite DRo.
  destruct (int_set_t_run d SD do_ LSD (<[R:=Ro]> sc)) as (S1 & E2 & (HK2 & _) & _ & _ & _ & HD2 & _ & _ & HM2 & HW2);
    [lk|lk|auto|auto|lia|].
  step_with E2. step. rewrite insert_insert_eq. set (S2 := set_neg_ false S1). step.
  assert (wf S2) as WS2 by (by apply set_neg_wf, HW2).
  assert (d_ S2 = d_ do_) as DS2 by done. assert (m_ S2 = 254%nat) as MS2 by (change (m_ S2) with (m_ S1); congruence).
  assert (mag S2 = mag do_) as GS2 by done. assert (val S2 = mag do_) as VS2 by done.
  rewrite DS2.
  destruct (Z.eqb_spec (Z.of_nat (d_ no) - Z.of_nat (d_ do_) - 1) (-1)) as [Hs|Hs].
  { exists 0%nat, Ro, S2. rewrite st_ret_run.
    replace (Z.of_nat (d_ do_ + 0)) with (Z.of_nat (d_ no) - 1 + 1) by lia.
    split; [done|]. rewrite Bp_0, Z.mul_1_r. split_and!; try done; lia. }
  assert (∃ k, d_ no = d_ do_ + k + 1)%nat as [k Hkd] by (exists (d_ no - d_ do_ - 1)%nat; lia).
  replace (Z.of_nat (d_ no) - Z.of_nat (d_ do_) - 1) with (Z.of_nat k) by lia.
  replace (Z.of_nat (d_ no) - 1) with (Z.of_nat (d_ do_ + k)) by lia.
  destruct (Z.leb_spec 1 (Z.of_nat k)) as [Hk|Hk].
  - destruct (int_shift_left_run k SD S2 (<[SD:=S2]> (<[R:=Ro]> sc)))
      as (S3 & E3 & (HK3 & _) & HN3 & _ & _ & Hnz); [lk|done|].
    destruct Hnz as (W3 & M3 & D3 & _).
    { congruence. }
    { lia. }
    step_with E3. rewrite insert_insert_eq. exists k, Ro, S3. split; [done|].
    assert (val S3 = mag do_ * Bp k) by (unfold val; rewrite HN3, M3; by rewrite GS2).
    split_and!; try done; try lia; congruence.
  - assert (k = 0)%nat as -> by lia. rewrite (proj2 (Z.eqb_eq _ _)) by done. step.
    exists 0%nat, Ro, S2. split; [done|]. rewrite Bp_0, Z.mul_1_r. split_and!; try done; lia.
Qed.

(** After the loop. *)
Lemma div_finish_run Q Ro (s2 : store) :
  mag do_ ≤ mag no →
  s2 !! q = Some Q → s2 !! R = Some Ro → (∀ p, p ∉ [q; qd; rb; R; SD] → s2 !! p = s !! p) →
  wf Q → overflow_ Q = false → m_ Q = m_ qo → obj_ Q = obj_ qo → literal_ Q = false →
  mag Q = mag no / mag do_ → wf Ro → mag Ro = mag no mod mag do_ → overflow_ Ro = overflow_ no →
  ∃ s3, div_finish n d q R r (neg_ no) (neg_ do_) s2 = Some ((), s3) ∧
    div_post [SD; R; rb; qd] q r no do_ qo s s3.
Proof.
  intros Hle EQ ERo Hfr WQ OQ mQ oQ lQ MQ WRo MRo ORo. pose proof D_pos as HDp.
  pose proof (mag_nonneg no ltac:(auto)) as Hn0.
  unfold div_finish. step. set (Q1 := set_neg_ _ Q).
  assert (val Q1 = Z.quot (val no) (val do_)) as VQ1.
  { unfold Q1. rewrite val_set_neg, MQ. unfold val. by rewrite quot_signed. }
  assert (wf Q1) as WQ1 by (by apply set_neg_wf).
  assert (mag Q1 ≠ 0) as HQ1.
  { change (mag Q1) with (mag Q). rewrite MQ. intros Hz. apply Z.div_small_iff in Hz; lia. }
  destruct r as [r'|].
  2:{ eexists. split; [done|]. split; [|split].
      - exists Q1. rewrite lookup_insert_eq. done.
      - done.
      - intros p Hp1 _ Hp3. rewrite lookup_insert_ne by done. by apply Hfr, frame_notin. }
  destruct (Hr r' eq_refl) as (Hrq & Hrd & Hrn & ro & Er & Ar & Hrm & _).
  assert (d_ do_ ≤ m_ ro)%nat as Hm by (destruct Hrm as [|(_ & ? & _)]; [done|lia]).
  pose proof (NoDup_q_R _ _ _ _ _ Hnd) as HqR.
  pose proof (live_ne r' ro R Er R_in) as HrR.
  assert (s2 !! r' = Some ro) as Er2 by (rewrite Hfr; [done|by eapply live_notin_q]).
  assert (s2 !! d = Some do_) as Ed2 by (rewrite Hfr; [done|by eapply live_notin_q]).
  assert (mag Ro < mag do_) as HRlt by (rewrite MRo; apply Z.mod_pos_bound; lia).
  assert (d_ Ro ≤ m_ ro)%nat as HdRo.
  { destruct (decide (d_ do_ < d_ Ro)%nat); [|lia]. pose proof (mag_lt_of_d do_ Ro Wd WRo). lia. }
  destruct (int_set_t_run R r' Ro ro (<[q:=Q1]> s2)) as (R1 & E1 & HK1 & _ & _ & HO1 & _ & _ & _ & HM1 & HW1);
    [lk|lk|auto|auto|done|].
  step_with E1. step. rewrite insert_insert_eq. set (R2 := set_neg_ (neg_ no) R1).
  assert (wf R2) as WR2 by (by apply set_neg_wf, HW1).
  assert (∃ i, (<[r':=R2]> (<[q:=Q1]> s2)) !! n = Some i ∧ wf i ∧ mag i ≠ 0) as (i & Ei & Wi & Hi).
  { rewrite lookup_insert_ne by done. destruct (decide (n = q)) as [->|Hnq].
    - exists Q1. by rewrite lookup_insert_eq.
    - exists no. rewrite lookup_insert_ne by done. split_and!; [|done|lia].
      rewrite Hfr; [done|by eapply live_notin_q]. }
  step_with (int_is_zero_run n i _ Ei Wi). rewrite (proj2 (Z.eqb_neq _ _) Hi). cbn [negb andb].
  assert (val R2 = Z.rem (val no) (val do_)) as VR2.
  { unfold R2. rewrite val_set_neg, HM1, MRo. unfold val. by rewrite rem_signed. }
  assert ((val no * val do_ <? 0) = signs_differ (neg_ no) (neg_ do_)) as Hsg.
  { unfold val. rewrite signs_signed by done. by rewrite (proj2 (Z.eqb_neq _ _)) by lia. }
  assert (kept ro R2) as HK2 by done.
  assert (∀ X, div_post [SD; R; rb; qd] q (Some r') no do_ qo s (<[r':=X]> (<[q:=Q1]> s2))
    ↔ (kept ro X ∧ wf X ∧ overflow_ X = overflow_ no ∧ val X = yarg_rem (val no) (val do_))) as Hpost.
  { intros X. split.
    - intros (_ & HX & _). destruct (HX r' eq_refl) as (ro' & X' & E' & EX' & ?).
      rewrite lookup_insert_eq in EX'. assert (ro' = ro) as -> by congruence.
      assert (X' = X) as -> by congruence. done.
    - intros HX. split; [|split].
      + exists Q1. rewrite lookup_insert_ne by done. rewrite lookup_insert_eq. done.
      + intros r2 [= <-]. exists ro, X. rewrite lookup_insert_eq. done.
      + intros p Hp1 Hp2 Hp3. rewrite !lookup_insert_ne by congruence. by apply Hfr, frame_notin. }
  unfold yarg_rem in Hpost. rewrite Hsg in Hpost.
  destruct (signs_differ (neg_ no) (neg_ do_)) eqn:Esg.
  - destruct (int_add_run r' d r' R2 do_ R2 (<[r':=R2]> (<[q:=Q1]> s2))) as (R3 & E3 & HK3 & HL3);
      [lk|lk|lk|done|done|auto|].
    rewrite E3, insert_insert_eq. eexists. split; [done|]. apply Hpost.
    destruct HL3 as [(_ & W3 & V3 & O3)|(Hbig & _)].
    + split; [by destruct HK2 as (?&?&?), HK3 as (?&?&?); repeat split; congruence|].
      split; [done|]. split; [rewrite O3; change (overflow_ R2) with (overflow_ R1); congruence|].
      by rewrite V3, VR2.
    + exfalso. pose proof (mag_bound do_ ltac:(auto)) as Hb.
      pose proof (Bp_le (d_ do_) (m_ ro) Hm).
      assert (m_ R2 = m_ ro) as Em by apply HK1. rewrite Em in Hbig.
      assert (mag R2 = mag Ro) as EmR by done.
      pose proof (mag_nonneg R2 ltac:(auto)).
      unfold val in Hbig. change (neg_ R2) with (neg_ no) in Hbig.
      unfold signs_differ in Esg. destruct (neg_ no), (neg_ do_); simpl in *; try done; lia.
  - eexists. split; [done|]. apply Hpost. split; [done|]. split; [done|].
    split; [change (overflow_ R2) with (overflow_ R1); congruence|]. rewrite VR2. lia.
Qed.

Lemma div_long_body_run :
  mag do_ ≤ mag no →
  ∃ s3, div_long_body n d q r (neg_ no) (neg_ do_) qd rb R SD sc = Some ((), s3) ∧
    div_post [SD; R; rb; qd] q r no do_ qo s s3.
Proof.
  intros Hle. pose proof D_pos as HDp. pose proof top_digit as [Ht1 Ht2].
  pose proof (safe_d _ (wf_safe _ Wd)) as Hdd. pose proof (al_len _ (safe_alloc _ (wf_safe _ Wd))) as Hdl.
  assert (sc !! d = Some do_) as Ed' by (rewrite Hsc; [done|by eapply live_notin]).
  assert (sc !! q = Some qo) as Eq' by (rewrite Hsc; [done|by eapply live_notin]).
  destruct (NoDup_five _ _ _ _ _ Hnd) as (N1 & N2 & N3 & N4 & N5 & N6 & N7 & N8 & N9 & N10).
  unfold div_long_body. step.
  erewrite st_bind_run; [|eapply rd_h_run; [done|clear -Hdd Hdl; lia]]. cbv beta.
  erewrite st_bind_run; [|apply st_assert_run]. 2:{ rewrite (proj2 (Z.eqb_neq _ _)); [done|lia]. }
  cbv beta.
  destruct (div_setup_run Hle) as (k & Ro & SDo & E1 & WRo & MRo & NRo & GRo & ORo & WS & MS & VS & DS & HdR).
  step_with E1.
  destruct (int_init_run q qo (<[SD:=SDo]> (<[R:=Ro]> sc)))
    as (Q0 & EQ0 & mQ0 & oQ0 & WQ0 & GQ0 & NQ0 & OQ0 & LQ0 & _); [lk|done|].
  step_with EQ0. set (s2 := <[q:=Q0]> _).
  set (test := dg (h_ do_) (d_ do_ - 1) + 1) in *.
  assert (dst q qd rb R SD s s2 (overflow_ no) false (obj_ qo) Q0 Lqd Lrb Ro SDo) as HS.
  { unfold s2. split; try done; try lk. intros p Hp. outside Hp. apply Hsc. set_solver. }
  assert (dinv (mag do_) (mag no) (d_ do_) (m_ qo) k Q0 Lqd Lrb Ro SDo) as HI.
  { split; try done.
    - pose proof (mag_bound Ro ltac:(auto)). pose proof (Bp_le (d_ Ro) (d_ do_ + k + 1)). lia.
    - intros j Hj. clear -Hj HdR. lia.
    - rewrite GQ0, GRo. lia. }
  edestruct (div_loop_run q qd rb R SD s test (mag do_) (mag no) (d_ do_) (m_ qo))
    as (s' & E2 & Q' & qdo' & rbo' & Ro' & SDo' & HS' & HI' & HMQ & HMR);
    [clear -Hdd; lia|exact HDp|clear -Ht1; unfold test; lia|exact Ht2|exact Hfit|
     exact N1|exact N2|exact N3|exact N4|exact N5|exact N6|exact N7|exact N8|exact N9|exact N10|
     exact HS|exact HI|].
  step_with E2.
  destruct HS' as [A1 _ _ A4 _ A6 A7 A8 A9]. destruct HI' as [B1 B2 B3 _ _ _ _ _ _ _ _ _ B4 _ _ _ _ _].
  apply (div_finish_run Q' Ro' s'); done.
Qed.
End Core.

Lemma div_long_run :
  mag do_ ≤ mag no →
  ∃ s', div_long n d q r (neg_ no) (neg_ do_) s = Some ((), s') ∧ div_post [] q r no do_ qo s s'.
Proof.
  intros Hle.
  assert (∀ l, s !! l = None → l ≠ q ∧ r ≠ Some l) as Hl.
  { intros l El. split; [congruence|]. intros ->. destruct (Hr l eq_refl) as (_ & _ & _ & ro & Er & _). congruence. }
  assert (∃ (a : ()) s', div_long n d q r (neg_ no) (neg_ do_) s = Some (a, s') ∧ div_post [] q r no do_ qo s s')
    as ([] & s' & H); [|by exists s'].
  apply (with_local_ex 254 _ s (λ _ s', div_post [] q r no do_ qo s s')); [by exists 127%nat|lia|].
  intros qd Lqd Hqd0 M1 W1 _ _ _.
  cut (∃ (a : ()) s', with_local 254 (λ rb, int_init_concrete 254 rb ;;
    with_local 254 (λ R, int_init_concrete 254 R ;;
    with_local 254 (λ SD, int_init_concrete 254 SD ;;
      div_long_body n d q r (neg_ no) (neg_ do_) qd rb R SD))) (<[qd:=Lqd]> s) = Some (a, s') ∧
    div_post [qd] q r no do_ qo s s').
  { intros (a & s' & E & HP). exists a, s'. split; [done|].
    apply div_post_delete; [done|apply (Hl qd Hqd0)..|done]. }
  apply (with_local_ex 254 _ _ (λ _ s', div_post [qd] q r no do_ qo s s')); [by exists 127%nat|lia|].
  intros rb Lrb Hrb0 M2 W2 _ _ _. apply lookup_insert_None in Hrb0 as [Hrb0 N12].
  cut (∃ (a : ()) s', with_local 254 (λ R, int_init_concrete 254 R ;;
    with_local 254 (λ SD, int_init_concrete 254 SD ;;
      div_long_body n d q r (neg_ no) (neg_ do_) qd rb R SD)) (<[rb:=Lrb]> (<[qd:=Lqd]> s)) = Some (a, s') ∧
    div_post [rb; qd] q r no do_ qo s s').
  { intros (a & s' & E & HP). exists a, s'. split; [done|].
    apply div_post_delete; [done|apply (Hl rb Hrb0)..|done]. }
  apply (with_local_ex 254 _ _ (λ _ s', div_post [rb; qd] q r no do_ qo s s')); [by exists 127%nat|lia|].
  intros R LR HR0 M3 W3 G3 _ _. apply lookup_insert_None in HR0 as [HR0 N23].
  apply lookup_insert_None in HR0 as [HR0 N13].
  cut (∃ (a : ()) s', with_local 254 (λ SD, int_init_concrete 254 SD ;;
      div_long_body n d q r (neg_ no) (neg_ do_) qd rb R SD)
      (<[R:=LR]> (<[rb:=Lrb]> (<[qd:=Lqd]> s))) = Some (a, s') ∧
    div_post [R; rb; qd] q r no do_ qo s s').
  { intros (a & s' & E & HP). exists a, s'. split; [done|].
    apply div_post_delete; [done|apply (Hl R HR0)..|done]. }
  apply (with_local_ex 254 _ _ (λ _ s', div_post [R; rb; qd] q r no do_ qo s s')); [by exists 127%nat|lia|].
  intros SD LSD HS0 M4 W4 _ _ _. apply lookup_insert_None in HS0 as [HS0 N34].
  apply lookup_insert_None in HS0 as [HS0 N24]. apply lookup_insert_None in HS0 as [HS0 N14].
  destruct (Hl qd Hqd0) as [P1 _]. destruct (Hl rb Hrb0) as [P2 _].
  destruct (Hl R HR0) as [P3 _]. destruct (Hl SD HS0) as [P4 _].
  destruct (div_long_body_run qd rb R SD Lqd Lrb LR LSD (<[SD:=LSD]> (<[R:=LR]> (<[rb:=Lrb]> (<[qd:=Lqd]> s)))))
    as (s3 & E & HP); try done; try (auto; fail); try lk.
  - repeat (apply list.NoDup_cons; split; [set_solver|]). by apply list.NoDup_nil.
  - intros p Hp. rewrite !elem_of_cons in Hp. destruct Hp as [->|[->|[->|[->|Hp]]]]; try done.
    by apply elem_of_nil in Hp.
  - intros p Hp. by outside Hp.
  - exists (), s3. split; [done|]. by apply div_post_delete; [|apply (Hl SD HS0)..|].
Qed.

(** A numerator shorter than the denominator. *)
Lemma div_small_run :
  mag no < mag do_ →
  ∃ s', (
    (match r with
     | None => mret ()
     | Some r =>
         z ← int_is_zero n;
         if negb z && signs_differ (neg_ no) (neg_ do_) then int_add n d r else int_set_t n r
     end) ;; int_init q) s = Some ((), s') ∧ div_post [] q r no do_ qo s s'.
Proof.
  intros Hlt. pose proof D_pos as HDp. pose proof (mag_nonneg no ltac:(auto)) as Hn0.
  assert (Z.quot (val no) (val do_) = 0) as Hq.
  { unfold val. rewrite quot_signed by done. rewrite Z.div_small by lia. by destruct (xorb _ _). }
  assert (Z.rem (val no) (val do_) = val no) as Hrm.
  { unfold val. rewrite rem_signed by done. rewrite Z.mod_small by lia. done. }
  destruct r as [r'|].
  2:{ destruct (int_init_run q qo s Eq Aq) as (Q & E & mQ & oQ & WQ & GQ & NQ & OQ & LQ & _).
      eexists. split; [exact E|]. split; [|split].
      - exists Q. rewrite lookup_insert_eq. split_and!; try done. unfold val at 1. rewrite NQ. congruence.
      - done.
      - intros p Hp _ _. by rewrite lookup_insert_ne. }
  destruct (Hr r' eq_refl) as (Hrq & Hrd & Hrn & ro & Er & Ar & Hm & Oro).
  assert (∃ R, (z ← int_is_zero n;
      if negb z && signs_differ (neg_ no) (neg_ do_) then int_add n d r' else int_set_t n r') s = Some ((), <[r':=R]> s) ∧
    kept ro R ∧ wf R ∧ overflow_ R = overflow_ no ∧
    val R = yarg_rem (val no) (val do_)) as (R & E1 & HK & WR & OR & VR).
  { unfold yarg_rem. rewrite Hrm. unfold val at 3 4. step_with (int_is_zero_run n no s En Wn).
    rewrite signs_signed by done.
    destruct (negb (mag no =? 0) && signs_differ (neg_ no) (neg_ do_)) eqn:Es.
    - destruct (int_add_run n d r' no do_ ro s En Ed Er Wn Wd Ar) as (R & E & HK & HL).
      exists R. split; [done|]. split; [done|].
      destruct HL as [(_ & WR & VR & OR)|(Hbig & _)]; [split_and!; try done; congruence|exfalso].
      assert (val no * val do_ < 0) as Hneg.
      { apply Z.ltb_lt. unfold val. by rewrite signs_signed. }
      destruct Hm as [Hm|(_ & _ & Hm)]; [|lia].
      pose proof (mag_bound do_ ltac:(auto)). pose proof (Bp_le (d_ do_) (m_ ro) Hm).
      apply andb_prop in Es as [Ez Es]. apply negb_true_iff, Z.eqb_neq in Ez.
      unfold signs_differ, val in *. destruct (neg_ no), (neg_ do_); simpl in Es; try done; lia.
    - destruct (int_set_t_run n r' no ro s En Er Ar ltac:(auto)) as (R & E & HK & SR & NR & OR & _ & _ & _ & MR & WR).
      { destruct Hm as [Hm|(Hm & _)]; [|done].
        destruct (decide (d_ do_ < d_ no)%nat); [|lia]. pose proof (mag_lt_of_d do_ no Wd Wn). lia. }
      exists R. split; [done|]. split; [done|]. split; [by apply WR|]. split; [done|].
      unfold val. rewrite NR, MR. by rewrite Z.add_0_r. }
  step_with E1.
  destruct (int_init_run q qo (<[r':=R]> s)) as (Q & E2 & mQ & oQ & WQ & GQ & NQ & OQ & LQ & _); [lk|done|].
  eexists. split; [exact E2|]. split; [|split].
  - exists Q. rewrite lookup_insert_eq. split_and!; try done. unfold val at 1. rewrite NQ. congruence.
  - intros r2 [= <-]. exists ro, R. rewrite lookup_insert_ne by congruence. rewrite lookup_insert_eq.
    split_and!; try done.
  - intros p Hp1 Hp2 _. by rewrite !lookup_insert_ne by congruence.
Qed.

(** [int_div] returns, with quotient and remainder. *)
Lemma int_div_run :
  ∃ s', int_div n d q r s = Some ((), s') ∧ div_post [] q r no do_ qo s s'.
Proof.
  unfold int_div. step. step. step_with (int_is_abs_run n d no do_ s En Ed Wn Wd).
  assert (mag no < mag do_ ∨ mag do_ ≤ mag no) as [Hc|Hc] by lia.
  - rewrite (proj2 (Z.compare_lt_iff _ _)), decide_True by done. by apply div_small_run.
  - rewrite decide_False.
    2:{ destruct (Z.compare_spec (mag no) (mag do_)); [done|lia|done]. }
    destruct (div_long_run Hc) as (s' & E & HP). exists s'. split; [|done]. rewrite <-E.
    destruct r as [r'|]; [|done].
    destruct (Hr r' eq_refl) as (_ & _ & _ & ro & Er & _ & Hm & _).
    assert (d_ do_ ≤ m_ ro)%nat as Hm' by (destruct Hm as [|(_ & ? & _)]; [done|lia]).
    erewrite st_bind_run; [|step; done]. by rewrite (proj2 (Nat.ltb_ge _ _)).
Qed.
End Whole.
