(* ===== verification/IntText.v ===== *)
(** * The arbitrary-precision integers: decimal text

    [int_set_s] and [int_to_s] of [cyarg/big-int/big-int.c].  A C string is
    the list of its character codes, without the terminating zero; the buffer
    [int_to_s] writes is a list that keeps its length. *)
From S2P Require Export IntDivRun.

(** ** Operations *)

(** [static IntConcrete2 const ten], [static const IntConcrete4
    tenToTheNineteen]: objects with an address of their own. *)
Definition ten : Int := mkInt false false false false 1 2 [10; 0].
Definition tenToTheNineteen : Int :=
  mkInt false false false false 4 4
    [2313682944 mod 65536; 2313682944 / 65536; 2328306436 mod 65536; 2328306436 / 65536].

Section SetS.
Context `{U : Uninit}.
Variables pten digit acc i : ptr.

Fixpoint set_s_loop (s : list Z) : M () :=
  match s with
  | [] => mret ()
  | c :: s' =>
      int_mul pten i acc ;; int_set_i (c - 48) digit ;; int_add acc digit i ;; set_s_loop s'
  end.
End SetS.

(** A leading '-' is the sign. *)
Definition split_sign (s : list Z) : bool * list Z :=
  match s with
  | c :: s' => if c =? 45 then (true, s') else (false, s)
  | [] => (false, s)
  end.

Definition int_set_s `{U : Uninit} (s : list Z) (i : ptr) : M () :=
  int_init i ;;
  with_object ten (λ pten,
  with_local 2 (λ digit, int_init_concrete 2 digit ;;
  with_local 254 (λ acc, int_init_concrete 254 acc ;;
    let '(neg, s) := split_sign s in
    set_s_loop pten digit acc i s ;;
    modify i (set_neg_ neg)))).

(** [*--out = c] for [out = &s[k]]: a write in front of the buffer is
    undefined behaviour. *)
Definition put (buf : list Z) (k : Z) (c : Z) : M (list Z * Z) :=
  if decide (1 ≤ k ≤ Z.of_nat (length buf))
  then mret (<[Z.to_nat (k - 1) := c]> buf, k - 1) else st_fail.

(** The digits of one remainder: [c] are left. *)
Fixpoint to_s_digits (c : nat) (leading : bool) (rem : Z) (buf : list Z) (out : Z)
    : M (list Z * Z) :=
  match c with
  | O => mret (buf, out)
  | S c' =>
      if 0 <? out then
        x ← (if negb leading || negb (rem =? 0) then put buf out (rem mod 10 + 48)
             else mret (buf, out));
        to_s_digits c' leading (rem / 10) x.1 x.2
      else mret (buf, out)
  end.

Section ToS.
Context `{U : Uninit}.
Variables v p19 r : ptr.

Fixpoint to_s_loop (fuel : nat) (buf : list Z) (out : Z) : M (list Z * Z) :=
  match fuel with
  | O => st_fail
  | S fuel' =>
      z ← int_is_zero v;
      if (z : bool) then mret (buf, out)
      else
        int_div v p19 v (Some r) ;;
        rem ← four_digits r;
        leading ← int_is_zero v;
        x ← to_s_digits 19 leading rem buf out;
        to_s_loop fuel' x.1 x.2
  end.
End ToS.

(** 66 times 19 digits are more than any object has. *)
Definition to_s_fuel : nat := 67.

(** The result is the buffer and the position of the first character.  [r]
    is [static], but every call initialises it. *)
Definition int_to_s `{U : Uninit} (i : ptr) (s : list Z) : M (list Z * Z) :=
  let n := Z.of_nat (length s) in
  x ← put s n 0;
  with_object tenToTheNineteen (λ p19,
  with_local 254 (λ v, int_init_concrete 254 v ;;
    int_set_t i v ;; modify v (set_neg_ false) ;;
    with_local 4 (λ r, int_init_concrete 4 r ;;
      y ← to_s_loop v p19 r to_s_fuel x.1 x.2;
      io ← get i;
      if y.2 =? n - 1 then put y.1 y.2 48
      else if neg_ io then put y.1 y.2 45
      else mret y))).

(** [INT_DIGITS_FOR_S]: halfwords for a numeral of [n] digits. *)
Definition INT_DIGITS_FOR_S (n : Z) : Z := (1651124 + n * 342808) / 1651125.
Definition INT_STRLEN_FOR_INT254 : nat := 1226.

(** ** Numerals *)

Definition dec_digit (c : Z) : Prop := 48 ≤ c ≤ 57.

(** The number a numeral denotes. *)
Fixpoint dval (l : list Z) : Z :=
  match l with
  | [] => 0
  | c :: t => (c - 48) * 10 ^ Z.of_nat (length t) + dval t
  end.

Lemma dval_bound l : Forall dec_digit l → 0 ≤ dval l < 10 ^ Z.of_nat (length l).
Proof.
  induction 1 as [|c t Hc Ht IH]; [done|]. unfold dec_digit in Hc. cbn [dval length].
  rewrite Nat2Z.inj_succ, Z.pow_succ_r by lia. nia.
Qed.

Lemma dval_app a b : dval (a ++ b) = dval a * 10 ^ Z.of_nat (length b) + dval b.
Proof.
  induction a as [|c t IH]; cbn [dval app]; [lia|].
  rewrite IH, length_app, Nat2Z.inj_add, Z.pow_add_r by lia. ring.
Qed.

(** A numeral with no superfluous leading zero. *)
Definition canonical (l : list Z) : Prop :=
  Forall dec_digit l ∧ match l with [] => False | [c] => True | c :: _ => c ≠ 48 end.

(** ** Reading a numeral *)

Lemma ten_wf : wf ten ∧ val ten = 10.
Proof.
  split; [|done]. split; [split; [split|]| |]; simpl; try lia; try done.
  - by exists 1%nat.
  - repeat constructor; done.
Qed.
Lemma tenToTheNineteen_wf : wf tenToTheNineteen ∧ val tenToTheNineteen = 10 ^ 19.
Proof.
  split; [|done]. split; [split; [split|]| |]; simpl; try lia; try done.
  - by exists 2%nat.
  - repeat constructor; vm_compute; done.
Qed.

Lemma tenToTheNineteen_mag : mag tenToTheNineteen = 10 ^ 19.
Proof. destruct tenToTheNineteen_wf as [W V]. rewrite <-(val_abs _ (wf_safe _ W)), V. lia. Qed.

(** A block with a constant object. *)
Lemma with_object_ex {A} o (k : ptr → M A) (s : store) (Q : A → store → Prop) :
  (∀ p, s !! p = None → ∃ a s', k p (<[p := o]> s) = Some (a, s') ∧ Q a (delete p s')) →
  ∃ a s', with_object o k s = Some (a, s') ∧ Q a s'.
Proof.
  intros Hk. unfold with_object. destruct (Hk _ (fresh_ptr_None s)) as (a & s' & E & HQ).
  rewrite E. by eauto.
Qed.

Section SetSRun.
Context `{U : Uninit}.
Variables (pten digit acc i : ptr) (s0 : store).
Hypothesis Hnd : NoDup [pten; digit; acc; i].
Hypothesis Ht : s0 !! pten = Some ten.
Abbreviation mst I D A := (<[acc := A]> (<[digit := D]> (<[i := I]> s0))).

Lemma set_s_ne : pten ≠ digit ∧ pten ≠ acc ∧ pten ≠ i ∧ digit ≠ acc ∧ digit ≠ i ∧ acc ≠ i.
Proof.
  pose proof Hnd as H. do 3 (apply list.NoDup_cons in H as [? H]).
  rewrite !not_elem_of_cons in *. tauto.
Qed.

(** The value read so far, [val I], and the numeral that is left. *)
Lemma set_s_loop_run s : ∀ I D A,
  Forall dec_digit s → wf I → 0 ≤ val I → overflow_ I = false →
  alloc D → alloc A → m_ A = 254%nat →
  val I * 10 ^ Z.of_nat (length s) + dval s < Bp (m_ I) →
  ∃ I' D' A', set_s_loop pten digit acc i s (mst I D A) = Some ((), mst I' D' A') ∧
    wf I' ∧ overflow_ I' = false ∧ kept I I' ∧
    val I' = val I * 10 ^ Z.of_nat (length s) + dval s.
Proof.
  destruct set_s_ne as (N1 & N2 & N3 & N4 & N5 & N6). destruct ten_wf as [WT VT].
  induction s as [|c s IH]; intros I D A Hs WI HI0 OI AD AA MA Hfit.
  - exists I, D, A. simpl. split_and!; try done. lia.
  - apply list.Forall_cons in Hs as [Hc Hs]. unfold dec_digit in Hc. cbn [set_s_loop].
    pose proof (dval_bound s Hs) as Hd.
    cbn [length dval] in Hfit |- *. rewrite Nat2Z.inj_succ, Z.pow_succ_r in * by lia.
    set (P := 10 ^ Z.of_nat (length s)) in *. assert (1 ≤ P) as HP by lia.
    assert (val I * 10 + (c - 48) < Bp (m_ I)) as Hstep by nia.
    pose proof (al_m I ltac:(auto)) as HmI. pose proof (Bp_le (m_ I) 254 ltac:(lia)) as HBm.
    destruct (int_mul_run pten i acc ten I A (mst I D A)) as (A' & EA & (HmA & _) & NA & HA);
      [lk|lk|lk|done|done|done|done|done| |].
    { intros _. rewrite MA. split; [simpl; lia|].
      pose proof (safe_d I ltac:(auto)). lia. }
    step_with EA. rewrite VT, MA in HA. rewrite Z.abs_eq in HA by lia.
    destruct HA as [(_ & WA & VA & OA)|(Hbig & _)]; [|lia].
    rewrite insert_insert_eq.
    destruct (int_set_i_run (c - 48) digit D (mst I D A')) as (D' & ED & HKD & SD & ND & _ & HD);
      [lk|done|unfold INT64_MIN, INT64_MAX; lia|].
    assert (2 ^ 32 ≤ Bp (m_ D)) as HBD.
    { change (2 ^ 32) with (Bp 2). apply Bp_le. apply (al_m _ AD). }
    destruct HD as [WD VD]; [lia|].
    step_with ED.
    rewrite (insert_insert_ne _ digit acc) by done. rewrite insert_insert_eq.
    destruct (int_add_run acc digit i A' D' I (mst I D' A')) as (I' & EI & HK & HI); [lk|lk|lk|done|done|auto|].
    step_with EI. rewrite VA, VD in HI.
    rewrite (insert_insert_ne _ i acc) by done. rewrite (insert_insert_ne _ i digit) by done.
    rewrite insert_insert_eq.
    rewrite Z.abs_eq in HI by lia.
    destruct HI as [(_ & WI' & VI' & OI')|(Hbig & _)]; [|lia].
    destruct (IH I' D' A') as (I2 & D2 & A2 & E2 & W2 & O2 & K2 & V2); try done; try lia; try congruence; auto.
    + destruct HK as [-> _]. rewrite VI'. lia.
    + exists I2, D2, A2. split_and!; try done.
      * destruct HK as (?&?&?), K2 as (?&?&?). repeat split; congruence.
      * rewrite V2, VI'. lia.
Qed.
End SetSRun.

(** What a text denotes. *)
Definition text_val (s : list Z) : Z :=
  let '(neg, ds) := split_sign s in if neg then - dval ds else dval ds.

Lemma int_set_s_run `{U : Uninit} s i io (st0 : store) :
  st0 !! i = Some io → alloc io →
  Forall dec_digit (split_sign s).2 → dval (split_sign s).2 < Bp (m_ io) →
  ∃ R, int_set_s s i st0 = Some ((), <[i := R]> st0) ∧ wf R ∧ overflow_ R = false ∧
    m_ R = m_ io ∧ obj_ R = obj_ io ∧ val R = text_val s.
Proof.
  intros E Ai Hs Hfit. unfold int_set_s, text_val.
  destruct (int_init_run i io st0 E Ai) as (R0 & E0 & m0 & o0 & W0 & G0 & N0 & O0 & L0 & _).
  step_with E0. destruct (split_sign s) as [neg ds]. cbn [snd] in *.
  set (s1 := <[i:=R0]> st0).
  assert (∃ (a : ()) s', with_object ten (λ pten,
    with_local 2 (λ digit, int_init_concrete 2 digit ;;
    with_local 254 (λ acc, int_init_concrete 254 acc ;;
      set_s_loop pten digit acc i ds ;; modify i (set_neg_ neg)))) s1 = Some (a, s') ∧
    ∃ R, s' = <[i := R]> st0 ∧ wf R ∧ overflow_ R = false ∧ m_ R = m_ io ∧ obj_ R = obj_ io ∧
      val R = (if neg then - dval ds else dval ds)) as ([] & s' & E' & R & -> & HR).
  2:{ exists R. split; [exact E'|done]. }
  apply with_object_ex. intros p1 H1. unfold s1 in H1.
  apply lookup_insert_None in H1 as [H1 N1].
  apply (with_local_ex 2 _ _ (λ _ s', ∃ R, delete p1 s' = <[i := R]> st0 ∧ _)); [by exists 1%nat|lia|].
  intros p2 D H2 MD WD _ _ _. apply lookup_insert_None in H2 as [H2 N2].
  unfold s1 in H2. apply lookup_insert_None in H2 as [H2 N2'].
  apply (with_local_ex 254 _ _ (λ _ s', ∃ R, delete p1 (delete p2 s') = <[i := R]> st0 ∧ _)); [by exists 127%nat|lia|].
  intros p3 A H3 MA WA _ _ _. apply lookup_insert_None in H3 as [H3 N3].
  apply lookup_insert_None in H3 as [H3 N3']. unfold s1 in H3. apply lookup_insert_None in H3 as [H3 N3''].
  destruct (set_s_loop_run p1 p2 p3 i (<[p1:=ten]> st0)) with (s := ds) (I := R0) (D := D) (A := A)
    as (I' & D' & A' & EL & WI & OI & (mI & oI & lI) & VI); try done; auto.
  - repeat (apply list.NoDup_cons; split; [set_solver|]). by apply list.NoDup_nil.
  - lk.
  - unfold val. rewrite G0. by destruct (neg_ R0).
  - unfold val. rewrite G0, m0. destruct (neg_ R0); lia.
  - assert (<[p3:=A]> (<[p2:=D]> (<[p1:=ten]> s1)) =
      <[p3:=A]> (<[p2:=D]> (<[i:=R0]> (<[p1:=ten]> st0)))) as ->.
    { unfold s1. by rewrite (insert_insert_ne _ p1 i). }
    step_with EL. erewrite modify_run by lk. eexists. eexists. split; [done|].
    exists (set_neg_ neg I'). split.
    { apply map_eq. intros p. destruct (decide (p = p1)) as [->|Hp1].
      { rewrite lookup_delete_eq, lookup_insert_ne by congruence. done. }
      rewrite lookup_delete_ne by done. destruct (decide (p = p2)) as [->|Hp2].
      { rewrite lookup_delete_eq, lookup_insert_ne by congruence. done. }
      rewrite lookup_delete_ne by done. destruct (decide (p = p3)) as [->|Hp3].
      { rewrite lookup_delete_eq, lookup_insert_ne by congruence. done. }
      rewrite lookup_delete_ne by done. destruct (decide (p = i)) as [->|Hpi].
      { by rewrite !lookup_insert_eq. }
      by rewrite !lookup_insert_ne by congruence. }
    split; [by apply set_neg_wf|]. split_and!; try done; simpl; try congruence.
    rewrite val_set_neg. rewrite <-(val_abs I') by auto.
    assert (val R0 = 0) as V0 by (unfold val; rewrite G0; by destruct (neg_ R0)).
    rewrite VI, V0. pose proof (dval_bound ds Hs). rewrite Z.abs_eq by lia. done.
Qed.

(** ** Writing a numeral *)

Lemma put_run buf k c (s : store) :
  1 ≤ k ≤ Z.of_nat (length buf) →
  ∃ buf', put buf k c s = Some ((buf', k - 1), s) ∧ length buf' = length buf ∧
    drop (Z.to_nat (k - 1)) buf' = c :: drop (Z.to_nat k) buf.
Proof.
  intros Hk. unfold put. rewrite decide_True by done. eexists. split; [done|].
  rewrite length_insert. split; [done|].
  replace (Z.to_nat k) with (S (Z.to_nat (k - 1))) by lia.
  rewrite (drop_S _ c (Z.to_nat (k - 1))).
  - by rewrite drop_insert_lt by lia.
  - rewrite list_lookup_insert_eq; [done|lia].
Qed.

Lemma mod10_digit rem : 0 ≤ rem → dec_digit (rem mod 10 + 48).
Proof. intros. unfold dec_digit. pose proof (Z.mod_pos_bound rem 10). lia. Qed.

(** A digit more in front of a numeral. *)
Lemma dval_put rem ds :
  dval ((rem mod 10 + 48) :: ds) = (rem mod 10) * 10 ^ Z.of_nat (length ds) + dval ds.
Proof. cbn [dval]. by replace (rem mod 10 + 48 - 48) with (rem mod 10) by lia. Qed.

(** All the digits of a remainder that is not the leading one. *)
Lemma to_s_digits_full c : ∀ rem buf out ds T (s : store),
  Z.of_nat c ≤ out ≤ Z.of_nat (length buf) → 0 ≤ rem < 10 ^ Z.of_nat c →
  drop (Z.to_nat out) buf = ds ++ T → Forall dec_digit ds →
  ∃ buf' ds', to_s_digits c false rem buf out s = Some ((buf', out - Z.of_nat c), s) ∧
    length buf' = length buf ∧ drop (Z.to_nat (out - Z.of_nat c)) buf' = ds' ++ T ∧
    Forall dec_digit ds' ∧ length ds' = (length ds + c)%nat ∧
    dval ds' = rem * 10 ^ Z.of_nat (length ds) + dval ds.
Proof.
  induction c as [|c IH]; intros rem buf out ds T s Hout Hrem Hd Hds; cbn [to_s_digits].
  - exists buf, ds. rewrite Z.sub_0_r, Nat.add_0_r. assert (rem = 0) as -> by (simpl in Hrem; lia).
    done.
  - rewrite Nat2Z.inj_succ, Z.pow_succ_r in Hrem by lia.
    rewrite (proj2 (Z.ltb_lt _ _)) by lia. cbn [negb orb].
    destruct (put_run buf out (rem mod 10 + 48) s) as (b1 & E1 & L1 & D1); [lia|].
    step_with E1. cbn [fst snd].
    destruct (IH (rem / 10) b1 (out - 1) ((rem mod 10 + 48) :: ds) T s)
      as (b2 & d2 & E2 & L2 & D2 & F2 & N2 & V2); [lia| | | |].
    + split; [apply Z.div_pos; lia|apply Z.div_lt_upper_bound; lia].
    + rewrite D1, Hd. done.
    + apply list.Forall_cons. split; [apply mod10_digit; lia|done].
    + exists b2, d2. replace (out - Z.of_nat (S c)) with (out - 1 - Z.of_nat c) by lia.
      split_and!; try done; [congruence|simpl in N2; lia|].
      rewrite V2, dval_put. cbn [length]. rewrite Nat2Z.inj_succ, Z.pow_succ_r by lia.
      pose proof (Z.div_mod rem 10). nia.
Qed.

(** The leading digits: none for zero, and no zero in front. *)
Definition no_lead (v : Z) (ds ds' : list Z) : Prop :=
  (v = 0 → ds' = ds) ∧ (v ≠ 0 → ∃ c t, ds' = c :: t ∧ c ≠ 48).

Lemma to_s_digits_lead c e : ∀ rem buf out ds T (s : store),
  0 ≤ e ≤ out → out ≤ Z.of_nat (length buf) → 0 ≤ rem < 10 ^ Z.of_nat c → rem < 10 ^ (out - e) →
  drop (Z.to_nat out) buf = ds ++ T → Forall dec_digit ds →
  ∃ buf' ds' out', to_s_digits c true rem buf out s = Some ((buf', out'), s) ∧
    length buf' = length buf ∧ drop (Z.to_nat out') buf' = ds' ++ T ∧
    Forall dec_digit ds' ∧ out' = out + Z.of_nat (length ds) - Z.of_nat (length ds') ∧ e ≤ out' ∧
    dval ds' = rem * 10 ^ Z.of_nat (length ds) + dval ds ∧ no_lead rem ds ds'.
Proof.
  induction c as [|c IH]; intros rem buf out ds T s He Hout Hrem Hroom Hd Hds; cbn [to_s_digits].
  - exists buf, ds, out. assert (rem = 0) as -> by (simpl in Hrem; lia).
    split_and!; try done; lia.
  - rewrite Nat2Z.inj_succ, Z.pow_succ_r in Hrem by lia.
    destruct (Z.ltb_spec 0 out) as [Hpos|Hneg].
    2:{ exists buf, ds, out. assert (out - e = 0) as Ez by lia. rewrite Ez in Hroom.
        assert (rem = 0) as -> by lia. split_and!; try done; lia. }
    cbn [negb orb]. destruct (Z.eqb_spec rem 0) as [->|Hnz]; cbn [negb].
    + step. cbn [fst snd]. rewrite Z.div_0_l by lia. apply IH; try done; try lia.
    + assert (1 ≤ out - e) as Hoe.
      { destruct (decide (out - e = 0)) as [Ez|]; [rewrite Ez in Hroom|]; lia. }
      destruct (put_run buf out (rem mod 10 + 48) s) as (b1 & E1 & L1 & D1); [lia|].
      step_with E1. cbn [fst snd].
      destruct (IH (rem / 10) b1 (out - 1) ((rem mod 10 + 48) :: ds) T s)
        as (b2 & d2 & o2 & E2 & L2 & D2 & F2 & N2 & G2 & V2 & NL2); [lia|lia| | | | |].
      * split; [apply Z.div_pos; lia|apply Z.div_lt_upper_bound; lia].
      * apply Z.div_lt_upper_bound; [lia|]. rewrite <-Z.pow_succ_r by lia.
        by replace (Z.succ (out - 1 - e)) with (out - e) by lia.
      * rewrite D1, Hd. done.
      * apply list.Forall_cons. split; [apply mod10_digit; lia|done].
      * exists b2, d2, o2. cbn [length] in *. split_and!; try done; [congruence|lia| |].
        -- rewrite V2, dval_put. rewrite Nat2Z.inj_succ, Z.pow_succ_r by lia.
           pose proof (Z.div_mod rem 10). nia.
        -- split; [done|]. intros _. destruct NL2 as [NL2 NL3].
           destruct (decide (rem / 10 = 0)) as [Ez|Enz]; [|by apply NL3].
           rewrite (NL2 Ez). eexists. eexists. split; [done|].
           apply Z.div_small_iff in Ez; [|lia]. rewrite Z.mod_small by lia. lia.
Qed.

Lemma div_post_store q r no do_ qo (s s' : store) :
  q ≠ r → div_post [] q (Some r) no do_ qo s s' →
  ∃ Q R ro, s' = <[r := R]> (<[q := Q]> s) ∧ s !! r = Some ro ∧
    m_ Q = m_ qo ∧ wf Q ∧ overflow_ Q = false ∧ val Q = Z.quot (val no) (val do_) ∧
    kept ro R ∧ wf R ∧ overflow_ R = overflow_ no ∧ val R = yarg_rem (val no) (val do_).
Proof.
  intros Hqr ((Q & EQ & mQ & _ & _ & WQ & OQ & VQ) & HR & Hf).
  destruct (HR r eq_refl) as (ro & R & E1 & E2 & KR & WR & OR & VR).
  exists Q, R, ro. split_and!; try done. apply map_eq. intros p.
  destruct (decide (p = r)) as [->|Hpr]; [by rewrite lookup_insert_eq|].
  rewrite lookup_insert_ne by done.
  destruct (decide (p = q)) as [->|Hpq]; [by rewrite lookup_insert_eq|].
  rewrite lookup_insert_ne by done. apply Hf; [done|congruence|]. set_solver.
Qed.

Lemma mag_val V : safe V → 0 ≤ val V → mag V = val V.
Proof. intros S H. rewrite <-(val_abs V S). by apply Z.abs_eq. Qed.

Section ToSRun.
Context `{U : Uninit}.
Variables (v p19 r : ptr) (s0 : store).
Hypothesis (Nvp : v ≠ p19) (Nvr : v ≠ r) (Npr : p19 ≠ r).
Hypothesis Hp : s0 !! p19 = Some tenToTheNineteen.
Abbreviation mst V R := (<[r := R]> (<[v := V]> s0)).

(** One division by 10^19. *)
Lemma to_s_chunk V R :
  wf V → 0 ≤ val V → overflow_ V = false → alloc R → m_ R = 4%nat → overflow_ R = false →
  ∃ V' R', int_div v p19 v (Some r) (mst V R) = Some ((), mst V' R') ∧
    wf V' ∧ m_ V' = m_ V ∧ overflow_ V' = false ∧ val V' = val V / 10 ^ 19 ∧
    wf R' ∧ m_ R' = 4%nat ∧ overflow_ R' = false ∧ mag R' = val V mod 10 ^ 19.
Proof.
  intros WV HV OV AR MR OR. destruct tenToTheNineteen_wf as [WT VT].
  pose proof (wf_mag_lt_m V WV). pose proof (mag_nonneg V ltac:(auto)).
  destruct (int_div_run v p19 v (Some r) V tenToTheNineteen V (mst V R)) as (s' & E & HP);
    [lk|lk|lk|done|done|auto|done|rewrite tenToTheNineteen_mag; lia| | |].
  - rewrite tenToTheNineteen_mag. eapply Z.le_lt_trans; [|done].
    apply Z.div_le_upper_bound; lia.
  - intros r' [= <-]. do 3 (split; [congruence|]). exists R. split; [lk|]. split; [done|].
    split; [left; rewrite MR; simpl; lia|congruence].
  - apply div_post_store in HP as (V' & R' & ro & -> & Er & MV' & WV' & OV' & VV' & (MR' & _) & WR' & OR' & VR'); [|done].
    rewrite lookup_insert_eq in Er. assert (ro = R) as -> by congruence.
    exists V', R'. split.
    { rewrite E. f_equal. f_equal. rewrite (insert_insert_ne _ v r) by done.
      by rewrite !insert_insert_eq, (insert_insert_ne _ r v). }
    rewrite VT in *. rewrite Z.quot_div_nonneg in VV' by lia.
    unfold yarg_rem in VR'. rewrite (proj2 (Z.ltb_ge _ _)), Z.add_0_r in VR' by lia.
    rewrite Z.rem_mod_nonneg in VR' by lia.
    do 7 (split; [first [assumption|congruence]|]).
    rewrite <-VR', <-(val_abs R') by auto. rewrite VR'. apply Z.abs_eq, Z.mod_pos_bound. lia.
Qed.

Lemma to_s_loop_run fuel e : ∀ V R buf out ds T,
  wf V → 0 ≤ val V → overflow_ V = false → alloc R → m_ R = 4%nat → overflow_ R = false →
  (1 ≤ fuel)%nat → val V < 10 ^ (19 * (Z.of_nat fuel - 1)) →
  0 ≤ e ≤ out → out ≤ Z.of_nat (length buf) → val V < 10 ^ (out - e) →
  drop (Z.to_nat out) buf = ds ++ T → Forall dec_digit ds →
  ∃ V' R' buf' ds' out', to_s_loop v p19 r fuel buf out (mst V R) = Some ((buf', out'), mst V' R') ∧
    length buf' = length buf ∧ drop (Z.to_nat out') buf' = ds' ++ T ∧
    Forall dec_digit ds' ∧ out' = out + Z.of_nat (length ds) - Z.of_nat (length ds') ∧ e ≤ out' ∧
    dval ds' = val V * 10 ^ Z.of_nat (length ds) + dval ds ∧ no_lead (val V) ds ds'.
Proof.
  induction fuel as [|fuel IH]; intros V R buf out ds T WV HV OV AR MR OR Hf Hbig He Hout Hroom Hd Hds; [lia|].
  cbn [to_s_loop]. pose proof (mag_val V ltac:(auto) HV) as GV.
  erewrite st_bind_run; [|apply (int_is_zero_run v V); [lk|done]]. cbv beta.
  rewrite GV. destruct (Z.eqb_spec (val V) 0) as [Hz|Hz].
  { exists V, R, buf, ds, out. rewrite Hz. split_and!; try done; lia. }
  destruct (to_s_chunk V R WV HV OV AR MR OR) as (V' & R' & E1 & WV' & MV' & OV' & VV' & WR' & MR' & OR' & GR').
  step_with E1. erewrite st_bind_run; [|apply (four_digits_run r R'); [lk|done]]. cbv beta.
  rewrite GR'. pose proof (Z.mod_pos_bound (val V) (10 ^ 19) ltac:(lia)) as Hmod.
  rewrite (Z.mod_small _ (2 ^ 64)) by lia.
  erewrite st_bind_run; [|apply (int_is_zero_run v V'); [lk|done]]. cbv beta.
  assert (0 ≤ val V') as HV' by (rewrite VV'; apply Z.div_pos; lia).
  pose proof (Z.div_mod (val V) (10 ^ 19) ltac:(lia)) as Hdm. rewrite <-VV' in Hdm.
  rewrite (mag_val V') by auto.
  destruct (Z.eqb_spec (val V') 0) as [Hz'|Hz'].
  - rewrite Hz' in Hdm.
    destruct (to_s_digits_lead 19 e (val V mod 10 ^ 19) buf out ds T (mst V' R'))
      as (b1 & d1 & o1 & E2 & L1 & D1 & F1 & N1 & G1 & V1 & NL1); try done; try lia.
    step_with E2. cbn [fst snd].
    destruct fuel as [|fuel]; [simpl in Hbig; lia|]. cbn [to_s_loop].
    erewrite st_bind_run; [|apply (int_is_zero_run v V'); [lk|done]]. cbv beta.
    rewrite (mag_val V') by auto. rewrite Hz'. cbn [Z.eqb].
    exists V', R', b1, d1, o1. replace (val V) with (val V mod 10 ^ 19) by lia.
    done.
  - assert (10 ^ 19 ≤ val V) as Hge by lia.
    assert (19 < out - e) as Hoe.
    { apply (Z.pow_lt_mono_r_iff 10); lia. }
    destruct (to_s_digits_full 19 (val V mod 10 ^ 19) buf out ds T (mst V' R'))
      as (b1 & d1 & E2 & L1 & D1 & F1 & N1 & V1); try done; try lia.
    step_with E2. cbn [fst snd]. change (Z.of_nat 19) with 19 in *.
    assert (∀ x, 19 ≤ x → val V < 10 ^ x → val V' < 10 ^ (x - 19)) as Hsub.
    { intros x Hx Hlt. rewrite VV'. apply Z.div_lt_upper_bound; [lia|].
      rewrite <-Z.pow_add_r by lia. by replace (19 + (x - 19)) with x by lia. }
    assert (1 < fuel)%nat as Hf1.
    { destruct (decide (1 < fuel)%nat); [done|]. exfalso.
      assert (10 ^ (19 * (Z.of_nat (S fuel) - 1)) ≤ 10 ^ 19) by (apply Z.pow_le_mono_r; lia). lia. }
    destruct (IH V' R' b1 (out - 19) d1 T) as (V2 & R2 & b2 & d2 & o2 & E3 & L2 & D2 & F2 & N2 & G2 & VV2 & NL2);
      try done; try lia; auto.
    + replace (19 * (Z.of_nat fuel - 1)) with (19 * (Z.of_nat (S fuel) - 1) - 19) by lia.
      apply Hsub; [lia|done].
    + replace (out - 19 - e) with (out - e - 19) by lia. apply Hsub; [lia|done].
    + exists V2, R2, b2, d2, o2. split_and!; try done; [congruence|lia| |].
      * rewrite VV2, V1, N1, Nat2Z.inj_add, Z.pow_add_r by lia. change (Z.of_nat 19) with 19. nia.
      * split; [lia|]. intros _. apply NL2. done.
Qed.
End ToSRun.

(** The text of an object: canonical digits, with a sign unless zero. *)
Definition text_of (io : Int) (t : list Z) : Prop :=
  ∃ ds, canonical ds ∧ dval ds = mag io ∧
    t = (if neg_ io && negb (mag io =? 0) then [45] else []) ++ ds.

Lemma no_lead_canonical v ds :
  Forall dec_digit ds → v ≠ 0 → no_lead v [] ds → canonical ds.
Proof.
  intros Hd Hv [_ H]. destruct (H Hv) as (c & t & -> & Hc). split; [done|]. by destruct t.
Qed.

Definition text_room (io : Int) (n : nat) : Prop :=
  (2 ≤ n)%nat ∧ mag io < 10 ^ (Z.of_nat n - 1 - (if neg_ io then 1 else 0)).

(** The characters after the loop. *)
Lemma to_s_sign_run io (s : store) buf ds out :
  wf io → out + Z.of_nat (length ds) = Z.of_nat (length buf) - 1 →
  drop (Z.to_nat out) buf = ds ++ [0] → Forall dec_digit ds → dval ds = mag io →
  no_lead (mag io) [] ds → (if neg_ io then 1 else 0) ≤ out → (2 ≤ length buf)%nat →
  ∃ buf' out' t,
    (if out =? Z.of_nat (length buf) - 1 then put buf out 48
     else if neg_ io then put buf out 45 else mret (buf, out)) s = Some ((buf', out'), s) ∧
    length buf' = length buf ∧ 0 ≤ out' ∧ drop (Z.to_nat out') buf' = t ++ [0] ∧ text_of io t.
Proof.
  intros W Hlen Hd Hds Hv Hl He Hn. destruct (Z.eqb_spec out (Z.of_nat (length buf) - 1)) as [Ho|Ho].
  - assert (ds = []) as -> by (destruct ds; [done|simpl in Hlen; lia]).
    destruct (put_run buf out 48 s) as (b & E & L & D); [lia|].
    exists b, (out - 1), [48]. split_and!; try done; [lia|by rewrite D, Hd|].
    exists [48]. cbn [dval] in Hv. rewrite <-Hv. split_and!; try done.
    + repeat constructor; lia.
    + by rewrite andb_false_r.
  - assert (mag io ≠ 0) as Hnz.
    { intros Hz. destruct Hl as [Hl _]. rewrite (Hl Hz) in Hlen. simpl in Hlen. lia. }
    pose proof (no_lead_canonical _ _ Hds Hnz Hl) as Hc.
    destruct (neg_ io) eqn:En.
    + destruct (put_run buf out 45 s) as (b & E & L & D); [lia|].
      exists b, (out - 1), (45 :: ds). split_and!; try done; [lia|by rewrite D, Hd|].
      exists ds. rewrite En, (proj2 (Z.eqb_neq _ _) Hnz). done.
    + exists buf, out, ds. split_and!; try done. exists ds. by rewrite En.
Qed.

Lemma int_to_s_run `{U : Uninit} i io s (st0 : store) :
  st0 !! i = Some io → wf io → overflow_ io = false → text_room io (length s) →
  ∃ buf out t, int_to_s i s st0 = Some ((buf, out), st0) ∧ length buf = length s ∧
    0 ≤ out ∧ drop (Z.to_nat out) buf = t ++ [0] ∧ text_of io t.
Proof.
  intros Ei W OI [Hn Hroom]. unfold int_to_s.
  destruct (put_run s (Z.of_nat (length s)) 0 st0) as (b0 & E0 & L0 & D0); [lia|].
  step_with E0. cbn [fst snd]. rewrite Nat2Z.id, drop_all in D0.
  set (Q := λ (x : list Z * Z) (s' : store), s' = st0 ∧ length x.1 = length s ∧ 0 ≤ x.2 ∧
    ∃ t, drop (Z.to_nat x.2) x.1 = t ++ [0] ∧ text_of io t).
  match goal with |- ∃ buf out t, ?run = _ ∧ _ =>
    assert (∃ x s', run = Some (x, s') ∧ Q x s') as ([buf out] & s' & E & -> & Hlb & Ho & t & Ht & HT) end.
  2:{ exists buf, out, t. split; [exact E|done]. }
  apply with_object_ex. intros p19 H1.
  apply (with_local_ex 254 _ _ (λ x s', Q x (delete p19 s'))); [by exists 127%nat|lia|].
  intros v V Hv0 MV WV _ _ _. apply lookup_insert_None in Hv0 as [H2 N1].
  assert (i ≠ p19 ∧ i ≠ v) as [Ni1 Ni2] by (split; congruence).
  pose proof (safe_d io ltac:(auto)). pose proof (al_m io ltac:(auto)).
  destruct (int_set_t_run i v io V (<[v:=V]> (<[p19:=tenToTheNineteen]> st0)))
    as (V1 & E1 & (M1 & _) & _ & _ & O1 & _ & _ & _ & G1 & W1); [lk|lk|auto|auto|lia|].
  step_with E1. step. rewrite !insert_insert_eq. set (V2 := set_neg_ false V1).
  assert (wf V2) as WV2 by (by apply set_neg_wf, W1).
  assert (val V2 = mag io) as VV2 by (unfold V2; by rewrite val_set_neg).
  apply (with_local_ex 4 _ _ (λ x s', Q x (delete p19 (delete v s')))); [by exists 2%nat|lia|].
  intros r R Hr0 MR WR _ _ OR. apply lookup_insert_None in Hr0 as [H3 N2].
  apply lookup_insert_None in H3 as [H3 N3].
  assert (i ≠ r) as Ni3 by congruence.
  pose proof (mag_nonneg io ltac:(auto)) as Hm0.
  assert (0 ≤ (if neg_ io then 1 else 0) ≤ 1) as He by (destruct (neg_ io); lia).
  destruct (to_s_loop_run v p19 r (<[p19:=tenToTheNineteen]> st0)) with (fuel := to_s_fuel)
    (e := if neg_ io then 1 else 0) (V := V2) (R := R) (buf := b0) (out := Z.of_nat (length s) - 1)
    (ds := @nil Z) (T := [0])
    as (V' & R' & b1 & ds & o1 & E2 & L2 & D2 & F2 & N4 & G2 & VV' & NL); try done; try lia; auto.
  - lk.
  - change (overflow_ V2) with (overflow_ V1). congruence.
  - unfold to_s_fuel. lia.
  - rewrite VV2. pose proof (wf_mag_lt_m io W). pose proof (Bp_le (m_ io) 254 ltac:(lia)).
    assert (Bp 254 < 10 ^ (19 * (Z.of_nat to_s_fuel - 1))) by (vm_compute; done). lia.
  - step_with E2. cbn [fst snd].
    erewrite st_bind_run; [|apply get_run; lk]. cbv beta.
    rewrite VV2 in *. cbn [length dval] in *. rewrite Z.mul_1_r, Z.add_0_r in VV'.
    destruct (to_s_sign_run io (<[r:=R']> (<[v:=V']> (<[p19:=tenToTheNineteen]> st0))) b1 ds o1)
      as (b2 & o2 & t & E3 & L3 & O3 & D3 & T3); try done; try lia.
    replace (Z.of_nat (length b1)) with (Z.of_nat (length s)) in E3 by lia.
    eexists. eexists. split; [exact E3|]. split; [|split_and!; try done; [simpl; lia|by exists t]].
    rewrite delete_insert_id by (rewrite !lookup_insert_ne by congruence; done).
    rewrite delete_insert_id by (rewrite !lookup_insert_ne by congruence; done).
    by rewrite delete_insert_id.
Qed.

(** A text is read back as the number it denotes. *)
Lemma text_of_val io t :
  text_of io t → Forall dec_digit (split_sign t).2 ∧ dval (split_sign t).2 = mag io ∧ text_val t = val io.
Proof.
  intros (ds & [Hd Hc] & Hv & ->). unfold text_val, val.
  destruct ds as [|c ds]; [done|].
  assert (split_sign (c :: ds) = (false, c :: ds)) as Es.
  { unfold split_sign. apply list.Forall_cons in Hd as [Hd _]. unfold dec_digit in Hd.
    by rewrite (proj2 (Z.eqb_neq _ _)) by lia. }
  destruct (neg_ io) eqn:En, (Z.eqb_spec (mag io) 0) as [Hz|Hz];
    cbn [andb negb app]; rewrite ?Es.
  - cbn [snd]. rewrite Hv, Hz. done.
  - cbn [split_sign]. rewrite Z.eqb_refl. cbn [snd]. by rewrite Hv.
  - cbn [snd]. by rewrite Hv.
  - cbn [snd]. by rewrite Hv.
Qed.
