(* ===== verification/IntOps.v ===== *)
(** * Integer operators of the virtual machine

    [allocateIntObject] ([yargobject.c]), [allocateIntValue] ([value.c]),
    [unaryIntOp], [binaryIntOp], [binaryIntBoolOp] and the fixed-width cases
    of [OP_MODULO] ([vm.c]): how the machine sizes the result of an operator
    on arbitrary-precision integers and what it pushes. *)
From S2P Require Export IntText.

(** ** Allocation *)

(** An object that outlives the function: on the heap, or in a value on the
    stack. *)
Definition new_object (o : Int) : M ptr :=
  λ s, let p := fresh_ptr s in Some (p, <[p := o]> s).

(** [allocateObject] clears the memory. *)
Definition allocateIntObject (numDigits : nat) : M ptr :=
  let n := (numDigits + numDigits mod 2)%nat in
  st_assert ((n <=? 254)%nat && (2 <=? n)%nat) ;;
  new_object (mkInt false false true false 0 n (replicate n 0)).

Definition allocateIntValue `{U : Uninit} (numDigits : nat) : M ptr :=
  if (2 <? numDigits)%nat then allocateIntObject numDigits
  else
    p ← new_object (set_h_ (take 2 (h_ uninit)) uninit);
    int_init_concrete 2 p ;; mret p.

(** ** Operators *)

Inductive int_op := OpPlus | OpMinus | OpTimes | OpDivide | OpModulo.
Inductive int_cmp := OpLess | OpGreater | OpEqual.

#[export] Instance int_op_eq_dec : EqDecision int_op.
Proof. solve_decision. Defined.

Definition unaryIntOp `{U : Uninit} (a : ptr) : M ptr :=
  ao ← get a;
  negI ← allocateIntValue (d_ ao);
  int_set_t a negI ;; int_neg negI ;; mret negI.

(** The digits the result of [binaryIntOp] gets. *)
Definition result_digits (c : int_op) (a b : ptr) : M nat :=
  ao ← get a; bo ← get b;
  s ← (match c with
       | OpPlus | OpMinus => mret (1 + (if (d_ bo <? d_ ao)%nat then d_ ao else d_ bo))%nat
       | OpTimes => mret (d_ ao + d_ bo)%nat
       | OpDivide => mret (d_ ao)
       | OpModulo =>
           let s := if (d_ bo <? d_ ao)%nat then d_ bo else d_ ao in
           z ← int_is_zero a;
           if negb z && signs_differ (neg_ ao) (neg_ bo)
           then mret (1 + (if (d_ bo <? s)%nat then s else d_ bo))%nat
           else mret s
       end);
  mret (if (254 <? s)%nat then 254%nat else s).

Definition binaryIntOp `{U : Uninit} (c : int_op) (a b : ptr) : M ptr :=
  s ← result_digits c a b;
  i ← allocateIntValue s;
  int_init i ;;
  match c with
  | OpPlus => int_add a b i
  | OpMinus => int_sub a b i
  | OpTimes => int_mul a b i
  | OpDivide => int_div a b i None
  | OpModulo => with_local 254 (λ q, int_init_concrete 254 q ;; int_div a b q (Some i))
  end ;;
  mret i.

Definition binaryIntBoolOp (op : int_cmp) (a b : ptr) : M bool :=
  ic ← int_is a b;
  mret (match op with
        | OpLess => bool_decide (ic = INT_LT)
        | OpGreater => bool_decide (ic = INT_GT)
        | OpEqual => bool_decide (ic = INT_EQ)
        end).

(** A signed [w]-bit [%], with the adjustment of [OP_MODULO].  The operands
    are promoted to [int] first, so that the remainder of the least value by
    -1 is undefined at 32 and 64 bits only. *)
Definition modulo_signed (w : Z) (a b : Z) : option Z :=
  if (b =? 0) || ((32 <=? w) && (a =? - 2 ^ (w - 1)) && (b =? -1)) then None
  else
    let r := Z.rem a b in
    Some (if ((a <? 0) && (0 <? b)) || ((0 <? a) && (b <? 0)) then swrap w (r + b) else r).
Definition modulo_unsigned (a b : Z) : option Z :=
  if b =? 0 then None else Some (Z.rem a b).

(** ** What the operators compute *)
Definition int_op_spec (c : int_op) (x y : Z) : Z :=
  match c with
  | OpPlus => x + y
  | OpMinus => x - y
  | OpTimes => x * y
  | OpDivide => Z.quot x y
  | OpModulo => yarg_rem x y
  end.

Lemma new_object_run o (s : store) :
  ∃ p, new_object o s = Some (p, <[p := o]> s) ∧ s !! p = None.
Proof. eexists. split; [done|]. apply fresh_ptr_None. Qed.

Lemma even_round n : Nat.Even (n + n mod 2) ∧ (n ≤ n + n mod 2 ≤ n + 1)%nat.
Proof.
  pose proof (Nat.mod_upper_bound n 2 ltac:(lia)). split; [|lia].
  exists ((n + n mod 2) / 2)%nat. pose proof (Nat.div_mod_eq n 2).
  rewrite (Nat.div_mod_eq n 2) at 1 3.
  assert (n mod 2 = 0 ∨ n mod 2 = 1)%nat as [->| ->] by lia.
  - rewrite !Nat.add_0_r, (Nat.mul_comm 2), Nat.div_mul by lia. lia.
  - replace (2 * (n / 2) + 1 + 1)%nat with ((n / 2 + 1) * 2)%nat by lia. rewrite Nat.div_mul by lia. lia.
Qed.

(** A new object has the digits asked for. *)
Lemma allocateIntValue_run `{U : Uninit} n (s : store) :
  (n ≤ 254)%nat →
  ∃ p I, allocateIntValue n s = Some (p, <[p := I]> s) ∧ s !! p = None ∧ alloc I ∧
    (n ≤ m_ I)%nat ∧ overflow_ I = false ∧ literal_ I = false ∧ obj_ I = (2 <? n)%nat.
Proof.
  intros Hn. unfold allocateIntValue. destruct (Nat.ltb_spec 2 n) as [H2|H2].
  - unfold allocateIntObject. destruct (even_round n) as [[k Hk] Hr].
    set (m := (n + n mod 2)%nat) in *.
    erewrite st_bind_run; [|apply st_assert_run]. 2:{ apply andb_true_intro. split; apply Nat.leb_le; lia. }
    cbv beta. destruct (new_object_run (mkInt false false true false 0 m (replicate m 0)) s) as (p & E & Hp).
    eexists p, _. split; [exact E|]. split_and!; try done; simpl; try lia.
    split; simpl; [by rewrite length_replicate|by exists k|lia|]. apply Forall_replicate. done.
  - destruct (new_object_run (set_h_ (take 2 (h_ uninit)) uninit) s) as (p & E & Hp).
    step_with E. destruct (uninit_take 2) as [L D]; [lia|].
    destruct (int_init_concrete_run 2 p (set_h_ (take 2 (h_ uninit)) uninit)
      (<[p:=set_h_ (take 2 (h_ uninit)) uninit]> s)) as (I & EI & mI & oI & WI & _ & _ & OI & _ & _ & _ & LI);
      [lk|by exists 1%nat|lia|done|done|].
    step_with EI. rewrite insert_insert_eq. exists p, I. split; [done|].
    rewrite mI. split_and!; auto.
Qed.

(** ** Runs of the operators *)

Section Ops.
Context `{U : Uninit}.
Variables (a b : ptr) (ao bo : Int) (s : store).
Hypothesis (Ea : s !! a = Some ao) (Eb : s !! b = Some bo) (Wa : wf ao) (Wb : wf bo).
Hypothesis (Oa : overflow_ ao = false).

(** The digits of the result are those that the operation needs, up to 254. *)
Definition enough (c : int_op) (n : nat) : Prop :=
  (1 ≤ n ≤ 254)%nat ∧
  match c with
  | OpPlus | OpMinus => n = 254%nat ∨ (d_ ao < n ∧ d_ bo < n)%nat
  | OpTimes => n = 254%nat ∨ (d_ ao + d_ bo ≤ n)%nat
  | OpDivide => (d_ ao ≤ n)%nat
  | OpModulo => ∀ ro, (n ≤ m_ ro)%nat → rem_room ao bo ro
  end.

Lemma result_digits_run c :
  (c = OpModulo → 0 < mag bo) →
  ∃ n, result_digits c a b s = Some (n, s) ∧ enough c n.
Proof.
  intros HD. pose proof (safe_d ao ltac:(auto)). pose proof (safe_d bo ltac:(auto)).
  pose proof (al_m ao ltac:(auto)). pose proof (al_m bo ltac:(auto)).
  unfold result_digits, enough. step. step.
  destruct c; try (step; eexists; split; [done|];
    destruct (Nat.ltb_spec (d_ bo) (d_ ao));
    match goal with |- context [(254 <? ?x)%nat] => destruct (Nat.ltb_spec 254 x) end; lia).
  specialize (HD eq_refl).
  pose proof (signs_signed (neg_ ao) (neg_ bo) (mag ao) (mag bo) (mag_nonneg ao ltac:(auto)) HD) as Hs.
  fold (val ao) (val bo) in Hs.
  assert (∃ n, (z ← int_is_zero a;
    if negb z && signs_differ (neg_ ao) (neg_ bo)
    then mret (1 + (if (d_ bo <? (if (d_ bo <? d_ ao)%nat then d_ bo else d_ ao))%nat
                    then (if (d_ bo <? d_ ao)%nat then d_ bo else d_ ao) else d_ bo))%nat
    else mret (if (d_ bo <? d_ ao)%nat then d_ bo else d_ ao)) s = Some (n, s) ∧
    (1 ≤ n)%nat ∧ ((d_ bo ≤ n)%nat ∨
      (n = d_ ao ∧ (d_ ao < d_ bo)%nat ∧ 0 ≤ val ao * val bo))) as (n & E & Hn1 & Hn).
  { step_with (int_is_zero_run a ao s Ea Wa). rewrite <-Hs.
    destruct (Z.ltb_spec (val ao * val bo) 0); eexists; (split; [done|]);
      destruct (Nat.ltb_spec (d_ bo) (d_ ao)); [rewrite Nat.ltb_irrefl; lia| |lia..].
    destruct (Nat.ltb_spec (d_ bo) (d_ ao)); lia. }
  step_with E. eexists. split; [done|]. destruct (Nat.ltb_spec 254 n) as [Hc|Hc].
  - split; [lia|]. intros ro Hro. left. lia.
  - split; [lia|]. intros ro Hro. destruct Hn as [Hn|(-> & Hlt & Hv)]; [left; lia|right].
    split; [lia|]. split; [|done]. by apply mag_lt_of_d.
Qed.

(** What the operator leaves in the new object: the exact result, or the
    overflow flag if it has more than 254 digits. *)
Definition op_result (v : Z) (R : Int) : Prop :=
  literal_ R = false ∧
  ((Z.abs v < Bp 254 ∧ wf R ∧ val R = v ∧ overflow_ R = false) ∨
   (Bp 254 ≤ Z.abs v ∧ overflow_ R = true)).

Lemma leaves_result R0 R v :
  leaves R0 R v → literal_ R0 = false → overflow_ R0 = false → (m_ R0 ≤ 254)%nat →
  (m_ R0 = 254%nat ∨ Z.abs v < Bp (m_ R0)) → op_result v R.
Proof.
  intros [(HK1 & HK2 & HK3) HL] HR HO HM Hfit. split; [congruence|].
  pose proof (Bp_le (m_ R0) 254 HM).
  destruct HL as [(Hv & W & V & O)|(Hv & A & O & _)]; [left|right].
  - split_and!; try done; [lia|congruence].
  - split; [|done]. destruct Hfit as [<-|]; [done|lia].
Qed.

Section Result.
Variables (p : ptr) (R0 : Int).
Hypothesis (Hp : s !! p = None) (W0 : wf R0) (G0 : mag R0 = 0) (O0 : overflow_ R0 = false)
  (L0 : literal_ R0 = false).

Lemma new_ne : a ≠ p ∧ b ≠ p.
Proof. split; congruence. Qed.

Lemma op_add_run (sub : bool) :
  (m_ R0 = 254 ∨ d_ ao < m_ R0 ∧ d_ bo < m_ R0)%nat →
  ∃ R, (if sub then int_sub a b p else int_add a b p) (<[p := R0]> s) = Some ((), <[p := R]> s) ∧
    op_result (if sub then val ao - val bo else val ao + val bo) R.
Proof.
  intros Hm. destruct new_ne as [Na Nb].
  pose proof (val_abs ao ltac:(auto)). pose proof (val_abs bo ltac:(auto)).
  pose proof (mag_bound ao ltac:(auto)). pose proof (mag_bound bo ltac:(auto)).
  pose proof (al_m R0 ltac:(auto)).
  assert (m_ R0 = 254%nat ∨ mag ao + mag bo < Bp (m_ R0)) as Hfit.
  { destruct Hm as [|[Hda Hdb]]; [by left|right].
    pose proof (Bp_le (d_ ao) (m_ R0 - 1) ltac:(lia)). pose proof (Bp_le (d_ bo) (m_ R0 - 1) ltac:(lia)).
    replace (m_ R0) with (S (m_ R0 - 1)) by lia. rewrite Bp_S. pose proof (Bp_pos (m_ R0 - 1)). lia. }
  destruct sub.
  - destruct (int_sub_run a b p ao bo R0 (<[p:=R0]> s)) as (R & E & HL); [lk|lk|lk|auto..|].
    rewrite E, insert_insert_eq. exists R. split; [done|]. apply (leaves_result R0); try done; lia.
  - destruct (int_add_run a b p ao bo R0 (<[p:=R0]> s)) as (R & E & HL); [lk|lk|lk|auto..|].
    rewrite E, insert_insert_eq. exists R. split; [done|]. apply (leaves_result R0); try done; lia.
Qed.

Lemma op_mul_run :
  (m_ R0 = 254 ∨ d_ ao + d_ bo ≤ m_ R0)%nat →
  ∃ R, int_mul a b p (<[p := R0]> s) = Some ((), <[p := R]> s) ∧ op_result (val ao * val bo) R.
Proof.
  intros Hm. destruct new_ne as [Na Nb].
  pose proof (val_abs ao ltac:(auto)) as HA. pose proof (val_abs bo ltac:(auto)) as HB.
  pose proof (mag_bound ao ltac:(auto)). pose proof (mag_bound bo ltac:(auto)).
  pose proof (al_m R0 ltac:(auto)). pose proof (al_m ao ltac:(auto)). pose proof (al_m bo ltac:(auto)).
  pose proof (safe_d ao ltac:(auto)). pose proof (safe_d bo ltac:(auto)).
  destruct (int_mul_run a b p ao bo R0 (<[p:=R0]> s)) as (R & E & (HKm & HKo & HKl) & _ & HR);
    [lk|lk|lk|auto..|lia|].
  rewrite E, insert_insert_eq. exists R. split; [done|]. split; [congruence|].
  pose proof (Bp_le (m_ R0) 254 ltac:(lia)).
  destruct HR as [(Hv & ?)|(Hv & _ & ?)]; [left|right]; (split; [|done]); [lia|].
  destruct Hm as [<-|Hm]; [done|exfalso].
  pose proof (Bp_le (d_ ao + d_ bo) (m_ R0) Hm) as Hb. rewrite Bp_add in Hb.
  rewrite Z.abs_mul in Hv. assert (mag ao * mag bo < Bp (d_ ao) * Bp (d_ bo)) by (apply Z.mul_lt_mono_nonneg; lia).
  rewrite HA, HB in Hv. lia.
Qed.

Lemma op_div_run :
  mag bo ≠ 0 → (d_ ao ≤ m_ R0)%nat →
  ∃ R, int_div a b p None (<[p := R0]> s) = Some ((), <[p := R]> s) ∧
    op_result (Z.quot (val ao) (val bo)) R.
Proof.
  intros HD Hm. destruct new_ne as [Na Nb].
  pose proof (mag_bound ao ltac:(auto)). pose proof (mag_nonneg bo ltac:(auto)).
  pose proof (Bp_le (d_ ao) (m_ R0) Hm).
  destruct (int_div_run a b p None ao bo R0 (<[p:=R0]> s)) as (s' & E & (Q & EQ & mQ & _ & LQ & WQ & OQ & VQ) & _ & Hf);
    [lk|lk|lk|auto..| |done|].
  { eapply Z.le_lt_trans; [apply Z.div_le_upper_bound with (q := mag ao); nia|]. lia. }
  exists Q. split.
  { rewrite E. f_equal. f_equal. apply map_eq. intros x. destruct (decide (x = p)) as [->|Hx].
    - by rewrite lookup_insert_eq.
    - rewrite Hf by (done || set_solver). by rewrite !lookup_insert_ne. }
  split; [done|]. left. pose proof (wf_mag_lt_m Q WQ) as HQ. rewrite <-(val_abs Q), VQ in HQ by auto.
  pose proof (al_m Q ltac:(auto)). pose proof (Bp_le (m_ Q) 254 ltac:(lia)). split; [lia|done].
Qed.

Lemma op_mod_run :
  mag bo ≠ 0 → rem_room ao bo R0 →
  ∃ R, with_local 254 (λ q, int_init_concrete 254 q ;; int_div a b q (Some p)) (<[p := R0]> s)
      = Some ((), <[p := R]> s) ∧
    op_result (yarg_rem (val ao) (val bo)) R.
Proof.
  intros HD Hm. destruct new_ne as [Na Nb].
  pose proof (mag_nonneg ao ltac:(auto)). pose proof (mag_nonneg bo ltac:(auto)).
  pose proof (wf_mag_lt_m ao Wa) as Hlt.
  pose proof (al_m ao ltac:(auto)). pose proof (Bp_le (m_ ao) 254 ltac:(lia)).
  assert (∃ (x : ()) s', with_local 254 (λ q, int_init_concrete 254 q ;; int_div a b q (Some p)) (<[p := R0]> s)
      = Some (x, s') ∧ ∃ R, s' = <[p := R]> s ∧ op_result (yarg_rem (val ao) (val bo)) R)
    as ([] & s' & E & R & -> & HR); [|by exists R].
  apply (with_local_ex 254 _ _ (λ _ s', ∃ R, s' = <[p := R]> s ∧ _)); [by exists 127%nat|lia|].
  intros q Q Hq MQ WQ _ _ _. apply lookup_insert_None in Hq as [Hq Npq].
  assert (a ≠ q ∧ b ≠ q) as [Naq Nbq] by (split; congruence).
  destruct (int_div_run a b q (Some p) ao bo Q (<[q:=Q]> (<[p:=R0]> s))) as (s' & E & HP);
    [lk|lk|lk|auto..| | |].
  { rewrite MQ. eapply Z.le_lt_trans; [apply Z.div_le_upper_bound with (q := mag ao); nia|]. lia. }
  { intros r' [= <-]. do 3 (split; [congruence|]). exists R0. split; [lk|]. split; [auto|].
    split; [done|congruence]. }
  apply div_post_store in HP as (Q' & R & ro & -> & Er & _ & _ & _ & _ & (_ & _ & LR) & WR & OR & VR); [|congruence].
  rewrite lookup_insert_ne, lookup_insert_eq in Er by congruence. injection Er as <-.
  eexists. eexists. split; [exact E|]. exists R. split.
  { rewrite insert_insert_eq. rewrite (insert_insert_ne _ q p) by congruence.
    rewrite insert_insert_eq. rewrite (insert_insert_ne _ p q) by congruence.
    rewrite delete_insert_id; [done|]. by rewrite lookup_insert_ne by congruence. }
  split; [congruence|]. left. pose proof (wf_mag_lt_m R WR) as HQ. rewrite <-(val_abs R), VR in HQ by auto.
  pose proof (al_m R ltac:(auto)). pose proof (Bp_le (m_ R) 254 ltac:(lia)).
  split; [lia|]. split_and!; try done. congruence.
Qed.
End Result.

Lemma binaryIntOp_run c :
  (c = OpDivide ∨ c = OpModulo → mag bo ≠ 0) →
  ∃ p R, binaryIntOp c a b s = Some (p, <[p := R]> s) ∧ s !! p = None ∧
    op_result (int_op_spec c (val ao) (val bo)) R.
Proof.
  intros HD. pose proof (mag_nonneg bo ltac:(auto)).
  destruct (result_digits_run c) as (n & En & Hn1 & Hn2); [intros ->; specialize (HD ltac:(by right)); lia|].
  unfold binaryIntOp. step_with En.
  destruct (allocateIntValue_run n s ltac:(lia)) as (p & I & EI & Hp & AI & HmI & _).
  step_with EI.
  destruct (int_init_run p I (<[p:=I]> s)) as (R0 & E0 & m0 & _ & W0 & G0 & _ & O0 & L0 & _); [lk|done|].
  step_with E0. rewrite insert_insert_eq. pose proof (al_m I AI). rewrite <-m0 in *.
  cut (∃ R, (match c with
    | OpPlus => int_add a b p
    | OpMinus => int_sub a b p
    | OpTimes => int_mul a b p
    | OpDivide => int_div a b p None
    | OpModulo => with_local 254 (λ q, int_init_concrete 254 q ;; int_div a b q (Some p))
    end) (<[p:=R0]> s) = Some ((), <[p:=R]> s) ∧ op_result (int_op_spec c (val ao) (val bo)) R).
  { intros (R & E & HR). step_with E. by exists p, R. }
  destruct c; simpl in Hn2 |- *.
  - apply (op_add_run p R0 Hp W0 O0 L0 false). lia.
  - apply (op_add_run p R0 Hp W0 O0 L0 true). lia.
  - apply op_mul_run; try done; lia.
  - apply op_div_run; try done; [by apply HD; left|lia].
  - apply op_mod_run; try done; [by apply HD; right|]. by apply Hn2.
Qed.
End Ops.

Lemma unaryIntOp_run `{U : Uninit} a ao (s : store) :
  s !! a = Some ao → wf ao →
  ∃ p R, unaryIntOp a s = Some (p, <[p := R]> s) ∧ s !! p = None ∧
    wf R ∧ val R = - val ao ∧ overflow_ R = overflow_ ao ∧ literal_ R = false.
Proof.
  intros Ea Wa. pose proof (safe_d ao ltac:(auto)). pose proof (al_m ao ltac:(auto)).
  unfold unaryIntOp. step.
  destruct (allocateIntValue_run (d_ ao) s ltac:(lia)) as (p & I & EI & Hp & AI & HmI & _ & LI & _).
  step_with EI. assert (a ≠ p) by congruence.
  destruct (int_set_t_run a p ao I (<[p:=I]> s)) as (R & E & (_ & _ & LR) & _ & NR & OR & _ & _ & _ & GR & WR);
    [lk|lk|auto|auto|done|].
  step_with E. rewrite insert_insert_eq. unfold int_neg. step. rewrite insert_insert_eq.
  eexists p, _. split; [done|]. split; [done|]. split; [by apply set_neg_wf, WR|].
  split; [|by simpl; split; congruence]. rewrite val_set_neg, NR, GR. unfold val. destruct (neg_ ao); simpl; lia.
Qed.

Lemma binaryIntBoolOp_run op a b ao bo (s : store) :
  s !! a = Some ao → s !! b = Some bo → wf ao → wf bo →
  binaryIntBoolOp op a b s =
    Some (match op with
          | OpLess => val ao <? val bo
          | OpGreater => val bo <? val ao
          | OpEqual => val ao =? val bo
          end, s).
Proof.
  intros Ea Eb Wa Wb. unfold binaryIntBoolOp. step_with (int_is_run a b ao bo s Ea Eb Wa Wb).
  rewrite st_ret_run. do 2 f_equal. unfold int_comp.
  destruct (Z.compare_spec (val ao) (val bo)), op; simpl; symmetry;
    first [apply Z.ltb_lt; lia | apply Z.ltb_ge; lia | apply Z.eqb_eq; lia | apply Z.eqb_neq; lia].
Qed.

(** ** Remainders of fixed width *)

(** The adjusted remainder stays inside the type. *)
Lemma yarg_rem_bound a b : b ≠ 0 → Z.abs (yarg_rem a b) ≤ Z.abs b.
Proof.
  intros Hb. unfold yarg_rem. pose proof (Z.rem_bound_abs a b Hb) as Hr.
  destruct (Z.ltb_spec (a * b) 0) as [Hs|Hs]; [|lia].
  destruct (Z.lt_trichotomy a 0) as [Ha|[->|Ha]]; [|lia|].
  - assert (0 < b) by nia. pose proof (Z.rem_nonpos a b Hb ltac:(lia)). lia.
  - assert (b < 0) by nia. pose proof (Z.rem_nonneg a b Hb ltac:(lia)). lia.
Qed.

Lemma yarg_rem_range w a b :
  0 < w → b ≠ 0 → - 2 ^ (w - 1) ≤ a < 2 ^ (w - 1) → - 2 ^ (w - 1) ≤ b < 2 ^ (w - 1) →
  - 2 ^ (w - 1) ≤ yarg_rem a b < 2 ^ (w - 1).
Proof.
  intros Hw Hb Ha Hb'. unfold yarg_rem. pose proof (Z.rem_bound_abs a b Hb) as Hr.
  destruct (Z.ltb_spec (a * b) 0) as [Hs|Hs]; [|lia].
  destruct (Z.lt_trichotomy a 0) as [Hn|[->|Hn]]; [|lia|].
  - assert (0 < b) by nia. pose proof (Z.rem_nonpos a b Hb ltac:(lia)). lia.
  - assert (b < 0) by nia. pose proof (Z.rem_nonneg a b Hb ltac:(lia)). lia.
Qed.

Lemma modulo_signed_run w a b :
  0 < w → b ≠ 0 → - 2 ^ (w - 1) ≤ a < 2 ^ (w - 1) → - 2 ^ (w - 1) ≤ b < 2 ^ (w - 1) →
  (32 ≤ w → a = - 2 ^ (w - 1) → b ≠ -1) →
  modulo_signed w a b = Some (yarg_rem a b).
Proof.
  intros Hw Hb Ha Hb' Hub. unfold modulo_signed.
  rewrite (proj2 (Z.eqb_neq b 0)) by done. cbn [orb].
  assert ((32 <=? w) && (a =? - 2 ^ (w - 1)) && (b =? -1) = false) as ->.
  { destruct (Z.leb_spec 32 w), (Z.eqb_spec a (- 2 ^ (w - 1))), (Z.eqb_spec b (-1)); simpl; try done.
    specialize (Hub ltac:(done) ltac:(done)). done. }
  pose proof (yarg_rem_range w a b Hw Hb Ha Hb') as Hrng. unfold yarg_rem in *. f_equal.
  assert ((a <? 0) && (0 <? b) || (0 <? a) && (b <? 0) = (a * b <? 0)) as ->.
  { destruct (Z.ltb_spec a 0), (Z.ltb_spec 0 b), (Z.ltb_spec 0 a), (Z.ltb_spec b 0),
      (Z.ltb_spec (a * b) 0); simpl; try done; nia. }
  destruct (a * b <? 0); [|lia]. by apply swrap_small.
Qed.

(** The language's remainder and the floored one of Python. *)
Lemma yarg_rem_floor a b :
  b ≠ 0 →
  yarg_rem a b = if (a * b <? 0) && (a mod b =? 0) then b else a mod b.
Proof.
  intros Hb. unfold yarg_rem.
  destruct (Z.ltb_spec (a * b) 0) as [Hs|Hs]; cbn [andb].
  - destruct (Z.eqb_spec (a mod b) 0) as [Hz|Hz].
    + apply Z.mod_divide in Hz; [|done]. apply Z.rem_divide in Hz; [|done]. lia.
    + assert (Z.rem a b ≠ 0) as Hrz.
      { intros Hr. apply Hz. apply Z.mod_divide; [done|]. by apply Z.rem_divide in Hr. }
      pose proof (Z.rem_bound_abs a b Hb). pose proof (Z.quot_rem' a b) as Hq.
      destruct (Z.lt_trichotomy a 0) as [Hn|[->|Hn]]; [|lia|].
      * assert (0 < b) by nia. pose proof (Z.rem_nonpos a b Hb ltac:(lia)).
        apply (Z.mod_unique_pos a b (Z.quot a b - 1)); lia.
      * assert (b < 0) by nia. pose proof (Z.rem_nonneg a b Hb ltac:(lia)).
        apply (Z.mod_unique_neg a b (Z.quot a b - 1)); lia.
  - rewrite Z.add_0_r. pose proof (Z.quot_rem' a b) as Hq. pose proof (Z.rem_bound_abs a b Hb).
    destruct (decide (0 < b)).
    + assert (0 ≤ a) by nia. apply Z.rem_mod_nonneg; lia.
    + assert (a ≤ 0) by nia. pose proof (Z.rem_nonpos a b Hb ltac:(lia)).
      apply (Z.mod_unique_neg a b (Z.quot a b)); lia.
Qed.

(** ** Division by zero *)
Lemma with_local_none `{U : Uninit} {A} m (k : ptr → M A) (s : store) :
  Nat.Even m → (2 ≤ m ≤ 254)%nat →
  (∀ p L, s !! p = None → k p (<[p := L]> s) = None) →
  with_local m (λ p, int_init_concrete m p ;; k p) s = None.
Proof.
  intros He Hm Hk. unfold with_local, with_object.
  set (p := fresh_ptr s). pose proof (fresh_ptr_None s : s !! p = None) as Hp.
  destruct (uninit_take m) as [Hl Hd]; [lia|].
  destruct (int_init_concrete_run m p (set_h_ (take m (h_ uninit)) uninit)
    (<[p := set_h_ (take m (h_ uninit)) uninit]> s)) as (L & EL & _); [lk|done..|].
  step_with EL. rewrite insert_insert_eq. by rewrite Hk.
Qed.

(** [assert(testDenominator != 0)] fails. *)
Lemma int_div_zero_run `{U : Uninit} n d q r no do_ (s : store) :
  s !! n = Some no → s !! d = Some do_ → wf no → wf do_ → mag do_ = 0 →
  (∀ r', r = Some r' → ∃ ro, s !! r' = Some ro ∧ alloc ro) →
  int_div n d q r s = None.
Proof.
  intros En Ed Wn Wd Hz Hr. pose proof (mag_nonneg no ltac:(auto)).
  unfold int_div. step. step. step_with (int_is_abs_run n d no do_ s En Ed Wn Wd).
  rewrite decide_False.
  2:{ rewrite Hz. destruct (Z.compare_spec (mag no) 0); [done|lia|done]. }
  apply (mag_zero_iff do_ Wd) in Hz as [Hd1 Hd0].
  assert (div_long n d q r (neg_ no) (neg_ do_) s = None) as HN.
  { unfold div_long.
    assert (Nat.Even 254) as Hev by (by exists 127%nat).
    apply with_local_none; [done|lia|]. intros p1 L1 HL1.
    apply with_local_none; [done|lia|]. intros p2 L2 HL2. apply lookup_insert_None in HL2 as [HL2 ?].
    apply with_local_none; [done|lia|]. intros p3 L3 HL3. do 2 apply lookup_insert_None in HL3 as [HL3 ?].
    apply with_local_none; [done|lia|]. intros p4 L4 HL4. do 3 apply lookup_insert_None in HL4 as [HL4 ?].
    assert (d ≠ p1 ∧ d ≠ p2 ∧ d ≠ p3 ∧ d ≠ p4) as (? & ? & ? & ?) by (repeat split; congruence).
    unfold div_long_body. step. rewrite Hd1. simpl (1 - 1)%nat.
    pose proof (wf_words do_ Wd) as Hw. destruct (half_up (d_ do_)).
    erewrite st_bind_run; [|eapply rd_h_run; [lk|lia]]. cbv beta. by rewrite Hd0. }
  destruct r as [r'|]; [|done]. destruct (Hr r' eq_refl) as (ro & Er & Ar).
  erewrite st_bind_run; [|step; done].
  rewrite (proj2 (Nat.ltb_ge _ _)); [done|]. rewrite Hd1. pose proof (al_m ro Ar). lia.
Qed.
