(* ===== verification/IntSpec.v ===== *)
(** * The arbitrary-precision integers: what they promise

    The properties of [big-int.c] and of the integer operators of [vm.c],
    each with an instance at concrete objects. *)
From S2P Require Export IntOps.

(** ** [int_invariant] *)
Definition int_invariant (i : ptr) : M () :=
  io ← get i;
  st_assert (negb (overflow_ io)) ;;
  st_assert (Nat.even (m_ io)) ;;
  st_assert ((1 <=? d_ io)%nat && (d_ io <=? m_ io)%nat) ;;
  (if (d_ io mod 2 =? 1)%nat then v ← rd_h i (d_ io); st_assert (v =? 0) else mret ()) ;;
  (if (1 <? d_ io)%nat then v ← rd_h i (d_ io - 1); st_assert (negb (v =? 0)) else mret ()).

(** ** Helpers for the instances *)
Definition wfb (i : Int) : bool :=
  (length (h_ i) =? m_ i)%nat && Nat.even (m_ i) && (2 <=? m_ i)%nat && (m_ i <=? 254)%nat &&
  forallb (λ v, (0 <=? v) && (v <? BASE)) (h_ i) && (1 <=? d_ i)%nat && (d_ i <=? m_ i)%nat &&
  (Nat.even (d_ i) || (dg (h_ i) (d_ i) =? 0)) &&
  ((d_ i <=? 1)%nat || negb (dg (h_ i) (d_ i - 1) =? 0)).

Lemma wfb_wf i : wfb i = true → wf i.
Proof.
  unfold wfb. rewrite !andb_true_iff. intros [[[[[[[[H1 H2] H3] H4] H5] H6] H7] H8] H9].
  apply Nat.eqb_eq in H1. apply Nat.even_spec in H2. apply Nat.leb_le in H3, H4, H6, H7.
  split; [split; [split; [done|done|lia|]|lia]| |].
  - apply Forall_forall. intros v Hv. rewrite forallb_forall in H5.
    specialize (H5 v Hv). apply andb_prop in H5 as [Ha Hb].
    apply Z.leb_le in Ha. apply Z.ltb_lt in Hb. done.
  - intros Ho. apply orb_prop in H8 as [He|Hz]; [|by apply Z.eqb_eq].
    apply Nat.even_spec in He. by destruct (Nat.Even_Odd_False _ He Ho).
  - intros Hd. apply orb_prop in H9 as [He|Hz]; [apply Nat.leb_le in He; lia|].
    by apply negb_true_iff, Z.eqb_neq in Hz.
Qed.

(** Indeterminate memory, for the instances. *)
Definition noise : Int := mkInt true true false true 91 3 (replicate 254 48879).
Lemma noise_length : (254 ≤ length (h_ noise))%nat.
Proof. simpl. lia. Qed.
Lemma noise_digits : Forall (λ v, 0 ≤ v < 65536) (h_ noise).
Proof. by apply Forall_replicate. Qed.
Definition Noise : Uninit := {| uninit := noise; uninit_length := noise_length; uninit_digits := noise_digits |}.

Definition neg_seven : Int := mkInt true false false false 1 2 [7; 0].
Definition three : Int := mkInt false false false false 1 2 [3; 0].
Definition big : Int := mkInt false false true false 3 4 [1; 2; 3; 0].
Definition blank : Int := mkInt false false true false 1 4 [0; 0; 0; 0].
Abbreviation ex_store := (<[4%positive := blank]> (<[3%positive := big]>
  (<[2%positive := three]> (<[1%positive := neg_seven]> (∅ : store))))).

Lemma neg_seven_wf : wf neg_seven.
Proof. by apply wfb_wf. Qed.
Lemma three_wf : wf three.
Proof. by apply wfb_wf. Qed.
Lemma big_wf : wf big.
Proof. by apply wfb_wf. Qed.
Lemma blank_wf : wf blank.
Proof. by apply wfb_wf. Qed.
#[export] Hint Resolve neg_seven_wf three_wf big_wf blank_wf : core.

(** ** Conversions *)
Lemma int_to_i64_run i io (s : store) :
  s !! i = Some io → wf io →
  int_to_i64 i s = Some (if neg_ io then Z.max INT64_MIN (- (mag io mod 2 ^ 64)) else mag io mod 2 ^ 63, s).
Proof.
  intros E W. unfold int_to_i64. step. step_with (four_digits_run i io s E W).
  pose proof (Z.mod_pos_bound (mag io) (2 ^ 64) ltac:(lia)) as Hb. unfold INT64_MIN.
  destruct (neg_ io).
  - destruct (Z.leb_spec 9223372036854775808 (mag io mod 2 ^ 64)).
    + rewrite st_ret_run. do 2 f_equal. lia.
    + rewrite st_ret_run. unfold i64. rewrite swrap_small by lia. do 2 f_equal. lia.
  - rewrite st_ret_run. do 2 f_equal. change 9223372036854775807 with (Z.ones 63).
    rewrite Z.land_ones by lia. rewrite <-Znumtheory.Zmod_div_mod; [|lia|lia|by exists 2].
    pose proof (Z.mod_pos_bound (mag io) (2 ^ 63) ltac:(lia)).
    unfold i64. by rewrite swrap_small by lia.
Qed.

Lemma int_to_u64_run i io (s : store) :
  s !! i = Some io → wf io →
  int_to_u64 i s = Some (if neg_ io then 0 else mag io mod 2 ^ 64, s).
Proof.
  intros E W. unfold int_to_u64. step. step_with (four_digits_run i io s E W). done.
Qed.

Lemma int_to_i32_run i io (s : store) :
  s !! i = Some io → wf io →
  int_to_i32 i s =
    if neg_ io then if mag io mod 2 ^ 32 <? 2 ^ 31 then Some (- (mag io mod 2 ^ 32), s) else None
    else Some (Z.min (mag io mod 2 ^ 32) (2 ^ 31 - 1), s).
Proof.
  intros E W. unfold int_to_i32. step. step_with (rd_w0_run i io s E W).
  pose proof (Z.mod_pos_bound (mag io) (2 ^ 32) ltac:(lia)) as Hb.
  set (r := mag io mod 2 ^ 32) in *. destruct (neg_ io).
  - destruct (Z.ltb_spec r (2 ^ 31)) as [Hr|Hr].
    + rewrite (proj2 (Z.ltb_ge _ _)) by lia. unfold i32. rewrite swrap_small by lia.
      erewrite st_bind_run; [done|apply st_assert_run]. by rewrite (proj2 (Z.eqb_neq _ _)) by lia.
    + assert ((if 2147483648 <? r then u32 (- 2147483648) else r) = 2147483648) as ->.
      { destruct (Z.ltb_spec 2147483648 r); [done|lia]. }
      done.
  - rewrite st_ret_run. do 2 f_equal. destruct (Z.ltb_spec 2147483647 r).
    + change (i32 2147483647) with 2147483647. lia.
    + unfold i32. rewrite swrap_small by lia. lia.
Qed.

Lemma mag_of_val i b : wf i → neg_ i = b → mag i = if b then - val i else val i.
Proof. intros W <-. unfold val. destruct (neg_ i); lia. Qed.

(** ** Properties *)

(** C9. [binaryIntOp] always returns a new object: the exact sum, difference,
    product, truncated quotient or adjusted remainder of its operands when
    that has at most 254 digits, and otherwise an object whose overflow flag
    is set.  No operand changes, even if both are one object, and every local
    is gone. *)
Theorem binaryIntOp_correct `{U : Uninit} (c : int_op) a b ao bo (s : store) :
  s !! a = Some ao → s !! b = Some bo → wf ao → wf bo → overflow_ ao = false →
  (c = OpDivide ∨ c = OpModulo → mag bo ≠ 0) →
  ∃ p R, binaryIntOp c a b s = Some (p, <[p := R]> s) ∧ s !! p = None ∧ literal_ R = false ∧
    let v := int_op_spec c (val ao) (val bo) in
    ((Z.abs v < Bp 254 ∧ wf R ∧ val R = v ∧ overflow_ R = false) ∨
     (Bp 254 ≤ Z.abs v ∧ overflow_ R = true)).
Proof.
  intros Ea Eb Wa Wb Oa HD.
  destruct (binaryIntOp_run a b ao bo s Ea Eb Wa Wb Oa c HD) as (p & R & E & Hp & HL & HR).
  by exists p, R.
Qed.

Lemma binaryIntOp_correct_witness :
  ∃ p R, @binaryIntOp Noise OpModulo 1%positive 2%positive ex_store = Some (p, <[p := R]> ex_store) ∧
    ex_store !! p = None ∧ literal_ R = false ∧
    let v := int_op_spec OpModulo (val neg_seven) (val three) in
    ((Z.abs v < Bp 254 ∧ wf R ∧ val R = v ∧ overflow_ R = false) ∨
     (Bp 254 ≤ Z.abs v ∧ overflow_ R = true)).
Proof.
  apply (@binaryIntOp_correct Noise OpModulo 1%positive 2%positive neg_seven three ex_store);
    [reflexivity|reflexivity|apply neg_seven_wf|apply three_wf|reflexivity|].
  intros _. vm_compute. discriminate.
Defined.

(** C27. [int_add] and [int_sub] in place: operands and result may be any
    objects, the same one three times included.  The result is the exact
    value in normal form if it fits the halfwords allocated to it; otherwise
    the overflow flag is raised.  Nothing but the result object changes. *)
Theorem int_add_sub_exact (sub : bool) a b r ao bo ro (s : store) :
  s !! a = Some ao → s !! b = Some bo → s !! r = Some ro → wf ao → wf bo → alloc ro →
  let v := if sub then val ao - val bo else val ao + val bo in
  ∃ R, (if sub then int_sub a b r else int_add a b r) s = Some ((), <[r := R]> s) ∧ kept ro R ∧
    ((Z.abs v < Bp (m_ ro) ∧ wf R ∧ val R = v ∧ overflow_ R = overflow_ ro) ∨
     (Bp (m_ ro) ≤ Z.abs v ∧ alloc R ∧ overflow_ R = true)).
Proof.
  intros Ea Eb Er Wa Wb Ar v. destruct sub.
  - destruct (int_sub_run a b r ao bo ro s Ea Eb Er Wa Wb Ar) as (R & E & HK & HL).
    exists R. unfold v. tauto.
  - destruct (int_add_run a b r ao bo ro s Ea Eb Er Wa Wb Ar) as (R & E & HK & HL).
    exists R. unfold v. tauto.
Qed.

Lemma int_add_sub_exact_witness :
  let v := val big - val big in
  ∃ R, int_sub 3%positive 3%positive 3%positive ex_store = Some ((), <[3%positive := R]> ex_store) ∧
    kept big R ∧
    ((Z.abs v < Bp (m_ big) ∧ wf R ∧ val R = v ∧ overflow_ R = overflow_ big) ∨
     (Bp (m_ big) ≤ Z.abs v ∧ alloc R ∧ overflow_ R = true)).
Proof.
  apply (int_add_sub_exact true 3%positive 3%positive 3%positive big big big ex_store);
    [reflexivity|reflexivity|reflexivity|apply big_wf|apply big_wf|apply safe_alloc, wf_safe, big_wf].
Defined.

(** [int_mul] terminates for every pair of operands and result object
    with room for a zero of their lengths: it leaves the exact product with
    the product of the signs, and raises the overflow flag exactly when the
    product does not fit. *)
Theorem int_mul_exact `{U : Uninit} a b r ao bo ro (s : store) :
  s !! a = Some ao → s !! b = Some bo → s !! r = Some ro → a ≠ r → b ≠ r →
  wf ao → wf bo → alloc ro → (mag ao = 0 ∨ mag bo = 0 → (d_ ao ≤ m_ ro ∧ d_ bo ≤ m_ ro)%nat) →
  ∃ R, int_mul a b r s = Some ((), <[r := R]> s) ∧ kept ro R ∧
    (overflow_ R = true ↔ Bp (m_ ro) ≤ Z.abs (val ao * val bo)) ∧
    (overflow_ R = false → wf R ∧ val R = val ao * val bo).
Proof.
  intros Ea Eb Er Na Nb Wa Wb Ar Hz.
  destruct (int_mul_run a b r ao bo ro s Ea Eb Er Na Nb Wa Wb Ar Hz)
    as (R & E & HK & _ & [(H1 & H2 & H3 & H4)|(H1 & H2 & H3)]); exists R.
  - split; [done|]. split; [done|]. split; [|done]. rewrite H4. split; [done|lia].
  - split; [done|]. split; [done|]. split; [done|]. by rewrite H3.
Qed.

Lemma int_mul_exact_witness :
  ∃ R, @int_mul Noise 1%positive 3%positive 4%positive ex_store = Some ((), <[4%positive := R]> ex_store) ∧
    kept blank R ∧ (overflow_ R = true ↔ Bp (m_ blank) ≤ Z.abs (val neg_seven * val big)) ∧
    (overflow_ R = false → wf R ∧ val R = val neg_seven * val big).
Proof.
  apply (@int_mul_exact Noise 1%positive 3%positive 4%positive neg_seven big blank ex_store);
    [reflexivity|reflexivity|reflexivity|discriminate|discriminate|apply neg_seven_wf|apply big_wf
    |apply safe_alloc, wf_safe, blank_wf|].
  intros _. split; vm_compute; lia.
Defined.

(** C15. [int_div] terminates on every non-zero divisor and leaves the
    truncated quotient at [q] and the adjusted remainder at [r]; [q] may be
    the numerator.  Every other object is as before, and its four locals are
    gone. *)
Theorem int_div_correct `{U : Uninit} n d q r no do_ qo ro (s : store) :
  s !! n = Some no → s !! d = Some do_ → s !! q = Some qo → s !! r = Some ro →
  wf no → wf do_ → alloc qo → alloc ro → q ≠ d → r ≠ q → r ≠ d → r ≠ n →
  overflow_ no = false → overflow_ ro = false → mag do_ ≠ 0 →
  mag no / mag do_ < Bp (m_ qo) → rem_room no do_ ro →
  ∃ Q R, int_div n d q (Some r) s = Some ((), <[r := R]> (<[q := Q]> s)) ∧
    wf Q ∧ val Q = Z.quot (val no) (val do_) ∧ overflow_ Q = false ∧ m_ Q = m_ qo ∧
    wf R ∧ val R = yarg_rem (val no) (val do_) ∧ overflow_ R = false ∧ kept ro R.
Proof.
  intros En Ed Eq Er Wn Wd Aq Ar Nqd Nrq Nrd Nrn On Or HD Hfit Hroom.
  destruct (int_div_run n d q (Some r) no do_ qo s En Ed Eq Wn Wd Aq Nqd HD Hfit) as (s' & E & HP).
  { intros r' [= <-]. split_and!; try done. exists ro. by rewrite On, Or. }
  apply div_post_store in HP as (Q & R & ro' & -> & Er' & MQ & WQ & OQ & VQ & KR & WR & OR & VR); [|done].
  exists Q, R. split_and!; try done; [congruence|].
  assert (ro' = ro) as -> by congruence. done.
Qed.

Lemma int_div_correct_witness :
  ∃ Q R, @int_div Noise 3%positive 1%positive 3%positive (Some 4%positive) ex_store
      = Some ((), <[4%positive := R]> (<[3%positive := Q]> ex_store)) ∧
    wf Q ∧ val Q = Z.quot (val big) (val neg_seven) ∧ overflow_ Q = false ∧ m_ Q = m_ big ∧
    wf R ∧ val R = yarg_rem (val big) (val neg_seven) ∧ overflow_ R = false ∧ kept blank R.
Proof.
  apply (@int_div_correct Noise 3%positive 1%positive 3%positive 4%positive big neg_seven big blank ex_store);
    [reflexivity|reflexivity|reflexivity|reflexivity|apply big_wf|apply neg_seven_wf
    |apply safe_alloc, wf_safe, big_wf|apply safe_alloc, wf_safe, blank_wf
    |discriminate|discriminate|discriminate|discriminate|reflexivity|reflexivity
    |vm_compute; discriminate|vm_compute; reflexivity|left; vm_compute; lia].
Defined.

(** A zero divisor is never divided by: whatever the numerator, [int_div]
    fails its assertion before it writes anything that is kept. *)
Theorem int_div_zero `{U : Uninit} n d q r no do_ (s : store) :
  s !! n = Some no → s !! d = Some do_ → wf no → wf do_ → val do_ = 0 →
  (∀ r', r = Some r' → ∃ ro, s !! r' = Some ro ∧ alloc ro) →
  int_div n d q r s = None.
Proof.
  intros En Ed Wn Wd Hz Hr. apply (int_div_zero_run n d q r no do_ s En Ed Wn Wd); [|done].
  unfold val in Hz. destruct (neg_ do_); lia.
Qed.

Lemma int_div_zero_witness :
  @int_div Noise 3%positive 4%positive 2%positive None ex_store = None.
Proof.
  apply (@int_div_zero Noise 3%positive 4%positive 2%positive None big blank ex_store);
    [reflexivity|reflexivity|apply big_wf|apply blank_wf|reflexivity|discriminate].
Defined.

(** C23. Decimal text round-trips: what [int_to_s] writes for an integer,
    [int_set_s] reads back as the same integer, into any object with enough
    halfwords.  [int_to_s] never writes outside a buffer of
    [INT_STRLEN_FOR_INT254] characters. *)
Theorem text_roundtrip `{U : Uninit} i j io jo buf (s : store) :
  s !! i = Some io → s !! j = Some jo → wf io → overflow_ io = false → alloc jo →
  mag io < Bp (m_ jo) → length buf = INT_STRLEN_FOR_INT254 →
  ∃ buf' out t J, int_to_s i buf s = Some ((buf', out), s) ∧
    0 ≤ out ∧ drop (Z.to_nat out) buf' = t ++ [0] ∧
    int_set_s t j s = Some ((), <[j := J]> s) ∧ wf J ∧ val J = val io.
Proof.
  intros Ei Ej Wi Oi Aj Hfit Hb. pose proof (al_m io ltac:(auto)).
  destruct (int_to_s_run i io buf s Ei Wi Oi) as (buf' & out & t & E & _ & Ho & Ht & HT).
  { rewrite Hb. unfold INT_STRLEN_FOR_INT254. split; [lia|].
    pose proof (wf_mag_lt_m io Wi). pose proof (Bp_le (m_ io) 254 ltac:(lia)).
    assert (Bp 254 < 10 ^ 1224) by (vm_compute; done).
    eapply Z.lt_le_trans; [|apply (Z.pow_le_mono_r 10 1224); destruct (neg_ io); lia]. lia. }
  destruct (text_of_val io t HT) as (Hd & Hm & Hv).
  destruct (int_set_s_run t j jo s Ej Aj Hd ltac:(by rewrite Hm)) as (J & EJ & WJ & _ & _ & _ & VJ).
  exists buf', out, t, J. split_and!; try done. congruence.
Qed.

Lemma text_roundtrip_witness :
  ∃ buf' out t J, @int_to_s Noise 1%positive (replicate 1226 1) ex_store = Some ((buf', out), ex_store) ∧
    0 ≤ out ∧ drop (Z.to_nat out) buf' = t ++ [0] ∧
    @int_set_s Noise t 4%positive ex_store = Some ((), <[4%positive := J]> ex_store) ∧
    wf J ∧ val J = val neg_seven.
Proof.
  apply (@text_roundtrip Noise 1%positive 4%positive neg_seven blank (replicate 1226 1) ex_store);
    [reflexivity|reflexivity|apply neg_seven_wf|reflexivity|apply safe_alloc, wf_safe, blank_wf
    |vm_compute; reflexivity|reflexivity].
Defined.

(** The text [int_to_s] writes is the canonical numeral: only decimal
    digits, no superfluous leading zero, "0" for zero, and a '-' in front of
    negative numbers only, in any buffer of sufficient length; the text ends
    at the end of the buffer. *)
Theorem int_to_s_canonical `{U : Uninit} i io buf (s : store) :
  s !! i = Some io → wf io → overflow_ io = false → text_room io (length buf) →
  ∃ buf' out ds, int_to_s i buf s = Some ((buf', out), s) ∧ length buf' = length buf ∧ 0 ≤ out ∧
    drop (Z.to_nat out) buf' = (if val io <? 0 then [45] else []) ++ ds ++ [0] ∧
    canonical ds ∧ dval ds = Z.abs (val io).
Proof.
  intros E W O Hr. destruct (int_to_s_run i io buf s E W O Hr) as (b & out & t & Er & L & Ho & Ht & ds & Hc & Hv & ->).
  exists b, out, ds. split_and!; try done; [|by rewrite val_abs by auto].
  rewrite Ht, <-app_assoc. f_equal. pose proof (mag_nonneg io ltac:(auto)). unfold val.
  destruct (neg_ io), (Z.eqb_spec (mag io) 0); cbn [andb negb];
    match goal with |- context [?x <? 0] => destruct (Z.ltb_spec x 0) end; try done; lia.
Qed.

Lemma int_to_s_canonical_witness :
  ∃ buf' out ds, @int_to_s Noise 1%positive [9; 9; 9; 9] ex_store = Some ((buf', out), ex_store) ∧
    length buf' = 4%nat ∧ 0 ≤ out ∧
    drop (Z.to_nat out) buf' = (if val neg_seven <? 0 then [45] else []) ++ ds ++ [0] ∧
    canonical ds ∧ dval ds = Z.abs (val neg_seven).
Proof.
  apply (@int_to_s_canonical Noise 1%positive neg_seven [9; 9; 9; 9] ex_store);
    [reflexivity|apply neg_seven_wf|reflexivity|split; [simpl; lia|vm_compute; reflexivity]].
Defined.

(** Halfwords for a numeral of [n] digits, rounded up to a whole word as
    [newExprNumberInt] does. *)
Definition numeral_size (n : nat) : nat := Z.to_nat (u8 (INT_DIGITS_FOR_S (Z.of_nat n))).
Definition literal_digits (n : nat) : nat :=
  let s := numeral_size n in ((s + s mod 2) mod 256)%nat.

(** The sizes of all literals up to the limit, with the powers that they are
    compared with computed along the way. *)
Section Sizes.
Variable f : nat → nat.
Fixpoint sizes_ok (k n : nat) (p : Z) (s : nat) (q : Z) : bool :=
  match k with
  | O => true
  | S k' =>
      let s' := f (S n) in
      let q' := if (s' =? s)%nat then q else BASE * q in
      ((s' =? s)%nat || (s' =? S s)%nat) && (10 * p <=? q') && (s' <=? 254)%nat &&
      sizes_ok k' (S n) (10 * p) s' q'
  end.

Lemma sizes_ok_spec k : ∀ n p s q,
  sizes_ok k n p s q = true → p = 10 ^ Z.of_nat n → q = Bp s →
  ∀ j, (n < j ≤ n + k)%nat → 10 ^ Z.of_nat j ≤ Bp (f j) ∧ (f j ≤ 254)%nat.
Proof.
  induction k as [|k IH]; intros n p s q H Hp Hq j Hj; [lia|]. cbn [sizes_ok] in H. cbv zeta in H.
  rewrite !andb_true_iff, orb_true_iff in H. destruct H as [[[Hs Hle] H254] H].
  apply Z.leb_le in Hle. apply Nat.leb_le in H254.
  assert ((if (f (S n) =? s)%nat then q else BASE * q) = Bp (f (S n))) as Eq.
  { destruct (Nat.eqb_spec (f (S n)) s) as [->|]; [done|].
    destruct Hs as [Hs|Hs]; [done|]. apply Nat.eqb_eq in Hs. by rewrite Hs, Bp_S, Hq. }
  assert (10 * p = 10 ^ Z.of_nat (S n)) as Ep by (rewrite Nat2Z.inj_succ, Z.pow_succ_r by lia; lia).
  destruct (decide (j = S n)) as [->|Hne]; [rewrite <-Ep, <-Eq; done|].
  apply (IH _ _ _ _ H Ep Eq). lia.
Qed.
End Sizes.

Lemma literal_sizes : sizes_ok numeral_size 1223 0 1 0 1 = true.
Proof. vm_compute. reflexivity. Qed.

Lemma literal_size n : (1 ≤ n ≤ 1223)%nat → 10 ^ Z.of_nat n ≤ Bp (literal_digits n).
Proof.
  intros Hn. destruct (sizes_ok_spec numeral_size _ _ _ _ _ literal_sizes eq_refl eq_refl n ltac:(lia)) as [Hp Hs].
  unfold literal_digits. cbv zeta. destruct (even_round (numeral_size n)) as [[k Hk] Hr].
  rewrite Nat.mod_small by lia. etransitivity; [exact Hp|]. apply Bp_le. lia.
Qed.

(** [INT_DIGITS_FOR_S] is enough: an integer literal of up to 1223 digits
    is read without overflow into the object [newExprNumberInt] allocates for
    it. *)
Theorem literal_fits `{U : Uninit} ds i io (s : store) :
  s !! i = Some io → alloc io → m_ io = literal_digits (length ds) →
  Forall dec_digit ds → (1 ≤ length ds ≤ 1223)%nat →
  ∃ R, int_set_s ds i s = Some ((), <[i := R]> s) ∧ wf R ∧ overflow_ R = false ∧ val R = dval ds.
Proof.
  intros E A M Hd Hn. destruct ds as [|c t]; [simpl in Hn; lia|].
  assert (split_sign (c :: t) = (false, c :: t)) as Es.
  { unfold split_sign. apply list.Forall_cons in Hd as [Hc _]. unfold dec_digit in Hc.
    by rewrite (proj2 (Z.eqb_neq _ _)) by lia. }
  pose proof (literal_size _ Hn) as Hs. rewrite <-M in Hs.
  pose proof (dval_bound _ Hd).
  destruct (int_set_s_run (c :: t) i io s E A) as (R & ER & WR & OR & _ & _ & VR);
    rewrite ?Es; [done|cbn [snd]; lia|].
  exists R. unfold text_val in VR. rewrite Es in VR. done.
Qed.

Lemma literal_fits_witness :
  ∃ R, @int_set_s Noise [52; 50; 57; 52; 57; 54; 55; 50; 57; 54] 4%positive ex_store
      = Some ((), <[4%positive := R]> ex_store) ∧ wf R ∧ overflow_ R = false ∧
    val R = dval [52; 50; 57; 52; 57; 54; 55; 50; 57; 54].
Proof.
  apply (@literal_fits Noise [52; 50; 57; 52; 57; 54; 55; 50; 57; 54] 4%positive blank ex_store);
    [reflexivity|apply safe_alloc, wf_safe, blank_wf|vm_compute; reflexivity
    |repeat constructor; discriminate|simpl; lia].
Defined.

(** The comparisons order integers by value; +0 and -0 are equal, and an
    object is equal to itself. *)
Theorem int_is_order a b ao bo (s : store) :
  s !! a = Some ao → s !! b = Some bo → wf ao → wf bo →
  (int_is a b s = Some (INT_LT, s) ↔ val ao < val bo) ∧
  (int_is a b s = Some (INT_EQ, s) ↔ val ao = val bo) ∧
  (int_is a b s = Some (INT_GT, s) ↔ val ao > val bo) ∧
  int_is_zero a s = Some (val ao =? 0, s) ∧
  (∀ op, binaryIntBoolOp op a b s =
     Some (match op with OpLess => val ao <? val bo | OpGreater => val bo <? val ao
           | OpEqual => val ao =? val bo end, s)).
Proof.
  intros Ea Eb Wa Wb. rewrite (int_is_run a b ao bo s Ea Eb Wa Wb), (int_is_zero_run a ao s Ea Wa).
  do 3 (split; [destruct (Z.compare_spec (val ao) (val bo)); cbn [int_comp]; split; congruence || lia|]).
  split.
  - assert ((val ao =? 0) = (mag ao =? 0)) as ->; [|done].
    unfold val. destruct (neg_ ao), (Z.eqb_spec (mag ao) 0);
      first [done | apply Z.eqb_eq; lia | apply Z.eqb_neq; lia].
  - intros op. by apply binaryIntBoolOp_run.
Qed.

Lemma int_is_order_witness :
  (int_is 1%positive 2%positive ex_store = Some (INT_LT, ex_store) ↔ val neg_seven < val three) ∧
  (int_is 1%positive 2%positive ex_store = Some (INT_EQ, ex_store) ↔ val neg_seven = val three) ∧
  (int_is 1%positive 2%positive ex_store = Some (INT_GT, ex_store) ↔ val neg_seven > val three) ∧
  int_is_zero 1%positive ex_store = Some (val neg_seven =? 0, ex_store) ∧
  (∀ op, binaryIntBoolOp op 1%positive 2%positive ex_store =
     Some (match op with OpLess => val neg_seven <? val three | OpGreater => val three <? val neg_seven
           | OpEqual => val neg_seven =? val three end, ex_store)).
Proof.
  apply (int_is_order 1%positive 2%positive neg_seven three ex_store);
    [reflexivity|reflexivity|apply neg_seven_wf|apply three_wf].
Defined.

Lemma conversions_run i io (s : store) :
  s !! i = Some io → wf io →
  (INT64_MIN ≤ val io ≤ INT64_MAX → int_to_i64 i s = Some (val io, s)) ∧
  (0 ≤ val io ≤ UINT64_MAX → int_to_u64 i s = Some (val io, s)) ∧
  (- 2 ^ 31 < val io < 2 ^ 31 → int_to_i32 i s = Some (val io, s)) ∧
  (0 ≤ val io < 2 ^ 32 → int_to_u32 i s = Some (val io, s)) ∧
  (val io = - 2 ^ 31 → int_to_i32 i s = None).
Proof.
  intros E W. unfold INT64_MIN, INT64_MAX, UINT64_MAX. pose proof (mag_nonneg io ltac:(auto)).
  rewrite (int_to_i64_run i io s E W), (int_to_u64_run i io s E W), (int_to_i32_run i io s E W).
  unfold int_to_u32. rewrite (rd_w0_run i io s E W). unfold val.
  destruct (neg_ io); split_and!; intros Hv.
  all: try (rewrite !Z.mod_small by lia; unfold INT64_MIN; f_equal; f_equal; lia).
  - assert (mag io = 0) as -> by lia. done.
  - rewrite Z.mod_small by lia. by rewrite (proj2 (Z.ltb_lt _ _)) by lia.
  - assert (mag io = 2 ^ 31) as -> by lia. done.
Qed.

(** C35. A machine integer survives the way into an object with at least four
    halfwords and back, at 64 bits; and the conversions return every value of
    their type, except the least [int32_t], for which [int_to_i32] negates a
    value that has no negation. *)
Theorem conversions_exact i io (s : store) :
  s !! i = Some io → wf io → (4 <= m_ io)%nat →
  (∀ v, INT64_MIN ≤ v ≤ INT64_MAX →
     ∃ s', int_set_i v i s = Some ((), s') ∧ int_to_i64 i s' = Some (v, s')) ∧
  (∀ v, 0 ≤ v ≤ UINT64_MAX →
     ∃ s', int_set_u v i s = Some ((), s') ∧ int_to_u64 i s' = Some (v, s')) ∧
  (- 2 ^ 31 < val io < 2 ^ 31 → int_to_i32 i s = Some (val io, s)) ∧
  (0 ≤ val io < 2 ^ 32 → int_to_u32 i s = Some (val io, s)) ∧
  (val io = - 2 ^ 31 → int_to_i32 i s = None).
Proof.
  intros E W Hm. destruct (conversions_run i io s E W) as (_ & _ & H32 & HU32 & Hleast).
  assert (Bp 4 ≤ Bp (m_ io)) as HB by (apply Bp_le; lia). change (Bp 4) with (2 ^ 64) in HB.
  split; [|split; [|done]]; intros v Hv.
  - destruct (int_set_i_run v i io s E ltac:(auto) Hv) as (R & ER & _ & _ & _ & _ & HR).
    unfold INT64_MIN, INT64_MAX in *. destruct HR as [WR VR]; [lia|].
    exists (<[i := R]> s). split; [done|]. rewrite <-VR.
    apply (conversions_run i R _ (lookup_insert_eq _ _ _) WR). rewrite VR. unfold INT64_MIN, INT64_MAX. lia.
  - destruct (int_set_u_run v i io s E ltac:(auto) ltac:(lia)) as (R & ER & _ & _ & Hneg & _ & HR).
    unfold UINT64_MAX in *. destruct HR as [WR VR]; [lia|].
    exists (<[i := R]> s). split; [done|].
    assert (val R = v) as VR' by (unfold val; rewrite Hneg; lia). rewrite <-VR'.
    apply (conversions_run i R _ (lookup_insert_eq _ _ _) WR). rewrite VR'. unfold UINT64_MAX. lia.
Qed.

Lemma conversions_exact_witness :
  (∀ v, INT64_MIN ≤ v ≤ INT64_MAX →
     ∃ s', int_set_i v 3%positive ex_store = Some ((), s') ∧ int_to_i64 3%positive s' = Some (v, s')) ∧
  (∀ v, 0 ≤ v ≤ UINT64_MAX →
     ∃ s', int_set_u v 3%positive ex_store = Some ((), s') ∧ int_to_u64 3%positive s' = Some (v, s')) ∧
  (- 2 ^ 31 < val big < 2 ^ 31 → int_to_i32 3%positive ex_store = Some (val big, ex_store)) ∧
  (0 ≤ val big < 2 ^ 32 → int_to_u32 3%positive ex_store = Some (val big, ex_store)) ∧
  (val big = - 2 ^ 31 → int_to_i32 3%positive ex_store = None).
Proof. apply (conversions_exact 3%positive big ex_store); [reflexivity|apply big_wf|simpl; lia]. Defined.

(** [int_is_range] places an integer of any size against bounds that are
    an [int64_t] and a [uint64_t]. *)
Theorem int_is_range_correct `{U : Uninit} i l u io (s : store) :
  s !! i = Some io → wf io → INT64_MIN ≤ l ≤ INT64_MAX → 0 ≤ u ≤ UINT64_MAX → l ≤ u →
  ∃ res, int_is_range i l u s = Some (res, s) ∧
    (res = INT_BELOW ↔ val io < l) ∧ (res = INT_WITHIN ↔ l ≤ val io ≤ u) ∧ (res = INT_ABOVE ↔ u < val io).
Proof.
  intros E W Hl Hu Hlu. eexists. split; [by apply (int_is_range_run i l u io s)|].
  destruct (Z.ltb_spec u (val io)), (Z.ltb_spec (val io) l); split_and!; split; congruence || lia.
Qed.

Lemma int_is_range_correct_witness :
  ∃ res, @int_is_range Noise 3%positive (-128) 127 ex_store = Some (res, ex_store) ∧
    (res = INT_BELOW ↔ val big < -128) ∧ (res = INT_WITHIN ↔ -128 ≤ val big ≤ 127) ∧
    (res = INT_ABOVE ↔ 127 < val big).
Proof.
  apply (@int_is_range_correct Noise 3%positive (-128) 127 big ex_store);
    [reflexivity|apply big_wf|split; vm_compute; discriminate|split; vm_compute; discriminate|lia].
Defined.

(** [int_shift] by [k] halfwords multiplies by 65536^k, or raises the
    overflow flag and keeps the value if that does not fit; by [-k] it divides. *)
Theorem int_shift_correct k i io (s : store) :
  s !! i = Some io → wf io →
  (∃ R, int_shift (Z.of_nat k) i s = Some ((), <[i := R]> s) ∧ wf R ∧
     ((Z.abs (val io) * Bp k < Bp (m_ io) ∧ val R = val io * Bp k ∧ overflow_ R = overflow_ io) ∨
      (Bp (m_ io) ≤ Z.abs (val io) * Bp k ∧ val R = val io ∧ overflow_ R = true))) ∧
  ((1 ≤ k ≤ d_ io)%nat →
   ∃ R, int_shift (- Z.of_nat k) i s = Some ((), <[i := R]> s) ∧ wf R ∧
     val R = Z.quot (val io) (Bp k) ∧ overflow_ R = overflow_ io).
Proof.
  intros E W. pose proof (mag_nonneg io ltac:(auto)). pose proof (Bp_pos k) as Hk. split.
  - destruct (int_shift_left_run k i io s E W) as (R & ER & (Hm & _) & HN & Hz & Hov & Hfit).
    exists R. split; [done|]. rewrite val_abs by auto. destruct (decide (mag io = 0)) as [Z0|NZ].
    + rewrite (Hz Z0). split; [done|]. left. rewrite Z0. pose proof (Bp_pos (m_ io)).
      split; [lia|]. split; [|done]. unfold val. rewrite Z0. by destruct (neg_ io).
    + destruct (decide (m_ io < d_ io + k)%nat) as [Hb|Hs].
      * rewrite (Hov NZ Hb). split.
        { destruct W as [[A D] P T]. split; [split; [by apply (alloc_eq io)|done]|done|done]. }
        right. split; [|done]. pose proof (safe_d io ltac:(auto)).
        pose proof (digits_pos (d_ io - 1) io W NZ ltac:(lia)) as Hl.
        pose proof (Bp_le (m_ io) (d_ io - 1 + k) ltac:(lia)) as Hle. rewrite Bp_add in Hle.
        etransitivity; [exact Hle|]. apply Z.mul_le_mono_nonneg_r; lia.
      * destruct (Hfit NZ ltac:(lia)) as (WR & MR & _ & OR). split; [done|]. left.
        pose proof (wf_mag_lt_m R WR) as Hlt. rewrite Hm, MR in Hlt. split; [done|]. split; [|done].
        unfold val. rewrite HN, MR. destruct (neg_ io); lia.
  - intros Hd. destruct (int_shift_right_run k i io s E W Hd) as (R & ER & _ & HN & OR & WR & MR & _).
    exists R. split_and!; try done. unfold val. rewrite HN, MR.
    destruct (neg_ io); rewrite ?Z.quot_opp_l by lia; by rewrite Z.quot_div_nonneg by lia.
Qed.

Lemma int_shift_correct_witness :
  (∃ R, int_shift 1 3%positive ex_store = Some ((), <[3%positive := R]> ex_store) ∧ wf R ∧
     ((Z.abs (val big) * Bp 1 < Bp (m_ big) ∧ val R = val big * Bp 1 ∧ overflow_ R = overflow_ big) ∨
      (Bp (m_ big) ≤ Z.abs (val big) * Bp 1 ∧ val R = val big ∧ overflow_ R = true))) ∧
  ((1 ≤ 1 ≤ d_ big)%nat →
   ∃ R, int_shift (- 1) 3%positive ex_store = Some ((), <[3%positive := R]> ex_store) ∧ wf R ∧
     val R = Z.quot (val big) (Bp 1) ∧ overflow_ R = overflow_ big).
Proof. apply (int_shift_correct 1 3%positive big ex_store); [reflexivity|apply big_wf]. Defined.

(** The fixed-width [%] of [OP_MODULO] agrees with the [%] of arbitrary
    integers at every signed width: no wrap-around, undefined only for a zero
    divisor and, at 32 and 64 bits, for the least value by -1. *)
Theorem modulo_widths_agree w a b :
  (w = 8 ∨ w = 16 ∨ w = 32 ∨ w = 64) → - 2 ^ (w - 1) ≤ a < 2 ^ (w - 1) → - 2 ^ (w - 1) ≤ b < 2 ^ (w - 1) →
  b ≠ 0 → (32 ≤ w → a = - 2 ^ (w - 1) → b ≠ -1) →
  modulo_signed w a b = Some (int_op_spec OpModulo a b) ∧
  - 2 ^ (w - 1) ≤ int_op_spec OpModulo a b < 2 ^ (w - 1).
Proof.
  intros Hw Ha Hb Hnz Hub. split; [apply modulo_signed_run|apply yarg_rem_range]; try done; lia.
Qed.

Lemma modulo_widths_agree_witness :
  modulo_signed 8 (-128) 100 = Some (int_op_spec OpModulo (-128) 100) ∧
  - 2 ^ (8 - 1) ≤ int_op_spec OpModulo (-128) 100 < 2 ^ (8 - 1).
Proof.
  apply (modulo_widths_agree 8 (-128) 100); [left; reflexivity|lia|lia|lia|lia].
Defined.

(** The language's [%] at any signed width is the floored remainder of
    Python except on exact multiples of opposite sign, where it is the divisor
    and not zero. *)
Theorem modulo_not_python w a b :
  (w = 8 ∨ w = 16 ∨ w = 32 ∨ w = 64) → - 2 ^ (w - 1) ≤ a < 2 ^ (w - 1) → - 2 ^ (w - 1) ≤ b < 2 ^ (w - 1) →
  b ≠ 0 → (32 ≤ w → a = - 2 ^ (w - 1) → b ≠ -1) →
  (modulo_signed w a b = Some (a mod b) ↔ ¬ (a * b < 0 ∧ a mod b = 0)) ∧
  (a * b < 0 → a mod b = 0 → modulo_signed w a b = Some b).
Proof.
  intros Hw Ha Hb Hnz Hub. rewrite modulo_signed_run by (done || lia).
  rewrite yarg_rem_floor by done. clear - Hnz.
  generalize (a * b), (a mod b). intros x m. split.
  - split; [intros [= E]|intros H; f_equal];
      revert E || revert H; destruct (Z.ltb_spec x 0), (Z.eqb_spec m 0); cbn [andb]; lia.
  - intros Hx ->. by rewrite (proj2 (Z.ltb_lt x 0)) by done.
Qed.

Lemma modulo_not_python_witness :
  (modulo_signed 8 (-9) 3 = Some ((-9) mod 3) ↔ ¬ (-9 * 3 < 0 ∧ (-9) mod 3 = 0)) ∧
  (-9 * 3 < 0 → (-9) mod 3 = 0 → modulo_signed 8 (-9) 3 = Some 3).
Proof. apply (modulo_not_python 8 (-9) 3); [left; reflexivity|lia|lia|lia|lia]. Defined.

(** [unaryIntOp] always returns a new object in normal form with the
    negated value, and changes no other. *)
Theorem unaryIntOp_correct `{U : Uninit} a ao (s : store) :
  s !! a = Some ao → wf ao →
  ∃ p R, unaryIntOp a s = Some (p, <[p := R]> s) ∧ s !! p = None ∧
    wf R ∧ val R = - val ao ∧ overflow_ R = overflow_ ao.
Proof.
  intros Ea Wa. destruct (unaryIntOp_run a ao s Ea Wa) as (p & R & E & Hp & W & V & O & _).
  by exists p, R.
Qed.

Lemma unaryIntOp_correct_witness :
  ∃ p R, @unaryIntOp Noise 3%positive ex_store = Some (p, <[p := R]> ex_store) ∧ ex_store !! p = None ∧
    wf R ∧ val R = - val big ∧ overflow_ R = overflow_ big.
Proof. apply (@unaryIntOp_correct Noise 3%positive big ex_store); [reflexivity|apply big_wf]. Defined.

(** [int_invariant] passes exactly on the objects in normal form whose
    overflow flag is clear. *)
Theorem int_invariant_iff i io (s : store) :
  s !! i = Some io → alloc io →
  (int_invariant i s = Some ((), s) ↔ wf io ∧ overflow_ io = false).
Proof.
  intros E A. pose proof (al_len io A). pose proof (al_m io A).
  unfold int_invariant. step. destruct (overflow_ io).
  { split; [done|by intros [_ ?]]. }
  step. erewrite st_bind_run by (apply st_assert_run, Nat.even_spec, A). cbv beta.
  destruct (Nat.leb_spec 1 (d_ io)), (Nat.leb_spec (d_ io) (m_ io)); cbn [andb];
    try (split; [done|intros [W _]; pose proof (safe_d io ltac:(auto)); lia]).
  step.
  assert ((d_ io mod 2 =? 1)%nat = Nat.odd (d_ io)) as ->.
  { rewrite <-Nat.bit0_odd, Nat.bit0_eqb. done. }
  assert (∀ (c : bool) k, (k < length (h_ io))%nat →
    (v ← rd_h i k; st_assert (if c then v =? 0 else negb (v =? 0))) s =
    if (if c then dg (h_ io) k =? 0 else negb (dg (h_ io) k =? 0)) then Some ((), s) else None) as Hrd.
  { intros c k Hk. erewrite st_bind_run by (by eapply rd_h_run). destruct c; unfold st_assert;
      destruct (dg (h_ io) k =? 0); done. }
  assert (Nat.odd (d_ io) = true → d_ io < length (h_ io))%nat as Hlt.
  { intros Ho. apply Nat.odd_spec in Ho. destruct (decide (d_ io = m_ io)) as [Em|]; [|lia].
    rewrite Em in Ho. by destruct (Nat.Even_Odd_False _ (al_even io A) Ho). }
  assert (wf io ↔ ((Nat.odd (d_ io) = true → dg (h_ io) (d_ io) = 0) ∧
    ((1 < d_ io)%nat → dg (h_ io) (d_ io - 1) ≠ 0))) as Hwf.
  { split.
    - intros W. split; [|apply W]. intros Ho. apply W. by apply Nat.odd_spec.
    - intros [Hp Ht]. split; [split; [done|lia]| |done]. intros Ho. apply Hp. by apply Nat.odd_spec. }
  rewrite Hwf. clear Hwf.
  assert ((if (1 <? d_ io)%nat then v ← rd_h i (d_ io - 1); st_assert (negb (v =? 0)) else mret ()) s
    = Some ((), s) ↔ ((1 < d_ io)%nat → dg (h_ io) (d_ io - 1) ≠ 0)) as Htop.
  { destruct (Nat.ltb_spec 1 (d_ io)); [|split; [lia|done]].
    rewrite (Hrd false (d_ io - 1)%nat) by lia.
    destruct (Z.eqb_spec (dg (h_ io) (d_ io - 1)) 0); cbn [negb]; split; try done.
    intros Hn. exfalso. by apply Hn. }
  destruct (Nat.odd (d_ io)).
  - rewrite (st_bind_run_or _ _ _ _ (Hrd true (d_ io) ltac:(auto))).
    destruct (Z.eqb_spec (dg (h_ io) (d_ io)) 0) as [Hz|Hz].
    + rewrite Htop. split; [done|]. by intros [[_ ?] _].
    + split; [done|]. intros [[Hp _] _]. by specialize (Hp eq_refl).
  - step. rewrite Htop. split; [done|]. by intros [[_ ?] _].
Qed.

Lemma int_invariant_iff_witness :
  int_invariant 3%positive ex_store = Some ((), ex_store) ↔ wf big ∧ overflow_ big = false.
Proof.
  apply (int_invariant_iff 3%positive big ex_store); [reflexivity|apply safe_alloc, wf_safe, big_wf].
Defined.
