(* ===== verification/Scanner.v ===== *)
(** * The scanner

    [cyarg/scanner.c] and [cyarg/scanner.h]: the tokens of a source text.  The
    scanner walks a zero-terminated string by pointer; here the string is the
    list of its character codes, and a pointer into it an index.  Reading the
    terminator is an access like any other, reading past it is undefined
    behaviour ([None]). *)
From Stdlib Require Import String Ascii.
From S2P Require Export Prelude.
Open Scope Z_scope.

Inductive TokenType :=
  | TOKEN_LEFT_PAREN | TOKEN_RIGHT_PAREN | TOKEN_LEFT_BRACE | TOKEN_RIGHT_BRACE
  | TOKEN_LEFT_SQUARE_BRACKET | TOKEN_RIGHT_SQUARE_BRACKET | TOKEN_COMMA | TOKEN_DOT
  | TOKEN_MINUS | TOKEN_PLUS | TOKEN_SEMICOLON | TOKEN_SLASH
  | TOKEN_STAR | TOKEN_AT | TOKEN_BAR | TOKEN_AMP
  | TOKEN_CARET | TOKEN_PERCENT | TOKEN_COLON | TOKEN_BANG
  | TOKEN_BANG_EQUAL | TOKEN_EQUAL | TOKEN_EQUAL_EQUAL | TOKEN_GREATER
  | TOKEN_GREATER_EQUAL | TOKEN_RIGHT_SHIFT | TOKEN_LESS | TOKEN_LESS_EQUAL
  | TOKEN_LEFT_SHIFT | TOKEN_ADDRESS | TOKEN_IDENTIFIER | TOKEN_STRING
  | TOKEN_NUMBER | TOKEN_AND | TOKEN_ANY | TOKEN_BOOL
  | TOKEN_BREAK | TOKEN_CLASS | TOKEN_COMPILE | TOKEN_CONST
  | TOKEN_CONTINUE | TOKEN_CPEEK | TOKEN_DEFER | TOKEN_ELSE
  | TOKEN_STMT_ERROR | TOKEN_FALSE | TOKEN_FOR | TOKEN_FUN
  | TOKEN_IF | TOKEN_INT | TOKEN_INT8 | TOKEN_INT16
  | TOKEN_INT32 | TOKEN_INT64 | TOKEN_LEN | TOKEN_MACHINE_FLOAT64
  | TOKEN_MAKE_CHANNEL | TOKEN_MAKE_ROUTINE | TOKEN_MAKE_SYNCGROUP | TOKEN_NEW
  | TOKEN_NIL | TOKEN_OR | TOKEN_PEEK | TOKEN_PIN
  | TOKEN_PLACE | TOKEN_POKE | TOKEN_PRINT | TOKEN_READ_YARG_SOURCE
  | TOKEN_RECEIVE | TOKEN_RESUME | TOKEN_RETURN | TOKEN_SEND
  | TOKEN_SHARE | TOKEN_START | TOKEN_TYPE_STRING | TOKEN_STRUCT
  | TOKEN_SUPER | TOKEN_THIS | TOKEN_TRUE | TOKEN_UINT8
  | TOKEN_UINT16 | TOKEN_UINT32 | TOKEN_UINT64 | TOKEN_VAR
  | TOKEN_VM_READ_XIP_FILE | TOKEN_WHILE | TOKEN_YIELD | TOKEN_LOAD
  | TOKEN_TS_SET | TOKEN_TS_READ | TOKEN_TS_WRITE | TOKEN_TS_INTERRUPT
  | TOKEN_TS_SYNC | TOKEN_ERROR | TOKEN_EOF.

#[export] Instance TokenType_eq_dec : EqDecision TokenType.
Proof. solve_decision. Defined.

(** ** Characters *)
Fixpoint codes (s : string) : list Z :=
  match s with
  | EmptyString => []
  | String a s' => Z.of_nat (nat_of_ascii a) :: codes s'
  end.
Definition ch (s : string) : Z := dg (codes s) 0.
Arguments codes s%_string_scope.
Arguments ch s%_string_scope.

Definition between (a c b : Z) : bool := (a <=? c) && (c <=? b).

Definition isAlpha (c : Z) : bool :=
  between (ch "a") c (ch "z") || between (ch "A") c (ch "Z") || (c =? ch "_").
Definition isBinDigit (c : Z) : bool := between (ch "0") c (ch "1").
Definition isDigit (c : Z) : bool := between (ch "0") c (ch "9").
Definition isHexDigit (c : Z) : bool :=
  if between (ch "a") c (ch "f") then true
  else if between (ch "A") c (ch "F") then true
  else isDigit c.

Definition isRadixDigit (c radix : Z) : bool :=
  if radix =? 16 then isHexDigit c
  else if radix =? 10 then isDigit c
  else if radix =? 2 then isBinDigit c
  else false.

Definition isRadix (c : Z) : bool :=
  (c =? ch "x") || (c =? ch "X") || (c =? ch "b") || (c =? ch "B").
Definition radixType (c : Z) : Z :=
  if (c =? ch "x") || (c =? ch "X") then 16
  else if (c =? ch "b") || (c =? ch "B") then 2
  else 10.

(** ** State *)
Record ObjScanner := mkScanner { source : list Z; start : nat; current : nat; line : Z }.

Definition newScanner (src : list Z) : ObjScanner := mkScanner src 0 0 1.

(** [start] of a token points into the source, or to the message of an error. *)
Record Token := mkToken { type : TokenType; tstart : nat + list Z; length_ : Z; tline : Z }.

Abbreviation SM := (st ObjScanner).

Definition char_at (i : nat) : SM Z := λ sc,
  if (i <? length (source sc))%nat then Some (dg (source sc) i, sc)
  else if (i =? length (source sc))%nat then Some (0, sc)
  else None.
Definition get_scanner : SM ObjScanner := λ sc, Some (sc, sc).
Definition set_current (c : nat) : SM () := λ sc, Some ((), mkScanner (source sc) (start sc) c (line sc)).
Definition set_start (c : nat) : SM () := λ sc, Some ((), mkScanner (source sc) c (current sc) (line sc)).
Definition next_line : SM () :=
  λ sc, Some ((), mkScanner (source sc) (start sc) (current sc) (line sc + 1)).

Definition peek : SM Z := sc ← get_scanner; char_at (current sc).
Definition isAtEnd : SM bool := c ← peek; mret (c =? 0).
Definition advance : SM Z :=
  sc ← get_scanner; set_current (S (current sc)) ;; char_at (current sc).
Definition peekNext : SM Z :=
  e ← isAtEnd; if (e : bool) then mret 0 else sc ← get_scanner; char_at (S (current sc)).
Definition match_ (expected : Z) : SM bool :=
  e ← isAtEnd;
  if (e : bool) then mret false
  else c ← peek;
       if negb (c =? expected) then mret false
       else sc ← get_scanner; set_current (S (current sc)) ;; mret true.

Definition makeToken (ty : TokenType) : SM Token :=
  sc ← get_scanner;
  mret (mkToken ty (inl (start sc)) (Z.of_nat (current sc) - Z.of_nat (start sc)) (line sc)).
Definition errorToken (message : string) : SM Token :=
  sc ← get_scanner;
  mret (mkToken TOKEN_ERROR (inr (codes message)) (Z.of_nat (length (codes message))) (line sc)).

(** [while (cond) body], at most [fuel] times. *)
Fixpoint while_ (fuel : nat) (cond : SM bool) (body : SM ()) : SM () :=
  match fuel with
  | O => st_fail
  | S fuel' => b ← cond; if (b : bool) then body ;; while_ fuel' cond body else mret ()
  end.

Definition advance_while (fuel : nat) (p : Z → bool) : SM () :=
  while_ fuel (c ← peek; mret (p c)) (_ ← advance; mret ()).

(** ** Whitespace and comments *)
Fixpoint skipWhitespace (fuel : nat) : SM () :=
  match fuel with
  | O => st_fail
  | S fuel' =>
      c ← peek;
      if (c =? ch " ") || (c =? 13) || (c =? 9) then _ ← advance; skipWhitespace fuel'
      else if c =? 10 then next_line ;; _ ← advance; skipWhitespace fuel'
      else if c =? ch "/" then
        n ← peekNext;
        if n =? ch "/" then
          while_ fuel (c ← peek; if c =? 10 then mret false else e ← isAtEnd; mret (negb e))
            (_ ← advance; mret ()) ;;
          skipWhitespace fuel'
        else mret ()
      else mret ()
  end.

(** ** Keywords *)

(** [switch (c)] whose cases all return; [d] is what follows it. *)
Fixpoint switch {A} (c : Z) (cases : list (string * A)) (d : A) : A :=
  match cases with
  | [] => d
  | (k, v) :: cases' => if c =? ch k then v else switch c cases' d
  end.

(** The text between [start] and [current] is [w]. *)
Definition checkKeyword (w : list Z) (start n : nat) (rest : string) (ty : TokenType) : TokenType :=
  if (length w =? start + n)%nat && bool_decide (take n (drop start w) = codes rest)
  then ty else TOKEN_IDENTIFIER.
Arguments checkKeyword w (start n)%_nat_scope rest%_string_scope ty.
Definition memcmp_eq (w : list Z) (start : nat) (s : string) : bool :=
  bool_decide (take (length (codes s)) (drop start w) = codes s).
Arguments memcmp_eq w start%_nat_scope s%_string_scope.

Definition longer_than (w : list Z) (n : nat) : bool := (n <? length w)%nat.

Section IdentifierType.
Variable w : list Z.
Local Abbreviation s := (dg w).
Local Abbreviation longer := (longer_than w).
Local Abbreviation ID := TOKEN_IDENTIFIER.
Local Open Scope string_scope.

Definition identifierType : TokenType :=
  switch (s 0) [
    ("a", if longer 1 then switch (s 1) [
        ("n", if longer 2 then switch (s 2) [
            ("d", checkKeyword w 3 0 "" TOKEN_AND);
            ("y", checkKeyword w 3 0 "" TOKEN_ANY)] ID else ID)] ID else ID);
    ("b", if longer 1 then switch (s 1) [
        ("o", checkKeyword w 2 2 "ol" TOKEN_BOOL);
        ("r", checkKeyword w 2 3 "eak" TOKEN_BREAK)] ID else ID);
    ("c", if longer 1 then switch (s 1) [
        ("l", checkKeyword w 2 3 "ass" TOKEN_CLASS);
        ("o",
          (* no [break]: what returns nothing here goes on to case 'p' *)
          let case_p := checkKeyword w 2 3 "eek" TOKEN_CPEEK in
          if longer 2 then switch (s 2) [
            ("m", checkKeyword w 3 4 "pile" TOKEN_COMPILE);
            ("n", if longer 3 then switch (s 3) [
                ("s", checkKeyword w 4 1 "t" TOKEN_CONST);
                ("t", checkKeyword w 4 4 "inue" TOKEN_CONTINUE)] case_p else case_p)] case_p
          else case_p);
        ("p", checkKeyword w 2 3 "eek" TOKEN_CPEEK)] ID else ID);
    ("d", if longer 1 then switch (s 1) [
        ("e", checkKeyword w 2 3 "fer" TOKEN_DEFER)] ID else ID);
    ("e", if longer 1 then switch (s 1) [
        ("l", checkKeyword w 2 2 "se" TOKEN_ELSE);
        ("r", checkKeyword w 2 3 "ror" TOKEN_STMT_ERROR)] ID else ID);
    ("f", if longer 1 then switch (s 1) [
        ("a", checkKeyword w 2 3 "lse" TOKEN_FALSE);
        ("o", checkKeyword w 2 1 "r" TOKEN_FOR);
        ("u", checkKeyword w 2 1 "n" TOKEN_FUN)] ID else ID);
    ("i", if longer 1 then switch (s 1) [
        ("f", checkKeyword w 2 0 "" TOKEN_IF);
        ("n", if longer 2 then switch (s 2) [
            ("t", if longer 3 then switch (s 3) [
                ("1", checkKeyword w 4 1 "6" TOKEN_INT16);
                ("3", checkKeyword w 4 1 "2" TOKEN_INT32);
                ("6", checkKeyword w 4 1 "4" TOKEN_INT64);
                ("8", checkKeyword w 4 0 "" TOKEN_INT8)] ID
              else checkKeyword w 3 0 "" TOKEN_INT)] ID else ID)] ID else ID);
    ("l", if longer 1 then switch (s 1) [
        ("e", checkKeyword w 2 1 "n" TOKEN_LEN);
        ("o", checkKeyword w 2 2 "ad" TOKEN_LOAD)] ID else ID);
    ("m", if longer 1 then switch (s 1) [
        ("a", if longer 5 && memcmp_eq w 2 "ke_" then switch (s 5) [
            ("c", checkKeyword w 6 6 "hannel" TOKEN_MAKE_CHANNEL);
            ("r", checkKeyword w 6 6 "outine" TOKEN_MAKE_ROUTINE);
            ("s", checkKeyword w 6 9 "ync_group" TOKEN_MAKE_SYNCGROUP)] ID else ID);
        ("f", checkKeyword w 2 6 "loat64" TOKEN_MACHINE_FLOAT64)] ID else ID);
    ("n", if longer 1 then switch (s 1) [
        ("e", checkKeyword w 2 1 "w" TOKEN_NEW);
        ("i", checkKeyword w 2 1 "l" TOKEN_NIL)] ID else ID);
    ("o", checkKeyword w 1 1 "r" TOKEN_OR);
    ("p", if longer 1 then switch (s 1) [
        ("e", checkKeyword w 2 2 "ek" TOKEN_PEEK);
        ("i", checkKeyword w 2 1 "n" TOKEN_PIN);
        ("l", checkKeyword w 2 3 "ace" TOKEN_PLACE);
        ("o", checkKeyword w 2 2 "ke" TOKEN_POKE);
        ("r", checkKeyword w 2 3 "int" TOKEN_PRINT)] ID else ID);
    ("r", if longer 1 then switch (s 1) [
        ("e", if longer 2 then switch (s 2) [
            ("a", checkKeyword w 3 13 "d_yarg_source" TOKEN_READ_YARG_SOURCE);
            ("c", checkKeyword w 3 4 "eive" TOKEN_RECEIVE);
            ("s", checkKeyword w 3 3 "ume" TOKEN_RESUME);
            ("t", checkKeyword w 3 3 "urn" TOKEN_RETURN)] ID else ID)] ID else ID);
    ("s", if longer 1 then switch (s 1) [
        ("e", if longer 2 then switch (s 2) [
            ("n", checkKeyword w 3 1 "d" TOKEN_SEND)] ID else ID);
        ("h", checkKeyword w 2 3 "are" TOKEN_SHARE);
        ("t", if longer 2 then switch (s 2) [
            ("a", checkKeyword w 3 2 "rt" TOKEN_START);
            ("r", if longer 3 then switch (s 3) [
                ("i", checkKeyword w 4 2 "ng" TOKEN_TYPE_STRING);
                ("u", checkKeyword w 4 2 "ct" TOKEN_STRUCT)] ID else ID)] ID else ID);
        ("u", checkKeyword w 2 3 "per" TOKEN_SUPER)] ID else ID);
    ("t", if longer 1 then switch (s 1) [
        ("e",
          (* no [break] here either *)
          let case_h := checkKeyword w 2 2 "is" TOKEN_THIS in
          if longer 7 && memcmp_eq w 2 "st_" then switch (s 5) [
            ("i", checkKeyword w 6 8 "nterrupt" TOKEN_TS_INTERRUPT);
            ("r", checkKeyword w 6 3 "ead" TOKEN_TS_READ);
            ("s", switch (s 6) [
                ("e", checkKeyword w 7 1 "t" TOKEN_TS_SET);
                ("y", checkKeyword w 7 2 "nc" TOKEN_TS_SYNC)] case_h);
            ("w", checkKeyword w 6 4 "rite" TOKEN_TS_WRITE)] case_h
          else case_h);
        ("h", checkKeyword w 2 2 "is" TOKEN_THIS);
        ("r", checkKeyword w 2 2 "ue" TOKEN_TRUE)] ID else ID);
    ("u", if longer 4 && memcmp_eq w 1 "int" then switch (s 4) [
        ("1", checkKeyword w 5 1 "6" TOKEN_UINT16);
        ("3", checkKeyword w 5 1 "2" TOKEN_UINT32);
        ("6", checkKeyword w 5 1 "4" TOKEN_UINT64);
        ("8", checkKeyword w 5 0 "" TOKEN_UINT8)] ID else ID);
    ("v", if longer 1 then switch (s 1) [
        ("a", checkKeyword w 2 1 "r" TOKEN_VAR);
        ("m", checkKeyword w 2 14 "_read_xip_file" TOKEN_VM_READ_XIP_FILE)] ID else ID);
    ("w", checkKeyword w 1 4 "hile" TOKEN_WHILE);
    ("y", checkKeyword w 1 4 "ield" TOKEN_YIELD)] ID.
End IdentifierType.

(** ** Tokens *)
Section Tokens.
Variable fuel : nat.

(** The text of the token so far. *)
Definition lexeme (sc : ObjScanner) : list Z :=
  take (current sc - start sc) (drop (start sc) (source sc)).

Definition identifier : SM Token :=
  advance_while fuel (λ c, isAlpha c || isDigit c) ;;
  sc ← get_scanner; makeToken (identifierType (lexeme sc)).

Definition number_tail (radix : Z) : SM Token :=
  advance_while fuel (λ c, isRadixDigit c radix) ;;
  (* a fractional part *)
  c ← peek;
  (if (radix =? 10) && (c =? ch ".") then
     n ← peekNext; if isDigit n then _ ← advance; mret () else mret ()
   else mret ()) ;;
  advance_while fuel (λ c, isRadixDigit c radix) ;;
  (* an exponent *)
  c ← peek;
  (if (radix =? 10) && ((c =? ch "e") || (c =? ch "E")) then
     n ← peekNext;
     if (n =? ch "-") || isDigit n then
       _ ← advance;
       c ← peek;
       if c =? ch "-" then _ ← advance; mret () else mret ()
     else mret ()
   else mret ()) ;;
  advance_while fuel (λ c, isRadixDigit c radix) ;;
  makeToken TOKEN_NUMBER.

Definition number : SM Token :=
  c ← peek;
  if isRadix c then
    let radix := radixType c in
    _ ← advance;
    c ← peek;
    if negb (isRadixDigit c radix) then errorToken "Expected digit after radix specifier."
    else number_tail radix
  else number_tail 10.

Definition address : SM Token :=
  _ ← advance;
  advance_while fuel (λ c, isRadixDigit c 16) ;;
  makeToken TOKEN_ADDRESS.

Definition string_ : SM Token :=
  while_ fuel
    (c ← peek; if c =? 34 then mret false else e ← isAtEnd; mret (negb e))
    (c ← peek;
     (if c =? 92 then _ ← advance; mret () else mret ()) ;;
     c ← peek;
     (if c =? 10 then next_line else mret ()) ;;
     _ ← advance; mret ()) ;;
  e ← isAtEnd;
  if (e : bool) then errorToken "Unterminated string."
  else _ ← advance; makeToken TOKEN_STRING.

Definition single_tokens : list (string * TokenType) := [
  ("(", TOKEN_LEFT_PAREN); (")", TOKEN_RIGHT_PAREN); ("{", TOKEN_LEFT_BRACE);
  ("}", TOKEN_RIGHT_BRACE); ("[", TOKEN_LEFT_SQUARE_BRACKET); ("]", TOKEN_RIGHT_SQUARE_BRACKET);
  (";", TOKEN_SEMICOLON); (",", TOKEN_COMMA); (".", TOKEN_DOT); ("-", TOKEN_MINUS);
  ("+", TOKEN_PLUS); ("/", TOKEN_SLASH); ("*", TOKEN_STAR); ("|", TOKEN_BAR); ("&", TOKEN_AMP);
  ("^", TOKEN_CARET); ("%", TOKEN_PERCENT); (":", TOKEN_COLON)]%string.

Definition scan_operator (c : Z) : SM Token :=
  if c =? ch "@" then
    x ← peek; if (x =? ch "x") || (x =? ch "X") then address else makeToken TOKEN_AT
  else if c =? ch "!" then
    m ← match_ (ch "="); makeToken (if (m : bool) then TOKEN_BANG_EQUAL else TOKEN_BANG)
  else if c =? ch "=" then
    m ← match_ (ch "="); makeToken (if (m : bool) then TOKEN_EQUAL_EQUAL else TOKEN_EQUAL)
  else if c =? ch "<" then
    x ← peek;
    if x =? ch "<" then _ ← advance; makeToken TOKEN_LEFT_SHIFT
    else if x =? ch "=" then _ ← advance; makeToken TOKEN_LESS_EQUAL
    else makeToken TOKEN_LESS
  else if c =? ch ">" then
    x ← peek;
    if x =? ch ">" then _ ← advance; makeToken TOKEN_RIGHT_SHIFT
    else if x =? ch "=" then _ ← advance; makeToken TOKEN_GREATER_EQUAL
    else makeToken TOKEN_GREATER
  else if c =? 34 then string_
  else errorToken "Unexpected character.".

Definition scanToken_ : SM Token :=
  skipWhitespace fuel ;;
  sc ← get_scanner; set_start (current sc) ;;
  e ← isAtEnd;
  if (e : bool) then makeToken TOKEN_EOF
  else
    c ← advance;
    if isAlpha c then identifier
    else if isDigit c then number
    else match switch c (map (λ kv, (kv.1, Some kv.2)) single_tokens) None with
         | Some ty => makeToken ty
         | None => scan_operator c
         end.
End Tokens.

(** Every loop of the scanner advances, so that the length of the source bounds
    the iterations of each. *)
Definition scanToken : SM Token := λ sc, scanToken_ (S (length (source sc))) sc.
