(* ===== verification/ScannerSpec.v ===== *)
(** * The scanner: what it promises

    Keywords are recognised (two misspellings with them); every token lies
    inside the source, after the one before; lines are counted; and the
    scanner reaches the end of every source, unless a string literal runs to
    the end of the source and its last character is a backslash. *)
From Stdlib Require Import String.
From S2P Require Export Scanner.

(** ** Keywords *)
Definition keywords : list (string * TokenType) := [
  ("and", TOKEN_AND); ("any", TOKEN_ANY); ("bool", TOKEN_BOOL); ("break", TOKEN_BREAK);
  ("class", TOKEN_CLASS); ("compile", TOKEN_COMPILE); ("const", TOKEN_CONST);
  ("continue", TOKEN_CONTINUE); ("cpeek", TOKEN_CPEEK); ("defer", TOKEN_DEFER);
  ("else", TOKEN_ELSE); ("error", TOKEN_STMT_ERROR); ("false", TOKEN_FALSE); ("for", TOKEN_FOR);
  ("fun", TOKEN_FUN); ("if", TOKEN_IF); ("int", TOKEN_INT); ("int8", TOKEN_INT8);
  ("int16", TOKEN_INT16); ("int32", TOKEN_INT32); ("int64", TOKEN_INT64); ("len", TOKEN_LEN);
  ("load", TOKEN_LOAD); ("mfloat64", TOKEN_MACHINE_FLOAT64); ("make_channel", TOKEN_MAKE_CHANNEL);
  ("make_routine", TOKEN_MAKE_ROUTINE); ("make_sync_group", TOKEN_MAKE_SYNCGROUP);
  ("new", TOKEN_NEW); ("nil", TOKEN_NIL); ("or", TOKEN_OR); ("peek", TOKEN_PEEK);
  ("pin", TOKEN_PIN); ("place", TOKEN_PLACE); ("poke", TOKEN_POKE); ("print", TOKEN_PRINT);
  ("read_yarg_source", TOKEN_READ_YARG_SOURCE); ("receive", TOKEN_RECEIVE);
  ("resume", TOKEN_RESUME); ("return", TOKEN_RETURN); ("send", TOKEN_SEND);
  ("share", TOKEN_SHARE); ("start", TOKEN_START); ("string", TOKEN_TYPE_STRING);
  ("struct", TOKEN_STRUCT); ("super", TOKEN_SUPER); ("test_interrupt", TOKEN_TS_INTERRUPT);
  ("test_read", TOKEN_TS_READ); ("test_set", TOKEN_TS_SET); ("test_sync", TOKEN_TS_SYNC);
  ("test_write", TOKEN_TS_WRITE); ("this", TOKEN_THIS); ("true", TOKEN_TRUE);
  ("uint8", TOKEN_UINT8); ("uint16", TOKEN_UINT16); ("uint32", TOKEN_UINT32);
  ("uint64", TOKEN_UINT64); ("var", TOKEN_VAR); ("vm_read_xip_file", TOKEN_VM_READ_XIP_FILE);
  ("while", TOKEN_WHILE); ("yield", TOKEN_YIELD)]%string.

(** The words that a missing [break] turns into keywords. *)
Definition misspelt : list (string * TokenType) := [
  ("coeek", TOKEN_CPEEK); ("teis", TOKEN_THIS)]%string.

Fixpoint lookup_word (w : list Z) (t : list (string * TokenType)) : option TokenType :=
  match t with
  | [] => None
  | (k, ty) :: t' => if bool_decide (w = codes k) then Some ty else lookup_word w t'
  end.

Lemma checkKeyword_inv w s n rest ty t :
  checkKeyword w s n rest ty = t → t ≠ TOKEN_IDENTIFIER → (s + n ≤ length w)%nat ∧
  t = ty ∧ w = map (dg w) (seq 0 s) ++ codes rest.
Proof.
  unfold checkKeyword. intros H Hne.
  destruct (Nat.eqb_spec (length w) (s + n)) as [Hl|]; [|simpl in H; congruence].
  destruct (bool_decide_reflect (take n (drop s w) = codes rest)) as [Hr|]; [|simpl in H; congruence].
  simpl in H. split; [lia|]. split; [done|].
  rewrite <-Hr, firstn_all2 by (rewrite length_drop; lia).
  rewrite <-(take_drop s w) at 1. f_equal.
  apply list_eq. intros i. rewrite list_lookup_fmap.
  destruct (decide (i < s)%nat).
  - rewrite lookup_take_lt by done. rewrite (dg_lookup w i) by lia.
    by rewrite lookup_seq_lt.
  - rewrite lookup_take_ge by lia. by rewrite lookup_seq_ge by lia.
Qed.

Lemma memcmp_eq_dg w s t i :
  memcmp_eq w s t = true → (i < length (codes t))%nat → dg w (s + i) = dg (codes t) i.
Proof.
  unfold memcmp_eq. intros H Hi. apply bool_decide_eq_true in H. rewrite <-H.
  unfold dg. rewrite lookup_take_lt by done. by rewrite lookup_drop.
Qed.

(** Every case of the nested switches. *)
Ltac switch_cases H :=
  repeat match type of H with
  | context [if ?c =? ?k then _ else _] => destruct (Z.eqb_spec c k)
  | context [if longer_than ?w ?n && memcmp_eq ?w ?s ?t then _ else _] =>
      let E := fresh "E" in destruct (longer_than w n && memcmp_eq w s t) eqn:E
  | context [if longer_than ?w ?n then _ else _] => destruct (longer_than w n)
  end; try congruence.

Ltac known_prefix :=
  repeat match goal with
  | E : longer_than _ _ && memcmp_eq _ _ _ = true |- _ =>
      apply andb_prop in E as [_ E];
      pose proof (memcmp_eq_dg _ _ _ 0 E ltac:(vm_compute; lia));
      pose proof (memcmp_eq_dg _ _ _ 1 E ltac:(vm_compute; lia));
      pose proof (memcmp_eq_dg _ _ _ 2 E ltac:(vm_compute; lia));
      clear E
  end.

Lemma identifierType_word w t :
  identifierType w = t → t ≠ TOKEN_IDENTIFIER →
  lookup_word w (keywords ++ misspelt) = Some t.
Proof.
  intros H Hne. unfold identifierType in H. cbn [switch] in H.
  switch_cases H.
  all: apply checkKeyword_inv in H as (_ & -> & Hw); [|done]; known_prefix.
  all: cbn [seq map app] in Hw.
  all: repeat match goal with H : dg ?v ?i = _ |- _ => cbn [Nat.add] in H; rewrite ?H in Hw; clear H end.
  all: rewrite Hw; vm_compute; reflexivity.
Qed.

Definition table_ok : bool :=
  forallb (λ kv, bool_decide (identifierType (codes kv.1) = kv.2) && bool_decide (kv.2 ≠ TOKEN_IDENTIFIER))
    (keywords ++ misspelt).
Lemma table_ok_true : table_ok = true.
Proof. vm_compute. reflexivity. Qed.

Lemma lookup_word_In w tb t : lookup_word w tb = Some t → ∃ k, In (k, t) tb ∧ w = codes k.
Proof.
  induction tb as [|[k ty] tb IH]; simpl; [done|].
  case_bool_decide; [intros [= ->]; eauto|]. intros H'. destruct (IH H') as (k' & ? & ?); eauto.
Qed.

Lemma identifierType_lookup w :
  identifierType w = default TOKEN_IDENTIFIER (lookup_word w (keywords ++ misspelt)).
Proof.
  destruct (decide (identifierType w = TOKEN_IDENTIFIER)) as [E|E].
  - destruct (lookup_word w (keywords ++ misspelt)) as [t|] eqn:L; [|done]. exfalso.
    apply lookup_word_In in L as (k & Hk & ->).
    pose proof table_ok_true as Hok. unfold table_ok in Hok. rewrite forallb_forall in Hok.
    specialize (Hok _ Hk). apply andb_prop in Hok as [H1 H2].
    apply bool_decide_eq_true in H1, H2. simpl in H1, H2. congruence.
  - by rewrite (identifierType_word w _ eq_refl E).
Qed.

(** ** Runs *)

(** The character at [current]. *)
Definition cur (sc : ObjScanner) : Z := dg (source sc) (current sc).
Definition fwd (sc : ObjScanner) : ObjScanner :=
  mkScanner (source sc) (start sc) (S (current sc)) (line sc).

(** Newlines in a text. *)
Fixpoint newlines (l : list Z) : Z :=
  match l with
  | [] => 0
  | c :: l' => (if c =? 10 then 1 else 0) + newlines l'
  end.

Lemma newlines_app a b : newlines (a ++ b) = newlines a + newlines b.
Proof. induction a as [|c a IH]; cbn [newlines app]; lia. Qed.

(** The scanner is inside its source, and has counted the lines. *)
Record inv (sc : ObjScanner) : Prop := {
  inv_in : (current sc <= length (source sc))%nat;
  inv_line : line sc = 1 + newlines (take (current sc) (source sc))
}.
(** It moves forward within a token. *)
Record ext (a b : ObjScanner) : Prop := {
  ext_inv : inv b;
  ext_source : source b = source a;
  ext_start : start b = start a;
  ext_current : (current a <= current b)%nat
}.

Lemma ext_refl a : inv a → ext a a.
Proof. by split. Qed.
Lemma ext_trans a b c : ext a b → ext b c → ext a c.
Proof. intros [? ? ? ?] [? ? ? ?]. split; [done|congruence|congruence|lia]. Qed.

Lemma newlines_snoc l i :
  (i < length l)%nat → newlines (take (S i) l) = newlines (take i l) + (if dg l i =? 10 then 1 else 0).
Proof.
  intros Hi. rewrite (take_S_r l i (dg l i)) by (by apply dg_lookup).
  rewrite newlines_app. cbn [newlines]. lia.
Qed.

Lemma cur_end sc : (current sc = length (source sc))%nat → cur sc = 0.
Proof. intros H. unfold cur, dg. by rewrite lookup_ge_None_2 by lia. Qed.

Lemma cur_in sc : inv sc → cur sc ≠ 0 → (current sc < length (source sc))%nat.
Proof.
  intros [H _] Hc. destruct (decide (current sc = length (source sc))) as [E|]; [|lia].
  by rewrite cur_end in Hc.
Qed.

Lemma fwd_ext sc : inv sc → (current sc < length (source sc))%nat → cur sc ≠ 10 → ext sc (fwd sc).
Proof.
  intros [H1 H2] Hlt Hc. split; simpl; try done; [|lia]. split; simpl; [lia|].
  rewrite newlines_snoc by done. rewrite (proj2 (Z.eqb_neq _ _)) by done. lia.
Qed.

Lemma char_at_run sc i :
  (i <= length (source sc))%nat → char_at i sc = Some (dg (source sc) i, sc).
Proof.
  intros Hi. unfold char_at. destruct (Nat.ltb_spec i (length (source sc))); [done|].
  assert (i = length (source sc)) as -> by lia. rewrite Nat.eqb_refl.
  unfold dg. by rewrite lookup_ge_None_2 by lia.
Qed.

Lemma peek_run sc : inv sc → peek sc = Some (cur sc, sc).
Proof. intros [H _]. unfold peek. step_with (eq_refl (get_scanner sc)). by apply char_at_run. Qed.

Lemma isAtEnd_run sc : inv sc → isAtEnd sc = Some (cur sc =? 0, sc).
Proof. intros H. unfold isAtEnd. by step_with (peek_run sc H). Qed.

Lemma advance_run sc : (current sc < length (source sc))%nat → advance sc = Some (cur sc, fwd sc).
Proof.
  intros H. unfold advance. step_with (eq_refl (get_scanner sc)).
  step_with (eq_refl (set_current (S (current sc)) sc)).
  rewrite char_at_run by (simpl; lia). done.
Qed.

Lemma peekNext_run sc :
  inv sc → ∃ n, peekNext sc = Some (n, sc) ∧ (n ≠ 0 → cur sc ≠ 0 ∧ n = cur (fwd sc)).
Proof.
  intros H. unfold peekNext. step_with (isAtEnd_run sc H).
  destruct (Z.eqb_spec (cur sc) 0) as [E|E]; [by exists 0|].
  step_with (eq_refl (get_scanner sc)). pose proof (cur_in sc H E).
  rewrite char_at_run by lia. eexists. split; [done|]. done.
Qed.

(** A loop that advances over the characters of a class. *)
Lemma advance_while_run p fuel : ∀ sc,
  p 0 = false → p 10 = false → inv sc → (length (source sc) - current sc < fuel)%nat →
  ∃ sc', advance_while fuel p sc = Some ((), sc') ∧ ext sc sc' ∧ p (cur sc') = false ∧
    ∀ i, (current sc <= i < current sc')%nat → p (dg (source sc) i) = true.
Proof.
  unfold advance_while. induction fuel as [|fuel IH]; intros sc H0 H10 HI Hf; [lia|]. cbn [while_].
  assert ((c ← peek; mret (p c)) sc = Some (p (cur sc), sc)) as Ec by (by step_with (peek_run sc HI)).
  step_with Ec. destruct (p (cur sc)) eqn:Ep.
  - assert (cur sc ≠ 0) by congruence. assert (cur sc ≠ 10) by congruence.
    pose proof (cur_in sc HI ltac:(done)) as Hlt.
    assert ((_ ← advance; mret ()) sc = Some ((), fwd sc)) as Ea by (by step_with (advance_run sc Hlt)).
    step_with Ea. pose proof (fwd_ext sc HI Hlt ltac:(done)) as Hx.
    destruct (IH (fwd sc) H0 H10 (ext_inv _ _ Hx) ltac:(simpl; lia)) as (sc' & E & Hx' & Hp' & Hall).
    exists sc'. split; [done|]. split; [by eapply ext_trans|]. split; [done|].
    intros i Hi. destruct (decide (i = current sc)) as [->|]; [done|]. apply Hall. simpl. lia.
  - exists sc. split; [done|]. split; [by apply ext_refl|]. split; [done|]. lia.
Qed.

(** A comment: to the end of the line. *)
Lemma comment_run fuel : ∀ sc,
  inv sc → (length (source sc) - current sc < fuel)%nat →
  ∃ sc', while_ fuel (c ← peek; if c =? 10 then mret false else e ← isAtEnd; mret (negb e))
      (_ ← advance; mret ()) sc = Some ((), sc') ∧ ext sc sc' ∧
    (cur sc ≠ 10 → cur sc ≠ 0 → (current sc < current sc')%nat).
Proof.
  induction fuel as [|fuel IH]; intros sc HI Hf; [lia|]. cbn [while_].
  destruct (Z.eqb_spec (cur sc) 10) as [Hn|Hn].
  { exists sc. split; [|by split; [apply ext_refl|]]. erewrite st_bind_run; [|step_with (peek_run sc HI); by rewrite Hn].
    done. }
  assert ((c ← peek; if c =? 10 then mret false else e ← isAtEnd; mret (negb e)) sc
    = Some (negb (cur sc =? 0), sc)) as Ec.
  { step_with (peek_run sc HI). rewrite (proj2 (Z.eqb_neq _ _)) by done. by step_with (isAtEnd_run sc HI). }
  step_with Ec. destruct (Z.eqb_spec (cur sc) 0) as [Hz|Hz]; cbn [negb].
  - exists sc. split; [done|]. by split; [apply ext_refl|].
  - pose proof (cur_in sc HI Hz) as Hlt.
    assert ((_ ← advance; mret ()) sc = Some ((), fwd sc)) as Ea by (by step_with (advance_run sc Hlt)).
    step_with Ea. pose proof (fwd_ext sc HI Hlt Hn) as Hx.
    destruct (IH (fwd sc) (ext_inv _ _ Hx) ltac:(simpl; lia)) as (sc' & E & Hx' & _).
    exists sc'. split; [done|]. split; [by eapply ext_trans|]. intros _ _.
    pose proof (ext_current _ _ Hx'). simpl in *. lia.
Qed.

Definition blank_char (c : Z) : bool := (c =? ch " ") || (c =? 13) || (c =? 9) || (c =? 10).

Lemma next_line_fwd sc :
  inv sc → (current sc < length (source sc))%nat → cur sc = 10 →
  ext sc (fwd (mkScanner (source sc) (start sc) (current sc) (line sc + 1))).
Proof.
  intros [H1 H2] Hlt Hc. split; simpl; try done; [|lia]. split; simpl; [lia|].
  rewrite newlines_snoc by done. unfold cur in Hc. rewrite Hc. simpl. lia.
Qed.

Lemma skipWhitespace_run fuel : ∀ sc,
  inv sc → (length (source sc) - current sc < fuel)%nat →
  ∃ sc', skipWhitespace fuel sc = Some ((), sc') ∧ ext sc sc' ∧ blank_char (cur sc') = false.
Proof.
  induction fuel as [|fuel IH]; intros sc HI Hf; [lia|]. cbn [skipWhitespace].
  step_with (peek_run sc HI). unfold blank_char.
  destruct ((cur sc =? ch " ") || (cur sc =? 13) || (cur sc =? 9)) eqn:Eb.
  - assert (cur sc ≠ 0 ∧ cur sc ≠ 10) as [Hz Hn].
    { rewrite !orb_true_iff, !Z.eqb_eq in Eb. change (ch " ") with 32 in Eb. lia. }
    pose proof (cur_in sc HI Hz) as Hlt. step_with (advance_run sc Hlt).
    pose proof (fwd_ext sc HI Hlt Hn) as Hx.
    destruct (IH (fwd sc) (ext_inv _ _ Hx) ltac:(simpl; lia)) as (sc' & E & Hx' & Hb).
    exists sc'. split; [done|]. split; [by eapply ext_trans|done].
  - destruct (Z.eqb_spec (cur sc) 10) as [Hn|Hn].
    + pose proof (cur_in sc HI ltac:(lia)) as Hlt. step_with (eq_refl (next_line sc)).
      step_with (advance_run (mkScanner (source sc) (start sc) (current sc) (line sc + 1)) Hlt).
      pose proof (next_line_fwd sc HI Hlt Hn) as Hx.
      destruct (IH _ (ext_inv _ _ Hx) ltac:(simpl; lia)) as (sc' & E & Hx' & Hb).
      exists sc'. split; [done|]. split; [by eapply ext_trans|done].
    + assert (ext sc sc ∧ blank_char (cur sc) = false) as Hstay.
      { split; [by apply ext_refl|]. unfold blank_char. rewrite Eb. by apply Z.eqb_neq. }
      destruct (Z.eqb_spec (cur sc) (ch "/")) as [Hs|Hs]; [|by exists sc].
      destruct (peekNext_run sc HI) as (n & En & Hn'). step_with En.
      destruct (Z.eqb_spec n (ch "/")) as [Hs'|Hs']; [|by exists sc].
      assert (n ≠ 0) as Hn0 by (rewrite Hs'; done).
      destruct (Hn' Hn0) as [Hc0 Hnc]. pose proof (cur_in sc HI Hc0) as Hlt.
      destruct (comment_run (S fuel) sc HI Hf) as (s1 & E1 & Hx1 & Hgo). step_with E1.
      specialize (Hgo Hn Hc0). pose proof (inv_in _ (ext_inv _ _ Hx1)).
      rewrite (ext_source _ _ Hx1) in *.
      destruct (IH s1 (ext_inv _ _ Hx1)) as (sc' & E & Hx' & Hb); [rewrite (ext_source _ _ Hx1); lia|].
      exists sc'. split; [done|]. split; [by eapply ext_trans|done].
Qed.

(** ** The kinds of token *)

(** What a token is: its text, between [start] and [current], and its line. *)
Definition token_ok (sc : ObjScanner) (t : Token) : Prop :=
  tline t = line sc ∧
  (type t ≠ TOKEN_ERROR →
   tstart t = inl (start sc) ∧ length_ t = Z.of_nat (current sc) - Z.of_nat (start sc)).

Lemma makeToken_run ty sc :
  ∃ t, makeToken ty sc = Some (t, sc) ∧ type t = ty ∧ token_ok sc t.
Proof. eexists. split; [done|]. by repeat split. Qed.
Lemma errorToken_run m sc :
  ∃ t, errorToken m sc = Some (t, sc) ∧ type t = TOKEN_ERROR ∧ token_ok sc t.
Proof. eexists. split; [done|]. by repeat split. Qed.

(** A token function: it moves the scanner forward and makes a token. *)
Definition makes (f : SM Token) (sc : ObjScanner) : Prop :=
  ∃ t sc', f sc = Some (t, sc') ∧ ext sc sc' ∧ token_ok sc' t ∧ type t ≠ TOKEN_EOF.

Lemma makes_token ty sc : inv sc → ty ≠ TOKEN_EOF → makes (makeToken ty) sc.
Proof.
  intros HI Hty. destruct (makeToken_run ty sc) as (t & E & Ht & Hok). exists t, sc.
  split; [done|]. split; [by apply ext_refl|]. split; [done|congruence].
Qed.
Lemma makes_error m sc : inv sc → makes (errorToken m) sc.
Proof.
  intros HI. destruct (errorToken_run m sc) as (t & E & Ht & Hok). exists t, sc.
  split; [done|]. split; [by apply ext_refl|]. split; [done|congruence].
Qed.
Lemma makes_after {A} (c : SM A) f a sc sc' :
  c sc = Some (a, sc') → ext sc sc' → makes (f a) sc' → makes (c ≫= f) sc.
Proof.
  intros E Hx (t & s2 & E2 & Hx2 & Hok). exists t, s2. step_with E. split; [done|].
  split; [by eapply ext_trans|done].
Qed.

(** [if (cond) advance();] *)
Lemma maybe_advance_run (b : bool) sc :
  inv sc → (b = true → cur sc ≠ 0 ∧ cur sc ≠ 10) →
  ∃ sc', (if b then _ ← advance; mret () else mret ()) sc = Some ((), sc') ∧ ext sc sc'.
Proof.
  intros HI Hb. destruct b; [|exists sc; split; [done|by apply ext_refl]].
  destruct (Hb eq_refl) as [Hz Hn]. pose proof (cur_in sc HI Hz) as Hlt.
  exists (fwd sc). split; [by step_with (advance_run sc Hlt)|by apply fwd_ext].
Qed.

Lemma radix_class radix : isRadixDigit 0 radix = false ∧ isRadixDigit 10 radix = false.
Proof.
  unfold isRadixDigit. destruct (radix =? 16); [done|]. destruct (radix =? 10); [done|].
  by destruct (radix =? 2).
Qed.

Section Kinds.
Variable fuel : nat.
Abbreviation enough sc := (length (source sc) - current sc < fuel)%nat.

Lemma ext_enough a b : ext a b → enough a → enough b.
Proof. intros [? Hs ? ?] H. rewrite Hs. lia. Qed.

Lemma identifierType_not_eof w : identifierType w ≠ TOKEN_EOF.
Proof.
  rewrite identifierType_lookup. destruct (lookup_word w (keywords ++ misspelt)) eqn:E; [|done]. simpl.
  assert (forallb (λ kv, bool_decide (kv.2 ≠ TOKEN_EOF)) (keywords ++ misspelt) = true) as Hall
    by (vm_compute; reflexivity).
  rewrite forallb_forall in Hall. apply lookup_word_In in E as (k & Hk & _).
  specialize (Hall _ Hk). by apply bool_decide_eq_true in Hall.
Qed.

Lemma identifier_makes sc : inv sc → enough sc → makes (identifier fuel) sc.
Proof.
  intros HI Hf. unfold identifier.
  destruct (advance_while_run (λ c, isAlpha c || isDigit c) fuel sc) as (s1 & E1 & Hx & _ & _); try done.
  eapply makes_after; [exact E1|done|].
  eapply makes_after; [done|apply ext_refl, Hx|]. apply makes_token; [apply Hx|apply identifierType_not_eof].
Qed.

Lemma number_tail_makes radix sc : inv sc → enough sc → makes (number_tail fuel radix) sc.
Proof.
  intros HI Hf. destruct (radix_class radix) as [C0 C10]. unfold number_tail.
  destruct (advance_while_run (λ c, isRadixDigit c radix) fuel sc C0 C10 HI Hf) as (s1 & E1 & X1 & _ & _).
  eapply makes_after; [exact E1|done|]. pose proof (ext_inv _ _ X1) as I1.
  eapply makes_after; [by apply peek_run|by apply ext_refl|].
  assert (∃ s2, (if (radix =? 10) && (cur s1 =? ch ".") then
     n ← peekNext; if isDigit n then _ ← advance; mret () else mret () else mret ()) s1 = Some ((), s2)
     ∧ ext s1 s2) as (s2 & E2 & X2).
  { destruct (Z.eqb_spec radix 10), (Z.eqb_spec (cur s1) (ch ".")) as [Hd|]; cbn [andb];
      try (exists s1; split; [done|by apply ext_refl]).
    destruct (peekNext_run s1 I1) as (n & En & _).
    destruct (maybe_advance_run (isDigit n) s1 I1) as (s2 & E2 & X2); [by rewrite Hd|].
    exists s2. split; [by step_with En|done]. }
  eapply makes_after; [exact E2|done|]. pose proof (ext_inv _ _ X2) as I2.
  destruct (advance_while_run (λ c, isRadixDigit c radix) fuel s2 C0 C10 I2) as (s3 & E3 & X3 & _ & _).
  { eapply ext_enough; [exact X2|]. by eapply ext_enough. }
  eapply makes_after; [exact E3|done|]. pose proof (ext_inv _ _ X3) as I3.
  eapply makes_after; [by apply peek_run|by apply ext_refl|].
  assert (∃ s4, (if (radix =? 10) && ((cur s3 =? ch "e") || (cur s3 =? ch "E")) then
     n ← peekNext;
     if (n =? ch "-") || isDigit n then
       _ ← advance; c ← peek; if c =? ch "-" then _ ← advance; mret () else mret ()
     else mret () else mret ()) s3 = Some ((), s4) ∧ ext s3 s4) as (s4 & E4 & X4).
  { destruct (radix =? 10); cbn [andb]; [|exists s3; split; [done|by apply ext_refl]].
    destruct ((cur s3 =? ch "e") || (cur s3 =? ch "E")) eqn:Ee; [|exists s3; split; [done|by apply ext_refl]].
    destruct (peekNext_run s3 I3) as (n & En & _).
    destruct ((n =? ch "-") || isDigit n) eqn:Eb.
    2:{ exists s3. split; [step_with En; by rewrite Eb|by apply ext_refl]. }
    assert (cur s3 ≠ 0 ∧ cur s3 ≠ 10) as [Hz Hn].
    { rewrite orb_true_iff, !Z.eqb_eq in Ee. change (ch "e") with 101 in Ee. change (ch "E") with 69 in Ee. lia. }
    pose proof (cur_in s3 I3 Hz) as Hlt. pose proof (fwd_ext s3 I3 Hlt Hn) as Xf.
    destruct (maybe_advance_run (cur (fwd s3) =? ch "-") (fwd s3) (ext_inv _ _ Xf)) as (s4 & E4 & X4).
    { intros Hm. apply Z.eqb_eq in Hm. by rewrite Hm. }
    exists s4. split; [|by eapply ext_trans]. step_with En. rewrite Eb. step_with (advance_run s3 Hlt).
    step_with (peek_run (fwd s3) (ext_inv _ _ Xf)). done. }
  eapply makes_after; [exact E4|done|]. pose proof (ext_inv _ _ X4) as I4.
  destruct (advance_while_run (λ c, isRadixDigit c radix) fuel s4 C0 C10 I4) as (s5 & E5 & X5 & _ & _).
  { eapply ext_enough; [exact X4|]. eapply ext_enough; [exact X3|]. eapply ext_enough; [exact X2|].
    by eapply ext_enough. }
  eapply makes_after; [exact E5|done|]. apply makes_token; [apply X5|done].
Qed.

Lemma number_makes sc : inv sc → enough sc → makes (number fuel) sc.
Proof.
  intros HI Hf. unfold number. eapply makes_after; [by apply peek_run|by apply ext_refl|].
  destruct (isRadix (cur sc)) eqn:Er; [|by apply number_tail_makes].
  assert (cur sc ≠ 0 ∧ cur sc ≠ 10) as [Hz Hn].
  { split; intros Hc; rewrite Hc in Er; by vm_compute in Er. }
  pose proof (cur_in sc HI Hz) as Hlt. pose proof (fwd_ext sc HI Hlt Hn) as Xf.
  eapply makes_after; [by apply advance_run|done|].
  eapply makes_after; [by apply peek_run, Xf|by apply ext_refl, Xf|].
  destruct (negb _); [apply makes_error, Xf|]. apply number_tail_makes; [apply Xf|by eapply ext_enough].
Qed.

Lemma address_makes sc : inv sc → enough sc → cur sc ≠ 0 → cur sc ≠ 10 → makes (address fuel) sc.
Proof.
  intros HI Hf Hz Hn. pose proof (cur_in sc HI Hz) as Hlt. pose proof (fwd_ext sc HI Hlt Hn) as Xf.
  unfold address. eapply makes_after; [by apply advance_run|done|].
  destruct (radix_class 16) as [C0 C10].
  destruct (advance_while_run (λ c, isRadixDigit c 16) fuel (fwd sc) C0 C10 (ext_inv _ _ Xf)) as (s1 & E1 & X1 & _ & _).
  { by eapply ext_enough. }
  eapply makes_after; [exact E1|done|]. apply makes_token; [apply X1|done].
Qed.
End Kinds.

(** ** String literals *)

(** The source does not end with a backslash. *)
Definition no_final_backslash (src : list Z) : Prop := dg src (length src - 1) ≠ 92.

Definition string_cond : SM bool := c ← peek; if c =? 34 then mret false else e ← isAtEnd; mret (negb e).
Definition string_step : SM () :=
  c ← peek;
  (if c =? 92 then _ ← advance; mret () else mret ()) ;;
  c ← peek;
  (if c =? 10 then next_line else mret ()) ;;
  _ ← advance; mret ().

Lemma string_cond_run sc :
  inv sc → string_cond sc = Some (negb (cur sc =? 34) && negb (cur sc =? 0), sc).
Proof.
  intros HI. unfold string_cond. step_with (peek_run sc HI). destruct (cur sc =? 34); [done|].
  by step_with (isAtEnd_run sc HI).
Qed.

(** Advance, counting a newline. *)
Lemma string_char_run sc :
  inv sc → (current sc < length (source sc))%nat →
  ∃ sc', (c ← peek; (if c =? 10 then next_line else mret ()) ;; _ ← advance; mret ()) sc = Some ((), sc') ∧
    ext sc sc' ∧ current sc' = S (current sc).
Proof.
  intros HI Hlt. destruct (Z.eqb_spec (cur sc) 10) as [Hn|Hn].
  - eexists. split; [|split; [by apply (next_line_fwd sc HI Hlt Hn)|done]].
    step_with (peek_run sc HI). rewrite Hn. simpl.
    step_with (eq_refl (next_line sc)). by step_with (advance_run (mkScanner (source sc) (start sc) (current sc) (line sc + 1)) Hlt).
  - exists (fwd sc). split; [|split; [by apply fwd_ext|done]].
    step_with (peek_run sc HI). rewrite (proj2 (Z.eqb_neq _ _)) by done. step.
    by step_with (advance_run sc Hlt).
Qed.

Lemma string_step_run sc :
  inv sc → no_final_backslash (source sc) → cur sc ≠ 0 →
  ∃ sc', string_step sc = Some ((), sc') ∧ ext sc sc' ∧ (current sc < current sc')%nat.
Proof.
  intros HI Hbs Hz. pose proof (cur_in sc HI Hz) as Hlt.
  destruct (Z.eqb_spec (cur sc) 92) as [Hb|Hb].
  - pose proof (fwd_ext sc HI Hlt ltac:(lia)) as Xf.
    destruct (string_char_run (fwd sc) (ext_inv _ _ Xf)) as (sc' & E & X & Hc).
    { simpl. destruct (decide (S (current sc) = length (source sc))) as [El|]; [|lia]. exfalso. apply Hbs.
      rewrite <-Hb. unfold cur. f_equal. lia. }
    exists sc'. split; [|split; [by eapply ext_trans|simpl in Hc; lia]]. unfold string_step.
    step_with (peek_run sc HI). rewrite Hb. simpl.
    erewrite st_bind_run; [exact E|]. by step_with (advance_run sc Hlt).
  - destruct (string_char_run sc HI Hlt) as (sc' & E & X & Hc). exists sc'. split; [|split; [done|lia]].
    unfold string_step. step_with (peek_run sc HI). rewrite (proj2 (Z.eqb_neq _ _)) by done. by step.
Qed.

Lemma string_loop_run fuel : ∀ sc,
  inv sc → no_final_backslash (source sc) → (length (source sc) - current sc < fuel)%nat →
  ∃ sc', while_ fuel string_cond string_step sc = Some ((), sc') ∧ ext sc sc' ∧ (cur sc' = 34 ∨ cur sc' = 0).
Proof.
  induction fuel as [|fuel IH]; intros sc HI Hbs Hf; [lia|]. cbn [while_].
  step_with (string_cond_run sc HI).
  destruct (Z.eqb_spec (cur sc) 34) as [Hq|Hq]; cbn [negb andb].
  { exists sc. split; [done|]. split; [by apply ext_refl|by left]. }
  destruct (Z.eqb_spec (cur sc) 0) as [Hz|Hz]; cbn [negb].
  { exists sc. split; [done|]. split; [by apply ext_refl|by right]. }
  destruct (string_step_run sc HI Hbs Hz) as (s1 & E1 & X1 & Hc). step_with E1.
  pose proof (ext_source _ _ X1) as Es. pose proof (inv_in _ (ext_inv _ _ X1)).
  destruct (IH s1 (ext_inv _ _ X1)) as (s2 & E2 & X2 & Hend); [by rewrite Es|rewrite Es in *; lia|].
  exists s2. split; [done|]. split; [by eapply ext_trans|done].
Qed.

Lemma string_makes fuel sc :
  inv sc → no_final_backslash (source sc) → (length (source sc) - current sc < fuel)%nat →
  makes (string_ fuel) sc.
Proof.
  intros HI Hbs Hf. unfold string_. fold string_cond string_step.
  destruct (string_loop_run fuel sc HI Hbs Hf) as (s1 & E1 & X1 & Hend).
  pose proof (ext_inv _ _ X1) as I1.
  eapply makes_after; [exact E1|done|].
  eapply makes_after; [by apply isAtEnd_run|by apply ext_refl|].
  destruct (Z.eqb_spec (cur s1) 0) as [Hz|Hz]; [by apply makes_error|].
  destruct Hend as [Hq|?]; [|done]. pose proof (cur_in s1 I1 Hz) as Hlt.
  pose proof (fwd_ext s1 I1 Hlt ltac:(lia)) as Xf.
  eapply makes_after; [by apply advance_run|done|]. by apply makes_token; [apply Xf|].
Qed.

Lemma match_run e sc :
  inv sc → e ≠ 10 →
  ∃ b sc', match_ e sc = Some (b, sc') ∧ ext sc sc'.
Proof.
  intros HI He. unfold match_.
  destruct (Z.eqb_spec (cur sc) 0) as [Hz|Hz].
  { exists false, sc. split; [|by apply ext_refl]. step_with (isAtEnd_run sc HI). by rewrite Hz. }
  destruct (Z.eqb_spec (cur sc) e) as [Hc|Hc].
  - pose proof (cur_in sc HI Hz) as Hlt. exists true, (fwd sc). split; [|apply fwd_ext; by rewrite ?Hc].
    step_with (isAtEnd_run sc HI). rewrite (proj2 (Z.eqb_neq _ _)) by done.
    step_with (peek_run sc HI). by rewrite Hc, Z.eqb_refl.
  - exists false, sc. split; [|by apply ext_refl].
    step_with (isAtEnd_run sc HI). rewrite (proj2 (Z.eqb_neq _ _)) by done.
    step_with (peek_run sc HI). by rewrite (proj2 (Z.eqb_neq _ _)) by done.
Qed.

(** A second character of an operator. *)
Lemma makes_second k ty f sc :
  inv sc → cur sc = k → k ≠ 0 → k ≠ 10 → ty ≠ TOKEN_EOF → f = (_ ← advance; makeToken ty) → makes f sc.
Proof.
  intros HI Hk H0 H10 Hty ->. pose proof (cur_in sc HI ltac:(congruence)) as Hlt.
  pose proof (fwd_ext sc HI Hlt ltac:(congruence)) as Xf.
  eapply makes_after; [by apply advance_run|done|]. by apply makes_token; [apply Xf|].
Qed.

Lemma scan_operator_makes fuel c sc :
  inv sc → no_final_backslash (source sc) → (length (source sc) - current sc < fuel)%nat →
  makes (scan_operator fuel c) sc.
Proof.
  intros HI Hbs Hf. unfold scan_operator.
  destruct (c =? ch "@").
  { eapply makes_after; [by apply peek_run|by apply ext_refl|].
    destruct ((cur sc =? ch "x") || (cur sc =? ch "X")) eqn:Ex; [|by apply makes_token].
    rewrite orb_true_iff, !Z.eqb_eq in Ex. change (ch "x") with 120 in Ex. change (ch "X") with 88 in Ex.
    apply address_makes; try done; lia. }
  destruct (c =? ch "!").
  { destruct (match_run (ch "=") sc HI ltac:(done)) as (b & s1 & E & X).
    eapply makes_after; [exact E|done|]. apply makes_token; [apply X|by destruct b]. }
  destruct (c =? ch "=").
  { destruct (match_run (ch "=") sc HI ltac:(done)) as (b & s1 & E & X).
    eapply makes_after; [exact E|done|]. apply makes_token; [apply X|by destruct b]. }
  destruct (c =? ch "<").
  { eapply makes_after; [by apply peek_run|by apply ext_refl|].
    destruct (Z.eqb_spec (cur sc) (ch "<")) as [E|]; [by apply (makes_second (ch "<") TOKEN_LEFT_SHIFT)|].
    destruct (Z.eqb_spec (cur sc) (ch "=")) as [E|]; [by apply (makes_second (ch "=") TOKEN_LESS_EQUAL)|].
    by apply makes_token. }
  destruct (c =? ch ">").
  { eapply makes_after; [by apply peek_run|by apply ext_refl|].
    destruct (Z.eqb_spec (cur sc) (ch ">")) as [E|]; [by apply (makes_second (ch ">") TOKEN_RIGHT_SHIFT)|].
    destruct (Z.eqb_spec (cur sc) (ch "=")) as [E|]; [by apply (makes_second (ch "=") TOKEN_GREATER_EQUAL)|].
    by apply makes_token. }
  destruct (c =? 34); [by apply string_makes|by apply makes_error].
Qed.

Lemma single_not_eof c ty :
  switch c (map (λ kv, (kv.1, Some kv.2)) single_tokens) None = Some ty → ty ≠ TOKEN_EOF.
Proof.
  unfold single_tokens. cbn [switch map fst snd]. intros H.
  repeat (case_match; [congruence|]). done.
Qed.

(** ** [scanToken] *)

(** What one call does: the token starts where the blanks end; it is the end
    token exactly at a terminator, and otherwise takes at least a character. *)
Definition token_step (a : ObjScanner) (t : Token) (b : ObjScanner) : Prop :=
  inv b ∧ source b = source a ∧ (current a <= start b <= current b)%nat ∧ token_ok b t ∧
  blank_char (dg (source a) (start b)) = false ∧
  (if decide (type t = TOKEN_EOF) then start b = current b ∧ cur b = 0
   else (start b < current b)%nat).

Lemma scanToken_run sc :
  inv sc → no_final_backslash (source sc) →
  ∃ t sc', scanToken sc = Some (t, sc') ∧ token_step sc t sc'.
Proof.
  intros HI Hbs. unfold scanToken, scanToken_. pose proof (inv_in _ HI).
  destruct (skipWhitespace_run (S (length (source sc))) sc HI ltac:(lia)) as (s1 & E1 & X1 & Hb).
  step_with E1. step_with (eq_refl (get_scanner s1)). step_with (eq_refl (set_start (current s1) s1)).
  set (s2 := mkScanner (source s1) (current s1) (current s1) (line s1)).
  assert (inv s2) as I2 by (destruct (ext_inv _ _ X1); by split).
  assert (source s2 = source sc) as Es by apply X1.
  assert (start s2 = current s1) as Est by done.
  step_with (isAtEnd_run s2 I2). change (cur s2) with (cur s1).
  pose proof (ext_current _ _ X1) as Hc1.
  destruct (Z.eqb_spec (cur s1) 0) as [Hz|Hz].
  { destruct (makeToken_run TOKEN_EOF s2) as (t & E & Ht & Hok). exists t, s2. split; [done|].
    unfold token_step. rewrite decide_True by done. split_and!; try done; try (simpl; lia).
    simpl. rewrite <-(ext_source _ _ X1). done. }
  pose proof (cur_in s2 I2 Hz) as Hlt.
  assert (cur s2 ≠ 10) as Hn.
  { intros Hc. change (cur s2) with (cur s1) in Hc. rewrite Hc in Hb. done. }
  step_with (advance_run s2 Hlt). change (cur s2) with (cur s1).
  pose proof (fwd_ext s2 I2 Hlt Hn) as Xf. set (s3 := fwd s2) in *.
  assert (length (source s3) - current s3 < S (length (source sc)))%nat as Hf3.
  { rewrite (ext_source _ _ Xf), Es. lia. }
  assert (no_final_backslash (source s3)) as Hbs3 by (rewrite (ext_source _ _ Xf), Es; done).
  assert (∀ f, makes f s3 → ∃ t sc', f s3 = Some (t, sc') ∧ token_step sc t sc') as Hdone.
  { intros f (t & s4 & E & X4 & Hok & Hne). exists t, s4. split; [done|].
    pose proof (ext_current _ _ X4). pose proof (ext_start _ _ X4). simpl in *.
    unfold token_step. rewrite decide_False by done.
    split_and!; try done; try lia; try apply X4.
    - rewrite (ext_source _ _ X4). apply X1.
    - replace (start s4) with (current s1) by congruence. rewrite <-(ext_source _ _ X1). done. }
  destruct (isAlpha (cur s1)); [apply Hdone, identifier_makes; [apply Xf|done]|].
  destruct (isDigit (cur s1)); [apply Hdone, number_makes; [apply Xf|done]|].
  destruct (switch (cur s1) _ None) as [ty|] eqn:Esw.
  - apply Hdone, makes_token; [apply Xf|by eapply single_not_eof].
  - apply Hdone, scan_operator_makes; [apply Xf|done|done].
Qed.

(** ** A backslash at the end of the source *)

(** A character of the literal that ends nothing. *)
Definition inert (c : Z) : Prop := c ≠ 34 ∧ c ≠ 92 ∧ c ≠ 0.

Lemma peek_at_end sc : (current sc <= length (source sc))%nat → peek sc = Some (cur sc, sc).
Proof. intros H. unfold peek. step_with (eq_refl (get_scanner sc)). by apply char_at_run. Qed.
Lemma string_cond_outside sc : (length (source sc) < current sc)%nat → string_cond sc = None.
Proof.
  intros H. unfold string_cond, peek, get_scanner, char_at, mbind, st_bind.
  by rewrite (proj2 (Nat.ltb_ge _ _)), (proj2 (Nat.eqb_neq _ _)) by lia.
Qed.
(** [advance] at the terminator itself is still inside the text. *)
Lemma advance_at_end sc : (current sc <= length (source sc))%nat → advance sc = Some (cur sc, fwd sc).
Proof.
  intros H. unfold advance. step_with (eq_refl (get_scanner sc)).
  step_with (eq_refl (set_current (S (current sc)) sc)). by rewrite char_at_run by (simpl; lia).
Qed.

Lemma string_loop_overrun fuel : ∀ t pre sc,
  Forall inert t → source sc = pre ++ t ++ [92] → current sc = length pre →
  while_ fuel string_cond string_step sc = None.
Proof.
  induction fuel as [|fuel IH]; intros t pre sc Ht Hs Hc; [done|]. cbn [while_].
  assert (current sc < length (source sc))%nat as Hlt by (rewrite Hs, !length_app; simpl; lia).
  assert (∀ c l, source sc = pre ++ c :: l → peek sc = Some (c, sc)) as Hpk.
  { intros c l E. unfold peek. step_with (eq_refl (get_scanner sc)). rewrite char_at_run by lia.
    rewrite E, Hc. unfold dg. by rewrite list_lookup_middle. }
  destruct t as [|c t].
  - specialize (Hpk 92 [] Hs).
    assert (string_cond sc = Some (true, sc)) as Ec.
    { unfold string_cond. step_with Hpk. unfold isAtEnd. simpl.
      erewrite st_bind_run; [|by step_with Hpk]. done. }
    step_with Ec. cbv iota.
    assert (length (source (fwd sc)) = current (fwd sc)) as Hend by (simpl; rewrite Hs, length_app, Hc; simpl; lia).
    assert (cur (fwd sc) = 0) as Hcf by (by apply cur_end).
    assert (string_step sc = Some ((), fwd (fwd sc))) as Es.
    { unfold string_step. step_with Hpk. simpl.
      erewrite st_bind_run; [|by step_with (advance_run sc Hlt)].
      erewrite st_bind_run; [|apply peek_at_end; lia]. rewrite Hcf. simpl. step.
      by erewrite st_bind_run by (apply advance_at_end; lia). }
    step_with Es.
    destruct fuel as [|fuel]; [done|]. cbn [while_].
    erewrite st_bind_run_or; [|apply string_cond_outside; simpl in *; lia]. done.
  - apply list.Forall_cons in Ht as [(H34 & H92 & H0) Ht]. simpl in Hs. specialize (Hpk c _ Hs).
    assert (string_cond sc = Some (true, sc)) as Ec.
    { unfold string_cond. step_with Hpk. rewrite (proj2 (Z.eqb_neq _ _) H34). unfold isAtEnd.
      erewrite st_bind_run; [|by step_with Hpk]. by rewrite (proj2 (Z.eqb_neq _ _) H0). }
    step_with Ec. cbv iota.
    assert (∃ l, string_step sc = Some ((), mkScanner (source sc) (start sc) (S (current sc)) l)) as [l El].
    { unfold string_step. destruct (Z.eqb_spec c 10) as [Hn|Hn].
      - eexists. step_with Hpk. rewrite (proj2 (Z.eqb_neq _ _) H92). step. step_with Hpk. rewrite Hn.
        simpl. step_with (eq_refl (next_line sc)).
        by step_with (advance_run (mkScanner (source sc) (start sc) (current sc) (line sc + 1)) Hlt).
      - eexists. step_with Hpk. rewrite (proj2 (Z.eqb_neq _ _) H92). step. step_with Hpk.
        rewrite (proj2 (Z.eqb_neq _ _) Hn). step. by step_with (advance_run sc Hlt). }
    step_with El. apply (IH t (pre ++ [c])); [done| |].
    + simpl. by rewrite <-app_assoc.
    + simpl. rewrite length_app. simpl. lia.
Qed.

(** ** All the tokens of a source *)

(** The parser calls [scanToken] until the end token. *)
Fixpoint scan_all (fuel : nat) (sc : ObjScanner) : option (list (Token * ObjScanner)) :=
  match fuel with
  | O => None
  | S fuel' =>
      match scanToken sc with
      | None => None
      | Some (t, sc') =>
          if decide (type t = TOKEN_EOF) then Some [(t, sc')]
          else option_map (cons (t, sc')) (scan_all fuel' sc')
      end
  end.

(** Each token follows the one before it, and the last is the end token. *)
Fixpoint chain (a : ObjScanner) (l : list (Token * ObjScanner)) : Prop :=
  match l with
  | [] => False
  | (t, b) :: l' =>
      token_step a t b ∧ (if decide (type t = TOKEN_EOF) then l' = [] else chain b l')
  end.

Lemma scan_all_run fuel : ∀ sc,
  inv sc → no_final_backslash (source sc) → (length (source sc) - current sc < fuel)%nat →
  ∃ ts, scan_all fuel sc = Some ts ∧ chain sc ts ∧ (length ts <= S (length (source sc) - current sc))%nat.
Proof.
  induction fuel as [|fuel IH]; intros sc HI Hbs Hf; [lia|]. cbn [scan_all].
  destruct (scanToken_run sc HI Hbs) as (t & s1 & E & Hs). rewrite E.
  pose proof Hs as (I1 & Es & [Hc1 Hc2] & _ & _ & Hend). pose proof (inv_in _ I1).
  destruct (decide (type t = TOKEN_EOF)) as [Ht|Ht].
  - eexists. split; [done|]. cbn [chain length]. rewrite decide_True by done. split; [done|lia].
  - destruct (IH s1 I1) as (ts & Ets & Hts & Hn); [by rewrite Es|rewrite Es in *; lia|].
    rewrite Ets. eexists. split; [done|]. cbn [chain length]. rewrite decide_False by done.
    split; [done|]. rewrite Es in *. lia.
Qed.

(** ** Properties *)

(** C25. A word is a keyword exactly if it is in the table, or one of the two
    misspellings "coeek" and "teis", which the missing [break]s of
    [identifierType] turn into [cpeek] and [this]. *)
Theorem identifierType_table w :
  identifierType w =
    match lookup_word w keywords with
    | Some ty => ty
    | None => if bool_decide (w = codes "coeek") then TOKEN_CPEEK
              else if bool_decide (w = codes "teis") then TOKEN_THIS
              else TOKEN_IDENTIFIER
    end.
Proof.
  rewrite identifierType_lookup.
  assert (∀ a, lookup_word w (a ++ misspelt) =
    match lookup_word w a with Some t => Some t | None => lookup_word w misspelt end) as ->.
  { intros a. induction a as [|[k t] a IH]; simpl; [done|]. by destruct (bool_decide (w = codes k)). }
  destruct (lookup_word w keywords); [done|]. unfold misspelt. cbn [lookup_word].
  repeat case_bool_decide; done.
Qed.

(** C11. The scanner terminates on every source that does not end with a
    backslash: each token starts after the previous one, takes at least a
    character, starts at no blank and lies inside the source; lines are the
    newlines passed; the last token, and no other, is the end token, at a
    terminator. *)
Theorem scan_all_total src :
  no_final_backslash src →
  ∃ ts, scan_all (S (length src)) (newScanner src) = Some ts ∧ chain (newScanner src) ts ∧
    (length ts <= S (length src))%nat.
Proof.
  intros Hbs. destruct (scan_all_run (S (length src)) (newScanner src)) as (ts & E & Hc & Hn).
  - split; simpl; [lia|done].
  - done.
  - simpl. lia.
  - exists ts. split; [done|]. split; [done|]. simpl in Hn. lia.
Qed.

Lemma scan_all_total_witness :
  ∃ ts, scan_all 13 (newScanner (codes "var x = 0x1F")) = Some ts ∧
    chain (newScanner (codes "var x = 0x1F")) ts ∧ (length ts <= 13)%nat.
Proof. apply (scan_all_total (codes "var x = 0x1F")). vm_compute. discriminate. Defined.

(** An unterminated string literal whose last character is a backslash
    takes the scanner past the terminator of the source: the backslash is
    skipped with the terminator, and the loop reads on. *)
Theorem final_backslash_overruns t :
  Forall inert t → scanToken (newScanner (34 :: t ++ [92])) = None.
Proof.
  intros Ht. unfold scanToken, scanToken_. set (sc := newScanner (34 :: t ++ [92])).
  assert (inv sc) as HI by (split; simpl; [lia|done]).
  assert (cur sc = 34) as Hc by done.
  assert (current sc < length (source sc))%nat as Hlt by (simpl; lia).
  assert (skipWhitespace (S (length (source sc))) sc = Some ((), sc)) as Ew.
  { cbn [skipWhitespace]. step_with (peek_run sc HI). by rewrite Hc. }
  step_with Ew. step_with (eq_refl (get_scanner sc)). step_with (eq_refl (set_start (current sc) sc)).
  step_with (isAtEnd_run sc HI). rewrite Hc. simpl (34 =? 0). cbv iota.
  step_with (advance_run sc Hlt). rewrite Hc. cbn [isAlpha isDigit].
  change (string_ (S (length (source sc))) (fwd sc) = None). unfold string_. fold string_cond string_step.
  erewrite st_bind_run_or; [|by apply (string_loop_overrun _ t [34])]. done.
Qed.

Lemma final_backslash_overruns_witness :
  scanToken (newScanner (34 :: codes "abc" ++ [92])) = None.
Proof.
  apply (final_backslash_overruns (codes "abc")). repeat constructor; vm_compute; discriminate.
Defined.
