(* ===== verification/Table.v ===== *)
(** * Hash tables

    [cyarg/table.c]: open addressing with linear probing and tombstones, for
    [ValueTable] and [ValueCellTable].  The two tables are the same code on
    two types of contents; here one set of operations works on any type that
    meets the interface [TableValue].  Keys are pointers to interned strings,
    compared by address. *)
From stdpp Require Export fin_maps.
From S2P Require Export Prelude.
Open Scope Z_scope.

(** What a table asks of the values it holds: a nil that marks empty slots,
    and a value that marks deleted ones. *)
Class TableValue (V : Type) := {
  is_nil : V → bool;
  is_true : V → bool;         (* [valuesEqual(value, BOOL_VAL(true))] *)
  nil_value : V;
  tombstone : V;
  nil_is_nil : is_nil nil_value = true;
  nil_not_true : is_true nil_value = false;
  tombstone_not_nil : is_nil tombstone = false;
  tombstone_true : is_true tombstone = true
}.

(** Addresses of string objects, and what the table reads there. *)
Abbreviation strptr := positive.
Record ObjString := mkObjString { chars : list Z; hash : Z; isMarked : bool }.

Section Table.
Context {V : Type} `{TV : TableValue V}.
(** The string objects of the heap. *)
Variable str : strptr → ObjString.
Variable checks : bool.

Record Entry := mkEntry { key : option strptr; value : V }.
Record Table := mkTable { count : Z; capacity : nat; entries : list Entry }.

Definition initTable : Table := mkTable 0 0 [].

(** [x & (capacity - 1)] *)
Definition mask (x : Z) (capacity : nat) : nat := Z.to_nat (Z.land x (Z.of_nat capacity - 1)).

(** The probe loop of [findEntry]: [None] if it goes round without finding
    the key or an empty slot (it then never ends), or leaves the array. *)
Fixpoint probe (fuel : nat) (es : list Entry) (capacity : nat) (k : strptr)
    (index : nat) (tomb : option nat) : option nat :=
  match fuel with
  | O => None
  | S fuel' =>
      e ← es !! index;
      let next := mask (Z.of_nat index + 1) capacity in
      match key e with
      | None =>
          if is_nil (value e) then Some (default index tomb)
          else probe fuel' es capacity k next (Some (default index tomb))
      | Some k' =>
          if decide (k' = k) then Some index else probe fuel' es capacity k next tomb
      end
  end.

Definition findEntry (es : list Entry) (capacity : nat) (k : strptr) : option nat :=
  probe (S capacity) es capacity k (mask (hash (str k)) capacity) None.

Definition tableGet (t : Table) (k : strptr) : option (option V) :=
  if count t =? 0 then Some None
  else
    i ← findEntry (entries t) (capacity t) k;
    e ← entries t !! i;
    match key e with None => Some None | Some _ => Some (Some (value e)) end.

Definition tableInvariant (t : Table) : bool :=
  if (capacity t =? 0)%nat then count t =? 0
  else
    let actualCount := length (List.filter (λ e, match key e with Some _ => true | None => false end) (entries t)) in
    let tombCount := length (List.filter (λ e, match key e with Some _ => false | None => is_true (value e) end) (entries t)) in
    Z.of_nat actualCount + Z.of_nat tombCount =? count t.
(** The functions of [ValueTable] assert the invariant; those of
    [ValueCellTable] do not. *)
Definition check (t : Table) : option () := if checks && negb (tableInvariant t) then None else Some ().

(** The loop of [adjustCapacity] over the old entries. *)
Fixpoint rehash (old : list Entry) (es : list Entry) (capacity : nat) (count : Z)
    : option (list Entry * Z) :=
  match old with
  | [] => Some (es, count)
  | e :: old' =>
      match key e with
      | None => rehash old' es capacity count
      | Some k =>
          dest ← findEntry es capacity k;
          rehash old' (<[dest := mkEntry (Some k) (value e)]> es) capacity (count + 1)
      end
  end.

Definition adjustCapacity (t : Table) (cap : nat) : option Table :=
  '(es, n) ← rehash (entries t) (replicate cap (mkEntry None nil_value)) cap 0;
  let t' := mkTable n cap es in
  _ ← check t';
  Some t'.

Definition GROW_CAPACITY (capacity : nat) : nat :=
  if (capacity <? 8)%nat then 8%nat else (capacity * 2)%nat.

(** [count + 1 > capacity * TABLE_MAX_LOAD], with a load of 0.75. *)
Definition too_full (t : Table) : bool := 3 * Z.of_nat (capacity t) <? 4 * (count t + 1).

Definition tableSet (t : Table) (k : strptr) (v : V) : option (bool * Table) :=
  _ ← check t;
  t ← (if too_full t then adjustCapacity t (GROW_CAPACITY (capacity t)) else Some t);
  i ← findEntry (entries t) (capacity t) k;
  e ← entries t !! i;
  let isNewKey := match key e with None => true | Some _ => false end in
  let n := if isNewKey && is_nil (value e) then count t + 1 else count t in
  Some (isNewKey, mkTable n (capacity t) (<[i := mkEntry (Some k) v]> (entries t))).

Definition tableDelete (t : Table) (k : strptr) : option (bool * Table) :=
  if count t =? 0 then Some (false, t)
  else
    i ← findEntry (entries t) (capacity t) k;
    e ← entries t !! i;
    match key e with
    | None => Some (false, t)
    | Some _ =>
        Some (true, mkTable (count t) (capacity t) (<[i := mkEntry None tombstone]> (entries t)))
    end.

Fixpoint add_entries (es : list Entry) (to : Table) : option Table :=
  match es with
  | [] => Some to
  | e :: es' =>
      match key e with
      | None => add_entries es' to
      | Some k => '(_, to) ← tableSet to k (value e); add_entries es' to
      end
  end.
Definition tableAddAll (from to : Table) : option Table := add_entries (entries from) to.

(** The loop of [tableFindString]; [Some None] is a null result. *)
Fixpoint find_string (fuel : nat) (es : list Entry) (capacity : nat)
    (cs : list Z) (h : Z) (index : nat) : option (option strptr) :=
  match fuel with
  | O => None
  | S fuel' =>
      e ← es !! index;
      let next := mask (Z.of_nat index + 1) capacity in
      match key e with
      | None => if is_nil (value e) then Some None else find_string fuel' es capacity cs h next
      | Some k =>
          if (length (chars (str k)) =? length cs)%nat && (hash (str k) =? h) &&
             bool_decide (chars (str k) = cs)
          then Some (Some k) else find_string fuel' es capacity cs h next
      end
  end.
Definition tableFindString (t : Table) (cs : list Z) (h : Z) : option (option strptr) :=
  _ ← check t;
  if count t =? 0 then Some None
  else find_string (S (capacity t)) (entries t) (capacity t) cs h (mask h (capacity t)).

(** [i] counts up to the capacity; [n] iterations are left. *)
Fixpoint remove_white (n i : nat) (t : Table) : option Table :=
  match n with
  | O => Some t
  | S n' =>
      e ← entries t !! i;
      match key e with
      | Some k =>
          if negb (isMarked (str k)) then '(_, t) ← tableDelete t k; remove_white n' (S i) t
          else remove_white n' (S i) t
      | None => remove_white n' (S i) t
      end
  end.
Definition tableRemoveWhite (t : Table) : option Table :=
  _ ← check t;
  t ← remove_white (capacity t) 0 t;
  _ ← check t;
  Some t.
End Table.

Arguments Entry : clear implicits.
Arguments Table : clear implicits.

(** [hashString]: an addition where FNV-1a multiplies. *)
Definition hashString (key : list Z) : Z :=
  fold_left (λ h c, u32 (Z.lxor h (u8 c) + 16777619)) key 2166136261.
