(* ===== verification/TableSpec.v ===== *)
(** * Hash tables: they implement finite maps

    The invariant of the probe sequences, the finite map a table stands for,
    and the refinement: every operation ends, and does to the map what its
    name says. *)
From S2P Require Export Table.

Section Spec.
Context {V : Type} `{TV : TableValue V}.
Variable str : strptr → ObjString.
Variable checks : bool.
(** [hash] is a [uint32_t]. *)
Hypothesis hash_range : ∀ k, 0 ≤ hash (str k) < 2 ^ 32.

Abbreviation Entry := (Entry V).
Abbreviation Table := (Table V).

(** ** Slots *)
Definition is_free (e : Entry) : bool :=
  match key e with None => is_nil (value e) | Some _ => false end.

Definition pow2 (c : nat) : Prop := ∃ n, c = (2 ^ n)%nat.
Definition slot (cap h j : nat) : nat := ((h + j) mod cap)%nat.
Definition home (cap : nat) (h : Z) : nat := Z.to_nat (h mod Z.of_nat cap).

Lemma pow2_pos c : pow2 c → (0 < c)%nat.
Proof. intros [n ->]. pose proof (Nat.pow_nonzero 2 n). lia. Qed.

Lemma mask_mod c x : pow2 c → 0 ≤ x → mask x c = home c x.
Proof.
  intros [n ->] Hx. unfold mask, home. rewrite Nat2Z.inj_pow. change (Z.of_nat 2) with 2.
  rewrite <-Z.land_ones by lia. by rewrite Z.ones_equiv, <-Z.sub_1_r.
Qed.

Lemma home_lt c h : pow2 c → (home c h < c)%nat.
Proof.
  intros H. pose proof (pow2_pos c H). unfold home.
  pose proof (Z.mod_pos_bound h (Z.of_nat c) ltac:(lia)). lia.
Qed.

Lemma slot_lt c h j : (0 < c)%nat → (slot c h j < c)%nat.
Proof. intros. apply Nat.mod_upper_bound. lia. Qed.

Lemma slot_0 c h : (h < c)%nat → slot c h 0 = h.
Proof. intros. unfold slot. rewrite Nat.add_0_r. by apply Nat.mod_small. Qed.

Lemma slot_next c h j : pow2 c → mask (Z.of_nat (slot c h j) + 1) c = slot c h (S j).
Proof.
  intros H. pose proof (pow2_pos c H). rewrite mask_mod by (done || lia). unfold home, slot.
  replace (Z.of_nat ((h + j) mod c) + 1) with (Z.of_nat ((h + j) mod c + 1)) by lia.
  rewrite <-Nat2Z.inj_mod, Nat2Z.id, Nat.Div0.add_mod_idemp_l. f_equal. lia.
Qed.

(** Every slot is on the way from every home. *)
Lemma slot_reaches c h i : (h < c)%nat → (i < c)%nat → ∃ j, (j < c)%nat ∧ slot c h j = i.
Proof.
  intros Hh Hi. unfold slot. destruct (decide (h <= i)%nat).
  - exists (i - h)%nat. split; [lia|]. replace (h + (i - h))%nat with i by lia. by apply Nat.mod_small.
  - exists (c - h + i)%nat. split; [lia|]. replace (h + (c - h + i))%nat with (i + 1 * c)%nat by lia.
    rewrite Nat.Div0.mod_add. by apply Nat.mod_small.
Qed.

(** ** The array of entries *)
Definition free_at (es : list Entry) (i : nat) : Prop := ∃ e, es !! i = Some e ∧ is_free e = true.

Record arr (cap : nat) (es : list Entry) : Prop := {
  arr_pow : pow2 cap;
  arr_len : length es = cap;
  arr_nil : ∀ i e, es !! i = Some e → key e = None → is_nil (value e) = true ∧ is_true (value e) = false ∨
                                                       value e = tombstone;
  arr_inj : ∀ i j e e' k, es !! i = Some e → es !! j = Some e' → key e = Some k → key e' = Some k → i = j;
  arr_probe : ∀ i e k, es !! i = Some e → key e = Some k →
    ∃ j, (j < cap)%nat ∧ i = slot cap (home cap (hash (str k))) j ∧
      ∀ j', (j' < j)%nat → ¬ free_at es (slot cap (home cap (hash (str k))) j')
}.

Lemma arr_at cap es h j : arr cap es → ∃ e, es !! (slot cap h j) = Some e.
Proof.
  intros H. apply lookup_lt_is_Some_2. rewrite (arr_len _ _ H). apply slot_lt, pow2_pos, H.
Qed.

(** A key is somewhere in the array. *)
Definition has (es : list Entry) (k : strptr) (v : V) : Prop := ∃ i, es !! i = Some (mkEntry (Some k) v).

(** What [findEntry] finds. *)
Definition found (cap : nat) (es : list Entry) (k : strptr) (r : nat) : Prop :=
  ∃ e, es !! r = Some e ∧
    (key e = Some k ∨
     key e = None ∧ (∀ v, ¬ has es k v) ∧
     ∃ j, (j < cap)%nat ∧ r = slot cap (home cap (hash (str k))) j ∧
       ∀ j', (j' < j)%nat → ¬ free_at es (slot cap (home cap (hash (str k))) j')).

Lemma absent cap es k jend :
  arr cap es → free_at es (slot cap (home cap (hash (str k))) jend) →
  (∀ j', (j' < jend)%nat → ∀ e, es !! slot cap (home cap (hash (str k))) j' = Some e → key e ≠ Some k) →
  ∀ v, ¬ has es k v.
Proof.
  intros H Hfree Hno v [i Hi].
  destruct (arr_probe _ _ H i _ k Hi eq_refl) as (j & Hj & -> & Hbefore).
  destruct (Nat.lt_trichotomy j jend) as [Hlt|[->|Hlt]].
  - by apply (Hno j Hlt _ Hi).
  - destruct Hfree as (e & He & Hf). rewrite Hi in He. injection He as <-. done.
  - by apply (Hbefore jend Hlt).
Qed.

Section Find.
Variables (cap : nat) (es : list Entry) (k : strptr).
Hypothesis H : arr cap es.
Local Abbreviation at_ j := (slot cap (home cap (hash (str k))) j).

(** The tombstone remembered after [j] steps. *)
Definition remembered (j : nat) (tomb : option nat) : Prop :=
  match tomb with
  | None => True
  | Some t => ∃ jt, (jt < j)%nat ∧ t = at_ jt ∧ ∃ e, es !! t = Some e ∧ key e = None
  end.

Lemma probe_run fuel : ∀ j tomb,
  (∀ j', (j' < j)%nat → ¬ free_at es (at_ j')) →
  (∀ j', (j' < j)%nat → ∀ e, es !! at_ j' = Some e → key e ≠ Some k) →
  remembered j tomb →
  (∃ je, (j <= je < cap)%nat ∧ free_at es (at_ je)) →
  (cap - j < fuel)%nat →
  ∃ r, probe fuel es cap k (at_ j) tomb = Some r ∧ found cap es k r.
Proof.
  induction fuel as [|fuel IH]; intros j tomb Hnf Hnk Htomb (je & Hje & Hfree) Hf; [lia|].
  cbn [probe]. destruct (arr_at cap es (home cap (hash (str k))) j H) as [e He]. rewrite He. simpl.
  rewrite slot_next by apply H.
  assert (key e ≠ Some k → is_free e = false → ∀ tomb', remembered (S j) tomb' →
    ∃ r, probe fuel es cap k (at_ (S j)) tomb' = Some r ∧ found cap es k r) as Hgo.
  { intros Hek Hef tomb' Ht'. apply IH; [| |done| |lia].
    - intros j' Hj'. destruct (decide (j' = j)) as [->|]; [|apply Hnf; lia].
      intros (e' & He' & Hf'). congruence.
    - intros j' Hj' e' He'. destruct (decide (j' = j)) as [->|]; [congruence|]. apply (Hnk j'); [lia|done].
    - exists je. split; [|done]. assert (je ≠ j); [|lia]. intros ->. destruct Hfree as (e' & He' & Hf'). congruence. }
  destruct (key e) as [k'|] eqn:Ek.
  - case_decide as Hk.
    + exists (at_ j). split; [done|]. exists e. split; [done|]. left. congruence.
    + apply Hgo; [congruence|unfold is_free; by rewrite Ek|]. destruct tomb as [t|]; [|done].
      destruct Htomb as (jt & ? & ?). exists jt. split; [lia|done].
  - destruct (is_nil (value e)) eqn:En.
    + assert (free_at es (at_ j)) as Hfj by (exists e; unfold is_free; by rewrite Ek).
      assert (∀ v, ¬ has es k v) as Habs by (by apply (absent cap es k j)).
      eexists. split; [done|]. destruct tomb as [t|]; simpl.
      * destruct Htomb as (jt & Hjt & -> & et & Het & Hkt). exists et. split; [done|]. right.
        split; [done|]. split; [done|]. exists jt. split; [lia|]. split; [done|]. intros. apply Hnf. lia.
      * exists e. split; [done|]. right. split; [done|]. split; [done|]. exists j. split; [lia|]. done.
    + apply Hgo; [done|unfold is_free; by rewrite Ek|]. destruct tomb as [t|]; simpl.
      * destruct Htomb as (jt & ? & ?). exists jt. split; [lia|done].
      * exists j. split; [lia|]. split; [done|]. by exists e.
Qed.

Lemma findEntry_run :
  (∃ i, free_at es i) → ∃ r, findEntry str es cap k = Some r ∧ found cap es k r.
Proof.
  intros [i Hi]. unfold findEntry. pose proof (hash_range k).
  rewrite mask_mod by (apply H || lia). pose proof (home_lt cap (hash (str k)) (arr_pow _ _ H)) as Hh.
  assert (home cap (hash (str k)) = at_ 0) as Eh by (symmetry; by apply slot_0).
  rewrite Eh. apply probe_run; try (intros; lia); [done|].
  assert (i < cap)%nat.
  { destruct Hi as (e & He & _). apply lookup_lt_Some in He. by rewrite (arr_len _ _ H) in He. }
  destruct (slot_reaches cap (home cap (hash (str k))) i Hh ltac:(done)) as (je & Hje & Es).
  exists je. rewrite Es. split; [lia|done].
Qed.
End Find.

(** ** The finite map of an array *)
Definition bindings (es : list Entry) : list (strptr * V) :=
  omap (λ e, match key e with Some k => Some (k, value e) | None => None end) es.
Definition contents (es : list Entry) : gmap strptr V := list_to_map (bindings es).

Definition inj (es : list Entry) : Prop :=
  ∀ i j e e' k, es !! i = Some e → es !! j = Some e' → key e = Some k → key e' = Some k → i = j.

Lemma bindings_spec es k v : (k, v) ∈ bindings es ↔ has es k v.
Proof.
  unfold bindings. rewrite list_elem_of_omap. split.
  - intros (e & He & Hb). apply list_elem_of_lookup_1 in He as [i Hi]. exists i.
    destruct e as [[k'|] v']; simpl in Hb; [|done]. by injection Hb as -> ->.
  - intros [i Hi]. exists (mkEntry (Some k) v). split; [by eapply list_elem_of_lookup_2|done].
Qed.

Lemma bindings_keys es k : k ∈ (bindings es).*1 ↔ ∃ v, has es k v.
Proof.
  rewrite list_elem_of_fmap. split.
  - intros ([k' v] & -> & Hb). exists v. by apply bindings_spec.
  - intros [v Hv]. exists (k, v). split; [done|]. by apply bindings_spec.
Qed.

Lemma bindings_nodup es : inj es → NoDup (bindings es).*1.
Proof.
  induction es as [|e es IH]; intros Hinj; [apply base.NoDup_nil_2|].
  assert (inj es) as Hinj'.
  { intros i j e1 e2 k H1 H2 H3 H4. pose proof (Hinj (S i) (S j) e1 e2 k H1 H2 H3 H4). lia. }
  destruct e as [[k|] v]; [|by apply IH].
  change (bindings (mkEntry (Some k) v :: es)) with ((k, v) :: bindings es). simpl.
  apply list.NoDup_cons. split; [|by apply IH].
  rewrite bindings_keys. intros (v' & i & Hi).
  pose proof (Hinj 0%nat (S i) _ _ k eq_refl Hi eq_refl eq_refl). done.
Qed.

Lemma contents_lookup es k v : inj es → contents es !! k = Some v ↔ has es k v.
Proof.
  intros Hi. unfold contents. rewrite <-elem_of_list_to_map by by apply bindings_nodup.
  apply bindings_spec.
Qed.

Lemma contents_none es k : inj es → contents es !! k = None ↔ ∀ v, ¬ has es k v.
Proof.
  intros Hi. split.
  - intros Hn v Hv. apply (contents_lookup _ _ _ Hi) in Hv. congruence.
  - intros Hn. destruct (contents es !! k) as [v|] eqn:E; [|done].
    apply (contents_lookup _ _ _ Hi) in E. by destruct (Hn v).
Qed.

(** ** Counting slots *)
Fixpoint used (es : list Entry) : Z :=
  match es with
  | [] => 0
  | e :: es' => (if is_free e then 0 else 1) + used es'
  end.

Lemma used_bound es : 0 ≤ used es ≤ Z.of_nat (length es).
Proof. induction es as [|e es IH]; simpl; [lia|]. destruct (is_free e); lia. Qed.

Lemma used_insert es i e e' :
  es !! i = Some e →
  used (<[i := e']> es) = used es - (if is_free e then 0 else 1) + (if is_free e' then 0 else 1).
Proof.
  revert i. induction es as [|x es IH]; intros [|i] Hi; try done.
  - injection Hi as ->. simpl. lia.
  - simpl in *. rewrite (IH i Hi). lia.
Qed.

Lemma used_free es : used es < Z.of_nat (length es) → ∃ i, free_at es i.
Proof.
  induction es as [|e es IH]; cbn [used length]; [lia|]. intros Hu.
  destruct (is_free e) eqn:Ef.
  - exists 0%nat, e. done.
  - destruct IH as (i & e' & He' & Hf'); [lia|]. by exists (S i), e'.
Qed.

(** ** Writing an entry *)
Section Write.
Variables (cap : nat) (es : list Entry) (r : nat) (e0 : Entry) (k : strptr).
Hypothesis (H : arr cap es) (Hr : es !! r = Some e0).

Lemma write_lookup e i e' :
  <[r := e]> es !! i = Some e' → (i = r ∧ e' = e) ∨ (i ≠ r ∧ es !! i = Some e').
Proof.
  intros Hi. destruct (decide (i = r)) as [->|Hne].
  - left. rewrite list_lookup_insert_eq in Hi by (by eapply lookup_lt_Some). split; congruence.
  - right. by rewrite list_lookup_insert_ne in Hi by done.
Qed.

Lemma write_free e i : is_free e = false → free_at (<[r := e]> es) i → free_at es i.
Proof.
  intros He (e' & Hi & Hf). apply write_lookup in Hi as [[-> ->]|[_ Hi]]; [congruence|by exists e'].
Qed.

Lemma put_arr v : found cap es k r → arr cap (<[r := mkEntry (Some k) v]> es).
Proof.
  intros (e & He & Hk). assert (e = e0) as -> by congruence.
  assert (∀ i e', es !! i = Some e' → key e' = Some k → i = r) as Huniq.
  { intros i e' Hi Hk'. destruct Hk as [Hk|(_ & Habs & _)].
    - by eapply (arr_inj _ _ H i r).
    - destruct e' as [k' v']. simpl in Hk'. subst. by destruct (Habs v' (ex_intro _ i Hi)). }
  split.
  - apply H.
  - rewrite length_insert. apply H.
  - intros i e' Hi Hn. apply write_lookup in Hi as [[-> ->]|[_ Hi]]; [done|by apply (arr_nil _ _ H i)].
  - intros i j e1 e2 k' H1 H2 K1 K2.
    apply write_lookup in H1 as [[-> ->]|[N1 H1]], H2 as [[-> ->]|[N2 H2]]; [done|..].
    + simpl in K1. injection K1 as <-. symmetry. by eapply Huniq.
    + simpl in K2. injection K2 as <-. by eapply Huniq.
    + by eapply (arr_inj _ _ H).
  - intros i e' k' Hi Hk'.
    assert (∃ j, (j < cap)%nat ∧ i = slot cap (home cap (hash (str k'))) j ∧
      ∀ j', (j' < j)%nat → ¬ free_at es (slot cap (home cap (hash (str k'))) j')) as (j & Hj & Ei & Hb).
    { apply write_lookup in Hi as [[-> ->]|[N1 Hi]]; [|by eapply (arr_probe _ _ H)].
      simpl in Hk'. injection Hk' as <-. destruct Hk as [Hk|(_ & _ & Hs)]; [|done].
      by eapply (arr_probe _ _ H). }
    exists j. split; [done|]. split; [done|]. intros j' Hj' Hfr. apply (Hb j' Hj').
    by eapply write_free; [|exact Hfr].
Qed.

Lemma put_has v k' v' :
  found cap es k r →
  has (<[r := mkEntry (Some k) v]> es) k' v' ↔ (k' = k ∧ v' = v) ∨ (k' ≠ k ∧ has es k' v').
Proof.
  intros Hf. pose proof (put_arr v Hf) as H'. split.
  - intros [i Hi]. destruct (write_lookup _ _ _ Hi) as [[-> Ee]|[N Hi']]; [left; by injection Ee as -> ->|].
    right. split; [|by exists i]. intros ->. apply N.
    apply (arr_inj _ _ H' i r _ (mkEntry (Some k) v) k Hi); [|done|done].
    apply list_lookup_insert_eq. by eapply lookup_lt_Some.
  - intros [[-> ->]|[N [i Hi]]].
    + exists r. apply list_lookup_insert_eq. by eapply lookup_lt_Some.
    + exists i. rewrite list_lookup_insert_ne; [done|]. intros ->.
      destruct Hf as (e & He & Hk). assert (e = mkEntry (Some k') v') as -> by congruence.
      destruct Hk as [Hk|(Hk & _)]; simpl in Hk; congruence.
Qed.

Lemma put_contents v :
  found cap es k r → contents (<[r := mkEntry (Some k) v]> es) = <[k := v]> (contents es).
Proof.
  intros Hf. apply map_eq. intros k'. apply option_eq. intros v'.
  rewrite contents_lookup by exact (arr_inj _ _ (put_arr v Hf)). rewrite put_has by done.
  rewrite lookup_insert_Some, contents_lookup by exact (arr_inj _ _ H). naive_solver.
Qed.

Lemma remove_arr : key e0 = Some k → arr cap (<[r := mkEntry None tombstone]> es).
Proof.
  intros Hk. split.
  - apply H.
  - rewrite length_insert. apply H.
  - intros i e' Hi Hn. apply write_lookup in Hi as [[-> ->]|[_ Hi]]; [by right|by apply (arr_nil _ _ H i)].
  - intros i j e1 e2 k' H1 H2 K1 K2.
    apply write_lookup in H1 as [[-> ->]|[N1 H1]]; [done|].
    apply write_lookup in H2 as [[-> ->]|[N2 H2]]; [done|]. by eapply (arr_inj _ _ H).
  - intros i e' k' Hi Hk'. apply write_lookup in Hi as [[-> ->]|[N1 Hi]]; [done|].
    destruct (arr_probe _ _ H i e' k' Hi Hk') as (j & Hj & Ei & Hb).
    exists j. split; [done|]. split; [done|]. intros j' Hj' Hfr. apply (Hb j' Hj').
    eapply write_free; [|exact Hfr]. unfold is_free. simpl. apply tombstone_not_nil.
Qed.

Lemma remove_contents :
  key e0 = Some k → contents (<[r := mkEntry None tombstone]> es) = delete k (contents es).
Proof.
  intros Hk. apply map_eq. intros k'. apply option_eq. intros v'.
  rewrite contents_lookup by exact (arr_inj _ _ (remove_arr Hk)).
  rewrite lookup_delete_Some, contents_lookup by exact (arr_inj _ _ H). split.
  - intros [i Hi]. destruct (write_lookup _ _ _ Hi) as [[-> ?]|[N Hi']]; [done|].
    split; [|by exists i]. intros ->. apply N. by eapply (arr_inj _ _ H).
  - intros [N [i Hi]]. exists i. rewrite list_lookup_insert_ne; [done|]. intros ->.
    rewrite Hr in Hi. injection Hi as ->. simpl in Hk. congruence.
Qed.
End Write.

(** ** Tables *)

(** The invariant: the initial table, or an array whose slots in use are
    counted, at most three quarters of it. *)
Definition wf_table (t : Table) : Prop :=
  (capacity t = 0%nat ∧ entries t = [] ∧ count t = 0) ∨
  ((8 <= capacity t)%nat ∧ arr (capacity t) (entries t) ∧ count t = used (entries t) ∧
   4 * count t ≤ 3 * Z.of_nat (capacity t)).

Abbreviation map_of t := (contents (entries t)).

Lemma actual_tomb cap es :
  arr cap es →
  Z.of_nat (length (List.filter (λ e, match key e with Some _ => true | None => false end) es)) +
  Z.of_nat (length (List.filter (λ e, match key e with Some _ => false | None => is_true (value e) end) es))
  = used es.
Proof.
  intros H. assert (∀ i e, es !! i = Some e → key e = None →
    is_true (value e) = negb (is_nil (value e))) as Hnil.
  { intros i e Hi Hk. destruct (arr_nil _ _ H i e Hi Hk) as [[-> ->]| ->]; [done|].
    by rewrite tombstone_true, tombstone_not_nil. }
  clear H. induction es as [|e es IH]; [done|]. cbn [List.filter used].
  assert (∀ i e, es !! i = Some e → key e = None → is_true (value e) = negb (is_nil (value e))) as Hnil'.
  { intros i e' Hi. by apply (Hnil (S i)). }
  specialize (IH Hnil'). specialize (Hnil 0%nat e eq_refl). unfold is_free.
  destruct (key e); cbn [length]; [lia|]. rewrite Hnil by done. destruct (is_nil (value e)); cbn [negb length]; lia.
Qed.

Lemma wf_invariant t : wf_table t → tableInvariant t = true.
Proof.
  intros [(Hc & He & Hn)|(Hc & Ha & Hn & _)]; unfold tableInvariant.
  - by rewrite Hc, Hn.
  - rewrite (proj2 (Nat.eqb_neq _ _)) by lia. apply Z.eqb_eq. rewrite Hn. by eapply actual_tomb.
Qed.

Lemma check_run t : wf_table t → check checks t = Some ().
Proof. intros H. unfold check. rewrite wf_invariant by done. by rewrite andb_false_r. Qed.

Lemma wf_free t : wf_table t → (0 < capacity t)%nat → ∃ i, free_at (entries t) i.
Proof.
  intros [(Hc & _)|(Hc & Ha & Hn & Hl)] Hpos; [lia|]. apply used_free. rewrite (arr_len _ _ Ha). lia.
Qed.

Lemma wf_arr t : wf_table t → count t ≠ 0 → arr (capacity t) (entries t) ∧ ∃ i, free_at (entries t) i.
Proof.
  intros H Hn. destruct H as [(_ & _ & ?)|(Hc & Ha & Hn' & Hl)]; [done|]. split; [done|].
  apply used_free. rewrite (arr_len _ _ Ha). lia.
Qed.

Lemma wf_inj t : wf_table t → inj (entries t).
Proof.
  intros [(_ & -> & _)|(_ & Ha & _)]; [intros i j e e' k Hi; by rewrite lookup_nil in Hi|exact (arr_inj _ _ Ha)].
Qed.

Lemma contents_empty t : wf_table t → count t = 0 → map_of t = ∅.
Proof.
  intros H Hn. apply map_empty. intros k. rewrite contents_none by by apply wf_inj.
  intros v [i Hi]. destruct H as [(_ & He & _)|(Hc & Ha & Hu & _)].
  - rewrite He in Hi. by rewrite lookup_nil in Hi.
  - rewrite Hn in Hu. pose proof (used_insert _ i _ (mkEntry None nil_value) Hi) as Hd.
    unfold is_free in Hd. simpl in Hd. rewrite nil_is_nil in Hd.
    pose proof (used_bound (<[i:=mkEntry None nil_value]> (entries t))). lia.
Qed.

Lemma tableGet_run t k : wf_table t → tableGet str t k = Some (map_of t !! k).
Proof.
  intros H. unfold tableGet. destruct (Z.eqb_spec (count t) 0) as [Hz|Hz].
  { by rewrite contents_empty, lookup_empty. }
  destruct (wf_arr t H Hz) as [Ha Hf]. destruct (findEntry_run _ _ k Ha Hf) as (r & Er & e & He & Hk).
  rewrite Er. simpl. rewrite He. simpl. destruct Hk as [Hk|(Hk & Habs & _)]; rewrite Hk.
  - f_equal. symmetry. apply contents_lookup; [by apply wf_inj|]. exists r. rewrite He. by destruct e; simpl in *; subst.
  - f_equal. symmetry. apply contents_none; [by apply wf_inj|done].
Qed.

(** ** Growing *)
Lemma bindings_used es : Z.of_nat (length (bindings es)) ≤ used es.
Proof.
  induction es as [|[[k|] v] es IH]; [done| |].
  - change (bindings (mkEntry (Some k) v :: es)) with ((k, v) :: bindings es). cbn [length used is_free key]. lia.
  - change (bindings (mkEntry None v :: es)) with (bindings es). cbn [used]. destruct (is_free _); lia.
Qed.

Lemma contents_cons k v es : contents (mkEntry (Some k) v :: es) = <[k := v]> (contents es).
Proof. done. Qed.

Lemma inj_cons e es : inj (e :: es) → inj es ∧ ∀ k, key e = Some k → ∀ v, ¬ has es k v.
Proof.
  intros Hinj. split.
  - intros i j e1 e2 k H1 H2 H3 H4. pose proof (Hinj (S i) (S j) e1 e2 k H1 H2 H3 H4). lia.
  - intros k Hk v [i Hi]. by pose proof (Hinj 0%nat (S i) _ _ k eq_refl Hi Hk eq_refl).
Qed.

(** No tombstones. *)
Definition clean (es : list Entry) : Prop := ∀ i e, es !! i = Some e → key e = None → is_free e = true.

Lemma put_clean es r e k v : es !! r = Some e → clean es → clean (<[r := mkEntry (Some k) v]> es).
Proof.
  intros He Hc i e' Hi Hn. eapply write_lookup in Hi as [[-> ->]|[_ Hi]]; [done|by eapply Hc|exact He].
Qed.

Lemma rehash_run cap old : ∀ es,
  inj old → arr cap es → clean es → used es + Z.of_nat (length (bindings old)) < Z.of_nat cap →
  (∀ k v, has old k v → ∀ v', ¬ has es k v') →
  ∃ es', rehash str old es cap (used es) = Some (es', used es') ∧ arr cap es' ∧
    used es' = used es + Z.of_nat (length (bindings old)) ∧ contents es' = contents old ∪ contents es ∧ clean es'.
Proof.
  induction old as [|[[k|] v] old IH]; intros es Hinj Ha Hcl Hn Hdis; cbn [rehash key].
  - exists es. split_and!; try done; [simpl; lia|].
    change (contents []) with (∅ : gmap strptr V). by rewrite (left_id_L ∅ (∪)).
  - change (bindings (mkEntry (Some k) v :: old)) with ((k, v) :: bindings old) in *. cbn [length] in Hn |- *.
    destruct (inj_cons _ _ Hinj) as [Hinj' Hnew]. specialize (Hnew k eq_refl).
    destruct (used_free es) as [i0 Hi0]; [rewrite (arr_len _ _ Ha); lia|].
    destruct (findEntry_run cap es k Ha (ex_intro _ i0 Hi0)) as (r & Er & Hf). rewrite Er. cbn [mbind option_bind].
    pose proof Hf as (e & He & Hk).
    assert (∀ v', ¬ has es k v') as Habs by (apply (Hdis k v); by exists 0%nat).
    assert (key e = None) as Hkn.
    { destruct Hk as [Hk|[Hk _]]; [|done]. destruct e as [k' v']. simpl in Hk. subst k'.
      by destruct (Habs v' (ex_intro _ r He)). }
    set (es1 := <[r := mkEntry (Some k) v]> es).
    assert (used es1 = used es + 1) as Hu.
    { unfold es1. rewrite (used_insert _ _ e) by done. rewrite (Hcl r e He Hkn). simpl. lia. }
    destruct (IH es1) as (es' & E' & Ha' & Hu' & Hc' & Hcl').
    + done.
    + by eapply put_arr.
    + by eapply put_clean.
    + lia.
    + intros k' v' Hh v'' Hh'. eapply put_has in Hh' as [[-> ->]|[_ Hh']]; [by eapply Hnew| |done..].
      eapply (Hdis k' v'); [|done]. destruct Hh as [i Hi]. by exists (S i).
    + exists es'. rewrite <-Hu. simpl value. fold es1. split; [done|]. split; [done|]. split; [lia|].
      split; [|done]. rewrite Hc'. unfold es1. rewrite (put_contents cap es r e k) by done.
      rewrite contents_cons. rewrite <-insert_union_l. symmetry. apply insert_union_r.
      by apply contents_none.
  - apply IH; try done; [by apply inj_cons in Hinj as [? _]|].
    intros k v' [i Hi]. apply (Hdis k v'). by exists (S i).
Qed.

Lemma empty_arr cap : pow2 cap → arr cap (replicate cap (mkEntry None nil_value)).
Proof.
  intros Hp.
  assert (∀ i e, replicate cap (mkEntry None nil_value) !! i = Some e → e = mkEntry None (nil_value : V)) as Hr.
  { intros i e Hi. by apply lookup_replicate in Hi as [-> _]. }
  split; [done|by rewrite length_replicate|..].
  - intros i e Hi _. rewrite (Hr i e Hi). left. split; [apply nil_is_nil|apply nil_not_true].
  - intros i j e e' k Hi _ Hk. by rewrite (Hr i e Hi) in Hk.
  - intros i e k Hi Hk. by rewrite (Hr i e Hi) in Hk.
Qed.

Lemma empty_used cap : used (replicate cap (mkEntry None (nil_value : V))) = 0.
Proof. induction cap as [|c IH]; [done|]. simpl. unfold is_free at 1. simpl. by rewrite nil_is_nil. Qed.

Lemma empty_contents cap : contents (replicate cap (mkEntry None (nil_value : V))) = ∅.
Proof. induction cap as [|c IH]; [done|exact IH]. Qed.

Lemma adjustCapacity_run t cap :
  wf_table t → pow2 cap → (8 <= cap)%nat → 4 * used (entries t) ≤ 3 * Z.of_nat cap →
  ∃ t', adjustCapacity str checks t cap = Some t' ∧ wf_table t' ∧ capacity t' = cap ∧
    count t' ≤ used (entries t) ∧ map_of t' = map_of t ∧ clean (entries t').
Proof.
  intros H Hp H8 Hl. unfold adjustCapacity. pose proof (bindings_used (entries t)).
  destruct (rehash_run cap (entries t) (replicate cap (mkEntry None nil_value))) as (es' & E & Ha & Hu & Hc & Hcl).
  - by apply wf_inj.
  - by apply empty_arr.
  - intros i e Hi _. apply lookup_replicate in Hi as [-> _]. unfold is_free. simpl. apply nil_is_nil.
  - rewrite empty_used. lia.
  - intros k v _ v' [i Hi]. by apply lookup_replicate in Hi as [? _].
  - rewrite empty_used in *. rewrite E. cbn [mbind option_bind].
    assert (wf_table (mkTable (used es') cap es')) as Hw.
    { right. simpl. split; [done|]. split; [done|]. split; [done|lia]. }
    rewrite (check_run _ Hw). simpl. eexists. split; [done|]. split; [done|]. split; [done|]. simpl.
    split; [lia|]. split; [|done]. by rewrite Hc, empty_contents, (right_id_L ∅ (∪)).
Qed.

(** The table is big enough for one more, after growing if need be. *)
Lemma grow_run t :
  wf_table t →
  ∃ t', (if too_full t then adjustCapacity str checks t (GROW_CAPACITY (capacity t)) else Some t) = Some t' ∧
    wf_table t' ∧ (0 < capacity t')%nat ∧ 4 * (count t' + 1) ≤ 3 * Z.of_nat (capacity t') ∧ map_of t' = map_of t ∧
    (clean (entries t) → clean (entries t')).
Proof.
  intros H. unfold too_full.
  destruct (Z.ltb_spec (3 * Z.of_nat (capacity t)) (4 * (count t + 1))) as [Hfull|Hroom].
  - unfold GROW_CAPACITY. destruct (Nat.ltb_spec (capacity t) 8) as [Hc|Hc].
    + assert (used (entries t) = 0) as Hu.
      { destruct H as [(_ & -> & _)|(? & _)]; [done|lia]. }
      destruct (adjustCapacity_run t 8 H) as (t' & E & Hw & Hcap & Hn & Hm & Hcl); [by exists 3%nat|lia|lia|].
      exists t'. rewrite Hcap. split_and!; try done; lia.
    + destruct H as [(? & _)|(_ & Ha & Hn & Hl)]; [lia|].
      destruct (adjustCapacity_run t (capacity t * 2)) as (t' & E & Hw & Hcap & Hn' & Hm & Hcl); [by right| |lia|lia|].
      { destruct (arr_pow _ _ Ha) as [n ->]. exists (S n). simpl. lia. }
      exists t'. rewrite Hcap. split_and!; try done; lia.
  - exists t. split; [done|]. split; [done|]. destruct H as [(Hc & _ & Hn)|(? & _)]; [rewrite Hc, Hn in Hroom; lia|].
    split; [lia|]. split; [lia|]. done.
Qed.

Lemma tableSet_run t k v :
  wf_table t →
  ∃ t', tableSet str checks t k v = Some (bool_decide (map_of t !! k = None), t') ∧ wf_table t' ∧
    map_of t' = <[k := v]> (map_of t) ∧ (clean (entries t) → clean (entries t')).
Proof.
  intros H. unfold tableSet. rewrite (check_run t H). cbn [mbind option_bind].
  destruct (grow_run t H) as (t1 & -> & H1 & Hpos & Hroom & Hm & Hcl). cbn [mbind option_bind].
  destruct H1 as [(? & _)|(H8 & Ha & Hn & Hl)]; [lia|].
  destruct (used_free (entries t1)) as [i0 Hi0]; [rewrite (arr_len _ _ Ha); lia|].
  destruct (findEntry_run _ _ k Ha (ex_intro _ i0 Hi0)) as (r & Er & Hf). rewrite Er. cbn [mbind option_bind].
  pose proof Hf as (e & He & Hk). rewrite He. cbn [mbind option_bind].
  pose proof (put_arr (capacity t1) (entries t1) r e k Ha He v Hf) as Ha'.
  pose proof (used_insert _ _ _ (mkEntry (Some k) v) He) as Hu. unfold is_free in Hu. simpl in Hu.
  eexists. split; [|split; [|split]].
  - do 2 f_equal. rewrite <-Hm. destruct Hk as [Hk|(Hk & Habs & _)]; rewrite Hk.
    + rewrite bool_decide_eq_false_2; [done|]. rewrite contents_none by exact (arr_inj _ _ Ha).
      intros Habs. apply (Habs (value e)). exists r. rewrite He. f_equal. by destruct e; simpl in *; subst.
    + rewrite bool_decide_eq_true_2; [done|]. by apply contents_none; [exact (arr_inj _ _ Ha)|].
  - right. simpl. split; [done|]. split; [done|].
    destruct (key e); cbn [andb]; [split; lia|]. destruct (is_nil (value e)); split; lia.
  - simpl. rewrite <-Hm. by apply (put_contents (capacity t1) _ r e).
  - simpl. intros Hc. by eapply put_clean; [exact He|apply Hcl].
Qed.

(** A table that never had a deletion counts its keys. *)
Lemma clean_used es : clean es → used es = Z.of_nat (length (bindings es)).
Proof.
  induction es as [|e es IH]; intros Hc; [done|].
  assert (clean es) as Hc' by (intros i e' Hi; by apply (Hc (S i))).
  pose proof (Hc 0%nat e eq_refl) as He. specialize (IH Hc'). destruct e as [[k|] v]; cbn [used].
  - change (bindings (mkEntry (Some k) v :: es)) with ((k, v) :: bindings es). cbn [length is_free key]. lia.
  - change (bindings (mkEntry None v :: es)) with (bindings es). rewrite He by done. lia.
Qed.

Lemma clean_count t : wf_table t → clean (entries t) → count t = Z.of_nat (size (map_of t)).
Proof.
  intros H Hc. assert (count t = used (entries t)) as ->.
  { destruct H as [(_ & -> & ->)|(_ & _ & -> & _)]; done. }
  rewrite clean_used by done. unfold contents. pose proof (bindings_nodup _ (wf_inj t H)) as Hn.
  f_equal. rewrite <-length_map_to_list. symmetry. apply Permutation_length. by apply map_to_list_to_map.
Qed.

Lemma tableDelete_run t k :
  wf_table t →
  ∃ t', tableDelete str t k = Some (bool_decide (is_Some (map_of t !! k)), t') ∧ wf_table t' ∧
    map_of t' = delete k (map_of t) ∧ capacity t' = capacity t ∧ count t' = count t ∧
    (∀ i e, entries t !! i = Some e → key e = Some k → entries t' = <[i := mkEntry None tombstone]> (entries t)).
Proof.
  intros H. unfold tableDelete. destruct (Z.eqb_spec (count t) 0) as [Hz|Hz].
  { exists t. pose proof (contents_empty t H Hz) as Hem. rewrite Hem, lookup_empty, delete_empty.
    split_and!; try done. intros i e Hi Hk. exfalso.
    assert (map_of t !! k = Some (value e)) as Hc; [|by rewrite Hem, lookup_empty in Hc].
    apply contents_lookup; [by apply wf_inj|]. exists i. rewrite Hi. f_equal. by destruct e; simpl in *; subst. }
  destruct (wf_arr t H Hz) as [Ha Hf]. destruct (findEntry_run _ _ k Ha Hf) as (r & Er & Hfound).
  pose proof Hfound as (e & He & Hk). rewrite Er. cbn [mbind option_bind]. rewrite He. cbn [mbind option_bind].
  destruct Hk as [Hk|(Hk & Habs & _)]; rewrite Hk.
  - destruct H as [(_ & _ & ?)|(H8 & _ & Hn & Hl)]; [done|].
    pose proof (used_insert _ _ _ (mkEntry None tombstone) He) as Hu. unfold is_free in Hu. simpl in Hu.
    rewrite Hk, tombstone_not_nil in Hu. eexists. split.
    { do 2 f_equal. symmetry. apply bool_decide_eq_true_2. exists (value e).
      apply contents_lookup; [exact (arr_inj _ _ Ha)|]. exists r. rewrite He. f_equal. by destruct e; simpl in *; subst. }
    split; [right; simpl; split; [done|]; split; [by eapply remove_arr|]; split; lia|]. simpl.
    split; [by apply (remove_contents (capacity t) _ r e)|]. split; [done|]. split; [done|].
    intros i e' Hi Hk'. by rewrite (arr_inj _ _ Ha i r e' e k Hi He Hk' Hk).
  - assert (map_of t !! k = None) as Hno by (apply contents_none; [by apply wf_inj|done]).
    exists t. rewrite Hno. split; [done|]. split; [done|]. split; [by rewrite delete_id|]. split; [done|].
    split; [done|]. intros i e' Hi Hk'. destruct (Habs (value e')). exists i. rewrite Hi. f_equal. by destruct e'; simpl in *; subst.
Qed.

Lemma add_entries_run es : ∀ to,
  wf_table to → inj es →
  ∃ to', add_entries str checks es to = Some to' ∧ wf_table to' ∧ map_of to' = contents es ∪ map_of to.
Proof.
  induction es as [|[[k|] v] es IH]; intros to H Hinj; cbn [add_entries key].
  - exists to. split; [done|]. split; [done|]. change (contents []) with (∅ : gmap strptr V).
    by rewrite (left_id_L ∅ (∪)).
  - destruct (inj_cons _ _ Hinj) as [Hinj' Hnew].
    destruct (tableSet_run to k v H) as (t1 & E & H1 & Hm & _). simpl value. rewrite E. cbn [mbind option_bind].
    destruct (IH t1 H1 Hinj') as (to' & E' & H' & Hm'). exists to'. split; [done|]. split; [done|].
    rewrite Hm', Hm, contents_cons. rewrite <-insert_union_l. symmetry. apply insert_union_r.
    apply contents_none; [done|by apply Hnew].
  - apply IH; [done|by apply inj_cons in Hinj as [? _]].
Qed.

(** ** Removing unmarked strings *)
Definition wipe (e : Entry) : Entry :=
  match key e with
  | Some k => if isMarked (str k) then e else mkEntry None tombstone
  | None => e
  end.

Lemma insert_drop (es : list Entry) i e e' :
  es !! i = Some e → <[i := e']> es = take i es ++ e' :: drop (S i) es.
Proof.
  intros Hi. rewrite insert_take_drop; [done|]. by eapply lookup_lt_Some.
Qed.

Lemma split_after {A} (l r : list A) x i :
  length l = i → take (S i) (l ++ x :: r) = l ++ [x] ∧ drop (S i) (l ++ x :: r) = r.
Proof.
  intros <-. replace (l ++ x :: r) with ((l ++ [x]) ++ r) by by rewrite <-app_assoc.
  replace (S (length l)) with (length (l ++ [x])) by (rewrite length_app; simpl; lia).
  by rewrite take_app_length, drop_app_length.
Qed.

Lemma remove_white_run n : ∀ i t,
  wf_table t → (i + n = capacity t)%nat →
  ∃ t', remove_white str n i t = Some t' ∧ wf_table t' ∧
    entries t' = take i (entries t) ++ map wipe (drop i (entries t)).
Proof.
  induction n as [|n IH]; intros i t H Hi; cbn [remove_white].
  - exists t. split; [done|]. split; [done|].
    assert (length (entries t) <= i)%nat as Hl.
    { destruct H as [(? & -> & _)|(_ & Ha & _)]; [simpl; lia|]. rewrite (arr_len _ _ Ha). lia. }
    by rewrite drop_ge, take_ge, app_nil_r by done.
  - assert (is_Some (entries t !! i)) as [e He].
    { apply lookup_lt_is_Some_2. destruct H as [(? & _)|(_ & Ha & _)]; [lia|]. rewrite (arr_len _ _ Ha). lia. }
    rewrite He. cbn [mbind option_bind]. rewrite (drop_S _ e i He). cbn [map].
    assert (∀ t1, wf_table t1 → capacity t1 = capacity t →
      entries t1 = take i (entries t) ++ wipe e :: drop (S i) (entries t) →
      ∃ t', remove_white str n (S i) t1 = Some t' ∧ wf_table t' ∧
        entries t' = take i (entries t) ++ wipe e :: map wipe (drop (S i) (entries t))) as Hgo.
    { intros t1 H1 Hc1 He1. destruct (IH (S i) t1 H1) as (t' & E' & H' & Hes); [lia|].
      exists t'. split; [done|]. split; [done|]. rewrite Hes, He1.
      assert (length (take i (entries t)) = i) as Hl.
      { rewrite length_take. apply lookup_lt_Some in He. lia. }
      destruct (split_after _ (drop (S i) (entries t)) (wipe e) i Hl) as [-> ->]. by rewrite <-app_assoc. }
    assert (entries t = take i (entries t) ++ e :: drop (S i) (entries t)) as Hsplit.
    { by rewrite <-(drop_S _ e i He), take_drop. }
    unfold wipe in Hgo at 1 2. unfold wipe at 1. destruct (key e) as [k|] eqn:Ek.
    + destruct (isMarked (str k)); cbn [negb]; [by apply Hgo|].
      destruct (tableDelete_run t k H) as (t1 & E1 & H1 & _ & Hc1 & _ & Hes). rewrite E1. cbn [mbind option_bind].
      apply Hgo; [done|done|]. rewrite (Hes i e He Ek). by apply (insert_drop _ _ e).
    + by apply Hgo.
Qed.

Lemma wipe_contents es : inj es → contents (map wipe es) = filter (λ kv, isMarked (str kv.1)) (contents es).
Proof.
  induction es as [|[[k|] v] es IH]; intros Hinj; [done| |].
  - destruct (inj_cons _ _ Hinj) as [Hinj' Hnew]. cbn [map]. unfold wipe at 1. cbn [key].
    assert (contents es !! k = None) as Hno by (apply contents_none; [done|by apply Hnew]).
    rewrite contents_cons. destruct (isMarked (str k)) eqn:Em.
    + rewrite contents_cons, IH by done. rewrite map_filter_insert_True; [done|]. simpl. rewrite Em. exact I.
    + change (contents (mkEntry None tombstone :: map wipe es)) with (contents (map wipe es)).
      rewrite IH by done. rewrite map_filter_insert_False; [by rewrite delete_id|]. simpl. rewrite Em. intros [].
  - apply inj_cons in Hinj as [? _]. exact (IH ltac:(done)).
Qed.

(** ** Interned strings *)
Section FindString.
Variables (cap : nat) (es : list Entry) (cs : list Z) (h : Z).
Hypothesis H : arr cap es.
Local Abbreviation at_ j := (slot cap (home cap h) j).

Definition matches (k : strptr) : Prop := chars (str k) = cs ∧ hash (str k) = h.

Lemma matches_test k :
  (length (chars (str k)) =? length cs)%nat && (hash (str k) =? h) && bool_decide (chars (str k) = cs)
  = bool_decide (matches k).
Proof.
  unfold matches. destruct (bool_decide_reflect (chars (str k) = cs)) as [E|E].
  - rewrite E, Nat.eqb_refl. destruct (Z.eqb_spec (hash (str k)) h); symmetry;
      [by apply bool_decide_eq_true_2|apply bool_decide_eq_false_2; tauto].
  - rewrite andb_false_r. symmetry. apply bool_decide_eq_false_2. tauto.
Qed.

Lemma find_string_loop fuel : ∀ j,
  (∃ je, (j <= je < cap)%nat ∧ free_at es (at_ je)) → (cap - j < fuel)%nat →
  (∃ i k v, find_string str fuel es cap cs h (at_ j) = Some (Some k) ∧
     es !! i = Some (mkEntry (Some k) v) ∧ matches k) ∨
  (find_string str fuel es cap cs h (at_ j) = Some None ∧
   ∃ jend, (j <= jend < cap)%nat ∧ free_at es (at_ jend) ∧
     ∀ j' e k, (j <= j' < jend)%nat → es !! at_ j' = Some e → key e = Some k → ¬ matches k).
Proof.
  induction fuel as [|fuel IH]; intros j (je & Hje & Hfree) Hf; [lia|]. cbn [find_string].
  destruct (arr_at cap es (home cap h) j H) as [e He]. rewrite He. cbn [mbind option_bind].
  rewrite slot_next by apply H.
  assert (is_free e = false → (∀ k, key e = Some k → ¬ matches k) →
    (∃ i k v, find_string str fuel es cap cs h (at_ (S j)) = Some (Some k) ∧
       es !! i = Some (mkEntry (Some k) v) ∧ matches k) ∨
    (find_string str fuel es cap cs h (at_ (S j)) = Some None ∧
     ∃ jend, (j <= jend < cap)%nat ∧ free_at es (at_ jend) ∧
       ∀ j' e k, (j <= j' < jend)%nat → es !! at_ j' = Some e → key e = Some k → ¬ matches k)) as Hgo.
  { intros Hef Hno. destruct (IH (S j)) as [?|(E & jend & Hj & Hfr & Hall)]; [|lia|by left|right].
    - exists je. split; [|done]. assert (je ≠ j); [|lia]. intros ->. destruct Hfree as (e' & He' & Hf'). congruence.
    - split; [done|]. exists jend. split; [lia|]. split; [done|]. intros j' e' k Hj' He' Hk'.
      destruct (decide (j' = j)) as [->|]; [|apply (Hall j' e'); [lia|done..]].
      apply Hno. congruence. }
  destruct (key e) as [k|] eqn:Ek.
  - rewrite matches_test. destruct (bool_decide_reflect (matches k)) as [Hm|Hm].
    + left. exists (at_ j), k, (value e). split; [done|]. split; [|done]. rewrite He. f_equal.
      by destruct e; simpl in *; subst.
    + apply Hgo; [unfold is_free; by rewrite Ek|]. congruence.
  - destruct (is_nil (value e)) eqn:En.
    + right. split; [done|]. exists j. split; [lia|]. split; [|lia].
      exists e. unfold is_free. by rewrite Ek.
    + apply Hgo; [unfold is_free; by rewrite Ek|done].
Qed.
End FindString.

Lemma tableFindString_run t cs h :
  wf_table t → 0 ≤ h < 2 ^ 32 →
  ∃ res, tableFindString str checks t cs h = Some res ∧
    match res with
    | Some k => is_Some (map_of t !! k) ∧ matches cs h k
    | None => ∀ k, is_Some (map_of t !! k) → ¬ matches cs h k
    end.
Proof.
  intros H Hh. unfold tableFindString. rewrite (check_run t H). cbn [mbind option_bind].
  destruct (Z.eqb_spec (count t) 0) as [Hz|Hz].
  { exists None. split; [done|]. intros k. rewrite contents_empty, lookup_empty by done. by intros [? ?]. }
  destruct (wf_arr t H Hz) as [Ha [i Hi]]. pose proof (wf_inj t H) as Hinj.
  rewrite mask_mod by (apply Ha || lia). pose proof (home_lt (capacity t) h (arr_pow _ _ Ha)) as Hlt.
  assert (home (capacity t) h = slot (capacity t) (home (capacity t) h) 0) as Eh by (symmetry; by apply slot_0).
  assert (i < capacity t)%nat as Hic.
  { destruct Hi as (e & He & _). apply lookup_lt_Some in He. by rewrite (arr_len _ _ Ha) in He. }
  destruct (slot_reaches (capacity t) (home (capacity t) h) i Hlt Hic) as (je & Hje & Es).
  rewrite Eh. destruct (find_string_loop (capacity t) (entries t) cs h Ha (S (capacity t)) 0)
    as [(j & k & v & E & Hj & Hm)|(E & jend & Hjend & Hfree & Hall)]; [|lia|..].
  - exists je. rewrite Es. split; [lia|done].
  - exists (Some k). split; [done|]. split; [|done]. exists v. apply contents_lookup; [done|]. by exists j.
  - exists None. split; [done|]. intros k [v Hv] Hm. apply contents_lookup in Hv as [i' Hi']; [|done].
    destruct (arr_probe _ _ Ha i' _ k Hi' eq_refl) as (j & Hj & -> & Hbefore).
    destruct Hm as [Hmc Hmh]. rewrite Hmh in *.
    destruct (Nat.lt_trichotomy j jend) as [Hl|[->|Hl]].
    + by eapply (Hall j _ k); [lia|exact Hi'|done|].
    + destruct Hfree as (e & He & Hf). rewrite Hi' in He. injection He as <-. done.
    + by apply (Hbefore jend Hl).
Qed.
End Spec.

(** ** A heap of strings, for examples *)
Definition demo_str (k : strptr) : ObjString := mkObjString [Zpos k mod 256] (Zpos k mod 2 ^ 32) (Z.even (Zpos k)).

Lemma demo_hash k : 0 ≤ hash (demo_str k) < 2 ^ 32.
Proof. by apply Z.mod_pos_bound. Qed.
