(* ===== verification/YargType.v ===== *)
(** * Types of the language

    [cyarg/yargtype.c], [yargtype.h] and [yargstructtype.h]: the type objects,
    the predicates on them, their storage size and alignment, the layout of
    structs, and type equality.

    A type object is immutable once it is in use, and it is built from types
    that exist already; so a [const ObjConcreteYargType *] is modelled by the
    tree of the objects it reaches.  A node keeps its address, for the places
    that compare pointers.  [None] is the null pointer, the type "any". *)
From S2P Require Export Table.
Open Scope Z_scope.

(** ** Type objects *)
Inductive ConcreteYargType :=
  | TypeBool | TypeInt | TypeDouble
  | TypeInt8 | TypeUint8 | TypeInt16 | TypeUint16 | TypeInt32 | TypeUint32 | TypeInt64 | TypeUint64
  | TypeString | TypeAddress | TypeClass | TypeInstance | TypeFunction | TypeRoutine
  | TypeChannel | TypeSyncGroup | TypeArray | TypeStruct | TypePointer | TypeMap | TypeYargType.

#[export] Instance ConcreteYargType_eq_dec : EqDecision ConcreteYargType.
Proof. solve_decision. Defined.

(** The machine integer types. *)
Inductive NumType := I8 | UI8 | I16 | UI16 | I32 | UI32 | I64 | UI64.

#[export] Instance NumType_eq_dec : EqDecision NumType.
Proof. solve_decision. Defined.

(** The members of [SimpleYargTypes]: the addresses [&yargTypes.int8] etc. *)
Inductive SimpleType :=
  | Boolean | Address | Dbl | Num (n : NumType) | Type_ | Class_ | String_ | Integer
  | Implementation_obj | Function_ | Routine_ | Channel_ | SyncGroup_.

#[export] Instance SimpleType_eq_dec : EqDecision SimpleType.
Proof. solve_decision. Defined.

(** What the table [field_names] holds: positions, and the two values that
    mark its free and deleted slots. *)
Inductive IndexValue := NoIndex | DeletedIndex | Index (i : nat).

#[export] Instance IndexValue_table : TableValue IndexValue.
Proof.
  refine {| is_nil v := match v with NoIndex => true | _ => false end;
            is_true v := match v with DeletedIndex => true | _ => false end;
            nil_value := NoIndex; tombstone := DeletedIndex |}; done.
Defined.

Record StructOf (T : Type) := mkStruct {
  field_names : Table IndexValue;
  field_indexes : list Z;
  field_types : list (option T);
  field_count : nat;
  storage_size : Z;
  alignment : Z
}.
Arguments mkStruct {_}. Arguments field_names {_}. Arguments field_indexes {_}. Arguments field_types {_}.
Arguments field_count {_}. Arguments storage_size {_}. Arguments alignment {_}.

Abbreviation typeptr := positive.

Inductive YargType :=
  | Simple (s : SimpleType)
  | Array (p : typeptr) (cardinality : Z) (element_type : option YargType)
  | Struct (p : typeptr) (st : StructOf YargType)
  | Pointer (p : typeptr) (target_type : option YargType)
  | Map (p : typeptr) (key_type value_type : option YargType).

Abbreviation StructType := (StructOf YargType).

Definition num_yt (n : NumType) : ConcreteYargType :=
  match n with
  | I8 => TypeInt8 | UI8 => TypeUint8 | I16 => TypeInt16 | UI16 => TypeUint16
  | I32 => TypeInt32 | UI32 => TypeUint32 | I64 => TypeInt64 | UI64 => TypeUint64
  end.

(** [type->yt]; [yargTypes.implementation_obj] has the tag 0, that of
    [TypeBool]. *)
Definition yt (t : YargType) : ConcreteYargType :=
  match t with
  | Simple s =>
      match s with
      | Boolean => TypeBool | Address => TypeAddress | Dbl => TypeDouble | Num n => num_yt n
      | Type_ => TypeYargType | Class_ => TypeClass | String_ => TypeString | Integer => TypeInt
      | Implementation_obj => TypeBool | Function_ => TypeFunction | Routine_ => TypeRoutine
      | Channel_ => TypeChannel | SyncGroup_ => TypeSyncGroup
      end
  | Array _ _ _ => TypeArray
  | Struct _ _ => TypeStruct
  | Pointer _ _ => TypePointer
  | Map _ _ _ => TypeMap
  end.

(** The address of a type object: one of [yargTypes], or of the heap. *)
Definition type_addr (t : YargType) : SimpleType + typeptr :=
  match t with
  | Simple s => inl s
  | Array p _ _ | Struct p _ | Pointer p _ | Map p _ _ => inr p
  end.

(** [a == b] on pointers to types. *)
Definition same_type (a b : option YargType) : bool := bool_decide (type_addr <$> a = type_addr <$> b).

(** ** Predicates *)
Definition is_obj_yargtype (type : option YargType) : bool :=
  match type with
  | None => false
  | Some (Simple Implementation_obj) | Some (Simple Class_) | Some (Simple String_)
  | Some (Simple Type_) | Some (Simple Function_) => true
  | Some t =>
      match yt t with
      | TypeStruct | TypeArray | TypePointer | TypeChannel | TypeSyncGroup | TypeRoutine | TypeMap => true
      | _ => false
      end
  end.

Definition is_packable_container_type (type : option YargType) : bool :=
  match type with
  | None => false
  | Some t => match yt t with TypeArray | TypeStruct | TypePointer => true | _ => false end
  end.

Definition is_nil_assignable_type (type : option YargType) : bool :=
  match type with
  | None => true
  | Some t =>
      match yt t with
      | TypeBool | TypeInt | TypeDouble | TypeInt8 | TypeUint8 | TypeInt16 | TypeUint16 | TypeInt32
      | TypeUint32 | TypeInt64 | TypeUint64 | TypeStruct | TypeAddress => false
      | _ => true
      end
  end.

(** The codes of [BuiltinType], in the instruction stream. *)
Definition newYargTypeFromTypeCode (typeCode : Z) : option YargType :=
  match typeCode with
  | 0 => Some (Simple Boolean)
  | 1 => Some (Simple (Num I8))
  | 2 => Some (Simple (Num UI8))
  | 3 => Some (Simple (Num I16))
  | 4 => Some (Simple (Num UI16))
  | 5 => Some (Simple (Num I32))
  | 6 => Some (Simple (Num UI32))
  | 7 => Some (Simple (Num I64))
  | 8 => Some (Simple (Num UI64))
  | 9 => Some (Simple Dbl)
  | 10 => Some (Simple String_)
  | 11 => Some (Simple Integer)
  | _ => None
  end.

(** A function of types at a pointer that may be null. *)
Definition at_type {A} (null : A) (f : YargType → A) (type : option YargType) : A :=
  match type with None => null | Some t => f t end.

Fixpoint placeable (t : YargType) : bool :=
  match t with
  | Simple (Num _) | Simple Dbl => true
  | Array _ _ e => at_type false placeable e
  | Struct _ st => forallb (at_type false placeable) (field_types st)
  | _ => false
  end.
Definition is_placeable_type : option YargType → bool := at_type false placeable.

(** ** Storage *)

(** What the C implementation defines: the widths of [size_t] and
    [uintptr_t], and the sizes of [Value] and [BigSmallInt]. *)
Class Target := {
  size_bits : Z;
  sizeof_uintptr : Z;
  sizeof_Value : Z;
  sizeof_BigSmallInt : Z;
  target_ok : (size_bits = 32 ∨ size_bits = 64) ∧ 0 < sizeof_uintptr ≤ 256 ∧ 0 < sizeof_Value ≤ 256 ∧ 0 < sizeof_BigSmallInt ≤ 256
}.

Section Storage.
Context `{TG : Target}.

(** A [size_t]. *)
Definition usize (x : Z) : Z := x mod 2 ^ size_bits.

Definition num_size (n : NumType) : Z :=
  match n with I8 | UI8 => 1 | I16 | UI16 => 2 | I32 | UI32 => 4 | I64 | UI64 => 8 end.

Fixpoint sizeof (t : YargType) : Z :=
  match t with
  | Simple (Num n) => num_size n
  | Simple Dbl => 8
  | Simple Address => sizeof_uintptr
  | Struct _ st => storage_size st
  | Array _ n e => usize (at_type sizeof_Value sizeof e * n)
  | _ => sizeof_Value
  end.
Definition yt_sizeof_type_storage : option YargType → Z := at_type sizeof_Value sizeof.

Fixpoint alignof (t : YargType) : Z :=
  match t with
  | Simple (Num n) => num_size n
  | Simple Dbl => 8
  | Simple Address => sizeof_uintptr
  | Struct _ st => alignment st
  | Array _ _ e => at_type sizeof_Value alignof e
  | Simple Integer => sizeof_BigSmallInt
  | _ => sizeof_Value
  end.
Definition yt_alignmentfor_type_storage : option YargType → Z := at_type sizeof_Value alignof.

Definition arrayElementOffset (element_type : option YargType) (index : Z) : Z :=
  usize (index * yt_sizeof_type_storage element_type).

(** ** Structs under construction *)
Definition newYargStructType (fieldCount : nat) : StructType :=
  mkStruct initTable (replicate fieldCount 0) (replicate fieldCount None) fieldCount 0 1.

Variable str : strptr → ObjString.

(** The first statements of both functions: the field gets the next index. *)
Definition next_field (st : StructType) (type : option YargType) (name : strptr) : option (nat * Table IndexValue) :=
  let index := Z.to_nat (count (field_names st)) in
  t ← field_types st !! index;
  if (t : option YargType) then None
  else '(_, names) ← tableSet str true (field_names st) name (Index index); Some (index, names).

Definition appendFieldType (st : StructType) (type : option YargType) (name : strptr) : option StructType :=
  '(index, names) ← next_field st type name;
  let fieldAlignment := yt_alignmentfor_type_storage type in
  let fieldOffset := storage_size st in
  let alignmentPadding := (fieldAlignment - fieldOffset mod fieldAlignment) mod fieldAlignment in
  let offset := usize (fieldOffset + alignmentPadding) in
  Some (mkStruct names (<[index := offset]> (field_indexes st)) (<[index := type]> (field_types st))
    (field_count st) (usize (fieldOffset + alignmentPadding + yt_sizeof_type_storage type))
    (if alignment st <? fieldAlignment then fieldAlignment else alignment st)).

Definition appendFieldTypeAtOffset (st : StructType) (type : option YargType) (offset : Z) (name : strptr)
    : option StructType :=
  '(index, names) ← next_field st type name;
  Some (mkStruct names (<[index := offset]> (field_indexes st)) (<[index := type]> (field_types st))
    (field_count st) (usize (offset + yt_sizeof_type_storage type)) (alignment st)).

Definition structFieldOffset (st : StructType) (fieldIndex : nat) : option Z := field_indexes st !! fieldIndex.

(** [Some None] is the answer [false]. *)
Definition structFieldIndex (st : StructType) (name : strptr) : option (option nat) :=
  v ← tableGet str (field_names st) name;
  match v with
  | None => Some None
  | Some (Index i) => Some (Some i)
  | Some _ => None
  end.

(** The offset that [OP_TYPE_STRUCT] finds on the stack: nil, a positive
    integer, or another value. *)
Inductive FieldOffset := Auto | At (o : Z) | Other.

(** The fields of [OP_TYPE_STRUCT]; [inr] is a runtime error.  With an offset
    that is no positive integer, nothing is appended. *)
Fixpoint type_struct_fields (fields : list (option YargType * FieldOffset * strptr)) (st : StructType)
    : option (StructType + ()) :=
  match fields with
  | [] => Some (inl st)
  | (type, offset, name) :: fields' =>
      existing ← structFieldIndex st name;
      match existing with
      | Some _ => Some (inr ())
      | None =>
          st' ← match offset with
                | Auto => appendFieldType st type name
                | At o => appendFieldTypeAtOffset st type o name
                | Other => Some st
                end;
          type_struct_fields fields' st'
      end
  end.
Definition op_type_struct (fields : list (option YargType * FieldOffset * strptr)) : option (StructType + ()) :=
  type_struct_fields fields (newYargStructType (length fields)).
End Storage.

(** ** Equality *)

Definition nullable_eq (eq : YargType → option YargType → bool) (a b : option YargType) : bool :=
  if same_type a b then true else at_type false (λ a, eq a b) a.

(** The loop over the fields; the counts are equal. *)
Fixpoint fields_equal (eq : option YargType → option YargType → bool) (ts us : list (option YargType)) : bool :=
  match ts, us with
  | t :: ts', u :: us' => if eq t u then fields_equal eq ts' us' else false
  | _, _ => true
  end.

Fixpoint types_equal (a : YargType) (b : option YargType) : bool :=
  match b with
  | None => false
  | Some b =>
      if decide (yt a = yt b) then
        match a, b with
        | Pointer _ ta, Pointer _ tb => nullable_eq types_equal ta tb
        | Array _ na ea, Array _ nb eb => if nullable_eq types_equal ea eb then na =? nb else false
        | Struct _ sa, Struct _ sb =>
            if (field_count sa =? field_count sb)%nat
            then fields_equal (nullable_eq types_equal) (field_types sa) (field_types sb) else false
        | _, _ => true
        end
      else false
  end.
Definition typesEqual : option YargType → option YargType → bool := nullable_eq types_equal.

(** Of two array types; the parts are cardinality and element type. *)
Definition isInitializableArray (ln : Z) (le : option YargType) (rn : Z) (re : option YargType) : bool :=
  if ln =? rn then
    match le, re with
    | None, _ => true
    | Some _, None => false
    | Some _, Some _ => typesEqual le re
    end
  else false.

Fixpoint map_key_ok (t : YargType) : bool :=
  match t with
  | Map _ k _ => at_type false map_key_ok k
  | Simple String_ => true
  | _ => false
  end.
Definition isSupportedMapKeyType : option YargType → bool := at_type false map_key_ok.

(** [OP_TYPE_INDEXED_COLLECTION]: an indexer is nil or a type, a positive
    integer, or another value; [p] is the address of the new object. *)
Inductive Indexer := ByType (key : option YargType) | ByNumber (n : Z) | ByOther.
Definition op_type_indexed_collection (p : typeptr) (element : option YargType) (i : Indexer) : option YargType :=
  match i with
  | ByType key =>
      let t := Map p key element in
      if isSupportedMapKeyType (Some t) then Some t else None
  | ByNumber n => if n =? 0 then None else Some (Array p n element)
  | ByOther => None
  end.
