(* ===== verification/YargTypeSpec.v ===== *)
(** * Types: layout and equality

    Induction on types, the layout of structs (fields are aligned, disjoint,
    inside the storage and found by name), what type equality is, and where
    the layout of arrays breaks the alignment of their elements. *)
From S2P Require Export YargType TableSpec.

(** ** Induction on types, through null pointers and lists of fields *)
Section Ind.
Variable P : YargType → Prop.
Definition P_at (o : option YargType) : Prop := match o with Some t => P t | None => True end.
Hypothesis PSimple : ∀ s, P (Simple s).
Hypothesis PArray : ∀ p n e, P_at e → P (Array p n e).
Hypothesis PStruct : ∀ p st, Forall P_at (field_types st) → P (Struct p st).
Hypothesis PPointer : ∀ p t, P_at t → P (Pointer p t).
Hypothesis PMap : ∀ p k v, P_at k → P_at v → P (Map p k v).

Fixpoint YargType_ind' (t : YargType) : P t :=
  let at_ (o : option YargType) : P_at o :=
    match o with Some t => YargType_ind' t | None => I end in
  match t with
  | Simple s => PSimple s
  | Array p n e => PArray p n e (at_ e)
  | Struct p st =>
      PStruct p st ((fix all (ts : list (option YargType)) : Forall P_at ts :=
        match ts with
        | [] => @List.Forall_nil _ P_at
        | t :: ts' => @List.Forall_cons _ P_at t ts' (at_ t) (all ts')
        end) (field_types st))
  | Pointer p t => PPointer p t (at_ t)
  | Map p k v => PMap p k v (at_ k) (at_ v)
  end.
End Ind.

(** ** Struct layout *)
Section Layout.
Context `{TG : Target}.
Variable str : strptr → ObjString.
Hypothesis hash_range : ∀ k, 0 ≤ hash (str k) < 2 ^ 32.

Abbreviation sizes := yt_sizeof_type_storage.
Abbreviation aligns := yt_alignmentfor_type_storage.

(** The next multiple of [a]. *)
Definition align_up (o a : Z) : Z := o + (a - o mod a) mod a.

Lemma align_up_spec o a : 0 < a → 0 ≤ o → (a | align_up o a) ∧ o ≤ align_up o a < o + a.
Proof.
  intros Ha Ho. unfold align_up. pose proof (Z.mod_pos_bound (a - o mod a) a Ha).
  split; [|lia]. apply Z.mod_divide; [lia|].
  rewrite Zplus_mod_idemp_r. replace (o + (a - o mod a)) with ((o - o mod a) + 1 * a) by lia.
  rewrite Z.mod_add, Zminus_mod_idemp_r, Z.sub_diag by lia. done.
Qed.

(** The offsets of a list of fields from [o], without a bound on sizes: the
    specification of the layout. *)
Fixpoint place_fields (o : Z) (ts : list (option YargType)) : list Z * Z :=
  match ts with
  | [] => ([], o)
  | t :: ts' =>
      let a := align_up o (aligns t) in
      let '(os, e) := place_fields (a + sizes t) ts' in (a :: os, e)
  end.

(** Storage that a type can have: sizes and alignments are positive. *)
Definition sane (t : option YargType) : Prop := 0 ≤ sizes t ∧ 0 < aligns t.

(** A struct whose first fields are [ts], named [names], and whose layout so
    far is [os], up to [e]. *)
Record built (st : StructType) (n : nat) (ts : list (option YargType)) (names : list strptr)
    (os : list Z) (e : Z) : Prop := {
  b_len : length ts = length names ∧ length os = length ts ∧ (length ts <= n)%nat;
  b_count : field_count st = n;
  b_types : field_types st = ts ++ replicate (n - length ts) None;
  b_offsets : field_indexes st = os ++ replicate (n - length ts) 0;
  b_size : storage_size st = e;
  b_wf : wf_table str (field_names st);
  b_clean : clean (entries (field_names st));
  b_names : NoDup names;
  b_cnt : count (field_names st) = Z.of_nat (length names);
  b_map : ∀ k v, contents (entries (field_names st)) !! k = Some v ↔ ∃ i, v = Index i ∧ names !! i = Some k
}.

Lemma new_built n : built (newYargStructType n) n [] [] [] 0.
Proof.
  split; simpl; rewrite ?Nat.sub_0_r; try done.
  - split; [done|]. split; [done|lia].
  - by left.
  - by apply base.NoDup_nil_2.
  - intros k v. split; [done|]. by intros (i & _ & Hi).
Qed.

Lemma pad_lookup {A} (ts : list A) n d : (length ts < n)%nat → (ts ++ replicate (n - length ts) d) !! length ts = Some d.
Proof. intros Hn. rewrite lookup_app_r, Nat.sub_diag by done. apply lookup_replicate. split; [done|lia]. Qed.

Lemma pad_insert {A} (ts : list A) n d x :
  (length ts < n)%nat →
  <[length ts := x]> (ts ++ replicate (n - length ts) d) = (ts ++ [x]) ++ replicate (n - length (ts ++ [x])) d.
Proof.
  intros Hn. rewrite insert_app_r_alt, Nat.sub_diag by done. rewrite length_app. simpl.
  replace (n - length ts)%nat with (S (n - (length ts + 1))) by lia. simpl. by rewrite <-app_assoc.
Qed.

(** The next field. *)
Lemma next_field_run st n ts names os e t nm :
  built st n ts names os e → (length ts < n)%nat → nm ∉ names →
  ∃ nt, next_field str st t nm = Some (length ts, nt) ∧
    (∀ t o e' al, built (mkStruct nt (<[length ts := o]> (field_indexes st)) (<[length ts := t]> (field_types st))
      (field_count st) e' al) n (ts ++ [t]) (names ++ [nm]) (os ++ [o]) e').
Proof.
  intros [(L1 & L2 & L3) HC HT HO HS HW HCl HN Hcnt HM] Hn Hnew. unfold next_field.
  rewrite Hcnt, Nat2Z.id, <-L1, HT, pad_lookup by done. simpl.
  destruct (tableSet_run str true hash_range (field_names st) nm (Index (length ts)) HW)
    as (nt & E & HW' & HM' & HCl'). rewrite E. simpl. exists nt. split; [done|].
  assert (contents (entries (field_names st)) !! nm = None) as Hno.
  { destruct (_ !! nm) as [v|] eqn:Ev; [|done]. apply HM in Ev as (i & _ & Hi).
    destruct Hnew. by eapply list_elem_of_lookup_2. }
  intros t' o e' al. split; simpl.
  - rewrite !length_app. simpl. lia.
  - done.
  - by apply pad_insert.
  - rewrite HO. rewrite <-L2. rewrite pad_insert by lia. by rewrite !length_app, L2.
  - done.
  - done.
  - by apply HCl'.
  - apply list.NoDup_app. split; [done|]. split; [|apply list.NoDup_singleton]. intros k Hk Hk'.
    apply list_elem_of_singleton in Hk' as ->. done.
  - rewrite (clean_count str) by (try done; by apply HCl'). rewrite HM', map_size_insert_None by done.
    rewrite (clean_count str) in Hcnt by done. rewrite length_app. simpl. lia.
  - intros k v. rewrite HM', lookup_insert_Some, HM. split.
    + intros [[<- <-]|(Hne & i & -> & Hi)].
      * exists (length ts). split; [done|]. rewrite L1, lookup_app_r, Nat.sub_diag by done. done.
      * exists i. split; [done|]. by rewrite lookup_app_l by by eapply lookup_lt_Some.
    + intros (i & -> & Hi). apply lookup_app_Some in Hi as [Hi|[Hge Hi]].
      * right. split; [|by exists i]. intros ->. destruct Hnew. by eapply list_elem_of_lookup_2.
      * left. apply list_lookup_singleton_Some in Hi as [Hz ->]. split; [done|]. f_equal. lia.
Qed.

(** A field that is appended goes to the next multiple of its alignment. *)
Lemma appendFieldType_run st n ts names os e t nm :
  built st n ts names os e → (length ts < n)%nat → nm ∉ names →
  0 ≤ e → sane t → align_up e (aligns t) + sizes t < 2 ^ size_bits →
  ∃ st', appendFieldType str st t nm = Some st' ∧
    built st' n (ts ++ [t]) (names ++ [nm]) (os ++ [align_up e (aligns t)]) (align_up e (aligns t) + sizes t) ∧
    alignment st' = Z.max (alignment st) (aligns t).
Proof.
  intros HB Hn Hnew He [Hs Ha] Hfit. unfold appendFieldType.
  destruct (next_field_run st n ts names os e t nm HB Hn Hnew) as (nt & E & Hb). rewrite E. simpl.
  rewrite (b_size _ _ _ _ _ _ HB). destruct (align_up_spec e (aligns t) Ha He) as [_ Hle].
  fold (align_up e (aligns t)). unfold usize. rewrite !Z.mod_small by lia.
  eexists. split; [done|]. split; [apply Hb|]. simpl.
  destruct (Z.ltb_spec (alignment st) (aligns t)); lia.
Qed.

Lemma structFieldIndex_run st n ts names os e nm :
  built st n ts names os e →
  (nm ∉ names → structFieldIndex str st nm = Some None) ∧
  (∀ i, names !! i = Some nm → structFieldIndex str st nm = Some (Some i)).
Proof.
  intros HB. unfold structFieldIndex. rewrite tableGet_run by (done || apply HB). split.
  - intros Hnew. destruct (contents _ !! nm) as [v|] eqn:E; [|done].
    apply (b_map _ _ _ _ _ _ HB) in E as (i & _ & Hi). destruct Hnew. by eapply list_elem_of_lookup_2.
  - intros i Hi. assert (contents (entries (field_names st)) !! nm = Some (Index i)) as ->; [|done].
    apply (b_map _ _ _ _ _ _ HB). by exists i.
Qed.

(** *** The fields of a struct declaration without explicit offsets *)
Definition auto (f : option YargType * strptr) : option YargType * FieldOffset * strptr := (f.1, Auto, f.2).

Lemma place_fields_end ts : ∀ e, 0 ≤ e → Forall sane ts → e ≤ (place_fields e ts).2.
Proof.
  induction ts as [|t ts IH]; intros e He Hs; simpl; [lia|].
  apply list.Forall_cons in Hs as [[Hs Ha] Hts]. destruct (align_up_spec e (aligns t) Ha He) as [_ Hle].
  assert (0 ≤ align_up e (aligns t) + sizes t) as Hp by lia. specialize (IH _ Hp Hts).
  destruct (place_fields _ ts) as [os e']. cbn [snd] in IH |- *. lia.
Qed.

Definition max_align (al : Z) (ts : list (option YargType)) : Z := fold_left (λ a t, Z.max a (aligns t)) ts al.

Lemma type_struct_fields_run fs : ∀ st n ts names os e,
  built st n ts names os e → (length ts + length fs <= n)%nat → NoDup (names ++ fs.*2) →
  0 ≤ e → Forall sane fs.*1 → (place_fields e fs.*1).2 < 2 ^ size_bits →
  ∃ st', type_struct_fields str (map auto fs) st = Some (inl st') ∧
    built st' n (ts ++ fs.*1) (names ++ fs.*2) (os ++ (place_fields e fs.*1).1) (place_fields e fs.*1).2 ∧
    alignment st' = max_align (alignment st) fs.*1.
Proof.
  induction fs as [|[t nm] fs IH]; intros st n ts names os e HB Hn Hd He Hs Hfit; cbn [map type_struct_fields].
  - exists st. by rewrite !app_nil_r.
  - cbn [fmap list_fmap fst snd auto length] in *. apply list.Forall_cons in Hs as [Hst Hs].
    assert (nm ∉ names) as Hnew.
    { apply list.NoDup_app in Hd as (_ & Hd & _). intros Hin. apply (Hd nm Hin). by left. }
    cbn [place_fields] in *. destruct (align_up_spec e (aligns t) (proj2 Hst) He) as [_ Hle].
    pose proof (place_fields_end fs.*1 (align_up e (aligns t) + sizes t)) as Hend. destruct Hst as [Hst1 Hst2].
    specialize (Hend ltac:(lia) Hs).
    rewrite (proj1 (structFieldIndex_run st n ts names os e nm HB) Hnew). cbn [mbind option_bind].
    destruct (place_fields (align_up e (aligns t) + sizes t) fs.*1) as [os' e'] eqn:Ep. simpl in Hfit, Hend |- *.
    destruct (appendFieldType_run st n ts names os e t nm HB) as (st1 & E1 & HB1 & Ha1); [lia|done|done|done|lia|].
    rewrite E1. simpl.
    destruct (IH st1 n (ts ++ [t]) (names ++ [nm]) (os ++ [align_up e (aligns t)]) _ HB1) as (st' & E & HB' & Ha').
    + rewrite length_app. simpl. lia.
    + by rewrite <-app_assoc.
    + lia.
    + done.
    + by rewrite Ep.
    + rewrite Ep in HB'. exists st'. rewrite <-!app_assoc in HB'. split; [done|]. split; [done|].
      by rewrite Ha', Ha1.
Qed.

(** The specification of the layout keeps fields apart. *)
Lemma place_fields_spec ts : ∀ e, 0 ≤ e → Forall sane ts →
  let '(os, e') := place_fields e ts in
  length os = length ts ∧
  (∀ i t o, ts !! i = Some t → os !! i = Some o → (aligns t | o) ∧ e ≤ o ∧ o + sizes t ≤ e') ∧
  (∀ i j t o o', (i < j)%nat → ts !! i = Some t → os !! i = Some o → os !! j = Some o' → o + sizes t ≤ o').
Proof.
  induction ts as [|t ts IH]; intros e He Hs; simpl; [done|].
  apply list.Forall_cons in Hs as [[Hs Ha] Hts]. destruct (align_up_spec e (aligns t) Ha He) as [Hdiv Hle].
  assert (0 ≤ align_up e (aligns t) + sizes t) as Hp by lia. specialize (IH _ Hp Hts).
  pose proof (place_fields_end ts _ Hp Hts) as Hend.
  destruct (place_fields _ ts) as [os e']. simpl in Hend. destruct IH as (HL & Hin & Hord).
  split; [simpl; lia|]. split.
  - intros [|i] t' o Ht Ho; simpl in Ht, Ho.
    + injection Ht as <-. injection Ho as <-. split; [done|lia].
    + destruct (Hin i t' o Ht Ho) as (H1 & H2 & H3). split; [done|lia].
  - intros [|i] [|j] t' o o' Hij Ht Ho Ho'; simpl in Ht, Ho, Ho'; try lia.
    + injection Ht as <-. injection Ho as <-.
      destruct (lookup_lt_is_Some_2 ts j) as [t'' Ht'']; [apply lookup_lt_Some in Ho'; lia|].
      destruct (Hin j t'' o' Ht'' Ho'). lia.
    + apply (Hord i j t' o o'); [lia|done..].
Qed.

Lemma max_align_ge ts : ∀ al, al ≤ max_align al ts ∧ ∀ t, t ∈ ts → aligns t ≤ max_align al ts.
Proof.
  induction ts as [|t ts IH]; intros al; simpl; [split; [lia|by intros t ?%not_elem_of_nil]|].
  destruct (IH (Z.max al (aligns t))) as [H1 H2]. split; [lia|].
  intros t' [->|Hin]%elem_of_cons; [lia|by apply H2].
Qed.
End Layout.

(** ** Type equality *)

(** Addresses tell type objects apart: the heap has one object at each.  A
    struct has a type for each of its fields. *)
Fixpoint coherent (H : typeptr → YargType) (t : YargType) : Prop :=
  match t with
  | Simple _ => True
  | Array p _ e => H p = t ∧ at_type True (coherent H) e
  | Struct p st => H p = t ∧ length (field_types st) = field_count st ∧
      fold_right (λ u P, at_type True (coherent H) u ∧ P) True (field_types st)
  | Pointer p u => H p = t ∧ at_type True (coherent H) u
  | Map p k v => H p = t ∧ at_type True (coherent H) k ∧ at_type True (coherent H) v
  end.
Abbreviation coherent_at H := (at_type True (coherent H)).

Lemma same_type_eq H a b : coherent_at H a → coherent_at H b → same_type a b = true → a = b.
Proof.
  intros Ha Hb Hs. unfold same_type in Hs. apply bool_decide_eq_true_1 in Hs.
  destruct a as [a|], b as [b|]; try done. simpl in *. injection Hs as Hs. f_equal.
  destruct a, b; simpl in *; try congruence; destruct Ha as [<- _], Hb as [<- _]; congruence.
Qed.

Lemma same_type_refl a : same_type a a = true.
Proof. by apply bool_decide_eq_true_2. Qed.

Lemma same_type_sym a b : same_type a b = same_type b a.
Proof. apply bool_decide_ext. split; congruence. Qed.

Lemma fields_equal_refl f ts : (∀ t, f t t = true) → fields_equal f ts ts = true.
Proof. intros Hf. induction ts as [|t ts IH]; [done|]. simpl. by rewrite Hf. Qed.

Lemma typesEqual_refl a : typesEqual a a = true.
Proof. unfold typesEqual, nullable_eq. by rewrite same_type_refl. Qed.

(** Symmetry, from that of the structural part. *)
Definition sym_at (a : YargType) : Prop := ∀ b, types_equal a (Some b) = types_equal b (Some a).

Lemma nullable_sym a b : P_at sym_at a → typesEqual a b = typesEqual b a.
Proof.
  intros Ha. unfold typesEqual, nullable_eq. rewrite (same_type_sym b a). destruct (same_type a b); [done|].
  destruct a as [a|], b as [b|]; simpl; [by apply Ha|by destruct a|by destruct b|done].
Qed.

Lemma fields_equal_sym ts : ∀ us,
  Forall (P_at sym_at) ts → fields_equal typesEqual ts us = fields_equal typesEqual us ts.
Proof.
  induction ts as [|t ts IH]; intros [|u us] Hs; try done. simpl.
  apply list.Forall_cons in Hs as [Ht Hs]. rewrite (nullable_sym t u Ht). by rewrite (IH us Hs).
Qed.

Lemma types_equal_sym a : sym_at a.
Proof.
  induction a as [s|p n e IH|p st IH|p t IH|p k v _ _] using YargType_ind'; intros b; destruct b; simpl;
    try (destruct (decide _) as [E|E], (decide _) as [E'|E'] in |- *; congruence || done); try reflexivity.
  - fold typesEqual. rewrite (nullable_sym e element_type IH). by rewrite Z.eqb_sym.
  - rewrite Nat.eqb_sym. fold typesEqual. destruct (field_count st0 =? field_count st)%nat; [|done].
    by apply fields_equal_sym.
  - by apply nullable_sym.
Qed.

Lemma typesEqual_sym a b : typesEqual a b = typesEqual b a.
Proof. apply nullable_sym. destruct a; [apply types_equal_sym|done]. Qed.

(** Transitivity. *)
Definition trans_at (H : typeptr → YargType) (a : YargType) : Prop := ∀ b c,
  coherent H a → coherent H b → coherent H c →
  types_equal a (Some b) = true → types_equal b (Some c) = true → types_equal a (Some c) = true.

Lemma nullable_trans H a b c :
  P_at (trans_at H) a → coherent_at H a → coherent_at H b → coherent_at H c →
  typesEqual a b = true → typesEqual b c = true → typesEqual a c = true.
Proof.
  intros Ht Ha Hb Hc. destruct (same_type a b) eqn:Eab; [by rewrite (same_type_eq H a b Ha Hb Eab)|].
  destruct (same_type b c) eqn:Ebc; [by rewrite (same_type_eq H b c Hb Hc Ebc)|].
  unfold typesEqual, nullable_eq. rewrite Eab, Ebc. destruct (same_type a c); [done|].
  destruct a as [a|]; simpl; [|done]. destruct b as [b|]; simpl; [|by destruct a].
  destruct c as [c|]; simpl; [|by destruct b]. apply Ht; done.
Qed.

Lemma fields_equal_trans H ts : ∀ us vs,
  Forall (P_at (trans_at H)) ts → length ts = length us → length us = length vs →
  fold_right (λ u P, coherent_at H u ∧ P) True ts → fold_right (λ u P, coherent_at H u ∧ P) True us →
  fold_right (λ u P, coherent_at H u ∧ P) True vs →
  fields_equal typesEqual ts us = true → fields_equal typesEqual us vs = true → fields_equal typesEqual ts vs = true.
Proof.
  induction ts as [|t ts IH]; intros [|u us] [|v vs] HF L1 L2 Ht Hu Hv; try done. simpl in *.
  apply list.Forall_cons in HF as [Htr HF]. destruct Ht as [Ht Hts], Hu as [Hu Hus], Hv as [Hv Hvs].
  destruct (typesEqual t u) eqn:E1; [|done]. destruct (typesEqual u v) eqn:E2; [|done].
  rewrite (nullable_trans H t u v Htr Ht Hu Hv E1 E2). intros F1 F2.
  apply (IH us vs); try done; congruence.
Qed.

Lemma types_equal_trans H a : trans_at H a.
Proof.
  induction a as [s|p n e IH|p st IH|p t IH|p k v _ _] using YargType_ind'; intros b c Ha Hb Hc.
  - intros E1 E2. destruct b; simpl in E1; destruct c; simpl in E2 |- *;
      repeat destruct (decide _); congruence.
  - destruct b as [[]|q m e'| | |]; try (simpl; intros; done); destruct c as [[]|r l e''| | |]; try (simpl; intros; done);
      try (simpl; destruct n0; done).
    simpl. fold typesEqual. destruct (typesEqual e e') eqn:E1; [|done]. destruct (typesEqual e' e'') eqn:E2; [|done].
    rewrite (nullable_trans H e e' e'' IH (proj2 Ha) (proj2 Hb) (proj2 Hc) E1 E2).
    intros ->%Z.eqb_eq Hml. done.
  - destruct b as [[]| |q sb| |]; try (simpl; intros; done); destruct c as [[]| |r sc| |]; try (simpl; intros; done);
      try (simpl; destruct n; done).
    simpl. fold typesEqual. destruct Ha as (_ & La & Ha), Hb as (_ & Lb & Hb), Hc as (_ & Lc & Hc).
    destruct (Nat.eqb_spec (field_count st) (field_count sb)) as [E1|]; [|done].
    destruct (Nat.eqb_spec (field_count sb) (field_count sc)) as [E2|]; [|done].
    rewrite (proj2 (Nat.eqb_eq _ _)) by congruence.
    apply (fields_equal_trans H (field_types st) (field_types sb) (field_types sc)); try done; congruence.
  - destruct b as [[]| | |q t'|]; try (simpl; intros; done); destruct c as [[]| | |r t''|]; try (simpl; intros; done);
      try (simpl; destruct n; done).
    apply nullable_trans with H; [done|apply Ha|apply Hb|apply Hc].
  - by destruct b as [[]| | | |], c as [[]| | | |]; simpl; try done; destruct n.
Qed.

(** ** Properties *)

(** A 64-bit target. *)
Definition LP64 : Target.
Proof. refine {| size_bits := 64; sizeof_uintptr := 8; sizeof_Value := 24; sizeof_BigSmallInt := 16 |}. lia. Defined.

Abbreviation num n := (Some (Simple (Num n))).

(** The first struct of [test/yarg-expect/struct/alignment.ya]: its size is
    that which the test expects. *)
Definition alignment_ya : list (option YargType * strptr) :=
  [(num UI8, 1); (num UI16, 2); (num UI32, 3); (num UI64, 4); (Some (Simple Dbl), 5); (None, 6)]%positive.

Example alignment_ya_size :
  match @op_type_struct LP64 demo_str (map auto alignment_ya) with
  | Some (inl st) => storage_size st = 48 ∧ field_indexes st = [0; 2; 4; 8; 16; 24]
  | _ => False
  end.
Proof. vm_compute. done. Qed.



(** A declaration that names a field twice is a runtime error, whatever
    follows. *)
Theorem struct_duplicate_error `{TG : Target} str fs t nm rest :
  (∀ k, 0 ≤ hash (str k) < 2 ^ 32) → NoDup fs.*2 → Forall sane fs.*1 → (place_fields 0 fs.*1).2 < 2 ^ size_bits →
  nm ∈ fs.*2 →
  op_type_struct str (map auto fs ++ (t, Auto, nm) :: rest) = Some (inr ()).
Proof.
  intros Hh Hd Hs Hfit Hin. unfold op_type_struct.
  set (n := length (map auto fs ++ (t, Auto, nm) :: rest)).
  assert (length fs <= n)%nat as Hn by (unfold n; rewrite length_app, length_map; lia).
  destruct (type_struct_fields_run str Hh fs _ _ _ _ _ _ (new_built str n) Hn Hd ltac:(lia) Hs Hfit) as (st & E & HB & _).
  assert (∀ fs st, type_struct_fields str (fs ++ (t, Auto, nm) :: rest) st =
    x ← type_struct_fields str fs st; match x with inl st => type_struct_fields str ((t, Auto, nm) :: rest) st | r => Some r end) as Happ.
  { clear. induction fs as [|[[u o] k] fs IH]; intros st; [done|]. cbn [app type_struct_fields].
    destruct (structFieldIndex str st k) as [[i|]|]; simpl; [done| |done].
    destruct (match o with Auto => _ | At _ => _ | Other => _ end); simpl; [apply IH|done]. }
  rewrite Happ, E. simpl. rewrite !app_nil_l in HB. apply list_elem_of_lookup_1 in Hin as [i Hi].
  by rewrite (proj2 (structFieldIndex_run str Hh st n _ _ _ _ nm HB) i Hi).
Qed.

Lemma struct_duplicate_error_witness :
  @op_type_struct LP64 demo_str (map auto [(num UI8, 1%positive)] ++ [(num I32, Auto, 1%positive)]) = Some (inr ()).
Proof.
  apply (@struct_duplicate_error LP64 demo_str [(num UI8, 1%positive)] (num I32) 1%positive []); [apply demo_hash| | | |].
  - apply list.NoDup_singleton.
  - apply List.Forall_cons; [split; vm_compute; congruence|apply List.Forall_nil].
  - vm_compute. reflexivity.
  - apply list_elem_of_singleton. reflexivity.
Defined.

(** The elements of an array are one size of the element type apart, and
    the size of a struct is not rounded up to its alignment: in an array of
    structs of a [uint64] and a [uint8], the second [uint64] is at offset 9. *)
Theorem array_stride_misaligned `{TG : Target} str nm nm' p :
  (∀ k, 0 ≤ hash (str k) < 2 ^ 32) → nm ≠ nm' →
  ∃ st, op_type_struct str (map auto [(num UI64, nm); (num UI8, nm')]) = Some (inl st) ∧
    yt_alignmentfor_type_storage (Some (Struct p st)) = 8 ∧
    arrayElementOffset (Some (Struct p st)) 1 = 9 ∧ structFieldOffset st 0 = Some 0 ∧
    is_placeable_type (Some (Array p 2 (Some (Struct p st)))) = true.
Proof.
  intros Hh Hne. unfold op_type_struct.
  set (fs := [(num UI64, nm); (num UI8, nm')]).
  assert (9 < 2 ^ size_bits) as H9 by (destruct (target_ok) as [[-> | ->] _]; lia).
  assert (NoDup fs.*2) as Hd.
  { simpl. apply list.NoDup_cons. split; [by rewrite list_elem_of_singleton|apply list.NoDup_singleton]. }
  destruct (type_struct_fields_run str Hh fs _ _ _ _ _ _ (new_built str 2) ltac:(simpl; lia) Hd ltac:(lia)) as (st & E & HB & Hal).
  { repeat (apply List.Forall_cons; [split; simpl; lia|]). apply List.Forall_nil. }
  { exact H9. }
  exists st. split; [exact E|]. pose proof (b_size _ _ _ _ _ _ _ HB) as HS. pose proof (b_offsets _ _ _ _ _ _ _ HB) as HO.
  pose proof (b_types _ _ _ _ _ _ _ HB) as HT. simpl in HS, HO, HT.
  split; [exact Hal|]. split.
  { unfold arrayElementOffset. simpl. rewrite HS. change (align_up _ _ + 1) with 9. unfold usize. by rewrite Z.mod_small. }
  split; [unfold structFieldOffset; by rewrite HO|]. simpl. by rewrite HT.
Qed.

Lemma array_stride_misaligned_witness :
  ∃ st, @op_type_struct LP64 demo_str (map auto [(num UI64, 1%positive); (num UI8, 2%positive)]) = Some (inl st) ∧
    @yt_alignmentfor_type_storage LP64 (Some (Struct 1%positive st)) = 8 ∧
    @arrayElementOffset LP64 (Some (Struct 1%positive st)) 1 = 9 ∧ structFieldOffset st 0 = Some 0 ∧
    is_placeable_type (Some (Array 1%positive 2 (Some (Struct 1%positive st)))) = true.
Proof. apply (@array_stride_misaligned LP64 demo_str 1%positive 2%positive 1%positive); [apply demo_hash|discriminate]. Defined.

(** C29. Type equality is an equivalence relation on the types of a heap, and
    it looks through addresses.  It does not look into maps, and at the types
    of the fields of structs only, not at their offsets. *)
Theorem typesEqual_equivalence (H : typeptr → YargType) a b c :
  coherent_at H a → coherent_at H b → coherent_at H c →
  typesEqual a a = true ∧ typesEqual a b = typesEqual b a ∧
  (typesEqual a b = true → typesEqual b c = true → typesEqual a c = true) ∧
  (∀ p q k v k' v', typesEqual (Some (Map p k v)) (Some (Map q k' v')) = true) ∧
  (∀ p q st st', field_types st = field_types st' → field_count st = field_count st' →
     typesEqual (Some (Struct p st)) (Some (Struct q st')) = true).
Proof.
  intros Ha Hb Hc. split; [apply typesEqual_refl|]. split; [apply typesEqual_sym|]. split; [|split].
  - apply (nullable_trans H a b c); try done. destruct a; [apply types_equal_trans|done].
  - intros. unfold typesEqual, nullable_eq. by destruct (same_type _ _).
  - intros p q st st' Ht Hn. unfold typesEqual, nullable_eq. destruct (same_type _ _); [done|]. simpl.
    rewrite Hn, Nat.eqb_refl, Ht. apply fields_equal_refl. intros t. apply typesEqual_refl.
Qed.

Definition demo_heap (p : typeptr) : YargType :=
  if decide (p = 1%positive) then Pointer 1 (num I8) else Pointer p (num I8).

Lemma typesEqual_equivalence_witness :
  let a := Some (Pointer 1 (num I8)) in let b := Some (Pointer 2 (num I8)) in let c := Some (Pointer 3 (num I8)) in
  typesEqual a a = true ∧ typesEqual a b = typesEqual b a ∧
  (typesEqual a b = true → typesEqual b c = true → typesEqual a c = true) ∧
  (∀ p q k v k' v', typesEqual (Some (Map p k v)) (Some (Map q k' v')) = true) ∧
  (∀ p q st st', field_types st = field_types st' → field_count st = field_count st' →
     typesEqual (Some (Struct p st)) (Some (Struct q st')) = true).
Proof.
  apply (typesEqual_equivalence demo_heap (Some (Pointer 1 (num I8))) (Some (Pointer 2 (num I8))) (Some (Pointer 3 (num I8))));
    split; try exact I; reflexivity.
Defined.
