(* ===== verification/Value.v ===== *)
(** * Values

    [cyarg/value.h], [value.c], [value_cell.c] and the [promote] of [vm.c]:
    the tagged values of the virtual machine, the tests on them, promotion of
    integer literals, and assignment to typed cells.

    A [Value] is the pair of a type pointer and a union.  The constructors
    below are the macros that make values; each fixes the type pointer and the
    member of the union in use.  Small integers are in the value, large ones
    in an object of the integer store ([IntData]), which several values may
    share. *)
From Stdlib Require Export SpecFloat.
From S2P Require Export IntOps YargType.
Open Scope Z_scope.

(** ** Values *)

(** [BigSmallInt]: an [Int] of two digits in place, or the address of one,
    next to a flag. *)
Inductive BigSmallInt := SmallInt (i : Int) | BigInt (literal : bool) (objInt : ptr).

Abbreviation objptr := positive.

Inductive Value :=
  | NIL_VAL
  | BOOL_VAL (b : bool)
  | DOUBLE_VAL (d : spec_float)
  | NUM_VAL (n : NumType) (v : Z)     (* [I8_VAL] ... [UI64_VAL] *)
  | ADDRESS_VAL (a : Z)
  | INT_VAL (i : BigSmallInt)
  | TYPED_VAL (t : YargType) (obj : option objptr)
  | YARGTYPE_VAL (t : YargType)
  | IMPL_OBJ_VAL (obj : option objptr).

(** [value.type] *)
Definition type_of (v : Value) : option YargType :=
  match v with
  | NIL_VAL => None
  | BOOL_VAL _ => Some (Simple Boolean)
  | DOUBLE_VAL _ => Some (Simple Dbl)
  | NUM_VAL n _ => Some (Simple (Num n))
  | ADDRESS_VAL _ => Some (Simple Address)
  | INT_VAL _ => Some (Simple Integer)
  | TYPED_VAL t _ => Some t
  | YARGTYPE_VAL _ => Some (Simple Type_)
  | IMPL_OBJ_VAL _ => Some (Simple Implementation_obj)
  end.

(** [is_nil]; its assertion cannot fail, because only [NIL_VAL] has no type. *)
Definition IS_NIL (v : Value) : bool :=
  match v with
  | NIL_VAL => true
  | TYPED_VAL t None =>
      match yt t with
      | TypePointer | TypeClass | TypeInstance | TypeFunction | TypeRoutine | TypeChannel
      | TypeSyncGroup | TypeMap | TypeString => true
      | _ => false
      end
  | _ => false
  end.

Definition isObjValue (v : Value) : bool :=
  match v with
  | IMPL_OBJ_VAL (Some _) => true
  | TYPED_VAL t (Some _) => is_obj_yargtype (Some t)
  | YARGTYPE_VAL _ => true
  | _ => false
  end.

Definition isFalsey (v : Value) : bool := IS_NIL v || match v with BOOL_VAL b => negb b | _ => false end.

Definition is_uniformarray (v : Value) : bool :=
  match type_of v with Some t => bool_decide (yt t = TypeArray) | None => false end.
Definition is_pointer (v : Value) : bool :=
  match type_of v with Some t => bool_decide (yt t = TypePointer) | None => false end.
Definition is_struct (v : Value) : bool :=
  match type_of v with Some t => bool_decide (yt t = TypeStruct) | None => false end.

(** [concrete_typeof]: [None] is a fatal error. *)
Definition concrete_typeof (v : Value) : option Value :=
  if IS_NIL v then Some NIL_VAL
  else match v with
       | IMPL_OBJ_VAL (Some _) => None
       | _ => t ← type_of v; Some (YARGTYPE_VAL t)
       end.

(** The tables of values. *)
#[export] Instance ValueTable : TableValue Value.
Proof.
  refine {| is_nil := IS_NIL; is_true v := match v with BOOL_VAL b => b | _ => false end;
            nil_value := NIL_VAL; tombstone := BOOL_VAL true |}; done.
Defined.

Record ValueCell := mkCell { cell_value : Value; cellType : option YargType }.

#[export] Instance ValueCellTable : TableValue ValueCell.
Proof.
  refine {| is_nil c := IS_NIL (cell_value c);
            is_true c := match cell_value c with BOOL_VAL b => b | _ => false end;
            nil_value := mkCell NIL_VAL None; tombstone := mkCell (BOOL_VAL true) None |}; done.
Defined.

(** ** Integers in values *)
Section Ints.
Context `{U : Uninit}.

(** A block that uses [AS_INT(value)]: the [Int] of a small integer is at an
    address of its own while the block runs. *)
Definition with_int {A} (b : BigSmallInt) (k : ptr → M A) : M A :=
  match b with SmallInt i => with_object i k | BigInt _ p => k p end.

(** [AS_INT(value)->literal_] *)
Definition int_literal (b : BigSmallInt) : M bool :=
  match b with SmallInt i => mret (literal_ i) | BigInt _ p => i ← get p; mret (literal_ i) end.
(** [AS_BIG_SMALL_INT(value).literal_] *)
Definition bsi_literal (b : BigSmallInt) : bool :=
  match b with SmallInt i => literal_ i | BigInt l _ => l end.

(** The object is shared by all values that have its address. *)
Definition noLongerLiteralInt (v : Value) : M Value :=
  match v with
  | INT_VAL (SmallInt i) => mret (INT_VAL (SmallInt (set_literal_ false i)))
  | INT_VAL (BigInt _ p) => modify p (set_literal_ false) ;; mret (INT_VAL (BigInt false p))
  | _ => mret v
  end.

(** [int_is_range(i, l, u) == INT_WITHIN] *)
Definition within (b : BigSmallInt) (l u : Z) : M bool :=
  r ← with_int b (λ p, int_is_range p l u); mret (bool_decide (r = INT_WITHIN)).

(** The least and the greatest value of a machine type. *)
Definition num_signed (n : NumType) : bool :=
  match n with I8 | I16 | I32 | I64 => true | _ => false end.
Definition num_bits (n : NumType) : Z :=
  match n with I8 | UI8 => 8 | I16 | UI16 => 16 | I32 | UI32 => 32 | I64 | UI64 => 64 end.
Definition num_min (n : NumType) : Z := if num_signed n then - 2 ^ (num_bits n - 1) else 0.
Definition num_max (n : NumType) : Z := if num_signed n then 2 ^ (num_bits n - 1) - 1 else 2 ^ num_bits n - 1.
(** A conversion to the type. *)
Definition num_wrap (n : NumType) (x : Z) : Z :=
  if num_signed n then swrap (num_bits n) x else x mod 2 ^ num_bits n.

(** The conversion that each machine type uses. *)
Definition convert (n : NumType) (b : BigSmallInt) : M Z :=
  with_int b (λ p, match n with
    | I8 | I16 | I32 => int_to_i32 p
    | UI8 | UI16 | UI32 => int_to_u32 p
    | I64 => int_to_i64 p
    | UI64 => int_to_u64 p
    end).

(** The [switch] of [isInitialisableType] on a literal: the promoted value. *)
Definition promote_literal (n : NumType) (b : BigSmallInt) : M (option Value) :=
  w ← within b (num_min n) (num_max n);
  if (w : bool) then x ← convert n b; mret (Some (NUM_VAL n (num_wrap n x))) else mret None.

(** The answer with [*promotedRhs]. *)
Definition isInitialisableType (lhsType : option YargType) (rhs : Value) : M (bool * Value) :=
  match lhsType with
  | None => mret (true, NIL_VAL)
  | Some lt =>
      if IS_NIL rhs then mret (is_nil_assignable_type lhsType, NIL_VAL)
      else
        match concrete_typeof rhs with
        | Some (YARGTYPE_VAL rt) =>
            match lt, rt with
            | Array _ ln le, Array _ rn re => mret (isInitializableArray ln le rn re, NIL_VAL)
            | _, _ =>
                p ← match rhs, lt with
                    | INT_VAL b, Simple (Num n) => if bsi_literal b then promote_literal n b else mret None
                    | _, _ => mret None
                    end;
                match p with
                | Some v => mret (true, v)
                | None => mret (typesEqual lhsType (Some rt), NIL_VAL)
                end
            end
        | _ => st_fail
        end
  end.

(** The value that [assignToValueCellTarget] stores, unless it refuses. *)
Definition assignToValueCellTarget (cellType : option YargType) (rhs : Value) : M (option Value) :=
  match cellType with
  | None => v ← noLongerLiteralInt rhs; mret (Some v)
  | Some _ =>
      '(ok, promoted) ← isInitialisableType cellType rhs;
      if (ok : bool) then
        match promoted with
        | NIL_VAL => v ← noLongerLiteralInt rhs; mret (Some v)
        | _ => mret (Some promoted)
        end
      else mret None
  end.

(** One test and assignment of [promote]. *)
Definition try_promote (test : NumType) (lo hi : Z) (wrap : NumType) (promoteTo : option YargType) (b : BigSmallInt)
    (otherwise : M (option Value)) : M (option Value) :=
  if typesEqual promoteTo (Some (Simple (Num test))) then
    w ← within b lo hi;
    if (w : bool) then x ← convert wrap b; mret (Some (NUM_VAL test (num_wrap test x))) else otherwise
  else otherwise.

(** The branches of [promote].  The third tests for [uint16] where it means
    [int16]; what it assigns to [as.i16] is read as [as.ui16]. *)
Definition promoted (promoteTo : option YargType) (b : BigSmallInt) : M (option Value) :=
  let same n := try_promote n (num_min n) (num_max n) n promoteTo b in
  same I8 (same UI8 (try_promote UI16 (num_min I16) (num_max I16) I16 promoteTo b
    (same UI16 (same I32 (same UI32 (same I64 (same UI64 (mret None)))))))).

Definition literal_int (v : Value) : M (option BigSmallInt) :=
  match v with
  | INT_VAL b => l ← int_literal b; mret (if (l : bool) then Some b else None)
  | _ => mret None
  end.

Definition promote (left right : Value) : M (Value * Value) :=
  l ← literal_int left;
  match l with
  | Some b => v ← promoted (type_of right) b; mret (default left v, right)
  | None =>
      r ← literal_int right;
      match r with
      | Some b => v ← promoted (type_of left) b; mret (left, default right v)
      | None => mret (left, right)
      end
  end.
End Ints.

(** ** Indexes and offsets *)
Section Positive.
Context `{U : Uninit} `{TG : Target}.

Definition is_64bit : bool := size_bits =? 64.
(** [UINT64_MAX] or [UINT32_MAX] *)
Definition index_max : Z := if is_64bit then 2 ^ 64 - 1 else 2 ^ 32 - 1.

Definition is_positive_integer (a : Value) : M bool :=
  match a with
  | NUM_VAL (UI32 | UI16 | UI8) _ => mret true
  | NUM_VAL (I32 | I16 | I8) v => mret (0 <=? v)
  | NUM_VAL UI64 v => mret (is_64bit || (v <=? 2 ^ 32 - 1))
  | NUM_VAL I64 v => mret ((0 <=? v) && (is_64bit || (v <=? 2 ^ 32 - 1)))
  | INT_VAL b => within b 0 index_max
  | _ => mret false
  end.

(** A negative value becomes a large [size_t]. *)
Definition as_positive_integer (a : Value) : M Z :=
  match a with
  | NUM_VAL (I8 | I16 | I32) v => mret (usize v)
  | NUM_VAL (UI8 | UI16 | UI32) v => mret v
  | NUM_VAL I64 v => mret (if is_64bit then usize v else if v <=? 2 ^ 32 - 1 then v mod 2 ^ 32 else 0)
  | NUM_VAL UI64 v => mret (if is_64bit then v else if v <=? 2 ^ 32 - 1 then v mod 2 ^ 32 else 0)
  | INT_VAL b =>
      w ← within b 0 index_max;
      if (w : bool) then with_int b (λ p, if is_64bit then int_to_u64 p else int_to_u32 p) else mret 0
  | _ => mret 0
  end.
End Positive.

(** ** Equality

    Addresses of objects decide for most types.  [loc] is where the container
    of a pointer value points. *)
Section Equal.
Variable loc : objptr → Z.

Definition obj_of (v : Value) : option objptr :=
  match v with TYPED_VAL _ o | IMPL_OBJ_VAL o => o | _ => None end.

(** [arraysEqual] and [structsEqual] *)
Definition containersEqual (a b : Value) : bool :=
  if negb (typesEqual (type_of a) (type_of b)) then false else bool_decide (obj_of a = obj_of b).
Definition pointersEqual (a b : Value) : option bool :=
  if negb (typesEqual (type_of a) (type_of b)) then Some false
  else match obj_of a, obj_of b with
       | Some p, Some q => Some (loc p =? loc q)
       | _, _ => None
       end.

(** [int_is(AS_INT(a), AS_INT(b)) == INT_EQ] *)
Definition ints_equal (a b : BigSmallInt) : M bool :=
  r ← with_int a (λ p, with_int b (λ q, int_is p q)); mret (bool_decide (r = INT_EQ)).

(** The cases of the [switch] on [a.type->yt]; [None] is undefined behaviour. *)
Definition valuesEqual (a b : Value) : M bool :=
  if negb (same_type (type_of a) (type_of b)) then mret false
  else if IS_NIL a && IS_NIL b then mret true
  else
    match a, b with
    | BOOL_VAL x, BOOL_VAL y => mret (Bool.eqb x y)
    | DOUBLE_VAL x, DOUBLE_VAL y => mret (SFeqb x y)
    | NUM_VAL _ x, NUM_VAL _ y => mret (x =? y)
    | ADDRESS_VAL x, ADDRESS_VAL y => mret (x =? y)
    | INT_VAL x, INT_VAL y => ints_equal x y
    | YARGTYPE_VAL x, YARGTYPE_VAL y => mret (typesEqual (Some x) (Some y))
    | TYPED_VAL t x, TYPED_VAL _ y =>
        match yt t with
        | TypeArray | TypeStruct => mret (containersEqual a b)
        | TypePointer => λ s, r ← pointersEqual a b; Some (r, s)
        | TypeMap | TypeString | TypeRoutine | TypeClass | TypeInstance | TypeFunction
        | TypeChannel | TypeSyncGroup => mret (bool_decide (x = y))
        | _ => st_fail
        end
    | IMPL_OBJ_VAL x, IMPL_OBJ_VAL y =>
        (* [implementation_obj] has the tag of [TypeBool]: a byte of the address *)
        st_fail
    | _, _ => st_fail
    end.
End Equal.

(** ** Dynamic arrays *)
Record DynamicValueArray := mkArray { acapacity : nat; acount : nat; avalues : list Value }.

Definition initDynamicValueArray : DynamicValueArray := mkArray 0 0 [].

(** The new part of a grown array is uninitialised: here it is nil. *)
Definition grow (l : list Value) (n : nat) : list Value := l ++ replicate (n - length l) NIL_VAL.

(** A write outside the array is undefined behaviour. *)
Definition appendToDynamicValueArray (a : DynamicValueArray) (v : Value) : option DynamicValueArray :=
  let a :=
    if (acapacity a <? acount a + 1)%nat
    then let c := GROW_CAPACITY (acapacity a) in mkArray c (acount a) (grow (avalues a) c)
    else a in
  if (acount a <? length (avalues a))%nat
  then Some (mkArray (acapacity a) (S (acount a)) (<[acount a := v]> (avalues a)))
  else None.

(** ** Constants of a chunk *)
Section Constants.
Variable loc : objptr → Z.

(** The search of [addConstant] from index [i]; [n] entries are left. *)
Fixpoint find_constant (n i : nat) (constants : DynamicValueArray) (v : Value) : M (option nat) :=
  match n with
  | O => mret None
  | S n' =>
      match avalues constants !! i with
      | None => st_fail
      | Some c =>
          e ← valuesEqual loc c v;
          if (e : bool) then mret (Some i) else find_constant n' (S i) constants v
      end
  end.

Definition addConstant (constants : DynamicValueArray) (v : Value) : M (nat * DynamicValueArray) :=
  r ← find_constant (acount constants) 0 constants v;
  match r with
  | Some i => mret (i, constants)
  | None =>
      λ s, match appendToDynamicValueArray constants v with
           | Some c => Some ((acount c - 1)%nat, c, s)
           | None => None
           end
  end.
End Constants.
