(* ===== verification/CellTable.v ===== *)
(** * The two hash tables of the virtual machine

    [ValueTable] and [ValueCellTable] of [cyarg/table.c] as the two instances
    of [Table], and what both promise: a table behaves as the finite map it
    stands for, over any sequence of operations. *)
From S2P Require Export TableSpec Value.
Open Scope Z_scope.

(** ** [ValueCellTable]: the same code on cells, without the assertions *)
Section Cells.
Variable str : strptr → ObjString.

Abbreviation CellTable := (Table ValueCell).

Definition initCellTable : CellTable := initTable.
Definition findCellEntry : list (Entry ValueCell) → nat → strptr → option nat := findEntry str.
Definition tableCellGet : CellTable → strptr → option (option ValueCell) := tableGet str.

(** The address of the cell: its index. *)
Definition tableCellGetPlace (t : CellTable) (k : strptr) : option (option nat) :=
  if count t =? 0 then Some None
  else
    i ← findCellEntry (entries t) (capacity t) k;
    e ← entries t !! i;
    match key e with None => Some None | Some _ => Some (Some i) end.

Definition adjustCellCapacity : CellTable → nat → option CellTable := adjustCapacity str false.
Definition tableCellSet : CellTable → strptr → ValueCell → option (bool * CellTable) := tableSet str false.
Definition tableCellDelete : CellTable → strptr → option (bool * CellTable) := tableDelete str.
Definition tableCellAddAll : CellTable → CellTable → option CellTable := tableAddAll str false.
Definition tableCellFindString : CellTable → list Z → Z → option (option strptr) := tableFindString str false.
Definition tableCellRemoveWhite : CellTable → option CellTable := tableRemoveWhite str false.
End Cells.

(** ** Sequences of operations *)
Section Sequences.
Context {V : Type} `{TV : TableValue V}.
Variable str : strptr → ObjString.
Variable checks : bool.

Inductive table_op := SetKey (k : strptr) (v : V) | GetKey (k : strptr) | DeleteKey (k : strptr).
Inductive table_answer := Flag (b : bool) | Found (v : option V).

Definition table_step (o : table_op) (t : Table V) : option (table_answer * Table V) :=
  match o with
  | SetKey k v => '(b, t) ← tableSet str checks t k v; Some (Flag b, t)
  | GetKey k => r ← tableGet str t k; Some (Found r, t)
  | DeleteKey k => '(b, t) ← tableDelete str t k; Some (Flag b, t)
  end.
Fixpoint table_run (os : list table_op) (t : Table V) : option (list table_answer * Table V) :=
  match os with
  | [] => Some ([], t)
  | o :: os' => '(a, t) ← table_step o t; '(l, t) ← table_run os' t; Some (a :: l, t)
  end.

(** The specification: the same on a finite map. *)
Definition map_step (o : table_op) (m : gmap strptr V) : table_answer * gmap strptr V :=
  match o with
  | SetKey k v => (Flag (bool_decide (m !! k = None)), <[k := v]> m)
  | GetKey k => (Found (m !! k), m)
  | DeleteKey k => (Flag (bool_decide (is_Some (m !! k))), delete k m)
  end.
Fixpoint map_run (os : list table_op) (m : gmap strptr V) : list table_answer * gmap strptr V :=
  match os with
  | [] => ([], m)
  | o :: os' => let '(a, m) := map_step o m in let '(l, m) := map_run os' m in (a :: l, m)
  end.
End Sequences.
Arguments table_op : clear implicits.
Arguments table_answer : clear implicits.

Abbreviation map_of t := (contents (entries t)).

Lemma table_step_run {V} `{TV : TableValue V} str checks (o : table_op V) t :
  (∀ k, 0 ≤ hash (str k) < 2 ^ 32) → wf_table str t →
  ∃ t', table_step str checks o t = Some ((map_step o (map_of t)).1, t') ∧ wf_table str t' ∧
    map_of t' = (map_step o (map_of t)).2.
Proof.
  intros Hh H. destruct o as [k v|k|k]; cbn [table_step map_step fst snd].
  - destruct (tableSet_run str checks Hh t k v H) as (t' & E & H' & Hm & _). exists t'. by rewrite E.
  - exists t. by rewrite (tableGet_run str Hh t k H).
  - destruct (tableDelete_run str Hh t k H) as (t' & E & H' & Hm & _). exists t'. by rewrite E.
Qed.

(** C1. A table behaves as a finite map over every sequence of operations:
    each of them ends, no assertion fails, every answer is that of the map,
    and the table stays well formed.  This holds for both tables of the
    virtual machine, with and without assertions. *)
Theorem table_refines_map {V} `{TV : TableValue V} str checks (os : list (table_op V)) t :
  (∀ k, 0 ≤ hash (str k) < 2 ^ 32) → wf_table str t →
  ∃ t', table_run str checks os t = Some ((map_run os (map_of t)).1, t') ∧ wf_table str t' ∧
    map_of t' = (map_run os (map_of t)).2.
Proof.
  intros Hh. revert t. induction os as [|o os IH]; intros t H; cbn [table_run map_run]; [by exists t|].
  destruct (table_step_run str checks o t Hh H) as (t1 & E & H1 & Hm). rewrite E. cbn [mbind option_bind].
  destruct (map_step o (map_of t)) as [a m] eqn:Em. cbn [fst snd] in *.
  destruct (IH t1 H1) as (t' & E' & H' & Hm'). rewrite E'. rewrite Hm in *.
  destruct (map_run os m) as [l m']. by exists t'.
Qed.

Lemma table_refines_map_witness :
  let os := [SetKey 1%positive (NUM_VAL I8 5); DeleteKey 1%positive; SetKey 2%positive NIL_VAL; GetKey 2%positive] in
  ∃ t', table_run demo_str true os (initTable (V := Value)) = Some ((map_run os (map_of (initTable (V := Value)))).1, t') ∧
    wf_table demo_str t' ∧ map_of t' = (map_run os (map_of (initTable (V := Value)))).2.
Proof.
  apply (table_refines_map demo_str true _ (initTable (V := Value))); [apply demo_hash|].
  left. split; [reflexivity|]. split; reflexivity.
Defined.

(** [tableAddAll] ends, and leaves the union of both maps, where the
    source table wins. *)
Theorem tableAddAll_union {V} `{TV : TableValue V} str checks (from to : Table V) :
  (∀ k, 0 ≤ hash (str k) < 2 ^ 32) → wf_table str from → wf_table str to →
  ∃ t', tableAddAll str checks from to = Some t' ∧ wf_table str t' ∧ map_of t' = map_of from ∪ map_of to.
Proof. intros Hh Hf Ht. apply (add_entries_run str checks Hh); [done|by apply (wf_inj str)]. Qed.

Lemma initTable_wf {V} `{TV : TableValue V} str : wf_table str (initTable (V := V)).
Proof. left. done. Qed.

Lemma tableAddAll_union_witness :
  ∃ t', tableAddAll demo_str false (initTable (V := ValueCell)) initTable = Some t' ∧ wf_table demo_str t' ∧
    map_of t' = map_of (initTable (V := ValueCell)) ∪ map_of initTable.
Proof.
  apply (tableAddAll_union demo_str false (initTable (V := ValueCell)) initTable);
    [apply demo_hash|apply initTable_wf|apply initTable_wf].
Defined.

Lemma tableRemoveWhite_run {V} `{TV : TableValue V} str checks (t : Table V) :
  (∀ k, 0 ≤ hash (str k) < 2 ^ 32) → wf_table str t →
  ∃ t', tableRemoveWhite str checks t = Some t' ∧ wf_table str t' ∧
    map_of t' = filter (λ kv, isMarked (str kv.1)) (map_of t).
Proof.
  intros Hh H. unfold tableRemoveWhite. rewrite (check_run str checks t H). cbn [mbind option_bind].
  destruct (remove_white_run str Hh (capacity t) 0 t H eq_refl) as (t' & E & H' & He).
  rewrite E. cbn [mbind option_bind]. rewrite (check_run str checks t' H'). cbn [mbind option_bind].
  exists t'. split; [done|]. split; [done|]. rewrite He. apply (wipe_contents str). by apply (wf_inj str).
Qed.

(** [tableRemoveWhite] ends, and keeps exactly the keys that are marked. *)
Theorem tableRemoveWhite_filters {V} `{TV : TableValue V} str checks (t : Table V) :
  (∀ k, 0 ≤ hash (str k) < 2 ^ 32) → wf_table str t →
  ∃ t', tableRemoveWhite str checks t = Some t' ∧ wf_table str t' ∧
    map_of t' = filter (λ kv, isMarked (str kv.1)) (map_of t).
Proof. intros Hh H. exact (tableRemoveWhite_run str checks t Hh H). Qed.

Lemma tableRemoveWhite_filters_witness :
  ∃ t', tableRemoveWhite demo_str true (initTable (V := Value)) = Some t' ∧ wf_table demo_str t' ∧
    map_of t' = filter (λ kv, isMarked (demo_str kv.1)) (map_of (initTable (V := Value))).
Proof.
  apply (tableRemoveWhite_filters demo_str true (initTable (V := Value))); [apply demo_hash|apply initTable_wf].
Defined.
