(* ===== verification/Intern.v ===== *)
(** * Strings and their interning

    [allocateString], [takeString], [copyString] and [copyStringWithEscapes]
    of [cyarg/yargobject.c] over the table [vm.strings]: strings with the same
    characters are one object, so that the language compares strings by
    address.  [hashString] is in [Table]. *)
From S2P Require Export CellTable.
Open Scope Z_scope.

(** ** The pool *)
Record Pool := mkPool { heap : gmap strptr ObjString; strings : Table Value }.

(** The string at an address; the default is not read. *)
Definition str_of (h : gmap strptr ObjString) (k : strptr) : ObjString :=
  default (mkObjString [] 0 false) (h !! k).

Definition allocateString (cs : list Z) (h : Z) (P : Pool) : option (strptr * Pool) :=
  let k := fresh (dom (heap P)) in
  let hp := <[k := mkObjString cs h false]> (heap P) in
  '(_, t) ← tableSet (str_of hp) true (strings P) k NIL_VAL;
  Some (k, mkPool hp t).

(** [takeString] is the same but for who owns the buffer. *)
Definition copyString (cs : list Z) (P : Pool) : option (strptr * Pool) :=
  let h := hashString cs in
  interned ← tableFindString (str_of (heap P)) true (strings P) cs h;
  match interned with
  | Some k => Some (k, P)
  | None => allocateString cs h P
  end.
Definition takeString : list Z → Pool → option (strptr * Pool) := copyString.

(** The loop of [copyStringWithEscapes].  A backslash at the end reads past
    the text. *)
Fixpoint unescape (cs : list Z) : option (list Z) :=
  match cs with
  | [] => Some []
  | c :: cs' =>
      if c =? 0 then Some []
      else if c =? 92 then
        match cs' with
        | [] => None
        | c' :: cs'' => r ← unescape cs''; Some (c' :: r)
        end
      else r ← unescape cs'; Some (c :: r)
  end.
Definition copyStringWithEscapes (cs : list Z) (P : Pool) : option (strptr * Pool) :=
  cs ← unescape cs; copyString cs P.

(** [concatenateStrings] *)
Definition concatenateStrings (a b : strptr) (P : Pool) : option (strptr * Pool) :=
  takeString (chars (str_of (heap P) a) ++ chars (str_of (heap P) b)) P.

(** ** Hashes *)
Lemma fold_hash_range key : ∀ h, 0 ≤ h < 2 ^ 32 →
  0 ≤ fold_left (λ h c, u32 (Z.lxor h (u8 c) + 16777619)) key h < 2 ^ 32.
Proof.
  induction key as [|c key IH]; intros h Hh; simpl; [done|]. apply IH. by apply Z.mod_pos_bound.
Qed.
Lemma hashString_range key : 0 ≤ hashString key < 2 ^ 32.
Proof. by apply fold_hash_range. Qed.

(** FNV-1a, which multiplies. *)
Definition fnv1a (key : list Z) : Z := fold_left (λ h c, u32 (Z.lxor h (u8 c) * 16777619)) key 2166136261.

(** ** The invariant of the pool *)
Record pool_ok (P : Pool) : Prop := {
  p_hash : ∀ k o, heap P !! k = Some o → hash o = hashString (chars o);
  p_wf : wf_table (str_of (heap P)) (strings P);
  p_heap : ∀ k, is_Some (map_of (strings P) !! k) → is_Some (heap P !! k);
  p_unique : ∀ k k', is_Some (map_of (strings P) !! k) → is_Some (map_of (strings P) !! k') →
    chars (str_of (heap P) k) = chars (str_of (heap P) k') → k = k'
}.

Lemma pool_hash P k : pool_ok P → 0 ≤ hash (str_of (heap P) k) < 2 ^ 32.
Proof.
  intros H. unfold str_of. destruct (heap P !! k) as [o|] eqn:E; simpl; [|lia].
  rewrite (p_hash P H k o E). apply hashString_range.
Qed.

(** A table depends on the hashes of its own keys only. *)
Lemma wf_table_ext {V} `{TV : TableValue V} str str' (t : Table V) :
  (∀ k, is_Some (map_of t !! k) → hash (str k) = hash (str' k)) → wf_table str t → wf_table str' t.
Proof.
  intros Hs [H|(H8 & Ha & Hn & Hl)]; [by left|right]. split; [done|]. split; [|done].
  destruct Ha as [Hp HL Hnil Hinj Hprobe]. split; try done.
  intros i e k Hi Hk. rewrite <-(Hs k); [by eapply Hprobe|].
  exists (value e). apply contents_lookup; [done|]. exists i. rewrite Hi. f_equal. by destruct e; simpl in *; subst.
Qed.

Lemma str_of_insert h k o k' : k' ≠ k → str_of (<[k := o]> h) k' = str_of h k'.
Proof. intros Hk. unfold str_of. by rewrite lookup_insert_ne. Qed.
Lemma str_of_insert_eq h k o : str_of (<[k := o]> h) k = o.
Proof. unfold str_of. by rewrite lookup_insert_eq. Qed.

(** What a call that interns [cs] leaves. *)
Definition interns (cs : list Z) (P : Pool) (k : strptr) (P' : Pool) : Prop :=
  pool_ok P' ∧ chars (str_of (heap P') k) = cs ∧ is_Some (map_of (strings P') !! k) ∧
  (∀ k' o, heap P !! k' = Some o → heap P' !! k' = Some o) ∧
  (∀ k', is_Some (map_of (strings P) !! k') → is_Some (map_of (strings P') !! k')).

Lemma copyString_run cs P : pool_ok P → ∃ k P', copyString cs P = Some (k, P') ∧ interns cs P k P'.
Proof.
  intros H. unfold copyString.
  destruct (tableFindString_run (str_of (heap P)) true (strings P) cs (hashString cs)
    (p_wf P H) (hashString_range cs)) as (res & E & Hres). rewrite E. cbn [mbind option_bind].
  destruct res as [k|].
  { exists k, P. split; [done|]. destruct Hres as (Hk & Hm & _). split; [done|]. split; [done|]. split; [done|]. split; by intros. }
  unfold allocateString. set (k := fresh (dom (heap P))). set (o := mkObjString cs (hashString cs) false).
  assert (heap P !! k = None) as Hk by (apply not_elem_of_dom, is_fresh).
  assert (∀ k', is_Some (map_of (strings P) !! k') → k' ≠ k) as Hold.
  { intros k' Hk' ->. apply (p_heap P H) in Hk'. rewrite Hk in Hk'. by destruct Hk'. }
  assert (∀ k', 0 ≤ hash (str_of (<[k := o]> (heap P)) k') < 2 ^ 32) as Hrange.
  { intros k'. destruct (decide (k' = k)) as [->|Hne].
    - rewrite str_of_insert_eq. apply hashString_range.
    - rewrite str_of_insert by done. by apply pool_hash. }
  destruct (tableSet_run (str_of (<[k := o]> (heap P))) true Hrange (strings P) k NIL_VAL) as (t' & E' & H' & Hm & _).
  { apply (wf_table_ext (str_of (heap P))); [|apply H]. intros k' Hk'. by rewrite str_of_insert by by apply Hold. }
  rewrite E'. cbn [mbind option_bind]. exists k, (mkPool (<[k := o]> (heap P)) t'). split; [done|].
  assert (∀ k', is_Some (map_of t' !! k') ↔ k' = k ∨ is_Some (map_of (strings P) !! k')) as Hkeys.
  { intros k'. rewrite Hm. destruct (decide (k' = k)) as [->|Hne].
    - rewrite lookup_insert_eq. split; [by left|by eexists].
    - rewrite lookup_insert_ne by done. split; [by right|by intros [?|?]]. }
  split; [split|]; simpl.
  - intros k' o' Ho. apply lookup_insert_Some in Ho as [[_ <-]|[_ Ho]]; [done|by apply (p_hash P H k')].
  - done.
  - intros k' [->|Hk']%Hkeys; [by rewrite lookup_insert_eq|]. rewrite lookup_insert_ne by (apply not_eq_sym, Hold; done).
    by apply (p_heap P H).
  - assert (∀ k', is_Some (map_of (strings P) !! k') → chars (str_of (heap P) k') ≠ cs) as Hnew.
    { intros k' Hk' Hc. apply (Hres k' Hk'). split; [done|]. destruct (p_heap P H k' Hk') as [o' Ho'].
      unfold str_of in *. rewrite Ho' in *. simpl in *. rewrite (p_hash P H k' o' Ho'). by rewrite Hc. }
    intros k1 k2 [->|H1]%Hkeys [->|H2]%Hkeys; [done|..].
    + rewrite str_of_insert_eq, str_of_insert by by apply Hold. intros Hc. by destruct (Hnew k2 H2).
    + rewrite str_of_insert_eq, str_of_insert by by apply Hold. intros Hc. by destruct (Hnew k1 H1).
    + rewrite !str_of_insert by by apply Hold. by apply (p_unique P H).
  - split; [by rewrite str_of_insert_eq|]. split; [by apply Hkeys; left|]. split.
    + intros k' o' Ho'. rewrite lookup_insert_ne; [done|]. intros <-. congruence.
    + intros k' Hk'. apply Hkeys. by right.
Qed.

Definition escape (cs : list Z) : list Z := flat_map (λ c, if (c =? 34) || (c =? 92) then [92; c] else [c]) cs.

Lemma unescape_escape cs : Forall (λ c, c ≠ 0) cs → unescape (escape cs) = Some cs.
Proof.
  induction cs as [|c cs IH]; intros Hc; [done|]. apply list.Forall_cons in Hc as [H0 Hc]. specialize (IH Hc).
  cbn [escape flat_map]. fold (escape cs). destruct (Z.eqb_spec c 34) as [->|H34]; cbn [orb].
  - cbn [app unescape]. cbn. by rewrite IH.
  - destruct (Z.eqb_spec c 92) as [->|H92]; cbn [app unescape].
    + cbn. by rewrite IH.
    + rewrite (proj2 (Z.eqb_neq c 0)), (proj2 (Z.eqb_neq c 92)) by done. by rewrite IH.
Qed.

(** ** Properties *)

(** C19. Interning always returns a string with the characters asked for, and
    keeps every string where it is.  In the pool it leaves, two strings are
    the same object exactly if they have the same characters. *)
Theorem copyString_interns cs P :
  pool_ok P →
  ∃ k P', copyString cs P = Some (k, P') ∧ interns cs P k P' ∧
    (∀ k', is_Some (map_of (strings P') !! k') → (chars (str_of (heap P') k') = cs ↔ k' = k)).
Proof.
  intros H. destruct (copyString_run cs P H) as (k & P' & E & HI). exists k, P'. split; [done|]. split; [done|].
  destruct HI as (H' & Hc & Hk & _). intros k' Hk'. split; [|by intros ->].
  intros Hc'. apply (p_unique P' H'); [done|done|congruence].
Qed.

Definition empty_pool : Pool := mkPool ∅ initTable.
Lemma empty_pool_ok : pool_ok empty_pool.
Proof.
  split; simpl; [done|apply initTable_wf| |]; intros k; [|intros k']; by intros [? Hk].
Qed.

Lemma copyString_interns_witness :
  ∃ k P', copyString [97; 98] empty_pool = Some (k, P') ∧ interns [97; 98] empty_pool k P' ∧
    (∀ k', is_Some (map_of (strings P') !! k') → (chars (str_of (heap P') k') = [97; 98] ↔ k' = k)).
Proof. apply (copyString_interns [97; 98] empty_pool). apply empty_pool_ok. Defined.

(** Text with its quotes and backslashes escaped is read back as it was. *)
Theorem escapes_roundtrip cs P :
  pool_ok P → Forall (λ c, c ≠ 0) cs →
  ∃ k P', copyStringWithEscapes (escape cs) P = Some (k, P') ∧ interns cs P k P'.
Proof.
  intros H Hc. unfold copyStringWithEscapes. rewrite unescape_escape by done. by apply copyString_run.
Qed.

Lemma escapes_roundtrip_witness :
  ∃ k P', copyStringWithEscapes (escape [34; 92; 97]) empty_pool = Some (k, P') ∧ interns [34; 92; 97] empty_pool k P'.
Proof.
  apply (escapes_roundtrip [34; 92; 97] empty_pool); [apply empty_pool_ok|].
  repeat (apply List.Forall_cons; [discriminate|]). apply List.Forall_nil.
Defined.

(** [hashString] is not FNV-1a: it adds the prime.  Of the 676 words of
    two small letters, "aa" and "bl" collide, and only 64 hashes are left. *)
Theorem hashString_not_fnv1a :
  hashString [97; 97] = hashString [98; 108] ∧ fnv1a [97; 97] ≠ fnv1a [98; 108] ∧
  length (remove_dups (cs ← seqZ 97 26; c ← seqZ 97 26; [hashString [cs; c]])) = 64%nat.
Proof. vm_compute. split; [done|]. split; [discriminate|done]. Qed.
