(* ===== verification/Packed.v ===== *)
(** * Packed containers: arrays, structs and pointers

    [cyarg/packed_containers.c], with [getPlacedValue], [setPlacedValue],
    [defaultValue] of [value.c] and [assignToPlacedValueCellTarget] of
    [value_cell.c].  The elements of a container lie in a flat storage:
    machine numbers as their bytes, other elements as a [Value]. *)
From S2P Require Export Value.
Open Scope Z_scope.

(** ** Memory

    A cell is a byte, or the [k]-th byte of a stored object whose
    representation is left open; a [Value] and a [double] of zero bytes are
    nil and zero. *)
Inductive Stored := StoredValue (v : Value) | StoredDouble (d : spec_float).
Inductive Cell := Byte (b : Z) | Frag (o : Stored) (k : nat).

Abbreviation memory := (gmap Z Cell).

(** Access to memory that is not allocated is undefined behaviour. *)
Fixpoint write_cells (a : Z) (cs : list Cell) (m : memory) : option memory :=
  match cs with
  | [] => Some m
  | c :: cs' => _ ← m !! a; write_cells (a + 1) cs' (<[a := c]> m)
  end.
Fixpoint read_cells (a : Z) (n : nat) (m : memory) : option (list Cell) :=
  match n with
  | O => Some []
  | S n' => c ← m !! a; cs ← read_cells (a + 1) n' m; Some (c :: cs)
  end.

(** Little-endian bytes. *)
Fixpoint le_split (n : nat) (v : Z) : list Cell :=
  match n with O => [] | S n' => Byte (v mod 256) :: le_split n' (v / 256) end.
Fixpoint le_combine (cs : list Cell) : option Z :=
  match cs with
  | [] => Some 0
  | Byte b :: cs' => r ← le_combine cs'; Some (b + 256 * r)
  | Frag _ _ :: _ => None
  end.

Definition frags (o : Stored) (n : nat) : list Cell := Frag o <$> seq 0 n.

(** The object whose bytes the cells are, in order. *)
Fixpoint frags_from (k : nat) (cs : list Cell) : bool :=
  match cs with
  | [] => true
  | Frag _ k' :: cs' => (k =? k')%nat && frags_from (S k) cs'
  | Byte _ :: _ => false
  end.
Definition all_zero (cs : list Cell) : bool :=
  forallb (λ c, match c with Byte b => b =? 0 | Frag _ _ => false end) cs.

Definition as_value (cs : list Cell) : option Value :=
  if all_zero cs then Some NIL_VAL
  else match cs with
       | Frag (StoredValue v) _ :: _ => if frags_from 0 cs then Some v else None
       | _ => None
       end.
Definition as_double (cs : list Cell) : option spec_float :=
  if all_zero cs then Some (S754_zero false)
  else match cs with
       | Frag (StoredDouble d) _ :: _ => if frags_from 0 cs then Some d else None
       | _ => None
       end.

(** ** The heap *)

(** [ObjPackedContainer] and [ObjOwningPackedContainer]: the latter keeps a
    storage alive. *)
Record Container := mkContainer { loc : Z; storage : option objptr }.
Record PackedStorage := mkStorage { base : Z; storage_bytes : Z; value_addrs : list Z }.

Record Heap := mkHeap {
  mem : memory;
  brk : Z;                                  (* addresses from here on are free *)
  containers : gmap objptr Container;
  storages : gmap objptr PackedStorage;
  ints : gmap positive Int
}.

Abbreviation PM := (st Heap).

Definition fail {A} : PM A := λ _, None.
Definition of_opt {A} (o : option A) : PM A := λ h, match o with Some a => Some (a, h) | None => None end.
Definition get_heap : PM Heap := λ h, Some (h, h).
(** A program on integers. *)
Definition with_ints {A} (c : M A) : PM A :=
  λ h, match c (ints h) with
       | Some (a, i) => Some (a, mkHeap (mem h) (brk h) (containers h) (storages h) i)
       | None => None
       end.
Definition write (a : Z) (cs : list Cell) : PM () :=
  λ h, match write_cells a cs (mem h) with
       | Some m => Some ((), mkHeap m (brk h) (containers h) (storages h) (ints h))
       | None => None
       end.
Definition read (a : Z) (n : nat) : PM (list Cell) := h ← get_heap; of_opt (read_cells a n (mem h)).

Definition new_container (c : Container) : PM objptr :=
  λ h, let p := fresh (dom (containers h)) in
       Some (p, mkHeap (mem h) (brk h) (<[p := c]> (containers h)) (storages h) (ints h)).
Definition new_storage (s : PackedStorage) : PM objptr :=
  λ h, let p := fresh (dom (storages h)) in
       Some (p, mkHeap (mem h) (brk h) (containers h) (<[p := s]> (storages h)) (ints h)).
Definition set_container (p : objptr) (c : Container) : PM () :=
  λ h, Some ((), mkHeap (mem h) (brk h) (<[p := c]> (containers h)) (storages h) (ints h)).
Definition get_container (p : objptr) : PM Container := h ← get_heap; of_opt (containers h !! p).

(** [allocateObject] clears what it allocates. *)
Fixpoint clear (a : Z) (n : nat) (m : memory) : memory :=
  match n with O => m | S n' => <[a := Byte 0]> (clear (a + 1) n' m) end.
Definition allocate (n : nat) : PM Z :=
  λ h, Some (brk h, mkHeap (clear (brk h) n (mem h)) (brk h + Z.of_nat n) (containers h) (storages h) (ints h)).

Section Packed.
Context `{U : Uninit} `{TG : Target}.

(** ** Placed values *)
Definition load_value (a : Z) : PM Value := cs ← read a (Z.to_nat sizeof_Value); of_opt (as_value cs).
Definition store_value (a : Z) (v : Value) : PM () := write a (frags (StoredValue v) (Z.to_nat sizeof_Value)).

Definition load_num (n : NumType) (a : Z) : PM Z :=
  cs ← read a (Z.to_nat (num_size n)); r ← of_opt (le_combine cs); mret (num_wrap n r).

(** [getPlacedValue]; [fail] is a fatal error. *)
Definition getPlacedValue (a : Z) (type : option YargType) : PM Value :=
  if is_placeable_type type then
    match type with
    | Some (Simple Dbl) => cs ← read a 8; d ← of_opt (as_double cs); mret (DOUBLE_VAL d)
    | Some (Simple (Num n)) => x ← load_num n a; mret (NUM_VAL n x)
    | Some (Simple Address) =>
        cs ← read a (Z.to_nat sizeof_uintptr); r ← of_opt (le_combine cs); mret (ADDRESS_VAL r)
    | _ => fail
    end
  else fail.

(** [setPlacedValue]: the type of the value decides what is written. *)
Definition setPlacedValue (a : Z) (rhs : Value) : PM () :=
  match rhs with
  | NUM_VAL n x => write a (le_split (Z.to_nat (num_size n)) x)
  | ADDRESS_VAL x => write a (le_split (Z.to_nat sizeof_uintptr) x)
  | DOUBLE_VAL d => write a (frags (StoredDouble d) 8)
  | _ => fail
  end.

Definition assignToPlacedValueCellTarget (a : Z) (cellType : option YargType) (rhs : Value) : PM bool :=
  if cellType then
    '(ok, promoted) ← with_ints (isInitialisableType cellType rhs);
    if (ok : bool) then
      match promoted with
      | NIL_VAL =>
          if type_of rhs then
            v ← with_ints (noLongerLiteralInt rhs);
            if is_placeable_type (type_of v) then setPlacedValue a v ;; mret true else fail
          else fail
      | _ => if is_placeable_type (type_of promoted) then setPlacedValue a promoted ;; mret true else fail
      end
    else mret false
  else fail.

(** ** Elements of a type *)
Definition packs_asValue (t : YargType) : bool :=
  match yt t with
  | TypeBool | TypeInt | TypeString | TypeClass | TypeInstance | TypeFunction | TypeRoutine
  | TypeChannel | TypeSyncGroup | TypeMap | TypeYargType => true
  | _ => false
  end.
Definition yt_packs_asValue : option YargType → bool := at_type true packs_asValue.

(** The recursion of the two counts, on the weight of an element that is
    neither an array nor a struct. *)
Fixpoint count_elements (weight : option YargType → Z) (t : YargType) : Z :=
  let at_ := at_type (weight None) (count_elements weight) in
  match t with
  | Array _ n e => usize (n * at_ e)
  | Struct _ st => fold_left (λ total f, usize (total + at_ f)) (field_types st) 0
  | _ => weight (Some t)
  end.
Definition count_at (weight : option YargType → Z) : option YargType → Z :=
  at_type (weight None) (count_elements weight).
Definition yt_packable_element_count : option YargType → Z := count_at (λ _, 1).
Definition yt_packable_value_element_count : option YargType → Z :=
  count_at (λ t, if yt_packs_asValue t then 1 else 0).

(** [yt_flatten_types]: the elements it appends from an offset on. *)
Fixpoint flatten (start_offset : Z) (t : YargType) : list (Z * option YargType) :=
  let at_ o := at_type [(o, None)] (flatten o) in
  match t with
  | Array _ n e => flat_map (λ i, at_ (usize (start_offset + arrayElementOffset e (Z.of_nat i))) e) (seq 0 (Z.to_nat n))
  | Struct _ st =>
      (fix fields (fs : list (option YargType)) (os : list Z) : list (Z * option YargType) :=
         match fs, os with
         | f :: fs', o :: os' => at_ (usize (start_offset + o)) f ++ fields fs' os'
         | _, _ => []
         end) (field_types st) (field_indexes st)
  | _ => [(start_offset, Some t)]
  end.
Definition yt_flatten_types (start_offset : Z) (type : option YargType) : list (Z * option YargType) :=
  at_type [(start_offset, None)] (flatten start_offset) type.

(** ** Default values *)

(** [defaultIntValue] *)
Definition defaultIntValue : M Value :=
  with_local 2 (λ i, int_init_concrete 2 i ;; io ← get i; mret (INT_VAL (SmallInt io))).

(** [defaultValue] of the types that have no storage of their own. *)
Definition default_scalar (type : option YargType) : M Value :=
  match type with
  | None => mret NIL_VAL
  | Some t =>
      match yt t with
      | TypeBool => mret (BOOL_VAL false)
      | TypeInt => defaultIntValue
      | TypeDouble => mret (DOUBLE_VAL (S754_zero false))
      | TypeInt8 => mret (NUM_VAL I8 0) | TypeUint8 => mret (NUM_VAL UI8 0)
      | TypeInt16 => mret (NUM_VAL I16 0) | TypeUint16 => mret (NUM_VAL UI16 0)
      | TypeInt32 => mret (NUM_VAL I32 0) | TypeUint32 => mret (NUM_VAL UI32 0)
      | TypeInt64 => mret (NUM_VAL I64 0) | TypeUint64 => mret (NUM_VAL UI64 0)
      | TypeAddress => mret (ADDRESS_VAL 0)
      | _ => mret NIL_VAL
      end
  end.

(** The loop of [newPackedStorage] over the elements: the addresses of the
    elements that are a [Value], which are initialised. *)
Fixpoint init_values (base : Z) (limit : Z) (elements : list (Z * option YargType)) (addrs : list Z) : PM (list Z) :=
  match elements with
  | [] => mret addrs
  | (offset, t) :: elements' =>
      if yt_packs_asValue t then
        st_assert (Z.of_nat (length addrs) <? limit) ;;
        v ← with_ints (default_scalar t);
        store_value (base + offset) v ;;
        init_values base limit elements' (addrs ++ [base + offset])
      else init_values base limit elements' addrs
  end.

Definition newPackedStorage (type : option YargType) : PM objptr :=
  let size := yt_sizeof_type_storage type in
  a ← allocate (Z.to_nat size);
  let packed_elements := yt_packable_element_count type in
  let elements := yt_flatten_types 0 type in
  st_assert (Z.of_nat (length elements) =? packed_elements) ;;
  let value_elements := yt_packable_value_element_count type in
  st_assert (value_elements <=? packed_elements) ;;
  addrs ← init_values a value_elements elements [];
  new_storage (mkStorage a size addrs).

Definition newPackedValueContainer (type : option YargType) : PM (option objptr) :=
  s ← newPackedStorage type;
  h ← get_heap;
  st ← of_opt (storages h !! s);
  p ← new_container (mkContainer (base st) (Some s));
  mret (Some p).

(** [defaultArrayValue], [defaultStructValue], [defaultPointerValue] and
    [defaultValue] *)
Definition defaultValue (type : option YargType) : PM Value :=
  match type with
  | Some t =>
      match yt t with
      | TypeStruct | TypeArray => p ← newPackedValueContainer type; mret (TYPED_VAL t p)
      | _ => with_ints (default_scalar type)
      end
  | None => mret NIL_VAL
  end.

(** ** Containers *)
Definition AS_PACKEDCONTAINER (v : Value) : PM (objptr * Container) :=
  match v with TYPED_VAL _ (Some p) => c ← get_container p; mret (p, c) | _ => fail end.

Definition createPackedValueContainerAt (location : Z) (t : YargType) : PM Value :=
  p ← new_container (mkContainer location None); mret (TYPED_VAL t (Some p)).

(** A container inside another shares its storage. *)
Definition createPackedContainerFor (c : Container) (offset : Z) (t : YargType) : PM Value :=
  match storage c with
  | None => createPackedValueContainerAt (loc c + offset) t
  | Some s => p ← new_container (mkContainer (loc c + offset) (Some s)); mret (TYPED_VAL t (Some p))
  end.

(** Two of the four branches create a container. *)
Definition containerElement (c : Container) (element_type : option YargType) (offset : Z) : PM Value :=
  if is_packable_container_type element_type then
    match element_type with Some t => createPackedContainerFor c offset t | None => fail end
  else if is_placeable_type element_type then getPlacedValue (loc c + offset) element_type
  else load_value (loc c + offset).

Definition setPlacedContainerElement (c : Container) (element_type : option YargType) (offset : Z) (value : Value) : PM bool :=
  if is_placeable_type element_type then assignToPlacedValueCellTarget (loc c + offset) element_type value
  else
    r ← with_ints (assignToValueCellTarget element_type value);
    match r with
    | Some v => store_value (loc c + offset) v ;; mret true
    | None => mret false
    end.

Definition arrayElement (array : Value) (index : Z) : PM Value :=
  match type_of array with
  | Some (Array _ _ e) => '(_, c) ← AS_PACKEDCONTAINER array; containerElement c e (arrayElementOffset e index)
  | _ => fail
  end.
Definition setArrayElement (array : Value) (index : Z) (value : Value) : PM bool :=
  match type_of array with
  | Some (Array _ _ e) => '(_, c) ← AS_PACKEDCONTAINER array; setPlacedContainerElement c e (arrayElementOffset e index) value
  | _ => fail
  end.

(** A field index outside the type reads outside its arrays. *)
Definition structField (structVal : Value) (fieldIndex : nat) : PM Value :=
  match type_of structVal with
  | Some (Struct _ st) =>
      o ← of_opt (structFieldOffset st fieldIndex);
      t ← of_opt (field_types st !! fieldIndex);
      '(_, c) ← AS_PACKEDCONTAINER structVal; containerElement c t o
  | _ => fail
  end.
Definition setStructField (structVal : Value) (fieldIndex : nat) (value : Value) : PM bool :=
  match type_of structVal with
  | Some (Struct _ st) =>
      o ← of_opt (structFieldOffset st fieldIndex);
      t ← of_opt (field_types st !! fieldIndex);
      '(_, c) ← AS_PACKEDCONTAINER structVal; setPlacedContainerElement c t o value
  | _ => fail
  end.

Definition pointerDestination (pointer : Value) : PM Value :=
  match type_of pointer with
  | Some (Pointer _ t) => '(_, c) ← AS_PACKEDCONTAINER pointer; containerElement c t 0
  | _ => fail
  end.
Definition setPointerDestination (pointer : Value) (value : Value) : PM bool :=
  match type_of pointer with
  | Some (Pointer _ t) => '(_, c) ← AS_PACKEDCONTAINER pointer; setPlacedContainerElement c t 0 value
  | _ => fail
  end.

(** [containerElementPointer]; [p] is the address of the new pointer type. *)
Definition containerElementPointer (p : typeptr) (c : Container) (element_type : option YargType) (offset : Z) : PM Value :=
  createPackedContainerFor c offset (Pointer p element_type).
Definition arrayElementPointer (p : typeptr) (array : Value) (index : Z) : PM Value :=
  match type_of array with
  | Some (Array _ _ e) =>
      '(_, c) ← AS_PACKEDCONTAINER array; containerElementPointer p c e (arrayElementOffset e index)
  | _ => fail
  end.
Definition structFieldPointer (p : typeptr) (structVal : Value) (fieldIndex : nat) : PM Value :=
  match type_of structVal with
  | Some (Struct _ st) =>
      o ← of_opt (structFieldOffset st fieldIndex);
      t ← of_opt (field_types st !! fieldIndex);
      '(_, c) ← AS_PACKEDCONTAINER structVal; containerElementPointer p c t o
  | _ => fail
  end.

(** The object of the pointer changes, and with it every value that has it. *)
Definition offsetPointerDestination (pointer offset : Value) : PM () :=
  o ← with_ints (as_positive_integer offset);
  '(p, c) ← AS_PACKEDCONTAINER pointer;
  set_container p (mkContainer ((loc c + o) mod 2 ^ (8 * sizeof_uintptr)) (storage c)).

Definition duplicateStruct (structVal : Value) : PM Value :=
  match type_of structVal with
  | Some (Struct q st as t) =>
      '(_, c) ← AS_PACKEDCONTAINER structVal;
      s ← newPackedStorage (Some t);
      h ← get_heap;
      new ← of_opt (storages h !! s);
      cs ← read (loc c) (Z.to_nat (storage_bytes new));
      write (base new) cs ;;
      p ← new_container (mkContainer (base new) (Some s));
      mret (TYPED_VAL t (Some p))
  | _ => fail
  end.

Definition pinPackedValueContainer (v : Value) : PM Value :=
  '(_, c) ← AS_PACKEDCONTAINER v; mret (ADDRESS_VAL (loc c)).

(** [duplicateValue] *)
Definition duplicateValue (src : Value) : PM Value :=
  match src with
  | INT_VAL (BigInt _ p) =>
      with_ints (i ← get p; q ← allocateIntValue (d_ i); int_set_t p q ;; qo ← get q;
        mret (INT_VAL (if obj_ qo then BigInt false q else SmallInt qo)))
  | _ => if is_struct src then duplicateStruct src else mret src
  end.

(** ** Element access of the virtual machine: [derefArrayElement],
    [derefStructElement], [setAnArrayElement]; [None] in the result is a
    runtime error. *)
Definition derefArrayElement (p : typeptr) (collection index : Value) : PM (option Value) :=
  ok ← with_ints (is_positive_integer index);
  if (ok : bool) then
    i ← with_ints (as_positive_integer index);
    if is_uniformarray collection then
      match type_of collection with
      | Some (Array _ n _) => if n <=? i then mret None else v ← arrayElement collection i; mret (Some v)
      | _ => fail
      end
    else
      array ← pointerDestination collection;
      match type_of array with
      | Some (Array _ n _) => if n <=? i then mret None else v ← arrayElementPointer p array i; mret (Some v)
      | _ => fail
      end
  else mret None.

(** The index is not compared with the number of fields. *)
Definition derefStructElement (container index : Value) : PM (option Value) :=
  ok ← with_ints (is_positive_integer index);
  if (ok : bool) then
    i ← with_ints (as_positive_integer index);
    v ← structField container (Z.to_nat i);
    mret (Some v)
  else mret None.

Definition setAnArrayElement (array index rhs : Value) : PM bool :=
  ok ← with_ints (is_positive_integer index);
  if (ok : bool) then
    i ← with_ints (as_positive_integer index);
    match type_of array with
    | Some (Array _ n _) => if n <=? i then mret false else setArrayElement array i rhs
    | _ => fail
    end
  else mret false.
End Packed.
