(* ===== verification/Arith.v ===== *)
(** * Operators of the virtual machine on values

    The macros [BINARY_OP], [BINARY_BOOLEAN_OP] and [BINARY_UINT_OP] of
    [vm.c] and the cases of its [run] that use them.  An operator takes the
    two values on top of the stack, after promotion of literals, and pushes
    one.  [None] is undefined behaviour of the C code. *)
From S2P Require Export IntSpec Value.
Open Scope Z_scope.

(** ** Fixed-width arithmetic *)

(** The result of a signed operation of [w] bits: overflow is undefined. *)
Definition c_signed (w x : Z) : option Z :=
  if (- 2 ^ (w - 1) <=? x) && (x <? 2 ^ (w - 1)) then Some x else None.

Inductive arith := Plus | Minus | Times | Divide.

#[export] Instance arith_eq_dec : EqDecision arith.
Proof. solve_decision. Defined.

(** The mathematical operation; division by zero is undefined. *)
Definition z_op (op : arith) (a b : Z) : option Z :=
  match op with
  | Plus => Some (a + b)
  | Minus => Some (a - b)
  | Times => Some (a * b)
  | Divide => if b =? 0 then None else Some (Z.quot a b)
  end.

(** The operands that [BINARY_OP] loads: a [uint64] is loaded as an [int64_t]. *)
Definition load (n : NumType) (a : Z) : Z := match n with UI64 => i64 a | _ => a end.

(** The width of the operation: narrow operands are promoted to [int]. *)
Definition op_width (n : NumType) : Z := match n with I64 | UI64 => 64 | _ => 32 end.

Definition BINARY_OP_num (op : arith) (n : NumType) (a b : Z) : option Z :=
  r ← z_op op (load n a) (load n b);
  match n with
  | UI32 => Some (num_wrap n r)
  | _ => r ← c_signed (op_width n) r; Some (num_wrap n r)
  end.

(** [OP_ADD] loads a [uint64] as such. *)
Definition OP_ADD_num (n : NumType) (a b : Z) : option Z :=
  match n with
  | UI64 => Some (num_wrap n (a + b))
  | _ => BINARY_OP_num Plus n a b
  end.

Definition BINARY_OP_double (op : arith) (a b : spec_float) : spec_float :=
  match op with
  | Plus => SFadd 53 1024 a b
  | Minus => SFsub 53 1024 a b
  | Times => SFmul 53 1024 a b
  | Divide => SFdiv 53 1024 a b
  end.

Inductive comparison := Less | Greater.

Definition z_cmp (op : comparison) (a b : Z) : bool :=
  match op with Less => a <? b | Greater => b <? a end.

Definition BINARY_BOOLEAN_OP_num (op : comparison) (n : NumType) (a b : Z) : bool :=
  z_cmp op (load n a) (load n b).

Definition BINARY_BOOLEAN_OP_double (op : comparison) (a b : spec_float) : bool :=
  match op with Less => SFltb a b | Greater => SFltb b a end.

Inductive bitop := ShiftLeft | ShiftRight | BitOr | BitAnd | BitXor.

(** A shift by the width of the promoted operand or more is undefined, and so
    is one that leaves the range of [int]. *)
Definition BINARY_UINT_OP_num (op : bitop) (n : NumType) (a b : Z) : option Z :=
  let w := op_width n in
  match op with
  | ShiftLeft =>
      if w <=? b then None
      else match n with
           | UI8 | UI16 => r ← c_signed 32 (Z.shiftl a b); Some (num_wrap n r)
           | _ => Some (num_wrap n (Z.shiftl a b))
           end
  | ShiftRight => if w <=? b then None else Some (num_wrap n (Z.shiftr a b))
  | BitOr => Some (num_wrap n (Z.lor a b))
  | BitAnd => Some (num_wrap n (Z.land a b))
  | BitXor => Some (num_wrap n (Z.lxor a b))
  end.

(** [OP_NEGATE] *)
Definition negate_num (n : NumType) (a : Z) : option Z :=
  r ← c_signed (op_width n) (- a); Some (num_wrap n r).

(** ** Operators on values *)

(** What an instruction does with the top of the stack: push a value, hand
    over to a case that works on objects, or report an error. *)
Inductive Outcome := Push (v : Value) | OffsetPointer | Concatenate | RuntimeError.

Section Ops.
Context `{U : Uninit} `{TG : Target}.

Definition of_option {A} (o : option A) : M A := λ s, match o with Some a => Some (a, s) | None => None end.

(** [binaryIntOp] on values: the result is in place if it is small. *)
Definition int_value (p : ptr) : M Value :=
  i ← get p;
  mret (INT_VAL (if obj_ i then BigInt false p else SmallInt i)).
Definition binaryIntOp_val (op : int_op) (a b : BigSmallInt) : M Value :=
  with_int a (λ p, with_int b (λ q, r ← binaryIntOp op p q; int_value r)).
Definition binaryIntBoolOp_val (op : int_cmp) (a b : BigSmallInt) : M Value :=
  r ← with_int a (λ p, with_int b (λ q, binaryIntBoolOp op p q)); mret (BOOL_VAL r).

Definition arith_int (op : arith) : int_op :=
  match op with Plus => OpPlus | Minus => OpMinus | Times => OpTimes | Divide => OpDivide end.

(** [BINARY_OP] after [promote], which the machine calls on the two cells *)
Definition BINARY_OP (op : arith) (a b : Value) : M Outcome :=
  match a, b with
  | NUM_VAL n x, NUM_VAL n' y =>
      if decide (n = n') then r ← of_option (BINARY_OP_num op n x y); mret (Push (NUM_VAL n r))
      else mret RuntimeError
  | DOUBLE_VAL x, DOUBLE_VAL y => mret (Push (DOUBLE_VAL (BINARY_OP_double op x y)))
  | INT_VAL x, INT_VAL y => v ← binaryIntOp_val (arith_int op) x y; mret (Push v)
  | _, _ => mret RuntimeError
  end.

(** [BINARY_BOOLEAN_OP] promotes nothing itself. *)
Definition BINARY_BOOLEAN_OP (op : comparison) (a b : Value) : M Outcome :=
  match a, b with
  | NUM_VAL n x, NUM_VAL n' y =>
      if decide (n = n') then mret (Push (BOOL_VAL (BINARY_BOOLEAN_OP_num op n x y))) else mret RuntimeError
  | DOUBLE_VAL x, DOUBLE_VAL y => mret (Push (BOOL_VAL (BINARY_BOOLEAN_OP_double op x y)))
  | INT_VAL x, INT_VAL y =>
      v ← binaryIntBoolOp_val (match op with Less => OpLess | Greater => OpGreater end) x y; mret (Push v)
  | _, _ => mret RuntimeError
  end.

(** [OP_EQUAL], [OP_GREATER] and [OP_LESS]: two integers are compared as they
    are, other operands after [promote]. *)
Definition compare_ints (op : option comparison) (a b : BigSmallInt) : M Outcome :=
  v ← binaryIntBoolOp_val (match op with None => OpEqual | Some Greater => OpGreater | Some Less => OpLess end) a b;
  mret (Push v).
Definition compare_vals (loc : objptr → Z) (op : option comparison) (a b : Value) : M Outcome :=
  match op with
  | None => e ← valuesEqual loc a b; mret (Push (BOOL_VAL e))
  | Some c => BINARY_BOOLEAN_OP c a b
  end.

Definition is_unsigned (n : NumType) : bool := match n with UI8 | UI16 | UI32 | UI64 => true | _ => false end.

Definition BINARY_UINT_OP (op : bitop) (a b : Value) : M Outcome :=
  match a, b with
  | NUM_VAL n x, NUM_VAL n' y =>
      if decide (n = n') then
        if is_unsigned n then r ← of_option (BINARY_UINT_OP_num op n x y); mret (Push (NUM_VAL n r))
        else mret RuntimeError
      else mret RuntimeError
  | _, _ => mret RuntimeError
  end.

Definition is_string (v : Value) : bool :=
  match v with TYPED_VAL (Simple String_) (Some _) => true | _ => false end.

(** [OP_ADD] *)
Definition op_add (a b : Value) : M Outcome :=
  match a, b with
  | NUM_VAL n x, NUM_VAL n' y =>
      if decide (n = n') then r ← of_option (OP_ADD_num n x y); mret (Push (NUM_VAL n r)) else mret RuntimeError
  | DOUBLE_VAL x, DOUBLE_VAL y => mret (Push (DOUBLE_VAL (BINARY_OP_double Plus x y)))
  | ADDRESS_VAL x, NUM_VAL (I32 | UI32) y => mret (Push (ADDRESS_VAL ((x + y) mod 2 ^ (8 * sizeof_uintptr))))
  | INT_VAL x, INT_VAL y => v ← binaryIntOp_val OpPlus x y; mret (Push v)
  | _, _ =>
      p ← is_positive_integer b;
      if is_pointer a && p then mret OffsetPointer
      else if is_string a && is_string b then mret Concatenate
      else mret RuntimeError
  end.

(** [OP_MODULO] *)
Definition op_modulo (a b : Value) : M Outcome :=
  match a, b with
  | NUM_VAL n x, NUM_VAL n' y =>
      if decide (n = n') then
        r ← of_option (if num_signed n then modulo_signed (num_bits n) x y else modulo_unsigned x y);
        mret (Push (NUM_VAL n r))
      else mret RuntimeError
  | INT_VAL x, INT_VAL y => v ← binaryIntOp_val OpModulo x y; mret (Push v)
  | _, _ => mret RuntimeError
  end.

(** [OP_NEGATE] and [OP_NOT] *)
Definition op_negate (a : Value) : M Outcome :=
  match a with
  | DOUBLE_VAL d => mret (Push (DOUBLE_VAL (SFopp d)))
  | NUM_VAL n x => if num_signed n then r ← of_option (negate_num n x); mret (Push (NUM_VAL n r)) else mret RuntimeError
  | INT_VAL i => v ← with_int i (λ p, r ← unaryIntOp p; int_value r); mret (Push v)
  | _ => mret RuntimeError
  end.
Definition op_not (a : Value) : Value := BOOL_VAL (isFalsey a).

(** [OP_IMMEDIATE_P8] ... [OP_IMMEDIATE_N24]: the bytes follow the opcode. *)
Definition op_immediate (negative : bool) (bytes : list Z) : M Value :=
  let num := match bytes with
             | [b0] => b0
             | [b0; b1] => b0 + 256 * b1
             | [b0; b1; b2] => b0 + 256 * b1 + 65536 * b2
             | _ => 0
             end in
  with_local 2 (λ i,
    int_init_concrete 2 i ;;
    modify i (set_literal_ true) ;;
    int_set_u num i ;;
    modify i (set_neg_ negative) ;;
    int_invariant i ;;
    io ← get i;
    mret (INT_VAL (SmallInt io))).
End Ops.
