(* ===== verification/ValueSpec.v ===== *)
(** * Values: promotion, assignment, equality and constants *)
From S2P Require Export IntSpec YargTypeSpec Value.
Open Scope Z_scope.

(** ** Integers in values *)

(** The [Int] of a value. *)
Definition bsi_int (s : store) (b : BigSmallInt) : option Int :=
  match b with SmallInt i => Some i | BigInt _ p => s !! p end.

(** A program that only reads one object. *)
Definition reads {A} (k : ptr → M A) (i : Int) (a : A) : Prop := ∀ p (s : store), s !! p = Some i → k p s = Some (a, s).

Lemma with_int_run {A} b (k : ptr → M A) i a (s : store) :
  bsi_int s b = Some i → reads k i a → with_int b k s = Some (a, s).
Proof.
  intros Hb Hk. destruct b as [i'|l p]; simpl in *; [|by apply Hk].
  injection Hb as ->. apply (with_object_run i k s a i s). intros p Hp. split; [done|].
  apply Hk, lookup_insert_eq.
Qed.

(** The integers that values hold. *)
Definition int_ok (s : store) (b : BigSmallInt) (x : Z) : Prop := ∃ i, bsi_int s b = Some i ∧ wf i ∧ val i = x.

Lemma num_range n : INT64_MIN ≤ num_min n ∧ num_min n ≤ 0 ∧ 0 < num_max n ≤ UINT64_MAX.
Proof. destruct n; vm_compute; repeat split; congruence. Qed.

Lemma within_run `{U : Uninit} b x l u (s : store) :
  int_ok s b x → INT64_MIN ≤ l ≤ INT64_MAX → 0 ≤ u ≤ UINT64_MAX → l ≤ u →
  within b l u s = Some (bool_decide (l ≤ x ≤ u), s).
Proof.
  intros (i & Hi & W & <-) Hl Hu Hlu. unfold within.
  erewrite st_bind_run.
  2:{ eapply with_int_run; [exact Hi|]. intros p s' Hp. by apply (int_is_range_run p l u i s' Hp W). }
  cbv beta. rewrite st_ret_run. do 2 f_equal.
  apply bool_decide_ext. destruct (Z.ltb_spec u (val i)); [split; [done|lia]|].
  destruct (Z.ltb_spec (val i) l); (split; [done|lia]) || (split; [lia|done]).
Qed.

(** The conversion of a value in range. *)
Lemma convert_run `{U : Uninit} n b x (s : store) :
  int_ok s b x → num_min n ≤ x ≤ num_max n → (n = I32 → x ≠ - 2 ^ 31) → convert n b s = Some (x, s).
Proof.
  intros (i & Hi & W & <-) Hx Hm. unfold convert. eapply with_int_run; [exact Hi|]. intros p s' Hp.
  destruct (conversions_run p i s' Hp W) as (H64 & HU64 & H32 & HU32 & _).
  destruct n; unfold num_min, num_max in Hx; cbn in Hx;
    first [apply H32 | apply HU32 | apply H64 | apply HU64];
    unfold INT64_MIN, INT64_MAX, UINT64_MAX; try specialize (Hm eq_refl); lia.
Qed.

(** ** Promotion of literals *)
Lemma typesEqual_num o n :
  typesEqual o (Some (Simple (Num n))) = match o with Some (Simple (Num m)) => bool_decide (m = n) | _ => false end.
Proof.
  unfold typesEqual, nullable_eq, same_type.
  destruct o as [[[]| | | |]|]; try (by destruct n); simpl.
  destruct (decide (n0 = n)) as [->|Hn]; [by rewrite !bool_decide_eq_true_2|].
  rewrite !bool_decide_eq_false_2 by congruence. rewrite decide_False; [done|]. by destruct n0, n.
Qed.

Lemma typesEqual_dbl o :
  typesEqual o (Some (Simple Dbl)) = match o with Some (Simple Dbl) => true | _ => false end.
Proof. unfold typesEqual, nullable_eq, same_type. by destruct o as [[[]| | | |]|]; try destruct n. Qed.

(** What [promote] accepts for a machine type: it never promotes to [int16],
    and to [uint16] also negative literals. *)
Definition accepts (n : NumType) (x : Z) : bool :=
  match n with
  | I16 => false
  | UI16 => (-32768 <=? x) && (x <=? 65535)
  | _ => (num_min n <=? x) && (x <=? num_max n)
  end.

Section Promote.
Context `{U : Uninit}.
Variables (b : BigSmallInt) (x : Z) (s : store).
Hypothesis Hb : int_ok s b x.

Lemma try_promote_skip m lo hi w n rest :
  m ≠ n → try_promote m lo hi w (Some (Simple (Num n))) b rest = rest.
Proof.
  intros Hm. unfold try_promote. rewrite typesEqual_num, bool_decide_eq_false_2 by congruence. done.
Qed.

Lemma try_promote_run n w rest :
  (w = I32 → x ≠ - 2 ^ 31) →
  try_promote n (num_min w) (num_max w) w (Some (Simple (Num n))) b rest s =
  if bool_decide (num_min w ≤ x ≤ num_max w) then Some (Some (NUM_VAL n (num_wrap n x)), s) else rest s.
Proof.
  intros Hm. unfold try_promote. rewrite typesEqual_num, bool_decide_eq_true_2 by done.
  destruct (num_range w) as (H1 & H2 & H3).
  erewrite st_bind_run.
  2:{ apply (within_run b x); try done; unfold INT64_MAX; lia. }
  cbv beta. case_bool_decide as Hr; [|done].
  erewrite st_bind_run; [|by apply (convert_run w b x)]. done.
Qed.

Lemma promoted_run n :
  (n = I32 → x ≠ - 2 ^ 31) →
  promoted (Some (Simple (Num n))) b s = Some (if accepts n x then Some (NUM_VAL n (num_wrap n x)) else None, s).
Proof.
  intros Hm. unfold promoted, accepts.
  destruct n; rewrite ?try_promote_skip by done; rewrite ?try_promote_run by done;
    try (rewrite try_promote_run by done; unfold num_min, num_max; simpl);
    repeat case_bool_decide; unfold num_min, num_max in *; simpl in *;
    repeat match goal with |- context [?u <=? ?v] => destruct (Z.leb_spec u v) end; simpl; try done; lia.
Qed.

Lemma promoted_none : promoted None b s = Some (None, s).
Proof. done. Qed.
End Promote.

(** ** Well-formed values *)
Definition wf_value (s : store) (v : Value) : Prop :=
  match v with
  | NUM_VAL n x => num_min n ≤ x ≤ num_max n
  | INT_VAL b => ∃ x, int_ok s b x
  | TYPED_VAL t _ => is_obj_yargtype (Some t) = true
  | _ => True
  end.

(** The number that a value stands for. *)
Definition num_of (s : store) (v : Value) : option Z :=
  match v with
  | NUM_VAL _ x => Some x
  | INT_VAL b => val <$> bsi_int s b
  | _ => None
  end.

(** What a cell of a type may hold. *)
Definition holds (ct : option YargType) (v : Value) : Prop :=
  ct = None ∨ (IS_NIL v = true ∧ is_nil_assignable_type ct = true) ∨ typesEqual ct (type_of v) = true ∨
  ∃ p ln le q rn re, ct = Some (Array p ln le) ∧ type_of v = Some (Array q rn re) ∧ isInitializableArray ln le rn re = true.

Lemma num_wrap_small n x : num_min n ≤ x ≤ num_max n → num_wrap n x = x.
Proof.
  unfold num_min, num_max, num_wrap. destruct n; simpl; intros Hx;
    first [apply swrap_small; lia | apply Z.mod_small; lia].
Qed.

Lemma set_literal_wf l i : wf i → wf (set_literal_ l i).
Proof. intros [[[] ?] ? ?]. by constructor. Qed.

Lemma noLongerLiteralInt_run v (s : store) :
  wf_value s v →
  ∃ v' s', noLongerLiteralInt v s = Some (v', s') ∧ type_of v' = type_of v ∧ IS_NIL v' = IS_NIL v ∧ wf_value s' v' ∧
    num_of s' v' = num_of s v ∧ (∀ b, v' = INT_VAL b → bsi_literal b = false).
Proof.
  destruct v as [| | | | |[i|l p]| | |]; intros Hv; simpl in *; try (eexists _, _; split; [done|]; done).
  - eexists _, _. split; [done|]. split; [done|]. split; [done|]. split.
    + destruct Hv as (x & i' & [= <-] & W & V). exists x, (set_literal_ false i). split; [done|]. split; [by apply set_literal_wf|done].
    + split; [done|]. by intros b [= <-].
  - destruct Hv as (x & i & Hi & W & V). simpl in Hi.
    eexists _, _. split; [by rewrite (st_bind_run _ _ _ _ _ (modify_run p _ i s Hi))|].
    split; [done|]. split; [done|]. simpl. rewrite lookup_insert_eq, Hi. split.
    + exists x, (set_literal_ false i). split; [apply lookup_insert_eq|]. split; [by apply set_literal_wf|done].
    + split; [done|]. by intros b [= <-].
Qed.

(** ** Assignment to a cell *)
Section Assign.
Context `{U : Uninit}.

(** The one number that the conversion of a literal cannot produce. *)
Definition no_least_int32 (s : store) (ct : option YargType) (v : Value) : Prop :=
  ct = Some (Simple (Num I32)) → num_of s v ≠ Some (- 2 ^ 31).

Lemma promote_literal_run n b x (s : store) :
  int_ok s b x → (n = I32 → x ≠ - 2 ^ 31) →
  promote_literal n b s = Some (if bool_decide (num_min n ≤ x ≤ num_max n) then Some (NUM_VAL n x) else None, s).
Proof.
  intros Hb Hm. unfold promote_literal. destruct (num_range n) as (H1 & H2 & H3).
  erewrite st_bind_run; [|apply (within_run b x); try done; unfold INT64_MAX; lia].
  cbv beta. case_bool_decide as Hr; [|done].
  erewrite st_bind_run; [|by apply (convert_run n b x)]. cbv beta. by rewrite num_wrap_small.
Qed.

(** The literal that is promoted, if any. *)
Definition literal_for (lt : YargType) (s : store) (v : Value) : option Value :=
  match v, lt with
  | INT_VAL b, Simple (Num n) =>
      if bsi_literal b
      then x ← val <$> bsi_int s b; if bool_decide (num_min n ≤ x ≤ num_max n) then Some (NUM_VAL n x) else None
      else None
  | _, _ => None
  end.

Lemma literal_for_run lt rhs (s : store) :
  wf_value s rhs → no_least_int32 s (Some lt) rhs →
  (match rhs, lt with
   | INT_VAL b, Simple (Num n) => if bsi_literal b then promote_literal n b else mret None
   | _, _ => mret None
   end) s = Some (literal_for lt s rhs, s).
Proof.
  intros W Hn. unfold literal_for. destruct rhs as [| | | | |b| | |]; try done.
  destruct lt as [[]| | | |]; try done. destruct (bsi_literal b); [|done].
  destruct W as [x Hx]. pose proof Hx as (i & Hi & Wi & Vi). rewrite Hi. simpl. rewrite Vi.
  apply promote_literal_run; [done|]. intros ->. unfold no_least_int32 in Hn. simpl in Hn.
  specialize (Hn eq_refl). rewrite Hi in Hn. simpl in Hn. rewrite <-Vi. congruence.
Qed.

(** Whether the type of the value is that of the cell. *)
Definition type_fits (lt : YargType) (rt : option YargType) : bool :=
  match lt, rt with
  | Array _ ln le, Some (Array _ rn re) => isInitializableArray ln le rn re
  | _, _ => typesEqual (Some lt) rt
  end.

Lemma isInitialisableType_run lt rhs (s : store) :
  wf_value s rhs → (∀ o, rhs ≠ IMPL_OBJ_VAL o) → no_least_int32 s (Some lt) rhs →
  isInitialisableType (Some lt) rhs s =
  Some (if IS_NIL rhs then (is_nil_assignable_type (Some lt), NIL_VAL)
        else match literal_for lt s rhs with
             | Some v => (true, v)
             | None => (type_fits lt (type_of rhs), NIL_VAL)
             end, s).
Proof.
  intros W Hi Hn. unfold isInitialisableType. destruct (IS_NIL rhs) eqn:En; [done|].
  assert (∃ rt, type_of rhs = Some rt ∧ concrete_typeof rhs = Some (YARGTYPE_VAL rt)) as (rt & Et & ->).
  { unfold concrete_typeof. rewrite En. destruct rhs as [| | | | | | | |o]; simpl in *; try done; try (by eexists).
    by destruct (Hi o). }
  pose proof (literal_for_run lt rhs s W Hn) as HL.
  assert (∀ b, (p ← match rhs, lt with
      | INT_VAL b, Simple (Num n) => if bsi_literal b then promote_literal n b else mret None
      | _, _ => mret None
      end; match p with Some v => mret (true, v) | None => mret (b, NIL_VAL) end) s
    = Some (match literal_for lt s rhs with Some v => (true, v) | None => (b, NIL_VAL) end, s)) as Hrun.
  { intros b. rewrite (st_bind_run _ _ _ _ _ HL). by destruct (literal_for lt s rhs). }
  rewrite Et. unfold type_fits. destruct lt as [| | | |]; try apply Hrun.
  destruct rt as [| | | |]; try apply Hrun.
  by destruct rhs as [| | | | |[]| | |].
Qed.

Lemma type_fits_holds lt v : type_fits lt (type_of v) = true → holds (Some lt) v.
Proof.
  unfold type_fits, holds. destruct lt as [|p ln le| | |]; try (intros; by right; right; left).
  destruct (type_of v) as [[|q rn re| | |]|] eqn:Et; try (intros; by right; right; left).
  intros. right. right. right. by exists p, ln, le, q, rn, re.
Qed.
End Assign.

(** ** Properties *)

(** A large literal, as the compiler makes it: 2^40. *)
Definition literal40 : Int := mkInt false false true true 3 4 [0; 0; 256; 0].
Definition lit_store : store := {[ 1%positive := literal40 ]}.
Lemma literal40_wf : wf literal40.
Proof. by apply wfb_wf. Qed.
Lemma literal40_ok : int_ok lit_store (BigInt true 1%positive) (2 ^ 40).
Proof. exists literal40. split; [reflexivity|]. split; [apply literal40_wf|reflexivity]. Qed.

(** Promotion of an integer literal next to a machine integer, on either
    side: a literal of any size is replaced by the machine integer of the
    same number if that is in range, and otherwise nothing changes.  The
    exceptions: nothing is promoted to [int16], and to [uint16] also negative
    literals, modulo 2^16. *)
Theorem promote_correct `{U : Uninit} b x n y (s : store) :
  int_ok s b x → int_literal b s = Some (true, s) → (n = I32 → x ≠ - 2 ^ 31) →
  let lit := if accepts n x then NUM_VAL n (num_wrap n x) else INT_VAL b in
  promote (INT_VAL b) (NUM_VAL n y) s = Some ((lit, NUM_VAL n y), s) ∧
  promote (NUM_VAL n y) (INT_VAL b) s = Some ((NUM_VAL n y, lit), s) ∧
  (n ≠ I16 → n ≠ UI16 → lit = if bool_decide (num_min n ≤ x ≤ num_max n) then NUM_VAL n x else INT_VAL b).
Proof.
  intros Hb Hl Hm lit. pose proof (promoted_run b x s Hb n Hm) as Hp.
  assert (literal_int (INT_VAL b) s = Some (Some b, s)) as HL.
  { unfold literal_int. by rewrite (st_bind_run _ _ _ _ _ Hl). }
  unfold promote. split; [|split].
  - rewrite (st_bind_run _ _ _ _ _ HL). rewrite (st_bind_run _ _ _ _ _ Hp). unfold lit. by destruct (accepts n x).
  - change (literal_int (NUM_VAL n y)) with (mret (M := M) (@None BigSmallInt)).
    rewrite (st_bind_run _ _ _ _ _ (st_ret_run _ _)). rewrite (st_bind_run _ _ _ _ _ HL).
    rewrite (st_bind_run _ _ _ _ _ Hp). unfold lit. by destruct (accepts n x).
  - intros H1 H2. unfold lit. assert (accepts n x = (num_min n <=? x) && (x <=? num_max n)) as -> by by destruct n.
    destruct (Z.leb_spec (num_min n) x), (Z.leb_spec x (num_max n)); cbn [andb].
    + by rewrite num_wrap_small, bool_decide_eq_true_2.
    + by rewrite bool_decide_eq_false_2 by lia.
    + by rewrite bool_decide_eq_false_2 by lia.
    + by rewrite bool_decide_eq_false_2 by lia.
Qed.

Lemma promote_correct_witness :
  let b := BigInt true 1%positive in
  let lit := if accepts UI64 (2 ^ 40) then NUM_VAL UI64 (num_wrap UI64 (2 ^ 40)) else INT_VAL b in
  @promote Noise (INT_VAL b) (NUM_VAL UI64 5) lit_store = Some ((lit, NUM_VAL UI64 5), lit_store) ∧
  @promote Noise (NUM_VAL UI64 5) (INT_VAL b) lit_store = Some ((NUM_VAL UI64 5, lit), lit_store) ∧
  (UI64 ≠ I16 → UI64 ≠ UI16 →
   lit = if bool_decide (num_min UI64 ≤ 2 ^ 40 ≤ num_max UI64) then NUM_VAL UI64 (2 ^ 40) else INT_VAL b).
Proof.
  apply (@promote_correct Noise (BigInt true 1%positive) (2 ^ 40) UI64 5 lit_store);
    [apply literal40_ok|reflexivity|discriminate].
Defined.

Lemma assign_run `{U : Uninit} ct rhs (s : store) :
  wf_value s rhs → (∀ o, rhs ≠ IMPL_OBJ_VAL o) → no_least_int32 s ct rhs →
  ∃ r s', assignToValueCellTarget ct rhs s = Some (r, s') ∧
    match r with
    | None => s' = s
    | Some v => holds ct v ∧ wf_value s' v ∧ num_of s' v = num_of s rhs ∧ (∀ b, v = INT_VAL b → bsi_literal b = false)
    end.
Proof.
  intros W Hi Hn. destruct (noLongerLiteralInt_run rhs s W) as (v & s' & E & Ht & Hnil & W' & Hnum & Hlit).
  destruct ct as [lt|].
  - pose proof (isInitialisableType_run lt rhs s W Hi Hn) as HI. simpl.
    rewrite (st_bind_run _ _ _ _ _ HI).
    assert (holds (Some lt) rhs → ∃ r s'', (v0 ← noLongerLiteralInt rhs; mret (Some v0)) s = Some (r, s'') ∧
      match r with None => s'' = s | Some v => holds (Some lt) v ∧ wf_value s'' v ∧ num_of s'' v = num_of s rhs ∧
        (∀ b, v = INT_VAL b → bsi_literal b = false) end) as Hgo.
    { intros Hh. exists (Some v), s'. split; [by rewrite (st_bind_run _ _ _ _ _ E)|].
      split; [|done]. unfold holds in *. by rewrite Ht, Hnil. }
    destruct (IS_NIL rhs) eqn:En.
    + destruct (is_nil_assignable_type (Some lt)) eqn:Ea; [|by exists None, s].
      apply Hgo. right. by left.
    + destruct (literal_for lt s rhs) as [w|] eqn:El.
      * unfold literal_for in El. destruct rhs as [| | | | |b| | |]; try done. destruct lt as [[]| | | |]; try done.
        destruct (bsi_literal b); [|done]. destruct W as (x & i & Hbi & Wi & Vi). rewrite Hbi in El. simpl in El.
        case_bool_decide as Hr; [|done]. injection El as <-.
        exists (Some (NUM_VAL n (val i))), s. split; [done|]. split.
        { right. right. left. simpl. rewrite typesEqual_num. by apply bool_decide_eq_true_2. }
        simpl. by rewrite Hbi.
      * destruct (type_fits lt (type_of rhs)) eqn:Ef; [|by exists None, s].
        apply Hgo. by apply type_fits_holds.
  - exists (Some v), s'. split; [by simpl; rewrite (st_bind_run _ _ _ _ _ E)|]. split; [by left|done].
Qed.

(** C21. Assignment to a typed cell always returns.  If it succeeds, the cell
    holds a value of its type, nil where nil is allowed, or a promoted
    literal; the number is the one assigned, and it is no longer a literal.
    If it refuses, the store is unchanged. *)
Theorem assign_keeps_type `{U : Uninit} ct rhs (s : store) :
  wf_value s rhs → (∀ o, rhs ≠ IMPL_OBJ_VAL o) → no_least_int32 s ct rhs →
  ∃ r s', assignToValueCellTarget ct rhs s = Some (r, s') ∧
    match r with
    | None => s' = s
    | Some v => holds ct v ∧ wf_value s' v ∧ num_of s' v = num_of s rhs ∧ (∀ b, v = INT_VAL b → bsi_literal b = false)
    end.
Proof. apply assign_run. Qed.

Lemma assign_keeps_type_witness :
  ∃ r s', @assignToValueCellTarget Noise (Some (Simple (Num UI64))) (INT_VAL (BigInt true 1%positive)) lit_store = Some (r, s') ∧
    match r with
    | None => s' = lit_store
    | Some v => holds (Some (Simple (Num UI64))) v ∧ wf_value s' v ∧
        num_of s' v = num_of lit_store (INT_VAL (BigInt true 1%positive)) ∧ (∀ b, v = INT_VAL b → bsi_literal b = false)
    end.
Proof.
  apply (@assign_keeps_type Noise (Some (Simple (Num UI64))) (INT_VAL (BigInt true 1%positive)) lit_store);
    [exists (2 ^ 40); apply literal40_ok|discriminate|discriminate].
Defined.

(** A cell of machine integer type takes exactly the values of its type
    and the integer literals in its range; nothing else changes. *)
Theorem assign_machine_cell `{U : Uninit} n rhs (s : store) :
  wf_value s rhs → (∀ o, rhs ≠ IMPL_OBJ_VAL o) → no_least_int32 s (Some (Simple (Num n))) rhs →
  assignToValueCellTarget (Some (Simple (Num n))) rhs s =
  Some (match rhs with
        | NUM_VAL m x => if decide (m = n) then Some rhs else None
        | INT_VAL b =>
            x ← num_of s rhs;
            if bsi_literal b && bool_decide (num_min n ≤ x ≤ num_max n) then Some (NUM_VAL n x) else None
        | _ => None
        end, s).
Proof.
  intros W Hi Hn. pose proof (isInitialisableType_run (Simple (Num n)) rhs s W Hi Hn) as HI. simpl.
  rewrite (st_bind_run _ _ _ _ _ HI). clear HI. unfold type_fits.
  assert (∀ rt, typesEqual (Some (Simple (Num n))) rt =
    match rt with Some (Simple (Num m)) => bool_decide (m = n) | _ => false end) as HT.
  { intros rt. unfold typesEqual, nullable_eq, same_type. destruct rt as [[[]| | | |]|]; try (by destruct n); simpl.
    destruct (decide (n0 = n)) as [->|Hne]; [by rewrite !bool_decide_eq_true_2|].
    rewrite !bool_decide_eq_false_2 by congruence. rewrite decide_False; [done|]. by destruct n0, n. }
  rewrite HT. clear HT.
  destruct rhs as [| | |m x| |b|t [o|]| |]; simpl; try (by destruct n); try (by destruct (Hi obj)).
  - destruct (decide (m = n)) as [->|Hne].
    + by rewrite bool_decide_eq_true_2.
    + by rewrite bool_decide_eq_false_2.
  - destruct W as (x & i & Hbi & _). rewrite Hbi. simpl. destruct (bsi_literal b); [|done]. simpl.
    by case_bool_decide.
  - destruct t as [[| | |m| | | | | | | | |]| | | |]; try done. by destruct m.
  - destruct t as [[| | |m| | | | | | | | |]| | | |]; try done; try (by destruct m); by destruct n.
Qed.

Lemma assign_machine_cell_witness :
  @assignToValueCellTarget Noise (Some (Simple (Num UI64))) (INT_VAL (BigInt true 1%positive)) lit_store =
  Some (Some (NUM_VAL UI64 (2 ^ 40)), lit_store).
Proof.
  apply (@assign_machine_cell Noise UI64 (INT_VAL (BigInt true 1%positive)) lit_store);
    [exists (2 ^ 40); apply literal40_ok|discriminate|discriminate].
Defined.

(** A large literal is an object that all runs of an expression share.
    Assigning it once to an untyped variable clears the flag in the object,
    and from then on [promote] no longer recognises the literal. *)
Theorem assign_spoils_literal `{U : Uninit} p i n y (s : store) :
  s !! p = Some i → wf i → literal_ i = true → accepts n (val i) = true → (n = I32 → val i ≠ - 2 ^ 31) →
  let v := INT_VAL (BigInt true p) in
  promote v (NUM_VAL n y) s = Some ((NUM_VAL n (num_wrap n (val i)), NUM_VAL n y), s) ∧
  ∃ w s', assignToValueCellTarget None v s = Some (Some w, s') ∧
    promote v (NUM_VAL n y) s' = Some ((v, NUM_VAL n y), s').
Proof.
  intros Hp W Hl Ha Hm v. split.
  - unfold promote. erewrite st_bind_run.
    2:{ unfold v, literal_int. erewrite st_bind_run; [|simpl; by rewrite (st_bind_run _ _ _ _ _ (get_run p i s Hp))].
        cbv beta. by rewrite Hl. }
    cbv beta iota. erewrite st_bind_run; [|apply (promoted_run _ (val i)); [by exists i|done]].
    cbv beta. by rewrite Ha.
  - eexists _, _. split.
    { simpl. erewrite st_bind_run; [done|]. by rewrite (st_bind_run _ _ _ _ _ (modify_run p _ i s Hp)). }
    unfold promote. erewrite st_bind_run.
    2:{ unfold v, literal_int. erewrite st_bind_run; [done|]. simpl.
        by rewrite (st_bind_run _ _ _ _ _ (get_run p _ _ (lookup_insert_eq s p _))). }
    done.
Qed.

Lemma assign_spoils_literal_witness :
  let v := INT_VAL (BigInt true 1%positive) in
  @promote Noise v (NUM_VAL UI64 5) lit_store
    = Some ((NUM_VAL UI64 (num_wrap UI64 (val literal40)), NUM_VAL UI64 5), lit_store) ∧
  ∃ w s', @assignToValueCellTarget Noise None v lit_store = Some (Some w, s') ∧
    @promote Noise v (NUM_VAL UI64 5) s' = Some ((v, NUM_VAL UI64 5), s').
Proof.
  apply (@assign_spoils_literal Noise 1%positive literal40 UI64 5 lit_store);
    [reflexivity|apply literal40_wf|reflexivity|reflexivity|discriminate].
Defined.

(** ** Indexes *)
Section Index.
Context `{U : Uninit} `{TG : Target}.

(** The index that a value stands for. *)
Definition index_of (s : store) (v : Value) : option Z :=
  x ← num_of s v; if bool_decide (0 ≤ x ≤ index_max) then Some x else None.

Lemma index_max_bounds : 2 ^ 32 - 1 ≤ index_max ≤ UINT64_MAX.
Proof. unfold index_max, UINT64_MAX. destruct is_64bit; lia. Qed.

Lemma usize_small x : 0 ≤ x < 2 ^ 32 → usize x = x.
Proof. intros Hx. unfold usize. apply Z.mod_small. destruct target_ok as [[->| ->] _]; lia. Qed.

Lemma is_positive_integer_run v (s : store) :
  wf_value s v → is_positive_integer v s = Some (bool_decide (is_Some (index_of s v)), s).
Proof.
  pose proof index_max_bounds as HM. unfold UINT64_MAX in HM.
  assert (∀ (b : bool) x, (b = true ↔ 0 ≤ x ≤ index_max) → b = bool_decide (is_Some (if bool_decide (0 ≤ x ≤ index_max) then Some x else None))) as Hb.
  { intros b x Hbx. destruct (decide (0 ≤ x ≤ index_max)) as [Hx|Hx];
      [rewrite (bool_decide_eq_true_2 (0 ≤ x ≤ index_max)) by done|rewrite (bool_decide_eq_false_2 (0 ≤ x ≤ index_max)) by done].
    - rewrite (proj2 Hbx Hx). symmetry. apply bool_decide_eq_true_2. by eexists.
    - rewrite bool_decide_eq_false_2 by (by intros [? ?]). destruct b; [by destruct Hx; apply Hbx|done]. }
  intros W. destruct v as [| | |n x| |b| | |]; try done.
  - assert (∀ b : bool, (b = true ↔ 0 ≤ x ≤ index_max) → mret (M := M) b s = Some (bool_decide (is_Some (index_of s (NUM_VAL n x))), s)) as Hgo.
    { intros b Hbx. rewrite st_ret_run. do 2 f_equal. by apply Hb. }
    unfold wf_value, num_min, num_max in W. destruct n; apply Hgo; simpl in W;
      rewrite ?andb_true_iff, ?orb_true_iff, ?Z.leb_le; unfold index_max in *; destruct is_64bit; intuition lia.
  - destruct W as [x Hx]. cbn [is_positive_integer].
    rewrite (within_run b x 0 index_max s Hx); unfold INT64_MIN, INT64_MAX, UINT64_MAX; try lia.
    destruct Hx as (i & Hi & _ & Vi). unfold index_of. simpl. rewrite Hi. simpl. rewrite Vi.
    do 2 f_equal. apply Hb. by rewrite bool_decide_eq_true.
Qed.

Lemma as_positive_integer_run v x (s : store) :
  wf_value s v → index_of s v = Some x → as_positive_integer v s = Some (x, s).
Proof.
  pose proof index_max_bounds as HM. unfold UINT64_MAX in HM.
  intros W. unfold index_of. destruct v as [| | |n y| |b| | |]; try done.
  - simpl. case_bool_decide as Hy; [|done]. intros [= ->]. unfold wf_value, num_min, num_max in W.
    assert (∀ y, y = x → mret (M := M) y s = Some (x, s)) as Hgo by (by intros ? ->).
    assert (is_64bit = true → usize x = x) as H64.
    { unfold is_64bit. intros E. apply Z.eqb_eq in E. unfold usize. rewrite E. apply Z.mod_small. lia. }
    destruct n; simpl in W; apply Hgo; try done; try (apply usize_small; lia).
    + unfold index_max in *. destruct is_64bit; [by apply H64|].
      destruct (Z.leb_spec x (2 ^ 32 - 1)); [apply Z.mod_small; lia|lia].
    + unfold index_max in *. destruct is_64bit; [done|].
      destruct (Z.leb_spec x (2 ^ 32 - 1)); [apply Z.mod_small; lia|lia].
  - destruct W as [y Hy]. pose proof Hy as (i & Hi & Wi & Vi). simpl. rewrite Hi. simpl. rewrite Vi.
    case_bool_decide as Hr; [|done]. intros [= ->]. cbn [as_positive_integer].
    erewrite st_bind_run; [|apply (within_run b x 0 index_max s Hy); unfold INT64_MIN, INT64_MAX, UINT64_MAX; lia].
    rewrite bool_decide_eq_true_2 by done. cbv beta iota.
    apply (with_int_run b _ i x s Hi). intros p s' Hp.
    destruct (conversions_run p i s' Hp Wi) as (_ & HU64 & _ & HU32 & _). rewrite Vi in *.
    unfold index_max in *. destruct is_64bit; [apply HU64|apply HU32]; unfold UINT64_MAX; lia.
Qed.
End Index.
