(* ===== verification/ArithSpec.v ===== *)
(** * Operators on machine integers: ranges, overflow and undefined behaviour *)
From S2P Require Export ValueSpec Arith.
Open Scope Z_scope.

Abbreviation in_range n x := (num_min n ≤ x ≤ num_max n).

Lemma num_wrap_range n x : in_range n (num_wrap n x).
Proof.
  unfold num_wrap, num_min, num_max, swrap. destruct n; simpl;
    match goal with |- context [?a mod ?m] => pose proof (Z.mod_pos_bound a m ltac:(lia)) end; lia.
Qed.

Lemma c_signed_run w x : - 2 ^ (w - 1) ≤ x < 2 ^ (w - 1) → c_signed w x = Some x.
Proof. intros Hx. unfold c_signed. by rewrite (proj2 (Z.leb_le _ _)), (proj2 (Z.ltb_lt _ _)) by lia. Qed.

Lemma c_signed_none w x : ¬ (- 2 ^ (w - 1) ≤ x < 2 ^ (w - 1)) → c_signed w x = None.
Proof.
  intros Hx. unfold c_signed. destruct (Z.leb_spec (- 2 ^ (w - 1)) x), (Z.ltb_spec x (2 ^ (w - 1))); simpl; done || lia.
Qed.

(** Whether a result outside the type is undefined behaviour: at the width of
    [int] and above, for signed operations. *)
Definition traps (n : NumType) (r : Z) : bool :=
  match n with
  | UI32 => false
  | _ => negb ((- 2 ^ (op_width n - 1) <=? r) && (r <? 2 ^ (op_width n - 1)))
  end.

Lemma BINARY_OP_num_run op n x y r :
  n ≠ UI64 → z_op op x y = Some r →
  BINARY_OP_num op n x y = if traps n r then None else Some (num_wrap n r).
Proof.
  intros Hn Hr. unfold BINARY_OP_num, traps, c_signed.
  destruct n; try done; simpl load; rewrite Hr; cbn [mbind option_bind]; try done;
    match goal with |- context [if ?b then Some r else None] => by destruct b end.
Qed.

(** A result in the range of its type does not trap. *)
Lemma traps_in_range n r : n ≠ UI64 → in_range n r → traps n r = false.
Proof.
  intros Hn Hr. unfold traps. destruct n; try done; unfold num_min, num_max in Hr; simpl in Hr |- *;
    rewrite (proj2 (Z.leb_le _ _)) by lia; rewrite (proj2 (Z.ltb_lt _ _)) by lia; done.
Qed.

Lemma traps_wide n r : n = I32 ∨ n = I64 → ¬ in_range n r → traps n r = true.
Proof.
  intros Hn Hr. unfold traps, num_min, num_max in *. destruct Hn as [-> | ->]; simpl in *;
    match goal with |- context [(?a <=? r) && (r <? ?b)] => destruct (Z.leb_spec a r), (Z.ltb_spec r b) end;
    simpl; try done; lia.
Qed.

Lemma quot_bounds x y m : 0 ≤ m → y ≠ 0 → Z.abs x ≤ m → Z.abs (Z.quot x y) ≤ m.
Proof.
  intros Hm Hy Hx. rewrite <-Z.quot_abs by done. rewrite Z.quot_div_nonneg by lia.
  transitivity (Z.abs x); [|done]. assert (1 ≤ Z.abs y) by lia. apply Z.div_le_upper_bound; [lia|].
  pose proof (Z.abs_nonneg x). nia.
Qed.

(** Narrow types cannot leave the range of [int], but for a product of
    [uint16]. *)
Lemma narrow_no_trap op n x y r :
  (n = I8 ∨ n = UI8 ∨ n = I16 ∨ (n = UI16 ∧ op ≠ Times)) → in_range n x → in_range n y → z_op op x y = Some r →
  traps n r = false.
Proof.
  intros Hn Hx Hy Hr. assert (traps n r = false ↔ - 2 ^ 31 ≤ r < 2 ^ 31) as ->.
  { unfold traps. destruct n; simpl; try (by decompose [or and] Hn); rewrite negb_false_iff, andb_true_iff, Z.leb_le, Z.ltb_lt; lia. }
  assert (Z.abs x < 2 ^ 16 ∧ Z.abs y < 2 ^ 16 ∧ (op = Times → Z.abs x ≤ 2 ^ 15 ∧ Z.abs y ≤ 2 ^ 15)) as (Ax & Ay & At).
  { decompose [or and] Hn; subst n; unfold num_min, num_max in Hx, Hy; simpl in Hx, Hy; repeat split; try lia; done. }
  destruct op; simpl in Hr.
  - injection Hr as <-. lia.
  - injection Hr as <-. lia.
  - injection Hr as <-. destruct (At eq_refl) as [Bx By]. assert (Z.abs (x * y) ≤ 2 ^ 15 * 2 ^ 15) by (rewrite Z.abs_mul; nia). lia.
  - destruct (Z.eqb_spec y 0); [done|]. injection Hr as <-.
    pose proof (quot_bounds x y (2 ^ 16) ltac:(lia) ltac:(done) ltac:(lia)). lia.
Qed.

(** C28. Arithmetic on machine integers, but for [uint64]: a result in the
    range of the type is exact.  Outside it, [uint32] and the types narrower
    than [int] wrap around, and [int32] and [int64] are undefined behaviour,
    and so is a product of two [uint16] that exceeds an [int]; division by
    zero is undefined throughout. *)
Theorem fixed_width_arith op n x y :
  in_range n x → in_range n y → n ≠ UI64 →
  match z_op op x y with
  | None => BINARY_OP_num op n x y = None
  | Some r =>
      (in_range n r → BINARY_OP_num op n x y = Some r) ∧
      (¬ in_range n r →
        match n with
        | UI32 | I8 | UI8 | I16 => BINARY_OP_num op n x y = Some (num_wrap n r)
        | UI16 => BINARY_OP_num op n x y = (if decide (op = Times ∧ 2 ^ 31 ≤ r) then None else Some (num_wrap n r))
        | _ => BINARY_OP_num op n x y = None
        end)
  end.
Proof.
  intros Hx Hy Hn. destruct (z_op op x y) as [r|] eqn:Hr.
  - rewrite (BINARY_OP_num_run op n x y r Hn Hr). split.
    + intros Hin. rewrite traps_in_range, num_wrap_small by done. done.
    + intros Hout. destruct n; try done.
      * by rewrite (narrow_no_trap op I8 x y r) by auto.
      * by rewrite (narrow_no_trap op UI8 x y r) by auto.
      * by rewrite (narrow_no_trap op I16 x y r) by auto.
      * case_decide as Hd.
        -- destruct Hd as [-> Hb]. unfold traps. simpl. rewrite andb_comm. by rewrite (proj2 (Z.ltb_ge _ _)) by done.
        -- destruct (decide (op = Times)) as [->|Ho]; [|by rewrite (narrow_no_trap op UI16 x y r) by auto].
           assert (r < 2 ^ 31) as Hb by (apply Z.nle_gt; intros ?; by destruct Hd).
           simpl in Hr. injection Hr as <-. unfold traps. unfold num_min, num_max in *. simpl in *.
           rewrite (proj2 (Z.ltb_lt _ _)) by done. rewrite (proj2 (Z.leb_le _ _)) by nia. done.
      * by rewrite traps_wide by auto.
      * by rewrite traps_wide by auto.
  - unfold BINARY_OP_num. assert (load n x = x ∧ load n y = y) as [-> ->] by (by destruct n). by rewrite Hr.
Qed.

Lemma fixed_width_arith_witness :
  match z_op Times 65535 65535 with
  | None => BINARY_OP_num Times UI16 65535 65535 = None
  | Some r =>
      (in_range UI16 r → BINARY_OP_num Times UI16 65535 65535 = Some r) ∧
      (¬ in_range UI16 r →
        BINARY_OP_num Times UI16 65535 65535 = (if decide (Times = Times ∧ 2 ^ 31 ≤ r) then None else Some (num_wrap UI16 r)))
  end.
Proof. apply (fixed_width_arith Times UI16 65535 65535); [split; vm_compute; congruence|split; vm_compute; congruence|discriminate]. Defined.

(** [uint64] is computed as [int64_t] outside [OP_ADD]: a comparison is
    right exactly if both operands are on the same side of 2^63, and a
    quotient is that of the operands as signed numbers, so that a large value
    divided by a small one comes out near 2^64. *)
Theorem uint64_is_signed x y :
  0 ≤ x < 2 ^ 64 → 0 ≤ y < 2 ^ 64 →
  OP_ADD_num UI64 x y = Some ((x + y) mod 2 ^ 64) ∧
  (x ≠ y → ∀ c, BINARY_BOOLEAN_OP_num c UI64 x y = z_cmp c x y ↔ (x < 2 ^ 63 ↔ y < 2 ^ 63)) ∧
  (x < 2 ^ 63 → 0 < y < 2 ^ 63 → BINARY_OP_num Divide UI64 x y = Some (Z.quot x y)) ∧
  (2 ^ 63 ≤ x → 1 < y < 2 ^ 63 → BINARY_OP_num Divide UI64 x y = Some ((Z.quot (x - 2 ^ 64) y) mod 2 ^ 64)).
Proof.
  intros Hx Hy.
  assert (∀ z, 0 ≤ z < 2 ^ 64 → i64 z = if z <? 2 ^ 63 then z else z - 2 ^ 64) as Hi.
  { intros z Hz. unfold i64, swrap. change (64 - 1) with 63. destruct (Z.ltb_spec z (2 ^ 63)).
    - rewrite Z.mod_small by lia. lia.
    - replace (z + 2 ^ 63) with ((z - 2 ^ 63) + 1 * 2 ^ 64) by lia. rewrite Z.mod_add by lia. rewrite Z.mod_small by lia. lia. }
  split; [done|]. split; [|split].
  - intros Hne c. unfold BINARY_BOOLEAN_OP_num, load. rewrite !Hi by done. unfold z_cmp.
    destruct (Z.ltb_spec x (2 ^ 63)), (Z.ltb_spec y (2 ^ 63)), c;
      repeat match goal with |- context [?u <? ?v] => destruct (Z.ltb_spec u v) end; split; intros; try done; try lia; tauto.
  - intros Hx' Hy'. unfold BINARY_OP_num, load. rewrite !Hi by done.
    rewrite !(proj2 (Z.ltb_lt _ _)) by lia. simpl. rewrite (proj2 (Z.eqb_neq y 0)) by lia. simpl.
    pose proof (quot_bounds x y x ltac:(lia) ltac:(lia) ltac:(lia)). pose proof (Z.quot_pos x y ltac:(lia) ltac:(lia)).
    rewrite c_signed_run by (simpl; lia). simpl. rewrite num_wrap_small; [done|]. unfold num_min, num_max. simpl. lia.
  - intros Hx' Hy'. unfold BINARY_OP_num, load. rewrite !Hi by done.
    rewrite (proj2 (Z.ltb_ge _ _)), (proj2 (Z.ltb_lt _ _)) by lia. simpl. rewrite (proj2 (Z.eqb_neq y 0)) by lia. simpl.
    assert (Z.abs (Z.quot (x - 2 ^ 64) y) < 2 ^ 63) as Hq.
    { rewrite <-Z.quot_abs by lia. rewrite Z.quot_div_nonneg by lia. apply Z.div_lt_upper_bound; lia. }
    rewrite c_signed_run by (simpl; lia). done.
Qed.

Lemma uint64_is_signed_witness :
  OP_ADD_num UI64 (2 ^ 64 - 2) 2 = Some ((2 ^ 64 - 2 + 2) mod 2 ^ 64) ∧
  (2 ^ 64 - 2 ≠ 2 → ∀ c, BINARY_BOOLEAN_OP_num c UI64 (2 ^ 64 - 2) 2 = z_cmp c (2 ^ 64 - 2) 2 ↔ (2 ^ 64 - 2 < 2 ^ 63 ↔ 2 < 2 ^ 63)) ∧
  (2 ^ 64 - 2 < 2 ^ 63 → 0 < 2 < 2 ^ 63 → BINARY_OP_num Divide UI64 (2 ^ 64 - 2) 2 = Some (Z.quot (2 ^ 64 - 2) 2)) ∧
  (2 ^ 63 ≤ 2 ^ 64 - 2 → 1 < 2 < 2 ^ 63 →
    BINARY_OP_num Divide UI64 (2 ^ 64 - 2) 2 = Some ((Z.quot (2 ^ 64 - 2 - 2 ^ 64) 2) mod 2 ^ 64)).
Proof. apply (uint64_is_signed (2 ^ 64 - 2) 2); lia. Defined.

(** The bit operators on unsigned integers: [&], [|] and [^] are exact,
    and a shift is defined if its count is less than the width of the promoted
    operand; a left shift then wraps, and a right shift divides. *)
Theorem bit_ops_correct n x y :
  is_unsigned n = true → in_range n x → in_range n y →
  BINARY_UINT_OP_num BitAnd n x y = Some (Z.land x y) ∧
  BINARY_UINT_OP_num BitOr n x y = Some (Z.lor x y) ∧
  BINARY_UINT_OP_num BitXor n x y = Some (Z.lxor x y) ∧
  BINARY_UINT_OP_num ShiftRight n x y = (if op_width n <=? y then None else Some (x / 2 ^ y)) ∧
  (y < num_bits n → (n = UI16 → x * 2 ^ y < 2 ^ 31) →
   BINARY_UINT_OP_num ShiftLeft n x y = Some ((x * 2 ^ y) mod 2 ^ num_bits n)).
Proof.
  intros Hu Hx Hy.
  assert (∃ w, num_bits n = w ∧ 0 < w ≤ op_width n ∧ 0 ≤ x < 2 ^ w ∧ 0 ≤ y < 2 ^ w ∧
    ∀ r, num_wrap n r = r mod 2 ^ w) as (w & Ew & Hw & Bx & By & Hwrap).
  { exists (num_bits n). unfold num_min, num_max in *. destruct n; simpl in *; try done; repeat split; try lia; done. }
  rewrite Ew. unfold BINARY_UINT_OP_num. rewrite !Hwrap.
  assert (∀ r, 0 ≤ r → (∀ i, w ≤ i → Z.testbit r i = false) → r mod 2 ^ w = r) as Hbits.
  { intros r H0 Hb. rewrite <-Z.land_ones by lia. apply Z.bits_inj'. intros i Hi. rewrite Z.land_spec.
    destruct (decide (i < w)); [rewrite Z.ones_spec_low by lia; apply andb_true_r|].
    rewrite Hb by lia. done. }
  assert (∀ z, 0 ≤ z < 2 ^ w → ∀ i, w ≤ i → Z.testbit z i = false) as Htop.
  { intros z Hz i Hi. rewrite <-(Z.mod_small z (2 ^ w)) by done. apply Z.mod_pow2_bits_high. lia. }
  split; [|split; [|split; [|split]]].
  - rewrite Hbits; [done|apply Z.land_nonneg; lia|]. intros i Hi. by rewrite Z.land_spec, (Htop x).
  - rewrite Hbits; [done|apply Z.lor_nonneg; lia|]. intros i Hi. by rewrite Z.lor_spec, (Htop x), (Htop y).
  - rewrite Hbits; [done|apply Z.lxor_nonneg; lia|]. intros i Hi. by rewrite Z.lxor_spec, (Htop x), (Htop y).
  - destruct (op_width n <=? y); [done|]. rewrite Z.shiftr_div_pow2 by lia. f_equal. apply Z.mod_small.
    pose proof (Z.div_pos x (2 ^ y) ltac:(lia) ltac:(lia)). split; [done|]. apply Z.div_lt_upper_bound; nia.
  - intros Hlt H16. rewrite (proj2 (Z.leb_gt _ _)) by lia. rewrite Z.shiftl_mul_pow2 by lia.
    assert (0 ≤ x * 2 ^ y) by nia.
    destruct n; try done; try (by rewrite Hwrap).
    + assert (x * 2 ^ y < 2 ^ 16).
      { simpl in Ew. subst w. pose proof (Z.pow_le_mono_r 2 y 7 ltac:(lia) ltac:(lia)). nia. }
      rewrite c_signed_run by (simpl; lia). simpl. by rewrite Hwrap.
    + specialize (H16 eq_refl). rewrite c_signed_run by (simpl; lia). simpl. by rewrite Hwrap.
Qed.

Lemma bit_ops_correct_witness :
  BINARY_UINT_OP_num BitAnd UI8 200 7 = Some (Z.land 200 7) ∧
  BINARY_UINT_OP_num BitOr UI8 200 7 = Some (Z.lor 200 7) ∧
  BINARY_UINT_OP_num BitXor UI8 200 7 = Some (Z.lxor 200 7) ∧
  BINARY_UINT_OP_num ShiftRight UI8 200 7 = (if op_width UI8 <=? 7 then None else Some (200 / 2 ^ 7)) ∧
  (7 < num_bits UI8 → (UI8 = UI16 → 200 * 2 ^ 7 < 2 ^ 31) →
   BINARY_UINT_OP_num ShiftLeft UI8 200 7 = Some ((200 * 2 ^ 7) mod 2 ^ num_bits UI8)).
Proof. apply (bit_ops_correct UI8 200 7); [reflexivity|split; vm_compute; congruence|split; vm_compute; congruence]. Defined.
