(* ===== verification/PackedSpec.v ===== *)
(** * Packed containers: the layout of the storage, and what is read back *)
From S2P Require Export ValueSpec Packed.
Open Scope Z_scope.

Abbreviation sizes := yt_sizeof_type_storage.

Section Flatten.
Context `{TG : Target}.

(** ** Well-formed types: sizes do not wrap around, and the fields of structs
    are in order *)
Fixpoint fields_chain (lo : Z) (ts : list (option YargType)) (os : list Z) (hi : Z) : Prop :=
  match ts, os with
  | [], [] => lo ≤ hi
  | t :: ts', o :: os' => lo ≤ o ∧ 0 ≤ sizes t ∧ fields_chain (o + sizes t) ts' os' hi
  | _, _ => False
  end.

Fixpoint wf_type (t : YargType) : Prop :=
  match t with
  | Array _ n e => 0 ≤ n ∧ 0 ≤ sizes e ∧ sizes e * n < 2 ^ size_bits ∧ at_type True wf_type e
  | Struct _ st =>
      fields_chain 0 (field_types st) (field_indexes st) (storage_size st) ∧
      storage_size st < 2 ^ size_bits ∧ fold_right (λ f P, at_type True wf_type f ∧ P) True (field_types st)
  | _ => True
  end.
Abbreviation wf_at := (at_type True wf_type).

(** An element of a flattened type. *)
Definition scalar (o : option YargType) : bool :=
  match o with Some (Array _ _ _) | Some (Struct _ _) => false | _ => true end.

Lemma scalar_size o : scalar o = true → 1 ≤ sizes o.
Proof.
  pose proof target_ok as (_ & H1 & H2 & H3). destruct o as [[[]| | | |]|]; simpl; try lia; try done; destruct n; simpl; lia.
Qed.

(** Elements in order, apart, and between two offsets. *)
Fixpoint chain (lo : Z) (l : list (Z * option YargType)) (hi : Z) : Prop :=
  match l with
  | [] => lo ≤ hi
  | (o, t) :: l' => lo ≤ o ∧ scalar t = true ∧ chain (o + sizes t) l' hi
  end.

Lemma chain_le l : ∀ lo hi, chain lo l hi → lo + Z.of_nat (length l) ≤ hi.
Proof.
  induction l as [|[o t] l IH]; intros lo hi H; simpl in *; [lia|].
  destruct H as (H1 & Hs & H2). apply scalar_size in Hs. specialize (IH _ _ H2). lia.
Qed.

Lemma chain_weaken l : ∀ lo lo' hi hi', lo' ≤ lo → hi ≤ hi' → chain lo l hi → chain lo' l hi'.
Proof.
  induction l as [|[o t] l IH]; intros lo lo' hi hi' H1 H2 H; simpl in *; [lia|].
  destruct H as (Ho & Hs & H). split; [lia|]. split; [done|]. by apply (IH (o + sizes t) _ hi).
Qed.

Lemma chain_app l l' : ∀ lo mid hi, chain lo l mid → chain mid l' hi → chain lo (l ++ l') hi.
Proof.
  induction l as [|[o t] l IH]; intros lo mid hi H H'; simpl in *.
  - by apply (chain_weaken l' mid lo hi hi).
  - destruct H as (Ho & Hs & H). split; [done|]. split; [done|]. by apply (IH _ mid).
Qed.

(** Positions of the elements of a chain. *)
Lemma chain_lookup l : ∀ lo hi i o t,
  chain lo l hi → l !! i = Some (o, t) → lo ≤ o ∧ o + sizes t ≤ hi ∧ scalar t = true.
Proof.
  induction l as [|[o' t'] l IH]; intros lo hi [|i] o t H Hi; simpl in *; try done.
  - injection Hi as -> ->. destruct H as (Ho & Hs & H). apply chain_le in H. split; [done|]. split; [lia|done].
  - destruct H as (Ho & Hs & H). pose proof (scalar_size _ Hs).
    destruct (IH _ _ i o t H Hi) as (H1 & H2 & H3). split; [lia|]. done.
Qed.

Lemma chain_disjoint l : ∀ lo hi i j o t o' t',
  chain lo l hi → (i < j)%nat → l !! i = Some (o, t) → l !! j = Some (o', t') → o + sizes t ≤ o'.
Proof.
  induction l as [|[a u] l IH]; intros lo hi [|i] [|j] o t o' t' H Hij Hi Hj; simpl in *; try done; try lia.
  - injection Hi as -> ->. destruct H as (_ & _ & H). by apply (chain_lookup l _ _ j o' t' H Hj).
  - destruct H as (_ & _ & H). apply (IH _ _ i j o t o' t' H); [lia|done..].
Qed.

(** The weight of a list of elements. *)
Definition weigh (w : option YargType → Z) (l : list (Z * option YargType)) : Z := fold_right (λ e n, w e.2 + n) 0 l.

Lemma weigh_app w l l' : weigh w (l ++ l') = weigh w l + weigh w l'.
Proof. induction l as [|e l IH]; simpl; [done|]. rewrite IH. lia. Qed.

Lemma weigh_le w l : (∀ t, 0 ≤ w t ≤ 1) → 0 ≤ weigh w l ≤ Z.of_nat (length l).
Proof. intros Hw. induction l as [|e l IH]; simpl; [lia|]. specialize (Hw e.2). lia. Qed.

(** ** Flattening *)
Section Weight.
Variable w : option YargType → Z.
Hypothesis Hw : ∀ t, 0 ≤ w t ≤ 1.

(** The flattened elements of a type from an offset, and their weight. *)
Definition flat_ok (t : YargType) : Prop := ∀ s,
  wf_type t → 0 ≤ s → s + sizeof t < 2 ^ size_bits →
  chain s (flatten s t) (s + sizeof t) ∧ weigh w (flatten s t) = count_elements w t.

Lemma flat_at o s :
  P_at flat_ok o → wf_at o → 0 ≤ s → s + sizes o < 2 ^ size_bits →
  chain s (yt_flatten_types s o) (s + sizes o) ∧ weigh w (yt_flatten_types s o) = count_at w o.
Proof.
  destruct o as [t|]; intros Hf Hwf Hs Hb; [by apply Hf|]. simpl in *. split; [|lia]. split; [lia|]. by split.
Qed.

Lemma flat_array e n s : ∀ m k,
  P_at flat_ok e → wf_at e → 0 ≤ s → 0 ≤ sizes e → (k + m <= n)%nat → s + sizes e * Z.of_nat n < 2 ^ size_bits →
  let l := flat_map (λ i, yt_flatten_types (usize (s + arrayElementOffset e (Z.of_nat i))) e) (seq k m) in
  chain (s + sizes e * Z.of_nat k) l (s + sizes e * Z.of_nat (k + m)) ∧ weigh w l = Z.of_nat m * count_at w e.
Proof.
  induction m as [|m IH]; intros k Hf Hwf Hs Hsz Hk Hb; cbn [seq flat_map].
  - simpl. split; [|lia]. rewrite Nat.add_0_r. lia.
  - assert (usize (s + arrayElementOffset e (Z.of_nat k)) = s + sizes e * Z.of_nat k) as ->.
    { unfold arrayElementOffset, usize. rewrite Zplus_mod_idemp_r, (Z.mul_comm (Z.of_nat k)). apply Z.mod_small. nia. }
    destruct (flat_at e (s + sizes e * Z.of_nat k) Hf Hwf) as [Hc Hwt]; [nia|nia|].
    destruct (IH (S k) Hf Hwf Hs Hsz ltac:(lia) Hb) as [Hc' Hwt']. split.
    + eapply chain_app; [exact Hc|]. eapply chain_weaken; [| |exact Hc']; [lia|]. f_equal. lia.
    + rewrite weigh_app, Hwt, Hwt'. lia.
Qed.

(** The fields of a struct, as [flatten] goes through them. *)
Fixpoint flat_fields (s : Z) (fs : list (option YargType)) (os : list Z) : list (Z * option YargType) :=
  match fs, os with
  | f :: fs', o :: os' => yt_flatten_types (usize (s + o)) f ++ flat_fields s fs' os'
  | _, _ => []
  end.

Lemma flatten_struct s p st : flatten s (Struct p st) = flat_fields s (field_types st) (field_indexes st).
Proof.
  simpl. generalize (field_indexes st). induction (field_types st) as [|f fs IH]; intros [|o os]; simpl; try done.
  by rewrite IH.
Qed.

Lemma flat_struct s fs : ∀ os lo hi,
  Forall (P_at flat_ok) fs → fold_right (λ f P, wf_at f ∧ P) True fs →
  0 ≤ s → 0 ≤ lo → s + hi < 2 ^ size_bits → fields_chain lo fs os hi →
  chain (s + lo) (flat_fields s fs os) (s + hi) ∧
  ∀ acc, 0 ≤ acc ≤ lo →
    fold_left (λ total f, usize (total + count_at w f)) fs acc = acc + weigh w (flat_fields s fs os).
Proof.
  induction fs as [|f fs IH]; intros [|o os] lo hi Hf Hwf Hs Hlo Hb Hc; simpl in *; try done.
  - split; [lia|]. intros. lia.
  - apply list.Forall_cons in Hf as [Hf Hfs]. destruct Hwf as [Hwf Hwfs], Hc as (Ho & Hsz & Hc).
    assert (0 ≤ o + sizes f) as Hlo' by lia.
    destruct (IH os (o + sizes f) hi Hfs Hwfs Hs Hlo' Hb Hc) as [Hch Hfold].
    pose proof (chain_le _ _ _ Hch) as Hend.
    assert (usize (s + o) = s + o) as Eo by (unfold usize; apply Z.mod_small; lia). rewrite Eo.
    destruct (flat_at f (s + o) Hf Hwf ltac:(lia) ltac:(lia)) as [Hc1 Hw1]. split.
    + eapply chain_app; [|exact Hch]. eapply chain_weaken; [| |exact Hc1]; lia.
    + intros acc Hacc. rewrite weigh_app, Hw1.
      pose proof (weigh_le w (yt_flatten_types (s + o) f) Hw) as Hle. rewrite Hw1 in Hle. apply chain_le in Hc1.
      assert (usize (acc + count_at w f) = acc + count_at w f) as -> by (unfold usize; apply Z.mod_small; lia).
      rewrite Hfold by lia. lia.
Qed.

Lemma flatten_ok t : flat_ok t.
Proof.
  induction t as [x|p n e IH|p st IH|p u _|p k v _ _] using YargType_ind'; intros s Hwf Hs Hb.
  1, 4, 5: simpl; split; [|lia]; split; [lia|]; split; [done|lia].
  - simpl in Hwf. destruct Hwf as (Hn & Hsz & Hfit & Hwf).
    assert (sizeof (Array p n e) = sizes e * n) as ES.
    { simpl. unfold usize. apply Z.mod_small. nia. }
    rewrite ES in *.
    destruct (flat_array e (Z.to_nat n) s (Z.to_nat n) 0 IH Hwf Hs Hsz ltac:(lia)) as [Hc Hwt]; [nia|].
    simpl in Hc. rewrite Z2Nat.id, Z.mul_0_r, Z.add_0_r in * by done. split; [exact Hc|].
    change (flatten s (Array p n e)) with
      (flat_map (λ i, yt_flatten_types (usize (s + arrayElementOffset e (Z.of_nat i))) e) (seq 0 (Z.to_nat n))).
    rewrite Hwt. change (count_elements w (Array p n e)) with (usize (n * count_at w e)).
    unfold usize. rewrite Z.mod_small; [done|]. rewrite <-Hwt. set (l := flat_map _ _) in *.
    pose proof (weigh_le w l Hw). apply chain_le in Hc. lia.
  - simpl in Hwf. destruct Hwf as (Hc & Hfit & Hwf). rewrite flatten_struct.
    destruct (flat_struct s (field_types st) (field_indexes st) 0 (storage_size st) IH Hwf Hs ltac:(lia) Hb Hc) as [Hch Hfold].
    rewrite Z.add_0_r in Hch. split; [exact Hch|].
    change (count_elements w (Struct p st)) with (fold_left (λ total f, usize (total + count_at w f)) (field_types st) 0).
    rewrite Hfold by lia. lia.
Qed.
End Weight.
End Flatten.

(** ** Memory *)

(** The cells at an address. *)
Definition cells_at (m : memory) (a : Z) (cs : list Cell) : Prop := ∀ i c, cs !! i = Some c → m !! (a + Z.of_nat i) = Some c.
(** A range of addresses is allocated. *)
Definition owned (m : memory) (a n : Z) : Prop := ∀ x, a ≤ x < a + n → is_Some (m !! x).
Definition same_outside (a n : Z) (m m' : memory) : Prop := ∀ x, ¬ (a ≤ x < a + n) → m' !! x = m !! x.

Lemma write_cells_run cs : ∀ a m,
  owned m a (Z.of_nat (length cs)) →
  ∃ m', write_cells a cs m = Some m' ∧ cells_at m' a cs ∧ same_outside a (Z.of_nat (length cs)) m m' ∧
    (∀ x, is_Some (m !! x) → is_Some (m' !! x)).
Proof.
  induction cs as [|c cs IH]; intros a m Ho; cbn [write_cells length] in *.
  - exists m. split; [done|]. split; [by intros i c Hi|]. done.
  - destruct (Ho a) as [c0 Hc0]; [lia|]. rewrite Hc0. cbn [mbind option_bind].
    destruct (IH (a + 1) (<[a := c]> m)) as (m' & E & Hcs & Hout & Hdom).
    { intros x Hx. destruct (decide (x = a)) as [->|]; [rewrite lookup_insert_eq; by eexists|].
      rewrite lookup_insert_ne by done. apply Ho. lia. }
    exists m'. split; [done|]. split; [|split].
    + intros [|i] c' Hi; simpl in Hi.
      * injection Hi as <-. rewrite Z.add_0_r. rewrite Hout by lia. apply lookup_insert_eq.
      * specialize (Hcs i c' Hi). by replace (a + Z.of_nat (S i)) with (a + 1 + Z.of_nat i) by lia.
    + intros x Hx. rewrite Hout by lia. by rewrite lookup_insert_ne by lia.
    + intros x Hx. apply Hdom. destruct (decide (x = a)) as [->|]; [rewrite lookup_insert_eq; by eexists|].
      by rewrite lookup_insert_ne.
Qed.

Lemma read_cells_run cs : ∀ a m, cells_at m a cs → read_cells a (length cs) m = Some cs.
Proof.
  induction cs as [|c cs IH]; intros a m H; simpl; [done|].
  pose proof (H 0%nat c eq_refl) as H0. rewrite Z.add_0_r in H0. rewrite H0. simpl.
  rewrite (IH (a + 1) m); [done|]. intros i c' Hi. specialize (H (S i) c' Hi).
  by replace (a + 1 + Z.of_nat i) with (a + Z.of_nat (S i)) by lia.
Qed.

Lemma read_cells_ext n : ∀ a m m', (∀ x, a ≤ x < a + Z.of_nat n → m' !! x = m !! x) → read_cells a n m' = read_cells a n m.
Proof.
  induction n as [|n IH]; intros a m m' H; simpl; [done|].
  rewrite (H a) by lia. rewrite (IH (a + 1) m m'); [done|]. intros x Hx. apply H. lia.
Qed.

Lemma clear_lookup n : ∀ a m x, clear a n m !! x = if decide (a ≤ x < a + Z.of_nat n) then Some (Byte 0) else m !! x.
Proof.
  induction n as [|n IH]; intros a m x; cbn [clear].
  - by rewrite decide_False by lia.
  - destruct (decide (x = a)) as [->|Hx].
    + rewrite lookup_insert_eq, decide_True; [done|lia].
    + rewrite lookup_insert_ne, IH by done. apply decide_ext. lia.
Qed.

(** ** Representations *)
Lemma le_split_length n : ∀ v, length (le_split n v) = n.
Proof. induction n as [|n IH]; intros v; simpl; [done|]. by rewrite IH. Qed.

Lemma le_combine_split n : ∀ v, le_combine (le_split n v) = Some (v mod 256 ^ Z.of_nat n).
Proof.
  induction n as [|n IH]; intros v; cbn [le_split le_combine].
  - by rewrite Z.mod_1_r.
  - rewrite IH. cbn [mbind option_bind]. f_equal. rewrite Nat2Z.inj_succ, Z.pow_succ_r by lia.
    assert (0 < 256 ^ Z.of_nat n) by (apply Z.pow_pos_nonneg; lia).
    rewrite (Z.rem_mul_r v 256 (256 ^ Z.of_nat n)) by lia. lia.
Qed.

Lemma frags_length o n : length (frags o n) = n.
Proof. unfold frags. by rewrite length_fmap, length_seq. Qed.

Lemma frags_from_run o n : ∀ k, frags_from k (Frag o <$> seq k n) = true.
Proof. induction n as [|n IH]; intros k; simpl; [done|]. by rewrite Nat.eqb_refl, IH. Qed.

Lemma as_value_frags v n : (0 < n)%nat → as_value (frags (StoredValue v) n) = Some v.
Proof.
  intros Hn. destruct n as [|n]; [lia|].
  change (as_value (frags (StoredValue v) (S n))) with
    (if frags_from 0 (frags (StoredValue v) (S n)) then Some v else None).
  unfold frags. by rewrite frags_from_run.
Qed.
Lemma as_double_frags d n : (0 < n)%nat → as_double (frags (StoredDouble d) n) = Some d.
Proof.
  intros Hn. destruct n as [|n]; [lia|].
  change (as_double (frags (StoredDouble d) (S n))) with
    (if frags_from 0 (frags (StoredDouble d) (S n)) then Some d else None).
  unfold frags. by rewrite frags_from_run.
Qed.

Lemma num_size_bits n : 256 ^ Z.of_nat (Z.to_nat (num_size n)) = 2 ^ num_bits n.
Proof. by destruct n. Qed.

Lemma num_wrap_mod n x : num_min n ≤ x ≤ num_max n → num_wrap n (x mod 2 ^ num_bits n) = x.
Proof.
  intros Hx. rewrite <-(num_wrap_small n x Hx) at 2. unfold num_wrap, swrap.
  destruct (num_signed n); [|by rewrite Z.mod_mod by (destruct n; discriminate)].
  by rewrite Zplus_mod_idemp_l.
Qed.

(** ** Programs on the heap *)
Definition with_mem (m : memory) (h : Heap) : Heap := mkHeap m (brk h) (containers h) (storages h) (ints h).
Definition with_store (s : store) (h : Heap) : Heap := mkHeap (mem h) (brk h) (containers h) (storages h) s.

Lemma with_ints_run {A} (c : M A) a s' h : c (ints h) = Some (a, s') → with_ints c h = Some (a, with_store s' h).
Proof. intros H. unfold with_ints. by rewrite H. Qed.

Lemma with_store_id h : with_store (ints h) h = h.
Proof. by destruct h. Qed.

Lemma read_run a cs h : cells_at (mem h) a cs → read a (length cs) h = Some (cs, h).
Proof. intros H. unfold read. rewrite (st_bind_run _ _ _ _ _ (eq_refl : get_heap h = _)). unfold of_opt. by rewrite (read_cells_run _ _ _ H). Qed.

Lemma read_ext a n h h' :
  (∀ x, a ≤ x < a + Z.of_nat n → mem h' !! x = mem h !! x) → fst <$> read a n h' = fst <$> read a n h.
Proof.
  intros H. unfold read.
  rewrite (st_bind_run _ _ _ _ _ (eq_refl : get_heap h = _)), (st_bind_run _ _ _ _ _ (eq_refl : get_heap h' = _)).
  unfold of_opt. rewrite (read_cells_ext n a (mem h) (mem h') H). by destruct (read_cells a n (mem h)).
Qed.

Lemma write_run a cs h :
  owned (mem h) a (Z.of_nat (length cs)) →
  ∃ m', write a cs h = Some ((), with_mem m' h) ∧ cells_at m' a cs ∧
    same_outside a (Z.of_nat (length cs)) (mem h) m' ∧ (∀ x, is_Some (mem h !! x) → is_Some (m' !! x)).
Proof. intros H. destruct (write_cells_run cs a (mem h) H) as (m' & E & Hm). exists m'. unfold write. by rewrite E. Qed.

Lemma of_opt_run {A} (o : option A) a h : o = Some a → of_opt o h = Some (a, h).
Proof. by intros ->. Qed.

Lemma AS_PACKEDCONTAINER_run t q c h :
  containers h !! q = Some c → AS_PACKEDCONTAINER (TYPED_VAL t (Some q)) h = Some ((q, c), h).
Proof.
  intros Hq. simpl. unfold get_container. erewrite st_bind_run; [done|].
  by rewrite (st_bind_run _ _ _ _ _ (eq_refl : get_heap h = _)), (of_opt_run _ _ h Hq).
Qed.

(** ** Elements are cells *)
Section Elements.
Context `{U : Uninit} `{TG : Target}.

(** An element that is not itself a container; an address is stored in less
    than it is written in. *)
Definition cell_like (e : option YargType) : bool :=
  match e with
  | Some (Simple Address) | Some (Array _ _ _) | Some (Struct _ _) | Some (Pointer _ _) => false
  | _ => true
  end.

(** How a value lies in an element. *)
Definition encode (e : option YargType) (v : Value) : list Cell :=
  match e, v with
  | Some (Simple (Num n)), NUM_VAL _ x => le_split (Z.to_nat (num_size n)) x
  | Some (Simple Dbl), DOUBLE_VAL d => frags (StoredDouble d) 8
  | _, _ => frags (StoredValue v) (Z.to_nat sizeof_Value)
  end.

(** The values a placeable element may hold. *)
Definition fits (e : option YargType) (v : Value) : Prop :=
  match e with
  | Some (Simple (Num n)) => ∃ x, v = NUM_VAL n x ∧ num_min n ≤ x ≤ num_max n
  | Some (Simple Dbl) => ∃ d, v = DOUBLE_VAL d
  | _ => True
  end.

Lemma cell_like_place e :
  cell_like e = true →
  is_packable_container_type e = false ∧
  is_placeable_type e = match e with Some (Simple (Num _)) | Some (Simple Dbl) => true | _ => false end.
Proof.
  destruct e as [[[]| | | |]|]; try done. by destruct n.
Qed.

Lemma encode_length e v : cell_like e = true → fits e v → Z.of_nat (length (encode e v)) = sizes e.
Proof.
  pose proof target_ok as (_ & _ & Hv & _).
  intros Hc Hf. destruct e as [[[]| | | |]|]; try done; unfold encode; simpl in *;
    try (rewrite frags_length; lia).
  - destruct Hf as [d ->]. done.
  - destruct Hf as (x & -> & _). rewrite le_split_length. destruct n; done.
Qed.

(** What is encoded is read back. *)
Lemma element_decode c e o v h :
  cell_like e = true → fits e v → cells_at (mem h) (loc c + o) (encode e v) →
  containerElement c e o h = Some (v, h).
Proof.
  intros Hc Hf Hm. destruct (cell_like_place e Hc) as [E1 E2]. pose proof target_ok as (_ & _ & Hv & _).
  unfold containerElement. rewrite E1, E2.
  destruct e as [[[]| | | |]|]; try done; simpl in Hf.
  3:{ destruct Hf as (x & -> & Hx). unfold getPlacedValue. rewrite E2.
      assert (load_num n (loc c + o) h = Some (x, h)) as HL.
      { unfold load_num. pose proof (read_run _ _ h Hm) as Hr. simpl in Hr. rewrite le_split_length in Hr.
        rewrite (st_bind_run _ _ _ _ _ Hr).
        rewrite (st_bind_run _ _ _ _ _ (of_opt_run _ _ h (le_combine_split _ x))).
        rewrite num_size_bits. by rewrite num_wrap_mod. }
      by rewrite (st_bind_run _ _ _ _ _ HL). }
  2:{ destruct Hf as [d ->]. unfold getPlacedValue. rewrite E2.
      rewrite (st_bind_run _ _ _ _ _ (read_run _ _ h Hm : read _ 8 h = _)).
      by rewrite (st_bind_run _ _ _ _ _ (of_opt_run _ _ h (as_double_frags d 8 ltac:(lia)))). }
  all: unfold load_value; pose proof (read_run _ _ h Hm) as Hr; simpl encode in Hr; rewrite frags_length in Hr;
    rewrite (st_bind_run _ _ _ _ _ Hr); apply of_opt_run, as_value_frags; lia.
Qed.

(** An element depends on its own bytes only. *)
Lemma element_ext c e o h h' :
  cell_like e = true → (∀ x, loc c + o ≤ x < loc c + o + sizes e → mem h' !! x = mem h !! x) →
  fst <$> containerElement c e o h' = fst <$> containerElement c e o h.
Proof.
  intros Hc Hm. destruct (cell_like_place e Hc) as [E1 E2]. pose proof target_ok as (_ & _ & Hv & _).
  unfold containerElement. rewrite E1, E2.
  assert (∀ {A} n (k : list Cell → option A) , Z.of_nat n = sizes e →
    fst <$> (cs ← read (loc c + o) n; of_opt (k cs)) h' = fst <$> (cs ← read (loc c + o) n; of_opt (k cs)) h) as Hgo.
  { intros A n k Hn. pose proof (read_ext (loc c + o) n h h' ltac:(rewrite Hn; exact Hm)) as Hr.
    unfold mbind, st_bind. destruct (read (loc c + o) n h) as [[cs h1]|], (read (loc c + o) n h') as [[cs' h1']|];
      simpl in Hr; try done. injection Hr as ->. unfold of_opt. by destruct (k cs). }
  destruct e as [[[]| | | |]|]; try done; try (apply (Hgo Value _ as_value); simpl; lia).
  - unfold getPlacedValue. rewrite E2. specialize (Hgo spec_float 8%nat as_double eq_refl).
    unfold mbind, st_bind in *. destruct (read _ 8 h') as [[cs' h1']|], (read _ 8 h) as [[cs h1]|];
      unfold of_opt in *; try destruct (as_double cs'); try destruct (as_double cs); simpl in *; try done.
    by injection Hgo as ->.
  - unfold getPlacedValue. rewrite E2. unfold load_num.
    assert (Z.of_nat (Z.to_nat (num_size n)) = sizes (Some (Simple (Num n)))) as Hn by by destruct n.
    specialize (Hgo Z _ le_combine Hn).
    unfold mbind, st_bind in *. destruct (read _ _ h') as [[cs' h1']|], (read _ _ h) as [[cs h1]|];
      unfold of_opt in *; try destruct (le_combine cs'); try destruct (le_combine cs); simpl in *; try done.
    by injection Hgo as ->.
Qed.

(** What a write leaves: the element encodes the value, nothing else changes. *)
Definition wrote (h : Heap) (a n : Z) (cs : list Cell) (s' : store) (h' : Heap) : Prop :=
  ∃ m', h' = with_store s' (with_mem m' h) ∧ cells_at m' a cs ∧ same_outside a n (mem h) m' ∧
    (∀ x, is_Some (mem h !! x) → is_Some (m' !! x)).

Lemma store_cells_run {A} a cs (s' : store) (r : A) h :
  owned (mem h) a (Z.of_nat (length cs)) →
  ∃ h', (write a cs ;; mret r) (with_store s' h) = Some (r, h') ∧ wrote h a (Z.of_nat (length cs)) cs s' h'.
Proof.
  intros Ho. destruct (write_run a cs (with_store s' h) Ho) as (m' & E & Hc & Hout & Hdom).
  rewrite (st_bind_run _ _ _ _ _ E). eexists. split; [done|]. by exists m'.
Qed.

(** A value that a cell accepts fits the element of the same type. *)
Lemma assigned_fits e rhs (s : store) v s' :
  wf_value s rhs → (∀ o, rhs ≠ IMPL_OBJ_VAL o) → no_least_int32 s e rhs →
  assignToValueCellTarget e rhs s = Some (Some v, s') → cell_like e = true → fits e v.
Proof.
  intros W Hi Hn E Hc. destruct (assign_run e rhs s W Hi Hn) as (r & s1 & E1 & Hr).
  rewrite E in E1. injection E1 as <- <-. destruct Hr as (Hh & Wv & _).
  destruct e as [[[]| | | |]|]; try done; simpl.
  - destruct Hh as [|[[_ ?]|[Ht|(? & ? & ? & ? & ? & ? & ? & _)]]]; try done.
    rewrite typesEqual_sym, typesEqual_dbl in Ht.
    destruct v as [| | | | | |[[]| | | |] o|t|o]; try done; by eexists.
  - destruct Hh as [|[[_ ?]|[Ht|(? & ? & ? & ? & ? & ? & ? & _)]]]; try done; [by destruct n|].
    rewrite typesEqual_sym, typesEqual_num in Ht.
    destruct v as [| | |m x| | |[[| | |m| | | | | | | | |]| | | |] o|t|o]; try done; [|by destruct m].
    simpl in Ht. apply bool_decide_eq_true in Ht as ->.
    by exists x.
Qed.

(** Placed elements take what cells take. *)
Lemma assignPlaced_run e rhs h v s' a :
  wf_value (ints h) rhs → (∀ o, rhs ≠ IMPL_OBJ_VAL o) → no_least_int32 (ints h) e rhs →
  is_placeable_type e = true → cell_like e = true →
  assignToValueCellTarget e rhs (ints h) = Some (v, s') →
  assignToPlacedValueCellTarget a e rhs h =
  match v with
  | Some v => (setPlacedValue a v ;; mret true) (with_store s' h)
  | None => Some (false, with_store s' h)
  end.
Proof.
  intros W Hi Hn Hp Hc E. destruct e as [lt|]; [|done].
  pose proof (isInitialisableType_run lt rhs (ints h) W Hi Hn) as HI.
  unfold assignToPlacedValueCellTarget. rewrite (st_bind_run _ _ _ _ _ (with_ints_run _ _ _ h HI)). rewrite with_store_id.
  pose proof E as E'. unfold assignToValueCellTarget in E. rewrite (st_bind_run _ _ _ _ _ HI) in E.
  assert (∀ w, assignToValueCellTarget (Some lt) rhs (ints h) = Some (Some w, s') → is_placeable_type (type_of w) = true) as Hw.
  { intros w Ew. pose proof (assigned_fits _ _ _ _ _ W Hi Hn Ew Hc) as Hf. simpl in Hf.
    destruct lt as [[]| | | |]; try done; [by destruct Hf as [d ->]|by destruct Hf as (x & -> & _)]. }
  assert (∀ b : bool, (if b then v ← noLongerLiteralInt rhs; mret (Some v) else mret None : M (option Value)) (ints h) = Some (v, s') →
    (if b then
       if type_of rhs then v ← with_ints (noLongerLiteralInt rhs);
         if is_placeable_type (type_of v) then setPlacedValue a v ;; mret true else fail
       else fail
     else mret false) h = match v with
      | Some v => (setPlacedValue a v ;; mret true) (with_store s' h)
      | None => Some (false, with_store s' h)
      end) as Hgo.
  { intros [] Eb; [|injection Eb as <- <-; by rewrite with_store_id].
    destruct (noLongerLiteralInt_run rhs _ W) as (w & s1 & Ew & Ht & _). rewrite (st_bind_run _ _ _ _ _ Ew) in Eb.
    injection Eb as <- <-. pose proof (Hw w E') as Hpw.
    destruct (type_of rhs); [|by rewrite Ht in Hpw]. rewrite (st_bind_run _ _ _ _ _ (with_ints_run _ _ _ h Ew)). by rewrite (Hw w E'). }
  destruct (IS_NIL rhs); [by apply Hgo|].
  destruct (literal_for lt (ints h) rhs) as [w|] eqn:El; [|by apply Hgo].
  assert (w ≠ NIL_VAL) as Hwn.
  { unfold literal_for in El. intros ->. destruct rhs as [| | | | |b| | |]; try done. destruct lt as [[]| | | |]; try done.
    destruct (bsi_literal b); [|done]. destruct (bsi_int (ints h) b); [|done]. simpl in El. by case_bool_decide. }
  destruct w; try done; injection E as <- <-; by rewrite (Hw _ E'), with_store_id.
Qed.

Lemma setPlacedValue_encode e v a :
  is_placeable_type e = true → cell_like e = true → fits e v → setPlacedValue a v = write a (encode e v).
Proof.
  intros Hp Hc Hf. destruct e as [[[]| | | |]|]; try done; [by destruct Hf as [d ->]|by destruct Hf as (x & -> & _)].
Qed.

(** Setting an element does what assignment to a cell of its type does; the
    element then reads as the value stored, and no other byte changes. *)
Lemma set_element_run c e o rhs h :
  cell_like e = true → wf_value (ints h) rhs → (∀ o, rhs ≠ IMPL_OBJ_VAL o) → no_least_int32 (ints h) e rhs →
  owned (mem h) (loc c + o) (sizes e) →
  ∃ r s', assignToValueCellTarget e rhs (ints h) = Some (r, s') ∧
    match r with
    | None => setPlacedContainerElement c e o rhs h = Some (false, h)
    | Some v => ∃ h', setPlacedContainerElement c e o rhs h = Some (true, h') ∧
        wrote h (loc c + o) (sizes e) (encode e v) s' h' ∧ containerElement c e o h' = Some (v, h')
    end.
Proof.
  intros Hc W Hi Hn Ho. destruct (assign_run e rhs (ints h) W Hi Hn) as (r & s' & E & Hr).
  exists r, s'. split; [done|]. unfold setPlacedContainerElement.
  assert (∀ v, r = Some v → fits e v) as Hfit.
  { intros v ->. by apply (assigned_fits e rhs (ints h) v s'). }
  assert (∀ v, r = Some v → ∃ h', (write (loc c + o) (encode e v) ;; mret true) (with_store s' h) = Some (true, h') ∧
    wrote h (loc c + o) (sizes e) (encode e v) s' h' ∧ containerElement c e o h' = Some (v, h')) as Hgo.
  { intros v Hv. pose proof (Hfit v Hv) as Hf. pose proof (encode_length e v Hc Hf) as Hl. rewrite <-Hl in *.
    destruct (store_cells_run (loc c + o) (encode e v) s' true h Ho) as (h' & Eh & Hw).
    exists h'. split; [done|]. split; [done|]. apply element_decode; [done..|]. by destruct Hw as (m' & -> & Hcs & _). }
  destruct (is_placeable_type e) eqn:Hp.
  - rewrite (assignPlaced_run e rhs h r s' _ W Hi Hn Hp Hc E). destruct r as [v|].
    + by rewrite (setPlacedValue_encode e v _ Hp Hc (Hfit v eq_refl)); apply Hgo.
    + subst s'. by rewrite with_store_id.
  - rewrite (st_bind_run _ _ _ _ _ (with_ints_run _ _ _ h E)). destruct r as [v|].
    + replace (store_value (loc c + o) v) with (write (loc c + o) (encode e v)); [by apply Hgo|].
      by destruct e as [[[]| | | |]|].
    + subst s'. by rewrite with_store_id.
Qed.

(** Two containers that lie at the same address have the same elements. *)
Lemma element_loc c c' e o o' h :
  cell_like e = true → loc c + o = loc c' + o' → containerElement c e o h = containerElement c' e o' h.
Proof.
  intros Hc Hl. destruct (cell_like_place e Hc) as [E1 _]. unfold containerElement. by rewrite E1, Hl.
Qed.
End Elements.

(** ** Arrays *)
Section Arrays.
Context `{U : Uninit} `{TG : Target}.

(** An array value of the heap, whose elements are all in allocated memory. *)
Record is_array (h : Heap) (v : Value) (n : Z) (e : option YargType) (c : Container) : Prop := {
  ia_val : ∃ p q, v = TYPED_VAL (Array p n e) (Some q) ∧ containers h !! q = Some c;
  ia_fit : sizes e * n < 2 ^ size_bits;
  ia_own : owned (mem h) (loc c) (sizes e * n)
}.

Lemma array_offset e n i :
  cell_like e = true → 0 ≤ i < n → sizes e * n < 2 ^ size_bits → arrayElementOffset e i = sizes e * i ∧ 1 ≤ sizes e.
Proof.
  intros Hc Hi Hf. assert (1 ≤ sizes e) as Hs by (apply scalar_size; by destruct e as [[[]| | | |]|]).
  split; [|done]. unfold arrayElementOffset, usize. rewrite (Z.mul_comm i). apply Z.mod_small. nia.
Qed.

Lemma arrayElement_at h v n e c i :
  is_array h v n e c → arrayElement v i h = containerElement c e (arrayElementOffset e i) h.
Proof.
  intros [(p & q & -> & Hq) _ _]. unfold arrayElement. cbn [type_of].
  by rewrite (st_bind_run _ _ _ _ _ (AS_PACKEDCONTAINER_run _ q c h Hq)).
Qed.

Lemma setArrayElement_at h v n e c i rhs :
  is_array h v n e c → setArrayElement v i rhs h = setPlacedContainerElement c e (arrayElementOffset e i) rhs h.
Proof.
  intros [(p & q & -> & Hq) _ _]. unfold setArrayElement. cbn [type_of].
  by rewrite (st_bind_run _ _ _ _ _ (AS_PACKEDCONTAINER_run _ q c h Hq)).
Qed.

Lemma wrote_array h v n e c a k cs s' h' :
  is_array h v n e c → wrote h a k cs s' h' → is_array h' v n e c.
Proof.
  intros [Hv Hf Ho] (m' & -> & _ & _ & Hdom). split; [done|done|]. intros x Hx. apply Hdom, Ho, Hx.
Qed.

(** What setting the element [i] to [rhs] does. *)
Lemma array_set_run v n e c i rhs h :
  is_array h v n e c → cell_like e = true → 0 ≤ i < n →
  wf_value (ints h) rhs → (∀ o, rhs ≠ IMPL_OBJ_VAL o) → no_least_int32 (ints h) e rhs →
  ∃ r s', assignToValueCellTarget e rhs (ints h) = Some (r, s') ∧
    match r with
    | None => setArrayElement v i rhs h = Some (false, h)
    | Some w => ∃ h' m', setArrayElement v i rhs h = Some (true, h') ∧ h' = with_store s' (with_mem m' h) ∧
        is_array h' v n e c ∧ arrayElement v i h' = Some (w, h') ∧
        (∀ j, 0 ≤ j < n → j ≠ i → fst <$> arrayElement v j h' = fst <$> arrayElement v j h) ∧
        same_outside (loc c) (sizes e * n) (mem h) m'
    end.
Proof.
  intros HA Hc Hi W Himp Hn. destruct (array_offset e n i Hc Hi (ia_fit _ _ _ _ _ HA)) as [Eo Hs].
  rewrite (setArrayElement_at h v n e c i rhs HA), Eo.
  destruct (set_element_run c e (sizes e * i) rhs h Hc W Himp Hn) as (r & s' & E & Hr).
  { intros x Hx. apply (ia_own _ _ _ _ _ HA). nia. }
  exists r, s'. split; [done|]. destruct r as [w|]; [|done]. destruct Hr as (h' & E' & Hw & Hread).
  pose proof (wrote_array _ _ _ _ _ _ _ _ _ _ HA Hw) as HA'. destruct Hw as (m' & -> & _ & Hout & _).
  eexists _, m'. split; [done|]. split; [done|]. split; [done|]. split; [by rewrite (arrayElement_at _ _ _ _ _ _ HA'), Eo|].
  split; [|intros x Hx; apply Hout; nia].
  intros j Hj Hji. destruct (array_offset e n j Hc Hj (ia_fit _ _ _ _ _ HA)) as [Ej _].
  rewrite (arrayElement_at _ _ _ _ _ _ HA'), (arrayElement_at _ _ _ _ _ _ HA), Ej.
  apply element_ext; [done|]. intros x Hx. apply Hout. nia.
Qed.

End Arrays.

(** ** Structs *)
Section Structs.
Context `{U : Uninit} `{TG : Target}.

(** A struct value of the heap. *)
Record is_struct_of (h : Heap) (v : Value) (st : StructType) (c : Container) : Prop := {
  is_val : ∃ p q, v = TYPED_VAL (Struct p st) (Some q) ∧ containers h !! q = Some c;
  is_chain : fields_chain 0 (field_types st) (field_indexes st) (storage_size st);
  is_own : owned (mem h) (loc c) (storage_size st)
}.

Lemma fields_chain_end ts : ∀ lo os hi, fields_chain lo ts os hi → lo ≤ hi.
Proof.
  induction ts as [|t ts IH]; intros lo [|o os] hi H; simpl in H; try done.
  destruct H as (H1 & H2 & H3). apply IH in H3. lia.
Qed.

Lemma fields_chain_lookup ts : ∀ lo os hi i t o,
  fields_chain lo ts os hi → ts !! i = Some t → os !! i = Some o → lo ≤ o ∧ o + sizes t ≤ hi.
Proof.
  induction ts as [|u ts IH]; intros lo [|a os] hi [|i] t o H Ht Ho; simpl in *; try done;
    destruct H as (H1 & H2 & H3).
  - injection Ht as ->. injection Ho as ->. apply fields_chain_end in H3. lia.
  - destruct (IH _ _ _ _ _ _ H3 Ht Ho). lia.
Qed.

Lemma fields_chain_disjoint ts : ∀ lo os hi i j t o u o',
  fields_chain lo ts os hi → (i < j)%nat → ts !! i = Some t → os !! i = Some o →
  ts !! j = Some u → os !! j = Some o' → o + sizes t ≤ o'.
Proof.
  induction ts as [|v ts IH]; intros lo [|a os] hi [|i] [|j] t o u o' H Hij Ht Ho Hu Ho'; simpl in *; try done; try lia;
    destruct H as (H1 & H2 & H3).
  - injection Ht as ->. injection Ho as ->. by destruct (fields_chain_lookup _ _ _ _ _ _ _ H3 Hu Ho').
  - apply (IH _ _ _ i j t o u o' H3); [lia|done..].
Qed.

Lemma structField_at h v st c i e o :
  is_struct_of h v st c → field_types st !! i = Some e → field_indexes st !! i = Some o →
  structField v i h = containerElement c e o h.
Proof.
  intros [(p & q & -> & Hq) _ _] He Ho. unfold structField, structFieldOffset. cbn [type_of].
  by rewrite (st_bind_run _ _ _ _ _ (of_opt_run _ _ h Ho)), (st_bind_run _ _ _ _ _ (of_opt_run _ _ h He)),
    (st_bind_run _ _ _ _ _ (AS_PACKEDCONTAINER_run _ q c h Hq)).
Qed.

Lemma setStructField_at h v st c i e o rhs :
  is_struct_of h v st c → field_types st !! i = Some e → field_indexes st !! i = Some o →
  setStructField v i rhs h = setPlacedContainerElement c e o rhs h.
Proof.
  intros [(p & q & -> & Hq) _ _] He Ho. unfold setStructField, structFieldOffset. cbn [type_of].
  by rewrite (st_bind_run _ _ _ _ _ (of_opt_run _ _ h Ho)), (st_bind_run _ _ _ _ _ (of_opt_run _ _ h He)),
    (st_bind_run _ _ _ _ _ (AS_PACKEDCONTAINER_run _ q c h Hq)).
Qed.

Lemma wrote_struct h v st c a k cs s' h' : is_struct_of h v st c → wrote h a k cs s' h' → is_struct_of h' v st c.
Proof.
  intros [Hv Hf Ho] (m' & -> & _ & _ & Hdom). split; [done|done|]. intros x Hx. apply Hdom, Ho, Hx.
Qed.

Lemma set_field_run v st c i e o rhs h :
  is_struct_of h v st c → field_types st !! i = Some e → field_indexes st !! i = Some o → cell_like e = true →
  wf_value (ints h) rhs → (∀ o, rhs ≠ IMPL_OBJ_VAL o) → no_least_int32 (ints h) e rhs →
  ∃ r s', assignToValueCellTarget e rhs (ints h) = Some (r, s') ∧
    match r with
    | None => setStructField v i rhs h = Some (false, h)
    | Some w => ∃ h', setStructField v i rhs h = Some (true, h') ∧ ints h' = s' ∧
        is_struct_of h' v st c ∧ structField v i h' = Some (w, h') ∧
        (∀ j u, j ≠ i → field_types st !! j = Some u → cell_like u = true →
           fst <$> structField v j h' = fst <$> structField v j h)
    end.
Proof.
  intros HS He Ho Hc W Himp Hn. pose proof (is_chain _ _ _ _ HS) as Hch.
  rewrite (setStructField_at h v st c i e o rhs HS He Ho).
  destruct (fields_chain_lookup _ _ _ _ _ _ _ Hch He Ho) as [H0 H1].
  destruct (set_element_run c e o rhs h Hc W Himp Hn) as (r & s' & E & Hr).
  { intros x Hx. apply (is_own _ _ _ _ HS). lia. }
  exists r, s'. split; [done|]. destruct r as [w|]; [|done]. destruct Hr as (h' & E' & Hw & Hread).
  exists h'. split; [done|]. pose proof (wrote_struct _ _ _ _ _ _ _ _ _ HS Hw) as HS'.
  destruct Hw as (m' & -> & _ & Hout & _). split; [done|]. split; [done|]. split; [by rewrite (structField_at _ _ _ _ _ _ _ HS' He Ho)|].
  intros j u Hji Hu Hcu. destruct (field_indexes st !! j) as [o'|] eqn:Ho'.
  - rewrite (structField_at _ _ _ _ _ _ _ HS' Hu Ho'), (structField_at _ _ _ _ _ _ _ HS Hu Ho').
    apply element_ext; [done|]. intros x Hx. apply Hout.
    destruct (decide (j < i)%nat).
    + pose proof (fields_chain_disjoint _ _ _ _ j i _ _ _ _ Hch ltac:(lia) Hu Ho' He Ho). lia.
    + pose proof (fields_chain_disjoint _ _ _ _ i j _ _ _ _ Hch ltac:(lia) He Ho Hu Ho'). lia.
  - destruct HS as [(p & q & -> & _) _ _]. unfold structField, structFieldOffset. cbn [type_of]. by rewrite Ho'.
Qed.

(** The fields of a struct are cells of their types: setting a field
    always returns, stores what assignment to such a cell stores or refuses
    what it refuses; a value stored is read back, and the other fields read as
    before. *)
Theorem struct_fields_are_cells v st c i e o rhs h :
  is_struct_of h v st c → field_types st !! i = Some e → field_indexes st !! i = Some o → cell_like e = true →
  wf_value (ints h) rhs → (∀ o, rhs ≠ IMPL_OBJ_VAL o) → no_least_int32 (ints h) e rhs →
  ∃ r s', assignToValueCellTarget e rhs (ints h) = Some (r, s') ∧
    match r with
    | None => setStructField v i rhs h = Some (false, h)
    | Some w => ∃ h', setStructField v i rhs h = Some (true, h') ∧ ints h' = s' ∧
        structField v i h' = Some (w, h') ∧
        (∀ j u, j ≠ i → field_types st !! j = Some u → cell_like u = true →
           fst <$> structField v j h' = fst <$> structField v j h)
    end.
Proof.
  intros HS He Ho Hc W Himp Hn. destruct (set_field_run v st c i e o rhs h HS He Ho Hc W Himp Hn) as (r & s' & E & Hr).
  exists r, s'. split; [done|]. destruct r as [w|]; [|done]. destruct Hr as (h' & E1 & E2 & _ & H). by exists h'.
Qed.
End Structs.

(** ** Pointers *)
Section Pointers.
Context `{U : Uninit} `{TG : Target}.

Lemma createPackedContainerFor_run c o t h :
  ∃ q h', createPackedContainerFor c o t h = Some (TYPED_VAL t (Some q), h') ∧ containers h !! q = None ∧
    containers h' = <[q := mkContainer (loc c + o) (storage c)]> (containers h) ∧
    mem h' = mem h ∧ ints h' = ints h ∧ storages h' = storages h.
Proof.
  assert (containers h !! fresh (dom (containers h)) = None) as Hf by (apply not_elem_of_dom, is_fresh).
  unfold createPackedContainerFor, createPackedValueContainerAt.
  destruct (storage c) as [s|]; eexists _, _; (split; [done|]); done.
Qed.

Lemma pointer_at p e q c h :
  containers h !! q = Some c → pointerDestination (TYPED_VAL (Pointer p e) (Some q)) h = containerElement c e 0 h.
Proof.
  intros Hq. unfold pointerDestination. cbn [type_of].
  by rewrite (st_bind_run _ _ _ _ _ (AS_PACKEDCONTAINER_run _ q c h Hq)).
Qed.
Lemma set_pointer_at p e q c rhs h :
  containers h !! q = Some c →
  setPointerDestination (TYPED_VAL (Pointer p e) (Some q)) rhs h = setPlacedContainerElement c e 0 rhs h.
Proof.
  intros Hq. unfold setPointerDestination. cbn [type_of].
  by rewrite (st_bind_run _ _ _ _ _ (AS_PACKEDCONTAINER_run _ q c h Hq)).
Qed.

(** A pointer to an element of an array is the element: making it changes
    neither memory nor array; what is stored through it is read back through
    it and from the array, and a value of another type is refused. *)
Theorem pointer_writes_through p v n e c i rhs h :
  is_array h v n e c → cell_like e = true → 0 ≤ i < n →
  wf_value (ints h) rhs → (∀ o, rhs ≠ IMPL_OBJ_VAL o) → no_least_int32 (ints h) e rhs →
  ∃ ptr h1 r s', arrayElementPointer p v i h = Some (ptr, h1) ∧ mem h1 = mem h ∧ ints h1 = ints h ∧ is_array h1 v n e c ∧
    assignToValueCellTarget e rhs (ints h) = Some (r, s') ∧
    match r with
    | None => setPointerDestination ptr rhs h1 = Some (false, h1)
    | Some w => ∃ h2, setPointerDestination ptr rhs h1 = Some (true, h2) ∧
        pointerDestination ptr h2 = Some (w, h2) ∧ arrayElement v i h2 = Some (w, h2)
    end.
Proof.
  intros HA Hc Hi W Himp Hn. destruct (array_offset e n i Hc Hi (ia_fit _ _ _ _ _ HA)) as [Eo Hs].
  pose proof HA as [(pa & qa & -> & Hqa) Hfit Hown].
  unfold arrayElementPointer. cbn [type_of]. rewrite (st_bind_run _ _ _ _ _ (AS_PACKEDCONTAINER_run _ qa c h Hqa)).
  unfold containerElementPointer. rewrite Eo.
  destruct (createPackedContainerFor_run c (sizes e * i) (Pointer p e) h) as (q & h1 & E1 & Hf & Hcs & Hm & Hi1 & _).
  set (c1 := mkContainer (loc c + sizes e * i) (storage c)) in *.
  assert (containers h1 !! q = Some c1) as Hq by (rewrite Hcs; apply lookup_insert_eq).
  assert (is_array h1 (TYPED_VAL (Array pa n e) (Some qa)) n e c) as HA1.
  { split; [|done|by rewrite Hm]. exists pa, qa. split; [done|]. rewrite Hcs, lookup_insert_ne; [done|congruence]. }
  rewrite <-Hi1 in W, Hn.
  destruct (set_element_run c1 e 0 rhs h1 Hc W Himp Hn) as (r & s' & E & Hr).
  { intros x Hx. rewrite Hm. apply Hown. subst c1. simpl in Hx. nia. }
  exists (TYPED_VAL (Pointer p e) (Some q)), h1, r, s'. rewrite Hi1 in E. split; [done|]. split; [done|]. split; [done|].
  split; [done|]. split; [done|]. rewrite (set_pointer_at p e q c1 rhs h1 Hq). destruct r as [w|]; [|done].
  destruct Hr as (h2 & E2 & Hw & Hread). exists h2. split; [done|].
  pose proof (wrote_array _ _ _ _ _ _ _ _ _ _ HA1 Hw) as HA2. destruct Hw as (m' & -> & _).
  split; [by rewrite (pointer_at p e q c1)|].
  rewrite (arrayElement_at _ _ _ _ _ _ HA2), Eo, <-Hread. apply element_loc; [done|]. simpl. lia.
Qed.
End Pointers.

(** ** Indexing by the virtual machine *)
Section Deref.
Context `{U : Uninit} `{TG : Target}.

(** Indexing an array checks its bounds: with an index that is no integer,
    negative, or not less than the cardinality, both directions are a runtime
    error that changes nothing; any other index, of whatever integer type,
    reaches the element of that number. *)
Theorem array_index_checked p v n e c idx rhs h :
  is_array h v n e c → wf_value (ints h) idx →
  match index_of (ints h) idx with
  | Some i =>
      if n <=? i
      then derefArrayElement p v idx h = Some (None, h) ∧ setAnArrayElement v idx rhs h = Some (false, h)
      else derefArrayElement p v idx h = (x ← arrayElement v i; mret (Some x)) h ∧
           setAnArrayElement v idx rhs h = setArrayElement v i rhs h
  | None => derefArrayElement p v idx h = Some (None, h) ∧ setAnArrayElement v idx rhs h = Some (false, h)
  end.
Proof.
  intros HA W. pose proof (with_ints_run _ _ _ h (is_positive_integer_run idx (ints h) W)) as Hp.
  rewrite with_store_id in Hp. unfold derefArrayElement, setAnArrayElement.
  rewrite !(st_bind_run _ _ _ _ _ Hp). destruct (index_of (ints h) idx) as [i|] eqn:Ei.
  - pose proof (with_ints_run _ _ _ h (as_positive_integer_run idx i (ints h) W Ei)) as Ha. rewrite with_store_id in Ha.
    rewrite bool_decide_eq_true_2 by (by eexists). rewrite !(st_bind_run _ _ _ _ _ Ha).
    destruct HA as [(pa & q & -> & _) _ _]. unfold is_uniformarray. cbn [type_of yt].
    rewrite bool_decide_eq_true_2 by done. by destruct (n <=? i).
  - rewrite bool_decide_eq_false_2 by (by intros [? ?]). done.
Qed.
End Deref.

(** ** Instances *)

(** Four [int8] at address 4096. *)
Definition array_type : YargType := Array 1 4 (num I8).
Definition array_heap : Heap :=
  mkHeap (clear 4096 4 ∅) 4100 {[ 7%positive := mkContainer 4096 None ]} ∅ ∅.
Definition array_value : Value := TYPED_VAL array_type (Some 7%positive).

Lemma clear_owned a n (m : memory) : owned (clear a n m) a (Z.of_nat n).
Proof. intros x Hx. rewrite clear_lookup, decide_True by done. by eexists. Qed.

Lemma array_value_ok : @is_array LP64 array_heap array_value 4 (num I8) (mkContainer 4096 None).
Proof.
  split.
  - exists 1%positive, 7%positive. split; reflexivity.
  - vm_compute. reflexivity.
  - apply (clear_owned 4096 4 ∅).
Qed.


(** A struct of a [uint8] and an untyped field. *)
Definition pair_type : StructType := mkStruct initTable [0; 24] [num UI8; None] 2 48 24.
Definition pair_heap : Heap :=
  mkHeap (clear 4096 48 ∅) 4144 {[ 7%positive := mkContainer 4096 None ]} ∅ ∅.
Definition pair_value : Value := TYPED_VAL (Struct 1 pair_type) (Some 7%positive).

Lemma pair_value_ok : @is_struct_of LP64 pair_heap pair_value pair_type (mkContainer 4096 None).
Proof.
  split.
  - exists 1%positive, 7%positive. split; reflexivity.
  - vm_compute. repeat split; discriminate.
  - apply (clear_owned 4096 48 ∅).
Qed.

Lemma struct_fields_are_cells_witness :
  ∃ r s', @assignToValueCellTarget Noise None (BOOL_VAL true) ∅ = Some (r, s') ∧
    match r with
    | None => @setStructField Noise LP64 pair_value 1 (BOOL_VAL true) pair_heap = Some (false, pair_heap)
    | Some w => ∃ h', @setStructField Noise LP64 pair_value 1 (BOOL_VAL true) pair_heap = Some (true, h') ∧ ints h' = s' ∧
        @structField LP64 pair_value 1 h' = Some (w, h') ∧
        (∀ j u, j ≠ 1%nat → field_types pair_type !! j = Some u → cell_like u = true →
           fst <$> @structField LP64 pair_value j h' = fst <$> @structField LP64 pair_value j pair_heap)
    end.
Proof.
  apply (@struct_fields_are_cells Noise LP64 pair_value pair_type (mkContainer 4096 None) 1 None 24 (BOOL_VAL true) pair_heap);
    [apply pair_value_ok|reflexivity|reflexivity|reflexivity|exact I|discriminate|discriminate].
Defined.

Lemma pointer_writes_through_witness :
  ∃ ptr h1 r s', @arrayElementPointer LP64 3%positive array_value 1 array_heap = Some (ptr, h1) ∧ mem h1 = mem array_heap ∧
    ints h1 = ints array_heap ∧ @is_array LP64 h1 array_value 4 (num I8) (mkContainer 4096 None) ∧
    @assignToValueCellTarget Noise (num I8) (NUM_VAL UI8 9) (ints array_heap) = Some (r, s') ∧
    match r with
    | None => @setPointerDestination Noise LP64 ptr (NUM_VAL UI8 9) h1 = Some (false, h1)
    | Some w => ∃ h2, @setPointerDestination Noise LP64 ptr (NUM_VAL UI8 9) h1 = Some (true, h2) ∧
        @pointerDestination LP64 ptr h2 = Some (w, h2) ∧ @arrayElement LP64 array_value 1 h2 = Some (w, h2)
    end.
Proof.
  apply (@pointer_writes_through Noise LP64 3%positive array_value 4 (num I8) (mkContainer 4096 None) 1 (NUM_VAL UI8 9) array_heap);
    [apply array_value_ok|reflexivity|lia|split; vm_compute; discriminate|discriminate|discriminate].
Defined.

Lemma array_index_checked_witness :
  @derefArrayElement Noise LP64 3%positive array_value (NUM_VAL UI8 4) array_heap = Some (None, array_heap) ∧
  @setAnArrayElement Noise LP64 array_value (NUM_VAL UI8 4) (NUM_VAL I8 1) array_heap = Some (false, array_heap).
Proof.
  apply (@array_index_checked Noise LP64 3%positive array_value 4 (num I8) (mkContainer 4096 None) (NUM_VAL UI8 4) (NUM_VAL I8 1) array_heap);
    [apply array_value_ok|split; vm_compute; discriminate].
Defined.
