(* ===== verification/StorageSpec.v ===== *)
(** * New storage: what [newPackedStorage] and [newPackedValueContainer] leave

    The flattened elements of a type cover disjoint parts of its storage, the
    assertions on their number hold, and every element of new storage is
    initialised. *)
From S2P Require Export PackedSpec.
Open Scope Z_scope.

Section Storage.
Context `{U : Uninit} `{TG : Target}.

(** ** Flattening *)
Lemma flatten_at_ok (w : option YargType → Z) o :
  (∀ t, 0 ≤ w t ≤ 1) → at_type True wf_type o → sizes o < 2 ^ size_bits →
  chain 0 (yt_flatten_types 0 o) (sizes o) ∧ weigh w (yt_flatten_types 0 o) = count_at w o.
Proof.
  intros Hw Hwf Hb. apply (flat_at w o 0); [|done|lia|done]. destruct o as [t|]; [|done]. apply (flatten_ok w Hw).
Qed.

Lemma weigh_one l : weigh (λ _, 1) l = Z.of_nat (length l).
Proof. induction l as [|e l IH]; simpl; [done|]. rewrite IH. lia. Qed.

Lemma weigh_filter (f : option YargType → bool) l :
  weigh (λ t, if f t then 1 else 0) l = Z.of_nat (length (List.filter (λ e, f e.2) l)).
Proof. induction l as [|e l IH]; simpl; [done|]. rewrite IH. destruct (f e.2); simpl; lia. Qed.

(** Flattening a type whose size fits a [size_t] gives as many elements as
    both counts say; the elements are no arrays or structs, lie inside the
    storage of the type, and do not overlap, in order. *)
Theorem flatten_sound o :
  at_type True wf_type o → sizes o < 2 ^ size_bits →
  let l := yt_flatten_types 0 o in
  Z.of_nat (length l) = yt_packable_element_count o ∧
  Z.of_nat (length (List.filter (λ e, yt_packs_asValue e.2) l)) = yt_packable_value_element_count o ∧
  (∀ i a t, l !! i = Some (a, t) → scalar t = true ∧ 0 ≤ a ∧ a + sizes t ≤ sizes o) ∧
  (∀ i j a t a' t', (i < j)%nat → l !! i = Some (a, t) → l !! j = Some (a', t') → a + sizes t ≤ a').
Proof.
  intros Hwf Hb l.
  destruct (flatten_at_ok (λ _, 1) o ltac:(lia) Hwf Hb) as [Hc H1]. rewrite weigh_one in H1.
  destruct (flatten_at_ok (λ t, if yt_packs_asValue t then 1 else 0) o) as [_ H2];
    [intros t; destruct (yt_packs_asValue t); lia|done|done|]. rewrite weigh_filter in H2.
  split; [done|]. split; [done|]. split.
  - intros i a t Hi. destruct (chain_lookup _ _ _ _ _ _ Hc Hi) as (H3 & H4 & H5). done.
  - intros i j a t a' t' Hij Hi Hj. by apply (chain_disjoint (yt_flatten_types 0 o) 0 (sizes o) i j a t a' t').
Qed.

(** ** Default values *)

(** The value an element is initialised to. *)
Definition is_default (t : option YargType) (v : Value) : Prop :=
  match t with
  | Some (Simple Boolean) | Some (Simple Implementation_obj) => v = BOOL_VAL false
  | Some (Simple Integer) => ∃ i, v = INT_VAL (SmallInt i) ∧ wf i ∧ val i = 0 ∧ overflow_ i = false
  | _ => v = NIL_VAL
  end.

Lemma defaultIntValue_run (s : store) :
  ∃ i, defaultIntValue s = Some (INT_VAL (SmallInt i), s) ∧ wf i ∧ val i = 0 ∧ overflow_ i = false.
Proof.
  destruct (with_local_ex 2 (λ i, io ← get i; mret (INT_VAL (SmallInt io))) s
    (λ v s', s' = s ∧ ∃ i, v = INT_VAL (SmallInt i) ∧ wf i ∧ val i = 0 ∧ overflow_ i = false)) as (v & s' & E & -> & i & -> & Hi).
  - by exists 1%nat.
  - lia.
  - intros p L Hp Hm W Hmag Hneg Hov. exists (INT_VAL (SmallInt L)), (<[p := L]> s).
    rewrite (st_bind_run _ _ _ _ _ (get_run p L _ (lookup_insert_eq _ _ _))).
    split; [done|]. split; [by apply delete_insert_id|].
    exists L. split; [done|]. split; [done|]. split; [unfold val; by rewrite Hmag, Hneg|done].
  - exists i. split; [exact E|done].
Qed.

Lemma default_scalar_run t (s : store) :
  yt_packs_asValue t = true → ∃ v, default_scalar t s = Some (v, s) ∧ is_default t v.
Proof.
  intros Hp. destruct (defaultIntValue_run s) as (i & E & Hi).
  destruct t as [[[| | |n| | | | | | | | |]| | | |]|]; try done; try (by eexists); [by destruct n|].
  exists (INT_VAL (SmallInt i)). split; [done|]. by exists i.
Qed.

(** ** Initialisation *)
Definition addr_of (base : Z) (l : list (Z * option YargType)) : list Z :=
  (λ e, base + e.1) <$> List.filter (λ e, yt_packs_asValue e.2) l.

Lemma addr_of_cons base o t l :
  addr_of base ((o, t) :: l) = if yt_packs_asValue t then (base + o) :: addr_of base l else addr_of base l.
Proof. unfold addr_of. cbn [List.filter snd]. by destruct (yt_packs_asValue t). Qed.

(** What initialising elements leaves in memory. *)
Definition initialised (base : Z) (m : memory) (l : list (Z * option YargType)) (m' : memory) : Prop :=
  ∀ o t, (o, t) ∈ l →
    if yt_packs_asValue t
    then ∃ v, is_default t v ∧ cells_at m' (base + o) (frags (StoredValue v) (Z.to_nat sizeof_Value))
    else ∀ x, base + o ≤ x < base + o + sizes t → m' !! x = m !! x.

Lemma packs_size t : yt_packs_asValue t = true → sizes t = sizeof_Value.
Proof. destruct t as [[[]| | | |]|]; try done. by destruct n. Qed.

Lemma cells_at_same a n m m' b cs :
  same_outside a n m m' → (b + Z.of_nat (length cs) ≤ a ∨ a + n ≤ b) → cells_at m b cs → cells_at m' b cs.
Proof.
  intros Hs Hd Hc i c Hi. rewrite Hs; [by apply Hc|]. apply lookup_lt_Some in Hi. lia.
Qed.

Lemma init_values_run base limit l : ∀ lo hi addrs h,
  chain lo l hi → owned (mem h) (base + lo) (hi - lo) →
  Z.of_nat (length addrs + length (addr_of base l)) ≤ limit →
  ∃ m', init_values base limit l addrs h = Some (addrs ++ addr_of base l, with_mem m' h) ∧
    same_outside (base + lo) (hi - lo) (mem h) m' ∧ (∀ x, is_Some (mem h !! x) → is_Some (m' !! x)) ∧
    initialised base (mem h) l m'.
Proof.
  pose proof target_ok as (_ & _ & HV & _).
  induction l as [|[o t] l IH]; intros lo hi addrs h Hch Hown Hlim; simpl in Hch.
  { exists (mem h). split; [by destruct h; rewrite app_nil_r|]. split; [done|]. split; [done|]. intros o t Hin. by apply elem_of_nil in Hin. }
  destruct Hch as (Ho & Hsc & Hch). pose proof (chain_le _ _ _ Hch) as Hend. pose proof (scalar_size _ Hsc) as Hsz.
  cbn [init_values]. rewrite addr_of_cons in *. destruct (yt_packs_asValue t) eqn:Ep.
  - rewrite (packs_size t Ep) in *. cbn [length] in Hlim.
    assert ((Z.of_nat (length addrs) <? limit) = true) as Elt by (apply Z.ltb_lt; lia).
    rewrite (st_bind_run _ _ _ _ _ (st_assert_run _ h Elt)).
    destruct (default_scalar_run t (ints h) Ep) as (v & Ev & Hdef).
    rewrite (st_bind_run _ _ _ _ _ (with_ints_run _ _ _ h Ev)), with_store_id.
    destruct (write_run (base + o) (frags (StoredValue v) (Z.to_nat sizeof_Value)) h) as (m1 & E1 & Hc1 & Hout1 & Hdom1).
    { rewrite frags_length. intros x Hx. apply Hown. lia. }
    unfold store_value. rewrite (st_bind_run _ _ _ _ _ E1). rewrite frags_length, Z2Nat.id in Hout1 by lia.
    destruct (IH (o + sizeof_Value) hi (addrs ++ [base + o]) (with_mem m1 h) Hch) as (m2 & E2 & Hout2 & Hdom2 & Hin2).
    { intros x Hx. apply Hdom1, Hown. lia. }
    { rewrite length_app. cbn [length]. lia. }
    exists m2. split; [rewrite E2, <-app_assoc; done|]. split; [|split].
    + intros x Hx. rewrite Hout2 by lia. apply Hout1. lia.
    + intros x Hx. by apply Hdom2, Hdom1.
    + intros o' t' [Heq|Hin]%elem_of_cons.
      * injection Heq as -> ->. rewrite Ep. exists v. split; [done|].
        apply (cells_at_same (base + (o + sizeof_Value)) (hi - (o + sizeof_Value)) m1); [done| |done].
        rewrite frags_length. lia.
      * specialize (Hin2 o' t' Hin). destruct (yt_packs_asValue t'); [done|]. intros x Hx. rewrite Hin2 by done.
        apply Hout1. apply list_elem_of_lookup in Hin as [i Hi].
        destruct (chain_lookup _ _ _ _ _ _ Hch Hi) as (? & ? & _). lia.
  - destruct (IH (o + sizes t) hi addrs h Hch) as (m2 & E2 & Hout2 & Hdom2 & Hin2).
    { intros x Hx. apply Hown. lia. }
    { done. }
    exists m2. split; [done|]. split; [|split; [done|]].
    + intros x Hx. apply Hout2. lia.
    + intros o' t' [Heq|Hin]%elem_of_cons; [|by apply Hin2].
      injection Heq as -> ->. rewrite Ep. intros x Hx. apply Hout2. lia.
Qed.

Lemma addr_of_length base l : length (addr_of base l) = length (List.filter (λ e, yt_packs_asValue e.2) l).
Proof. unfold addr_of. by rewrite length_fmap. Qed.

Lemma newPackedStorage_run type h :
  at_type True wf_type type → sizes type < 2 ^ size_bits →
  let l := yt_flatten_types 0 type in
  ∃ q m', newPackedStorage type h =
      Some (q, mkHeap m' (brk h + sizes type) (containers h)
                 (<[q := mkStorage (brk h) (sizes type) (addr_of (brk h) l)]> (storages h)) (ints h)) ∧
    storages h !! q = None ∧ same_outside (brk h) (sizes type) (mem h) m' ∧ owned m' (brk h) (sizes type) ∧
    initialised (brk h) (clear (brk h) (Z.to_nat (sizes type)) (mem h)) l m'.
Proof.
  intros Hwf Hb l.
  destruct (flatten_at_ok (λ _, 1) type ltac:(lia) Hwf Hb) as [Hc H1]. rewrite weigh_one in H1.
  destruct (flatten_at_ok (λ t, if yt_packs_asValue t then 1 else 0) type) as [_ H2];
    [intros t; destruct (yt_packs_asValue t); lia|done|done|]. rewrite weigh_filter in H2. fold l in Hc, H1, H2.
  pose proof (chain_le _ _ _ Hc) as Hsz.
  assert (length (List.filter (λ e, yt_packs_asValue e.2) l) <= length l)%nat as Hle by apply List.filter_length_le.
  unfold newPackedStorage. set (h1 := mkHeap (clear (brk h) (Z.to_nat (sizes type)) (mem h))
    (brk h + Z.of_nat (Z.to_nat (sizes type))) (containers h) (storages h) (ints h)).
  rewrite (st_bind_run _ _ _ (brk h) h1) by done.
  fold (yt_packable_element_count type) in H1. fold (yt_packable_value_element_count type) in H2. fold l.
  rewrite <-H1, <-H2.
  rewrite (st_bind_run _ _ _ () h1) by (apply st_assert_run, Z.eqb_refl).
  rewrite (st_bind_run _ _ _ () h1) by (apply st_assert_run, Z.leb_le; lia).
  destruct (init_values_run (brk h) (Z.of_nat (length (List.filter (λ e, yt_packs_asValue e.2) l))) l 0 (sizes type) [] h1 Hc)
    as (m' & E & Hout & Hdom & Hin).
  { intros x Hx. simpl. rewrite clear_lookup, decide_True by lia. by eexists. }
  { rewrite addr_of_length. simpl. lia. }
  rewrite (st_bind_run _ _ _ _ _ E).
  exists (fresh (dom (storages h))), m'. split; [|split; [apply not_elem_of_dom, is_fresh|]].
  { unfold new_storage. simpl. rewrite Z2Nat.id by lia. done. }
  split; [|split; [|done]].
  - intros x Hx. rewrite Hout by lia. simpl. rewrite clear_lookup, decide_False; [done|lia].
  - intros x Hx. apply Hdom. simpl. rewrite clear_lookup, decide_True by lia. by eexists.
Qed.

(** The value that a new element reads as. *)
Definition default_element (t : option YargType) (v : Value) : Prop :=
  match t with
  | Some (Simple (Num n)) => v = NUM_VAL n 0
  | Some (Simple Dbl) => v = DOUBLE_VAL (S754_zero false)
  | _ => is_default t v
  end.

Lemma zero_read (m : memory) a n :
  (∀ x, a ≤ x < a + Z.of_nat n → m !! x = Some (Byte 0)) → cells_at m a (replicate n (Byte 0)).
Proof. intros H i c [-> Hi]%lookup_replicate_1. apply H. lia. Qed.

Lemma element_default c t o h (m : memory) :
  cell_like t = true →
  (if yt_packs_asValue t
   then ∃ v, is_default t v ∧ cells_at (mem h) (loc c + o) (frags (StoredValue v) (Z.to_nat sizeof_Value))
   else ∀ x, loc c + o ≤ x < loc c + o + sizes t → mem h !! x = m !! x) →
  (∀ x, loc c + o ≤ x < loc c + o + sizes t → m !! x = Some (Byte 0)) →
  ∃ v, containerElement c t o h = Some (v, h) ∧ default_element t v.
Proof.
  intros Hc Hi Hz. destruct (yt_packs_asValue t) eqn:Ep.
  - destruct Hi as (v & Hv & Hm). exists v. split.
    + apply element_decode; [done| |]; destruct t as [[[]| | | |]|]; try done; by destruct n.
    + destruct t as [[[]| | | |]|]; try done; by destruct n.
  - destruct (cell_like_place t Hc) as [E1 E2]. unfold containerElement. rewrite E1, E2.
    assert (∀ n, Z.of_nat n = sizes t → read (loc c + o) n h = Some (replicate n (Byte 0), h)) as Hr.
    { intros n Hn. pose proof (read_run (loc c + o) (replicate n (Byte 0)) h) as Hr. rewrite length_replicate in Hr.
      apply Hr, zero_read. intros x Hx. rewrite Hi by lia. apply Hz. lia. }
    destruct t as [[[]| | | |]|]; try done; unfold getPlacedValue; rewrite E2.
    + exists (DOUBLE_VAL (S754_zero false)). split; [|done]. by rewrite (st_bind_run _ _ _ _ _ (Hr 8%nat eq_refl)).
    + exists (NUM_VAL n 0). split; [|done]. unfold load_num.
      assert (load_num n (loc c + o) h = Some (0, h)) as HL; [|by rewrite (st_bind_run _ _ _ _ _ HL)].
      unfold load_num. rewrite (st_bind_run _ _ _ _ _ (Hr (Z.to_nat (num_size n)) ltac:(by destruct n))). by destruct n.
Qed.

(** A new container. *)
Lemma newPackedValueContainer_run type h :
  at_type True wf_type type → sizes type < 2 ^ size_bits →
  ∃ q c h', newPackedValueContainer type h = Some (Some q, h') ∧ containers h !! q = None ∧ containers h' !! q = Some c ∧
    owned (mem h') (loc c) (sizes type) ∧ same_outside (loc c) (sizes type) (mem h) (mem h') ∧ loc c = brk h ∧
    brk h' = loc c + sizes type ∧ ints h' = ints h ∧
    (∀ q', is_Some (containers h !! q') → containers h' !! q' = containers h !! q') ∧
    ∀ o t, (o, t) ∈ yt_flatten_types 0 type → cell_like t = true →
      ∃ v, containerElement c t o h' = Some (v, h') ∧ default_element t v.
Proof.
  intros Hwf Hb. destruct (newPackedStorage_run type h Hwf Hb) as (s & m' & E & Hs & Hout & Hown & Hin).
  destruct (flatten_at_ok (λ _, 1) type ltac:(lia) Hwf Hb) as [Hc _].
  unfold newPackedValueContainer. rewrite (st_bind_run _ _ _ _ _ E).
  erewrite st_bind_run by done. erewrite st_bind_run.
  2:{ apply of_opt_run. apply lookup_insert_eq. }
  erewrite st_bind_run by done. eexists _, _, _. split; [done|]. split; [apply not_elem_of_dom, is_fresh|].
  split; [apply lookup_insert_eq|]. simpl. split; [done|]. split; [done|]. split; [done|]. split; [done|]. split; [done|]. split.
  { intros q' [x Hx]. apply lookup_insert_ne. intros <-. apply (is_fresh (dom (containers h))), elem_of_dom. by exists x. }
  intros o t Hot Hcl. apply (element_default _ t o _ (clear (brk h) (Z.to_nat (sizes type)) (mem h)) Hcl).
  - by apply Hin.
  - intros x Hx. simpl in Hx. apply list_elem_of_lookup in Hot as [i Hi].
    destruct (chain_lookup _ _ _ _ _ _ Hc Hi) as (H1 & H2 & H3). rewrite clear_lookup, decide_True; [done|]. lia.
Qed.

End Storage.

(** ** Instances *)

(** Three structs of a [uint8] and an untyped field. *)
Definition pairs : option YargType := Some (Array 9 3 (Some (Struct 1 pair_type))).
Definition empty_heap : Heap := mkHeap ∅ 4096 ∅ ∅ ∅.

Lemma pairs_wf : at_type True (@wf_type LP64) pairs ∧ @yt_sizeof_type_storage LP64 pairs < 2 ^ @size_bits LP64.
Proof. split; vm_compute; repeat split; discriminate. Qed.

Lemma flatten_sound_witness :
  let l := @yt_flatten_types LP64 0 pairs in
  Z.of_nat (length l) = @yt_packable_element_count LP64 pairs ∧
  Z.of_nat (length (List.filter (λ e, yt_packs_asValue e.2) l)) = @yt_packable_value_element_count LP64 pairs ∧
  (∀ i a t, l !! i = Some (a, t) → scalar t = true ∧ 0 ≤ a ∧
     a + @yt_sizeof_type_storage LP64 t ≤ @yt_sizeof_type_storage LP64 pairs) ∧
  (∀ i j a t a' t', (i < j)%nat → l !! i = Some (a, t) → l !! j = Some (a', t') → a + @yt_sizeof_type_storage LP64 t ≤ a').
Proof. apply (@flatten_sound LP64 pairs); apply pairs_wf. Defined.

