(* ===== verification/Channel.v ===== *)
(** * Channels and sync groups

    [cyarg/channel.c] and [sync_group.c]: the ring buffer of a channel, the
    critical sections of its operations, and the operations as threads that
    take one atomic step at a time, with the two ways the code waits: busy
    waiting on the counter ([CYARG_PICO_BUSY_SYNC]) and a semaphore
    ([CYARG_PTHREADS_SYNC]).  [vm_mutex] is a lock that its holder cannot
    enter again.  What a channel carries is a parameter. *)
From S2P Require Export YargType.
Open Scope Z_scope.

Section Channel.
Context `{TG : Target} {V : Type}.
Variable nil : V.
Variable is_nil : V → bool.

Record Channel := mkChannel {
  overflow : bool;
  writeCursor : Z;
  buffer : list V;
  bufferSize : Z;
  occupied : Z
}.

Definition newChannel (capacity : Z) : Channel :=
  mkChannel false 0 (replicate (Z.to_nat capacity) nil) capacity 0.

Definition set_overflow (b : bool) (c : Channel) : Channel :=
  mkChannel b (writeCursor c) (buffer c) (bufferSize c) (occupied c).
Definition set_occupied (n : Z) (c : Channel) : Channel :=
  mkChannel (overflow c) (writeCursor c) (buffer c) (bufferSize c) n.

(** The statements of the critical sections; an access outside the buffer and
    a remainder by zero are undefined behaviour. *)
Definition store_datum (d : V) (c : Channel) : option Channel :=
  if writeCursor c <? Z.of_nat (length (buffer c))
  then Some (mkChannel (overflow c) (writeCursor c) (<[Z.to_nat (writeCursor c) := d]> (buffer c)) (bufferSize c) (occupied c))
  else None.
Definition count_up (c : Channel) : Channel := set_occupied (usize (occupied c + 1)) c.
Definition count_down (c : Channel) : Channel := set_occupied (usize (occupied c - 1)) c.
Definition advance_cursor (c : Channel) : option Channel :=
  if bufferSize c =? 0 then None
  else Some (mkChannel (overflow c) (usize (writeCursor c + 1) mod bufferSize c) (buffer c) (bufferSize c) (occupied c)).

Definition readCursor (c : Channel) : option Z :=
  if bufferSize c =? 0 then None else Some (usize (writeCursor c + bufferSize c - occupied c) mod bufferSize c).
Definition read_datum (c : Channel) : option V := cursor ← readCursor c; buffer c !! Z.to_nat cursor.

(** ** The critical sections *)
Definition send_section (d : V) (c : Channel) : option Channel :=
  c ← store_datum d c; c ← advance_cursor (count_up c); Some (set_overflow false c).

Definition collectFromChannel (c : Channel) : option (V * Channel) :=
  result ← read_datum c; Some (result, set_overflow false (count_down c)).

Definition shareChannel (d : V) (c : Channel) : option (bool * Channel) :=
  c ← store_datum d c;
  c ← advance_cursor (count_up c);
  let c := if bufferSize c <? occupied c then set_occupied (bufferSize c) (set_overflow true c) else c in
  Some (overflow c, c).

(** [peekChannel] takes no lock. *)
Definition peekChannel (c : Channel) : option V :=
  if 0 <? occupied c then read_datum c else Some nil.

(** ** Threads

    A thread that executes [sendChannel] for one datum after the other, or
    [receiveChannel] again and again; the constructors are the places between
    two atomic actions. *)
Inductive SendPC := SWait | SEnter | SStore | SCount | SAdvance | SClear | SLeave | SPost.
Inductive RecvPC := RWait | REnter | RRead | RCount (result : V) | RClear (result : V) | RLeave (result : V).
Inductive Thread :=
  | Sender (pc : SendPC) (todo : list V)
  | Receiver (pc : RecvPC) (got : list V).

Record World := mkWorld { chan : Channel; lock : option nat; access : Z; threads : list Thread }.

Inductive Moved := Moves (w : World) | Stalls | Undefined.

(** [busy]: the build with busy waiting. *)
Variable busy : bool.

Section Move.
Variables (i : nat) (w : World).

Definition goes (t : Thread) (c : Channel) (l : option nat) (s : Z) : Moved :=
  Moves (mkWorld c l s (<[i := t]> (threads w))).
Definition with_channel (t : Thread) (c : option Channel) : Moved :=
  match c with Some c => goes t c (lock w) (access w) | None => Undefined end.

(** [channelMutexEnter] *)
Definition enters (t : Thread) : Moved :=
  match lock w with None => goes t (chan w) (Some i) (access w) | Some _ => Stalls end.

(** [sendChannel], for the first datum of [todo]. *)
Definition sendChannel (pc : SendPC) (d : V) (todo : list V) : Moved :=
  let c := chan w in
  let at_ pc := Sender pc (d :: todo) in
  match pc with
  | SWait => if busy && (occupied c =? bufferSize c) then Stalls else goes (at_ SEnter) c (lock w) (access w)
  | SEnter => enters (at_ SStore)
  | SStore => with_channel (at_ SCount) (store_datum d c)
  | SCount => goes (at_ SAdvance) (count_up c) (lock w) (access w)
  | SAdvance => with_channel (at_ SClear) (advance_cursor c)
  | SClear => goes (at_ SLeave) (set_overflow false c) (lock w) (access w)
  | SLeave => goes (if busy then Sender SWait todo else at_ SPost) c None (access w)
  | SPost => goes (Sender SWait todo) c (lock w) (access w + 1)
  end.

Definition receiveChannel (pc : RecvPC) (got : list V) : Moved :=
  let c := chan w in
  let at_ pc := Receiver pc got in
  match pc with
  | RWait =>
      if busy then if occupied c =? 0 then Stalls else goes (at_ REnter) c (lock w) (access w)
      else if 0 <? access w then goes (at_ REnter) c (lock w) (access w - 1) else Stalls
  | REnter => enters (at_ RRead)
  | RRead => match read_datum c with Some v => goes (at_ (RCount v)) c (lock w) (access w) | None => Undefined end
  | RCount v => goes (at_ (RClear v)) (count_down c) (lock w) (access w)
  | RClear v => goes (at_ (RLeave v)) (set_overflow false c) (lock w) (access w)
  | RLeave v => goes (Receiver RWait (got ++ [v])) c None (access w)
  end.

(** The next action of thread [i]. *)
Definition move : Moved :=
  match threads w !! i with
  | Some (Sender pc (d :: todo)) => sendChannel pc d todo
  | Some (Receiver pc got) => receiveChannel pc got
  | _ => Stalls
  end.
End Move.

(** A schedule names the thread of each step; a thread that waits lets it
    pass. *)
Fixpoint run (schedule : list nat) (w : World) : option World :=
  match schedule with
  | [] => Some w
  | i :: schedule' =>
      match move i w with
      | Moves w' => run schedule' w'
      | Stalls => run schedule' w
      | Undefined => None
      end
  end.
End Channel.

(** ** Sync groups *)
Section SyncGroup.
Context `{TG : Target} {V : Type}.
Variable nil : V.
Variable is_nil : V → bool.

(** Channels are objects: an array may hold one twice. *)
Abbreviation chanptr := positive.
Abbreviation channels := (gmap positive (Channel (V := V))).

(** One element of the loop of [receiveSyncGroup]. *)
Definition group_item (item : option chanptr) (s : channels) : option (V * channels) :=
  match item with
  | None => Some (nil, s)
  | Some p =>
      c ← s !! p;
      data ← peekChannel nil c;
      if is_nil data then Some (data, s)
      else '(data, c) ← collectFromChannel c; Some (data, <[p := c]> s)
  end.

(** The loop over the channels: the data, and [wait_complete]. *)
Fixpoint sweep (items : list (option chanptr)) (s : channels) : option (list V * bool * channels) :=
  match items with
  | [] => Some ([], false, s)
  | item :: items' =>
      '(data, s) ← group_item item s;
      '(rest, complete, s) ← sweep items' s;
      Some (data :: rest, negb (is_nil data) || complete, s)
  end.

(** [fuel] sweeps with nobody else at work; an inner [None] is a group that
    still waits.  [result] is the result array as the last call left it. *)
Fixpoint receiveSyncGroup (fuel : nat) (items : list (option chanptr)) (result : list V) (s : channels)
    : option (option (list V) * channels) :=
  match items with
  | [] => Some (Some result, s)
  | _ =>
      match fuel with
      | O => Some (None, s)
      | S fuel' =>
          '(result, complete, s) ← sweep items s;
          if (complete : bool) then Some (Some result, s) else receiveSyncGroup fuel' items result s
      end
  end.
End SyncGroup.
