(* ===== verification/ChannelSpec.v ===== *)
(** * Channels: the queue they are, and what threads can do to it *)
From S2P Require Export Channel YargTypeSpec.
Open Scope Z_scope.

Section Queue.
Context `{TG : Target} {V : Type}.
Variable nil : V.
Abbreviation Channel := (Channel (V := V)).

(** ** The ring buffer *)

(** The place of the [k]-th of [len] elements. *)
Definition ring (w n len k : Z) : Z := (w + n - len + k) mod n.

(** The buffer of [n] slots holds [q], the oldest first, up to the write
    cursor. *)
Record holds_queue (n : Z) (c : Channel) (q : list V) : Prop := {
  hq_n : 1 ≤ n ∧ 2 * n < 2 ^ size_bits;
  hq_size : bufferSize c = n;
  hq_len : Z.of_nat (length (buffer c)) = n;
  hq_cursor : 0 ≤ writeCursor c < n;
  hq_full : Z.of_nat (length q) ≤ n;
  hq_data : ∀ k v, q !! k = Some v → buffer c !! Z.to_nat (ring (writeCursor c) n (Z.of_nat (length q)) (Z.of_nat k)) = Some v
}.
(** A channel between two operations. *)
Definition is_queue (n : Z) (c : Channel) (q : list V) : Prop :=
  holds_queue n c q ∧ occupied c = Z.of_nat (length q).

Lemma ring_range w n len k : 1 ≤ n → 0 ≤ ring w n len k < n.
Proof. intros Hn. apply Z.mod_pos_bound. lia. Qed.

(** The slot at the write cursor is none of a queue that is not full. *)
Lemma ring_free w n len k : 0 ≤ w < n → 0 ≤ k < len → len < n → ring w n len k ≠ w.
Proof.
  intros Hw Hk Hl. unfold ring. destruct (Z.lt_ge_cases (w - len + k) 0).
  - replace (w + n - len + k) with (w - len + k + n) by lia. rewrite Z.mod_small by lia. lia.
  - replace (w + n - len + k) with (w - len + k + 1 * n) by lia. rewrite Z.mod_add, Z.mod_small by lia. lia.
Qed.

Lemma ring_advance w n len k : 1 ≤ n → ring ((w + 1) mod n) n (len + 1) k = ring w n len k.
Proof.
  intros Hn. unfold ring. replace ((w + 1) mod n + n - (len + 1) + k) with ((w + 1) mod n + (n - (len + 1) + k)) by lia.
  rewrite Zplus_mod_idemp_l. f_equal. lia.
Qed.

Lemma ring_shift w n len k : ring w n len (k + 1) = ring w n (len - 1) k.
Proof. unfold ring. f_equal. lia. Qed.

Lemma ring_last w n len : 0 ≤ w < n → ring ((w + 1) mod n) n (len + 1) len = w.
Proof. intros Hw. rewrite ring_advance by lia. unfold ring. replace (w + n - len + len) with (w + 1 * n) by lia. rewrite Z.mod_add, Z.mod_small; lia. Qed.

Lemma usize_range x : 0 ≤ x < 2 ^ size_bits → usize x = x.
Proof. intros. by apply Z.mod_small. Qed.

(** Only cursor, size and buffer matter. *)
Lemma holds_queue_ext n c c' q :
  writeCursor c' = writeCursor c → bufferSize c' = bufferSize c → buffer c' = buffer c → holds_queue n c q → holds_queue n c' q.
Proof. intros E1 E2 E3 []. split; rewrite ?E1, ?E2, ?E3; done. Qed.

Lemma store_run n c q d :
  holds_queue n c q → Z.of_nat (length q) < n →
  ∃ c', store_datum d c = Some c' ∧ holds_queue n c' q ∧ buffer c' !! Z.to_nat (writeCursor c') = Some d ∧
    occupied c' = occupied c.
Proof.
  intros [Hn Hs Hl Hc Hf Hd] Hlt. unfold store_datum. rewrite Hl, (proj2 (Z.ltb_lt _ _)) by lia.
  eexists. split; [done|]. split; [|split; [apply list_lookup_insert_eq; lia|done]].
  split; simpl; try done; [by rewrite length_insert|].
  intros k v Hk. pose proof (lookup_lt_Some _ _ _ Hk).
  pose proof (ring_free (writeCursor c) n (Z.of_nat (length q)) (Z.of_nat k) Hc ltac:(lia) Hlt).
  pose proof (ring_range (writeCursor c) n (Z.of_nat (length q)) (Z.of_nat k) ltac:(lia)).
  rewrite list_lookup_insert_ne by lia. by apply Hd.
Qed.

Lemma ring_advance_run n c q d :
  holds_queue n c q → Z.of_nat (length q) < n → buffer c !! Z.to_nat (writeCursor c) = Some d →
  ∃ c', advance_cursor c = Some c' ∧ holds_queue n c' (q ++ [d]) ∧ occupied c' = occupied c.
Proof.
  intros [Hn Hs Hl Hc Hf Hd] Hlt Hw. unfold advance_cursor. rewrite Hs, (proj2 (Z.eqb_neq _ _)) by lia.
  rewrite usize_range by lia. eexists. split; [done|]. split; [|done].
  pose proof (Z.mod_pos_bound (writeCursor c + 1) n ltac:(lia)).
  split; simpl; try done; rewrite ?length_app; [simpl; lia|].
  intros k v Hk. rewrite Nat2Z.inj_add. change (Z.of_nat (length [d])) with 1. apply lookup_app_Some in Hk as [Hk|[Hge Hk]].
  - rewrite ring_advance by lia. by apply Hd.
  - apply list_lookup_singleton_Some in Hk as [Hk <-]. replace k with (length q) by lia. rewrite ring_last by lia. done.
Qed.

Lemma ring_read_run n c v q :
  holds_queue n c (v :: q) → occupied c = Z.of_nat (length (v :: q)) → read_datum c = Some v.
Proof.
  intros [Hn Hs Hl Hc Hf Hd] Ho. unfold read_datum, readCursor. rewrite Hs, (proj2 (Z.eqb_neq _ _)) by lia.
  cbn [mbind option_bind]. rewrite usize_range by (simpl in *; lia). specialize (Hd 0%nat v eq_refl). unfold ring in Hd.
  rewrite Ho. by rewrite Z.add_0_r in Hd.
Qed.

Lemma pop_queue n c v q : holds_queue n c (v :: q) → holds_queue n c q.
Proof.
  intros [Hn Hs Hl Hc Hf Hd]. split; try done; [simpl in Hf; lia|].
  intros k u Hk. specialize (Hd (S k) u Hk). cbn [length] in Hd. rewrite !Nat2Z.inj_succ in Hd.
  rewrite <-!Z.add_1_r, ring_shift in Hd. by replace (Z.of_nat (length q) + 1 - 1) with (Z.of_nat (length q)) in Hd by lia.
Qed.

Lemma count_up_run n c q : holds_queue n c q → occupied c = Z.of_nat (length q) → occupied (count_up c) = Z.of_nat (length q) + 1.
Proof. intros [Hn _ _ _ Hf _] Ho. unfold count_up. simpl. rewrite Ho. apply usize_range. lia. Qed.
Lemma count_down_run n c v q :
  holds_queue n c (v :: q) → occupied c = Z.of_nat (length (v :: q)) → occupied (count_down c) = Z.of_nat (length q).
Proof. intros [Hn _ _ _ Hf _] Ho. unfold count_down. simpl. rewrite Ho. simpl in *. rewrite usize_range; lia. Qed.

Lemma new_queue n : 1 ≤ n → 2 * n < 2 ^ size_bits → is_queue n (newChannel nil n) [].
Proof.
  intros H1 H2. split; [|done]. split; simpl; try done; try lia. rewrite length_replicate. lia.
Qed.

(** The critical section of a send, with a queue that is not full; a queue
    that is full loses its oldest element to the slot that is overwritten. *)
Lemma send_section_run n c q d :
  is_queue n c q → Z.of_nat (length q) < n → ∃ c', send_section d c = Some c' ∧ is_queue n c' (q ++ [d]) ∧ overflow c' = false.
Proof.
  intros [H Ho] Hlt. unfold send_section. destruct (store_run n c q d H Hlt) as (c1 & -> & H1 & Hw & Ho1). cbn [mbind option_bind].
  rewrite Ho in Ho1. pose proof (count_up_run n c1 q H1 Ho1) as Hup.
  assert (holds_queue n (count_up c1) q) as H2 by by apply (holds_queue_ext n c1).
  destruct (ring_advance_run n (count_up c1) q d H2 Hlt Hw) as (c3 & -> & H3 & Ho3). cbn [mbind option_bind].
  eexists. split; [done|]. split; [|done]. split; [by apply (holds_queue_ext n c3)|].
  simpl. rewrite Ho3, Hup, length_app. simpl. lia.
Qed.

Lemma collect_run n c v q :
  is_queue n c (v :: q) → ∃ c', collectFromChannel c = Some (v, c') ∧ is_queue n c' q ∧ overflow c' = false.
Proof.
  intros [H Ho]. unfold collectFromChannel. rewrite (ring_read_run n c v q H Ho). cbn [mbind option_bind].
  eexists. split; [done|]. split; [|done]. split; [|by apply (count_down_run n c v)].
  apply (holds_queue_ext n c); try done. by apply (pop_queue n c v).
Qed.

Lemma share_run n c q d :
  is_queue n c q → (overflow c = true → Z.of_nat (length q) = n) →
  ∃ c', shareChannel d c = Some (overflow c', c') ∧
    is_queue n c' (if Z.of_nat (length q) =? n then tail q ++ [d] else q ++ [d]) ∧
    overflow c' = (Z.of_nat (length q) =? n).
Proof.
  intros [H Ho] Hov. pose proof H as [Hn _ _ Hc Hf _]. unfold shareChannel.
  destruct (Z.eqb_spec (Z.of_nat (length q)) n) as [Hfull|Hlt].
  - destruct q as [|v q]; [simpl in *; lia|].
    pose proof (pop_queue n c v q H) as Hp. simpl in Hfull.
    destruct (store_run n c q d Hp) as (c1 & -> & H1 & Hw & Ho1); [lia|]. cbn [mbind option_bind].
    assert (holds_queue n (count_up c1) q) as H2 by by apply (holds_queue_ext n c1).
    destruct (ring_advance_run n (count_up c1) q d H2) as (c3 & -> & H3 & Ho3); [lia|done|]. cbn [mbind option_bind tail].
    pose proof (hq_size _ _ _ H3) as Hs3.
    assert (occupied c3 = n + 1) as Hoc.
    { rewrite Ho3. simpl. rewrite Ho1, Ho. cbn [length]. rewrite usize_range by lia. lia. }
    rewrite Hoc, Hs3, (proj2 (Z.ltb_lt _ _)) by lia.
    eexists. split; [done|]. split; [|done]. split; [by apply (holds_queue_ext n c3)|]. simpl. rewrite length_app. simpl. lia.
  - destruct (store_run n c q d H) as (c1 & E1 & H1 & Hw & Ho1); [lia|]. rewrite E1. cbn [mbind option_bind].
    assert (overflow c1 = overflow c) as Hov1 by (unfold store_datum in E1; case_match; [by injection E1 as <-|done]).
    rewrite Ho in Ho1. pose proof (count_up_run n c1 q H1 Ho1) as Hup.
    assert (holds_queue n (count_up c1) q) as H2 by by apply (holds_queue_ext n c1).
    destruct (ring_advance_run n (count_up c1) q d H2) as (c3 & E3 & H3 & Ho3); [lia|done|]. rewrite E3. cbn [mbind option_bind].
    assert (overflow c3 = overflow c1) as Hov3 by (unfold advance_cursor in E3; case_match; [done|by injection E3 as <-]).
    pose proof (hq_size _ _ _ H3) as Hs3. rewrite Ho3, Hup, Hs3, (proj2 (Z.ltb_ge _ _)) by lia.
    exists c3. split; [done|]. split; [split; [done|]|].
    + rewrite Ho3, Hup, length_app. simpl. lia.
    + rewrite Hov3, Hov1. destruct (overflow c); [|done]. by specialize (Hov eq_refl).
Qed.

Lemma ring_peek_run n c q : is_queue n c q → peekChannel nil c = Some (default nil (head q)).
Proof.
  intros [H Ho]. unfold peekChannel. destruct q as [|v q].
  - by rewrite Ho.
  - rewrite Ho, (proj2 (Z.ltb_lt _ _)) by (simpl; lia). by rewrite (ring_read_run n c v q H Ho).
Qed.
End Queue.

(** ** One sender, one receiver, busy waiting *)
Section Pair.
Context `{TG : Target} {V : Type}.
Variable nil : V.
Variable n : Z.
(** All that is ever sent. *)
Variable ds : list V.

(** The sender holds the lock. *)
Definition s_locked (pc : SendPC) : bool := match pc with SStore | SCount | SAdvance | SClear | SLeave => true | _ => false end.
Definition r_locked (pc : RecvPC (V := V)) : bool := match pc with RWait | REnter => false | _ => true end.

(** The counter ahead of the queue, while a datum is put in. *)
Definition ahead (spc : SendPC) : Z := match spc with SAdvance => 1 | _ => 0 end.
(** What the sender has still to put into the queue, and what the receiver has
    taken out and not returned yet. *)
Definition pending (spc : SendPC) (todo : list V) : list V :=
  match spc with SClear | SLeave => tail todo | _ => todo end.
Definition in_hand (rpc : RecvPC (V := V)) : list V := match rpc with RClear v | RLeave v => [v] | _ => [] end.

Record pair_inv (spc : SendPC) (todo : list V) (rpc : RecvPC) (got : list V) (w : World) (q : list V) : Prop := {
  pi_threads : threads w = [Sender spc todo; Receiver rpc got];
  pi_queue : holds_queue n (chan w) q;
  pi_count : occupied (chan w) = Z.of_nat (length q) + ahead spc;
  pi_lock : lock w = if s_locked spc then Some 0%nat else if r_locked rpc then Some 1%nat else None;
  pi_excl : s_locked spc = true → r_locked rpc = false;
  pi_room : match spc with SEnter | SStore | SCount | SAdvance => Z.of_nat (length q) < n | _ => True end;
  pi_datum : match spc with SCount | SAdvance => buffer (chan w) !! Z.to_nat (writeCursor (chan w)) = head todo | _ => True end;
  pi_busy : match spc with SWait => True | SPost => False | _ => todo ≠ [] end;
  pi_data : match rpc with REnter => q ≠ [] ∨ spc = SAdvance | RRead => q ≠ [] | RCount v => head q = Some v | _ => True end;
  pi_all : ds = got ++ in_hand rpc ++ q ++ pending spc todo
}.

(** The steps left: none is taken in vain. *)
Definition s_left (pc : SendPC) : nat :=
  match pc with SWait => 7 | SEnter => 6 | SStore => 5 | SCount => 4 | SAdvance => 3 | SClear => 2 | SLeave => 1 | SPost => 0 end.
Definition r_left (pc : RecvPC (V := V)) : nat :=
  match pc with RWait => 6 | REnter => 5 | RRead => 4 | RCount _ => 3 | RClear _ => 2 | RLeave _ => 1 end.
Definition work (spc : SendPC) (todo : list V) (rpc : RecvPC (V := V)) (got : list V) : nat :=
  match todo with [] => 0 | _ :: todo' => s_left spc + 7 * length todo' end + (r_left rpc + 6 * (length ds - length got)).

Ltac fields H := destruct H as [Hth Hq Hcnt Hlk Hex Hroom Hdat Hbusy Hrd Hall]; simpl in Hex, Hroom, Hdat, Hbusy, Hrd.

Ltac shorter := unfold work; cbn [s_left r_left length]; lia.

Ltac keeps_data Hrd := match goal with rpc : RecvPC |- _ => destruct rpc; try done; destruct Hrd; [by left|done] end.

(** What a move of one of the threads does. *)
Lemma sender_moves spc d todo rpc got w q :
  pair_inv spc (d :: todo) rpc got w q →
  match sendChannel true 0 w spc d todo with
  | Moves w' => ∃ spc' todo' q', pair_inv spc' todo' rpc got w' q' ∧ (work spc' todo' rpc got < work spc (d :: todo) rpc got)%nat
  | Stalls => (spc = SWait ∧ Z.of_nat (length q) = n) ∨ (spc = SEnter ∧ r_locked rpc = true)
  | Undefined => False
  end.
Proof.
  intros H. fields H. pose proof (hq_size _ _ _ Hq) as Hs'. pose proof (hq_full _ _ _ Hq) as Hf'. destruct spc; cbn [sendChannel andb].
  - rewrite Hcnt, Hs'. cbn [ahead]. rewrite Z.add_0_r. destruct (Z.eqb_spec (Z.of_nat (length q)) n); [by left|].
    exists SEnter, (d :: todo), q. split; [|shorter].
    split; simpl; rewrite ?Hth; try done; [lia|keeps_data Hrd].
  - unfold enters. rewrite Hlk. cbn [s_locked]. destruct (r_locked rpc) eqn:Er; [by right|].
    exists SStore, (d :: todo), q. split; [|shorter]. split; simpl; rewrite ?Hth; try done.
    keeps_data Hrd.
  - destruct (store_run n (chan w) q d Hq Hroom) as (c & -> & H1 & Hw & Ho). cbn [with_channel].
    exists SCount, (d :: todo), q. split; [|shorter]. split; simpl; rewrite ?Hth; try done.
    + by rewrite Ho.
    + keeps_data Hrd.
  - assert (occupied (chan w) = Z.of_nat (length q)) as Ho by (simpl in Hcnt; lia).
    pose proof (count_up_run n (chan w) q Hq Ho) as Hup.
    exists SAdvance, (d :: todo), q. split; [|shorter]. split; cbn [threads chan lock]; rewrite ?Hth; try done.
    + by apply (holds_queue_ext n (chan w)).
    + destruct rpc; try done. by right.
  - destruct (ring_advance_run n (chan w) q d Hq Hroom Hdat) as (c & -> & H1 & Ho). cbn [with_channel].
    exists SClear, (d :: todo), (q ++ [d]). split; [|shorter]. split; cbn [threads chan lock]; rewrite ?Hth; try done.
    + rewrite Ho, Hcnt, length_app. simpl. lia.
    + destruct rpc; try done; [left; by destruct q|by specialize (Hex eq_refl)..].
    + rewrite Hall. simpl. by rewrite <-!app_assoc.
  - exists SLeave, (d :: todo), q. split; [|shorter]. split; simpl; rewrite ?Hth; try done.
    + by apply (holds_queue_ext n (chan w)).
    + keeps_data Hrd.
  - exists SWait, todo, q. split; [|destruct todo; shorter]. split; simpl; rewrite ?Hth; try done.
    + rewrite (Hex eq_refl). done.
    + keeps_data Hrd.
  - done.
Qed.

Lemma receiver_moves spc todo rpc got w q :
  pair_inv spc todo rpc got w q →
  match receiveChannel true 1 w rpc got with
  | Moves w' => ∃ rpc' got' q', pair_inv spc todo rpc' got' w' q' ∧ (work spc todo rpc' got' < work spc todo rpc got)%nat
  | Stalls => (rpc = RWait ∧ q = [] ∧ ahead spc = 0) ∨ (rpc = REnter ∧ s_locked spc = true)
  | Undefined => False
  end.
Proof.
  intros H. fields H. destruct rpc as [| | |v|v|v]; cbn [receiveChannel].
  - rewrite Hcnt. destruct (Z.eqb_spec (Z.of_nat (length q) + ahead spc) 0) as [E|E].
    { left. split; [done|]. destruct q; [|simpl in E; destruct spc; simpl in E; lia]. split; [done|]. simpl in E. lia. }
    exists REnter, got, q. split; [|shorter]. split; simpl; rewrite ?Hth; try done.
    destruct q as [|v q]; [|by left]. right. by destruct spc.
  - unfold enters. rewrite Hlk. destruct (s_locked spc) eqn:Es; cbn [r_locked]; [by right|].
    exists RRead, got, q. split; [|shorter]. split; simpl; rewrite ?Hth; try done; [by rewrite Es|by rewrite Es|].
    destruct Hrd as [|Hs]; [done|by rewrite Hs in Es].
  - destruct q as [|v q]; [done|].
    assert (s_locked spc = false) as Es by (destruct (s_locked spc); [by specialize (Hex eq_refl)|done]).
    assert (occupied (chan w) = Z.of_nat (length (v :: q))) as Ho by (rewrite Hcnt; destruct spc; try done; apply Z.add_0_r).
    rewrite (ring_read_run n (chan w) v q Hq Ho).
    exists (RCount v), got, (v :: q). split; [|shorter]. split; simpl; rewrite ?Hth; try done.
  - destruct q as [|u q]; [done|]. injection Hrd as ->.
    assert (s_locked spc = false) as Es by (destruct (s_locked spc); [by specialize (Hex eq_refl)|done]).
    assert (occupied (chan w) = Z.of_nat (length (v :: q))) as Ho by (rewrite Hcnt; destruct spc; try done; apply Z.add_0_r).
    pose proof (count_down_run n (chan w) v q Hq Ho) as Hdn.
    exists (RClear v), got, q. split; [|shorter]. split; cbn [threads chan lock]; rewrite ?Hth; try done.
    + apply (holds_queue_ext n (chan w)); try done. by apply (pop_queue n _ v).
    + rewrite Hdn. by destruct spc; try done; rewrite Z.add_0_r.
    + destruct spc; try done; simpl in Hroom; lia.
  - exists (RLeave v), got, q. split; [|shorter]. split; simpl; rewrite ?Hth; try done.
    by apply (holds_queue_ext n (chan w)).
  - assert (s_locked spc = false) as Es by (destruct (s_locked spc); [by specialize (Hex eq_refl)|done]).
    exists RWait, (got ++ [v]), q. split.
    + split; simpl; rewrite ?Hth; try done; [by rewrite Es|]. by rewrite Hall, <-app_assoc.
    + assert (length ds = length got + S (length (q ++ pending spc todo)))%nat as EL.
      { rewrite Hall, length_app. done. }
      unfold work. rewrite length_app, EL. cbn [r_left length]. lia.
Qed.

(** A world of the two threads with at most [m] steps left. *)
Definition pair_state (m : nat) (w : World) : Prop :=
  ∃ spc todo rpc got q, pair_inv spc todo rpc got w q ∧ (work spc todo rpc got <= m)%nat.
(** Everything is sent and received. *)
Definition finished (w : World) : Prop := ∃ spc rpc, threads w = [Sender spc []; Receiver rpc ds].

Lemma move_state m i w :
  pair_state m w →
  match move true i w with
  | Moves w' => ∃ m', (m' < m)%nat ∧ pair_state m' w'
  | Stalls => True
  | Undefined => False
  end.
Proof.
  intros (spc & todo & rpc & got & q & H & Hm). unfold move. rewrite (pi_threads _ _ _ _ _ _ H).
  destruct i as [|[|i]]; [| |done]; cbn.
  - destruct todo as [|d todo]; [done|].
    pose proof (sender_moves _ _ _ _ _ _ _ H) as Hs. destruct (sendChannel true 0 w spc d todo) as [w'| |]; [|done..].
    destruct Hs as (spc' & todo' & q' & H' & Hw). exists (work spc' todo' rpc got). split; [lia|].
    by exists spc', todo', rpc, got, q'.
  - pose proof (receiver_moves _ _ _ _ _ _ H) as Hr. destruct (receiveChannel true 1 w rpc got) as [w'| |]; [|done..].
    destruct Hr as (rpc' & got' & q' & H' & Hw). exists (work spc todo rpc' got'). split; [lia|].
    by exists spc, todo, rpc', got', q'.
Qed.

(** Unless everything is done, one of the two can move. *)
Lemma stuck_finished m w :
  1 ≤ n → pair_state m w → move true 0 w = Stalls → move true 1 w = Stalls → finished w.
Proof.
  intros Hn (spc & todo & rpc & got & q & H & _). unfold move. rewrite (pi_threads _ _ _ _ _ _ H). cbn. intros H0 H1.
  pose proof (receiver_moves _ _ _ _ _ _ H) as Hr. rewrite H1 in Hr.
  assert (todo ≠ [] → (spc = SWait ∧ Z.of_nat (length q) = n) ∨ (spc = SEnter ∧ r_locked rpc = true)) as Hs.
  { destruct todo as [|d todo]; [done|]. intros _. pose proof (sender_moves _ _ _ _ _ _ _ H) as Hs. by rewrite H0 in Hs. }
  assert (todo = []) as ->.
  { destruct todo as [|d todo]; [done|]. destruct (Hs ltac:(done)) as [[-> Hf]|[-> Hl]].
    - destruct Hr as [(_ & -> & _)|[_ ?]]; [simpl in Hf; lia|done].
    - destruct Hr as [(-> & _)|[_ ?]]; done. }
  destruct Hr as [(-> & -> & Ha)|[_ Hl]].
  - exists spc, RWait. rewrite (pi_threads _ _ _ _ _ _ H). do 3 f_equal. rewrite (pi_all _ _ _ _ _ _ H). simpl.
    destruct spc; by rewrite ?app_nil_r.
  - pose proof (pi_busy _ _ _ _ _ _ H). by destruct spc.
Qed.

Lemma run_app s1 : ∀ s2 w, run (V := V) true (s1 ++ s2) w = (w' ← run true s1 w; run true s2 w').
Proof. induction s1 as [|i s1 IH]; intros s2 w; [done|]. cbn [run app]. destruct (move true i w); [apply IH|apply IH|done]. Qed.

Lemma run_state s : ∀ m w,
  pair_state m w →
  ∃ w', run true s w = Some w' ∧
    ((∃ m', (m' < m)%nat ∧ pair_state m' w') ∨ (w' = w ∧ ∀ i, i ∈ s → move true i w = Stalls)).
Proof.
  induction s as [|i s IH]; intros m w H.
  - exists w. split; [done|]. right. split; [done|]. intros i Hi. by apply elem_of_nil in Hi.
  - cbn [run]. pose proof (move_state m i w H) as Hm. destruct (move true i w) as [w1| |] eqn:E; [| |done].
    + destruct Hm as (m1 & Hlt & H1). destruct (IH m1 w1 H1) as (w' & E' & Hw'). exists w'. split; [done|]. left.
      destruct Hw' as [(m' & Hlt' & H')|[-> _]]; [exists m'; split; [lia|done]|by exists m1].
    + destruct (IH m w H) as (w' & E' & Hw'). exists w'. split; [done|]. destruct Hw' as [Hw'|[-> Hst]]; [by left|].
      right. split; [done|]. intros j [->|Hj]%elem_of_cons; [done|by apply Hst].
Qed.

(** Rounds in which both threads get a turn. *)
Lemma fair_run rounds : ∀ m w,
  1 ≤ n → pair_state m w → (m <= length rounds)%nat → Forall (λ r, 0%nat ∈ r ∧ 1%nat ∈ r) rounds →
  ∃ w', run true (concat rounds) w = Some w' ∧ finished w'.
Proof.
  induction rounds as [|r rounds IH]; intros m w Hn H Hm Hr.
  - destruct H as (spc & todo & rpc & got & q & _ & Hw). unfold work in Hw. simpl in Hm. destruct rpc; simpl in Hw; lia.
  - apply list.Forall_cons in Hr as [[H0 H1] Hr]. cbn [concat]. rewrite run_app.
    destruct (run_state r m w H) as (w1 & E & [(m' & Hlt & H')|[-> Hst]]); rewrite E; cbn [mbind option_bind].
    + apply (IH m' w1 Hn H'); [simpl in Hm; lia|done].
    + exists w. pose proof (Hst _ H0) as S0. pose proof (Hst _ H1) as S1. split; [|by apply (stuck_finished m)].
      assert (∀ i, move true i w = Stalls) as Hall.
      { intros [|[|i]]; [done..|]. destruct H as (spc & todo & rpc & got & q & H & _). unfold move.
        by rewrite (pi_threads _ _ _ _ _ _ H). }
      clear -Hall. induction (concat rounds) as [|i s IHs]; [done|]. cbn [run]. by rewrite Hall.
Qed.

Definition pair_start : World := mkWorld (newChannel nil n) None 0 [Sender SWait ds; Receiver RWait []].

Lemma pair_start_state : 1 ≤ n → 2 * n < 2 ^ size_bits → pair_state (13 * length ds + 6) pair_start.
Proof.
  intros H1 H2. destruct (new_queue nil n H1 H2) as [Hq Hc].
  exists SWait, ds, RWait, [], []. split; [by split|]. unfold work. destruct ds; simpl; lia.
Qed.
End Pair.

(** ** Properties *)

(** C32. The critical sections of a channel are those of a bounded queue: a
    send to a queue that is not full appends; a collect takes the oldest;
    [shareChannel] to a full queue drops the oldest and says so; peeking shows
    the oldest, or nil.  No counter or cursor leaves its range. *)
Theorem channel_is_queue `{TG : Target} {V} (nil : V) n c q d :
  is_queue n c q → (overflow c = true → Z.of_nat (length q) = n) →
  (Z.of_nat (length q) < n → ∃ c', send_section d c = Some c' ∧ is_queue n c' (q ++ [d]) ∧ overflow c' = false) ∧
  (∀ v q', q = v :: q' → ∃ c', collectFromChannel c = Some (v, c') ∧ is_queue n c' q' ∧ overflow c' = false) ∧
  (∃ c', shareChannel d c = Some (overflow c', c') ∧ overflow c' = (Z.of_nat (length q) =? n) ∧
     is_queue n c' (if Z.of_nat (length q) =? n then tail q ++ [d] else q ++ [d])) ∧
  peekChannel nil c = Some (default nil (head q)).
Proof.
  intros H Hov. split; [by apply send_section_run|]. split; [intros v q' ->; by apply collect_run|].
  split; [|by apply (ring_peek_run nil n)]. destruct (share_run n c q d H Hov) as (c' & E & Hq & Ho). by exists c'.
Qed.

Lemma channel_is_queue_witness :
  let c := newChannel 0 2 in
  (Z.of_nat (length (@List.nil Z)) < 2 → ∃ c', @send_section LP64 Z 5 c = Some c' ∧ @is_queue LP64 Z 2 c' ([] ++ [5]) ∧ overflow c' = false) ∧
  (∀ v q', [] = v :: q' → ∃ c', @collectFromChannel LP64 Z c = Some (v, c') ∧ @is_queue LP64 Z 2 c' q' ∧ overflow c' = false) ∧
  (∃ c', @shareChannel LP64 Z 5 c = Some (overflow c', c') ∧ overflow c' = (Z.of_nat (length (@List.nil Z)) =? 2) ∧
     @is_queue LP64 Z 2 c' (if Z.of_nat (length (@List.nil Z)) =? 2 then tail [] ++ [5] else [] ++ [5])) ∧
  @peekChannel LP64 Z 0 c = Some (default 0 (head [])).
Proof.
  apply (@channel_is_queue LP64 Z 0 2 (newChannel 0 2) [] 5); [|discriminate].
  apply (@new_queue LP64 Z 0 2); [lia|vm_compute; reflexivity].
Defined.

(** C30. With busy waiting, one sender and one receiver, whatever the schedule:
    nothing is undefined, the counter stays within the buffer, and what the
    receiver has got is the beginning of what is sent, in order.  Unless all
    is sent and got, one of the two can move. *)
Theorem busy_pair_fifo `{TG : Target} {V} (nil : V) n ds schedule :
  1 ≤ n → 2 * n < 2 ^ size_bits →
  ∃ w spc todo rpc got, run true schedule (pair_start nil n ds) = Some w ∧
    threads w = [Sender spc todo; Receiver rpc got] ∧ 0 ≤ occupied (chan w) ≤ n ∧ got `prefix_of` ds ∧
    (¬ (todo = [] ∧ got = ds) → ∃ i w', move true i w = Moves w').
Proof.
  intros Hn Hb. destruct (run_state n ds schedule _ _ (pair_start_state nil n ds Hn Hb)) as (w & E & Hw).
  assert (∃ m, pair_state n ds m w) as (m & Hst).
  { destruct Hw as [(m & _ & H)|[-> _]]; [by exists m|]. eexists. by apply pair_start_state. }
  pose proof Hst as (spc & todo & rpc & got & q & H & _). exists w, spc, todo, rpc, got.
  split; [done|]. split; [apply H|]. split; [|split].
  - rewrite (pi_count _ _ _ _ _ _ _ _ H). pose proof (hq_full _ _ _ (pi_queue _ _ _ _ _ _ _ _ H)).
    pose proof (pi_room _ _ _ _ _ _ _ _ H) as Hroom. destruct spc; simpl in *; lia.
  - rewrite (pi_all _ _ _ _ _ _ _ _ H). by eexists.
  - intros Hnot. pose proof (move_state n ds m 0 w Hst) as M0. pose proof (move_state n ds m 1 w Hst) as M1.
    destruct (move true 0 w) as [w'| |] eqn:E0; [by exists 0%nat, w'| |done].
    destruct (move true 1 w) as [w'| |] eqn:E1; [by exists 1%nat, w'| |done].
    destruct (stuck_finished n ds m w Hn Hst E0 E1) as (spc' & rpc' & Hth).
    rewrite (pi_threads _ _ _ _ _ _ _ _ H) in Hth. injection Hth as -> -> -> ->. by destruct Hnot.
Qed.

Lemma busy_pair_fifo_witness :
  ∃ w spc todo rpc got, @run LP64 Z true [0; 0; 1; 0; 1; 1]%nat (pair_start 0 1 [7; 8]) = Some w ∧
    threads w = [Sender spc todo; Receiver rpc got] ∧ 0 ≤ occupied (chan w) ≤ 1 ∧ got `prefix_of` [7; 8] ∧
    (¬ (todo = [] ∧ got = [7; 8]) → ∃ i w', @move LP64 Z true i w = Moves w').
Proof. apply (@busy_pair_fifo LP64 Z 0 1 [7; 8] [0; 0; 1; 0; 1; 1]%nat); [lia|vm_compute; reflexivity]. Defined.

(** C31. And all is delivered: after thirteen rounds for each datum and six
    more, in each of which both threads get a turn at some point, the sender
    has sent everything and the receiver has got it. *)
Theorem busy_pair_delivers `{TG : Target} {V} (nil : V) n ds rounds :
  1 ≤ n → 2 * n < 2 ^ size_bits →
  Forall (λ r, 0%nat ∈ r ∧ 1%nat ∈ r) rounds → (13 * length ds + 6 <= length rounds)%nat →
  ∃ w spc rpc, run true (concat rounds) (pair_start nil n ds) = Some w ∧ threads w = [Sender spc []; Receiver rpc ds].
Proof.
  intros Hn Hb Hr Hl. destruct (fair_run n ds rounds _ _ Hn (pair_start_state nil n ds Hn Hb) Hl Hr) as (w & E & spc & rpc & H).
  by exists w, spc, rpc.
Qed.

Lemma busy_pair_delivers_witness :
  ∃ w spc rpc, @run LP64 Z true (concat (replicate 32 [1; 0]%nat)) (pair_start 0 1 [7; 8]) = Some w ∧
    threads w = [Sender spc []; Receiver rpc [7; 8]].
Proof.
  apply (@busy_pair_delivers LP64 Z 0 1 [7; 8] (replicate 32 [1; 0]%nat)); [lia|vm_compute; reflexivity| |simpl; lia].
  apply Forall_replicate. split; [right; left|left].
Defined.

(** Beyond one sender and one receiver that wait, a datum is lost.  Two
    senders with busy waiting can both see the last free slot: the counter
    passes the size of the buffer, and the receiver gets the second datum
    twice.  With the semaphore, [sendChannel] does not wait at all, and a
    single sender does the same. *)
Theorem send_overruns {V} (nil a b : V) :
  let new := newChannel nil 1 in
  let both := [0; 0; 1; 0; 0; 0; 0; 0; 0; 1; 1; 1; 1; 1; 1; 1; 2; 2; 2; 2; 2; 2; 2; 2; 2; 2; 2; 2]%nat in
  let twice := [0; 0; 0; 0; 0; 0; 0; 0; 0; 0; 0; 0; 0; 0; 0; 0; 1; 1; 1; 1; 1; 1; 1; 1; 1; 1; 1; 1]%nat in
  let w0 := mkWorld new None 0 [Sender SWait [a]; Sender SWait [b]; Receiver RWait []] in
  let w1 := mkWorld new None 0 [Sender SWait [a; b]; Receiver RWait []] in
  (∃ w, @run LP64 V true (take 16 both) w0 = Some w ∧ occupied (chan w) = 2 ∧ bufferSize (chan w) = 1) ∧
  (∃ w, @run LP64 V true both w0 = Some w ∧ threads w = [Sender SWait []; Sender SWait []; Receiver RWait [b; b]]) ∧
  (∃ w, @run LP64 V false twice w1 = Some w ∧ threads w = [Sender SWait []; Receiver RWait [b; b]]).
Proof. split; [|split]; eexists; (split; [vm_compute; reflexivity|]); vm_compute; [by split|done..]. Qed.

(** ** Sync groups *)
Section Groups.
Context `{TG : Target} {V : Type}.
Variable nil : V.
Variable is_nil : V → bool.
Hypothesis nil_is_nil : is_nil nil = true.
Variable n : Z.

(** What a group takes from a queue: its head, unless that is nil. *)
Definition taken (q : list V) : V := default nil (head q).
Definition left_over (q : list V) : list V := match q with v :: q' => if is_nil v then q else q' | [] => [] end.

(** The channels of a group, each with the queue it holds. *)
Definition group_state (items : list (positive * list V)) (s : gmap positive (Channel (V := V))) : Prop :=
  ∀ p q, (p, q) ∈ items → ∃ c, s !! p = Some c ∧ is_queue n c q.

Lemma group_item_run p q items s :
  group_state ((p, q) :: items) s → p ∉ items.*1 →
  ∃ s', group_item nil is_nil (Some p) s = Some (taken q, s') ∧
    (∃ c, s' !! p = Some c ∧ is_queue n c (left_over q)) ∧ (∀ p', p' ≠ p → s' !! p' = s !! p').
Proof.
  intros H Hp. destruct (H p q) as (c & Hc & Hq); [by left|].
  unfold group_item. rewrite Hc. cbn [mbind option_bind]. rewrite (ring_peek_run nil n c q Hq). cbn [mbind option_bind].
  destruct q as [|v q]; cbn [head default taken left_over].
  - simpl. rewrite nil_is_nil. exists s. split; [done|]. split; [by exists c|done].
  - simpl. destruct (is_nil v) eqn:Ev.
    + exists s. split; [done|]. split; [by exists c|done].
    + destruct (collect_run n c v q Hq) as (c' & E & Hq' & _). rewrite E. cbn [mbind option_bind].
      exists (<[p := c']> s). split; [done|]. split; [exists c'; by rewrite lookup_insert_eq|].
      intros p' Hp'. by rewrite lookup_insert_ne.
Qed.

Lemma sweep_run items : ∀ s,
  group_state items s → NoDup items.*1 →
  ∃ s', sweep nil is_nil (Some <$> items.*1) s =
      Some (taken <$> items.*2, existsb (λ q, negb (is_nil (taken q))) items.*2, s') ∧
    group_state ((λ e, (e.1, left_over e.2)) <$> items) s' ∧ (∀ p, p ∉ items.*1 → s' !! p = s !! p).
Proof.
  induction items as [|[p q] items IH]; intros s H Hnd.
  { exists s. split; [done|]. split; [|done]. intros p q Hin. by apply elem_of_nil in Hin. }
  rewrite fmap_cons in Hnd. apply list.NoDup_cons in Hnd as [Hp Hnd].
  destruct (group_item_run p q items s H Hp) as (s1 & E1 & Hpq & Hsame).
  destruct (IH s1) as (s2 & E2 & H2 & Hsame2); [|done|].
  { intros p' q' Hin. destruct (H p' q') as (c & Hc & Hq); [by right|]. exists c. rewrite Hsame; [done|].
    intros ->. apply Hp. by apply (list_elem_of_fmap_2 fst items (p, q')). }
  rewrite !fmap_cons. cbn [sweep fst snd]. rewrite E1. cbn [mbind option_bind]. rewrite E2. cbn [mbind option_bind].
  exists s2. split; [done|]. split.
  - intros p' q' [Heq|Hin]%elem_of_cons; [|by apply H2]. injection Heq as -> ->. by rewrite Hsame2.
  - intros p' [Hne Hp']%not_elem_of_cons. rewrite Hsame2 by done. by apply Hsame.
Qed.

Lemma left_over_nil q : is_nil (taken q) = true → left_over q = q.
Proof. destruct q as [|v q]; [done|]. unfold taken. simpl. by intros ->. Qed.

Lemma group_waits items fuel : ∀ result s,
  group_state items s → NoDup items.*1 → items ≠ [] → existsb (λ q, negb (is_nil (taken q))) items.*2 = false →
  ∃ s', receiveSyncGroup nil is_nil fuel (Some <$> items.*1) result s = Some (None, s') ∧ group_state items s'.
Proof.
  induction fuel as [|fuel IH]; intros result s H Hnd Hne Hnil.
  - exists s. destruct items; [done|]. by split.
  - destruct (sweep_run items s H Hnd) as (s1 & E & H1 & _).
    assert ((λ e, (e.1, left_over e.2)) <$> items = items) as Eit.
    { clear -Hnil. induction items as [|[p q] items IH]; [done|]. rewrite fmap_cons in *. simpl in Hnil.
      apply orb_false_iff in Hnil as [Hq Hnil]. rewrite IH by done. rewrite left_over_nil; [done|]. by apply negb_false_iff. }
    rewrite Eit in H1. destruct (IH (taken <$> items.*2) s1 H1 Hnd Hne Hnil) as (s2 & E2 & H2). exists s2.
    split; [|done]. rewrite <-E2. destruct items as [|[p q] items]; [done|].
    rewrite fmap_cons in *. cbn [receiveSyncGroup fmap list_fmap fst snd] in *. rewrite E. cbn [mbind option_bind].
    by rewrite Hnil.
Qed.

Lemma group_receives items fuel result s :
  group_state items s → NoDup items.*1 → existsb (λ q, negb (is_nil (taken q))) items.*2 = true →
  ∃ s', receiveSyncGroup nil is_nil (S fuel) (Some <$> items.*1) result s = Some (Some (taken <$> items.*2), s') ∧
    group_state ((λ e, (e.1, left_over e.2)) <$> items) s'.
Proof.
  intros H Hnd Hnil. destruct (sweep_run items s H Hnd) as (s1 & E & H1 & _). exists s1. split; [|done].
  destruct items as [|[p q] items]; [done|].
  rewrite fmap_cons in *. cbn [receiveSyncGroup fmap list_fmap fst snd] in *. rewrite E. cbn [mbind option_bind].
  by rewrite Hnil.
Qed.
End Groups.

(** C33. Receiving from a sync group of distinct channels: as soon as one of
    them has something other than nil to give, one sweep returns the oldest
    datum of each, nil where there is none, and takes exactly these from
    their queues.  While none has, the group waits for ever and takes
    nothing; so a nil that was sent is never received, and holds up what is
    queued behind it. *)
Theorem receiveSyncGroup_correct `{TG : Target} {V} (nil : V) is_nil n items result (s : gmap positive (Channel (V := V))) :
  is_nil nil = true → group_state n items s → NoDup items.*1 → items ≠ [] →
  ((∃ p q, (p, q) ∈ items ∧ is_nil (taken nil q) = false) →
   ∀ fuel, ∃ s', receiveSyncGroup nil is_nil (S fuel) (Some <$> items.*1) result s = Some (Some (taken nil <$> items.*2), s') ∧
     group_state n ((λ e, (e.1, left_over is_nil e.2)) <$> items) s') ∧
  ((∀ p q, (p, q) ∈ items → is_nil (taken nil q) = true) →
   ∀ fuel, ∃ s', receiveSyncGroup nil is_nil fuel (Some <$> items.*1) result s = Some (None, s') ∧ group_state n items s').
Proof.
  intros Hnil H Hnd Hne. split.
  - intros (p & q & Hin & Hq) fuel. apply group_receives; try done. apply existsb_exists. exists q. split; [|by rewrite Hq].
    apply list_elem_of_In. by apply (list_elem_of_fmap_2 snd items (p, q)).
  - intros Hall fuel. apply group_waits; try done. apply not_true_iff_false. intros Ht. apply existsb_exists in Ht as (q & Hin & Hq).
    apply list_elem_of_In, list_elem_of_fmap in Hin as ([p q'] & -> & Hin). cbn [snd] in Hq. by rewrite (Hall p q' Hin) in Hq.
Qed.

Lemma receiveSyncGroup_correct_witness :
  let items := [(1%positive, [5; 6]); (2%positive, [])] in
  let is_nil x := x =? 0 in
  let s := <[1%positive := mkChannel false 0 [5; 6] 2 2]> (<[2%positive := newChannel 0 2]> (∅ : gmap positive (Channel (V := Z)))) in
  ((∃ p q, (p, q) ∈ items ∧ is_nil (taken 0 q) = false) →
   ∀ fuel, ∃ s', @receiveSyncGroup LP64 Z 0 is_nil (S fuel) (Some <$> items.*1) [] s = Some (Some (taken 0 <$> items.*2), s') ∧
     @group_state LP64 Z 2 ((λ e, (e.1, left_over is_nil e.2)) <$> items) s') ∧
  ((∀ p q, (p, q) ∈ items → is_nil (taken 0 q) = true) →
   ∀ fuel, ∃ s', @receiveSyncGroup LP64 Z 0 is_nil fuel (Some <$> items.*1) [] s = Some (None, s') ∧ @group_state LP64 Z 2 items s').
Proof.
  apply (@receiveSyncGroup_correct LP64 Z 0 (λ x, x =? 0) 2 [(1%positive, [5; 6]); (2%positive, [])] []).
  - reflexivity.
  - intros p q [Heq|[Heq|Hin%elem_of_nil]%elem_of_cons]%elem_of_cons; [| |destruct Hin].
    + injection Heq as -> ->. exists (mkChannel false 0 [5; 6] 2 2). split; [reflexivity|]. split; [|reflexivity].
      split; [vm_compute; split; [discriminate|reflexivity]|reflexivity|reflexivity|simpl; lia|simpl; lia|].
      intros [|[|k]] v Hk; simpl in Hk; try discriminate; injection Hk as <-; reflexivity.
    + injection Heq as -> ->. exists (newChannel 0 2). split; [reflexivity|].
      apply (@new_queue LP64 Z 0 2); [lia|vm_compute; reflexivity].
  - apply base.NoDup_cons_2; [|apply base.NoDup_cons_2; [apply not_elem_of_nil|apply base.NoDup_nil_2]].
    intros Hin%list_elem_of_singleton. discriminate.
  - discriminate.
Defined.
