(* ===== verification/Object.v ===== *)
(** * The objects and the state of the virtual machine

    The structures of [cyarg/chunk.h], [yargobject.h], [vmobject.h],
    [routine.h] and [vm.h], their constructors ([chunk.c], [yargobject.c],
    [vmobject.c]), and the state monad of the functions that work on them.

    Objects are entries of finite maps from addresses.  Strings, packed
    containers and large integers have maps of their own ([Pool], [Heap]),
    because the type of a value tells which it refers to; all other objects
    share one map and are told apart by their tag, as in the C code.
    Allocation always succeeds: running out of memory ends the program. *)
From S2P Require Export Intern Packed Channel.
Open Scope Z_scope.

(** ** Chunks *)
Record ChunkSource := mkSource { address : Z; line : Z }.
Record Chunk := mkChunk {
  ccapacity : nat;
  code : list Z;               (* the [count] bytes that are written *)
  lines : list ChunkSource;
  constants : DynamicValueArray
}.

Definition initChunk : Chunk := mkChunk 0 [] [] initDynamicValueArray.

(** The line is not used. *)
Definition writeChunk (c : Chunk) (byte : Z) : Chunk :=
  let capacity :=
    if (ccapacity c <? length (code c) + 1)%nat then GROW_CAPACITY (ccapacity c) else ccapacity c in
  mkChunk capacity (code c ++ [byte]) (lines c) (constants c).

(** ** Instructions *)
Inductive OpCode :=
  | OP_CONSTANT | OP_NIL | OP_TRUE | OP_FALSE | OP_POP | OP_GET_BUILTIN | OP_GET_LOCAL | OP_SET_LOCAL |
    OP_GET_GLOBAL | OP_DEFINE_GLOBAL | OP_SET_GLOBAL | OP_INITIALISE | OP_GET_UPVALUE | OP_SET_UPVALUE |
    OP_GET_PROPERTY | OP_SET_PROPERTY | OP_GET_SUPER | OP_EQUAL | OP_GREATER | OP_LESS | OP_LEFT_SHIFT |
    OP_RIGHT_SHIFT | OP_ADD | OP_SUBTRACT | OP_BITOR | OP_BITAND | OP_BITXOR | OP_MODULO | OP_MULTIPLY |
    OP_DIVIDE | OP_NOT | OP_NEGATE | OP_PRINT | OP_POKE | OP_JUMP | OP_JUMP_IF_FALSE | OP_LOOP | OP_CALL |
    OP_INVOKE | OP_SUPER_INVOKE | OP_CLOSURE | OP_CLOSE_UPVALUE | OP_RETURN | OP_YIELD | OP_CLASS |
    OP_INHERIT | OP_METHOD | OP_ELEMENT | OP_SET_ELEMENT | OP_IMMEDIATE_P8 | OP_IMMEDIATE_P16 |
    OP_IMMEDIATE_P24 | OP_IMMEDIATE_N8 | OP_IMMEDIATE_N16 | OP_IMMEDIATE_N24 | OP_TYPE_LITERAL |
    OP_TYPE_STRUCT | OP_TYPE_INDEXED_COLLECTION | OP_SET_CELL_TYPE | OP_DEREF_PTR | OP_SET_PTR_TARGET |
    OP_PLACE | OP_DUPLICATE | OP_ERROR.

#[export] Instance OpCode_eq_dec : EqDecision OpCode.
Proof. solve_decision. Defined.

(** The enumeration, in order: a byte of the code is an index. *)
Definition opcodes : list OpCode :=
  [OP_CONSTANT; OP_NIL; OP_TRUE; OP_FALSE; OP_POP; OP_GET_BUILTIN; OP_GET_LOCAL; OP_SET_LOCAL; OP_GET_GLOBAL;
   OP_DEFINE_GLOBAL; OP_SET_GLOBAL; OP_INITIALISE; OP_GET_UPVALUE; OP_SET_UPVALUE; OP_GET_PROPERTY;
   OP_SET_PROPERTY; OP_GET_SUPER; OP_EQUAL; OP_GREATER; OP_LESS; OP_LEFT_SHIFT; OP_RIGHT_SHIFT; OP_ADD;
   OP_SUBTRACT; OP_BITOR; OP_BITAND; OP_BITXOR; OP_MODULO; OP_MULTIPLY; OP_DIVIDE; OP_NOT; OP_NEGATE;
   OP_PRINT; OP_POKE; OP_JUMP; OP_JUMP_IF_FALSE; OP_LOOP; OP_CALL; OP_INVOKE; OP_SUPER_INVOKE; OP_CLOSURE;
   OP_CLOSE_UPVALUE; OP_RETURN; OP_YIELD; OP_CLASS; OP_INHERIT; OP_METHOD; OP_ELEMENT; OP_SET_ELEMENT;
   OP_IMMEDIATE_P8; OP_IMMEDIATE_P16; OP_IMMEDIATE_P24; OP_IMMEDIATE_N8; OP_IMMEDIATE_N16; OP_IMMEDIATE_N24;
   OP_TYPE_LITERAL; OP_TYPE_STRUCT; OP_TYPE_INDEXED_COLLECTION; OP_SET_CELL_TYPE; OP_DEREF_PTR;
   OP_SET_PTR_TARGET; OP_PLACE; OP_DUPLICATE; OP_ERROR].
Definition decode (b : Z) : option OpCode := opcodes !! Z.to_nat b.
Definition encode (o : OpCode) : Z := Z.of_nat (default 0%nat (fst <$> list_find (eq o) opcodes)).

(** ** Objects *)
Record ObjFunction := mkFunction { arity : Z; upvalueCount : nat; chunk : Chunk; fName : option strptr }.

(** [initFunction], with which [newFunction] fills an object *)
Definition initFunction : ObjFunction := mkFunction 0 0 initChunk None.

(** Where [upvalue->contents] points: into the stack of a routine, or at the
    field [closed] of the upvalue. *)
Inductive Contents := OnStack (r : objptr) (index : Z) | InUpvalue.
Record ObjUpvalue := mkUpvalue {
  contents_ : Contents; stackOffset : Z; closed : ValueCell; next : option objptr
}.
Record ObjClosure := mkClosure { function : objptr; upvalues : list (option objptr) }.
Record ObjClass := mkClass { cname : strptr; methods : Table Value }.
Record ObjInstance := mkInstance { klass : objptr; fields : Table Value }.
Record ObjBoundMethod := mkBound { reciever : Value; method : objptr }.
Record ObjMap := mkMap { map_type : YargType; mentries : Table Value }.
Record ObjSyncGroup := mkGroup { channel_array_val : Value; result_array_val : Value; num_channels : Z }.

Inductive BuiltinFn :=
  | BUILTIN_READ_YARG_SOURCE | BUILTIN_READ_XIP_FILE | BUILTIN_COMPILE | BUILTIN_MAKE_ROUTINE
  | BUILTIN_MAKE_CHANNEL | BUILTIN_MAKE_SYNCGROUP | BUILTIN_RESUME | BUILTIN_START | BUILTIN_RECEIVE
  | BUILTIN_SEND | BUILTIN_CPEEK | BUILTIN_SHARE | BUILTIN_PEEK | BUILTIN_LEN | BUILTIN_PIN | BUILTIN_NEW
  | BUILTIN_INT8 | BUILTIN_UINT8 | BUILTIN_INT16 | BUILTIN_UINT16 | BUILTIN_INT32 | BUILTIN_UINT32
  | BUILTIN_INT64 | BUILTIN_UINT64 | BUILTIN_TS_SET | BUILTIN_TS_READ | BUILTIN_TS_WRITE
  | BUILTIN_TS_INTERRUPT | BUILTIN_TS_SYNC | BUILTIN_INT | BUILTIN_MFLOAT64 | BUILTIN_STRING | BUILTIN_LOAD.

#[export] Instance BuiltinFn_eq_dec : EqDecision BuiltinFn.
Proof. solve_decision. Defined.

(** The codes of the built-in functions, in order. *)
Definition builtins : list BuiltinFn :=
  [BUILTIN_READ_YARG_SOURCE; BUILTIN_READ_XIP_FILE; BUILTIN_COMPILE; BUILTIN_MAKE_ROUTINE;
   BUILTIN_MAKE_CHANNEL; BUILTIN_MAKE_SYNCGROUP; BUILTIN_RESUME; BUILTIN_START; BUILTIN_RECEIVE;
   BUILTIN_SEND; BUILTIN_CPEEK; BUILTIN_SHARE; BUILTIN_PEEK; BUILTIN_LEN; BUILTIN_PIN; BUILTIN_NEW;
   BUILTIN_INT8; BUILTIN_UINT8; BUILTIN_INT16; BUILTIN_UINT16; BUILTIN_INT32; BUILTIN_UINT32; BUILTIN_INT64;
   BUILTIN_UINT64; BUILTIN_TS_SET; BUILTIN_TS_READ; BUILTIN_TS_WRITE; BUILTIN_TS_INTERRUPT; BUILTIN_TS_SYNC;
   BUILTIN_INT; BUILTIN_MFLOAT64; BUILTIN_STRING; BUILTIN_LOAD].

(** ** Routines *)
Definition FRAMES_MAX : nat := 20.
Definition SLICE_MAX : Z := 64.

Record CallFrame := mkFrame { closure : option objptr; ip : Z; stackEntryIndex : Z }.
Inductive ExecState := EXEC_UNBOUND | EXEC_RUNNING | EXEC_SUSPENDED | EXEC_CLOSED | EXEC_ERROR.

#[export] Instance ExecState_eq_dec : EqDecision ExecState.
Proof. solve_decision. Defined.

Abbreviation StackSlice := (list ValueCell).

Record ObjRoutine := mkRoutine {
  frames : list CallFrame;               (* all [FRAMES_MAX] of them *)
  frameCount : nat;
  stackSlices : list StackSlice;
  stackSliceCapacity : nat;
  stackTopIndex : Z;
  addSlice : bool;                       (* the function pointer is not null *)
  runtimeErrors : list strptr;
  entryFunction : option objptr;
  entryArg : Value;
  result : Value;
  error : Value;
  openUpvalues : option objptr;
  state : ExecState
}.

Inductive Obj :=
  | OBJ_FUNCTION (f : ObjFunction)
  | OBJ_CLOSURE (c : ObjClosure)
  | OBJ_UPVALUE (u : ObjUpvalue)
  | OBJ_CLASS (k : ObjClass)
  | OBJ_INSTANCE (i : ObjInstance)
  | OBJ_BOUND_METHOD (b : ObjBoundMethod)
  | OBJ_NATIVE (native : nat)
  | OBJ_BUILTIN (b : BuiltinFn)
  | OBJ_MAP (m : ObjMap)
  | OBJ_ROUTINE (r : ObjRoutine)
  | OBJ_CHANNELCONTAINER (c : Channel (V := Value))
  | OBJ_SYNCGROUP (g : ObjSyncGroup).

(** [FUNCTION_VAL], [CLOSURE_VAL], [INSTANCE_VAL], [NATIVE_VAL] and
    [BOUNDMETHOD_VAL] are the same macro. *)
Definition FUNCTION_VAL (p : objptr) : Value := TYPED_VAL (Simple Function_) (Some p).
Definition CLASS_VAL (p : objptr) : Value := TYPED_VAL (Simple Class_) (Some p).
Definition ROUTINE_VAL (p : objptr) : Value := TYPED_VAL (Simple Routine_) (Some p).
Definition CHANNEL_VAL (p : objptr) : Value := TYPED_VAL (Simple Channel_) (Some p).
Definition SYNCGROUP_VAL (p : objptr) : Value := TYPED_VAL (Simple SyncGroup_) (Some p).
Definition STRING_VAL (k : strptr) : Value := TYPED_VAL (Simple String_) (Some k).
Definition BUILTIN_VAL (p : objptr) : Value := FUNCTION_VAL p.
Definition MAP_VAL (t : YargType) (p : objptr) : Value := TYPED_VAL t (Some p).

(** The objects of this type are in the common map. *)
Definition in_objects (t : YargType) : bool :=
  match t with
  | Simple (Function_ | Class_ | Routine_ | Channel_ | SyncGroup_) | Map _ _ _ => true
  | _ => false
  end.
(** The address in the common map of the object that a value refers to. *)
Definition obj_at (v : Value) : option objptr :=
  match v with TYPED_VAL t (Some p) => if in_objects t then Some p else None | _ => None end.

(** ** The virtual machine *)
Definition MAX_PINNED_ROUTINES : nat := 10.
Definition TEMP_ROOTS_MAX : nat := 8.

Record VM := mkVM {
  vm_heap : Heap;
  vm_pool : Pool;
  vm_objects : gmap objptr Obj;
  globals : Table ValueCell;
  initString : strptr;
  core0 : objptr;
  core1 : option objptr;
  pinnedRoutines : list (option objptr);
  tempRoots : list Value;
  next_type : typeptr;                   (* addresses of type objects from here on are free *)
  semaphore : Z;                         (* the named semaphore that channels open *)
  output : list (list Z)                 (* the lines printed *)
}.

Abbreviation VMM := (st VM).

Definition set_heap (h : Heap) (s : VM) : VM :=
  mkVM h (vm_pool s) (vm_objects s) (globals s) (initString s) (core0 s) (core1 s) (pinnedRoutines s)
    (tempRoots s) (next_type s) (semaphore s) (output s).
Definition set_pool (p : Pool) (s : VM) : VM :=
  mkVM (vm_heap s) p (vm_objects s) (globals s) (initString s) (core0 s) (core1 s) (pinnedRoutines s)
    (tempRoots s) (next_type s) (semaphore s) (output s).
Definition set_objects (o : gmap objptr Obj) (s : VM) : VM :=
  mkVM (vm_heap s) (vm_pool s) o (globals s) (initString s) (core0 s) (core1 s) (pinnedRoutines s)
    (tempRoots s) (next_type s) (semaphore s) (output s).
Definition set_globals (g : Table ValueCell) (s : VM) : VM :=
  mkVM (vm_heap s) (vm_pool s) (vm_objects s) g (initString s) (core0 s) (core1 s) (pinnedRoutines s)
    (tempRoots s) (next_type s) (semaphore s) (output s).
Definition set_core1 (r : option objptr) (s : VM) : VM :=
  mkVM (vm_heap s) (vm_pool s) (vm_objects s) (globals s) (initString s) (core0 s) r (pinnedRoutines s)
    (tempRoots s) (next_type s) (semaphore s) (output s).
Definition set_pinned (l : list (option objptr)) (s : VM) : VM :=
  mkVM (vm_heap s) (vm_pool s) (vm_objects s) (globals s) (initString s) (core0 s) (core1 s) l
    (tempRoots s) (next_type s) (semaphore s) (output s).
Definition set_tempRoots (l : list Value) (s : VM) : VM :=
  mkVM (vm_heap s) (vm_pool s) (vm_objects s) (globals s) (initString s) (core0 s) (core1 s)
    (pinnedRoutines s) l (next_type s) (semaphore s) (output s).
Definition set_next_type (t : typeptr) (s : VM) : VM :=
  mkVM (vm_heap s) (vm_pool s) (vm_objects s) (globals s) (initString s) (core0 s) (core1 s)
    (pinnedRoutines s) (tempRoots s) t (semaphore s) (output s).
Definition set_semaphore (n : Z) (s : VM) : VM :=
  mkVM (vm_heap s) (vm_pool s) (vm_objects s) (globals s) (initString s) (core0 s) (core1 s)
    (pinnedRoutines s) (tempRoots s) (next_type s) n (output s).
Definition set_output (l : list (list Z)) (s : VM) : VM :=
  mkVM (vm_heap s) (vm_pool s) (vm_objects s) (globals s) (initString s) (core0 s) (core1 s)
    (pinnedRoutines s) (tempRoots s) (next_type s) (semaphore s) l.

(** ** Access to the state *)
Definition vm_fail {A} : VMM A := λ _, None.
Definition get_vm : VMM VM := λ s, Some (s, s).
Definition put_vm (f : VM → VM) : VMM () := λ s, Some ((), f s).
Definition opt {A} (o : option A) : VMM A := λ s, match o with Some a => Some (a, s) | None => None end.

Definition with_heap {A} (c : PM A) : VMM A :=
  λ s, match c (vm_heap s) with Some (a, h) => Some (a, set_heap h s) | None => None end.
Definition with_pool {A} (c : Pool → option (A * Pool)) : VMM A :=
  λ s, match c (vm_pool s) with Some (a, p) => Some (a, set_pool p s) | None => None end.
Definition vm_ints {A} (c : M A) : VMM A := with_heap (with_ints c).

(** What a table reads of the strings. *)
Definition vm_str (s : VM) : strptr → ObjString := str_of (heap (vm_pool s)).
Definition chars_of (k : strptr) : VMM (list Z) := s ← get_vm; mret (chars (vm_str s k)).
Definition intern (cs : list Z) : VMM strptr := with_pool (copyString cs).

(** [ALLOCATE_OBJ] *)
Definition new_obj (o : Obj) : VMM objptr :=
  λ s, let p := fresh (dom (vm_objects s)) in Some (p, set_objects (<[p := o]> (vm_objects s)) s).
Definition get_obj (p : objptr) : VMM Obj := s ← get_vm; opt (vm_objects s !! p).
Definition put_obj (p : objptr) (o : Obj) : VMM () := put_vm (λ s, set_objects (<[p := o]> (vm_objects s)) s).

(** A cast of the pointer: an object of another kind is undefined behaviour. *)
Definition get_routine (p : objptr) : VMM ObjRoutine :=
  o ← get_obj p; match o with OBJ_ROUTINE r => mret r | _ => vm_fail end.
Definition put_routine (p : objptr) (r : ObjRoutine) : VMM () := put_obj p (OBJ_ROUTINE r).
Definition get_function (p : objptr) : VMM ObjFunction :=
  o ← get_obj p; match o with OBJ_FUNCTION f => mret f | _ => vm_fail end.
Definition get_closure (p : objptr) : VMM ObjClosure :=
  o ← get_obj p; match o with OBJ_CLOSURE c => mret c | _ => vm_fail end.
Definition get_upvalue (p : objptr) : VMM ObjUpvalue :=
  o ← get_obj p; match o with OBJ_UPVALUE u => mret u | _ => vm_fail end.
Definition put_upvalue (p : objptr) (u : ObjUpvalue) : VMM () := put_obj p (OBJ_UPVALUE u).
Definition get_class (p : objptr) : VMM ObjClass :=
  o ← get_obj p; match o with OBJ_CLASS k => mret k | _ => vm_fail end.
Definition get_instance (p : objptr) : VMM ObjInstance :=
  o ← get_obj p; match o with OBJ_INSTANCE i => mret i | _ => vm_fail end.
Definition get_map (p : objptr) : VMM ObjMap :=
  o ← get_obj p; match o with OBJ_MAP m => mret m | _ => vm_fail end.
Definition get_channel (p : objptr) : VMM (Channel (V := Value)) :=
  o ← get_obj p; match o with OBJ_CHANNELCONTAINER c => mret c | _ => vm_fail end.

(** [isObjType(v, type)] and the pointer; [None] is the answer [false]. *)
Definition the_obj (v : Value) : VMM (option (objptr * Obj)) :=
  s ← get_vm;
  mret (p ← obj_at v; o ← vm_objects s !! p; Some (p, o)).

Definition newYargType : VMM typeptr :=
  λ s, Some (next_type s, set_next_type (Pos.succ (next_type s)) s).

(** [tempRootPush]: the eighth root is a fatal error. *)
Definition tempRootPush (v : Value) : VMM () :=
  s ← get_vm;
  if (TEMP_ROOTS_MAX <=? S (length (tempRoots s)))%nat then vm_fail
  else put_vm (set_tempRoots (v :: tempRoots s)).
Definition tempRootPop : VMM () :=
  s ← get_vm;
  match tempRoots s with [] => vm_fail | _ :: l => put_vm (set_tempRoots l) end.

(** ** Constructors *)
Definition newClosure (function : objptr) : VMM objptr :=
  f ← get_function function;
  new_obj (OBJ_CLOSURE (mkClosure function (replicate (upvalueCount f) None))).
Definition newUpvalue (slot : Contents) (stackOffset : Z) : VMM objptr :=
  new_obj (OBJ_UPVALUE (mkUpvalue slot stackOffset (mkCell NIL_VAL None) None)).
Definition newClass (name : strptr) : VMM objptr := new_obj (OBJ_CLASS (mkClass name initTable)).
Definition newInstance (klass : objptr) : VMM objptr := new_obj (OBJ_INSTANCE (mkInstance klass initTable)).
Definition newBoundMethod (reciever : Value) (method : objptr) : VMM objptr :=
  new_obj (OBJ_BOUND_METHOD (mkBound reciever method)).
Definition newMap (type : YargType) : VMM objptr := new_obj (OBJ_MAP (mkMap type initTable)).
Definition newBuiltin (b : BuiltinFn) : VMM objptr := new_obj (OBJ_BUILTIN b).
Definition newNative (n : nat) : VMM objptr := new_obj (OBJ_NATIVE n).

Lemma decode_encode o : decode (encode o) = Some o.
Proof. by destruct o; vm_compute. Qed.

(** ** The runs of the accessors *)
Section Runs.
Implicit Types (s : VM) (p : objptr).

Lemma get_obj_run s p o : vm_objects s !! p = Some o → get_obj p s = Some (o, s).
Proof. intros H. unfold get_obj, get_vm, mbind, st_bind, opt. by rewrite H. Qed.
Lemma get_routine_run s p r : vm_objects s !! p = Some (OBJ_ROUTINE r) → get_routine p s = Some (r, s).
Proof. intros H. unfold get_routine. by rewrite (st_bind_run _ _ _ _ _ (get_obj_run _ _ _ H)). Qed.
Lemma get_function_run s p f : vm_objects s !! p = Some (OBJ_FUNCTION f) → get_function p s = Some (f, s).
Proof. intros H. unfold get_function. by rewrite (st_bind_run _ _ _ _ _ (get_obj_run _ _ _ H)). Qed.
Lemma get_closure_run s p c : vm_objects s !! p = Some (OBJ_CLOSURE c) → get_closure p s = Some (c, s).
Proof. intros H. unfold get_closure. by rewrite (st_bind_run _ _ _ _ _ (get_obj_run _ _ _ H)). Qed.
Lemma get_upvalue_run s p u : vm_objects s !! p = Some (OBJ_UPVALUE u) → get_upvalue p s = Some (u, s).
Proof. intros H. unfold get_upvalue. by rewrite (st_bind_run _ _ _ _ _ (get_obj_run _ _ _ H)). Qed.
Lemma put_obj_run s p o : put_obj p o s = Some ((), set_objects (<[p := o]> (vm_objects s)) s).
Proof. done. Qed.
Lemma opt_run {A} (o : option A) a s : o = Some a → opt o s = Some (a, s).
Proof. by intros ->. Qed.
End Runs.
#[export] Hint Resolve get_obj_run get_routine_run get_function_run get_closure_run get_upvalue_run put_obj_run
  opt_run : st_run.
