(* ===== verification/Text.v ===== *)
(** * The text of values

    The functions that turn a value, a type or an object into a string:
    [value.c], [yargtype.c], [object.c], [yargobject.c], [builtin.c],
    [channel.c], [sync_group.c] and [routine.c].  They print into buffers of a
    fixed size, which cut the text off.  What the C library writes for a
    [double] and for a pointer, and reads as a [double], is a parameter. *)
From Stdlib Require Import String Ascii.
From S2P Require Import IntText Scanner.
From S2P Require Export Object.
Open Scope Z_scope.

(** [snprintf] of ["%#g"] and ["%p"], [strtod] of a text that it reads to the
    end, the address of an object, and the addresses of the handlers of pinned
    routines. *)
Class Host := {
  text_of_double : spec_float → list Z;
  text_of_pointer : Z → list Z;
  strtod : list Z → option spec_float;
  address_of : objptr → Z;
  handler_address : nat → Z
}.

(** ** Formats *)

(** A C string ends at its first zero. *)
Fixpoint cstr (l : list Z) : list Z :=
  match l with [] => [] | c :: l' => if c =? 0 then [] else c :: cstr l' end.

(** [snprintf] into a buffer of [n] characters that holds [buffer]. *)
Definition append_to (n : nat) (buffer text : list Z) : list Z := take (n - 1) (buffer ++ text).
Definition fit (n : nat) (text : list Z) : list Z := append_to n [] text.

(** The digits of a number of at most [fuel] digits. *)
Fixpoint decimal_digits (fuel : nat) (n : Z) : list Z :=
  match fuel with
  | O => []
  | S fuel' => (if n <? 10 then [] else decimal_digits fuel' (n / 10)) ++ [48 + n mod 10]
  end.
(** ["%d"], ["%u"] and the like: 20 digits are enough for 64 bits. *)
Definition decimal (n : Z) : list Z := if n <? 0 then 45 :: decimal_digits 20 (- n) else decimal_digits 20 n.

(** ** Types *)
Definition type_name (t : ConcreteYargType) : list Z :=
  match t with
  | TypeBool => codes "bool" | TypeDouble => codes "mfloat64" | TypeInt => codes "int"
  | TypeInt8 => codes "int8" | TypeUint8 => codes "uint8" | TypeInt16 => codes "int16"
  | TypeUint16 => codes "uint16" | TypeInt32 => codes "int32" | TypeUint32 => codes "uint32"
  | TypeInt64 => codes "int64" | TypeUint64 => codes "uint64" | TypeAddress => codes "address"
  | TypeString => codes "string" | TypeClass => codes "Class" | TypeInstance => codes "Instance"
  | TypeFunction => codes "Function" | TypeRoutine => codes "Routine" | TypeChannel => codes "Channel"
  | TypeSyncGroup => codes "SyncGroup" | TypeYargType => codes "Type"
  | TypeArray | TypeStruct | TypePointer | TypeMap => []
  end.

Fixpoint typeLiteralToString (t : YargType) : VMM strptr :=
  let at_ := at_type (intern (codes "any")) typeLiteralToString in
  match t with
  | Simple _ => intern (type_name (yt t))
  | Array _ cardinality element_type =>
      k ← at_ element_type; tempRootPush (STRING_VAL k) ;;
      cs ← chars_of k;
      k ← intern (fit 128 (cstr cs ++ codes "[" ++ (if 0 <? cardinality then decimal cardinality else []) ++ codes "]"));
      tempRootPop ;; mret k
  | Struct _ st =>
      let head := fit 1024 (codes "struct{|" ++ decimal (Z.of_nat (field_count st)) ++ codes ":" ++
                            decimal (storage_size st) ++ codes "| ") in
      buffer ← (fix fields (ts : list (option YargType)) (buffer : list Z) : VMM (list Z) :=
        match ts with
        | [] => mret buffer
        | f :: ts' =>
            k ← at_ f; tempRootPush (STRING_VAL k) ;; cs ← chars_of k; tempRootPop ;;
            fields ts' (append_to 1024 buffer (cstr cs ++ codes "; "))
        end) (field_types st) head;
      intern (append_to 1024 buffer (codes "}"))
  | Pointer _ target =>
      k ← at_ target; tempRootPush (STRING_VAL k) ;;
      cs ← chars_of k; k ← intern (fit 128 (codes "*" ++ cstr cs)); tempRootPop ;; mret k
  | Map _ key_type value_type =>
      v ← at_ value_type; tempRootPush (STRING_VAL v) ;;
      k ← at_ key_type; tempRootPush (STRING_VAL k) ;;
      vs ← chars_of v; ks ← chars_of k;
      k ← intern (fit 128 (cstr vs ++ codes "[" ++ cstr ks ++ codes "]"));
      tempRootPop ;; tempRootPop ;; mret k
  end.

Definition typeToString (t : YargType) : VMM strptr :=
  literalStr ← typeLiteralToString t; tempRootPush (STRING_VAL literalStr) ;;
  prefix ← intern (codes "Type:"); tempRootPush (STRING_VAL prefix) ;;
  k ← with_pool (concatenateStrings prefix literalStr);
  tempRootPop ;; tempRootPop ;; mret k.

(** [objectToString] of a type.  It has no case for pointer types, whose
    object tag is 17. *)
Definition type_objectToString (t : YargType) : VMM strptr :=
  match t with
  | Pointer _ _ => intern (codes "<implementation object 17>")
  | _ => typeToString t
  end.

(** ** Objects *)
Definition builtin_name (b : BuiltinFn) : list Z :=
  match b with
  | BUILTIN_STRING => codes "string" | BUILTIN_INT8 => codes "int8" | BUILTIN_INT16 => codes "int16"
  | BUILTIN_UINT16 => codes "uint16" | BUILTIN_UINT8 => codes "uint8" | BUILTIN_INT32 => codes "int32"
  | BUILTIN_UINT32 => codes "uint32" | BUILTIN_INT64 => codes "int64" | BUILTIN_UINT64 => codes "uint64"
  | BUILTIN_INT => codes "int" | BUILTIN_MFLOAT64 => codes "mfloat64" | BUILTIN_PEEK => codes "peek"
  | BUILTIN_LOAD => codes "load" | BUILTIN_NEW => codes "new" | BUILTIN_LEN => codes "len"
  | BUILTIN_READ_YARG_SOURCE => codes "read_yarg_source" | BUILTIN_READ_XIP_FILE => codes "vm_read_xip_file"
  | BUILTIN_COMPILE => codes "compile" | BUILTIN_MAKE_ROUTINE => codes "make_routine"
  | BUILTIN_RESUME => codes "resume" | BUILTIN_START => codes "start"
  | BUILTIN_MAKE_CHANNEL => codes "make_channel" | BUILTIN_SEND => codes "send"
  | BUILTIN_RECEIVE => codes "receive" | BUILTIN_SHARE => codes "share" | BUILTIN_CPEEK => codes "cpeek"
  | BUILTIN_MAKE_SYNCGROUP => codes "make_syncgroup"
  | _ => codes "<builtin fn>"
  end.

Definition functionToString (f : ObjFunction) : VMM strptr :=
  match fName f with
  | None => intern (codes "<script>")
  | Some name => cs ← chars_of name; intern (fit 64 (codes "<fn " ++ cstr cs ++ codes ">"))
  end.

(** ["%-*s"] *)
Definition pad_right (width : nat) (l : list Z) : list Z := l ++ replicate (width - List.length l) 32.

Section Text.
Context `{U : Uninit} `{TG : Target} `{HO : Host}.

Definition routineToString (p : objptr) : VMM strptr :=
  s ← get_vm;
  let text := codes "<R" ++ text_of_pointer (address_of p) ++ codes ">" in
  let named name := codes "<R" ++ pad_right (List.length text - 3) name ++ codes ">" in
  intern (if bool_decide (p = core0 s) then named (codes "core0")
          else if bool_decide (Some p = core1 s) then named (codes "core1")
          else text).

Definition intToString (b : BigSmallInt) : VMM strptr :=
  r ← vm_ints (with_int b (λ i, int_to_s i (replicate INT_STRLEN_FOR_INT254 0)));
  intern (cstr (drop (Z.to_nat r.2) r.1)).

(** Temporary roots while a command runs. *)
Fixpoint rooted {A} (vs : list Value) (c : VMM A) : VMM A :=
  match vs with [] => c | v :: vs' => tempRootPush v ;; a ← rooted vs' c; tempRootPop ;; mret a end.

(** The texts of a list of values, in a buffer; [roots]: how many temporary
    roots there are, the element and its text. *)
Section Elements.
Variable text : Value → VMM strptr.

Fixpoint elementsToString (roots : nat) (size : nat) (vs : list (VMM Value)) (last : list Z) (sep : list Z) (buffer : list Z)
    : VMM (list Z) :=
  match vs with
  | [] => mret buffer
  | v :: vs' =>
      v ← v;
      cs ← rooted (take roots [v]) (k ← text v; rooted (take (roots - 1) [STRING_VAL k]) (chars_of k));
      let buffer := append_to size buffer (cstr cs) in
      elementsToString roots size vs' last sep
        (append_to size buffer (match vs' with [] => last | _ => sep end))
  end.

Definition arrayToString (v : Value) : VMM strptr :=
  match type_of v with
  | Some (Array p n e as t) =>
      k ← type_objectToString t; cs ← chars_of k;
      buffer ← elementsToString 1 1024 ((λ i, with_heap (arrayElement v (Z.of_nat i))) <$> seq 0 (Z.to_nat n))
        [] (codes ", ") (fit 1024 (cstr cs ++ codes ":["));
      intern (append_to 1024 buffer (codes "]"))
  | _ => vm_fail
  end.

Definition structToString (v : Value) : VMM strptr :=
  match type_of v with
  | Some (Struct _ st) =>
      let n := field_count st in
      buffer ← elementsToString 2 1024 ((λ i, with_heap (structField v i)) <$> seq 0 n) (codes "; ") (codes "; ")
        (fit 1024 (codes "struct{|" ++ decimal (Z.of_nat n) ++ codes ":" ++ decimal (storage_size st) ++ codes "|"));
      intern (append_to 1024 buffer (codes "}"))
  | _ => vm_fail
  end.

(** The buffer has room for the decimal digits of a [uintptr_t]. *)
Definition pointerToString (v : Value) : VMM strptr :=
  match v with
  | TYPED_VAL (Pointer _ target) (Some p) =>
      k ← match target with None => intern (codes "nil") | Some t => type_objectToString t end;
      cs ← chars_of k;
      c ← with_heap (get_container p);
      tempRootPush (STRING_VAL k) ;;
      let string_length := (List.length cs + Z.to_nat (241 * sizeof_uintptr / 100 + 1) + 4)%nat in
      k ← intern (fit (S string_length) (codes "<*" ++ cstr cs ++ codes ":" ++ text_of_pointer (loc c) ++ codes ">"));
      tempRootPop ;; mret k
  | _ => vm_fail
  end.

Definition channelToString (c : Channel (V := Value)) : VMM strptr :=
  r ← opt (readCursor c);
  let at_ i := Z.to_nat ((r + Z.of_nat i) mod bufferSize c) in
  buffer ← elementsToString 0 256 ((λ i, opt (buffer c !! at_ i)) <$> seq 0 (Z.to_nat (occupied c)))
    [] (codes ", ") (codes "channel{");
  intern (append_to 256 buffer (codes "}")).

Definition syncGroupToString (g : ObjSyncGroup) : VMM strptr :=
  k ← text (result_array_val g); cs ← chars_of k;
  intern (append_to 256 (append_to 256 (codes "sync_group{") (cstr cs)) (codes "}")).

Definition mapToString (m : ObjMap) : VMM strptr :=
  k ← type_objectToString (map_type m); cs ← chars_of k;
  intern (fit 64 (codes "<map (" ++ decimal (count (mentries m)) ++ codes ") " ++ cstr cs ++ codes " >")).

(** [objectToString] of the objects of the common map.  A routine is printed
    by [routineToString], an upvalue is not a value of the language. *)
Definition objectToString (o : Obj) : VMM strptr :=
  match o with
  | OBJ_BOUND_METHOD b => c ← get_closure (method b); f ← get_function (function c); functionToString f
  | OBJ_CLASS k => cs ← chars_of (cname k); intern cs
  | OBJ_CLOSURE c => f ← get_function (function c); functionToString f
  | OBJ_FUNCTION f => functionToString f
  | OBJ_INSTANCE i => 
      k ← get_class (klass i); cs ← chars_of (cname k);
      intern (fit 64 (cstr cs ++ codes " instance"))
  | OBJ_NATIVE _ => intern (codes "<native fn>")
  | OBJ_BUILTIN b => intern (builtin_name b)
  | OBJ_CHANNELCONTAINER c => channelToString c
  | OBJ_SYNCGROUP g => syncGroupToString g
  | OBJ_UPVALUE _ => intern (codes "upvalue")
  | OBJ_MAP m => mapToString m
  | OBJ_ROUTINE _ => intern (codes "<implementation object 7>")
  end.
End Elements.

(** Containers can hold themselves: [None] is a recursion without end. *)
Fixpoint valueToString (fuel : nat) (v : Value) : VMM strptr :=
  match fuel with
  | O => vm_fail
  | S fuel' =>
      let text := valueToString fuel' in
      if IS_NIL v then intern (codes "nil")
      else
        match v with
        | BOOL_VAL b => intern (if b then codes "true" else codes "false")
        | DOUBLE_VAL d => intern (fit 32 (text_of_double d))
        | NUM_VAL _ n => intern (decimal n)
        | ADDRESS_VAL a => intern (fit 19 (text_of_pointer a))
        | INT_VAL b => intToString b
        | YARGTYPE_VAL t => type_objectToString t
        | TYPED_VAL (Simple String_) (Some k) => cs ← chars_of k; intern cs
        | TYPED_VAL (Simple Routine_) (Some p) => routineToString p
        | TYPED_VAL t _ =>
            match yt t with
            | TypeArray => arrayToString text v
            | TypeStruct => structToString text v
            | TypePointer => pointerToString v
            | _ => p ← opt (obj_at v); o ← get_obj p; objectToString text o
            end
        | _ => vm_fail
        end
  end.
End Text.
