(* ===== verification/Routine.v ===== *)
(** * Routines

    [cyarg/routine.c]: the value stack of a routine, a list of slices of 64
    cells, its call frames, its open upvalues, its errors, and how routines
    are entered, suspended and left.  With it the calls of [vm.c] that only
    work on a routine: [callfn] and [captureUpvalue].

    A pointer to a cell of the stack is an index, because slices do not move.
    [size_t] arithmetic wraps: an index below the stack is a very large one,
    and no slice holds it. *)
From Stdlib Require Import String Ascii.
From S2P Require Import Scanner.
From S2P Require Export Arith Text.
Open Scope Z_scope.

(** ** Fields of a routine *)
Definition set_slices (l : list StackSlice) (R : ObjRoutine) : ObjRoutine :=
  mkRoutine (frames R) (frameCount R) l (stackSliceCapacity R) (stackTopIndex R) (addSlice R) (runtimeErrors R)
    (entryFunction R) (entryArg R) (result R) (error R) (openUpvalues R) (state R).
Definition set_top (n : Z) (R : ObjRoutine) : ObjRoutine :=
  mkRoutine (frames R) (frameCount R) (stackSlices R) (stackSliceCapacity R) n (addSlice R) (runtimeErrors R)
    (entryFunction R) (entryArg R) (result R) (error R) (openUpvalues R) (state R).
Definition set_frames (fs : list CallFrame) (n : nat) (R : ObjRoutine) : ObjRoutine :=
  mkRoutine fs n (stackSlices R) (stackSliceCapacity R) (stackTopIndex R) (addSlice R) (runtimeErrors R)
    (entryFunction R) (entryArg R) (result R) (error R) (openUpvalues R) (state R).
Definition set_addSlice (b : bool) (R : ObjRoutine) : ObjRoutine :=
  mkRoutine (frames R) (frameCount R) (stackSlices R) (stackSliceCapacity R) (stackTopIndex R) b (runtimeErrors R)
    (entryFunction R) (entryArg R) (result R) (error R) (openUpvalues R) (state R).
Definition set_runtimeErrors (l : list strptr) (R : ObjRoutine) : ObjRoutine :=
  mkRoutine (frames R) (frameCount R) (stackSlices R) (stackSliceCapacity R) (stackTopIndex R) (addSlice R) l
    (entryFunction R) (entryArg R) (result R) (error R) (openUpvalues R) (state R).
Definition set_entryFunction (p : option objptr) (R : ObjRoutine) : ObjRoutine :=
  mkRoutine (frames R) (frameCount R) (stackSlices R) (stackSliceCapacity R) (stackTopIndex R) (addSlice R)
    (runtimeErrors R) p (entryArg R) (result R) (error R) (openUpvalues R) (state R).
Definition set_entryArg (v : Value) (R : ObjRoutine) : ObjRoutine :=
  mkRoutine (frames R) (frameCount R) (stackSlices R) (stackSliceCapacity R) (stackTopIndex R) (addSlice R)
    (runtimeErrors R) (entryFunction R) v (result R) (error R) (openUpvalues R) (state R).
Definition set_result (v : Value) (R : ObjRoutine) : ObjRoutine :=
  mkRoutine (frames R) (frameCount R) (stackSlices R) (stackSliceCapacity R) (stackTopIndex R) (addSlice R)
    (runtimeErrors R) (entryFunction R) (entryArg R) v (error R) (openUpvalues R) (state R).
Definition set_error (v : Value) (R : ObjRoutine) : ObjRoutine :=
  mkRoutine (frames R) (frameCount R) (stackSlices R) (stackSliceCapacity R) (stackTopIndex R) (addSlice R)
    (runtimeErrors R) (entryFunction R) (entryArg R) (result R) v (openUpvalues R) (state R).
Definition set_openUpvalues (p : option objptr) (R : ObjRoutine) : ObjRoutine :=
  mkRoutine (frames R) (frameCount R) (stackSlices R) (stackSliceCapacity R) (stackTopIndex R) (addSlice R)
    (runtimeErrors R) (entryFunction R) (entryArg R) (result R) (error R) p (state R).
Definition set_state (x : ExecState) (R : ObjRoutine) : ObjRoutine :=
  mkRoutine (frames R) (frameCount R) (stackSlices R) (stackSliceCapacity R) (stackTopIndex R) (addSlice R)
    (runtimeErrors R) (entryFunction R) (entryArg R) (result R) (error R) (openUpvalues R) x.

Definition modify_routine (r : objptr) (f : ObjRoutine → ObjRoutine) : VMM () :=
  R ← get_routine r; put_routine r (f R).

(** ** Creation *)
Definition nil_cell : ValueCell := mkCell NIL_VAL None.
Definition empty_slice : StackSlice := replicate (Z.to_nat SLICE_MAX) nil_cell.

Definition resetRoutine (R : ObjRoutine) : ObjRoutine :=
  set_result NIL_VAL (set_runtimeErrors [] (set_top 0 (set_frames (frames R) 0 (set_openUpvalues None R)))).

(** Of an object that is cleared. *)
Definition initRoutine : ObjRoutine :=
  resetRoutine (mkRoutine (replicate FRAMES_MAX (mkFrame None 0 0)) 0 [empty_slice] (GROW_CAPACITY 0) 0 true []
    None NIL_VAL NIL_VAL NIL_VAL None EXEC_UNBOUND).
Definition newRoutine : VMM objptr := new_obj (OBJ_ROUTINE initRoutine).

Section Routine.
Context `{U : Uninit} `{TG : Target} `{HO : Host}.

(** ** Cells *)
Definition slot (R : ObjRoutine) (index : Z) : option ValueCell :=
  if index <? SLICE_MAX * Z.of_nat (length (stackSlices R)) then
    sl ← stackSlices R !! Z.to_nat (index / SLICE_MAX); sl !! Z.to_nat (index mod SLICE_MAX)
  else None.
Definition set_slot (R : ObjRoutine) (index : Z) (c : ValueCell) : option ObjRoutine :=
  if index <? SLICE_MAX * Z.of_nat (length (stackSlices R)) then
    let i := Z.to_nat (index / SLICE_MAX) in
    sl ← stackSlices R !! i;
    Some (set_slices (<[i := <[Z.to_nat (index mod SLICE_MAX) := c]> sl]> (stackSlices R)) R)
  else None.

Definition peek_index (R : ObjRoutine) (distance : Z) : Z := usize (stackTopIndex R - 1 - distance).
Definition peekCell (r : objptr) (distance : Z) : VMM ValueCell :=
  R ← get_routine r; opt (slot R (peek_index R distance)).
Definition peek (r : objptr) (distance : Z) : VMM Value := c ← peekCell r distance; mret (cell_value c).
(** [*peekCell(routine, distance) = c] *)
Definition setCell (r : objptr) (distance : Z) (c : ValueCell) : VMM () :=
  R ← get_routine r; R ← opt (set_slot R (peek_index R distance) c); put_routine r R.

Definition pop (r : objptr) : VMM Value :=
  ret ← peek r 0; modify_routine r (λ R, set_top (usize (stackTopIndex R - 1)) R) ;; mret ret.
Fixpoint popN (r : objptr) (count : nat) : VMM () :=
  match count with O => mret () | S n => pop r ;; popN r n end.

(** ** Errors *)

(** The line of an instruction: that of the last entry up to it. *)
Fixpoint find_line (lines : list ChunkSource) (instruction line_ : Z) : Z :=
  match lines with
  | [] => line_
  | s :: lines' => if instruction <? address s then line_ else find_line lines' instruction (line s)
  end.

Definition allocValueArray (length : Z) : VMM Value :=
  p ← newYargType; let t := Array p length None in
  with_heap (c ← newPackedValueContainer (Some t); mret (TYPED_VAL t c)).
Fixpoint fill_array (array : Value) (cursor : Z) (vs : list Value) : VMM () :=
  match vs with
  | [] => mret ()
  | v :: vs' => with_heap (setArrayElement array cursor v) ;; fill_array array (cursor + 1) vs'
  end.
Definition duplicateAsValueArray (array : list strptr) : VMM Value :=
  match array with
  | [] => mret NIL_VAL
  | _ =>
      res ← allocValueArray (Z.of_nat (length array));
      fill_array res 0 (STRING_VAL <$> array) ;; mret res
  end.

(** The entry of one frame: ["[line %d] in %s"]. *)
Definition trace_frame (f : CallFrame) : VMM strptr :=
  c ← opt (closure f); c ← get_closure c; fn ← get_function (function c);
  let line := i16 (find_line (lines (chunk fn)) (usize (ip f - 1)) 0) in
  name ← match fName fn with Some n => chars_of n | None => mret (codes "<script>") end;
  intern (codes "[line " ++ decimal line ++ codes "] in " ++ cstr name).
Fixpoint trace_frames (fs : list CallFrame) : VMM (list strptr) :=
  match fs with
  | [] => mret []
  | f :: fs' => k ← trace_frame f; ks ← trace_frames fs'; mret (k :: ks)
  end.

(** The message is formatted by the caller. *)
Definition runtimeError (r : objptr) (message : list Z) : VMM () :=
  k ← intern message;
  R ← get_routine r;
  ks ← trace_frames (reverse (take (frameCount R) (frames R)));
  e ← duplicateAsValueArray (runtimeErrors R ++ k :: ks);
  modify_routine r (λ R, resetRoutine (set_state EXEC_ERROR (set_error e R))).

(** ** The value stack *)

(** [addSlice]; the slice is an object that the routine keeps alive. *)
Definition add_slice (R : ObjRoutine) : ObjRoutine :=
  let n := length (stackSlices R) in
  let capacity :=
    if (stackSliceCapacity R <? n + 1)%nat then GROW_CAPACITY (stackSliceCapacity R) else stackSliceCapacity R in
  mkRoutine (frames R) (frameCount R) (stackSlices R ++ [empty_slice]) capacity (stackTopIndex R) (addSlice R)
    (runtimeErrors R) (entryFunction R) (entryArg R) (result R) (error R) (openUpvalues R) (state R).

Definition push (r : objptr) (v : Value) : VMM () :=
  R ← get_routine r;
  R ← opt (set_slot R (stackTopIndex R) (mkCell v None));
  let R := set_top (usize (stackTopIndex R + 1)) R in
  put_routine r R ;;
  if Z.of_nat (length (stackSlices R)) <? stackTopIndex R / SLICE_MAX + 1 then
    if addSlice R then put_routine r (add_slice R)
    else runtimeError r (codes "Fixed Value stack size exceeded.")
  else mret ().

(** [type] is nil or a type. *)
Definition pushTyped (r : objptr) (v type : Value) : VMM () :=
  push r v ;;
  top ← peekCell r 0;
  t ← match type with
      | YARGTYPE_VAL t => mret (Some t)
      | _ => if IS_NIL type then mret None else vm_fail
      end;
  setCell r 0 (mkCell (cell_value top) t).

Definition get_frame (r : objptr) (fi : nat) : VMM CallFrame := R ← get_routine r; opt (frames R !! fi).
Definition popFrame (r : objptr) (f : CallFrame) : VMM () := modify_routine r (set_top (stackEntryIndex f)).

(** [frameSlot]: the distance that is computed leads back to the index. *)
Definition frameSlot (r : objptr) (f : CallFrame) (index : Z) : VMM ValueCell :=
  R ← get_routine r; peekCell r (usize (stackTopIndex R - (stackEntryIndex f + index + 1))).
Definition setFrameSlot (r : objptr) (f : CallFrame) (index : Z) (c : ValueCell) : VMM () :=
  R ← get_routine r; setCell r (usize (stackTopIndex R - (stackEntryIndex f + index + 1))) c.
Definition stackOffsetOf (f : CallFrame) (frameIndex : Z) : Z := stackEntryIndex f + frameIndex.

(** ** Calls *)
Definition callfn (r : objptr) (c : objptr) (argCount : Z) : VMM bool :=
  cl ← get_closure c; fn ← get_function (function cl);
  if negb (argCount =? arity fn) then
    runtimeError r (codes "Expected " ++ decimal (arity fn) ++ codes " arguments but got " ++ decimal argCount ++ codes ".") ;;
    mret false
  else
    R ← get_routine r;
    if (frameCount R =? FRAMES_MAX)%nat then runtimeError r (codes "Stack overflow.") ;; mret false
    else
      let f := mkFrame (Some c) 0 (usize (stackTopIndex R - (argCount + 1))) in
      put_routine r (set_frames (<[frameCount R := f]> (frames R)) (S (frameCount R)) R) ;;
      mret true.

(** [bindEntryFn]; [false] if the function has too many parameters. *)
Definition bindEntryFn (r : objptr) (c : objptr) : VMM bool :=
  cl ← get_closure c; fn ← get_function (function cl);
  if (arity fn =? 0) || (arity fn =? 1) then modify_routine r (set_entryFunction (Some c)) ;; mret true
  else mret false.
Definition bindEntryArgs (r : objptr) (v : Value) : VMM () := modify_routine r (set_entryArg v).

Definition entry_arity (r : objptr) : VMM (objptr * Z) :=
  R ← get_routine r; c ← opt (entryFunction R);
  cl ← get_closure c; fn ← get_function (function cl); mret (c, arity fn).
Definition pushEntryElements (r : objptr) : VMM () :=
  '(c, n) ← entry_arity r;
  push r (FUNCTION_VAL c) ;;
  if n =? 1 then R ← get_routine r; push r (entryArg R) else mret ().
Definition enterEntryFunction (r : objptr) : VMM () := '(c, n) ← entry_arity r; callfn r c n ;; mret ().

(** ** Upvalues *)

(** [*upvalue->contents] *)
Definition read_contents (u : ObjUpvalue) : VMM ValueCell :=
  match contents_ u with
  | OnStack r i => R ← get_routine r; opt (slot R i)
  | InUpvalue => mret (closed u)
  end.
Definition write_contents (p : objptr) (c : ValueCell) : VMM () :=
  u ← get_upvalue p;
  match contents_ u with
  | OnStack r i => R ← get_routine r; R ← opt (set_slot R i c); put_routine r R
  | InUpvalue => put_upvalue p (mkUpvalue InUpvalue (stackOffset u) c (next u))
  end.

(** The search of [captureUpvalue] in the list, which is sorted: the last
    upvalue above the slot, and what follows it.  [fuel] bounds its length. *)
Fixpoint find_upvalue (fuel : nat) (prev cur : option objptr) (offset : Z) : VMM (option objptr * option objptr) :=
  match fuel with
  | O => vm_fail
  | S fuel' =>
      match cur with
      | None => mret (prev, None)
      | Some p => 
          u ← get_upvalue p;
          if offset <? stackOffset u then find_upvalue fuel' (Some p) (next u) offset else mret (prev, Some p)
      end
  end.

(** Every upvalue of the list is an object. *)
Definition upvalue_fuel : VMM nat := s ← get_vm; mret (S (size (vm_objects s))).

(** The new upvalue goes between [prev] and [cur]. *)
Definition insert_upvalue (r : objptr) (index offset : Z) (prev cur : option objptr) : VMM objptr :=
  p ← newUpvalue (OnStack r index) offset;
  put_upvalue p (mkUpvalue (OnStack r index) offset nil_cell cur) ;;
  match prev with
  | None => modify_routine r (set_openUpvalues (Some p))
  | Some q => u ← get_upvalue q; put_upvalue q (mkUpvalue (contents_ u) (stackOffset u) (closed u) (Some p))
  end ;;
  mret p.
Definition captureUpvalue (r : objptr) (index offset : Z) : VMM objptr :=
  R ← get_routine r;
  n ← upvalue_fuel;
  '(prev, cur) ← find_upvalue n None (openUpvalues R) offset;
  match cur with
  | None => insert_upvalue r index offset prev cur
  | Some p => u ← get_upvalue p; if stackOffset u =? offset then mret p else insert_upvalue r index offset prev cur
  end.

Fixpoint close_upvalues (fuel : nat) (r : objptr) (last : Z) : VMM () :=
  match fuel with
  | O => vm_fail
  | S fuel' =>
      R ← get_routine r;
      match openUpvalues R with
      | None => mret ()
      | Some p =>
          u ← get_upvalue p;
          if last <=? stackOffset u then
            c ← read_contents u;
            put_upvalue p (mkUpvalue InUpvalue (stackOffset u) c (next u)) ;;
            modify_routine r (set_openUpvalues (next u)) ;;
            close_upvalues fuel' r last
          else mret ()
      end
  end.
Definition closeUpvalues (r : objptr) (last : Z) : VMM () := n ← upvalue_fuel; close_upvalues n r last.

Definition op_close_upvalues (r : objptr) : VMM () :=
  R ← get_routine r; closeUpvalues r (usize (stackTopIndex R - 1)) ;; pop r ;; mret ().

(** ** Return, yield, receive *)

(** The answer is the number of frames that are left. *)
Definition op_return (r : objptr) (f : CallFrame) : VMM nat :=
  v ← pop r;
  modify_routine r (set_result v) ;;
  closeUpvalues r (stackEntryIndex f) ;;
  modify_routine r (λ R, set_frames (frames R) (pred (frameCount R)) R) ;;
  popFrame r f ;;
  R ← get_routine r;
  push r (result R) ;;
  R ← get_routine r;
  (if (frameCount R =? 0)%nat then put_routine r (set_state EXEC_CLOSED R) else put_routine r (set_result NIL_VAL R)) ;;
  mret (frameCount R).

Definition yieldFromRoutine (r : objptr) : VMM () :=
  v ← peek r 0; modify_routine r (λ R, set_state EXEC_SUSPENDED (set_result v R)).

(** [allocValueStructPair] *)
Definition allocValueStructPair (left right : list Z) : VMM Value :=
  p ← newYargType;
  l ← intern left; k ← intern right;
  s ← get_vm;
  let str := vm_str s in
  st ← opt (appendFieldType str (newYargStructType 2) None l);
  st ← opt (appendFieldType str st None k);
  let t := Struct p st in
  with_heap (c ← newPackedValueContainer (Some t); mret (TYPED_VAL t c)).
Definition resultPair (e v : Value) : VMM Value :=
  p ← allocValueStructPair (codes "errors") (codes "result");
  with_heap (setStructField p 0 e) ;; with_heap (setStructField p 1 v) ;; mret p.

(** Without busy waiting; [None] is the answer [false]. *)
Definition receiveFromRoutine (r : objptr) : VMM (option Value) :=
  R ← get_routine r;
  match state R with
  | EXEC_CLOSED | EXEC_SUSPENDED => v ← resultPair NIL_VAL (result R); mret (Some v)
  | EXEC_ERROR => v ← resultPair (error R) NIL_VAL; mret (Some v)
  | _ => mret None
  end.

(** ** Pinned routines *)

(** [installPinnedRoutine]: the number of the handler. *)
Fixpoint free_pin (l : list (option objptr)) (i : nat) : option nat :=
  match l with [] => None | None :: _ => Some i | Some _ :: l' => free_pin l' (S i) end.
Definition installPinnedRoutine (r : objptr) : VMM (option nat) :=
  s ← get_vm;
  match free_pin (pinnedRoutines s) 0 with
  | Some i => put_vm (set_pinned (<[i := Some r]> (pinnedRoutines s))) ;; mret (Some i)
  | None => mret None
  end.
Definition pinRoutine (r : objptr) : VMM (option nat) :=
  R ← get_routine r;
  '(c, n) ← entry_arity r;
  st_assert (IS_NIL (entryArg R)) ;;
  st_assert (n =? 0) ;;
  i ← installPinnedRoutine r;
  match i with
  | Some i =>
      pushEntryElements r ;; enterEntryFunction r ;;
      modify_routine r (set_addSlice false) ;; mret (Some i)
  | None => mret None
  end.
End Routine.
