(* ===== verification/Vm.v ===== *)
(** * The run loop of the virtual machine

    [run] of [cyarg/vm.c] and the functions it calls: one Definition per
    helper, and [step], one turn of the loop, with a case per instruction.
    [Arith] has the operators on values; [Run] closes the recursion between
    the loop and the built-in functions that run other routines.

    The variable [frame] of the loop, a pointer to an entry of
    [routine->frames], is the index of the entry.  The lock [vm.env] is not
    modelled: one routine runs at a time. *)
From Stdlib Require Import String Ascii.
From S2P Require Import Scanner.
From S2P Require Export Routine.
Open Scope Z_scope.

Inductive InterpretResult := INTERPRET_OK | INTERPRET_RUNTIME_ERROR.

(** What a turn of the loop does: the next frame, or the result of [run]. *)
Inductive Turn := Go (frame : nat) | Exit (r : InterpretResult).

(** A function that is not code of the language. *)
Inductive Foreign := Native (n : nat) | Builtin (b : BuiltinFn).

Section Vm.
Context `{U : Uninit} `{TG : Target} `{HO : Host}.

(** The call of a foreign function by a routine; [None] is the answer
    [false].  [Builtins] has the built-in functions. *)
Variable foreign : Foreign → objptr → Z → VMM (option Value).

(** ** Tables of objects *)
Definition table_get (t : Table Value) (k : strptr) : VMM (option Value) :=
  s ← get_vm; opt (tableGet (vm_str s) t k).
Definition table_set (t : Table Value) (k : strptr) (v : Value) : VMM (Table Value) :=
  s ← get_vm; '(_, t) ← opt (tableSet (vm_str s) true t k v); mret t.

(** [AS_STRING], [AS_CLASS] and the like of a value that has been tested, or
    that the compiler put there. *)
Definition as_string (v : Value) : VMM strptr :=
  match v with TYPED_VAL (Simple String_) (Some k) => mret k | _ => vm_fail end.
Definition as_obj (v : Value) : VMM objptr := opt (obj_at v).

Definition target_yt (v : Value) : option ConcreteYargType :=
  match type_of v with Some (Pointer _ (Some t)) => Some (yt t) | _ => None end.
Definition isArrayPointer (v : Value) : bool := bool_decide (target_yt v = Some TypeArray).
Definition isStructPointer (v : Value) : bool := bool_decide (target_yt v = Some TypeStruct).
Definition isUint32Pointer (v : Value) : bool := bool_decide (target_yt v = Some TypeUint32).
Definition isAddressValue (v : Value) : bool :=
  match v with INT_VAL b => bsi_literal b | ADDRESS_VAL _ => true | _ => false end.

(** Pop [n] values, push one. *)
Definition replace_top (r : objptr) (n : nat) (v : Value) : VMM () := popN r n ;; push r v.

(** An error, and the end of [run]. *)
Definition fails (r : objptr) (message : list Z) : VMM Turn :=
  runtimeError r message ;; mret (Exit INTERPRET_RUNTIME_ERROR).

(** ** Calls *)
Definition interpret (ok : bool) : InterpretResult := if ok then INTERPRET_OK else INTERPRET_RUNTIME_ERROR.

(** [target->value = v; target->cellType = NULL] *)
Definition set_callee (r : objptr) (argCount : Z) (v : Value) : VMM () := setCell r argCount (mkCell v None).

Definition call_foreign (f : Foreign) (r : objptr) (argCount : Z) : VMM InterpretResult :=
  res ← foreign f r argCount;
  match res with
  | Some v => replace_top r (Z.to_nat argCount + 1) v ;; mret INTERPRET_OK
  | None => mret INTERPRET_RUNTIME_ERROR
  end.

Definition callValue (r : objptr) (callee : Value) (argCount : Z) : VMM InterpretResult :=
  o ← the_obj callee;
  match o with
  | Some (_, OBJ_BOUND_METHOD b) =>
      set_callee r argCount (reciever b) ;;
      ok ← callfn r (method b) argCount; mret (interpret ok)
  | Some (p, OBJ_CLASS k) =>
      i ← newInstance p;
      set_callee r argCount (FUNCTION_VAL i) ;;
      s ← get_vm;
      initializer ← table_get (methods k) (initString s);
      match initializer with
      | Some m => c ← as_obj m; ok ← callfn r c argCount; mret (interpret ok)
      | None =>
          if negb (argCount =? 0) then
            runtimeError r (codes "Expected 0 arguments but got " ++ decimal argCount ++ codes ".") ;;
            mret INTERPRET_RUNTIME_ERROR
          else mret INTERPRET_OK
      end
  | Some (p, OBJ_CLOSURE _) => ok ← callfn r p argCount; mret (interpret ok)
  | Some (_, OBJ_NATIVE n) => call_foreign (Native n) r argCount
  | Some (_, OBJ_BUILTIN b) => call_foreign (Builtin b) r argCount
  | _ => runtimeError r (codes "Can only call functions and classes.") ;; mret INTERPRET_RUNTIME_ERROR
  end.

Definition undefined_property (name : strptr) : VMM (list Z) :=
  cs ← chars_of name; mret (codes "Undefined property '" ++ cstr cs ++ codes "'.").

Definition invokeFromClass (r : objptr) (klass : objptr) (name : strptr) (argCount : Z) : VMM InterpretResult :=
  k ← get_class klass;
  m ← table_get (methods k) name;
  match m with
  | None => msg ← undefined_property name; runtimeError r msg ;; mret INTERPRET_RUNTIME_ERROR
  | Some m => c ← as_obj m; ok ← callfn r c argCount; mret (interpret ok)
  end.

Definition struct_type (v : Value) : option StructType :=
  match type_of v with Some (Struct _ st) => Some st | _ => None end.
Definition field_index (st : StructType) (name : strptr) : VMM (option nat) :=
  s ← get_vm; opt (structFieldIndex (vm_str s) st name).

Definition invoke (r : objptr) (name : strptr) (argCount : Z) : VMM InterpretResult :=
  receiver ← peek r argCount;
  o ← the_obj receiver;
  match o, struct_type receiver with
  | Some (_, OBJ_INSTANCE i), _ =>
      v ← table_get (fields i) name;
      match v with
      | Some v => set_callee r argCount v ;; callValue r v argCount
      | None => invokeFromClass r (klass i) name argCount
      end
  | _, Some st =>
      index ← field_index st name;
      match index with
      | None => runtimeError r (codes "field not present in struct.") ;; mret INTERPRET_RUNTIME_ERROR
      | Some i =>
          v ← with_heap (structField receiver i);
          f ← the_obj v;
          match f with
          | Some (p, OBJ_CLOSURE _) => ok ← callfn r p argCount; mret (interpret ok)
          | _ => runtimeError r (codes "field value must be function.") ;; mret INTERPRET_RUNTIME_ERROR
          end
      end
  | _, None => runtimeError r (codes "Only instances have methods.") ;; mret INTERPRET_RUNTIME_ERROR
  end.

(** An error leaves the loop to notice the state. *)
Definition bindMethod (r : objptr) (klass : objptr) (name : strptr) : VMM () :=
  k ← get_class klass;
  m ← table_get (methods k) name;
  match m with
  | None => msg ← undefined_property name; runtimeError r msg
  | Some m =>
      receiver ← peek r 0; c ← as_obj m;
      b ← newBoundMethod receiver c;
      replace_top r 1 (FUNCTION_VAL b)
  end.

Definition defineMethod (r : objptr) (name : strptr) : VMM () :=
  m ← peek r 0;
  c ← peek r 1; p ← as_obj c; k ← get_class p;
  t ← table_set (methods k) name m;
  put_obj p (OBJ_CLASS (mkClass (cname k) t)) ;;
  pop r ;; mret ().

(** ** Elements *)

(** The root is not popped on the error path. *)
Definition derefArrayElement_vm (r : objptr) : VMM () :=
  index ← peek r 0; collection ← peek r 1;
  ok ← vm_ints (is_positive_integer index);
  if (ok : bool) then
    i ← vm_ints (as_positive_integer index);
    let out := runtimeError r (codes "Array index " ++ decimal i ++ codes " out of bounds.") in
    if is_uniformarray collection then
      match type_of collection with
      | Some (Array _ n _) =>
          if n <=? i then out else v ← with_heap (arrayElement collection i); replace_top r 2 v
      | _ => vm_fail
      end
    else
      array ← with_heap (pointerDestination collection);
      tempRootPush array ;;
      match type_of array with
      | Some (Array _ n _) =>
          if n <=? i then out
          else
            p ← newYargType;
            v ← with_heap (arrayElementPointer p array i);
            tempRootPop ;; replace_top r 2 v
      | _ => vm_fail
      end
  else runtimeError r (codes "Expected an array and a positive or unsigned integer.").

Definition derefMapElement (r : objptr) : VMM () :=
  key ← peek r 0; mapVal ← peek r 1;
  if is_string key then
    p ← as_obj mapVal; m ← get_map p; k ← as_string key;
    v ← table_get (mentries m) k;
    replace_top r 2 (default NIL_VAL v)
  else runtimeError r (codes "Expected a string key.").

Definition derefStructElement_vm (r : objptr) : VMM () :=
  index ← peek r 0; container ← peek r 1;
  v ← with_heap (derefStructElement container index);
  match v with
  | Some v => replace_top r 2 v
  | None => runtimeError r (codes "Expected a positive integer.")
  end.

Definition op_deref_element (r : objptr) : VMM () :=
  collection ← peek r 1;
  o ← the_obj collection;
  if is_uniformarray collection || isArrayPointer collection then derefArrayElement_vm r
  else match o with
       | Some (_, OBJ_MAP _) => derefMapElement r
       | _ => if is_struct collection then derefStructElement_vm r
              else runtimeError r (codes "Expected a map, struct, or array as target.")
       end.

(** [setAnArrayElement] with its messages; [Packed.setAnArrayElement] is the
    same without. *)
Definition setAnArrayElement_vm (r : objptr) (array index rhs : Value) : VMM bool :=
  ok ← vm_ints (is_positive_integer index);
  if (ok : bool) then
    i ← vm_ints (as_positive_integer index);
    match type_of array with
    | Some (Array _ n _) =>
        if n <=? i then
          runtimeError r (codes "Array index " ++ decimal i ++ codes " out of bounds (0:" ++
                          decimal (usize (n - 1)) ++ codes ")") ;;
          mret false
        else
          set ← with_heap (setArrayElement array i rhs);
          if (set : bool) then mret true
          else runtimeError r (codes "Cannot set array element to incompatible type.") ;; mret false
    | _ => vm_fail
    end
  else runtimeError r (codes "Expected an array and a positive or unsigned integer.") ;; mret false.

Definition setMapElement (r : objptr) (map : objptr) (key rhs : Value) : VMM bool :=
  if is_string key then
    k ← as_string key; m ← get_map map;
    t ← table_set (mentries m) k rhs;
    put_obj map (OBJ_MAP (mkMap (map_type m) t)) ;; mret true
  else runtimeError r (codes "Expected a string key for map assignment.") ;; mret false.

(** On success the value stays above the collection's slot: two values are
    popped. *)
Definition op_set_element (r : objptr) : VMM () :=
  collection ← peek r 2; index ← peek r 1; rhs ← peek r 0;
  o ← the_obj collection;
  ok ← match o with
       | Some (p, OBJ_MAP _) => setMapElement r p index rhs
       | _ =>
           if is_uniformarray collection then setAnArrayElement_vm r collection index rhs
           else if is_struct collection then
             runtimeError r (codes "Setting struct elements is not supported yet.") ;; mret false
           else runtimeError r (codes "Expected an array and a positive or unsigned integer.") ;; mret false
       end;
  if (ok : bool) then popN r 2 else mret ().

Definition derefPtr (r : objptr) : VMM () :=
  p ← peek r 0; v ← with_heap (pointerDestination p); replace_top r 1 v.

Definition concatenate (r : objptr) : VMM () :=
  vb ← peek r 0; va ← peek r 1;
  b ← as_string vb; a ← as_string va;
  k ← with_pool (concatenateStrings a b);
  replace_top r 2 (STRING_VAL k).

(** ** Operators *)

(** [promote] of the two cells on top. *)
Definition promote_top (r : objptr) : VMM () :=
  left ← peekCell r 1; right ← peekCell r 0;
  '(a, b) ← vm_ints (promote (cell_value left) (cell_value right));
  setCell r 1 (mkCell a (cellType left)) ;; setCell r 0 (mkCell b (cellType right)).

(** More than any value needs: a container in eight others exhausts the
    temporary roots. *)
Definition text_fuel : nat := 64.

Definition runtimeBinaryOpTypeError (r : objptr) (op message : list Z) : VMM () :=
  lhs ← peek r 1; rhs ← peek r 0;
  lhsType ← opt (concrete_typeof lhs); push r lhsType ;;
  rhsType ← opt (concrete_typeof rhs); push r rhsType ;;
  ln ← valueToString text_fuel lhsType; push r (STRING_VAL ln) ;;
  rn ← valueToString text_fuel rhsType; push r (STRING_VAL rn) ;;
  ls ← chars_of ln; rs ← chars_of rn;
  runtimeError r (op ++ codes " Operands " ++ cstr ls ++ codes " " ++ cstr rs ++ codes " must both be " ++ message).

(** The effect of an operator that takes [n] values. *)
Definition outcome (r : objptr) (n : nat) (o : Outcome) (on_error : VMM Turn) (fi : nat) : VMM Turn :=
  match o with
  | Push v => replace_top r n v ;; mret (Go fi)
  | OffsetPointer =>
      offset ← pop r; pointer ← pop r;
      with_heap (offsetPointerDestination pointer offset) ;;
      push r pointer ;; mret (Go fi)
  | Concatenate => concatenate r ;; mret (Go fi)
  | RuntimeError => on_error
  end.

Definition type_error (r : objptr) (op message : list Z) : VMM Turn :=
  runtimeBinaryOpTypeError r op message ;; mret (Exit INTERPRET_RUNTIME_ERROR).

(** [BINARY_OP] and the like: the operands are promoted in place. *)
Definition binary (r : objptr) (op : Value → Value → M Outcome) (on_error : VMM Turn) (fi : nat) : VMM Turn :=
  promote_top r ;;
  a ← peek r 1; b ← peek r 0;
  o ← vm_ints (op a b);
  outcome r 2 o on_error fi.

Definition numbers : list Z := codes "numbers, integers or unsigned integers.".
Definition unsigned : list Z := codes "unsigned integers.".

(** The addresses that pointers lead to, for the comparison of values. *)
Definition vm_loc (s : VM) (p : objptr) : Z :=
  match containers (vm_heap s) !! p with Some c => loc c | None => 0 end.

Definition compare (r : objptr) (op : option comparison) (sign : list Z) (fi : nat) : VMM Turn :=
  a ← peek r 1; b ← peek r 0;
  match a, b with
  | INT_VAL x, INT_VAL y => o ← vm_ints (compare_ints op x y); outcome r 2 o vm_fail fi
  | _, _ =>
      s ← get_vm;
      binary r (compare_vals (vm_loc s) op) (type_error r sign numbers) fi
  end.
End Vm.
