(* ===== verification/Step.v ===== *)
(** * The instructions

    The [switch] of [run] in [cyarg/vm.c], a Definition per instruction that
    is more than a call, and one turn of the loop.  Poking an address prints,
    as in the build for a hosting operating system without the test system. *)
From Stdlib Require Import String Ascii.
From S2P Require Import Scanner.
From S2P Require Export Vm.
Open Scope Z_scope.

Section Step.
Context `{U : Uninit} `{TG : Target} `{HO : Host}.
Variable foreign : Foreign → objptr → Z → VMM (option Value).

(** ** Reading the code *)
Definition set_ip (i : Z) (f : CallFrame) : CallFrame := mkFrame (closure f) i (stackEntryIndex f).
Definition move_ip (r : objptr) (fi : nat) (by_ : Z) : VMM () :=
  f ← get_frame r fi;
  modify_routine r (λ R, set_frames (<[fi := set_ip (ip f + by_) f]> (frames R)) (frameCount R) R).
Definition frame_function (r : objptr) (fi : nat) : VMM ObjFunction :=
  f ← get_frame r fi; c ← opt (closure f); cl ← get_closure c; get_function (function cl).

Definition READ_BYTE (r : objptr) (fi : nat) : VMM Z :=
  f ← get_frame r fi; fn ← frame_function r fi;
  b ← opt (if 0 <=? ip f then code (chunk fn) !! Z.to_nat (ip f) else None);
  move_ip r fi 1 ;; mret b.
Definition READ_SHORT (r : objptr) (fi : nat) : VMM Z :=
  hi ← READ_BYTE r fi; lo ← READ_BYTE r fi; mret (Z.lor (Z.shiftl hi 8) lo).
Definition READ_CONSTANT (r : objptr) (fi : nat) : VMM Value :=
  b ← READ_BYTE r fi; fn ← frame_function r fi;
  let cs := constants (chunk fn) in
  opt (if b <? Z.of_nat (acount cs) then avalues cs !! Z.to_nat b else None).
Definition READ_STRING (r : objptr) (fi : nat) : VMM strptr := v ← READ_CONSTANT r fi; as_string v.

(** The frame to go on with, after a call. *)
Definition top_frame (r : objptr) : VMM Turn := R ← get_routine r; mret (Go (pred (frameCount R))).
Definition after_call (r : objptr) (x : InterpretResult) : VMM Turn :=
  match x with INTERPRET_OK => top_frame r | e => mret (Exit e) end.

Section Instructions.
Variables (r : objptr) (fi : nat).

Abbreviation go := (mret (Go fi)).

(** ** Constants *)
Definition op_immediate_turn (negative : bool) (n : nat) : VMM Turn :=
  b0 ← READ_BYTE r fi;
  b1 ← (if (1 <? n)%nat then b ← READ_BYTE r fi; mret [b] else mret []);
  b2 ← (if (2 <? n)%nat then b ← READ_BYTE r fi; mret [b] else mret []);
  v ← vm_ints (op_immediate negative (b0 :: b1 ++ b2));
  push r v ;; go.

(** Without the test system, its functions are nil. *)
Definition getBuiltin (b : Z) : VMM Value :=
  match builtins !! Z.to_nat b with
  | None | Some (BUILTIN_TS_SET | BUILTIN_TS_READ | BUILTIN_TS_WRITE | BUILTIN_TS_INTERRUPT | BUILTIN_TS_SYNC) =>
      mret NIL_VAL
  | Some f => p ← newBuiltin f; mret (BUILTIN_VAL p)
  end.

(** ** Variables *)

(** [assignToValueCellTarget] of a cell that is read with [c] and written
    with [set]. *)
Definition assign_cell (c : ValueCell) (rhs : Value) (set : ValueCell → VMM ()) (message : list Z) : VMM Turn :=
  v ← vm_ints (assignToValueCellTarget (cellType c) rhs);
  match v with
  | Some v => set (mkCell v (cellType c)) ;; go
  | None => fails r message
  end.

Definition op_set_local : VMM Turn :=
  slot ← READ_BYTE r fi;
  rhs ← peek r 0; f ← get_frame r fi; lhs ← frameSlot r f slot;
  assign_cell lhs rhs (setFrameSlot r f slot) (codes "Cannot set local variable to incompatible type.").
Definition op_get_local : VMM Turn :=
  slot ← READ_BYTE r fi; f ← get_frame r fi;
  c ← frameSlot r f slot; push r (cell_value c) ;; go.

Definition undefined_variable (op : list Z) (name : strptr) : VMM Turn :=
  cs ← chars_of name; fails r (codes "Undefined variable (" ++ op ++ codes ") '" ++ cstr cs ++ codes "'.").

Definition op_get_global : VMM Turn :=
  name ← READ_STRING r fi;
  s ← get_vm;
  c ← opt (tableCellGet (vm_str s) (globals s) name);
  match c with
  | Some c => push r (cell_value c) ;; go
  | None => undefined_variable (codes "OP_GET_GLOBAL") name
  end.
Definition op_define_global : VMM Turn :=
  name ← READ_STRING r fi;
  c ← peekCell r 0;
  s ← get_vm;
  '(_, t) ← opt (tableCellSet (vm_str s) (globals s) name c);
  put_vm (set_globals t) ;;
  pop r ;; go.
(** [tableCellGetPlace] answers with the address of a cell in the table. *)
Definition set_place (i : nat) (c : ValueCell) (t : Table ValueCell) : Table ValueCell :=
  mkTable (count t) (capacity t) (alter (λ e, mkEntry (key e) c) i (entries t)).
Definition op_set_global : VMM Turn :=
  name ← READ_STRING r fi;
  s ← get_vm;
  place ← opt (tableCellGetPlace (vm_str s) (globals s) name);
  match place with
  | Some i =>
      e ← opt (entries (globals s) !! i);
      rhs ← peek r 0;
      assign_cell (value e) rhs (λ c, put_vm (λ s, set_globals (set_place i c (globals s)) s))
        (codes "Cannot set global variable to incompatible type.")
  | None => undefined_variable (codes "OP_SET_GLOBAL") name
  end.

Definition op_initialise : VMM Turn :=
  lhs ← peekCell r 1; rhs ← peek r 0;
  v ← vm_ints (assignToValueCellTarget (cellType lhs) rhs);
  match v with
  | Some v => setCell r 1 (mkCell v (cellType lhs)) ;; pop r ;; go
  | None => fails r (codes "Cannot initialise variable with this value.")
  end.
Definition op_duplicate : VMM Turn :=
  rhs ← peek r 0; lhs ← with_heap (duplicateValue rhs); replace_top r 1 lhs ;; go.

(** [frame->closure->upvalues[slot]] *)
Definition frame_upvalue (slot : Z) : VMM objptr :=
  f ← get_frame r fi; c ← opt (closure f); cl ← get_closure c;
  u ← opt (upvalues cl !! Z.to_nat slot); opt u.
Definition op_get_upvalue : VMM Turn :=
  slot ← READ_BYTE r fi; p ← frame_upvalue slot; u ← get_upvalue p;
  c ← read_contents u; push r (cell_value c) ;; go.
Definition op_set_upvalue : VMM Turn :=
  slot ← READ_BYTE r fi; rhs ← peek r 0;
  p ← frame_upvalue slot; u ← get_upvalue p; c ← read_contents u;
  assign_cell c rhs (write_contents p) (codes "Cannot set local variable to incompatible type.").

(** ** Properties *)
Definition no_field : VMM Turn := fails r (codes "field not present in struct.").

Definition op_get_property : VMM Turn :=
  v ← peek r 0;
  o ← the_obj v;
  match o, struct_type v, v with
  | Some (_, OBJ_INSTANCE i), _, _ =>
      name ← READ_STRING r fi;
      field ← table_get (fields i) name;
      match field with
      | Some x => replace_top r 1 x ;; go
      | None => bindMethod r (klass i) name ;; go
      end
  | _, Some st, _ =>
      name ← READ_STRING r fi;
      index ← field_index st name;
      match index with
      | Some i => x ← with_heap (structField v i); replace_top r 1 x ;; go
      | None => no_field
      end
  | _, _, INT_VAL b =>
      pop r ;;
      name ← READ_STRING r fi;
      cs ← chars_of name;
      if bool_decide (cstr cs = codes "overflow") then
        flag ← vm_ints (with_int b (λ p, i ← get p; mret (overflow_ i)));
        push r (BOOL_VAL flag) ;; go
      else fails r (codes "Undefined property '" ++ cstr cs ++ codes "' on int. Only 'overflow' is available.")
  | _, _, _ =>
      if isStructPointer v then
        name ← READ_STRING r fi;
        structVal ← with_heap (pointerDestination v);
        tempRootPush structVal ;;
        st ← opt (struct_type structVal);
        index ← field_index st name;
        match index with
        | Some i =>
            p ← newYargType;
            x ← with_heap (structFieldPointer p structVal i);
            tempRootPop ;; replace_top r 1 x ;; go
        | None => no_field                          (* the root stays *)
        end
      else fails r (codes "Only instances, structs, pointers to structs have properties.")
  end.

Definition op_set_property : VMM Turn :=
  target ← peek r 1;
  o ← the_obj target;
  match o, struct_type target with
  | Some (p, OBJ_INSTANCE i), _ =>
      name ← READ_STRING r fi;
      v ← peek r 0;
      t ← table_set (fields i) name v;
      put_obj p (OBJ_INSTANCE (mkInstance (klass i) t)) ;;
      replace_top r 2 v ;; go
  | _, Some st =>
      name ← READ_STRING r fi;
      index ← field_index st name;
      match index with
      | None => no_field
      | Some i =>
          v ← peek r 0;
          ok ← with_heap (setStructField target i v);
          if (ok : bool) then replace_top r 2 v ;; go
          else fails r (codes "cannot assign to field type.")
      end
  | _, None => fails r (codes "Only instances and structs have fields.")
  end.

Definition op_get_super : VMM Turn :=
  name ← READ_STRING r fi; c ← pop r; p ← as_obj c; bindMethod r p name ;; go.

(** ** Output and errors *)
Definition op_print : VMM Turn :=
  v ← peek r 0;
  k ← valueToString text_fuel v;
  push r (STRING_VAL k) ;;
  cs ← chars_of k;
  put_vm (λ s, set_output (output s ++ [cstr cs]) s) ;;
  pop r ;; pop r ;; go.

Definition op_error : VMM Turn :=
  v ← pop r;
  if IS_NIL v then fails r (codes "Error: a non-nil value is required for error.")
  else if is_uniformarray v then
    modify_routine r (λ R, resetRoutine (set_state EXEC_ERROR (set_error v R))) ;;
    mret (Exit INTERPRET_RUNTIME_ERROR)
  else k ← valueToString text_fuel v; cs ← chars_of k; fails r (codes "Error: " ++ cstr cs).

(** ["0x%08lx"] *)
Fixpoint hex_digits (fuel : nat) (n : Z) : list Z :=
  match fuel with
  | O => []
  | S fuel' =>
      let d := n mod 16 in
      hex_digits fuel' (n / 16) ++ [if d <? 10 then 48 + d else 87 + d]
  end.
Definition hex8 (n : Z) : list Z := codes "0x" ++ hex_digits (if n <? 2 ^ 32 then 8 else Z.to_nat (Z.log2 n / 4 + 1)) n.

Definition op_poke : VMM Turn :=
  location ← peek r 0; assignment ← peek r 1;
  if negb (isAddressValue location || isUint32Pointer location) then
    fails r (codes "Location must be a pointer to an uint32 or address.")
  else
    ok ← vm_ints (is_positive_integer assignment);
    if negb ok then fails r (codes "Value must be a positive integer.")
    else
      a ← match location with
          | ADDRESS_VAL a => mret a
          | INT_VAL b => x ← vm_ints (with_int b (λ p, int_to_u64 p)); mret (x mod 2 ^ (8 * sizeof_uintptr))
          | _ => '(_, c) ← with_heap (AS_PACKEDCONTAINER location); mret (loc c)
          end;
      val ← vm_ints (as_positive_integer assignment);
      put_vm (λ s, set_output (output s ++ [codes "poke " ++ hex8 a ++ codes ", " ++ hex8 val]) s) ;;
      popN r 2 ;; go.

(** ** Control *)
Definition op_jump_if_false : VMM Turn :=
  offset ← READ_SHORT r fi; v ← peek r 0;
  (if isFalsey v then move_ip r fi offset else mret ()) ;; go.

Definition op_call : VMM Turn :=
  argCount ← READ_BYTE r fi;
  callee ← peek r argCount;
  x ← callValue foreign r callee argCount; after_call r x.
Definition op_invoke : VMM Turn :=
  name ← READ_STRING r fi; argCount ← READ_BYTE r fi;
  x ← invoke foreign r name argCount; after_call r x.
Definition op_super_invoke : VMM Turn :=
  name ← READ_STRING r fi; argCount ← READ_BYTE r fi;
  c ← pop r; p ← as_obj c;
  x ← invokeFromClass r p name argCount; after_call r x.

(** The loop of [OP_CLOSURE]: [n] upvalues from [i] on. *)
Fixpoint capture_all (c : objptr) (n i : nat) : VMM () :=
  match n with
  | O => mret ()
  | S n' =>
      isLocal ← READ_BYTE r fi; index ← READ_BYTE r fi;
      u ← (if negb (isLocal =? 0) then
             f ← get_frame r fi;
             frameSlot r f index ;;
             captureUpvalue r (usize (stackEntryIndex f + index)) (stackOffsetOf f index)
           else frame_upvalue index);
      cl ← get_closure c;
      put_obj c (OBJ_CLOSURE (mkClosure (function cl) (<[i := Some u]> (upvalues cl)))) ;;
      capture_all c n' (S i)
  end.
Definition op_closure : VMM Turn :=
  v ← READ_CONSTANT r fi; p ← as_obj v;
  fn ← get_function p;
  c ← newClosure p;
  push r (FUNCTION_VAL c) ;;
  capture_all c (upvalueCount fn) 0 ;; go.

Definition op_yield : VMM Turn :=
  s ← get_vm;
  if bool_decide (r = core0 s) then fails r (codes "Cannot yield from initial routine.")
  else yieldFromRoutine r ;; mret (Exit INTERPRET_OK).
Definition op_return_turn : VMM Turn :=
  f ← get_frame r fi;
  n ← op_return r f;
  if (n =? 0)%nat then mret (Exit INTERPRET_OK) else top_frame r.

(** ** Classes *)
Definition op_class : VMM Turn := name ← READ_STRING r fi; p ← newClass name; push r (CLASS_VAL p) ;; go.
Definition op_inherit : VMM Turn :=
  super ← peek r 1;
  o ← the_obj super;
  match o with
  | Some (_, OBJ_CLASS k) =>
      sub ← peek r 0; p ← as_obj sub; c ← get_class p;
      s ← get_vm;
      t ← opt (tableAddAll (vm_str s) true (methods k) (methods c));
      put_obj p (OBJ_CLASS (mkClass (cname c) t)) ;;
      pop r ;; go
  | _ => fails r (codes "Superclass must be a class.")
  end.

(** ** Types *)
Definition op_type_literal : VMM Turn :=
  typeCode ← READ_BYTE r fi;
  match newYargTypeFromTypeCode typeCode with
  | None => fails r (codes "Unknown type literal.")
  | Some t => push r (YARGTYPE_VAL t) ;; go
  end.

(** [AS_YARGTYPE] of a nil is a null pointer. *)
Definition as_yargtype (v : Value) : VMM (option YargType) :=
  match v with
  | YARGTYPE_VAL t => mret (Some t)
  | _ => if IS_NIL v then mret None else vm_fail
  end.

Definition field_offset (v : Value) : M FieldOffset :=
  if IS_NIL v then mret Auto
  else
    ok ← is_positive_integer v;
    if (ok : bool) then o ← as_positive_integer v; mret (At o) else mret Other.
(** The loop over the fields; [None] is the error. *)
Fixpoint type_struct_loop (n : nat) (st : StructType) : VMM (option StructType) :=
  match n with
  | O => mret (Some st)
  | S n' =>
      fieldTypeVal ← peek r 2; offsetValue ← peek r 1; nameVal ← peek r 0;
      name ← as_string nameVal;
      offset ← vm_ints (field_offset offsetValue);
      s ← get_vm;
      let fieldType := match fieldTypeVal with YARGTYPE_VAL t => Some t | _ => None end in
      x ← opt (type_struct_fields (vm_str s) [(fieldType, offset, name)] st);
      match x with
      | inl st => popN r 3 ;; type_struct_loop n' st
      | inr _ => mret None
      end
  end.
Definition op_type_struct_turn : VMM Turn :=
  fieldCount ← READ_BYTE r fi;
  p ← newYargType;
  tempRootPush (IMPL_OBJ_VAL (Some p)) ;;
  st ← type_struct_loop (Z.to_nat fieldCount) (newYargStructType (Z.to_nat fieldCount));
  match st with
  | Some st => push r (YARGTYPE_VAL (Struct p st)) ;; tempRootPop ;; go
  | None => fails r (codes "Field already exists in struct.")       (* the root stays *)
  end.

Definition op_type_indexed_collection_turn : VMM Turn :=
  indexer ← peek r 0; element ← peek r 1;
  let build e i :=
    p ← newYargType;
    match op_type_indexed_collection p e i with
    | Some t => replace_top r 2 (YARGTYPE_VAL t) ;; go
    | None => fails r (match i with
                       | ByType _ => codes "Unsupported map key type."
                       | _ => codes "Array cardinality must be non zero."
                       end)
    end in
  match indexer with
  | YARGTYPE_VAL k => e ← as_yargtype element; build e (ByType (Some k))
  | _ =>
      if IS_NIL indexer then e ← as_yargtype element; build e (ByType None)
      else
        ok ← vm_ints (is_positive_integer indexer);
        if (ok : bool) then
          n ← vm_ints (as_positive_integer indexer);
          e ← (if n =? 0 then mret None else as_yargtype element);
          build e (ByNumber n)
        else fails r (codes "Collection must be array or map.")
  end.

Definition op_set_cell_type : VMM Turn :=
  type ← peek r 0;
  t ← as_yargtype type;
  def ← with_heap (defaultValue t);
  pop r ;; pushTyped r def type ;; go.

(** ** Pointers *)
Definition op_set_ptr_target : VMM Turn :=
  rhs ← peek r 0; lhs ← peek r 1;
  ok ← with_heap (setPointerDestination lhs rhs);
  if (ok : bool) then replace_top r 2 rhs ;; go
  else fails r (codes "Cannot set pointer target to incompatible type.").

Definition op_place : VMM Turn :=
  location ← peek r 0; type ← peek r 1;
  t ← as_yargtype type;
  if negb (is_placeable_type t) then fails r (codes "Cannot place this type.")
  else
    match location with
    | ADDRESS_VAL a =>
        p ← newYargType;
        let pointerType := Pointer p t in
        push r (YARGTYPE_VAL pointerType) ;;
        v ← with_heap (createPackedValueContainerAt a pointerType);
        popN r 3 ;; push r v ;; go
    | _ => fails r (codes "Value must be an address")
    end.

(** ** The switch *)
Definition instruction (o : OpCode) : VMM Turn :=
  match o with
  | OP_CONSTANT => v ← READ_CONSTANT r fi; push r v ;; go
  | OP_IMMEDIATE_P8 => op_immediate_turn false 1
  | OP_IMMEDIATE_P16 => op_immediate_turn false 2
  | OP_IMMEDIATE_P24 => op_immediate_turn false 3
  | OP_IMMEDIATE_N8 => op_immediate_turn true 1
  | OP_IMMEDIATE_N16 => op_immediate_turn true 2
  | OP_IMMEDIATE_N24 => op_immediate_turn true 3
  | OP_NIL => push r NIL_VAL ;; go
  | OP_TRUE => push r (BOOL_VAL true) ;; go
  | OP_FALSE => push r (BOOL_VAL false) ;; go
  | OP_POP => pop r ;; go
  | OP_GET_BUILTIN => b ← READ_BYTE r fi; v ← getBuiltin b; push r v ;; go
  | OP_SET_LOCAL => op_set_local
  | OP_GET_LOCAL => op_get_local
  | OP_GET_GLOBAL => op_get_global
  | OP_DEFINE_GLOBAL => op_define_global
  | OP_SET_GLOBAL => op_set_global
  | OP_INITIALISE => op_initialise
  | OP_DUPLICATE => op_duplicate
  | OP_GET_UPVALUE => op_get_upvalue
  | OP_SET_UPVALUE => op_set_upvalue
  | OP_GET_PROPERTY => op_get_property
  | OP_SET_PROPERTY => op_set_property
  | OP_GET_SUPER => op_get_super
  | OP_EQUAL => compare r None (codes "==") fi
  | OP_GREATER => compare r (Some Greater) (codes ">") fi
  | OP_LESS => compare r (Some Less) (codes "<") fi
  | OP_LEFT_SHIFT => binary r (BINARY_UINT_OP ShiftLeft) (type_error r (codes "<<") unsigned) fi
  | OP_RIGHT_SHIFT => binary r (BINARY_UINT_OP ShiftRight) (type_error r (codes ">>") unsigned) fi
  | OP_BITOR => binary r (BINARY_UINT_OP BitOr) (type_error r (codes "|") unsigned) fi
  | OP_BITAND => binary r (BINARY_UINT_OP BitAnd) (type_error r (codes "&") unsigned) fi
  | OP_BITXOR => binary r (BINARY_UINT_OP BitXor) (type_error r (codes "^") unsigned) fi
  | OP_ADD => binary r op_add (fails r (codes "Operands must be two numbers or two strings.")) fi
  | OP_MODULO =>
      binary r op_modulo (fails r (codes "Operands must integers or unsigned integers of same type.")) fi
  | OP_SUBTRACT => binary r (BINARY_OP Minus) (type_error r (codes "-") numbers) fi
  | OP_MULTIPLY => binary r (BINARY_OP Times) (type_error r (codes "*") numbers) fi
  | OP_DIVIDE => binary r (BINARY_OP Divide) (type_error r (codes "/") numbers) fi
  | OP_NOT => v ← pop r; push r (op_not v) ;; go
  | OP_NEGATE =>
      v ← peek r 0; o ← vm_ints (op_negate v);
      outcome r 1 o (fails r (codes "Operand must be a number or integer.")) fi
  | OP_ERROR => op_error
  | OP_PRINT => op_print
  | OP_POKE => op_poke
  | OP_JUMP => offset ← READ_SHORT r fi; move_ip r fi offset ;; go
  | OP_JUMP_IF_FALSE => op_jump_if_false
  | OP_LOOP => offset ← READ_SHORT r fi; move_ip r fi (- offset) ;; go
  | OP_CALL => op_call
  | OP_INVOKE => op_invoke
  | OP_SUPER_INVOKE => op_super_invoke
  | OP_CLOSURE => op_closure
  | OP_CLOSE_UPVALUE => op_close_upvalues r ;; go
  | OP_YIELD => op_yield
  | OP_RETURN => op_return_turn
  | OP_CLASS => op_class
  | OP_INHERIT => op_inherit
  | OP_METHOD => name ← READ_STRING r fi; defineMethod r name ;; go
  | OP_ELEMENT => op_deref_element r ;; go
  | OP_SET_ELEMENT => op_set_element r ;; go
  | OP_TYPE_LITERAL => op_type_literal
  | OP_TYPE_STRUCT => op_type_struct_turn
  | OP_TYPE_INDEXED_COLLECTION => op_type_indexed_collection_turn
  | OP_SET_CELL_TYPE => op_set_cell_type
  | OP_DEREF_PTR => derefPtr r ;; go
  | OP_SET_PTR_TARGET => op_set_ptr_target
  | OP_PLACE => op_place
  end.

(** One turn of the loop.  The [switch] has no default case. *)
Definition turn : VMM Turn :=
  R ← get_routine r;
  if bool_decide (state R = EXEC_ERROR) then
    st_assert (negb (IS_NIL (error R))) ;; mret (Exit INTERPRET_RUNTIME_ERROR)
  else
    b ← READ_BYTE r fi;
    match decode b with Some o => instruction o | None => go end.
End Instructions.

(** [n] turns at most; [None] inside is a loop that goes on. *)
Fixpoint turns (n : nat) (r : objptr) (fi : nat) : VMM (nat + InterpretResult) :=
  match n with
  | O => mret (inl fi)
  | S n' =>
      t ← turn r fi;
      match t with
      | Go fi' => turns n' r fi'
      | Exit x => mret (inr x)
      end
  end.
End Step.
