(* ===== verification/Builtins.v ===== *)
(** * Built-in functions

    [cyarg/builtin.c] with [resumeRoutine] and [startRoutine] of [routine.c]:
    the functions of the language that are written in C.  A call answers
    [Some] value, or [None] for [false]; not every [false] comes with a
    runtime error.

    [run] is the loop that runs another routine; [host] answers the functions
    that read files, compile and load, and the natives of [native.c].  A wait
    that no other thread can end does not return: it is a [None] of the
    monad, like undefined behaviour. *)
From Stdlib Require Import String Ascii.
From S2P Require Import IntText Scanner.
From S2P Require Export Step.
Open Scope Z_scope.

Section Builtins.
Context `{U : Uninit} `{TG : Target} `{HO : Host}.
(** The build that waits busily, [CYARG_PICO_BUSY_SYNC]. *)
Variable busy : bool.
Variable run : objptr → VMM InterpretResult.
Variable host : Foreign → objptr → Z → VMM (option Value).

Abbreviation Answer := (VMM (option Value)).

Definition yes (v : Value) : Answer := mret (Some v).
Definition no (r : objptr) (message : list Z) : Answer := runtimeError r message ;; mret None.
Definition expected (what : list Z) (argCount : Z) : list Z := codes "Expected " ++ what ++ decimal argCount ++ codes ".".

Section Calls.
Variables (r : objptr) (argCount : Z).

(** ** Channels *)
Definition makeChannelBuiltin : Answer :=
  if 2 <=? argCount then no r (expected (codes "0 or 1 arguments but got ") argCount)
  else
    arg ← (if argCount =? 0 then mret (NUM_VAL UI32 1) else peek r 0);
    ok ← vm_ints (is_positive_integer arg);
    if (ok : bool) then
      capacity ← vm_ints (as_positive_integer arg);
      c ← new_obj (OBJ_CHANNELCONTAINER (newChannel NIL_VAL capacity));
      push r (IMPL_OBJ_VAL (Some c)) ;; pop r ;;
      yes (CHANNEL_VAL c)
    else no r (codes "Expected a positive integer").

Definition not_a_channel : Answer := no r (codes "Argument must be a channel.").
Definition put_channel (p : objptr) (c : Channel) : VMM () := put_obj p (OBJ_CHANNELCONTAINER c).
(** [sem_post] and [sem_wait]; every channel opens the semaphore of the same
    name. *)
Definition sem_post : VMM () :=
  if busy then mret () else s ← get_vm; put_vm (set_semaphore (semaphore s + 1)).
Definition sem_wait : VMM () :=
  s ← get_vm; if 0 <? semaphore s then put_vm (set_semaphore (semaphore s - 1)) else vm_fail.

Definition sendChannelBuiltin : Answer :=
  if negb (argCount =? 2) then no r (codes "Expected 2 arguments, got " ++ decimal argCount ++ codes ".")
  else
    channelVal ← peek r 1; dataVal ← peek r 0;
    o ← the_obj channelVal;
    match o with
    | Some (p, OBJ_CHANNELCONTAINER c) =>
        if busy && (occupied c =? bufferSize c) then vm_fail
        else c ← opt (send_section dataVal c); put_channel p c ;; sem_post ;; yes NIL_VAL
    | _ => not_a_channel
    end.

Definition shareChannelBuiltin : Answer :=
  if negb (argCount =? 2) then no r (codes "Expected 2 arguments, got " ++ decimal argCount ++ codes ".")
  else
    channelVal ← peek r 1; dataVal ← peek r 0;
    o ← the_obj channelVal;
    match o with
    | Some (p, OBJ_CHANNELCONTAINER c) =>
        '(overflowed, c) ← opt (shareChannel dataVal c);
        put_channel p c ;;
        (if (overflowed : bool) then mret () else sem_post) ;;
        yes (BOOL_VAL overflowed)
    | _ => not_a_channel
    end.

Definition cpeekBuiltin : Answer :=
  if negb (argCount =? 1) then no r (codes "Expected 1 arguments, got " ++ decimal argCount ++ codes ".")
  else
    channelVal ← peek r 0;
    o ← the_obj channelVal;
    match o with
    | Some (_, OBJ_CHANNELCONTAINER c) => v ← opt (peekChannel NIL_VAL c); yes v
    | _ => not_a_channel
    end.

Definition receive_channel (p : objptr) (c : Channel (V := Value)) : VMM Value :=
  (if busy then if occupied c =? 0 then vm_fail else mret () else sem_wait) ;;
  '(v, c) ← opt (collectFromChannel c); put_channel p c ;; mret v.

(** ** Sync groups *)
Fixpoint all_channels (array : Value) (indexes : list nat) : VMM bool :=
  match indexes with
  | [] => mret true
  | i :: indexes' =>
      v ← with_heap (arrayElement array (Z.of_nat i));
      o ← the_obj v;
      match o with Some (_, OBJ_CHANNELCONTAINER _) => all_channels array indexes' | _ => mret false end
  end.
Definition newSyncGroup (items : Value) (n : Z) : VMM objptr :=
  g ← new_obj (OBJ_SYNCGROUP (mkGroup NIL_VAL NIL_VAL 0));
  push r (SYNCGROUP_VAL g) ;;
  res ← allocValueArray n;
  put_obj g (OBJ_SYNCGROUP (mkGroup items res n)) ;;
  pop r ;; mret g.
Definition makeSyncGroupBuiltin : Answer :=
  if negb (argCount =? 1) then no r (expected (codes "1 argument but got ") argCount)
  else
    items ← peek r 0;
    match type_of items with
    | Some (Array _ n e) =>
        ok ← match e with
             | None => all_channels items (seq 0 (Z.to_nat n))
             | Some t => mret (bool_decide (yt t = TypeChannel))
             end;
        if (ok : bool) then g ← newSyncGroup items n; yes (SYNCGROUP_VAL g)
        else no r (codes "Array must contain only channel items.")
    | _ => no r (codes "Expected an array.")
    end.

(** One pass of [receiveSyncGroup] over the channels. *)
Fixpoint receive_sweep (g : ObjSyncGroup) (indexes : list nat) : VMM bool :=
  match indexes with
  | [] => mret false
  | i :: indexes' =>
      channelVal ← with_heap (arrayElement (channel_array_val g) (Z.of_nat i));
      data ← (if IS_NIL channelVal then mret NIL_VAL
              else
                p ← as_obj channelVal; c ← get_channel p;
                data ← opt (peekChannel NIL_VAL c);
                if IS_NIL data then mret data
                else '(data, c) ← opt (collectFromChannel c); put_channel p c ;; mret data);
      with_heap (setArrayElement (result_array_val g) (Z.of_nat i) data) ;;
      rest ← receive_sweep g indexes';
      mret (negb (IS_NIL data) || rest)
  end.
Definition receive_group (g : ObjSyncGroup) : VMM Value :=
  if num_channels g =? 0 then mret (result_array_val g)
  else
    complete ← receive_sweep g (seq 0 (Z.to_nat (num_channels g)));
    if (complete : bool) then mret (result_array_val g) else vm_fail.

Definition receiveBuiltin : Answer :=
  if negb (argCount =? 1) then no r (codes "Expected 1 arguments, got " ++ decimal argCount ++ codes ".")
  else
    target ← peek r 0;
    o ← the_obj target;
    match o with
    | Some (p, OBJ_CHANNELCONTAINER c) => v ← receive_channel p c; yes v
    | Some (p, OBJ_ROUTINE _) => receiveFromRoutine p
    | Some (_, OBJ_SYNCGROUP g) => v ← receive_group g; yes v
    | _ => no r (codes "Argument must be a channel, a routine or a sync group.")
    end.

(** ** Routines *)
Definition makeRoutineBuiltin : Answer :=
  if negb (argCount =? 1) then no r (expected (codes "1 argument but got ") argCount)
  else
    f ← peek r 0;
    o ← the_obj f;
    match o with
    | Some (c, OBJ_CLOSURE _) =>
        p ← newRoutine;
        ok ← bindEntryFn p c;
        if (ok : bool) then yes (ROUTINE_VAL p) else no r (codes "Function must take 0 or 1 arguments.")
    | _ => no r (codes "Argument to make_routine must be a function.")
    end.

(** The answer of [callfn] is dropped. *)
Definition resumeRoutine (target : objptr) (argument : option Value) : VMM Value :=
  T ← get_routine target;
  (if bool_decide (state T = EXEC_UNBOUND)
   then c ← opt (entryFunction T); push target (FUNCTION_VAL c) else mret ()) ;;
  match argument with
  | Some v => bindEntryArgs target v ;; push target v
  | None => mret ()
  end ;;
  enterEntryFunction target ;;
  x ← run target;
  match x with
  | INTERPRET_OK =>
      v ← pop target; modify_routine target (set_result v) ;;
      resultPair NIL_VAL v
  | INTERPRET_RUNTIME_ERROR => T ← get_routine target; resultPair (error T) NIL_VAL
  end.

(** The target and the argument of [resume] and [start]. *)
Definition routine_args : VMM (Value * option Value) :=
  if argCount =? 2 then v ← peek r 0; t ← peek r 1; mret (t, Some v)
  else t ← peek r 0; mret (t, None).
Definition resumeBuiltin : Answer :=
  if (argCount <? 1) || (2 <? argCount) then no r (codes "Expected one or two arguments to resume.")
  else
    '(t, arg) ← routine_args;
    o ← the_obj t;
    match o with
    | Some (p, OBJ_ROUTINE T) =>
        if bool_decide (state T = EXEC_SUSPENDED) || bool_decide (state T = EXEC_UNBOUND)
        then v ← resumeRoutine p arg; yes v
        else no r (codes "routine must be suspended or unbound to resume.")
    | _ => no r (codes "Argument to resume must be a routine.")
    end.

(** [startRoutine]: [runOnCore1] does nothing on a hosting system. *)
Definition startRoutine (target : objptr) (argument : option Value) : Answer :=
  T ← get_routine target; s ← get_vm;
  if negb (bool_decide (state T = EXEC_UNBOUND)) then mret None
  else if core1 s is Some _ then mret None
  else
    match argument with Some v => bindEntryArgs target v | None => mret () end ;;
    pushEntryElements target ;; enterEntryFunction target ;; yes NIL_VAL.
Definition startBuiltin : Answer :=
  if (argCount <? 1) || (2 <? argCount) then no r (codes "Expected one or two arguments to start.")
  else
    '(t, arg) ← routine_args;
    o ← the_obj t;
    match o with
    | Some (p, OBJ_ROUTINE _) => startRoutine p arg
    | _ => no r (codes "Argument to start must be a routine.")
    end.

(** ** Memory *)

(** The number of arguments is not checked, and an integer literal is read as
    an address through the union: its bytes are not those of the number. *)
Definition peekBuiltin : Answer :=
  a ← peek r 0;
  if negb (isAddressValue a || isUint32Pointer a) then no r (codes "Expected an address or pointer.")
  else
    addr ← match a with
           | ADDRESS_VAL x => mret x
           | INT_VAL _ => vm_fail
           | _ => '(_, c) ← with_heap (AS_PACKEDCONTAINER a); mret (loc c)
           end;
    put_vm (λ s, set_output (output s ++ [codes "peek(" ++ text_of_pointer addr ++ codes ") -> 0"]) s) ;;
    yes (NUM_VAL (if is_64bit then UI64 else UI32) 0).

(** [allocateIntValue] of the digits of a [size_t] *)
Definition size_value (n : Z) : VMM Value :=
  vm_ints (p ← allocateIntValue (Z.to_nat (size_bits / 16)); int_set_u n p ;; int_value p).
Definition lenBuiltin : Answer :=
  if negb (argCount =? 1) then no r (codes "Expected 1 argument, but got " ++ decimal argCount ++ codes ".")
  else
    arg ← peek r 0;
    o ← the_obj arg;
    match o with
    | Some (_, OBJ_MAP m) => v ← size_value (count (mentries m)); yes v
    | _ =>
        match arg, type_of arg with
        | TYPED_VAL (Simple String_) (Some k), _ => cs ← chars_of k; v ← size_value (Z.of_nat (length cs)); yes v
        | _, Some (Array _ n _) => v ← size_value n; yes v
        | _, _ => no r (codes "Expected a string, array or map.")
        end
    end.

Definition pinBuiltin : Answer :=
  if negb (argCount =? 1) then no r (codes "Expected 1 argument, but got " ++ decimal argCount ++ codes ".")
  else
    arg ← peek r 0;
    o ← the_obj arg;
    match o with
    | Some (p, OBJ_ROUTINE _) =>
        '(_, n) ← entry_arity p;
        if negb (n =? 0) then no r (codes "Can only pin routines with 0 argument entry functions.")
        else
          i ← pinRoutine p;
          match i with
          | Some i => yes (ADDRESS_VAL (handler_address i))
          | None => no r (codes "No more pinned routines available.")
          end
    | _ =>
        if is_uniformarray arg then v ← with_heap (pinPackedValueContainer arg); yes v
        else no r (codes "Expected a routine or uniform array.")
    end.

Definition createPointerAndTarget (targetType : option YargType) : VMM Value :=
  p ← newYargType;
  let pointerType := Pointer p targetType in
  push r (YARGTYPE_VAL pointerType) ;;
  v ← with_heap (c ← newPackedValueContainer targetType; c ← of_opt c; c ← get_container c;
                 createPackedContainerFor c 0 pointerType);
  pop r ;; mret v.

Definition new_Builtin : Answer :=
  arg ← (if argCount =? 1 then peek r 0 else mret NIL_VAL);
  if argCount =? 0 then v ← createPointerAndTarget None; yes v
  else if negb (argCount =? 1) then no r (codes "Expected a type to create.")
  else
    match arg with
    | YARGTYPE_VAL t =>
        match yt t with
        | TypeBool | TypeDouble | TypeInt8 | TypeUint8 | TypeInt16 | TypeUint16 | TypeInt32 | TypeUint32
        | TypeInt64 | TypeUint64 | TypeStruct => v ← createPointerAndTarget (Some t); yes v
        | TypeArray => v ← with_heap (defaultValue (Some t)); yes v
        | TypeMap =>
            if isSupportedMapKeyType (Some t) then m ← newMap t; yes (MAP_VAL t m)
            else no r (codes "Unsupported map key type.")
        | _ => mret None
        end
    | _ =>
        if IS_NIL arg then v ← createPointerAndTarget None; yes v
        else no r (codes "Expected a type to create.")
    end.
End Calls.

(** ** Conversions *)

(** The tests of [int8Builtin] ... [uint64Builtin] on an argument of machine
    type [n] and value [x]. *)
Definition uint64_accepts (n : NumType) (x : Z) : bool :=
  match n with I64 => 0 <=? x | _ => true end.
Definition int64_accepts (n : NumType) (x : Z) : bool :=
  match n with UI64 => x <=? 2 ^ 63 - 1 | _ => true end.
Definition uint32_accepts (n : NumType) (x : Z) : bool :=
  match n with
  | I8 | I16 | I32 => 0 <=? x
  | I64 => (0 <=? x) && (x <? 2 ^ 32 - 1)
  | UI64 => x <=? 2 ^ 32 - 1
  | _ => true
  end.
Definition int32_accepts (n : NumType) (x : Z) : bool :=
  match n with
  | I64 => (- 2 ^ 31 <=? x) && (x <=? 2 ^ 31 - 1)
  | UI32 | UI64 => x <=? 2 ^ 31 - 1
  | _ => true
  end.
Definition uint16_accepts (n : NumType) (x : Z) : bool :=
  match n with
  | I8 | I16 => 0 <=? x
  | I32 | I64 => (0 <=? x) && (x <=? 2 ^ 16 - 1)
  | UI32 | UI64 => x <=? 2 ^ 16 - 1
  | _ => true
  end.
Definition int16_accepts (n : NumType) (x : Z) : bool :=
  match n with
  | I32 | I64 => (- 2 ^ 15 <=? x) && (x <=? 2 ^ 15 - 1)
  | UI16 | UI32 | UI64 => x <=? 2 ^ 15 - 1
  | _ => true
  end.
Definition uint8_accepts (n : NumType) (x : Z) : bool :=
  match n with
  | I8 => 0 <=? x
  | I16 | I32 | I64 => (0 <=? x) && (x <=? 2 ^ 8 - 1)
  | UI16 | UI32 | UI64 => x <=? 2 ^ 8 - 1
  | _ => true
  end.
Definition int8_accepts (n : NumType) (x : Z) : bool :=
  match n with
  | I16 | I32 | I64 => (- 2 ^ 7 <=? x) && (x <=? 2 ^ 7 - 1)
  | UI8 | UI16 | UI32 | UI64 => x <=? 2 ^ 7 - 1
  | _ => true
  end.
Definition accepts (target : NumType) : NumType → Z → bool :=
  match target with
  | I8 => int8_accepts | UI8 => uint8_accepts | I16 => int16_accepts | UI16 => uint16_accepts
  | I32 => int32_accepts | UI32 => uint32_accepts | I64 => int64_accepts | UI64 => uint64_accepts
  end.

(** [strtoll] and [strtoull] in base 10: the value and what follows. *)
Fixpoint skip_space (s : list Z) : list Z :=
  match s with
  | [] => []
  | c :: s' => if (c =? 32) || Scanner.between 9 c 13 then skip_space s' else s
  end.
Fixpoint read_digits (s : list Z) (acc : Z) : Z * list Z :=
  match s with
  | [] => (acc, [])
  | c :: s' => if isDigit c then read_digits s' (10 * acc + (c - 48)) else (acc, s)
  end.
Definition read_number (s : list Z) : option (bool * Z * list Z) :=
  let '(neg, ds) := match skip_space s with
                    | 45 :: t => (true, t)
                    | 43 :: t => (false, t)
                    | t => (false, t)
                    end in
  match ds with
  | c :: _ => if isDigit c then let '(v, rest) := read_digits ds 0 in Some (neg, v, rest) else None
  | [] => None
  end.
Definition strtoll (s : list Z) : Z * list Z :=
  match read_number s with
  | None => (0, s)
  | Some (neg, v, rest) => (Z.max (- 2 ^ 63) (Z.min (2 ^ 63 - 1) (if (neg : bool) then - v else v)), rest)
  end.
Definition strtoull (s : list Z) : Z * list Z :=
  match read_number s with
  | None => (0, s)
  | Some (neg, v, rest) => (if 2 ^ 64 <=? v then 2 ^ 64 - 1 else u64 (if (neg : bool) then - v else v), rest)
  end.

(** The type decides the function, and what is compared with its range. *)
Definition convert_string (target : NumType) (s : list Z) : option Z :=
  let '(i, rest) := if num_signed target then strtoll s else strtoull s in
  match rest with
  | [] => if (num_min target <=? i) && (i <=? num_max target) then Some i else None
  | _ => None
  end.

Definition numBuiltin (target : NumType) (r : objptr) : Answer :=
  arg ← peek r 0;
  match arg with
  | NUM_VAL n x => if accepts target n x then yes (NUM_VAL target (num_wrap target x)) else mret None
  | INT_VAL b => v ← vm_ints (promote_literal target b); mret v
  | TYPED_VAL (Simple String_) (Some k) =>
      cs ← chars_of k;
      match convert_string target (cstr cs) with
      | Some x => yes (NUM_VAL target (num_wrap target x))
      | None => mret None
      end
  | _ => mret None
  end.

Definition int_digits (n : NumType) : nat := match n with I8 | UI8 | I16 | UI16 => 1 | I32 | UI32 => 2 | I64 | UI64 => 4 end.
Definition intBuiltin (r : objptr) : Answer :=
  arg ← peek r 0;
  match arg with
  | NUM_VAL n x =>
      v ← vm_ints (p ← allocateIntValue (int_digits n);
        match n with UI64 => int_set_u x p | _ => int_set_i x p end ;; int_value p);
      yes v
  | TYPED_VAL (Simple String_) (Some k) =>
      cs ← chars_of k;
      let s := cstr cs in
      v ← vm_ints (p ← allocateIntValue (Z.to_nat (INT_DIGITS_FOR_S (Z.of_nat (length s)))); int_set_s s p ;; int_value p);
      yes v
  | INT_VAL b =>
      v ← vm_ints (with_int b (λ from, i ← get from; p ← allocateIntValue (d_ i); int_set_t from p ;; int_value p));
      yes v
  | _ => mret None
  end.

(** A [double] of an integer is the nearest one. *)
Definition floatBuiltin (r : objptr) : Answer :=
  arg ← peek r 0;
  match arg with
  | NUM_VAL _ x => yes (DOUBLE_VAL (binary_normalize 53 1024 x 0 false))
  | DOUBLE_VAL d => yes (DOUBLE_VAL d)
  | TYPED_VAL (Simple String_) (Some k) => cs ← chars_of k; mret (DOUBLE_VAL <$> strtod (cstr cs))
  | INT_VAL b =>
      x ← vm_ints (with_int b (λ i, int_to_s i (replicate INT_STRLEN_FOR_INT254 0)));
      mret (DOUBLE_VAL <$> strtod (cstr (drop (Z.to_nat x.2) x.1)))
  | _ => mret None
  end.

Definition stringBuiltin (r : objptr) : Answer := v ← peek r 0; k ← valueToString text_fuel v; yes (STRING_VAL k).

(** ** The call *)
Definition call_builtin (b : BuiltinFn) (r : objptr) (argCount : Z) : Answer :=
  match b with
  | BUILTIN_MAKE_ROUTINE => makeRoutineBuiltin r argCount
  | BUILTIN_MAKE_CHANNEL => makeChannelBuiltin r argCount
  | BUILTIN_MAKE_SYNCGROUP => makeSyncGroupBuiltin r argCount
  | BUILTIN_RESUME => resumeBuiltin r argCount
  | BUILTIN_START => startBuiltin r argCount
  | BUILTIN_RECEIVE => receiveBuiltin r argCount
  | BUILTIN_SEND => sendChannelBuiltin r argCount
  | BUILTIN_CPEEK => cpeekBuiltin r argCount
  | BUILTIN_SHARE => shareChannelBuiltin r argCount
  | BUILTIN_PEEK => peekBuiltin r
  | BUILTIN_LEN => lenBuiltin r argCount
  | BUILTIN_PIN => pinBuiltin r argCount
  | BUILTIN_NEW => new_Builtin r argCount
  | BUILTIN_INT8 => numBuiltin I8 r
  | BUILTIN_UINT8 => numBuiltin UI8 r
  | BUILTIN_INT16 => numBuiltin I16 r
  | BUILTIN_UINT16 => numBuiltin UI16 r
  | BUILTIN_INT32 => numBuiltin I32 r
  | BUILTIN_UINT32 => numBuiltin UI32 r
  | BUILTIN_INT64 => numBuiltin I64 r
  | BUILTIN_UINT64 => numBuiltin UI64 r
  | BUILTIN_INT => intBuiltin r
  | BUILTIN_MFLOAT64 => floatBuiltin r
  | BUILTIN_STRING => stringBuiltin r
  | b => host (Builtin b) r argCount
  end.
Definition call_function (f : Foreign) (r : objptr) (argCount : Z) : Answer :=
  match f with Builtin b => call_builtin b r argCount | Native n => host (Native n) r argCount end.
End Builtins.

(** ** The loop

    [fuel] bounds the turns of this routine and of those it resumes. *)
Section Run.
Context `{U : Uninit} `{TG : Target} `{HO : Host}.
Variable busy : bool.
Variable host : Foreign → objptr → Z → VMM (option Value).

(** The first statements of [run]: without a frame, [frame] points in front
    of the array. *)
Definition enter_loop (loop : nat → VMM InterpretResult) (r : objptr) : VMM InterpretResult :=
  R ← get_routine r;
  put_routine r (set_state EXEC_RUNNING R) ;;
  match frameCount R with O => vm_fail | S fi => loop fi end.

Fixpoint run_loop (fuel : nat) (r : objptr) (fi : nat) : VMM InterpretResult :=
  match fuel with
  | O => vm_fail
  | S fuel' =>
      t ← turn (call_function busy (λ r', enter_loop (run_loop fuel' r') r') host) r fi;
      match t with
      | Go fi' => run_loop fuel' r fi'
      | Exit x => mret x
      end
  end.
Definition run (fuel : nat) (r : objptr) : VMM InterpretResult := enter_loop (run_loop fuel r) r.
End Run.
