(* ===== verification/Machine.v ===== *)
(** * The machine

    [initVMRuntime], the functions that define natives and globals, and the
    boot code of [cyarg/vm.c]: the state in which a script starts, and how it
    is started. *)
From Stdlib Require Import String Ascii.
From S2P Require Import Scanner.
From S2P Require Export Builtins.
Open Scope Z_scope.

Section Machine.
Context `{U : Uninit} `{TG : Target} `{HO : Host}.

(** ** The initial state *)

(** [vm.core0] and [vm.bootFunction] are not on the heap: their addresses. *)
Definition core0_ptr : objptr := 1%positive.
Definition boot_ptr : objptr := 2%positive.

(** After [initVMMemory] and the initialisation of the two objects; the heap
    starts at address [base]. *)
Definition blank_vm (base : Z) : VM :=
  mkVM (mkHeap ∅ base ∅ ∅ ∅) empty_pool
    (<[core0_ptr := OBJ_ROUTINE initRoutine]> (<[boot_ptr := OBJ_FUNCTION initFunction]> ∅))
    initTable 1%positive core0_ptr None (replicate MAX_PINNED_ROUTINES None) [] 1%positive 0 [].

Definition define (name : strptr) (v : Value) : VMM () :=
  s ← get_vm;
  '(_, t) ← opt (tableCellSet (vm_str s) (globals s) name (mkCell v None));
  put_vm (set_globals t).
Definition defineNative (context : objptr) (name : list Z) (native : nat) : VMM () :=
  k ← intern name; push context (STRING_VAL k) ;;
  p ← newNative native; push context (IMPL_OBJ_VAL (Some p)) ;;
  define k (FUNCTION_VAL p) ;;
  pop context ;; pop context ;; mret ().
Definition defineGlobal (context : objptr) (name : list Z) (v : Value) : VMM () :=
  k ← intern name; push context (STRING_VAL k) ;; define k v ;; pop context ;; mret ().

Definition native_names : list (list Z) :=
  [codes "clock"; codes "c_clock_get_hz"; codes "irq_remove_handler"; codes "irq_add_shared_handler";
   codes "c_stdin_gets"; codes "c_stdin_eof"; codes "c_stdout_puts"; codes "c_stderr_puts";
   codes "c_stderr_put_newline"; codes "c_readFileIntoBuffer"; codes "c_fileSize"; codes "c_fileExists";
   codes "host_argc"; codes "host_argn"; codes "host_exitCode"].
Fixpoint define_natives (context : objptr) (names : list (list Z)) (i : nat) : VMM () :=
  match names with
  | [] => mret ()
  | name :: names' => defineNative context name i ;; define_natives context names' (S i)
  end.

(** [xip] is the address of the library in flash memory. *)
Definition initVMRuntime (xip : Z) : VMM () :=
  k ← intern (codes "init");
  put_vm (λ s, mkVM (vm_heap s) (vm_pool s) (vm_objects s) (globals s) k (core0 s) (core1 s) (pinnedRoutines s)
    (tempRoots s) (next_type s) (semaphore s) (output s)) ;;
  define_natives core0_ptr native_names 0 ;;
  defineGlobal core0_ptr (codes "vm_xip_start") (ADDRESS_VAL xip) ;;
  defineNative core0_ptr (codes "vm_xip_string_node") (length native_names).

(** ** Boot code *)
Definition immediate (n : Z) : list Z := [encode OP_IMMEDIATE_P8; n].
Definition builtin_code (b : BuiltinFn) : Z := Z.of_nat (default 0%nat (fst <$> list_find (eq b) builtins)).
Definition get_builtin (b : BuiltinFn) : list Z := [encode OP_GET_BUILTIN; builtin_code b].
Definition call_code (argCount : Z) : list Z := [encode OP_CALL; argCount].

Definition bootstrap : list Z :=
  get_builtin BUILTIN_LOAD ++ get_builtin BUILTIN_READ_YARG_SOURCE ++ [encode OP_CONSTANT; 0] ++
  call_code 1 ++ call_code 1 ++ immediate 1 ++ [encode OP_ELEMENT] ++ call_code 0 ++ [encode OP_RETURN].
Definition compile_bootstrap : list Z :=
  get_builtin BUILTIN_COMPILE ++ get_builtin BUILTIN_READ_YARG_SOURCE ++ [encode OP_CONSTANT; 0] ++
  call_code 1 ++ call_code 1 ++ [encode OP_RETURN].
Definition xip_bootstrap : list Z :=
  get_builtin BUILTIN_LOAD ++ get_builtin BUILTIN_READ_XIP_FILE ++ immediate 1 ++ immediate 1 ++
  call_code 2 ++ call_code 1 ++ immediate 1 ++ [encode OP_ELEMENT] ++ call_code 0 ++ [encode OP_RETURN].
Definition bootstrap_parameter_offset : nat := 5.

Definition set_chunk (c : Chunk) (f : ObjFunction) : ObjFunction := mkFunction (arity f) (upvalueCount f) c (fName f).
Definition bindBootstrapCode (name : list Z) (code_ : list Z) : VMM () :=
  k ← intern name;
  f ← get_function boot_ptr;
  put_obj boot_ptr (OBJ_FUNCTION (mkFunction (arity f) (upvalueCount f) (fold_left writeChunk code_ (chunk f)) (Some k))).
Definition bindBootstrapScript (name : list Z) (code_ : list Z) (script : strptr) (constantIndex : nat) : VMM () :=
  bindBootstrapCode name code_ ;;
  f ← get_function boot_ptr;
  s ← get_vm;
  '(i, cs) ← vm_ints (addConstant (vm_loc s) (constants (chunk f)) (STRING_VAL script));
  let c := chunk f in
  put_obj boot_ptr (OBJ_FUNCTION (set_chunk (mkChunk (ccapacity c) (code c) (lines c) cs) f)) ;;
  st_assert (bool_decide (code c !! constantIndex = Some (Z.of_nat i))).

Variable run_core0 : VMM InterpretResult.

Definition bootstrapVM : VMM (InterpretResult * Value) :=
  c ← newClosure boot_ptr;
  bindEntryFn core0_ptr c ;;
  pushEntryElements core0_ptr ;;
  enterEntryFunction core0_ptr ;;
  x ← run_core0;
  match x with
  | INTERPRET_OK => v ← pop core0_ptr; mret (x, v)
  | e => mret (e, NIL_VAL)
  end.

Definition bootScript (filename : strptr) : VMM InterpretResult :=
  bindBootstrapScript (codes "script-boot") bootstrap filename bootstrap_parameter_offset ;;
  '(x, _) ← bootstrapVM; mret x.
Definition compileScript (filename : strptr) : VMM (InterpretResult * Value) :=
  bindBootstrapScript (codes "compiler-host") compile_bootstrap filename bootstrap_parameter_offset ;; bootstrapVM.
Definition bootXIP : VMM InterpretResult :=
  bindBootstrapCode (codes "boot") xip_bootstrap ;; '(x, _) ← bootstrapVM; mret x.
End Machine.
