(* ===== verification/RoutineSpec.v ===== *)
(** * The value stack of a routine

    The slices of a routine hold one stack: a list of cells that grows without
    bound for a routine that may add slices, and up to 63 cells for one that
    is pinned. *)
From S2P Require Export StorageSpec Routine.
Open Scope Z_scope.

(** ** The stack as a list *)
Abbreviation cells := (list ValueCell).

Definition stack_of (R : ObjRoutine) : cells := take (Z.to_nat (stackTopIndex R)) (mjoin (stackSlices R)).

(** All fields but those of the stack. *)
Definition rest_of (R : ObjRoutine) :=
  (frames R, frameCount R, addSlice R, runtimeErrors R, entryFunction R, entryArg R, result R, error R,
   openUpvalues R, state R).

Definition slices_ok (l : list StackSlice) : Prop := Forall (λ sl, length sl = 64%nat) l.

(** There is always room for one more cell. *)
Record wf_stack (R : ObjRoutine) : Prop := {
  ws_slices : slices_ok (stackSlices R);
  ws_top : 0 ≤ stackTopIndex R < 64 * Z.of_nat (length (stackSlices R))
}.

(** The machine with another routine at [r]. *)
Definition upd (r : objptr) (R : ObjRoutine) (s : VM) : VM :=
  set_objects (<[r := OBJ_ROUTINE R]> (vm_objects s)) s.

Lemma upd_upd r R R' s : upd r R' (upd r R s) = upd r R' s.
Proof. unfold upd. simpl. by rewrite insert_insert_eq. Qed.
Lemma upd_eq r R s : vm_objects (upd r R s) !! r = Some (OBJ_ROUTINE R).
Proof. unfold upd. simpl. by rewrite lookup_insert_eq. Qed.
Lemma upd_ne r R s p : p ≠ r → vm_objects (upd r R s) !! p = vm_objects s !! p.
Proof. intros Hp. unfold upd. simpl. by rewrite lookup_insert_ne. Qed.
Lemma upd_same r R s : vm_objects s !! r = Some (OBJ_ROUTINE R) → upd r R s = s.
Proof. intros H. unfold upd. rewrite insert_id by done. by destruct s. Qed.
#[export] Hint Resolve upd_eq : st_run.

Lemma modify_routine_run r f s R :
  vm_objects s !! r = Some (OBJ_ROUTINE R) → modify_routine r f s = Some ((), upd r (f R) s).
Proof. intros H. unfold modify_routine. by rewrite (st_bind_run _ _ _ _ _ (get_routine_run _ _ _ H)). Qed.
#[export] Hint Resolve modify_routine_run : st_run.

Section Stack.
Context `{U : Uninit} `{TG : Target} `{HO : Host}.

Lemma slices_length l : slices_ok l → length (mjoin l) = (64 * length l)%nat.
Proof. induction 1 as [|sl l Hl _ IH]; [done|]. simpl. rewrite length_app, Hl, IH. lia. Qed.

Lemma stack_length R : wf_stack R → length (stack_of R) = Z.to_nat (stackTopIndex R).
Proof.
  intros [Hs Ht]. unfold stack_of. rewrite length_take, slices_length by done. lia.
Qed.
Lemma stack_length_Z R : wf_stack R → Z.of_nat (length (stack_of R)) = stackTopIndex R.
Proof. intros H. rewrite stack_length by done. destruct H. lia. Qed.

Lemma split64 i : 0 ≤ i → Z.to_nat i = (Z.to_nat (i / SLICE_MAX) * 64 + Z.to_nat (i mod SLICE_MAX))%nat ∧
  (Z.to_nat (i mod SLICE_MAX) < 64)%nat.
Proof.
  intros Hi. unfold SLICE_MAX. pose proof (Z.div_mod i 64 ltac:(lia)). pose proof (Z.mod_pos_bound i 64 ltac:(lia)).
  pose proof (Z.div_pos i 64 Hi ltac:(lia)). lia.
Qed.

Lemma slot_run R i : slices_ok (stackSlices R) → 0 ≤ i < 64 * Z.of_nat (length (stackSlices R)) →
  slot R i = mjoin (stackSlices R) !! Z.to_nat i.
Proof.
  intros Hs Hi. unfold slot. rewrite (proj2 (Z.ltb_lt _ _)) by (unfold SLICE_MAX; lia).
  destruct (split64 i) as [E Hm]; [lia|]. rewrite E.
  destruct (lookup_lt_is_Some_2 (stackSlices R) (Z.to_nat (i / SLICE_MAX))) as [sl Hsl].
  { unfold SLICE_MAX. apply Nat2Z.inj_lt. rewrite Z2Nat.id by (apply Z.div_pos; lia).
    apply Z.div_lt_upper_bound; lia. }
  rewrite Hsl. cbn [mbind option_bind].
  destruct (lookup_lt_is_Some_2 sl (Z.to_nat (i mod SLICE_MAX))) as [c Hc].
  { rewrite (Forall_lookup_1 _ _ _ _ Hs Hsl). done. }
  rewrite Hc. symmetry. apply (join_lookup_Some_same_length' 64); [done|done|]. by exists sl.
Qed.
Lemma mjoin_insert l j sl k c : slices_ok l → l !! j = Some sl → (k < 64)%nat →
  mjoin (<[j := <[k := c]> sl]> l) = <[(j * 64 + k)%nat := c]> (mjoin l).
Proof.
  intros Hs. revert j. induction Hs as [|sl' l Hl Hs IH]; intros j Hj Hk; [done|].
  destruct j as [|j]; simpl in *.
  - injection Hj as ->. by rewrite insert_app_l by lia.
  - rewrite IH by done. replace (S (j * 64 + k))%nat with (S (j * 64 + k))%nat by done.
    rewrite insert_app_r_alt by lia. f_equal. f_equal. lia.
Qed.

Lemma set_slot_run R i c : slices_ok (stackSlices R) → 0 ≤ i < 64 * Z.of_nat (length (stackSlices R)) →
  ∃ l, set_slot R i c = Some (set_slices l R) ∧ slices_ok l ∧ length l = length (stackSlices R) ∧
    mjoin l = <[Z.to_nat i := c]> (mjoin (stackSlices R)).
Proof.
  intros Hs Hi. unfold set_slot. rewrite (proj2 (Z.ltb_lt _ _)) by (unfold SLICE_MAX; lia).
  destruct (split64 i) as [E Hm]; [lia|]. rewrite E.
  destruct (lookup_lt_is_Some_2 (stackSlices R) (Z.to_nat (i / SLICE_MAX))) as [sl Hsl].
  { unfold SLICE_MAX. apply Nat2Z.inj_lt. rewrite Z2Nat.id by (apply Z.div_pos; lia).
    apply Z.div_lt_upper_bound; lia. }
  rewrite Hsl. cbn [mbind option_bind]. eexists. split; [done|]. split.
  - apply Forall_insert; [done|]. by rewrite length_insert, (Forall_lookup_1 _ _ _ _ Hs Hsl).
  - rewrite length_insert. split; [done|]. by apply mjoin_insert.
Qed.

(** ** The operations *)

(** [R'] is [R] with the stack [st]. *)
Definition with_stack (R : ObjRoutine) (st : cells) (R' : ObjRoutine) : Prop :=
  wf_stack R' ∧ stack_of R' = st ∧ rest_of R' = rest_of R.

Lemma with_stack_trans R st R' st' R'' : with_stack R st R' → with_stack R' st' R'' → with_stack R st' R''.
Proof. intros (_ & _ & E) (H & Es & E'). split; [exact H|]. split; [exact Es|congruence]. Qed.

(** A stack that the machine can address. *)
Definition addressable (st : cells) : Prop := Z.of_nat (length st) < 2 ^ 31.

Lemma peekCell_run r s R st c above d :
  vm_objects s !! r = Some (OBJ_ROUTINE R) → wf_stack R → addressable (stack_of R) →
  stack_of R = st ++ c :: above → d = Z.of_nat (length above) →
  peekCell r d s = Some (c, s).
Proof.
  intros Hr H Ha Hst ->. unfold peekCell. rewrite (st_bind_run _ _ _ _ _ (get_routine_run _ _ _ Hr)).
  pose proof (stack_length_Z R H) as HL. unfold addressable in Ha. destruct H as [Hs Ht].
  assert (Z.of_nat (length (stack_of R)) = Z.of_nat (length st) + 1 + Z.of_nat (length above)) as HL'.
  { rewrite Hst, length_app. simpl. lia. }
  unfold peek_index. rewrite usize_small by lia. rewrite slot_run by (done || lia).
  replace (Z.to_nat (stackTopIndex R - 1 - Z.of_nat (length above))) with (length st) by lia.
  assert (stack_of R !! length st = Some c) as Hc by (rewrite Hst; by apply list_lookup_middle).
  unfold stack_of in Hc. rewrite lookup_take_Some in Hc. destruct Hc as [Hc _]. by rewrite Hc.
Qed.

Lemma stack_peek_run r s R st c above d :
  vm_objects s !! r = Some (OBJ_ROUTINE R) → wf_stack R → addressable (stack_of R) →
  stack_of R = st ++ c :: above → d = Z.of_nat (length above) →
  peek r d s = Some (cell_value c, s).
Proof. intros Hr H Ha Hst Hd. unfold peek. by rewrite (st_bind_run _ _ _ _ _ (peekCell_run r s R st c above d Hr H Ha Hst Hd)). Qed.

Lemma setCell_run r s R st c above d c' :
  vm_objects s !! r = Some (OBJ_ROUTINE R) → wf_stack R → addressable (stack_of R) →
  stack_of R = st ++ c :: above → d = Z.of_nat (length above) →
  ∃ R', setCell r d c' s = Some ((), upd r R' s) ∧ with_stack R (st ++ c' :: above) R' ∧
    length (stackSlices R') = length (stackSlices R).
Proof.
  intros Hr H Ha Hst ->. unfold setCell. rewrite (st_bind_run _ _ _ _ _ (get_routine_run _ _ _ Hr)).
  pose proof (stack_length_Z R H) as HL. unfold addressable in Ha. pose proof H as [Hs Ht].
  assert (Z.of_nat (length (stack_of R)) = Z.of_nat (length st) + 1 + Z.of_nat (length above)) as HL'.
  { rewrite Hst, length_app. simpl. lia. }
  unfold peek_index. rewrite usize_small by lia.
  destruct (set_slot_run R (stackTopIndex R - 1 - Z.of_nat (length above)) c' Hs ltac:(lia)) as (l & E & Hl & Hn & Hj).
  rewrite (st_bind_run _ _ _ _ _ (opt_run _ _ s E)).
  exists (set_slices l R). split; [done|]. split; [|done]. split; [split; [done|simpl; rewrite Hn; lia]|]. split; [|done].
  unfold stack_of. simpl. rewrite Hj.
  replace (Z.to_nat (stackTopIndex R - 1 - Z.of_nat (length above))) with (length st) by lia.
  rewrite take_insert_lt by lia. fold (stack_of R). rewrite Hst. by rewrite insert_app_r_alt, Nat.sub_diag by lia.
Qed.

Lemma pop_run r s R st c :
  vm_objects s !! r = Some (OBJ_ROUTINE R) → wf_stack R → addressable (stack_of R) →
  stack_of R = st ++ [c] →
  ∃ R', pop r s = Some (cell_value c, upd r R' s) ∧ with_stack R st R' ∧ stackSlices R' = stackSlices R.
Proof.
  intros Hr H Ha Hst. unfold pop. rewrite (st_bind_run _ _ _ _ _ (stack_peek_run r s R st c [] 0 Hr H Ha Hst eq_refl)).
  rewrite (st_bind_run _ _ _ _ _ (modify_routine_run _ _ _ _ Hr)). eexists. split; [done|].
  pose proof (stack_length_Z R H) as HL. unfold addressable in Ha. pose proof H as [Hs Ht].
  assert (length (stack_of R) = S (length st)) as HL' by (rewrite Hst, length_app; simpl; lia).
  rewrite usize_small by lia. split; [|done]. split; [split; [done|simpl; lia]|]. split; [|done].
  unfold stack_of in *. simpl. rewrite <-(take_app_length st [c]). rewrite <-Hst, take_take. f_equal. lia.
Qed.

Lemma popN_run r st above s R :
  vm_objects s !! r = Some (OBJ_ROUTINE R) → wf_stack R → addressable (stack_of R) →
  stack_of R = st ++ above →
  ∃ R', popN r (length above) s = Some ((), upd r R' s) ∧ with_stack R st R' ∧ stackSlices R' = stackSlices R.
Proof.
  revert s R. induction above as [|c above IH] using rev_ind; intros s R Hr H Ha Hst.
  { rewrite app_nil_r in Hst. exists R. split; [by rewrite (upd_same r R s Hr)|]. by split; [split|]. }
  rewrite app_assoc in Hst. destruct (pop_run r s R (st ++ above) c Hr H Ha Hst) as (R1 & E & (H1 & Hst1 & Hr1) & Hsl).
  rewrite length_app. simpl length.
  destruct (IH (upd r R1 s) R1 (upd_eq _ _ _) H1) as (R2 & E2 & H2 & Hsl2); [|done|].
  { unfold addressable in *. rewrite Hst1. rewrite Hst, length_app in Ha. simpl in Ha. lia. }
  exists R2. rewrite Nat.add_1_r. cbn [popN]. rewrite (st_bind_run _ _ _ _ _ E). cbv beta. rewrite E2, upd_upd.
  split; [done|]. split; [|congruence].
  by apply (with_stack_trans R (st ++ above) R1).
Qed.

(** A push of a routine that may add slices. *)
Lemma push_run r v s R :
  vm_objects s !! r = Some (OBJ_ROUTINE R) → wf_stack R → addressable (stack_of R) → addSlice R = true →
  ∃ R', push r v s = Some ((), upd r R' s) ∧ with_stack R (stack_of R ++ [mkCell v None]) R' ∧
    (length (stackSlices R') ≤ S (length (stackSlices R)))%nat.
Proof.
  intros Hr H Ha Hadd. unfold push. rewrite (st_bind_run _ _ _ _ _ (get_routine_run _ _ _ Hr)).
  pose proof (stack_length_Z R H) as HL. unfold addressable in Ha. pose proof H as [Hs Ht].
  destruct (set_slot_run R (stackTopIndex R) (mkCell v None) Hs ltac:(lia)) as (l & E & Hl & Hn & Hj).
  rewrite (st_bind_run _ _ _ _ _ (opt_run _ _ s E)). cbv zeta. cbn [set_slices stackTopIndex].
  rewrite usize_small by lia.
  assert (take (Z.to_nat (stackTopIndex R + 1)) (mjoin l) = stack_of R ++ [mkCell v None]) as Htake.
  { rewrite Hj, Z2Nat.inj_add by lia. unfold stack_of.
    assert (length (mjoin (stackSlices R)) = (64 * length (stackSlices R))%nat) as HM by by apply slices_length.
    rewrite Nat.add_1_r. rewrite (take_S_r _ _ (mkCell v None)).
    - by rewrite take_insert_ge by lia.
    - apply list_lookup_insert_eq. lia. }
  set (R1 := set_top (stackTopIndex R + 1) (set_slices l R)).
  rewrite (st_bind_run _ _ _ _ _ (put_obj_run s r (OBJ_ROUTINE R1) : put_routine r R1 s = Some ((), upd r R1 s))).
  unfold SLICE_MAX. subst R1. cbn [stackSlices stackTopIndex addSlice set_top set_slices]. rewrite Hadd, Hn.
  destruct (Z.ltb_spec (Z.of_nat (length (stackSlices R))) ((stackTopIndex R + 1) / 64 + 1)) as [Hgrow|Hroom].
  - eexists. split.
    { unfold put_routine. rewrite put_obj_run. unfold upd. cbn [set_objects vm_objects]. rewrite insert_insert_eq. reflexivity. }
    assert (stackTopIndex R + 1 = 64 * Z.of_nat (length (stackSlices R))) as Etop.
    { apply Z.le_antisymm; [lia|]. apply Z.lt_succ_r. unfold Z.succ.
      pose proof (Z.mul_div_le (stackTopIndex R + 1) 64 ltac:(lia)). lia. }
    split; [split; [split; simpl|split]|].
    + unfold slices_ok in *. apply Forall_app. split; [done|]. by repeat constructor.
    + rewrite length_app, Hn. simpl. lia.
    + change (take (Z.to_nat (stackTopIndex R + 1)) (mjoin (l ++ [empty_slice])) = stack_of R ++ [mkCell v None]).
      rewrite <-Htake.
      rewrite join_app. apply take_app_le. rewrite slices_length by done. lia.
    + done.
    + simpl. rewrite length_app, Hn. simpl. lia.
  - eexists. split; [reflexivity|]. split; [|simpl; lia]. split; [split; simpl; [done|]|].
    + rewrite Hn. pose proof (Z.mul_div_le (stackTopIndex R + 1) 64 ltac:(lia)).
      pose proof (Z.mod_pos_bound (stackTopIndex R + 1) 64 ltac:(lia)). pose proof (Z.div_mod (stackTopIndex R + 1) 64 ltac:(lia)). lia.
    + split; [exact Htake|done].
Qed.
(** ** Frames *)
Lemma frame_distance R f i st c above :
  wf_stack R → addressable (stack_of R) → stack_of R = st ++ c :: above →
  stackEntryIndex f + i = Z.of_nat (length st) →
  usize (stackTopIndex R - (stackEntryIndex f + i + 1)) = Z.of_nat (length above).
Proof.
  intros H Ha Hst Hi. pose proof (stack_length_Z R H) as HL. unfold addressable in Ha.
  rewrite Hst, length_app in HL, Ha. simpl in HL, Ha. rewrite usize_small; lia.
Qed.

Lemma frameSlot_run r f i s R st c above :
  vm_objects s !! r = Some (OBJ_ROUTINE R) → wf_stack R → addressable (stack_of R) →
  stack_of R = st ++ c :: above → stackEntryIndex f + i = Z.of_nat (length st) →
  frameSlot r f i s = Some (c, s).
Proof.
  intros Hr H Ha Hst Hi. unfold frameSlot. rewrite (st_bind_run _ _ _ _ _ (get_routine_run _ _ _ Hr)).
  apply (peekCell_run r s R st c above); [done..|]. by apply (frame_distance R f i st c above).
Qed.

Lemma setFrameSlot_run r f i s R st c above c' :
  vm_objects s !! r = Some (OBJ_ROUTINE R) → wf_stack R → addressable (stack_of R) →
  stack_of R = st ++ c :: above → stackEntryIndex f + i = Z.of_nat (length st) →
  ∃ R', setFrameSlot r f i c' s = Some ((), upd r R' s) ∧ with_stack R (st ++ c' :: above) R' ∧
    length (stackSlices R') = length (stackSlices R).
Proof.
  intros Hr H Ha Hst Hi. unfold setFrameSlot. rewrite (st_bind_run _ _ _ _ _ (get_routine_run _ _ _ Hr)).
  apply (setCell_run r s R st c above); [done..|]. by apply (frame_distance R f i st c above).
Qed.

Lemma popFrame_run r f s R st above :
  vm_objects s !! r = Some (OBJ_ROUTINE R) → wf_stack R → stack_of R = st ++ above →
  stackEntryIndex f = Z.of_nat (length st) →
  popFrame r f s = Some ((), upd r (set_top (Z.of_nat (length st)) R) s) ∧
  with_stack R st (set_top (Z.of_nat (length st)) R).
Proof.
  intros Hr H Hst Hi. unfold popFrame. rewrite (modify_routine_run _ _ _ _ Hr), Hi. split; [done|].
  pose proof (stack_length_Z R H) as HL. rewrite Hst, length_app in HL. destruct H as [Hs Ht].
  split; [split; [done|simpl; lia]|]. split; [|done].
  unfold stack_of in *. simpl. rewrite Nat2Z.id.
  transitivity (take (length st) (st ++ above)); [|apply take_app_length]. rewrite <-Hst, take_take. f_equal. lia.
Qed.
End Stack.
