(* ===== verification/FrameSpec.v ===== *)
(** * Captured variables, calls and returns

    The open upvalues of a routine: a list sorted by stack offset, with one
    upvalue for each captured cell; how cells are captured and closed; what a
    call and a return do with the stack and the frames. *)
From S2P Require Export RoutineSpec.
Open Scope Z_scope.

(** ** The list of open upvalues *)

(** [l] are the upvalues from [cur] on, with their offsets. *)
Fixpoint open_chain (s : VM) (r : objptr) (cur : option objptr) (l : list (objptr * Z)) : Prop :=
  match l with
  | [] => cur = None
  | (p, o) :: l' =>
      cur = Some p ∧ ∃ u, vm_objects s !! p = Some (OBJ_UPVALUE u) ∧ contents_ u = OnStack r o ∧ stackOffset u = o ∧
        open_chain s r (next u) l'
  end.

(** The offsets go down from below [hi]. *)
Fixpoint below (hi : Z) (l : list (objptr * Z)) : Prop :=
  match l with [] => True | (_, o) :: l' => 0 ≤ o < hi ∧ below o l' end.

Lemma below_weaken l : ∀ hi hi', hi ≤ hi' → below hi l → below hi' l.
Proof. destruct l as [|[p o] l]; intros hi hi' Hh; simpl; [done|]. intros [H ?]. split; [lia|done]. Qed.
Lemma below_lookup l : ∀ hi q o, below hi l → (q, o) ∈ l → 0 ≤ o < hi.
Proof.
  induction l as [|[p o'] l IH]; intros hi q o H Hin; [by apply list.not_elem_of_nil in Hin|].
  destruct H as [Ho H]. apply list.elem_of_cons in Hin as [[= -> ->]|Hin]; [done|].
  specialize (IH o' q o H Hin). lia.
Qed.
Lemma below_app l1 l2 hi : below hi (l1 ++ l2) → below hi l1 ∧ ∃ hi', hi' ≤ hi ∧ below hi' l2 ∧ ∀ q o, (q, o) ∈ l1 → hi' ≤ o.
Proof.
  revert hi. induction l1 as [|[p o] l1 IH]; intros hi H.
  - split; [done|]. exists hi. split; [lia|]. split; [done|]. intros q o Hin. by apply list.not_elem_of_nil in Hin.
  - destruct H as [Ho H]. destruct (IH o H) as (H1 & hi' & Hle & H2 & Hl). split; [done|].
    exists hi'. split; [lia|]. split; [done|]. intros q o' Hin.
    apply list.elem_of_cons in Hin as [[= -> ->]|Hin]; [lia|by apply (Hl q)].
Qed.

Lemma chain_object s r l : ∀ cur p o, open_chain s r cur l → (p, o) ∈ l →
  ∃ u, vm_objects s !! p = Some (OBJ_UPVALUE u) ∧ contents_ u = OnStack r o ∧ stackOffset u = o.
Proof.
  induction l as [|[q o'] l IH]; intros cur p o H Hin; [by apply list.not_elem_of_nil in Hin|].
  destruct H as [-> (u & Hu & Hc & Ho & H)]. apply list.elem_of_cons in Hin as [[= -> ->]|Hin]; [by exists u|by eapply IH].
Qed.

Lemma chain_nodup s r l : ∀ cur hi, open_chain s r cur l → below hi l → NoDup l.*1.
Proof.
  induction l as [|[q o] l IH]; intros cur hi H Hb; [apply base.NoDup_nil_2|].
  destruct H as [-> (u & Hu & Hc & Ho & H)], Hb as [Hlt Hb]. simpl. apply base.NoDup_cons_2; [|by eapply IH].
  intros Hin. apply list_elem_of_fmap in Hin as ([q' o'] & -> & Hin).
  destruct (chain_object s r l _ _ _ H Hin) as (u' & Hu' & _ & Ho'). simpl in Hu. rewrite Hu in Hu'. injection Hu' as <-.
  pose proof (below_lookup l o _ _ Hb Hin). lia.
Qed.

Lemma chain_fuel s r l cur hi : open_chain s r cur l → below hi l → (length l ≤ size (vm_objects s))%nat.
Proof.
  intros H Hb. pose proof (chain_nodup s r l cur hi H Hb) as Hnd.
  rewrite <-size_dom, <-(length_fmap fst l). rewrite <-(size_list_to_set (C := gset positive) _ Hnd).
  apply subseteq_size. intros p Hp. apply elem_of_list_to_set in Hp. apply list_elem_of_fmap in Hp as ([q o] & -> & Hin).
  destruct (chain_object s r l cur q o H Hin) as (u & Hu & _). apply elem_of_dom. by exists (OBJ_UPVALUE u).
Qed.

(** A change of other objects, or of nothing but the fields that the list
    does not use. *)
Lemma chain_ext s s' r l : ∀ cur,
  (∀ p o u, (p, o) ∈ l → vm_objects s !! p = Some (OBJ_UPVALUE u) → vm_objects s' !! p = Some (OBJ_UPVALUE u)) →
  open_chain s r cur l → open_chain s' r cur l.
Proof.
  induction l as [|[q o] l IH]; intros cur Hs H; [done|]. destruct H as [-> (u & Hu & Hc & Ho & H)].
  split; [done|]. exists u. split; [by apply (Hs q o); [left|]|]. split; [done|]. split; [done|].
  apply IH; [|done]. intros p o' u' Hin. apply (Hs p o'). by right.
Qed.

Lemma chain_head s r cur l : open_chain s r cur l → cur = fst <$> head l.
Proof. destruct l as [|[p o] l]; [done|]. by intros [-> _]. Qed.

(** The upvalue that the search leaves behind. *)
Definition last_ptr (prev : option objptr) (l : list (objptr * Z)) : option objptr :=
  fold_left (λ _ e, Some e.1) l prev.

Lemma find_upvalue_run r s o l : ∀ fuel prev cur hi,
  open_chain s r cur l → below hi l → (length l < fuel)%nat →
  ∃ l1 l2, l = l1 ++ l2 ∧ (∀ q o', (q, o') ∈ l1 → o < o') ∧ below (o + 1) l2 ∧
    open_chain s r (fst <$> head l2) l2 ∧
    find_upvalue fuel prev cur o s = Some ((last_ptr prev l1, fst <$> head l2), s).
Proof.
  induction l as [|[q o'] l IH]; intros [|fuel] prev cur hi H Hb Hf; simpl in Hf; try lia.
  - exists [], []. simpl in H. subst cur. split; [done|]. split; [|done]. intros q o' Hin. by apply list.not_elem_of_nil in Hin.
  - pose proof H as [-> (u & Hu & Hc & Ho & Hnext)]. destruct Hb as [Hlt Hb]. cbn [find_upvalue].
    rewrite (st_bind_run _ _ _ _ _ (get_upvalue_run _ _ _ Hu)). rewrite Ho.
    destruct (Z.ltb_spec o o') as [Hlo|Hlo].
    + destruct (IH fuel (Some q) (next u) o' Hnext Hb ltac:(lia)) as (l1 & l2 & -> & H1 & H2 & H3 & E).
      exists ((q, o') :: l1), l2. split; [done|]. split.
      { intros q' o'' Hin. apply list.elem_of_cons in Hin as [[= -> ->]|Hin]; [done|by apply (H1 q')]. }
      by split.
    + exists [], ((q, o') :: l). split; [done|]. split.
      { intros q' o'' Hin. by apply list.not_elem_of_nil in Hin. }
      split; [split; [lia|done]|]. by split.
Qed.

(** A new upvalue [p] behind [q]. *)
Lemma chain_link s s' r l2 q oq p o u l1 : ∀ cur,
  open_chain s r cur (l1 ++ (q, oq) :: l2) →
  (∀ x, x ∈ l1.*1 ∨ x ∈ l2.*1 → vm_objects s' !! x = vm_objects s !! x) →
  vm_objects s !! q = Some (OBJ_UPVALUE u) →
  vm_objects s' !! q = Some (OBJ_UPVALUE (mkUpvalue (contents_ u) (stackOffset u) (closed u) (Some p))) →
  vm_objects s' !! p = Some (OBJ_UPVALUE (mkUpvalue (OnStack r o) o nil_cell (fst <$> head l2))) →
  open_chain s' r cur (l1 ++ (q, oq) :: (p, o) :: l2).
Proof.
  induction l1 as [|[x ox] l1 IH]; intros cur H Hs Hq Hq' Hp; simpl in *.
  - destruct H as [-> (u' & Hu' & Hc & Ho & H)]. rewrite Hq in Hu'. injection Hu' as <-.
    split; [done|]. eexists. split; [exact Hq'|]. split; [done|]. split; [done|]. split; [done|].
    eexists. split; [exact Hp|]. split; [done|]. split; [done|]. simpl. rewrite <-(chain_head s r _ l2 H).
    apply (chain_ext s); [|done]. intros y oy v Hin. rewrite Hs; [done|]. right. apply list_elem_of_fmap. by exists (y, oy).
  - destruct H as [-> (u' & Hu' & Hc & Ho & H)]. split; [done|]. exists u'. split.
    { rewrite Hs; [done|]. left. by left. }
    split; [done|]. split; [done|]. apply IH; try done. intros y [Hy|Hy]; apply Hs; [left; by right|by right].
Qed.

(** Objects that agree but for the links of the list. *)
Definition same_but_next (x x' : Obj) : Prop :=
  match x, x' with
  | OBJ_UPVALUE u, OBJ_UPVALUE u' => contents_ u' = contents_ u ∧ stackOffset u' = stackOffset u ∧ closed u' = closed u
  | _, _ => x' = x
  end.
Lemma same_but_next_refl x : same_but_next x x.
Proof. by destruct x. Qed.

(** What a capture leaves of the machine. *)
Record captured (r : objptr) (s : VM) (R : ObjRoutine) (l : list (objptr * Z)) (o : Z) (p : objptr)
    (s' : VM) (l' : list (objptr * Z)) : Prop := {
  cp_routine : ∃ head, vm_objects s' !! r = Some (OBJ_ROUTINE (set_openUpvalues head R)) ∧ open_chain s' r head l';
  cp_in : (p, o) ∈ l';
  cp_old : ∀ q o', (q, o') ∈ l → (q, o') ∈ l';
  cp_new : ∀ q o', (q, o') ∈ l' → (q, o') ∈ l ∨ (q = p ∧ o' = o ∧ vm_objects s !! p = None);
  cp_objects : ∀ q x, q ≠ r → vm_objects s !! q = Some x → ∃ x', vm_objects s' !! q = Some x' ∧ same_but_next x x';
  cp_rest : s' = set_objects (vm_objects s') s
}.

Lemma set_openUpvalues_id R : set_openUpvalues (openUpvalues R) R = R.
Proof. by destruct R. Qed.
Lemma set_objects_id s : set_objects (vm_objects s) s = s.
Proof. by destruct s. Qed.

Lemma insert_upvalue_run r s R l1 l2 o :
  vm_objects s !! r = Some (OBJ_ROUTINE R) → open_chain s r (openUpvalues R) (l1 ++ l2) → NoDup (l1 ++ l2).*1 →
  ∃ p s', insert_upvalue r o o (last_ptr None l1) (fst <$> head l2) s = Some (p, s') ∧
    captured r s R (l1 ++ l2) o p s' (l1 ++ (p, o) :: l2).
Proof.
  intros Hr H Hnd. set (p := fresh (dom (vm_objects s))).
  assert (vm_objects s !! p = None) as Hp by (apply not_elem_of_dom, is_fresh).
  assert (∀ q, q ∈ (l1 ++ l2).*1 → q ≠ p) as Hfresh.
  { intros q Hin ->. apply list_elem_of_fmap in Hin as ([q o'] & Eq & Hin). simpl in Eq. subst q.
    destruct (chain_object s r _ _ _ o' H Hin) as (u & Hu & _). congruence. }
  set (P := mkUpvalue (OnStack r o) o nil_cell (fst <$> head l2)).
  set (s1 := set_objects (<[p := OBJ_UPVALUE P]> (vm_objects s)) s).
  assert (vm_objects s1 !! p = Some (OBJ_UPVALUE P)) as Hp1 by apply lookup_insert_eq.
  assert (∀ q, q ≠ p → vm_objects s1 !! q = vm_objects s !! q) as Hne1 by (intros q Hq; by apply lookup_insert_ne).
  assert (p ≠ r) as Hpr by (intros E; rewrite E in Hp; congruence).
  unfold insert_upvalue. erewrite st_bind_run by done. cbv beta. fold p.
  erewrite (st_bind_run _ _ _ _ s1); [|unfold put_upvalue; rewrite put_obj_run; cbn [set_objects vm_objects];
    by rewrite insert_insert_eq]. cbv beta.
  assert (∀ q o', (q, o') ∈ l1 ++ (p, o) :: l2 ↔ (q, o') ∈ l1 ++ l2 ∨ (q = p ∧ o' = o)) as Hin.
  { intros q o'. rewrite !list.elem_of_app, list.elem_of_cons. split; [intros [?|[[=]|?]]|intros [[?|?]|[-> ->]]]; tauto. }
  destruct l1 as [|e l1 _] using rev_ind.
  - cbn [last_ptr fold_left]. assert (vm_objects s1 !! r = Some (OBJ_ROUTINE R)) as Hr1 by (by rewrite Hne1).
    erewrite st_bind_run by by apply modify_routine_run. eexists _, _. split; [done|]. split.
    + exists (Some p). split; [apply upd_eq|]. split; [done|]. exists P. rewrite upd_ne by done. split; [done|].
      split; [done|]. split; [done|]. simpl. rewrite <-(chain_head s r _ l2 H).
      apply (chain_ext s); [|done]. intros q o' u Hq Hu. rewrite upd_ne by congruence. by rewrite Hne1 by congruence.
    + apply Hin. by right.
    + intros q o' Hq. apply Hin. by left.
    + intros q o' Hq. apply Hin in Hq as [Hq|[-> ->]]; [by left|by right].
    + intros q x Hq Hx. exists x. split; [|apply same_but_next_refl]. rewrite upd_ne by done. by rewrite Hne1 by congruence.
    + done.
  - destruct e as [q oq]. unfold last_ptr. rewrite fold_left_app. cbn [fold_left fst].
    rewrite <-app_assoc in H. simpl in H.
    destruct (chain_object s r _ _ q oq H) as (u & Hu & _); [apply list.elem_of_app; right; by left|].
    assert (q ≠ p) as Hqp by congruence. assert (q ≠ r) as Hqr by congruence.
    assert (vm_objects s1 !! q = Some (OBJ_UPVALUE u)) as Hu1 by (by rewrite Hne1).
    erewrite st_bind_run; [|by rewrite (st_bind_run _ _ _ _ _ (get_upvalue_run _ _ _ Hu1))].
    eexists _, _. split; [done|].
    rewrite <-app_assoc, fmap_app in Hnd. simpl in Hnd. apply list.NoDup_app in Hnd as (_ & Hd1 & Hd2).
    apply list.NoDup_cons in Hd2 as [Hd2 _].
    split.
    + exists (openUpvalues R). rewrite set_openUpvalues_id. cbn [set_objects vm_objects].
      split; [by rewrite lookup_insert_ne, Hne1|]. rewrite <-app_assoc. simpl.
      apply (chain_link s _ _ _ q oq p o u); cbn [set_objects vm_objects]; [done| |done|apply lookup_insert_eq|].
      * intros x Hx. assert (x ≠ q) by (intros ->; destruct Hx as [Hx|Hx]; [apply (Hd1 q Hx); by left|done]).
        rewrite lookup_insert_ne by done. apply Hne1. apply Hfresh. rewrite !fmap_app, !list.elem_of_app. tauto.
      * by rewrite lookup_insert_ne by done.
    + apply Hin. by right.
    + intros x o' Hx. apply Hin. by left.
    + intros x o' Hx. apply Hin in Hx as [Hx|[-> ->]]; [by left|by right].
    + intros x y Hx Hy. cbn [set_objects vm_objects]. destruct (decide (x = q)) as [->|Hxq].
      * rewrite lookup_insert_eq. eexists. split; [done|]. rewrite Hu in Hy. injection Hy as <-. done.
      * exists y. split; [|apply same_but_next_refl]. rewrite lookup_insert_ne by done. by rewrite Hne1 by congruence.
    + done.
Qed.

Lemma below_insert l1 l2 o p hi : below hi (l1 ++ l2) → (∀ q o', (q, o') ∈ l1 → o < o') →
  match head l2 with Some (_, o') => o' < o | None => True end → 0 ≤ o < hi → below hi (l1 ++ (p, o) :: l2).
Proof.
  revert hi. induction l1 as [|[q oq] l1 IH]; intros hi H H1 H2 Ho; simpl in *.
  - split; [done|]. destruct l2 as [|[q o'] l2]; [done|]. simpl in *. destruct H as [? ?]. split; [lia|done].
  - destruct H as [Hq H]. split; [done|]. apply IH; [done| |done|].
    + intros x ox Hx. apply (H1 x). by right.
    + assert (o < oq) by (apply (H1 q); by left). lia.
Qed.

Lemma captureUpvalue_run r s R l o hi :
  vm_objects s !! r = Some (OBJ_ROUTINE R) → open_chain s r (openUpvalues R) l → below hi l → 0 ≤ o < hi →
  ∃ p s' l', captureUpvalue r o o s = Some (p, s') ∧ captured r s R l o p s' l' ∧ below hi l'.
Proof.
  intros Hr H Hb Ho. unfold captureUpvalue. rewrite (st_bind_run _ _ _ _ _ (get_routine_run _ _ _ Hr)).
  assert (upvalue_fuel s = Some (S (size (vm_objects s)), s)) as Hf by done.
  rewrite (st_bind_run _ _ _ _ _ Hf). pose proof (chain_fuel s r l _ hi H Hb) as Hlen.
  pose proof (chain_nodup s r l _ hi H Hb) as Hnd.
  destruct (find_upvalue_run r s o l (S (size (vm_objects s))) None _ hi H Hb ltac:(lia)) as (l1 & l2 & -> & H1 & H2 & H3 & E).
  rewrite (st_bind_run _ _ _ _ _ E). clear E Hf.
  destruct (insert_upvalue_run r s R l1 l2 o Hr H Hnd) as (p & s' & E & Hcap).
  destruct l2 as [|[q o'] l2].
  { exists p, s', (l1 ++ [(p, o)]). split; [done|]. split; [done|]. by apply below_insert. }
  destruct H3 as [_ (u & Hu & Hc & Hoff & H3)]. simpl in E |- *.
  rewrite (st_bind_run _ _ _ _ _ (get_upvalue_run _ _ _ Hu)), Hoff.
  destruct (Z.eqb_spec o' o) as [->|Hne].
  - exists q, s, (l1 ++ (q, o) :: l2). split; [done|]. split; [|done]. split.
    + exists (openUpvalues R). by rewrite set_openUpvalues_id.
    + apply list.elem_of_app. right. by left.
    + done.
    + intros q' o' Hin. by left.
    + intros q' x _ Hx. exists x. split; [done|apply same_but_next_refl].
    + by rewrite set_objects_id.
  - exists p, s', (l1 ++ (p, o) :: (q, o') :: l2). split; [done|]. split; [done|].
    destruct H2 as [? _]. apply below_insert; [done|done|simpl; lia|done].
Qed.

(** ** Closing *)

(** What closing the upvalues [l1] in front of [l2] leaves. *)
Record closed_in (r : objptr) (s : VM) (R : ObjRoutine) (l1 l2 : list (objptr * Z)) (s' : VM) : Prop := {
  ci_routine : vm_objects s' !! r = Some (OBJ_ROUTINE (set_openUpvalues (fst <$> head l2) R));
  ci_chain : open_chain s' r (fst <$> head l2) l2;
  ci_closed : ∀ p o, (p, o) ∈ l1 → ∃ u, vm_objects s' !! p = Some (OBJ_UPVALUE u) ∧ contents_ u = InUpvalue ∧
    slot R o = Some (closed u);
  ci_other : ∀ q, q ≠ r → q ∉ l1.*1 → vm_objects s' !! q = vm_objects s !! q;
  ci_rest : s' = set_objects (vm_objects s') s
}.

Lemma slot_openUpvalues R x o : slot (set_openUpvalues x R) o = slot R o.
Proof. done. Qed.

(** Closing leaves the rest of the chain alone. *)
Lemma chain_close s r p u v l2 cur R x : p ∉ l2.*1 → vm_objects s !! r = Some (OBJ_ROUTINE R) →
  vm_objects s !! p = Some (OBJ_UPVALUE u) → open_chain s r cur l2 →
  open_chain (upd r (set_openUpvalues x R)
    (set_objects (<[p := OBJ_UPVALUE v]> (vm_objects s)) s)) r cur l2.
Proof.
  intros Hp Hr Hu H. apply (chain_ext s); [|done]. intros q o' w Hin Hw. unfold upd. cbn [set_objects vm_objects].
  rewrite !lookup_insert_ne; [done| |intros ->; congruence].
  intros ->. apply Hp. apply list_elem_of_fmap. by exists (q, o').
Qed.

Lemma close_upvalues_run r last l2 l1 : ∀ fuel s R,
  vm_objects s !! r = Some (OBJ_ROUTINE R) → open_chain s r (openUpvalues R) (l1 ++ l2) → NoDup (l1 ++ l2).*1 →
  (∀ p o, (p, o) ∈ l1 → last ≤ o ∧ is_Some (slot R o)) → below last l2 → (length l1 < fuel)%nat →
  ∃ s', close_upvalues fuel r last s = Some ((), s') ∧ closed_in r s R l1 l2 s'.
Proof.
  induction l1 as [|[p o] l1 IH]; intros [|fuel] s R Hr H Hnd Hl1 Hb Hf; simpl in Hf; try lia; cbn [close_upvalues];
    rewrite (st_bind_run _ _ _ _ _ (get_routine_run _ _ _ Hr)); simpl in H.
  - exists s. split.
    + destruct l2 as [|[q o'] l2]; simpl in H; [by rewrite H|]. destruct H as [-> (u & Hu & _ & Ho & _)].
      rewrite (st_bind_run _ _ _ _ _ (get_upvalue_run _ _ _ Hu)), Ho. destruct Hb as [Hb _].
      by rewrite (proj2 (Z.leb_gt _ _)) by lia.
    + pose proof (chain_head s r _ l2 H) as E.
      split; [by rewrite <-E, set_openUpvalues_id|by rewrite <-E| |done|by rewrite set_objects_id].
      * intros p o Hin. by apply list.not_elem_of_nil in Hin.
  - destruct H as [-> (u & Hu & Hc & Ho & H)]. rewrite (st_bind_run _ _ _ _ _ (get_upvalue_run _ _ _ Hu)), Ho.
    destruct (Hl1 p o) as [Hle [c Hslot]]; [by left|]. rewrite (proj2 (Z.leb_le _ _)) by lia.
    simpl in Hnd. apply list.NoDup_cons in Hnd as [Hp Hnd].
    assert (p ≠ r) as Hpr by congruence.
    assert (read_contents u s = Some (c, s)) as Hread.
    { unfold read_contents. rewrite Hc, (st_bind_run _ _ _ _ _ (get_routine_run _ _ _ Hr)). by apply opt_run. }
    rewrite (st_bind_run _ _ _ _ _ Hread). unfold put_upvalue.
    rewrite (st_bind_run _ _ _ _ _ (put_obj_run _ _ _)).
    set (s1 := set_objects _ s).
    assert (vm_objects s1 !! r = Some (OBJ_ROUTINE R)) as Hr1 by (unfold s1; simpl; by rewrite lookup_insert_ne).
    rewrite (st_bind_run _ _ _ _ _ (modify_routine_run _ _ _ _ Hr1)).
    destruct (IH fuel (upd r (set_openUpvalues (next u) R) s1) (set_openUpvalues (next u) R) (upd_eq _ _ _))
      as (s' & E & HC); [by eapply (chain_close s)|done| |done|lia|].
    { intros q o' Hin. apply (Hl1 q). by right. }
    exists s'. split; [exact E|]. destruct HC as [C1 C2 C3 C4 C5].
    split; [exact C1|exact C2| | |].
    + intros q o' Hin. apply list.elem_of_cons in Hin as [[= -> ->]|Hin]; [|by apply (C3 q)].
      exists (mkUpvalue InUpvalue o c (next u)). split; [|done].
      rewrite fmap_app, list.elem_of_app in Hp. rewrite C4; [|done|tauto]. rewrite upd_ne by done. apply lookup_insert_eq.
    + intros q Hq Hin. rewrite fmap_cons, list.not_elem_of_cons in Hin. destruct Hin as [Hqp Hin]. simpl in Hqp.
      rewrite C4 by done. unfold s1. rewrite upd_ne by done. simpl. by rewrite lookup_insert_ne.
    + rewrite C5. by destruct s.
Qed.
