(* ===== verification/CallSpec.v ===== *)
(** * Captured variables and returns

    What the open upvalues of a routine promise to the closures that share
    them, and what a return does with the stack, the frames and the upvalues
    of the frame that it leaves. *)
From S2P Require Export FrameSpec.
Open Scope Z_scope.

(** ** Slots *)
Section Slots.
Context `{U : Uninit} `{TG : Target} `{HO : Host}.

Lemma slot_stack R i : wf_stack R → 0 ≤ i < Z.of_nat (length (stack_of R)) → slot R i = stack_of R !! Z.to_nat i.
Proof.
  intros H Hi. rewrite (stack_length_Z R H) in Hi. destruct H as [Hs Ht]. rewrite slot_run by (done || lia).
  unfold stack_of. by rewrite lookup_take_lt by lia.
Qed.

Lemma set_slot_stack R i c : wf_stack R → 0 ≤ i < Z.of_nat (length (stack_of R)) →
  ∃ R', set_slot R i c = Some R' ∧ with_stack R (<[Z.to_nat i := c]> (stack_of R)) R' ∧
    ∃ l, R' = set_slices l R.
Proof.
  intros H Hi. rewrite (stack_length_Z R H) in Hi. pose proof H as [Hs Ht].
  destruct (set_slot_run R i c Hs ltac:(lia)) as (l & E & Hl & Hn & Hj). exists (set_slices l R). split; [done|].
  split; [|by exists l]. split; [split; [done|simpl; lia]|]. split; [|done].
  unfold stack_of. simpl. by rewrite Hj, take_insert_lt by lia.
Qed.

Lemma split_below l : ∀ hi last, below hi l → ∃ l1 l2, l = l1 ++ l2 ∧ (∀ p o, (p, o) ∈ l1 → last ≤ o) ∧ below last l2.
Proof.
  induction l as [|[p o] l IH]; intros hi last H.
  { exists [], []. split; [done|]. split; [|done]. intros p o Hin. by apply list.not_elem_of_nil in Hin. }
  destruct H as [Ho H]. destruct (Z.leb_spec last o).
  - destruct (IH o last H) as (l1 & l2 & -> & H1 & H2). exists ((p, o) :: l1), l2. split; [done|]. split; [|done].
    intros q o' Hin. apply list.elem_of_cons in Hin as [[= -> ->]|Hin]; [done|by apply (H1 q)].
  - exists [], ((p, o) :: l). split; [done|]. split; [|by split; [lia|]].
    intros q o' Hin. by apply list.not_elem_of_nil in Hin.
Qed.

(** The chain is above the objects that are not upvalues. *)
Lemma chain_upd s r cur l q R x : vm_objects s !! q = Some (OBJ_ROUTINE R) → open_chain s r cur l →
  open_chain (upd q x s) r cur l.
Proof.
  intros Hq. apply chain_ext. intros p o u _ Hp. rewrite upd_ne; [done|]. intros ->. congruence.
Qed.

Lemma closeUpvalues_run r last l hi s R :
  vm_objects s !! r = Some (OBJ_ROUTINE R) → open_chain s r (openUpvalues R) l → below hi l →
  (∀ o, last ≤ o < hi → is_Some (slot R o)) →
  ∃ l1 l2 s', l = l1 ++ l2 ∧ (∀ p o, (p, o) ∈ l1 → last ≤ o) ∧ below last l2 ∧
    closeUpvalues r last s = Some ((), s') ∧ closed_in r s R l1 l2 s'.
Proof.
  intros Hr H Hb Hs. destruct (split_below l hi last Hb) as (l1 & l2 & -> & H1 & H2).
  assert (upvalue_fuel s = Some (S (size (vm_objects s)), s)) as Hf by done.
  pose proof (chain_fuel s r _ _ hi H Hb) as Hlen. rewrite length_app in Hlen.
  destruct (close_upvalues_run r last l2 l1 (S (size (vm_objects s))) s R Hr H) as (s' & E & HC); [| | done| |].
  - by eapply chain_nodup.
  - intros p o Hin. split; [by apply (H1 p)|]. apply Hs. split; [by apply (H1 p)|].
    apply (below_lookup (l1 ++ l2) hi p o Hb), list.elem_of_app. by left.
  - lia.
  - exists l1, l2, s'. split; [done|]. split; [done|]. split; [done|]. split; [|done].
    unfold closeUpvalues. by rewrite (st_bind_run _ _ _ _ _ Hf).
Qed.
End Slots.

(** ** Returns *)
Section Return.
Context `{U : Uninit} `{TG : Target} `{HO : Host}.

(** What a return leaves: the frame's part of the stack is [body] with the
    value [v] above it, in front of which is [st]; [l] are the open upvalues. *)
Record returned (r : objptr) (s : VM) (R : ObjRoutine) (st body : cells) (v : Value) (l : list (objptr * Z))
    (s' : VM) (R' : ObjRoutine) : Prop := {
  rt_routine : vm_objects s' !! r = Some (OBJ_ROUTINE R');
  rt_stack : wf_stack R' ∧ stack_of R' = st ++ [mkCell v None];
  rt_frames : frames R' = frames R ∧ frameCount R' = pred (frameCount R);
  rt_state : if (frameCount R' =? 0)%nat then state R' = EXEC_CLOSED ∧ result R' = v
             else state R' = state R ∧ result R' = NIL_VAL;
  rt_open : ∃ l1 l2, l = l1 ++ l2 ∧ open_chain s' r (openUpvalues R') l2 ∧
    below (Z.of_nat (length st)) l2 ∧
    ∀ p o, (p, o) ∈ l1 → Z.of_nat (length st) ≤ o ∧
      ∃ u, vm_objects s' !! p = Some (OBJ_UPVALUE u) ∧ contents_ u = InUpvalue ∧
        body !! (Z.to_nat o - length st)%nat = Some (closed u);
  rt_other : ∀ q, q ≠ r → q ∉ l.*1 → vm_objects s' !! q = vm_objects s !! q;
  rt_rest : s' = set_objects (vm_objects s') s
}.

(** C14. A return pops the result, closes exactly the open upvalues of the
    frame, each with the value its slot had, leaves those of the callers open
    and on the list, cuts the stack back to where the callee lay, and puts the
    result there.  The frame is gone; the routine that returns from its last
    frame is closed and keeps the result, another has no result. *)
Theorem op_return_correct r f s R st body c l :
  vm_objects s !! r = Some (OBJ_ROUTINE R) → wf_stack R → addressable (stack_of R) → addSlice R = true →
  stack_of R = st ++ body ++ [c] → stackEntryIndex f = Z.of_nat (length st) →
  open_chain s r (openUpvalues R) l → below (Z.of_nat (length (st ++ body))) l →
  ∃ s' R', op_return r f s = Some (pred (frameCount R), s') ∧ returned r s R st body (cell_value c) l s' R'.
Proof.
  intros Hr H Ha Hadd Hst Hf Hch Hb. unfold op_return. rewrite app_assoc in Hst.
  destruct (pop_run r s R (st ++ body) c Hr H Ha Hst) as (R1 & E1 & (W1 & S1 & F1) & Hsl).
  rewrite (st_bind_run _ _ _ _ _ E1). cbv beta.
  rewrite (st_bind_run _ _ _ _ _ (modify_routine_run _ _ _ _ (upd_eq _ _ _))). rewrite upd_upd.
  set (R2 := set_result (cell_value c) R1). set (s2 := upd r R2 s).
  assert (wf_stack R2 ∧ stack_of R2 = st ++ body) as [W2 S2] by (split; [by destruct W1|done]).
  assert (openUpvalues R2 = openUpvalues R ∧ addSlice R2 = true ∧ frames R2 = frames R ∧
    frameCount R2 = frameCount R ∧ state R2 = state R) as (O2 & A2 & Fr2 & Fc2 & St2).
  { unfold rest_of in F1. injection F1. intros. subst R2. simpl. repeat split; congruence. }
  assert (addressable (st ++ body)) as Hab.
  { unfold addressable in *. rewrite Hst, length_app in Ha. simpl in Ha. lia. }
  rewrite <-O2 in Hch. apply (chain_upd s r _ l r R R2 Hr) in Hch. fold s2 in Hch.
  destruct (closeUpvalues_run r (stackEntryIndex f) l _ s2 R2 (upd_eq _ _ _) Hch Hb)
    as (l1 & l2 & s3 & -> & H1 & H2 & E3 & HC).
  { intros o Ho. rewrite slot_stack; [|done|rewrite S2; lia]. rewrite S2. apply lookup_lt_is_Some_2. lia. }
  rewrite (st_bind_run _ _ _ _ _ E3). destruct HC as [C1 C2 C3 C4 C5].
  rewrite (st_bind_run _ _ _ _ _ (modify_routine_run _ _ _ _ C1)).
  set (R3 := set_frames _ _ _). assert (wf_stack R3 ∧ stack_of R3 = st ++ body) as [W3 S3] by (split; [by destruct W2|done]).
  destruct (popFrame_run r f (upd r R3 s3) R3 st body (upd_eq _ _ _) W3 S3 Hf) as (E4 & W4 & S4 & F4).
  rewrite (st_bind_run _ _ _ _ _ E4). rewrite upd_upd.
  set (R4 := set_top _ R3) in *. rewrite (st_bind_run _ _ _ _ _ (get_routine_run _ _ _ (upd_eq _ _ _))).
  assert (addressable (stack_of R4)) as Ha4.
  { rewrite S4. unfold addressable in *. rewrite length_app in Hab. lia. }
  destruct (push_run r (result R4) (upd r R4 s3) R4 (upd_eq _ _ _) W4 Ha4 A2) as (R5 & E5 & (W5 & S5 & F5) & _).
  rewrite (st_bind_run _ _ _ _ _ E5). rewrite upd_upd.
  rewrite (st_bind_run _ _ _ _ _ (get_routine_run _ _ _ (upd_eq _ _ _))).
  assert (openUpvalues R5 = fst <$> head l2 ∧ frames R5 = frames R ∧ frameCount R5 = pred (frameCount R) ∧
    state R5 = state R ∧ result R5 = cell_value c) as (O5 & Fr5 & Fc5 & St5 & Re5).
  { unfold rest_of in F5. injection F5. intros. subst R4 R3. simpl in *. repeat split; congruence. }
  rewrite S4 in S5.
  assert (∀ R6, openUpvalues R6 = openUpvalues R5 → wf_stack R6 ∧ stack_of R6 = stack_of R5 →
    frames R6 = frames R5 ∧ frameCount R6 = frameCount R5 →
    (if (frameCount R6 =? 0)%nat then state R6 = EXEC_CLOSED ∧ result R6 = cell_value c
     else state R6 = state R ∧ result R6 = NIL_VAL) →
    returned r s R st body (cell_value c) (l1 ++ l2) (upd r R6 s3) R6) as Hgo.
  { intros R6 O6 [W6 S6] [Fr6 Fc6] Hst6. split.
    - apply upd_eq.
    - split; [done|]. by rewrite S6, S5.
    - split; [congruence|by rewrite Fc6].
    - done.
    - exists l1, l2. split; [done|]. split; [|split; [by rewrite <-Hf|]].
      + rewrite O6, O5. by eapply chain_upd.
      + intros p o Hin. split; [rewrite <-Hf; by apply (H1 p)|]. destruct (C3 p o Hin) as (u & Hu & Hc & Hs).
        exists u. split; [rewrite upd_ne; [done|intros ->; congruence]|]. split; [done|].
        pose proof (H1 p o Hin). rewrite slot_stack in Hs; [|done|].
        * rewrite S2, lookup_app_r in Hs by lia. done.
        * rewrite S2. apply (below_lookup (l1 ++ l2) _ p o Hb), list.elem_of_app. by left.
    - intros q Hq Hin. rewrite upd_ne by done. rewrite C4; [by apply upd_ne|done|].
      intros Hin'. apply Hin. rewrite fmap_app. apply list.elem_of_app. by left.
    - rewrite C5. by destruct s. }
  destruct (frameCount R5 =? 0)%nat eqn:E0.
  - eexists _, (set_state EXEC_CLOSED R5). split.
    { unfold put_routine. rewrite (st_bind_run _ _ _ _ _ (put_obj_run _ _ _)). fold (upd r (set_state EXEC_CLOSED R5) (upd r R5 s3)).
      by rewrite upd_upd, Fc5. }
    apply Hgo; [done|by split; [destruct W5|]|done|]. simpl. by rewrite E0.
  - eexists _, (set_result NIL_VAL R5). split.
    { unfold put_routine. rewrite (st_bind_run _ _ _ _ _ (put_obj_run _ _ _)). fold (upd r (set_result NIL_VAL R5) (upd r R5 s3)).
      by rewrite upd_upd, Fc5. }
    apply Hgo; [done|by split; [destruct W5|]|done|]. simpl. by rewrite E0.
Qed.
End Return.

(** ** Captures *)
Section Capture.
Context `{U : Uninit} `{TG : Target} `{HO : Host}.

(** A slot that is captured already has one upvalue. *)
Lemma capture_again r s R l o hi p :
  vm_objects s !! r = Some (OBJ_ROUTINE R) → open_chain s r (openUpvalues R) l → below hi l → (p, o) ∈ l →
  captureUpvalue r o o s = Some (p, s).
Proof.
  intros Hr H Hb Hin. unfold captureUpvalue. rewrite (st_bind_run _ _ _ _ _ (get_routine_run _ _ _ Hr)).
  assert (upvalue_fuel s = Some (S (size (vm_objects s)), s)) as Hf by done.
  rewrite (st_bind_run _ _ _ _ _ Hf). pose proof (chain_fuel s r l _ hi H Hb) as Hlen.
  destruct (find_upvalue_run r s o l (S (size (vm_objects s))) None _ hi H Hb ltac:(lia)) as (l1 & l2 & -> & H1 & H2 & H3 & E).
  rewrite (st_bind_run _ _ _ _ _ E).
  apply list.elem_of_app in Hin as [Hin|Hin]; [specialize (H1 p o Hin); lia|].
  destruct l2 as [|[q o'] l2]; [by apply list.not_elem_of_nil in Hin|]. simpl. destruct H2 as [Ho' H2].
  apply list.elem_of_cons in Hin as [[= -> ->]|Hin].
  2:{ pose proof (below_lookup l2 o' p o H2 Hin). lia. }
  destruct H3 as [_ (u & Hu & _ & Ho & _)].
  by rewrite (st_bind_run _ _ _ _ _ (get_upvalue_run _ _ _ Hu)), Ho, Z.eqb_refl.
Qed.

Lemma write_upvalue_run r s R p u o c :
  vm_objects s !! r = Some (OBJ_ROUTINE R) → wf_stack R → 0 ≤ o < Z.of_nat (length (stack_of R)) →
  vm_objects s !! p = Some (OBJ_UPVALUE u) → contents_ u = OnStack r o →
  ∃ R', write_contents p c s = Some ((), upd r R' s) ∧ with_stack R (<[Z.to_nat o := c]> (stack_of R)) R'.
Proof.
  intros Hr H Ho Hp Hc. unfold write_contents. rewrite (st_bind_run _ _ _ _ _ (get_upvalue_run _ _ _ Hp)), Hc.
  rewrite (st_bind_run _ _ _ _ _ (get_routine_run _ _ _ Hr)).
  destruct (set_slot_stack R o c H Ho) as (R' & E & HR & _). rewrite (st_bind_run _ _ _ _ _ (opt_run _ _ s E)).
  exists R'. by split.
Qed.

Lemma read_upvalue_run r s R u o :
  vm_objects s !! r = Some (OBJ_ROUTINE R) → wf_stack R → 0 ≤ o < Z.of_nat (length (stack_of R)) →
  contents_ u = OnStack r o → ∃ c, read_contents u s = Some (c, s) ∧ stack_of R !! Z.to_nat o = Some c.
Proof.
  intros Hr H Ho Hc. unfold read_contents. rewrite Hc, (st_bind_run _ _ _ _ _ (get_routine_run _ _ _ Hr)).
  rewrite slot_stack by done. destruct (lookup_lt_is_Some_2 (stack_of R) (Z.to_nat o)) as [c E]; [lia|].
  exists c. by rewrite E.
Qed.

(** C16. Captured variables are shared: capturing a stack slot always gives an
    open upvalue of that slot, keeps the list of open upvalues sorted with one
    entry per slot, changes no other object but the links of the list, and
    capturing the slot again, at once, gives the same upvalue and changes
    nothing; what is read through the upvalue is the cell of the slot, and
    what is written through it goes to that cell of the stack only. *)
Theorem captureUpvalue_shares r s R l o :
  vm_objects s !! r = Some (OBJ_ROUTINE R) → wf_stack R → open_chain s r (openUpvalues R) l →
  below (Z.of_nat (length (stack_of R))) l → 0 ≤ o < Z.of_nat (length (stack_of R)) →
  ∃ p s' l' R', captureUpvalue r o o s = Some (p, s') ∧ captured r s R l o p s' l' ∧
    below (Z.of_nat (length (stack_of R))) l' ∧ captureUpvalue r o o s' = Some (p, s') ∧
    vm_objects s' !! r = Some (OBJ_ROUTINE R') ∧ stack_of R' = stack_of R ∧
    ∃ u, vm_objects s' !! p = Some (OBJ_UPVALUE u) ∧
      (∃ c, read_contents u s' = Some (c, s') ∧ stack_of R !! Z.to_nat o = Some c) ∧
      ∀ c, ∃ R'', write_contents p c s' = Some ((), upd r R'' s') ∧
        with_stack R' (<[Z.to_nat o := c]> (stack_of R)) R''.
Proof.
  intros Hr H Hch Hb Ho. destruct (captureUpvalue_run r s R l o _ Hr Hch Hb Ho) as (p & s' & l' & E & HC & Hb').
  destruct (cp_routine _ _ _ _ _ _ _ _ HC) as (hd & Hr' & Hch').
  pose proof (cp_in _ _ _ _ _ _ _ _ HC) as Hin.
  destruct (chain_object s' r l' _ p o Hch' Hin) as (u & Hu & Hc & _).
  assert (wf_stack (set_openUpvalues hd R)) as W by (by destruct H).
  exists p, s', l', (set_openUpvalues hd R). split; [done|]. split; [done|]. split; [done|].
  split; [by eapply (capture_again r s' (set_openUpvalues hd R))|]. split; [done|]. split; [done|].
  exists u. split; [done|]. split; [by eapply (read_upvalue_run r s' (set_openUpvalues hd R))|].
  intros c. by apply (write_upvalue_run r s' (set_openUpvalues hd R) p u o c).
Qed.
End Capture.
