(* ===== verification/ErrorSpec.v ===== *)
(** * Runtime errors

    [runtimeError] always returns: it leaves the routine in the error state
    with an empty stack, and an array of strings as its error: the message and
    a line for each frame, the innermost first. *)
From Stdlib Require Import String Ascii.
From S2P Require Import Scanner.
From S2P Require Export CallSpec.
Open Scope Z_scope.

Section Errors.
Context `{U : Uninit} `{TG : Target} `{HO : Host}.

(** ** Arrays of strings *)

(** The elements of an array of untyped cells. *)
Definition holds (h : Heap) (v : Value) (j : nat) (ws : list Value) : Prop :=
  ∀ i w, ws !! i = Some w → fst <$> arrayElement v (Z.of_nat (j + i)) h = Some w.

Lemma set_string_run v n c i k h :
  is_array h v n None c → 0 ≤ i < n →
  ∃ h' m', setArrayElement v i (STRING_VAL k) h = Some (true, h') ∧ h' = with_mem m' h ∧
    is_array h' v n None c ∧ fst <$> arrayElement v i h' = Some (STRING_VAL k) ∧
    ∀ j, 0 ≤ j < n → j ≠ i → fst <$> arrayElement v j h' = fst <$> arrayElement v j h.
Proof.
  intros HA Hi. destruct (array_set_run v n None c i (STRING_VAL k) h HA eq_refl Hi) as (r & s' & E & Hr);
    [done|done|done|].
  injection E as <- <-. destruct Hr as (h' & m' & E & -> & HA' & Hread & Hrest & _).
  exists (with_store (ints h) (with_mem m' h)), m'. split; [done|]. split; [done|]. split; [done|]. split; [by rewrite Hread|done].
Qed.

Lemma fill_array_run v n c ks : ∀ j s,
  is_array (vm_heap s) v n None c → (Z.of_nat (j + length ks) ≤ n) →
  ∃ m', let h' := with_mem m' (vm_heap s) in
    fill_array v (Z.of_nat j) (STRING_VAL <$> ks) s = Some ((), set_heap h' s) ∧ is_array h' v n None c ∧
    holds h' v j (STRING_VAL <$> ks) ∧
    ∀ i, 0 ≤ i < Z.of_nat j → fst <$> arrayElement v i h' = fst <$> arrayElement v i (vm_heap s).
Proof.
  induction ks as [|k ks IH]; intros j s HA Hn; simpl in Hn |- *.
  - exists (mem (vm_heap s)). unfold with_mem. split; [by destruct s as [[]]|]. split; [by destruct s as [[]]|].
    split; [by intros i w Hi|]. intros i Hi. by destruct s as [[]].
  - destruct (set_string_run v n c (Z.of_nat j) k (vm_heap s) HA ltac:(lia)) as (h1 & m1 & E & -> & HA1 & Hk & Hrest).
    assert (with_heap (setArrayElement v (Z.of_nat j) (STRING_VAL k)) s = Some (true, set_heap (with_mem m1 (vm_heap s)) s)) as E'
      by (unfold with_heap; by rewrite E).
    rewrite (st_bind_run _ _ _ _ _ E'). replace (Z.of_nat j + 1) with (Z.of_nat (S j)) by lia.
    destruct (IH (S j) (set_heap (with_mem m1 (vm_heap s)) s) HA1 ltac:(lia)) as (m' & E2 & HA2 & H2 & H3).
    exists m'. cbn [set_heap vm_heap] in *. split; [exact E2|]. split; [exact HA2|]. split.
    + intros [|i] w Hw; cbn [lookup list_lookup] in Hw.
      * injection Hw as <-. rewrite Nat.add_0_r. rewrite <-Hk. apply H3. lia.
      * replace (j + S i)%nat with (S j + i)%nat by lia. by apply H2.
    + intros i Hi. rewrite <-(Hrest i) by lia. apply H3. lia.
Qed.

Lemma allocValueArray_run n s :
  0 < n → sizeof_Value * n < 2 ^ size_bits →
  ∃ q c h' p, allocValueArray n s = Some (TYPED_VAL (Array p n None) (Some q), set_heap h' (set_next_type (Pos.succ p) s)) ∧
    is_array h' (TYPED_VAL (Array p n None) (Some q)) n None c ∧ ints h' = ints (vm_heap s) ∧
    (∀ q', is_Some (containers (vm_heap s) !! q') → containers h' !! q' = containers (vm_heap s) !! q').
Proof.
  intros Hn Hb. set (p := next_type s). pose proof target_ok as (_ & _ & HV & _).
  assert (sizes (Some (Array p n None)) = sizeof_Value * n) as Hs.
  { unfold sizes. simpl. unfold usize. apply Z.mod_small. nia. }
  destruct (newPackedValueContainer_run (Some (Array p n None)) (vm_heap s)) as
    (q & c & h' & E & _ & Hq & Ho & _ & _ & _ & Hi & Hc & _).
  { simpl. unfold sizes. simpl. lia. }
  { by rewrite Hs. }
  exists q, c, h', p. split.
  { unfold allocValueArray. erewrite st_bind_run by done. cbv beta zeta. unfold with_heap. simpl.
    fold p. by rewrite (st_bind_run _ _ _ _ _ E). }
  split; [|by split]. split; [by exists p, q|by unfold sizes; simpl|].
  rewrite Hs in Ho. exact Ho.
Qed.

(** ** Strings of the pool *)

(** [k] is a string with these characters. *)
Definition string_is (P : Pool) (k : strptr) (t : list Z) : Prop := ∃ o, heap P !! k = Some o ∧ chars o = t.
Definition pool_le (P P' : Pool) : Prop := ∀ k o, heap P !! k = Some o → heap P' !! k = Some o.

Lemma string_is_le P P' k t : pool_le P P' → string_is P k t → string_is P' k t.
Proof. intros H (o & Ho & Ht). exists o. split; [by apply H|done]. Qed.
Lemma strings_le P P' ks ts : pool_le P P' → Forall2 (string_is P) ks ts → Forall2 (string_is P') ks ts.
Proof. intros H. apply Forall2_impl. intros k t. by apply string_is_le. Qed.
Lemma string_is_chars P k t : string_is P k t → chars (str_of (heap P) k) = t.
Proof. intros (o & Ho & Ht). unfold str_of. by rewrite Ho. Qed.

Lemma intern_run cs s : pool_ok (vm_pool s) →
  ∃ k P', intern cs s = Some (k, set_pool P' s) ∧ pool_ok P' ∧ pool_le (vm_pool s) P' ∧ string_is P' k cs.
Proof.
  intros H. destruct (copyString_run cs (vm_pool s) H) as (k & P' & E & HP & Hc & Hk & Hh & _).
  exists k, P'. split; [unfold intern, with_pool; by rewrite E|]. split; [done|]. split; [done|].
  destruct (p_heap P' HP k Hk) as [o Ho]. exists o. split; [done|]. unfold str_of in Hc. by rewrite Ho in Hc.
Qed.

(** ** The trace *)
Definition frame_text (s : VM) (f : CallFrame) (fn : ObjFunction) : list Z :=
  codes "[line " ++ decimal (i16 (find_line (lines (chunk fn)) (usize (ip f - 1)) 0)) ++ codes "] in " ++
  cstr match fName fn with Some n => chars (vm_str s n) | None => codes "<script>" end.

(** The frame runs a closure of the function [fn]. *)
Record frame_ok (s : VM) (f : CallFrame) (fn : ObjFunction) : Prop := {
  fr_closure : ∃ c cl, closure f = Some c ∧ vm_objects s !! c = Some (OBJ_CLOSURE cl) ∧
    vm_objects s !! function cl = Some (OBJ_FUNCTION fn);
  fr_name : ∀ n, fName fn = Some n → is_Some (heap (vm_pool s) !! n)
}.

Lemma frame_text_le s P' f fn : pool_le (vm_pool s) P' → frame_ok s f fn →
  frame_ok (set_pool P' s) f fn ∧ frame_text (set_pool P' s) f fn = frame_text s f fn.
Proof.
  intros Hle [Hc Hn]. split.
  - split; [done|]. intros n Hf. destruct (Hn n Hf) as [o Ho]. exists o. by apply Hle.
  - unfold frame_text. destruct (fName fn) as [n|] eqn:E; [|done]. destruct (Hn n eq_refl) as [o Ho].
    do 4 f_equal. unfold vm_str, str_of. cbn [set_pool vm_pool]. by rewrite Ho, (Hle n o Ho).
Qed.

Lemma trace_frame_run s f fn : pool_ok (vm_pool s) → frame_ok s f fn →
  ∃ k P', trace_frame f s = Some (k, set_pool P' s) ∧ pool_ok P' ∧ pool_le (vm_pool s) P' ∧ string_is P' k (frame_text s f fn).
Proof.
  intros HP [(c & cl & Hf & Hc & Hfn) Hn]. unfold trace_frame. rewrite (st_bind_run _ _ _ _ _ (opt_run _ _ s Hf)).
  rewrite (st_bind_run _ _ _ _ _ (get_closure_run _ _ _ Hc)), (st_bind_run _ _ _ _ _ (get_function_run _ _ _ Hfn)).
  unfold frame_text. destruct (intern_run (codes "[line " ++ decimal (i16 (find_line (lines (chunk fn)) (usize (ip f - 1)) 0)) ++
    codes "] in " ++ cstr match fName fn with Some n => chars (vm_str s n) | None => codes "<script>" end) s HP)
    as (k & P' & E & H). exists k, P'. split; [|done]. rewrite <-E. by destruct (fName fn).
Qed.

Lemma trace_frames_run fs fns : ∀ s, pool_ok (vm_pool s) → Forall2 (frame_ok s) fs fns →
  ∃ ks P', trace_frames fs s = Some (ks, set_pool P' s) ∧ pool_ok P' ∧ pool_le (vm_pool s) P' ∧
    Forall2 (string_is P') ks (zip_with (frame_text s) fs fns).
Proof.
  revert fns. induction fs as [|f fs IH]; intros [|fn fns] s HP H; try by inversion H.
  - exists [], (vm_pool s). split; [by destruct s|]. split; [done|]. split; [by intros k o|constructor].
  - apply Forall2_cons_1 in H as [Hf H]. cbn [trace_frames].
    destruct (trace_frame_run s f fn HP Hf) as (k & P1 & E1 & HP1 & Hle1 & Hk).
    rewrite (st_bind_run _ _ _ _ _ E1).
    destruct (IH fns (set_pool P1 s) HP1) as (ks & P2 & E2 & HP2 & Hle2 & Hks).
    { revert H. apply Forall2_impl. intros f' fn' H'. by apply frame_text_le. }
    rewrite (st_bind_run _ _ _ _ _ E2). exists (k :: ks), P2. split; [done|]. split; [done|].
    split; [by intros k' o Ho; apply Hle2, Hle1|]. simpl. constructor; [by eapply string_is_le|].
    assert (zip_with (frame_text (set_pool P1 s)) fs fns = zip_with (frame_text s) fs fns) as Ez.
    { clear -H Hle1. induction H; [done|]. simpl. f_equal; [by apply frame_text_le|done]. }
    by rewrite <-Ez.
Qed.

(** ** The error *)

(** What [runtimeError] leaves: the new error of the routine, the heap, the
    pool and the next type are the only changes. *)
Record reported (r : objptr) (s : VM) (R : ObjRoutine) (ts : list (list Z)) (s' : VM) : Prop := {
  re_routine : ∃ e, vm_objects s' !! r = Some (OBJ_ROUTINE (resetRoutine (set_state EXEC_ERROR (set_error e R)))) ∧
    (∃ p q, e = TYPED_VAL (Array p (Z.of_nat (length ts)) None) (Some q)) ∧
    ∀ i t, ts !! i = Some t → ∃ k, fst <$> arrayElement e (Z.of_nat i) (vm_heap s') = Some (STRING_VAL k) ∧
      chars (vm_str s' k) = t;
  re_other : ∀ q, q ≠ r → vm_objects s' !! q = vm_objects s !! q;
  re_pool : pool_ok (vm_pool s') ∧ pool_le (vm_pool s) (vm_pool s');
  re_rest : ∃ h P t, s' = set_objects (vm_objects s') (set_heap h (set_pool P (set_next_type t s)))
}.

Lemma runtimeError_run r message s R fns :
  vm_objects s !! r = Some (OBJ_ROUTINE R) → runtimeErrors R = [] → pool_ok (vm_pool s) →
  Forall2 (frame_ok s) (reverse (take (frameCount R) (frames R))) fns →
  sizeof_Value * (1 + Z.of_nat (length fns)) < 2 ^ size_bits →
  ∃ s', runtimeError r message s = Some ((), s') ∧
    reported r s R (message :: zip_with (frame_text s) (reverse (take (frameCount R) (frames R))) fns) s'.
Proof.
  intros Hr He HP Hf Hb. unfold runtimeError. set (fs := reverse _) in *.
  destruct (intern_run message s HP) as (k & P1 & E1 & HP1 & Hle1 & Hk). rewrite (st_bind_run _ _ _ _ _ E1).
  set (s1 := set_pool P1 s) in *.
  assert (vm_objects s1 !! r = Some (OBJ_ROUTINE R)) as Hr1 by done.
  rewrite (st_bind_run _ _ _ _ _ (get_routine_run _ _ _ Hr1)). fold fs. rewrite He. cbn [app].
  destruct (trace_frames_run fs fns s1 HP1) as (ks & P2 & E2 & HP2 & Hle2 & Hks).
  { revert Hf. apply Forall2_impl. intros f' fn' H'. by apply frame_text_le. }
  rewrite (st_bind_run _ _ _ _ _ E2).
  assert (zip_with (frame_text s1) fs fns = zip_with (frame_text s) fs fns) as Ez.
  { clear -Hf Hle1. induction Hf; [done|]. simpl. f_equal; [by apply frame_text_le|done]. }
  rewrite Ez in Hks. set (ts := zip_with (frame_text s) fs fns) in *.
  assert (Forall2 (string_is P2) (k :: ks) (message :: ts)) as Hall by (constructor; [by eapply string_is_le|done]).
  pose proof (Forall2_length Hall) as Hlen.
  assert (length ts = length fns) as Hts.
  { unfold ts. rewrite length_zip_with, (Forall2_length Hf). lia. }
  set (s2 := set_pool P2 s1) in *. unfold duplicateAsValueArray.
  destruct (allocValueArray_run (Z.of_nat (length (k :: ks))) s2) as (q & c & h3 & p & E3 & HA & _ & _).
  { simpl. lia. }
  { rewrite Hlen. simpl. rewrite Hts. lia. }
  set (e := TYPED_VAL _ (Some q)) in *. set (s3 := set_heap h3 (set_next_type (Pos.succ p) s2)) in *.
  destruct (fill_array_run e _ c (k :: ks) 0 s3 HA) as (m' & E4 & HA4 & Hh & _); [lia|].
  set (h4 := with_mem m' (vm_heap s3)) in *.
  erewrite (st_bind_run _ _ _ e (set_heap h4 s3)).
  2:{ rewrite (st_bind_run _ _ _ _ _ E3). change 0 with (Z.of_nat 0). by rewrite (st_bind_run _ _ _ _ _ E4). }
  erewrite modify_routine_run by exact Hr. eexists. split; [done|]. split.
  - exists e. split; [by rewrite upd_eq|]. split; [exists p, q; unfold e; by rewrite Hlen|].
    intros i t Hi. destruct (Forall2_lookup_r _ _ _ _ _ Hall Hi) as (ki & Hki & Hs).
    exists ki. split; [|by apply string_is_chars].
    apply (Hh i). by rewrite list_lookup_fmap, Hki.
  - intros x Hx. by rewrite upd_ne.
  - split; [done|]. by intros x o Ho; apply Hle2, Hle1.
  - by exists h4, P2, (Pos.succ p).
Qed.
End Errors.
