(* ===== verification/StackSpec.v ===== *)
(** * What the stack of a routine promises

    The stack of slices refines a list, for any sequence of operations; what a
    push does when there is no more room; what a call does on each of its
    branches; how an error ends the run of a routine. *)
From Stdlib Require Import String Ascii.
From S2P Require Import Scanner.
From S2P Require Export Machine ErrorSpec.
Open Scope Z_scope.

(** ** The stack as an abstract list *)
Section Refinement.
Context `{U : Uninit} `{TG : Target} `{HO : Host}.

Inductive StackOp :=
  | Push_ (v : Value)
  | Pop_
  | Peek_ (distance : nat)
  | Set_ (distance : nat) (c : ValueCell).

(** An operation on the machine; the answer is the value that is read. *)
Definition perform (r : objptr) (o : StackOp) : VMM (option Value) :=
  match o with
  | Push_ v => push r v ;; mret None
  | Pop_ => v ← pop r; mret (Some v)
  | Peek_ d => v ← peek r (Z.of_nat d); mret (Some v)
  | Set_ d c => setCell r (Z.of_nat d) c ;; mret None
  end.
Fixpoint performs (r : objptr) (os : list StackOp) : VMM (list (option Value)) :=
  match os with
  | [] => mret []
  | o :: os' => a ← perform r o; l ← performs r os'; mret (a :: l)
  end.

(** The same on a list whose first element is the top; [None] if there is no
    such cell. *)
Definition expect (o : StackOp) (st : cells) : option (option Value * cells) :=
  match o with
  | Push_ v => Some (None, mkCell v None :: st)
  | Pop_ => match st with c :: st' => Some (Some (cell_value c), st') | [] => None end
  | Peek_ d => c ← st !! d; Some (Some (cell_value c), st)
  | Set_ d c => match st !! d with Some _ => Some (None, <[d := c]> st) | None => None end
  end.
Fixpoint expects (os : list StackOp) (st : cells) : option (list (option Value) * cells) :=
  match os with
  | [] => Some ([], st)
  | o :: os' => '(a, st) ← expect o st; '(l, st) ← expects os' st; Some (a :: l, st)
  end.

(** Distances that the C code can pass. *)
Definition near (o : StackOp) : Prop := match o with Peek_ d | Set_ d _ => Z.of_nat d < 2 ^ 31 | _ => True end.

Lemma top_split (st : cells) d c : reverse st !! d = Some c → ∃ l above, st = l ++ c :: above ∧ length above = d.
Proof.
  intros H. apply list_elem_of_split_length in H as (l1 & l2 & E & Hd).
  exists (reverse l2), (reverse l1). split; [|by rewrite length_reverse].
  rewrite <-(reverse_involutive st), E, reverse_app, reverse_cons, <-app_assoc. done.
Qed.

(** A routine whose stack can take [n] more cells. *)
Definition roomy (R : ObjRoutine) (n : nat) : Prop := 64 * Z.of_nat (length (stackSlices R) + n) < 2 ^ 31.

Lemma roomy_addressable R n : wf_stack R → roomy R n → addressable (stack_of R).
Proof.
  intros H Hn. unfold addressable, roomy in *. rewrite (stack_length_Z R H). destruct H. lia.
Qed.

Lemma outside R n d :
  wf_stack R → roomy R n → (length (stack_of R) ≤ d)%nat → Z.of_nat d < 2 ^ 31 →
  slot R (peek_index R (Z.of_nat d)) = None ∧ ∀ c, set_slot R (peek_index R (Z.of_nat d)) c = None.
Proof.
  intros H Hn Hd Hd31. pose proof (stack_length_Z R H) as HL. destruct H as [_ Ht]. unfold roomy in Hn.
  assert (SLICE_MAX * Z.of_nat (length (stackSlices R)) ≤ peek_index R (Z.of_nat d)) as Hout.
  { unfold peek_index, usize, SLICE_MAX. pose proof target_ok as [Hb _].
    replace (stackTopIndex R - 1 - Z.of_nat d) with ((stackTopIndex R - 1 - Z.of_nat d + 2 ^ size_bits) + (-1) * 2 ^ size_bits) by lia.
    rewrite Z.mod_add by (destruct Hb as [-> | ->]; lia).
    rewrite Z.mod_small; destruct Hb as [-> | ->]; lia. }
  unfold slot, set_slot. by rewrite (proj2 (Z.ltb_ge _ _)).
Qed.

Lemma perform_run r o s R n :
  vm_objects s !! r = Some (OBJ_ROUTINE R) → wf_stack R → addSlice R = true → roomy R (S n) → near o →
  match expect o (reverse (stack_of R)) with
  | Some (a, st) => ∃ R', perform r o s = Some (a, upd r R' s) ∧ with_stack R (reverse st) R' ∧ roomy R' n
  | None => perform r o s = None
  end.
Proof.
  intros Hr H Hadd Hn Hnear. pose proof (roomy_addressable R _ H Hn) as Ha.
  assert (∀ m, (m ≤ S n)%nat → roomy R m) as Hroom by (unfold roomy in *; lia).
  destruct o as [v| |d|d c]; cbn [perform expect].
  - destruct (push_run r v s R Hr H Ha Hadd) as (R' & E & HR & Hl). exists R'.
    rewrite (st_bind_run _ _ _ _ _ E). split; [done|]. rewrite reverse_cons, reverse_involutive. split; [done|].
    unfold roomy in *. lia.
  - destruct (reverse (stack_of R)) as [|c st] eqn:Est.
    + unfold pop, peek, peekCell. apply (f_equal reverse) in Est. rewrite reverse_involutive in Est.
      do 3 (rewrite (st_bind_run_or _ _ _ None); [done|]).
      rewrite (st_bind_run _ _ _ _ _ (get_routine_run _ _ _ Hr)).
      destruct (outside R (S n) 0 H Hn) as [E _]; [by rewrite Est|done|]. change (Z.of_nat 0) with 0 in E. by rewrite E.
    + apply (f_equal reverse) in Est. rewrite reverse_involutive, reverse_cons in Est.
      destruct (pop_run r s R (reverse st) c Hr H Ha Est) as (R' & E & HR & Hsl). exists R'.
      rewrite (st_bind_run _ _ _ _ _ E). split; [done|]. split; [done|]. unfold roomy in *. rewrite Hsl. lia.
  - destruct (reverse (stack_of R) !! d) as [c|] eqn:Ed; simpl in Hnear |- *.
    + destruct (top_split _ _ _ Ed) as (l & above & Est & Hl). exists R.
      rewrite (st_bind_run _ _ _ _ _ (stack_peek_run r s R l c above (Z.of_nat d) Hr H Ha Est ltac:(lia))).
      rewrite (upd_same r R s Hr), reverse_involutive. split; [done|]. split; [done|]. apply Hroom. lia.
    + apply lookup_ge_None in Ed. rewrite length_reverse in Ed.
      destruct (outside R (S n) d H Hn Ed Hnear) as [E _]. rewrite (st_bind_run_or _ _ _ None); [done|].
      unfold peek, peekCell. rewrite (st_bind_run_or _ _ _ None); [done|].
      rewrite (st_bind_run _ _ _ _ _ (get_routine_run _ _ _ Hr)). by rewrite E.
  - destruct (reverse (stack_of R) !! d) as [c0|] eqn:Ed; simpl in Hnear |- *.
    + destruct (top_split _ _ _ Ed) as (l & above & Est & Hl).
      destruct (setCell_run r s R l c0 above (Z.of_nat d) c Hr H Ha Est ltac:(lia)) as (R' & E & HR & Hsl).
      exists R'. rewrite (st_bind_run _ _ _ _ _ E). split; [done|]. split; [|unfold roomy in *; rewrite Hsl; lia].
      rewrite Est, reverse_app, reverse_cons, <-app_assoc. simpl. rewrite <-Hl, <-(length_reverse above).
      rewrite insert_app_r_alt, Nat.sub_diag by lia. simpl. rewrite reverse_app, reverse_cons, !reverse_involutive, <-app_assoc.
      done.
    + apply lookup_ge_None in Ed. rewrite length_reverse in Ed.
      destruct (outside R (S n) d H Hn Ed Hnear) as [_ E]. rewrite (st_bind_run_or _ _ _ None); [done|].
      unfold setCell. rewrite (st_bind_run _ _ _ _ _ (get_routine_run _ _ _ Hr)). by rewrite E.
Qed.

(** C22. The slices of a routine that may add slices hold one stack: any
    sequence of pushes, pops, reads and writes of cells at a distance from the
    top answers as the same sequence on a list does, leaves the cells of that
    list and no other field of the routine changed, and is undefined exactly
    where the list has no such cell. *)
Theorem stack_refines_list r os : ∀ s R,
  vm_objects s !! r = Some (OBJ_ROUTINE R) → wf_stack R → addSlice R = true → roomy R (length os) → Forall near os →
  match expects os (reverse (stack_of R)) with
  | Some (l, st) => ∃ R', performs r os s = Some (l, upd r R' s) ∧ with_stack R (reverse st) R'
  | None => performs r os s = None
  end.
Proof.
  induction os as [|o os IH]; intros s R Hr H Hadd Hn Hos.
  - exists R. rewrite (upd_same r R s Hr), reverse_involutive. by split.
  - apply list.Forall_cons in Hos as [Ho Hos]. cbn [expects performs].
    pose proof (perform_run r o s R (length os) Hr H Hadd Hn Ho) as HP.
    destruct (expect o (reverse (stack_of R))) as [[a st]|]; cbn [mbind option_bind].
    2:{ by rewrite (st_bind_run_or _ _ _ None). }
    destruct HP as (R1 & E & (W1 & S1 & F1) & Hn1). rewrite (st_bind_run _ _ _ _ _ E). cbv beta.
    specialize (IH (upd r R1 s) R1 (upd_eq _ _ _) W1). rewrite S1, reverse_involutive in IH.
    specialize (IH ltac:(unfold rest_of in F1; congruence) Hn1 Hos).
    destruct (expects os st) as [[l st']|]; cbn [mbind option_bind].
    + destruct IH as (R2 & E2 & (W2 & S2 & F2)). exists R2. rewrite (st_bind_run _ _ _ _ _ E2), upd_upd. split; [done|].
      split; [done|]. split; [done|]. by rewrite F2.
    + by rewrite (st_bind_run_or _ _ _ None).
Qed.
End Refinement.

(** ** Errors, pushes and calls *)
Section Calls.
Context `{U : Uninit} `{TG : Target} `{HO : Host}.

(** An error of the routine can be reported: its frames, the innermost first,
    run the functions [fns]. *)
Record reportable (s : VM) (R : ObjRoutine) (fns : list ObjFunction) : Prop := {
  rp_errors : runtimeErrors R = [];
  rp_pool : pool_ok (vm_pool s);
  rp_frames : Forall2 (frame_ok s) (reverse (take (frameCount R) (frames R))) fns;
  rp_room : sizeof_Value * (1 + Z.of_nat (length fns)) < 2 ^ size_bits
}.
Definition trace (s : VM) (R : ObjRoutine) (fns : list ObjFunction) : list (list Z) :=
  zip_with (frame_text s) (reverse (take (frameCount R) (frames R))) fns.

Lemma error_run r message s R fns :
  vm_objects s !! r = Some (OBJ_ROUTINE R) → reportable s R fns →
  ∃ s', runtimeError r message s = Some ((), s') ∧ reported r s R (message :: trace s R fns) s'.
Proof. intros Hr [H1 H2 H3 H4]. by apply runtimeError_run. Qed.

(** What the error of a routine looks like to the language. *)
Definition error_array (s : VM) (e : Value) (ts : list (list Z)) : Prop :=
  (∃ p q, e = TYPED_VAL (Array p (Z.of_nat (length ts)) None) (Some q)) ∧
  ∀ i t, ts !! i = Some t → ∃ k, fst <$> arrayElement e (Z.of_nat i) (vm_heap s) = Some (STRING_VAL k) ∧
    chars (vm_str s k) = t.

(** C20. A runtime error is always reported, and stops the routine: the error
    value is an array of strings, the message and then a line per call frame,
    the innermost first; the routine is in the error state with an empty
    stack, no frames and no open upvalues, and the next turn of its run loop
    ends the run with an error and does nothing else.  No other object is
    changed. *)
Theorem runtimeError_stops foreign r fi message s R fns :
  vm_objects s !! r = Some (OBJ_ROUTINE R) → reportable s R fns →
  ∃ s' e R', runtimeError r message s = Some ((), s') ∧ vm_objects s' !! r = Some (OBJ_ROUTINE R') ∧
    error R' = e ∧ error_array s' e (message :: trace s R fns) ∧
    state R' = EXEC_ERROR ∧ stack_of R' = [] ∧ frameCount R' = 0%nat ∧ openUpvalues R' = None ∧ result R' = NIL_VAL ∧
    (∀ q, q ≠ r → vm_objects s' !! q = vm_objects s !! q) ∧
    turn foreign r fi s' = Some (Exit INTERPRET_RUNTIME_ERROR, s').
Proof.
  intros Hr H. destruct (error_run r message s R fns Hr H) as (s' & E & [(e & Hr' & He & Hts) Ho _ _]).
  exists s', e, (resetRoutine (set_state EXEC_ERROR (set_error e R))). split; [done|]. split; [done|]. split; [done|].
  split; [by split|]. repeat (split; [done|]).
  unfold turn. rewrite (st_bind_run _ _ _ _ _ (get_routine_run _ _ _ Hr')).
  destruct He as (p & q & ->). done.
Qed.

(** A call that succeeds. *)
Lemma callfn_enters r c s R cl fn n :
  vm_objects s !! r = Some (OBJ_ROUTINE R) →
  vm_objects s !! c = Some (OBJ_CLOSURE cl) → vm_objects s !! function cl = Some (OBJ_FUNCTION fn) →
  n = arity fn → frameCount R ≠ FRAMES_MAX →
  callfn r c n s = Some (true,
    upd r (set_frames (<[frameCount R := mkFrame (Some c) 0 (usize (stackTopIndex R - (n + 1)))]> (frames R))
      (S (frameCount R)) R) s).
Proof.
  intros Hr Hc Hf Hn Hd. unfold callfn.
  rewrite (st_bind_run _ _ _ _ _ (get_closure_run _ _ _ Hc)), (st_bind_run _ _ _ _ _ (get_function_run _ _ _ Hf)).
  rewrite (proj2 (Z.eqb_eq _ _) Hn). cbn [negb]. rewrite (st_bind_run _ _ _ _ _ (get_routine_run _ _ _ Hr)).
  rewrite (proj2 (Nat.eqb_neq _ _) Hd). done.
Qed.

(** A call beyond the deepest frame. *)
Lemma callfn_overflows r c s R cl fn n fns :
  vm_objects s !! r = Some (OBJ_ROUTINE R) →
  vm_objects s !! c = Some (OBJ_CLOSURE cl) → vm_objects s !! function cl = Some (OBJ_FUNCTION fn) →
  n = arity fn → frameCount R = FRAMES_MAX → reportable s R fns →
  ∃ s', callfn r c n s = Some (false, s') ∧ reported r s R (codes "Stack overflow." :: trace s R fns) s'.
Proof.
  intros Hr Hc Hf Hn Hd Hrep. unfold callfn.
  rewrite (st_bind_run _ _ _ _ _ (get_closure_run _ _ _ Hc)), (st_bind_run _ _ _ _ _ (get_function_run _ _ _ Hf)).
  rewrite (proj2 (Z.eqb_eq _ _) Hn). cbn [negb]. rewrite (st_bind_run _ _ _ _ _ (get_routine_run _ _ _ Hr)).
  rewrite (proj2 (Nat.eqb_eq _ _) Hd).
  destruct (error_run r (codes "Stack overflow.") s R fns Hr Hrep) as (s' & E & HR).
  exists s'. rewrite (st_bind_run _ _ _ _ _ E). by split.
Qed.

(** C26. A call of a closure checks the number of arguments, then the depth,
    and either reports the error with its message and answers [false], or
    enters a new frame at the first byte of the code, whose part of the stack
    starts at the callee: the argument [i] is the slot [i + 1] of the frame.
    It never fails and never changes the stack. *)
Theorem callfn_correct r c s R cl fn st callee args fns :
  vm_objects s !! r = Some (OBJ_ROUTINE R) → wf_stack R → addressable (stack_of R) →
  vm_objects s !! c = Some (OBJ_CLOSURE cl) → vm_objects s !! function cl = Some (OBJ_FUNCTION fn) →
  stack_of R = st ++ callee :: args → reportable s R fns →
  (length (frames R) = FRAMES_MAX) → (frameCount R ≤ FRAMES_MAX)%nat →
  let n := Z.of_nat (length args) in
  ∃ ok s', callfn r c n s = Some (ok, s') ∧
    if negb (n =? arity fn) then
      ok = false ∧ reported r s R ((codes "Expected " ++ decimal (arity fn) ++ codes " arguments but got " ++
                                    decimal n ++ codes ".") :: trace s R fns) s'
    else if (frameCount R =? FRAMES_MAX)%nat then
      ok = false ∧ reported r s R (codes "Stack overflow." :: trace s R fns) s'
    else
      ok = true ∧ ∃ R' f, s' = upd r R' s ∧ with_stack (set_frames (frames R') (frameCount R') R) (stack_of R) R' ∧
        frameCount R' = S (frameCount R) ∧ take (frameCount R) (frames R') = take (frameCount R) (frames R) ∧
        frames R' !! frameCount R = Some f ∧ closure f = Some c ∧ ip f = 0 ∧ stackEntryIndex f = Z.of_nat (length st) ∧
        ∀ i a, args !! i = Some a → frameSlot r f (1 + Z.of_nat i) s' = Some (a, s').
Proof.
  intros Hr H Ha Hc Hf Hst Hrep HL Hd n.
  destruct (n =? arity fn) eqn:En; cbn [negb].
  2:{ unfold callfn.
    rewrite (st_bind_run _ _ _ _ _ (get_closure_run _ _ _ Hc)), (st_bind_run _ _ _ _ _ (get_function_run _ _ _ Hf)), En. cbn [negb].
    destruct (error_run r (codes "Expected " ++ decimal (arity fn) ++ codes " arguments but got " ++ decimal n ++ codes ".")
      s R fns Hr Hrep) as (s' & E & HR).
    exists false, s'. rewrite (st_bind_run _ _ _ _ _ E). by split. }
  apply Z.eqb_eq in En. destruct (frameCount R =? FRAMES_MAX)%nat eqn:Ed.
  { apply Nat.eqb_eq in Ed.
    destruct (callfn_overflows r c s R cl fn n fns Hr Hc Hf En Ed Hrep) as (s' & E & HR). exists false, s'. by split. }
  apply Nat.eqb_neq in Ed. rewrite (callfn_enters r c s R cl fn n Hr Hc Hf En Ed).
  set (f := mkFrame _ _ _). set (R' := set_frames _ _ R). exists true, (upd r R' s). split; [done|]. split; [done|].
  pose proof (stack_length_Z R H) as HLen. pose proof Ha as Ha'. unfold addressable in Ha'.
  assert (stackEntryIndex f = Z.of_nat (length st)) as Hse.
  { unfold f. simpl. rewrite Hst, length_app in HLen, Ha'. simpl in HLen, Ha'.
    rewrite usize_small; subst n; lia. }
  assert (wf_stack R') as W' by (by destruct H).
  exists R', f. split; [done|]. split; [by split|]. split; [done|]. simpl.
  split; [by rewrite take_insert_ge by lia|]. split; [apply list_lookup_insert_eq; lia|]. split; [done|]. split; [done|].
  split; [exact Hse|]. intros i a Hi.
  apply list_elem_of_split_length in Hi as (a1 & a2 & -> & Hi).
  apply (frameSlot_run r f (1 + Z.of_nat i) _ R' (st ++ callee :: a1) a a2); [apply upd_eq|done|done| |].
  - change (stack_of R') with (stack_of R). by rewrite Hst, <-app_assoc.
  - rewrite Hse, length_app. simpl. lia.
Qed.

(** A routine that may not add slices has one cell less than its slices:
    a push up to there does what a push on a list does; the push that fills
    the last cell stores the value there and then reports the error. *)
Theorem push_fixed r v s R fns :
  vm_objects s !! r = Some (OBJ_ROUTINE R) → wf_stack R → addressable (stack_of R) → addSlice R = false →
  reportable s R fns →
  ∃ s' R1, push r v s = Some ((), s') ∧ take (S (length (stack_of R))) (mjoin (stackSlices R1)) = stack_of R ++ [mkCell v None] ∧
    length (stackSlices R1) = length (stackSlices R) ∧ rest_of R1 = rest_of R ∧
    if stackTopIndex R + 1 <? 64 * Z.of_nat (length (stackSlices R))
    then s' = upd r R1 s ∧ with_stack R (stack_of R ++ [mkCell v None]) R1
    else reported r (upd r R1 s) R1 (codes "Fixed Value stack size exceeded." :: trace s R fns) s'.
Proof.
  intros Hr H Ha Hadd Hrep. unfold push. rewrite (st_bind_run _ _ _ _ _ (get_routine_run _ _ _ Hr)).
  pose proof (stack_length_Z R H) as HL. unfold addressable in Ha. pose proof H as [Hs Ht].
  destruct (set_slot_run R (stackTopIndex R) (mkCell v None) Hs ltac:(lia)) as (l & E & Hl & Hn & Hj).
  rewrite (st_bind_run _ _ _ _ _ (opt_run _ _ s E)). cbv zeta. cbn [set_slices stackTopIndex].
  rewrite usize_small by lia. set (R1 := set_top (stackTopIndex R + 1) (set_slices l R)).
  rewrite (st_bind_run _ _ _ _ _ (put_obj_run s r (OBJ_ROUTINE R1) : put_routine r R1 s = Some ((), upd r R1 s))).
  assert (take (S (length (stack_of R))) (mjoin l) = stack_of R ++ [mkCell v None]) as Htake.
  { rewrite Hj. replace (Z.to_nat (stackTopIndex R)) with (length (stack_of R)) by lia.
    assert (length (mjoin (stackSlices R)) = (64 * length (stackSlices R))%nat) as HM by by apply slices_length.
    rewrite (take_S_r _ _ (mkCell v None)).
    - rewrite take_insert_ge by lia. by rewrite (stack_length R H).
    - apply list_lookup_insert_eq. lia. }
  cbn [stackSlices stackTopIndex addSlice set_top set_slices]. subst R1. cbn [stackSlices stackTopIndex addSlice set_top set_slices].
  set (R1 := set_top (stackTopIndex R + 1) (set_slices l R)). unfold SLICE_MAX. rewrite Hadd, Hn.
  pose proof (Z.mul_div_le (stackTopIndex R + 1) 64 ltac:(lia)).
  pose proof (Z.mod_pos_bound (stackTopIndex R + 1) 64 ltac:(lia)). pose proof (Z.div_mod (stackTopIndex R + 1) 64 ltac:(lia)).
  destruct (Z.ltb_spec (stackTopIndex R + 1) (64 * Z.of_nat (length (stackSlices R)))) as [Hroom|Hfull].
  - rewrite (proj2 (Z.ltb_ge _ _)) by nia. exists (upd r R1 s), R1. split; [done|]. split; [done|]. split; [done|]. split; [done|].
    split; [done|]. split; [split; [done|simpl; rewrite Hn; lia]|]. split; [|done].
    unfold stack_of. simpl. by replace (Z.to_nat (stackTopIndex R + 1)) with (S (length (stack_of R))) by lia.
  - rewrite (proj2 (Z.ltb_lt _ _)) by nia.
    destruct (error_run r (codes "Fixed Value stack size exceeded.") (upd r R1 s) R1 fns (upd_eq _ _ _)) as (s' & Es & HR).
    { destruct Hrep as [P1 P2 P3 P4]. split; [done|done| |done].
      revert P3. apply Forall2_impl. intros f fn [(c & cl & F1 & F2 & F3) F4]. split; [|done].
      exists c, cl. split; [done|]. split; (rewrite upd_ne; [done|intros Hx; congruence]). }
    exists s', R1. split; [done|]. split; [done|]. split; [done|]. by split.
Qed.
End Calls.

(** ** Instances *)

#[local] Existing Instance Noise.
#[local] Existing Instance LP64.

(** A host for the examples. *)
Definition PlainHost : Host := {|
  text_of_double _ := codes "0."; text_of_pointer _ := codes "0x1"; strtod _ := None;
  address_of p := Zpos p; handler_address i := Z.of_nat i
|}.
#[local] Existing Instance PlainHost.

(** A machine whose first routine runs, in one frame, a function of one
    parameter; [top] cells of its stack are in use. *)
Definition demo_fn : ObjFunction := mkFunction 1 0 (mkChunk 8 [0; 0] [mkSource 0 7] initDynamicValueArray) None.
Definition demo_closure : ObjClosure := mkClosure 4 [].
Definition demo_cells : cells := [mkCell (FUNCTION_VAL 3) None; mkCell (BOOL_VAL true) None].
Definition demo_routine (grows : bool) (top : Z) : ObjRoutine :=
  set_addSlice grows (set_frames (<[0%nat := mkFrame (Some 3%positive) 1 0]> (frames initRoutine)) 1
    (set_top top (set_slices [demo_cells ++ replicate 62 nil_cell] initRoutine))).
Definition demo_vm (grows : bool) (top : Z) : VM :=
  set_objects (<[1%positive := OBJ_ROUTINE (demo_routine grows top)]> (<[3%positive := OBJ_CLOSURE demo_closure]>
    (<[4%positive := OBJ_FUNCTION demo_fn]> ∅))) (blank_vm 4096).

Lemma demo_wf grows top : 0 ≤ top < 64 → wf_stack (demo_routine grows top).
Proof. intros H. split; [by repeat constructor|]. simpl. lia. Qed.
Lemma demo_reportable grows top : reportable (demo_vm grows top) (demo_routine grows top) [demo_fn].
Proof.
  split; [done|apply empty_pool_ok| |done]. constructor; [|constructor].
  split; [|done]. by exists 3%positive, demo_closure.
Qed.

Lemma stack_refines_list_witness :
  ∃ s', performs 1%positive [Push_ NIL_VAL; Peek_ 1; Set_ 2 nil_cell; Pop_; Pop_] (demo_vm true 2) =
    Some ([None; Some (BOOL_VAL true); None; Some NIL_VAL; Some (BOOL_VAL true)], s').
Proof.
  pose proof (stack_refines_list 1%positive [Push_ NIL_VAL; Peek_ 1; Set_ 2 nil_cell; Pop_; Pop_]
    (demo_vm true 2) (demo_routine true 2) eq_refl (demo_wf true 2 ltac:(lia)) eq_refl ltac:(done) ltac:(by repeat constructor)) as H.
  destruct H as (R' & E & _). by eexists.
Defined.

Lemma demo_trace grows top : trace (demo_vm grows top) (demo_routine grows top) [demo_fn] = [codes "[line 7] in <script>"].
Proof. vm_compute. reflexivity. Qed.

Lemma runtimeError_stops_witness :
  ∃ s' e, runtimeError 1%positive (codes "Oh.") (demo_vm true 2) = Some ((), s') ∧
    error_array s' e [codes "Oh."; codes "[line 7] in <script>"] ∧
    turn (λ _ _ _, mret None) 1%positive 0 s' = Some (Exit INTERPRET_RUNTIME_ERROR, s').
Proof.
  destruct (runtimeError_stops (λ _ _ _, mret None) 1%positive 0%nat (codes "Oh.") (demo_vm true 2) (demo_routine true 2) [demo_fn]
    eq_refl (demo_reportable true 2)) as (s' & e & R' & E & _ & _ & He & _ & _ & _ & _ & _ & _ & Ht).
  rewrite demo_trace in He. exists s', e. split; [exact E|]. split; [exact He|exact Ht].
Defined.

Lemma callfn_correct_witness :
  ∃ s', callfn 1%positive 3%positive 1 (demo_vm true 2) = Some (true, s').
Proof.
  destruct (callfn_correct 1%positive 3%positive (demo_vm true 2) (demo_routine true 2) demo_closure demo_fn []
    (mkCell (FUNCTION_VAL 3) None) [mkCell (BOOL_VAL true) None] [demo_fn]) as (ok & s' & E & H);
    [done|by apply demo_wf|done|done|done|done|apply demo_reportable|done|by apply Nat.leb_le|].
  exists s'. simpl in H. destruct H as [-> _]. exact E.
Defined.

Lemma push_fixed_witness :
  ∃ s' R1, push 1%positive NIL_VAL (demo_vm false 63) = Some ((), s') ∧
    reported 1%positive (upd 1%positive R1 (demo_vm false 63)) R1
      [codes "Fixed Value stack size exceeded."; codes "[line 7] in <script>"] s'.
Proof.
  destruct (push_fixed 1%positive NIL_VAL (demo_vm false 63) (demo_routine false 63) [demo_fn]) as (s' & R1 & E & _ & _ & _ & H);
    [done|by apply demo_wf|done|done|apply demo_reportable|].
  exists s', R1. rewrite demo_trace in H. split; [exact E|exact H].
Defined.

(** An open upvalue of the argument. *)
Definition capture_vm : VM :=
  set_objects (<[1%positive := OBJ_ROUTINE (set_openUpvalues (Some 5%positive) (demo_routine true 2))]>
    (<[5%positive := OBJ_UPVALUE (mkUpvalue (OnStack 1 0) 0 nil_cell None)]> (vm_objects (demo_vm true 2)))) (demo_vm true 2).
Lemma capture_chain : open_chain capture_vm 1 (Some 5%positive) [(5%positive, 0)].
Proof. split; [done|]. by eexists. Qed.

Lemma capture_wf : wf_stack (set_openUpvalues (Some 5%positive) (demo_routine true 2)).
Proof. split; [by repeat constructor|done]. Qed.

Lemma captureUpvalue_shares_witness :
  ∃ p s', captureUpvalue 1 1 1 capture_vm = Some (p, s') ∧ captureUpvalue 1 1 1 s' = Some (p, s').
Proof.
  destruct (captureUpvalue_shares 1 capture_vm (set_openUpvalues (Some 5%positive) (demo_routine true 2)) [(5%positive, 0)] 1)
    as (p & s' & l' & R' & E & _ & _ & E2 & _); [done|apply capture_wf|apply capture_chain|done|done|].
  exists p, s'. by split.
Defined.

Lemma op_return_correct_witness :
  ∃ s' R', op_return 1 (mkFrame (Some 3%positive) 1 0) capture_vm = Some (0%nat, s') ∧
    stack_of R' = [mkCell (BOOL_VAL true) None] ∧ state R' = EXEC_CLOSED ∧ openUpvalues R' = None.
Proof.
  destruct (op_return_correct 1 (mkFrame (Some 3%positive) 1 0) capture_vm (set_openUpvalues (Some 5%positive) (demo_routine true 2))
    [] [mkCell (FUNCTION_VAL 3) None] (mkCell (BOOL_VAL true) None) [(5%positive, 0)]) as (s' & R' & E & H);
    [done|apply capture_wf|done|done|done|done|apply capture_chain|done|].
  exists s', R'. split; [exact E|]. destruct H as [_ [_ Hst] [_ Hc] Hs (l1 & l2 & El & Ho & Hb & _) _ _].
  split; [exact Hst|]. rewrite Hc in Hs. split; [apply Hs|].
  destruct l1 as [|e1 l1].
  - simpl in El. subst l2. simpl in Hb. lia.
  - injection El as <- El. symmetry in El. apply app_eq_nil in El as [-> ->]. exact Ho.
Defined.
