(* ===== verification/RunSpec.v ===== *)
(** * Resuming routines, and temporary roots

    What [resume] does to a routine that yielded: it does not go on behind the
    yield, it calls the entry function anew.  And the error paths of the
    element and property instructions that leave a temporary root behind. *)
From Stdlib Require Import String Ascii.
From S2P Require Import Scanner.
From S2P Require Export StackSpec.
Open Scope Z_scope.

(** ** Resuming *)
Section Resume.
Context `{U : Uninit} `{TG : Target} `{HO : Host}.

(** What follows the run of the routine in [resumeRoutine]. *)
Definition after_run (p : objptr) (x : InterpretResult) : VMM Value :=
  match x with
  | INTERPRET_OK =>
      v ← pop p; modify_routine p (set_result v) ;; resultPair NIL_VAL v
  | INTERPRET_RUNTIME_ERROR => T ← get_routine p; resultPair (error T) NIL_VAL
  end.

(** C39. A routine that yielded is not continued: resuming it enters its entry
    function again, at the first byte of its code, in a new frame on top of
    the frame that yielded.  After 20 frames the call fails; the failure is
    ignored, the routine has no frame then, and the run loop reads in front
    of the array of frames, whatever the fuel. *)
Theorem resume_restarts_entry p s T c cl fn fns :
  vm_objects s !! p = Some (OBJ_ROUTINE T) → state T = EXEC_SUSPENDED → entryFunction T = Some c →
  vm_objects s !! c = Some (OBJ_CLOSURE cl) → vm_objects s !! function cl = Some (OBJ_FUNCTION fn) → arity fn = 0 →
  if (frameCount T =? FRAMES_MAX)%nat then
    reportable s T fns → ∀ busy host fuel, resumeRoutine (Builtins.run busy host fuel) p None s = None
  else
    ∃ T', frameCount T' = S (frameCount T) ∧ stackSlices T' = stackSlices T ∧ stackTopIndex T' = stackTopIndex T ∧
      frames T' = <[frameCount T := mkFrame (Some c) 0 (usize (stackTopIndex T - 1))]> (frames T) ∧
      ∀ run, resumeRoutine run p None s = (x ← run p; after_run p x) (upd p T' s).
Proof.
  intros Hp Hs Hc Hcl Hfn Ha.
  assert (entry_arity p s = Some ((c, 0), s)) as Hent.
  { unfold entry_arity. rewrite (st_bind_run _ _ _ _ _ (get_routine_run _ _ _ Hp)).
    rewrite (st_bind_run _ _ _ _ _ (opt_run _ _ s Hc)), (st_bind_run _ _ _ _ _ (get_closure_run _ _ _ Hcl)).
    by rewrite (st_bind_run _ _ _ _ _ (get_function_run _ _ _ Hfn)), Ha. }
  assert (∀ run, resumeRoutine run p None s = (enterEntryFunction p ;; x ← run p; after_run p x) s) as Hres.
  { intros run. unfold resumeRoutine. rewrite (st_bind_run _ _ _ _ _ (get_routine_run _ _ _ Hp)).
    rewrite bool_decide_eq_false_2 by congruence. by do 2 (erewrite st_bind_run; [|done]). }
  destruct (frameCount T =? FRAMES_MAX)%nat eqn:Ed.
  - apply Nat.eqb_eq in Ed. intros Hrep busy host fuel. rewrite Hres.
    destruct (callfn_overflows p c s T cl fn 0 fns Hp Hcl Hfn (eq_sym Ha) Ed Hrep) as (s' & E & [(e & Hr' & _) _ _ _]).
    assert (enterEntryFunction p s = Some ((), s')) as He.
    { unfold enterEntryFunction. rewrite (st_bind_run _ _ _ _ _ Hent). by rewrite (st_bind_run _ _ _ _ _ E). }
    rewrite (st_bind_run _ _ _ _ _ He). rewrite (st_bind_run_or _ _ _ None); [done|].
    unfold Builtins.run, enter_loop. rewrite (st_bind_run _ _ _ _ _ (get_routine_run _ _ _ Hr')). done.
  - apply Nat.eqb_neq in Ed. eexists. split; [|split; [|split; [|split; [|]]]].
    5:{ intros run. rewrite Hres. erewrite st_bind_run; [reflexivity|].
      unfold enterEntryFunction. rewrite (st_bind_run _ _ _ _ _ Hent).
      by rewrite (st_bind_run _ _ _ _ _ (callfn_enters p c s T cl fn 0 Hp Hcl Hfn (eq_sym Ha) Ed)). }
    all: done.
Qed.
End Resume.

(** ** Temporary roots *)
Section Roots.
Context `{U : Uninit} `{TG : Target} `{HO : Host}.

Lemma tempRootPush_run v s : (S (length (tempRoots s)) < TEMP_ROOTS_MAX)%nat →
  tempRootPush v s = Some ((), set_tempRoots (v :: tempRoots s) s).
Proof.
  intros H. unfold tempRootPush, get_vm, put_vm, mbind, st_bind. by rewrite (proj2 (Nat.leb_gt _ _)).
Qed.
Lemma tempRootPush_fatal v s : (TEMP_ROOTS_MAX ≤ S (length (tempRoots s)))%nat → tempRootPush v s = None.
Proof. intros H. unfold tempRootPush, get_vm, mbind, st_bind. by rewrite (proj2 (Nat.leb_le _ _)). Qed.

Lemma with_heap_run {A} (c : PM A) a h s : c (vm_heap s) = Some (a, h) → with_heap c s = Some (a, set_heap h s).
Proof. intros H. unfold with_heap. by rewrite H. Qed.
Lemma set_heap_id s : set_heap (vm_heap s) s = s.
Proof. by destruct s. Qed.

Lemma vm_ints_id {A} (c : M A) a s : c (ints (vm_heap s)) = Some (a, ints (vm_heap s)) → vm_ints c s = Some (a, s).
Proof.
  intros H. unfold vm_ints. rewrite (with_heap_run _ a (vm_heap s)), set_heap_id; [done|].
  by rewrite (with_ints_run _ _ _ _ H), with_store_id.
Qed.

(** A pointer to an array leads to an array of the type. *)
Lemma array_destination p pa n e q c h :
  containers h !! q = Some c →
  ∃ q' h', pointerDestination (TYPED_VAL (Pointer p (Some (Array pa n e))) (Some q)) h =
    Some (TYPED_VAL (Array pa n e) (Some q'), h') ∧ ints h' = ints h.
Proof.
  intros Hq. rewrite (pointer_at p _ q c h Hq). unfold containerElement. cbn [is_placeable_type].
  destruct (createPackedContainerFor_run c 0 (Array pa n e) h) as (q' & h' & E & _ & _ & _ & Hi & _).
  by exists q', h'.
Qed.

Lemma reportable_ext s s' R fns :
  vm_pool s' = vm_pool s → vm_objects s' = vm_objects s → reportable s R fns → reportable s' R fns.
Proof.
  intros HP HO' [H1 H2 H3 H4]. split; [done|by rewrite HP| |done]. revert H3. apply Forall2_impl.
  intros f fn [Hc Hn]. split; [by rewrite HO'|by rewrite HP].
Qed.

(** Indexing through a pointer to an array with an index out of bounds
    reports the error, but does not remove the temporary root that it set: the
    root stays for the rest of the run.  With seven roots in place the same
    access is a fatal error of the machine. *)
Theorem pointer_index_leaks_root r s R st cp ci p pa n e q c i fns :
  vm_objects s !! r = Some (OBJ_ROUTINE R) → wf_stack R → addressable (stack_of R) →
  stack_of R = st ++ [cp; ci] → cell_value cp = TYPED_VAL (Pointer p (Some (Array pa n e))) (Some q) →
  containers (vm_heap s) !! q = Some c →
  wf_value (ints (vm_heap s)) (cell_value ci) → index_of (ints (vm_heap s)) (cell_value ci) = Some i → n ≤ i →
  reportable s R fns →
  if (S (length (tempRoots s)) <? TEMP_ROOTS_MAX)%nat then
    ∃ s' s1 array, derefArrayElement_vm r s = Some ((), s') ∧
      reported r s1 R ((codes "Array index " ++ decimal i ++ codes " out of bounds.") :: trace s1 R fns) s' ∧
      tempRoots s' = array :: tempRoots s
  else derefArrayElement_vm r s = None.
Proof.
  intros Hr H Ha Hst Hcp Hq Wi Hi Hn Hrep. unfold derefArrayElement_vm.
  assert (stack_of R = (st ++ [cp]) ++ ci :: []) as Hst' by by rewrite <-app_assoc.
  rewrite (st_bind_run _ _ _ _ _ (stack_peek_run r s R (st ++ [cp]) ci [] 0 Hr H Ha Hst' eq_refl)).
  rewrite (st_bind_run _ _ _ _ _ (stack_peek_run r s R st cp [ci] 1 Hr H Ha Hst eq_refl)).
  pose proof (is_positive_integer_run _ _ Wi) as Hpos. rewrite Hi, bool_decide_eq_true_2 in Hpos by by exists i.
  rewrite (st_bind_run _ _ _ _ _ (vm_ints_id _ _ s Hpos)).
  rewrite (st_bind_run _ _ _ _ _ (vm_ints_id _ _ s (as_positive_integer_run _ i _ Wi Hi))).
  rewrite Hcp. destruct (array_destination p pa n e q c (vm_heap s) Hq) as (q' & h' & E & _).
  unfold is_uniformarray. cbn [type_of yt]. rewrite bool_decide_eq_false_2 by done.
  rewrite (st_bind_run _ _ _ _ _ (with_heap_run _ _ _ s E)).
  destruct (S (length (tempRoots s)) <? TEMP_ROOTS_MAX)%nat eqn:Eroom.
  - apply Nat.ltb_lt in Eroom. set (array := TYPED_VAL (Array pa n e) (Some q')).
    rewrite (st_bind_run _ _ _ _ _ (tempRootPush_run array (set_heap h' s) Eroom)).
    set (s1 := set_tempRoots _ _). cbn [type_of array]. rewrite (proj2 (Z.leb_le _ _)) by done.
    destruct (error_run r (codes "Array index " ++ decimal i ++ codes " out of bounds.") s1 R fns Hr) as (s' & Es & HR).
    { by apply (reportable_ext s). }
    exists s', s1, array. split; [exact Es|]. split; [exact HR|]. destruct HR as [_ _ _ (h2 & P & t & ->)]. done.
  - apply Nat.ltb_ge in Eroom. rewrite (st_bind_run_or _ _ _ None); [done|]. by apply tempRootPush_fatal.
Qed.
End Roots.

(** ** Instances *)
#[local] Existing Instance Noise.
#[local] Existing Instance LP64.
#[local] Existing Instance PlainHost.

(** A routine that yielded in its first frame. *)
Definition yielded_fn : ObjFunction := mkFunction 0 0 (mkChunk 8 [0; 0] [mkSource 0 7] initDynamicValueArray) None.
Definition yielded : ObjRoutine :=
  set_state EXEC_SUSPENDED (set_entryFunction (Some 3%positive) (demo_routine true 1)).
Definition yielded_vm : VM :=
  set_objects (<[2%positive := OBJ_ROUTINE yielded]> (<[4%positive := OBJ_FUNCTION yielded_fn]> (vm_objects (demo_vm true 2))))
    (demo_vm true 2).

Lemma resume_restarts_entry_witness :
  ∃ T', frameCount T' = 2%nat ∧ frames T' !! 1%nat = Some (mkFrame (Some 3%positive) 0 0) ∧
    ∀ run, resumeRoutine run 2 None yielded_vm = (x ← run 2%positive; after_run 2 x) (upd 2 T' yielded_vm).
Proof.
  pose proof (resume_restarts_entry 2 yielded_vm yielded 3 demo_closure yielded_fn [] eq_refl eq_refl eq_refl eq_refl eq_refl
    eq_refl) as H.
  change (frameCount yielded =? FRAMES_MAX)%nat with false in H. cbv iota in H.
  destruct H as (T' & Hc & _ & _ & Hf & H). exists T'. split; [exact Hc|]. split; [by rewrite Hf|exact H].
Defined.

(** A pointer to an array of four [int8], and the index 9. *)
Definition pointer_routine : ObjRoutine :=
  set_top 2 (set_slices [[mkCell (TYPED_VAL (Pointer 2 (Some array_type)) (Some 7%positive)) None;
    mkCell (NUM_VAL UI8 9) None] ++ replicate 62 nil_cell] initRoutine).
Definition pointer_vm : VM :=
  set_heap array_heap (set_objects {[ 1%positive := OBJ_ROUTINE pointer_routine ]} (blank_vm 4096)).

Lemma pointer_index_leaks_root_witness :
  ∃ s', derefArrayElement_vm 1 pointer_vm = Some ((), s') ∧ length (tempRoots s') = 1%nat.
Proof.
  pose proof (pointer_index_leaks_root 1 pointer_vm pointer_routine []
    (mkCell (TYPED_VAL (Pointer 2 (Some array_type)) (Some 7%positive)) None) (mkCell (NUM_VAL UI8 9) None)
    2 1 4 (num I8) 7 (mkContainer 4096 None) 9 []) as H.
  destruct H as (s' & s1 & array & E & _ & Ht);
    [done|split; [by repeat constructor|done]|done|done|done|done|done|done|done|split; [done|apply empty_pool_ok|constructor|done]|].
  exists s'. split; [exact E|]. by rewrite Ht.
Defined.
