(* ===== verification/BuiltinSpec.v ===== *)
(** * Built-in functions

    The conversions between machine integers, and from text; the channels of a
    build that waits on semaphores. *)
From Stdlib Require Import String Ascii.
From S2P Require Import Scanner ChannelSpec.
From S2P Require Export RunSpec.
Open Scope Z_scope.

(** ** Ranges *)
Definition in_type (n : NumType) (x : Z) : bool := (num_min n <=? x) && (x <=? num_max n).

(** The one value that the test of [uint32] refuses, and the types of which
    the test of [uint64] accepts negative values. *)
Definition refused (target n : NumType) (x : Z) : bool :=
  match target, n with UI32, I64 => x =? 2 ^ 32 - 1 | _, _ => false end.
Definition unchecked (target n : NumType) (x : Z) : bool :=
  match target, n with UI64, (I8 | I16 | I32) => x <? 0 | _, _ => false end.

(** The tests of a conversion, and what they get wrong. *)
Lemma accepts_spec target n x : in_type n x = true →
  Builtins.accepts target n x = (in_type target x && negb (refused target n x)) || unchecked target n x.
Proof.
  unfold in_type, num_min, num_max. intros Hx. rewrite andb_true_iff, !Z.leb_le in Hx.
  apply eq_true_iff_eq. destruct target, n; cbn in Hx |- *;
    rewrite ?orb_true_iff, ?andb_true_iff, ?negb_true_iff, ?Z.leb_le, ?Z.ltb_lt, ?Z.eqb_neq; intuition (try done; lia).
Qed.

(** ** Decimal text *)
Definition digit (c : Z) : Prop := 48 ≤ c ≤ 57.

Lemma isDigit_digit c : isDigit c = true ↔ digit c.
Proof.
  unfold isDigit, Scanner.between, digit. change (ch "0") with 48. change (ch "9") with 57.
  by rewrite andb_true_iff, !Z.leb_le.
Qed.

Lemma read_digits_app a : ∀ b acc, Forall digit a →
  read_digits (a ++ b) acc = read_digits b (fst (read_digits a acc)) ∧ snd (read_digits a acc) = [].
Proof.
  induction a as [|c a IH]; intros b acc H; [done|]. apply list.Forall_cons in H as [Hc H]. simpl.
  rewrite (proj2 (isDigit_digit c) Hc). by apply IH.
Qed.

Lemma decimal_digits_run fuel : ∀ n, 0 ≤ n < 10 ^ Z.of_nat fuel → (0 < fuel)%nat →
  Forall digit (decimal_digits fuel n) ∧ decimal_digits fuel n ≠ [] ∧ read_digits (decimal_digits fuel n) 0 = (n, []).
Proof.
  induction fuel as [|fuel IH]; intros n Hn Hf; [lia|]. cbn [decimal_digits].
  pose proof (Z.mod_pos_bound n 10 ltac:(lia)) as Hm. pose proof (Z.div_mod n 10 ltac:(lia)) as Hd.
  assert (digit (48 + n mod 10)) as Hlast by (unfold digit; lia).
  assert (∀ acc, read_digits [48 + n mod 10] acc = (10 * acc + n mod 10, [])) as Hread.
  { intros acc. simpl. rewrite (proj2 (isDigit_digit _) Hlast). f_equal. lia. }
  destruct (Z.ltb_spec n 10) as [Hs|Hs]; cbn [app].
  - split; [by apply list.Forall_singleton|]. split; [done|]. rewrite Hread, Z.mod_small by lia. f_equal; lia.
  - rewrite Nat2Z.inj_succ, Z.pow_succ_r in Hn by lia.
    assert (0 < fuel)%nat as Hf' by (destruct fuel; [simpl in Hn; lia|lia]).
    destruct (IH (n / 10)) as (H1 & H2 & H3); [|done|].
    { split; [apply Z.div_pos; lia|apply Z.div_lt_upper_bound; lia]. }
    split; [by apply list.Forall_app; split; [|apply list.Forall_singleton]|]. split; [by destruct (decimal_digits fuel (n / 10))|].
    destruct (read_digits_app _ [48 + n mod 10] 0 H1) as [E _]. rewrite E, H3, Hread. simpl. f_equal; lia.
Qed.

Lemma read_number_digits s : Forall digit s → s ≠ [] →
  read_number s = Some (false, fst (read_digits s 0), snd (read_digits s 0)) ∧
  read_number (45 :: s) = Some (true, fst (read_digits s 0), snd (read_digits s 0)).
Proof.
  intros H Hs. destruct s as [|c s]; [done|]. apply list.Forall_cons in H as [Hc _].
  assert (c = 48 ∨ c = 49 ∨ c = 50 ∨ c = 51 ∨ c = 52 ∨ c = 53 ∨ c = 54 ∨ c = 55 ∨ c = 56 ∨ c = 57) as Hcs
    by (unfold digit in Hc; lia).
  unfold read_number. repeat destruct Hcs as [->|Hcs]; [..|subst c]; simpl; by destruct (read_digits s _).
Qed.

Definition big_text : Z := 10 ^ 20.
Lemma read_decimal x : - big_text < x < big_text → read_number (decimal x) = Some (x <? 0, Z.abs x, []).
Proof.
  unfold big_text. intros Hx. unfold decimal.
  destruct (decimal_digits_run 20 (Z.abs x)) as (H1 & H2 & H3); [simpl; lia|lia|].
  destruct (read_number_digits _ H1 H2) as [E1 E2]. rewrite H3 in E1, E2. destruct (Z.ltb_spec x 0).
  - by replace (- x) with (Z.abs x) by lia.
  - by replace (decimal_digits 20 x) with (decimal_digits 20 (Z.abs x)) by (f_equal; lia).
Qed.

(** What the text of an integer is read as: [strtoll] and [strtoull] saturate
    at the limits of 64 bits, and the latter negates in 64 bits. *)
Definition text_value (target : NumType) (x : Z) : Z :=
  if num_signed target then Z.max (- 2 ^ 63) (Z.min (2 ^ 63 - 1) x)
  else if 2 ^ 64 <=? Z.abs x then 2 ^ 64 - 1 else u64 x.

Lemma convert_decimal target x : - big_text < x < big_text →
  convert_string target (decimal x) = if in_type target (text_value target x) then Some (text_value target x) else None.
Proof.
  intros Hx. unfold convert_string, text_value, strtoll, strtoull. rewrite (read_decimal x Hx).
  destruct (num_signed target); (replace (if x <? 0 then - Z.abs x else Z.abs x) with x by (destruct (Z.ltb_spec x 0); lia)); done.
Qed.

Lemma decimal_cstr x : - big_text < x < big_text → cstr (decimal x) = decimal x.
Proof.
  unfold big_text. intros Hx. unfold decimal.
  assert (∀ s, Forall digit s → cstr s = s) as Hd.
  { intros s Hs. induction Hs as [|c s Hc _ IH]; [done|]. simpl. rewrite IH. unfold digit in Hc.
    by rewrite (proj2 (Z.eqb_neq c 0)) by lia. }
  destruct (Z.ltb_spec x 0).
  - destruct (decimal_digits_run 20 (- x)) as (H1 & _); [simpl; lia|lia|]. cbn [cstr]. rewrite Hd by done. done.
  - destruct (decimal_digits_run 20 x) as (H1 & _); [simpl; lia|lia|]. by rewrite Hd.
Qed.

(** ** Conversions *)
Section Conversions.
Context `{U : Uninit} `{TG : Target} `{HO : Host}.

Lemma in_type_bounds n x : in_type n x = true → num_min n ≤ x ≤ num_max n.
Proof. unfold in_type. by rewrite andb_true_iff, !Z.leb_le. Qed.
Lemma in_type_text n x : in_type n x = true → - big_text < x < big_text ∧ text_value n x = x.
Proof.
  intros H%in_type_bounds. unfold big_text, text_value, num_min, num_max, u64 in *.
  destruct n; cbn in *; try (split; lia); (split; [lia|]); rewrite (proj2 (Z.leb_gt _ _)) by lia; apply Z.mod_small; lia.
Qed.

(** C40. A conversion of a machine integer to a machine type gives the value
    if it is in the range of the type, and the answer [false] if not, with two
    exceptions: [uint32] refuses the [int64] 4294967295, and [uint64] takes
    the negative values of the smaller types and adds 2^64.  No state is
    changed, and no error is reported. *)
Theorem numBuiltin_ranges target r s R st cell n x :
  vm_objects s !! r = Some (OBJ_ROUTINE R) → wf_stack R → addressable (stack_of R) → stack_of R = st ++ [cell] →
  cell_value cell = NUM_VAL n x → in_type n x = true →
  numBuiltin target r s =
    Some (if unchecked target n x then Some (NUM_VAL target (x + 2 ^ 64))
          else if in_type target x && negb (refused target n x) then Some (NUM_VAL target x) else None, s).
Proof.
  intros Hr H Ha Hst Hc Hx. unfold numBuiltin.
  rewrite (st_bind_run _ _ _ _ _ (stack_peek_run r s R st cell [] 0 Hr H Ha Hst eq_refl)), Hc.
  rewrite (accepts_spec target n x Hx). destruct (unchecked target n x) eqn:Eu.
  - rewrite orb_true_r. unfold yes. rewrite st_ret_run. do 4 f_equal.
    pose proof (in_type_bounds n x Hx) as Hb. unfold unchecked in Eu.
    destruct target; try done. unfold num_wrap. cbn [num_signed num_bits].
    destruct n; try done; apply Z.ltb_lt in Eu; cbn in Hb;
      (replace x with ((x + 2 ^ 64) + (-1) * 2 ^ 64) at 1 by lia; rewrite Z.mod_add by lia; apply Z.mod_small; lia).
  - rewrite orb_false_r. destruct (in_type target x) eqn:Et; [|done].
    destruct (refused target n x); [done|]. simpl. unfold yes. by rewrite num_wrap_small by by apply in_type_bounds.
Qed.

(** The text of a machine integer is its decimal numeral, and converting
    the text to the type of the integer gives the integer back.  Any numeral of
    up to 20 digits is saturated or, for unsigned types, reduced to 64 bits
    before its range is looked at: so [uint64] takes every numeral, and gives
    2^64 - 5 for ["-5"]. *)
Theorem number_text_roundtrip target x s :
  pool_ok (vm_pool s) → - big_text < x < big_text →
  ∃ k s1, valueToString 1 (NUM_VAL target x) s = Some (k, s1) ∧ chars (vm_str s1 k) = decimal x ∧
    vm_objects s1 = vm_objects s ∧
    ∀ r R st cell, vm_objects s !! r = Some (OBJ_ROUTINE R) → wf_stack R → addressable (stack_of R) →
      stack_of R = st ++ [cell] → cell_value cell = STRING_VAL k →
      numBuiltin target r s1 =
        Some (if in_type target (text_value target x) then Some (NUM_VAL target (text_value target x)) else None, s1) ∧
      (in_type target x = true → text_value target x = x).
Proof.
  intros HP Hx. destruct (intern_run (decimal x) s HP) as (k & P' & E & HP' & _ & Hk).
  exists k, (set_pool P' s). split; [exact E|]. pose proof (string_is_chars P' k _ Hk) as Hch. split; [exact Hch|]. split; [done|].
  intros r R st cell Hr H Ha Hst Hc. split; [|intros Ht; by apply in_type_text].
  unfold numBuiltin.
  rewrite (st_bind_run _ _ _ _ _ (stack_peek_run r (set_pool P' s) R st cell [] 0 Hr H Ha Hst eq_refl)), Hc.
  unfold STRING_VAL. cbv iota beta.
  assert (chars_of k (set_pool P' s) = Some (decimal x, set_pool P' s)) as Hcs.
  { unfold chars_of, get_vm, mbind, st_bind. rewrite st_ret_run. unfold vm_str. cbn [set_pool vm_pool]. by rewrite Hch. }
  rewrite (st_bind_run _ _ _ _ _ Hcs), (decimal_cstr x Hx), (convert_decimal target x Hx).
  destruct (in_type target (text_value target x)) eqn:Et; [|done].
  unfold yes. by rewrite num_wrap_small by by apply in_type_bounds.
Qed.
End Conversions.

(** ** The semaphore of the channels *)
Section Semaphore.
Context `{U : Uninit} `{TG : Target} `{HO : Host}.

(** In a build that waits on semaphores all channels wait on the same one,
    because it is opened by name.  A send to one channel lets a receiver of
    another one go on, although nothing was sent to it: what it gets is
    whatever its buffer holds, and its counter wraps to the largest [size_t].
    A receiver of the channel that was sent to then waits, with the value in
    its buffer. *)
Theorem semaphore_is_shared a b v w s (ca cb : Channel (V := Value)) n m :
  a ≠ b → vm_objects s !! a = Some (OBJ_CHANNELCONTAINER ca) → vm_objects s !! b = Some (OBJ_CHANNELCONTAINER cb) →
  is_queue n ca [] → is_queue m cb [] → semaphore s = 0 → buffer cb !! Z.to_nat (writeCursor cb) = Some w →
  ∃ ca' cb' s1 s2,
    (c ← opt (send_section v ca); put_channel a c ;; sem_post false) s = Some ((), s1) ∧
    receive_channel false b cb s1 = Some (w, s2) ∧
    vm_objects s2 !! b = Some (OBJ_CHANNELCONTAINER cb') ∧ occupied cb' = 2 ^ size_bits - 1 ∧
    vm_objects s2 !! a = Some (OBJ_CHANNELCONTAINER ca') ∧ is_queue n ca' [v] ∧
    receive_channel false a ca' s2 = None.
Proof.
  intros Hab Ha Hb Hqa Hqb Hs Hw.
  assert (Z.of_nat (length (@nil Value)) < n) as Hn by (destruct Hqa as [[[H1 _] _ _ _ _ _] _]; simpl; lia).
  destruct (send_section_run n ca [] v Hqa Hn) as (ca' & E & Hqa' & _). simpl in Hqa'.
  destruct Hqb as [[[H1 H2] Hsz Hlen Hcur _ _] Hocc]. change (occupied cb = 0) in Hocc.
  set (s1 := set_semaphore 1 (set_objects (<[a := OBJ_CHANNELCONTAINER ca']> (vm_objects s)) s)).
  set (cb' := set_overflow false (count_down cb)).
  set (s2 := set_objects (<[b := OBJ_CHANNELCONTAINER cb']> (vm_objects s1)) (set_semaphore 0 s1)).
  exists ca', cb', s1, s2.
  assert (readCursor cb = Some (writeCursor cb)) as Hread.
  { unfold readCursor. rewrite (proj2 (Z.eqb_neq _ _)) by lia. f_equal. rewrite Hocc, Hsz, usize_range by lia.
    replace (writeCursor cb + m - 0) with (writeCursor cb + 1 * m) by lia.
    rewrite Z.mod_add, Z.mod_small; lia. }
  split; [|split; [|split; [|split; [|split; [|split]]]]].
  - rewrite (st_bind_run _ _ _ _ _ (opt_run _ _ s E)). unfold put_channel. rewrite (st_bind_run _ _ _ _ _ (put_obj_run _ _ _)).
    unfold sem_post, get_vm, put_vm, mbind, st_bind. cbn [semaphore set_objects]. by rewrite Hs.
  - unfold receive_channel. erewrite (st_bind_run sem_wait _ _ () (set_semaphore 0 s1)) by done.
    assert (collectFromChannel cb = Some (w, cb')) as Hc.
    { unfold collectFromChannel, read_datum. rewrite Hread. cbn [mbind option_bind]. by rewrite Hw. }
    rewrite (st_bind_run _ _ _ _ _ (opt_run _ _ _ Hc)). unfold put_channel. by rewrite (st_bind_run _ _ _ _ _ (put_obj_run _ _ _)).
  - apply lookup_insert_eq.
  - unfold cb', count_down. simpl. rewrite Hocc. unfold usize. pose proof target_ok as [Hbits _].
    replace (0 - 1) with ((2 ^ size_bits - 1) + (-1) * 2 ^ size_bits) by lia.
    destruct Hbits as [-> | ->]; rewrite Z.mod_add by lia; apply Z.mod_small; lia.
  - unfold s2. simpl. rewrite lookup_insert_ne by done. apply lookup_insert_eq.
  - done.
  - unfold receive_channel. by rewrite (st_bind_run_or _ _ _ None).
Qed.
End Semaphore.

(** ** Instances *)
#[local] Existing Instance Noise.
#[local] Existing Instance LP64.
#[local] Existing Instance PlainHost.

(** A machine with one value on the stack. *)
Definition value_routine (v : Value) : ObjRoutine :=
  set_top 1 (set_slices [mkCell v None :: replicate 63 nil_cell] initRoutine).
Definition value_vm (v : Value) : VM := set_objects {[ 1%positive := OBJ_ROUTINE (value_routine v) ]} (blank_vm 4096).
Lemma value_wf v : wf_stack (value_routine v).
Proof. split; [by repeat constructor|done]. Qed.

Lemma numBuiltin_ranges_witness :
  numBuiltin UI64 1 (value_vm (NUM_VAL I8 (-5))) =
    Some (Some (NUM_VAL UI64 18446744073709551611), value_vm (NUM_VAL I8 (-5))).
Proof.
  exact (numBuiltin_ranges UI64 1 (value_vm (NUM_VAL I8 (-5))) (value_routine (NUM_VAL I8 (-5))) [] (mkCell (NUM_VAL I8 (-5)) None)
    I8 (-5) eq_refl (value_wf _) eq_refl eq_refl eq_refl eq_refl).
Defined.

Lemma number_text_roundtrip_witness :
  ∃ k s1, valueToString 1 (NUM_VAL I16 (-300)) (value_vm (STRING_VAL 1)) = Some (k, s1) ∧ chars (vm_str s1 k) = codes "-300" ∧
    (k = 1%positive → numBuiltin I16 1 s1 = Some (Some (NUM_VAL I16 (-300)), s1)).
Proof.
  destruct (number_text_roundtrip I16 (-300) (value_vm (STRING_VAL 1)) empty_pool_ok ltac:(done)) as (k & s1 & E & Hc & _ & H).
  exists k, s1. split; [exact E|]. split; [exact Hc|]. intros ->.
  apply (H 1%positive (value_routine (STRING_VAL 1)) [] (mkCell (STRING_VAL 1) None) eq_refl (value_wf _) eq_refl eq_refl eq_refl).
Defined.

(** Two channels of two slots. *)
Definition channels_vm : VM :=
  set_objects (<[5%positive := OBJ_CHANNELCONTAINER (newChannel NIL_VAL 2)]>
    {[ 6%positive := OBJ_CHANNELCONTAINER (newChannel NIL_VAL 2) ]}) (blank_vm 4096).

Lemma semaphore_is_shared_witness :
  ∃ s1 s2, (c ← opt (send_section (BOOL_VAL true) (newChannel NIL_VAL 2)); put_channel 5 c ;; sem_post false) channels_vm = Some ((), s1) ∧
    receive_channel false 6 (newChannel NIL_VAL 2) s1 = Some (NIL_VAL, s2).
Proof.
  destruct (semaphore_is_shared 5 6 (BOOL_VAL true) NIL_VAL channels_vm (newChannel NIL_VAL 2) (newChannel NIL_VAL 2) 2 2)
    as (ca' & cb' & s1 & s2 & E1 & E2 & _); [done|done|done|by apply new_queue|by apply new_queue|done|done|].
  exists s1, s2. split; [exact E1|exact E2].
Defined.
