(* ===== verification/Gc.v ===== *)
(** * The garbage collector

    [cyarg/memory.c] and the mark functions of [vm.c], [routine.c],
    [channel.c], [sync_group.c], [packed_containers.c], [table.c],
    [scanner.c], [parser.c] and [compiler.c]: marking from the roots with a
    stack of gray objects, the weak table of strings, and the sweep.

    Objects are seen as the collector sees them: the pointers they hold.  An
    object is there as long as [objs] has it: marking reads the header of an
    object, so that a pointer to freed memory is undefined.  The mark of an
    object is its membership in [marked].  How many bytes are allocated is
    known to the allocator only, and a parameter. *)
From S2P Require Export Intern Channel.
Open Scope Z_scope.

Abbreviation ptr := positive.

(** ** Pointers in values *)

(** What the collector looks at in the union of a value: an object, if the
    type says so and the pointer is not null, or a large integer. *)
Inductive Payload := Nothing | TrueBool | Object (p : ptr) | BigInteger (p : ptr).
Record GValue := mkGValue { gtype : option ptr; payload : Payload }.
Record GCell := mkGCell { gvalue : GValue; gcellType : option ptr }.
Definition g_nil : GValue := mkGValue None Nothing.

#[export] Instance Payload_eq_dec : EqDecision Payload.
Proof. solve_decision. Defined.

#[export] Instance GValueTable : TableValue GValue.
Proof.
  refine {| is_nil v := match v with mkGValue None Nothing => true | _ => false end;
            is_true v := bool_decide (payload v = TrueBool);
            nil_value := g_nil; tombstone := mkGValue (Some 1%positive) TrueBool |}; done.
Defined.
#[export] Instance GCellTable : TableValue GCell.
Proof.
  refine {| is_nil c := is_nil (gvalue c); is_true c := is_true (gvalue c);
            nil_value := mkGCell g_nil None; tombstone := mkGCell (mkGValue (Some 1%positive) TrueBool) None |}; done.
Defined.

Record DynamicObjArray := mkObjArray { stash : option ptr; objects_ : list (option ptr) }.
Record DynamicGArray := mkGArray { gstash : GValue; gvalues : list GValue }.

(** ** Objects *)

(** Where [contents] of an upvalue points. *)
Inductive Slot := SlotOf (routine : ptr) (index : Z) | Closed.

Record GRoutine := mkGRoutine {
  g_stack : list GCell;                  (* up to the top, the bottom first *)
  g_closures : list (option ptr);        (* of the frames *)
  g_openUpvalues : option ptr;
  additionalSlicesArray : DynamicObjArray;
  g_runtimeErrors : DynamicObjArray;
  g_entryFunction : option ptr;
  g_entryArg : GValue;
  g_result : GValue;
  g_error : GValue
}.

(** One constructor for each [ObjType], with the pointers of its structure. *)
Inductive GObj :=
  | OBJ_BOUND_METHOD (reciever : GValue) (method : option ptr)
  | OBJ_CLASS (name : option ptr) (methods : Table GValue)
  | OBJ_CLOSURE (function : option ptr) (upvalues : list (option ptr))
  | OBJ_FUNCTION (fName : option ptr) (constants : DynamicGArray)
  | OBJ_INSTANCE (klass : option ptr) (fields : Table GValue)
  | OBJ_NATIVE
  | OBJ_BUILTIN
  | OBJ_ROUTINE (r : GRoutine)
  | OBJ_CHANNELCONTAINER (c : Channel (V := GValue))
  | OBJ_STRING (chars : list Z) (hash : Z)
  | OBJ_UPVALUE (contents : Slot) (closed : GCell) (next : option ptr)
  | OBJ_UNOWNED_PACKEDCONTAINER
  | OBJ_PACKEDCONTAINER (storage : option ptr)
  | OBJ_PACKEDSTORAGE (values : list (option GValue))
  | OBJ_YARGTYPE
  | OBJ_YARGTYPE_ARRAY (element_type : option ptr)
  | OBJ_YARGTYPE_STRUCT (field_names : Table GValue) (field_types : list (option ptr))
  | OBJ_YARGTYPE_POINTER (target_type : option ptr)
  | OBJ_YARGTYPE_MAP (key_type value_type : option ptr)
  | OBJ_SYNCGROUP (channel_array result_array : GValue)
  | OBJ_MAP (type : option ptr) (entries : Table GValue)
  | OBJ_STACKSLICE
  | OBJ_AST (statements : option ptr)
  | OBJ_PLACEALIAS (name location : option ptr)
  | OBJ_SCANNER (source : option ptr)
  | OBJ_PARSER (ast prevExpr scanner context : option ptr) (errors : DynamicObjArray)
  | OBJ_STMT_EXPRESSION (nextStmt expression : option ptr)
  | OBJ_STMT_PRINT (nextStmt expression : option ptr)
  | OBJ_STMT_POKE (nextStmt location offset assignment : option ptr)
  | OBJ_STMT_ERROR (nextStmt expression : option ptr)
  | OBJ_STMT_VARDECLARATION (nextStmt name type initialiser : option ptr)
  | OBJ_STMT_FIELDDECLARATION (nextStmt name type offset : option ptr)
  | OBJ_STMT_PLACEDECLARATION (nextStmt type : option ptr) (aliases : DynamicObjArray)
  | OBJ_STMT_BLOCK (nextStmt statements : option ptr)
  | OBJ_STMT_IF (nextStmt test ifStmt elseStmt : option ptr)
  | OBJ_STMT_FUNDECLARATION (nextStmt name body : option ptr) (parameters : DynamicObjArray)
  | OBJ_STMT_WHILE (nextStmt test loop : option ptr)
  | OBJ_STMT_RETURN (nextStmt expression : option ptr)
  | OBJ_STMT_YIELD (nextStmt expression : option ptr)
  | OBJ_STMT_FOR (nextStmt initializer condition loopExpression body : option ptr)
  | OBJ_STMT_CLASSDECLARATION (nextStmt name superclass : option ptr) (class_methods : DynamicObjArray)
  | OBJ_EXPR_NUMBER (nextExpr : option ptr)
  | OBJ_EXPR_ADDRESS (nextExpr : option ptr)
  | OBJ_EXPR_OPERATION (nextExpr rhs assignment : option ptr)
  | OBJ_EXPR_GROUPING (nextExpr expression : option ptr)
  | OBJ_EXPR_NAMEDVARIABLE (nextExpr name assignment : option ptr)
  | OBJ_EXPR_LITERAL (nextExpr : option ptr)
  | OBJ_EXPR_STRING (nextExpr string : option ptr)
  | OBJ_EXPR_CALL (nextExpr : option ptr) (arguments : DynamicObjArray)
  | OBJ_EXPR_COLLECTION_INITIALIZER (nextExpr : option ptr) (initializers : DynamicObjArray) (cardinality : option ptr)
  | OBJ_EXPR_COLLECTION_ELEMENT (nextExpr element assignment : option ptr)
  | OBJ_EXPR_BUILTIN (nextExpr : option ptr)
  | OBJ_EXPR_DOT (nextExpr name offset assignment call : option ptr)
  | OBJ_EXPR_SUPER (nextExpr name call : option ptr)
  | OBJ_EXPR_TYPE (nextExpr : option ptr)
  | OBJ_EXPR_TYPE_STRUCT (nextExpr : option ptr) (fieldsByIndex : DynamicGArray)
  | OBJ_EXPR_TYPE_INDEXED_COLLECTION (nextExpr indexing : option ptr)
  | OBJ_EXPR_PAIR (nextExpr a b : option ptr)
  | OBJ_INT.

(** ** Marking *)
Record Marking := mkMarking {
  objs : gmap ptr GObj;
  marked : gset ptr;
  grayStack : list ptr;        (* the last in first *)
  grayCapacity : nat
}.
Abbreviation GM := (st Marking).

Definition grow_gray (m : Marking) : nat :=
  if (grayCapacity m <? length (grayStack m) + 1)%nat then GROW_CAPACITY (grayCapacity m) else grayCapacity m.

Definition markObject (object : option ptr) : GM () :=
  match object with
  | None => mret ()
  | Some p => λ m,
      match objs m !! p with
      | None => None                                  (* the object has been freed *)
      | Some _ =>
          if decide (p ∈ marked m) then Some ((), m)
          else Some ((), mkMarking (objs m) ({[p]} ∪ marked m) (p :: grayStack m) (grow_gray m))
      end
  end.

Definition markValue (v : GValue) : GM () :=
  match payload v with
  | Object p => markObject (Some p)
  | BigInteger p => markObject (Some p)
  | _ => mret ()
  end ;;
  markObject (gtype v).
Definition markValueCell (c : GCell) : GM () := markValue (gvalue c) ;; markObject (gcellType c).

(** A loop that marks. *)
Fixpoint for_each {A} (mark : A → GM ()) (l : list A) : GM () :=
  match l with [] => mret () | x :: l' => mark x ;; for_each mark l' end.

Definition markDynamicValueArray (a : DynamicGArray) : GM () :=
  for_each markValue (gvalues a) ;; markValue (gstash a).
Definition markDynamicObjArray (a : DynamicObjArray) : GM () :=
  markObject (stash a) ;; for_each markObject (objects_ a).

Definition markTable (t : Table GValue) : GM () :=
  st_assert (tableInvariant t) ;;
  for_each (λ e, match key e with Some k => markObject (Some k) ;; markValue (value e) | None => mret () end) (entries t).
Definition markCellTable (t : Table GCell) : GM () :=
  for_each (λ e, match key e with Some k => markObject (Some k) ;; markValueCell (value e) | None => mret () end) (entries t).

Definition markFunction (fName : option ptr) (constants : DynamicGArray) : GM () :=
  markObject fName ;; markDynamicValueArray constants.
Definition markSyncGroup (channels results : GValue) : GM () := markValue channels ;; markValue results.
Definition markPackedStorage (values : list (option GValue)) : GM () :=
  for_each (λ v, match v with Some v => markValue v | None => mret () end) values.
Definition markScanner (source : option ptr) : GM () := markObject source.
Definition markParser (ast prevExpr scanner context : option ptr) (errors : DynamicObjArray) : GM () :=
  markObject ast ;; markObject prevExpr ;; markObject scanner ;; markObject context ;; markDynamicObjArray errors.
Definition markExpr (nextExpr : option ptr) : GM () := markObject nextExpr.
Definition markStmt (nextStmt : option ptr) : GM () := markObject nextStmt.

Section Mark.
Context `{TG : Target}.

(** [n] values of the buffer from [cursor] on. *)
Fixpoint mark_buffer (n : nat) (c : Channel (V := GValue)) (cursor : Z) : GM () :=
  match n with
  | O => mret ()
  | S n' =>
      v ← (λ m, match buffer c !! Z.to_nat cursor with Some v => Some (v, m) | None => None end);
      markValue v ;; mark_buffer n' c (usize (cursor + 1) mod bufferSize c)
  end.
Definition markChannel (c : Channel (V := GValue)) : GM () :=
  match readCursor c with
  | Some cursor => mark_buffer (Z.to_nat (occupied c)) c cursor
  | None => st_fail
  end.

(** The loop over the open upvalues; [fuel] bounds their number. *)
Fixpoint mark_upvalues (fuel : nat) (upvalue : option ptr) : GM () :=
  match upvalue with
  | None => mret ()
  | Some p =>
      match fuel with
      | O => st_fail
      | S fuel' =>
          markObject (Some p) ;;
          next ← (λ m, match objs m !! p with Some (OBJ_UPVALUE _ _ next) => Some (next, m) | _ => None end);
          mark_upvalues fuel' next
      end
  end.
Definition markRoutine (r : GRoutine) : GM () :=
  for_each markValueCell (g_stack r) ;;
  for_each markObject (g_closures r) ;;
  (λ m, mark_upvalues (S (size (objs m))) (g_openUpvalues r) m) ;;
  markDynamicObjArray (additionalSlicesArray r) ;;
  markDynamicObjArray (g_runtimeErrors r) ;;
  markObject (g_entryFunction r) ;;
  markValue (g_entryArg r) ;;
  markValue (g_result r) ;;
  markValue (g_error r).

Definition blackenObject (object : GObj) : GM () :=
  match object with
  | OBJ_BOUND_METHOD reciever method => markValue reciever ;; markObject method
  | OBJ_CLASS name methods => markObject name ;; markTable methods
  | OBJ_CLOSURE function upvalues => markObject function ;; for_each markObject upvalues
  | OBJ_FUNCTION fName constants => markObject fName ;; markDynamicValueArray constants
  | OBJ_INSTANCE klass fields => markObject klass ;; markTable fields
  | OBJ_UPVALUE _ closed _ => markValueCell closed
  | OBJ_ROUTINE r => markRoutine r
  | OBJ_PACKEDSTORAGE values => markPackedStorage values
  | OBJ_PACKEDCONTAINER storage => markObject storage
  | OBJ_UNOWNED_PACKEDCONTAINER => mret ()
  | OBJ_NATIVE => mret ()
  | OBJ_BUILTIN => mret ()
  | OBJ_CHANNELCONTAINER c => markChannel c
  | OBJ_STRING _ _ => mret ()
  | OBJ_INT => mret ()
  | OBJ_MAP type entries => markObject type ;; markTable entries
  | OBJ_YARGTYPE => mret ()
  | OBJ_YARGTYPE_ARRAY element_type => markObject element_type
  | OBJ_YARGTYPE_STRUCT field_names field_types => markTable field_names ;; for_each markObject field_types
  | OBJ_YARGTYPE_POINTER target_type => markObject target_type
  | OBJ_YARGTYPE_MAP key_type value_type => markObject key_type ;; markObject value_type
  | OBJ_SYNCGROUP channels results => markSyncGroup channels results
  | OBJ_STACKSLICE => mret ()
  | OBJ_AST statements => markObject statements
  | OBJ_PLACEALIAS name location => markObject name ;; markObject location
  | OBJ_STMT_YIELD nextStmt expression | OBJ_STMT_RETURN nextStmt expression | OBJ_STMT_PRINT nextStmt expression
  | OBJ_STMT_ERROR nextStmt expression | OBJ_STMT_EXPRESSION nextStmt expression =>
      markStmt nextStmt ;; markObject expression
  | OBJ_STMT_POKE nextStmt location offset assignment =>
      markStmt nextStmt ;; markObject location ;; markObject offset ;; markObject assignment
  | OBJ_STMT_VARDECLARATION nextStmt name type initialiser =>
      markStmt nextStmt ;; markObject name ;; markObject type ;; markObject initialiser
  | OBJ_STMT_FIELDDECLARATION nextStmt name type offset =>
      markStmt nextStmt ;; markObject name ;; markObject type ;; markObject offset
  | OBJ_STMT_PLACEDECLARATION nextStmt type aliases =>
      markStmt nextStmt ;; markObject type ;; markDynamicObjArray aliases
  | OBJ_STMT_BLOCK nextStmt statements => markObject nextStmt ;; markObject statements
  | OBJ_STMT_IF nextStmt test ifStmt elseStmt =>
      markObject nextStmt ;; markObject test ;; markObject ifStmt ;; markObject elseStmt
  | OBJ_STMT_FUNDECLARATION nextStmt name body parameters =>
      markStmt nextStmt ;; markObject name ;; markObject body ;; markDynamicObjArray parameters
  | OBJ_STMT_WHILE nextStmt test loop => markObject nextStmt ;; markObject test ;; markObject loop
  | OBJ_STMT_FOR nextStmt initializer condition loopExpression body =>
      markObject nextStmt ;; markObject condition ;; markObject initializer ;; markObject loopExpression ;; markObject body
  | OBJ_STMT_CLASSDECLARATION nextStmt name superclass methods =>
      markStmt nextStmt ;; markObject name ;; markObject superclass ;; markDynamicObjArray methods
  | OBJ_EXPR_NUMBER nextExpr => markObject nextExpr
  | OBJ_EXPR_ADDRESS nextExpr => markObject nextExpr
  | OBJ_EXPR_OPERATION nextExpr rhs assignment => markExpr nextExpr ;; markObject rhs ;; markObject assignment
  | OBJ_EXPR_GROUPING nextExpr expression => markObject nextExpr ;; markObject expression
  | OBJ_EXPR_NAMEDVARIABLE nextExpr name assignment => markExpr nextExpr ;; markObject assignment ;; markObject name
  | OBJ_EXPR_LITERAL nextExpr => markObject nextExpr
  | OBJ_EXPR_STRING nextExpr string => markObject nextExpr ;; markObject string
  | OBJ_EXPR_CALL nextExpr arguments => markExpr nextExpr ;; markDynamicObjArray arguments
  | OBJ_EXPR_COLLECTION_INITIALIZER nextExpr initializers cardinality =>
      markExpr nextExpr ;; markDynamicObjArray initializers ;; markObject cardinality
  | OBJ_EXPR_COLLECTION_ELEMENT nextExpr element assignment =>
      markExpr nextExpr ;; markObject element ;; markObject assignment
  | OBJ_EXPR_BUILTIN nextExpr => markExpr nextExpr
  | OBJ_EXPR_DOT nextExpr name offset assignment call =>
      markExpr nextExpr ;; markObject name ;; markObject assignment ;; markObject offset ;; markObject call
  | OBJ_EXPR_SUPER nextExpr name call => markExpr nextExpr ;; markObject name ;; markObject call
  | OBJ_EXPR_TYPE nextExpr => markExpr nextExpr
  | OBJ_EXPR_TYPE_STRUCT nextExpr fieldsByIndex => markExpr nextExpr ;; markDynamicValueArray fieldsByIndex
  | OBJ_EXPR_TYPE_INDEXED_COLLECTION nextExpr indexing => markExpr nextExpr ;; markObject indexing
  | OBJ_EXPR_PAIR nextExpr a b => markExpr nextExpr ;; markObject a ;; markObject b
  | OBJ_SCANNER source => markScanner source
  | OBJ_PARSER ast prevExpr scanner context errors => markParser ast prevExpr scanner context errors
  end.

(** ** The roots *)

(** A compiler on the list of compilers that are at work. *)
Record CompilerRoot := mkCompilerRoot {
  cr_function : option ptr; cr_context : option ptr; cr_recent : option ptr;
  cr_errors : DynamicObjArray; cr_locals : list (option ptr)
}.

(** [core0] and [bootFunction] are objects that are not on the heap. *)
Record Roots := mkRoots {
  root_core0 : ptr;
  root_boot : ptr;
  root_core1 : option ptr;
  root_pinned : list (option ptr);
  root_temp : list GValue;
  root_libraryPath : option ptr;
  root_globals : Table GCell;
  root_initString : option ptr;
  root_compilers : list CompilerRoot
}.

Definition markVMRoots (r : Roots) : GM () :=
  (λ m, match objs m !! root_core0 r with Some (OBJ_ROUTINE c) => markRoutine c m | _ => None end) ;;
  (λ m, match objs m !! root_boot r with Some (OBJ_FUNCTION f cs) => markFunction f cs m | _ => None end) ;;
  markObject (root_core1 r) ;;
  for_each markObject (root_pinned r) ;;
  for_each markValue (root_temp r) ;;
  markObject (root_libraryPath r) ;;
  markCellTable (root_globals r) ;;
  markObject (root_initString r).
Definition markCompilerRoots (r : Roots) : GM () :=
  for_each (λ c,
    markObject (cr_function c) ;; markObject (cr_context c) ;; markObject (cr_recent c) ;;
    markDynamicObjArray (cr_errors c) ;; for_each markObject (cr_locals c)) (root_compilers r).
Definition markRoots (r : Roots) : GM () := markVMRoots r ;; markCompilerRoots r.

(** The loop of [traceReferences]; [fuel] bounds the objects that turn gray. *)
Fixpoint traceReferences (fuel : nat) : GM () := λ m,
  match grayStack m with
  | [] => Some ((), m)
  | p :: gray =>
      match fuel with
      | O => None
      | S fuel' =>
          match objs m !! p with
          | None => None
          | Some o => (blackenObject o ;; traceReferences fuel') (mkMarking (objs m) (marked m) gray (grayCapacity m))
          end
      end
  end.

(** ** The collection *)
Record Memory := mkMemory {
  heap_ : Marking;
  objects : list ptr;              (* [vm.objects] and its successors *)
  interned : Table Value;          (* [vm.strings] *)
  roots : Roots;
  nextGC : Z
}.

(** Strings as the table sees them, with their marks. *)
Definition gc_str (m : Marking) (k : strptr) : ObjString :=
  match objs m !! k with
  | Some (OBJ_STRING chars hash) => mkObjString chars hash (bool_decide (k ∈ marked m))
  | _ => mkObjString [] 0 (bool_decide (k ∈ marked m))
  end.

(** [sweep]: the objects that stay, in order; [freeObject] of the others. *)
Fixpoint sweep (os : list ptr) (m : Marking) : list ptr * Marking :=
  match os with
  | [] => ([], m)
  | p :: os' =>
      if decide (p ∈ marked m) then
        let '(kept, m) := sweep os' (mkMarking (objs m) (marked m ∖ {[p]}) (grayStack m) (grayCapacity m)) in
        (p :: kept, m)
      else sweep os' (mkMarking (delete p (objs m)) (marked m) (grayStack m) (grayCapacity m))
  end.

Definition ALWAYS_GC_ABOVE : Z := 100 * 1024.
Definition GC_HEAP_GROW_FACTOR : Z := 2.

(** [after]: the bytes that are allocated at the end. *)
Definition collectGarbage (after : Z) (g : Memory) : option Memory :=
  '(_, m) ← markRoots (roots g) (heap_ g);
  '(_, m) ← traceReferences (S (size (objs m))) m;
  strings ← tableRemoveWhite (gc_str m) true (interned g);
  let '(kept, m) := sweep (objects g) m in
  let candidateGC := usize (after * GC_HEAP_GROW_FACTOR) in
  Some (mkMemory m kept strings (roots g) (if ALWAYS_GC_ABOVE <? candidateGC then ALWAYS_GC_ABOVE else candidateGC)).

(** [gc_if_needed] *)
Definition gc_if_needed (before after newSize : Z) (g : Memory) : option Memory :=
  if nextGC g <? usize (before + newSize) then collectGarbage after g else Some g.
End Mark.
