(* ===== verification/GcSpec.v ===== *)
(** * What a collection keeps

    Marking is a traversal of the graph of the pointers that objects hold; a
    collection keeps the objects that the roots reach, all of them and no
    other, and leaves no pointer to freed memory among them. *)
From stdpp Require Export relations.
From S2P Require Import YargTypeSpec.
From S2P Require Export Gc.
Open Scope Z_scope.

(** ** The pointers of an object *)
Definition value_ptrs (v : GValue) : list (option ptr) :=
  match payload v with Object p | BigInteger p => [Some p] | _ => [] end ++ [gtype v].
Definition cell_ptrs (c : GCell) : list (option ptr) := value_ptrs (gvalue c) ++ [gcellType c].
Definition values_ptrs (a : DynamicGArray) : list (option ptr) := flat_map value_ptrs (gvalues a) ++ value_ptrs (gstash a).
Definition array_ptrs (a : DynamicObjArray) : list (option ptr) := stash a :: objects_ a.
Definition table_ptrs {V} (ptrs : V → list (option ptr)) (t : Table V) : list (option ptr) :=
  flat_map (λ e, match key e with Some k => Some k :: ptrs (value e) | None => [] end) (entries t).

(** The open upvalues from [cur] on. *)
Fixpoint upvalue_list (fuel : nat) (H : gmap ptr GObj) (cur : option ptr) : option (list ptr) :=
  match cur with
  | None => Some []
  | Some p =>
      match fuel with
      | O => None
      | S fuel' =>
          match H !! p with
          | Some (OBJ_UPVALUE _ _ next) => cons p <$> upvalue_list fuel' H next
          | _ => None
          end
      end
  end.
Definition open_upvalues (H : gmap ptr GObj) (r : GRoutine) : option (list ptr) :=
  upvalue_list (S (size H)) H (g_openUpvalues r).

Section Children.
Context `{TG : Target}.

(** The values that are in a channel. *)
Fixpoint buffer_values (n : nat) (c : Channel (V := GValue)) (cursor : Z) : option (list GValue) :=
  match n with
  | O => Some []
  | S n' => v ← buffer c !! Z.to_nat cursor; cons v <$> buffer_values n' c (usize (cursor + 1) mod bufferSize c)
  end.
Definition channel_values (c : Channel (V := GValue)) : option (list GValue) :=
  cursor ← readCursor c; buffer_values (Z.to_nat (occupied c)) c cursor.

Definition routine_ptrs (H : gmap ptr GObj) (r : GRoutine) : list (option ptr) :=
  flat_map cell_ptrs (g_stack r) ++ g_closures r ++ (Some <$> default [] (open_upvalues H r)) ++
  array_ptrs (additionalSlicesArray r) ++ array_ptrs (g_runtimeErrors r) ++
  [g_entryFunction r] ++ value_ptrs (g_entryArg r) ++ value_ptrs (g_result r) ++ value_ptrs (g_error r).

(** Every pointer of an object to another: but not [contents] of an upvalue,
    which points into a routine or at itself, nor [next], which belongs to the
    list of the routine. *)
Definition children (H : gmap ptr GObj) (o : GObj) : list (option ptr) :=
  match o with
  | OBJ_BOUND_METHOD reciever method => value_ptrs reciever ++ [method]
  | OBJ_CLASS name t => name :: table_ptrs value_ptrs t
  | OBJ_CLOSURE function upvalues => function :: upvalues
  | OBJ_FUNCTION fName cs => fName :: values_ptrs cs
  | OBJ_INSTANCE klass t => klass :: table_ptrs value_ptrs t
  | OBJ_ROUTINE r => routine_ptrs H r
  | OBJ_CHANNELCONTAINER c => flat_map value_ptrs (default [] (channel_values c))
  | OBJ_UPVALUE _ c _ => cell_ptrs c
  | OBJ_PACKEDCONTAINER s => [s]
  | OBJ_PACKEDSTORAGE vs => flat_map (λ v, match v with Some v => value_ptrs v | None => [] end) vs
  | OBJ_YARGTYPE_ARRAY t | OBJ_YARGTYPE_POINTER t => [t]
  | OBJ_YARGTYPE_STRUCT t ts => table_ptrs value_ptrs t ++ ts
  | OBJ_YARGTYPE_MAP k v => [k; v]
  | OBJ_SYNCGROUP a b => value_ptrs a ++ value_ptrs b
  | OBJ_MAP type t => type :: table_ptrs value_ptrs t
  | OBJ_NATIVE | OBJ_BUILTIN | OBJ_STRING _ _ | OBJ_UNOWNED_PACKEDCONTAINER | OBJ_YARGTYPE | OBJ_STACKSLICE | OBJ_INT => []
  | OBJ_AST a | OBJ_SCANNER a => [a]
  | OBJ_PLACEALIAS a b => [a; b]
  | OBJ_PARSER a b c d es => [a; b; c; d] ++ array_ptrs es
  | OBJ_STMT_EXPRESSION n a | OBJ_STMT_PRINT n a | OBJ_STMT_ERROR n a | OBJ_STMT_RETURN n a | OBJ_STMT_YIELD n a
  | OBJ_STMT_BLOCK n a => [n; a]
  | OBJ_STMT_POKE n a b c | OBJ_STMT_VARDECLARATION n a b c | OBJ_STMT_FIELDDECLARATION n a b c
  | OBJ_STMT_IF n a b c => [n; a; b; c]
  | OBJ_STMT_PLACEDECLARATION n a l => [n; a] ++ array_ptrs l
  | OBJ_STMT_FUNDECLARATION n a b l | OBJ_STMT_CLASSDECLARATION n a b l => [n; a; b] ++ array_ptrs l
  | OBJ_STMT_WHILE n a b => [n; a; b]
  | OBJ_STMT_FOR n i c e b => [n; c; i; e; b]
  | OBJ_EXPR_NUMBER n | OBJ_EXPR_ADDRESS n | OBJ_EXPR_LITERAL n | OBJ_EXPR_BUILTIN n | OBJ_EXPR_TYPE n => [n]
  | OBJ_EXPR_OPERATION n a b | OBJ_EXPR_COLLECTION_ELEMENT n a b | OBJ_EXPR_SUPER n a b | OBJ_EXPR_PAIR n a b => [n; a; b]
  | OBJ_EXPR_GROUPING n a | OBJ_EXPR_STRING n a | OBJ_EXPR_TYPE_INDEXED_COLLECTION n a => [n; a]
  | OBJ_EXPR_NAMEDVARIABLE n name a => [n; a; name]
  | OBJ_EXPR_CALL n l => n :: array_ptrs l
  | OBJ_EXPR_COLLECTION_INITIALIZER n l c => [n] ++ array_ptrs l ++ [c]
  | OBJ_EXPR_DOT n name offset assignment call => [n; name; assignment; offset; call]
  | OBJ_EXPR_TYPE_STRUCT n l => n :: values_ptrs l
  end.

(** What the mark functions rely on. *)
Definition wf_obj (H : gmap ptr GObj) (o : GObj) : Prop :=
  match o with
  | OBJ_CLASS _ t | OBJ_INSTANCE _ t | OBJ_MAP _ t | OBJ_YARGTYPE_STRUCT t _ => tableInvariant t = true
  | OBJ_CHANNELCONTAINER c => is_Some (channel_values c)
  | OBJ_ROUTINE r => is_Some (open_upvalues H r)
  | _ => True
  end.

(** ** Marking is a loop over the pointers *)
Section Marks.
Variable H : gmap ptr GObj.

Definition Marks (c : GM ()) (l : list (option ptr)) : Prop := ∀ m, objs m = H → c m = for_each markObject l m.

Lemma markObject_objs o m m' : markObject o m = Some ((), m') → objs m' = objs m.
Proof.
  destruct o as [p|]; simpl; [|by intros [= <-]]. destruct (objs m !! p); [|done].
  destruct (decide (p ∈ marked m)); by intros [= <-].
Qed.
Lemma for_each_objs l : ∀ m m', for_each markObject l m = Some ((), m') → objs m' = objs m.
Proof.
  induction l as [|o l IH]; intros m m'; cbn [for_each]; [by intros [= <-]|].
  unfold mbind, st_bind. destruct (markObject o m) as [[[] m1]|] eqn:E; [|done]. intros E'.
  rewrite (IH _ _ E'). by apply (markObject_objs o).
Qed.
Lemma for_each_app {A} (f : A → GM ()) a b m : for_each f (a ++ b) m = (for_each f a ;; for_each f b) m.
Proof.
  revert m. induction a as [|x a IH]; intros m; [done|]. cbn [app for_each]. unfold mbind, st_bind.
  destruct (f x m) as [[[] m1]|]; [|done]. rewrite IH. done.
Qed.

Lemma marks_ret : Marks (mret ()) [].
Proof. done. Qed.
Lemma marks_object o : Marks (markObject o) [o].
Proof.
  intros m _. cbn [for_each]. unfold mbind, st_bind. by destruct (markObject o m) as [[[] m1]|].
Qed.
Lemma marks_seq c d l l' : Marks c l → Marks d l' → Marks (c ;; d) (l ++ l').
Proof.
  intros Hc Hd m Hm. rewrite for_each_app. unfold mbind, st_bind. rewrite (Hc m Hm).
  destruct (for_each markObject l m) as [[[] m1]|] eqn:E; [|done]. apply Hd. by rewrite (for_each_objs _ _ _ E).
Qed.
Lemma marks_for_each {A} (f : A → GM ()) g l : (∀ x, Marks (f x) (g x)) → Marks (for_each f l) (flat_map g l).
Proof. intros Hf. induction l as [|x l IH]; [apply marks_ret|]. by apply marks_seq. Qed.
Lemma marks_objects l : Marks (for_each markObject l) l.
Proof. by intros m _. Qed.
Lemma marks_assert b c l : b = true → Marks c l → Marks (st_assert b ;; c) l.
Proof. intros -> Hc m Hm. by apply Hc. Qed.
Lemma marks_eq c l l' : Marks c l → l = l' → Marks c l'.
Proof. by intros ? <-. Qed.

(** ** Each mark function *)
Lemma marks_value v : Marks (markValue v) (value_ptrs v).
Proof.
  unfold markValue, value_ptrs. apply marks_seq; [|apply marks_object].
  destruct (payload v); (apply marks_object || apply marks_ret).
Qed.
Lemma marks_cell c : Marks (markValueCell c) (cell_ptrs c).
Proof. apply marks_seq; [apply marks_value|apply marks_object]. Qed.
Lemma marks_values a : Marks (markDynamicValueArray a) (values_ptrs a).
Proof. apply marks_seq; [apply marks_for_each, marks_value|apply marks_value]. Qed.
Lemma marks_array a : Marks (markDynamicObjArray a) (array_ptrs a).
Proof. apply (marks_seq _ _ [stash a]); [apply marks_object|apply marks_objects]. Qed.
Lemma marks_table t : tableInvariant t = true → Marks (markTable t) (table_ptrs value_ptrs t).
Proof.
  intros Ht. apply marks_assert; [done|]. apply marks_for_each. intros e.
  destruct (key e) as [k|]; [|apply marks_ret]. apply (marks_seq _ _ [Some k]); [apply marks_object|apply marks_value].
Qed.
Lemma marks_cell_table t : Marks (markCellTable t) (table_ptrs cell_ptrs t).
Proof.
  apply marks_for_each. intros e.
  destruct (key e) as [k|]; [|apply marks_ret]. apply (marks_seq _ _ [Some k]); [apply marks_object|apply marks_cell].
Qed.
Lemma marks_storage vs : Marks (markPackedStorage vs) (flat_map (λ v, match v with Some v => value_ptrs v | None => [] end) vs).
Proof. apply marks_for_each. intros [v|]; [apply marks_value|apply marks_ret]. Qed.

Lemma marks_buffer n c : ∀ cursor vs, buffer_values n c cursor = Some vs → Marks (mark_buffer n c cursor) (flat_map value_ptrs vs).
Proof.
  induction n as [|n IH]; intros cursor vs; cbn [buffer_values mark_buffer]; [intros [= <-]; apply marks_ret|].
  destruct (buffer c !! Z.to_nat cursor) as [v|] eqn:E; cbn [mbind option_bind]; [|done].
  destruct (buffer_values n c (usize (cursor + 1) mod bufferSize c)) as [vs'|] eqn:E'; [|done]. intros [= <-].
  intros m Hm. rewrite (st_bind_run _ _ m v m) by done. by apply (marks_seq _ _ _ _ (marks_value v) (IH _ _ E')).
Qed.
Lemma marks_channel c : is_Some (channel_values c) → Marks (markChannel c) (flat_map value_ptrs (default [] (channel_values c))).
Proof.
  unfold channel_values, markChannel. destruct (readCursor c) as [cursor|]; cbn [mbind option_bind]; [|by intros [? ?]].
  intros [vs E]. rewrite E. by apply marks_buffer.
Qed.

Lemma marks_upvalues fuel : ∀ cur l, upvalue_list fuel H cur = Some l → Marks (mark_upvalues fuel cur) (Some <$> l).
Proof.
  induction fuel as [|fuel IH]; intros [p|] l; simpl; try done; try (intros [= <-]; apply marks_ret).
  destruct (H !! p) as [[]|] eqn:Ep; try done. destruct (upvalue_list fuel H next) as [l'|] eqn:E; [|done]. intros [= <-].
  apply (marks_seq _ _ [Some p]); [exact (marks_object (Some p))|]. intros m Hm.
  rewrite (st_bind_run _ _ m next m); [by apply IH|]. by rewrite Hm, Ep.
Qed.
Lemma marks_routine r : is_Some (open_upvalues H r) → Marks (markRoutine r) (routine_ptrs H r).
Proof.
  intros [l E]. unfold markRoutine, routine_ptrs. rewrite E. cbn [default].
  apply marks_seq; [apply marks_for_each, marks_cell|]. apply marks_seq; [apply marks_objects|].
  apply marks_seq; [intros m Hm; rewrite Hm; by apply marks_upvalues|].
  repeat (apply marks_seq; [first [apply marks_array|apply marks_object|apply marks_value]|]). apply marks_value.
Qed.

Create HintDb marks.
Hint Resolve marks_ret marks_object marks_seq marks_value marks_cell marks_values marks_array marks_table marks_storage
  marks_channel marks_routine marks_objects : marks.

Lemma marks_blacken o : wf_obj H o → Marks (blackenObject o) (children H o).
Proof.
  intros Hw. destruct o; simpl in Hw; cbn [blackenObject children];
    unfold markStmt, markExpr, markScanner, markParser, markSyncGroup; (eapply marks_eq; [eauto 7 with marks|]);
    cbn [app]; rewrite ?app_nil_r; reflexivity.
Qed.
End Marks.
End Children.

(** ** The traversal *)
Section Trace.
Context `{TG : Target}.
Variable H : gmap ptr GObj.

(** [p] holds a pointer to [q]. *)
Definition edge (p q : ptr) : Prop := ∃ o, H !! p = Some o ∧ Some q ∈ children H o.

(** No object holds a pointer to freed memory. *)
Definition closed_heap : Prop := ∀ p o, H !! p = Some o → wf_obj H o ∧ ∀ q, Some q ∈ children H o → is_Some (H !! q).

Definition unmarked (m : Marking) : gset ptr := dom H ∖ marked m.

(** What marking the pointers [l] does. *)
Record marks_done (l : list (option ptr)) (m m' : Marking) : Prop := {
  md_objs : objs m' = objs m;
  md_marked : ∀ p, p ∈ marked m' ↔ p ∈ marked m ∨ Some p ∈ l;
  md_gray : ∃ new, grayStack m' = new ++ grayStack m ∧ NoDup new ∧
    (∀ p, p ∈ new ↔ Some p ∈ l ∧ p ∉ marked m) ∧ (length new + size (unmarked m') = size (unmarked m))%nat
}.

Lemma unmarked_push m p : p ∈ dom H → p ∉ marked m → 
  (1 + size (dom H ∖ ({[p]} ∪ marked m)) = size (unmarked m))%nat.
Proof.
  intros Hp Hm. unfold unmarked. rewrite <-(size_singleton (C := gset ptr) p), <-size_union by set_solver.
  f_equal. apply set_eq. intros x. destruct (decide (x = p)); set_solver.
Qed.

Lemma for_each_run l : ∀ m, objs m = H → (∀ p, Some p ∈ l → is_Some (H !! p)) →
  ∃ m', for_each markObject l m = Some ((), m') ∧ marks_done l m m'.
Proof.
  induction l as [|o l IH]; intros m Hm Hl.
  { exists m. split; [done|]. split; [done| |].
    - intros p. split; [by left|]. intros [?|Hin]; [done|by apply list.not_elem_of_nil in Hin].
    - exists []. split; [done|]. split; [constructor|]. split; [|done]. intros p. split; intros Hin.
      + by apply list.not_elem_of_nil in Hin.
      + destruct Hin as [Hin _]. by apply list.not_elem_of_nil in Hin. }
  assert (∀ p, Some p ∈ l → is_Some (H !! p)) as Hl' by (intros p Hp; apply Hl; by right).
  cbn [for_each]. destruct o as [p|].
  2:{ rewrite (st_bind_run _ _ m () m) by done. destruct (IH m Hm Hl') as (m' & E & [D1 D2 (new & D3 & D4 & D5 & D6)]).
    exists m'. split; [done|].
    assert (∀ q, Some q ∈ None :: l ↔ Some q ∈ l) as Hin by (intros q; rewrite list.elem_of_cons; naive_solver).
    split; [done|intros q; by rewrite Hin|]. exists new. split; [done|]. split; [done|]. split; [intros q; by rewrite Hin|done]. }
  destruct (Hl p) as [o Ho]; [by left|].
  assert (∀ q, Some q ∈ Some p :: l ↔ q = p ∨ Some q ∈ l) as Hin by (intros q; rewrite list.elem_of_cons; naive_solver).
  destruct (decide (p ∈ marked m)) as [Hp|Hp].
  - rewrite (st_bind_run _ _ m () m); [|by simpl; rewrite Hm, Ho, decide_True].
    destruct (IH m Hm Hl') as (m' & E & [D1 D2 (new & D3 & D4 & D5 & D6)]). exists m'. split; [done|].
    split; [done| |].
    + intros q. rewrite Hin, D2. naive_solver.
    + exists new. split; [done|]. split; [done|]. split; [|done]. intros q. rewrite Hin, D5. naive_solver.
  - set (m1 := mkMarking H ({[p]} ∪ marked m) (p :: grayStack m) (grow_gray m)).
    rewrite (st_bind_run _ _ m () m1); [|by simpl; rewrite Hm, Ho, decide_False].
    destruct (IH m1 eq_refl Hl') as (m' & E & [D1 D2 (new & D3 & D4 & D5 & D6)]). exists m'. split; [done|].
    simpl in D1, D2, D3, D5. split; [congruence| |].
    + intros q. rewrite Hin, D2. set_solver.
    + exists (new ++ [p]). split; [by rewrite D3, <-app_assoc|]. split; [|split].
      * apply list.NoDup_app. split; [done|]. split; [|apply NoDup_singleton]. intros q Hq%D5. rewrite list_elem_of_singleton. set_solver.
      * intros q. rewrite list.elem_of_app, list_elem_of_singleton, D5, Hin. destruct (decide (q = p)); set_solver.
      * rewrite length_app. simpl. pose proof (unmarked_push m p) as Hu. unfold unmarked at 1 in D6. simpl in D6.
        rewrite <-Hu by (done || by apply elem_of_dom_2 in Ho). unfold unmarked in *. simpl in *. lia.
Qed.

(** The invariant of the traversal from the pointers [start]; the objects of
    [permanent] were marked before. *)
Record traversal (permanent : gset ptr) (start : list (option ptr)) (m : Marking) : Prop := {
  tr_objs : objs m = H;
  tr_dom : ∀ p, p ∈ marked m → is_Some (H !! p);
  tr_start : (∀ p, Some p ∈ start → p ∈ marked m) ∧ permanent ⊆ marked m;
  tr_gray : NoDup (grayStack m) ∧ ∀ p, p ∈ grayStack m → p ∈ marked m ∧ p ∉ permanent;
  tr_black : ∀ p q, p ∈ marked m → p ∉ permanent → p ∉ grayStack m → edge p q → q ∈ marked m;
  tr_reach : ∀ p, p ∈ marked m → p ∈ permanent ∨ ∃ r, Some r ∈ start ∧ rtc edge r p
}.

Lemma traceReferences_run permanent start : closed_heap → ∀ fuel m, 
  traversal permanent start m → (length (grayStack m) + size (unmarked m) ≤ fuel)%nat →
  ∃ m', traceReferences fuel m = Some ((), m') ∧ traversal permanent start m' ∧ grayStack m' = [].
Proof.
  intros HC fuel. induction fuel as [|fuel IH]; intros m HT Hf; simpl;
    (destruct (grayStack m) as [|p gray] eqn:Eg; [by exists m|]); simpl in Hf; [lia|].
  destruct HT as [T1 T2 [T3 T3'] [T4 T4'] T5 T6]. rewrite Eg in T4, T4', T5. apply list.NoDup_cons in T4 as [Hpg T4].
  destruct (T4' p) as [Hp Hpp]; [by left|].
  destruct (T2 p Hp) as [o Ho]. rewrite T1, Ho. destruct (HC p o Ho) as [Hw Hch].
  set (m0 := mkMarking H (marked m) gray (grayCapacity m)).
  destruct (for_each_run (children H o) m0 eq_refl Hch) as (m1 & E & [D1 D2 (new & D3 & D4 & D5 & D6)]).
  rewrite <-(marks_blacken H o Hw m0 eq_refl) in E. rewrite (st_bind_run _ _ _ _ _ E).
  simpl in D1, D2, D3, D5. change (unmarked m0) with (unmarked m) in D6.
  apply IH; [|rewrite D3, length_app; lia]. split.
  - done.
  - intros q [?|Hq]%D2; [by apply T2|by apply Hch].
  - split; [intros q Hq; apply D2; left; by apply T3|]. intros q Hq. apply D2. left. by apply T3'.
  - rewrite D3. split.
    + apply list.NoDup_app. split; [done|]. split; [|done]. intros q Hq Hq'. apply D5 in Hq as [_ Hq].
      apply Hq, T4'. by right.
    + intros q [Hq|Hq]%list.elem_of_app.
      * apply D5 in Hq as [Hq Hm]. split; [apply D2; by right|]. intros Hqp. by apply Hm, T3'.
      * destruct (T4' q) as [Hm Hqp]; [by right|]. split; [apply D2; by left|done].
  - intros q x Hq Hnp Hng Hx. rewrite D3, list.elem_of_app in Hng. apply D2.
    destruct (decide (q = p)) as [->|Hqp].
    { right. destruct Hx as (o' & Ho' & Hin). rewrite Ho in Ho'. by injection Ho' as <-. }
    apply D2 in Hq as [Hq|Hq].
    + left. apply (T5 q); [done|done| |done]. intros [->|?]%list.elem_of_cons; [done|]. apply Hng. by right.
    + destruct (decide (q ∈ marked m)) as [Hm|Hm].
      * left. apply (T5 q); [done|done| |done]. intros [->|?]%list.elem_of_cons; [done|]. apply Hng. by right.
      * destruct Hng. left. by apply D5.
  - intros q [Hq|Hq]%D2; [by apply T6|]. destruct (decide (q ∈ permanent)) as [|Hnp]; [by left|].
    destruct (T6 p Hp) as [|(r & Hr & Hrp)]; [done|].
    right. exists r. split; [done|]. eapply rtc_r; [done|]. by exists o.
Qed.
End Trace.

(** ** The roots *)
Section Collection.
Context `{TG : Target}.

Definition compiler_ptrs (c : CompilerRoot) : list (option ptr) :=
  [cr_function c; cr_context c; cr_recent c] ++ array_ptrs (cr_errors c) ++ cr_locals c.
Definition object_ptrs (H : gmap ptr GObj) (p : ptr) : list (option ptr) :=
  match H !! p with Some o => children H o | None => [] end.
Definition root_ptrs (H : gmap ptr GObj) (r : Roots) : list (option ptr) :=
  (object_ptrs H (root_core0 r) ++ object_ptrs H (root_boot r) ++ [root_core1 r] ++ root_pinned r ++
   flat_map value_ptrs (root_temp r) ++ [root_libraryPath r] ++ table_ptrs cell_ptrs (root_globals r) ++
   [root_initString r]) ++
  flat_map compiler_ptrs (root_compilers r).

(** The two objects that are not on the heap. *)
Definition boot_ok (H : gmap ptr GObj) (r : Roots) : Prop :=
  (∃ c, H !! root_core0 r = Some (OBJ_ROUTINE c) ∧ is_Some (open_upvalues H c)) ∧
  ∃ f cs, H !! root_boot r = Some (OBJ_FUNCTION f cs).

Lemma marks_roots H r : boot_ok H r → Marks H (markRoots r) (root_ptrs H r).
Proof.
  intros [(c & Hc & Hw) (f & cs & Hf)]. apply marks_seq.
  - unfold object_ptrs. rewrite Hc, Hf. unfold markVMRoots.
    apply marks_seq; [intros m Hm; rewrite Hm, Hc; by apply marks_routine|].
    apply marks_seq; [intros m Hm; rewrite Hm, Hf; apply (marks_seq H _ _ [f]); [apply marks_object|apply marks_values|done]|].
    apply marks_seq; [apply marks_object|]. apply marks_seq; [apply marks_objects|].
    apply marks_seq; [apply marks_for_each, marks_value|]. apply marks_seq; [apply marks_object|].
    apply marks_seq; [apply marks_cell_table|apply marks_object].
  - apply marks_for_each. intros d. unfold compiler_ptrs.
    change ([cr_function d; cr_context d; cr_recent d] ++ array_ptrs (cr_errors d) ++ cr_locals d)
      with ([cr_function d] ++ [cr_context d] ++ [cr_recent d] ++ array_ptrs (cr_errors d) ++ cr_locals d).
    do 3 (apply marks_seq; [apply marks_object|]). apply marks_seq; [apply marks_array|apply marks_objects].
Qed.

(** ** The memory *)

(** A pointer from which the roots lead to [p]. *)
Definition reachable (g : Memory) (p : ptr) : Prop :=
  ∃ r, Some r ∈ root_ptrs (objs (heap_ g)) (roots g) ∧ rtc (edge (objs (heap_ g))) r p.

(** Between two collections: no pointer leads to freed memory, no object of
    the heap is marked, the objects that are not on the heap are the two of
    the machine and marked types without pointers, and interned strings are
    objects of the heap. *)
Record wf_memory (g : Memory) : Prop := {
  wm_closed : closed_heap (objs (heap_ g));
  wm_boot : boot_ok (objs (heap_ g)) (roots g);
  wm_roots : ∀ p, Some p ∈ root_ptrs (objs (heap_ g)) (roots g) → is_Some (objs (heap_ g) !! p);
  wm_objects : NoDup (objects g) ∧ ∀ p, p ∈ objects g → is_Some (objs (heap_ g) !! p) ∧ p ∉ marked (heap_ g) ∧
    p ≠ root_core0 (roots g) ∧ p ≠ root_boot (roots g);
  wm_static : ∀ p, p ∈ marked (heap_ g) → is_Some (objs (heap_ g) !! p) ∧
    (p = root_core0 (roots g) ∨ p = root_boot (roots g) ∨ object_ptrs (objs (heap_ g)) p = []);
  wm_all : ∀ p, is_Some (objs (heap_ g) !! p) →
    p ∈ objects g ∨ p ∈ marked (heap_ g) ∨ p = root_core0 (roots g) ∨ p = root_boot (roots g);
  wm_gray : grayStack (heap_ g) = [];
  wm_strings : wf_table (gc_str (heap_ g)) (interned g) ∧
    ∀ k, is_Some (map_of (interned g) !! k) → k ∈ objects g ∧ ∃ cs h, objs (heap_ g) !! k = Some (OBJ_STRING cs h);
  wm_hash : ∀ k cs h, objs (heap_ g) !! k = Some (OBJ_STRING cs h) → 0 ≤ h < 2 ^ 32
}.

(** The marks that a collection starts with, and what it marks. *)
Lemma mark_run g : wf_memory g →
  ∃ m m', markRoots (roots g) (heap_ g) = Some ((), m) ∧ traceReferences (S (size (objs m))) m = Some ((), m') ∧
    objs m' = objs (heap_ g) ∧ grayStack m' = [] ∧ marked (heap_ g) ⊆ marked m' ∧
    (∀ p, p ∈ marked m' → is_Some (objs (heap_ g) !! p)) ∧
    ∀ p, p ∉ marked (heap_ g) → p ∈ marked m' ↔ reachable g p.
Proof.
  intros [W1 W2 W3 W4 W5 _ W6 W7 W8]. set (H := objs (heap_ g)) in *.
  destruct (for_each_run H (root_ptrs H (roots g)) (heap_ g) eq_refl W3) as (m & E & [D1 D2 (new & D3 & D4 & D5 & D6)]).
  rewrite <-(marks_roots H (roots g) W2 (heap_ g) eq_refl) in E. rewrite W6, app_nil_r in D3. fold H in D1.
  assert (traversal H (marked (heap_ g)) (root_ptrs H (roots g)) m) as HT.
  { split; [done| | | | |].
    - intros p [Hp|Hp]%D2; [by apply W5|by apply W3].
    - split; [intros p Hp; apply D2; by right|]. intros p Hp. apply D2. by left.
    - rewrite D3. split; [done|]. intros p Hp. apply D5 in Hp as [Hp Hn]. split; [apply D2; by right|done].
    - intros p q Hp Hn Hg _. apply D2 in Hp as [?|Hp]; [done|]. destruct Hg. rewrite D3. by apply D5.
    - intros p [Hp|Hp]%D2; [by left|right; by exists p]. }
  destruct (traceReferences_run H (marked (heap_ g)) (root_ptrs H (roots g)) W1 (S (size H)) m HT) as (m' & E' & [T1 T2 [T3 T3'] _ T5 T6] & Eg).
  { rewrite D3. pose proof (subseteq_size (unmarked H (heap_ g)) (dom H)) as Hs. rewrite <-size_dom.
    assert (unmarked H (heap_ g) ⊆ dom H) as Hsub by (unfold unmarked; set_solver). specialize (Hs Hsub). lia. }
  exists m, m'. split; [done|]. split; [by rewrite D1|]. split; [done|]. split; [done|]. split; [done|]. split; [done|].
  intros p Hp. split; [intros Hm; by destruct (T6 p Hm)|]. intros (r & Hr & Hrp). fold H in Hr, Hrp.
  assert (r ∈ marked m') as Hrm by by apply T3. clear Hr Hp.
  induction Hrp as [x|x y z Hxy Hyz IH]; [done|]. apply IH.
  destruct (decide (x ∈ marked (heap_ g))) as [Hx|Hx]; [|apply (T5 x y); [done|done|by rewrite Eg; apply list.not_elem_of_nil|done]].
  destruct Hxy as (o & Ho & Hin). destruct (W5 x Hx) as [_ Hst]. unfold object_ptrs in Hst.
  apply T3. unfold root_ptrs, object_ptrs. rewrite !list.elem_of_app. destruct Hst as [->|[->|Hst]].
  - left. left. by rewrite Ho.
  - left. right. left. by rewrite Ho.
  - rewrite Ho in Hst. rewrite Hst in Hin. by apply list.not_elem_of_nil in Hin.
Qed.

Lemma gc_sweep_run os : ∀ m, NoDup os →
  ∃ kept m', sweep os m = (kept, m') ∧ kept `sublist_of` os ∧ (∀ p, p ∈ kept ↔ p ∈ os ∧ p ∈ marked m) ∧
    (∀ p, objs m' !! p = if decide (p ∈ os ∧ p ∉ marked m) then None else objs m !! p) ∧
    (∀ p, p ∈ marked m' ↔ p ∈ marked m ∧ p ∉ os) ∧ grayStack m' = grayStack m.
Proof.
  induction os as [|p os IH]; intros m Hnd; cbn [sweep].
  - exists [], m. split; [done|]. split; [constructor|]. split; [|split; [|split; [|done]]].
    + intros q. split; [intros Hq; by apply list.not_elem_of_nil in Hq|intros [Hq _]; by apply list.not_elem_of_nil in Hq].
    + intros q. rewrite decide_False; [done|]. intros [Hq _]. by apply list.not_elem_of_nil in Hq.
    + intros q. split; [intros Hq; split; [done|apply list.not_elem_of_nil]|by intros [? _]].
  - apply list.NoDup_cons in Hnd as [Hp Hnd]. destruct (decide (p ∈ marked m)) as [Hm|Hm].
    + destruct (IH (mkMarking (objs m) (marked m ∖ {[p]}) (grayStack m) (grayCapacity m)) Hnd) as (kept & m' & -> & S1 & S2 & S3 & S4 & S5).
      cbn [objs marked grayStack] in *. exists (p :: kept), m'. split; [done|]. split; [by constructor|]. split; [|split; [|split; [|done]]].
      * intros q. rewrite !list.elem_of_cons, S2. destruct (decide (q = p)) as [->|]; set_solver.
      * intros q. rewrite S3. destruct (decide (q = p)) as [->|Hq].
        { rewrite !decide_False; [done| |]; [intros [_ Hn]; by apply Hn|intros [Hin _]; by apply Hp]. }
        apply decide_ext. rewrite list.elem_of_cons. set_solver.
      * intros q. rewrite S4, list.elem_of_cons. set_solver.
    + destruct (IH (mkMarking (delete p (objs m)) (marked m) (grayStack m) (grayCapacity m)) Hnd) as (kept & m' & -> & S1 & S2 & S3 & S4 & S5).
      cbn [objs marked grayStack] in *. exists kept, m'. split; [done|]. split; [by constructor|]. split; [|split; [|split; [|done]]].
      * intros q. rewrite list.elem_of_cons, S2. destruct (decide (q = p)) as [->|]; set_solver.
      * intros q. rewrite S3. destruct (decide (q = p)) as [->|Hq].
        { rewrite decide_False by (intros [Hin _]; by apply Hp). rewrite lookup_delete_eq, decide_True; [done|].
          split; [by left|done]. }
        rewrite lookup_delete_ne by done. apply decide_ext. rewrite list.elem_of_cons. set_solver.
      * intros q. rewrite S4, list.elem_of_cons. destruct (decide (q = p)) as [->|]; set_solver.
Qed.
End Collection.

(** ** Open upvalues do not run in circles *)
Section Upvalues.
Lemma upvalue_list_det f : ∀ f' H cur l l',
  upvalue_list f H cur = Some l → upvalue_list f' H cur = Some l' → l = l'.
Proof.
  induction f as [|f IH]; intros f' H [p|] l l'; destruct f' as [|f']; simpl; try congruence.
  destruct (H !! p) as [[]|]; try done. destruct (upvalue_list f H next) eqn:E1; [|done].
  destruct (upvalue_list f' H next) eqn:E2; [|done]. intros [= <-] [= <-]. f_equal. by eapply IH.
Qed.
Lemma upvalue_list_suffix f : ∀ H cur l q, upvalue_list f H cur = Some l → q ∈ l →
  ∃ f' l', upvalue_list f' H (Some q) = Some (q :: l') ∧ (S (length l') ≤ length l)%nat.
Proof.
  induction f as [|f IH]; intros H [p|] l q; simpl; try done;
    try (by intros [= <-] Hq; apply list.not_elem_of_nil in Hq).
  destruct (H !! p) as [[]|] eqn:Ep; try done. destruct (upvalue_list f H next) as [l0|] eqn:E; [|done].
  intros [= <-] [->|Hq]%list.elem_of_cons.
  - exists (S f), l0. simpl. by rewrite Ep, E.
  - destruct (IH H next l0 q E Hq) as (f' & l' & E' & Hl). exists f', l'. split; [done|]. simpl. lia.
Qed.
Lemma upvalue_list_nodup f : ∀ H cur l, upvalue_list f H cur = Some l → NoDup l.
Proof.
  induction f as [|f IH]; intros H [p|] l E; pose proof E as E0; simpl in E; try done; try (injection E as <-; constructor).
  destruct (H !! p) as [[]|] eqn:Ep; try done. destruct (upvalue_list f H next) as [l0|] eqn:E1; [|done].
  injection E as <-. apply base.NoDup_cons_2; [|by eapply IH]. intros Hin.
  destruct (upvalue_list_suffix f H next l0 p E1 Hin) as (f' & l' & E' & Hl).
  pose proof (upvalue_list_det _ _ _ _ _ _ E0 E') as [= ->]. lia.
Qed.

(** The list is the same in any memory that has its upvalues. *)
Lemma upvalue_list_same f : ∀ f' H H' cur l, upvalue_list f H cur = Some l → (∀ p, p ∈ l → H' !! p = H !! p) →
  (length l < f')%nat → upvalue_list f' H' cur = Some l.
Proof.
  induction f as [|f IH]; intros f' H H' [p|] l E Hl Hf; simpl in E; try done;
    try (injection E as <-; by destruct f').
  destruct (H !! p) as [[]|] eqn:Ep; try done. destruct (upvalue_list f H next) as [l0|] eqn:E1; [|done].
  injection E as <-. destruct f' as [|f']; simpl in Hf; [lia|]. simpl. rewrite Hl, Ep by by left.
  rewrite (IH f' H H' next l0 E1); [done| |lia]. intros q Hq. apply Hl. by right.
Qed.
Lemma open_upvalues_same H H' r l : open_upvalues H r = Some l → (∀ p, p ∈ l → is_Some (H' !! p)) →
  (∀ p, p ∈ l → H' !! p = H !! p) → open_upvalues H' r = Some l.
Proof.
  intros E Hd Hs. unfold open_upvalues. eapply upvalue_list_same; [done..|].
  apply Nat.lt_succ_r. rewrite <-size_dom. rewrite <-(size_list_to_set (C := gset ptr) l); [|by eapply upvalue_list_nodup].
  apply subseteq_size. intros p Hp%elem_of_list_to_set. apply elem_of_dom. by apply Hd.
Qed.
End Upvalues.

(** ** What a collection leaves *)
Section Collect.
Context `{TG : Target}.

(** An object whose pointers still lead to the same objects has the same
    pointers. *)
Lemma children_same H H' o : wf_obj H o →
  (∀ q, Some q ∈ children H o → is_Some (H' !! q) ∧ H' !! q = H !! q) → children H' o = children H o ∧ wf_obj H' o.
Proof.
  intros Hw Hc. destruct o; try by split. simpl in *. destruct Hw as [l E].
  assert (∀ q, q ∈ l → is_Some (H' !! q) ∧ H' !! q = H !! q) as Hl.
  { intros q Hq. apply Hc. unfold routine_ptrs. rewrite E. cbn [default]. rewrite !list.elem_of_app. right. right. left.
    by apply list_elem_of_fmap_2. }
  assert (open_upvalues H' r = Some l) as E'.
  { apply (open_upvalues_same H); [done| |]; intros q Hq; by apply Hl. }
  split; [by unfold routine_ptrs; rewrite E, E'|by exists l].
Qed.

(** The result of a collection. *)
Record collected (g g' : Memory) : Prop := {
  co_sublist : objects g' `sublist_of` objects g;
  co_objects : ∀ p, p ∈ objects g' ↔ p ∈ objects g ∧ reachable g p;
  co_objs : ∀ p, p ∈ objects g' ∨ p ∉ objects g → objs (heap_ g') !! p = objs (heap_ g) !! p;
  co_freed : ∀ p, p ∈ objects g → p ∉ objects g' → objs (heap_ g') !! p = None;
  co_marked : ∀ p, p ∈ marked (heap_ g') ↔ p ∉ objects g ∧ (p ∈ marked (heap_ g) ∨ reachable g p);
  co_gray : grayStack (heap_ g') = [];
  co_roots : roots g' = roots g;
  co_interned : map_of (interned g') = filter (λ kv, kv.1 ∈ objects g') (map_of (interned g));
  co_table : wf_table (gc_str (heap_ g)) (interned g')
}.

Lemma gc_str_hash m m' k : objs m' !! k = objs m !! k → hash (gc_str m' k) = hash (gc_str m k).
Proof. unfold gc_str. intros ->. by destruct (objs m !! k) as [[]|]. Qed.

Lemma gc_collect_run after g : wf_memory g → ∃ g', collectGarbage after g = Some g' ∧ collected g g' ∧
  nextGC g' = Z.min ALWAYS_GC_ABOVE (usize (after * GC_HEAP_GROW_FACTOR)).
Proof.
  intros W. destruct (mark_run g W) as (m & m' & E1 & E2 & M1 & M2 & M3 & M4 & M5).
  destruct W as [W1 W2 W3 [W4 W4'] W5 Wall W6 [W7 W7'] W8].
  assert (wf_table (gc_str m') (interned g)) as Wt.
  { apply (wf_table_ext (gc_str (heap_ g))); [|done]. intros k _. apply gc_str_hash. by rewrite M1. }
  destruct (tableRemoveWhite_run (gc_str m') true (interned g)) as (t & E3 & T1 & T2).
  { intros k. unfold gc_str. rewrite M1. destruct (objs (heap_ g) !! k) as [[]|] eqn:E; simpl; try lia. by eapply W8. }
  { done. }
  destruct (gc_sweep_run (objects g) m' W4) as (kept & m2 & E4 & S1 & S2 & S3 & S4 & S5).
  unfold collectGarbage. rewrite E1. cbn [mbind option_bind]. rewrite E2. cbn [mbind option_bind]. rewrite E3.
  cbn [mbind option_bind]. rewrite E4. cbv zeta. eexists. split; [reflexivity|].
  assert (∀ p, p ∈ objects g → p ∈ marked m' ↔ reachable g p) as Hm by (intros p Hp; apply M5; by apply W4').
  split; [|simpl; destruct (Z.ltb_spec ALWAYS_GC_ABOVE (usize (after * GC_HEAP_GROW_FACTOR))); lia].
  split; cbn [objects heap_ roots interned].
  - done.
  - intros p. rewrite S2. split; (intros [Hp Hr]; split; [done|by apply Hm]).
  - intros p Hp. rewrite S3, M1. apply decide_False. rewrite S2 in Hp. tauto.
  - intros p Hp Hn. rewrite S3. apply decide_True. rewrite S2 in Hn. tauto.
  - intros p. rewrite S4. split.
    + intros [Hp Hn]. split; [done|]. destruct (decide (p ∈ marked (heap_ g))); [by left|right; by apply M5].
    + intros [Hn [Hp|Hp]]; split; [by apply M3|done| |done].
      destruct (decide (p ∈ marked (heap_ g))); [by apply M3|by apply M5].
  - by rewrite S5.
  - done.
  - rewrite T2. apply map_filter_ext. intros k v Hk. simpl.
    assert (isMarked (gc_str m' k) ↔ k ∈ marked m') as Hi.
    { unfold gc_str. destruct (objs m' !! k) as [[]|]; simpl; by rewrite bool_decide_spec. }
    rewrite Hi, S2. destruct (W7' k) as [Hin _]; [by exists v|]. tauto.
  - apply (wf_table_ext (gc_str m')); [|done]. intros k _. apply gc_str_hash. by rewrite M1.
Qed.

(** What survives holds pointers to what survives. *)
Lemma survives g g' p q : wf_memory g → collected g g' → is_Some (objs (heap_ g') !! p) → edge (objs (heap_ g)) p q →
  is_Some (objs (heap_ g') !! q) ∧ objs (heap_ g') !! q = objs (heap_ g) !! q.
Proof.
  intros [W1 W2 W3 W4 W5 Wall W6 W7 W8] [C1 C2 C3 C4 C5 C6 C7 C8 C9] Hp (o & Ho & Hq).
  assert (objs (heap_ g') !! q = objs (heap_ g) !! q) as Eq.
  { apply C3. destruct (decide (q ∈ objects g)) as [Hin|]; [|by right]. left. apply C2. split; [done|].
    destruct (decide (p ∈ objects g)) as [Hpo|Hpo].
    - destruct (decide (p ∈ objects g')) as [Hp'|Hp']; [|rewrite (C4 p Hpo Hp') in Hp; by destruct Hp].
      apply C2 in Hp' as [_ (r & Hr & Hrp)]. exists r. split; [done|]. eapply rtc_r; [done|]. by exists o.
    - exists q. split; [|reflexivity]. unfold root_ptrs, object_ptrs. rewrite !list.elem_of_app.
      assert (p = root_core0 (roots g) ∨ p = root_boot (roots g)) as Hb.
      { destruct (Wall p) as [?|[Hm|Hb]]; [by exists o|done| |done]. destruct (W5 p Hm) as [_ [?|[?|He]]]; [by left|by right|].
        unfold object_ptrs in He. rewrite Ho in He. rewrite He in Hq. by apply list.not_elem_of_nil in Hq. }
      destruct Hb as [->| ->]; rewrite Ho; tauto. }
  split; [|done]. rewrite Eq. destruct (W1 p o Ho) as [_ Hch]. by apply Hch.
Qed.

Lemma object_survives g g' p o : wf_memory g → collected g g' → objs (heap_ g') !! p = Some o →
  objs (heap_ g) !! p = Some o ∧ children (objs (heap_ g')) o = children (objs (heap_ g)) o ∧ wf_obj (objs (heap_ g')) o.
Proof.
  intros W C Ho. assert (objs (heap_ g) !! p = Some o) as Ho'.
  { rewrite <-Ho. symmetry. apply (co_objs g g' C). destruct (decide (p ∈ objects g)) as [Hp|]; [|by right].
    left. destruct (decide (p ∈ objects g')) as [|Hn]; [done|]. rewrite (co_freed g g' C p Hp Hn) in Ho. done. }
  split; [done|]. apply children_same.
  - by apply (wm_closed g W p).
  - intros q Hq. apply (survives g g' p q W C); [by exists o|by exists o].
Qed.

Lemma object_ptrs_same g g' p : wf_memory g → collected g g' → p ∉ objects g →
  object_ptrs (objs (heap_ g')) p = object_ptrs (objs (heap_ g)) p.
Proof.
  intros W C Hp. unfold object_ptrs. destruct (objs (heap_ g') !! p) as [o|] eqn:E.
  - destruct (object_survives g g' p o W C E) as (-> & -> & _). done.
  - by rewrite <-(co_objs g g' C p), E by by right.
Qed.
Lemma root_ptrs_same g g' : wf_memory g → collected g g' →
  root_ptrs (objs (heap_ g')) (roots g') = root_ptrs (objs (heap_ g)) (roots g).
Proof.
  intros W C. rewrite (co_roots g g' C). unfold root_ptrs. destruct (wm_boot g W) as [(c & Hc & _) (f & cs & Hf)].
  assert (∀ p, p = root_core0 (roots g) ∨ p = root_boot (roots g) → p ∉ objects g) as Hn.
  { intros p Hp Hin. destruct (wm_objects g W) as [_ Ho]. destruct (Ho p Hin) as (_ & _ & ? & ?). tauto. }
  rewrite !(object_ptrs_same g g' _ W C); [done|apply Hn; by right|apply Hn; by left].
Qed.

Lemma collected_wf g g' : wf_memory g → collected g g' → wf_memory g'.
Proof.
  intros W C. pose proof (root_ptrs_same g g' W C) as Er. pose proof W as [W1 W2 W3 [W4 W4'] W5 Wall W6 [W7 W7'] W8].
  pose proof C as [C1 C2 C3 C4 C5 C6 C7 C8 C9].
  assert (∀ p, p ∉ objects g → objs (heap_ g') !! p = objs (heap_ g) !! p) as Hst by (intros p Hp; apply C3; by right).
  assert (∀ p, Some p ∈ root_ptrs (objs (heap_ g)) (roots g) → objs (heap_ g') !! p = objs (heap_ g) !! p) as Hrt.
  { intros p Hp. apply C3. destruct (decide (p ∈ objects g)) as [Hin|]; [|by right]. left. apply C2. split; [done|].
    by exists p. }
  assert (∀ p, p = root_core0 (roots g) ∨ p = root_boot (roots g) → p ∉ objects g) as Hn.
  { intros p Hp Hin. destruct (W4' p Hin) as (_ & _ & ? & ?). tauto. }
  split.
  - intros p o Ho. destruct (object_survives g g' p o W C Ho) as (Ho' & Ec & Hw). split; [done|]. intros q Hq. rewrite Ec in Hq.
    apply (survives g g' p q W C); [by exists o|by exists o].
  - destruct W2 as [(c & Hc & _) (f & cs & Hf)]. rewrite C7. split.
    + exists c. assert (objs (heap_ g') !! root_core0 (roots g) = Some (OBJ_ROUTINE c)) as Hc' by by rewrite Hst by (apply Hn; by left).
      split; [done|]. by destruct (object_survives g g' _ _ W C Hc') as (_ & _ & Hw).
    + exists f, cs. rewrite Hst; [done|]. apply Hn. by right.
  - intros p Hp. rewrite Er in Hp. rewrite Hrt by done. by apply W3.
  - split; [by eapply sublist_NoDup|]. intros p Hp. rewrite C7. pose proof Hp as Hp'. apply C2 in Hp' as [Hin _].
    destruct (W4' p Hin) as (? & _ & ? & ?). split; [by rewrite C3 by by left|]. split; [|done]. rewrite C5. tauto.
  - intros p Hp. rewrite C7. apply C5 in Hp as [Hin Hp]. rewrite (object_ptrs_same g g' p W C Hin), (Hst p Hin).
    destruct Hp as [Hp|(r & Hr & Hrp)]; [by apply W5|].
    assert (is_Some (objs (heap_ g) !! p)) as Hd.
    { apply rtc_inv_r in Hrp as [<-|(y & _ & (o & Ho & Hin'))]; [by apply W3|]. destruct (W1 y o Ho) as [_ Hch]. by apply Hch. }
    split; [done|]. destruct (Wall p Hd) as [?|[Hm|[?|?]]]; [done|by apply W5|tauto|tauto].
  - intros p Hp. rewrite C7. destruct (decide (p ∈ objects g)) as [Hin|Hin].
    + left. destruct (decide (p ∈ objects g')) as [|Hn']; [done|]. rewrite (C4 p Hin Hn') in Hp. by destruct Hp.
    + right. rewrite Hst in Hp by done. destruct (Wall p Hp) as [?|[Hm|?]]; [done| |tauto]. left. apply C5. tauto.
  - done.
  - assert (∀ k, is_Some (map_of (interned g') !! k) → k ∈ objects g' ∧ is_Some (map_of (interned g) !! k)) as Hk.
    { intros k [v Hv]. rewrite C8 in Hv. apply map_lookup_filter_Some in Hv as [Hv Hk]. split; [done|by exists v]. }
    split.
    + apply (wf_table_ext (gc_str (heap_ g))); [|done]. intros k Hkk. symmetry. apply gc_str_hash.
      apply C3. left. by apply Hk.
    + intros k Hkk. destruct (Hk k Hkk) as [Hin Hold]. split; [done|]. destruct (W7' k Hold) as [_ (cs & h & Hs)].
      exists cs, h. by rewrite C3 by by left.
  - intros k cs h Hs. destruct (object_survives g g' k _ W C Hs) as (Hs' & _). by eapply W8.
Qed.
End Collect.

(** ** Properties *)
Section Properties.
Context `{TG : Target}.

Lemma sublist_full {A} (l l' : list A) : l `sublist_of` l' → NoDup l' → (∀ x, x ∈ l' → x ∈ l) → l = l'.
Proof.
  induction 1 as [|x l l' Hs IH|x l l' Hs IH]; intros Hnd Hin; [done| |].
  - apply list.NoDup_cons in Hnd as [Hx Hnd]. f_equal. apply IH; [done|]. intros y Hy.
    assert (y ∈ x :: l) as Hy' by (apply Hin; by right). apply list.elem_of_cons in Hy' as [->|?]; done.
  - apply list.NoDup_cons in Hnd as [Hx _]. destruct Hx. eapply elem_of_sublist; [|done]. apply Hin. by left.
Qed.

(** What the roots reached they still reach. *)
Lemma still_reachable g g' p : wf_memory g → collected g g' → reachable g p → reachable g' p.
Proof.
  intros W C (r & Hr & Hrp). exists r. rewrite (root_ptrs_same g g' W C). split; [done|].
  assert (is_Some (objs (heap_ g') !! r)) as Hs.
  { apply (wm_roots g' (collected_wf g g' W C)). by rewrite (root_ptrs_same g g' W C). }
  clear Hr. induction Hrp as [x|x y z Hxy _ IH]; [reflexivity|].
  destruct (survives g g' x y W C Hs Hxy) as [Hy _]. eapply rtc_l; [|by apply IH].
  destruct Hs as [o Ho]. destruct (object_survives g g' x o W C Ho) as (Ho' & Ec & _). exists o. split; [done|].
  destruct Hxy as (o' & Hx & Hin). rewrite Ho' in Hx. injection Hx as <-. by rewrite Ec.
Qed.

(** C10. A collection always ends, frees exactly the objects that no chain of
    pointers from the roots leads to, and keeps the others, in their order and
    with all their fields.  The stack of gray objects and the traversal need
    no bound but the number of objects. *)
Theorem collectGarbage_exact after g :
  wf_memory g →
  ∃ g', collectGarbage after g = Some g' ∧ roots g' = roots g ∧ objects g' `sublist_of` objects g ∧
    (∀ p, p ∈ objects g' ↔ p ∈ objects g ∧ reachable g p) ∧
    (∀ p, p ∈ objects g → objs (heap_ g') !! p = None ↔ ¬ reachable g p) ∧
    (∀ p, reachable g p → objs (heap_ g') !! p = objs (heap_ g) !! p) ∧
    nextGC g' = Z.min ALWAYS_GC_ABOVE (usize (after * GC_HEAP_GROW_FACTOR)).
Proof.
  intros W. destruct (gc_collect_run after g W) as (g' & E & C & Hn). exists g'. pose proof C as [C1 C2 C3 C4 _ _ C7 _ _].
  split; [done|]. split; [done|]. split; [done|]. split; [done|]. split; [|split; [|done]].
  - intros p Hp. destruct (wm_objects g W) as [_ Ho]. destruct (Ho p Hp) as [[o Hs] _]. split.
    + intros Hnone Hr. rewrite C3, Hs in Hnone; [done|]. left. by apply C2.
    + intros Hr. apply C4; [done|]. rewrite C2. tauto.
  - intros p Hp. apply C3. destruct (decide (p ∈ objects g)); [left; by apply C2|by right].
Qed.


(** Interned strings are weak: a collection removes from the table exactly
    the strings that nothing else reaches, and the table that is left is well
    formed and holds no key that was freed. *)
Theorem strings_are_weak after g :
  wf_memory g →
  ∃ g', collectGarbage after g = Some g' ∧ wf_table (gc_str (heap_ g')) (interned g') ∧
    ∀ k v, map_of (interned g') !! k = Some v ↔ map_of (interned g) !! k = Some v ∧ reachable g k.
Proof.
  intros W. destruct (gc_collect_run after g W) as (g' & E & C & _). exists g'. split; [done|].
  split; [apply (wm_strings g' (collected_wf g g' W C))|]. intros k v.
  rewrite (co_interned g g' C), map_lookup_filter_Some. simpl. rewrite (co_objects g g' C). split; [tauto|].
  intros [Hk Hr]. split; [done|]. split; [|done]. destruct (wm_strings g W) as [_ Hs]. apply Hs. by exists v.
Qed.

End Properties.

(** ** Instances *)
#[local] Existing Instance LP64.

(** The first routine holds a closure (5) whose upvalue (7) is open in the
    stack of a routine (8) that nothing else holds. *)
Definition demo_core0 : GRoutine :=
  mkGRoutine [mkGCell (mkGValue (Some 3%positive) (Object 5)) None] [] None (mkObjArray None []) (mkObjArray None [])
    None g_nil g_nil g_nil.
Definition demo_coroutine : GRoutine :=
  mkGRoutine [mkGCell g_nil None] [] (Some 7%positive) (mkObjArray None []) (mkObjArray None []) (Some 5%positive)
    g_nil g_nil g_nil.
Definition demo_objects : gmap ptr GObj :=
  <[1%positive := OBJ_ROUTINE demo_core0]> (<[2%positive := OBJ_FUNCTION None (mkGArray g_nil [])]>
  (<[3%positive := OBJ_YARGTYPE]> (<[5%positive := OBJ_CLOSURE (Some 6%positive) [Some 7%positive]]>
  (<[6%positive := OBJ_FUNCTION None (mkGArray g_nil [])]> (<[7%positive := OBJ_UPVALUE (SlotOf 8 0) (mkGCell g_nil None) None]>
  (<[8%positive := OBJ_ROUTINE demo_coroutine]> (∅ : gmap ptr GObj))))))).
Definition demo_memory : Memory :=
  mkMemory (mkMarking demo_objects {[3%positive]} [] 0) [8; 7; 6; 5]%positive initTable
    (mkRoots 1 2 None [] [] None initTable None []) 0.

Lemma demo_lookup p o : demo_objects !! p = Some o → (p, o) ∈ map_to_list demo_objects.
Proof. apply elem_of_map_to_list. Qed.

(** All pointers lead to an object. *)
Definition leads (l : list (option ptr)) : bool :=
  forallb (λ q, match q with Some q => bool_decide (is_Some (demo_objects !! q)) | None => true end) l.
Lemma leads_spec l q : leads l = true → Some q ∈ l → is_Some (demo_objects !! q).
Proof.
  unfold leads. rewrite forallb_forall. intros Hl Hq. specialize (Hl (Some q) (proj1 (list_elem_of_In _ _) Hq)). simpl in Hl.
  by apply bool_decide_eq_true in Hl.
Qed.

Lemma demo_wf_memory : wf_memory demo_memory.
Proof.
  split.
  - intros p o Hp%demo_lookup. vm_compute in Hp.
    assert (wf_obj demo_objects o ∧ leads (children demo_objects o) = true) as [H1 H2].
    { repeat (apply list.elem_of_cons in Hp as [[= -> ->]|Hp]; [by split; [try done; by eexists|vm_compute; reflexivity]|]).
      by apply list.not_elem_of_nil in Hp. }
    split; [done|]. intros q. by apply leads_spec.
  - split; [exists demo_core0; split; [done|by eexists]|]. by exists None, (mkGArray g_nil []).
  - intros p Hp. apply (leads_spec (root_ptrs demo_objects (roots demo_memory))); [vm_compute; reflexivity|done].
  - split; [by apply (bool_decide_unpack _); vm_compute|]. intros p Hp.
    repeat (apply list.elem_of_cons in Hp as [->|Hp];
      [split; [by eexists|]; split; [simpl; set_solver|by split]|]). by apply list.not_elem_of_nil in Hp.
  - intros p Hp. simpl in Hp. apply elem_of_singleton in Hp as ->. split; [by eexists|]. right. right. done.
  - intros p [o Ho%demo_lookup]. vm_compute in Ho.
    repeat (apply list.elem_of_cons in Ho as [[= -> ->]|Ho]; [simpl; set_solver|]). by apply list.not_elem_of_nil in Ho.
  - done.
  - split; [apply initTable_wf|]. intros k [v Hv]. done.
  - intros k cs h Hk%demo_lookup. vm_compute in Hk.
    repeat (apply list.elem_of_cons in Hk as [[=]|Hk]). by apply list.not_elem_of_nil in Hk.
Qed.

Lemma demo_kept : (λ g, (objects g, nextGC g)) <$> collectGarbage 100 demo_memory = Some ([7; 6; 5]%positive, 200).
Proof. vm_compute. reflexivity. Qed.

Lemma demo_reachable p : p ∈ objects demo_memory → reachable demo_memory p ↔ p ∈ [7; 6; 5]%positive.
Proof.
  intros Hp. destruct (gc_collect_run 100 demo_memory demo_wf_memory) as (g' & E & C & _).
  pose proof demo_kept as Hk. rewrite E in Hk. injection Hk as Hk _. rewrite <-Hk, (co_objects _ _ C). tauto.
Qed.

Lemma collectGarbage_exact_witness :
  ∃ g', collectGarbage 100 demo_memory = Some g' ∧ objects g' `sublist_of` objects demo_memory ∧
    objs (heap_ g') !! 8%positive = None ∧ objs (heap_ g') !! 6%positive = Some (OBJ_FUNCTION None (mkGArray g_nil [])).
Proof.
  destruct (collectGarbage_exact 100 demo_memory demo_wf_memory) as (g' & E & _ & Hs & _ & Hf & Hk & _).
  exists g'. split; [done|]. split; [done|]. split.
  - apply Hf; [by left|]. rewrite demo_reachable by (by left). intros Hin. vm_compute in Hin.
    repeat (apply list.elem_of_cons in Hin as [?|Hin]; [done|]). by apply list.not_elem_of_nil in Hin.
  - rewrite Hk; [done|]. apply demo_reachable; [right; right; by left|right; by left].
Defined.


Lemma strings_are_weak_witness :
  ∃ g', collectGarbage 100 demo_memory = Some g' ∧ wf_table (gc_str (heap_ g')) (interned g').
Proof.
  destruct (strings_are_weak 100 demo_memory demo_wf_memory) as (g' & E & W & _). by exists g'.
Defined.

