(* ===== verification/Ast.v ===== *)
(** * The syntax tree

    [cyarg/ast.h].  An expression is a chain of elements, linked by
    [nextExpr]: an operand and what is done to it, in order.  A chain of
    statements is linked by [nextStmt].  A chain is a list here, and the null
    pointer the empty list.  Trees are not changed once they are parsed. *)
From Stdlib Require Import SpecFloat.
From S2P Require Export IntData Table.
Open Scope Z_scope.

Inductive ExprOp :=
  | EXPR_OP_EQUAL | EXPR_OP_GREATER | EXPR_OP_RIGHT_SHIFT | EXPR_OP_LESS | EXPR_OP_LEFT_SHIFT | EXPR_OP_ADD
  | EXPR_OP_SUBTRACT | EXPR_OP_MULTIPLY | EXPR_OP_DIVIDE | EXPR_OP_BIT_OR | EXPR_OP_BIT_AND | EXPR_OP_BIT_XOR
  | EXPR_OP_MODULO | EXPR_OP_NOT_EQUAL | EXPR_OP_GREATER_EQUAL | EXPR_OP_LESS_EQUAL | EXPR_OP_NOT
  | EXPR_OP_NEGATE | EXPR_OP_LOGICAL_AND | EXPR_OP_LOGICAL_OR | EXPR_OP_DEREF_PTR.

Inductive ExprLiteral := EXPR_LITERAL_TRUE | EXPR_LITERAL_FALSE | EXPR_LITERAL_NIL.

Inductive ExprBuiltin :=
  | EXPR_BUILTIN_READ_YARG_SOURCE | EXPR_BUILTIN_READ_XIP_FILE | EXPR_BUILTIN_COMPILE
  | EXPR_BUILTIN_MAKE_ROUTINE | EXPR_BUILTIN_MAKE_CHANNEL | EXPR_BUILTIN_MAKE_SYNCGROUP | EXPR_BUILTIN_RESUME
  | EXPR_BUILTIN_START | EXPR_BUILTIN_RECEIVE | EXPR_BUILTIN_SEND | EXPR_BUILTIN_CPEEK | EXPR_BUILTIN_SHARE
  | EXPR_BUILTIN_PEEK | EXPR_BUILTIN_LEN | EXPR_BUILTIN_PIN | EXPR_BUILTIN_NEW | EXPR_BUILTIN_INT8
  | EXPR_BUILTIN_UINT8 | EXPR_BUILTIN_INT16 | EXPR_BUILTIN_UINT16 | EXPR_BUILTIN_INT32 | EXPR_BUILTIN_UINT32
  | EXPR_BUILTIN_INT64 | EXPR_BUILTIN_UINT64 | EXPR_BUILTIN_TS_SET | EXPR_BUILTIN_TS_READ
  | EXPR_BUILTIN_TS_WRITE | EXPR_BUILTIN_TS_INTERRUPT | EXPR_BUILTIN_TS_SYNC | EXPR_BUILTIN_INT
  | EXPR_BUILTIN_MFLOAT64 | EXPR_BUILTIN_STRING | EXPR_BUILTIN_LOAD.

Inductive ExprTypeLiteral :=
  | EXPR_TYPE_LITERAL_BOOL | EXPR_TYPE_LITERAL_INT8 | EXPR_TYPE_LITERAL_UINT8 | EXPR_TYPE_LITERAL_INT16
  | EXPR_TYPE_LITERAL_UINT16 | EXPR_TYPE_LITERAL_INT32 | EXPR_TYPE_LITERAL_UINT32 | EXPR_TYPE_LITERAL_INT64
  | EXPR_TYPE_LITERAL_UINT64 | EXPR_TYPE_LITERAL_MFLOAT64 | EXPR_TYPE_LITERAL_STRING | EXPR_TYPE_LITERAL_INT.

(** [ObjExprNumber]: the type and the union. *)
Inductive Number := NUMBER_INT (bigInt : Int) | NUMBER_DOUBLE (dbl : spec_float).

(** The kinds of element and statement, with the fields of their structures.
    [ObjExprCall] is its arguments.  A superclass is an [ObjExprNamedVariable]
    whose name alone is used: here the name.  A parameter is any expression. *)
Inductive ObjExpr :=
  | OBJ_EXPR_NUMBER (num : Number)
  | OBJ_EXPR_OPERATION (operation : ExprOp) (rhs assignment : list ObjExpr)
  | OBJ_EXPR_GROUPING (expression : list ObjExpr)
  | OBJ_EXPR_NAMEDVARIABLE (name : strptr) (assignment : list ObjExpr)
  | OBJ_EXPR_LITERAL (literal : ExprLiteral)
  | OBJ_EXPR_ADDRESS (address : Z)
  | OBJ_EXPR_STRING (string : strptr)
  | OBJ_EXPR_CALL (arguments : list (list ObjExpr))
  | OBJ_EXPR_COLLECTION_INITIALIZER (isMap : bool) (initializers : list (list ObjExpr)) (cardinality : list ObjExpr)
  | OBJ_EXPR_PAIR (a b : list ObjExpr)
  | OBJ_EXPR_COLLECTION_ELEMENT (element assignment : list ObjExpr)
  | OBJ_EXPR_BUILTIN (builtin : ExprBuiltin)
  | OBJ_EXPR_DOT (name : strptr) (offset assignment : list ObjExpr) (call : option (list (list ObjExpr)))
  | OBJ_EXPR_SUPER (name : strptr) (call : option (list (list ObjExpr)))
  | OBJ_EXPR_TYPE (type : ExprTypeLiteral)
  | OBJ_EXPR_TYPE_STRUCT (fieldsByIndex : list ObjStmt)
  | OBJ_EXPR_TYPE_INDEXED_COLLECTION (indexing : list ObjExpr)
with ObjStmt := mkStmt (line : Z) (stmt : Stmt)
with Stmt :=
  | OBJ_STMT_EXPRESSION (expression : list ObjExpr)
  | OBJ_STMT_PRINT (expression : list ObjExpr)
  | OBJ_STMT_ERROR (expression : list ObjExpr)
  | OBJ_STMT_POKE (location offset assignment : list ObjExpr)
  | OBJ_STMT_VARDECLARATION (name : strptr) (type initialiser : list ObjExpr)
  | OBJ_STMT_PLACEDECLARATION (type : list ObjExpr) (aliases : list (strptr * list ObjExpr))
  | OBJ_STMT_BLOCK (statements : list ObjStmt)
  | OBJ_STMT_IF (test : list ObjExpr) (ifStmt elseStmt : list ObjStmt)
  | OBJ_STMT_FUNDECLARATION (decl : FunDeclaration)
  | OBJ_STMT_WHILE (test : list ObjExpr) (loop : list ObjStmt)
  | OBJ_STMT_YIELD (expression : list ObjExpr)
  | OBJ_STMT_RETURN (expression : list ObjExpr)
  | OBJ_STMT_FOR (initializer : list ObjStmt) (condition loopExpression : list ObjExpr) (body : list ObjStmt)
  | OBJ_STMT_CLASSDECLARATION (name : strptr) (superclass : option strptr) (methods : list FunDeclaration)
  | OBJ_STMT_FIELDDECLARATION (name : strptr) (type offset : list ObjExpr)
with FunDeclaration := mkFun (name : strptr) (parameters : list (list ObjExpr)) (body : list ObjStmt).

Abbreviation Expr := (list ObjExpr).
Abbreviation Stmts := (list ObjStmt).
