(* ===== verification/AstWf.v ===== *)
(** * The shape of the trees

    What the compiler expects of a tree: a chain is an operand and what is
    done to it, in order; where an expression is needed there is one; the
    fields of a structure, and nothing else, are declarations of fields.  And
    induction over trees. *)
From S2P Require Export Ast.

(** An element that starts a chain, and one that goes on. *)
Definition unary (op : ExprOp) : bool :=
  match op with EXPR_OP_NOT | EXPR_OP_NEGATE | EXPR_OP_DEREF_PTR => true | _ => false end.
Definition operand (e : ObjExpr) : bool :=
  match e with
  | OBJ_EXPR_OPERATION op _ _ => unary op
  | OBJ_EXPR_CALL _ | OBJ_EXPR_PAIR _ _ | OBJ_EXPR_COLLECTION_ELEMENT _ _ | OBJ_EXPR_DOT _ _ _ _
  | OBJ_EXPR_TYPE_INDEXED_COLLECTION _ => false
  | _ => true
  end.
Definition postfix (e : ObjExpr) : bool :=
  match e with
  | OBJ_EXPR_OPERATION op _ _ => negb (unary op)
  | OBJ_EXPR_CALL _ | OBJ_EXPR_COLLECTION_ELEMENT _ _ | OBJ_EXPR_DOT _ _ _ _
  | OBJ_EXPR_TYPE_INDEXED_COLLECTION _ => true
  | _ => false
  end.
Definition chain (es : Expr) : bool := match es with e :: es => operand e && forallb postfix es | [] => false end.
Definition absent (es : Expr) : bool := match es with [] => true | _ => false end.

Definition is_field (s : ObjStmt) : bool :=
  match s with mkStmt _ (OBJ_STMT_FIELDDECLARATION _ _ _) => true | _ => false end.
(** A statement that declares no name. *)
Definition plain (s : ObjStmt) : bool :=
  match s with
  | mkStmt _ (OBJ_STMT_VARDECLARATION _ _ _ | OBJ_STMT_PLACEDECLARATION _ _ | OBJ_STMT_FUNDECLARATION _
             | OBJ_STMT_CLASSDECLARATION _ _ _ | OBJ_STMT_FIELDDECLARATION _ _ _) => false
  | _ => true
  end.
Definition no_field (s : ObjStmt) : bool := negb (is_field s).
Definition few {A} (l : list A) : bool := (length l <=? 255)%nat.

(** Arguments of a call, and what a chain or a statement consists of. *)
Section Of.
Variable elt : ObjExpr → bool.
Variable sub : ObjStmt → bool.
Definition expr_of (es : Expr) : bool := chain es && forallb elt es.
Definition opt_of (es : Expr) : bool := absent es || expr_of es.
Definition args_of (args : list Expr) : bool := few args && forallb expr_of args.
Definition call_of (call : option (list Expr)) : bool :=
  match call with Some args => args_of args | None => true end.
(** An item, or a pair. *)
Definition item_of (es : Expr) : bool :=
  match es with OBJ_EXPR_PAIR _ _ :: _ => forallb elt es | _ => expr_of es end.
Definition elt_of (e : ObjExpr) : bool :=
  match e with
  | OBJ_EXPR_NUMBER _ | OBJ_EXPR_LITERAL _ | OBJ_EXPR_ADDRESS _ | OBJ_EXPR_STRING _ | OBJ_EXPR_BUILTIN _
  | OBJ_EXPR_TYPE _ => true
  | OBJ_EXPR_OPERATION _ rhs assignment => expr_of rhs && opt_of assignment
  | OBJ_EXPR_GROUPING e => expr_of e
  | OBJ_EXPR_NAMEDVARIABLE _ assignment => opt_of assignment
  | OBJ_EXPR_CALL args => args_of args
  | OBJ_EXPR_COLLECTION_INITIALIZER isMap items cardinality => forallb item_of items && (isMap || expr_of cardinality)
  | OBJ_EXPR_PAIR a b => expr_of a && expr_of b
  | OBJ_EXPR_COLLECTION_ELEMENT element assignment => expr_of element && opt_of assignment
  | OBJ_EXPR_DOT _ offset assignment call => opt_of offset && opt_of assignment && call_of call
  | OBJ_EXPR_SUPER _ call => call_of call
  | OBJ_EXPR_TYPE_STRUCT fields => forallb (λ s, is_field s && sub s) fields
  | OBJ_EXPR_TYPE_INDEXED_COLLECTION indexing => expr_of indexing
  end.
Definition body_of (ss : Stmts) : bool := forallb (λ s, no_field s && sub s) ss.
Definition plain_of (ss : Stmts) : bool := forallb (λ s, plain s && sub s) ss.
Definition fun_of (d : FunDeclaration) : bool := match d with mkFun _ _ body => body_of body end.
Definition stmt_of (s : Stmt) : bool :=
  match s with
  | OBJ_STMT_EXPRESSION e | OBJ_STMT_PRINT e | OBJ_STMT_ERROR e => expr_of e
  | OBJ_STMT_POKE location offset assignment => expr_of location && opt_of offset && expr_of assignment
  | OBJ_STMT_VARDECLARATION _ type initialiser => opt_of type && opt_of initialiser
  | OBJ_STMT_PLACEDECLARATION type aliases => expr_of type && forallb (λ a, expr_of a.2) aliases
  | OBJ_STMT_BLOCK statements => body_of statements
  | OBJ_STMT_IF test ifStmt elseStmt => expr_of test && plain_of ifStmt && plain_of elseStmt
  | OBJ_STMT_FUNDECLARATION decl => fun_of decl
  | OBJ_STMT_WHILE test loop => expr_of test && plain_of loop
  | OBJ_STMT_YIELD e | OBJ_STMT_RETURN e => opt_of e
  | OBJ_STMT_FOR initializer condition loopExpression body =>
      body_of initializer && opt_of condition && opt_of loopExpression && plain_of body
  | OBJ_STMT_CLASSDECLARATION _ _ methods => forallb fun_of methods
  | OBJ_STMT_FIELDDECLARATION _ type offset => expr_of type && expr_of offset
  end.
End Of.

Fixpoint wf_elt (e : ObjExpr) : bool := elt_of wf_elt wf_stmt e
with wf_stmt (s : ObjStmt) : bool := match s with mkStmt _ stmt => stmt_of wf_elt wf_stmt stmt end.
Definition wf_expr : Expr → bool := expr_of wf_elt.
Definition wf_program (ss : Stmts) : bool := body_of wf_stmt ss.

(** ** Induction: the elements and statements that a tree consists of *)
Definition elts_in (e : ObjExpr) : list ObjExpr :=
  match e with
  | OBJ_EXPR_OPERATION _ a b | OBJ_EXPR_PAIR a b | OBJ_EXPR_COLLECTION_ELEMENT a b => a ++ b
  | OBJ_EXPR_GROUPING a | OBJ_EXPR_NAMEDVARIABLE _ a | OBJ_EXPR_TYPE_INDEXED_COLLECTION a => a
  | OBJ_EXPR_CALL args => concat args
  | OBJ_EXPR_COLLECTION_INITIALIZER _ items a => concat items ++ a
  | OBJ_EXPR_DOT _ a b call => a ++ b ++ concat (default [] call)
  | OBJ_EXPR_SUPER _ call => concat (default [] call)
  | _ => []
  end.
Definition stmts_in (e : ObjExpr) : list ObjStmt :=
  match e with OBJ_EXPR_TYPE_STRUCT fields => fields | _ => [] end.
Definition fun_body (d : FunDeclaration) : Stmts := match d with mkFun _ _ body => body end.
Definition stmt_elts (s : Stmt) : list ObjExpr :=
  match s with
  | OBJ_STMT_EXPRESSION a | OBJ_STMT_PRINT a | OBJ_STMT_ERROR a | OBJ_STMT_YIELD a | OBJ_STMT_RETURN a
  | OBJ_STMT_IF a _ _ | OBJ_STMT_WHILE a _ => a
  | OBJ_STMT_POKE a b c => a ++ b ++ c
  | OBJ_STMT_VARDECLARATION _ a b | OBJ_STMT_FOR _ a b _ | OBJ_STMT_FIELDDECLARATION _ a b => a ++ b
  | OBJ_STMT_PLACEDECLARATION a aliases => a ++ concat (map snd aliases)
  | _ => []
  end.
Definition stmt_stmts (s : Stmt) : list ObjStmt :=
  match s with
  | OBJ_STMT_BLOCK a | OBJ_STMT_WHILE _ a => a
  | OBJ_STMT_IF _ a b | OBJ_STMT_FOR a _ _ b => a ++ b
  | OBJ_STMT_FUNDECLARATION d => fun_body d
  | OBJ_STMT_CLASSDECLARATION _ _ methods => concat (map fun_body methods)
  | _ => []
  end.

Section Ind.
Variable P : ObjExpr → Prop.
Variable Q : ObjStmt → Prop.
Hypothesis HP : ∀ e, Forall P (elts_in e) → Forall Q (stmts_in e) → P e.
Hypothesis HQ : ∀ line s, Forall P (stmt_elts s) → Forall Q (stmt_stmts s) → Q (mkStmt line s).

Fixpoint elt_ind (e : ObjExpr) : P e
with stmt_ind (s : ObjStmt) : Q s.
Proof.
  - apply HP.
    + destruct e as [| op a b|a|? a| | | |args|? items a|a b|a b| |? a b call|? call| | |a]; simpl; try constructor;
        repeat apply Forall_app_2; try (induction a as [|x a IH]; constructor; [apply elt_ind|exact IH]);
        try (induction b as [|x b IH]; constructor; [apply elt_ind|exact IH]).
      all: try destruct call as [args|]; simpl; try constructor.
      all: try (induction args as [|l args IH]; simpl; [constructor|]; apply Forall_app_2; [|exact IH]).
      all: try (induction items as [|l items IH]; simpl; [constructor|]; apply Forall_app_2; [|exact IH]).
      all: induction l as [|x l IHl]; constructor; [apply elt_ind|exact IHl].
    + destruct e; simpl; try constructor. induction fieldsByIndex as [|x l IH]; constructor; [apply stmt_ind|exact IH].
  - destruct s as [line s]. apply HQ.
    + destruct s as [a|a|a|a b c|? a b|a aliases| |a| |a|a|a|? a b| |? a b]; simpl; try constructor;
        repeat apply Forall_app_2; try (induction a as [|x a IH]; constructor; [apply elt_ind|exact IH]);
        try (induction b as [|x b IH]; constructor; [apply elt_ind|exact IH]);
        try (induction c as [|x c IH]; constructor; [apply elt_ind|exact IH]).
      induction aliases as [|[? l] aliases IH]; simpl; [constructor|]. apply Forall_app_2; [|exact IH].
      induction l as [|x l IHl]; constructor; [apply elt_ind|exact IHl].
    + destruct s as [| | | | | |a|? a b|[? ? a]|? a| | |a ? ? b|? ? methods|]; simpl; try constructor;
        repeat apply Forall_app_2; try (induction a as [|x a IH]; constructor; [apply stmt_ind|exact IH]);
        try (induction b as [|x b IH]; constructor; [apply stmt_ind|exact IH]).
      induction methods as [|[? ? l] methods IH]; simpl; [constructor|]. apply Forall_app_2; [|exact IH].
      induction l as [|x l IHl]; constructor; [apply stmt_ind|exact IHl].
Qed.
End Ind.
