(* ===== verification/Compiler.v ===== *)
(** * The compiler

    [cyarg/compiler.c]: from the syntax tree to byte code, in one walk.  The
    variable [current] is a stack of compilers, one for each function that is
    being compiled, and [currentClass] a stack of classes; the chunk that is
    written is that of the object of the current function.  Jumps are emitted
    with a placeholder and patched when their target is known.

    An error is recorded and the walk goes on. *)
From Stdlib Require Import String Ascii.
From S2P Require Import Scanner.
From S2P Require Export Ast Vm.
Open Scope Z_scope.

(** ** State *)
Inductive FunctionType := TYPE_FUNCTION | TYPE_INITIALIZER | TYPE_METHOD | TYPE_SCRIPT.
#[export] Instance FunctionType_eq_dec : EqDecision FunctionType.
Proof. solve_decision. Defined.

Record Local := mkLocal { lname : strptr; depth : Z; isCaptured : bool }.
Record Upvalue := mkUp { index : Z; isLocal : bool }.
#[export] Instance Upvalue_eq_dec : EqDecision Upvalue.
Proof. solve_decision. Defined.

(** [locals] and [cupvalues] are the parts of the arrays that are in use;
    [recent] is the line of the statement. *)
Record Compiler := mkCompiler {
  context : objptr;
  cfunction : objptr;
  ctype : FunctionType;
  recent : option Z;
  errors : list strptr;
  panicMode : bool;
  locals : list Local;
  cupvalues : list Upvalue;
  scopeDepth : Z
}.

Definition set_recent (l : option Z) (c : Compiler) : Compiler :=
  mkCompiler (context c) (cfunction c) (ctype c) l (errors c) (panicMode c) (locals c) (cupvalues c) (scopeDepth c).
Definition set_errors (l : list strptr) (c : Compiler) : Compiler :=
  mkCompiler (context c) (cfunction c) (ctype c) (recent c) l (panicMode c) (locals c) (cupvalues c) (scopeDepth c).
Definition set_panic (b : bool) (c : Compiler) : Compiler :=
  mkCompiler (context c) (cfunction c) (ctype c) (recent c) (errors c) b (locals c) (cupvalues c) (scopeDepth c).
Definition set_locals (l : list Local) (c : Compiler) : Compiler :=
  mkCompiler (context c) (cfunction c) (ctype c) (recent c) (errors c) (panicMode c) l (cupvalues c) (scopeDepth c).
Definition set_upvalues (l : list Upvalue) (c : Compiler) : Compiler :=
  mkCompiler (context c) (cfunction c) (ctype c) (recent c) (errors c) (panicMode c) (locals c) l (scopeDepth c).
Definition set_depth (n : Z) (c : Compiler) : Compiler :=
  mkCompiler (context c) (cfunction c) (ctype c) (recent c) (errors c) (panicMode c) (locals c) (cupvalues c) n.

(** [compilers] is [current] and those it is enclosed by; [classes] holds
    [hasSuperclass] of [currentClass] and those it is enclosed by. *)
Record CState := mkCState { cvm : VM; compilers : list Compiler; classes : list bool }.
Abbreviation CM := (st CState).

Definition get_state : CM CState := λ s, Some (s, s).
Definition modify_state (f : CState → CState) : CM () := λ s, Some ((), f s).
Definition vmc {A} (c : VMM A) : CM A :=
  λ s, match c (cvm s) with Some (a, v) => Some (a, mkCState v (compilers s) (classes s)) | None => None end.
Definition of_some {A} (o : option A) : CM A := λ s, match o with Some a => Some (a, s) | None => None end.

(** The compiler that is [n] levels out from [current]. *)
Definition compiler_at (n : nat) : CM Compiler := s ← get_state; of_some (compilers s !! n).
Definition modify_compiler (n : nat) (f : Compiler → Compiler) : CM () :=
  compiler_at n ;; modify_state (λ s, mkCState (cvm s) (alter f n (compilers s)) (classes s)).
Definition current : CM Compiler := compiler_at 0.
Definition modify_current : (Compiler → Compiler) → CM () := modify_compiler 0.
Definition set_classes (l : list bool) : CM () := modify_state (λ s, mkCState (cvm s) (compilers s) l).

Definition get_fn (p : objptr) : CM ObjFunction := vmc (get_function p).
Definition put_fn (p : objptr) (f : ObjFunction) : CM () := vmc (put_obj p (OBJ_FUNCTION f)).

(** What a fresh block of memory holds. *)
Class FreshMemory := {
  fresh_bytes : nat → list Z;
  fresh_bytes_length n : length (fresh_bytes n) = n
}.

Section Compile.
Context `{U : Uninit} `{TG : Target} `{HO : Host} `{FM : FreshMemory}.

Definition copyStringC (cs : list Z) : CM strptr := vmc (intern cs).
(** [push] and [pop] on the routine that compiles keep objects alive. *)
Definition protect (v : Value) : CM () := c ← current; vmc (push (context c) v).
Definition unprotect : CM () := c ← current; vmc (pop (context c)) ;; mret ().

Definition initCompiler (type : FunctionType) (name : option strptr) (context : objptr) : CM () :=
  f ← vmc (new_obj (OBJ_FUNCTION initFunction));
  modify_state (λ s, mkCState (cvm s) (mkCompiler context f type None [] false [] [] 0 :: compilers s) (classes s)) ;;
  (if bool_decide (type = TYPE_SCRIPT) then mret ()
   else fn ← get_fn f; put_fn f (mkFunction (arity fn) (upvalueCount fn) (chunk fn) name)) ;;
  n ← copyStringC (if bool_decide (type = TYPE_FUNCTION) then [] else codes "this");
  modify_current (set_locals [mkLocal n 0 false]).

(** ** Errors *)

(** The buffer has room for a line number of ten digits; all of it becomes the
    string, with what follows the terminator. *)
Definition error_text (line : Z) (location : option (list Z)) (message : list Z) : list Z :=
  codes "[line " ++ decimal line ++ codes "] Error" ++
  match location with Some l => codes " at '" ++ cstr l ++ codes "'" | None => [] end ++
  codes ": " ++ message.
Definition error_buffer_length (location : option (list Z)) (message : list Z) : nat :=
  10 + 13 + match location with Some l => length (cstr l) + 5 | None => 0 end + (length message + 2) + 1.
Definition written (text : list Z) (n : nat) : list Z := text ++ [0] ++ drop (length text + 1) (fresh_bytes n).
Definition errorAt (location : option (list Z)) (message : list Z) : CM () :=
  c ← current;
  if panicMode c then mret ()
  else
    modify_current (set_panic true) ;;
    let n := error_buffer_length location message in
    let buffer := written (error_text (default 1 (recent c)) location message) n in
    k ← copyStringC (take (n - 1) buffer);
    c ← current;
    modify_current (set_errors (errors c ++ [k])).
Definition errorAtName (name : strptr) (message : list Z) : CM () :=
  cs ← vmc (chars_of name); errorAt (Some cs) message.
Definition error_ (message : list Z) : CM () := errorAt None message.

(** [snprintf] of a string stops at its first zero and at its length, the
    string is as long as the buffer is. *)
Definition valueAsSourceString (v : Value) : CM strptr :=
  match v with
  | TYPED_VAL (Simple String_) (Some k) =>
      cs ← vmc (chars_of k);
      let text := [34] ++ cstr cs ++ [34] in
      copyStringC (take (length cs + 2) (written text (length cs + 3)))
  | _ => vmc (valueToString text_fuel v)
  end.
Definition errorAtValue (v : Value) (message : list Z) : CM () :=
  c ← current;
  if panicMode c then mret ()
  else
    k ← valueAsSourceString v;
    protect (STRING_VAL k) ;;
    errorAtName k message ;;
    unprotect.

(** ** Code *)
Definition modify_chunk (f : Chunk → Chunk) : CM () :=
  c ← current; fn ← get_fn (cfunction c);
  put_fn (cfunction c) (mkFunction (arity fn) (upvalueCount fn) (f (chunk fn)) (fName fn)).
Definition currentChunk : CM Chunk := c ← current; fn ← get_fn (cfunction c); mret (chunk fn).
Definition count (c : Chunk) : Z := Z.of_nat (length (code c)).

Definition emitByte (byte : Z) : CM () := modify_chunk (λ c, writeChunk c (u8 byte)).
Definition emitBytes (byte1 byte2 : Z) : CM () := emitByte byte1 ;; emitByte byte2.
Definition emitOp (o : OpCode) : CM () := emitByte (encode o).
Definition emitOpByte (o : OpCode) (byte : Z) : CM () := emitBytes (encode o) byte.

Definition emitLoop (loopStart : Z) : CM () :=
  emitOp OP_LOOP ;;
  k ← currentChunk;
  let offset := count k - loopStart + 2 in
  (if 65535 <? offset then error_ (codes "Loop body too large.") else mret ()) ;;
  emitByte (Z.land (Z.shiftr offset 8) 255) ;;
  emitByte (Z.land offset 255).

Definition emitJump (instruction : OpCode) : CM Z :=
  emitOp instruction ;; emitByte 255 ;; emitByte 255 ;;
  k ← currentChunk; mret (count k - 2).

(** A write outside the code is undefined behaviour. *)
Definition write_code (offset : Z) (byte : Z) : CM () :=
  k ← currentChunk;
  st_assert ((0 <=? offset) && (offset <? count k)) ;;
  modify_chunk (λ k, mkChunk (ccapacity k) (<[Z.to_nat offset := byte]> (code k)) (lines k) (constants k)).
Definition patchJump (offset : Z) : CM () :=
  k ← currentChunk;
  let jump := count k - offset - 2 in
  (if 65535 <? jump then error_ (codes "Too much code to jump over.") else mret ()) ;;
  write_code offset (Z.land (Z.shiftr jump 8) 255) ;;
  write_code (offset + 1) (Z.land jump 255).

Definition emitReturn : CM () :=
  c ← current;
  (if bool_decide (ctype c = TYPE_INITIALIZER) then emitOpByte OP_GET_LOCAL 0 else emitOp OP_NIL) ;;
  emitOp OP_RETURN.

(** ** Constants *)
Definition makeConstant (v : Value) : CM Z :=
  k ← currentChunk;
  s ← get_state;
  '(constant, cs) ← vmc (vm_ints (addConstant (vm_loc (cvm s)) (constants k) v));
  modify_chunk (λ k, mkChunk (ccapacity k) (code k) (lines k) cs) ;;
  if (255 <? constant)%nat then errorAtValue v (codes "Too many constants in one chunk.") ;; mret 0
  else mret (Z.of_nat constant).
Definition identifierConstant (name : strptr) : CM Z := makeConstant (STRING_VAL name).

Definition UINT24_MAX : Z := 16777215.
Definition emitImmediateConstant (v : Z) : CM () :=
  if (- 255 <=? v) && (v <=? 255) then
    if v <? 0 then emitOpByte OP_IMMEDIATE_N8 (- v) else emitOpByte OP_IMMEDIATE_P8 v
  else if (- 65535 <=? v) && (v <=? 65535) then
    (if v <? 0 then emitOpByte OP_IMMEDIATE_N16 (- v mod 256) else emitOpByte OP_IMMEDIATE_P16 (v mod 256)) ;;
    emitByte (Z.abs v / 256)
  else
    (if v <? 0 then emitOpByte OP_IMMEDIATE_N24 (- v mod 256) else emitOpByte OP_IMMEDIATE_P24 (v mod 256)) ;;
    emitBytes (Z.abs v / 256 mod 256) (Z.abs v / 65536).

(** An [assert] rejects other values. *)
Definition emitConstant (v : Value) : CM () :=
  match v with
  | ADDRESS_VAL _ | DOUBLE_VAL _ | TYPED_VAL (Simple String_) (Some _) =>
      constant ← makeConstant v; emitOpByte OP_CONSTANT constant
  | INT_VAL b =>
      small ← vmc (vm_ints (within b (- UINT24_MAX) UINT24_MAX));
      if (small : bool) then n ← vmc (vm_ints (with_int b (λ p, int_to_i32 p))); emitImmediateConstant n
      else constant ← makeConstant v; emitOpByte OP_CONSTANT constant
  | _ => st_fail
  end.

(** ** Variables *)
Definition identifiersEqual (a b : strptr) : CM bool :=
  x ← vmc (chars_of a); y ← vmc (chars_of b); mret (bool_decide (x = y)).

(** The loop of [resolveLocal] over the first [i] locals, from the last. *)
Fixpoint resolve_in (ls : list Local) (i : nat) (name : strptr) : CM (option nat) :=
  match i with
  | O => mret None
  | S i' =>
      l ← of_some (ls !! i');
      e ← identifiersEqual name (lname l);
      if (e : bool) then
        (if depth l =? -1 then errorAtName name (codes "Can't read local variable in its own initializer.")
         else mret ()) ;;
        mret (Some i')
      else resolve_in ls i' name
  end.
(** [n]: how far out the compiler is. *)
Definition resolveLocal (n : nat) (name : strptr) : CM (option nat) :=
  c ← compiler_at n; resolve_in (locals c) (length (locals c)) name.

Definition addLocal (name : strptr) : CM () :=
  c ← current;
  if (length (locals c) =? 256)%nat then errorAtName name (codes "Too many local variables in function.")
  else modify_current (set_locals (locals c ++ [mkLocal name (-1) false])).

Definition addUpvalue (n : nat) (u : Upvalue) (name : strptr) : CM nat :=
  c ← compiler_at n;
  match list_find (eq u) (cupvalues c) with
  | Some (i, _) => mret i
  | None =>
      let upvalueCount := length (cupvalues c) in
      if (upvalueCount =? 256)%nat then
        errorAtName name (codes "Too many closure variables in function.") ;; mret 0%nat
      else
        modify_compiler n (set_upvalues (cupvalues c ++ [u])) ;;
        fn ← get_fn (cfunction c);
        put_fn (cfunction c) (mkFunction (arity fn) (S upvalueCount) (chunk fn) (fName fn)) ;;
        mret upvalueCount
  end.

Definition capture_local (i : nat) (c : Compiler) : Compiler :=
  set_locals (alter (λ l, mkLocal (lname l) (depth l) true) i (locals c)) c.
(** [enclosing] compilers are around the one at [n]. *)
Fixpoint resolveUpvalue (enclosing n : nat) (name : strptr) : CM (option nat) :=
  match enclosing with
  | O => mret None
  | S enclosing' =>
      l ← resolveLocal (S n) name;
      match l with
      | Some i =>
          modify_compiler (S n) (capture_local i) ;;
          u ← addUpvalue n (mkUp (u8 (Z.of_nat i)) true) name; mret (Some u)
      | None =>
          o ← resolveUpvalue enclosing' (S n) name;
          match o with
          | Some i => u ← addUpvalue n (mkUp (u8 (Z.of_nat i)) false) name; mret (Some u)
          | None => mret None
          end
      end
  end.

(** The loop of [declareVariable] over the first [i] locals, from the last:
    is the name taken in this scope? *)
Fixpoint declared_in (ls : list Local) (i : nat) (scope : Z) (name : strptr) : CM bool :=
  match i with
  | O => mret false
  | S i' =>
      l ← of_some (ls !! i');
      if negb (depth l =? -1) && (depth l <? scope) then mret false
      else
        e ← identifiersEqual name (lname l);
        if (e : bool) then mret true else declared_in ls i' scope name
  end.
Definition declareVariable (name : strptr) : CM () :=
  c ← current;
  if scopeDepth c =? 0 then mret ()
  else
    taken ← declared_in (locals c) (length (locals c)) (scopeDepth c) name;
    if (taken : bool) then errorAtName name (codes "Already a variable with this name in this scope.")
    else addLocal name.

Definition parseVariable (name : strptr) : CM Z :=
  declareVariable name ;;
  c ← current;
  if 0 <? scopeDepth c then mret 0 else identifierConstant name.

Definition markInitialized : CM () :=
  c ← current;
  if scopeDepth c =? 0 then mret ()
  else
    st_assert (negb (length (locals c) =? 0)%nat) ;;
    modify_current (set_locals
      (alter (λ l, mkLocal (lname l) (scopeDepth c) (isCaptured l)) (pred (length (locals c))) (locals c))).
Definition defineVariable (global : Z) : CM () :=
  c ← current;
  if 0 <? scopeDepth c then markInitialized else emitOpByte OP_DEFINE_GLOBAL global.

Definition beginScope : CM () := modify_current (λ c, set_depth (scopeDepth c + 1) c).
(** The loop of [endScope] over the locals, from the last. *)
Fixpoint end_scope (ls : list Local) : CM () :=
  match ls with
  | [] => mret ()
  | l :: ls' =>
      c ← current;
      if scopeDepth c <? depth l then
        emitOp (if isCaptured l then OP_CLOSE_UPVALUE else OP_POP) ;;
        modify_current (set_locals (reverse ls')) ;;
        end_scope ls'
      else mret ()
  end.
Definition endScope : CM () :=
  modify_current (λ c, set_depth (scopeDepth c - 1) c) ;;
  c ← current; end_scope (reverse (locals c)).

(** The instructions that get and set a variable, and their operand. *)
Definition resolve (name : strptr) : CM (OpCode * OpCode * Z) :=
  l ← resolveLocal 0 name;
  match l with
  | Some i => mret (OP_GET_LOCAL, OP_SET_LOCAL, Z.of_nat i)
  | None =>
      s ← get_state;
      u ← resolveUpvalue (pred (length (compilers s))) 0 name;
      match u with
      | Some i => mret (OP_GET_UPVALUE, OP_SET_UPVALUE, Z.of_nat i)
      | None => arg ← identifierConstant name; mret (OP_GET_GLOBAL, OP_SET_GLOBAL, arg)
      end
  end.
Definition generateGetNamedVariable (name : strptr) : CM () :=
  '(getOp, _, arg) ← resolve name; emitOpByte getOp arg.

(** ** Expressions

    The functions below call the ones that they are called by through the
    variables of the section; the recursion is closed at the end. *)
Definition for_each {A} (f : A → CM ()) : list A → CM () :=
  fix go l := match l with [] => mret () | x :: l' => f x ;; go l' end.
(** From the last to the first. *)
Definition for_each_reverse {A} (f : A → CM ()) : list A → CM () :=
  fix go l := match l with [] => mret () | x :: l' => go l' ;; f x end.

Definition generateNumber (num : Number) : CM () :=
  match num with
  | NUMBER_DOUBLE d => emitConstant (DOUBLE_VAL d)
  | NUMBER_INT bigInt =>
      v ← vmc (vm_ints (
        p ← allocateIntValue (d_ bigInt);
        modify p (set_literal_ true) ;;
        with_object bigInt (λ q, int_set_t q p) ;;
        i ← get p;
        mret (INT_VAL (if obj_ i then BigInt true p else SmallInt i))));
      emitConstant v
  end.

(** The instructions of an operator that has its operands on the stack. *)
Definition arith_ops (op : ExprOp) : list OpCode :=
  match op with
  | EXPR_OP_EQUAL => [OP_EQUAL]
  | EXPR_OP_GREATER => [OP_GREATER]
  | EXPR_OP_RIGHT_SHIFT => [OP_RIGHT_SHIFT]
  | EXPR_OP_LESS => [OP_LESS]
  | EXPR_OP_LEFT_SHIFT => [OP_LEFT_SHIFT]
  | EXPR_OP_ADD => [OP_ADD]
  | EXPR_OP_SUBTRACT => [OP_SUBTRACT]
  | EXPR_OP_MULTIPLY => [OP_MULTIPLY]
  | EXPR_OP_DIVIDE => [OP_DIVIDE]
  | EXPR_OP_BIT_OR => [OP_BITOR]
  | EXPR_OP_BIT_AND => [OP_BITAND]
  | EXPR_OP_BIT_XOR => [OP_BITXOR]
  | EXPR_OP_MODULO => [OP_MODULO]
  | EXPR_OP_NOT_EQUAL => [OP_EQUAL; OP_NOT]
  | EXPR_OP_GREATER_EQUAL => [OP_LESS; OP_NOT]
  | EXPR_OP_LESS_EQUAL => [OP_GREATER; OP_NOT]
  | EXPR_OP_NOT => [OP_NOT]
  | EXPR_OP_NEGATE => [OP_NEGATE]
  | EXPR_OP_LOGICAL_AND | EXPR_OP_LOGICAL_OR | EXPR_OP_DEREF_PTR => []
  end.

Definition generateExprLiteral (l : ExprLiteral) : CM () :=
  match l with
  | EXPR_LITERAL_FALSE => emitOp OP_FALSE
  | EXPR_LITERAL_TRUE => emitOp OP_TRUE
  | EXPR_LITERAL_NIL => emitOp OP_NIL
  end.

Definition builtin_of (b : ExprBuiltin) : BuiltinFn :=
  match b with
  | EXPR_BUILTIN_READ_YARG_SOURCE => BUILTIN_READ_YARG_SOURCE
  | EXPR_BUILTIN_READ_XIP_FILE => BUILTIN_READ_XIP_FILE
  | EXPR_BUILTIN_COMPILE => BUILTIN_COMPILE
  | EXPR_BUILTIN_MAKE_ROUTINE => BUILTIN_MAKE_ROUTINE
  | EXPR_BUILTIN_MAKE_CHANNEL => BUILTIN_MAKE_CHANNEL
  | EXPR_BUILTIN_MAKE_SYNCGROUP => BUILTIN_MAKE_SYNCGROUP
  | EXPR_BUILTIN_RESUME => BUILTIN_RESUME
  | EXPR_BUILTIN_START => BUILTIN_START
  | EXPR_BUILTIN_RECEIVE => BUILTIN_RECEIVE
  | EXPR_BUILTIN_SEND => BUILTIN_SEND
  | EXPR_BUILTIN_CPEEK => BUILTIN_CPEEK
  | EXPR_BUILTIN_SHARE => BUILTIN_SHARE
  | EXPR_BUILTIN_PEEK => BUILTIN_PEEK
  | EXPR_BUILTIN_LEN => BUILTIN_LEN
  | EXPR_BUILTIN_PIN => BUILTIN_PIN
  | EXPR_BUILTIN_NEW => BUILTIN_NEW
  | EXPR_BUILTIN_INT8 => BUILTIN_INT8
  | EXPR_BUILTIN_UINT8 => BUILTIN_UINT8
  | EXPR_BUILTIN_INT16 => BUILTIN_INT16
  | EXPR_BUILTIN_UINT16 => BUILTIN_UINT16
  | EXPR_BUILTIN_INT32 => BUILTIN_INT32
  | EXPR_BUILTIN_UINT32 => BUILTIN_UINT32
  | EXPR_BUILTIN_INT64 => BUILTIN_INT64
  | EXPR_BUILTIN_UINT64 => BUILTIN_UINT64
  | EXPR_BUILTIN_TS_SET => BUILTIN_TS_SET
  | EXPR_BUILTIN_TS_READ => BUILTIN_TS_READ
  | EXPR_BUILTIN_TS_WRITE => BUILTIN_TS_WRITE
  | EXPR_BUILTIN_TS_INTERRUPT => BUILTIN_TS_INTERRUPT
  | EXPR_BUILTIN_TS_SYNC => BUILTIN_TS_SYNC
  | EXPR_BUILTIN_INT => BUILTIN_INT
  | EXPR_BUILTIN_MFLOAT64 => BUILTIN_MFLOAT64
  | EXPR_BUILTIN_STRING => BUILTIN_STRING
  | EXPR_BUILTIN_LOAD => BUILTIN_LOAD
  end.
(** The code of a built-in function is its place in the enumeration. *)
Definition builtin_code (b : BuiltinFn) : Z := Z.of_nat (default 0%nat (fst <$> list_find (eq b) builtins)).
Definition generateExprBuiltin (b : ExprBuiltin) : CM () :=
  emitOpByte OP_GET_BUILTIN (builtin_code (builtin_of b)).

(** The codes of [BuiltinType]. *)
Definition TYPE_LITERAL_STRING : Z := 10.
Definition type_literal (t : ExprTypeLiteral) : Z :=
  match t with
  | EXPR_TYPE_LITERAL_BOOL => 0
  | EXPR_TYPE_LITERAL_INT8 => 1
  | EXPR_TYPE_LITERAL_UINT8 => 2
  | EXPR_TYPE_LITERAL_INT16 => 3
  | EXPR_TYPE_LITERAL_UINT16 => 4
  | EXPR_TYPE_LITERAL_INT32 => 5
  | EXPR_TYPE_LITERAL_MFLOAT64 => 9
  | EXPR_TYPE_LITERAL_UINT32 => 6
  | EXPR_TYPE_LITERAL_INT64 => 7
  | EXPR_TYPE_LITERAL_UINT64 => 8
  | EXPR_TYPE_LITERAL_STRING => TYPE_LITERAL_STRING
  | EXPR_TYPE_LITERAL_INT => 11
  end.
Definition generateExprType (t : ExprTypeLiteral) : CM () := emitOpByte OP_TYPE_LITERAL (type_literal t).

(** [newExprNumberFromCint]: the node is an object, at an address of its own. *)
Definition newExprNumberFromCint (constant : Z) : VMM (Number * objptr) :=
  p ← newYargType;
  i ← vm_ints (with_object (mkInt false false false false 0 2 [0; 0]) (λ q, int_set_i constant q ;; get q));
  mret (NUMBER_INT i, p).

Section Expr.
Variable generateExpr : Expr → CM ().
Variable generateStmt : ObjStmt → CM ().

Definition generateExprLogicalAnd (rhs : Expr) : CM () :=
  endJump ← emitJump OP_JUMP_IF_FALSE;
  emitOp OP_POP ;;
  generateExpr rhs ;;
  patchJump endJump.
Definition generateExprLogicalOr (rhs : Expr) : CM () :=
  elseJump ← emitJump OP_JUMP_IF_FALSE;
  endJump ← emitJump OP_JUMP;
  patchJump elseJump ;;
  emitOp OP_POP ;;
  generateExpr rhs ;;
  patchJump endJump.
Definition generateExprAssignable (rhs assignment : Expr) : CM () :=
  generateExpr rhs ;;
  match assignment with
  | [] => emitOp OP_DEREF_PTR
  | _ => generateExpr assignment ;; emitOp OP_SET_PTR_TARGET
  end.
Definition generateArithOperation (op : ExprOp) (rhs : Expr) : CM () :=
  generateExpr rhs ;; for_each emitOp (arith_ops op).
Definition generateExprOperation (op : ExprOp) (rhs assignment : Expr) : CM () :=
  match op with
  | EXPR_OP_LOGICAL_AND => generateExprLogicalAnd rhs
  | EXPR_OP_LOGICAL_OR => generateExprLogicalOr rhs
  | EXPR_OP_DEREF_PTR => generateExprAssignable rhs assignment
  | _ => generateArithOperation op rhs
  end.

Definition generateExprNamedVariable (name : strptr) (assignment : Expr) : CM () :=
  this_ ← copyStringC (codes "this");
  e ← identifiersEqual this_ name;
  s ← get_state;
  if (e : bool) && bool_decide (classes s = []) then
    errorAt (Some (codes "this")) (codes "Can't use 'this' outside of a class.")
  else
    '(getOp, setOp, arg) ← resolve name;
    match assignment with
    | [] => emitOpByte getOp arg
    | _ => generateExpr assignment ;; emitOp OP_DUPLICATE ;; emitOpByte setOp arg
    end.

Definition generateCallExprs (args : list Expr) : CM () :=
  for_each (λ arg, generateExpr arg ;; emitOp OP_DUPLICATE) args.
Definition arg_count (args : list Expr) : Z := Z.of_nat (length args).
Definition generateExprCall (args : list Expr) : CM () :=
  generateCallExprs args ;; emitOpByte OP_CALL (arg_count args).

(** The loop over the items from number [i] on.  The node of the number is a
    chain of its own, so that [generateExpr] comes to [generateNumber]. *)
Fixpoint collection_items (i : Z) (items : list Expr) : CM () :=
  match items with
  | [] => mret ()
  | (OBJ_EXPR_PAIR a b :: _) :: items' =>
      generateExpr a ;; generateExpr b ;; emitOp OP_SET_ELEMENT ;;
      collection_items (i + 1) items'
  | item :: items' =>
      '(element, p) ← vmc (newExprNumberFromCint i);
      protect (IMPL_OBJ_VAL (Some p)) ;;
      generateNumber element ;; generateExpr item ;; emitOp OP_SET_ELEMENT ;;
      unprotect ;;
      collection_items (i + 1) items'
  end.
Definition generateExprCollectionInit (isMap : bool) (initializers : list Expr) (cardinality : Expr) : CM () :=
  emitOpByte OP_GET_BUILTIN (builtin_code BUILTIN_NEW) ;;
  emitOp OP_NIL ;;
  (if isMap then emitOpByte OP_TYPE_LITERAL TYPE_LITERAL_STRING else generateExpr cardinality) ;;
  emitOp OP_TYPE_INDEXED_COLLECTION ;;
  emitOpByte OP_CALL 1 ;;
  collection_items 0 initializers.
Definition generateExprCollectionElement (element assignment : Expr) : CM () :=
  generateExpr element ;;
  match assignment with
  | [] => emitOp OP_ELEMENT
  | _ => generateExpr assignment ;; emitOp OP_SET_ELEMENT
  end.

Definition generateExprDot (name : strptr) (offset assignment : Expr) (call : option (list Expr)) : CM () :=
  name ← identifierConstant name;
  match offset, assignment, call with
  | _ :: _, _, _ => generateExpr offset ;; emitOp OP_ADD
  | [], _ :: _, _ => generateExpr assignment ;; emitOpByte OP_SET_PROPERTY name
  | [], [], Some args => generateCallExprs args ;; emitOpByte OP_INVOKE name ;; emitByte (arg_count args)
  | [], [], None => emitOpByte OP_GET_PROPERTY name
  end.

Definition generateExprSuper (name : strptr) (call : option (list Expr)) : CM () :=
  s ← get_state;
  match classes s with
  | [] => errorAt (Some (codes "super")) (codes "Can't use 'super' outside of a class.")
  | hasSuperclass :: _ =>
      if (hasSuperclass : bool) then mret ()
      else errorAt (Some (codes "super")) (codes "Can't use 'super' in a class with no superclass.")
  end ;;
  name ← identifierConstant name;
  this_ ← copyStringC (codes "this"); protect (STRING_VAL this_) ;;
  super_ ← copyStringC (codes "super"); protect (STRING_VAL super_) ;;
  generateGetNamedVariable this_ ;;
  match call with
  | Some args =>
      generateCallExprs args ;;
      generateGetNamedVariable super_ ;;
      emitOpByte OP_SUPER_INVOKE name ;;
      emitByte (arg_count args)
  | None => generateGetNamedVariable super_ ;; emitOpByte OP_GET_SUPER name
  end ;;
  unprotect ;; unprotect.

Definition generateExprTypeStruct (fieldsByIndex : Stmts) : CM () :=
  for_each_reverse generateStmt fieldsByIndex ;;
  let fieldCount := Z.of_nat (length fieldsByIndex) in
  (if 255 <? fieldCount then error_ (codes "Can't have more than 256 fields.") else mret ()) ;;
  emitOpByte OP_TYPE_STRUCT fieldCount.
Definition generateExprTypeIndexedCollection (indexing : Expr) : CM () :=
  match indexing with
  | [] => error_ (codes "Indexed collection type must have an indexing expression.")
  | _ => mret ()
  end ;;
  generateExpr indexing ;;
  emitOp OP_TYPE_INDEXED_COLLECTION.

(** ** Statements *)
Definition generateStmtPoke (location offset assignment : Expr) : CM () :=
  generateExpr assignment ;;
  generateExpr location ;;
  match offset with [] => mret () | _ => generateExpr offset ;; emitOp OP_ADD end ;;
  emitOp OP_POKE.

(** The cell, with its type and first value. *)
Definition variable_cell (type initialiser : Expr) : CM () :=
  match type with [] => emitOp OP_NIL | _ => generateExpr type end ;;
  emitOp OP_SET_CELL_TYPE ;;
  match initialiser with
  | [] => mret ()
  | _ => generateExpr initialiser ;; emitOp OP_DUPLICATE ;; emitOp OP_INITIALISE
  end.
Definition generateVarDeclaration (name : strptr) (type initialiser : Expr) : CM () :=
  global ← parseVariable name;
  variable_cell type initialiser ;;
  defineVariable global.

Definition placed_value (type location : Expr) : CM () :=
  generateExpr type ;;
  generateExpr location ;;
  emitOp OP_PLACE.
Definition generatePlaceDeclaration (type : Expr) (aliases : list (strptr * Expr)) : CM () :=
  for_each (λ alias,
    placed_value type alias.2 ;;
    global ← parseVariable alias.1;
    defineVariable global) aliases.

(** [while (stmt != NULL)] *)
Definition generate (stmts : Stmts) : CM () := for_each generateStmt stmts.

Definition generateStmtBlock (statements : Stmts) : CM () := beginScope ;; generate statements ;; endScope.

Definition generateStmtIf (test : Expr) (ifStmt elseStmt : Stmts) : CM () :=
  generateExpr test ;;
  thenJump ← emitJump OP_JUMP_IF_FALSE;
  emitOp OP_POP ;;
  generate ifStmt ;;
  elseJump ← emitJump OP_JUMP;
  patchJump thenJump ;;
  emitOp OP_POP ;;
  generate elseStmt ;;
  patchJump elseJump.

(** The compiler that ends, with the array of upvalues, is read once more. *)
Definition endCompiler : CM (Compiler * objptr) :=
  emitReturn ;;
  s ← get_state;
  match compilers s with
  | [] => st_fail
  | c :: [] => modify_state (λ s, mkCState (cvm s) [] (classes s)) ;; mret (c, cfunction c)
  | c :: e :: outer =>
      modify_state (λ s, mkCState (cvm s) (set_errors (errors e ++ errors c) e :: outer) (classes s)) ;;
      mret (c, cfunction c)
  end.

(** The node of a parameter is taken for that of a variable: what is read of
    another kind of node is undefined. *)
Definition param_name (p : Expr) : option strptr :=
  match p with OBJ_EXPR_NAMEDVARIABLE name _ :: _ => Some name | _ => None end.
(** The function, between the start and the end of its compiler. *)
Definition function_body (parameters : list Expr) (body : Stmts) : CM () :=
  beginScope ;;
  for_each (λ p, name ← of_some (param_name p); constant ← parseVariable name; defineVariable constant) parameters ;;
  generate body.
Definition generateFunction (type : FunctionType) (decl : FunDeclaration) : CM () :=
  match decl with
  | mkFun name parameters body =>
      c ← current;
      initCompiler type (Some name) (context c) ;;
      function_body parameters body ;;
      s ← get_state;
      st_assert (1 <? length (compilers s))%nat ;;
      '(compiler, f) ← endCompiler;
      fn ← get_fn f;
      put_fn f (mkFunction (Z.of_nat (length parameters)) (upvalueCount fn) (chunk fn) (fName fn)) ;;
      constant ← makeConstant (FUNCTION_VAL f);
      emitOpByte OP_CLOSURE constant ;;
      for_each (λ u, emitByte (if isLocal u then 1 else 0) ;; emitByte (index u)) (cupvalues compiler)
  end.

Definition fun_name (decl : FunDeclaration) : strptr := match decl with mkFun name _ _ => name end.
Definition generateStmtFunDeclaration (decl : FunDeclaration) : CM () :=
  global ← parseVariable (fun_name decl);
  markInitialized ;;
  generateFunction TYPE_FUNCTION decl ;;
  defineVariable global.

Definition generateStmtWhile (test : Expr) (loop : Stmts) : CM () :=
  k ← currentChunk;
  let loopStart := count k in
  generateExpr test ;;
  exitJump ← emitJump OP_JUMP_IF_FALSE;
  emitOp OP_POP ;;
  generate loop ;;
  emitLoop loopStart ;;
  patchJump exitJump ;;
  emitOp OP_POP.

Definition generateStmtYield (expression : Expr) : CM () :=
  c ← current;
  (if bool_decide (ctype c = TYPE_SCRIPT) then errorAt (Some (codes "yield")) (codes "Can't yield from top-level code.")
   else mret ()) ;;
  match expression with
  | [] => emitOp OP_NIL ;; emitOp OP_YIELD
  | _ =>
      (if bool_decide (ctype c = TYPE_INITIALIZER) then
         errorAt (Some (codes "yield")) (codes "Can't yield a value from an initializer.")
       else mret ()) ;;
      generateExpr expression ;; emitOp OP_YIELD
  end.
Definition generateStmtReturn (expression : Expr) : CM () :=
  c ← current;
  (if bool_decide (ctype c = TYPE_SCRIPT) then
     errorAt (Some (codes "return")) (codes "Can't return from top-level code.")
   else mret ()) ;;
  match expression with
  | [] => emitReturn
  | _ =>
      (if bool_decide (ctype c = TYPE_INITIALIZER) then
         errorAt (Some (codes "return")) (codes "Can't return a value from an initializer.")
       else mret ()) ;;
      generateExpr expression ;; emitOp OP_RETURN
  end.

(** The parts of the loop: the jump out of it, and where its body goes on. *)
Definition for_condition (condition : Expr) : CM (option Z) :=
  match condition with
  | [] => mret None
  | _ => generateExpr condition ;; j ← emitJump OP_JUMP_IF_FALSE; emitOp OP_POP ;; mret (Some j)
  end.
Definition for_increment (loopStart : Z) (loopExpression : Expr) : CM Z :=
  match loopExpression with
  | [] => mret loopStart
  | _ =>
      bodyJump ← emitJump OP_JUMP;
      k ← currentChunk;
      let incrementStart := count k in
      generateExpr loopExpression ;;
      emitOp OP_POP ;;
      emitLoop loopStart ;;
      patchJump bodyJump ;;
      mret incrementStart
  end.
Definition for_loop (condition loopExpression : Expr) (body : Stmts) : CM () :=
  k ← currentChunk;
  exitJump ← for_condition condition;
  loopStart ← for_increment (count k) loopExpression;
  generate body ;;
  emitLoop loopStart ;;
  match exitJump with Some j => patchJump j ;; emitOp OP_POP | None => mret () end.
Definition generateStmtFor (initializer : Stmts) (condition loopExpression : Expr) (body : Stmts) : CM () :=
  beginScope ;;
  generate initializer ;;
  for_loop condition loopExpression body ;;
  endScope.

Definition generateStmtMethodDeclaration (method : FunDeclaration) : CM () :=
  constant ← identifierConstant (fun_name method);
  init ← copyStringC (codes "init"); protect (STRING_VAL init) ;;
  e ← identifiersEqual (fun_name method) init;
  generateFunction (if (e : bool) then TYPE_INITIALIZER else TYPE_METHOD) method ;;
  emitOpByte OP_METHOD constant ;;
  unprotect.

(** What the superclass adds before the methods, in a scope of its own. *)
Definition inherit (name : strptr) : CM () :=
  generateGetNamedVariable name ;;
  emitOp OP_INHERIT ;;
  s ← get_state; set_classes (true :: tail (classes s)) ;;
  unprotect.
Definition super_local : CM () :=
  super ← copyStringC (codes "super"); protect (STRING_VAL super) ;;
  addLocal super ;;
  defineVariable 0.
Definition generate_superclass (name superclass : strptr) : CM () :=
  generateGetNamedVariable superclass ;;
  beginScope ;;
  super_local ;;
  inherit name.
Definition class_methods (name : strptr) (methods : list FunDeclaration) : CM () :=
  generateGetNamedVariable name ;;
  for_each generateStmtMethodDeclaration methods ;;
  emitOp OP_POP.
Definition class_body (name : strptr) (superclass : option strptr) (methods : list FunDeclaration) : CM () :=
  s ← get_state; set_classes (false :: classes s) ;;
  match superclass with
  | Some super => generate_superclass name super ;; class_methods name methods ;; endScope
  | None => class_methods name methods
  end ;;
  s ← get_state; set_classes (tail (classes s)).
Definition generateStmtClassDeclaration (name : strptr) (superclass : option strptr) (methods : list FunDeclaration) : CM () :=
  nameConstant ← identifierConstant name;
  declareVariable name ;;
  emitOpByte OP_CLASS nameConstant ;;
  defineVariable nameConstant ;;
  class_body name superclass methods.

Definition generateStmtFieldDeclaration (name : strptr) (type offset : Expr) : CM () :=
  generateExpr type ;;
  generateExpr offset ;;
  constant ← makeConstant (STRING_VAL name); emitOpByte OP_CONSTANT constant.

(** The line table has an entry where the line changes. *)
Definition note_line (line_ : Z) (k : Chunk) : Chunk :=
  match list.last (lines k) with
  | Some s =>
      if line s =? line_ then k
      else mkChunk (ccapacity k) (code k) (lines k ++ [mkSource (u16 (count k)) (u16 line_)]) (constants k)
  | None => mkChunk (ccapacity k) (code k) (lines k ++ [mkSource (u16 (count k)) (u16 line_)]) (constants k)
  end.

(** The [switch] of [generateStmt]. *)
Definition generate_stmt_kind (stmt : Stmt) : CM () :=
  match stmt with
  | OBJ_STMT_EXPRESSION e => generateExpr e ;; emitOp OP_POP
  | OBJ_STMT_PRINT e => generateExpr e ;; emitOp OP_PRINT
  | OBJ_STMT_ERROR e => generateExpr e ;; emitOp OP_ERROR
  | OBJ_STMT_POKE location offset assignment => generateStmtPoke location offset assignment
  | OBJ_STMT_VARDECLARATION name type initialiser => generateVarDeclaration name type initialiser
  | OBJ_STMT_PLACEDECLARATION type aliases => generatePlaceDeclaration type aliases
  | OBJ_STMT_BLOCK statements => generateStmtBlock statements
  | OBJ_STMT_IF test ifStmt elseStmt => generateStmtIf test ifStmt elseStmt
  | OBJ_STMT_FUNDECLARATION decl => generateStmtFunDeclaration decl
  | OBJ_STMT_WHILE test loop => generateStmtWhile test loop
  | OBJ_STMT_YIELD e => generateStmtYield e
  | OBJ_STMT_RETURN e => generateStmtReturn e
  | OBJ_STMT_FOR initializer condition loopExpression body => generateStmtFor initializer condition loopExpression body
  | OBJ_STMT_CLASSDECLARATION name superclass methods => generateStmtClassDeclaration name superclass methods
  | OBJ_STMT_FIELDDECLARATION name type offset => generateStmtFieldDeclaration name type offset
  end.
Definition begin_stmt (line : Z) : CM () :=
  modify_chunk (note_line line) ;;
  modify_current (set_panic false) ;; modify_current (set_recent (Some line)).

(** [generateExprElt]; a pair alone is not expected. *)
Definition generate_expr_kind (e : ObjExpr) : CM () :=
  match e with
  | OBJ_EXPR_NUMBER num => generateNumber num
  | OBJ_EXPR_OPERATION op rhs assignment => generateExprOperation op rhs assignment
  | OBJ_EXPR_GROUPING e => generateExpr e
  | OBJ_EXPR_NAMEDVARIABLE name assignment => generateExprNamedVariable name assignment
  | OBJ_EXPR_LITERAL l => generateExprLiteral l
  | OBJ_EXPR_ADDRESS a => emitConstant (ADDRESS_VAL a)
  | OBJ_EXPR_STRING k => emitConstant (STRING_VAL k)
  | OBJ_EXPR_CALL args => generateExprCall args
  | OBJ_EXPR_COLLECTION_INITIALIZER isMap items cardinality => generateExprCollectionInit isMap items cardinality
  | OBJ_EXPR_PAIR _ _ => mret ()
  | OBJ_EXPR_COLLECTION_ELEMENT element assignment => generateExprCollectionElement element assignment
  | OBJ_EXPR_BUILTIN b => generateExprBuiltin b
  | OBJ_EXPR_DOT name offset assignment call => generateExprDot name offset assignment call
  | OBJ_EXPR_SUPER name call => generateExprSuper name call
  | OBJ_EXPR_TYPE t => generateExprType t
  | OBJ_EXPR_TYPE_STRUCT fields => generateExprTypeStruct fields
  | OBJ_EXPR_TYPE_INDEXED_COLLECTION indexing => generateExprTypeIndexedCollection indexing
  end.
End Expr.

(** ** The recursion *)
Fixpoint generateExprElt (e : ObjExpr) : CM () := generate_expr_kind (for_each generateExprElt) generateStmt e
with generateStmt (s : ObjStmt) : CM () :=
  match s with
  | mkStmt line stmt => begin_stmt line ;; generate_stmt_kind (for_each generateExprElt) generateStmt stmt
  end.
Definition generateExpr : Expr → CM () := for_each generateExprElt.

End Compile.
