(* ===== verification/Verify.v ===== *)
(** * Byte code that can be run

    What an instruction needs of the stack of its frame and of its operands,
    and where it goes on, as an abstract machine that knows the depth of the
    stack only; code is safe if that machine never gets stuck.  Blocks of code
    are put together by the lemmas at the end. *)
From S2P Require Export Object.
Open Scope Z_scope.

(** What the operands refer to: the constants of the chunk, the number of
    upvalues of the function, and of the functions that it makes closures of. *)
Record FnInfo := mkInfo { consts : list Value; ups : nat; fn_ups : objptr → option nat }.

Definition operand_bytes (o : OpCode) : nat :=
  match o with
  | OP_CONSTANT | OP_GET_BUILTIN | OP_GET_LOCAL | OP_SET_LOCAL | OP_GET_GLOBAL | OP_DEFINE_GLOBAL
  | OP_SET_GLOBAL | OP_GET_UPVALUE | OP_SET_UPVALUE | OP_GET_PROPERTY | OP_SET_PROPERTY | OP_GET_SUPER
  | OP_CALL | OP_CLOSURE | OP_CLASS | OP_METHOD | OP_IMMEDIATE_P8 | OP_IMMEDIATE_N8 | OP_TYPE_LITERAL
  | OP_TYPE_STRUCT => 1
  | OP_JUMP | OP_JUMP_IF_FALSE | OP_LOOP | OP_INVOKE | OP_SUPER_INVOKE | OP_IMMEDIATE_P16 | OP_IMMEDIATE_N16 => 2
  | OP_IMMEDIATE_P24 | OP_IMMEDIATE_N24 => 3
  | _ => 0
  end.

(** How many values an instruction takes from the stack, and how many it
    leaves. *)
Definition effect (o : OpCode) (args : list Z) : nat * nat :=
  let n := Z.to_nat (List.last args 0) in
  match o with
  | OP_CONSTANT | OP_NIL | OP_TRUE | OP_FALSE | OP_GET_BUILTIN | OP_GET_LOCAL | OP_GET_GLOBAL | OP_GET_UPVALUE
  | OP_CLOSURE | OP_CLASS | OP_IMMEDIATE_P8 | OP_IMMEDIATE_P16 | OP_IMMEDIATE_P24 | OP_IMMEDIATE_N8
  | OP_IMMEDIATE_N16 | OP_IMMEDIATE_N24 | OP_TYPE_LITERAL => (0, 1)
  | OP_POP | OP_DEFINE_GLOBAL | OP_PRINT | OP_CLOSE_UPVALUE | OP_RETURN | OP_YIELD | OP_ERROR => (1, 0)
  | OP_SET_LOCAL | OP_SET_GLOBAL | OP_SET_UPVALUE | OP_GET_PROPERTY | OP_NOT | OP_NEGATE | OP_SET_CELL_TYPE
  | OP_DEREF_PTR | OP_DUPLICATE | OP_JUMP_IF_FALSE => (1, 1)
  | OP_INITIALISE | OP_SET_PROPERTY | OP_GET_SUPER | OP_EQUAL | OP_GREATER | OP_LESS | OP_LEFT_SHIFT
  | OP_RIGHT_SHIFT | OP_ADD | OP_SUBTRACT | OP_BITOR | OP_BITAND | OP_BITXOR | OP_MODULO | OP_MULTIPLY
  | OP_DIVIDE | OP_INHERIT | OP_METHOD | OP_ELEMENT | OP_TYPE_INDEXED_COLLECTION | OP_SET_PTR_TARGET
  | OP_PLACE => (2, 1)
  | OP_POKE => (2, 0)
  | OP_SET_ELEMENT => (3, 1)
  | OP_JUMP | OP_LOOP => (0, 0)
  | OP_CALL | OP_INVOKE => (n + 1, 1)
  | OP_SUPER_INVOKE => (n + 2, 1)
  | OP_TYPE_STRUCT => (3 * n, 1)
  end%nat.

Definition constant (F : FnInfo) (b : Z) : option Value := consts F !! Z.to_nat b.
Definition is_string_constant (F : FnInfo) (b : Z) : bool :=
  match constant F b with Some (TYPED_VAL (Simple String_) (Some _)) => true | _ => false end.

(** The operands of an instruction at depth [d]. *)
Definition operands_ok (F : FnInfo) (o : OpCode) (args : list Z) (d : nat) : bool :=
  match o, args with
  | OP_CONSTANT, [b] => bool_decide (is_Some (constant F b))
  | (OP_GET_GLOBAL | OP_DEFINE_GLOBAL | OP_SET_GLOBAL | OP_GET_PROPERTY | OP_SET_PROPERTY | OP_GET_SUPER
     | OP_CLASS | OP_METHOD), [b] => is_string_constant F b
  | (OP_INVOKE | OP_SUPER_INVOKE), [b; _] => is_string_constant F b
  | (OP_GET_LOCAL | OP_SET_LOCAL), [b] => (Z.to_nat b <? d)%nat
  | (OP_GET_UPVALUE | OP_SET_UPVALUE), [b] => (Z.to_nat b <? ups F)%nat
  | OP_GET_BUILTIN, [b] => (Z.to_nat b <? length builtins)%nat
  | OP_TYPE_LITERAL, [b] => bool_decide (is_Some (YargType.newYargTypeFromTypeCode b))
  | _, _ => true
  end.

(** The captures of a closure: a local of the frame, or an upvalue of the
    function. *)
Fixpoint captures_ok (F : FnInfo) (d n : nat) (bytes : list Z) : bool :=
  match n with
  | O => true
  | S n' =>
      match bytes with
      | isLocal :: index :: bytes' =>
          (if (isLocal =? 0)%Z then Z.to_nat index <? ups F else Z.to_nat index <? d)%nat && captures_ok F d n' bytes'
      | _ => false
      end
  end.
Definition closure_ups (F : FnInfo) (b : Z) : option nat :=
  match constant F b with Some (TYPED_VAL (Simple Function_) (Some p)) => fn_ups F p | _ => None end.

(** What follows an instruction at [o], with operands up to [next], that
    leaves the depth [d]. *)
Definition successors (F : FnInfo) (C : list Z) (op : OpCode) (args : list Z) (next d : nat) : option (list (nat * nat)) :=
  match op, args with
  | OP_JUMP, [hi; lo] => Some [((next + Z.to_nat (256 * hi + lo))%nat, d)]
  | OP_JUMP_IF_FALSE, [hi; lo] => Some [(next, d); ((next + Z.to_nat (256 * hi + lo))%nat, d)]
  | OP_LOOP, [hi; lo] =>
      let j := Z.to_nat (256 * hi + lo) in if (j <=? next)%nat then Some [((next - j)%nat, d)] else None
  | (OP_RETURN | OP_YIELD | OP_ERROR), _ => Some []
  | OP_CLOSURE, [b] =>
      n ← closure_ups F b;
      if captures_ok F d n (drop next C) then Some [((next + 2 * n)%nat, d)] else None
  | _, _ => Some [(next, d)]
  end.

(** One step of the abstract machine at offset [o] of the code, with [d]
    values in the frame: where it may go on; [None] if it is stuck. *)
Definition abstract_step (F : FnInfo) (C : list Z) (o d : nat) : option (list (nat * nat)) :=
  b ← C !! o;
  op ← decode b;
  let n := operand_bytes op in
  let args := take n (drop (S o) C) in
  let '(need, put) := effect op args in
  if (length args =? n)%nat && (need <=? d)%nat && operands_ok F op args d
  then successors F C op args (S o + n) (d - need + put)
  else None.

(** ** Safety *)
Section Safe.
Variables (F : FnInfo) (C : list Z).

(** [R] is closed under the steps of the machine, but for the exits [E]. *)
Definition closed_under (E R : nat → nat → Prop) : Prop :=
  ∀ o d, R o d → E o d ∨ ∃ l, abstract_step F C o d = Some l ∧ Forall (λ x, R x.1 x.2) l.
(** From here the machine is never stuck before it comes to an exit. *)
Definition safe (E : nat → nat → Prop) (o d : nat) : Prop := ∃ R, R o d ∧ closed_under E R.

Lemma safe_closed E : closed_under E (safe E).
Proof.
  intros o d (R & HR & Hc). destruct (Hc o d HR) as [H|(l & E' & Hl)]; [by left|right].
  exists l. split; [done|]. eapply list.Forall_impl; [done|]. intros x Hx. by exists R.
Qed.

Lemma safe_here (E : nat → nat → Prop) o d : E o d → safe E o d.
Proof. intros H. exists E. split; [done|]. intros o' d' H'. by left. Qed.

Lemma safe_step E o d l : abstract_step F C o d = Some l → Forall (λ x, safe E x.1 x.2) l → safe E o d.
Proof.
  intros Hs Hl. exists (λ o' d', safe E o' d' ∨ (o' = o ∧ d' = d)). split; [by right|].
  intros o' d' [H|[-> ->]].
  - destruct (safe_closed E o' d' H) as [|(l' & E' & Hl')]; [by left|right; exists l'].
    split; [done|]. eapply list.Forall_impl; [done|]. intros x Hx. by left.
  - right. exists l. split; [done|]. eapply list.Forall_impl; [done|]. intros x Hx. by left.
Qed.

Lemma safe_cut (E E' : nat → nat → Prop) o d : safe E o d → (∀ o' d', E o' d' → safe E' o' d') → safe E' o d.
Proof.
  intros H HE. exists (λ o d, safe E o d ∨ safe E' o d). split; [by left|].
  assert (∀ o d, safe E' o d → E' o d ∨ ∃ l, abstract_step F C o d = Some l ∧
            Forall (λ x, safe E x.1 x.2 ∨ safe E' x.1 x.2) l) as H'.
  { intros o1 d1 H1. destruct (safe_closed E' o1 d1 H1) as [|(l & El & Hl)]; [by left|right; exists l].
    split; [done|]. eapply list.Forall_impl; [done|]. intros x Hx. by right. }
  intros o1 d1 [H1|H1]; [|by apply H'].
  destruct (safe_closed E o1 d1 H1) as [HE1|(l & El & Hl)]; [by apply H', HE|right; exists l].
  split; [done|]. eapply list.Forall_impl; [done|]. intros x Hx. by left.
Qed.

Lemma safe_mono (E E' : nat → nat → Prop) o d : safe E o d → (∀ o' d', E o' d' → E' o' d') → safe E' o d.
Proof. intros H HE. eapply safe_cut; [done|]. intros. by apply safe_here, HE. Qed.

(** A loop: the point it comes back to may be taken for an exit. *)
Lemma safe_loop E o d l :
  abstract_step F C o d = Some l →
  Forall (λ x, safe (λ o' d', E o' d' ∨ (o' = o ∧ d' = d)) x.1 x.2) l → safe E o d.
Proof.
  intros Hs Hl. set (E' := λ o' d', E o' d' ∨ (o' = o ∧ d' = d)) in *.
  exists (λ o' d', safe E' o' d' ∨ (o' = o ∧ d' = d)). split; [by right|].
  assert (Forall (λ x, safe E' x.1 x.2 ∨ (x.1 = o ∧ x.2 = d)) l) as Hl'
    by (eapply list.Forall_impl; [done|]; intros x Hx; by left).
  intros o' d' [H|[-> ->]]; [|right; by exists l].
  destruct (safe_closed E' o' d' H) as [[|[-> ->]]|(l' & El & Hl1)]; [by left|right; by exists l|right; exists l'].
  split; [done|]. eapply list.Forall_impl; [done|]. intros x Hx. by left.
Qed.
End Safe.

(** ** Code at a place *)
Definition placed (C : list Z) (o : nat) (D : list Z) : Prop := ∀ i x, D !! i = Some x → C !! (o + i)%nat = Some x.

Lemma placed_app C o D1 D2 : placed C o (D1 ++ D2) ↔ placed C o D1 ∧ placed C (o + length D1) D2.
Proof.
  split.
  - intros H. split; intros i x Hi; [apply H; by apply lookup_app_l_Some|].
    rewrite <-Nat.add_assoc. apply H. rewrite lookup_app_r by lia. by replace (_ + i - _)%nat with i by lia.
  - intros [H1 H2] i x Hi. apply lookup_app_Some in Hi as [Hi|[Hl Hi]]; [by apply H1|].
    replace (o + i)%nat with (o + length D1 + (i - length D1))%nat by lia. by apply H2.
Qed.
Lemma placed_cons C o x D : placed C o (x :: D) ↔ C !! o = Some x ∧ placed C (S o) D.
Proof.
  rewrite (placed_app C o [x] D). simpl. rewrite Nat.add_1_r. apply and_iff_compat_r. split.
  - intros H. specialize (H 0%nat x eq_refl). by rewrite Nat.add_0_r in H.
  - intros H [|i] y Hy; [|done]. injection Hy as <-. by rewrite Nat.add_0_r.
Qed.
Lemma placed_nil C o : placed C o [].
Proof. by intros i x Hi. Qed.
Lemma placed_all C : placed C 0 C.
Proof. by intros i x Hi. Qed.
Lemma placed_take C o D : placed C o D → take (length D) (drop o C) = D.
Proof.
  intros H. apply list_eq. intros i. destruct (D !! i) as [x|] eqn:Hi.
  - pose proof (lookup_lt_Some _ _ _ Hi). rewrite lookup_take_lt, lookup_drop by lia. by apply H.
  - apply lookup_ge_None in Hi. by rewrite lookup_take_ge by lia.
Qed.

(** ** The steps of instructions *)
Section Steps.
Variable F : FnInfo.

Lemma step_at C o op args d :
  placed C o (encode op :: args) → length args = operand_bytes op →
  ((effect op args).1 ≤ d)%nat → operands_ok F op args d = true →
  abstract_step F C o d =
    successors F C op args (S o + operand_bytes op) (d - (effect op args).1 + (effect op args).2).
Proof.
  intros [Hb Ha]%placed_cons HL Hd Ho. unfold abstract_step. rewrite Hb. cbn [mbind option_bind].
  rewrite decode_encode. cbn [mbind option_bind].
  rewrite <-HL. rewrite (placed_take _ _ _ Ha). destruct (effect op args) as [need put]. simpl in Hd |- *.
  rewrite Nat.eqb_refl, Ho. by rewrite (proj2 (Nat.leb_le _ _) Hd).
Qed.
End Steps.

(** ** Blocks *)

(** From depth [n] the block comes to its end with depth [m], whatever code
    it is part of. *)
Definition flow (F : FnInfo) (D : list Z) (n m : nat) : Prop :=
  ∀ C o E, placed C o D → safe F C E (o + length D) m → safe F C E o n.
(** A function: the end of the code is not reached. *)
Definition verified (F : FnInfo) (C : list Z) (n : nat) : Prop := safe F C (λ _ _, False) 0 n.

Record info_le (F F' : FnInfo) : Prop := {
  le_consts : ∃ l, consts F' = consts F ++ l;
  le_ups : (ups F ≤ ups F')%nat;
  le_fns : ∀ p n, fn_ups F p = Some n → fn_ups F' p = Some n
}.

#[export] Instance info_le_preorder : PreOrder info_le.
Proof.
  split.
  - intros F. split; [exists []; by rewrite app_nil_r|done|done].
  - intros F1 F2 F3 [[l1 H1] U1 P1] [[l2 H2] U2 P2]. split; [|lia|by eauto].
    exists (l1 ++ l2). by rewrite H2, H1, app_assoc.
Qed.

Lemma constant_le F F' b v : info_le F F' → constant F b = Some v → constant F' b = Some v.
Proof. intros [[l H] _ _]. unfold constant. rewrite H. apply lookup_app_l_Some. Qed.
Lemma string_le F F' b : info_le F F' → is_string_constant F b = true → is_string_constant F' b = true.
Proof.
  intros H. unfold is_string_constant. destruct (constant F b) as [v|] eqn:E; [|done].
  by rewrite (constant_le F F' b v H E).
Qed.
(** All that the machine asks of what the code refers to. *)
Record info_sim (F F' : FnInfo) : Prop := {
  sim_some : ∀ b, is_Some (constant F b) → is_Some (constant F' b);
  sim_string : ∀ b, is_string_constant F b = true → is_string_constant F' b = true;
  sim_closure : ∀ b n, closure_ups F b = Some n → closure_ups F' b = Some n;
  sim_ups : (ups F ≤ ups F')%nat
}.
Lemma info_le_sim F F' : info_le F F' → info_sim F F'.
Proof.
  intros H. split; [intros b [c E]; exists c; by apply (constant_le F)|intros b; by apply string_le| |apply H].
  intros b n. unfold closure_ups. destruct (constant F b) as [c|] eqn:E; [|done]. rewrite (constant_le F F' b c H E).
  repeat case_match; try done. apply (le_fns _ _ H).
Qed.
Lemma operands_sim F F' op args d : info_sim F F' → operands_ok F op args d = true → operands_ok F' op args d = true.
Proof.
  intros H. pose proof (sim_ups _ _ H). pose proof (sim_string _ _ H) as Hs.
  destruct op; try done; simpl; repeat (destruct args as [|? args]; try done); try apply Hs.
  - rewrite !bool_decide_eq_true. apply (sim_some _ _ H).
  - rewrite !Nat.ltb_lt. lia.
  - rewrite !Nat.ltb_lt. lia.
Qed.
Lemma captures_sim F F' d n bytes : info_sim F F' → captures_ok F d n bytes = true → captures_ok F' d n bytes = true.
Proof.
  intros H. pose proof (sim_ups _ _ H). revert bytes. induction n as [|n IH]; intros bytes; [done|].
  destruct bytes as [|l [|i bytes]]; try done. simpl. rewrite !andb_true_iff. intros [H1 H2]. split; [|by apply IH].
  destruct (l =? 0); [|done]. rewrite Nat.ltb_lt in *. lia.
Qed.
Lemma successors_sim F F' C op args next d l :
  info_sim F F' → successors F C op args next d = Some l → successors F' C op args next d = Some l.
Proof.
  intros H. destruct op; try done. simpl. repeat (destruct args as [|? args]; try done).
  destruct (closure_ups F z) as [n|] eqn:En; [|done]. rewrite (sim_closure _ _ H _ _ En). cbn [mbind option_bind].
  destruct (captures_ok F d n _) eqn:Ec; [|done]. by rewrite (captures_sim F F' d n _ H Ec).
Qed.
Lemma step_sim F F' C o d l : info_sim F F' → abstract_step F C o d = Some l → abstract_step F' C o d = Some l.
Proof.
  intros H. unfold abstract_step. destruct (C !! o) as [b|]; [|done]. cbn [mbind option_bind].
  destruct (decode b) as [op|]; [|done]. cbn [mbind option_bind]. destruct (effect op _) as [need put].
  destruct (_ && _ && _) eqn:E; [|done].
  rewrite !andb_true_iff in E. destruct E as [[E1 E2] E3].
  rewrite E1, E2, (operands_sim F F' _ _ _ H E3). by apply successors_sim.
Qed.
Lemma safe_sim F F' C E o d : info_sim F F' → safe F C E o d → safe F' C E o d.
Proof.
  intros HF (R & HR & Hc). exists R. split; [done|].
  intros o' d' H'. destruct (Hc o' d' H') as [|(l & El & Hl)]; [by left|right; exists l].
  split; [by eapply step_sim|done].
Qed.
Lemma safe_le F F' C E o d : info_le F F' → safe F C E o d → safe F' C E o d.
Proof. intros H. by apply safe_sim, info_le_sim. Qed.

Lemma flow_le F F' D n m : info_le F F' → flow F D n m → flow F' D n m.
Proof.
  intros H HD C o E Hp HE.
  apply (safe_cut F' C (λ o' d', o' = (o + length D)%nat ∧ d' = m)); [|by intros ? ? [-> ->]].
  apply (safe_le F F'); [done|]. apply HD; [done|]. by apply safe_here.
Qed.

Section Flow.
Variable F : FnInfo.
Abbreviation flow := (flow F).

Lemma flow_nil n : flow [] n n.
Proof. intros C o E _ H. simpl in H. by rewrite Nat.add_0_r in H. Qed.
Lemma flow_app D1 D2 n m k : flow D1 n m → flow D2 m k → flow (D1 ++ D2) n k.
Proof.
  intros H1 H2 C o E [P1 P2]%placed_app HE. apply H1; [done|]. apply H2; [done|].
  by rewrite length_app, Nat.add_assoc in HE.
Qed.

(** An instruction that goes on behind its operands. *)
Definition falls_through (op : OpCode) : bool :=
  match op with
  | OP_JUMP | OP_JUMP_IF_FALSE | OP_LOOP | OP_RETURN | OP_YIELD | OP_ERROR | OP_CLOSURE => false
  | _ => true
  end.
Lemma flow_op op args n m :
  falls_through op = true → length args = operand_bytes op → operands_ok F op args n = true →
  ((effect op args).1 ≤ n)%nat → m = (n - (effect op args).1 + (effect op args).2)%nat →
  flow (encode op :: args) n m.
Proof.
  intros Hf HL Ho Hn -> C o E Hp HE. eapply safe_step.
  - rewrite (step_at F C o op args n) by done. by destruct op.
  - constructor; [|done]. simpl in *. rewrite <-HL. by replace (S (o + length args)) with (o + S (length args))%nat by lia.
Qed.
(** An instruction that ends the run: what follows is not reached. *)
Definition stops (op : OpCode) : bool := match op with OP_RETURN | OP_YIELD | OP_ERROR => true | _ => false end.
Lemma stop_step C o op n : stops op = true → placed C o [encode op] → (1 ≤ n)%nat → abstract_step F C o n = Some [].
Proof. intros Hop Hp Hn. rewrite (step_at F C o op [] n); by destruct op. Qed.
Lemma flow_stop op n m : stops op = true → (1 ≤ n)%nat → flow [encode op] n m.
Proof. intros Hop Hn C o E Hp _. by eapply safe_step; [apply (stop_step C o op n)|]. Qed.
Lemma verified_stop D op n m : stops op = true → (1 ≤ m)%nat → flow D n m → verified F (D ++ [encode op]) n.
Proof.
  intros Hop Hm HD. pose proof (placed_all (D ++ [encode op])) as [P1 P2]%placed_app.
  apply HD; [done|]. by eapply safe_step; [by apply (stop_step _ _ op m)|].
Qed.

(** The instruction that makes a closure, with its captures. *)
Lemma captures_prefix d n bytes rest : length bytes = (2 * n)%nat → captures_ok F d n bytes = true →
  captures_ok F d n (bytes ++ rest) = true.
Proof.
  revert bytes. induction n as [|n IH]; intros bytes HL; [done|].
  destruct bytes as [|l [|i bytes]]; try done. simpl in HL |- *. rewrite !andb_true_iff.
  intros [H1 H2]. split; [done|]. apply IH; [lia|done].
Qed.
Lemma flow_closure b k bytes d : closure_ups F b = Some k → length bytes = (2 * k)%nat →
  captures_ok F (S d) k bytes = true → flow (encode OP_CLOSURE :: b :: bytes) d (S d).
Proof.
  intros Hk HL Hc C o E Hp HE. rewrite !placed_cons in Hp. destruct Hp as (P1 & P2 & P3).
  eapply safe_step.
  - rewrite (step_at F C o OP_CLOSURE [b] d); [|by rewrite !placed_cons|done|simpl; lia|done].
    cbn [successors effect fst snd operand_bytes]. rewrite Hk. cbn [mbind option_bind].
    replace (drop (S o + 1) C) with (bytes ++ drop (S (S o) + length bytes) C).
    + replace (d - 0 + 1)%nat with (S d) by lia. by rewrite captures_prefix.
    + rewrite Nat.add_1_r. rewrite <-(take_drop (length bytes) (drop (S (S o)) C)).
      by rewrite (placed_take C _ bytes P3), drop_drop.
  - constructor; [|done]. cbn [fst snd length] in *. replace (d - 0 + 1)%nat with (S d) by lia.
    replace (S o + 1 + 2 * k)%nat with (o + S (S (length bytes)))%nat by lia. done.
Qed.

(** ** Jumps *)
Definition jump_bytes (j : nat) : list Z := [Z.land (Z.shiftr (Z.of_nat j) 8) 255; Z.land (Z.of_nat j) 255].

Lemma jump_value j : Z.of_nat j ≤ 65535 →
  Z.to_nat (256 * Z.land (Z.shiftr (Z.of_nat j) 8) 255 + Z.land (Z.of_nat j) 255) = j.
Proof.
  intros Hj. change 255 with (Z.ones 8). rewrite !Z.land_ones, Z.shiftr_div_pow2 by lia.
  change (2 ^ 8) with 256. assert (0 ≤ Z.of_nat j / 256 < 256) as Hd.
  { split; [apply Z.div_pos; lia|apply Z.div_lt_upper_bound; lia]. }
  rewrite (Z.mod_small (_ / _)) by done. rewrite <-Z.div_mod by lia. lia.
Qed.

Section Jumps.
Variables (C : list Z) (E : nat → nat → Prop) (o j d : nat).
Hypothesis Hj : Z.of_nat j ≤ 65535.

Lemma jump_step op : op ∈ [OP_JUMP; OP_JUMP_IF_FALSE; OP_LOOP] → placed C o (encode op :: jump_bytes j) →
  (1 ≤ d)%nat → abstract_step F C o d = successors F C op (jump_bytes j) (o + 3) d.
Proof.
  intros Hop Hp Hd. rewrite !list.elem_of_cons in Hop.
  destruct Hop as [->|[->|[->|[]%list.not_elem_of_nil]]]; rewrite (step_at F C o _ (jump_bytes j) d Hp)
    by (done || (simpl; lia)); cbn [effect fst snd operand_bytes]; f_equal; lia.
Qed.

Lemma safe_jump : placed C o (encode OP_JUMP :: jump_bytes j) → (1 ≤ d)%nat →
  safe F C E (o + 3 + j) d → safe F C E o d.
Proof.
  intros Hp Hd HE. eapply safe_step; [rewrite (jump_step OP_JUMP) by (done || set_solver); simpl; by rewrite jump_value|].
  by constructor.
Qed.
Lemma safe_jump_if : placed C o (encode OP_JUMP_IF_FALSE :: jump_bytes j) → (1 ≤ d)%nat →
  safe F C E (o + 3) d → safe F C E (o + 3 + j) d → safe F C E o d.
Proof.
  intros Hp Hd H1 H2. eapply safe_step; [rewrite (jump_step OP_JUMP_IF_FALSE) by (done || set_solver); simpl; by rewrite jump_value|].
  by repeat constructor.
Qed.
(** The code between the target of the loop and the loop comes back to it. *)
Lemma safe_back : placed C o (encode OP_LOOP :: jump_bytes j) → (1 ≤ d)%nat → (j ≤ o + 3)%nat →
  safe F C (λ o' d', E o' d' ∨ (o' = o ∧ d' = d)) (o + 3 - j) d → safe F C E o d.
Proof.
  intros Hp Hd Ho HE. eapply safe_loop.
  - rewrite (jump_step OP_LOOP) by (done || set_solver). cbn [successors jump_bytes]. cbv zeta.
    rewrite jump_value by done. by rewrite (proj2 (Nat.leb_le _ _) Ho).
  - by constructor.
Qed.
End Jumps.

(** ** The shapes of the compiler *)
Definition jump (op : OpCode) (j : nat) : list Z := encode op :: jump_bytes j.
Definition short (D : list Z) : Prop := Z.of_nat (length D) ≤ 65535.

(** Take the code apart, and run: a block, or to the exit. *)
Ltac places := repeat match goal with H : placed _ _ (_ ++ _) |- _ => apply placed_app in H as [? H] end.
Ltac at_place := repeat rewrite length_app in *; cbn [length jump jump_bytes] in *.
Ltac there := match goal with H : safe _ _ _ ?x ?d |- safe _ _ _ ?y ?d => replace y with x by (at_place; lia); exact H end.
Ltac block H := eapply H; [eassumption|].

Lemma flow_and R d : flow R d d → short R → (1 ≤ d)%nat → flow (jump OP_JUMP_IF_FALSE (length R) ++ R) d d.
Proof.
  intros HR Hs Hd C o E Hp HE. places. eapply safe_jump_if; [exact Hs|eassumption|done| |there].
  block HR. there.
Qed.
Lemma flow_or R d : flow R d d → short R → (1 ≤ d)%nat →
  flow (jump OP_JUMP_IF_FALSE 3 ++ jump OP_JUMP (length R) ++ R) d d.
Proof.
  intros HR Hs Hd C o E Hp HE. places.
  assert (safe F C E (o + 3 + 3) d) as H3.
  { replace (o + 3 + 3)%nat with (o + length (jump OP_JUMP_IF_FALSE 3) + length (jump OP_JUMP (length R)))%nat
      by (at_place; lia). block HR. there. }
  eapply safe_jump_if; [|eassumption|done| |exact H3]; [lia|].
  eapply safe_jump; [exact Hs|eassumption|done|there].
Qed.
Lemma flow_if D1 D2 n m : flow D1 n m → flow D2 n m → short (D1 ++ jump OP_JUMP (length D2)) → short D2 →
  (1 ≤ n)%nat → (1 ≤ m)%nat →
  flow (jump OP_JUMP_IF_FALSE (length D1 + 3) ++ D1 ++ jump OP_JUMP (length D2) ++ D2) n m.
Proof.
  intros H1 H2 Hs1 Hs2 Hn Hm C o E Hp HE. places. unfold short in *. at_place.
  eapply safe_jump_if; [|eassumption|done| |]; [lia| |].
  - replace (o + 3)%nat with (o + length (jump OP_JUMP_IF_FALSE (length D1 + 3)))%nat by (at_place; lia).
    block H1. eapply safe_jump; [exact Hs2|eassumption|done|there].
  - replace (o + 3 + (length D1 + 3))%nat with (o + length (jump OP_JUMP_IF_FALSE (length D1 + 3)) + length D1 +
      length (jump OP_JUMP (length D2)))%nat by (at_place; lia).
    block H2. there.
Qed.

(** Loops.  The head of a loop goes on behind it at depth [d], or [a] bytes
    further at depth [n]. *)
Definition loop_head (H : list Z) (d a n : nat) : Prop :=
  ∀ C o E, placed C o H → safe F C E (o + length H) d → safe F C E (o + length H + a) n → safe F C E o d.

Lemma head_always d a n : loop_head [] d a n.
Proof. intros C o E _ H _. by rewrite Nat.add_0_r in H. Qed.
Lemma head_test T P d n a : flow T d n → flow P n d → Z.of_nat (length P + a) ≤ 65535 → (1 ≤ n)%nat →
  loop_head (T ++ jump OP_JUMP_IF_FALSE (length P + a) ++ P) d a n.
Proof.
  intros HT HP Hs Hn C o E Hp H1 H2. places. block HT.
  eapply safe_jump_if; [exact Hs|eassumption|done| |there].
  replace (o + length T + 3)%nat with (o + length T + length (jump OP_JUMP_IF_FALSE (length P + a)))%nat by (at_place; lia).
  block HP. there.
Qed.

Lemma flow_loop H B d n : loop_head H d (length B + 3) n → flow B d d →
  Z.of_nat (length H + length B + 3) ≤ 65535 → (1 ≤ d)%nat →
  flow (H ++ B ++ jump OP_LOOP (length H + length B + 3)) d n.
Proof.
  intros HH HB Hs Hd C o E Hp HE. places.
  assert (∀ E', safe F C E' (o + length H + length B) d → safe F C E' (o + length H + length B + 3) n →
    safe F C E' o d) as Hround.
  { intros E' K1 K2. eapply HH; [eassumption| |there]. block HB. there. }
  apply Hround; [|there]. eapply safe_back; [exact Hs|eassumption|done|lia|].
  replace (o + length H + length B + 3 - (length H + length B + 3))%nat with o by lia.
  apply Hround; [apply safe_here; by right|]. eapply safe_mono; [there|]. by left.
Qed.

Lemma flow_loop_step H I B d n : loop_head H d (3 + length I + 3 + length B + 3) n → flow I d d → flow B d d →
  Z.of_nat (length H + 3 + length I + 3) ≤ 65535 → Z.of_nat (length I + 3 + length B + 3) ≤ 65535 → (1 ≤ d)%nat →
  flow (H ++ jump OP_JUMP (length I + 3) ++ I ++ jump OP_LOOP (length H + 3 + length I + 3) ++ B ++
        jump OP_LOOP (length I + 3 + length B + 3)) d n.
Proof.
  intros HH HI HB Hs1 Hs2 Hd C o E Hp HE. places.
  set (p1 := (o + length H + length (jump OP_JUMP (length I + 3)) + length I)%nat) in *.
  set (p2 := (p1 + length (jump OP_LOOP (length H + 3 + length I + 3)) + length B)%nat) in *.
  assert (∀ E', safe F C E' p2 d → safe F C E' (p2 + 3) n → safe F C E' o d) as Hround.
  { intros E' K1 K2. unfold p1, p2 in *. eapply HH; [eassumption| |there].
    eapply (safe_jump C E' _ (length I + 3)); [lia|eassumption|done|].
    replace (o + length H + 3 + (length I + 3))%nat with (o + length H + length (jump OP_JUMP (length I + 3)) + length I +
      length (jump OP_LOOP (length H + 3 + length I + 3)))%nat by (at_place; lia).
    block HB. there. }
  assert (∀ E', safe F C E' p1 d → safe F C E' p2 d) as Hinc.
  { intros E' K1. eapply safe_back; [exact Hs2|eassumption|done|unfold p2, p1; at_place; lia|].
    replace (p2 + 3 - (length I + 3 + length B + 3))%nat with (o + length H + length (jump OP_JUMP (length I + 3)))%nat
      by (unfold p2, p1; at_place; lia).
    block HI. eapply safe_mono; [exact K1|]. by left. }
  assert (∀ E', safe F C E' (p2 + 3) n → safe F C E' p1 d) as Hback.
  { intros E' K1. eapply safe_back; [exact Hs1|eassumption|done|unfold p1; at_place; lia|].
    replace (p1 + 3 - (length H + 3 + length I + 3))%nat with o by (unfold p1; at_place; lia).
    apply Hround; [apply Hinc, safe_here; by right|]. eapply safe_mono; [exact K1|]. by left. }
  assert (safe F C E (p2 + 3) n) by (unfold p2, p1; there). apply Hround; [apply Hinc, Hback|]; done.
Qed.

End Flow.
