(* ===== verification/CompilerFrame.v ===== *)
(** * What the compiler leaves alone

    The functions of the virtual machine that the compiler uses change the
    pool of strings, the heap of integers and the stack of the routine that
    compiles, but no function object. *)
From Stdlib Require Import String Ascii.
From S2P Require Import Scanner YargTypeSpec.
From S2P Require Export Compiler Verify.
Open Scope Z_scope.

(** ** Commands that keep the objects *)
Definition still {A} (c : VMM A) : Prop := ∀ v, post c v (λ _ v', vm_objects v' = vm_objects v).

Lemma still_bind {A B} (c : VMM A) (f : A → VMM B) : still c → (∀ a, still (f a)) → still (c ≫= f).
Proof.
  intros Hc Hf v. apply post_bind. intros a v' E. intros b v'' E'. rewrite (Hf a v' b v'' E'). by eapply Hc.
Qed.
Lemma still_ret {A} (a : A) : still (mret a).
Proof. intros v. by apply post_ret. Qed.
Lemma still_fail {A} : still (A := A) vm_fail.
Proof. by intros v a v'. Qed.
Lemma still_get : still get_vm.
Proof. by intros v a v' [= <- <-]. Qed.
Lemma still_opt {A} (o : option A) : still (opt o).
Proof. intros v a v'. unfold opt. destruct o; [by intros [= <- <-]|done]. Qed.
Lemma still_heap {A} (c : PM A) : still (with_heap c).
Proof. intros v a v'. unfold with_heap. destruct (c _) as [[? ?]|]; [by intros [= <- <-]|done]. Qed.
Lemma still_pool {A} (c : Pool → option (A * Pool)) : still (with_pool c).
Proof. intros v a v'. unfold with_pool. destruct (c _) as [[? ?]|]; [by intros [= <- <-]|done]. Qed.
Lemma still_put f : (∀ v, vm_objects (f v) = vm_objects v) → still (put_vm f).
Proof. by intros H v a v' [= <- <-]. Qed.
Lemma still_newYargType : still newYargType.
Proof. by intros v a v' [= <- <-]. Qed.

Create HintDb still.
#[export] Hint Resolve still_ret still_fail still_get still_opt still_heap still_pool still_newYargType : still.
#[export] Hint Extern 1 (still (put_vm _)) => apply still_put; done : still.
(** Follow the binds and the matches of a command. *)
Ltac still := repeat first
  [ by eauto with still
  | apply still_bind; [|intros ?]
  | match goal with
    | |- still (let '(_, _) := ?x in _) => destruct x
    | |- still (match ?x with _ => _ end) => destruct x
    | |- still (if ?x then _ else _) => destruct x
    end ].

Lemma still_tempRootPush v : still (tempRootPush v).
Proof. unfold tempRootPush. still. Qed.
Lemma still_tempRootPop : still tempRootPop.
Proof. unfold tempRootPop. still. Qed.
Lemma still_intern cs : still (intern cs).
Proof. apply still_pool. Qed.
Lemma still_chars k : still (chars_of k).
Proof. unfold chars_of. still. Qed.
Lemma still_get_obj p : still (get_obj p).
Proof. unfold get_obj. still. Qed.
#[export] Hint Resolve still_tempRootPush still_tempRootPop still_intern still_chars still_get_obj : still.
Lemma still_get_function p : still (get_function p).
Proof. unfold get_function. still. Qed.
Lemma still_get_closure p : still (get_closure p).
Proof. unfold get_closure. still. Qed.
Lemma still_get_class p : still (get_class p).
Proof. unfold get_class. still. Qed.
Lemma still_get_routine p : still (get_routine p).
Proof. unfold get_routine. still. Qed.
#[export] Hint Resolve still_get_function still_get_closure still_get_class still_get_routine : still.

(** ** The text of values *)
Section Text.
Context `{U : Uninit} `{TG : Target} `{HO : Host}.

Lemma still_type_text t : still (typeLiteralToString t).
Proof.
  assert (∀ e, P_at (λ t, still (typeLiteralToString t)) e →
    still (at_type (intern (codes "any")) typeLiteralToString e)) as Hat.
  { intros [e|] He; [exact He|apply still_intern]. }
  induction t as [s|p n e IH|p st IH|p e IH|p k v IHk IHv] using YargType_ind'; cbn [typeLiteralToString].
  - still.
  - apply still_bind; [by apply Hat|intros ?; still].
  - apply still_bind; [|intros ?; still].
    generalize (fit 1024 (codes "struct{|" ++ decimal (Z.of_nat (field_count st)) ++ codes ":" ++
                          decimal (storage_size st) ++ codes "| ")).
    induction IH as [|f ts Hf _ IHts]; intros buffer; [still|].
    apply still_bind; [by apply Hat|intros ?; still; apply IHts].
  - apply still_bind; [by apply Hat|intros ?; still].
  - apply still_bind; [by apply Hat|intros ?]. apply still_bind; [still|intros _].
    apply still_bind; [by apply Hat|intros ?; still].
Qed.
#[local] Hint Resolve still_type_text : still.
Lemma still_type_object t : still (type_objectToString t).
Proof. unfold type_objectToString, typeToString. still. Qed.
Lemma still_function_text f : still (functionToString f).
Proof. unfold functionToString. still. Qed.
#[local] Hint Resolve still_type_object still_function_text : still.
Lemma still_rooted {A} vs (c : VMM A) : still c → still (rooted vs c).
Proof. intros Hc. induction vs as [|v vs IH]; simpl; [done|]. still. Qed.

Section Elements.
Variable text : Value → VMM strptr.
Hypothesis Htext : ∀ v, still (text v).
#[local] Hint Resolve Htext : still.

Lemma still_elements roots size vs : Forall still vs → ∀ last sep buffer,
  still (elementsToString text roots size vs last sep buffer).
Proof.
  induction 1 as [|v vs Hv _ IH]; intros last sep buffer; [apply still_ret|].
  cbn [elementsToString]. apply still_bind; [done|intros x].
  apply still_bind; [|intros ?; apply IH].
  apply still_rooted, still_bind; [apply Htext|intros k]. apply still_rooted. still.
Qed.
Lemma still_list {A B} (f : A → VMM B) l : (∀ x, still (f x)) → Forall still (f <$> l).
Proof. intros Hf. apply Forall_fmap, list.Forall_forall. intros x _. apply Hf. Qed.

Lemma still_object_text o : still (objectToString text o).
Proof.
  unfold objectToString, channelToString, syncGroupToString, mapToString.
  destruct o; try (still; fail).
  apply still_bind; [still|intros ?]. apply still_bind; [|intros ?; still].
  apply still_elements, still_list. intros i. still.
Qed.
Lemma still_array_text v : still (arrayToString text v).
Proof.
  unfold arrayToString. destruct (type_of v) as [[]|]; try (still; fail).
  apply still_bind; [still|intros ?]. apply still_bind; [still|intros ?]. apply still_bind; [|intros ?; still].
  apply still_elements, still_list. intros i. still.
Qed.
Lemma still_struct_text v : still (structToString text v).
Proof.
  unfold structToString. destruct (type_of v) as [[]|]; try (still; fail).
  apply still_bind; [|intros ?; still]. apply still_elements, still_list. intros i. still.
Qed.
Lemma still_pointer_text v : still (pointerToString v).
Proof.
  unfold pointerToString. still.
Qed.
End Elements.

Lemma still_valueToString fuel v : still (valueToString fuel v).
Proof.
  revert v. induction fuel as [|fuel IH]; intros v; [apply still_fail|]. cbn [valueToString]. cbv zeta.
  destruct (IS_NIL v); [apply still_intern|].
  destruct v as [| | | | | |t p| |]; try (unfold intToString; still; fail).
  assert (still match yt t with
            | TypeArray => arrayToString (valueToString fuel) (TYPED_VAL t p)
            | TypeStruct => structToString (valueToString fuel) (TYPED_VAL t p)
            | TypePointer => pointerToString (TYPED_VAL t p)
            | _ => p ← opt (obj_at (TYPED_VAL t p)); o ← get_obj p; objectToString (valueToString fuel) o
            end) as H.
  { assert (still (p ← opt (obj_at (TYPED_VAL t p)); o ← get_obj p; objectToString (valueToString fuel) o)) as Ho.
    { apply still_bind; [still|intros ?]. apply still_bind; [still|intros ?]. by apply still_object_text. }
    destruct (yt t); first [exact Ho | by apply still_array_text | by apply still_struct_text | apply still_pointer_text]. }
  destruct t as [[]| | | |]; try done; destruct p; try done; unfold routineToString; still.
Qed.
End Text.

(** ** Commands that keep the functions *)
Definition fn_of (v : VM) (p : objptr) : option ObjFunction :=
  match vm_objects v !! p with Some (OBJ_FUNCTION f) => Some f | _ => None end.
Definition is_routine (v : VM) (r : objptr) : Prop := ∃ R, vm_objects v !! r = Some (OBJ_ROUTINE R).

Record same_fns (r : objptr) (v v' : VM) : Prop := {
  same_routine : is_routine v' r;
  same_fn : ∀ p, fn_of v' p = fn_of v p
}.
(** With a routine [r] to work on. *)
Definition calm (r : objptr) {A} (c : VMM A) : Prop := ∀ v, is_routine v r → post c v (λ _ v', same_fns r v v').

Section Calm.
Context `{U : Uninit} `{TG : Target} `{HO : Host}.
Variable r : objptr.

Lemma calm_still {A} (c : VMM A) : still c → calm r c.
Proof.
  intros Hc v Hr a v' E. pose proof (Hc v a v' E) as HO'. unfold is_routine, fn_of in *.
  split; [unfold is_routine|intros p; unfold fn_of]; by rewrite HO'.
Qed.
Lemma calm_bind {A B} (c : VMM A) (f : A → VMM B) : calm r c → (∀ a, calm r (f a)) → calm r (c ≫= f).
Proof.
  intros Hc Hf v Hr. apply post_bind. intros a v1 E1 b v2 E2.
  destruct (Hc v Hr a v1 E1) as [H1 S1]. destruct (Hf a v1 H1 b v2 E2) as [H2 S2].
  split; [done|]. intros p. by rewrite S2.
Qed.
Lemma calm_put R : calm r (put_routine r R).
Proof.
  intros v [R0 HR0] a v' [= <- <-]. split.
  - exists R. apply lookup_insert_eq.
  - intros p. unfold fn_of. simpl. destruct (decide (p = r)) as [->|].
    + by rewrite lookup_insert_eq, HR0.
    + by rewrite lookup_insert_ne.
Qed.
Ltac calm := repeat first
  [ apply calm_put
  | by apply calm_still; still
  | apply calm_bind; [|intros ?]
  | match goal with
    | |- calm _ (let '(_, _) := ?x in _) => destruct x
    | |- calm _ (match ?x with _ => _ end) => destruct x
    | |- calm _ (if ?x then _ else _) => destruct x
    end ].

Lemma calm_modify f : calm r (modify_routine r f).
Proof. unfold modify_routine. calm. Qed.

Lemma still_fill array i vs : still (fill_array array i vs).
Proof. revert i. induction vs as [|v vs IH]; intros i; simpl; [still|]. apply still_bind; [still|intros _; apply IH]. Qed.
Lemma still_strings l : still (duplicateAsValueArray l).
Proof.
  unfold duplicateAsValueArray, allocValueArray. destruct l; [still|].
  apply still_bind; [still|intros ?]. apply still_bind; [apply still_fill|intros ?; still].
Qed.
Lemma still_trace fs : still (trace_frames fs).
Proof.
  induction fs as [|f fs IH]; simpl; [still|]. apply still_bind; [unfold trace_frame; still|intros ?].
  apply still_bind; [apply IH|intros ?; still].
Qed.
Lemma calm_error message : calm r (runtimeError r message).
Proof.
  unfold runtimeError. apply calm_bind; [calm|intros ?]. apply calm_bind; [calm|intros ?].
  apply calm_bind; [apply calm_still, still_trace|intros ?].
  apply calm_bind; [apply calm_still, still_strings|intros ?]. apply calm_modify.
Qed.
Lemma calm_push v : calm r (push r v).
Proof.
  unfold push. apply calm_bind; [calm|intros ?]. apply calm_bind; [calm|intros ?]. cbv zeta.
  apply calm_bind; [calm|intros ?]. destruct (_ <? _); [|calm]. destruct (addSlice _); [calm|apply calm_error].
Qed.
Lemma calm_pop : calm r (pop r).
Proof.
  unfold pop. apply calm_bind; [unfold peek, peekCell; calm|intros ?].
  apply calm_bind; [apply calm_modify|intros ?; calm].
Qed.
End Calm.
