(* ===== verification/CompilerInv.v ===== *)
(** * The invariant of the compiler

    What holds between any two steps of the compiler, what a step may change,
    and that the small steps (errors, names, constants, bytes of code) keep
    the invariant.  Much of it is promised only as long as no error has been
    recorded: after an error the code is thrown away. *)
From Stdlib Require Import String Ascii.
From S2P Require Import Scanner.
From S2P Require Export CompilerFrame.
Open Scope Z_scope.

(** ** What there is at a level of the compilers, [0] for the current one *)
Definition used (a : DynamicValueArray) : list Value := take (acount a) (avalues a).
Definition fcode (f : ObjFunction) : list Z := code (chunk f).
Definition fconsts (f : ObjFunction) : list Value := used (constants (chunk f)).

Definition fn_at (s : CState) (i : nat) : option ObjFunction := c ← compilers s !! i; fn_of (cvm s) (cfunction c).
Definition code_at (s : CState) (i : nat) : list Z := default [] (fcode <$> fn_at s i).
Definition consts_at (s : CState) (i : nat) : list Value := default [] (fconsts <$> fn_at s i).
Definition locals_at (s : CState) (i : nat) : list Local := default [] (locals <$> compilers s !! i).
Definition scope_at (s : CState) (i : nat) : Z := default 0 (scopeDepth <$> compilers s !! i).
Definition ups_at (s : CState) (i : nat) : list Upvalue := default [] (cupvalues <$> compilers s !! i).

(** No error so far. *)
Definition clean (s : CState) : Prop := Forall (λ c, errors c = []) (compilers s).

Definition fin_ups (fin : gset objptr) (v : VM) (p : objptr) : option nat :=
  if decide (p ∈ fin) then upvalueCount <$> fn_of v p else None.
(** What the code of the current function refers to. *)
Definition info_at (fin : gset objptr) (s : CState) : FnInfo :=
  mkInfo (consts_at s 0) (length (ups_at s 0)) (fin_ups fin (cvm s)).

(** A function that is compiled: its code is verified for its arguments, and
    so are the functions among its constants. *)
Definition finished (fin : gset objptr) (v : VM) (p : objptr) : Prop :=
  ∃ f, fn_of v p = Some f ∧
    verified (mkInfo (fconsts f) (upvalueCount f) (fin_ups fin v)) (fcode f) (S (Z.to_nat (arity f))) ∧
    ∀ q, FUNCTION_VAL q ∈ fconsts f → q ∈ fin.

(** What an upvalue stands for, in the enclosing function. *)
Definition link_ok (e : Compiler) (u : Upvalue) : Prop :=
  0 ≤ index u < 256 ∧
  if isLocal u then ∃ l, locals e !! Z.to_nat (index u) = Some l ∧ depth l ≠ -1
  else (Z.to_nat (index u) < length (cupvalues e))%nat.

Section Inv.
Context `{U : Uninit} `{TG : Target} `{HO : Host} `{FM : FreshMemory}.
(** The routine that compiles. *)
Variable ctx : objptr.

(** ** The invariant; [fin]: the functions that are finished *)
Record clean_inv (fin : gset objptr) (s : CState) : Prop := {
  C_links : ∀ i c, compilers s !! i = Some c →
    match compilers s !! S i with Some e => Forall (link_ok e) (cupvalues c) | None => cupvalues c = [] end;
  C_consts : ∀ i q, FUNCTION_VAL q ∈ consts_at s i → q ∈ fin;
  C_fin : ∀ p, p ∈ fin → finished fin (cvm s) p
}.
Record Inv (fin : gset objptr) (s : CState) : Prop := {
  I_routine : is_routine (cvm s) ctx;
  I_context : ∀ i c, compilers s !! i = Some c → context c = ctx;
  I_fn : ∀ i c, compilers s !! i = Some c →
    ∃ f, fn_of (cvm s) (cfunction c) = Some f ∧ upvalueCount f = length (cupvalues c);
  I_distinct : NoDup (cfunction <$> compilers s);
  I_fin : ∀ i c, compilers s !! i = Some c → cfunction c ∉ fin;
  I_known : ∀ p, p ∈ fin → is_Some (fn_of (cvm s) p);
  I_panic : ∀ i c, compilers s !! i = Some c → panicMode c = true → errors c ≠ [];
  I_sizes : ∀ i c, compilers s !! i = Some c → (length (locals c) ≤ 256 ∧ length (cupvalues c) ≤ 256)%nat;
  I_scope : ∀ i c, compilers s !! i = Some c → 0 ≤ scopeDepth c;
  I_clean : clean s → clean_inv fin s
}.

(** ** What a step may change *)
Definition same_local (a b : Local) : Prop := lname a = lname b ∧ depth a = depth b.
Definition locals_like : list Local → list Local → Prop := Forall2 same_local.
#[export] Instance same_local_preorder : PreOrder same_local.
Proof. split; [done|]. intros a b c [H1 H2] [H3 H4]. split; congruence. Qed.
#[export] Instance locals_like_preorder : PreOrder locals_like.
Proof. unfold locals_like. split; [intros l; reflexivity|intros a b c H1 H2; by transitivity b]. Qed.

Record comp_le (v v' : VM) (c c' : Compiler) : Prop := {
  le_context : context c' = context c;
  le_function : cfunction c' = cfunction c;
  le_type : ctype c' = ctype c;
  le_errors : ∃ l, errors c' = errors c ++ l;
  le_upvalues : ∃ l, cupvalues c' = cupvalues c ++ l;
  le_fn : ∀ f, fn_of v (cfunction c) = Some f →
    ∃ f', fn_of v' (cfunction c) = Some f' ∧ arity f' = arity f ∧ ∃ l, fconsts f' = fconsts f ++ l
}.
#[export] Instance comp_le_refl v : Reflexive (comp_le v v).
Proof.
  intros c. split; try done; [exists []; by rewrite app_nil_r|exists []; by rewrite app_nil_r|].
  intros f Hf. exists f. split; [done|]. split; [done|]. exists []. by rewrite app_nil_r.
Qed.
Lemma comp_le_trans v1 v2 v3 c1 c2 c3 : comp_le v1 v2 c1 c2 → comp_le v2 v3 c2 c3 → comp_le v1 v3 c1 c3.
Proof.
  intros [A1 A2 A3 [x A5] [y A6] A7] [B1 B2 B3 [x' B5] [y' B6] B7]. split; try congruence.
  - exists (x ++ x'). by rewrite B5, A5, app_assoc.
  - exists (y ++ y'). by rewrite B6, A6, app_assoc.
  - intros f Hf. destruct (A7 f Hf) as (f' & Hf' & Ha & l & Hl). rewrite A2 in B7.
    destruct (B7 f' Hf') as (f'' & Hf'' & Ha' & l' & Hl'). exists f''. split; [done|]. split; [congruence|]. exists (l ++ l').
    by rewrite Hl', Hl, app_assoc.
Qed.

Record le (fin : gset objptr) (s : CState) (fin' : gset objptr) (s' : CState) : Prop := {
  l_fin : fin ⊆ fin';
  l_fns : ∀ p f, p ∈ fin → fn_of (cvm s) p = Some f → fn_of (cvm s') p = Some f;
  l_length : length (compilers s') = length (compilers s);
  l_comp : ∀ i c, compilers s !! i = Some c →
    ∃ c', compilers s' !! i = Some c' ∧ comp_le (cvm s) (cvm s') c c';
  l_code : ∀ i, code_at s' (S i) = code_at s (S i);
  l_locals : ∀ i, locals_like (locals_at s (S i)) (locals_at s' (S i));
  l_scope : ∀ i, scope_at s' (S i) = scope_at s (S i)
}.
Lemma le_refl fin s : le fin s fin s.
Proof. split; try done. intros i c Hc. by exists c. Qed.
Lemma le_trans f1 s1 f2 s2 f3 s3 : le f1 s1 f2 s2 → le f2 s2 f3 s3 → le f1 s1 f3 s3.
Proof.
  intros [A1 A2 A3 A4 A5 A6 A7] [B1 B2 B3 B4 B5 B6 B7]. split.
  - set_solver.
  - intros p f Hp Hf. apply B2; [set_solver|]. by apply A2.
  - congruence.
  - intros i c Hc. destruct (A4 i c Hc) as (c2 & Hc2 & H12). destruct (B4 i c2 Hc2) as (c3 & Hc3 & H23).
    exists c3. split; [done|]. by eapply comp_le_trans.
  - intros i. by rewrite B5, A5.
  - intros i. by rewrite A6, B6.
  - intros i. by rewrite B7, A7.
Qed.

Lemma le_clean f s f' s' : le f s f' s' → clean s' → clean s.
Proof.
  intros H Hc. apply Forall_lookup_2. intros i c Hi. destruct (l_comp _ _ _ _ H i c Hi) as (c' & Hc' & HE).
  destruct (le_errors _ _ _ _ HE) as [l Hl]. pose proof (Forall_lookup_1 _ _ _ _ Hc Hc') as He. simpl in He.
  rewrite Hl in He. by apply app_eq_nil in He as [? _].
Qed.

Lemma le_info f s f' s' : Inv f s → le f s f' s' → info_le (info_at f s) (info_at f' s').
Proof.
  intros HI H. split; simpl.
  - unfold consts_at, fn_at. destruct (compilers s !! 0%nat) as [c|] eqn:Hc; [|by eexists].
    destruct (l_comp _ _ _ _ H 0 c Hc) as (c' & -> & HE). cbn [mbind option_bind].
    destruct (I_fn _ _ HI 0 c Hc) as (g & Hg & _). rewrite Hg, (le_function _ _ _ _ HE).
    destruct (le_fn _ _ _ _ HE g Hg) as (g' & -> & _ & l & Hl). exists l. simpl. done.
  - unfold ups_at. destruct (compilers s !! 0%nat) as [c|] eqn:Hc; [|simpl; lia].
    destruct (l_comp _ _ _ _ H 0 c Hc) as (c' & -> & HE). simpl.
    destruct (le_upvalues _ _ _ _ HE) as [l ->]. rewrite length_app. lia.
  - intros p n. unfold fin_ups. case_decide as Hp; [|done].
    rewrite decide_True by (by apply (l_fin _ _ _ _ H)). intros Hn.
    destruct (fn_of (cvm s) p) as [g|] eqn:Hg; [|done]. by rewrite (l_fns _ _ _ _ H p g Hp Hg).
Qed.

Lemma fin_ups_mono fin v fin' v' : fin ⊆ fin' → (∀ p f, p ∈ fin → fn_of v p = Some f → fn_of v' p = Some f) →
  ∀ p n, fin_ups fin v p = Some n → fin_ups fin' v' p = Some n.
Proof.
  intros Hf Hv p n. unfold fin_ups. case_decide as Hp; [|done]. rewrite decide_True by by apply Hf.
  intros Hn. destruct (fn_of v p) as [g|] eqn:Hg; [|done]. by rewrite (Hv p g Hp Hg).
Qed.
Lemma finished_mono fin v fin' v' p : fin ⊆ fin' → (∀ p f, p ∈ fin → fn_of v p = Some f → fn_of v' p = Some f) →
  p ∈ fin → finished fin v p → finished fin' v' p.
Proof.
  intros Hf Hv Hp (g & Hg & Hver & Hq). exists g. split; [by apply Hv|]. split; [|intros q Hq'; by apply Hf, Hq].
  eapply safe_le; [|exact Hver]. split; simpl; [exists []; by rewrite app_nil_r|done|by apply fin_ups_mono].
Qed.
Lemma finished_le f s f' s' p : le f s f' s' → p ∈ f → finished f (cvm s) p → finished f' (cvm s') p.
Proof. intros H. apply finished_mono; apply H. Qed.
(** [s'] comes from [s] by appending [D] to the code of the current function;
    its locals stay, if there is no error. *)
Record evolves (fin : gset objptr) (s : CState) (D : list Z) (fin' : gset objptr) (s' : CState) : Prop := {
  e_inv : Inv fin' s';
  e_le : le fin s fin' s';
  e_code : code_at s' 0 = code_at s 0 ++ D;
  e_locals : clean s' → locals_like (locals_at s 0) (locals_at s' 0);
  e_scope : scope_at s' 0 = scope_at s 0
}.
Lemma evolves_refl fin s : Inv fin s → evolves fin s [] fin s.
Proof. intros H. split; [done|apply le_refl|by rewrite app_nil_r|done|done]. Qed.
Lemma evolves_trans f1 s1 D1 f2 s2 D2 f3 s3 :
  evolves f1 s1 D1 f2 s2 → evolves f2 s2 D2 f3 s3 → evolves f1 s1 (D1 ++ D2) f3 s3.
Proof.
  intros [A1 A2 A3 A4 A5] [B1 B2 B3 B4 B5].
  split; [done|by eapply le_trans|by rewrite B3, A3, app_assoc| |by rewrite B5, A5].
  intros Hcl. transitivity (locals_at s2 0); [|by apply B4]. eapply A4, le_clean; [exact B2|done].
Qed.
Lemma evolves_clean f1 s1 D f2 s2 : evolves f1 s1 D f2 s2 → clean s2 → clean s1.
Proof. intros H. eapply le_clean, e_le, H. Qed.
Lemma evolves_flow f1 s1 D f2 s2 D0 n m : Inv f1 s1 → evolves f1 s1 D f2 s2 →
  flow (info_at f1 s1) D0 n m → flow (info_at f2 s2) D0 n m.
Proof. intros HI H. apply flow_le, le_info; [done|apply H]. Qed.

(** The same with the whole code that there is afterwards. *)
Record changed (fin : gset objptr) (s : CState) (C : list Z) (fin' : gset objptr) (s' : CState) : Prop := {
  x_inv : Inv fin' s';
  x_le : le fin s fin' s';
  x_code : code_at s' 0 = C;
  x_locals : clean s' → locals_like (locals_at s 0) (locals_at s' 0);
  x_scope : scope_at s' 0 = scope_at s 0
}.
Lemma evolves_changed fin s D fin' s' : evolves fin s D fin' s' ↔ changed fin s (code_at s 0 ++ D) fin' s'.
Proof. split; intros []; by split. Qed.
Lemma changed_trans f1 s1 C2 f2 s2 C3 f3 s3 :
  changed f1 s1 C2 f2 s2 → changed f2 s2 C3 f3 s3 → changed f1 s1 C3 f3 s3.
Proof.
  intros [A1 A2 A3 A4 A5] [B1 B2 B3 B4 B5].
  split; [done|by eapply le_trans|done| |by rewrite B5, A5].
  intros Hcl. transitivity (locals_at s2 0); [|by apply B4]. eapply A4, le_clean; [exact B2|done].
Qed.
Lemma changed_clean f1 s1 C f2 s2 : changed f1 s1 C f2 s2 → clean s2 → clean s1.
Proof. intros H. eapply le_clean, x_le, H. Qed.
Lemma changed_flow f1 s1 C f2 s2 D0 n m : Inv f1 s1 → changed f1 s1 C f2 s2 →
  flow (info_at f1 s1) D0 n m → flow (info_at f2 s2) D0 n m.
Proof. intros HI H. apply flow_le, le_info; [done|apply H]. Qed.

(** ** One step: the compilers one by one *)
Record comp_step (v v' : VM) (c c' : Compiler) : Prop := {
  s_le : comp_le v v' c c';
  s_context : context c' = ctx;
  s_locals : locals_like (locals c) (locals c');
  s_scope : scopeDepth c' = scopeDepth c;
  s_panic : panicMode c' = true → errors c' ≠ [];
  s_sizes : (length (cupvalues c') ≤ 256)%nat;
  s_fn : ∃ f', fn_of v' (cfunction c) = Some f' ∧ upvalueCount f' = length (cupvalues c')
}.
Lemma links_grow (c e e' : Compiler) : locals_like (locals e) (locals e') → (∃ l, cupvalues e' = cupvalues e ++ l) →
  Forall (link_ok e) (cupvalues c) → Forall (link_ok e') (cupvalues c).
Proof.
  intros Hl [l Hu] HF. eapply list.Forall_impl; [exact HF|]. intros u [Hr H]. split; [done|].
  destruct (isLocal u); [|rewrite Hu, length_app; lia].
  destruct H as (x & Hx & Hd). destruct (Forall2_lookup_l _ _ _ _ _ Hl Hx) as (y & Hy & _ & Hxy).
  exists y. split; [done|congruence].
Qed.

Lemma Inv_step fin s s' :
  Inv fin s → is_routine (cvm s') ctx → length (compilers s') = length (compilers s) →
  (∀ i c, compilers s !! i = Some c → ∃ c', compilers s' !! i = Some c' ∧ comp_step (cvm s) (cvm s') c c') →
  (∀ p, p ∈ fin → fn_of (cvm s') p = fn_of (cvm s) p) →
  (∀ i, code_at s' (S i) = code_at s (S i)) →
  (clean s' → clean_inv fin s →
    (∀ i c, compilers s' !! i = Some c →
       match compilers s' !! S i with Some e => Forall (link_ok e) (cupvalues c) | None => cupvalues c = [] end) ∧
    (∀ i q, FUNCTION_VAL q ∈ consts_at s' i → q ∈ fin)) →
  Inv fin s' ∧ le fin s fin s' ∧ locals_like (locals_at s 0) (locals_at s' 0) ∧ scope_at s' 0 = scope_at s 0.
Proof.
  intros HI Hr HL Hc Hf Hcode Hclean.
  assert (∀ i, locals_like (locals_at s i) (locals_at s' i) ∧ scope_at s' i = scope_at s i) as Hsl.
  { intros i. unfold locals_at, scope_at. destruct (compilers s !! i) as [c|] eqn:Hi; simpl.
    - destruct (Hc _ c Hi) as (c' & -> & H'). split; apply H'.
    - by rewrite (lookup_ge_None_2 (compilers s') i) by (rewrite HL; by apply lookup_ge_None_1). }
  assert (le fin s fin s') as Hle.
  { split; try done; [|intros i c Hi|intros i; apply Hsl|intros i; apply Hsl].
    - intros p f Hp. by rewrite Hf.
    - destruct (Hc i c Hi) as (c' & Hc' & H'). exists c'. split; [done|apply H']. }
  assert (∀ i c', compilers s' !! i = Some c' → ∃ c, compilers s !! i = Some c ∧ comp_step (cvm s) (cvm s') c c') as Hc'.
  { intros i c' Hi. destruct (lookup_lt_is_Some_2 (compilers s) i) as [c Hci].
    { rewrite <-HL. by eapply lookup_lt_Some. }
    exists c. split; [done|]. destruct (Hc i c Hci) as (c1 & Hc1 & H1). by simplify_eq. }
  split; [|split; [done|apply Hsl]].
  split.
  - done.
  - intros i c' Hi. destruct (Hc' i c' Hi) as (c & _ & H). apply H.
  - intros i c' Hi. destruct (Hc' i c' Hi) as (c & Hci & H). rewrite (le_function _ _ _ _ (s_le _ _ _ _ H)). apply H.
  - replace (cfunction <$> compilers s') with (cfunction <$> compilers s); [apply HI|].
    apply list_eq. intros i. rewrite !list_lookup_fmap. destruct (compilers s !! i) as [c|] eqn:Hi.
    + destruct (Hc i c Hi) as (c' & -> & H). simpl. by rewrite (le_function _ _ _ _ (s_le _ _ _ _ H)).
    + by rewrite (lookup_ge_None_2 (compilers s') i) by (rewrite HL; by apply lookup_ge_None_1).
  - intros i c' Hi. destruct (Hc' i c' Hi) as (c & Hci & H). rewrite (le_function _ _ _ _ (s_le _ _ _ _ H)).
    by eapply I_fin.
  - intros p Hp. rewrite Hf by done. by apply (I_known _ _ HI).
  - intros i c' Hi. destruct (Hc' i c' Hi) as (c & Hci & H). apply H.
  - intros i c' Hi. destruct (Hc' i c' Hi) as (c & Hci & H). split; [|apply H].
    rewrite <-(Forall2_length (s_locals _ _ _ _ H)). by eapply I_sizes.
  - intros i c' Hi. destruct (Hc' i c' Hi) as (c & Hci & H). rewrite (s_scope _ _ _ _ H). by eapply I_scope.
  - intros Hcl. pose proof (I_clean _ _ HI (le_clean _ _ _ _ Hle Hcl)) as CI. destruct (Hclean Hcl CI) as [H1 H2].
    split; [done|done|]. intros p Hp. eapply finished_le; [exact Hle|done|by apply CI].
Qed.

(** ** Commands that emit no code *)
Definition quiet {A} (m : CM A) : Prop := ∀ fin s, Inv fin s → post m s (λ _ s', evolves fin s [] fin s').

Lemma quiet_bind {A B} (m : CM A) (f : A → CM B) : quiet m → (∀ a, quiet (f a)) → quiet (m ≫= f).
Proof.
  intros Hm Hf fin s HI. apply post_bind. intros a s1 E1 b s2 E2. pose proof (Hm fin s HI a s1 E1) as V1.
  pose proof (Hf a fin s1 (e_inv _ _ _ _ _ V1) b s2 E2) as V2. by eapply (evolves_trans _ _ [] _ _ [] _ _ V1 V2).
Qed.
Lemma quiet_ret {A} (a : A) : quiet (mret a).
Proof. intros fin s HI. by apply post_ret, evolves_refl. Qed.
Lemma quiet_fail {A} : quiet (A := A) st_fail.
Proof. intros fin s HI. apply post_fail. Qed.
Lemma quiet_state : quiet get_state.
Proof. intros fin s HI a s' [= <- <-]. by apply evolves_refl. Qed.
Lemma quiet_some {A} (o : option A) : quiet (of_some o).
Proof. intros fin s HI a s'. unfold of_some. destruct o; [intros [= <- <-]; by apply evolves_refl|done]. Qed.
Lemma quiet_compiler n : quiet (compiler_at n).
Proof. apply quiet_bind; [apply quiet_state|intros ?; apply quiet_some]. Qed.

Lemma comp_step_refl fin s v' i c :
  Inv fin s → same_fns ctx (cvm s) v' → compilers s !! i = Some c → comp_step (cvm s) v' c c.
Proof.
  intros HI HV Hi. split.
  - split; try done; [exists []; by rewrite app_nil_r|exists []; by rewrite app_nil_r|].
    intros f Hf. exists f. rewrite (same_fn _ _ _ HV). split; [done|]. split; [done|]. exists []. by rewrite app_nil_r.
  - by eapply I_context.
  - done.
  - done.
  - by eapply I_panic.
  - by eapply I_sizes.
  - rewrite (same_fn _ _ _ HV). by eapply I_fn.
Qed.
Lemma same_fns_at v s i : same_fns ctx (cvm s) v → fn_at (mkCState v (compilers s) (classes s)) i = fn_at s i.
Proof. intros H. unfold fn_at. simpl. destruct (compilers s !! i); [apply H|done]. Qed.

(** The virtual machine changes, and no function. *)
Lemma evolves_vm fin s v cl : Inv fin s → same_fns ctx (cvm s) v → evolves fin s [] fin (mkCState v (compilers s) cl).
Proof.
  intros HI HV. assert (∀ i, fn_at (mkCState v (compilers s) cl) i = fn_at s i) as Hat by (by intros i; rewrite <-(same_fns_at v s i HV)).
  destruct (Inv_step fin s (mkCState v (compilers s) cl)) as (H1 & H2 & H3 & H4); try done.
  - apply HV.
  - intros i c Hi. exists c. split; [done|]. by eapply comp_step_refl.
  - intros p _. apply HV.
  - intros i. unfold code_at. by rewrite Hat.
  - intros Hcl CI. split; [apply CI|]. intros i q. unfold consts_at. rewrite Hat. apply (C_consts _ _ CI).
  - split; [done|done| |done|done]. unfold code_at. by rewrite Hat, app_nil_r.
Qed.
Lemma quiet_vmc {A} (c : VMM A) : calm ctx c → quiet (vmc c).
Proof.
  intros Hc fin s HI a s'. unfold vmc. destruct (c (cvm s)) as [[a' v]|] eqn:E; [|done]. intros [= <- <-].
  apply evolves_vm; [done|]. apply (Hc (cvm s) (I_routine _ _ HI) a' v E).
Qed.
Lemma quiet_still {A} (c : VMM A) : still c → quiet (vmc c).
Proof. intros Hc. by apply quiet_vmc, calm_still. Qed.
Lemma same_fns_refl fin s : Inv fin s → same_fns ctx (cvm s) (cvm s).
Proof. intros HI. split; [apply HI|done]. Qed.
Lemma quiet_classes l : quiet (set_classes l).
Proof. intros fin s HI a s' [= <- <-]. apply evolves_vm; [done|by eapply same_fns_refl]. Qed.
Lemma quiet_copy cs : quiet (copyStringC cs).
Proof. apply quiet_still, still_intern. Qed.
Lemma quiet_equal a b : quiet (identifiersEqual a b).
Proof.
  apply quiet_bind; [apply quiet_still, still_chars|intros ?].
  apply quiet_bind; [apply quiet_still, still_chars|intros ?; apply quiet_ret].
Qed.

(** ** The routine that compiles, and errors *)
Lemma post_compiler n s (Q : Compiler → CState → Prop) :
  (∀ c, compilers s !! n = Some c → Q c s) → post (compiler_at n) s Q.
Proof.
  intros H c s'. unfold compiler_at, get_state, mbind, st_bind, of_some.
  destruct (compilers s !! n) as [c'|] eqn:E; [|done]. intros [= <- <-]. by apply H.
Qed.
Lemma post_modify n f s (Q : () → CState → Prop) :
  (∀ c, compilers s !! n = Some c → Q () (mkCState (cvm s) (alter f n (compilers s)) (classes s))) →
  post (modify_compiler n f) s Q.
Proof.
  intros H. apply post_bind, post_compiler. intros c Hc. intros a s' [= <- <-]. by apply (H c).
Qed.
Lemma quiet_protect v : quiet (protect v).
Proof.
  intros fin s HI. apply post_bind, post_compiler. intros c Hc. rewrite (I_context _ _ HI _ _ Hc).
  by apply (quiet_vmc _ (calm_push ctx v)).
Qed.
Lemma quiet_unprotect : quiet unprotect.
Proof.
  intros fin s HI. apply post_bind, post_compiler. intros c Hc. rewrite (I_context _ _ HI _ _ Hc).
  apply (quiet_bind (vmc (pop ctx))); [apply quiet_vmc, calm_pop|intros ?; apply quiet_ret|done].
Qed.

(** A step of one compiler, with the functions as they are. *)
Lemma evolves_comp fin s v n f c :
  Inv fin s → same_fns ctx (cvm s) v → compilers s !! n = Some c → comp_step (cvm s) v c (f c) →
  cupvalues (f c) = cupvalues c →
  evolves fin s [] fin (mkCState v (alter f n (compilers s)) (classes s)).
Proof.
  intros HI HV Hc Hs Hu. set (s' := mkCState _ _ _).
  assert (∀ i, compilers s' !! i = (if decide (i = n) then Some (f c) else compilers s !! i)) as Hl.
  { intros i. unfold s'. simpl. case_decide as Hi; [subst i|by rewrite list_lookup_alter_ne].
    by rewrite list_lookup_alter_eq, Hc. }
  assert (∀ i, fn_at s' i = fn_at s i) as Hat.
  { intros i. unfold fn_at. rewrite Hl. case_decide as Hi; [subst i; rewrite Hc|]; simpl.
    - rewrite (le_function _ _ _ _ (s_le _ _ _ _ Hs)). apply HV.
    - destruct (compilers s !! i); [apply HV|done]. }
  destruct (Inv_step fin s s') as (H1 & H2 & H3 & H4); try done.
  - apply HV.
  - simpl. by rewrite length_alter.
  - intros i ci Hi. rewrite Hl. case_decide as Hin; [subst i; simplify_eq; by exists (f c)|].
    exists ci. split; [done|]. by eapply comp_step_refl.
  - intros p _. apply HV.
  - intros i. unfold code_at. by rewrite Hat.
  - intros Hcl CI. split; [|intros i q; unfold consts_at; rewrite Hat; apply (C_consts _ _ CI)].
    intros i ci. rewrite !Hl. intros Hi.
    assert (∃ ci0, compilers s !! i = Some ci0 ∧ cupvalues ci = cupvalues ci0) as (ci0 & Hi0 & ->).
    { case_decide; [simplify_eq; by exists c|by exists ci]. }
    pose proof (C_links _ _ CI i ci0 Hi0) as HL. destruct (decide (S i = n)) as [Hn|]; [|done]. rewrite Hn, Hc in HL.
    eapply links_grow; [apply Hs| |exact HL]. exists []. by rewrite Hu, app_nil_r.
  - split; [done|done| |done|done]. unfold code_at. by rewrite Hat, app_nil_r.
Qed.

(** [f] does not touch what the invariant speaks of, but for errors. *)
Definition mild (f : Compiler → Compiler) : Prop := ∀ c,
  context (f c) = context c ∧ cfunction (f c) = cfunction c ∧ ctype (f c) = ctype c ∧
  scopeDepth (f c) = scopeDepth c ∧ locals (f c) = locals c ∧ cupvalues (f c) = cupvalues c.
Lemma comp_step_mild fin s v n f c l :
  Inv fin s → same_fns ctx (cvm s) v → compilers s !! n = Some c → mild f → errors (f c) = errors c ++ l →
  (panicMode (f c) = true → errors (f c) ≠ []) → comp_step (cvm s) v c (f c).
Proof.
  intros HI HV Hc Hf He Hp. destruct (Hf c) as (F1 & F2 & F3 & F4 & F5 & F6).
  pose proof (comp_step_refl fin s v n c HI HV Hc) as [[L1 L2 L3 L5 L6 L7] S2 S3 S3' S4 S5 S6].
  split; [split; try congruence|..].
  - by exists l.
  - exists []. by rewrite F6, app_nil_r.
  - exact L7.
  - congruence.
  - by rewrite F5.
  - done.
  - done.
  - by rewrite F6.
  - by rewrite F6.
Qed.

(** An error is recorded, or one has been before. *)
Definition fails_with {A} (m : CM A) : Prop :=
  ∀ fin s, Inv fin s → post m s (λ _ s', evolves fin s [] fin s' ∧ ¬ clean s').
Lemma clean_lookup s n c : clean s → compilers s !! n = Some c → errors c = [].
Proof. intros H Hc. exact (Forall_lookup_1 _ _ _ _ H Hc). Qed.

Lemma fails_errorAt location message : fails_with (errorAt location message).
Proof.
  intros fin s HI. apply post_bind, post_compiler. intros c Hc. destruct (panicMode c) eqn:Hpanic.
  - apply post_ret. split; [by apply evolves_refl|]. intros Hcl. apply (I_panic _ _ HI 0 c Hc Hpanic).
    by eapply clean_lookup.
  - apply post_bind, post_modify. intros c0 Hc0. assert (c0 = c) as -> by congruence. apply post_bind.
    intros k s1. unfold copyStringC, vmc. simpl. destruct (intern _ _) as [[k' v]|] eqn:E; [|done]. intros [= <- <-].
    assert (same_fns ctx (cvm s) v) as HV by (eapply calm_still; [apply still_intern|apply HI|exact E]).
    apply post_bind, post_compiler. simpl. intros c1 Hc1. rewrite list_lookup_alter_eq, Hc in Hc1.
    injection Hc1 as <-. apply post_modify. simpl. intros c2 _.
    rewrite list_alter_alter_eq. unfold compose. simpl.
    set (g := λ x, set_errors (errors c ++ [k']) (set_panic true x)).
    assert (errors (g c) = errors c ++ [k']) as Hg by done.
    pose proof (evolves_comp fin s v 0 g c HI HV Hc) as He. split.
    + apply He; [|done]. by apply (comp_step_mild fin s v 0 g c [k']); try done; intros _; rewrite Hg; destruct (errors c).
    + intros Hcl. assert (errors (g c) = []) as H0.
      { apply (clean_lookup _ 0%nat _ Hcl). simpl. by rewrite list_lookup_alter_eq, Hc. }
      rewrite Hg in H0. by destruct (errors c).
Qed.
Lemma quiet_fails {A} (m : CM A) : fails_with m → quiet m.
Proof. intros H fin s HI a s' E. by apply (H fin s HI a s' E). Qed.
Lemma fails_bind {A B} (m : CM A) (f : A → CM B) : quiet m → (∀ a, fails_with (f a)) → fails_with (m ≫= f).
Proof.
  intros Hm Hf fin s HI. apply post_bind. intros a s1 E1 b s2 E2. pose proof (Hm fin s HI a s1 E1) as V1.
  destruct (Hf a fin s1 (e_inv _ _ _ _ _ V1) b s2 E2) as [V2 N2].
  split; [by eapply (evolves_trans _ _ [] _ _ [] _ _ V1 V2)|done].
Qed.
Lemma fails_then {A B} (m : CM A) (f : A → CM B) : fails_with m → (∀ a, quiet (f a)) → fails_with (m ≫= f).
Proof.
  intros Hm Hf fin s HI. apply post_bind. intros a s1 E1 b s2 E2. destruct (Hm fin s HI a s1 E1) as [V1 N1].
  pose proof (Hf a fin s1 (e_inv _ _ _ _ _ V1) b s2 E2) as V2. split; [by eapply (evolves_trans _ _ [] _ _ [] _ _ V1 V2)|].
  intros Hcl. by apply N1, (evolves_clean _ _ _ _ _ V2).
Qed.
Lemma fails_errorAtName name message : fails_with (errorAtName name message).
Proof. apply fails_bind; [apply quiet_still, still_chars|intros ?; apply fails_errorAt]. Qed.
Lemma fails_error message : fails_with (error_ message).
Proof. apply fails_errorAt. Qed.
Lemma quiet_source v : quiet (valueAsSourceString v).
Proof.
  unfold valueAsSourceString. destruct v as [| | | | | |t o| |]; try (apply quiet_still, still_valueToString).
  destruct t as [[]| | | |]; try (apply quiet_still, still_valueToString).
  destruct o; [|apply quiet_still, still_valueToString].
  apply quiet_bind; [apply quiet_still, still_chars|intros ?; apply quiet_copy].
Qed.
Lemma fails_errorAtValue v message : fails_with (errorAtValue v message).
Proof.
  intros fin s HI. apply post_bind, post_compiler. intros c Hc. destruct (panicMode c) eqn:Hpanic.
  - apply post_ret. split; [by apply evolves_refl|]. intros Hcl. apply (I_panic _ _ HI 0 c Hc Hpanic).
    by eapply clean_lookup.
  - revert fin s HI c Hc Hpanic.
    assert (fails_with (k ← valueAsSourceString v; protect (STRING_VAL k) ;; errorAtName k message ;; unprotect)) as H.
    { apply fails_bind; [apply quiet_source|intros k]. apply fails_bind; [apply quiet_protect|intros _].
      apply fails_then; [apply fails_errorAtName|intros _; apply quiet_unprotect]. }
    intros fin s HI _ _ _. by apply H.
Qed.
Lemma quiet_if {A} (b : bool) (m m' : CM A) : quiet m → quiet m' → quiet (if b then m else m').
Proof. by destruct b. Qed.

(** ** A change of one function and its compiler *)
Record changes (s : CState) (n : nat) (c : Compiler) (g : ObjFunction) (h : Compiler → Compiler) (g' : ObjFunction)
    (C : list Z) (vs : list Value) (us : list Upvalue) : Prop := {
  ch_comp : compilers s !! n = Some c;
  ch_fn : fn_of (cvm s) (cfunction c) = Some g;
  ch_same : context (h c) = context c ∧ cfunction (h c) = cfunction c ∧ ctype (h c) = ctype c ∧
    scopeDepth (h c) = scopeDepth c ∧ errors (h c) = errors c ∧ panicMode (h c) = panicMode c;
  ch_locals : locals_like (locals c) (locals (h c));
  ch_ups : cupvalues (h c) = cupvalues c ++ us;
  ch_size : (length (cupvalues (h c)) ≤ 256)%nat;
  ch_count : upvalueCount g' = length (cupvalues (h c));
  ch_arity : arity g' = arity g;
  ch_code : fcode g' = C;
  ch_level : n = 0%nat ∨ C = fcode g;
  ch_consts : fconsts g' = fconsts g ++ vs
}.
Lemma changed_change fin s n c g h g' C vs us v :
  Inv fin s → changes s n c g h g' C vs us →
  is_routine v ctx → (∀ p, fn_of v p = if decide (p = cfunction c) then Some g' else fn_of (cvm s) p) →
  (clean s → (∀ q, FUNCTION_VAL q ∈ vs → q ∈ fin) ∧
     match compilers s !! S n with Some e => Forall (link_ok e) us | None => us = [] end) →
  changed fin s (if decide (n = 0%nat) then C else code_at s 0) fin (mkCState v (alter h n (compilers s)) (classes s)).
Proof.
  intros HI [Hc Hg (F1 & F2 & F3 & F4 & F5 & F6) Hloc Hups Hsize Hcount Hargs Hcode Hlev Hconsts] Hr Hv Hcl.
  set (s' := mkCState _ _ _).
  assert (∀ i, compilers s' !! i = (if decide (i = n) then Some (h c) else compilers s !! i)) as Hl.
  { intros i. unfold s'. simpl. case_decide as Hi; [subst i|by rewrite list_lookup_alter_ne].
    by rewrite list_lookup_alter_eq, Hc. }
  assert (∀ i ci, compilers s !! i = Some ci → i ≠ n → cfunction ci ≠ cfunction c) as Hne.
  { intros i ci Hi Hin Heq. apply Hin. eapply (NoDup_lookup _ i n _ (I_distinct _ _ HI)); rewrite list_lookup_fmap.
    - by rewrite Hi.
    - by rewrite Hc, Heq. }
  assert (∀ i, fn_at s' i = if decide (i = n) then Some g' else fn_at s i) as Hat.
  { intros i. unfold fn_at. rewrite Hl. case_decide as Hi; [subst i|]; simpl; [by rewrite F2, Hv, decide_True|].
    destruct (compilers s !! i) as [ci|] eqn:Hci; [|done]. simpl. rewrite Hv, decide_False; [done|]. by eapply Hne. }
  assert (fn_at s n = Some g) as Hgn by (unfold fn_at; by rewrite Hc).
  assert (∀ i ci, compilers s !! i = Some ci → ∃ c', compilers s' !! i = Some c' ∧ comp_step (cvm s) v ci c') as Hstep.
  { intros i ci Hi. rewrite Hl. case_decide as Hin.
    - subst i. assert (ci = c) as -> by congruence. exists (h c). split; [done|]. split; [split; try done|..].
      + exists []. by rewrite F5, app_nil_r.
      + by exists us.
      + intros f Hf. assert (f = g) as -> by congruence. exists g'. split; [by rewrite Hv, decide_True|]. split; [done|]. by exists vs.
      + rewrite F1. by eapply I_context.
      + done.
      + done.
      + rewrite F6, F5. by eapply I_panic.
      + done.
      + exists g'. by rewrite Hv, decide_True.
    - exists ci. split; [done|]. pose proof (Hne i ci Hi Hin) as Hni.
      assert (fn_of v (cfunction ci) = fn_of (cvm s) (cfunction ci)) as Hsame by by rewrite Hv, decide_False.
      split; [split; try done; [exists []; by rewrite app_nil_r|exists []; by rewrite app_nil_r|]|..].
      + intros f Hf. exists f. rewrite Hsame. split; [done|]. split; [done|]. exists []. by rewrite app_nil_r.
      + by eapply I_context.
      + done.
      + done.
      + by eapply I_panic.
      + by eapply I_sizes.
      + rewrite Hsame. by eapply I_fn. }
  destruct (Inv_step fin s s') as (H1 & H2 & H3 & H4); try done.
  - simpl. by rewrite length_alter.
  - intros p Hp. rewrite Hv, decide_False; [done|]. intros ->. by apply (I_fin _ _ HI n c Hc).
  - intros i. unfold code_at. rewrite Hat. case_decide as Hi; [|done]. subst n. destruct Hlev as [?| ->]; [done|].
    rewrite Hgn. simpl. by rewrite Hcode.
  - intros Hcl' CI. assert (clean s) as Hcs.
    { apply Forall_lookup_2. intros i ci Hi. destruct (Hstep i ci Hi) as (c' & Hc' & HS).
      destruct (le_errors _ _ _ _ (s_le _ _ _ _ HS)) as [l E]. pose proof (clean_lookup _ _ _ Hcl' Hc') as E'.
      rewrite E in E'. by apply app_eq_nil in E' as [? _]. }
    destruct (Hcl Hcs) as [Hq Hus]. split.
    + intros i ci. rewrite !Hl. intros Hi. destruct (decide (i = n)) as [->|Hin].
      * injection Hi as <-. rewrite decide_False by lia. pose proof (C_links _ _ CI n c Hc) as HL.
        destruct (compilers s !! S n) as [e|]; rewrite Hups; [by apply Forall_app|]. by rewrite HL, Hus.
      * pose proof (C_links _ _ CI i ci Hi) as HL. destruct (decide (S i = n)) as [Hn|]; [|done]. rewrite Hn, Hc in HL.
        eapply links_grow; [exact Hloc|by exists us|exact HL].
    + intros i q. unfold consts_at. rewrite Hat. case_decide as Hi; [|apply (C_consts _ _ CI)].
      subst i. simpl. rewrite Hconsts, list.elem_of_app. intros [Hin|Hin]; [|by apply Hq].
      apply (C_consts _ _ CI n). unfold consts_at. by rewrite Hgn.
  - split; [done|done| |done|done]. unfold code_at. rewrite Hat. destruct (decide (n = 0%nat)) as [->|Hn].
    + simpl. done.
    + by rewrite decide_False by congruence.
Qed.

(** ** Code *)
Definition emits {A} (m : CM A) (D : list Z) : Prop := ∀ fin s, Inv fin s → post m s (λ _ s', evolves fin s D fin s').
Lemma emits_bind {A B} (m : CM A) (f : A → CM B) D1 D2 :
  emits m D1 → (∀ a, emits (f a) D2) → emits (m ≫= f) (D1 ++ D2).
Proof.
  intros Hm Hf fin s HI. apply post_bind. intros a s1 E1 b s2 E2. pose proof (Hm fin s HI a s1 E1) as V1.
  exact (evolves_trans _ _ _ _ _ _ _ _ V1 (Hf a fin s1 (e_inv _ _ _ _ _ V1) b s2 E2)).
Qed.

Lemma fn_of_put v p f q : fn_of (set_objects (<[p := OBJ_FUNCTION f]> (vm_objects v)) v) q = if decide (q = p) then Some f else fn_of v q.
Proof.
  unfold fn_of. simpl. case_decide as Hq; [subst; by rewrite lookup_insert_eq|by rewrite lookup_insert_ne].
Qed.
Lemma routine_put v p f g : is_routine v ctx → fn_of v p = Some g →
  is_routine (set_objects (<[p := OBJ_FUNCTION f]> (vm_objects v)) v) ctx.
Proof.
  intros [R HR] Hp. exists R. simpl. rewrite lookup_insert_ne; [done|]. intros ->. unfold fn_of in Hp. by rewrite HR in Hp.
Qed.
Lemma post_get_fn p s (Q : ObjFunction → CState → Prop) :
  (∀ f, fn_of (cvm s) p = Some f → Q f s) → post (get_fn p) s Q.
Proof.
  intros H f s'. unfold get_fn, vmc, get_function, get_obj, get_vm, opt, mbind, st_bind, fn_of in *.
  destruct (vm_objects (cvm s) !! p) as [[g| | | | | | | | | | |]|]; try done.
  intros [= <- <-]. destruct s. by apply H.
Qed.

Lemma modify_chunk_post F C vs fin s :
  Inv fin s →
  (∀ g, fn_at s 0 = Some g → code (F (chunk g)) = C ∧ used (constants (F (chunk g))) = fconsts g ++ vs) →
  (clean s → ∀ q, FUNCTION_VAL q ∈ vs → q ∈ fin) →
  post (modify_chunk F) s (λ _ s', changed fin s C fin s' ∧
    (∀ g, fn_at s 0 = Some g → ∃ g', fn_at s' 0 = Some g' ∧ chunk g' = F (chunk g))).
Proof.
  intros HI HF Hq. apply post_bind, post_compiler. intros c Hc. apply post_bind, post_get_fn. intros g Hg.
  assert (fn_at s 0 = Some g) as Hg0 by (unfold fn_at; by rewrite Hc).
  destruct (HF g Hg0) as [HF1 HF2]. destruct (I_fn _ _ HI 0 c Hc) as (g0 & Hg1 & Hup).
  assert (g0 = g) as -> by congruence. intros a s' [= <- <-].
  set (g' := mkFunction _ _ _ _). set (v := set_objects _ _).
  assert (mkCState v (compilers s) (classes s) = mkCState v (alter id 0%nat (compilers s)) (classes s)) as ->
    by by rewrite list_alter_id.
  assert (∀ p, fn_of v p = if decide (p = cfunction c) then Some g' else fn_of (cvm s) p) as Hv by (intros p; apply fn_of_put).
  assert (changes s 0 c g id g' C vs []) as Hch.
  { split; try done; [by rewrite app_nil_r|by eapply I_sizes|by left]. }
  split.
  - eapply (changed_change fin s 0); [done|exact Hch|by eapply routine_put; [apply HI|]|done|].
    intros Hcl. split; [by apply Hq|]. by destruct (compilers s !! 1%nat).
  - intros g1 Hg2. exists g'. unfold fn_at. simpl. rewrite list_lookup_alter_eq, Hc. simpl. rewrite Hv, decide_True by done.
    split; [done|]. by assert (g1 = g) as -> by congruence.
Qed.
Lemma emits_chunk F D vs fin s :
  Inv fin s →
  (∀ g, fn_at s 0 = Some g → code (F (chunk g)) = fcode g ++ D ∧ used (constants (F (chunk g))) = fconsts g ++ vs) →
  (clean s → ∀ q, FUNCTION_VAL q ∈ vs → q ∈ fin) →
  post (modify_chunk F) s (λ _ s', evolves fin s D fin s' ∧
    (∀ g, fn_at s 0 = Some g → ∃ g', fn_at s' 0 = Some g' ∧ chunk g' = F (chunk g))).
Proof.
  intros HI HF Hq. eapply post_mono; [apply (modify_chunk_post F (code_at s 0 ++ D) vs fin s HI); [|done]|]; cbv beta.
  - intros g Hg. unfold code_at. rewrite Hg. by apply HF.
  - intros _ s' [V H]. split; [by apply evolves_changed|done].
Qed.
Lemma emits_byte byte : emits (emitByte byte) [u8 byte].
Proof.
  intros fin s HI. eapply post_mono; [apply (emits_chunk _ [u8 byte] [] fin s HI)|by intros ? ? [? _]].
  - intros g _. simpl. by rewrite app_nil_r.
  - intros _ q Hin. by apply list.not_elem_of_nil in Hin.
Qed.
Lemma u8_encode o : u8 (encode o) = encode o.
Proof. by destruct o; vm_compute. Qed.
Lemma emits_op o : emits (emitOp o) [encode o].
Proof. unfold emitOp. rewrite <-(u8_encode o) at 2. apply emits_byte. Qed.
Lemma emits_op_byte o b : emits (emitOpByte o b) [encode o; u8 b].
Proof. unfold emitOpByte, emitBytes. rewrite <-(u8_encode o) at 2. apply (emits_bind _ _ [_] [_]); [apply emits_byte|intros _; apply emits_byte]. Qed.

(** ** Constants *)
Lemma quiet_chunk : quiet currentChunk.
Proof. apply quiet_bind; [apply quiet_compiler|intros c]. apply quiet_bind; [apply quiet_still, still_get_function|intros ?; apply quiet_ret]. Qed.
Lemma post_chunk s (Q : Chunk → CState → Prop) :
  (∀ g, fn_at s 0 = Some g → Q (chunk g) s) → post currentChunk s Q.
Proof.
  intros H. apply post_bind, post_compiler. intros c Hc. apply post_bind, post_get_fn. intros g Hg. apply post_ret, H.
  unfold fn_at. by rewrite Hc.
Qed.

Lemma find_constant_post loc cs v n : ∀ i st, post (find_constant loc n i cs v) st (λ r _,
  match r with
  | Some j => (i ≤ j < i + n)%nat ∧ ∃ c st1 st2, avalues cs !! j = Some c ∧ valuesEqual loc c v st1 = Some (true, st2)
  | None => ∀ j, (i ≤ j < i + n)%nat → is_Some (avalues cs !! j)
  end).
Proof.
  induction n as [|n IH]; intros i st; simpl; [apply post_ret; lia|].
  destruct (avalues cs !! i) as [c|] eqn:Hi; [|apply post_fail].
  apply post_bind. intros e st' E. destruct e.
  - apply post_ret. split; [lia|]. by exists c, st, st'.
  - eapply post_mono; [apply IH|]. intros [j|] st'' H.
    + destruct H as [? H]. split; [lia|done].
    + intros j Hj. destruct (decide (j = i)) as [->|]; [by exists c|apply H; lia].
Qed.
Lemma addConstant_post loc cs v st : post (addConstant loc cs v) st (λ x _,
  (x.2 = cs ∧ ∃ c st1 st2, used cs !! x.1 = Some c ∧ valuesEqual loc c v st1 = Some (true, st2)) ∨
  (used x.2 = used cs ++ [v] ∧ x.1 = length (used cs))).
Proof.
  apply post_bind. intros r st1 E. pose proof (find_constant_post loc cs v (acount cs) 0 st r st1 E) as H.
  destruct r as [j|].
  - apply post_ret. left. simpl. split; [done|]. destruct H as [Hj (c & s1 & s2 & Hc & He)]. exists c, s1, s2.
    split; [|done]. unfold used. by rewrite lookup_take_lt by lia.
  - assert (acount cs ≤ length (avalues cs))%nat as HL.
    { destruct (decide (acount cs = 0%nat)) as [->|]; [lia|].
      destruct (H (acount cs - 1)%nat) as [x Hx]; [lia|]. apply lookup_lt_Some in Hx. lia. }
    intros x st2. unfold appendToDynamicValueArray.
    set (a := if (acapacity cs <? acount cs + 1)%nat then _ else cs). destruct (Nat.ltb_spec (acount a) (length (avalues a))) as [Hlt|]; [|done].
    intros [= <- <-]. right. simpl.
    assert (acount a = acount cs ∧ take (acount cs) (avalues a) = used cs) as [Ha Hu].
    { unfold a, used. destruct (_ <? _)%nat; [|done]. simpl. split; [done|]. unfold grow. by rewrite take_app_le. }
    rewrite Ha in Hlt |- *. split.
    + unfold used. simpl. rewrite (take_S_r _ _ v) by (by rewrite list_lookup_insert_eq).
      rewrite take_insert_ge by lia. by rewrite Hu.
    + unfold used. rewrite length_take. lia.
Qed.

Lemma valuesEqual_object loc c t p st st' : t = String_ ∨ t = Function_ →
  valuesEqual loc c (TYPED_VAL (Simple t) (Some p)) st = Some (true, st') → c = TYPED_VAL (Simple t) (Some p).
Proof.
  intros Ht. unfold valuesEqual. destruct (same_type _ _) eqn:Hs; [|done]. simpl.
  apply bool_decide_eq_true in Hs.
  rewrite andb_comm. destruct Ht as [-> | ->]; simpl; destruct c as [| | |n x| |b|t o|t|o]; try done;
    destruct t; try done; simpl in Hs; simplify_eq; simpl;
    (intros [= H _]; apply bool_decide_eq_true in H; by subst).
Qed.

Definition const_for (fin : gset objptr) (s : CState) (v : Value) (i : Z) : Prop :=
  0 ≤ i < 256 ∧ ∃ c, constant (info_at fin s) i = Some c ∧
    ∀ t p, v = TYPED_VAL (Simple t) (Some p) → t = String_ ∨ t = Function_ → c = v.
Lemma const_string fin s k i : const_for fin s (STRING_VAL k) i → is_string_constant (info_at fin s) i = true.
Proof.
  intros (_ & c & Hc & H). unfold is_string_constant. rewrite Hc. by rewrite (H String_ k eq_refl (or_introl eq_refl)).
Qed.

Lemma makeConstant_post v fin s : Inv fin s → (∀ q, v = FUNCTION_VAL q → clean s → q ∈ fin) →
  post (makeConstant v) s (λ i s', evolves fin s [] fin s' ∧ (clean s' → const_for fin s' v i)).
Proof.
  intros HI Hq. apply post_bind, post_chunk. intros g Hg. apply post_bind. intros s0 ? [= <- <-].
  apply post_bind. intros [i cs] s1 E. cbv beta iota.
  assert (evolves fin s [] fin s1 ∧ fn_at s1 0 = fn_at s 0 ∧ (clean s → clean s1) ∧
    ((cs = constants (chunk g) ∧ ∃ c st1 st2, used cs !! i = Some c ∧ valuesEqual (vm_loc (cvm s)) c v st1 = Some (true, st2)) ∨
     (used cs = fconsts g ++ [v] ∧ i = length (fconsts g)))) as (V1 & Hat & Hcl1 & Hcase).
  { unfold vmc in E. destruct (vm_ints _ _) as [[x vm1]|] eqn:E1; [|done]. injection E as -> <-.
    assert (same_fns ctx (cvm s) vm1) as HV.
    { eapply calm_still; [apply still_heap|apply HI|exact E1]. }
    split; [by apply evolves_vm|]. split; [by rewrite same_fns_at|]. split; [done|].
    unfold vm_ints, with_heap in E1. destruct (with_ints _ _) as [[x h]|] eqn:E2; [|done]. injection E1 as -> <-.
    unfold with_ints in E2. destruct (addConstant _ _ _ _) as [[x ii]|] eqn:E3; [|done]. injection E2 as -> <-.
    destruct (addConstant_post _ _ _ _ _ _ E3) as [[H1 H2]|[H1 H2]]; simpl in *; [left|by right].
    rewrite H1. by split. }
  pose proof (e_inv _ _ _ _ _ V1) as HI1.
  assert (∃ vs, used cs = fconsts g ++ vs ∧ (∀ q, FUNCTION_VAL q ∈ vs → FUNCTION_VAL q = v) ∧
    ∃ c, used cs !! i = Some c ∧
      ∀ t p, v = TYPED_VAL (Simple t) (Some p) → t = String_ ∨ t = Function_ → c = v) as (vs & Hvs & Hvq & c & Hc & Hcv).
  { destruct Hcase as [(-> & c & st1 & st2 & Hc & He)|[Hu ->]].
    - exists []. rewrite app_nil_r. split; [done|]. split; [intros q Hin; by apply list.not_elem_of_nil in Hin|].
      exists c. split; [done|]. intros t p -> Ht. by eapply valuesEqual_object.
    - exists [v]. split; [done|]. split; [intros q; by rewrite list_elem_of_singleton|].
      exists v. split; [|done]. by rewrite Hu, lookup_app_r, Nat.sub_diag by lia. }
  apply post_bind. eapply post_mono.
  - apply (emits_chunk _ [] vs fin s1 HI1).
    + intros g1 Hg1. rewrite Hat, Hg in Hg1. injection Hg1 as <-. simpl. by rewrite app_nil_r.
    + intros Hcl q Hin. apply (Hq q); [by rewrite (Hvq q Hin)|]. by eapply evolves_clean.
  - intros _ s2 (V2 & Hat2). rewrite Hat in Hat2. destruct (Hat2 g Hg) as (g2 & Hg2 & Hk2).
    pose proof (evolves_trans _ _ [] _ _ [] _ _ V1 V2) as V.
    destruct (255 <? i)%nat eqn:Hi.
    + apply post_bind. eapply post_mono; [apply fails_errorAtValue, V2|]. intros _ s3 [V3 Hn].
      apply post_ret. split; [by eapply (evolves_trans _ _ [] _ _ [] _ _ V)|done].
    + apply post_ret. split; [done|]. intros _. apply Nat.ltb_ge in Hi. split; [lia|]. exists c. split; [|done].
      unfold constant. simpl. unfold consts_at. rewrite Hg2. simpl. unfold fconsts. rewrite Hk2. simpl.
      by rewrite Nat2Z.id.
Qed.

(** ** The locals and the scope of the current function *)
Lemma head_step fin s c f :
  Inv fin s → compilers s !! 0%nat = Some c →
  context (f c) = context c ∧ cfunction (f c) = cfunction c ∧ ctype (f c) = ctype c ∧ errors (f c) = errors c ∧
    cupvalues (f c) = cupvalues c →
  (panicMode (f c) = true → panicMode c = true) → (length (locals (f c)) ≤ 256)%nat →
  0 ≤ scopeDepth (f c) →
  let s' := mkCState (cvm s) (alter f 0%nat (compilers s)) (classes s) in
  Inv fin s' ∧ le fin s fin s' ∧ (∀ i, fn_at s' i = fn_at s i) ∧ (clean s → clean s').
Proof.
  intros HI Hc (F1 & F2 & F3 & F4 & F5) Hp Hlen Hsc s'.
  assert (∀ i, compilers s' !! i = (if decide (i = 0%nat) then Some (f c) else compilers s !! i)) as Hl.
  { intros i. unfold s'. simpl. case_decide as Hi; [subst i|by rewrite list_lookup_alter_ne].
    by rewrite list_lookup_alter_eq, Hc. }
  assert (∀ i ci, compilers s' !! i = Some ci → ∃ c0, compilers s !! i = Some c0 ∧ context ci = context c0 ∧
    cfunction ci = cfunction c0 ∧ errors ci = errors c0 ∧ cupvalues ci = cupvalues c0) as Hback.
  { intros i ci. rewrite Hl. case_decide; [intros [= <-]; subst i; by exists c|intros; by exists ci]. }
  assert (clean s → clean s') as Hcl.
  { intros Hs. apply Forall_lookup_2. intros i ci Hi. destruct (Hback i ci Hi) as (c0 & Hc0 & _ & _ & -> & _).
    by eapply clean_lookup. }
  assert (clean s' → clean s) as Hcl'.
  { intros Hs. apply Forall_lookup_2. intros i ci Hi. destruct (decide (i = 0%nat)) as [->|Hi0].
    - assert (ci = c) as -> by congruence. rewrite <-F4. apply (clean_lookup s' 0%nat); [done|]. by rewrite Hl.
    - apply (clean_lookup s' i); [done|]. by rewrite Hl, decide_False. }
  assert (∀ i, fn_at s' i = fn_at s i) as Hat.
  { intros i. unfold fn_at. rewrite Hl. case_decide as Hi; [subst i; rewrite Hc; simpl; by rewrite F2|done]. }
  split; [|split; [|done]].
  - split.
    + apply HI.
    + intros i ci Hi. destruct (Hback i ci Hi) as (c0 & Hc0 & -> & _). by eapply I_context.
    + intros i ci Hi. destruct (Hback i ci Hi) as (c0 & Hc0 & _ & -> & _ & ->). exact (I_fn _ _ HI i c0 Hc0).
    + replace (cfunction <$> compilers s') with (cfunction <$> compilers s); [apply HI|].
      apply list_eq. intros i. rewrite !list_lookup_fmap, Hl. case_decide as Hi; [subst i; rewrite Hc; simpl; by rewrite F2|done].
    + intros i ci Hi. destruct (Hback i ci Hi) as (c0 & Hc0 & _ & -> & _). by eapply I_fin.
    + apply HI.
    + intros i ci. rewrite Hl. case_decide as Hi; [|apply HI]. intros [= <-]. rewrite F4. intros H. by eapply I_panic, Hp.
    + intros i ci. rewrite Hl. case_decide as Hi; [|apply HI]. intros [= <-]. rewrite F5. split; [done|]. by eapply I_sizes.
    + intros i ci. rewrite Hl. case_decide as Hi; [|apply HI]. by intros [= <-].
    + intros Hs. pose proof (I_clean _ _ HI (Hcl' Hs)) as CI. split.
      * intros i ci Hi. destruct (Hback i ci Hi) as (c0 & Hc0 & _ & _ & _ & ->). rewrite Hl, decide_False by lia.
        by apply (C_links _ _ CI).
      * intros i q. unfold consts_at. rewrite Hat. apply (C_consts _ _ CI).
      * apply CI.
  - split; try done.
    + simpl. by rewrite length_alter.
    + intros i ci Hi. rewrite Hl. case_decide as Hi0; [|by exists ci]. subst i. assert (ci = c) as -> by congruence.
      exists (f c). split; [done|]. split; try done; [exists []; by rewrite F4, app_nil_r|exists []; by rewrite F5, app_nil_r|].
      intros g Hg. exists g. split; [done|]. split; [done|]. exists []. by rewrite app_nil_r.
    + intros i. unfold code_at. by rewrite Hat.
    + intros i. unfold locals_at. by rewrite Hl, decide_False by lia.
    + intros i. unfold scope_at. by rewrite Hl, decide_False by lia.
Qed.
End Inv.
