(* ===== verification/CompilerVars.v ===== *)
(** * Names, scopes and jumps in the compiler

    How names are resolved to locals and upvalues that exist, and that a jump
    which is patched goes where it should. *)
From Stdlib Require Import String Ascii.
From S2P Require Import Scanner.
From S2P Require Export CompilerInv.
Open Scope Z_scope.

Section Vars.
Context `{U : Uninit} `{TG : Target} `{HO : Host} `{FM : FreshMemory}.
Variable ctx : objptr.
Abbreviation Inv := (Inv ctx).
Abbreviation evolves := (evolves ctx).
Abbreviation changed := (changed ctx).
Abbreviation quiet := (quiet ctx).
Abbreviation fails_with := (fails_with ctx).

(** The locals below [b] may be read. *)
Definition bounded (b : nat) (s : CState) : Prop :=
  clean s → ∀ i l, locals_at s 0 !! i = Some l → depth l ≠ -1 → (i < b)%nat.
Lemma bounded_evolves b f s D f' s' : evolves f s D f' s' → bounded b s → bounded b s'.
Proof.
  intros H Hb Hcl i l' Hl' Hd. destruct (Forall2_lookup_r _ _ _ _ _ (e_locals _ _ _ _ _ _ H Hcl) Hl') as (l & Hl & _ & E).
  apply (Hb (evolves_clean _ _ _ _ _ _ H Hcl) i l Hl). congruence.
Qed.

(** ** Locals *)
Definition found (ls : list Local) (s : CState) (r : option nat) : Prop :=
  match r with
  | Some j => (j < length ls)%nat ∧ (clean s → ∃ l, ls !! j = Some l ∧ depth l ≠ -1)
  | None => True
  end.
Lemma resolve_in_post ls i name fin s : Inv fin s → (i ≤ length ls)%nat →
  post (resolve_in ls i name) s (λ r s', evolves fin s [] fin s' ∧ found ls s' r).
Proof.
  revert s. induction i as [|i IH]; intros s HI Hi; [apply post_ret; split; [by apply evolves_refl|done]|].
  simpl. apply post_bind. intros l s1. unfold of_some. destruct (ls !! i) as [l'|] eqn:Hl; [|done]. intros [= <- <-].
  apply post_bind. intros e s2 E2. pose proof (quiet_equal ctx _ _ fin s HI e s2 E2) as V2. destruct e.
  - apply post_bind. intros u s3 E3. apply post_ret.
    assert (evolves fin s2 [] fin s3 ∧ (clean s3 → depth l' ≠ -1)) as [V3 Hd].
    { revert E3. destruct (Z.eqb_spec (depth l') (-1)); intros E3.
      - destruct (fails_errorAtName ctx _ _ fin s2 (e_inv _ _ _ _ _ _ V2) _ _ E3) as [V Hn]. by split.
      - injection E3 as <- <-. split; [apply evolves_refl, V2|done]. }
    split; [by eapply (evolves_trans _ _ _ [] _ _ [])|]. split; [lia|]. intros Hcl. exists l'. split; [done|by apply Hd].
  - eapply post_mono; [apply IH; [apply V2|lia]|]; cbv beta. intros r s3 [V3 H3]. split; [by eapply (evolves_trans _ _ _ [] _ _ [])|done].
Qed.

Lemma resolveLocal_post n name fin s : Inv fin s →
  post (resolveLocal n name) s (λ r s', evolves fin s [] fin s' ∧
    ∃ c, compilers s !! n = Some c ∧ found (locals c) s' r).
Proof.
  intros HI. apply post_bind, post_compiler. intros c Hc. eapply post_mono; [by apply resolve_in_post|].
  intros r s' [V H]. split; [done|]. by exists c.
Qed.

(** A command that appends [D] and gives the current function the locals
    [ls]. *)
Record alters (fin : gset objptr) (s : CState) (D : list Z) (ls : list Local) (fin' : gset objptr) (s' : CState) : Prop := {
  r_inv : Inv fin' s';
  r_le : le fin s fin' s';
  r_code : code_at s' 0 = code_at s 0 ++ D;
  r_scope : scope_at s' 0 = scope_at s 0;
  r_locals : clean s' → locals_like ls (locals_at s' 0)
}.
Abbreviation relocates fin s ls s' := (alters fin s [] ls fin s').
Lemma evolves_alters fin s D fin' s' : evolves fin s D fin' s' → alters fin s D (locals_at s 0) fin' s'.
Proof. by intros []. Qed.
Lemma alters_evolves_same fin s D fin' s' : alters fin s D (locals_at s 0) fin' s' → evolves fin s D fin' s'.
Proof. by intros []. Qed.
Lemma fails_alters fin s D fin' s' ls : evolves fin s D fin' s' → ¬ clean s' → alters fin s D ls fin' s'.
Proof. by intros []. Qed.
Lemma alters_clean fin s D ls fin' s' : alters fin s D ls fin' s' → clean s' → clean s.
Proof. intros H. eapply le_clean, r_le, H. Qed.
Lemma alters_trans f1 s1 D1 ls1 f2 s2 D2 ls2 f3 s3 :
  alters f1 s1 D1 ls1 f2 s2 → alters f2 s2 D2 ls2 f3 s3 → alters f1 s1 (D1 ++ D2) ls2 f3 s3.
Proof.
  intros [R1 R2 R3 R4 R5] [V1 V2 V3 V4 V5].
  split; [done|by eapply le_trans|by rewrite V3, R3, app_assoc|by rewrite V4|done].
Qed.
Lemma alters_evolves f1 s1 D1 ls f2 s2 D2 f3 s3 :
  alters f1 s1 D1 ls f2 s2 → evolves f2 s2 D2 f3 s3 → alters f1 s1 (D1 ++ D2) ls f3 s3.
Proof.
  intros R V. pose proof (alters_trans _ _ _ _ _ _ _ _ _ _ R (evolves_alters _ _ _ _ _ V)) as [V1 V2 V3 V4 V5].
  split; try done. intros Hcl. etransitivity; [|by apply V5]. eapply r_locals; [exact R|]. by eapply evolves_clean.
Qed.
Lemma alters_like fin s D ls ls' fin' s' : alters fin s D ls fin' s' → (clean s' → locals_like ls' ls) → alters fin s D ls' fin' s'.
Proof. intros [R1 R2 R3 R4 R5] H. split; try done. intros Hcl. etransitivity; [by apply H|by apply R5]. Qed.
Lemma alters_flow f1 s1 D ls f2 s2 D0 n m : Inv f1 s1 → alters f1 s1 D ls f2 s2 →
  flow (info_at f1 s1) D0 n m → flow (info_at f2 s2) D0 n m.
Proof. intros HI H. apply flow_le, (le_info ctx); [done|apply H]. Qed.
Lemma locals_head s c : compilers s !! 0%nat = Some c → locals_at s 0 = locals c ∧ scope_at s 0 = scopeDepth c.
Proof. intros Hc. unfold locals_at, scope_at. by rewrite Hc. Qed.

Lemma set_locals_relocates fin s c ls : Inv fin s → compilers s !! 0%nat = Some c → (length ls ≤ 256)%nat →
  relocates fin s ls (mkCState (cvm s) (alter (set_locals ls) 0%nat (compilers s)) (classes s)).
Proof.
  intros HI Hc HL. destruct (head_step ctx fin s c (set_locals ls)) as (H1 & H2 & H3 & H4); try done.
  { exact (I_scope _ _ _ HI _ _ Hc). }
  split; [done|done| | |].
  - unfold code_at. by rewrite H3, app_nil_r.
  - unfold scope_at. simpl. by rewrite list_lookup_alter_eq, Hc.
  - intros _. unfold locals_at. simpl. by rewrite list_lookup_alter_eq, Hc.
Qed.

Lemma addLocal_post name fin s : Inv fin s →
  post (addLocal name) s (λ _ s', relocates fin s (locals_at s 0 ++ [mkLocal name (-1) false]) s').
Proof.
  intros HI. apply post_bind, post_compiler. intros c Hc. destruct (locals_head s c Hc) as [-> _].
  destruct (Nat.eqb_spec (length (locals c)) 256) as [Hn|Hn].
  - eapply post_mono; [by apply (fails_errorAtName ctx)|]; cbv beta. intros _ s' [V Hcl]. by apply fails_alters.
  - apply post_modify. intros c' Hc'. eapply set_locals_relocates; [done|done|].
    rewrite length_app. pose proof (I_sizes _ _ _ HI _ _ Hc). simpl. lia.
Qed.

Lemma quiet_declared_in ls i scope name : quiet (declared_in ls i scope name).
Proof.
  induction i as [|i IH]; [apply quiet_ret|]. apply quiet_bind; [apply quiet_some|intros l].
  destruct (_ && _); [apply quiet_ret|]. apply quiet_bind; [apply quiet_equal|intros []; [apply quiet_ret|apply IH]].
Qed.

(** The locals after the declaration of a name. *)
Definition declared (name : strptr) (d : Z) (s : CState) : list Local :=
  if 0 <? scope_at s 0 then locals_at s 0 ++ [mkLocal name d false] else locals_at s 0.
Lemma declareVariable_post name fin s : Inv fin s →
  post (declareVariable name) s (λ _ s', relocates fin s (declared name (-1) s) s').
Proof.
  intros HI. apply post_bind, post_compiler. intros c Hc. unfold declared.
  destruct (locals_head s c Hc) as [_ Hs]. pose proof (I_scope _ _ _ HI _ _ Hc) as Hpos. rewrite Hs.
  destruct (Z.eqb_spec (scopeDepth c) 0) as [H0|H0].
  - apply post_ret. rewrite H0. by apply evolves_alters, evolves_refl.
  - rewrite (proj2 (Z.ltb_lt 0 (scopeDepth c))) by lia. apply post_bind. intros taken s1 E1.
    pose proof (quiet_declared_in _ _ _ _ fin s HI taken s1 E1) as V1. destruct taken.
    + eapply post_mono; [apply (fails_errorAtName ctx); apply V1|]; cbv beta. intros _ s2 [V2 Hn].
      apply fails_alters; [|done]. by eapply (evolves_trans _ _ _ [] _ _ []).
    + eapply post_mono; [apply addLocal_post, V1|]; cbv beta. intros ? s2 R.
      eapply alters_like; [exact (alters_trans _ _ [] _ _ _ [] _ _ _ (evolves_alters _ _ _ _ _ V1) R)|].
      intros Hcl. apply Forall2_app; [apply V1; by eapply alters_clean|done].
Qed.

Lemma parseVariable_post name fin s : Inv fin s →
  post (parseVariable name) s (λ i s', relocates fin s (declared name (-1) s) s' ∧
    (clean s' → scope_at s 0 = 0 → const_for fin s' (STRING_VAL name) i)).
Proof.
  intros HI. apply post_bind. eapply post_mono; [by apply declareVariable_post|]; cbv beta. intros u s1 R1.
  apply post_bind, post_compiler. intros c1 Hc1. destruct (locals_head s1 c1 Hc1) as [_ Hs1].
  rewrite (r_scope _ _ _ _ _ _ R1) in Hs1. destruct (Z.ltb_spec 0 (scopeDepth c1)).
  - apply post_ret. split; [done|]. intros _ H0. lia.
  - eapply post_mono; [apply makeConstant_post; [apply R1|intros q Hq; discriminate]|]; cbv beta. intros i s2 [V2 Hc].
    split; [exact (alters_evolves _ _ [] _ _ _ [] _ _ R1 V2)|]. intros Hcl _. by apply Hc.
Qed.


Lemma markInitialized_post fin s : Inv fin s → post markInitialized s (λ _ s', relocates fin s
  (if 0 <? scope_at s 0 then
     alter (λ l, mkLocal (lname l) (scope_at s 0) (isCaptured l)) (pred (length (locals_at s 0))) (locals_at s 0)
   else locals_at s 0) s').
Proof.
  intros HI. apply post_bind, post_compiler. intros c Hc. destruct (locals_head s c Hc) as [-> ->].
  pose proof (I_scope _ _ _ HI _ _ Hc). destruct (Z.eqb_spec (scopeDepth c) 0) as [->|H0].
  - apply post_ret. eapply alters_like; [apply evolves_alters, evolves_refl, HI|]. intros _.
    by destruct (locals_head s c Hc) as [-> _].
  - rewrite (proj2 (Z.ltb_lt 0 (scopeDepth c))) by lia. apply post_bind, post_assert. intros _.
    apply post_modify. intros c' Hc'. eapply set_locals_relocates; [done|done|].
    rewrite length_alter. by eapply (I_sizes _ _ _ HI).
Qed.
(** The last local is the one that is declared. *)
Lemma mark_declared name s0 ls d sc : 0 < sc → locals_like (s0 ++ [mkLocal name d false]) ls →
  locals_like (s0 ++ [mkLocal name sc false]) (alter (λ l, mkLocal (lname l) sc (isCaptured l)) (pred (length ls)) ls).
Proof.
  intros Hsc H. apply Forall2_app_inv_l in H as (l1 & l2 & H1 & H2 & ->).
  apply Forall2_cons_inv_l in H2 as (y & l3 & [Hn _] & H3 & ->). apply Forall2_nil_inv_l in H3 as ->.
  rewrite length_app. simpl. replace (pred (length l1 + 1)) with (length l1 + 0)%nat by lia. rewrite alter_app_r.
  apply Forall2_app; [done|]. constructor; [|done]. by split.
Qed.

(** The end of a declaration: the value on the stack becomes the local, or the
    global. *)
Lemma defineVariable_post name d ls global n fin s :
  Inv fin s → (clean s → locals_like (if 0 <? scope_at s 0 then ls ++ [mkLocal name d false] else ls) (locals_at s 0)) →
  (clean s → scope_at s 0 = 0 → const_for fin s (STRING_VAL name) global) →
  post (defineVariable global) s (λ _ s', ∃ D,
    alters fin s D (if 0 <? scope_at s 0 then ls ++ [mkLocal name (scope_at s 0) false] else ls) fin s' ∧
    (clean s' → flow (info_at fin s') D (S n) (if 0 <? scope_at s 0 then S n else n))).
Proof.
  intros HI Hls Hg. apply post_bind, post_compiler. intros c Hc. destruct (locals_head s c Hc) as [_ Hsc].
  rewrite <-Hsc. destruct (Z.ltb_spec 0 (scope_at s 0)) as [Hpos|Hpos].
  - eapply post_mono; [by apply markInitialized_post|]; cbv beta. intros ? s' R. exists [].
    split; [|intros _; apply flow_nil]. rewrite (proj2 (Z.ltb_lt 0 (scope_at s 0))) in R by done.
    eapply alters_like; [exact R|]. intros Hcl. apply (mark_declared _ _ _ d); [done|].
    apply Hls. by eapply alters_clean.
  - pose proof (I_scope _ _ _ HI _ _ Hc). assert (scope_at s 0 = 0) as H0 by lia.
    eapply post_mono; [by apply (emits_op_byte ctx)|]; cbv beta. intros ? s' V. exists [encode OP_DEFINE_GLOBAL; u8 global].
    split.
    + eapply alters_like; [exact (evolves_alters _ _ _ _ _ V)|]. intros Hcl. apply Hls. by eapply evolves_clean.
    + intros Hcl. destruct (Hg (evolves_clean _ _ _ _ _ _ V Hcl) H0) as [Hr Hc']. rewrite u8_small by done.
      apply flow_op; try done; [|simpl; lia|simpl; lia]. simpl.
      eapply string_le; [eapply (le_info ctx); [exact HI|apply V]|].
      apply const_string with name. split; [done|]. apply Hc'.
Qed.

(** ** Scopes *)
Lemma set_depth_post d fin s c : Inv fin s → compilers s !! 0%nat = Some c → 0 ≤ d →
  let s' := mkCState (cvm s) (alter (set_depth d) 0%nat (compilers s)) (classes s) in
  Inv fin s' ∧ le fin s fin s' ∧ code_at s' 0 = code_at s 0 ∧ locals_at s' 0 = locals_at s 0 ∧ scope_at s' 0 = d ∧
  (clean s → clean s').
Proof.
  intros HI Hc Hd s'. destruct (head_step ctx fin s c (set_depth d)) as (H1 & H2 & H3 & H4); try done.
  { exact (proj1 (I_sizes _ _ _ HI _ _ Hc)). }
  split; [done|]. split; [done|]. split; [unfold code_at; by rewrite H3|].
  split; [unfold locals_at|split; [unfold scope_at|done]]; simpl; by rewrite list_lookup_alter_eq, Hc.
Qed.

Lemma end_scope_post ls fin : ∀ s, Inv fin s → locals_at s 0 = reverse ls →
  post (end_scope ls) s (λ _ s', ∃ D k, (k ≤ length ls)%nat ∧ alters fin s D (reverse (drop k ls)) fin s' ∧
    (∀ i l, (i < k)%nat → ls !! i = Some l → scope_at s 0 < depth l) ∧
    (∀ l, ls !! k = Some l → depth l ≤ scope_at s 0) ∧ ∀ F n, flow F D (n + k) n).
Proof.
  assert (∀ s ls, Inv fin s → locals_at s 0 = reverse ls → (∀ l, ls !! 0%nat = Some l → depth l ≤ scope_at s 0) →
    ∃ D k, (k ≤ length ls)%nat ∧ alters fin s D (reverse (drop k ls)) fin s ∧
    (∀ i l, (i < k)%nat → ls !! i = Some l → scope_at s 0 < depth l) ∧
    (∀ l, ls !! k = Some l → depth l ≤ scope_at s 0) ∧ ∀ F n, flow F D (n + k) n) as Hstop.
  { intros s l HI Hl H0. exists [], 0%nat. split; [lia|]. split.
    - eapply alters_like; [apply evolves_alters, evolves_refl, HI|]. intros _. by rewrite Hl.
    - split; [lia|]. split; [done|]. intros F n. rewrite Nat.add_0_r. apply flow_nil. }
  induction ls as [|l ls IH]; intros s HI Hls; [by apply post_ret, Hstop|].
  simpl. apply post_bind, post_compiler. intros c Hc. destruct (locals_head s c Hc) as [Hlc Hsc]. rewrite <-Hsc.
  destruct (Z.ltb_spec (scope_at s 0) (depth l)) as [Hd|Hd].
  2:{ apply post_ret, (Hstop s (l :: ls)); [done|done|]. by intros ? [= <-]. }
  set (o := if isCaptured l then OP_CLOSE_UPVALUE else OP_POP).
  apply post_bind. eapply post_mono; [by apply (emits_op ctx o)|]; cbv beta. intros ? s1 V1.
  apply post_bind, post_modify. intros c1 Hc1.
  assert (length (reverse ls) ≤ 256)%nat as HL.
  { pose proof (I_sizes _ _ _ HI _ _ Hc) as [HL _]. rewrite <-Hlc, Hls, length_reverse in HL. rewrite length_reverse. simpl in HL. lia. }
  pose proof (set_locals_relocates fin s1 c1 (reverse ls) (e_inv _ _ _ _ _ _ V1) Hc1 HL) as R2.
  set (s2 := mkCState _ _ _) in *. pose proof (evolves_alters _ _ _ _ _ V1) as R1.
  eapply post_mono; [apply IH; [apply R2|]|]; cbv beta.
  { unfold s2, locals_at. simpl. by rewrite list_lookup_alter_eq, Hc1. }
  intros ? s3 (D & k & Hk & R3 & Hlt & Hle & HF).
  assert (scope_at s2 0 = scope_at s 0) as Hs2 by by rewrite (r_scope _ _ _ _ _ _ R2), (r_scope _ _ _ _ _ _ R1).
  rewrite Hs2 in *.
  exists ([encode o] ++ D), (S k). split; [simpl; lia|]. split; [|split; [|split]].
  - exact (alters_trans _ _ _ _ _ _ _ _ _ _ R1 (alters_trans _ _ [] _ _ _ D _ _ _ R2 R3)).
  - intros [|i] x Hi; [by intros [= <-]|]. apply Hlt. lia.
  - apply Hle.
  - intros F n. eapply flow_app; [|apply HF]. unfold o.
    destruct (isCaptured l); apply flow_op; simpl; try done; lia.
Qed.

(** A scope around a command: the locals of the scope go at its end. *)
Definition full (s : CState) (n : nat) : Prop :=
  clean s → length (locals_at s 0) = n ∧ Forall (λ l, 0 ≤ depth l ≤ scope_at s 0) (locals_at s 0).
Lemma full_evolves n f s D f' s' : evolves f s D f' s' → full s n → full s' n.
Proof.
  intros H Hf Hcl. destruct (Hf (evolves_clean _ _ _ _ _ _ H Hcl)) as [HL HF].
  pose proof (e_locals _ _ _ _ _ _ H Hcl) as Hlike. split; [by rewrite <-(Forall2_length Hlike)|].
  rewrite (e_scope _ _ _ _ _ _ H). apply list.Forall_forall. intros y Hy. apply list_elem_of_lookup in Hy as [j Hj].
  destruct (Forall2_lookup_r _ _ _ _ _ Hlike Hj) as (x & Hx & _ & <-). exact (Forall_lookup_1 _ _ _ _ HF Hx).
Qed.
Lemma full_bounded s n : full s n → bounded n s.
Proof. intros H Hcl i l Hi _. destruct (H Hcl) as [<- _]. by eapply lookup_lt_Some. Qed.

(** What a statement leaves: new locals, whose values are on the stack. *)
Definition stmt_post (fin : gset objptr) (s : CState) (n : nat) (may_declare : bool) (s' : CState) : Prop :=
  ∃ fin' D news, alters fin s D (locals_at s 0 ++ news) fin' s' ∧
    (may_declare = false → news = []) ∧
    Forall (λ l, depth l = scope_at s 0) news ∧ (scope_at s 0 = 0 → news = []) ∧
    (clean s' → flow (info_at fin' s') D n (n + length news)).

(** [s1] comes from [s] by opening a scope. *)
Record opened (fin : gset objptr) (s s1 : CState) : Prop := {
  o_inv : Inv fin s1;
  o_le : le fin s fin s1;
  o_code : code_at s1 0 = code_at s 0;
  o_locals : locals_at s1 0 = locals_at s 0;
  o_scope : scope_at s1 0 = scope_at s 0 + 1;
  o_pos : 0 ≤ scope_at s 0
}.
Lemma alter_depth c cs d (f : Z → Z) : head cs = Some c → d = f (scopeDepth c) →
  alter (λ c, set_depth (f (scopeDepth c)) c) 0%nat cs = alter (set_depth d) 0%nat cs.
Proof. destruct cs as [|c' cs]; [done|]. intros [= ->] ->. done. Qed.
Lemma head_0 {A} (l : list A) : head l = l !! 0%nat.
Proof. by destruct l. Qed.
Lemma beginScope_post fin s : Inv fin s → post beginScope s (λ _ s1, opened fin s s1).
Proof.
  intros HI. apply post_modify. intros c Hc. destruct (locals_head s c Hc) as [_ Hsc].
  pose proof (I_scope _ _ _ HI _ _ Hc) as H0.
  destruct (set_depth_post (scopeDepth c + 1) fin s c HI Hc ltac:(lia)) as (HI1 & L1 & C1 & Loc1 & S1 & Cl1).
  rewrite (alter_depth c _ (scopeDepth c + 1) (λ d, d + 1)) by (done || by rewrite head_0).
  split; try done; lia.
Qed.
Lemma opened_full fin s s1 n : opened fin s s1 → full s n → full s1 n.
Proof.
  intros [_ L1 _ Loc1 S1 _] Hf Hcl. destruct (Hf (le_clean _ _ _ _ L1 Hcl)) as [HL HF]. rewrite Loc1, S1.
  split; [done|]. eapply list.Forall_impl; [exact HF|]. intros l. simpl. lia.
Qed.

(** How many locals the end of a scope drops. *)
Lemma scope_split (old news ls : list Local) k d :
  locals_like (old ++ news) (reverse ls) → Forall (λ l, depth l ≤ d) old → Forall (λ l, depth l = d + 1) news →
  (k ≤ length ls)%nat → (∀ i l, (i < k)%nat → ls !! i = Some l → d < depth l) →
  (∀ l, ls !! k = Some l → depth l ≤ d) →
  k = length news ∧ locals_like old (reverse (drop k ls)).
Proof.
  intros Hlike Hold Hnews Hk Hlt Hle. apply Forall2_app_inv_l in Hlike as (la & lb & Ha & Hb & Hab).
  assert (ls = reverse lb ++ reverse la) as -> by (by rewrite <-reverse_app, <-Hab, reverse_involutive).
  assert (Forall (λ l, depth l = d + 1) (reverse lb)) as Hlb.
  { apply Forall_reverse. eapply list.Forall_forall. intros y Hy. apply list_elem_of_lookup in Hy as [j Hj].
    destruct (Forall2_lookup_r _ _ _ _ _ Hb Hj) as (x & Hx & _ & <-). exact (Forall_lookup_1 _ _ _ _ Hnews Hx). }
  assert (Forall (λ l, depth l ≤ d) (reverse la)) as Hla.
  { apply Forall_reverse. eapply list.Forall_forall. intros y Hy. apply list_elem_of_lookup in Hy as [j Hj].
    destruct (Forall2_lookup_r _ _ _ _ _ Ha Hj) as (x & Hx & _ & <-). exact (Forall_lookup_1 _ _ _ _ Hold Hx). }
  assert (k = length (reverse lb)) as ->.
  { destruct (Nat.lt_total k (length (reverse lb))) as [H|[H|H]]; [exfalso|done|exfalso].
    - destruct (lookup_lt_is_Some_2 _ _ H) as [x Hx]. pose proof (Hle x (lookup_app_l_Some _ _ _ _ Hx)).
      pose proof (Forall_lookup_1 _ _ _ _ Hlb Hx) as E. simpl in E. lia.
    - rewrite length_app in Hk. destruct (lookup_lt_is_Some_2 (reverse la) 0) as [x Hx]; [lia|].
      pose proof (Forall_lookup_1 _ _ _ _ Hla Hx) as E. simpl in E.
      enough (d < depth x) by lia. apply (Hlt (length (reverse lb)) x H). by rewrite lookup_app_r, Nat.sub_diag by lia. }
  split; [by rewrite length_reverse, (Forall2_length Hb)|]. by rewrite drop_app_length, reverse_involutive.
Qed.

Lemma endScope_post fin s s1 f2 s2 D2 news n a :
  opened fin s s1 → full s n → alters fin s1 D2 (locals_at s1 0 ++ news) f2 s2 →
  Forall (λ l, depth l = scope_at s1 0) news →
  (clean s2 → flow (info_at f2 s2) D2 a (n + length news)) →
  post endScope s2 (λ _ s3, ∃ D, evolves fin s D f2 s3 ∧ (clean s3 → flow (info_at f2 s3) D a n)).
Proof.
  intros [HI1 L1 C1 Loc1 S1 Hpos] Hfull R2 Hnews HF2.
  apply post_bind, post_modify. intros c2 Hc2. destruct (locals_head s2 c2 Hc2) as [_ Hs2].
  rewrite (r_scope _ _ _ _ _ _ R2), S1 in Hs2.
  destruct (set_depth_post (scope_at s 0) f2 s2 c2 (r_inv _ _ _ _ _ _ R2) Hc2 Hpos) as (HI3 & L3 & C3 & Loc3 & S3 & _).
  rewrite (alter_depth c2 _ (scope_at s 0) (λ d, d - 1)) by (by rewrite head_0 || lia).
  set (s3 := mkCState _ _ _) in *. apply post_bind, post_compiler. intros c3 Hc3. destruct (locals_head s3 c3 Hc3) as [Hl3 _].
  eapply post_mono; [apply (end_scope_post _ f2); [done|by rewrite reverse_involutive, Hl3]|]; cbv beta.
  intros ? s4 (D4 & k & Hk & R4 & Hlt & Hle & HF4). exists (D2 ++ D4).
  assert (clean s4 → k = length news ∧ locals_like (locals_at s 0) (locals_at s4 0)) as Hclean.
  { intros Hcl. pose proof (le_clean _ _ _ _ L3 (alters_clean _ _ _ _ _ _ R4 Hcl)) as Hcl2.
    destruct (Hfull (le_clean _ _ _ _ L1 (alters_clean _ _ _ _ _ _ R2 Hcl2))) as [_ Hdep].
    pose proof (r_locals _ _ _ _ _ _ R2 Hcl2) as Hlike. rewrite <-Loc3, Hl3, Loc1, <-(reverse_involutive (locals c3)) in Hlike.
    destruct (scope_split _ _ _ k (scope_at s 0) Hlike) as [Hkn Hdrop]; try done.
    - eapply list.Forall_impl; [exact Hdep|]. intros l. simpl. lia.
    - by rewrite <-S1.
    - by rewrite <-S3.
    - by rewrite <-S3.
    - split; [done|]. etransitivity; [exact Hdrop|]. by apply R4. }
  split.
  - apply alters_evolves_same. split; [apply R4| | | |by apply Hclean].
    + eapply le_trans; [exact L1|]. eapply le_trans; [apply R2|]. eapply le_trans; [exact L3|apply R4].
    + by rewrite (r_code _ _ _ _ _ _ R4), C3, (r_code _ _ _ _ _ _ R2), C1, app_assoc.
    + by rewrite (r_scope _ _ _ _ _ _ R4).
  - intros Hcl. destruct (Hclean Hcl) as [-> _]. eapply flow_app; [|apply HF4].
    eapply flow_le; [eapply (le_info ctx); [apply R2|eapply le_trans; [exact L3|apply R4]]|].
    apply HF2. eapply le_clean; [exact L3|]. by eapply alters_clean.
Qed.

(** ** Upvalues *)
Definition has_up (s : CState) (n i : nat) : Prop :=
  ∃ c, compilers s !! n = Some c ∧ (i < length (cupvalues c))%nat.
Lemma le_up fin s fin' s' n i : le fin s fin' s' → has_up s n i → has_up s' n i.
Proof.
  intros L (c & Hc & Hi). destruct (l_comp _ _ _ _ L n c Hc) as (c' & Hc' & HE). exists c'. split; [done|].
  destruct (le_upvalues _ _ _ _ HE) as [l ->]. rewrite length_app. lia.
Qed.

Lemma addUpvalue_post n u name fin s : Inv fin s →
  (clean s → ∃ e, compilers s !! S n = Some e ∧ link_ok e u) →
  post (addUpvalue n u name) s (λ i s', evolves fin s [] fin s' ∧ (clean s' → has_up s' n i)).
Proof.
  intros HI Hu. apply post_bind, post_compiler. intros c Hc.
  destruct (list_find (eq u) (cupvalues c)) as [[i x]|] eqn:Hfind.
  - apply post_ret. split; [by apply evolves_refl|]. intros _. exists c. split; [done|].
    apply list_find_Some in Hfind as (Hi & _). by eapply lookup_lt_Some.
  - cbv zeta. pose proof (proj2 (I_sizes _ _ _ HI _ _ Hc)) as Hsize. destruct (Nat.eqb_spec (length (cupvalues c)) 256) as [|Hn].
    + apply post_bind. eapply post_mono; [by apply (fails_errorAtName ctx)|]; cbv beta. intros ? s' [V Hcl].
      by apply post_ret.
    + apply post_bind, post_modify. intros c1 Hc1. assert (c1 = c) as -> by congruence. clear Hc1.
      apply post_bind, post_get_fn. simpl. intros g Hg. apply post_bind. intros ? s' [= <- <-]. apply post_ret. simpl.
      set (h := set_upvalues (cupvalues c ++ [u])). set (g' := mkFunction _ _ _ _). set (v := set_objects _ _).
      assert (length (cupvalues (h c)) = S (length (cupvalues c))) as HL by (simpl; rewrite length_app; simpl; lia).
      assert (∀ p, fn_of v p = if decide (p = cfunction c) then Some g' else fn_of (cvm s) p) as Hv by (intros p; apply fn_of_put).
      assert (changes s n c g h g' (fcode g) [] [u]) as Hch.
      { split; try done; [lia|by right|by rewrite app_nil_r]. }
      split.
      * apply evolves_changed. rewrite app_nil_r.
        replace (code_at s 0) with (if decide (n = 0%nat) then fcode g else code_at s 0).
        2:{ case_decide; [subst n|done]. unfold code_at, fn_at. rewrite Hc. simpl. by rewrite Hg. }
        eapply changed_change; [done|exact Hch|by eapply routine_put; [apply HI|]|done|].
        intros Hcl. split; [intros q Hq; by apply list.not_elem_of_nil in Hq|].
        destruct (Hu Hcl) as (e & -> & He). by constructor.
      * intros _. exists (h c). split; [simpl; by rewrite list_lookup_alter_eq, Hc|]. lia.
Qed.

Lemma capture_post n i fin s : Inv fin s →
  post (modify_compiler n (capture_local i)) s (λ _ s', evolves fin s [] fin s').
Proof.
  intros HI. apply post_modify. intros c Hc. pose proof (same_fns_refl ctx fin s HI) as Hv.
  pose proof (comp_step_refl ctx fin s (cvm s) n c HI Hv Hc) as S.
  apply evolves_comp with (c := c); try done. destruct S as [L S1 S2 S3 S4 S5 S6]. split; try done.
  - destruct L. by split.
  - simpl. apply Forall2_lookup. intros j. rewrite list_lookup_alter. case_decide; [subst j|].
    + destruct (locals c !! i); constructor. by split.
    + apply option_Forall2_refl. intros x. by split.
Qed.

Lemma resolveUpvalue_post enclosing name fin : ∀ n s, Inv fin s → length (compilers s) = (S n + enclosing)%nat →
  post (resolveUpvalue enclosing n name) s (λ r s', evolves fin s [] fin s' ∧
    match r with Some i => clean s' → has_up s' n i | None => True end).
Proof.
  induction enclosing as [|k IH]; intros n s HI HL; [apply post_ret; split; [by apply evolves_refl|done]|].
  simpl. apply post_bind. eapply post_mono; [by apply resolveLocal_post|]; cbv beta.
  intros l s1 (V1 & c & Hc & Hl). pose proof (e_inv _ _ _ _ _ _ V1) as HI1.
  assert (∀ u s2, evolves fin s [] fin s2 → (clean s2 → ∃ e, compilers s2 !! S n = Some e ∧ link_ok e u) →
    post (u ← addUpvalue n u name; mret (Some u)) s2 (λ r s', evolves fin s [] fin s' ∧
      match r with Some i => clean s' → has_up s' n i | None => True end)) as Hadd.
  { intros u s2 V2 Hu. apply post_bind. eapply post_mono; [apply addUpvalue_post; [apply V2|done]|]; cbv beta.
    intros i s3 [V3 H3]. apply post_ret. split; [|done]. by eapply (evolves_trans _ _ _ [] _ _ []). }
  destruct l as [i|].
  - destruct Hl as [Hi Hl]. apply post_bind. eapply post_mono; [by apply capture_post|]; cbv beta. intros ? s2 V2.
    pose proof (evolves_trans _ _ _ [] _ _ [] _ _ V1 V2) as V. apply Hadd; [done|].
    intros Hcl. destruct (Hl (evolves_clean _ _ _ _ _ _ V2 Hcl)) as (x & Hx & Hd).
    pose proof (l_locals _ _ _ _ (e_le _ _ _ _ _ _ V) n) as HLk. unfold locals_at in HLk. rewrite Hc in HLk. simpl in HLk.
    destruct (l_comp _ _ _ _ (e_le _ _ _ _ _ _ V) _ _ Hc) as (e & He & _). exists e. split; [done|].
    rewrite He in HLk. simpl in HLk.
    pose proof (proj1 (I_sizes _ _ _ HI _ _ Hc)) as H256.
    unfold link_ok. cbn [index isLocal]. rewrite u8_small by lia. split; [lia|]. rewrite Nat2Z.id.
    destruct (Forall2_lookup_l _ _ _ _ _ HLk Hx) as (y & Hy & _ & Hxy). exists y. split; [done|]. by rewrite <-Hxy.
  - apply post_bind. eapply post_mono.
    { apply IH; [done|]. rewrite (l_length _ _ _ _ (e_le _ _ _ _ _ _ V1)), HL. lia. }
    cbv beta. intros o s2 [V2 Ho]. pose proof (evolves_trans _ _ _ [] _ _ [] _ _ V1 V2) as V. destruct o as [i|].
    + apply Hadd; [done|]. intros Hcl. destruct (Ho Hcl) as (e & He & Hi). exists e. split; [done|].
      pose proof (proj2 (I_sizes _ _ _ (e_inv _ _ _ _ _ _ V2) _ _ He)) as H256.
      unfold link_ok. cbn [index isLocal]. rewrite u8_small by lia. split; lia.
    + by apply post_ret.
Qed.

(** A name stands for a local below the bound, an upvalue of the function or a
    string among the constants. *)
Definition variable_ops (x : OpCode * OpCode * Z) (F : FnInfo) (b : nat) : Prop :=
  let '(getOp, setOp, arg) := x in 0 ≤ arg < 256 ∧
  (getOp, setOp) ∈ [(OP_GET_LOCAL, OP_SET_LOCAL); (OP_GET_UPVALUE, OP_SET_UPVALUE); (OP_GET_GLOBAL, OP_SET_GLOBAL)] ∧
  ∀ d, (b ≤ d)%nat → operands_ok F getOp [arg] d = true ∧ operands_ok F setOp [arg] d = true.
Lemma variable_le x F F' b : info_le F F' → variable_ops x F b → variable_ops x F' b.
Proof.
  destruct x as [[g st] arg]. intros HF (H1 & H2 & H3). split; [done|]. split; [done|]. intros d Hd.
  destruct (H3 d Hd). split; by eapply operands_sim; [apply info_le_sim|].
Qed.
Lemma resolve_post b name fin s : Inv fin s → bounded b s →
  post (resolve name) s (λ x s', evolves fin s [] fin s' ∧ (clean s' → variable_ops x (info_at fin s') b)).
Proof.
  intros HI Hb. apply post_bind. eapply post_mono; [by apply resolveLocal_post|]; cbv beta.
  intros l s1 (V1 & c & Hc & Hl). destruct (locals_head s c Hc) as [Hls _]. destruct l as [i|].
  - destruct Hl as [Hi Hl]. apply post_ret. split; [done|]. intros Hcl. destruct (Hl Hcl) as (x & Hx & Hd).
    pose proof (proj1 (I_sizes _ _ _ HI _ _ Hc)) as H256. split; [lia|]. split; [by left|]. intros d Hbd.
    assert (i < b)%nat as Hib. { eapply (Hb (evolves_clean _ _ _ _ _ _ V1 Hcl)); [by rewrite Hls|done]. }
    simpl. rewrite Nat2Z.id. by rewrite (proj2 (Nat.ltb_lt i d)) by lia.
  - apply post_bind. intros st s1' [= <- <-]. apply post_bind. pose proof (e_inv _ _ _ _ _ _ V1) as HI1.
    assert (0 < length (compilers s1))%nat.
    { rewrite (l_length _ _ _ _ (e_le _ _ _ _ _ _ V1)). by eapply lookup_lt_Some. }
    eapply post_mono; [apply (resolveUpvalue_post _ _ fin); [done|lia]|]; cbv beta. intros o s2 [V2 Ho].
    pose proof (evolves_trans _ _ _ [] _ _ [] _ _ V1 V2) as V. destruct o as [i|].
    + apply post_ret. split; [done|]. intros Hcl. destruct (Ho Hcl) as (e & He & Hi).
      pose proof (proj2 (I_sizes _ _ _ (e_inv _ _ _ _ _ _ V2) _ _ He)) as H256. split; [lia|]. split; [right; by left|].
      intros d _. simpl. rewrite Nat2Z.id. unfold ups_at. rewrite He. simpl. by rewrite (proj2 (Nat.ltb_lt _ _) Hi).
    + apply post_bind. eapply post_mono; [apply makeConstant_post; [apply V2|intros q Hq; discriminate]|]; cbv beta.
      intros a s3 [V3 Ha]. apply post_ret. split; [by eapply (evolves_trans _ _ _ [] _ _ [])|]. intros Hcl.
      pose proof (Ha Hcl) as Hk. split; [apply Hk|]. split; [right; right; by left|]. intros d _. simpl.
      by rewrite (const_string _ _ _ _ Hk).
Qed.
End Vars.
