(* ===== verification/CompilerBlocks.v ===== *)
(** * Blocks of code

    Commands whose code goes from one depth of the stack to another, how they
    follow one another, and the shapes that the compiler makes with jumps. *)
From Stdlib Require Import String Ascii.
From S2P Require Import Scanner.
From S2P Require Export CompilerVars.
Open Scope Z_scope.

Section Blocks.
Context `{U : Uninit} `{TG : Target} `{HO : Host} `{FM : FreshMemory}.
Variable ctx : objptr.
Abbreviation Inv := (Inv ctx).
Abbreviation evolves := (evolves ctx).
Abbreviation changed := (changed ctx).
Abbreviation quiet := (quiet ctx).
Abbreviation fails_with := (fails_with ctx).
Abbreviation emits := (emits ctx).
Abbreviation alters := (alters ctx).

(** What is known where a block begins, and stays so. *)
Record Facts := mkFacts {
  holds :> gset objptr → CState → Prop;
  holds_on fin s D fin' s' : Inv fin s → evolves fin s D fin' s' → holds fin s → holds fin' s'
}.
Definition implies (G H : Facts) : Prop := ∀ fin s, G fin s → H fin s.

Definition both (G H : Facts) : Facts.
Proof.
  refine (mkFacts (λ fin s, G fin s ∧ H fin s) _).
  intros fin s D fin' s' HI V [H1 H2]. split; by eapply holds_on.
Defined.
Definition bound (b : nat) : Facts.
Proof.
  refine (mkFacts (λ _ s, bounded b s) _). intros fin s D fin' s' _ V. by eapply bounded_evolves.
Defined.
Definition in_full (n : nat) : Facts.
Proof.
  refine (mkFacts (λ _ s, full s n) _). intros fin s D fin' s' _ V. by eapply full_evolves.
Defined.
(** A fact on what the operands of the code refer to. *)
Definition known (P : FnInfo → Prop) (HP : ∀ F F', info_le F F' → P F → P F') : Facts.
Proof.
  refine (mkFacts (λ fin s, clean s → P (info_at fin s)) _).
  intros fin s D fin' s' HI V H Hcl. eapply HP; [eapply (le_info ctx); [exact HI|apply V]|].
  apply H. by eapply evolves_clean.
Defined.
Definition known_string (i : Z) : Facts :=
  known (λ F, 0 ≤ i < 256 ∧ is_string_constant F i = true) (λ F F' HF H, conj (proj1 H) (string_le F F' i HF (proj2 H))).
Definition known_constant (i : Z) : Facts.
Proof.
  refine (known (λ F, 0 ≤ i < 256 ∧ is_Some (constant F i)) _).
  intros F F' HF [H1 [v H2]]. split; [done|]. exists v. by eapply constant_le.
Defined.
Definition known_variable (b : nat) (x : OpCode * OpCode * Z) : Facts :=
  known (λ F, variable_ops x F b) (λ F F', variable_le x F F' b).

Lemma implies_refl G : implies G G.
Proof. by intros fin s H. Qed.
Lemma implies_left G H : implies (both G H) G.
Proof. by intros fin s [? ?]. Qed.
Lemma full_bound n b : (n ≤ b)%nat → implies (in_full n) (bound b).
Proof. intros Hn fin s H Hcl i l Hi Hd. pose proof (full_bounded _ _ H Hcl i l Hi Hd). lia. Qed.
Lemma bound_bound n b : (n ≤ b)%nat → implies (bound n) (bound b).
Proof. intros Hn fin s H Hcl i l Hi Hd. pose proof (H Hcl i l Hi Hd). lia. Qed.
Lemma implies_trans G H K : implies G H → implies H K → implies G K.
Proof. intros H1 H2 fin s HG. by apply H2, H1. Qed.

(** ** Blocks *)
Definition block (G : Facts) {A} (m : CM A) (n k : nat) : Prop :=
  ∀ fin s, Inv fin s → G fin s →
  post m s (λ _ s', ∃ fin' D, evolves fin s D fin' s' ∧ (clean s' → flow (info_at fin' s') D n k)).
(** A command without code, after which more is known. *)
Definition learns (G : Facts) {A} (m : CM A) (P : A → Facts) : Prop :=
  ∀ fin s, Inv fin s → G fin s → post m s (λ a s', evolves fin s [] fin s' ∧ P a fin s').

Lemma block_weaken G H {A} (m : CM A) n k : implies G H → block H m n k → block G m n k.
Proof. intros HG Hm fin s HI Hs. by apply Hm, HG. Qed.
Lemma block_bind G {A B} (m : CM A) (f : A → CM B) n k j :
  block G m n k → (∀ a, block G (f a) k j) → block G (m ≫= f) n j.
Proof.
  intros Hm Hf fin s HI Hb. apply post_bind. intros a s1 E1 x s2 E2.
  destruct (Hm fin s HI Hb a s1 E1) as (f1 & D1 & V1 & H1).
  destruct (Hf a f1 s1 (e_inv _ _ _ _ _ _ V1) (holds_on G _ _ _ _ _ HI V1 Hb) x s2 E2) as (f2 & D2 & V2 & H2).
  exists f2, (D1 ++ D2). split; [by eapply evolves_trans|]. intros Hcl. eapply flow_app; [|by apply H2].
  eapply (evolves_flow ctx); [apply V1|exact V2|]. apply H1. by eapply evolves_clean.
Qed.
Lemma block_learn G {A B} (m : CM A) (P : A → Facts) (f : A → CM B) n k :
  learns G m P → (∀ a, block (both G (P a)) (f a) n k) → block G (m ≫= f) n k.
Proof.
  intros Hm Hf fin s HI Hb. apply post_bind. intros a s1 E1 x s2 E2. destruct (Hm fin s HI Hb a s1 E1) as [V1 HP].
  destruct (Hf a fin s1 (e_inv _ _ _ _ _ _ V1)) with (2 := E2) as (f2 & D2 & V2 & H2).
  { split; [|done]. by eapply holds_on. }
  exists f2, D2. split; [exact (evolves_trans _ _ _ [] _ _ _ _ _ V1 V2)|done].
Qed.

(** The bytes go from one depth to the other, given the facts. *)
Lemma block_emits (G : Facts) {A} (m : CM A) D n k : emits m D →
  (∀ fin s, G fin s → clean s → flow (info_at fin s) D n k) → block G m n k.
Proof.
  intros Hm HD fin s HI Hb. eapply post_mono; [by apply Hm|]; cbv beta. intros a s' V. exists fin, D. split; [done|].
  intros Hcl. apply HD; [by eapply holds_on|done].
Qed.
Lemma block_quiet G {A} (m : CM A) n : quiet m → block G m n n.
Proof. intros Hm. apply (block_emits G m []); [exact Hm|intros fin s _ _; apply flow_nil]. Qed.
Lemma block_ret G {A} (a : A) n : block G (mret a) n n.
Proof. apply block_quiet, quiet_ret. Qed.
Lemma block_fails G {A} (m : CM A) n k : fails_with m → block G m n k.
Proof.
  intros Hm fin s HI Hb. eapply post_mono; [by apply Hm|]; cbv beta. intros a s' [V Hcl]. by exists fin, [].
Qed.
Lemma block_quiet_bind G {A B} (m : CM A) (f : A → CM B) n k :
  quiet m → (∀ a, block G (f a) n k) → block G (m ≫= f) n k.
Proof. intros Hm. eapply block_bind. by apply block_quiet. Qed.

(** An instruction without operands. *)
Lemma block_op G o n k : falls_through o = true → operand_bytes o = 0%nat →
  ((effect o []).1 ≤ n)%nat → k = (n - (effect o []).1 + (effect o []).2)%nat → block G (emitOp o) n k.
Proof.
  intros Hf H0 Hn Hk. eapply block_emits; [apply emits_op|]. intros fin s _ _. apply flow_op; try done. by destruct o.
Qed.
Lemma block_stop G o n k : stops o = true → (1 ≤ n)%nat → block G (emitOp o) n k.
Proof. intros Ho Hn. eapply block_emits; [apply emits_op|]. intros fin s _ _. by apply flow_stop. Qed.
Lemma block_op_byte (G : Facts) o x n k : falls_through o = true → operand_bytes o = 1%nat →
  (∀ fin s, G fin s → clean s → 0 ≤ x < 256 ∧ operands_ok (info_at fin s) o [x] n = true) →
  ((effect o [x]).1 ≤ n)%nat → k = (n - (effect o [x]).1 + (effect o [x]).2)%nat → block G (emitOpByte o x) n k.
Proof.
  intros Hf H1 HG Hn Hk. eapply block_emits; [apply emits_op_byte|]. intros fin s Hs Hcl.
  destruct (HG fin s Hs Hcl) as [Hx Ho]. rewrite u8_small by done. by apply flow_op.
Qed.
Lemma block_each G {A} (f : A → CM ()) l n k :
  (∀ i x, l !! i = Some x → block G (f x) (n + i * k) (n + S i * k)) → block G (for_each f l) n (n + length l * k).
Proof.
  revert n. induction l as [|x l IH]; intros n H; [rewrite Nat.add_0_r; apply block_ret|].
  apply block_bind with (n + k)%nat.
  - specialize (H 0%nat x eq_refl). by rewrite Nat.mul_0_l, Nat.mul_1_l, Nat.add_0_r in H.
  - intros ?. replace (n + length (x :: l) * k)%nat with (n + k + length l * k)%nat by (simpl; lia). apply IH. intros i y Hy.
    replace (n + k + i * k)%nat with (n + S i * k)%nat by lia. replace (n + k + S i * k)%nat with (n + S (S i) * k)%nat by lia.
    by apply H.
Qed.

(** ** Names and constants *)
Lemma learns_variable b name : learns (bound b) (resolve name) (known_variable b).
Proof. intros fin s HI Hs. by apply resolve_post. Qed.
Lemma learns_identifier G name : learns G (identifierConstant name) known_string.
Proof.
  intros fin s HI _. eapply post_mono; [by apply makeConstant_post|]; cbv beta. intros i s' [V H]. split; [done|].
  intros Hcl. split; [apply (H Hcl)|]. by apply const_string with name, H.
Qed.
Lemma learns_constant G v : (∀ q, v ≠ FUNCTION_VAL q) → learns G (makeConstant v) known_constant.
Proof.
  intros Hv fin s HI _. eapply post_mono; [apply makeConstant_post; [done|intros q Hq; by destruct (Hv q)]|]; cbv beta.
  intros i s' [V H]. split; [done|]. intros Hcl. destruct (H Hcl) as (Hr & c & Hc & _). split; [done|by exists c].
Qed.
Lemma learns_weaken G H {A} (m : CM A) P : implies G H → learns H m P → learns G m P.
Proof. intros HG Hm fin s HI Hs. by apply Hm, HG. Qed.
End Blocks.
