(* ===== verification/CompilerJumps.v ===== *)
(** * Jumps of the compiler

    A jump that is patched goes behind the code that was emitted since, and
    the blocks that are made with jumps. *)
From Stdlib Require Import String Ascii.
From S2P Require Import Scanner.
From S2P Require Export CompilerBlocks.
Open Scope Z_scope.

Section Jumps.
Context `{U : Uninit} `{TG : Target} `{HO : Host} `{FM : FreshMemory}.
Variable ctx : objptr.
Abbreviation Inv := (Inv ctx).
Abbreviation evolves := (evolves ctx).
Abbreviation changed := (changed ctx).
Abbreviation block := (CompilerBlocks.block ctx).

Lemma fn_code s g : fn_at s 0 = Some g → code (chunk g) = code_at s 0.
Proof. intros Hg. unfold code_at. by rewrite Hg. Qed.

Lemma write_code_post o b fin s : Inv fin s →
  post (write_code o b) s (λ _ s', 0 ≤ o ∧ changed fin s (<[Z.to_nat o := b]> (code_at s 0)) fin s').
Proof.
  intros HI. apply post_bind, post_chunk. intros g Hg. apply post_bind, post_assert. intros Ho.
  eapply post_mono; [eapply (modify_chunk_post ctx _ (<[Z.to_nat o := b]> (code_at s 0)) [] fin s HI)|]; cbv beta.
  - intros g' Hg'. assert (g' = g) as -> by congruence. simpl. by rewrite (fn_code s g Hg), app_nil_r.
  - intros _ q Hq. by apply list.not_elem_of_nil in Hq.
  - intros ? s' [V _]. split; [lia|done].
Qed.

(** The bytes at the end of [A] become the length of [D]. *)
Lemma patchJump_post A x y D fin s : Inv fin s → code_at s 0 = A ++ x :: y :: D →
  post (patchJump (Z.of_nat (length A))) s (λ _ s',
    changed fin s (A ++ jump_bytes (length D) ++ D) fin s' ∧ (clean s' → short D)).
Proof.
  intros HI HC. apply post_bind, post_chunk. intros g Hg. cbv zeta.
  assert (Compiler.count (chunk g) - Z.of_nat (length A) - 2 = Z.of_nat (length D)) as ->.
  { unfold Compiler.count. rewrite (fn_code s g Hg), HC, length_app. simpl. lia. }
  apply post_bind. intros u s1 E1.
  assert (evolves fin s [] fin s1 ∧ (clean s1 → short D)) as [V1 Hs].
  { unfold short. revert E1. destruct (Z.ltb_spec 65535 (Z.of_nat (length D))); intros E1.
    - by destruct (fails_error ctx _ fin s HI _ _ E1).
    - injection E1 as _ <-. split; [by apply evolves_refl|lia]. }
  apply evolves_changed in V1. rewrite app_nil_r, HC in V1.
  apply post_bind. eapply post_mono; [apply write_code_post, V1|]; cbv beta. intros ? s2 [_ V2].
  rewrite (x_code _ _ _ _ _ _ V1) in V2. eapply post_mono; [apply write_code_post, V2|]; cbv beta. intros ? s3 [_ V3].
  rewrite (x_code _ _ _ _ _ _ V2) in V3. pose proof (changed_trans _ _ _ _ _ _ _ _ _ V2 V3) as V.
  split.
  - pose proof (changed_trans _ _ _ _ _ _ _ _ _ V1 V) as W. revert W.
    replace (Z.to_nat (Z.of_nat (length A) + 1)) with (length A + 1)%nat by lia.
    replace (Z.to_nat (Z.of_nat (length A))) with (length A + 0)%nat by lia. by rewrite !insert_app_r.
  - intros Hcl. apply Hs. by eapply changed_clean.
Qed.

Lemma emitJump_post op fin s : Inv fin s →
  post (emitJump op) s (λ j s', evolves fin s [encode op; 255; 255] fin s' ∧ j = Z.of_nat (length (code_at s 0 ++ [encode op]))).
Proof.
  intros HI. apply post_bind. eapply post_mono; [by apply (emits_op ctx)|]; cbv beta. intros ? s1 V1.
  apply post_bind. eapply post_mono; [apply (emits_byte ctx), V1|]; cbv beta. intros ? s2 V2.
  apply post_bind. eapply post_mono; [apply (emits_byte ctx), V2|]; cbv beta. intros ? s3 V3.
  pose proof (evolves_trans _ _ _ _ _ _ _ _ _ V1 (evolves_trans _ _ _ _ _ _ _ _ _ V2 V3)) as V.
  change ([encode op] ++ [u8 255] ++ [u8 255]) with [encode op; 255; 255] in V.
  apply post_bind, post_chunk. intros g Hg. apply post_ret. split; [done|].
  unfold Compiler.count. rewrite (fn_code _ g Hg), (e_code _ _ _ _ _ _ V), !length_app. simpl. lia.
Qed.

Lemma u8_low z : u8 (Z.land z 255) = Z.land z 255.
Proof. unfold u8. change 255 with (Z.ones 8). rewrite !Z.land_ones by lia. apply Z.mod_mod. lia. Qed.
Lemma emitLoop_post A D fin s : Inv fin s → code_at s 0 = A ++ D →
  post (emitLoop (Z.of_nat (length A))) s (λ _ s',
    evolves fin s (jump OP_LOOP (length D + 3)) fin s' ∧ (clean s' → Z.of_nat (length D + 3) ≤ 65535)).
Proof.
  intros HI HC. apply post_bind. eapply post_mono; [by apply (emits_op ctx)|]; cbv beta. intros ? s1 V1.
  apply post_bind, post_chunk. intros g Hg. cbv zeta.
  assert (Compiler.count (chunk g) - Z.of_nat (length A) + 2 = Z.of_nat (length D + 3)) as ->.
  { unfold Compiler.count. rewrite (fn_code s1 g Hg), (e_code _ _ _ _ _ _ V1), HC, !length_app. simpl. lia. }
  apply post_bind. intros u s2 E2.
  assert (evolves fin s1 [] fin s2 ∧ (clean s2 → Z.of_nat (length D + 3) ≤ 65535)) as [V2 Hs].
  { revert E2. destruct (Z.ltb_spec 65535 (Z.of_nat (length D + 3))); intros E2.
    - by destruct (fails_error ctx _ fin s1 (e_inv _ _ _ _ _ _ V1) _ _ E2).
    - injection E2 as _ <-. split; [apply evolves_refl, V1|done]. }
  apply post_bind. eapply post_mono; [apply (emits_byte ctx), V2|]; cbv beta. intros ? s3 V3.
  eapply post_mono; [apply (emits_byte ctx), V3|]; cbv beta. intros ? s4 V4.
  pose proof (evolves_trans _ _ _ _ _ _ _ _ _ V2 (evolves_trans _ _ _ _ _ _ _ _ _ V3 V4)) as V24.
  split.
  - pose proof (evolves_trans _ _ _ _ _ _ _ _ _ V1 V24) as V. rewrite !u8_low in V. exact V.
  - intros Hcl. apply Hs. eapply evolves_clean; [exact V3|]. by eapply evolves_clean.
Qed.

(** ** Code with holes: what was emitted since [s], and the jump in it that is
    patched *)
Definition hole (op : OpCode) : list Z := [encode op; 255; 255].
(** The code runs, if there was no error. *)
Definition good (fin : gset objptr) (s : CState) (D : list Z) (n k : nat) : Prop := clean s → flow (info_at fin s) D n k.
Lemma good_le f1 s1 f2 s2 D n k : Inv f1 s1 → le f1 s1 f2 s2 → good f1 s1 D n k → good f2 s2 D n k.
Proof. intros HI L H Hcl. eapply flow_le; [by eapply (le_info ctx)|]. apply H. by eapply le_clean. Qed.
Definition sure (s : CState) (P : Prop) : Prop := clean s → P.
Lemma sure_le f1 s1 f2 s2 P : le f1 s1 f2 s2 → sure s1 P → sure s2 P.
Proof. intros L H Hcl. apply H. by eapply le_clean. Qed.

Section From.
Variables (G : Facts ctx) (fin : gset objptr) (s : CState).
Hypotheses (HI : Inv fin s) (HG : G fin s).

Lemma patch_hole P op R f2 s2 j : evolves fin s (P ++ hole op ++ R) f2 s2 →
  j = Z.of_nat (length (code_at s 0) + length P + 1) →
  post (patchJump j) s2 (λ _ s3,
    evolves fin s (P ++ jump op (length R) ++ R) f2 s3 ∧ le f2 s2 f2 s3 ∧ sure s3 (short R)).
Proof.
  intros V ->. replace (_ + 1)%nat with (length ((code_at s 0 ++ P) ++ [encode op])) by by rewrite !length_app.
  eapply post_mono.
  { eapply (patchJump_post _ 255 255 R f2 s2); [apply V|]. rewrite (e_code _ _ _ _ _ _ V). by rewrite <-!app_assoc. }
  cbv beta. intros ? s3 [V3 Hs]. split; [|split; [apply V3|done]].
  apply evolves_changed. apply evolves_changed in V. pose proof (changed_trans _ _ _ _ _ _ _ _ _ V V3) as W.
  revert W. by rewrite <-!app_assoc.
Qed.
Lemma emit_hole op D f1 s1 : evolves fin s D f1 s1 →
  post (emitJump op) s1 (λ j s2, evolves fin s (D ++ hole op) f1 s2 ∧ le f1 s1 f1 s2 ∧
    j = Z.of_nat (length (code_at s 0) + length D + 1)).
Proof.
  intros V. eapply post_mono; [apply emitJump_post, V|]; cbv beta. intros j s2 [V2 ->].
  split; [by eapply evolves_trans|]. split; [apply V2|]. by rewrite (e_code _ _ _ _ _ _ V), !length_app.
Qed.
Lemma emit_loop P D f1 s1 o : evolves fin s (P ++ D) f1 s1 → o = Z.of_nat (length (code_at s 0) + length P) →
  post (emitLoop o) s1 (λ _ s2,
    evolves fin s (P ++ D ++ jump OP_LOOP (length D + 3)) f1 s2 ∧ le f1 s1 f1 s2 ∧ sure s2 (Z.of_nat (length D + 3) ≤ 65535)).
Proof.
  intros V ->. rewrite <-length_app. eapply post_mono; [apply (emitLoop_post _ D f1 s1); [apply V|]|].
  { by rewrite (e_code _ _ _ _ _ _ V), app_assoc. }
  cbv beta. intros ? s2 [V2 Hs]. split; [|split; [apply V2|done]]. rewrite app_assoc. by eapply evolves_trans.
Qed.
Lemma run_block {A} (m : CM A) n k D f1 s1 : block G m n k → evolves fin s D f1 s1 →
  post m s1 (λ _ s2, ∃ f2 B, evolves fin s (D ++ B) f2 s2 ∧ le f1 s1 f2 s2 ∧ good f2 s2 B n k).
Proof.
  intros Hm V. eapply post_mono; [apply Hm; [apply V|by eapply holds_on]|]; cbv beta. intros a s2 (f2 & B & V2 & H).
  exists f2, B. split; [by eapply evolves_trans|]. split; [apply V2|done].
Qed.
Lemma run_chunk D f1 s1 : evolves fin s D f1 s1 →
  post currentChunk s1 (λ k s2, s2 = s1 ∧ Compiler.count k = Z.of_nat (length (code_at s 0) + length D)).
Proof.
  intros V. apply post_chunk. intros g Hg. split; [done|]. unfold Compiler.count.
  by rewrite (fn_code s1 g Hg), (e_code _ _ _ _ _ _ V), length_app.
Qed.
Lemma run_op op D f1 s1 : evolves fin s D f1 s1 →
  post (emitOp op) s1 (λ _ s2, evolves fin s (D ++ [encode op]) f1 s2 ∧ le f1 s1 f1 s2).
Proof.
  intros V. eapply post_mono; [apply (emits_op ctx), V|]; cbv beta. intros ? s2 V2.
  split; [by eapply evolves_trans|apply V2].
Qed.
End From.
End Jumps.
(** One command of a sequence. *)
Tactic Notation "run" "by" tactic3(t) := apply post_bind; eapply post_mono; [t|cbv beta].
(** Lengths of code. *)
Ltac lens := repeat (rewrite ?length_app; cbn [length jump jump_bytes hole]); lia.

Section Shapes.
Context `{U : Uninit} `{TG : Target} `{HO : Host} `{FM : FreshMemory}.
Variable ctx : objptr.
Variable G : Facts ctx.
Abbreviation block := (CompilerBlocks.block ctx).
Abbreviation evolves := (evolves ctx).

Lemma flow_pop F D n k : flow F D n k → flow F (encode OP_POP :: D) (S n) k.
Proof. intros H. apply (flow_app F [encode OP_POP] D _ n); [|done]. apply flow_op; simpl; try done; lia. Qed.

Lemma block_and {A} (m : CM A) n : block G m n (S n) →
  block G (endJump ← emitJump OP_JUMP_IF_FALSE; emitOp OP_POP ;; m ;; patchJump endJump) (S n) (S n).
Proof.
  intros Hm fin s HI HG.
  run by (apply (emit_hole ctx fin s OP_JUMP_IF_FALSE [] fin s), evolves_refl, HI). intros j1 s1 (V1 & L1 & Hj1).
  run by (eapply (run_op ctx fin s); eassumption). intros ? s2 (V2 & L2).
  run by (eapply (run_block ctx G fin s HI HG _ _ _ _ _ _ Hm); eassumption). intros ? s3 (f3 & D & V3 & L3 & H3).
  eapply post_mono; [apply (patch_hole ctx fin s [] OP_JUMP_IF_FALSE (encode OP_POP :: D)); [exact V3|done]|]; cbv beta.
  intros ? s4 (V4 & L4 & Hs). exists f3. eexists. split; [exact V4|]. intros Hcl.
  apply flow_and; [|by apply Hs|lia]. apply flow_pop.
  exact (good_le ctx _ _ _ _ _ _ _ (e_inv _ _ _ _ _ _ V3) L4 H3 Hcl).
Qed.
Lemma block_or {A} (m : CM A) n : block G m n (S n) →
  block G (elseJump ← emitJump OP_JUMP_IF_FALSE; endJump ← emitJump OP_JUMP; patchJump elseJump ;;
    emitOp OP_POP ;; m ;; patchJump endJump) (S n) (S n).
Proof.
  intros Hm fin s HI HG.
  run by (apply (emit_hole ctx fin s OP_JUMP_IF_FALSE [] fin s), evolves_refl, HI). intros j1 s1 (V1 & L1 & Hj1).
  run by (by apply (emit_hole ctx fin s OP_JUMP)). intros j2 s2 (V2 & L2 & Hj2).
  run by (apply (patch_hole ctx fin s [] OP_JUMP_IF_FALSE (hole OP_JUMP)); [exact V2|done]). intros ? s3 (V3 & L3 & _).
  run by (eapply (run_op ctx fin s); eassumption). intros ? s4 (V4 & L4).
  run by (eapply (run_block ctx G fin s HI HG _ _ _ _ _ _ Hm); eassumption). intros ? s5 (f5 & D & V5 & L5 & H5).
  eapply post_mono; [apply (patch_hole ctx fin s (jump OP_JUMP_IF_FALSE 3) OP_JUMP (encode OP_POP :: D)); [exact V5|done]|]; cbv beta.
  intros ? s6 (V6 & L6 & Hs). exists f5. eexists. split; [exact V6|]. intros Hcl.
  apply flow_or; [|by apply Hs|lia]. apply flow_pop.
  exact (good_le ctx _ _ _ _ _ _ _ (e_inv _ _ _ _ _ _ V5) L6 H5 Hcl).
Qed.

(** ** The statements with jumps *)
Section Stmts.
Variable generateExpr : Expr → CM ().
Variable generateStmt : ObjStmt → CM ().
Variable n : nat.
Hypothesis Hn : (1 ≤ n)%nat.

Lemma block_if test ifStmt elseStmt :
  block G (generateExpr test) n (S n) → block G (generate generateStmt ifStmt) n n →
  block G (generate generateStmt elseStmt) n n →
  block G (generateStmtIf generateExpr generateStmt test ifStmt elseStmt) n n.
Proof.
  intros H1 H2 H3 fin s HI HG.
  run by (eapply (run_block ctx G fin s HI HG _ _ _ _ _ _ H1), evolves_refl, HI). intros ? s1 (f1 & T & V1 & L1 & F1).
  run by (eapply (emit_hole ctx fin s); eassumption). intros j1 s2 (V2 & L2 & Hj1).
  run by (eapply (run_op ctx fin s); eassumption). intros ? s3 (V3 & L3).
  run by (eapply (run_block ctx G fin s HI HG _ _ _ _ _ _ H2); eassumption). intros ? s4 (f4 & D1 & V4 & L4 & F4).
  run by (eapply (emit_hole ctx fin s); eassumption). intros j2 s5 (V5 & L5 & Hj2).
  run by (apply (patch_hole ctx fin s T OP_JUMP_IF_FALSE (encode OP_POP :: D1 ++ hole OP_JUMP));
    [by rewrite <-!app_assoc in V5|done]). intros ? s6 (V6 & L6 & S6).
  run by (eapply (run_op ctx fin s); eassumption). intros ? s7 (V7 & L7).
  run by (eapply (run_block ctx G fin s HI HG _ _ _ _ _ _ H3); eassumption). intros ? s8 (f8 & D2 & V8 & L8 & F8).
  set (P := T ++ jump OP_JUMP_IF_FALSE (length (encode OP_POP :: D1 ++ hole OP_JUMP)) ++ encode OP_POP :: D1).
  eapply post_mono; [apply (patch_hole ctx fin s P OP_JUMP (encode OP_POP :: D2))|]; cbv beta.
  { revert V8. unfold P. rewrite <-!app_assoc. simpl. by rewrite <-!app_assoc. }
  { rewrite Hj2. unfold P. f_equal. lens. }
  intros ? s9 (V9 & L9 & S9).
  assert (le f1 s1 f8 s9) as K1 by (repeat (eapply le_trans; [eassumption|]); apply le_refl).
  assert (le f4 s4 f8 s9) as K4 by (repeat (eapply le_trans; [eassumption|]); apply le_refl).
  assert (le f4 s6 f8 s9) as K6 by (repeat (eapply le_trans; [eassumption|]); apply le_refl).
  exists f8. eexists. split; [exact V9|]. intros Hcl. unfold P. rewrite <-!app_assoc.
  apply (flow_app _ T _ _ (S n)); [exact (good_le ctx _ _ _ _ _ _ _ (e_inv _ _ _ _ _ _ V1) K1 F1 Hcl)|].
  pose proof (good_le ctx _ _ _ _ _ _ _ (e_inv _ _ _ _ _ _ V4) K4 F4 Hcl) as G4.
  pose proof (good_le ctx _ _ _ _ _ _ _ (e_inv _ _ _ _ _ _ V8) L9 F8 Hcl) as G8.
  pose proof (sure_le _ _ _ _ _ K6 S6 Hcl) as S6'. specialize (S9 Hcl).
  replace (length (encode OP_POP :: D1 ++ hole OP_JUMP)) with (length (encode OP_POP :: D1) + 3)%nat
    by lens.
  apply flow_if; [by apply flow_pop|by apply flow_pop| |done|lia|done].
  unfold short in *. revert S6'. lens.
Qed.

Lemma flow_pop1 F k : flow F [encode OP_POP] (S k) k.
Proof. apply flow_pop, flow_nil. Qed.
(** The exit of a loop is behind a test. *)
Lemma flow_exit F T R m : flow F T n (S n) → (∀ H, length H = (length T + 4)%nat → loop_head F H n (length R) m → flow F (H ++ R) n m) →
  m = S n → short (encode OP_POP :: R) → flow F (T ++ jump OP_JUMP_IF_FALSE (length (encode OP_POP :: R)) ++ encode OP_POP :: R) n m.
Proof.
  intros HT HR -> Hs. change (length (encode OP_POP :: R)) with (length [encode OP_POP] + length R)%nat.
  replace (T ++ jump OP_JUMP_IF_FALSE (length [encode OP_POP] + length R) ++ encode OP_POP :: R) with
    ((T ++ jump OP_JUMP_IF_FALSE (length [encode OP_POP] + length R) ++ [encode OP_POP]) ++ R).
  2:{ by rewrite <-!app_assoc. }
  apply HR; [lens|]. apply head_test; [done|apply flow_pop1|exact Hs|lia].
Qed.

Lemma block_while test loop :
  block G (generateExpr test) n (S n) → block G (generate generateStmt loop) n n →
  block G (generateStmtWhile generateExpr generateStmt test loop) n n.
Proof.
  intros H1 H2 fin s HI HG.
  run by (eapply (run_chunk ctx fin s), evolves_refl, HI). intros k s0 [-> Hk].
  run by (eapply (run_block ctx G fin s HI HG _ _ _ _ _ _ H1), evolves_refl, HI). intros ? s1 (f1 & T & V1 & L1 & F1).
  run by (eapply (emit_hole ctx fin s); eassumption). intros j1 s2 (V2 & L2 & Hj1).
  run by (eapply (run_op ctx fin s); eassumption). intros ? s3 (V3 & L3).
  run by (eapply (run_block ctx G fin s HI HG _ _ _ _ _ _ H2); eassumption). intros ? s4 (f4 & B & V4 & L4 & F4).
  run by (eapply (emit_loop ctx fin s [] _); [exact V4|exact Hk]). intros ? s5 (V5 & L5 & S5).
  set (D := _ ++ B) in V5, S5. set (R := B ++ jump OP_LOOP (length D + 3)).
  run by (apply (patch_hole ctx fin s T OP_JUMP_IF_FALSE (encode OP_POP :: R));
    [revert V5; unfold D at 1, R; by rewrite <-!app_assoc|done]). intros ? s6 (V6 & L6 & S6).
  eapply post_mono; [eapply (run_op ctx fin s); eassumption|]; cbv beta. intros ? s7 (V7 & L7).
  assert (le f1 s1 f4 s7) as K1 by (repeat (eapply le_trans; [eassumption|]); apply le_refl).
  assert (le f4 s4 f4 s7) as K4 by (repeat (eapply le_trans; [eassumption|]); apply le_refl).
  assert (le f4 s5 f4 s7) as K5 by (repeat (eapply le_trans; [eassumption|]); apply le_refl).
  exists f4. eexists. split; [exact V7|]. intros Hcl.
  pose proof (good_le ctx _ _ _ _ _ _ _ (e_inv _ _ _ _ _ _ V1) K1 F1 Hcl) as G1.
  pose proof (good_le ctx _ _ _ _ _ _ _ (e_inv _ _ _ _ _ _ V4) K4 F4 Hcl) as G4.
  pose proof (sure_le _ _ _ _ _ K5 S5 Hcl) as S5'. pose proof (sure_le _ _ _ _ _ L7 S6 Hcl) as S6'.
  apply (flow_app _ _ _ _ (S n)); [|apply flow_pop1].
  apply flow_exit; [done| |done|done]. intros H HL Hh. unfold R in *.
  assert (length D + 3 = length H + length B + 3)%nat as HD by (unfold D; lens). rewrite HD in *.
  apply flow_loop; [|done|done|done].
  by replace (length B + 3)%nat with (length (B ++ jump OP_LOOP (length H + length B + 3))) by lens.
Qed.

(** The head of a [for]: nothing, or the test. *)
Lemma for_condition_post condition fin s : Inv ctx fin s → G fin s →
  (condition ≠ [] → block G (generateExpr condition) n (S n)) →
  post (for_condition generateExpr condition) s (λ r s', ∃ f' D, evolves fin s D f' s' ∧
    match r with
    | None => D = []
    | Some j => ∃ T, D = T ++ hole OP_JUMP_IF_FALSE ++ [encode OP_POP] ∧
        j = Z.of_nat (length (code_at s 0) + length T + 1) ∧ good f' s' T n (S n)
    end).
Proof.
  intros HI HG HC. unfold for_condition. destruct condition as [|e es].
  - apply post_ret. exists fin, []. split; [by apply evolves_refl|done].
  - specialize (HC ltac:(done)).
    run by (eapply (run_block ctx G fin s HI HG _ _ _ _ _ _ HC), evolves_refl, HI). intros ? s1 (f1 & T & V1 & L1 & F1).
    run by (eapply (emit_hole ctx fin s); eassumption). intros j1 s2 (V2 & L2 & Hj1).
    run by (eapply (run_op ctx fin s); eassumption). intros ? s3 (V3 & L3). apply post_ret.
    exists f1. eexists. split; [exact V3|]. exists T. split; [by rewrite <-!app_assoc|]. split; [done|].
    eapply good_le; [apply V1|by eapply le_trans|done].
Qed.

(** The body of a loop, once the increment is emitted: whatever the head, of
    the length that is known. *)
Definition turns (F : FnInfo) (h : nat) (I : list Z) (o : nat) : Prop :=
  ∀ F' H B m, info_le F F' → length H = h → loop_head F' H n (length I + length B + 3) m → flow F' B n n →
    Z.of_nat (h + length I + length B - o + 3) ≤ 65535 →
    flow F' (H ++ I ++ B ++ jump OP_LOOP (h + length I + length B - o + 3)) n m.

Lemma for_increment_post e D f1 fin s s1 : Inv ctx fin s → G fin s → evolves fin s D f1 s1 →
  (e ≠ [] → block G (generateExpr e) n (S n)) →
  post (for_increment generateExpr (Z.of_nat (length (code_at s 0))) e) s1 (λ L s2, ∃ f2 I o,
    evolves fin s (D ++ I) f2 s2 ∧ le f1 s1 f2 s2 ∧ L = Z.of_nat (length (code_at s 0) + o) ∧ (o ≤ length (D ++ I))%nat ∧
    (clean s2 → turns (info_at f2 s2) (length D) I o)).
Proof.
  intros HI HG V HE. unfold for_increment. destruct e as [|x xs].
  - apply post_ret. exists f1, [], 0%nat. rewrite app_nil_r. split; [done|]. split; [apply le_refl|]. split; [lia|].
    split; [lia|]. intros _ F' H B m HF <- Hh HB Hs. cbn [length app] in *. rewrite !Nat.add_0_r, !Nat.sub_0_r in *.
    by apply flow_loop.
  - specialize (HE ltac:(done)).
    run by (eapply (emit_hole ctx fin s); eassumption). intros j1 s2 (V2 & L2 & Hj1).
    run by (eapply (run_chunk ctx fin s); eassumption). intros k s2' [-> Hk]. cbv zeta.
    run by (eapply (run_block ctx G fin s HI HG _ _ _ _ _ _ HE); eassumption). intros ? s3 (f3 & I & V3 & L3 & F3).
    run by (eapply (run_op ctx fin s); eassumption). intros ? s4 (V4 & L4).
    run by (eapply (emit_loop ctx fin s [] _); [exact V4|by rewrite Nat.add_0_r]). intros ? s5 (V5 & L5 & S5).
    set (C := (_ ++ [encode OP_POP])) in V5, S5. set (R := (I ++ [encode OP_POP]) ++ jump OP_LOOP (length C + 3)).
    run by (apply (patch_hole ctx fin s D OP_JUMP R); [revert V5; unfold C at 1, R; by rewrite <-!app_assoc|done]).
    intros ? s6 (V6 & L6 & S6). apply post_ret.
    exists f3, (jump OP_JUMP (length R) ++ R), (length D + 3)%nat. split; [done|].
    split; [repeat (eapply le_trans; [eassumption|]); apply le_refl|]. split; [rewrite Hk; lens|]. split; [lens|].
    assert (le f3 s3 f3 s6) as K3 by (repeat (eapply le_trans; [eassumption|]); apply le_refl).
    intros Hcl F' H B m HF HL Hh HB Hs.
    pose proof (flow_le _ _ _ _ _ HF (good_le ctx _ _ _ _ _ _ _ (e_inv _ _ _ _ _ _ V3) K3 F3 Hcl)) as G3.
    pose proof (sure_le _ _ _ _ _ L6 S5 Hcl) as S5'. specialize (S6 Hcl).
    set (I' := I ++ [encode OP_POP]) in *.
    assert (length C + 3 = length H + 3 + length I' + 3)%nat as HC by (unfold C, I'; lens). rewrite HC in *.
    assert (length R = length I' + 3)%nat as HR by (unfold R; lens). rewrite HR in *.
    assert (length (jump OP_JUMP (length I' + 3) ++ R) = 3 + length I' + 3 )%nat as HJ by (rewrite length_app, HR; lens).
    replace (length D + _ + length B - (length D + 3) + 3)%nat with (length I' + 3 + length B + 3)%nat by (rewrite HJ; lia).
    replace (H ++ (jump OP_JUMP (length I' + 3) ++ R) ++ B ++ _) with
      (H ++ jump OP_JUMP (length I' + 3) ++ I' ++ jump OP_LOOP (length H + 3 + length I' + 3) ++ B ++
        jump OP_LOOP (length I' + 3 + length B + 3)) by (unfold R; by rewrite HC, <-!app_assoc).
    apply flow_loop_step; try done.
    + rewrite HJ in Hh. exact Hh.
    + apply (flow_app _ _ _ _ (S n)); [done|apply flow_pop1].
    + revert Hs. lens.
Qed.

Lemma block_for_loop condition loopExpression body :
  (condition ≠ [] → block G (generateExpr condition) n (S n)) →
  (loopExpression ≠ [] → block G (generateExpr loopExpression) n (S n)) →
  block G (generate generateStmt body) n n →
  block G (for_loop generateExpr generateStmt condition loopExpression body) n n.
Proof.
  intros HC HE HB fin s HI HG.
  run by (eapply (run_chunk ctx fin s), evolves_refl, HI). intros k s0 [-> Hk].
  rewrite Nat.add_0_r in Hk. rewrite Hk.
  run by (by eapply (for_condition_post condition fin s)). intros r s1 (f1 & D & V1 & Hr).
  run by (by eapply (for_increment_post loopExpression D f1 fin s s1)). intros L s2 (f2 & I & o & V2 & L2 & HL & Ho & HT).
  run by (eapply (run_block ctx G fin s HI HG _ _ _ _ _ _ HB); eassumption). intros ? s3 (f3 & B & V3 & L3 & F3).
  rewrite HL. set (P := take o (D ++ I)). set (X := drop o (D ++ I) ++ B).
  assert (length P = o) as HP by (unfold P; rewrite length_take; lia).
  assert ((D ++ I) ++ B = P ++ X) as HX by (unfold P, X; by rewrite app_assoc, take_drop).
  assert (length X = length D + length I + length B - o)%nat as HXl
    by (rewrite length_app in Ho; unfold X; rewrite length_app, length_drop, length_app; lia).
  rewrite HX in V3. run by (eapply (emit_loop ctx fin s P X); [exact V3|by rewrite HP]). intros ? s4 (V4 & L4 & S4).
  assert (P ++ X ++ jump OP_LOOP (length X + 3) = D ++ I ++ B ++ jump OP_LOOP (length D + length I + length B - o + 3)) as HV.
  { by rewrite app_assoc, <-HX, <-HXl, <-!app_assoc. }
  rewrite HV in V4. clear HV.
  assert (∀ s5, le f3 s4 f3 s5 → clean s5 → (∀ H m, length H = length D →
    loop_head (info_at f3 s5) H n (length (I ++ B ++ jump OP_LOOP (length D + length I + length B - o + 3))) m →
    flow (info_at f3 s5) (H ++ I ++ B ++ jump OP_LOOP (length D + length I + length B - o + 3)) n m)) as Hturn.
  { intros s5 L5 Hcl H m HHl Hh.
    assert (le f3 s3 f3 s5) as K3 by (by eapply le_trans). assert (le f2 s2 f3 s5) as K2 by (by eapply le_trans).
    pose proof (HT (le_clean _ _ _ _ K2 Hcl)) as Ht.
    apply Ht; [eapply (le_info ctx); [apply V2|done]|done| | |].
    - by replace (length I + length B + 3)%nat with (length (I ++ B ++ jump OP_LOOP (length D + length I + length B - o + 3))) by lens.
    - exact (good_le ctx _ _ _ _ _ _ _ (e_inv _ _ _ _ _ _ V3) K3 F3 Hcl).
    - rewrite <-HXl. exact (sure_le _ _ _ _ _ L5 S4 Hcl). }
  set (R := I ++ B ++ jump OP_LOOP _) in *. destruct r as [j|].
  - destruct Hr as (T & -> & Hj & F1). run by (apply (patch_hole ctx fin s T OP_JUMP_IF_FALSE (encode OP_POP :: R));
      [by rewrite <-!app_assoc in V4|done]). intros ? s5 (V5 & L5 & S5).
    eapply post_mono; [eapply (run_op ctx fin s); eassumption|]; cbv beta. intros ? s6 (V6 & L6).
    exists f3. eexists. split; [exact V6|]. intros Hcl. apply (flow_app _ _ _ _ (S n)); [|apply flow_pop1].
    assert (le f1 s1 f3 s6) as K1 by (repeat (eapply le_trans; [eassumption|]); apply le_refl).
    apply flow_exit; [|intros H HHl; apply Hturn|done|exact (sure_le _ _ _ _ _ L6 S5 Hcl)].
    + exact (good_le ctx _ _ _ _ _ _ _ (e_inv _ _ _ _ _ _ V1) K1 F1 Hcl).
    + by eapply le_trans.
    + done.
    + rewrite HHl. lens.
  - subst D. apply post_ret. exists f3, R. split; [exact V4|]. intros Hcl.
    apply (Hturn s4 (le_refl _ _) Hcl [] n); [done|apply head_always].
Qed.
End Stmts.
End Shapes.
