(* ===== verification/CompilerExprs.v ===== *)
(** * The code of expressions

    The code of an expression leaves one value more on the stack, and that of
    what follows an operand replaces it. *)
From Stdlib Require Import String Ascii.
From S2P Require Import Scanner.
From S2P Require Export AstWf CompilerJumps.
Open Scope Z_scope.

(** The command goes by way of depth [d]; an instruction. *)
Tactic Notation "via" constr(d) := apply block_bind with d; [|intros ?].
Ltac op := apply block_op; [reflexivity|reflexivity|simpl; lia|simpl; lia].
Ltac op_byte := apply block_op_byte; [reflexivity|reflexivity| |simpl; lia|simpl; lia].

Section Exprs.
Context `{U : Uninit} `{TG : Target} `{HO : Host} `{FM : FreshMemory}.
Variable ctx : objptr.
Abbreviation block := (CompilerBlocks.block ctx).
Abbreviation bound := (bound ctx).
Abbreviation quiet := (quiet ctx).

Lemma block_depth (G : Facts ctx) {A} (m : CM A) n k n' k' : block G m n k → n = n' → k = k' → block G m n' k'.
Proof. by intros H -> ->. Qed.

Lemma block_fail (G : Facts ctx) {A} n k : block G (A := A) st_fail n k.
Proof. intros fin s HI HG. apply post_fail. Qed.
Lemma quiet_vm_ints {A} (m : M A) : quiet (vmc (vm_ints m)).
Proof. apply quiet_still, still_heap. Qed.

(** ** Constants and variables *)
Lemma block_constant G v n : (∀ q, v ≠ FUNCTION_VAL q) →
  block G (constant ← makeConstant v; emitOpByte OP_CONSTANT constant) n (S n).
Proof.
  intros Hv. eapply block_learn; [by apply learns_constant|]. intros i. op_byte.
  intros fin s [_ Hs] Hcl. destruct (Hs Hcl) as [Hi Hc]. split; [done|]. by apply bool_decide_eq_true.
Qed.
Lemma flow_immediate F op (args : list Z) n : (op, length args) ∈ [(OP_IMMEDIATE_P8, 1); (OP_IMMEDIATE_N8, 1); (OP_IMMEDIATE_P16, 2);
    (OP_IMMEDIATE_N16, 2); (OP_IMMEDIATE_P24, 3); (OP_IMMEDIATE_N24, 3)]%nat → flow F (encode op :: args) n (S n).
Proof.
  rewrite !list.elem_of_cons. intros H. repeat destruct H as [[= -> HL]|H]; try by apply list.not_elem_of_nil in H.
  all: apply flow_op; [done|by rewrite HL|done|simpl; lia|simpl; lia].
Qed.
Lemma block_immediate G v n : block G (emitImmediateConstant v) n (S n).
Proof.
  assert (∀ op a, (op, 1%nat) ∈ [(OP_IMMEDIATE_P8, 1); (OP_IMMEDIATE_N8, 1)]%nat → block G (emitOpByte op a) n (S n)) as H8.
  { intros op a H. eapply block_emits; [apply emits_op_byte|]. intros fin s _ _. apply flow_immediate. set_solver. }
  assert (∀ (b : bool) a c, block G ((if b then emitOpByte OP_IMMEDIATE_N16 a else emitOpByte OP_IMMEDIATE_P16 a) ;; emitByte c)
    n (S n)) as H16.
  { intros b a c. eapply block_emits.
    - apply (emits_bind ctx _ _ [encode (if b then OP_IMMEDIATE_N16 else OP_IMMEDIATE_P16); u8 a] [u8 c]);
        [destruct b; apply emits_op_byte|intros ?; apply emits_byte].
    - intros fin s _ _. apply flow_immediate. destruct b; set_solver. }
  assert (∀ (b : bool) a c d, block G ((if b then emitOpByte OP_IMMEDIATE_N24 a else emitOpByte OP_IMMEDIATE_P24 a) ;; emitBytes c d)
    n (S n)) as H24.
  { intros b a c d. eapply block_emits.
    - apply (emits_bind ctx _ _ [encode (if b then OP_IMMEDIATE_N24 else OP_IMMEDIATE_P24); u8 a] [u8 c; u8 d]);
        [destruct b; apply emits_op_byte|intros ?].
      apply (emits_bind ctx _ _ [u8 c] [u8 d]); [apply emits_byte|intros ?; apply emits_byte].
    - intros fin s _ _. apply flow_immediate. destruct b; set_solver. }
  unfold emitImmediateConstant. destruct (_ && _); [destruct (v <? 0); apply H8; set_solver|].
  destruct (_ && _).
  - pose proof (H16 (v <? 0)) as H. destruct (v <? 0); apply H.
  - pose proof (H24 (v <? 0)) as H. destruct (v <? 0); apply H.
Qed.
Lemma block_emitConstant G v n : block G (emitConstant v) n (S n).
Proof.
  destruct v as [| | | | | |t o| |]; try (apply block_fail || by apply block_constant).
  - apply block_quiet_bind; [apply quiet_vm_ints|intros []; [|by apply block_constant]].
    apply block_quiet_bind; [apply quiet_vm_ints|intros ?; apply block_immediate].
  - destruct t as [[]| | | |]; try apply block_fail. destruct o; [by apply block_constant|apply block_fail].
Qed.
Lemma block_number G num n : block G (generateNumber num) n (S n).
Proof.
  destruct num; [|apply block_emitConstant]. apply block_quiet_bind; [apply quiet_vm_ints|intros ?; apply block_emitConstant].
Qed.

Lemma block_get G b getOp setOp arg d : (b ≤ d)%nat → implies ctx G (known_variable ctx b (getOp, setOp, arg)) →
  block G (emitOpByte getOp arg) d (S d).
Proof.
  intros Hb HG. eapply block_emits; [apply emits_op_byte|]. intros fin s Hs Hcl.
  destruct (HG fin s Hs Hcl) as (Hr & Hop & Hok). rewrite u8_small by done. destruct (Hok d Hb) as [Hg _].
  rewrite !list.elem_of_cons in Hop. destruct Hop as [[= -> ->]|[[= -> ->]|[[= -> ->]|[]%list.not_elem_of_nil]]];
    (apply flow_op; try done; simpl; lia).
Qed.
Lemma block_set G b getOp setOp arg d : (b ≤ S d)%nat → implies ctx G (known_variable ctx b (getOp, setOp, arg)) →
  block G (emitOpByte setOp arg) (S d) (S d).
Proof.
  intros Hb HG. eapply block_emits; [apply emits_op_byte|]. intros fin s Hs Hcl.
  destruct (HG fin s Hs Hcl) as (Hr & Hop & Hok). rewrite u8_small by done. destruct (Hok (S d) Hb) as [_ Hg].
  rewrite !list.elem_of_cons in Hop. destruct Hop as [[= -> ->]|[[= -> ->]|[[= -> ->]|[]%list.not_elem_of_nil]]];
    (apply flow_op; try done; simpl; lia).
Qed.
Lemma implies_right (G H : Facts ctx) : implies ctx (both ctx G H) H.
Proof. by intros fin s [? ?]. Qed.
Lemma block_get_named G b name d : implies ctx G (bound b) → (b ≤ d)%nat → block G (generateGetNamedVariable name) d (S d).
Proof.
  intros HG Hb. eapply block_learn; [eapply learns_weaken; [exact HG|apply learns_variable]|].
  intros [[g st] arg]. eapply block_get; [exact Hb|apply implies_right].
Qed.

(** ** The kinds of elements *)
Section Kinds.
Variable generateExpr : Expr → CM ().
Variable generateStmt : ObjStmt → CM ().
(** The code of the expression, from any depth. *)
Definition value_of {A} (m : CM A) : Prop := ∀ b d, (b ≤ d)%nat → block (bound b) m d (S d).
Definition update_of {A} (m : CM A) : Prop := ∀ b d, (b ≤ d)%nat → block (bound b) m (S d) (S d).
Abbreviation E_ok es := (value_of (generateExpr es)).

Lemma value_in (G : Facts ctx) b d {A} (m : CM A) : value_of m → implies ctx G (bound b) → (b ≤ d)%nat → block G m d (S d).
Proof. intros H HG Hb. eapply block_weaken; [exact HG|]. by apply H. Qed.

Lemma arith_ok op rhs : E_ok rhs → unary op = false → op ≠ EXPR_OP_LOGICAL_AND → op ≠ EXPR_OP_LOGICAL_OR →
  update_of (generateArithOperation generateExpr op rhs).
Proof.
  intros Hr Hu H1 H2 b d Hb. via (S (S d)); [apply Hr; lia|]. destruct op; try done; simpl;
    (via (S d); [op|]); first [apply block_ret | via (S d); [op|apply block_ret]].
Qed.
Lemma operation_ok op rhs assignment : E_ok rhs → (assignment ≠ [] → E_ok assignment) →
  (unary op = true → value_of (generateExprOperation generateExpr op rhs assignment)) ∧
  (unary op = false → update_of (generateExprOperation generateExpr op rhs assignment)).
Proof.
  intros Hr Ha. split; intros Hu.
  - intros b d Hb. destruct op; try done; simpl; (via (S d); [by apply Hr|]).
    + via (S d); [op|apply block_ret].
    + via (S d); [op|apply block_ret].
    + destruct assignment; [op|]. via (S (S d)); [apply Ha; [done|lia]|op].
  - destruct op; try done; try (apply arith_ok; done).
    + intros b d Hb. apply block_and. by apply Hr.
    + intros b d Hb. apply block_or. by apply Hr.
Qed.

Lemma variable_ok name assignment : (assignment ≠ [] → E_ok assignment) →
  value_of (generateExprNamedVariable generateExpr name assignment).
Proof.
  intros Ha b d Hb. apply block_quiet_bind; [apply quiet_copy|intros this].
  apply block_quiet_bind; [apply quiet_equal|intros e]. apply block_quiet_bind; [apply quiet_state|intros s].
  destruct (_ && _); [apply block_fails, fails_errorAt|].
  eapply block_learn; [apply learns_variable|]. intros [[g st] arg]. destruct assignment as [|x xs].
  - eapply block_get; [exact Hb|apply implies_right].
  - via (S d); [by apply (value_in _ b); [apply Ha|apply implies_left|]|]. via (S d); [op|].
    eapply block_set; [|apply implies_right]. lia.
Qed.

Lemma args_ok G b args d : Forall (λ a, E_ok a) args → implies ctx G (bound b) → (b ≤ d)%nat →
  block G (generateCallExprs generateExpr args) d (d + length args).
Proof.
  intros Hargs HG Hb. eapply block_depth; [apply (block_each ctx G _ args d 1)|done|lia].
  intros i a Ha. via (S (d + i * 1)); [|op]. apply (value_in _ b); [|done|lia]. exact (Forall_lookup_1 _ _ _ _ Hargs Ha).
Qed.
Lemma count_range {A} (l : list A) : few l = true → 0 ≤ Z.of_nat (length l) < 256.
Proof. unfold few. rewrite Nat.leb_le. lia. Qed.
Lemma call_ok args : few args = true → Forall (λ a, E_ok a) args → update_of (generateExprCall generateExpr args).
Proof.
  intros Hn Hargs b d Hb. via (S d + length args)%nat; [by apply (args_ok _ b); [|apply implies_refl|lia]|].
  pose proof (count_range _ Hn). apply block_op_byte; [done|done|intros; done| |]; simpl; unfold arg_count; lia.
Qed.
Lemma element_ok element assignment : E_ok element → (assignment ≠ [] → E_ok assignment) →
  update_of (generateExprCollectionElement generateExpr element assignment).
Proof.
  intros He Ha b d Hb. via (S (S d)); [apply He; lia|]. destruct assignment; [op|].
  via (S (S (S d))); [apply Ha; [done|lia]|op].
Qed.
Lemma builtin_ok e : value_of (generateExprBuiltin e).
Proof. intros b d Hb. destruct e; op_byte; intros; split; try done; vm_compute; split; congruence. Qed.
Lemma literal_ok l : value_of (generateExprLiteral l).
Proof. intros b d Hb. destruct l; op. Qed.
Lemma type_ok t : value_of (generateExprType t).
Proof. intros b d Hb. destruct t; op_byte; intros; split; done. Qed.
Lemma indexed_ok indexing : E_ok indexing → update_of (generateExprTypeIndexedCollection generateExpr indexing).
Proof.
  intros He b d Hb. apply block_quiet_bind; [destruct indexing; [apply quiet_fails, fails_error|apply quiet_ret]|intros ?].
  via (S (S d)); [apply He; lia|op].
Qed.

(** Instructions that name a string. *)
Lemma string_op_byte G o i n k : (o = OP_GET_GLOBAL ∨ o = OP_GET_PROPERTY ∨ o = OP_SET_PROPERTY ∨ o = OP_GET_SUPER ∨ o = OP_CLASS ∨ o = OP_METHOD) →
  implies ctx G (known_string ctx i) → ((effect o [i]).1 ≤ n)%nat → k = (n - (effect o [i]).1 + (effect o [i]).2)%nat →
  block G (emitOpByte o i) n k.
Proof.
  intros Ho HG Hn Hk. apply block_op_byte; [| | |done|done].
  - by destruct Ho as [-> |[-> |[-> |[-> |[-> | ->]]]]].
  - by destruct Ho as [-> |[-> |[-> |[-> |[-> | ->]]]]].
  - intros fin s Hs Hcl. destruct (HG fin s Hs Hcl) as [Hi Hc]. split; [done|].
    by destruct Ho as [-> |[-> |[-> |[-> |[-> | ->]]]]].
Qed.
(** [OP_INVOKE] and [OP_SUPER_INVOKE]. *)
Lemma invoke_bytes G o i (args : list Expr) n k : (o = OP_INVOKE ∨ o = OP_SUPER_INVOKE) → few args = true →
  implies ctx G (known_string ctx i) → (length args + (if bool_decide (o = OP_INVOKE) then 1 else 2) ≤ n)%nat →
  k = (n - (length args + (if bool_decide (o = OP_INVOKE) then 1 else 2)) + 1)%nat →
  block G (emitOpByte o i ;; emitByte (arg_count args)) n k.
Proof.
  intros Ho Hargs HG Hn Hk. pose proof (count_range _ Hargs) as Hc.
  eapply block_emits; [apply (emits_bind ctx _ _ [encode o; u8 i] [u8 (arg_count args)]); [apply emits_op_byte|intros ?; apply emits_byte]|].
  intros fin s Hs Hcl. destruct (HG fin s Hs Hcl) as [Hi Hstr]. rewrite !u8_small by done.
  apply flow_op; destruct Ho as [-> | ->]; try done; simpl in *; unfold arg_count; lia.
Qed.

Lemma dot_ok name offset assignment call : (offset ≠ [] → E_ok offset) → (assignment ≠ [] → E_ok assignment) →
  (∀ args, call = Some args → few args = true ∧ Forall (λ a, E_ok a) args) →
  update_of (generateExprDot generateExpr name offset assignment call).
Proof.
  intros Ho Ha Hc b d Hb. eapply block_learn; [apply learns_identifier|]. intros i.
  destruct offset as [|x xs]; [destruct assignment as [|x xs]; [destruct call as [args|]|]|].
  - destruct (Hc args eq_refl) as [Hn Hargs].
    via (S d + length args)%nat; [by apply (args_ok _ b); [|apply implies_left|lia]|].
    apply invoke_bytes; [by left|done|apply implies_right|simpl; lia|simpl; lia].
  - apply string_op_byte; [by eauto|apply implies_right|simpl; lia|simpl; lia].
  - via (S (S d)); [by apply (value_in _ b); [apply Ha|apply implies_left|lia]|].
    apply string_op_byte; [by eauto|apply implies_right|simpl; lia|simpl; lia].
  - via (S (S d)); [by apply (value_in _ b); [apply Ho|apply implies_left|lia]|op].
Qed.

Lemma super_ok name call : (∀ args, call = Some args → few args = true ∧ Forall (λ a, E_ok a) args) →
  value_of (generateExprSuper generateExpr name call).
Proof.
  intros Hc b d Hb. apply block_quiet_bind; [apply quiet_state|intros s]. apply block_quiet_bind.
  { destruct (classes s) as [|[] ?]; [apply quiet_fails, fails_errorAt|apply quiet_ret|apply quiet_fails, fails_errorAt]. }
  intros ?. eapply block_learn; [apply learns_identifier|]. intros i.
  do 2 (apply block_quiet_bind; [apply quiet_copy|intros ?]; apply block_quiet_bind; [apply quiet_protect|intros ?]).
  via (S d); [by apply (block_get_named _ b); [apply implies_left|]|].
  via (S d); [|apply block_quiet_bind; [apply quiet_unprotect|intros ?; apply block_quiet, quiet_unprotect]].
  destruct call as [args|].
  - destruct (Hc args eq_refl) as [Hn Hargs].
    via (S d + length args)%nat; [by apply (args_ok _ b); [|apply implies_left|lia]|].
    via (S (S d + length args)); [by apply (block_get_named _ b); [apply implies_left|lia]|].
    apply invoke_bytes; [by right|done|apply implies_right|simpl; lia|simpl; lia].
  - via (S (S d)); [by apply (block_get_named _ b); [apply implies_left|lia]|].
    apply string_op_byte; [by eauto 6|apply implies_right|simpl; lia|simpl; lia].
Qed.

(** What an item of a collection needs. *)
Definition item_ok (es : Expr) : Prop :=
  match es with OBJ_EXPR_PAIR a b :: _ => E_ok a ∧ E_ok b | _ => E_ok es end.
Lemma items_ok items : Forall item_ok items → ∀ i, update_of (collection_items generateExpr i items).
Proof.
  induction 1 as [|es items Hes _ IH]; intros i b d Hb; [apply block_ret|].
  assert (item_ok es → match es with OBJ_EXPR_PAIR _ _ :: _ => True | _ => E_ok es end) as Helt by (destruct es as [|[] ?]; done).
  assert (E_ok es → block (bound b) ('(element, p) ← vmc (newExprNumberFromCint i); protect (IMPL_OBJ_VAL (Some p)) ;;
      generateNumber element ;; generateExpr es ;; emitOp OP_SET_ELEMENT ;; unprotect ;;
      collection_items generateExpr (i + 1) items) (S d) (S d)) as Hitem.
  { intros He. apply block_quiet_bind.
    { apply quiet_still. unfold newExprNumberFromCint, vm_ints. still. }
    intros [element p]. apply block_quiet_bind; [apply quiet_protect|intros ?].
    via (S (S d)); [apply block_number|]. via (S (S (S d))); [apply He; lia|]. via (S d); [op|].
    apply block_quiet_bind; [apply quiet_unprotect|intros ?]. by apply IH. }
  destruct es as [|[] es]; try (apply Hitem; exact Hes).
  destruct Hes as [H1 H2]. via (S (S d)); [apply H1; lia|]. via (S (S (S d))); [apply H2; lia|]. via (S d); [op|]. by apply IH.
Qed.
Lemma collection_ok isMap items cardinality : Forall item_ok items → (isMap = false → E_ok cardinality) →
  value_of (generateExprCollectionInit generateExpr isMap items cardinality).
Proof.
  intros Hi Hc b d Hb. via (S d); [op_byte; intros; split; done|]. via (S (S d)); [op|]. via (S (S (S d))).
  { destruct isMap; [op_byte; intros; split; done|]. apply Hc; [done|lia]. }
  via (S (S d)); [op|]. via (S d); [op_byte; intros; split; done|]. by apply items_ok.
Qed.

Lemma block_fails_emits (G : Facts ctx) {A B} (m : CM A) (f : A → CM B) D n k :
  fails_with ctx m → (∀ a, emits ctx (f a) D) → block G (m ≫= f) n k.
Proof.
  intros Hm Hf fin s HI HG. apply post_bind. eapply post_mono; [by apply Hm|]; cbv beta. intros a s1 [V1 H1].
  eapply post_mono; [apply Hf, V1|]; cbv beta. intros ? s2 V2. exists fin, D.
  split; [exact (evolves_trans ctx _ _ [] _ _ _ _ _ V1 V2)|]. intros Hcl. destruct H1. by eapply evolves_clean.
Qed.
Lemma block_each_reverse G {A} (f : A → CM ()) l n k :
  (∀ x m, x ∈ l → (n ≤ m)%nat → block G (f x) m (m + k)) → block G (for_each_reverse f l) n (n + length l * k).
Proof.
  revert n. induction l as [|x l IH]; intros n H; [rewrite Nat.add_0_r; apply block_ret|].
  via (n + length l * k)%nat; [apply IH; intros; apply H; [by right|done]|].
  eapply block_depth; [apply H; [by left|]| |]; [|done|]; simpl; lia.
Qed.
Lemma struct_ok fields : Forall (λ s, ∀ b d, (b ≤ d)%nat → block (bound b) (generateStmt s) d (d + 3)) fields →
  value_of (generateExprTypeStruct generateStmt fields).
Proof.
  intros HF b d Hb. via (d + length fields * 3)%nat.
  { apply block_each_reverse. intros x m Hx Hm. rewrite list.Forall_forall in HF. apply HF; [done|lia]. }
  cbv zeta. destruct (Z.ltb_spec 255 (Z.of_nat (length fields))) as [Hn|Hn].
  - eapply block_fails_emits; [apply fails_error|intros ?; apply emits_op_byte].
  - apply block_quiet_bind; [apply quiet_ret|intros ?]. apply block_op_byte; [done|done| | |].
    + intros. split; [lia|done].
    + simpl. lia.
    + simpl. lia.
Qed.

(** All elements. *)
Definition elt_ok (e : ObjExpr) : Prop :=
  (operand e = true → value_of (generate_expr_kind generateExpr generateStmt e)) ∧
  (postfix e = true → update_of (generate_expr_kind generateExpr generateStmt e)).
Definition field_ok (s : ObjStmt) : Prop := ∀ b d, (b ≤ d)%nat → block (bound b) (generateStmt s) d (d + 3).
End Kinds.
End Exprs.
