(* ===== verification/CompilerFunctions.v ===== *)
(** * Functions in the compiler

    A function is compiled by a compiler of its own, on top of those it is
    enclosed by: what is pushed and popped with it, and that the function is
    finished then. *)
From Stdlib Require Import String Ascii.
From S2P Require Import Scanner.
From S2P Require Export CompilerExprs.
Open Scope Z_scope.

Section Functions.
Context `{U : Uninit} `{TG : Target} `{HO : Host} `{FM : FreshMemory}.
Variable ctx : objptr.
Abbreviation Inv := (Inv ctx).
Abbreviation evolves := (evolves ctx).

(** [s1] is [s] with a new compiler for the function [f]. *)
Record pushed (s : CState) (type : FunctionType) (f : objptr) (s1 : CState) : Prop := {
  pu_comp : ∃ c, compilers s1 = c :: compilers s ∧ context c = ctx ∧ cfunction c = f ∧ ctype c = type ∧ errors c = [] ∧
    panicMode c = false ∧ cupvalues c = [] ∧ scopeDepth c = 0 ∧ (length (locals c) ≤ 256)%nat ∧
    (∃ x, locals c = [mkLocal x 0 false]);
  pu_new : fn_of (cvm s) f = None;
  pu_fn : ∃ g, fn_of (cvm s1) f = Some g ∧ upvalueCount g = 0%nat ∧ fcode g = [] ∧ fconsts g = [] ∧ arity g = 0;
  pu_same : ∀ p, p ≠ f → fn_of (cvm s1) p = fn_of (cvm s) p;
  pu_routine : is_routine (cvm s1) ctx
}.
Lemma initCompiler_post type name fin s : Inv fin s →
  post (initCompiler type name ctx) s (λ _ s1, ∃ f, pushed s type f s1).
Proof.
  intros HI. apply post_bind. intros f s1 E1. unfold vmc, new_obj in E1. injection E1 as Hf <-. symmetry in Hf.
  assert (vm_objects (cvm s) !! f = None) as Hnone.
  { apply not_elem_of_dom. subst f. apply is_fresh. }
  destruct (I_routine _ _ _ HI) as [R HR].
  assert (f ≠ ctx) as Hne by (intros ->; by rewrite HR in Hnone).
  apply post_bind. intros ? s2 [= _ <-]. simpl.
  set (c0 := mkCompiler _ _ _ _ _ _ _ _ _). rewrite <-Hf. set (v1 := set_objects _ _).
  assert (∀ p, fn_of v1 p = if decide (p = f) then Some initFunction else fn_of (cvm s) p) as Hv1 by (intros p; apply fn_of_put).
  assert (is_routine v1 ctx) as Hr1 by (exists R; simpl; by rewrite lookup_insert_ne).
  clearbody v1. apply post_bind. intros a3 s3 E3.
  assert (∃ v3, s3 = mkCState v3 (c0 :: compilers s) (classes s) ∧ is_routine v3 ctx ∧
    (∀ p, p ≠ f → fn_of v3 p = fn_of (cvm s) p) ∧
    ∃ g, fn_of v3 f = Some g ∧ upvalueCount g = 0%nat ∧ fcode g = [] ∧ fconsts g = [] ∧ arity g = 0) as (v3 & -> & Hr3 & Hs3 & g & Hg3 & G1 & G2 & G3).
  { revert E3. case_bool_decide.
    - intros [= _ <-]. exists v1. split; [done|]. split; [done|]. split; [intros p Hp; by rewrite Hv1, decide_False|].
      exists initFunction. by rewrite Hv1, decide_True.
    - revert a3 s3. change (post (fn ← get_fn f; put_fn f (mkFunction (arity fn) (upvalueCount fn) (chunk fn) name))
        (mkCState v1 (c0 :: compilers s) (classes s)) (λ _ s3, ∃ v3, s3 = mkCState v3 (c0 :: compilers s) (classes s) ∧
        is_routine v3 ctx ∧ (∀ p, p ≠ f → fn_of v3 p = fn_of (cvm s) p) ∧
        ∃ g, fn_of v3 f = Some g ∧ upvalueCount g = 0%nat ∧ fcode g = [] ∧ fconsts g = [] ∧ arity g = 0)).
      apply post_bind, post_get_fn. cbn [cvm]. intros g. rewrite Hv1, decide_True by done. intros [= <-].
      intros ? s3 [= _ <-]. eexists. split; [done|]. split; [|split].
      + eapply routine_put; [done|]. by rewrite Hv1, decide_True.
      + intros p Hp. cbn [cvm]. rewrite fn_of_put, decide_False, Hv1, decide_False by done. done.
      + eexists. cbn [cvm]. rewrite fn_of_put, decide_True by done. done. }
  apply post_bind. intros n s4 E4. unfold copyStringC, vmc in E4. simpl in E4.
  destruct (intern _ v3) as [[n' v4]|] eqn:E; [|done]. injection E4 as -> <-.
  destruct (calm_still ctx _ (still_intern _) v3 Hr3 _ _ E) as [Hr4 Hs4].
  apply post_modify. cbn [cvm compilers classes]. intros c Hc. injection Hc as <-. exists f. split; cbn [cvm compilers].
  - eexists. split; [reflexivity|]. repeat split; try done; [simpl; lia|by eexists].
  - unfold fn_of. by rewrite Hnone.
  - exists g. by rewrite Hs4.
  - intros p Hp. by rewrite Hs4, Hs3.
  - done.
Qed.

Lemma pushed_level s type f s1 i : pushed s type f s1 → compilers s1 !! S i = compilers s !! i.
Proof. intros [(c & -> & _) _ _ _ _]. done. Qed.
Section Pushed.
Variables (fin : gset objptr) (s s1 : CState) (type : FunctionType) (f : objptr).
Hypotheses (HI : Inv fin s) (HP : pushed s type f s1).

Lemma pushed_other i c : compilers s !! i = Some c → cfunction c ≠ f.
Proof. intros Hc Hf. destruct (I_fn _ _ _ HI i c Hc) as (g & Hg & _). by rewrite Hf, (pu_new _ _ _ _ HP) in Hg. Qed.
Lemma pushed_fn_at i : fn_at s1 (S i) = fn_at s i.
Proof.
  unfold fn_at. rewrite (pushed_level s type f s1 i HP). destruct (compilers s !! i) as [c|] eqn:Hc; [|done]. simpl.
  apply (pu_same _ _ _ _ HP). by eapply pushed_other.
Qed.
Lemma pushed_not_fin : f ∉ fin.
Proof. intros H. destruct (I_known _ _ _ HI f H) as [g Hg]. by rewrite (pu_new _ _ _ _ HP) in Hg. Qed.
Lemma pushed_fns p g : p ∈ fin → fn_of (cvm s) p = Some g → fn_of (cvm s1) p = Some g.
Proof. intros Hp Hg. rewrite (pu_same _ _ _ _ HP); [done|]. intros Hf. apply pushed_not_fin. by rewrite <-Hf. Qed.
Lemma pushed_clean : clean s1 → clean s.
Proof. destruct HP as [(c & Hc & _) _ _ _ _]. unfold clean. rewrite Hc. by intros [_ ?]%list.Forall_cons. Qed.

Lemma pushed_inv : Inv fin s1.
Proof.
  destruct (pu_comp _ _ _ _ HP) as (c & Hc & C1 & C2 & C3 & C4 & C5 & C6 & C7 & C8 & _).
  destruct (pu_fn _ _ _ _ HP) as (g & G1 & G2 & G3 & G4 & _).
  assert (∀ i ci, compilers s1 !! i = Some ci → (i = 0%nat ∧ ci = c) ∨ ∃ j, i = S j ∧ compilers s !! j = Some ci) as Hl.
  { intros [|i] ci; rewrite Hc; simpl; [intros [= <-]; by left|intros Hi; right; by exists i]. }
  split.
  - apply HP.
  - intros i ci Hi. destruct (Hl i ci Hi) as [[-> ->]|(j & -> & Hj)]; [done|by eapply I_context].
  - intros i ci Hi. destruct (Hl i ci Hi) as [[-> ->]|(j & -> & Hj)].
    + exists g. by rewrite C2, C6, G2.
    + rewrite (pu_same _ _ _ _ HP) by by eapply pushed_other. by eapply I_fn.
  - rewrite Hc. cbn. apply list.NoDup_cons. split; [|apply HI]. intros (ci & Hci & Hin)%list_elem_of_fmap.
    apply list_elem_of_lookup in Hin as [j Hj]. rewrite C2 in Hci. exact (pushed_other j ci Hj (eq_sym Hci)).
  - intros i ci Hi. destruct (Hl i ci Hi) as [[-> ->]|(j & -> & Hj)]; [rewrite C2; apply pushed_not_fin|by eapply I_fin].
  - intros p Hp. destruct (I_known _ _ _ HI p Hp) as [g' Hg']. exists g'. by apply pushed_fns.
  - intros i ci Hi. destruct (Hl i ci Hi) as [[-> ->]|(j & -> & Hj)]; [by rewrite C5|by eapply I_panic].
  - intros i ci Hi. destruct (Hl i ci Hi) as [[-> ->]|(j & -> & Hj)]; [rewrite C6; simpl; lia|by eapply I_sizes].
  - intros i ci Hi. destruct (Hl i ci Hi) as [[-> ->]|(j & -> & Hj)]; [by rewrite C7|by eapply I_scope].
  - intros Hcl. pose proof (I_clean _ _ _ HI (pushed_clean Hcl)) as CI. split.
    + intros i ci Hi. destruct (Hl i ci Hi) as [[-> ->]|(j & -> & Hj)].
      * rewrite C6. by destruct (compilers s1 !! 1%nat).
      * rewrite (pushed_level _ _ _ _ (S j) HP). by apply (C_links _ _ CI).
    + intros [|i] q; unfold consts_at.
      * unfold fn_at. rewrite Hc. simpl. rewrite C2, G1. simpl. rewrite G4. by intros ?%list.not_elem_of_nil.
      * rewrite pushed_fn_at. apply (C_consts _ _ CI).
    + intros p Hp. eapply finished_mono; [done|apply pushed_fns|done|by apply CI].
Qed.
Lemma pushed_code : code_at s1 0 = [].
Proof.
  destruct (pu_comp _ _ _ _ HP) as (c & Hc & C1 & C2 & _). destruct (pu_fn _ _ _ _ HP) as (g & G1 & G2 & G3 & G4 & _).
  unfold code_at, fn_at. rewrite Hc. simpl. by rewrite C2, G1.
Qed.
Lemma pushed_full : full s1 1 ∧ scope_at s1 0 = 0.
Proof.
  destruct (pu_comp _ _ _ _ HP) as (c & Hc & C1 & C2 & C3 & C4 & C5 & C6 & C7 & C8 & x & C9).
  unfold full, locals_at, scope_at. rewrite Hc. simpl. rewrite C7, C9. split; [|done]. intros _. split; [done|].
  constructor; [simpl; lia|done].
Qed.

(** The end: the compiler goes, its errors are those of the enclosing one, and
    the function is finished. *)
Variables (fin2 : gset objptr) (s2 : CState) (v : VM) (c e : Compiler) (outer : list Compiler) (g : ObjFunction).
Hypotheses (HI2 : Inv fin2 s2) (HL : le fin s1 fin2 s2) (Hcs : compilers s2 = c :: e :: outer).
Hypothesis Hvr : is_routine v ctx.
Hypothesis Hvs : ∀ p, p ≠ f → fn_of v p = fn_of (cvm s2) p.
Hypothesis Hvf : fn_of v f = Some g.
Hypothesis Hver : clean s2 → verified (mkInfo (fconsts g) (upvalueCount g) (fin_ups fin2 (cvm s2))) (fcode g) (S (Z.to_nat (arity g))) ∧
  ∀ q, FUNCTION_VAL q ∈ fconsts g → q ∈ fin2.
Definition popped : CState := mkCState v (set_errors (errors e ++ errors c) e :: outer) (classes s2).

Lemma popped_function : cfunction c = f.
Proof.
  destruct (pu_comp _ _ _ _ HP) as (c1 & Hc1 & C1 & C2 & _).
  destruct (l_comp _ _ _ _ HL 0%nat c1) as (c' & Hc' & HE); [by rewrite Hc1|]. rewrite Hcs in Hc'. injection Hc' as <-.
  by rewrite (le_function _ _ _ _ HE).
Qed.
Lemma popped_level i ci : compilers popped !! i = Some ci →
  ∃ cj, compilers s2 !! S i = Some cj ∧ context ci = context cj ∧ cfunction ci = cfunction cj ∧ ctype ci = ctype cj ∧
    (∃ l, errors ci = errors cj ++ l) ∧ panicMode ci = panicMode cj ∧ locals ci = locals cj ∧
    cupvalues ci = cupvalues cj ∧ scopeDepth ci = scopeDepth cj.
Proof.
  unfold popped. rewrite Hcs. destruct i as [|i]; simpl.
  - intros [= <-]. exists e. repeat split; try done. by exists (errors c).
  - intros Hi. exists ci. repeat split; try done. exists []. by rewrite app_nil_r.
Qed.
Lemma popped_level_back i cj : compilers s2 !! S i = Some cj → ∃ ci, compilers popped !! i = Some ci.
Proof. unfold popped. rewrite Hcs. destruct i as [|i]; simpl; [by eexists|intros Hi; by exists cj]. Qed.
Lemma popped_other i cj : compilers s2 !! S i = Some cj → cfunction cj ≠ f.
Proof.
  intros Hj Hf. pose proof (I_distinct _ _ _ HI2) as HD.
  assert (S i = 0%nat) as Hi; [|done]. eapply (NoDup_lookup _ (S i) 0 f HD); rewrite list_lookup_fmap.
  - by rewrite Hj, <-Hf.
  - rewrite Hcs. simpl. by rewrite popped_function.
Qed.
Lemma popped_fn_at i : fn_at popped i = fn_at s2 (S i).
Proof.
  unfold fn_at. destruct (compilers popped !! i) as [ci|] eqn:Hi.
  - destruct (popped_level i ci Hi) as (cj & Hj & _ & Hf & _). rewrite Hj. simpl. rewrite Hf. apply Hvs. by eapply popped_other.
  - destruct (compilers s2 !! S i) as [cj|] eqn:Hj; [|done]. destruct (popped_level_back i cj Hj) as [ci Hci]. congruence.
Qed.
Lemma popped_at i : locals_at popped i = locals_at s2 (S i) ∧ scope_at popped i = scope_at s2 (S i).
Proof.
  unfold locals_at, scope_at. destruct (compilers popped !! i) as [ci|] eqn:Hi.
  - destruct (popped_level i ci Hi) as (cj & -> & _ & _ & _ & _ & _ & Hl & _ & Hs). simpl. by rewrite Hl, Hs.
  - destruct (compilers s2 !! S i) as [cj|] eqn:Hj; [|done]. destruct (popped_level_back i cj Hj) as [ci Hci]. congruence.
Qed.
Lemma popped_clean : clean popped → clean s2.
Proof.
  unfold clean, popped. rewrite Hcs. simpl. rewrite !list.Forall_cons. simpl. intros [[-> ->]%app_eq_nil H]. done.
Qed.
Lemma popped_not_fin : f ∉ fin2.
Proof. rewrite <-popped_function. eapply (I_fin _ _ _ HI2 0). by rewrite Hcs. Qed.
Lemma popped_fns p h : p ∈ fin2 → fn_of (cvm s2) p = Some h → fn_of v p = Some h.
Proof. intros Hp Hh. rewrite Hvs; [done|]. intros Hf. apply popped_not_fin. by rewrite <-Hf. Qed.
Lemma popped_finished : clean popped → finished (fin2 ∪ {[f]}) v f.
Proof.
  intros Hcl. destruct (Hver (popped_clean Hcl)) as [H1 H2]. exists g. split; [done|]. split; [|set_solver].
  eapply safe_le; [|exact H1]. split; simpl; [exists []; by rewrite app_nil_r|done|].
  apply fin_ups_mono; [set_solver|]. intros p h. apply popped_fns.
Qed.

Lemma popped_inv : Inv (fin2 ∪ {[f]}) popped.
Proof.
  split.
  - done.
  - intros i ci Hi. destruct (popped_level i ci Hi) as (cj & Hj & -> & _). by eapply (I_context _ _ _ HI2).
  - intros i ci Hi. destruct (popped_level i ci Hi) as (cj & Hj & _ & -> & _ & _ & _ & _ & -> & _).
    cbn [cvm popped]. rewrite Hvs by by eapply popped_other. by eapply (I_fn _ _ _ HI2).
  - pose proof (I_distinct _ _ _ HI2) as HD. rewrite Hcs in HD. cbn in HD |- *. by apply list.NoDup_cons in HD as [_ HD].
  - intros i ci Hi. destruct (popped_level i ci Hi) as (cj & Hj & _ & -> & _).
    pose proof (I_fin _ _ _ HI2 _ _ Hj). pose proof (popped_other i cj Hj). set_solver.
  - intros p [Hp| ->%elem_of_singleton]%elem_of_union; [|by exists g].
    destruct (I_known _ _ _ HI2 p Hp) as [h Hh]. exists h. by apply popped_fns.
  - intros i ci Hi. destruct (popped_level i ci Hi) as (cj & Hj & _ & _ & _ & (l & ->) & -> & _).
    intros Hp. pose proof (I_panic _ _ _ HI2 _ _ Hj Hp). by intros [? _]%app_eq_nil.
  - intros i ci Hi. destruct (popped_level i ci Hi) as (cj & Hj & _ & _ & _ & _ & _ & -> & -> & _). by eapply (I_sizes _ _ _ HI2).
  - intros i ci Hi. destruct (popped_level i ci Hi) as (cj & Hj & _ & _ & _ & _ & _ & _ & _ & ->). by eapply (I_scope _ _ _ HI2).
  - intros Hcl. pose proof (I_clean _ _ _ HI2 (popped_clean Hcl)) as CI. split.
    + intros i ci Hi. destruct (popped_level i ci Hi) as (cj & Hj & _ & _ & _ & _ & _ & _ & -> & _).
      pose proof (C_links _ _ CI _ _ Hj) as HC. destruct (compilers popped !! S i) as [e1|] eqn:He.
      * destruct (popped_level _ _ He) as (e2 & He2 & _ & _ & _ & _ & _ & Hl & Hu & _). rewrite He2 in HC.
        eapply list.Forall_impl; [exact HC|]. intros u. unfold link_ok. by rewrite Hl, Hu.
      * destruct (compilers s2 !! S (S i)) as [e2|] eqn:He2; [|done].
        destruct (popped_level_back (S i) e2 He2) as [? ?]. congruence.
    + intros i q. unfold consts_at. rewrite popped_fn_at. intros Hq. pose proof (C_consts _ _ CI (S i) q Hq). set_solver.
    + intros p [Hp| ->%elem_of_singleton]%elem_of_union; [|by apply popped_finished].
      eapply (finished_mono fin2 (cvm s2)); [set_solver|apply popped_fns|done|by apply (C_fin _ _ CI)].
Qed.
Lemma popped_evolves : evolves fin s [] (fin2 ∪ {[f]}) popped.
Proof.
  assert (∀ i, fn_at popped i = fn_at s2 (S i)) as Hat by apply popped_fn_at.
  assert (∀ i, code_at popped i = code_at s i) as Hcode.
  { intros i. unfold code_at at 1. rewrite Hat. change (code_at s2 (S i) = code_at s i). rewrite (l_code _ _ _ _ HL).
    unfold code_at. by rewrite pushed_fn_at. }
  assert (∀ i, locals_like (locals_at s i) (locals_at popped i) ∧ scope_at popped i = scope_at s i) as Hls.
  { intros i. destruct (popped_at i) as [-> ->]. rewrite (l_scope _ _ _ _ HL). split.
    - pose proof (l_locals _ _ _ _ HL i) as H. unfold locals_at in H at 1. rewrite (pushed_level _ _ _ _ i HP) in H. exact H.
    - unfold scope_at. by rewrite (pushed_level _ _ _ _ i HP). }
  split; [apply popped_inv| |by rewrite Hcode, app_nil_r|intros _; apply Hls|apply Hls]. split.
  - pose proof (l_fin _ _ _ _ HL). set_solver.
  - intros p h Hp Hh. apply popped_fns; [by apply (l_fin _ _ _ _ HL)|]. by apply (l_fns _ _ _ _ HL), pushed_fns.
  - pose proof (l_length _ _ _ _ HL) as H. rewrite Hcs in H. destruct (pu_comp _ _ _ _ HP) as (c1 & Hc1 & _).
    rewrite Hc1 in H. simpl in H |- *. lia.
  - intros i ci Hi. destruct (l_comp _ _ _ _ HL (S i) ci) as (cj & Hj & [L1 L2 L3 [l4 L4] L5 L6]).
    { by rewrite (pushed_level _ _ _ _ i HP). }
    destruct (popped_level_back i cj Hj) as [ck Hk]. exists ck. split; [done|].
    destruct (popped_level i ck Hk) as (cj' & Hj' & P1 & P2 & P3 & (l & P4) & _ & _ & P7 & _). simplify_eq.
    split; try congruence.
    + exists (l4 ++ l). by rewrite P4, L4, app_assoc.
    + by rewrite P7.
    + intros h Hh. destruct (L6 h) as (h' & Hh' & Hc'). { by rewrite (pu_same _ _ _ _ HP) by by eapply pushed_other. }
      exists h'. split; [|done]. cbn [cvm popped]. rewrite Hvs; [done|]. by eapply pushed_other.
  - intros i. apply Hcode.
  - intros i. apply Hls.
  - intros i. apply Hls.
Qed.
End Pushed.
End Functions.
