(* ===== verification/CompilerStmts.v ===== *)
(** * The code of statements

    A statement leaves the stack as it was, but for the values of the locals
    that it declares. *)
From Stdlib Require Import String Ascii.
From S2P Require Import Scanner.
From S2P Require Export CompilerFunctions.
Open Scope Z_scope.

Section Stmts.
Context `{U : Uninit} `{TG : Target} `{HO : Host} `{FM : FreshMemory}.
Variable ctx : objptr.
Abbreviation Inv := (Inv ctx).
Abbreviation evolves := (evolves ctx).
Abbreviation alters := (alters ctx).
Abbreviation block := (CompilerBlocks.block ctx).
Abbreviation bound := (bound ctx).
Abbreviation in_full := (in_full ctx).
Abbreviation quiet := (quiet ctx).
Abbreviation stmt_post := (stmt_post ctx).
Abbreviation value_of := (value_of ctx).

(** ** Statements one after another *)

(** A command that may declare locals, if [decl]. *)
Definition stmt_ok (decl : bool) (m : CM ()) : Prop :=
  ∀ fin s n, Inv fin s → full s n → (1 ≤ n)%nat → post m s (λ _ s', stmt_post fin s n decl s').

Lemma stmt_block decl m : (∀ n, (1 ≤ n)%nat → block (in_full n) m n n) → stmt_ok decl m.
Proof.
  intros Hm fin s n HI Hf Hn. eapply post_mono; [by apply (Hm n Hn)|]; cbv beta. intros ? s' (fin' & D & V & H).
  exists fin', D, []. split; [rewrite app_nil_r; by apply evolves_alters|]. split; [done|]. split; [done|]. split; [done|].
  by rewrite Nat.add_0_r.
Qed.
Lemma block_stmt G n m : stmt_ok false m → implies ctx G (in_full n) → (1 ≤ n)%nat → block G m n n.
Proof.
  intros Hm HG Hn fin s HI Hf. eapply post_mono; [by apply (Hm fin s n HI (HG fin s Hf))|]; cbv beta.
  intros ? s' (fin' & D & news & R & Hnone & _ & _ & H). rewrite (Hnone eq_refl), app_nil_r in R.
  rewrite (Hnone eq_refl), Nat.add_0_r in H. exists fin', D. split; [by apply alters_evolves_same|done].
Qed.

(** After the declarations the locals are those on the stack. *)
Lemma full_alters fin s n D news fin' s' : Inv fin s → full s n → alters fin s D (locals_at s 0 ++ news) fin' s' →
  Forall (λ l, depth l = scope_at s 0) news → full s' (n + length news).
Proof.
  intros HI Hf R Hnews Hcl. destruct (Hf (alters_clean _ _ _ _ _ _ _ R Hcl)) as [HL HF].
  pose proof (r_locals _ _ _ _ _ _ _ R Hcl) as Hlike. split; [by rewrite <-(Forall2_length Hlike), length_app, HL|].
  rewrite (r_scope _ _ _ _ _ _ _ R).
  assert (0 ≤ scope_at s 0) as H0.
  { unfold scope_at. destruct (compilers s !! 0%nat) as [c|] eqn:Hc; simpl; [by eapply (I_scope _ _ _ HI)|done]. }
  apply list.Forall_forall. intros y Hy. apply list_elem_of_lookup in Hy as [j Hj].
  destruct (Forall2_lookup_r _ _ _ _ _ Hlike Hj) as (x & Hx & _ & <-). apply list_elem_of_lookup_2 in Hx.
  apply list.elem_of_app in Hx as [Hx|Hx]; [by apply (proj1 (list.Forall_forall _ _) HF)|].
  rewrite (proj1 (list.Forall_forall _ _) Hnews x Hx). lia.
Qed.
Lemma stmt_post_trans fin s n decl s1 fin1 D1 news1 decl2 s2 : Inv fin s → full s n →
  alters fin s D1 (locals_at s 0 ++ news1) fin1 s1 → Forall (λ l, depth l = scope_at s 0) news1 →
  (scope_at s 0 = 0 → news1 = []) → (clean s1 → flow (info_at fin1 s1) D1 n (n + length news1)) →
  (decl = false → news1 = [] ∧ decl2 = false) →
  stmt_post fin1 s1 (n + length news1) decl2 s2 → stmt_post fin s n decl s2.
Proof.
  intros HI Hf R1 N1 Z1 F1 Hd (fin2 & D2 & news2 & R2 & Hd2 & N2 & Z2 & F2). rewrite (r_scope _ _ _ _ _ _ _ R1) in N2, Z2.
  exists fin2, (D1 ++ D2), (news1 ++ news2). split.
  { eapply alters_like; [eapply alters_trans; [exact R1|exact R2]|]. intros Hcl. rewrite app_assoc.
    apply Forall2_app; [|reflexivity]. apply R1. by eapply alters_clean. }
  split; [intros E; destruct (Hd E) as [-> E2]; by rewrite (Hd2 E2)|]. split; [by apply Forall_app_2|].
  split; [intros H0; by rewrite Z1, Z2|]. intros Hcl. rewrite length_app, Nat.add_assoc.
  eapply flow_app; [|by apply F2]. eapply (alters_flow ctx); [apply R1|exact R2|]. apply F1. by eapply alters_clean.
Qed.
Lemma stmts_ok {A} (gs : A → CM ()) decl ss : Forall (λ s, stmt_ok decl (gs s)) ss → stmt_ok decl (for_each gs ss).
Proof.
  induction 1 as [|x ss Hx _ IH]; [apply stmt_block; intros; apply block_ret|].
  intros fin s n HI Hf Hn. apply post_bind. eapply post_mono; [by apply Hx|]; cbv beta.
  intros ? s1 (fin1 & D1 & news1 & R1 & Hd & N1 & Z1 & F1).
  eapply post_mono; [apply (IH fin1 s1 (n + length news1)%nat)|]; cbv beta.
  - apply R1.
  - by eapply full_alters.
  - lia.
  - intros ? s2 H2. by eapply stmt_post_trans; [..|exact H2]; try done; intros E; split; [apply Hd|].
Qed.

(** ** A scope *)
Lemma scope_block (G : Facts ctx) n m : stmt_ok true m → implies ctx G (in_full n) → (1 ≤ n)%nat →
  block G (beginScope ;; m ;; endScope) n n.
Proof.
  intros Hm HG Hn fin s HI Hs. pose proof (HG fin s Hs) as Hf.
  run by (by apply (beginScope_post ctx)). intros ? s1 O1. pose proof (opened_full _ _ _ _ _ O1 Hf) as Hf1.
  run by (by apply (Hm fin s1 n); [apply O1|..]). intros ? s2 (fin2 & D2 & news & R2 & _ & N2 & _ & F2).
  eapply post_mono; [exact (endScope_post ctx fin s s1 fin2 s2 D2 news n n O1 Hf R2 N2 F2)|]; cbv beta.
  intros ? s3 (D & V & F). by exists fin2, D.
Qed.

(** ** Functions *)
Lemma local_post name fin s : Inv fin s → 0 < scope_at s 0 →
  post (constant ← parseVariable name; defineVariable constant) s (λ _ s',
    alters fin s [] (locals_at s 0 ++ [mkLocal name (scope_at s 0) false]) fin s').
Proof.
  intros HI Hs. run by (by apply (parseVariable_post ctx)). intros i s1 [R1 _]. unfold declared in R1.
  rewrite (proj2 (Z.ltb_lt _ _) Hs) in R1. pose proof (r_scope _ _ _ _ _ _ _ R1) as Hs1.
  apply post_bind, post_compiler. intros c Hc. destruct (locals_head s1 c Hc) as [_ Hsc]. rewrite <-Hsc, Hs1.
  rewrite (proj2 (Z.ltb_lt _ _) Hs).
  eapply post_mono; [apply (markInitialized_post ctx fin), R1|]; cbv beta. intros ? s2 R2.
  rewrite Hs1, (proj2 (Z.ltb_lt _ _) Hs) in R2.
  eapply alters_like; [exact (alters_trans _ _ _ [] _ _ _ [] _ _ _ R1 R2)|].
  intros Hcl. apply (mark_declared _ _ _ (-1)); [done|]. apply R1. by eapply alters_clean.
Qed.
Lemma params_post ps fin : ∀ s, Inv fin s → 0 < scope_at s 0 →
  post (for_each (λ p, name ← of_some (param_name p); constant ← parseVariable name; defineVariable constant) ps) s
    (λ _ s', ∃ news, alters fin s [] (locals_at s 0 ++ news) fin s' ∧ length news = length ps ∧
      Forall (λ l, depth l = scope_at s 0) news).
Proof.
  induction ps as [|p ps IH]; intros s HI Hs.
  - apply post_ret. exists []. rewrite app_nil_r. split; [|done]. by apply evolves_alters, evolves_refl.
  - apply post_bind. apply post_bind. intros name s0. unfold of_some. destruct (param_name p) as [name'|]; [|done].
    intros [= <- <-]. eapply post_mono; [by apply (local_post name' fin)|]; cbv beta. intros ? s1 R1.
    pose proof (r_scope _ _ _ _ _ _ _ R1) as Hs1.
    eapply post_mono; [apply IH; [apply R1|lia]|]; cbv beta. intros ? s2 (news & R2 & HL & HF). rewrite Hs1 in HF.
    exists (mkLocal name' (scope_at s 0) false :: news). split; [|split; [simpl; lia|by constructor]].
    eapply alters_like; [exact (alters_trans _ _ _ [] _ _ _ [] _ _ _ R1 R2)|]. intros Hcl.
    change (_ :: news) with ([mkLocal name' (scope_at s 0) false] ++ news). rewrite app_assoc.
    apply Forall2_app; [|reflexivity]. apply R1. by eapply alters_clean.
Qed.

Lemma emitReturn_post fin s : Inv fin s → post emitReturn s (λ _ s', ∃ R,
  evolves fin s (R ++ [encode OP_RETURN]) fin s' ∧ ∀ F n, (1 ≤ n)%nat → flow F R n (S n)).
Proof.
  intros HI. apply post_bind, post_compiler. intros c Hc. apply post_bind. case_bool_decide.
  - eapply post_mono; [by apply (emits_op_byte ctx)|]; cbv beta. intros ? s1 V1.
    eapply post_mono; [apply (emits_op ctx), V1|]; cbv beta. intros ? s2 V2. eexists. split; [by eapply evolves_trans|].
    intros F n Hn. apply flow_op; [done|done| |simpl; lia|simpl; lia].
    apply Nat.ltb_lt. change (Z.to_nat (u8 0)) with 0%nat. lia.
  - eapply post_mono; [by apply (emits_op ctx)|]; cbv beta. intros ? s1 V1.
    eapply post_mono; [apply (emits_op ctx), V1|]; cbv beta. intros ? s2 V2. eexists. split; [by eapply evolves_trans|].
    intros F n Hn. apply flow_op; [done|done|done|simpl; lia|simpl; lia].
Qed.

(** The closure of a finished function. *)
Definition capture_bytes (us : list Upvalue) : list Z := concat (map (λ u, [if isLocal u then 1 else 0; u8 (index u)]) us).
Lemma capture_bytes_length us : length (capture_bytes us) = (2 * length us)%nat.
Proof. unfold capture_bytes. induction us as [|u us IH]; [done|]. simpl in *. lia. Qed.
Lemma captures_linked F e us d : Forall (link_ok e) us →
  (∀ i l, locals e !! i = Some l → depth l ≠ -1 → (i < d)%nat) → (length (cupvalues e) ≤ ups F)%nat →
  captures_ok F d (length us) (capture_bytes us) = true.
Proof.
  intros HF Hl Hu. unfold capture_bytes. induction HF as [|u us [Hr Hk] _ IH]; [done|]. simpl. rewrite u8_small, andb_true_iff by done. split; [|exact IH].
  destruct (isLocal u); simpl; apply Nat.ltb_lt.
  - destruct Hk as (l & Hi & Hd). by eapply Hl.
  - lia.
Qed.
Lemma emits_captures us :
  emits ctx (for_each (λ u, emitByte (if isLocal u then 1 else 0) ;; emitByte (index u)) us) (capture_bytes us).
Proof.
  induction us as [|u us IH]; [apply quiet_ret|].
  apply (emits_bind ctx _ _ [if isLocal u then 1 else 0; u8 (index u)]); [|intros ?; exact IH].
  apply (emits_bind ctx _ _ [if isLocal u then 1 else 0] [u8 (index u)]); [|intros ?; apply emits_byte].
  pose proof (emits_byte ctx (if isLocal u then 1 else 0)) as H. by destruct (isLocal u).
Qed.

Lemma closure_post f us fin s d : Inv fin s → (clean s → f ∈ fin) →
  (clean s → fin_ups fin (cvm s) f = Some (length us) ∧ captures_ok (info_at fin s) (S d) (length us) (capture_bytes us) = true) →
  post (constant ← makeConstant (FUNCTION_VAL f); emitOpByte OP_CLOSURE constant ;;
    for_each (λ u, emitByte (if isLocal u then 1 else 0) ;; emitByte (index u)) us) s (λ _ s', ∃ D,
    evolves fin s D fin s' ∧ (clean s' → flow (info_at fin s') D d (S d))).
Proof.
  intros HI Hf Hcap. run by (apply (makeConstant_post ctx); [done|intros q [= <-]; exact Hf]). intros i s1 [V1 Hi].
  run by (apply (emits_op_byte ctx), V1). intros ? s2 V2.
  eapply post_mono; [apply emits_captures, V2|]; cbv beta. intros ? s3 V3.
  pose proof (evolves_trans _ _ _ _ _ _ _ _ _ V1 (evolves_trans _ _ _ _ _ _ _ _ _ V2 V3)) as V.
  pose proof (evolves_trans _ _ _ _ _ _ _ _ _ V2 V3) as V13.
  eexists. split; [exact V|]. intros Hcl. simpl. destruct (Hcap (evolves_clean _ _ _ _ _ _ V Hcl)) as [Hu Hc].
  destruct (Hi (evolves_clean _ _ _ _ _ _ V13 Hcl)) as (Hr & c & Hk & Hv). rewrite u8_small by done.
  rewrite (Hv Function_ f) in Hk by eauto.
  assert (info_le (info_at fin s) (info_at fin s3)) as L by (eapply (le_info ctx); [done|apply V]).
  assert (info_le (info_at fin s1) (info_at fin s3)) as L1 by (eapply (le_info ctx); [apply V1|apply V13]).
  apply (flow_closure _ _ (length us)); [|apply capture_bytes_length|eapply captures_sim; [exact (info_le_sim _ _ L)|exact Hc]].
  unfold closure_ups. rewrite (constant_le _ _ _ _ L1 Hk). by apply (le_fns _ _ L).
Qed.

Section Kinds.
Variable generateExpr : Expr → CM ().
Variable generateStmt : ObjStmt → CM ().
Abbreviation E_ok es := (value_of (generateExpr es)).
Abbreviation body_ok ss := (Forall (λ s, stmt_ok true (generateStmt s)) ss).
Abbreviation plain_ok ss := (Forall (λ s, stmt_ok false (generateStmt s)) ss).

(** The body, from the arguments to the return. *)
Lemma body_post params body fin s1 : Inv fin s1 → full s1 1 → scope_at s1 0 = 0 → code_at s1 0 = [] → body_ok body →
  post (function_body generateStmt params body) s1 (λ _ s4, ∃ fin4, Inv fin4 s4 ∧ le fin s1 fin4 s4 ∧ ∃ m, (1 ≤ m)%nat ∧
      (clean s4 → flow (info_at fin4 s4) (code_at s4 0) (S (length params)) m)).
Proof.
  intros HI Hf Hs Hcode Hb. run by (by apply (beginScope_post ctx)). intros ? s2 O2.
  pose proof (opened_full _ _ _ _ _ O2 Hf) as Hf2. destruct O2 as [HI2 L2 C2 Loc2 Sc2 _].
  run by (by apply params_post; [|lia]). intros ? s3 (news & R3 & HL3 & HF3).
  pose proof (full_alters _ _ _ _ _ _ _ HI2 Hf2 R3 HF3) as Hf3. rewrite HL3 in Hf3.
  eapply post_mono; [apply (stmts_ok _ _ _ Hb fin s3 (1 + length params)%nat); [apply R3|done|lia]|]; cbv beta.
  intros ? s4 (fin4 & D & news4 & R4 & _ & _ & _ & F4). exists fin4. split; [apply R4|]. split.
  { eapply le_trans; [exact L2|]. eapply le_trans; [apply R3|apply R4]. }
  exists (1 + length params + length news4)%nat. split; [lia|]. intros Hcl.
  rewrite (r_code _ _ _ _ _ _ _ R4), (r_code _ _ _ _ _ _ _ R3), C2, Hcode. exact (F4 Hcl).
Qed.

(** What the compiler of a function leaves. *)
Lemma function_post type params body fin s : Inv fin s → body_ok body →
  ∀ s1 f, pushed ctx s type f s1 →
  post (function_body generateStmt params body ;; emitReturn) s1 (λ _ s5, ∃ fin5, Inv fin5 s5 ∧ le fin s1 fin5 s5 ∧
    (clean s5 → verified (info_at fin5 s5) (code_at s5 0) (S (length params)))).
Proof.
  intros HI Hb s1 f HP. destruct (pushed_full _ _ _ _ _ HP) as [Hf1 Hs1].
  run by (apply (body_post params body fin s1); [by eapply pushed_inv|done|done|by eapply pushed_code|exact Hb]).
  intros ? s4 (fin4 & HI4 & L4 & m & Hm & F4).
  eapply post_mono; [by apply emitReturn_post|]; cbv beta. intros ? s5 (R & V5 & HR). exists fin4.
  split; [apply V5|]. split; [eapply le_trans; [exact L4|apply V5]|]. intros Hcl.
  rewrite (e_code _ _ _ _ _ _ V5), app_assoc. apply (verified_stop _ _ _ _ (S m)); [done|lia|].
  eapply flow_app; [|by apply HR]. eapply (evolves_flow ctx); [exact HI4|exact V5|]. apply F4. by eapply evolves_clean.
Qed.

(** The compiler of the function is gone. *)
Lemma finish_post type params fin s s1 f fin5 s5 c e outer g b d v : Inv fin s → bounded b s → (b ≤ S d)%nat →
  pushed ctx s type f s1 → Inv fin5 s5 → le fin s1 fin5 s5 →
  (clean s5 → verified (info_at fin5 s5) (code_at s5 0) (S (length params))) →
  compilers s5 = c :: e :: outer → fn_of (cvm s5) f = Some g →
  v = set_objects (<[f := OBJ_FUNCTION (mkFunction (Z.of_nat (length (A := Expr) params)) (upvalueCount g) (chunk g) (fName g))]>
        (vm_objects (cvm s5))) (cvm s5) →
  post (constant ← makeConstant (FUNCTION_VAL f); emitOpByte OP_CLOSURE constant ;;
    for_each (λ u, emitByte (if isLocal u then 1 else 0) ;; emitByte (index u)) (cupvalues c)) (popped s5 v c e outer)
    (λ _ s', ∃ fin' D, evolves fin s D fin' s' ∧ (clean s' → flow (info_at fin' s') D d (S d))).
Proof.
  intros HI Hb Hbd HP HI5 L5 F5 Hcs Hg Hv. pose proof (popped_function ctx fin s s1 type f HP fin5 s5 c e outer L5 Hcs) as Hcf.
  set (g' := mkFunction _ _ _ _) in Hv.
  assert (∀ p, fn_of v p = if decide (p = f) then Some g' else fn_of (cvm s5) p) as Hfv by (intros p; subst v; apply fn_of_put).
  assert (is_routine v ctx) as Hvr by (subst v; eapply routine_put; [apply HI5|done]).
  assert (fn_at s5 0 = Some g) as Hat by (unfold fn_at; rewrite Hcs; simpl; by rewrite Hcf).
  destruct (I_fn _ _ _ HI5 0%nat c) as (g0 & Hg0 & Hup); [by rewrite Hcs|]. rewrite Hcf in Hg0. assert (g0 = g) as -> by congruence.
  assert (clean s5 → verified (mkInfo (fconsts g') (upvalueCount g') (fin_ups fin5 (cvm s5))) (fcode g') (S (Z.to_nat (arity g'))) ∧
    ∀ q, FUNCTION_VAL q ∈ fconsts g' → q ∈ fin5) as Hver.
  { intros Hcl. simpl. rewrite Nat2Z.id. split.
    - specialize (F5 Hcl). revert F5. unfold info_at, consts_at, ups_at, code_at. rewrite Hat, Hcs. simpl. by rewrite <-Hup.
    - intros q Hq. apply (C_consts _ _ (I_clean _ _ _ HI5 Hcl) 0). unfold consts_at. by rewrite Hat. }
  assert (∀ p, p ≠ f → fn_of v p = fn_of (cvm s5) p) as Hvs by (intros p Hp; by rewrite Hfv, decide_False).
  assert (fn_of v f = Some g') as Hvf by (by rewrite Hfv, decide_True).
  pose proof (popped_evolves ctx fin s s1 type f HI HP fin5 s5 v c e outer g' HI5 L5 Hcs Hvr Hvs Hvf Hver) as V.
  set (s6 := popped s5 v c e outer) in *. set (fin6 := fin5 ∪ {[f]}) in *.
  assert (clean s6 → Forall (link_ok e) (cupvalues c)) as Hlinks.
  { intros Hcl. pose proof (C_links _ _ (I_clean _ _ _ HI5 (popped_clean s5 v c e outer Hcs Hcl)) 0%nat c) as H.
    rewrite Hcs in H. by apply H. }
  assert (compilers s6 !! 0%nat = Some (set_errors (errors e ++ errors c) e)) as He by done.
  eapply post_mono; [apply (closure_post f (cupvalues c) fin6 s6 d); [apply V|set_solver|]|]; cbv beta.
  - intros Hcl. split.
    + unfold fin_ups. rewrite decide_True by set_solver. cbn [cvm popped s6]. rewrite Hvf. simpl. by rewrite Hup.
    + apply (captures_linked _ e); [by apply Hlinks| |].
      * intros i l Hi Hd. enough (i < b)%nat by lia.
        apply (bounded_evolves ctx _ _ _ _ _ _ V Hb Hcl i l); [|done]. unfold locals_at. by rewrite He.
      * simpl. unfold ups_at. by rewrite He.
  - intros ? s7 (D & V7 & F7). exists fin6. eexists. split; [exact (evolves_trans _ _ _ [] _ _ D _ _ V V7)|exact F7].
Qed.

Lemma function_ok b d type decl : (b ≤ S d)%nat → body_ok (fun_body decl) →
  block (bound b) (generateFunction generateStmt type decl) d (S d).
Proof.
  destruct decl as [name params body]. intros Hb Hbody fin s HI HG. simpl in Hbody.
  apply post_bind, post_compiler. intros c0 Hc0. rewrite (I_context _ _ _ HI _ _ Hc0).
  run by (by apply (initCompiler_post ctx type (Some name) fin s)). intros ? s1 (f & HP).
  pose proof (function_post type params body fin s HI Hbody s1 f HP) as Hbp.
  apply post_bind. intros ? s4 E4. apply post_bind. intros ? s4' [= <- <-]. apply post_bind, post_assert. intros _.
  apply post_bind. unfold endCompiler. apply post_bind. intros u s5 E5.
  destruct (Hbp u s5) as (fin5 & HI5 & L5 & F5). { by rewrite (st_bind_run _ _ _ _ _ E4). }
  apply post_bind. intros ? s5' [= <- <-].
  pose proof (l_length _ _ _ _ L5) as HL. destruct (pu_comp _ _ _ _ _ HP) as (c1 & Hc1 & _).
  rewrite Hc1 in HL. apply lookup_lt_Some in Hc0. destruct (compilers s5) as [|c [|e outer]] eqn:Hcs; simpl in HL; [lia|lia|].
  apply post_bind. intros ? s6 [= _ <-]. apply post_ret. cbv beta iota.
  rewrite (popped_function ctx fin s s1 type f HP fin5 s5 c e outer L5 Hcs).
  apply post_bind, post_get_fn. cbn [cvm]. intros g Hg. apply post_bind. intros ? s6 [= _ <-].
  by eapply (finish_post type params fin s s1 f fin5 s5 c e outer g b d).
Qed.

(** ** Declarations *)
Lemma const_for_le fin s fin' s' v i : Inv fin s → le fin s fin' s' → const_for fin s v i → const_for fin' s' v i.
Proof.
  intros HI L (Hr & c & Hc & Hv). split; [done|]. exists c. split; [|done].
  eapply constant_le; [by eapply (le_info ctx)|done].
Qed.
(** The names that are declared are in scope, and the value is on the stack. *)
Lemma define_end name d fin s n D fin1 s1 i : Inv fin s → alters fin s D (declared name d s) fin1 s1 →
  good fin1 s1 D n (S n) → (clean s1 → scope_at s 0 = 0 → const_for fin1 s1 (STRING_VAL name) i) →
  post (defineVariable i) s1 (λ _ s2, stmt_post fin s n true s2).
Proof.
  intros HI R HD Hi. pose proof (r_scope _ _ _ _ _ _ _ R) as Hs.
  eapply post_mono; [eapply (defineVariable_post ctx name d (locals_at s 0) i n fin1 s1)|]; cbv beta.
  - apply R.
  - rewrite Hs. apply R.
  - by rewrite Hs.
  - intros ? s2 (D2 & R2 & F2). rewrite Hs in R2, F2.
    exists fin1, (D ++ D2), (if 0 <? scope_at s 0 then [mkLocal name (scope_at s 0) false] else []).
    split; [|split; [done|split; [by destruct (0 <? _); [constructor|]|split; [by intros ->|]]]].
    + pose proof (alters_trans _ _ _ _ _ _ _ _ _ _ _ R R2) as R3. revert R3. by destruct (0 <? _); rewrite ?app_nil_r.
    + intros Hcl. eapply flow_app.
      * eapply (alters_flow ctx); [apply R|exact R2|]. apply HD. by eapply alters_clean.
      * specialize (F2 Hcl). revert F2. destruct (0 <? _); simpl; [by rewrite Nat.add_1_r|by rewrite Nat.add_0_r].
Qed.
(** Between the declaration of the name and its definition. *)
Lemma define_after name d b (m : CM ()) fin s n s1 i : Inv fin s → full s n → alters fin s [] (declared name d s) fin s1 →
  (clean s1 → scope_at s 0 = 0 → const_for fin s1 (STRING_VAL name) i) → bounded b s1 → block (bound b) m n (S n) →
  post (m ;; defineVariable i) s1 (λ _ s2, stmt_post fin s n true s2).
Proof.
  intros HI Hf R Hi Hb Hm. run by (by apply Hm; [apply R|]). intros ? s2 (fin2 & D & V & F).
  apply (define_end name d fin s n D fin2 s2); [done|exact (alters_evolves _ _ _ [] _ _ _ _ _ _ R V)|exact F|].
  intros Hcl Hs. eapply const_for_le; [apply R|apply V|]. apply Hi; [by eapply evolves_clean|done].
Qed.
Lemma declared_bounded name d fin s n fin1 D s1 : Inv fin s → full s n → alters fin s D (declared name d s) fin1 s1 →
  bounded (if decide (d = -1) then n else S n) s1.
Proof.
  intros HI Hf R Hcl j l Hl Hd. destruct (Hf (alters_clean _ _ _ _ _ _ _ R Hcl)) as [HL _].
  destruct (Forall2_lookup_r _ _ _ _ _ (r_locals _ _ _ _ _ _ _ R Hcl) Hl) as (x & Hx & _ & Hxd).
  assert ((j < n)%nat ∨ (j = n ∧ d ≠ -1)) as Hj; [|case_decide; lia].
  unfold declared in Hx. destruct (0 <? _); [|left; rewrite <-HL; by eapply lookup_lt_Some].
  apply lookup_app_Some in Hx as [Hx|[Hge Hx]]; [left; rewrite <-HL; by eapply lookup_lt_Some|].
  apply list_lookup_singleton_Some in Hx as [Hj <-]. right. simpl in Hxd. split; [lia|congruence].
Qed.

Lemma cell_ok type initialiser : (type ≠ [] → E_ok type) → (initialiser ≠ [] → E_ok initialiser) →
  value_of (variable_cell generateExpr type initialiser).
Proof.
  intros Ht Hi b d Hb. via (S d). { destruct type; [op|by apply Ht]. }
  via (S d); [op|]. destruct initialiser; [apply block_ret|].
  via (S (S d)); [apply Hi; [done|lia]|]. via (S (S d)); [op|op].
Qed.
Lemma var_ok name type initialiser : (type ≠ [] → E_ok type) → (initialiser ≠ [] → E_ok initialiser) →
  stmt_ok true (generateVarDeclaration generateExpr name type initialiser).
Proof.
  intros Ht Hi fin s n HI Hf Hn. run by (by apply (parseVariable_post ctx)). intros i s1 [R Hc].
  eapply (define_after name (-1) n); [done|done|exact R|exact Hc|exact (declared_bounded _ _ _ _ _ _ _ _ HI Hf R)|].
  by apply cell_ok.
Qed.
Lemma marked_declared name fin s s1 : Inv fin s → alters fin s [] (declared name (-1) s) fin s1 →
  post markInitialized s1 (λ _ s2, alters fin s [] (declared name (scope_at s 0) s) fin s2 ∧ le fin s1 fin s2).
Proof.
  intros HI R. eapply post_mono; [apply (markInitialized_post ctx fin), R|]; cbv beta. intros ? s2 R2. split; [|apply R2].
  rewrite (r_scope _ _ _ _ _ _ _ R) in R2. unfold declared in *. destruct (Z.ltb_spec 0 (scope_at s 0)).
  - eapply alters_like; [exact (alters_trans _ _ _ [] _ _ _ [] _ _ _ R R2)|]. intros Hcl.
    apply (mark_declared _ _ _ (-1)); [done|]. apply R. by eapply alters_clean.
  - eapply alters_like; [exact (alters_trans _ _ _ [] _ _ _ [] _ _ _ R R2)|]. intros Hcl.
    apply R. by eapply alters_clean.
Qed.
Lemma scope_nonneg fin s : Inv fin s → 0 ≤ scope_at s 0.
Proof.
  intros HI. unfold scope_at. destruct (compilers s !! 0%nat) as [c|] eqn:Hc; simpl; [by eapply (I_scope _ _ _ HI)|done].
Qed.
Lemma fun_ok decl : body_ok (fun_body decl) → stmt_ok true (generateStmtFunDeclaration generateStmt decl).
Proof.
  intros Hb fin s n HI Hf Hn. run by (by apply (parseVariable_post ctx)). intros i s1 [R Hc].
  run by (by apply marked_declared). intros ? s2 [R2 L2].
  eapply (define_after (fun_name decl) (scope_at s 0) (S n)); [done|done|exact R2| | |by apply function_ok].
  - intros Hcl Hs. eapply const_for_le; [apply R|exact L2|]. apply Hc; [by eapply le_clean|done].
  - pose proof (declared_bounded _ _ _ _ _ _ _ _ HI Hf R2) as Hbd. pose proof (scope_nonneg _ _ HI).
    rewrite decide_False in Hbd by lia. done.
Qed.

Lemma place_ok type aliases : E_ok type → Forall (λ a : strptr * Expr, E_ok a.2) aliases →
  stmt_ok true (generatePlaceDeclaration generateExpr type aliases).
Proof.
  intros Ht Ha. apply stmts_ok. eapply list.Forall_impl; [exact Ha|]. intros [name location] He fin s n HI Hf Hn. simpl in He |- *.
  assert (block (in_full n) (placed_value generateExpr type location) n (S n)) as Hb.
  { via (S n); [by apply (value_in _ _ n); [apply Ht|apply full_bound|]|].
    via (S (S n)); [by apply (value_in _ _ n); [apply He|apply full_bound|lia]|op]. }
  run by (by apply Hb). intros ? s1 (fin1 & D & V & F).
  run by (apply (parseVariable_post ctx name fin1), V). intros i s2 [R Hc].
  assert (declared name (-1) s1 = (if 0 <? scope_at s 0 then locals_at s1 0 ++ [mkLocal name (-1) false] else locals_at s1 0)) as Hd.
  { unfold declared. by rewrite (e_scope _ _ _ _ _ _ V). }
  apply (define_end name (-1) fin s n D fin1 s2); [done| | |].
  - eapply alters_like.
    + pose proof (alters_trans _ _ _ D _ _ _ [] _ _ _ (evolves_alters _ _ _ _ _ _ V) R) as R2. rewrite app_nil_r in R2. exact R2.
    + intros Hcl. rewrite Hd. unfold declared. pose proof (e_locals _ _ _ _ _ _ V (alters_clean _ _ _ _ _ _ _ R Hcl)).
      destruct (0 <? _); [apply Forall2_app; [done|reflexivity]|done].
  - intros Hcl. eapply (alters_flow ctx); [apply V|exact R|]. apply F. by eapply alters_clean.
  - intros Hcl H0. apply Hc; [done|]. by rewrite (e_scope _ _ _ _ _ _ V).
Qed.

(** ** Classes *)
Lemma method_ok b d m : (b ≤ S d)%nat → body_ok (fun_body m) →
  block (bound b) (generateStmtMethodDeclaration generateStmt m) (S d) (S d).
Proof.
  intros Hb Hm. eapply block_learn; [apply learns_identifier|]. intros i.
  apply block_quiet_bind; [apply quiet_copy|intros init]. apply block_quiet_bind; [apply quiet_protect|intros ?].
  apply block_quiet_bind; [apply quiet_equal|intros e].
  via (S (S d)); [eapply block_weaken; [apply implies_left|apply function_ok; [lia|done]]|].
  via (S d); [|apply block_quiet, quiet_unprotect].
  apply string_op_byte; [by eauto 7|apply implies_right|simpl; lia|simpl; lia].
Qed.
Lemma methods_ok b d name methods : (b ≤ d)%nat → Forall (λ m, body_ok (fun_body m)) methods →
  block (bound b) (class_methods generateStmt name methods) d d.
Proof.
  intros Hb Hm. via (S d); [apply (block_get_named _ _ b); [apply implies_refl|done]|]. via (S d); [|op].
  eapply block_depth; [apply (block_each ctx _ _ methods (S d) 0)|done|lia].
  intros i m Hi. rewrite !Nat.mul_0_r, Nat.add_0_r. apply method_ok; [lia|]. exact (Forall_lookup_1 _ _ _ _ Hm Hi).
Qed.
Lemma inherit_ok b d name : (b ≤ S d)%nat → block (bound b) (inherit name) (S d) (S d).
Proof.
  intros Hb. via (S (S d)); [apply (block_get_named _ _ b); [apply implies_refl|done]|]. via (S d); [op|].
  apply block_quiet_bind; [apply quiet_state|intros ?]. apply block_quiet_bind; [apply quiet_classes|intros ?].
  apply block_quiet, quiet_unprotect.
Qed.

(** The scope of the superclass, which is a local of it. *)
Lemma super_local_ok fin s n k : opened ctx fin s k → full s n →
  post super_local k
    (λ _ s', ∃ super D, alters fin k D (locals_at k 0 ++ [mkLocal super (scope_at k 0) false]) fin s' ∧
      (clean s' → flow (info_at fin s') D (S n) (S n))).
Proof.
  intros [HI1 _ _ _ Hs Hpos] Hf. assert (0 < scope_at k 0) as H0 by lia.
  apply post_bind. intros super s1 E1. pose proof (quiet_copy ctx _ fin k HI1 super s1 E1) as V1.
  apply post_bind. intros ? s2 E2. pose proof (quiet_protect ctx _ fin s1 (e_inv _ _ _ _ _ _ V1) _ s2 E2) as V2.
  pose proof (evolves_trans _ _ _ [] _ _ [] _ _ V1 V2) as V. simpl in V.
  run by (apply (addLocal_post ctx super fin), V). intros ? s3 R3.
  pose proof (alters_trans _ _ _ [] _ _ _ [] _ _ _ (evolves_alters _ _ _ _ _ _ V) R3) as R. simpl in R.
  pose proof (r_scope _ _ _ _ _ _ _ R) as Hs3.
  assert (clean s3 → locals_like (locals_at k 0 ++ [mkLocal super (-1) false]) (locals_at s3 0)) as Hlike.
  { intros Hcl. etransitivity; [|by apply R]. apply Forall2_app; [|reflexivity]. apply V. by eapply alters_clean. }
  eapply post_mono; [apply (defineVariable_post ctx super (-1) (locals_at k 0) 0 n fin s3); [apply R| |]|]; cbv beta.
  - by rewrite Hs3, (proj2 (Z.ltb_lt _ _) H0).
  - intros _ Hz. lia.
  - intros ? s4 (D & R4 & F4). rewrite Hs3, (proj2 (Z.ltb_lt _ _) H0) in R4, F4.
    exists super, D. split; [|done]. exact (alters_trans _ _ _ [] _ _ _ _ _ _ _ R R4).
Qed.
Lemma superclass_ok n name superclass methods : (1 ≤ n)%nat → Forall (λ m, body_ok (fun_body m)) methods →
  block (in_full n) (generate_superclass name superclass ;; class_methods generateStmt name methods ;; endScope) n n.
Proof.
  intros Hn Hm fin s HI Hf. apply post_bind.
  run by (apply (block_get_named ctx (in_full n) n superclass n); [by apply full_bound|done|done|done]).
  intros ? s1 (f1 & D1 & V1 & F1). pose proof (full_evolves _ _ _ _ _ _ _ V1 Hf) as Hf1.
  run by (apply (beginScope_post ctx), V1). intros ? s2 O2.
  run by (by apply (super_local_ok f1 s1 n s2)). intros ? s3 (super & D3 & R3 & F3).
  pose proof (opened_full _ _ _ _ _ O2 Hf1) as Hf2.
  assert (bounded (S n) s3) as Hb.
  { pose proof (full_alters _ _ _ _ _ _ _ (o_inv _ _ _ _ O2) Hf2 R3 ltac:(by repeat constructor)) as Hf3. simpl in Hf3.
    rewrite Nat.add_1_r in Hf3. by apply full_bounded. }
  eapply post_mono; [apply (inherit_ok (S n) n name); [done|apply R3|done]|]; cbv beta. intros ? s4 (f4 & D4 & V4 & F4).
  run by (apply (methods_ok (S n) (S n) name methods); [done|done|apply V4|by eapply bounded_evolves]).
  intros ? s5 (f5 & D5 & V5 & F5).
  pose proof (evolves_trans _ _ _ _ _ _ _ _ _ V4 V5) as V45. pose proof (alters_evolves _ _ _ _ _ _ _ _ _ _ R3 V45) as R.
  eapply post_mono; [apply (endScope_post ctx f1 s1 s2 f5 s5 (D3 ++ D4 ++ D5) [mkLocal super (scope_at s2 0) false] n (S n));
    [done|done|exact R|by repeat constructor|]|]; cbv beta.
  - intros Hcl. simpl. rewrite Nat.add_1_r. pose proof (evolves_clean _ _ _ _ _ _ V5 Hcl) as Hcl4.
    pose proof (evolves_clean _ _ _ _ _ _ V4 Hcl4) as Hcl3. apply (flow_app _ _ _ _ (S n)).
    + eapply (evolves_flow ctx); [apply R3|exact V45|]. by apply F3.
    + eapply flow_app; [|by apply F5]. eapply (evolves_flow ctx); [apply V4|exact V5|]. by apply F4.
  - intros ? s6 (D6 & V6 & F6). exists f5, (D1 ++ D6). split; [by eapply evolves_trans|]. intros Hcl.
    eapply flow_app; [|by apply F6]. eapply (evolves_flow ctx); [apply V1|exact V6|]. apply F1. by eapply evolves_clean.
Qed.

Lemma class_body_ok n name superclass methods : (1 ≤ n)%nat → Forall (λ m, body_ok (fun_body m)) methods →
  block (in_full n) (class_body generateStmt name superclass methods) n n.
Proof.
  intros Hn Hm. apply block_quiet_bind; [apply quiet_state|intros ?]. apply block_quiet_bind; [apply quiet_classes|intros ?].
  via n.
  - destruct superclass; [by apply superclass_ok|]. eapply block_weaken; [by apply (full_bound ctx n n)|by apply methods_ok].
  - apply block_quiet_bind; [apply quiet_state|intros ?]. apply block_quiet, quiet_classes.
Qed.
Lemma class_ok name superclass methods : Forall (λ m, body_ok (fun_body m)) methods →
  stmt_ok true (generateStmtClassDeclaration generateStmt name superclass methods).
Proof.
  intros Hm fin s n HI Hf Hn.
  run by (apply (makeConstant_post ctx); [done|intros q Hq; discriminate]). intros i s1 [V1 Hi].
  run by (apply (declareVariable_post ctx name fin), V1). intros ? s2 R2.
  assert (alters fin s [] (declared name (-1) s) fin s2) as R.
  { eapply alters_like; [exact (alters_trans _ _ _ [] _ _ _ [] _ _ _ (evolves_alters _ _ _ _ _ _ V1) R2)|].
    intros Hcl. unfold declared. rewrite (e_scope _ _ _ _ _ _ V1).
    pose proof (e_locals _ _ _ _ _ _ V1 (alters_clean _ _ _ _ _ _ _ R2 Hcl)).
    destruct (0 <? _); [apply Forall2_app; [done|reflexivity]|done]. }
  run by (apply (emits_op_byte ctx), R2). intros ? s3 V3.
  pose proof (alters_evolves _ _ _ _ _ _ _ _ _ _ R V3) as R3. simpl in R3.
  assert (clean s3 → const_for fin s3 (STRING_VAL name) i) as Hi3.
  { intros Hcl. eapply const_for_le; [apply V1| |apply Hi].
    - eapply le_trans; [apply R2|apply V3].
    - eapply alters_clean; [exact R2|]. by eapply evolves_clean. }
  run by (apply (define_end name (-1) fin s n [encode OP_CLASS; u8 i] fin s3 i HI R3)).
  - intros Hcl. destruct (Hi3 Hcl) as [Hr Hc]. rewrite u8_small by done. apply flow_op; try done; simpl; try lia.
    eapply const_string. by split.
  - intros Hcl _. by apply Hi3.
  - intros ? s4 (f4 & D4 & news & R4 & _ & N4 & Z4 & F4).
    pose proof (full_alters _ _ _ _ _ _ _ HI Hf R4 N4) as Hf4.
    eapply post_mono; [apply (stmt_block false _ (λ n Hn, class_body_ok n name superclass methods Hn Hm)); [apply R4|exact Hf4|lia]|].
    cbv beta. intros ? s5 H5. by eapply stmt_post_trans.
Qed.
End Kinds.
End Stmts.
