(* ===== verification/CompilerSpec.v ===== *)
(** * The compiler emits code that can be run

    For every tree of the right shape, if the compiler records no error, the
    byte code of the script and of every function in it can be run: the stack
    of the frame never underflows, operands refer to constants, locals and
    upvalues that exist, and jumps go to instructions ([Verify]). *)
From Stdlib Require Import String Ascii.
From S2P Require Import Scanner StackSpec.
From S2P Require Export CompilerStmts.
Open Scope Z_scope.

Section Spec.
Context `{U : Uninit} `{TG : Target} `{HO : Host} `{FM : FreshMemory}.
Variable ctx : objptr.
Abbreviation Inv := (Inv ctx).
Abbreviation block := (CompilerBlocks.block ctx).
Abbreviation bound := (bound ctx).
Abbreviation in_full := (in_full ctx).
Abbreviation quiet := (quiet ctx).
Abbreviation value_of := (value_of ctx).
Abbreviation update_of := (update_of ctx).
Abbreviation stmt_ok := (stmt_ok ctx).

(** ** The other statements *)
Lemma quiet_begin line : quiet (begin_stmt line).
Proof.
  apply quiet_bind; [|intros ?; apply quiet_bind; [|intros ?]].
  - intros fin s HI. eapply post_mono; [apply (modify_chunk_post ctx _ (code_at s 0) [] fin s HI)|]; cbv beta.
    + intros g Hg. assert (code_at s 0 = fcode g) as -> by (unfold code_at; by rewrite Hg). rewrite app_nil_r.
      unfold note_line. destruct (list.last _); [destruct (_ =? _)|]; done.
    + intros _ q Hq. by apply list.not_elem_of_nil in Hq.
    + intros ? s' [V _]. apply evolves_changed. by rewrite app_nil_r.
  - intros fin s HI. apply post_modify. intros c Hc. pose proof (same_fns_refl ctx fin s HI) as Hv.
    apply (evolves_comp ctx fin s _ 0 _ c); try done. apply (comp_step_mild ctx fin s _ 0 _ c []); try done.
    by rewrite app_nil_r.
  - intros fin s HI. apply post_modify. intros c Hc. pose proof (same_fns_refl ctx fin s HI) as Hv.
    apply (evolves_comp ctx fin s _ 0 _ c); try done. apply (comp_step_mild ctx fin s _ 0 _ c []); try done.
    + by rewrite app_nil_r.
    + intros H. exact (I_panic _ _ _ HI _ _ Hc H).
Qed.

Section Kinds.
Variable generateExpr : Expr → CM ().
Variable generateStmt : ObjStmt → CM ().
Abbreviation E_ok es := (value_of (generateExpr es)).
Abbreviation body_ok ss := (Forall (λ s, stmt_ok true (generateStmt s)) ss).
Abbreviation plain_ok ss := (Forall (λ s, stmt_ok false (generateStmt s)) ss).

Lemma expr_in n es : E_ok es → block (in_full n) (generateExpr es) n (S n).
Proof. intros H. apply (value_in _ _ n); [done|by apply full_bound|done]. Qed.
Lemma plain_in n ss : plain_ok ss → (1 ≤ n)%nat → block (in_full n) (generate generateStmt ss) n n.
Proof. intros H Hn. apply block_stmt; [by apply stmts_ok|apply implies_refl|done]. Qed.

Lemma poke_ok location offset assignment n : E_ok location → (offset ≠ [] → E_ok offset) → E_ok assignment →
  block (in_full n) (generateStmtPoke generateExpr location offset assignment) n n.
Proof.
  intros Hl Ho Ha. via (S n); [by apply expr_in|].
  via (S (S n)); [apply (value_in _ _ n); [done|by apply full_bound|lia]|]. via (S (S n)); [|op].
  destruct offset; [apply block_ret|].
  via (S (S (S n))); [apply (value_in _ _ n); [by apply Ho|by apply full_bound|lia]|op].
Qed.
Lemma for_ok initializer condition loopExpression body n : (1 ≤ n)%nat → body_ok initializer →
  (condition ≠ [] → E_ok condition) → (loopExpression ≠ [] → E_ok loopExpression) → plain_ok body →
  block (in_full n) (generateStmtFor generateExpr generateStmt initializer condition loopExpression body) n n.
Proof.
  intros Hn Hi Hc Hl Hb fin s HI Hf.
  run by (by apply (beginScope_post ctx)). intros ? s1 O1. pose proof (opened_full _ _ _ _ _ O1 Hf) as Hf1.
  run by (apply (stmts_ok ctx _ _ _ Hi fin s1 n); [apply O1|done|done]). intros ? s2 (f2 & D2 & news & R2 & _ & N2 & _ & F2).
  pose proof (full_alters _ _ _ _ _ _ _ _ (o_inv _ _ _ _ O1) Hf1 R2 N2) as Hf2.
  run by (apply (block_for_loop ctx (in_full (n + length news)) generateExpr generateStmt (n + length news) ltac:(lia));
    [intros E; by apply expr_in, Hc|intros E; by apply expr_in, Hl|apply plain_in; [done|lia]|apply R2|exact Hf2]).
  intros ? s3 (f3 & D3 & V3 & F3).
  eapply post_mono; [apply (endScope_post ctx fin s s1 f3 s3 (D2 ++ D3) news n n O1 Hf); [exact (alters_evolves _ _ _ _ _ _ _ _ _ _ R2 V3)|done|]|];
    cbv beta.
  - intros Hcl. eapply flow_app; [|by apply F3]. eapply (evolves_flow ctx); [apply R2|exact V3|]. apply F2. by eapply evolves_clean.
  - intros ? s4 (D4 & V4 & F4). by exists f3, D4.
Qed.
Lemma yield_ok e n : (e ≠ [] → E_ok e) → block (in_full n) (generateStmtYield generateExpr e) n n.
Proof.
  intros He. apply block_quiet_bind; [apply quiet_compiler|intros c]. apply block_quiet_bind.
  { apply quiet_if; [apply quiet_fails, fails_errorAt|apply quiet_ret]. }
  intros ?. destruct e as [|x xs].
  - via (S n); [op|]. apply block_stop; [done|lia].
  - apply block_quiet_bind; [apply quiet_if; [apply quiet_fails, fails_errorAt|apply quiet_ret]|intros ?].
    via (S n); [by apply expr_in, He|]. apply block_stop; [done|lia].
Qed.
Lemma return_ok e n : (1 ≤ n)%nat → (e ≠ [] → E_ok e) → block (in_full n) (generateStmtReturn generateExpr e) n n.
Proof.
  intros Hn He. apply block_quiet_bind; [apply quiet_compiler|intros c]. apply block_quiet_bind.
  { apply quiet_if; [apply quiet_fails, fails_errorAt|apply quiet_ret]. }
  intros ?. destruct e as [|x xs].
  - intros fin s HI _. eapply post_mono; [by apply emitReturn_post|]; cbv beta. intros ? s' (R & V & HR).
    exists fin. eexists. split; [exact V|]. intros _. eapply flow_app; [by apply HR|]. apply flow_stop; [done|lia].
  - apply block_quiet_bind; [apply quiet_if; [apply quiet_fails, fails_errorAt|apply quiet_ret]|intros ?].
    via (S n); [by apply expr_in, He|]. apply block_stop; [done|lia].
Qed.
Lemma field_decl_ok b d name type offset : (b ≤ d)%nat → E_ok type → E_ok offset →
  block (bound b) (generateStmtFieldDeclaration generateExpr name type offset) d (d + 3).
Proof.
  intros Hb Ht Ho. via (S d); [by apply Ht|]. via (S (S d)); [apply Ho; lia|].
  eapply block_depth; [by apply (block_constant ctx _ (STRING_VAL name))|done|lia].
Qed.
End Kinds.

(** ** All trees *)
Definition elt_good (e : ObjExpr) : Prop := wf_elt e = true →
  (operand e = true → value_of (generateExprElt e)) ∧ (postfix e = true → update_of (generateExprElt e)) ∧
  match e with OBJ_EXPR_PAIR a b => value_of (generateExpr a) ∧ value_of (generateExpr b) | _ => True end.
Definition stmt_good (s : ObjStmt) : Prop := wf_stmt s = true →
  (is_field s = true → field_ok ctx generateStmt s) ∧ (no_field s = true → stmt_ok true (generateStmt s)) ∧
  (plain s = true → stmt_ok false (generateStmt s)).

Lemma chain_ok es : Forall elt_good es → expr_of wf_elt es = true → value_of (generateExpr es).
Proof.
  intros HF [Hchain Hwf]%andb_true_iff. destruct es as [|e es]; [done|].
  apply andb_true_iff in Hchain as [He Hes], Hwf as [We Wes]. apply list.Forall_cons in HF as [He' HF].
  intros b d Hb. via (S d); [by apply He'|]. clear e He We He'.
  induction es as [|e es IH]; [apply block_ret|]. apply andb_true_iff in Hes as [He Hes], Wes as [We Wes].
  apply list.Forall_cons in HF as [He' HF]. via (S d); [by apply He'|by apply IH].
Qed.
Lemma opt_ok es : Forall elt_good es → opt_of wf_elt es = true → es ≠ [] → value_of (generateExpr es).
Proof. intros HF H Hne. apply chain_ok; [done|]. by destruct es. Qed.
Lemma all_ok args : Forall elt_good (concat args) → forallb (expr_of wf_elt) args = true →
  Forall (λ a, value_of (generateExpr a)) args.
Proof.
  induction args as [|a args IH]; [done|]. simpl. intros [H1 H2]%Forall_app [W1 W2]%andb_true_iff.
  constructor; [by apply chain_ok|by apply IH].
Qed.
Lemma call_args_ok call : Forall elt_good (concat (default [] call)) → call_of wf_elt call = true →
  ∀ args, call = Some args → few args = true ∧ Forall (λ a, value_of (generateExpr a)) args.
Proof. intros HF H args ->. simpl in *. apply andb_true_iff in H as [H1 H2]. split; [done|by apply all_ok]. Qed.
Lemma item_list_ok items : Forall elt_good (concat items) → forallb (item_of wf_elt) items = true →
  Forall (item_ok ctx generateExpr) items.
Proof.
  induction items as [|es items IH]; [done|]. simpl. intros [H1 H2]%Forall_app [W1 W2]%andb_true_iff.
  constructor; [|by apply IH]. destruct es as [|[] es]; try (by apply chain_ok).
  apply list.Forall_cons in H1 as [He _]. apply andb_true_iff in W1 as [We _]. by apply He.
Qed.
Lemma bodies_ok ss : Forall stmt_good ss → body_of wf_stmt ss = true → Forall (λ s, stmt_ok true (generateStmt s)) ss.
Proof.
  induction 1 as [|s ss Hs _ IH]; [done|]. intros [[H1 H2]%andb_true_iff H]%andb_true_iff.
  constructor; [by apply Hs|by apply IH].
Qed.
Lemma plains_ok ss : Forall stmt_good ss → plain_of wf_stmt ss = true → Forall (λ s, stmt_ok false (generateStmt s)) ss.
Proof.
  induction 1 as [|s ss Hs _ IH]; [done|]. intros [[H1 H2]%andb_true_iff H]%andb_true_iff.
  constructor; [by apply Hs|by apply IH].
Qed.
Lemma aliases_ok (aliases : list (strptr * Expr)) : Forall elt_good (concat (map snd aliases)) →
  forallb (λ a, expr_of wf_elt a.2) aliases = true → Forall (λ a, value_of (generateExpr a.2)) aliases.
Proof.
  induction aliases as [|a aliases IH]; [done|]. simpl. intros [H1 H2]%Forall_app [W1 W2]%andb_true_iff.
  constructor; [by apply chain_ok|by apply IH].
Qed.
Lemma fun_good d : Forall stmt_good (fun_body d) → fun_of wf_stmt d = true →
  Forall (λ s, stmt_ok true (generateStmt s)) (fun_body d).
Proof. destruct d. apply bodies_ok. Qed.
Lemma funs_good ds : Forall stmt_good (concat (map fun_body ds)) → forallb (fun_of wf_stmt) ds = true →
  Forall (λ d, Forall (λ s, stmt_ok true (generateStmt s)) (fun_body d)) ds.
Proof.
  induction ds as [|d ds IH]; [done|]. simpl. intros [H1 H2]%Forall_app [W1 W2]%andb_true_iff.
  constructor; [by apply fun_good|by apply IH].
Qed.

(** Take the parts of a tree, and what is known of them. *)
Ltac parts := repeat match goal with
  | H : Forall _ (_ ++ _) |- _ => apply Forall_app in H as [? ?]
  | H : _ && _ = true |- _ => apply andb_true_iff in H as [? ?]
  end.
Lemma elt_step e : Forall elt_good (elts_in e) → Forall stmt_good (stmts_in e) → elt_good e.
Proof.
  intros HE HS W.
  assert ((operand e = true → value_of (generate_expr_kind generateExpr generateStmt e)) ∧
    (postfix e = true → update_of (generate_expr_kind generateExpr generateStmt e)) ∧
    match e with OBJ_EXPR_PAIR a b => value_of (generateExpr a) ∧ value_of (generateExpr b) | _ => True end) as H;
    [|by destruct e].
  destruct e; simpl in HE, HS, W |- *; unfold args_of in W; parts; (split; [try done|split; [try done|]]); try done.
  - intros _ b d _. apply block_number.
  - apply operation_ok; [by apply chain_ok|by apply opt_ok].
  - rewrite negb_true_iff. apply operation_ok; [by apply chain_ok|by apply opt_ok].
  - intros _. by apply chain_ok.
  - intros _. by apply variable_ok, opt_ok.
  - intros _. apply literal_ok.
  - intros _ b d _. exact (block_emitConstant ctx _ (ADDRESS_VAL address) d).
  - intros _ b d _. exact (block_emitConstant ctx _ (STRING_VAL string) d).
  - intros _. apply call_ok; [done|by apply all_ok].
  - intros _. apply collection_ok; [by apply item_list_ok|]. intros ->. by apply chain_ok.
  - split; by apply chain_ok.
  - intros _. apply element_ok; [by apply chain_ok|by apply opt_ok].
  - intros _. apply builtin_ok.
  - intros _. apply dot_ok; [by apply opt_ok|by apply opt_ok|by apply call_args_ok].
  - intros _. by apply super_ok, call_args_ok.
  - intros _. apply type_ok.
  - intros _. apply struct_ok. apply list.Forall_forall. intros s Hs. rewrite list.Forall_forall in HS.
    apply list_elem_of_In in Hs as Hs'. rewrite forallb_forall in W. specialize (W s Hs'). parts.
    by apply HS.
  - intros _. by apply indexed_ok, chain_ok.
Qed.

Lemma stmt_step line stmt : Forall elt_good (stmt_elts stmt) → Forall stmt_good (stmt_stmts stmt) → stmt_good (mkStmt line stmt).
Proof.
  intros HE HS W.
  assert (∀ decl, stmt_ok decl (generate_stmt_kind generateExpr generateStmt stmt) → stmt_ok decl (generateStmt (mkStmt line stmt))) as Hline.
  { intros decl H fin s n HI Hf Hn. apply post_bind. intros u s1 E.
    pose proof (quiet_begin line fin s HI u s1 E) as V. eapply post_mono; [apply (H fin s1 n); [apply V|exact (full_evolves ctx _ _ _ _ _ _ V Hf)|done]|].
    cbv beta. intros ? s2 (f2 & D & news & R & Hd & N & Z & F). rewrite (e_scope _ _ _ _ _ _ V) in N, Z.
    exists f2, D, news. split; [|done].
    eapply alters_like; [exact (alters_trans _ _ _ [] _ _ _ _ _ _ _ (evolves_alters _ _ _ _ _ _ V) R)|].
    intros Hcl. apply Forall2_app; [|reflexivity]. apply V. by eapply alters_clean. }
  assert ((∀ n, (1 ≤ n)%nat → block (in_full n) (generate_stmt_kind generateExpr generateStmt stmt) n n) →
    plain (mkStmt line stmt) = true → (is_field (mkStmt line stmt) = true → field_ok ctx generateStmt (mkStmt line stmt)) ∧
    (no_field (mkStmt line stmt) = true → stmt_ok true (generateStmt (mkStmt line stmt))) ∧
    (plain (mkStmt line stmt) = true → stmt_ok false (generateStmt (mkStmt line stmt)))) as Hblock.
  { intros H Hp. split; [by destruct stmt|]. split; intros _; by apply Hline, stmt_block. }
  assert (stmt_ok true (generate_stmt_kind generateExpr generateStmt stmt) →
    is_field (mkStmt line stmt) = false → plain (mkStmt line stmt) = false →
    (is_field (mkStmt line stmt) = true → field_ok ctx generateStmt (mkStmt line stmt)) ∧
    (no_field (mkStmt line stmt) = true → stmt_ok true (generateStmt (mkStmt line stmt))) ∧
    (plain (mkStmt line stmt) = true → stmt_ok false (generateStmt (mkStmt line stmt)))) as Hdecl.
  { intros H -> ->. split; [done|]. split; [|done]. intros _. by apply Hline. }
  destruct stmt; simpl in HE, HS, W; parts; try (apply Hblock; [|done]; intros n Hn); try (apply Hdecl; [|done|done]).
  - via (S n); [by apply expr_in, chain_ok|op].
  - via (S n); [by apply expr_in, chain_ok|op].
  - via (S n); [by apply expr_in, chain_ok|apply block_stop; [done|lia]].
  - apply poke_ok; [by apply chain_ok|by apply opt_ok|by apply chain_ok].
  - apply var_ok; by apply opt_ok.
  - apply place_ok; [by apply chain_ok|by apply aliases_ok].
  - apply scope_block; [by apply stmts_ok, bodies_ok|apply implies_refl|done].
  - apply block_if; [done|by apply expr_in, chain_ok| |]; (apply plain_in; [by apply plains_ok|done]).
  - by apply fun_ok, fun_good.
  - apply block_while; [done|by apply expr_in, chain_ok|]. apply plain_in; [by apply plains_ok|done].
  - by apply yield_ok, opt_ok.
  - by apply return_ok, opt_ok.
  - apply for_ok; [done|by apply bodies_ok|by apply opt_ok|by apply opt_ok|by apply plains_ok].
  - by apply class_ok, funs_good.
  - split; [|done]. intros _ b d Hb. apply block_quiet_bind; [apply quiet_begin|intros ?].
    apply field_decl_ok; [done|by apply chain_ok|by apply chain_ok].
Qed.

Lemma program_ok ss : wf_program ss = true → stmt_ok true (generate generateStmt ss).
Proof.
  intros H. apply stmts_ok, bodies_ok; [|done]. apply list.Forall_forall. intros s _.
  apply (stmt_ind elt_good stmt_good elt_step stmt_step).
Qed.

(** ** Scripts *)

(** The part of [compile] that makes the function of a script. *)
Definition compile_script (ss : Stmts) : CM (Compiler * objptr) :=
  initCompiler TYPE_SCRIPT None ctx ;;
  generate generateStmt ss ;;
  endCompiler.
Definition no_compiler (v : VM) : CState := mkCState v [] [].
Lemma no_compiler_inv v : is_routine v ctx → Inv ∅ (no_compiler v).
Proof.
  assert (∀ i, compilers (no_compiler v) !! i = None) as Hn by (intros i; apply lookup_nil).
  intros Hr. split; try done; try (intros i c Hi; by rewrite Hn in Hi); [apply list.NoDup_nil; done|]. intros _.
  split; [intros i c Hi; by rewrite Hn in Hi| |done]. intros i q. unfold consts_at, fn_at. rewrite Hn.
  by intros ?%list.not_elem_of_nil.
Qed.

(** The state after the script, before its compiler goes; [q] is what is done
    before the last instructions. *)
Lemma script_body {A} (q : CM A) ss v s f : quiet q → is_routine v ctx → wf_program ss = true → pushed ctx (no_compiler v) TYPE_SCRIPT f s →
  post (generate generateStmt ss ;; q ;; emitReturn) s (λ _ s', ∃ fin, Inv fin s' ∧ le ∅ s fin s' ∧
    (clean s' → verified (info_at fin s') (code_at s' 0) 1)).
Proof.
  intros Hq Hr Hss HP. pose proof (no_compiler_inv v Hr) as HI. destruct (pushed_full _ _ _ _ _ HP) as [Hf Hs].
  run by (apply (program_ok ss Hss ∅ s 1%nat); [by eapply pushed_inv|done|done]).
  intros ? s1 (fin & D & news & R & _ & _ & Z & F). rewrite (Z Hs) in *. simpl in F.
  run by (apply (Hq fin s1), R). intros ? s2 V.
  eapply post_mono; [by apply emitReturn_post, V|]; cbv beta. intros ? s3 (R2 & V2 & HR). exists fin.
  split; [apply V2|]. split; [eapply le_trans; [apply R|]; eapply le_trans; [apply V|apply V2]|]. intros Hcl.
  rewrite (e_code _ _ _ _ _ _ V2), (e_code _ _ _ _ _ _ V), app_nil_r, (r_code _ _ _ _ _ _ _ R), (pushed_code _ _ _ _ _ HP), app_assoc.
  apply (verified_stop _ _ _ _ 2); [done|lia|]. eapply flow_app; [|by apply HR].
  eapply (evolves_flow ctx); [apply V|exact V2|]. eapply (evolves_flow ctx); [apply R|exact V|].
  apply F. eapply evolves_clean; [exact V|]. by eapply evolves_clean.
Qed.
End Spec.

(** A set of functions that are verified, and make closures only of one
    another. *)
Definition verified_set (fin : gset objptr) (v : VM) : Prop := ∀ p, p ∈ fin → finished fin v p.

Section Scripts.
Context `{U : Uninit} `{TG : Target} `{HO : Host} `{FM : FreshMemory}.

(** The compiler of the script, and what is finished with it. *)
Lemma script_set ctx v s1 p s3 fin : pushed ctx (no_compiler v) TYPE_SCRIPT p s1 → Inv ctx fin s3 → le ∅ s1 fin s3 →
  (clean s3 → verified (info_at fin s3) (code_at s3 0) 1) →
  ∃ c3, compilers s3 = [c3] ∧ cfunction c3 = p ∧ (errors c3 = [] → ∃ fin', p ∈ fin' ∧ verified_set fin' (cvm s3)).
Proof.
  intros HP HI3 L F.
  destruct (pu_comp _ _ _ _ _ HP) as (c1 & Hc1 & _ & C2 & _). destruct (pu_fn _ _ _ _ _ HP) as (g1 & G1 & G2 & _ & _ & G5).
  pose proof (l_length _ _ _ _ L) as HL. rewrite Hc1 in HL.
  destruct (compilers s3) as [|c3 [|]] eqn:Hcs; simpl in HL; try lia. exists c3. split; [done|].
  destruct (l_comp _ _ _ _ L 0%nat c1) as (c3' & Hc3 & HE); [by rewrite Hc1|]. rewrite Hcs in Hc3. injection Hc3 as <-.
  split; [by rewrite (le_function _ _ _ _ HE)|]. intros Hcl.
  assert (clean s3) as Hcl3 by (unfold clean; rewrite Hcs; by constructor). rewrite <-C2 in G1.
  destruct (le_fn _ _ _ _ HE g1 G1) as (g & Hg & Ha & _).
  destruct (I_fn _ _ _ HI3 0%nat c3) as (g0 & Hg0 & Hup); [by rewrite Hcs|]. rewrite (le_function _ _ _ _ HE) in *.
  assert (g0 = g) as -> by congruence. pose proof (I_clean _ _ _ HI3 Hcl3) as CI.
  assert (fn_at s3 0 = Some g) as Hat by (unfold fn_at; rewrite Hcs; simpl; by rewrite (le_function _ _ _ _ HE)).
  exists (fin ∪ {[cfunction c1]}). split; [set_solver|]. intros q [Hq| ->%elem_of_singleton]%elem_of_union.
  - eapply (finished_mono fin (cvm s3)); [set_solver|done|done|by apply CI].
  - exists g. split; [done|]. split.
    + specialize (F Hcl3). revert F. unfold info_at, consts_at, ups_at, code_at. rewrite Hat, Hcs. simpl. rewrite <-Hup, Ha, G5.
      intros F. eapply safe_le; [|exact F]. split; simpl; [exists []; by rewrite app_nil_r|done|].
      apply fin_ups_mono; [set_solver|done].
    + intros q Hq. enough (q ∈ fin) by set_solver. apply (C_consts _ _ CI 0). unfold consts_at. by rewrite Hat.
Qed.

(** C4. The compiler emits code that can be run.  For every program of the
    right shape, if the compiler records no error, the script and all functions
    in it form a set of functions that are verified: from the depth of its
    arguments, no instruction of the function underflows the stack of the
    frame, names a constant, a local, an upvalue or a type that is not there or
    jumps anywhere but to an instruction, the end of the code is not reached,
    and closures are made of functions of the set only. *)
Theorem script_verified ctx v ss c f s' :
  is_routine v ctx → wf_program ss = true →
  compile_script ctx ss (no_compiler v) = Some ((c, f), s') → errors c = [] →
  ∃ fin, f ∈ fin ∧ verified_set fin (cvm s').
Proof.
  intros Hr Hss E Hc. pose proof (no_compiler_inv ctx v Hr) as HI. unfold compile_script in E.
  enough (post (compile_script ctx ss) (no_compiler v) (λ x s', errors x.1 = [] → ∃ fin, x.2 ∈ fin ∧ verified_set fin (cvm s')))
    as H by exact (H _ _ E Hc).
  run by (by apply (initCompiler_post ctx TYPE_SCRIPT None ∅)). intros ? s1 (p & HP).
  pose proof (script_body ctx (mret ()) ss v s1 p (quiet_ret ctx ()) Hr Hss HP) as Hb. apply post_bind. intros ? s2 E2.
  apply post_bind. intros u s3 E3. destruct (Hb u s3) as (fin & HI3 & L & F). { by rewrite (st_bind_run _ _ _ _ _ E2). }
  destruct (script_set ctx v s1 p s3 fin HP HI3 L F) as (c3 & Hcs & Hp & Hset).
  apply post_bind. intros ? s4 [= <- <-]. rewrite Hcs. apply post_bind. intros ? s4 [= _ <-]. apply post_ret. simpl. by rewrite Hp.
Qed.
End Scripts.

(** ** An example: a function that makes a closure of its argument, a variable
    and a loop *)
#[local] Existing Instance Noise.
#[local] Existing Instance LP64.
#[local] Existing Instance PlainHost.
Definition ZeroMemory : FreshMemory := {| fresh_bytes n := replicate n 0; fresh_bytes_length n := length_replicate n 0 |}.
#[local] Existing Instance ZeroMemory.

Definition with_name (s : string) (v : VM) : strptr * VM := default (1%positive, v) (intern (codes s) v).
Definition name_f : strptr := (with_name "f" (demo_vm true 2)).1.
Definition name_a : strptr := (with_name "a" (with_name "f" (demo_vm true 2)).2).1.
Definition name_g : strptr := (with_name "g" (with_name "a" (with_name "f" (demo_vm true 2)).2).2).1.
Definition named_vm : VM := (with_name "g" (with_name "a" (with_name "f" (demo_vm true 2)).2).2).2.
Definition variable_ (n : strptr) : ObjExpr := OBJ_EXPR_NAMEDVARIABLE n [].
Definition demo_program : Stmts := [
  mkStmt 1 (OBJ_STMT_FUNDECLARATION (mkFun name_f [[variable_ name_a]] [
    mkStmt 2 (OBJ_STMT_FUNDECLARATION (mkFun name_g [] [mkStmt 2 (OBJ_STMT_RETURN [variable_ name_a])]));
    mkStmt 3 (OBJ_STMT_RETURN [variable_ name_g])]));
  mkStmt 4 (OBJ_STMT_VARDECLARATION name_a [] [variable_ name_f; OBJ_EXPR_CALL [[OBJ_EXPR_LITERAL EXPR_LITERAL_TRUE]]]);
  mkStmt 5 (OBJ_STMT_WHILE [variable_ name_a] [mkStmt 5 (OBJ_STMT_PRINT [OBJ_EXPR_LITERAL EXPR_LITERAL_NIL])])].
(** What is compared of the result. *)
Definition outcome (x : (Compiler * objptr) * CState) : list strptr * objptr := (errors x.1.1, x.1.2).
Lemma demo_outcome : outcome <$> compile_script 1 demo_program (no_compiler named_vm) = Some ([], 5%positive).
Proof. vm_compute. reflexivity. Qed.

Lemma named_routine : is_routine named_vm 1.
Proof. exists (demo_routine true 2). vm_compute. reflexivity. Qed.
Lemma demo_program_wf : wf_program demo_program = true.
Proof. vm_compute. reflexivity. Qed.

Lemma script_verified_witness : ∃ c s' fin, compile_script 1 demo_program (no_compiler named_vm) = Some ((c, 5%positive), s') ∧
  5%positive ∈ fin ∧ verified_set fin (cvm s').
Proof.
  pose proof demo_outcome as H. apply fmap_Some in H as ([[c f] s'] & E & H). injection H as He Hf.
  symmetry in He, Hf. cbn in He, Hf. subst f.
  destruct (script_verified 1 named_vm demo_program c 5 s' named_routine demo_program_wf E He) as (fin & Hf & H).
  exists c, s', fin. split; [exact E|]. split; [exact Hf|exact H].
Defined.
