(* ===== verification/Parser.v ===== *)
(** * The parser

    [cyarg/parser.c] and the constructors of [cyarg/ast.c]: from the tokens of
    the scanner to the syntax tree.  Expressions are parsed by precedence, with
    a table that says for each token how it starts an expression and how it
    goes on with one; statements and declarations by recursive descent.  An
    error is recorded, and the parser goes on; until it has skipped to a
    statement it keeps further errors to itself.

    A node is an object: it has an address, which is pushed on the stack of the
    routine while the node is at work, and the elements that its [nextExpr]
    leads to.  A null node is [None]; writing through it is undefined.  The
    parser calls itself without a bound, and one of its loops may not end:
    [Timeout] is the outcome of a run that has no fuel left. *)
From Stdlib Require Import String Ascii SpecFloat.
From S2P Require Export Compiler.
From S2P Require Import Scanner.
Open Scope Z_scope.

(** ** Outcomes *)
Inductive outcome (A : Type) := Done (a : A) | Undef | Timeout.
Arguments Done {A}.
Arguments Undef {A}.
Arguments Timeout {A}.

(** Commands that may run out of fuel. *)
Definition run_ (S A : Type) : Type := S → outcome (A * S).
#[export] Instance run_ret S : MRet (run_ S) := λ A a s, Done (a, s).
#[export] Instance run_bind S : MBind (run_ S) :=
  λ A B f c s, match c s with Done (a, s') => f a s' | Undef => Undef | Timeout => Timeout end.
Definition undefined {S A} : run_ S A := λ _, Undef.
Definition timeout {S A} : run_ S A := λ _, Timeout.
Definition get_ {S} : run_ S S := λ s, Done (s, s).
Definition modify_ {S} (f : S → S) : run_ S () := λ s, Done ((), f s).
(** A command on a part of the state, which does not run out of fuel. *)
Definition within {S T A} (part : S → T) (put : T → S → S) (c : st T A) : run_ S A :=
  λ s, match c (part s) with Some (a, t) => Done (a, put t s) | None => Undef end.

(** ** Precedences *)
Definition Precedence := nat.
Definition PREC_NONE : Precedence := 0%nat.
Definition PREC_ASSIGNMENT : Precedence := 1%nat.
Definition PREC_OR : Precedence := 2%nat.
Definition PREC_AND : Precedence := 3%nat.
Definition PREC_EQUALITY : Precedence := 4%nat.
Definition PREC_COMPARISON : Precedence := 5%nat.
Definition PREC_TERM : Precedence := 6%nat.
Definition PREC_FACTOR : Precedence := 7%nat.
Definition PREC_UNARY : Precedence := 8%nat.
Definition PREC_CALL : Precedence := 9%nat.
Definition PREC_DEREF : Precedence := 10%nat.
Definition PREC_PRIMARY : Precedence := 11%nat.

(** ** State *)
Record ObjParser := mkParser {
  pvm : VM;
  scanner : ObjScanner;
  current_token : Token;
  previous : Token;
  panic : bool;
  pcontext : objptr;
  prevExpr : option objptr;
  perrors : list strptr
}.
Definition set_pvm (v : VM) (p : ObjParser) : ObjParser :=
  mkParser v (scanner p) (current_token p) (previous p) (panic p) (pcontext p) (prevExpr p) (perrors p).
Definition set_scanner (sc : ObjScanner) (p : ObjParser) : ObjParser :=
  mkParser (pvm p) sc (current_token p) (previous p) (panic p) (pcontext p) (prevExpr p) (perrors p).
Definition set_current_token (t : Token) (p : ObjParser) : ObjParser :=
  mkParser (pvm p) (scanner p) t (previous p) (panic p) (pcontext p) (prevExpr p) (perrors p).
Definition set_previous (t : Token) (p : ObjParser) : ObjParser :=
  mkParser (pvm p) (scanner p) (current_token p) t (panic p) (pcontext p) (prevExpr p) (perrors p).
Definition set_panicking (b : bool) (p : ObjParser) : ObjParser :=
  mkParser (pvm p) (scanner p) (current_token p) (previous p) b (pcontext p) (prevExpr p) (perrors p).
Definition set_prevExpr (n : option objptr) (p : ObjParser) : ObjParser :=
  mkParser (pvm p) (scanner p) (current_token p) (previous p) (panic p) (pcontext p) n (perrors p).
Definition set_perrors (l : list strptr) (p : ObjParser) : ObjParser :=
  mkParser (pvm p) (scanner p) (current_token p) (previous p) (panic p) (pcontext p) (prevExpr p) l.

Abbreviation PA := (run_ ObjParser).

(** Memory of a new object is zero. *)
Definition no_token : Token := mkToken TOKEN_LEFT_PAREN (inr []) 0 0.
Definition newParser (context : objptr) (sc : ObjScanner) (v : VM) : ObjParser :=
  mkParser v sc no_token no_token false context None [].

Definition vmp {A} (c : VMM A) : PA A := within pvm set_pvm c.
Definition scan : PA Token := within scanner set_scanner scanToken.

Section Parse.
Context `{U : Uninit} `{TG : Target} `{HO : Host} `{FM : FreshMemory}.

(** ** Nodes *)
Definition Node : Type := objptr * Expr.
(** What a pointer to a node leads to. *)
Definition tree (n : option Node) : Expr := match n with Some (_, e) => e | None => [] end.

(** [ALLOCATE_OBJ] *)
Definition allocate : PA objptr := vmp newYargType.
Definition pushWorkingNode (p : option objptr) : PA () := s ← get_; vmp (push (pcontext s) (IMPL_OBJ_VAL p)).
Definition popWorkingNode : PA () := s ← get_; vmp (pop (pcontext s)) ;; mret ().
Definition pushNode (n : option Node) : PA () := pushWorkingNode (fst <$> n).
Definition leaf (e : ObjExpr) : PA (option Node) := p ← allocate; mret (Some (p, [e])).

(** The characters of a token. *)
Definition token_text (source : list Z) (t : Token) : list Z :=
  match tstart t with
  | inl i => take (Z.to_nat (length_ t)) (drop i source)
  | inr message => take (Z.to_nat (length_ t)) message
  end.
Definition text_of (t : Token) : PA (list Z) := s ← get_; mret (token_text (source (scanner s)) t).
Definition previous_text : PA (list Z) := s ← get_; text_of (previous s).

Definition copyStringP (cs : list Z) : PA strptr := vmp (intern cs).

(** [newExprNamedVariable], [newExprDot] and [newExprSuper]: the node is on the
    stack while its name is made. *)
Definition new_named (name : list Z) : PA (objptr * strptr) :=
  p ← allocate;
  pushWorkingNode (Some p) ;;
  k ← copyStringP name;
  popWorkingNode ;;
  mret (p, k).

Definition pushNewStmt : PA () := p ← allocate; pushWorkingNode (Some p).
Definition pushNewStmtDeclaration (name : list Z) : PA strptr := pushNewStmt ;; copyStringP name.

(** ** Errors *)
Definition location_text (t : Token) (text : list Z) : list Z :=
  if bool_decide (type t = TOKEN_EOF) then codes " at end"
  else if bool_decide (type t = TOKEN_ERROR) then []
  else codes " at '" ++ cstr text ++ codes "'".
Definition location_length (t : Token) : nat :=
  if bool_decide (type t = TOKEN_EOF) then 7
  else if bool_decide (type t = TOKEN_ERROR) then 0
  else 6 + Z.to_nat (length_ t).
Definition message_length (t : Token) (report : list Z) : nat :=
  10 + 13 + location_length t + (length report + 2).
Definition message_text (t : Token) (text report : list Z) : list Z :=
  codes "[line " ++ decimal (tline t) ++ codes "] Error" ++ location_text t text ++ codes ": " ++ report.
(** The string is as long as the buffer, like those of the compiler. *)
Definition errorAt (t : Token) (report : list Z) : PA () :=
  s ← get_;
  if panic s then mret ()
  else
    modify_ (set_panicking true) ;;
    text ← text_of t;
    let n := message_length t report in
    k ← copyStringP (take n (written (message_text t text report) (n + 1)));
    s ← get_;
    modify_ (set_perrors (perrors s ++ [k])).
Definition error_ (message : string) : PA () := s ← get_; errorAt (previous s) (codes message).
Definition errorAtCurrent (message : list Z) : PA () := s ← get_; errorAt (current_token s) message.

(** ** Tokens *)
Definition current_type : PA TokenType := s ← get_; mret (type (current_token s)).
Definition previous_type : PA TokenType := s ← get_; mret (type (previous s)).
Definition check (ty : TokenType) : PA bool := t ← current_type; mret (bool_decide (t = ty)).

(** The loop of [advance]: tokens that are errors are reported and passed. *)
Fixpoint advance_loop (fuel : nat) : PA () :=
  match fuel with
  | O => timeout
  | S fuel' =>
      t ← scan;
      modify_ (set_current_token t) ;;
      if bool_decide (type t = TOKEN_ERROR) then
        errorAtCurrent (match tstart t with inr message => message | inl _ => [] end) ;;
        advance_loop fuel'
      else mret ()
  end.
(** Every token takes a character, so that the length of the source bounds the
    turns. *)
Definition advance : PA () :=
  modify_ (λ s, set_previous (current_token s) s) ;;
  s ← get_;
  advance_loop (S (length (source (scanner s)))).

Definition match_ (ty : TokenType) : PA bool :=
  c ← check ty; if (c : bool) then advance ;; mret true else mret false.
Definition consume (ty : TokenType) (message : string) : PA () :=
  c ← check ty; if (c : bool) then advance else errorAtCurrent (codes message).

Definition starts_statement (ty : TokenType) : bool :=
  match ty with
  | TOKEN_CLASS | TOKEN_FUN | TOKEN_VAR | TOKEN_FOR | TOKEN_IF | TOKEN_WHILE | TOKEN_PRINT | TOKEN_RETURN
  | TOKEN_LOAD => true
  | _ => false
  end.
Fixpoint synchronize_loop (fuel : nat) : PA () :=
  match fuel with
  | O => timeout
  | S fuel' =>
      t ← current_type;
      if bool_decide (t = TOKEN_EOF) then mret ()
      else
        p ← previous_type;
        if bool_decide (p = TOKEN_SEMICOLON) || starts_statement t then mret ()
        else advance ;; synchronize_loop fuel'
  end.
Definition synchronize : PA () :=
  modify_ (set_panicking false) ;;
  s ← get_;
  synchronize_loop (S (S (length (source (scanner s))))).

Definition is_type_token (ty : TokenType) : bool :=
  match ty with
  | TOKEN_MACHINE_FLOAT64 | TOKEN_INT8 | TOKEN_UINT8 | TOKEN_INT16 | TOKEN_UINT16 | TOKEN_INT32 | TOKEN_UINT32
  | TOKEN_INT64 | TOKEN_UINT64 | TOKEN_BOOL | TOKEN_TYPE_STRING | TOKEN_ANY | TOKEN_STRUCT | TOKEN_INT => true
  | _ => false
  end.
Definition checkTypeToken : PA bool := t ← current_type; mret (is_type_token t).

(** ** Numbers *)

(** The nearest [double] to a natural number, ties to even. *)
Definition to_double (n : Z) : Z :=
  if n <? 2 ^ 53 then n
  else
    let e := Z.log2 n - 52 in
    let q := Z.shiftr n e in
    let r := n - Z.shiftl q e in
    let half := 2 ^ (e - 1) in
    let up := (half <? r) || ((half =? r) && Z.odd q) in
    Z.shiftl (if up then q + 1 else q) e.

Definition digit_value (c : Z) : Z :=
  if between (ch "0") c (ch "9") then c - ch "0"
  else if between (ch "A") c (ch "F") then c - ch "A" + 10
  else if between (ch "a") c (ch "f") then c - ch "a" + 10
  else 0.

(** The loop of [strtoNum], from the last digit to the first, with [bits] for
    the radix [2 ^ bits]; [n] digits are to come before.  The power is a
    [double], infinite from [2 ^ 1024] on; the sum is one, and its conversion
    is undefined from [2 ^ 64] on. *)
Fixpoint strtoNum_loop (bits : Z) (reversed : list Z) (power val : Z) : option Z :=
  match reversed with
  | [] => Some val
  | c :: reversed' =>
      if 1024 <=? bits * power then None
      else
        let sum := to_double (to_double val + digit_value c * 2 ^ (bits * power)) in
        if 2 ^ 64 <=? sum then None else strtoNum_loop bits reversed' (power + 1) sum
  end.
Definition strtoNum (literal : list Z) (bits : Z) : option Z := strtoNum_loop bits (rev literal) 0 0.

Inductive NumberState :=
  | NUMBER_START | NUMBER_ZERO | NUMBER_MSB | NUMBER_DOT | NUMBER_DOT_AND_MSB | NUMBER_FRAC | NUMBER_E
  | NUMBER_EN | NUMBER_EXPONENT.
#[export] Instance NumberState_eq_dec : EqDecision NumberState.
Proof. solve_decision. Defined.

(** One character: the next state, and whether the most significant digit is
    here; or an error. *)
Definition number_step (state : NumberState) (c : Z) : (NumberState * bool) + string :=
  if c =? ch "0" then
    inl (match state with
         | NUMBER_START => NUMBER_ZERO
         | NUMBER_DOT | NUMBER_DOT_AND_MSB => NUMBER_FRAC
         | NUMBER_E | NUMBER_EN => NUMBER_EXPONENT
         | _ => state
         end, false)
  else if c =? ch "." then
    match state with
    | NUMBER_START | NUMBER_ZERO => inl (NUMBER_DOT, false)
    | NUMBER_MSB => inl (NUMBER_DOT_AND_MSB, false)
    | _ => inr "Only one decimal point allowed"%string
    end
  else if (c =? ch "e") || (c =? ch "E") then
    match state with
    | NUMBER_ZERO | NUMBER_MSB | NUMBER_DOT | NUMBER_DOT_AND_MSB | NUMBER_FRAC => inl (NUMBER_E, false)
    | _ => inr "Only one E|e allowed"%string
    end
  else if c =? ch "-" then
    match state with
    | NUMBER_E => inl (NUMBER_EN, false)
    | _ => inr "- only allowed after e or E"%string
    end
  else
    match state with
    | NUMBER_START | NUMBER_ZERO => inl (NUMBER_MSB, true)
    | NUMBER_DOT | NUMBER_DOT_AND_MSB => inl (NUMBER_FRAC, false)
    | NUMBER_E | NUMBER_EN => inl (NUMBER_EXPONENT, false)
    | _ => inl (state, false)
    end.
(** The whole text: the last state and the index of the most significant
    digit. *)
Fixpoint number_scan (cs : list Z) (i : nat) (state : NumberState) (msb : nat) : (NumberState * nat) + string :=
  match cs with
  | [] => inl (state, msb)
  | c :: cs' =>
      match number_step state c with
      | inl (state', here) => number_scan cs' (S i) state' (if here then i else msb)
      | inr message => inr message
      end
  end.

(** [strtod] reads the longest prefix that is a number, up to the terminator:
    the number, and how much it read. *)
Fixpoint strtod_prefix (n : nat) (text : list Z) : spec_float * nat :=
  match strtod (take n text) with
  | Some d => (d, n)
  | None => match n with O => (S754_zero false, O) | S n' => strtod_prefix n' text end
  end.

(** [INT_DIGITS_FOR_S], in a byte, made even in a byte. *)
Definition int_room (digits : Z) : nat :=
  let s := u8 (INT_DIGITS_FOR_S digits) in Z.to_nat (u8 (s + s mod 2)).
(** [newExprNumberInt], and what sets the number. *)
Definition newExprNumberInt (numberDecimalDigits : Z) (set_ : ptr → M ()) : PA (option Node) :=
  p ← allocate;
  let s := int_room numberDecimalDigits in
  i ← vmp (vm_ints (with_object (mkInt false false false false 0 s (replicate s 0)) (λ q, set_ q ;; get q)));
  mret (Some (p, [OBJ_EXPR_NUMBER (NUMBER_INT i)])).
Definition newExprNumberDouble (value : spec_float) : PA (option Node) := leaf (OBJ_EXPR_NUMBER (NUMBER_DOUBLE value)).

Definition number_error (message : string) : PA (option Node) := errorAtCurrent (codes message) ;; mret None.

(** [text] is what is left of the source from the number on. *)
Definition decimal_number (cs text : list Z) : PA (option Node) :=
  match number_scan cs 0 NUMBER_START 0 with
  | inr message => number_error message
  | inl (state, msb) =>
      match state with
      | NUMBER_ZERO | NUMBER_MSB =>
          newExprNumberInt (Z.of_nat (msb + length cs)) (int_set_s (drop msb cs))
      | NUMBER_DOT_AND_MSB | NUMBER_FRAC | NUMBER_EXPONENT =>
          let '(d, n) := strtod_prefix (length (cstr text)) (cstr text) in
          val ← newExprNumberDouble d;
          if (n =? length cs)%nat then mret val else number_error "misformed float literal"
      | _ => number_error "misformed number"
      end
  end.
Definition radix_number (cs : list Z) (bits : Z) : PA (option Node) :=
  match strtoNum cs bits with
  | None => undefined
  | Some value =>
      newExprNumberInt (if value <=? 255 then 3 else if value <=? 65535 then 5 else if value <=? 4294967295 then 10 else 20)
        (int_set_u value)
  end.
(** The letter behind a leading zero, and the bits of its radix; the decimal
    radix has a letter too. *)
Definition radix_prefix (cs : list Z) : option (option Z) :=
  if (2 <? length cs)%nat && (dg cs 0 =? ch "0") then
    let c := dg cs 1 in
    if (c =? ch "x") || (c =? ch "X") then Some (Some 4)
    else if (c =? ch "b") || (c =? ch "B") then Some (Some 1)
    else if (c =? ch "d") || (c =? ch "D") then Some None
    else None
  else None.
Definition number : PA (option Node) :=
  s ← get_;
  cs ← previous_text;
  let text := match tstart (previous s) with inl i => drop i (source (scanner s)) | inr message => message end in
  match radix_prefix cs with
  | Some (Some bits) => radix_number (drop 2 cs) bits
  | Some None => decimal_number (drop 2 cs) (drop 2 text)
  | None => decimal_number cs text
  end.

(** The value is cut to the width of a pointer. *)
Definition address : PA (option Node) :=
  cs ← previous_text;
  match strtoNum (drop 2 cs) 4 with
  | None => undefined
  | Some value => leaf (OBJ_EXPR_ADDRESS (value mod 2 ^ (8 * sizeof_uintptr)))
  end.

(** ** Tokens that stand for themselves *)
Definition reserved : PA (option Node) := error_ "Can't use reserved word as expression." ;; mret None.

Definition string_rule : PA (option Node) :=
  cs ← previous_text;
  p ← allocate;
  pushWorkingNode (Some p) ;;
  k ← vmp (with_pool (copyStringWithEscapes (take (length cs - 2) (drop 1 cs))));
  popWorkingNode ;;
  mret (Some (p, [OBJ_EXPR_STRING k])).

Definition literal_of (ty : TokenType) : option ExprLiteral :=
  match ty with
  | TOKEN_FALSE => Some EXPR_LITERAL_FALSE
  | TOKEN_NIL => Some EXPR_LITERAL_NIL
  | TOKEN_TRUE => Some EXPR_LITERAL_TRUE
  | _ => None
  end.
Definition literal : PA (option Node) :=
  t ← previous_type;
  match literal_of t with Some l => leaf (OBJ_EXPR_LITERAL l) | None => mret None end.

Definition expr_builtin (ty : TokenType) : option ExprBuiltin :=
  match ty with
  | TOKEN_PEEK => Some EXPR_BUILTIN_PEEK
  | TOKEN_READ_YARG_SOURCE => Some EXPR_BUILTIN_READ_YARG_SOURCE
  | TOKEN_VM_READ_XIP_FILE => Some EXPR_BUILTIN_READ_XIP_FILE
  | TOKEN_COMPILE => Some EXPR_BUILTIN_COMPILE
  | TOKEN_MAKE_ROUTINE => Some EXPR_BUILTIN_MAKE_ROUTINE
  | TOKEN_MAKE_CHANNEL => Some EXPR_BUILTIN_MAKE_CHANNEL
  | TOKEN_MAKE_SYNCGROUP => Some EXPR_BUILTIN_MAKE_SYNCGROUP
  | TOKEN_RESUME => Some EXPR_BUILTIN_RESUME
  | TOKEN_SEND => Some EXPR_BUILTIN_SEND
  | TOKEN_RECEIVE => Some EXPR_BUILTIN_RECEIVE
  | TOKEN_SHARE => Some EXPR_BUILTIN_SHARE
  | TOKEN_START => Some EXPR_BUILTIN_START
  | TOKEN_CPEEK => Some EXPR_BUILTIN_CPEEK
  | TOKEN_LEN => Some EXPR_BUILTIN_LEN
  | TOKEN_PIN => Some EXPR_BUILTIN_PIN
  | TOKEN_NEW => Some EXPR_BUILTIN_NEW
  | TOKEN_INT8 => Some EXPR_BUILTIN_INT8
  | TOKEN_UINT8 => Some EXPR_BUILTIN_UINT8
  | TOKEN_INT16 => Some EXPR_BUILTIN_INT16
  | TOKEN_UINT16 => Some EXPR_BUILTIN_UINT16
  | TOKEN_INT32 => Some EXPR_BUILTIN_INT32
  | TOKEN_UINT32 => Some EXPR_BUILTIN_UINT32
  | TOKEN_INT64 => Some EXPR_BUILTIN_INT64
  | TOKEN_UINT64 => Some EXPR_BUILTIN_UINT64
  | TOKEN_TS_SET => Some EXPR_BUILTIN_TS_SET
  | TOKEN_TS_READ => Some EXPR_BUILTIN_TS_READ
  | TOKEN_TS_WRITE => Some EXPR_BUILTIN_TS_WRITE
  | TOKEN_TS_INTERRUPT => Some EXPR_BUILTIN_TS_INTERRUPT
  | TOKEN_TS_SYNC => Some EXPR_BUILTIN_TS_SYNC
  | TOKEN_INT => Some EXPR_BUILTIN_INT
  | TOKEN_MACHINE_FLOAT64 => Some EXPR_BUILTIN_MFLOAT64
  | TOKEN_TYPE_STRING => Some EXPR_BUILTIN_STRING
  | TOKEN_LOAD => Some EXPR_BUILTIN_LOAD
  | _ => None
  end.
Definition builtin : PA (option Node) :=
  t ← previous_type;
  match expr_builtin t with Some b => leaf (OBJ_EXPR_BUILTIN b) | None => mret None end.

(** The types that are one word; [any] is the literal [nil]. *)
Definition type_word (ty : TokenType) : option ObjExpr :=
  match ty with
  | TOKEN_ANY => Some (OBJ_EXPR_LITERAL EXPR_LITERAL_NIL)
  | TOKEN_BOOL => Some (OBJ_EXPR_TYPE EXPR_TYPE_LITERAL_BOOL)
  | TOKEN_INT8 => Some (OBJ_EXPR_TYPE EXPR_TYPE_LITERAL_INT8)
  | TOKEN_UINT8 => Some (OBJ_EXPR_TYPE EXPR_TYPE_LITERAL_UINT8)
  | TOKEN_INT16 => Some (OBJ_EXPR_TYPE EXPR_TYPE_LITERAL_INT16)
  | TOKEN_UINT16 => Some (OBJ_EXPR_TYPE EXPR_TYPE_LITERAL_UINT16)
  | TOKEN_INT32 => Some (OBJ_EXPR_TYPE EXPR_TYPE_LITERAL_INT32)
  | TOKEN_UINT32 => Some (OBJ_EXPR_TYPE EXPR_TYPE_LITERAL_UINT32)
  | TOKEN_INT64 => Some (OBJ_EXPR_TYPE EXPR_TYPE_LITERAL_INT64)
  | TOKEN_UINT64 => Some (OBJ_EXPR_TYPE EXPR_TYPE_LITERAL_UINT64)
  | TOKEN_MACHINE_FLOAT64 => Some (OBJ_EXPR_TYPE EXPR_TYPE_LITERAL_MFLOAT64)
  | TOKEN_INT => Some (OBJ_EXPR_TYPE EXPR_TYPE_LITERAL_INT)
  | TOKEN_TYPE_STRING => Some (OBJ_EXPR_TYPE EXPR_TYPE_LITERAL_STRING)
  | _ => None
  end.

(** ** Operators *)
Definition unary_op (ty : TokenType) : option ExprOp :=
  match ty with TOKEN_BANG => Some EXPR_OP_NOT | TOKEN_MINUS => Some EXPR_OP_NEGATE | _ => None end.
Definition binary_op (ty : TokenType) : option ExprOp :=
  match ty with
  | TOKEN_EQUAL_EQUAL => Some EXPR_OP_EQUAL
  | TOKEN_GREATER => Some EXPR_OP_GREATER
  | TOKEN_RIGHT_SHIFT => Some EXPR_OP_RIGHT_SHIFT
  | TOKEN_LESS => Some EXPR_OP_LESS
  | TOKEN_LEFT_SHIFT => Some EXPR_OP_LEFT_SHIFT
  | TOKEN_PLUS => Some EXPR_OP_ADD
  | TOKEN_MINUS => Some EXPR_OP_SUBTRACT
  | TOKEN_STAR => Some EXPR_OP_MULTIPLY
  | TOKEN_SLASH => Some EXPR_OP_DIVIDE
  | TOKEN_BAR => Some EXPR_OP_BIT_OR
  | TOKEN_AMP => Some EXPR_OP_BIT_AND
  | TOKEN_CARET => Some EXPR_OP_BIT_XOR
  | TOKEN_PERCENT => Some EXPR_OP_MODULO
  | TOKEN_BANG_EQUAL => Some EXPR_OP_NOT_EQUAL
  | TOKEN_GREATER_EQUAL => Some EXPR_OP_GREATER_EQUAL
  | TOKEN_LESS_EQUAL => Some EXPR_OP_LESS_EQUAL
  | _ => None
  end.

(** ** The table of rules *)
Inductive AstParseFn :=
  | grouping_ | call_ | collectioninit_ | deref_ | dot_ | unary_ | binary_ | unaryPlace_ | address_
  | variable_ | string_ | number_ | and__ | type_ | reserved_ | builtin_ | literal_ | or__ | super__ | this__.
Record AstParseRule := mkRule { prefix : option AstParseFn; infix : option AstParseFn; precedence : Precedence }.
Definition rules (ty : TokenType) : AstParseRule :=
  match ty with
  | TOKEN_LEFT_PAREN => mkRule (Some grouping_) (Some call_) PREC_CALL
  | TOKEN_LEFT_SQUARE_BRACKET => mkRule (Some collectioninit_) (Some deref_) PREC_DEREF
  | TOKEN_DOT => mkRule None (Some dot_) PREC_CALL
  | TOKEN_MINUS => mkRule (Some unary_) (Some binary_) PREC_TERM
  | TOKEN_PLUS => mkRule None (Some binary_) PREC_TERM
  | TOKEN_SLASH => mkRule None (Some binary_) PREC_FACTOR
  | TOKEN_STAR => mkRule (Some unaryPlace_) (Some binary_) PREC_FACTOR
  | TOKEN_BAR | TOKEN_AMP | TOKEN_CARET | TOKEN_PERCENT => mkRule None (Some binary_) PREC_TERM
  | TOKEN_BANG => mkRule (Some unary_) None PREC_NONE
  | TOKEN_BANG_EQUAL | TOKEN_EQUAL_EQUAL => mkRule None (Some binary_) PREC_EQUALITY
  | TOKEN_GREATER | TOKEN_GREATER_EQUAL | TOKEN_LESS | TOKEN_LESS_EQUAL => mkRule None (Some binary_) PREC_COMPARISON
  | TOKEN_RIGHT_SHIFT | TOKEN_LEFT_SHIFT => mkRule None (Some binary_) PREC_FACTOR
  | TOKEN_ADDRESS => mkRule (Some address_) None PREC_NONE
  | TOKEN_IDENTIFIER => mkRule (Some variable_) None PREC_NONE
  | TOKEN_STRING => mkRule (Some string_) None PREC_NONE
  | TOKEN_NUMBER => mkRule (Some number_) None PREC_NONE
  | TOKEN_AND => mkRule None (Some and__) PREC_AND
  | TOKEN_OR => mkRule None (Some or__) PREC_OR
  | TOKEN_ANY | TOKEN_BOOL | TOKEN_INT8 | TOKEN_INT16 | TOKEN_INT32 | TOKEN_INT64 | TOKEN_MACHINE_FLOAT64
  | TOKEN_TYPE_STRING | TOKEN_STRUCT | TOKEN_UINT8 | TOKEN_UINT16 | TOKEN_UINT32 | TOKEN_UINT64 | TOKEN_INT =>
      mkRule (Some type_) None PREC_NONE
  | TOKEN_BREAK | TOKEN_CONST | TOKEN_CONTINUE | TOKEN_DEFER => mkRule (Some reserved_) (Some reserved_) PREC_NONE
  | TOKEN_COMPILE | TOKEN_CPEEK | TOKEN_LEN | TOKEN_MAKE_CHANNEL | TOKEN_MAKE_ROUTINE | TOKEN_MAKE_SYNCGROUP
  | TOKEN_NEW | TOKEN_PEEK | TOKEN_PIN | TOKEN_READ_YARG_SOURCE | TOKEN_RECEIVE | TOKEN_RESUME | TOKEN_SEND
  | TOKEN_SHARE | TOKEN_START | TOKEN_VM_READ_XIP_FILE | TOKEN_TS_SET | TOKEN_TS_READ | TOKEN_TS_WRITE
  | TOKEN_TS_INTERRUPT | TOKEN_TS_SYNC | TOKEN_LOAD => mkRule (Some builtin_) None PREC_NONE
  | TOKEN_FALSE | TOKEN_NIL | TOKEN_TRUE => mkRule (Some literal_) None PREC_NONE
  | TOKEN_SUPER => mkRule (Some super__) None PREC_NONE
  | TOKEN_THIS => mkRule (Some this__) None PREC_NONE
  | _ => mkRule None None PREC_NONE
  end.

(** ** Expressions *)

(** What the parser calls again, and the fuel of its loops. *)
Section Recursion.
Variable parsePrecedence : Precedence → PA (option Node).
Variable typeExpression : PA (option Node).
Variable fuel : nat.

Definition expression : PA (option Node) := parsePrecedence PREC_ASSIGNMENT.

(** Items and commas, of which there should be at most 255. *)
Fixpoint comma_loop {A} (n : nat) (item : PA A) (message : string) (items : list A) : PA (list A) :=
  match n with
  | O => timeout
  | S n' =>
      x ← item;
      let items := items ++ [x] in
      (if (255 <? length items)%nat then error_ message else mret ()) ;;
      m ← match_ TOKEN_COMMA;
      if (m : bool) then comma_loop n' item message items else mret items
  end.

Definition expressionList : PA (list Expr) :=
  c ← check TOKEN_RIGHT_PAREN;
  items ← (if (c : bool) then mret []
           else comma_loop fuel (e ← expression; mret (tree e)) "Can't have more than 255 arguments." []);
  consume TOKEN_RIGHT_PAREN "Expect ')' aftger arguments." ;;
  mret items.

(** [if (canAssign && match(parser, TOKEN_EQUAL))] and the assignment *)
Definition assigned (canAssign : bool) : PA Expr :=
  if canAssign then
    m ← match_ TOKEN_EQUAL;
    if (m : bool) then e ← expression; mret (tree e) else mret []
  else mret [].

Definition namedVariable (name : Token) (canAssign : bool) : PA (option Node) :=
  cs ← text_of name;
  nameString ← copyStringP cs;
  pushWorkingNode (Some nameString) ;;
  '(p, k) ← new_named cs;
  assignment ← (if canAssign then
                  m ← match_ TOKEN_EQUAL;
                  if (m : bool) then pushWorkingNode (Some p) ;; e ← expression; popWorkingNode ;; mret (tree e)
                  else mret []
                else mret []);
  popWorkingNode ;;
  mret (Some (p, [OBJ_EXPR_NAMEDVARIABLE k assignment])).
Definition variable (canAssign : bool) : PA (option Node) := s ← get_; namedVariable (previous s) canAssign.

(** An item of a collection, and whether it is a pair. *)
Definition appendInitializer : PA (Expr * bool) :=
  key_or_item ← expression;
  m ← match_ TOKEN_COLON;
  if (m : bool) then
    pushNode key_or_item ;;
    value ← expression;
    pushNode value ;;
    allocate ;;
    popWorkingNode ;; popWorkingNode ;;
    mret ([OBJ_EXPR_PAIR (tree key_or_item) (tree value)], true)
  else mret (tree key_or_item, false).
Definition collectionInitializers : PA (list (Expr * bool)) :=
  c ← check TOKEN_RIGHT_SQUARE_BRACKET;
  if (c : bool) then mret []
  else comma_loop fuel appendInitializer "Can't have more than 255 array initialisers." [].
Definition collectioninit : PA (option Node) :=
  p ← allocate;
  pushWorkingNode (Some p) ;;
  items ← collectionInitializers;
  consume TOKEN_RIGHT_SQUARE_BRACKET "Expect ']' initialising map or array." ;;
  '(cardinality, _) ← vmp (newExprNumberFromCint (Z.of_nat (length items)));
  popWorkingNode ;;
  mret (Some (p, [OBJ_EXPR_COLLECTION_INITIALIZER (existsb snd items) (map fst items) [OBJ_EXPR_NUMBER cardinality]])).

(** [newExprCall] and its arguments, if there is a parenthesis. *)
Definition call_arguments : PA (option (list Expr)) :=
  m ← match_ TOKEN_LEFT_PAREN;
  if (m : bool) then allocate ;; args ← expressionList; mret (Some args) else mret None.
Definition super_ : PA (option Node) :=
  consume TOKEN_DOT "Expect '.' after 'super'." ;;
  consume TOKEN_IDENTIFIER "Expect superclass method name." ;;
  name ← previous_text;
  '(p, k) ← new_named name;
  pushWorkingNode (Some p) ;;
  call ← call_arguments;
  popWorkingNode ;;
  mret (Some (p, [OBJ_EXPR_SUPER k call])).
Definition dot (canAssign : bool) : PA (option Node) :=
  consume TOKEN_IDENTIFIER "Expect property name after '.'." ;;
  name ← previous_text;
  '(p, k) ← new_named name;
  pushWorkingNode (Some p) ;;
  m ← (if canAssign then match_ TOKEN_EQUAL else mret false);
  '(assignment, call) ← (if (m : bool) then e ← expression; mret (tree e, None)
                         else call ← call_arguments; mret ([], call));
  popWorkingNode ;;
  mret (Some (p, [OBJ_EXPR_DOT k [] assignment call])).
Definition deref (canAssign : bool) : PA (option Node) :=
  p ← allocate;
  pushWorkingNode (Some p) ;;
  element ← parsePrecedence PREC_ASSIGNMENT;
  consume TOKEN_RIGHT_SQUARE_BRACKET "Expect ] after expression." ;;
  assignment ← assigned canAssign;
  popWorkingNode ;;
  mret (Some (p, [OBJ_EXPR_COLLECTION_ELEMENT (tree element) assignment])).
Definition call : PA (option Node) :=
  p ← allocate;
  pushWorkingNode (Some p) ;;
  args ← expressionList;
  popWorkingNode ;;
  mret (Some (p, [OBJ_EXPR_CALL args])).

(** ** Types *)
Definition fieldStmt : PA ObjStmt :=
  c ← checkTypeToken;
  type ← (if (c : bool) then typeExpression else leaf (OBJ_EXPR_LITERAL EXPR_LITERAL_NIL));
  pushNode type ;;
  m ← match_ TOKEN_AT;
  offset ← (if (m : bool) then expression else leaf (OBJ_EXPR_LITERAL EXPR_LITERAL_NIL));
  pushNode offset ;;
  consume TOKEN_IDENTIFIER "Expect name of field." ;;
  s ← get_;
  cs ← previous_text;
  name ← pushNewStmtDeclaration cs;
  consume TOKEN_SEMICOLON "Expect ';' after field declaration." ;;
  popWorkingNode ;; popWorkingNode ;; popWorkingNode ;;
  mret (mkStmt (tline (previous s)) (OBJ_STMT_FIELDDECLARATION name (tree type) (tree offset))).
(** Nothing here stops at the end of the source, nor makes a field take a
    token. *)
Fixpoint field_loop (n : nat) (fields : Stmts) : PA Stmts :=
  match n with
  | O => timeout
  | S n' =>
      c ← check TOKEN_RIGHT_BRACE;
      if (c : bool) then mret fields else field ← fieldStmt; field_loop n' (fields ++ [field])
  end.
Definition structExpression : PA (option Node) :=
  consume TOKEN_LEFT_BRACE "Expect '{' to start struct type." ;;
  p ← allocate;
  pushWorkingNode (Some p) ;;
  fields ← field_loop fuel [];
  consume TOKEN_RIGHT_BRACE "Expect '}' after field declarations." ;;
  popWorkingNode ;;
  mret (Some (p, [OBJ_EXPR_TYPE_STRUCT fields])).

(** The node that the cursor gets as its next. *)
Definition consumeCollectionIndex (cursor : option Node) : PA (option Node) :=
  m ← match_ TOKEN_LEFT_SQUARE_BRACKET;
  if (m : bool) then
    p ← allocate;
    match cursor with
    | None => undefined
    | Some (q, e) =>
        c ← check TOKEN_RIGHT_SQUARE_BRACKET;
        indexing ← (if (c : bool) then mret None else parsePrecedence PREC_ASSIGNMENT);
        match indexing with
        | None => error_ "Collection type must have size or index type."
        | Some _ => mret ()
        end ;;
        consume TOKEN_RIGHT_SQUARE_BRACKET "Expect ']' after array type." ;;
        mret (Some (q, e ++ [OBJ_EXPR_TYPE_INDEXED_COLLECTION (tree indexing)]))
    end
  else mret cursor.

(** The node of the type word that was passed. *)
Definition type_node : PA (option Node) :=
  t ← previous_type;
  if bool_decide (t = TOKEN_STRUCT) then structExpression
  else match type_word t with Some e => leaf e | None => mret None end.
Definition type_rule : PA (option Node) :=
  c ← check TOKEN_LEFT_PAREN;
  if (c : bool) then builtin
  else
    expression ← type_node;
    pushNode expression ;;
    expression ← consumeCollectionIndex expression;
    popWorkingNode ;;
    mret expression.

(** ** Operators *)
Definition operation (p : objptr) (op : ExprOp) (rhs : option Node) (assignment : Expr) : option Node :=
  Some (p, [OBJ_EXPR_OPERATION op (tree rhs) assignment]).

(** An operator that is not in the table is not initialised. *)
Definition unary : PA (option Node) :=
  operatorType ← previous_type;
  rhs ← parsePrecedence PREC_UNARY;
  pushNode rhs ;;
  match unary_op operatorType with
  | None => undefined
  | Some op => p ← allocate; popWorkingNode ;; mret (operation p op rhs [])
  end.
Definition unaryPlace (canAssign : bool) : PA (option Node) :=
  operatorType ← previous_type;
  rhs ← parsePrecedence PREC_UNARY;
  pushNode rhs ;;
  if bool_decide (operatorType = TOKEN_STAR) then
    p ← allocate;
    popWorkingNode ;;
    pushWorkingNode (Some p) ;;
    assignment ← assigned canAssign;
    popWorkingNode ;;
    mret (operation p EXPR_OP_DEREF_PTR rhs assignment)
  else undefined.
Definition grouping : PA (option Node) :=
  expr ← expression;
  pushNode expr ;;
  consume TOKEN_RIGHT_PAREN "Expect ')' after expression." ;;
  p ← allocate;
  popWorkingNode ;;
  mret (Some (p, [OBJ_EXPR_GROUPING (tree expr)])).
Definition logical (precedence : Precedence) (op : ExprOp) : PA (option Node) :=
  rhs ← parsePrecedence precedence;
  pushNode rhs ;;
  p ← allocate;
  popWorkingNode ;;
  mret (operation p op rhs []).
Definition and_ : PA (option Node) := logical PREC_AND EXPR_OP_LOGICAL_AND.
Definition or_ : PA (option Node) := logical PREC_OR EXPR_OP_LOGICAL_OR.
(** The early return leaves the operand on the stack. *)
Definition binary : PA (option Node) :=
  operatorType ← previous_type;
  rhs ← parsePrecedence (S (precedence (rules operatorType)));
  pushNode rhs ;;
  match binary_op operatorType with
  | None => mret None
  | Some op => p ← allocate; popWorkingNode ;; mret (operation p op rhs [])
  end.

Definition parse_fn (f : AstParseFn) (canAssign : bool) : PA (option Node) :=
  match f with
  | grouping_ => grouping
  | call_ => call
  | collectioninit_ => collectioninit
  | deref_ => deref canAssign
  | dot_ => dot canAssign
  | unary_ => unary
  | binary_ => binary
  | unaryPlace_ => unaryPlace canAssign
  | address_ => address
  | variable_ => variable canAssign
  | string_ => string_rule
  | number_ => number
  | and__ => and_
  | type_ => type_rule
  | reserved_ => reserved
  | builtin_ => builtin
  | literal_ => literal
  | or__ => or_
  | super__ => super_
  | this__ => variable false
  end.

(** [cursor] points to the [nextExpr] of the node whose elements end with the
    first list; the second list is what that field leads to now.  A cursor of
    a null node is [None]. *)
Definition Cursor : Type := option (Expr * Expr).
Definition start_cursor (expr : option Node) : Cursor :=
  match expr with Some (_, e :: next) => Some ([e], next) | _ => None end.
Definition set_next (cursor : Cursor) (node : option Node) : option (Expr * Cursor) :=
  match cursor with
  | None => None
  | Some (before, _) =>
      match node with
      | Some (_, e :: next) => Some (before ++ e :: next, Some (before ++ [e], next))
      | _ => Some (before, None)
      end
  end.
(** The answer is the whole chain. *)
Fixpoint infix_loop (n : nat) (prec : Precedence) (canAssign : bool) (chain : Expr) (cursor : Cursor) : PA Expr :=
  match n with
  | O => timeout
  | S n' =>
      t ← current_type;
      if (prec <=? precedence (rules t))%nat then
        advance ;;
        t ← previous_type;
        match infix (rules t) with
        | None => undefined
        | Some f =>
            node ← parse_fn f canAssign;
            match set_next cursor node with
            | None => undefined
            | Some (chain, cursor) => modify_ (set_prevExpr (fst <$> node)) ;; infix_loop n' prec canAssign chain cursor
            end
        end
      else mret chain
  end.
Definition parse_precedence (prec : Precedence) : PA (option Node) :=
  advance ;;
  t ← previous_type;
  match prefix (rules t) with
  | None => error_ "Expect expression." ;; mret None
  | Some f =>
      let canAssign := (prec <=? PREC_ASSIGNMENT)%nat in
      expr ← parse_fn f canAssign;
      modify_ (set_prevExpr (fst <$> expr)) ;;
      pushNode expr ;;
      chain ← infix_loop fuel prec canAssign (tree expr) (start_cursor expr);
      m ← (if canAssign then match_ TOKEN_EQUAL else mret false);
      (if (m : bool) then error_ "Invalid assignment target." else mret ()) ;;
      popWorkingNode ;;
      modify_ (set_prevExpr None) ;;
      mret (match expr with Some (p, _) => Some (p, chain) | None => None end)
  end.

Definition type_expression : PA (option Node) :=
  c ← checkTypeToken;
  if (c : bool) then
    advance ;;
    expression ← type_node;
    match expression with
    | None => errorAtCurrent (codes "Invalid type in expression.") ;; mret None
    | Some _ =>
        pushNode expression ;;
        expression ← consumeCollectionIndex expression;
        popWorkingNode ;;
        mret expression
    end
  else mret None.

(** ** Statements *)
Variable statement : PA ObjStmt.
Variable declaration : PA ObjStmt.

Definition current_line : PA Z := s ← get_; mret (tline (current_token s)).
Definition previous_line : PA Z := s ← get_; mret (tline (previous s)).

Definition expressionStatement (kind : Expr → Stmt) (expectExpression : bool) (msg : string) : PA ObjStmt :=
  line ← current_line;
  pushNewStmt ;;
  m ← match_ TOKEN_SEMICOLON;
  e ← (if (m : bool) then
         (if expectExpression then error_ "Expression expected." else mret ()) ;; mret []
       else
         e ← expression;
         consume TOKEN_SEMICOLON msg ;; mret (tree e));
  popWorkingNode ;;
  mret (mkStmt line (kind e)).

Definition pokeStatement : PA ObjStmt :=
  line ← current_line;
  pushNewStmt ;;
  location ← expression;
  consume TOKEN_COMMA "Expect ',' after location." ;;
  assignment ← expression;
  c ← check TOKEN_COMMA;
  '(offset, assignment) ← (if (c : bool) then
      consume TOKEN_COMMA "Expect ',' after offset." ;;
      e ← expression; mret (tree assignment, tree e)
    else mret ([], tree assignment));
  consume TOKEN_SEMICOLON "Expect ';' after value." ;;
  popWorkingNode ;;
  mret (mkStmt line (OBJ_STMT_POKE (tree location) offset assignment)).

Definition varDeclaration : PA ObjStmt :=
  typeExpr ← type_expression;
  match typeExpr with Some _ => pushNode typeExpr | None => mret () end ;;
  consume TOKEN_IDENTIFIER "Expect variable name." ;;
  line ← previous_line;
  cs ← previous_text;
  name ← pushNewStmtDeclaration cs;
  m ← match_ TOKEN_EQUAL;
  initialiser ← (if (m : bool) then e ← expression; mret (tree e) else mret []);
  consume TOKEN_SEMICOLON "Expect ';' after variable declaration" ;;
  match typeExpr with Some _ => popWorkingNode | None => mret () end ;;
  popWorkingNode ;;
  mret (mkStmt line (OBJ_STMT_VARDECLARATION name (tree typeExpr) initialiser)).

(** [while (!check(TOKEN_RIGHT_BRACE) && !check(TOKEN_EOF))] *)
Fixpoint braces_loop {A} (n : nat) (item : PA A) (items : list A) : PA (list A) :=
  match n with
  | O => timeout
  | S n' =>
      t ← current_type;
      if bool_decide (t = TOKEN_RIGHT_BRACE) || bool_decide (t = TOKEN_EOF) then mret items
      else x ← item; braces_loop n' item (items ++ [x])
  end.
Definition block : PA Stmts :=
  statements ← braces_loop fuel declaration [];
  consume TOKEN_RIGHT_BRACE "Expect '}' after block." ;;
  mret statements.

Definition ifStatement : PA ObjStmt :=
  line ← previous_line;
  pushNewStmt ;;
  consume TOKEN_LEFT_PAREN "Expect '(' after 'if'." ;;
  test ← expression;
  consume TOKEN_RIGHT_PAREN "Expect ')' after condition." ;;
  ifStmt ← statement;
  m ← match_ TOKEN_ELSE;
  elseStmt ← (if (m : bool) then s ← statement; mret [s] else mret []);
  popWorkingNode ;;
  mret (mkStmt line (OBJ_STMT_IF (tree test) [ifStmt] elseStmt)).

Definition whileStatement : PA ObjStmt :=
  line ← previous_line;
  pushNewStmt ;;
  consume TOKEN_LEFT_PAREN "Expect '(' after 'while'." ;;
  test ← expression;
  consume TOKEN_RIGHT_PAREN "Expect ')' after condition." ;;
  loop ← statement;
  popWorkingNode ;;
  mret (mkStmt line (OBJ_STMT_WHILE (tree test) [loop])).

(** The parts between the parentheses of a loop. *)
Definition for_initializer : PA Stmts :=
  m ← match_ TOKEN_SEMICOLON;
  if (m : bool) then mret []
  else
    m ← match_ TOKEN_VAR;
    s ← (if (m : bool) then varDeclaration
         else expressionStatement OBJ_STMT_EXPRESSION true "Expect ';' after expression.");
    mret [s].
Definition for_clause (end_ : TokenType) (message : string) : PA Expr :=
  m ← match_ end_;
  if (m : bool) then mret [] else e ← expression; consume end_ message ;; mret (tree e).
Definition forStatement : PA ObjStmt :=
  line ← previous_line;
  pushNewStmt ;;
  consume TOKEN_LEFT_PAREN "Expect '(' after 'for'." ;;
  initializer ← for_initializer;
  condition ← for_clause TOKEN_SEMICOLON "Expect ';' after loop condition.";
  loopExpression ← for_clause TOKEN_RIGHT_PAREN "Expect ')' after for clauses.";
  body ← statement;
  popWorkingNode ;;
  mret (mkStmt line (OBJ_STMT_FOR initializer condition loopExpression [body])).

Definition blockStatement : PA ObjStmt :=
  line ← previous_line;
  pushNewStmt ;;
  statements ← block;
  popWorkingNode ;;
  mret (mkStmt line (OBJ_STMT_BLOCK statements)).

(** [if (match(...)) ... else if ...]: the first of the tokens that is the
    current one decides. *)
Fixpoint match_first {A} (cases : list (TokenType * PA A)) (otherwise : PA A) : PA A :=
  match cases with
  | [] => otherwise
  | (ty, c) :: cases' => m ← match_ ty; if (m : bool) then c else match_first cases' otherwise
  end.
Definition parse_statement : PA ObjStmt :=
  match_first [
    (TOKEN_PRINT, expressionStatement OBJ_STMT_PRINT true "Expect ';' after value.");
    (TOKEN_POKE, pokeStatement);
    (TOKEN_STMT_ERROR, expressionStatement OBJ_STMT_ERROR true "Expect ';' after error statement.");
    (TOKEN_FOR, forStatement);
    (TOKEN_IF, ifStatement);
    (TOKEN_YIELD, expressionStatement OBJ_STMT_YIELD false "Expect ';' after yield value.");
    (TOKEN_RETURN, expressionStatement OBJ_STMT_RETURN false "Expect ';' after return value.");
    (TOKEN_WHILE, whileStatement);
    (TOKEN_LEFT_BRACE, blockStatement)]
    (expressionStatement OBJ_STMT_EXPRESSION true "Expect ';' after expression.").

(** ** Declarations *)

(** Parameters are expressions of any kind. *)
Definition parameters_ : PA (list Expr) :=
  c ← check TOKEN_RIGHT_PAREN;
  if (c : bool) then mret []
  else comma_loop fuel (e ← expression; mret (tree e)) "Can't have more than 255 parameters." [].
Definition funDeclaration (msg : string) : PA (Z * FunDeclaration) :=
  consume TOKEN_IDENTIFIER msg ;;
  line ← previous_line;
  cs ← previous_text;
  name ← pushNewStmtDeclaration cs;
  consume TOKEN_LEFT_PAREN "Expect '(' after function name." ;;
  parameters ← parameters_;
  consume TOKEN_RIGHT_PAREN "Expect ')' after parameters." ;;
  consume TOKEN_LEFT_BRACE "Expect '{' before function body." ;;
  body ← block;
  popWorkingNode ;;
  mret (line, mkFun name parameters body).

Definition tokenIdentifiersEqual (a b : list Z) : bool := bool_decide (a = b).
(** The name of the superclass, if there is one. *)
Definition superclass_ (className : list Z) : PA (option strptr) :=
  m ← match_ TOKEN_LESS;
  if (m : bool) then
    consume TOKEN_IDENTIFIER "Expect superclass name." ;;
    superclass ← variable false;
    cs ← previous_text;
    (if tokenIdentifiersEqual className cs then error_ "A class can't inherit from itself." else mret ()) ;;
    mret (match tree superclass with OBJ_EXPR_NAMEDVARIABLE name _ :: _ => Some name | _ => None end)
  else mret None.
Definition classDeclaration : PA ObjStmt :=
  consume TOKEN_IDENTIFIER "Expect class name." ;;
  line ← previous_line;
  className ← previous_text;
  name ← pushNewStmtDeclaration className;
  superclass ← superclass_ className;
  consume TOKEN_LEFT_BRACE "Expect '{' before class body." ;;
  methods ← braces_loop fuel (funDeclaration "Expect method name.") [];
  consume TOKEN_RIGHT_BRACE "Expect '}' after class body." ;;
  popWorkingNode ;;
  mret (mkStmt line (OBJ_STMT_CLASSDECLARATION name superclass (map snd methods))).

(** [appendPlaceAlias] puts the alias on the stack while its name is made. *)
Definition placeAliasDeclaration : PA (strptr * Expr) :=
  location ← expression;
  pushNode location ;;
  consume TOKEN_IDENTIFIER "Expect place name." ;;
  cs ← previous_text;
  '(_, name) ← new_named cs;
  popWorkingNode ;;
  consume TOKEN_SEMICOLON "Expect ';' after place declaration." ;;
  mret (name, tree location).
Definition place_aliases : PA (list (strptr * Expr)) :=
  m ← match_ TOKEN_LEFT_BRACE;
  if (m : bool) then
    aliases ← braces_loop fuel placeAliasDeclaration [];
    consume TOKEN_RIGHT_BRACE "Expect '}' after place declarations." ;;
    mret aliases
  else alias ← placeAliasDeclaration; mret [alias].
Definition placeDeclaration : PA ObjStmt :=
  line ← previous_line;
  pushNewStmt ;;
  type ← expression;
  aliases ← place_aliases;
  popWorkingNode ;;
  mret (mkStmt line (OBJ_STMT_PLACEDECLARATION (tree type) aliases)).

Definition parse_declaration : PA ObjStmt :=
  stmt ← match_first [
      (TOKEN_CLASS, classDeclaration);
      (TOKEN_FUN, '(line, decl) ← funDeclaration "Expect function name."; mret (mkStmt line (OBJ_STMT_FUNDECLARATION decl)));
      (TOKEN_VAR, varDeclaration)]
    (c ← checkTypeToken;
     if (c : bool) then varDeclaration else match_first [(TOKEN_PLACE, placeDeclaration)] parse_statement);
  s ← get_;
  (if panic s then synchronize else mret ()) ;;
  mret stmt.

(** The loop of [parse]. *)
Fixpoint program_loop (n : nat) (statements : Stmts) : PA Stmts :=
  match n with
  | O => timeout
  | S n' =>
      m ← match_ TOKEN_EOF;
      if (m : bool) then mret statements else s ← declaration; program_loop n' (statements ++ [s])
  end.
End Recursion.

(** ** The recursion *)
Record Parsers := mkParsers {
  p_prec : Precedence → PA (option Node);
  p_type : PA (option Node);
  p_stmt : PA ObjStmt;
  p_decl : PA ObjStmt
}.
Definition next_parsers (fuel : nat) (P : Parsers) : Parsers :=
  mkParsers (parse_precedence (p_prec P) (p_type P) fuel) (type_expression (p_prec P) (p_type P) fuel)
    (parse_statement (p_prec P) (p_type P) fuel (p_stmt P) (p_decl P))
    (parse_declaration (p_prec P) (p_type P) fuel (p_stmt P) (p_decl P)).
Fixpoint parsers (n : nat) : Parsers :=
  match n with
  | O => mkParsers (λ _, timeout) timeout timeout timeout
  | S n' => next_parsers n' (parsers n')
  end.

(** The statements of the tree, and the errors as an array, or nil. *)
Definition parse (fuel : nat) : PA (Stmts * Value) :=
  advance ;;
  statements ← program_loop (p_decl (parsers fuel)) fuel [];
  s ← get_;
  errors ← vmp (duplicateAsValueArray (perrors s));
  mret (statements, errors).
End Parse.
