(* ===== verification/Compile.v ===== *)
(** * Compiling

    [compile] of [cyarg/compiler.c] and [compileBuiltin] of
    [cyarg/builtin.c]: from the source on the stack to a pair of errors and
    function.  The scanner, the tree and the parser are objects, and stay on
    the stack while they are in use; the state is that of the compiler, and the
    parser works on its machine. *)
From Stdlib Require Import String Ascii.
From S2P Require Import IntText Scanner.
From S2P Require Export Parser Builtins.
Open Scope Z_scope.

Section Compile.
Context `{U : Uninit} `{TG : Target} `{HO : Host} `{FM : FreshMemory}.

(** Commands of the machine and of the compiler, which need no fuel. *)
Definition gen {A} (c : CM A) : run_ CState A := Parser.within (λ s, s) (λ s _, s) c.
Definition vmr {A} (c : VMM A) : run_ CState A := gen (vmc c).
(** An object that is only on the stack. *)
Definition pushed_object (ctx : objptr) : VMM () := p ← newYargType; push ctx (IMPL_OBJ_VAL (Some p)).
(** [newParser] has its object on the stack while it is made. *)
Definition pushed_parser (ctx : objptr) : VMM () :=
  p ← newYargType;
  push ctx (IMPL_OBJ_VAL (Some p)) ;; pop ctx ;; push ctx (IMPL_OBJ_VAL (Some p)).
Definition run_parser (fuel : nat) (ctx : objptr) (source : list Z) : run_ CState (Stmts * Value) :=
  λ s, match parse fuel (newParser ctx (newScanner source) (cvm s)) with
       | Done (r, p) => Done (r, mkCState (pvm p) (compilers s) (classes s))
       | Undef => Undef
       | Timeout => Timeout
       end.

(** The errors of the parser, or those of the compiler, or the function. *)
Definition compile_result (parseErrors errors : Value) (function : objptr) : Value * Value :=
  if negb (IS_NIL parseErrors) then (parseErrors, NIL_VAL)
  else if negb (IS_NIL errors) then (errors, NIL_VAL)
  else (NIL_VAL, FUNCTION_VAL function).
Definition compile (fuel : nat) (ctx : objptr) : run_ CState Value :=
  source ← vmr (peek ctx 0);
  source ← vmr (k ← as_string source; chars_of k);
  vmr (pushed_object ctx) ;;
  vmr (pushed_object ctx) ;;
  vmr (pushed_parser ctx) ;;
  gen (initCompiler TYPE_SCRIPT None ctx) ;;
  '(statements, parseErrors) ← run_parser fuel ctx source;
  vmr (push ctx parseErrors) ;;
  gen (if IS_NIL parseErrors then generate generateStmt statements else mret ()) ;;
  c ← gen current;
  errors ← vmr (duplicateAsValueArray (errors c));
  vmr (push ctx errors) ;;
  '(_, function) ← gen endCompiler;
  vmr (push ctx (FUNCTION_VAL function)) ;;
  result ← vmr (allocValueStructPair (codes "errors") (codes "result"));
  vmr (push ctx result) ;;
  let '(e, f) := compile_result parseErrors errors function in
  vmr (with_heap (setStructField result 0 e)) ;;
  vmr (with_heap (setStructField result 1 f)) ;;
  vmr (popN ctx 7) ;;
  mret result.

(** The answer of the built-in function; [None] is [false]. *)
Definition refuse (ctx : objptr) (message : list Z) : run_ CState (option Value) := vmr (runtimeError ctx message) ;; mret None.
Definition as_function (v : Value) : VMM objptr :=
  match v with TYPED_VAL (Simple Function_) (Some p) => get_function p ;; mret p | _ => vm_fail end.
Definition compileBuiltin (fuel : nat) (ctx : objptr) (argCount : Z) : run_ CState (option Value) :=
  if negb (argCount =? 1) then refuse ctx (expected (codes "1 argument but got ") argCount)
  else
    source ← vmr (peek ctx 0);
    if negb (is_string source) then refuse ctx (codes "Argument to compile must be string.")
    else
      compileResult ← compile fuel ctx;
      compileError ← vmr (with_heap (structField compileResult 0));
      compileFunction ← vmr (with_heap (structField compileResult 1));
      (if IS_NIL compileError then
         f ← vmr (as_function compileFunction);
         closure ← vmr (newClosure f);
         vmr (with_heap (setStructField compileResult 1 (FUNCTION_VAL closure))) ;; mret ()
       else mret ()) ;;
      mret (Some compileResult).
End Compile.
