(* ===== verification/Pack.v ===== *)
(** * Packages: writing

    [cyarg/pack.c] with the layout of [pack_format.h]: a script and all the
    functions it makes closures of, as one file that can be run from where it
    lies.  The functions are numbered; their constants are pairs of a kind and
    an index or an offset.  A file is a list of the cells that memory is made of
    ([Packed]), because the bytes of a [double] are left open; the files in
    memory that [fileSet] and [fileExtend] grow are lists.  [None] is a failed
    assertion or undefined behaviour, and the answer [None] an error of
    [fwrite], which takes a record without bytes for one. *)
From Stdlib Require Import String Ascii.
From S2P Require Import Scanner.
From S2P Require Export Compiler.
Open Scope Z_scope.

(** ** Files in memory *)
Inductive PackType := PACK_CONST_TYPE_S | PACK_CONST_TYPE_I | PACK_CONST_TYPE_D | PACK_CONST_TYPE_F | PACK_CONST_TYPE_A.
#[export] Instance PackType_eq_dec : EqDecision PackType.
Proof. solve_decision. Defined.
Definition pack_types : list PackType :=
  [PACK_CONST_TYPE_S; PACK_CONST_TYPE_I; PACK_CONST_TYPE_D; PACK_CONST_TYPE_F; PACK_CONST_TYPE_A].
Definition type_code (ty : PackType) : Z := Z.of_nat (default 0%nat (fst <$> list_find (eq ty) pack_types)).

Record ConstItem := mkItem { ci_type : PackType; index_ : nat; offset_ : Z }.
Record FlatChunk := mkFlat { code_ : list Z; codeOffset_ : Z; items : list ConstItem }.
(** The chunk of an entry is written before it is read. *)
Record FlatFun := mkFlatFun { f_ : objptr; chunk_ : FlatChunk }.
Definition new_fun (f : objptr) : FlatFun := mkFlatFun f (mkFlat [] 0 []).

Record FlatFiles := mkFiles {
  linesFile_ : nat * list Z;          (* [n_], and the [extent_] words *)
  stringsFile_ : list strptr;
  totalStringLength_ : Z;
  doublesFile_ : list spec_float;
  intsFile_ : list BigSmallInt;
  totalIntsLength_ : Z;
  funsFile_ : list FlatFun;
  totalCodeLength_ : Z;
  addressesFile_ : list Z
}.
Definition set_lines (l : nat * list Z) (f : FlatFiles) : FlatFiles :=
  mkFiles l (stringsFile_ f) (totalStringLength_ f) (doublesFile_ f) (intsFile_ f) (totalIntsLength_ f) (funsFile_ f)
    (totalCodeLength_ f) (addressesFile_ f).
Definition set_strings (l : list strptr) (f : FlatFiles) : FlatFiles :=
  mkFiles (linesFile_ f) l (totalStringLength_ f) (doublesFile_ f) (intsFile_ f) (totalIntsLength_ f) (funsFile_ f)
    (totalCodeLength_ f) (addressesFile_ f).
Definition set_doubles (l : list spec_float) (f : FlatFiles) : FlatFiles :=
  mkFiles (linesFile_ f) (stringsFile_ f) (totalStringLength_ f) l (intsFile_ f) (totalIntsLength_ f) (funsFile_ f)
    (totalCodeLength_ f) (addressesFile_ f).
Definition set_ints (l : list BigSmallInt) (f : FlatFiles) : FlatFiles :=
  mkFiles (linesFile_ f) (stringsFile_ f) (totalStringLength_ f) (doublesFile_ f) l (totalIntsLength_ f) (funsFile_ f)
    (totalCodeLength_ f) (addressesFile_ f).
Definition set_funs (l : list FlatFun) (f : FlatFiles) : FlatFiles :=
  mkFiles (linesFile_ f) (stringsFile_ f) (totalStringLength_ f) (doublesFile_ f) (intsFile_ f) (totalIntsLength_ f) l
    (totalCodeLength_ f) (addressesFile_ f).
Definition set_totals (strings ints : Z) (f : FlatFiles) : FlatFiles :=
  mkFiles (linesFile_ f) (stringsFile_ f) strings (doublesFile_ f) (intsFile_ f) ints (funsFile_ f)
    (totalCodeLength_ f) (addressesFile_ f).
Definition set_totalCode (n : Z) (f : FlatFiles) : FlatFiles :=
  mkFiles (linesFile_ f) (stringsFile_ f) (totalStringLength_ f) (doublesFile_ f) (intsFile_ f) (totalIntsLength_ f)
    (funsFile_ f) n (addressesFile_ f).
Definition set_addresses (l : list Z) (f : FlatFiles) : FlatFiles :=
  mkFiles (linesFile_ f) (stringsFile_ f) (totalStringLength_ f) (doublesFile_ f) (intsFile_ f) (totalIntsLength_ f)
    (funsFile_ f) (totalCodeLength_ f) l.

(** Words that [vm_reallocate] adds. *)
Section Pack.
Context `{U : Uninit} `{TG : Target} `{HO : Host} `{FM : FreshMemory}.

Definition fresh_words (n : nat) : list Z :=
  (λ i, let b k := u8 (dg (fresh_bytes (4 * n)) (4 * i + k)) in b 0%nat + 256 * b 1%nat + 65536 * b 2%nat + 16777216 * b 3%nat)
    <$> seq 0 n.
(** [fileSet] of the file of lines *)
Definition fileSet (n : nat) (file : nat * list Z) : nat * list Z :=
  (file.1, take n file.2 ++ fresh_words (n - length file.2)).

(** ** Constants *)
Definition function_at (v : VM) (p : objptr) : option ObjFunction :=
  match vm_objects v !! p with Some (OBJ_FUNCTION f) => Some f | _ => None end.
Definition constants_of (fn : ObjFunction) : list Value := take (acount (constants (chunk fn))) (avalues (constants (chunk fn))).

(** The search for a string that is in the file. *)
Definition find_string (k : strptr) (l : list strptr) : option nat := fst <$> list_find (eq k) l.

(** One turn of the loop over the constants. *)
Definition flatten_constant (v : VM) (c : Value) (f : FlatFiles) : option (FlatFiles * ConstItem) :=
  match c with
  | DOUBLE_VAL d =>
      Some (set_doubles (doublesFile_ f ++ [d]) f, mkItem PACK_CONST_TYPE_D (length (doublesFile_ f)) 0)
  | TYPED_VAL (Simple Function_) (Some p) =>
      match function_at v p with
      | Some _ => Some (set_funs (funsFile_ f ++ [new_fun p]) f, mkItem PACK_CONST_TYPE_F (length (funsFile_ f)) 0)
      | None => None
      end
  | INT_VAL i => Some (set_ints (intsFile_ f ++ [i]) f, mkItem PACK_CONST_TYPE_I (length (intsFile_ f)) 0)
  | TYPED_VAL (Simple String_) (Some k) =>
      match find_string k (stringsFile_ f) with
      | Some sI => Some (f, mkItem PACK_CONST_TYPE_S sI 0)
      | None =>
          Some (set_strings (stringsFile_ f ++ [k]) f, mkItem PACK_CONST_TYPE_S (length (stringsFile_ f)) 0)
      end
  | ADDRESS_VAL p =>
      Some (set_addresses (addressesFile_ f ++ [p]) f, mkItem PACK_CONST_TYPE_A (length (addressesFile_ f)) 0)
  | _ => None
  end.
Fixpoint flatten_loop (v : VM) (cs : list Value) (f : FlatFiles) : option (FlatFiles * list ConstItem) :=
  match cs with
  | [] => Some (f, [])
  | c :: cs' =>
      '(f, item) ← flatten_constant v c f;
      '(f, rest) ← flatten_loop v cs' f;
      Some (f, item :: rest)
  end.
Definition set_chunk (i : nat) (c : FlatChunk) (f : FlatFiles) : FlatFiles :=
  set_funs (alter (λ x, mkFlatFun (f_ x) c) i (funsFile_ f)) f.

(** The functions among the constants get the next numbers, and are then
    flattened one after the other; the fuel bounds the nesting. *)
Fixpoint flattenConstants (fuel : nat) (v : VM) (funIndex : nat) (f : FlatFiles) : option FlatFiles :=
  match fuel with
  | O => None
  | S fuel' =>
      let startSubs := length (funsFile_ f) in
      x ← funsFile_ f !! funIndex;
      cf ← function_at v (f_ x);
      let codeOffset := totalCodeLength_ f in
      let f := set_totalCode (codeOffset + Z.of_nat (length (code (chunk cf)))) f in
      '(f, items) ← flatten_loop v (constants_of cf) f;
      let f := set_chunk funIndex (mkFlat (code (chunk cf)) codeOffset items) f in
      let endSubs := length (funsFile_ f) in
      (fix each (l : list nat) (f : FlatFiles) : option FlatFiles :=
         match l with [] => Some f | i :: l' => f ← flattenConstants fuel' v i f; each l' f end)
        (seq startSubs (endSubs - startSubs)) f
  end.

(** ** Offsets *)

(** The two inner loops: all items that refer to the entry. *)
Definition set_offset (ty : PackType) (i : nat) (off : Z) (x : FlatFun) : FlatFun :=
  let c := chunk_ x in
  mkFlatFun (f_ x) (mkFlat (code_ c) (codeOffset_ c)
    ((λ ci, if bool_decide (ci_type ci = ty) && (index_ ci =? i)%nat then mkItem ty i off else ci) <$> items c)).
(** The outer loop, over the lengths of the entries. *)
Fixpoint offsets_loop (ty : PackType) (lengths : list Z) (i : nat) (off : Z) (funs : list FlatFun) : list FlatFun * Z :=
  match lengths with
  | [] => (funs, off)
  | n :: lengths' => offsets_loop ty lengths' (S i) (off + n) (set_offset ty i off <$> funs)
  end.
Definition int_of (v : VM) (b : BigSmallInt) : option Int :=
  match b with SmallInt i => Some i | BigInt _ p => ints (vm_heap v) !! p end.
Definition int_length (i : Int) : Z := 4 + 2 * Z.of_nat (d_ i + d_ i mod 2).
Definition string_length (v : VM) (k : strptr) : Z := Z.of_nat (length (chars (vm_str v k))) + 1.
Definition calcStringAndIntOffsets (v : VM) (f : FlatFiles) : option FlatFiles :=
  let '(funs, sOffset) := offsets_loop PACK_CONST_TYPE_S (string_length v <$> stringsFile_ f) 0 0 (funsFile_ f) in
  objs ← mapM (int_of v) (intsFile_ f);
  let '(funs, iOffset) := offsets_loop PACK_CONST_TYPE_I (int_length <$> objs) 0 0 funs in
  Some (set_totals sOffset iOffset (set_funs funs f)).

(** ** Lines *)
Definition flatten_line (codeOffset : Z) (file : nat * list Z) (s : ChunkSource) : option (nat * list Z) :=
  let a := address s in
  let l := Z.to_nat (line s) in
  if (1 <=? l)%nat && (l <=? length file.2)%nat
  then Some (if (file.1 <? l)%nat then l else file.1, <[(l - 1)%nat := u32 (a + codeOffset)]> file.2)
  else None.
Definition flatten_lines (codeOffset : Z) : list ChunkSource → nat * list Z → option (nat * list Z) :=
  fix go ss file := match ss with [] => Some file | s :: ss' => file ← flatten_line codeOffset file s; go ss' file end.
(** One turn: room up to the last line, which is filled with ones. *)
Definition flatten_chunk_lines (v : VM) (x : FlatFun) (file : nat * list Z) : option (nat * list Z) :=
  cf ← function_at v (f_ x);
  match list.last (lines (chunk cf)) with
  | None => Some file
  | Some s =>
      let lastLine := Z.to_nat (line s) in
      let file :=
        if (file.1 <? lastLine)%nat
        then (lastLine, take file.1 (fileSet lastLine file).2 ++ replicate (lastLine - file.1) (2 ^ 32 - 1))
        else file in
      flatten_lines (codeOffset_ (chunk_ x)) (lines (chunk cf)) file
  end.
Fixpoint flattenLines (v : VM) (funs : list FlatFun) (file : nat * list Z) : option (nat * list Z) :=
  match funs with [] => Some file | x :: funs' => file ← flatten_chunk_lines v x file; flattenLines v funs' file end.

(** ** The file *)
Definition packageMagic : list Z := [121; 10; 114; 103; 255; 66].
Definition packageVersion : Z := 0x2605.
Definition le (n : nat) (x : Z) : list Cell := le_split n x.
Definition u16le (x : Z) : list Cell := le 2 x.

Definition pack_item (ci : ConstItem) : list Cell :=
  le 1 (type_code (ci_type ci)) ++
  le 3 (match ci_type ci with PACK_CONST_TYPE_S | PACK_CONST_TYPE_I => offset_ ci | _ => Z.of_nat (index_ ci) end).
(** The script has no arguments and no upvalues. *)
Definition pack_chunk (v : VM) (i : nat) (x : FlatFun) : option (list Cell) :=
  '(ar, up) ← (if (i =? 0)%nat then Some (0, 0)
               else fn ← function_at v (f_ x); Some (arity fn, Z.of_nat (upvalueCount fn)));
  let c := chunk_ x in
  Some (u16le (Z.of_nat (length (items c))) ++ u16le (Z.of_nat (length (code_ c))) ++ u16le ar ++ u16le up ++
    flat_map pack_item (items c)).
Fixpoint pack_chunks (v : VM) (i : nat) (funs : list FlatFun) : option (list Cell) :=
  match funs with
  | [] => Some []
  | x :: funs' => c ← pack_chunk v i x; cs ← pack_chunks v (S i) funs'; Some (c ++ cs)
  end.

(** The flags are the low bits of the first byte; the bits that have no name
    are those of the local object. *)
Definition b2z (b : bool) : Z := if b then 1 else 0.
Definition int_cells (o : Int) : list Cell :=
  let pad := fresh_bytes 2 in
  [Byte (b2z (neg_ o) + 2 * b2z (overflow_ o) + 4 * b2z (obj_ o) + 8 * b2z (literal_ o) + 16 * (dg pad 0 mod 16));
   Byte (dg pad 1 mod 256); Byte (Z.of_nat (d_ o)); Byte (Z.of_nat (m_ o))] ++
  flat_map (le_split 2) (take (m_ o) (h_ o)).
Definition pack_int (b : BigSmallInt) : M (list Cell) :=
  with_int b (λ i, with_local 254 (λ t,
    int_init_concrete 254 t ;;
    int_set_t i t ;;
    modify t (λ o, set_m_ (d_ o + d_ o mod 2) o) ;;
    o ← get t;
    mret (int_cells o))).
Fixpoint pack_ints (bs : list BigSmallInt) : M (list Cell) :=
  match bs with [] => mret [] | b :: bs' => c ← pack_int b; cs ← pack_ints bs'; mret (c ++ cs) end.
Definition bytes_cells (cs : list Z) : list Cell := (λ c, Byte (c mod 256)) <$> cs.
Definition pack_string (v : VM) (k : strptr) : list Cell := bytes_cells (chars (vm_str v k)) ++ [Byte 0].
Definition pack_name (name : list Z) : list Cell :=
  let cs := take 15 name in bytes_cells cs ++ replicate (16 - length cs) (Byte 0).
Definition pack_names (v : VM) (sourceFileName : list Z) (funs : list FlatFun) : option (list Cell) :=
  match funs with
  | [] => Some []
  | _ :: funs' =>
      names ← mapM (λ x, fn ← function_at v (f_ x); k ← fName fn; Some (chars (vm_str v k))) funs';
      Some (flat_map pack_name (sourceFileName :: names))
  end.

(** What is before the strings, which must be words. *)
Definition words_length (f : FlatFiles) : Z :=
  u16 (Z.of_nat (length (doublesFile_ f))) * 8 + u16 (Z.of_nat (length (addressesFile_ f))) * 8 +
    8 * Z.of_nat (length (funsFile_ f)) + foldr (λ x n, 4 * Z.of_nat (length (items (chunk_ x))) + n) 0 (funsFile_ f) + totalIntsLength_ f.
Definition body_length (f : FlatFiles) : Z :=
  let numLines := u16 (Z.of_nat (linesFile_ f).1) in
  words_length f + totalStringLength_ f + totalCodeLength_ f + 3 * numLines +
    (if 0 <? numLines then 16 * u16 (Z.of_nat (length (funsFile_ f))) else 0).
Definition pack_header (f : FlatFiles) : list Cell :=
  bytes_cells packageMagic ++ u16le packageVersion ++ u16le (Z.of_nat (length (funsFile_ f))) ++
  u16le (Z.of_nat (length (stringsFile_ f))) ++ u16le (Z.of_nat (length (doublesFile_ f))) ++
  u16le (Z.of_nat (length (intsFile_ f))) ++ u16le (Z.of_nat (linesFile_ f).1) ++
  u16le (Z.of_nat (length (addressesFile_ f))) ++ le 4 (body_length f).
(** The answer, and the cells that are written. *)
Definition pack (sourceFileName : list Z) (v : VM) (f : FlatFiles) : option (option (list Cell)) :=
  chunks ← pack_chunks v 0 (funsFile_ f);
  '(int_file, _) ← pack_ints (intsFile_ f) (ints (vm_heap v));
  names ← (if (0 <? (linesFile_ f).1)%nat then pack_names v sourceFileName (funsFile_ f) else Some []);
  if negb (words_length f mod 4 =? 0) then None
  else if existsb (λ x, (length (code_ (chunk_ x)) =? 0)%nat) (funsFile_ f) then Some None
  else
    Some (Some (pack_header f ++
      flat_map (λ d, frags (StoredDouble d) 8) (doublesFile_ f) ++
      flat_map (le_split 8) (addressesFile_ f) ++
      chunks ++ int_file ++ flat_map (pack_string v) (stringsFile_ f) ++
      flat_map (λ x, bytes_cells (code_ (chunk_ x))) (funsFile_ f) ++
      flat_map (le 3) (take (linesFile_ f).1 (linesFile_ f).2) ++ names)).

Definition packScript (fuel : nat) (sourceFileName : list Z) (scriptFn : objptr) (includeLines : bool) (v : VM) :
    option (option (list Cell)) :=
  let lines := if includeLines then fileSet 64 (0%nat, []) else (0%nat, []) in
  f ← flattenConstants fuel v 0 (mkFiles lines [] 0 [] [] 0 [new_fun scriptFn] 0 []);
  f ← calcStringAndIntOffsets v f;
  lines ← (if includeLines then flattenLines v (funsFile_ f) (linesFile_ f) else Some (linesFile_ f));
  pack sourceFileName v (set_lines lines f).
End Pack.
