(* ===== verification/Load.v ===== *)
(** * Packages: loading

    [cyarg/pack_load.c] and [loadBuiltin] of [cyarg/builtin.c]: a package in
    memory becomes functions.  The code of a function is not copied by the
    program, which runs it from the package; here a function has the bytes.  All
    reads are checked: outside the package they are undefined. *)
From Stdlib Require Import String Ascii.
From S2P Require Import Scanner.
From S2P Require Export Pack Compile.
Open Scope Z_scope.

(** ** Reading *)
Definition cell_bytes (cs : list Cell) : option (list Z) := mapM (λ c, match c with Byte b => Some b | Frag _ _ => None end) cs.
Definition slice (b : list Cell) (i n : nat) : option (list Cell) :=
  if (i + n <=? length b)%nat then Some (take n (drop i b)) else None.
Definition read_le (n : nat) (b : list Cell) (i : nat) : option Z := cs ← slice b i n; le_combine cs.
(** The characters up to the terminator. *)
Fixpoint cell_string (cs : list Cell) : option (list Z) :=
  match cs with
  | Byte c :: cs' => if c =? 0 then Some [] else r ← cell_string cs'; Some (c :: r)
  | _ => None
  end.

Record PackageFileHeader := mkHeader {
  magic_ : list Z; version_ : Z; numChunks_ : nat; numStrings_ : nat; numDoubles_ : nat; numInts_ : nat;
  numLines_ : nat; numAddresses_ : nat; bodyLength_ : Z
}.
Definition read_header (b : list Cell) : option PackageFileHeader :=
  m ← slice b 0 6; m ← cell_bytes m;
  v ← read_le 2 b 6; c ← read_le 2 b 8; s ← read_le 2 b 10; d ← read_le 2 b 12; i ← read_le 2 b 14;
  l ← read_le 2 b 16; a ← read_le 2 b 18; n ← read_le 4 b 20;
  Some (mkHeader m v (Z.to_nat c) (Z.to_nat s) (Z.to_nat d) (Z.to_nat i) (Z.to_nat l) (Z.to_nat a) n).

(** A chunk, and where it lies. *)
Record PackedChunk := mkPacked { pc_at : nat; numConsts_ : nat; codeLength_ : nat; arity_ : Z; numUpvalues_ : nat }.
Definition read_chunk (b : list Cell) (next : nat) : option PackedChunk :=
  k ← read_le 2 b next; c ← read_le 2 b (next + 2); a ← read_le 2 b (next + 4); u ← read_le 2 b (next + 6);
  Some (mkPacked next (Z.to_nat k) (Z.to_nat c) a (Z.to_nat u)).
Fixpoint read_chunks (n : nat) (b : list Cell) (next : nat) : option (list PackedChunk * nat) :=
  match n with
  | O => Some ([], next)
  | S n' =>
      c ← read_chunk b next;
      '(cs, next) ← read_chunks n' b (next + (8 + 4 * numConsts_ c));
      Some (c :: cs, next)
  end.
Fixpoint skip_ints (n : nat) (b : list Cell) (next : nat) : option nat :=
  match n with
  | O => Some next
  | S n' => m ← read_le 1 b (next + 3); skip_ints n' b (next + (4 + 2 * Z.to_nat m))
  end.
Fixpoint skip_strings (n : nat) (b : list Cell) (next : nat) : option nat :=
  match n with
  | O => Some next
  | S n' => s ← cell_string (drop next b); skip_strings n' b (next + (length s + 1))
  end.

Section Load.
Context `{U : Uninit} `{TG : Target} `{HO : Host} `{FM : FreshMemory}.

Definition modify_function (p : objptr) (f : ObjFunction → ObjFunction) : VMM () :=
  fn ← get_function p; put_obj p (OBJ_FUNCTION (f fn)).

(** ** Functions *)
Fixpoint new_functions (ctx : objptr) (n : nat) : VMM (list objptr) :=
  match n with
  | O => mret []
  | S n' =>
      p ← new_obj (OBJ_FUNCTION initFunction);
      push ctx (FUNCTION_VAL p) ;;
      ps ← new_functions ctx n';
      mret (p :: ps)
  end.
(** The code and the sizes; the answer is where the code ends. *)
Fixpoint set_codes (b : list Cell) (ps : list objptr) (chunks : list PackedChunk) (next : nat) : VMM nat :=
  match ps, chunks with
  | p :: ps', c :: chunks' =>
      code ← opt (cs ← slice b next (codeLength_ c); cell_bytes cs);
      modify_function p (λ fn,
        mkFunction (arity_ c) (numUpvalues_ c) (mkChunk (ccapacity (chunk fn)) code (lines (chunk fn)) initDynamicValueArray)
          (fName fn)) ;;
      set_codes b ps' chunks' (next + codeLength_ c)
  | _, _ => mret next
  end.

(** The function whose code the offset is in, and where its code starts. *)
Fixpoint find_chunk (offset start : Z) (ps : list objptr) (chunks : list PackedChunk) : option (objptr * Z) :=
  match ps, chunks with
  | p :: ps', c :: chunks' =>
      let end_ := start + Z.of_nat (codeLength_ c) in
      if (start <=? offset) && (offset <? end_) then Some (p, start) else find_chunk offset end_ ps' chunks'
  | _, _ => None
  end.
Definition add_line (s : ChunkSource) (fn : ObjFunction) : ObjFunction :=
  let c := chunk fn in
  mkFunction (arity fn) (upvalueCount fn) (mkChunk (ccapacity c) (code c) (lines c ++ [s]) (constants c)) (fName fn).
Fixpoint load_lines (b : list Cell) (ps : list objptr) (chunks : list PackedChunk) (n i next : nat) : VMM () :=
  match n with
  | O => mret ()
  | S n' =>
      offset ← opt (read_le 3 b next);
      (if offset =? 0xffffff then mret ()
       else
         match find_chunk offset 0 ps chunks with
         | Some (p, start) => modify_function p (add_line (mkSource (u16 (offset - start)) (u16 (Z.of_nat i + 1))))
         | None => mret ()
         end) ;;
      load_lines b ps chunks n' (S i) (next + 3)
  end.
Fixpoint load_names (b : list Cell) (ps : list objptr) (next : nat) : VMM () :=
  match ps with
  | [] => mret ()
  | p :: ps' =>
      name ← opt (cell_string (drop next b));
      k ← intern name;
      modify_function p (λ fn, mkFunction (arity fn) (upvalueCount fn) (chunk fn) (Some k)) ;;
      load_names b ps' (next + 16)
  end.

(** ** Constants *)
Definition append_constant (p : objptr) (v : Value) : VMM () :=
  fn ← get_function p;
  a ← opt (appendToDynamicValueArray (constants (chunk fn)) v);
  let c := chunk fn in
  put_obj p (OBJ_FUNCTION (mkFunction (arity fn) (upvalueCount fn) (mkChunk (ccapacity c) (code c) (lines c) a) (fName fn))).

(** Pairs of bytes. *)
Fixpoint halfwords (cs : list Z) : list Z :=
  match cs with a :: b :: cs' => a + 256 * b :: halfwords cs' | _ => [] end.
(** The copy over the new object. *)
Definition copy_int (bytes : list Z) (o : Int) : Int :=
  let flags := dg bytes 0 in
  let hs := halfwords (drop 4 bytes) in
  mkInt (Z.testbit flags 0) (Z.testbit flags 1) (Z.testbit flags 2) (Z.testbit flags 3) (Z.to_nat (dg bytes 2))
    (Z.to_nat (dg bytes 3)) (hs ++ drop (length hs) (h_ o)).
(** Whether the value of a large integer is a literal is left to the memory
    that the local value is made in. *)
Definition load_int (b : list Cell) (i : nat) : VMM Value :=
  d ← opt (read_le 1 b (i + 2));
  vm_ints (
    p ← allocateIntValue (Z.to_nat d);
    o ← get p;
    match (cs ← slice b i (4 + 2 * m_ o); cell_bytes cs) with
    | None => st_fail
    | Some bytes =>
        modify p (copy_int bytes) ;;
        o' ← get p;
        if obj_ o then mret (INT_VAL (BigInt (literal_ uninit) p))
        else st_assert (negb (obj_ o')) ;; mret (INT_VAL (SmallInt o'))
    end).

(** Where the parts of the body lie. *)
Record Layout := mkLayout { l_doubles : nat; l_addresses : nat; l_ints : nat; l_strings : nat }.
(** A constant of another type is passed over. *)
Definition load_constant (b : list Cell) (lay : Layout) (functions : list objptr) (p : objptr) (at_ : nat) : VMM () :=
  index ← opt (read_le 3 b (at_ + 1));
  let index := Z.to_nat index in
  type ← opt (read_le 1 b at_);
  match pack_types !! Z.to_nat type with
  | Some PACK_CONST_TYPE_S =>
      s ← opt (cell_string (drop (l_strings lay + index) b)); k ← intern s; append_constant p (STRING_VAL k)
  | Some PACK_CONST_TYPE_I => v ← load_int b (l_ints lay + index); append_constant p v
  | Some PACK_CONST_TYPE_D =>
      d ← opt (cs ← slice b (l_doubles lay + 8 * index) 8; as_double cs); append_constant p (DOUBLE_VAL d)
  | Some PACK_CONST_TYPE_F => q ← opt (functions !! index); append_constant p (FUNCTION_VAL q)
  | Some PACK_CONST_TYPE_A =>
      a ← opt (read_le 8 b (l_addresses lay + 8 * index));
      append_constant p (ADDRESS_VAL (a mod 2 ^ (8 * sizeof_uintptr)))
  | None => mret ()
  end.
Fixpoint load_items (b : list Cell) (lay : Layout) (functions : list objptr) (p : objptr) (n at_ : nat) : VMM () :=
  match n with
  | O => mret ()
  | S n' => load_constant b lay functions p at_ ;; load_items b lay functions p n' (at_ + 4)
  end.
Fixpoint load_constants (b : list Cell) (lay : Layout) (functions ps : list objptr) (chunks : list PackedChunk) : VMM () :=
  match ps, chunks with
  | p :: ps', c :: chunks' =>
      load_items b lay functions p (numConsts_ c) (pc_at c + 8) ;; load_constants b lay functions ps' chunks'
  | _, _ => mret ()
  end.

(** ** Packages

    [location] is the address of the package, which must be aligned.  The table
    of chunks is a local array of 256.  A wrong version ends the loading, wrong
    magic bytes do not. *)
Definition loadPackageFromBuffer (ctx : objptr) (location : Z) (buffer : list Cell) : VMM (option objptr) :=
  h ← opt (read_header buffer);
  if negb (version_ h =? packageVersion) then mret None
  else
    st_assert (bodyLength_ h =? Z.of_nat (length buffer) - 24) ;;
    st_assert ((location + 24) mod 8 =? 0) ;;
    let body := drop 24 buffer in
    let addresses := (8 * numDoubles_ h)%nat in
    '(chunks, intFile) ← opt (read_chunks (numChunks_ h) body (addresses + 8 * numAddresses_ h));
    st_assert (numChunks_ h <=? 256)%nat ;;
    stringFile ← opt (skip_ints (numInts_ h) body intFile);
    startOfCode ← opt (skip_strings (numStrings_ h) body stringFile);
    functions ← new_functions ctx (numChunks_ h);
    next ← set_codes body functions chunks startOfCode;
    load_lines body functions chunks (numLines_ h) 0 next ;;
    (if (0 <? numLines_ h)%nat then load_names body functions (next + 3 * numLines_ h) else mret ()) ;;
    st_assert (1 <=? numChunks_ h)%nat ;;
    load_constants body (mkLayout 0 addresses intFile stringFile) functions functions chunks ;;
    popN ctx (numChunks_ h) ;;
    mret (if bool_decide (magic_ h = packageMagic) then functions !! 0%nat else None).

(** ** The built-in function *)
Definition isByteArray (v : Value) : option Z :=
  match type_of v with Some (Array _ n (Some (Simple (Num UI8)))) => Some n | _ => None end.
Definition resultPair (error result : Value) : VMM Value :=
  resultValue ← allocValueStructPair (codes "errors") (codes "result");
  with_heap (setStructField resultValue 0 error) ;;
  with_heap (setStructField resultValue 1 result) ;;
  mret resultValue.
(** The bytes of an array in memory. *)
Definition array_bytes (v : Value) (n : Z) : VMM (Z * list Cell) :=
  with_heap ('(_, c) ← AS_PACKEDCONTAINER v; cs ← read (loc c) (Z.to_nat n); mret (loc c, cs)).

Definition load_array (ctx : objptr) (arg : Value) (n : Z) : VMM () :=
  '(location, buffer) ← array_bytes arg n;
  function ← loadPackageFromBuffer ctx location buffer;
  let functionVal := match function with Some f => FUNCTION_VAL f | None => NIL_VAL end in
  push ctx functionVal ;;
  loadResult ← resultPair NIL_VAL functionVal;
  pop ctx ;;
  push ctx loadResult ;;
  with_heap (setStructField loadResult 1 functionVal) ;; mret ().
Definition load_string (fuel : nat) (ctx : objptr) : run_ CState () :=
  compileResult ← compile fuel ctx;
  vmr (push ctx compileResult) ;;
  compileError ← vmr (with_heap (structField compileResult 0));
  compileFunction ← vmr (with_heap (structField compileResult 1));
  loadResult ← vmr (resultPair compileError NIL_VAL);
  vmr (push ctx loadResult) ;;
  (if IS_NIL compileError then vmr (with_heap (setStructField loadResult 1 compileFunction)) ;; mret () else mret ()) ;;
  vmr (pop ctx) ;; vmr (pop ctx) ;;
  vmr (push ctx loadResult).
Definition load_closure (ctx : objptr) : VMM Value :=
  loadResult ← peek ctx 0;
  functionVal ← with_heap (structField loadResult 1);
  (if IS_NIL functionVal then mret ()
   else
     push ctx functionVal ;;
     f ← as_function functionVal;
     closure ← newClosure f;
     with_heap (setStructField loadResult 1 (FUNCTION_VAL closure)) ;;
     pop ctx ;; mret ()) ;;
  pop ctx ;;
  mret loadResult.
Definition loadBuiltin (fuel : nat) (ctx : objptr) (argCount : Z) : run_ CState (option Value) :=
  if negb (argCount =? 1) then refuse ctx (expected (codes "1 arguments but got ") argCount)
  else
    arg ← vmr (peek ctx 0);
    match isByteArray arg with
    | Some n => vmr (load_array ctx arg n) ;; r ← vmr (load_closure ctx); mret (Some r)
    | None =>
        if is_string arg then load_string fuel ctx ;; r ← vmr (load_closure ctx); mret (Some r)
        else refuse ctx (codes "Argument to load must be a byte array or a string.")
    end.
End Load.
