(* ===== verification/PackFlat.v ===== *)
(** * Packages: the flat files

    What [flattenConstants] and [calcStringAndIntOffsets] make of functions
    that can be packed: every function that is reached has a number, and every
    constant an item that leads to it. *)
From Stdlib Require Import String Ascii.
From S2P Require Import ErrorSpec.
From S2P Require Export Pack.
Open Scope Z_scope.

(** The functions of the entries. *)
Abbreviation fun_ptrs f := (f_ <$> funsFile_ f).

Section Flat.
Context `{U : Uninit} `{TG : Target} `{HO : Host} `{FM : FreshMemory}.
Variable v : VM.

(** ** What can be packed *)
Definition is_byte (c : Z) : Prop := 0 ≤ c < 256.
Definition good_int (b : BigSmallInt) : Prop := ∃ i, int_of v b = Some i ∧ wf i.
Definition good_string (k : strptr) : Prop := ∃ cs, string_is (vm_pool v) k cs ∧ Forall (λ c, 0 < c < 256) cs.
Definition good_address (a : Z) : Prop := 0 ≤ a < 2 ^ 64 ∧ a < 2 ^ (8 * sizeof_uintptr).
Definition good_constant (fns : gset objptr) (c : Value) : Prop :=
  match c with
  | DOUBLE_VAL _ => True
  | TYPED_VAL (Simple Function_) (Some p) => p ∈ fns
  | INT_VAL b => good_int b
  | TYPED_VAL (Simple String_) (Some k) => good_string k
  | ADDRESS_VAL a => good_address a
  | _ => False
  end.
Record good_function (fns : gset objptr) (fn : ObjFunction) : Prop := {
  gf_counts : 0 ≤ arity fn < 65536 ∧ Z.of_nat (upvalueCount fn) < 65536;
  gf_code : Forall is_byte (code (chunk fn)) ∧ code (chunk fn) ≠ [];
  gf_constants : Forall (good_constant fns) (constants_of fn)
}.
(** A set of functions that is closed, and not cyclic: functions are of lower
    rank than those that have them as constants. *)
Definition packable (fns : gset objptr) (rank : objptr → nat) : Prop := ∀ p, p ∈ fns →
  ∃ fn, function_at v p = Some fn ∧ good_function fns fn ∧
    ∀ q, FUNCTION_VAL q ∈ constants_of fn → (rank q < rank p)%nat.

(** ** Items *)
Definition item_ok (f : FlatFiles) (c : Value) (ci : ConstItem) : Prop :=
  match ci_type ci with
  | PACK_CONST_TYPE_D => ∃ d, c = DOUBLE_VAL d ∧ doublesFile_ f !! index_ ci = Some d
  | PACK_CONST_TYPE_F => ∃ p, c = FUNCTION_VAL p ∧ fun_ptrs f !! index_ ci = Some p
  | PACK_CONST_TYPE_I => ∃ i, c = INT_VAL i ∧ intsFile_ f !! index_ ci = Some i
  | PACK_CONST_TYPE_S => ∃ k, c = STRING_VAL k ∧ stringsFile_ f !! index_ ci = Some k
  | PACK_CONST_TYPE_A => ∃ a, c = ADDRESS_VAL a ∧ addressesFile_ f !! index_ ci = Some a
  end.
Record files_good (f : FlatFiles) : Prop := {
  fg_ints : Forall good_int (intsFile_ f);
  fg_strings : Forall good_string (stringsFile_ f);
  fg_addresses : Forall good_address (addressesFile_ f)
}.
(** The files only grow, by good entries. *)
Record extends (f f' : FlatFiles) : Prop := {
  ex_good : files_good f → files_good f';
  ex_doubles : doublesFile_ f `prefix_of` doublesFile_ f';
  ex_funs : fun_ptrs f `prefix_of` fun_ptrs f';
  ex_ints : intsFile_ f `prefix_of` intsFile_ f';
  ex_strings : stringsFile_ f `prefix_of` stringsFile_ f';
  ex_addresses : addressesFile_ f `prefix_of` addressesFile_ f'
}.
#[local] Instance extends_preorder : PreOrder extends.
Proof. split; [by intros f; split|]. intros f1 f2 f3 [] []. split; [auto|by etrans..]. Qed.
Lemma item_ok_extends f f' c ci : extends f f' → item_ok f c ci → item_ok f' c ci.
Proof.
  intros [] H. unfold item_ok in *. destruct (ci_type ci); destruct H as (x & -> & H); exists x; (split; [done|]);
    by eapply prefix_lookup_Some.
Qed.
Lemma items_extend f f' cs is' : extends f f' → Forall2 (item_ok f) cs is' → Forall2 (item_ok f') cs is'.
Proof. intros H. apply Forall2_impl. intros c ci. by apply item_ok_extends. Qed.

Definition keeps_funs (n : nat) (f f' : FlatFiles) : Prop := ∀ j, (j < n)%nat → funsFile_ f' !! j = funsFile_ f !! j.
(** The new functions. *)
Definition news (P : objptr → Prop) (n : nat) (f : FlatFiles) : Prop := ∀ j x, (n ≤ j)%nat → funsFile_ f !! j = Some x → P (f_ x).

Ltac grows := split; [intros [? ? ?]; split; cbn; first [done | apply Forall_app_2; [done|by constructor] | idtac] | cbn; first [done | by apply prefix_app_r | idtac] ..].
Lemma flatten_constant_ok fns c f : (∀ p, p ∈ fns → is_Some (function_at v p)) → good_constant fns c →
  ∃ f' ci, flatten_constant v c f = Some (f', ci) ∧ extends f f' ∧ item_ok f' c ci ∧
    keeps_funs (length (funsFile_ f)) f f' ∧ news (λ p, c = FUNCTION_VAL p) (length (funsFile_ f)) f'.
Proof.
  intros Hfns Hc.
  assert (∀ f', funsFile_ f' = funsFile_ f → keeps_funs (length (funsFile_ f)) f f' ∧ news (λ p, c = FUNCTION_VAL p) (length (funsFile_ f)) f') as Hsame.
  { intros f' E. split; [intros j _; by rewrite E|]. intros j x Hj Hx. rewrite E in Hx. apply lookup_lt_Some in Hx. lia. }
  destruct c as [|b|d|n x|a|i|t o|t|o]; try done; simpl in Hc |- *.
  - eexists _, _. split; [done|]. split; [grows|].
    split; [|by apply Hsame]. exists d. split; [done|]. simpl. by rewrite list_lookup_middle.
  - eexists _, _. split; [done|]. split; [grows|].
    split; [|by apply Hsame]. exists a. split; [done|]. simpl. by rewrite list_lookup_middle.
  - eexists _, _. split; [done|]. split; [grows|].
    split; [|by apply Hsame]. exists i. split; [done|]. simpl. by rewrite list_lookup_middle.
  - destruct t as [s| | | |]; try done. destruct s; try done.
    + destruct o as [k|]; [|done]. unfold find_string. destruct (list_find (eq k) (stringsFile_ f)) as [[sI k']|] eqn:E; simpl.
      * apply list_find_Some in E as (E & <- & _). eexists _, _. split; [done|]. split; [done|]. split; [|by apply Hsame]. by exists k.
      * eexists _, _. split; [done|]. split; [grows|].
        split; [|by apply Hsame]. exists k. split; [done|]. simpl. by rewrite list_lookup_middle.
    + destruct o as [p|]; [|done]. destruct (Hfns p Hc) as [fn Hfn]. rewrite Hfn. eexists _, _. split; [done|].
      split; [grows; rewrite fmap_app; by apply prefix_app_r|].
      split; [exists p; split; [done|]; simpl; rewrite fmap_app; apply list_lookup_middle; by rewrite length_fmap|].
      split; [intros j Hj; simpl; by rewrite lookup_app_l|].
      intros j x Hj Hx. simpl in Hx. rewrite lookup_app_r in Hx by done.
      destruct (j - _)%nat; [by injection Hx as <-|by destruct n].
Qed.

Lemma flatten_loop_ok fns cs : (∀ p, p ∈ fns → is_Some (function_at v p)) → Forall (good_constant fns) cs → ∀ f,
  ∃ f' l, flatten_loop v cs f = Some (f', l) ∧ extends f f' ∧ Forall2 (item_ok f') cs l ∧
    keeps_funs (length (funsFile_ f)) f f' ∧ news (λ p, FUNCTION_VAL p ∈ cs) (length (funsFile_ f)) f'.
Proof.
  intros Hfns. induction 1 as [|c cs Hc _ IH]; intros f; simpl.
  { eexists _, _. split; [done|]. split; [done|]. split; [done|]. split; [done|]. intros j x Hj Hx. apply lookup_lt_Some in Hx. lia. }
  destruct (flatten_constant_ok fns c f Hfns Hc) as (f1 & ci & E1 & X1 & I1 & K1 & N1).
  destruct (IH f1) as (f2 & l & E2 & X2 & I2 & K2 & N2). rewrite E1. simpl. rewrite E2. simpl. eexists _, _. split; [done|].
  assert (length (funsFile_ f) ≤ length (funsFile_ f1))%nat as HL.
  { pose proof (prefix_length _ _ (ex_funs _ _ X1)) as H. by rewrite !length_fmap in H. }
  split; [by etrans|]. split; [constructor; [by eapply item_ok_extends|done]|]. split.
  - intros j Hj. rewrite K2 by lia. by apply K1.
  - intros j x Hj Hx. destruct (decide (j < length (funsFile_ f1))%nat) as [Hlt|Hge].
    + rewrite K2 in Hx by done. assert (c = FUNCTION_VAL (f_ x)) as -> by exact (N1 j x Hj Hx). left.
    + right. apply (N2 j x); [lia|done].
Qed.

(** ** Functions *)

(** The entry of a function that has been flattened. *)
Definition flat_at (f : FlatFiles) (j : nat) : Prop := ∃ x cf, funsFile_ f !! j = Some x ∧ function_at v (f_ x) = Some cf ∧
  code_ (chunk_ x) = code (chunk cf) ∧ Forall2 (item_ok f) (constants_of cf) (items (chunk_ x)).
Lemma flat_at_extends f f' j : extends f f' → funsFile_ f' !! j = funsFile_ f !! j → flat_at f j → flat_at f' j.
Proof.
  intros X E (x & cf & Hx & Hcf & Hcode & Hi). exists x, cf. rewrite E. split; [done|]. split; [done|]. split; [done|].
  by eapply items_extend.
Qed.
Definition flatten_each (fuel : nat) : list nat → FlatFiles → option FlatFiles :=
  fix each l f := match l with [] => Some f | i :: l' => f ← flattenConstants fuel v i f; each l' f end.

Section All.
Variable fns : gset objptr.
Variable rank : objptr → nat.
Hypothesis Hpack : packable fns rank.
Definition num (f : FlatFiles) : nat := length (funsFile_ f).
Lemma num_extends f f' : extends f f' → (num f ≤ num f')%nat.
Proof. intros X. pose proof (prefix_length _ _ (ex_funs _ _ X)) as H. by rewrite !length_fmap in H. Qed.

(** What flattening the functions [P] leaves: these and the new ones are flat,
    the others are what they were. *)
Record flattened (P : nat → Prop) (f f' : FlatFiles) : Prop := {
  fl_extends : extends f f';
  fl_flat : ∀ j, P j ∨ (num f ≤ j < num f')%nat → flat_at f' j;
  fl_keeps : ∀ j, (j < num f)%nat → ¬ P j → funsFile_ f' !! j = funsFile_ f !! j;
  fl_news : news (λ p, p ∈ fns) (num f) f'
}.
Definition flattens (fuel : nat) : Prop := ∀ i f x, funsFile_ f !! i = Some x → f_ x ∈ fns → (rank (f_ x) < fuel)%nat →
  ∃ f', flattenConstants fuel v i f = Some f' ∧ flattened (eq i) f f'.

Lemma flatten_each_ok fuel : flattens fuel → ∀ n start f,
  (start + n ≤ num f)%nat → (∀ j x, (start ≤ j < start + n)%nat → funsFile_ f !! j = Some x → f_ x ∈ fns ∧ (rank (f_ x) < fuel)%nat) →
  ∃ f', flatten_each fuel (seq start n) f = Some f' ∧ flattened (λ j, start ≤ j < start + n)%nat f f'.
Proof.
  intros IHf. induction n as [|n IH]; intros start f Hn Hx.
  { exists f. split; [done|]. split; [done| |done|]; [intros j [?|?]; lia|]. intros j x Hj Hj'. apply lookup_lt_Some in Hj'. unfold num in Hj. lia. }
  destruct (lookup_lt_is_Some_2 (funsFile_ f) start) as [x Es]; [unfold num in Hn; lia|].
  destruct (Hx start x ltac:(lia) Es) as [Hin Hr]. destruct (IHf start f x Es Hin Hr) as (f1 & E1 & F1).
  pose proof (num_extends _ _ (fl_extends _ _ _ F1)) as HL.
  destruct (IH (S start) f1) as (f2 & E2 & F2); [lia| |].
  { intros j y Hj Hy. apply (Hx j y); [lia|]. by rewrite <-(fl_keeps _ _ _ F1 j) by lia. }
  exists f2. split; [simpl; rewrite E1; exact E2|]. pose proof (num_extends _ _ (fl_extends _ _ _ F2)) as HL2. split.
  - etrans; [apply F1|apply F2].
  - intros j Hj. destruct (decide (S start ≤ j < S start + n ∨ num f1 ≤ j < num f2)%nat) as [H|H]; [apply F2; lia|].
    apply (flat_at_extends f1); [apply F2|apply F2; lia|]. apply F1. lia.
  - intros j Hj Hne. rewrite (fl_keeps _ _ _ F2) by lia. apply F1; lia.
  - intros j y Hj Hy. destruct (decide (j < num f1)%nat) as [Hlt|Hge].
    + destruct (decide (S start ≤ j < S start + n)%nat) as [Hin2|Hout].
      * lia.
      * rewrite (fl_keeps _ _ _ F2) in Hy by lia. by eapply (fl_news _ _ _ F1).
    + eapply (fl_news _ _ _ F2); [|done]. lia.
Qed.

Lemma set_chunk_ok i c f : extends f (set_chunk i c f) ∧ extends (set_chunk i c f) f ∧
  (∀ j, j ≠ i → funsFile_ (set_chunk i c f) !! j = funsFile_ f !! j) ∧
  (∀ x, funsFile_ f !! i = Some x → funsFile_ (set_chunk i c f) !! i = Some (mkFlatFun (f_ x) c)).
Proof.
  assert (fun_ptrs (set_chunk i c f) = fun_ptrs f) as E.
  { apply list_eq. intros j. unfold set_chunk. simpl. rewrite !list_lookup_fmap. destruct (decide (j = i)) as [->|Hne].
    - rewrite list_lookup_alter_eq. by destruct (funsFile_ f !! i).
    - by rewrite list_lookup_alter_ne. }
  cbn in E. split; [grows; by rewrite E|]. split; [grows; by rewrite E|].
  split; [intros j Hj; apply list_lookup_alter_ne; congruence|]. intros x Hx. unfold set_chunk. simpl. by rewrite list_lookup_alter_eq, Hx.
Qed.
Lemma flattens_all fuel : flattens fuel.
Proof.
  induction fuel as [|fuel IH]; intros i f x Hx Hin Hr; [lia|].
  destruct (Hpack _ Hin) as (fn & Hfn & [_ Hcode Hcs] & Hrank).
  set (f0 := set_totalCode (totalCodeLength_ f + Z.of_nat (length (code (chunk fn)))) f).
  destruct (flatten_loop_ok fns (constants_of fn)) with (f := f0) as (f1 & l & E1 & X1 & I1 & K1 & N1); [|done|].
  { intros p Hp. destruct (Hpack p Hp) as (g & Hg & _). by exists g. }
  assert (extends f f1) as X by (etrans; [|exact X1]; grows).
  set (c := mkFlat (code (chunk fn)) (totalCodeLength_ f) l). destruct (set_chunk_ok i c f1) as (Y1 & Y2 & Yk & Yi).
  pose proof (num_extends _ _ X) as HL. pose proof (num_extends _ _ Y1) as HL1. pose proof (num_extends _ _ Y2) as HL2.
  assert (i < num f)%nat as Hi by by eapply lookup_lt_Some.
  assert (funsFile_ f1 !! i = Some x) as Hx1 by (by rewrite (K1 i Hi)). specialize (Yi x Hx1).
  assert (∀ y, f_ y ∈ fns → FUNCTION_VAL (f_ y) ∈ constants_of fn → (rank (f_ y) < fuel)%nat) as Hlow.
  { intros y _ Hy. specialize (Hrank _ Hy). lia. }
  assert (∀ j y, (num f ≤ j)%nat → funsFile_ (set_chunk i c f1) !! j = Some y → f_ y ∈ fns ∧ (rank (f_ y) < fuel)%nat) as Hnew.
  { intros j y Hj Hy. rewrite Yk in Hy by lia. pose proof (N1 j y Hj Hy) as Hc. simpl in Hc.
    pose proof (proj1 (list.Forall_forall _ _) Hcs _ Hc) as Hg. simpl in Hg. by split; [|apply Hlow]. }
  destruct (flatten_each_ok fuel IH (num (set_chunk i c f1) - num f) (num f) (set_chunk i c f1)) as (f2 & E2 & F2);
    [lia|intros j y Hj; apply Hnew; lia|].
  pose proof (num_extends _ _ (fl_extends _ _ _ F2)) as HL3.
  exists f2. split.
  { cbn [flattenConstants]. rewrite Hx. cbn [mbind option_bind]. rewrite Hfn. cbn [mbind option_bind]. cbv zeta. fold f0.
    rewrite E1. cbn [mbind option_bind]. exact E2. }
  split.
  - etrans; [exact X|]. etrans; [exact Y1|apply F2].
  - intros j Hj. destruct (decide (j = i)) as [->|Hne].
    + apply (flat_at_extends (set_chunk i c f1)); [apply F2|apply F2; lia|]. exists (mkFlatFun (f_ x) c), fn.
      split; [done|]. split; [done|]. split; [done|]. eapply items_extend; [exact Y1|exact I1].
    + destruct Hj as [->|Hj]; [done|]. apply F2. lia.
  - intros j Hj Hne. rewrite (fl_keeps _ _ _ F2) by lia. rewrite Yk by congruence. by apply K1.
  - intros j y Hj Hy. destruct (decide (j < num (set_chunk i c f1))%nat) as [Hlt|Hge].
    + destruct (lookup_lt_is_Some_2 (funsFile_ (set_chunk i c f1)) j Hlt) as [z Hz].
      assert (f_ y = f_ z) as ->; [|by apply (Hnew j z Hj Hz)].
      assert (fun_ptrs (set_chunk i c f1) !! j = Some (f_ z)) as Hz' by (by rewrite list_lookup_fmap, Hz).
      pose proof (prefix_lookup_Some _ _ j (f_ z) Hz' (ex_funs _ _ (fl_extends _ _ _ F2))) as H.
      rewrite list_lookup_fmap, Hy in H. by injection H.
    + eapply (fl_news _ _ _ F2); [|done]. lia.
Qed.
End All.

(** ** The whole graph *)
Definition blank_files (lines : nat * list Z) (p : objptr) : FlatFiles := mkFiles lines [] 0 [] [] 0 [new_fun p] 0 [].
Definition flat_entry (f : FlatFiles) (x : FlatFun) : Prop := ∃ cf, function_at v (f_ x) = Some cf ∧
  code_ (chunk_ x) = code (chunk cf) ∧ Forall2 (item_ok f) (constants_of cf) (items (chunk_ x)).
Lemma flatten_script fns rank fuel lines p : packable fns rank → p ∈ fns → (rank p < fuel)%nat →
  ∃ f rest, flattenConstants fuel v 0 (blank_files lines p) = Some f ∧ fun_ptrs f = p :: rest ∧
    Forall (flat_entry f) (funsFile_ f) ∧ Forall (λ q, q ∈ fns) (fun_ptrs f) ∧ files_good f.
Proof.
  intros Hpack Hp Hr. destruct (flattens_all fns rank Hpack fuel 0%nat (blank_files lines p) (new_fun p) eq_refl Hp Hr) as (f & E & [X F K N]).
  destruct (ex_funs _ _ X) as [rest Hrest]. exists f, rest. split; [done|]. split; [done|]. split.
  - apply list.Forall_forall. intros x Hx. apply list_elem_of_lookup in Hx as [j Hj].
    destruct (F j) as (x' & cf & Hx' & H). { apply lookup_lt_Some in Hj. unfold num in *. simpl. destruct j; [by left|right; lia]. }
    rewrite Hj in Hx'. injection Hx' as <-. by exists cf.
  - split; [|by apply X; split; constructor]. apply Forall_fmap, list.Forall_forall. intros x Hx. apply list_elem_of_lookup in Hx as [[|j] Hj]; simpl.
    + assert (fun_ptrs f !! 0%nat = Some p) as H by (by rewrite Hrest). rewrite list_lookup_fmap, Hj in H. by injection H as ->.
    + eapply N; [|exact Hj]. unfold num. simpl. lia.
Qed.
End Flat.
