(* ===== verification/PackOffsets.v ===== *)
(** * Packages: lengths and offsets

    The code of every function is counted once; the items of strings and
    integers get the sum of the lengths of the entries before theirs. *)
From Stdlib Require Import String Ascii.
From S2P Require Import ErrorSpec.
From S2P Require Export PackFlat.
Open Scope Z_scope.

Definition total (l : list Z) : Z := foldr Z.add 0 l.
Lemma total_app l k : total (l ++ k) = total l + total k.
Proof. unfold total. induction l as [|x l IH]; simpl; [lia|]. rewrite IH. lia. Qed.
Lemma total_nonneg l : Forall (λ x, 0 ≤ x) l → 0 ≤ total l.
Proof. unfold total. induction 1; simpl; lia. Qed.
(** What precedes an entry is at most the whole. *)
Lemma total_take n l : Forall (λ x, 0 ≤ x) l → 0 ≤ total (take n l) ≤ total l.
Proof.
  intros H. rewrite <-(take_drop n l) at 3. rewrite total_app.
  pose proof (total_nonneg (take n l) (Forall_take _ _ _ H)). pose proof (total_nonneg (drop n l) (Forall_drop _ _ _ H)). lia.
Qed.
Lemma flat_map_total {A} (g : A → list Cell) l : Z.of_nat (length (flat_map g l)) = total ((λ x, Z.of_nat (length (g x))) <$> l).
Proof. induction l as [|x l IH]; [done|]. cbn [flat_map fmap list_fmap]. rewrite length_app, Nat2Z.inj_add. unfold total in *. simpl. lia. Qed.

Section Offsets.
Context `{U : Uninit} `{TG : Target} `{HO : Host} `{FM : FreshMemory}.
Variable v : VM.

(** ** The code *)
Definition code_total (l : list FlatFun) : Z := total ((λ x, Z.of_nat (length (code_ (chunk_ x)))) <$> l).
Definition blank_at (f : FlatFiles) (i : nat) : Prop := ∀ x, funsFile_ f !! i = Some x → code_ (chunk_ x) = [].
(** All code but that of [f] is counted, and only [i] changes. *)
Definition counts (i : nat) (f f' : FlatFiles) : Prop :=
  totalCodeLength_ f' - code_total (funsFile_ f') = totalCodeLength_ f - code_total (funsFile_ f) ∧
  (length (funsFile_ f) <= length (funsFile_ f'))%nat ∧
  ∀ j, j ≠ i → (j < length (funsFile_ f))%nat → funsFile_ f' !! j = funsFile_ f !! j.

Lemma flatten_constant_funs c f f' ci : flatten_constant v c f = Some (f', ci) →
  totalCodeLength_ f' = totalCodeLength_ f ∧ ∃ ps, funsFile_ f' = funsFile_ f ++ (new_fun <$> ps).
Proof.
  assert (∀ l : list FlatFun, ∃ ps : list objptr, l = l ++ (new_fun <$> ps)) as Hn by (intros l; exists []; by rewrite app_nil_r).
  unfold flatten_constant. repeat case_match; try done; intros [= <- <-]; simpl; (split; [done|]); try apply Hn. by eexists [_].
Qed.
Lemma flatten_loop_funs cs : ∀ f f' l, flatten_loop v cs f = Some (f', l) →
  totalCodeLength_ f' = totalCodeLength_ f ∧ ∃ ps, funsFile_ f' = funsFile_ f ++ (new_fun <$> ps).
Proof.
  induction cs as [|c cs IH]; intros f f' l; simpl.
  { intros [= <- <-]. split; [done|]. exists []. by rewrite app_nil_r. }
  destruct (flatten_constant v c f) as [[f1 ci]|] eqn:E1; [|done]. simpl. destruct (flatten_loop v cs f1) as [[f2 l2]|] eqn:E2; [|done].
  simpl. intros [= <- <-]. destruct (flatten_constant_funs _ _ _ _ E1) as (T1 & ps1 & P1). destruct (IH _ _ _ E2) as (T2 & ps2 & P2).
  split; [congruence|]. exists (ps1 ++ ps2). by rewrite P2, P1, fmap_app, app_assoc.
Qed.
Lemma code_total_cons x l : code_total (x :: l) = Z.of_nat (length (code_ (chunk_ x))) + code_total l.
Proof. done. Qed.
Lemma code_total_app l k : code_total (l ++ k) = code_total l + code_total k.
Proof. unfold code_total. by rewrite fmap_app, total_app. Qed.
Lemma blanks_total ps : code_total (new_fun <$> ps) = 0.
Proof. induction ps as [|p ps IH]; [done|]. exact IH. Qed.
Lemma set_chunk_total i c f x : funsFile_ f !! i = Some x → code_ (chunk_ x) = [] →
  code_total (funsFile_ (set_chunk i c f)) = code_total (funsFile_ f) + Z.of_nat (length (code_ c)).
Proof.
  unfold set_chunk, set_funs. cbn [funsFile_]. revert i. induction (funsFile_ f) as [|y l IH]; intros [|i] Hx Hc; [done|done| |].
  - injection Hx as ->. change (alter ?g 0%nat (x :: l)) with (g x :: l). rewrite !code_total_cons, Hc. cbn [length chunk_ code_]. lia.
  - change (alter ?g (S i) (y :: l)) with (y :: alter g i l). rewrite !code_total_cons, (IH i Hx Hc). lia.
Qed.
Definition each_counts (fuel : nat) : Prop := ∀ i f f', flattenConstants fuel v i f = Some f' → blank_at f i → counts i f f'.
Lemma counts_each fuel : each_counts fuel → ∀ n start f f',
  (start + n <= length (funsFile_ f))%nat → (∀ j, (start <= j < start + n)%nat → blank_at f j) →
  flatten_each v fuel (seq start n) f = Some f' →
  totalCodeLength_ f' - code_total (funsFile_ f') = totalCodeLength_ f - code_total (funsFile_ f) ∧
  (length (funsFile_ f) <= length (funsFile_ f'))%nat ∧
  ∀ j, (j < start)%nat → funsFile_ f' !! j = funsFile_ f !! j.
Proof.
  intros IHf. induction n as [|n IH]; intros start f f' Hn Hb; [by intros [= <-]|]. cbn [seq flatten_each].
  destruct (flattenConstants fuel v start f) as [f1|] eqn:E1; [|done]. cbn [mbind option_bind]. intros E2.
  destruct (IHf start f f1 E1) as (T1 & L1 & K1); [apply Hb; lia|].
  destruct (IH (S start) f1 f') as (T2 & L2 & K2); [lia| |done|].
  { intros j Hj x. rewrite K1 by lia. apply Hb. lia. }
  split; [lia|]. split; [lia|]. intros j Hj. rewrite K2 by lia. apply K1; lia.
Qed.
Lemma all_counts fuel : each_counts fuel.
Proof.
  induction fuel as [|fuel IH]; intros i f f'; [done|]. cbn [flattenConstants].
  destruct (funsFile_ f !! i) as [x|] eqn:Hx; [|done]. cbn [mbind option_bind].
  destruct (function_at v (f_ x)) as [cf|]; [|done]. cbn [mbind option_bind]. cbv zeta.
  set (f0 := set_totalCode _ f). destruct (flatten_loop v (constants_of cf) f0) as [[f1 l]|] eqn:E1; [|done].
  cbn [mbind option_bind]. intros E2 Hb. destruct (flatten_loop_funs _ _ _ _ E1) as (T1 & ps & P1).
  change (totalCodeLength_ f0) with (totalCodeLength_ f + Z.of_nat (length (code (chunk cf)))) in T1. change (funsFile_ f0) with (funsFile_ f) in P1.
  set (c := mkFlat _ _ l) in *. set (f2 := set_chunk i c f1) in *. pose proof (lookup_lt_Some _ _ _ Hx) as Hi.
  assert (funsFile_ f1 !! i = Some x) as Hx1 by (rewrite P1; by apply lookup_app_l_Some).
  pose proof (set_chunk_total i c f1 x Hx1 (Hb x Hx)) as T2. fold f2 in T2. change (code_ c) with (code (chunk cf)) in T2.
  assert (length (funsFile_ f2) = length (funsFile_ f) + length ps)%nat as L2.
  { unfold f2. simpl. by rewrite length_alter, P1, length_app, length_fmap. }
  assert (∀ j, j ≠ i → funsFile_ f2 !! j = funsFile_ f1 !! j) as K2 by (intros j Hj; apply list_lookup_alter_ne; congruence).
  destruct (counts_each fuel IH (length (funsFile_ f2) - length (funsFile_ f)) (length (funsFile_ f)) f2 f') as (T3 & L3 & K3); [lia| |exact E2|].
  { intros j Hj y. rewrite K2 by lia. rewrite P1, lookup_app_r, list_lookup_fmap by lia.
    destruct (ps !! _); [|done]. by intros [= <-]. }
  rewrite P1, code_total_app, blanks_total in T2.
  change (totalCodeLength_ f2) with (totalCodeLength_ f1) in T3. split; [lia|]. split; [lia|].
  intros j Hj Hl. rewrite K3 by lia. rewrite K2 by done. rewrite P1. by apply lookup_app_l.
Qed.
(** The package has the code of all functions. *)
Lemma flatten_code fuel lines p f : flattenConstants fuel v 0 (blank_files lines p) = Some f →
  totalCodeLength_ f = code_total (funsFile_ f).
Proof.
  intros E. destruct (all_counts fuel 0%nat _ f E) as (T & _); [by intros x [= <-]|]. cbn [blank_files totalCodeLength_ funsFile_] in T.
  change (code_total [new_fun p]) with 0 in T. lia.
Qed.

(** ** Offsets *)
Definition map_items (g : ConstItem → ConstItem) (x : FlatFun) : FlatFun :=
  mkFlatFun (f_ x) (mkFlat (code_ (chunk_ x)) (codeOffset_ (chunk_ x)) (g <$> items (chunk_ x))).
(** An item of an entry from [i] on. *)
Definition place (ty : PackType) (lengths : list Z) (i : nat) (off : Z) (ci : ConstItem) : ConstItem :=
  if bool_decide (ci_type ci = ty) && (i <=? index_ ci)%nat && (index_ ci <? i + length lengths)%nat
  then mkItem ty (index_ ci) (off + total (take (index_ ci - i) lengths)) else ci.
Lemma place_step ty n lengths i off ci :
  place ty lengths (S i) (off + n) (if bool_decide (ci_type ci = ty) && (index_ ci =? i)%nat then mkItem ty i off else ci) =
  place ty (n :: lengths) i off ci.
Proof.
  unfold place. cbn [length]. destruct (bool_decide_reflect (ci_type ci = ty)) as [Ht|Ht]; cbn [andb].
  2:{ by rewrite bool_decide_false. }
  destruct (Nat.eqb_spec (index_ ci) i) as [Hi|Hi]; cbn [ci_type index_].
  - rewrite bool_decide_true by done. cbn [andb]. rewrite (proj2 (Nat.leb_gt (S i) i)) by lia. cbn [andb].
    rewrite (proj2 (Nat.leb_le _ _)), (proj2 (Nat.ltb_lt _ _)) by lia. cbn [andb]. rewrite Hi, Nat.sub_diag. simpl. by rewrite Z.add_0_r.
  - rewrite bool_decide_true by done. cbn [andb]. destruct (Nat.leb_spec (S i) (index_ ci)) as [Hl|Hl]; cbn [andb].
    + rewrite (proj2 (Nat.leb_le i _)) by lia. cbn [andb]. rewrite <-Nat.add_succ_comm. destruct (_ <? _)%nat; [|done].
      f_equal. replace (index_ ci - i)%nat with (S (index_ ci - S i))%nat by lia. cbn [take]. unfold total. simpl. lia.
    + rewrite (proj2 (Nat.leb_gt i _)) by lia. done.
Qed.
Lemma offsets_loop_ok ty lengths : ∀ i off funs,
  offsets_loop ty lengths i off funs = (map_items (place ty lengths i off) <$> funs, off + total lengths).
Proof.
  induction lengths as [|n lengths IH]; intros i off funs; cbn [offsets_loop].
  - f_equal; [|unfold total; simpl; lia]. rewrite <-(list_fmap_id funs) at 1. apply list_fmap_ext. intros _ [g [c o l]] _.
    unfold map_items. simpl. do 2 f_equal. rewrite <-(list_fmap_id l) at 1. apply list_fmap_ext. intros _ ci _. unfold place. simpl.
    destruct (bool_decide _); [|done]. cbn [andb]. destruct (Nat.leb_spec i (index_ ci)); [|done]. cbn [andb].
    by rewrite (proj2 (Nat.ltb_ge _ _)) by lia.
  - rewrite IH. f_equal; [|unfold total; simpl; lia]. rewrite <-list_fmap_compose. apply list_fmap_ext. intros _ [g [c o l]] _.
    unfold compose, map_items, set_offset. simpl. do 2 f_equal. rewrite <-list_fmap_compose. apply list_fmap_ext. intros _ ci _.
    apply place_step.
Qed.

(** The item of a string or an integer leads to its place in the file. *)
Definition offset_ok (ks : list strptr) (is' : list Int) (ci : ConstItem) : Prop :=
  match ci_type ci with
  | PACK_CONST_TYPE_S => offset_ ci = total (take (index_ ci) (string_length v <$> ks))
  | PACK_CONST_TYPE_I => offset_ ci = total (take (index_ ci) (int_length <$> is'))
  | _ => True
  end.
Definition placed (ks : list strptr) (is' : list Int) : ConstItem → ConstItem :=
  place PACK_CONST_TYPE_I (int_length <$> is') 0 0 ∘ place PACK_CONST_TYPE_S (string_length v <$> ks) 0 0.
Lemma place_type ty lengths i off ci : ci_type (place ty lengths i off ci) = ci_type ci ∧ index_ (place ty lengths i off ci) = index_ ci.
Proof. unfold place. destruct (bool_decide_reflect (ci_type ci = ty)) as [<-|]; [|done]. by destruct (_ && _)%bool; [|done]. Qed.
Lemma place_other ty lengths i off ci : ci_type ci ≠ ty → place ty lengths i off ci = ci.
Proof. intros H. unfold place. by rewrite bool_decide_false. Qed.
Lemma place_in ty lengths ci : ci_type ci = ty → (index_ ci < length lengths)%nat →
  place ty lengths 0 0 ci = mkItem ty (index_ ci) (total (take (index_ ci) lengths)).
Proof.
  intros H Hi. unfold place. rewrite bool_decide_true, (proj2 (Nat.ltb_lt _ _)) by done. by rewrite Nat.sub_0_r, Z.add_0_l.
Qed.
Lemma placed_type ks is' ci : ci_type (placed ks is' ci) = ci_type ci ∧ index_ (placed ks is' ci) = index_ ci.
Proof.
  unfold placed, compose. destruct (place_type PACK_CONST_TYPE_I (int_length <$> is') 0 0 (place PACK_CONST_TYPE_S (string_length v <$> ks) 0 0 ci)) as [-> ->].
  apply place_type.
Qed.
Lemma placed_ok f is' c ci : Forall2 (λ b i, int_of v b = Some i ∧ wf i) (intsFile_ f) is' → item_ok f c ci →
  offset_ok (stringsFile_ f) is' (placed (stringsFile_ f) is' ci).
Proof.
  intros Hi H. unfold offset_ok. destruct (placed_type (stringsFile_ f) is' ci) as [Et Ei]. rewrite Et.
  unfold item_ok in H. destruct (ci_type ci) eqn:E; try done; rewrite Ei; unfold placed, compose.
  - destruct H as (k & _ & Hk%lookup_lt_Some). by rewrite (place_in PACK_CONST_TYPE_S), place_other by (done || by rewrite length_fmap).
  - destruct H as (b & _ & Hb%lookup_lt_Some). rewrite (place_other PACK_CONST_TYPE_S) by (by rewrite E).
    by rewrite place_in by (done || by rewrite length_fmap, <-(list.Forall2_length _ _ _ Hi)).
Qed.

Lemma calc_ok f : files_good v f → ∃ is', Forall2 (λ b i, int_of v b = Some i ∧ wf i) (intsFile_ f) is' ∧
  calcStringAndIntOffsets v f = Some (set_totals (total (string_length v <$> stringsFile_ f)) (total (int_length <$> is'))
    (set_funs (map_items (placed (stringsFile_ f) is') <$> funsFile_ f) f)).
Proof.
  intros [Hi _ _]. assert (∃ is', Forall2 (λ b i, int_of v b = Some i ∧ wf i) (intsFile_ f) is') as [is' H].
  { induction Hi as [|b bs [i Hi] _ [is' IH]]; [by exists []|]. by exists (i :: is'); constructor. }
  exists is'. split; [done|]. unfold calcStringAndIntOffsets. rewrite offsets_loop_ok.
  assert (mapM (int_of v) (intsFile_ f) = Some is') as ->.
  { apply mapM_Some_2. eapply list.Forall2_impl; [exact H|]. by intros b i [? _]. }
  cbn [mbind option_bind]. rewrite offsets_loop_ok, <-list_fmap_compose, !Z.add_0_l.
  do 3 f_equal. apply list_fmap_ext. intros _ x _. unfold compose, map_items. simpl. do 2 f_equal. by rewrite <-list_fmap_compose.
Qed.
End Offsets.
