(* ===== verification/PackRead.v ===== *)
(** * Packages: reading what was written

    What the readers of [Load] find at a place where a package has the cells
    that [Pack] writes; the form of integers in a package, and what [load_int]
    makes of it: the same value, no longer a literal. *)
From Stdlib Require Import String Ascii.
From S2P Require Import IntSpec ValueSpec PackedSpec ErrorSpec.
From S2P Require Export Load PackFlat.
Open Scope Z_scope.

(** ** Places *)
Definition lies (b : list Cell) (i : nat) (x : list Cell) : Prop := ∃ pre rest, b = pre ++ x ++ rest ∧ i = length pre.

Lemma lies_drop b i x : lies b i x → ∃ rest, drop i b = x ++ rest.
Proof. intros (pre & rest & -> & ->). exists rest. by rewrite drop_app_length. Qed.
Lemma lies_app b i x y : lies b i (x ++ y) → lies b i x ∧ lies b (i + length x) y.
Proof.
  intros (pre & rest & -> & ->). split; [exists pre, (y ++ rest); by rewrite <-app_assoc|].
  exists (pre ++ x), rest. by rewrite length_app, <-!app_assoc.
Qed.
Lemma lies_in b i x j y : lies b i x → lies x j y → lies b (i + j) y.
Proof.
  intros (pre & rest & -> & ->) (p' & r' & -> & ->). exists (pre ++ p'), (r' ++ rest).
  by rewrite length_app, <-!app_assoc.
Qed.
Lemma lies_flat_map {A} (g : A → list Cell) l k x b i : lies b i (flat_map g l) → l !! k = Some x →
  lies b (i + length (flat_map g (take k l))) (g x).
Proof.
  intros H Hx. eapply lies_in; [exact H|]. rewrite <-(take_drop_middle _ _ _ Hx) at 1. rewrite flat_map_app.
  eexists _, _. split; [cbn [flat_map]; reflexivity|done].
Qed.
Lemma flat_map_length_const {A} (g : A → list Cell) n l : (∀ x, length (g x) = n) → length (flat_map g l) = (n * length l)%nat.
Proof. intros H. induction l as [|x l IH]; simpl; [lia|]. rewrite length_app, H, IH. lia. Qed.
(** Entries of a fixed size. *)
Lemma lies_entry {A} (g : A → list Cell) n l k x b i : (∀ x, length (g x) = n) → lies b i (flat_map g l) → l !! k = Some x →
  lies b (i + n * k) (g x).
Proof.
  intros Hn H Hx. pose proof (lies_flat_map g l k x b i H Hx) as HL. rewrite (flat_map_length_const g n) in HL by done.
  rewrite length_take_le in HL; [done|]. apply lookup_lt_Some in Hx. lia.
Qed.

(** ** The primitive readers *)
Lemma slice_lies b i x n : lies b i x → n = length x → slice b i n = Some x.
Proof.
  intros (pre & rest & -> & ->) ->. unfold slice. rewrite !length_app, (proj2 (Nat.leb_le _ _)) by lia.
  by rewrite drop_app_length, take_app_length.
Qed.
Lemma read_le_lies n x b i : lies b i (le n x) → 0 ≤ x < 256 ^ Z.of_nat n → read_le n b i = Some x.
Proof.
  intros H Hx. unfold read_le. rewrite (slice_lies b i (le n x) n H) by (symmetry; apply le_split_length).
  cbn [mbind option_bind]. unfold le. by rewrite le_combine_split, Z.mod_small.
Qed.
Lemma cell_bytes_bytes cs : Forall is_byte cs → cell_bytes (bytes_cells cs) = Some cs.
Proof.
  intros H. apply mapM_Some_2, Forall2_fmap_l, Forall_Forall2_diag. eapply list.Forall_impl; [exact H|].
  intros c Hc. simpl. by rewrite Z.mod_small.
Qed.
Lemma cell_string_lies cs b i : lies b i (bytes_cells cs ++ [Byte 0]) → Forall (λ c, 0 < c < 256) cs →
  cell_string (drop i b) = Some cs.
Proof.
  intros (rest & ->)%lies_drop. induction 1 as [|c cs Hc _ IH]; [done|].
  change (bytes_cells (c :: cs)) with (Byte (c mod 256) :: bytes_cells cs). cbn [app cell_string]. rewrite Z.mod_small by lia.
  rewrite (proj2 (Z.eqb_neq c 0)) by lia. by rewrite IH.
Qed.
Lemma le_length n x : length (le n x) = n.
Proof. apply le_split_length. Qed.
Lemma bytes_cells_length cs : length (bytes_cells cs) = length cs.
Proof. apply length_fmap. Qed.

Lemma type_code_bound ty : 0 ≤ type_code ty < 256.
Proof. by destruct ty. Qed.
Lemma type_code_type ty : pack_types !! Z.to_nat (type_code ty) = Some ty.
Proof. by destruct ty. Qed.

Section Read.
Context `{U : Uninit} `{TG : Target} `{HO : Host} `{FM : FreshMemory}.
Variable v : VM.

(** ** The tables of the functions *)
Definition item_number (ci : ConstItem) : Z :=
  match ci_type ci with PACK_CONST_TYPE_S | PACK_CONST_TYPE_I => offset_ ci | _ => Z.of_nat (index_ ci) end.
Lemma pack_item_length ci : length (pack_item ci) = 4%nat.
Proof. done. Qed.
Lemma pack_item_lies ci b i : lies b i (pack_item ci) → 0 ≤ item_number ci < 2 ^ 24 →
  read_le 1 b i = Some (type_code (ci_type ci)) ∧ read_le 3 b (i + 1) = Some (item_number ci).
Proof.
  intros [H1 H2]%lies_app Hn. rewrite le_length in H2.
  split; [apply read_le_lies; [exact H1|apply type_code_bound]|by apply read_le_lies].
Qed.

Record entry_ok (i : nat) (x : FlatFun) (fn : ObjFunction) : Prop := {
  eo_fn : function_at v (f_ x) = Some fn;
  eo_arity : 0 ≤ arity fn < 65536;
  eo_upvalues : Z.of_nat (upvalueCount fn) < 65536;
  eo_script : i = 0%nat → arity fn = 0 ∧ upvalueCount fn = 0%nat;
  eo_items : Z.of_nat (length (items (chunk_ x))) < 65536;
  eo_code : Z.of_nat (length (code_ (chunk_ x))) < 65536
}.
Record packed_as (b : list Cell) (x : FlatFun) (pc : PackedChunk) : Prop := {
  pa_consts : numConsts_ pc = length (items (chunk_ x));
  pa_code : codeLength_ pc = length (code_ (chunk_ x));
  pa_fn : ∃ fn, function_at v (f_ x) = Some fn ∧ arity_ pc = arity fn ∧ numUpvalues_ pc = upvalueCount fn;
  pa_items : lies b (pc_at pc + 8) (flat_map pack_item (items (chunk_ x)))
}.
Lemma pack_chunk_ok i x fn : entry_ok i x fn → ∃ cs, pack_chunk v i x = Some cs ∧
  length cs = (8 + 4 * length (items (chunk_ x)))%nat ∧
  ∀ b next, lies b next cs → ∃ pc, read_chunk b next = Some pc ∧ packed_as b x pc.
Proof.
  intros [Hfn Ha Hu Hs Hi Hc]. unfold pack_chunk.
  assert ((if (i =? 0)%nat then Some (0, 0) else fn ← function_at v (f_ x); Some (arity fn, Z.of_nat (upvalueCount fn))) =
    Some (arity fn, Z.of_nat (upvalueCount fn))) as ->.
  { destruct (Nat.eqb_spec i 0) as [->|]; [|by rewrite Hfn]. destruct (Hs eq_refl) as [-> ->]. done. }
  cbn [mbind option_bind]. cbv zeta. eexists. split; [reflexivity|]. split.
  { rewrite !length_app, (flat_map_length_const pack_item 4) by done. unfold u16le. rewrite !le_length. lia. }
  intros b next HL. apply lies_app in HL as [H1 HL]. apply lies_app in HL as [H2 HL]. apply lies_app in HL as [H3 HL].
  apply lies_app in HL as [H4 HL]. unfold u16le in *. rewrite !le_length in *.
  unfold read_chunk. rewrite (read_le_lies 2 _ b next H1) by (change (256 ^ Z.of_nat 2) with 65536; lia). cbn [mbind option_bind].
  rewrite (read_le_lies 2 _ b _ H2) by (change (256 ^ Z.of_nat 2) with 65536; lia). cbn [mbind option_bind].
  replace (next + 4)%nat with (next + 2 + 2)%nat by lia.
  rewrite (read_le_lies 2 _ b _ H3) by (change (256 ^ Z.of_nat 2) with 65536; lia). cbn [mbind option_bind].
  replace (next + 6)%nat with (next + 2 + 2 + 2)%nat by lia.
  rewrite (read_le_lies 2 _ b _ H4) by (change (256 ^ Z.of_nat 2) with 65536; lia). cbn [mbind option_bind].
  eexists. split; [reflexivity|]. split; simpl; [lia|lia|exists fn; split; [done|]; split; [done|lia]|].
  by replace (next + 8)%nat with (next + 2 + 2 + 2 + 2)%nat by lia.
Qed.
Lemma pack_chunks_ok funs : ∀ i, (∀ k x, funs !! k = Some x → ∃ fn, entry_ok (i + k) x fn) → ∃ cs, pack_chunks v i funs = Some cs ∧
  length cs = (8 * length funs + foldr (λ x n, 4 * length (items (chunk_ x)) + n) 0 funs)%nat ∧
  ∀ b next, lies b next cs → ∃ pcs, read_chunks (length funs) b next = Some (pcs, next + length cs)%nat ∧ Forall2 (packed_as b) funs pcs.
Proof.
  induction funs as [|x funs IH]; intros i H; cbn [pack_chunks foldr length read_chunks].
  { exists []. split; [done|]. split; [done|]. intros b next _. exists []. by rewrite Nat.add_0_r. }
  destruct (H 0%nat x eq_refl) as [fn Hx]. rewrite Nat.add_0_r in Hx. destruct (pack_chunk_ok i x fn Hx) as (c & Ec & Lc & Rc).
  destruct (IH (S i)) as (cs & Ecs & Lcs & Rcs).
  { intros k y Hy. destruct (H (S k) y Hy) as [fn' Hy']. exists fn'. by rewrite Nat.add_succ_r in Hy'. }
  rewrite Ec. cbn [mbind option_bind]. rewrite Ecs. cbn [mbind option_bind]. exists (c ++ cs). split; [done|].
  split; [rewrite length_app, Lc, Lcs; lia|]. intros b next [H1 H2]%lies_app.
  destruct (Rc b next H1) as (pc & Epc & Ppc). rewrite Epc. cbn [mbind option_bind].
  rewrite (pa_consts _ _ _ Ppc), <-Lc. destruct (Rcs b _ H2) as (pcs & Epcs & Ppcs). rewrite Epcs. cbn [mbind option_bind].
  exists (pc :: pcs). rewrite length_app, Nat.add_assoc. by split; [|constructor].
Qed.
End Read.

(** ** Integers and strings *)
(** ** Bytes of an integer *)
Definition int_bytes (pad : list Z) (o : Int) : list Z :=
  [b2z (neg_ o) + 2 * b2z (overflow_ o) + 4 * b2z (obj_ o) + 8 * b2z (literal_ o) + 16 * (dg pad 0 mod 16);
   dg pad 1 mod 256; Z.of_nat (d_ o); Z.of_nat (m_ o)] ++
  flat_map (λ h, [h mod 256; h / 256 mod 256]) (take (m_ o) (h_ o)).
Lemma cell_bytes_fmap l : cell_bytes (Byte <$> l) = Some l.
Proof. apply mapM_Some_2, Forall2_fmap_l, Forall_Forall2_diag, Forall_true. done. Qed.
Lemma halfwords_bytes hs : Forall IntEval.digit hs → halfwords (flat_map (λ h, [h mod 256; h / 256 mod 256]) hs) = hs.
Proof.
  induction 1 as [|h hs Hh _ IH]; [done|]. cbn [flat_map app halfwords]. rewrite IH. f_equal. unfold IntEval.digit in Hh.
  pose proof (Z.div_lt_upper_bound h 256 256 ltac:(lia) ltac:(lia)). pose proof (Z.div_pos h 256 ltac:(lia) ltac:(lia)).
  rewrite (Z.mod_small (h / 256)) by lia. pose proof (Z.div_mod h 256 ltac:(lia)). lia.
Qed.
(** The four flags. *)
Lemma flags_bits a b c d x : let f := b2z a + 2 * b2z b + 4 * b2z c + 8 * b2z d + 16 * x in
  Z.testbit f 0 = a ∧ Z.testbit f 1 = b ∧ Z.testbit f 2 = c ∧ Z.testbit f 3 = d.
Proof.
  intros f. assert (∀ n, 0 ≤ n < 4 → Z.testbit f n = Z.testbit (b2z a + 2 * b2z b + 4 * b2z c + 8 * b2z d) n) as H.
  { intros n Hn. rewrite <-(Z.mod_pow2_bits_low f 4 n) by lia. change (2 ^ 4) with 16. unfold f.
    rewrite (Z.mul_comm 16 x), Z_mod_plus_full, Z.mod_small; [done|]. by destruct a, b, c, d. }
  rewrite !H by lia. by destruct a, b, c, d.
Qed.
Lemma read_byte_lies x b i : lies b i [Byte x] → read_le 1 b i = Some x.
Proof.
  intros H. unfold read_le. rewrite (slice_lies b i [Byte x] 1 H eq_refl). cbn. f_equal. lia.
Qed.

Section Ints.
Context `{U : Uninit} `{TG : Target} `{HO : Host} `{FM : FreshMemory}.

(** ** Packing *)
Record packed_int (i o : Int) : Prop := {
  pi_d : d_ o = d_ i;
  pi_m : m_ o = (d_ i + d_ i mod 2)%nat;
  pi_neg : neg_ o = neg_ i;
  pi_overflow : overflow_ o = overflow_ i;
  pi_flags : obj_ o = false ∧ literal_ o = false;
  pi_room : (m_ o <= length (h_ o))%nat;
  pi_all : Forall IntEval.digit (h_ o);
  pi_digits : ∀ j, (j < m_ o)%nat → dg (h_ o) j = dg (h_ i) j
}.
Lemma int_cells_bytes o : int_cells o = Byte <$> int_bytes (fresh_bytes 2) o.
Proof.
  unfold int_cells, int_bytes. cbv zeta. rewrite fmap_app. f_equal. induction (take (m_ o) (h_ o)) as [|h l IH]; [done|].
  cbn [flat_map]. by rewrite IH.
Qed.
Lemma int_cells_length i o : packed_int i o → Z.of_nat (length (int_cells o)) = int_length i ∧ length (int_cells o) = (4 + 2 * m_ o)%nat.
Proof.
  intros H. assert (length (int_cells o) = 4 + 2 * m_ o)%nat as E.
  { unfold int_cells. rewrite length_app, (flat_map_length_const (le_split 2) 2) by (intros; apply le_split_length).
    pose proof (pi_room _ _ H). rewrite length_take_le by done. done. }
  split; [|done]. rewrite E. unfold int_length. rewrite (pi_m _ _ H). lia.
Qed.

Lemma with_int_ex {A} (Q : A → Prop) b (k : ptr → M A) i (s : store) : bsi_int s b = Some i →
  (∀ p s', s' !! p = Some i → ∃ a, k p s' = Some (a, s') ∧ Q a) → ∃ a, with_int b k s = Some (a, s) ∧ Q a.
Proof.
  intros Hb H. destruct b as [i'|l p]; simpl in *; [|by apply H]. injection Hb as ->. unfold with_object.
  destruct (H (fresh_ptr s) (<[fresh_ptr s := i]> s) (lookup_insert_eq _ _ _)) as (a & E & HQ). rewrite E.
  exists a. by rewrite delete_insert_id by apply fresh_ptr_None.
Qed.
Lemma even_room d m : (d <= m)%nat → Nat.Even m → (d + d mod 2 <= m)%nat.
Proof.
  intros Hd He. destruct (even_round d) as [Hr [_ Hle]]. destruct (decide (d = m)) as [->|]; [|lia].
  destruct He as [k ->]. rewrite (Nat.mul_comm 2 k), Nat.Div0.mod_mul. lia.
Qed.
Lemma pack_int_ok b i (s : store) : bsi_int s b = Some i → wf i → ∃ cs, pack_int b s = Some (cs, s) ∧ ∃ o, cs = int_cells o ∧ packed_int i o.
Proof.
  intros Hb Hi. apply (with_int_ex (λ cs, ∃ o, cs = int_cells o ∧ packed_int i o) b _ i s Hb). intros p s' Hp.
  unfold with_local, with_object. set (q := fresh_ptr s'). pose proof (fresh_ptr_None s' : s' !! q = None) as Hq.
  destruct (uninit_take 254) as [Hl Hd]; [lia|].
  destruct (int_init_concrete_run 254 q (set_h_ (take 254 (h_ uninit)) uninit) (<[q := set_h_ (take 254 (h_ uninit)) uninit]> s'))
    as (L & EL & mL & oL & WL & _ & _ & _ & _ & _ & _ & LL); [lk|by exists 127%nat|lia|done|done|].
  assert (p ≠ q) as Hpq by congruence.
  step_with EL. rewrite insert_insert_eq. pose proof (wf_safe _ Hi) as Si. pose proof (safe_d _ Si) as Hdi. pose proof (al_m _ (safe_alloc _ Si)) as Hmi.
  destruct (int_set_t_run p q i L (<[q := L]> s')) as (R & ER & (mR & oR & lR) & SR & nR & vR & dR & gR & _ & _ & wR);
    [by rewrite lookup_insert_ne|lk|auto|done|lia|].
  step_with ER. rewrite insert_insert_eq. step. rewrite insert_insert_eq. step.
  eexists. split; [rewrite st_ret_run; by rewrite delete_insert_id|]. eexists. split; [reflexivity|].
  pose proof (al_len _ (safe_alloc _ SR)) as HlR. specialize (wR Hi).
  pose proof (even_room (d_ i) (m_ i) ltac:(lia) (al_even _ (safe_alloc _ Si))) as Hroom.
  split; simpl; rewrite ?dR; [done|done|done|done|split; congruence|lia|apply SR|].
  intros j Hj. destruct (decide (j < d_ i)%nat) as [Hlt|Hge]; [by apply gR|].
  pose proof (Nat.mod_upper_bound (d_ i) 2 ltac:(lia)). assert (j = d_ i) as -> by lia.
  assert (Nat.Odd (d_ i)) as Ho. { exists (d_ i / 2)%nat. pose proof (Nat.div_mod_eq (d_ i) 2). lia. }
  rewrite (wf_pad _ Hi Ho). rewrite <-dR in Ho |- *. by apply wf_pad.
Qed.
Lemma pack_ints_ok bs (s : store) : Forall (λ b, ∃ i, bsi_int s b = Some i ∧ wf i) bs →
  ∃ os, pack_ints bs s = Some (flat_map int_cells os, s) ∧ Forall2 (λ b o, ∃ i, bsi_int s b = Some i ∧ wf i ∧ packed_int i o) bs os.
Proof.
  induction 1 as [|b bs (i & Hb & Hi) _ (os & E & H)]; [by exists []|]. cbn [pack_ints].
  destruct (pack_int_ok b i s Hb Hi) as (cs & Ec & o & -> & Ho). step_with Ec. step_with E.
  exists (o :: os). split; [done|]. constructor; [by exists i|done].
Qed.

(** ** Skipping *)
Lemma skip_ints_ok b is' os : Forall2 packed_int is' os → Forall wf is' → ∀ next, lies b next (flat_map int_cells os) →
  skip_ints (length os) b next = Some (next + length (flat_map int_cells os))%nat.
Proof.
  induction 1 as [|i o is' os Ho _ IH]; intros Hw next HL; cbn [length skip_ints flat_map]; [by rewrite Nat.add_0_r|].
  apply list.Forall_cons in Hw as [Hi Hw]. cbn [flat_map] in HL. apply lies_app in HL as [H1 H2].
  destruct (int_cells_length i o Ho) as [_ Hl].
  assert (lies b (next + 3) [Byte (Z.of_nat (m_ o))]) as Hm.
  { eapply lies_in; [exact H1|]. unfold int_cells. eexists [_; _; _], _. split; reflexivity. }
  rewrite (read_byte_lies _ _ _ Hm). cbn [mbind option_bind]. rewrite Nat2Z.id, length_app, <-Hl, Nat.add_assoc. by apply IH.
Qed.
Lemma skip_strings_ok v b ks : Forall (good_string v) ks → ∀ next, lies b next (flat_map (pack_string v) ks) →
  skip_strings (length ks) b next = Some (next + length (flat_map (pack_string v) ks))%nat.
Proof.
  induction 1 as [|k ks (cs & Hk & Hcs) _ IH]; intros next HL; cbn [length skip_strings flat_map]; [by rewrite Nat.add_0_r|].
  cbn [flat_map] in HL. apply lies_app in HL as [H1 H2].
  assert (pack_string v k = bytes_cells cs ++ [Byte 0]) as E by (unfold pack_string, vm_str; by rewrite (string_is_chars _ _ _ Hk)).
  rewrite E in *. rewrite (cell_string_lies cs b next H1 Hcs). cbn [mbind option_bind].
  rewrite !length_app, bytes_cells_length in *. cbn [length] in *. rewrite !Nat.add_assoc in *. by apply IH.
Qed.
Lemma pack_string_length v k : good_string v k → Z.of_nat (length (pack_string v k)) = string_length v k.
Proof. intros _. unfold pack_string, string_length. rewrite length_app, bytes_cells_length. simpl. lia. Qed.
End Ints.
