(* ===== verification/PackImage.v ===== *)
(** * Packages: the image

    A script that can be packed, and fits, has an image: the header, and the
    parts of the body one after the other, each of the length that the header
    and the offsets count. *)
From Stdlib Require Import String Ascii.
From S2P Require Import IntSpec ValueSpec PackedSpec ErrorSpec.
From S2P Require Export PackRead PackOffsets.
Open Scope Z_scope.

Section Image.
Context `{U : Uninit} `{TG : Target} `{HO : Host} `{FM : FreshMemory}.
Variable v : VM.

(** ** The flat files of a script *)
Definition packed_files (fuel : nat) (p : objptr) : option FlatFiles :=
  f ← flattenConstants fuel v 0 (blank_files (0%nat, []) p); calcStringAndIntOffsets v f.
(** The fields of the format are wide enough, and the table of the loader long
    enough. *)
Definition small (n : nat) : bool := Z.of_nat n <? 65536.
Definition fits (g : FlatFiles) : bool :=
  (length (funsFile_ g) <=? 256)%nat && small (length (stringsFile_ g)) && small (length (doublesFile_ g)) &&
  small (length (intsFile_ g)) && small (length (addressesFile_ g)) &&
  forallb (λ x, small (length (code_ (chunk_ x))) && small (length (items (chunk_ x)))) (funsFile_ g) &&
  (totalStringLength_ g <? 2 ^ 24) && (totalIntsLength_ g <? 2 ^ 24).

Record good_files (fns : gset objptr) (p : objptr) (g : FlatFiles) (is' : list Int) : Prop := {
  gg_script : ∃ rest, fun_ptrs g = p :: rest;
  gg_entries : Forall (flat_entry v g) (funsFile_ g);
  gg_in : Forall (λ q, q ∈ fns) (fun_ptrs g);
  gg_good : files_good v g;
  gg_ints : Forall2 (λ b i, int_of v b = Some i ∧ wf i) (intsFile_ g) is';
  gg_offsets : Forall (λ x, Forall (offset_ok v (stringsFile_ g) is') (items (chunk_ x))) (funsFile_ g);
  gg_strings_total : totalStringLength_ g = total (string_length v <$> stringsFile_ g);
  gg_ints_total : totalIntsLength_ g = total (int_length <$> is');
  gg_code_total : totalCodeLength_ g = code_total (funsFile_ g);
  gg_lines : linesFile_ g = (0%nat, [])
}.

Lemma map_items_funs h (l : list FlatFun) : f_ <$> (map_items h <$> l) = f_ <$> l.
Proof. rewrite <-list_fmap_compose. by apply list_fmap_ext. Qed.
Lemma map_items_total h (l : list FlatFun) : code_total (map_items h <$> l) = code_total l.
Proof. unfold code_total. rewrite <-list_fmap_compose. f_equal. Qed.
Lemma flatten_lines_kept fuel lines p f : flattenConstants fuel v 0 (blank_files lines p) = Some f → linesFile_ f = lines.
Proof.
  assert (∀ c f f' ci, flatten_constant v c f = Some (f', ci) → linesFile_ f' = linesFile_ f) as Hc.
  { intros c f1 f2 ci. unfold flatten_constant. by repeat case_match; try done; intros [= <- <-]. }
  assert (∀ cs f f' l, flatten_loop v cs f = Some (f', l) → linesFile_ f' = linesFile_ f) as Hl.
  { induction cs as [|c cs IH]; intros f1 f2 l; simpl; [by intros [= <- <-]|].
    destruct (flatten_constant v c f1) as [[f3 ci]|] eqn:E1; [|done]. simpl. destruct (flatten_loop v cs f3) as [[f4 l4]|] eqn:E2; [|done].
    simpl. intros [= <- <-]. rewrite (IH _ _ _ E2). by eapply Hc. }
  change lines with (linesFile_ (blank_files lines p)) at 2. generalize (blank_files lines p) as f0. generalize 0%nat as i. revert f.
  induction fuel as [|fuel IH]; intros f i f0; [done|]. cbn [flattenConstants].
  destruct (funsFile_ f0 !! i) as [x|]; [|done]. cbn [mbind option_bind]. destruct (function_at v (f_ x)) as [cf|]; [|done].
  cbn [mbind option_bind]. cbv zeta. destruct (flatten_loop _ _ _) as [[f1 l]|] eqn:E; [|done]. cbn [mbind option_bind]. apply Hl in E.
  set (c := mkFlat _ _ l). set (g := set_chunk i c f1). assert (linesFile_ g = linesFile_ f0) as Hg by exact E. rewrite <-Hg.
  generalize (length (funsFile_ g) - length (funsFile_ f0))%nat as n. generalize (length (funsFile_ f0)) as start. clearbody g. clear - IH.
  intros start n. revert start g. induction n as [|n IHn]; intros start g; [by intros [= ->]|]. cbn [seq].
  destruct (flattenConstants fuel v start g) as [g'|] eqn:E; [|done]. cbn [mbind option_bind]. intros H. rewrite <-(IH _ _ _ E). by eapply IHn.
Qed.

Lemma packed_files_ok fns rank fuel p : packable v fns rank → p ∈ fns → (rank p < fuel)%nat →
  ∃ g is', packed_files fuel p = Some g ∧ good_files fns p g is'.
Proof.
  intros Hp Hin Hr. destruct (flatten_script v fns rank fuel (0%nat, []) p Hp Hin Hr) as (f & rest & E & Hf & He & Hi & Hg).
  destruct (calc_ok v f Hg) as (is' & Hi' & Ec). unfold packed_files. rewrite E. cbn [mbind option_bind]. eexists _, is'.
  split; [exact Ec|]. pose proof (flatten_code v _ _ _ _ E) as Hcode. pose proof (flatten_lines_kept _ _ _ _ E) as Hlines.
  split; simpl; rewrite ?map_items_funs, ?map_items_total; try done; [by exists rest| |by split; apply Hg|].
  - apply Forall_fmap. eapply list.Forall_impl; [exact He|]. intros x (cf & Hcf & Hc & Hits). exists cf. split; [done|]. split; [done|]. simpl.
    apply Forall2_fmap_r. eapply list.Forall2_impl; [exact Hits|]. intros c ci H. unfold compose, item_ok in *.
    destruct (placed_type v (stringsFile_ f) is' ci) as [-> ->]. simpl. by rewrite map_items_funs.
  - apply Forall_fmap. eapply list.Forall_impl; [exact He|]. intros x (cf & _ & _ & Hits). simpl.
    apply Forall_fmap. apply (Forall2_Forall_r _ _ _ _ Hits). apply list.Forall_forall. intros c _ ci H. by eapply placed_ok.
Qed.

(** ** The image *)
Record fits_ok (g : FlatFiles) : Prop := {
  ft_funs : (length (funsFile_ g) <= 256)%nat;
  ft_strings : Z.of_nat (length (stringsFile_ g)) < 65536;
  ft_doubles : Z.of_nat (length (doublesFile_ g)) < 65536;
  ft_ints : Z.of_nat (length (intsFile_ g)) < 65536;
  ft_addresses : Z.of_nat (length (addressesFile_ g)) < 65536;
  ft_chunks : Forall (λ x, Z.of_nat (length (code_ (chunk_ x))) < 65536 ∧ Z.of_nat (length (items (chunk_ x))) < 65536) (funsFile_ g);
  ft_string_total : totalStringLength_ g < 2 ^ 24;
  ft_int_total : totalIntsLength_ g < 2 ^ 24
}.
Lemma fits_spec g : fits g = true → fits_ok g.
Proof.
  unfold fits, small. rewrite !andb_true_iff, !Z.ltb_lt, Nat.leb_le. intros [[[[[[[H1 H2] H3] H4] H5] H6] H7] H8]. split; try done.
  apply list.Forall_forall. intros x Hx. rewrite forallb_forall in H6. specialize (H6 x (proj1 (list_elem_of_In _ _) Hx)).
  by rewrite andb_true_iff, !Z.ltb_lt in H6.
Qed.

Definition package_body (g : FlatFiles) (chunks : list Cell) (os : list Int) : list Cell :=
  flat_map (λ d, frags (StoredDouble d) 8) (doublesFile_ g) ++ flat_map (le_split 8) (addressesFile_ g) ++
  chunks ++ flat_map int_cells os ++ flat_map (pack_string v) (stringsFile_ g) ++
  flat_map (λ x, bytes_cells (code_ (chunk_ x))) (funsFile_ g).
Definition package_header (g : FlatFiles) : PackageFileHeader :=
  mkHeader packageMagic packageVersion (length (funsFile_ g)) (length (stringsFile_ g)) (length (doublesFile_ g))
    (length (intsFile_ g)) 0 (length (addressesFile_ g)) (body_length g).

Section Good.
Variables (fns : gset objptr) (rank : objptr → nat) (p : objptr) (g : FlatFiles) (is' : list Int).
Hypothesis Hpack : packable v fns rank.
Hypothesis Hscript : ∀ fn, function_at v p = Some fn → arity fn = 0 ∧ upvalueCount fn = 0%nat.
Hypothesis Hg : good_files fns p g is'.
Hypothesis Hfits : fits_ok g.

Lemma entries_ok k x : funsFile_ g !! k = Some x → ∃ fn, entry_ok v k x fn ∧ good_function v fns fn ∧
  code_ (chunk_ x) = code (chunk fn) ∧ Forall2 (item_ok g) (constants_of fn) (items (chunk_ x)) ∧
  Forall (offset_ok v (stringsFile_ g) is') (items (chunk_ x)).
Proof.
  intros Hx. destruct (Forall_lookup_1 _ _ _ _ (gg_entries _ _ _ _ Hg) Hx) as (fn & Hfn & Hc & Hi).
  destruct (Forall_lookup_1 _ _ _ _ (ft_chunks _ Hfits) Hx) as [Hl1 Hl2].
  assert (fun_ptrs g !! k = Some (f_ x)) as Hp by (by rewrite list_lookup_fmap, Hx).
  destruct (Hpack (f_ x)) as (fn' & Hfn' & Hgood & _); [exact (Forall_lookup_1 _ _ _ _ (gg_in _ _ _ _ Hg) Hp)|].
  rewrite Hfn in Hfn'. injection Hfn' as <-. exists fn. split; [|by split; [|split; [|split; [|exact (Forall_lookup_1 _ _ _ _ (gg_offsets _ _ _ _ Hg) Hx)]]]].
  destruct (gf_counts _ _ _ Hgood). split; try done. intros ->. apply Hscript.
  destruct (gg_script _ _ _ _ Hg) as [rest E]. rewrite E in Hp. injection Hp as ->. done.
Qed.
Lemma int_lengths_mod is0 : total (int_length <$> is0) mod 4 = 0.
Proof.
  induction is0 as [|i is0 IH]; [done|]. change (total (int_length <$> i :: is0)) with (int_length i + total (int_length <$> is0)).
  rewrite Z.add_mod, IH by lia. unfold int_length. destruct (even_round (d_ i)) as [[k ->] _]. rewrite Nat2Z.inj_mul, Z.add_0_r, Z.mod_mod by lia.
  replace (4 + 2 * (Z.of_nat 2 * Z.of_nat k)) with ((1 + Z.of_nat k) * 4) by lia. by apply Z_mod_mult.
Qed.
Lemma items_total l : foldr (λ x n, 4 * Z.of_nat (length (items (chunk_ x))) + n) 0 l =
  Z.of_nat (foldr (λ x n, 4 * length (items (chunk_ x)) + n)%nat 0%nat l).
Proof. induction l as [|x l IH]; cbn [foldr]; [done|]. rewrite IH. lia. Qed.
Lemma pack_ok name : ∃ chunks os, pack_chunks v 0 (funsFile_ g) = Some chunks ∧ Forall2 packed_int is' os ∧
  pack name v g = Some (Some (pack_header g ++ package_body g chunks os)) ∧
  Z.of_nat (length (package_body g chunks os)) = body_length g.
Proof.
  destruct (pack_chunks_ok v (funsFile_ g) 0%nat) as (chunks & Ec & Lc & _).
  { intros k x Hx. destruct (entries_ok k x Hx) as (fn & H & _). by exists fn. }
  destruct (pack_ints_ok (intsFile_ g) (ints (vm_heap v))) as (os & Eo & Ho).
  { pose proof (fg_ints _ _ (gg_good _ _ _ _ Hg)) as H. eapply list.Forall_impl; [exact H|]. intros b (i & Hb & Hi). by exists i. }
  assert (Forall2 packed_int is' os) as Hos.
  { pose proof (gg_ints _ _ _ _ Hg) as H. revert H Ho. generalize (intsFile_ g) as bs. generalize is' as is0. clear. intros is0 bs H. revert os.
    induction H as [|b i bs is0 [Hb _] _ IH]; intros os; inversion 1 as [|? o ? os' (i' & Hb' & _ & Hp) Hr]; subst; [constructor|].
    constructor; [|by apply IH]. change (bsi_int (ints (vm_heap v)) b) with (int_of v b) in Hb'. rewrite Hb in Hb'. by injection Hb' as <-. }
  exists chunks, os. split; [done|]. split; [done|]. destruct Hfits as [F1 F2 F3 F4 F5 F6 F7 F8]. pose proof (gg_lines _ _ _ _ Hg) as Hl.
  assert (Z.of_nat (length (flat_map int_cells os)) = totalIntsLength_ g) as Li.
  { rewrite flat_map_total, (gg_ints_total _ _ _ _ Hg). f_equal. clear - Hos. induction Hos as [|i o is0 os H _ IH]; [done|].
    cbn [fmap list_fmap]. f_equal; [by apply int_cells_length|done]. }
  split.
  - unfold pack. rewrite Ec. cbn [mbind option_bind]. rewrite Eo. cbn [mbind option_bind]. rewrite Hl. cbn [fst snd Nat.ltb Nat.leb mbind option_bind].
    assert (words_length g mod 4 = 0) as ->.
    { unfold words_length. rewrite (gg_ints_total _ _ _ _ Hg), items_total.
      assert (∃ n, foldr (λ x n, 4 * length (items (chunk_ x)) + n)%nat 0%nat (funsFile_ g) = 4 * n)%nat as [n ->].
      { clear. induction (funsFile_ g) as [|x l [n IH]]; [by exists 0%nat|]. cbn [foldr]. rewrite IH. eexists. by rewrite <-Nat.mul_add_distr_l. }
      rewrite Z.add_mod, int_lengths_mod, Z.add_0_r, Z.mod_mod by lia.
      set (a := u16 _). set (b := u16 _). replace (a * 8 + b * 8 + 8 * Z.of_nat (length (funsFile_ g)) + Z.of_nat (4 * n)) with
        ((a * 2 + b * 2 + 2 * Z.of_nat (length (funsFile_ g)) + Z.of_nat n) * 4) by lia. apply Z_mod_mult. }
    cbn [Z.eqb negb]. assert (existsb (λ x, (length (code_ (chunk_ x)) =? 0)%nat) (funsFile_ g) = false) as ->.
    { apply not_true_iff_false. intros (x & Hx & H0)%existsb_exists. apply list_elem_of_In, list_elem_of_lookup in Hx as [k Hx].
      destruct (entries_ok k x Hx) as (fn & _ & [_ [_ Hne] _] & Hcode & _). rewrite Hcode in H0. by destruct (code (chunk fn)). }
    unfold package_body. cbn [take flat_map]. by rewrite !app_nil_r.
  - unfold package_body, body_length, words_length. rewrite Hl. cbn [fst]. change (u16 (Z.of_nat 0)) with 0. cbn [Z.ltb Z.compare]. unfold u16.
    rewrite !length_app, (flat_map_length_const _ 8) by (intros; apply frags_length).
    rewrite (flat_map_length_const _ 8) by (intros; apply le_split_length). rewrite !Nat2Z.inj_add, Li, Lc, !Z.mod_small by lia.
    rewrite !flat_map_total, items_total, (gg_strings_total _ _ _ _ Hg), (gg_code_total _ _ _ _ Hg). unfold code_total.
    assert ((λ x, Z.of_nat (length (bytes_cells (code_ (chunk_ x))))) <$> funsFile_ g = (λ x, Z.of_nat (length (code_ (chunk_ x)))) <$> funsFile_ g) as ->.
    { apply list_fmap_ext. intros _ x _. by rewrite bytes_cells_length. }
    assert ((λ k, Z.of_nat (length (pack_string v k))) <$> stringsFile_ g = string_length v <$> stringsFile_ g) as ->.
    { apply list_fmap_ext. intros i k Hk. apply pack_string_length. exact (Forall_lookup_1 _ _ _ _ (fg_strings _ _ (gg_good _ _ _ _ Hg)) Hk). }
    lia.
Qed.
End Good.
End Image.
