(* ===== verification/LoadSpec.v ===== *)
(** * Packages: the constants that are loaded

    A constant that is loaded has the value of the constant that was packed:
    doubles and addresses are the same, strings have the same characters,
    integers the same number, and functions correspond by their place. *)
From Stdlib Require Import String Ascii.
From S2P Require Import IntSpec ValueSpec PackedSpec ErrorSpec RoutineSpec.
From S2P Require Export PackImage.
Open Scope Z_scope.

Lemma Forall2_impl_in {A B} (P Q : A → B → Prop) l k : Forall2 P l k → (∀ x y, y ∈ k → P x y → Q x y) → Forall2 Q l k.
Proof.
  induction 1 as [|x y l k H _ IH]; intros Hi; constructor; [apply Hi; [left|done]|]. apply IH. intros x' y' Hy. apply Hi. by right.
Qed.

(** ** Arrays of constants *)
Record array_ok (a : DynamicValueArray) : Prop := {
  ao_count : (acount a <= acapacity a)%nat;
  ao_values : length (avalues a) = acapacity a
}.
Definition elements (a : DynamicValueArray) : list Value := take (acount a) (avalues a).
Lemma append_ok a c : array_ok a → ∃ a', appendToDynamicValueArray a c = Some a' ∧ array_ok a' ∧ elements a' = elements a ++ [c].
Proof.
  intros [H1 H2]. unfold appendToDynamicValueArray. set (a1 := if (acapacity a <? acount a + 1)%nat then _ else a).
  assert (acount a1 = acount a ∧ (acount a < acapacity a1)%nat ∧ length (avalues a1) = acapacity a1 ∧ elements a1 = elements a) as (Ec & Hc & Hl & Ee).
  { unfold a1. destruct (Nat.ltb_spec (acapacity a) (acount a + 1)) as [Hlt|]; [|split_and!; (done || lia)]. simpl.
    assert (acapacity a < GROW_CAPACITY (acapacity a))%nat as Hg by (unfold GROW_CAPACITY; destruct (Nat.ltb_spec (acapacity a) 8); lia).
    split_and!; [done|lia|unfold grow; rewrite length_app, length_replicate; lia|].
    unfold elements, grow. simpl. by rewrite take_app_le by lia. }
  clearbody a1. rewrite Ec, Hl, (proj2 (Nat.ltb_lt _ _)) by done. eexists. split; [done|]. split.
  - split; simpl; [lia|by rewrite length_insert].
  - rewrite <-Ee. unfold elements. simpl. rewrite (take_S_r _ _ c) by (rewrite list_lookup_insert_eq; [done|lia]).
    by rewrite take_insert_ge, Ec by lia.
Qed.

(** ** The state

    Loading makes strings, integers and functions, and nothing else. *)
Definition others (w : VM) :=
  (mem (vm_heap w), brk (vm_heap w), containers (vm_heap w), storages (vm_heap w), globals w, initString w, core0 w, core1 w,
   pinnedRoutines w, tempRoots w, next_type w, semaphore w, output w).
Record grows_to (w w' : VM) : Prop := {
  gt_pool : pool_ok (vm_pool w) → pool_ok (vm_pool w');
  gt_strings : pool_le (vm_pool w) (vm_pool w');
  gt_ints : ints (vm_heap w) ⊆ ints (vm_heap w');
  gt_others : others w' = others w
}.
#[export] Instance grows_to_preorder : PreOrder grows_to.
Proof.
  split; [intros w; split; [done|by intros k o|done|done]|]. intros w1 w2 w3 [A1 A2 A3 A4] [B1 B2 B3 B4]. split; [auto| |by etrans|congruence].
  intros k o H. by apply B2, A2.
Qed.

Section Load.
Context `{U : Uninit} `{TG : Target} `{HO : Host} `{FM : FreshMemory}.

(** ** Integers *)
Lemma allocated_digits n (s : store) p I : (n ≤ 254)%nat → (1 <= n)%nat → allocateIntValue n s = Some (p, <[p := I]> s) → s !! p = None →
  m_ I = (n + n mod 2)%nat.
Proof.
  intros Hn H1 E Hp. unfold allocateIntValue in *. destruct (Nat.ltb_spec 2 n) as [H2|H2].
  - unfold allocateIntObject in *. destruct (even_round n) as [_ Hr]. erewrite st_bind_run in E; [|apply st_assert_run].
    2:{ apply andb_true_intro. split; apply Nat.leb_le; pose proof (even_room n 254 Hn ltac:(by exists 127%nat)); lia. }
    cbv beta in E. unfold new_object in E. injection E as <- E. apply (f_equal (lookup (fresh_ptr s))) in E. rewrite !lookup_insert_eq in E. by injection E as <-.
  - set (q := fresh_ptr s) in *.
    pose (E1 := eq_refl : new_object (set_h_ (take 2 (h_ uninit)) uninit) s = Some (q, <[q := set_h_ (take 2 (h_ uninit)) uninit]> s)).
    destruct (uninit_take 2) as [L D]; [lia|].
    destruct (int_init_concrete_run 2 q (set_h_ (take 2 (h_ uninit)) uninit) (<[q:=set_h_ (take 2 (h_ uninit)) uninit]> s)) as (J & EJ & mJ & _);
      [lk|by exists 1%nat|lia|done|done|].
    rewrite (st_bind_run _ _ _ _ _ E1), (st_bind_run _ _ _ _ _ EJ), insert_insert_eq, st_ret_run in E. injection E as <- E.
    apply (f_equal (lookup q)) in E. rewrite !lookup_insert_eq in E. injection E as <-. rewrite mJ.
    assert (n = 1 ∨ n = 2)%nat as [-> | ->] by lia; done.
Qed.

(** The integer that the loader makes of the bytes. *)
Lemma copy_int_ok i o I : packed_int i o → wf i → m_ I = m_ o → length (h_ I) = m_ I →
  let o' := copy_int (int_bytes (fresh_bytes 2) o) I in
  wf o' ∧ val o' = val i ∧ overflow_ o' = overflow_ i ∧ literal_ o' = false ∧ obj_ o' = false.
Proof.
  intros H Hi Hm Hl. pose proof (pi_room _ _ H) as Hroom. pose proof (safe_d _ (wf_safe _ Hi)) as Hd.
  pose proof (even_room (d_ i) (m_ i) ltac:(lia) (al_even _ (safe_alloc _ (wf_safe _ Hi)))) as He. pose proof (al_m _ (safe_alloc _ (wf_safe _ Hi))).
  destruct (even_round (d_ i)) as [Heven Hr]. pose proof Heven as [half Hhalf].
  unfold copy_int. change (drop 4 (int_bytes (fresh_bytes 2) o)) with (flat_map (λ h, [h mod 256; h / 256 mod 256]) (take (m_ o) (h_ o))).
  change (dg (int_bytes (fresh_bytes 2) o) 0) with
    (b2z (neg_ o) + 2 * b2z (overflow_ o) + 4 * b2z (obj_ o) + 8 * b2z (literal_ o) + 16 * (dg (fresh_bytes 2) 0 mod 16)).
  change (dg (int_bytes (fresh_bytes 2) o) 2) with (Z.of_nat (d_ o)). change (dg (int_bytes (fresh_bytes 2) o) 3) with (Z.of_nat (m_ o)).
  destruct (flags_bits (neg_ o) (overflow_ o) (obj_ o) (literal_ o) (dg (fresh_bytes 2) 0 mod 16)) as (-> & -> & -> & ->).
  rewrite (halfwords_bytes _ (Forall_take _ _ _ (pi_all _ _ H))), !Nat2Z.id, length_take_le by done.
  rewrite (drop_ge (h_ I)), app_nil_r by lia. destruct (pi_flags _ _ H) as [-> ->]. rewrite (pi_neg _ _ H), (pi_overflow _ _ H), (pi_d _ _ H).
  assert (∀ j, (j < m_ o)%nat → dg (take (m_ o) (h_ o)) j = dg (h_ i) j) as Hdg.
  { intros j Hj. rewrite dg_take, decide_True by done. by apply (pi_digits _ _ H). }
  pose proof (pi_m _ _ H) as Em. cbv zeta.
  assert (mag (mkInt (neg_ i) (overflow_ i) false false (d_ i) (m_ o) (take (m_ o) (h_ o))) = mag i) as Emag.
  { unfold mag. apply ev_ext. intros j Hj. apply Hdg. simpl in Hj. lia. }
  split; [|split; [unfold val; rewrite Emag; done|done]].
  split; [split; [split|]| |]; simpl.
  - by rewrite length_take_le.
  - by rewrite Em.
  - lia.
  - apply Forall_take, (pi_all _ _ H).
  - lia.
  - intros Ho. rewrite Hdg; [by apply (wf_pad _ Hi)|]. destruct (decide (d_ i = m_ o)) as [E|]; [|lia]. exfalso. rewrite E, Em in Ho.
    by apply (Nat.Even_Odd_False _ Heven).
  - intros H1. rewrite Hdg by lia. by apply (wf_top _ Hi).
Qed.
Lemma vm_ints_run {A} (c : M A) w a s' : c (ints (vm_heap w)) = Some (a, s') →
  vm_ints c w = Some (a, set_heap (mkHeap (mem (vm_heap w)) (brk (vm_heap w)) (containers (vm_heap w)) (storages (vm_heap w)) s') w).
Proof. intros E. unfold vm_ints, with_heap, with_ints. by rewrite E. Qed.
Lemma load_int_ok b i o n w : packed_int i o → wf i → lies b n (int_cells o) →
  ∃ bsi w' o', load_int b n w = Some (INT_VAL bsi, w') ∧ grows_to w w' ∧ vm_objects w' = vm_objects w ∧ vm_pool w' = vm_pool w ∧
    int_of w' bsi = Some o' ∧ wf o' ∧ val o' = val i ∧ overflow_ o' = overflow_ i ∧ literal_ o' = false.
Proof.
  intros H Hi HL. pose proof (safe_d _ (wf_safe _ Hi)) as Hd. pose proof (al_m _ (safe_alloc _ (wf_safe _ Hi))) as Hmi.
  destruct (int_cells_length i o H) as [_ Hlen]. unfold load_int.
  assert (lies b (n + 2) [Byte (Z.of_nat (d_ o))]) as Hdb.
  { eapply lies_in; [exact HL|]. unfold int_cells. eexists [_; _], _. split; reflexivity. }
  rewrite (st_bind_run _ _ _ _ _ (opt_run _ _ w (read_byte_lies _ _ _ Hdb))). cbv beta. rewrite Nat2Z.id, (pi_d _ _ H).
  destruct (allocateIntValue_run (d_ i) (ints (vm_heap w)) ltac:(lia)) as (p & I & EI & Hp & AI & _ & _ & _ & OI).
  pose proof (allocated_digits (d_ i) _ p I ltac:(lia) ltac:(lia) EI Hp) as Hm. rewrite <-(pi_m _ _ H) in Hm.
  set (o' := copy_int (int_bytes (fresh_bytes 2) o) I). pose proof (copy_int_ok i o I H Hi Hm (al_len _ AI)) as Hc. cbv zeta in Hc. fold o' in Hc.
  destruct Hc as (Wo & Vo & Oo & Lo & Bo). set (s' := <[p := o']> (ints (vm_heap w))).
  assert (∃ bsi, (if obj_ I then INT_VAL (BigInt (literal_ uninit) p) else INT_VAL (SmallInt o')) = INT_VAL bsi ∧ bsi_int s' bsi = Some o') as (bsi & Eb & Hb).
  { destruct (obj_ I); eexists; (split; [reflexivity|]); [apply lookup_insert_eq|done]. }
  eexists bsi, _, o'. split; [apply vm_ints_run with (s' := s')|].
  - step_with EI. step. rewrite Hm, (slice_lies b n (int_cells o)) by (done || by rewrite Hlen). cbn [mbind option_bind].
    rewrite int_cells_bytes, cell_bytes_fmap. step. rewrite insert_insert_eq. fold o' s'. step. rewrite <-Eb. destruct (obj_ I); [done|].
    rewrite Bo. by rewrite (st_bind_run _ _ _ _ _ (st_assert_run _ _ eq_refl)).
  - split; [split; simpl; try done; [by intros ? ?|by apply insert_subseteq]|]. split; [done|]. split; [done|]. done.
Qed.

(** ** Constants *)

(** The constant [c'] of the machine [w] is the constant [c] of [v]; functions
    are related by [R]. *)
Definition same_constant (R : objptr → objptr → Prop) (v w : VM) (c c' : Value) : Prop :=
  match c with
  | DOUBLE_VAL _ | ADDRESS_VAL _ => c' = c
  | TYPED_VAL (Simple String_) (Some k) => ∃ k' cs, c' = STRING_VAL k' ∧ string_is (vm_pool v) k cs ∧ string_is (vm_pool w) k' cs
  | INT_VAL n => ∃ n' i i', c' = INT_VAL n' ∧ int_of v n = Some i ∧ int_of w n' = Some i' ∧ wf i' ∧
      val i' = val i ∧ overflow_ i' = overflow_ i ∧ literal_ i' = false
  | TYPED_VAL (Simple Function_) (Some p) => ∃ q, c' = FUNCTION_VAL q ∧ R p q
  | _ => False
  end.
Lemma same_constant_mono (R R' : objptr → objptr → Prop) v w c c' : (∀ p q, R p q → R' p q) → same_constant R v w c c' → same_constant R' v w c c'.
Proof. intros HR. unfold same_constant. repeat case_match; try done. intros (q & -> & Hq%HR). by exists q. Qed.
(** Only a function is loaded as a function. *)
Lemma same_constant_function R v w c q : same_constant R v w c (FUNCTION_VAL q) → ∃ p, c = FUNCTION_VAL p ∧ R p q.
Proof.
  intros H. destruct c as [d|x|d|n x|x|i|t o|t|o]; try done; [by destruct H as (? & ? & ? & ? & _)|].
  destruct t as [s| | | |]; try done. destruct s; try done; destruct o as [p|]; try done; [by destruct H as (? & ? & ? & _)|].
  destruct H as (q' & [= <-] & H). by exists p.
Qed.
Lemma same_constant_grows R v w w' c c' : grows_to w w' → same_constant R v w c c' → same_constant R v w' c c'.
Proof.
  intros [_ Hs Hi _]. unfold same_constant. repeat case_match; try done.
  - intros (n' & j & j' & -> & E1 & E2 & E3). exists n', j, j'. split; [done|]. split; [done|]. split; [|done].
    destruct n' as [|l q]; [done|]. simpl in *. by eapply lookup_weaken.
  - intros (k' & cs & -> & E1 & E2). exists k', cs. split; [done|]. split; [done|]. by eapply string_is_le.
Qed.

Definition set_constants (a : DynamicValueArray) (fn : ObjFunction) : ObjFunction :=
  let c := chunk fn in mkFunction (arity fn) (upvalueCount fn) (mkChunk (ccapacity c) (code c) (lines c) a) (fName fn).
Lemma append_constant_ok q c w fn : vm_objects w !! q = Some (OBJ_FUNCTION fn) → array_ok (constants (chunk fn)) →
  ∃ a, append_constant q c w = Some ((), set_objects (<[q := OBJ_FUNCTION (set_constants a fn)]> (vm_objects w)) w) ∧
    array_ok a ∧ elements a = elements (constants (chunk fn)) ++ [c].
Proof.
  intros Hq Ha. destruct (append_ok _ c Ha) as (a & E & Ha' & He). exists a. split; [|done]. unfold append_constant.
  rewrite (st_bind_run _ _ _ _ _ (get_function_run _ _ _ Hq)). rewrite (st_bind_run _ _ _ _ _ (opt_run _ _ w E)). apply put_obj_run.
Qed.

Section Constants.
Variables (v : VM) (g : FlatFiles) (is' os : list Int) (b : list Cell) (lay : Layout) (ps : list objptr).
Record laid_out : Prop := {
  lo_doubles : lies b (l_doubles lay) (flat_map (λ d, frags (StoredDouble d) 8) (doublesFile_ g));
  lo_addresses : lies b (l_addresses lay) (flat_map (le_split 8) (addressesFile_ g));
  lo_ints : lies b (l_ints lay) (flat_map int_cells os);
  lo_strings : lies b (l_strings lay) (flat_map (pack_string v) (stringsFile_ g))
}.
Hypothesis Hlay : laid_out.
Hypothesis Hfits : fits_ok g.
Hypothesis Hgood : files_good v g.
Hypothesis Hints : Forall2 (λ b i, int_of v b = Some i ∧ wf i) (intsFile_ g) is'.
Hypothesis Hos : Forall2 packed_int is' os.
Hypothesis Hst : totalStringLength_ g = total (string_length v <$> stringsFile_ g).
Hypothesis Hit : totalIntsLength_ g = total (int_length <$> is').
Hypothesis Hps : length ps = length (funsFile_ g).
Definition same_place (p q : objptr) : Prop := ∃ j, fun_ptrs g !! j = Some p ∧ ps !! j = Some q.

Lemma string_at j k : stringsFile_ g !! j = Some k →
  lies b (l_strings lay + Z.to_nat (total (take j (string_length v <$> stringsFile_ g)))) (pack_string v k).
Proof.
  intros Hk. pose proof (lies_flat_map _ _ _ _ _ _ (lo_strings Hlay) Hk) as H.
  assert (total (take j (string_length v <$> stringsFile_ g)) = Z.of_nat (length (flat_map (pack_string v) (take j (stringsFile_ g))))) as ->; [|by rewrite Nat2Z.id].
  rewrite flat_map_total, <-fmap_take. f_equal. apply list_fmap_ext. intros n k' Hk'. symmetry. apply pack_string_length.
  apply (Forall_lookup_1 _ _ n _ (Forall_take _ j _ (fg_strings _ _ Hgood)) Hk').
Qed.
Lemma int_at j o : os !! j = Some o → lies b (l_ints lay + Z.to_nat (total (take j (int_length <$> is')))) (int_cells o).
Proof.
  intros Hk. pose proof (lies_flat_map _ _ _ _ _ _ (lo_ints Hlay) Hk) as H.
  assert (total (take j (int_length <$> is')) = Z.of_nat (length (flat_map int_cells (take j os)))) as ->; [|by rewrite Nat2Z.id].
  rewrite flat_map_total, <-fmap_take. f_equal. pose proof Hos as H'. clear - H'. revert j. induction H' as [|i o' l l' Hi _ IH]; intros j; [by rewrite !take_nil|].
  destruct j as [|j]; [done|]. cbn [take fmap list_fmap]. f_equal; [symmetry; by apply int_cells_length|apply IH].
Qed.
Lemma item_number_bound c ci : item_ok g c ci → offset_ok v (stringsFile_ g) is' ci → 0 ≤ item_number ci < 2 ^ 24.
Proof.
  intros Hi Ho. destruct Hfits as [F1 F2 F3 F4 F5 F6 F7 F8]. unfold item_ok, offset_ok, item_number in *. destruct (ci_type ci).
  - rewrite Ho. rewrite Hst in F7. pose proof (total_take (index_ ci) (string_length v <$> stringsFile_ g)) as H.
    assert (Forall (λ x, 0 ≤ x) (string_length v <$> stringsFile_ g)) as Hn; [|specialize (H Hn); lia].
    apply Forall_fmap, list.Forall_true. intros k. unfold compose, string_length. lia.
  - rewrite Ho. rewrite Hit in F8. pose proof (total_take (index_ ci) (int_length <$> is')) as H.
    assert (Forall (λ x, 0 ≤ x) (int_length <$> is')) as Hn; [|specialize (H Hn); lia].
    apply Forall_fmap, list.Forall_true. intros k. unfold compose, int_length. lia.
  - destruct Hi as (d & _ & Hd%lookup_lt_Some). lia.
  - destruct Hi as (d & _ & Hd%lookup_lt_Some). rewrite length_fmap in Hd. lia.
  - destruct Hi as (d & _ & Hd%lookup_lt_Some). lia.
Qed.

(** What a step of the loading leaves. *)
Definition loads_one (q : objptr) (fn : ObjFunction) (c : Value) (w w' : VM) : Prop := ∃ a c',
  grows_to w w' ∧ vm_objects w' = <[q := OBJ_FUNCTION (set_constants a fn)]> (vm_objects w) ∧
  array_ok a ∧ elements a = elements (constants (chunk fn)) ++ [c'] ∧ same_constant same_place v w' c c'.
Lemma loads_one_append q fn c c' w w1 : vm_objects w !! q = Some (OBJ_FUNCTION fn) → array_ok (constants (chunk fn)) →
  grows_to w w1 → vm_objects w1 = vm_objects w → same_constant same_place v w1 c c' →
  ∃ w', append_constant q c' w1 = Some ((), w') ∧ loads_one q fn c w w'.
Proof.
  intros Hq Ha Hw Ho Hc. rewrite <-Ho in Hq. destruct (append_constant_ok q c' w1 fn Hq Ha) as (a & E & Ha' & He).
  eexists. split; [exact E|]. exists a, c'. split; [by destruct Hw; split|]. split; [simpl; by rewrite Ho|]. split; [done|]. split; [done|].
  eapply same_constant_grows; [|exact Hc]. split; [done|by intros ? ?|done|done].
Qed.
Lemma load_constant_ok q c ci n w fn : item_ok g c ci → offset_ok v (stringsFile_ g) is' ci → lies b n (pack_item ci) →
  pool_ok (vm_pool w) → vm_objects w !! q = Some (OBJ_FUNCTION fn) → array_ok (constants (chunk fn)) →
  ∃ w', load_constant b lay ps q n w = Some ((), w') ∧ loads_one q fn c w w'.
Proof.
  intros Hi Ho HL HP Hq Ha. destruct (pack_item_lies ci b n HL (item_number_bound c ci Hi Ho)) as [E1 E2]. unfold load_constant.
  rewrite (st_bind_run _ _ _ _ _ (opt_run _ _ w E2)). cbv zeta beta. rewrite (st_bind_run _ _ _ _ _ (opt_run _ _ w E1)). cbv beta.
  rewrite type_code_type. assert (grows_to w w) as Hw by done. unfold item_ok, offset_ok, item_number in *. destruct (ci_type ci).
  - destruct Hi as (k & -> & Hk). rewrite Ho. destruct (Forall_lookup_1 _ _ _ _ (fg_strings _ _ Hgood) Hk) as (cs & Hcs & Hb).
    pose proof (string_at _ _ Hk) as Hat. assert (pack_string v k = bytes_cells cs ++ [Byte 0]) as Ek by (unfold pack_string, vm_str; by rewrite (string_is_chars _ _ _ Hcs)).
    rewrite Ek in Hat. rewrite (st_bind_run _ _ _ _ _ (opt_run _ _ w (cell_string_lies _ _ _ Hat Hb))). cbv beta.
    destruct (intern_run cs w HP) as (k' & P & EP & HP' & Hle & Hk'). rewrite (st_bind_run _ _ _ _ _ EP).
    apply loads_one_append; try done. by exists k', cs.
  - destruct Hi as (bs & -> & Hk). rewrite Ho. destruct (Forall2_lookup_l _ _ _ _ _ Hints Hk) as (i & Hi' & Hbs & Wi).
    destruct (Forall2_lookup_l _ _ _ _ _ Hos Hi') as (o & Ho' & Hio).
    destruct (load_int_ok b i o _ w Hio Wi (int_at _ _ Ho')) as (bsi & w1 & o' & E & Hw1 & Hobj & Hpool & Hint & Wo & Vo & Oo & Lo).
    rewrite (st_bind_run _ _ _ _ _ E). apply loads_one_append; try done. by exists bsi, i, o'.
  - destruct Hi as (d & -> & Hd). rewrite Nat2Z.id.
    pose proof (lies_entry _ 8 _ _ _ _ _ (λ d, frags_length _ 8) (lo_doubles Hlay) Hd) as Hat. cbv beta in Hat.
    assert ((cs ← slice b (l_doubles lay + 8 * index_ ci) 8; as_double cs) = Some d) as Es.
    { rewrite (slice_lies _ _ _ _ Hat) by (by rewrite frags_length). cbn [mbind option_bind]. apply as_double_frags. lia. }
    rewrite (st_bind_run _ _ _ _ _ (opt_run _ _ w Es)). by apply loads_one_append.
  - destruct Hi as (p & -> & Hp). rewrite Nat2Z.id. destruct (lookup_lt_is_Some_2 ps (index_ ci)) as [q' Hq'].
    { rewrite Hps. apply lookup_lt_Some in Hp. by rewrite length_fmap in Hp. }
    rewrite (st_bind_run _ _ _ _ _ (opt_run _ _ w Hq')). apply loads_one_append; try done. exists q'. split; [done|]. by exists (index_ ci).
  - destruct Hi as (x & -> & Hx). rewrite Nat2Z.id. destruct (Forall_lookup_1 _ _ _ _ (fg_addresses _ _ Hgood) Hx) as [Hx1 Hx2].
    pose proof (lies_entry _ 8 _ _ _ _ _ (le_split_length 8) (lo_addresses Hlay) Hx) as Hat.
    rewrite (st_bind_run _ _ _ _ _ (opt_run _ _ w (read_le_lies 8 x b _ Hat Hx1))). cbv beta. rewrite Z.mod_small by lia.
    by apply loads_one_append.
Qed.

(** All constants of a function. *)
Definition loads_all (q : objptr) (fn : ObjFunction) (cs : list Value) (w w' : VM) : Prop := ∃ a cs',
  grows_to w w' ∧ vm_objects w' = <[q := OBJ_FUNCTION (set_constants a fn)]> (vm_objects w) ∧
  array_ok a ∧ elements a = elements (constants (chunk fn)) ++ cs' ∧ Forall2 (same_constant same_place v w') cs cs'.
Lemma load_items_ok q cs its : Forall2 (item_ok g) cs its → Forall (offset_ok v (stringsFile_ g) is') its → ∀ n w fn,
  lies b n (flat_map pack_item its) → pool_ok (vm_pool w) → vm_objects w !! q = Some (OBJ_FUNCTION fn) → array_ok (constants (chunk fn)) →
  ∃ w', load_items b lay ps q (length its) n w = Some ((), w') ∧ loads_all q fn cs w w'.
Proof.
  induction 1 as [|c ci cs its Hc _ IH]; intros Ho n w fn HL HP Hq Ha.
  { exists w. split; [done|]. exists (constants (chunk fn)), []. split; [done|]. split; [|by rewrite app_nil_r].
    destruct fn as [? ? [] ?]. by rewrite insert_id. }
  apply list.Forall_cons in Ho as [Hoc Ho]. cbn [flat_map] in HL. apply lies_app in HL as [H1 H2]. rewrite pack_item_length in H2.
  destruct (load_constant_ok q c ci n w fn Hc Hoc H1 HP Hq Ha) as (w1 & E1 & a1 & c' & G1 & O1 & A1 & El1 & C1).
  destruct (IH Ho (n + 4)%nat w1 (set_constants a1 fn) H2) as (w2 & E2 & a2 & cs' & G2 & O2 & A2 & El2 & C2);
    [by apply G1|by rewrite O1, lookup_insert_eq|done|].
  exists w2. cbn [length load_items]. split; [by rewrite (st_bind_run _ _ _ _ _ E1)|]. exists a2, (c' :: cs'). split; [by etrans|].
  split; [rewrite O2, O1, insert_insert_eq; by destruct fn|]. split; [done|]. split; [rewrite El2; simpl; by rewrite El1, <-app_assoc|].
  constructor; [by eapply same_constant_grows|done].
Qed.

(** ** Functions *)
Definition function_of (x : FlatFun) (fn' : ObjFunction) : Prop := ∃ fn, function_at v (f_ x) = Some fn ∧
  code (chunk fn') = code (chunk fn) ∧ arity fn' = arity fn ∧ upvalueCount fn' = upvalueCount fn.
(** The function [x] as the loader has made it before its constants, and after. *)
Definition empty_function (w : VM) (x : FlatFun) (q : objptr) : Prop := ∃ fn', vm_objects w !! q = Some (OBJ_FUNCTION fn') ∧
  function_of x fn' ∧ array_ok (constants (chunk fn')) ∧ elements (constants (chunk fn')) = [].
Definition full_function (w : VM) (x : FlatFun) (q : objptr) : Prop := ∃ fn fn', function_at v (f_ x) = Some fn ∧
  vm_objects w !! q = Some (OBJ_FUNCTION fn') ∧ function_of x fn' ∧
  Forall2 (same_constant same_place v w) (constants_of fn) (constants_of fn').
Lemma load_constants_ok xs qs pcs : Forall2 (packed_as v b) xs pcs →
  (∀ x, x ∈ xs → ∃ fn, function_at v (f_ x) = Some fn ∧ Forall2 (item_ok g) (constants_of fn) (items (chunk_ x)) ∧
    Forall (offset_ok v (stringsFile_ g) is') (items (chunk_ x))) →
  ∀ w, base.NoDup qs → Forall2 (empty_function w) xs qs → pool_ok (vm_pool w) →
  ∃ w', load_constants b lay ps qs pcs w = Some ((), w') ∧ grows_to w w' ∧ Forall2 (full_function w') xs qs ∧
    (∀ q, q ∉ qs → vm_objects w' !! q = vm_objects w !! q).
Proof.
  intros Hpc. revert qs. induction Hpc as [|x pc xs pcs Hx _ IH]; intros qs Hxs w Hnd He HP.
  { inversion He; subst. by exists w. }
  inversion He as [|? q ? qs' (fn' & Hq & Hfn' & Ha & Hel) He']; subst. apply list.NoDup_cons in Hnd as [Hnot Hnd].
  destruct (Hxs x ltac:(left)) as (fn & Hfn & Hits & Hoff).
  destruct (load_items_ok q _ _ Hits Hoff (pc_at pc + 8) w fn' (pa_items _ _ _ _ Hx) HP Hq Ha) as (w1 & E1 & a & cs' & G1 & O1 & A1 & El1 & C1).
  rewrite Hel in El1. simpl in El1.
  destruct (IH qs') with (w := w1) as (w2 & E2 & G2 & F2 & K2); [by intros y Hy; apply Hxs; right|done| |by apply G1|].
  { eapply Forall2_impl_in; [exact He'|]. intros y q' Hq' (f & Hf & H). exists f. rewrite O1, lookup_insert_ne by (intros ->; done). done. }
  exists w2. cbn [load_constants]. rewrite (pa_consts _ _ _ _ Hx). split; [by rewrite (st_bind_run _ _ _ _ _ E1)|]. split; [by etrans|].
  split; [constructor; [|done]|].
  - exists fn, (set_constants a fn'). split; [done|]. split; [by rewrite K2, O1, lookup_insert_eq|]. split; [done|].
    change (constants_of (set_constants a fn')) with (elements a). rewrite El1. eapply Forall2_impl; [|exact C1].
    intros c c'. by apply same_constant_grows.
  - intros q' Hq'. apply not_elem_of_cons in Hq' as [Hne Hq']. by rewrite K2, O1, lookup_insert_ne.
Qed.
End Constants.
End Load.
