(* ===== verification/PackSpec.v ===== *)
(** * Packages: the round trip

    A script that is packed by one machine and loaded by another is the same
    script there: the functions have the same code and sizes, and constants
    with the same values. *)
From Stdlib Require Import String Ascii.
From S2P Require Import IntSpec ValueSpec PackedSpec ErrorSpec RoutineSpec CompilerSpec StackSpec.
From S2P Require Export LoadSpec.
Open Scope Z_scope.

Section Trip.
Context `{U : Uninit} `{TG : Target} `{HO : Host} `{FM : FreshMemory}.

(** ** The header *)
Lemma u16_lies b i x y : lies b i (u16le x ++ y) → 0 ≤ x < 65536 → read_le 2 b i = Some x ∧ lies b (i + 2) y.
Proof. intros [H1 H2]%lies_app Hx. split; [by apply read_le_lies|done]. Qed.
Lemma total_bound (l : list Z) m : Forall (λ x, x < m) l → total l ≤ m * Z.of_nat (length l).
Proof. unfold total. induction 1; simpl in *; lia. Qed.
Lemma body_length_bound v fns p g is' : good_files v fns p g is' → fits_ok g → 0 ≤ body_length g < 2 ^ 32.
Proof.
  intros Hg [F1 F2 F3 F4 F5 F6 F7 F8]. unfold body_length, words_length. rewrite (gg_lines _ _ _ _ _ Hg). cbn [fst]. change (u16 (Z.of_nat 0)) with 0.
  cbn [Z.ltb Z.compare]. rewrite (gg_code_total _ _ _ _ _ Hg). unfold u16. rewrite !Z.mod_small by lia. rewrite items_total.
  assert (0 ≤ totalStringLength_ g) as H1.
  { rewrite (gg_strings_total _ _ _ _ _ Hg). apply total_nonneg, Forall_fmap, list.Forall_true. intros k. unfold compose, string_length. lia. }
  assert (0 ≤ totalIntsLength_ g) as H2.
  { rewrite (gg_ints_total _ _ _ _ _ Hg). apply total_nonneg, Forall_fmap, list.Forall_true. intros k. unfold compose, int_length. lia. }
  assert (0 ≤ code_total (funsFile_ g) ≤ 65536 * 256) as H3.
  { split; [apply total_nonneg, Forall_fmap, list.Forall_true; intros k; unfold compose; lia|]. unfold code_total. etrans; [apply (total_bound _ 65536)|].
    - apply Forall_fmap. eapply list.Forall_impl; [exact F6|]. unfold compose. tauto.
    - rewrite length_fmap. lia. }
  assert (Z.of_nat (foldr (λ x n, 4 * length (items (chunk_ x)) + n)%nat 0%nat (funsFile_ g)) ≤ 4 * 65536 * 256) as H4.
  { rewrite <-items_total. assert (∀ l, Forall (λ x, Z.of_nat (length (code_ (chunk_ x))) < 65536 ∧ Z.of_nat (length (items (chunk_ x))) < 65536) l →
      foldr (λ x n, 4 * Z.of_nat (length (items (chunk_ x))) + n) 0 l ≤ 4 * 65536 * Z.of_nat (length l)) as H.
    { induction 1 as [|x l Hx _ IH]; cbn [foldr length]; [lia|]. lia. }
    specialize (H _ F6). lia. }
  lia.
Qed.
Lemma magic_bytes : Forall is_byte packageMagic.
Proof. unfold packageMagic, is_byte. repeat apply Forall_cons_2; try apply Forall_nil_2; lia. Qed.
Lemma read_header_ok v fns p g is' body : good_files v fns p g is' → fits_ok g → read_header (pack_header g ++ body) = Some (package_header g).
Proof.
  intros Hg Hf. pose proof (body_length_bound _ _ _ _ _ Hg Hf) as Hb. destruct Hf as [F1 F2 F3 F4 F5 _ _ _].
  assert (lies (pack_header g ++ body) 0 (pack_header g)) as HL by (exists [], body; done).
  unfold pack_header at 2 in HL. rewrite (gg_lines _ _ _ _ _ Hg) in HL. cbn [fst] in HL. apply lies_app in HL as [L0 HL].
  change (0 + length (bytes_cells packageMagic))%nat with 6%nat in HL. apply u16_lies in HL as [E1 HL]; [|done].
  apply u16_lies in HL as [E2 HL]; [|lia]. apply u16_lies in HL as [E3 HL]; [|lia]. apply u16_lies in HL as [E4 HL]; [|lia].
  apply u16_lies in HL as [E5 HL]; [|lia]. apply u16_lies in HL as [E6 HL]; [|lia]. apply u16_lies in HL as [E7 HL]; [|lia].
  apply read_le_lies in HL; [|exact Hb]. cbn [Nat.add] in *.
  unfold read_header. rewrite (slice_lies _ _ _ 6 L0 eq_refl). cbn [mbind option_bind]. rewrite (cell_bytes_bytes _ magic_bytes).
  cbn [mbind option_bind]. rewrite E1. cbn [mbind option_bind]. rewrite E2. cbn [mbind option_bind]. rewrite E3. cbn [mbind option_bind].
  rewrite E4. cbn [mbind option_bind]. rewrite E5. cbn [mbind option_bind]. rewrite E6. cbn [mbind option_bind]. rewrite E7. cbn [mbind option_bind].
  rewrite HL. cbn [mbind option_bind]. by rewrite !Nat2Z.id.
Qed.

(** ** The functions *)
Record functions_made (ctx : objptr) (R : ObjRoutine) (n : nat) (ps : list objptr) (w w' : VM) : Prop := {
  fm_length : length ps = n;
  fm_nodup : base.NoDup ps;
  fm_rest : w' = set_objects (vm_objects w') w;
  fm_stack : ∃ R' above, vm_objects w' !! ctx = Some (OBJ_ROUTINE R') ∧ with_stack R (stack_of R ++ above) R' ∧ length above = n;
  fm_new : Forall (λ q, vm_objects w !! q = None ∧ vm_objects w' !! q = Some (OBJ_FUNCTION initFunction)) ps;
  fm_old : ∀ q, is_Some (vm_objects w !! q) → q ≠ ctx → vm_objects w' !! q = vm_objects w !! q
}.
Lemma new_functions_ok ctx n : ∀ w R, vm_objects w !! ctx = Some (OBJ_ROUTINE R) → wf_stack R → addSlice R = true →
  Z.of_nat (length (stack_of R)) + Z.of_nat n < 2 ^ 31 →
  ∃ ps w', new_functions ctx n w = Some (ps, w') ∧ functions_made ctx R n ps w w'.
Proof.
  induction n as [|n IH]; intros w R HR W A Hn.
  { exists [], w. split; [done|]. split; [done|constructor|by destruct w| |constructor|done].
    exists R, []. rewrite app_nil_r. split; [done|]. by split; [split|]. }
  cbn [new_functions]. set (p := fresh (dom (vm_objects w))). set (w0 := set_objects (<[p := OBJ_FUNCTION initFunction]> (vm_objects w)) w).
  assert (vm_objects w !! p = None) as Hp by (apply not_elem_of_dom, is_fresh).
  assert (ctx ≠ p) as Hne by congruence.
  assert (new_obj (OBJ_FUNCTION initFunction) w = Some (p, w0)) as E0 by done. rewrite (st_bind_run _ _ _ _ _ E0).
  assert (vm_objects w0 !! ctx = Some (OBJ_ROUTINE R)) as HR0 by (simpl; by rewrite lookup_insert_ne).
  destruct (push_run ctx (FUNCTION_VAL p) w0 R HR0 W) as (R1 & E1 & (W1 & S1 & F1) & _); [unfold addressable; lia|done|].
  rewrite (st_bind_run _ _ _ _ _ E1). destruct (IH (upd ctx R1 w0) R1) as (ps & w' & E & [M1 M2 M3 (R' & above & M4 & M5 & M6) M7 M8]);
    [apply upd_eq|done|unfold rest_of in F1; congruence|rewrite S1, length_app; simpl; lia|].
  rewrite (st_bind_run _ _ _ _ _ E). exists (p :: ps), w'. split; [done|].
  assert (∀ q, is_Some (vm_objects w !! q) → q ≠ ctx → vm_objects (upd ctx R1 w0) !! q = vm_objects w !! q) as Hold.
  { intros q [o Hq] Hqc. rewrite upd_ne by done. simpl. rewrite lookup_insert_ne by congruence. done. }
  assert (vm_objects (upd ctx R1 w0) !! p = Some (OBJ_FUNCTION initFunction)) as Hp1 by (rewrite upd_ne by done; simpl; by rewrite lookup_insert_eq).
  split.
  - simpl. by rewrite M1.
  - apply list.NoDup_cons. split; [|done]. intros Hin. rewrite list.Forall_forall in M7. destruct (M7 p Hin) as [H _]. congruence.
  - rewrite M3. done.
  - exists R', ([mkCell (FUNCTION_VAL p) None] ++ above). split; [done|]. split; [|simpl; by rewrite M6].
    rewrite app_assoc, <-S1. eapply with_stack_trans; [|exact M5]. by split; [|split].
  - constructor; [split; [done|rewrite M8; [done|by eexists|done]]|]. eapply list.Forall_impl; [exact M7|].
    intros q [Hq1 Hq2]. split; [|done]. destruct (decide (q = ctx)) as [->|Hqc]; [by rewrite upd_eq in Hq1|].
    rewrite upd_ne in Hq1 by done. simpl in Hq1. by apply lookup_insert_None in Hq1 as [? _].
  - intros q Hq Hqc. rewrite M8; [by apply Hold| |done]. by rewrite Hold.
Qed.

(** The code and the sizes. *)
Lemma set_codes_ok v b xs pcs : Forall2 (packed_as v b) xs pcs →
  (∀ x, x ∈ xs → ∃ fn, function_at v (f_ x) = Some fn ∧ code_ (chunk_ x) = code (chunk fn) ∧ Forall is_byte (code (chunk fn))) →
  ∀ qs next w, base.NoDup qs → length qs = length xs → Forall (λ q, ∃ fn', vm_objects w !! q = Some (OBJ_FUNCTION fn')) qs →
  lies b next (flat_map (λ x, bytes_cells (code_ (chunk_ x))) xs) →
  ∃ n w', set_codes b qs pcs next w = Some (n, w') ∧ w' = set_objects (vm_objects w') w ∧
    Forall2 (empty_function v w') xs qs ∧ (∀ q, q ∉ qs → vm_objects w' !! q = vm_objects w !! q).
Proof.
  intros Hpc. induction Hpc as [|x pc xs pcs Hx _ IH]; intros Hxs qs next w Hnd Hl Hq HL.
  { destruct qs; [|done]. exists next, w. split; [done|]. split; [by destruct w|]. by split. }
  destruct qs as [|q qs]; [done|]. apply list.NoDup_cons in Hnd as [Hnot Hnd]. apply list.Forall_cons in Hq as [[fn0 Hq] Hqs].
  cbn [flat_map] in HL. apply lies_app in HL as [L1 L2]. rewrite bytes_cells_length in L2.
  destruct (Hxs x ltac:(left)) as (fn & Hfn & Hcode & Hbytes). destruct (pa_fn _ _ _ _ Hx) as (fn' & Hfn' & Ha & Hu).
  rewrite Hfn in Hfn'. injection Hfn' as <-.
  set (f1 := mkFunction (arity_ pc) (numUpvalues_ pc) (mkChunk (ccapacity (chunk fn0)) (code_ (chunk_ x)) (lines (chunk fn0)) initDynamicValueArray) (fName fn0)).
  set (w1 := set_objects (<[q := OBJ_FUNCTION f1]> (vm_objects w)) w).
  assert ((cs ← slice b next (codeLength_ pc); cell_bytes cs) = Some (code_ (chunk_ x))) as Es.
  { rewrite (slice_lies b next _ _ L1) by (by rewrite bytes_cells_length, (pa_code _ _ _ _ Hx)). cbn [mbind option_bind].
    apply cell_bytes_bytes. by rewrite Hcode. }
  destruct (IH) with (qs := qs) (next := (next + codeLength_ pc)%nat) (w := w1) as (n & w' & E & Er & Hf & Hk);
    [by intros y Hy; apply Hxs; right|done|by injection Hl| |by rewrite (pa_code _ _ _ _ Hx)|].
  { eapply list.Forall_impl; [exact Hqs|]. intros q' [g Hg]. simpl. destruct (decide (q' = q)) as [->|]; [exists f1; apply lookup_insert_eq|].
    exists g. by rewrite lookup_insert_ne. }
  exists n, w'. cbn [set_codes]. split.
  { rewrite (st_bind_run _ _ _ _ _ (opt_run _ _ w Es)). cbv beta. unfold modify_function at 1.
    erewrite st_bind_run; [exact E|]. rewrite (st_bind_run _ _ _ _ _ (get_function_run _ _ _ Hq)). apply put_obj_run. }
  split; [by rewrite Er|]. split.
  - constructor; [|done]. exists f1. rewrite (Hk q Hnot). split; [apply lookup_insert_eq|]. split; [|by split].
    exists fn. unfold f1. simpl. by rewrite Hcode.
  - intros q' [Hne Hq']%not_elem_of_cons. rewrite (Hk q' Hq'). simpl. by rewrite lookup_insert_ne.
Qed.

(** ** The same function *)

(** Related functions have the same code, and related constants: they do the
    same. *)
Definition simulation (R : gset (objptr * objptr)) (v w : VM) : Prop := ∀ p q, (p, q) ∈ R → ∃ fn fn',
  function_at v p = Some fn ∧ function_at w q = Some fn' ∧ code (chunk fn') = code (chunk fn) ∧
  arity fn' = arity fn ∧ upvalueCount fn' = upvalueCount fn ∧
  Forall2 (same_constant (λ p q, (p, q) ∈ R) v w) (constants_of fn) (constants_of fn').
Definition same_function (v w : VM) (p q : objptr) : Prop := ∃ R, (p, q) ∈ R ∧ simulation R v w.

(** A function that is the same passes the verifier as well. *)
Lemma simulation_info R fns fin v w fn fn' : verified_set fns v → simulation R v w → (∀ p q, (p, q) ∈ R → p ∈ fns → q ∈ fin) →
  upvalueCount fn' = upvalueCount fn → Forall2 (same_constant (λ p q, (p, q) ∈ R) v w) (constants_of fn) (constants_of fn') →
  info_sim (mkInfo (fconsts fn) (upvalueCount fn) (fin_ups fns v)) (mkInfo (fconsts fn') (upvalueCount fn') (fin_ups fin w)).
Proof.
  intros HV HR Hfin Hu Hcs.
  assert (∀ b c, constants_of fn !! Z.to_nat b = Some c → ∃ c', constants_of fn' !! Z.to_nat b = Some c' ∧
    same_constant (λ p q, (p, q) ∈ R) v w c c') as Hl by (intros b c Hc; by eapply Forall2_lookup_l).
  change (fconsts fn) with (constants_of fn). change (fconsts fn') with (constants_of fn').
  split; unfold is_string_constant, closure_ups, constant; simpl; [| | |lia].
  - intros b [c Hc]. destruct (Hl b c Hc) as (c' & Hc' & _). by exists c'.
  - intros b. destruct (constants_of fn !! _) as [c|] eqn:Hc; [|done]. destruct (Hl b c Hc) as (c' & -> & H).
    destruct c as [| | | | | |t o| |]; try done. destruct t as [s| | | |]; try done. destruct s; try done. destruct o as [k|]; [|done].
    by destruct H as (k' & cs & -> & _).
  - intros b n. destruct (constants_of fn !! _) as [c|] eqn:Hc; [|done]. destruct (Hl b c Hc) as (c' & -> & H).
    destruct c as [| | | | | |t o| |]; try done. destruct t as [s| | | |]; try done. destruct s; try done. destruct o as [p|]; [|done].
    destruct H as (q & -> & Hq). unfold fin_ups. destruct (decide (p ∈ fns)) as [Hin|]; [|done].
    cbv [FUNCTION_VAL]. rewrite decide_True by (by eapply Hfin). destruct (HR _ _ Hq) as (f & f' & Hf & Hf' & _ & _ & Hups & _).
    change (fn_of v p) with (function_at v p). change (fn_of w q) with (function_at w q). rewrite Hf, Hf'. simpl. by rewrite Hups.
Qed.
Lemma same_function_verified v w p q fns : same_function v w p q → p ∈ fns → verified_set fns v → ∃ fin, q ∈ fin ∧ verified_set fin w.
Proof.
  intros (R & Hpq & HR) Hp HV. set (fin := set_map (D := gset objptr) snd (filter (λ x, x.1 ∈ fns) R)).
  assert (∀ p' q', (p', q') ∈ R → p' ∈ fns → q' ∈ fin) as Hfin.
  { intros p' q' H1 H2. apply elem_of_map. exists (p', q'). split; [done|]. by apply elem_of_filter. }
  exists fin. split; [by apply (Hfin p)|]. intros q' (x & -> & Hx)%elem_of_map. destruct x as [p' q0]. apply elem_of_filter in Hx as [Hp' Hin]. simpl in *.
  destruct (HR p' q0 Hin) as (fn & fn' & Hfn & Hfn' & Hcode & Ha & Hu & Hcs). destruct (HV p' Hp') as (f & Hf & Hver & Hfs).
  change (fn_of v p') with (function_at v p') in Hf. rewrite Hfn in Hf. injection Hf as <-.
  exists fn'. split; [done|]. split.
  - unfold fcode. rewrite Hcode, Ha. eapply safe_sim; [|exact Hver]. by eapply simulation_info.
  - intros q1 Hq1. apply list_elem_of_lookup in Hq1 as [k Hk]. destruct (Forall2_lookup_r _ _ _ _ _ Hcs Hk) as (c & Hc & H).
    apply same_constant_function in H as (p1 & -> & Hin1). eapply Hfin; [exact Hin1|]. apply Hfs. by eapply list_elem_of_lookup_2.
Qed.

(** A machine that can load a package, in the context of the routine [R]. *)
Record can_load (ctx : objptr) (R : ObjRoutine) (w : VM) : Prop := {
  cl_routine : vm_objects w !! ctx = Some (OBJ_ROUTINE R);
  cl_stack : wf_stack R;
  cl_slices : addSlice R = true;
  cl_room : Z.of_nat (length (stack_of R)) + 256 < 2 ^ 31;
  cl_pool : pool_ok (vm_pool w)
}.
(** What is left by a load: the stack as it was, the other objects as they were. *)
Record loaded (ctx : objptr) (R : ObjRoutine) (w w' : VM) : Prop := {
  ld_stack : ∃ R', vm_objects w' !! ctx = Some (OBJ_ROUTINE R') ∧ with_stack R (stack_of R) R';
  ld_old : ∀ q, is_Some (vm_objects w !! q) → q ≠ ctx → vm_objects w' !! q = vm_objects w !! q;
  ld_grows : grows_to w w'
}.

(** ** Loading the image *)
Lemma pack_header_length g : length (pack_header g) = 24%nat.
Proof. done. Qed.
Section Image.
Variables (v : VM) (fns : gset objptr) (rank : objptr → nat) (p : objptr) (g : FlatFiles) (is' os : list Int) (chunks : list Cell).
Hypothesis Hpack : packable v fns rank.
Hypothesis Hscript : ∀ fn, function_at v p = Some fn → arity fn = 0 ∧ upvalueCount fn = 0%nat.
Hypothesis Hg : good_files v fns p g is'.
Hypothesis Hf : fits_ok g.
Hypothesis Hc : pack_chunks v 0 (funsFile_ g) = Some chunks.
Hypothesis Hos : Forall2 packed_int is' os.
Abbreviation b := (package_body v g chunks os).

(** Where the parts of the body are. *)
Definition chunks_at : nat := (8 * length (doublesFile_ g) + 8 * length (addressesFile_ g))%nat.
Definition package_layout : Layout :=
  mkLayout 0 (8 * length (doublesFile_ g)) (chunks_at + length chunks) (chunks_at + length chunks + length (flat_map int_cells os)).
Definition code_at : nat := (l_strings package_layout + length (flat_map (pack_string v) (stringsFile_ g)))%nat.
Lemma body_places : laid_out v g os b package_layout ∧ lies b chunks_at chunks ∧
  lies b code_at (flat_map (λ x, bytes_cells (code_ (chunk_ x))) (funsFile_ g)).
Proof.
  assert (lies b 0 b) as H by (exists [], []; by rewrite app_nil_r).
  unfold package_body at 2 in H. apply lies_app in H as [H1 H]. apply lies_app in H as [H2 H]. apply lies_app in H as [H3 H].
  apply lies_app in H as [H4 H]. apply lies_app in H as [H5 H6]. cbn [Nat.add] in *.
  rewrite !(flat_map_length_const (λ d, frags (StoredDouble d) 8) 8) in * by (intros; apply frags_length).
  rewrite !(flat_map_length_const (le_split 8) 8) in * by (intros; apply le_split_length). by split; [split|].
Qed.
Lemma body_entries x : x ∈ funsFile_ g → ∃ fn, function_at v (f_ x) = Some fn ∧ code_ (chunk_ x) = code (chunk fn) ∧ Forall is_byte (code (chunk fn)) ∧
  Forall2 (item_ok g) (constants_of fn) (items (chunk_ x)) ∧ Forall (offset_ok v (stringsFile_ g) is') (items (chunk_ x)).
Proof.
  intros (k & Hx)%list_elem_of_lookup.
  destruct (entries_ok v fns rank p g is' Hpack Hscript Hg Hf k x Hx) as (fn & [H1 _ _ _ _ _] & [_ [H2 _] _] & H3 & H4 & H5). by exists fn.
Qed.
Lemma body_reads : ∃ pcs, read_chunks (length (funsFile_ g)) b chunks_at = Some (pcs, l_ints package_layout) ∧
  skip_ints (length (intsFile_ g)) b (l_ints package_layout) = Some (l_strings package_layout) ∧
  skip_strings (length (stringsFile_ g)) b (l_strings package_layout) = Some code_at ∧ Forall2 (packed_as v b) (funsFile_ g) pcs.
Proof.
  destruct body_places as (Hlay & Lc & _). destruct (pack_chunks_ok v (funsFile_ g) 0%nat) as (chunks' & Hc' & _ & Hread).
  { intros k x Hx. destruct (entries_ok v fns rank p g is' Hpack Hscript Hg Hf k x Hx) as (fn & H & _). by exists fn. }
  rewrite Hc in Hc'. injection Hc' as <-. destruct (Hread b _ Lc) as (pcs & Epcs & Hpcs). exists pcs. split; [exact Epcs|].
  pose proof (gg_ints _ _ _ _ _ Hg) as Hints.
  assert (length (intsFile_ g) = length os) as -> by (by rewrite (list.Forall2_length _ _ _ Hints), (list.Forall2_length _ _ _ Hos)).
  split; [|split; [|done]].
  - apply (skip_ints_ok b is' os Hos); [|apply Hlay]. apply (Forall2_Forall_r _ _ _ _ Hints), list.Forall_true. by intros ? ? [_ ?].
  - apply (skip_strings_ok v b); [apply (gg_good _ _ _ _ _ Hg)|apply Hlay].
Qed.

(** From the new functions to the loaded ones. *)
Lemma functions_loaded ctx R ps pcs w w1 : Forall2 (packed_as v b) (funsFile_ g) pcs → pool_ok (vm_pool w) →
  functions_made ctx R (length (funsFile_ g)) ps w w1 →
  ∃ n w2 w3, set_codes b ps pcs code_at w1 = Some (n, w2) ∧ load_constants b package_layout ps ps pcs w2 = Some ((), w3) ∧
    grows_to w w3 ∧ Forall2 (full_function v g ps w3) (funsFile_ g) ps ∧ (∀ q, q ∉ ps → vm_objects w3 !! q = vm_objects w1 !! q).
Proof.
  intros Hpcs HP [M1 M2 M3 _ M7 _]. destruct body_places as (Hlay & _ & Lcode).
  destruct (set_codes_ok v b (funsFile_ g) pcs Hpcs) with (qs := ps) (w := w1) (next := code_at) as (n & w2 & E2 & S2 & F2 & K2); [|done|done| |done|].
  { intros x Hx. destruct (body_entries x Hx) as (fn & H1 & H2 & H3 & _). by exists fn. }
  { eapply list.Forall_impl; [exact M7|]. intros q [_ Hq]. by eexists. }
  assert (grows_to w w2) as G2 by (rewrite S2, M3; split; [done|by intros ? ?|done|done]).
  destruct (load_constants_ok v g is' os b package_layout ps Hlay Hf (gg_good _ _ _ _ _ Hg) (gg_ints _ _ _ _ _ Hg) Hos
    (gg_strings_total _ _ _ _ _ Hg) (gg_ints_total _ _ _ _ _ Hg) M1 (funsFile_ g) ps pcs Hpcs) with (w := w2) as (w3 & E3 & G3 & F3 & K3); [|done|done|by apply G2|].
  { intros x Hx. destruct (body_entries x Hx) as (fn & H1 & _ & _ & H2 & H3). by exists fn. }
  exists n, w2, w3. split; [done|]. split; [done|]. split; [by etrans|]. split; [done|]. intros q Hq. by rewrite K3, K2.
Qed.
Lemma grows_to_upd ctx R w : grows_to w (upd ctx R w).
Proof. split; [done|by intros ? ?|done|done]. Qed.
Lemma full_same_function ctx R w q ps : Forall2 (full_function v g (q :: ps) w) (funsFile_ g) (q :: ps) → ctx ∉ q :: ps →
  same_function v (upd ctx R w) p q.
Proof.
  intros F Hctx. set (Rs := list_to_set (zip (fun_ptrs g) (q :: ps)) : gset (objptr * objptr)).
  assert (∀ p' q', (p', q') ∈ Rs ↔ same_place g (q :: ps) p' q') as HRs.
  { intros p' q'. unfold Rs. rewrite elem_of_list_to_set, list_elem_of_lookup. unfold same_place.
    split; intros [j H]; exists j; [by apply lookup_zip_Some in H|by apply lookup_zip_Some]. }
  exists Rs. destruct (gg_script _ _ _ _ _ Hg) as [rest Hrest]. split; [apply HRs; exists 0%nat; by rewrite Hrest|].
  intros p' q' (j & Hp' & Hq')%HRs. rewrite list_lookup_fmap in Hp'. destruct (funsFile_ g !! j) as [x|] eqn:Hx; [|done]. injection Hp' as <-.
  destruct (Forall2_lookup_lr _ _ _ _ _ _ F Hx Hq') as (fn & fn' & Hfn & Hq & (fn2 & Hfn2 & H1 & H2 & H3) & Hcs).
  rewrite Hfn in Hfn2. injection Hfn2 as <-. exists fn, fn'. split; [done|]. split.
  { unfold function_at. rewrite upd_ne, Hq; [done|]. intros ->. by apply Hctx, list_elem_of_lookup; eexists. }
  split; [done|]. split; [done|]. split; [done|]. eapply Forall2_impl; [|exact Hcs]. intros c c' H.
  eapply same_constant_grows; [apply grows_to_upd|]. eapply same_constant_mono; [|exact H]. intros ? ?. apply HRs.
Qed.

Lemma load_image ctx R location w : Z.of_nat (length b) = body_length g → can_load ctx R w → location mod 8 = 0 →
  ∃ q w', loadPackageFromBuffer ctx location (pack_header g ++ b) w = Some (Some q, w') ∧ same_function v w' p q ∧ loaded ctx R w w'.
Proof.
  intros Hlen [C1 C2 C3 C4 C5] Hloc. destruct body_reads as (pcs & Epcs & Eskip & Eskip2 & Hpcs). pose proof (ft_funs _ Hf) as H256.
  destruct (new_functions_ok ctx (length (funsFile_ g)) w R C1 C2 C3 ltac:(lia)) as (ps & w1 & E1 & HM).
  destruct (functions_loaded ctx R ps pcs w w1 Hpcs C5 HM) as (n & w2 & w3 & E2 & E3 & G3 & F3 & K3).
  destruct HM as [M1 _ _ (R1 & above & M4 & M5 & M6) M7 M8]. rewrite list.Forall_forall in M7.
  assert (ctx ∉ ps) as Hctx by (intros Hin; destruct (M7 ctx Hin) as [H _]; congruence).
  destruct (popN_run ctx (stack_of R) above w3 R1) as (R4 & E4 & W4 & _); [by rewrite K3|apply M5| |apply M5|].
  { unfold addressable. destruct M5 as (_ & -> & _). rewrite length_app, M6. lia. }
  rewrite M6 in E4. destruct ps as [|q ps]; [destruct (gg_script _ _ _ _ _ Hg) as [rest Hrest]; by destruct (funsFile_ g)|].
  exists q, (upd ctx R4 w3). split; [|split; [by apply (full_same_function ctx R4 w3 q ps)|]].
  - unfold loadPackageFromBuffer. rewrite (st_bind_run _ _ _ _ _ (opt_run _ _ w (read_header_ok v fns p g is' b Hg Hf))). cbv beta.
    unfold package_header. cbn [version_ bodyLength_ numDoubles_ numAddresses_ numChunks_ numInts_ numStrings_ numLines_ magic_].
    rewrite Z.eqb_refl. cbn [negb]. erewrite st_bind_run; [|apply st_assert_run, Z.eqb_eq]. 2:{ rewrite length_app, pack_header_length. lia. }
    erewrite st_bind_run; [|apply st_assert_run, Z.eqb_eq]. 2:{ rewrite Z.add_mod, Hloc by lia. done. }
    change (drop 24 (pack_header g ++ b)) with (drop (length (pack_header g)) (pack_header g ++ b)). rewrite drop_app_length. cbv zeta.
    rewrite (st_bind_run _ _ _ _ _ (opt_run _ _ w Epcs)). cbv beta iota. erewrite st_bind_run; [|apply st_assert_run, Nat.leb_le, Hf].
    rewrite (st_bind_run _ _ _ _ _ (opt_run _ _ w Eskip)). cbv beta. rewrite (st_bind_run _ _ _ _ _ (opt_run _ _ w Eskip2)). cbv beta.
    rewrite (st_bind_run _ _ _ _ _ E1), (st_bind_run _ _ _ _ _ E2). cbn [load_lines]. change (0 <? 0)%nat with false. cbv iota.
    rewrite !(st_bind_run _ _ _ _ _ (st_ret_run _ _)). erewrite st_bind_run; [|apply st_assert_run, Nat.leb_le]. 2:{ rewrite <-M1. simpl. lia. }
    rewrite (st_bind_run _ _ _ _ _ E3), (st_bind_run _ _ _ _ _ E4). by rewrite bool_decide_true.
  - split; [|intros q0 Hq0 Hne|by etrans; [|apply grows_to_upd]].
    + exists R4. split; [apply upd_eq|]. by eapply with_stack_trans.
    + rewrite upd_ne, K3 by (done || (intros Hin; destruct (M7 q0 Hin) as [H _]; rewrite H in Hq0; by destruct Hq0)). by apply M8.
Qed.
End Image.

(** ** The round trip

    A script that can be packed: the functions that it leads to are [fns], and
    they fit. *)
Record script_ok (v : VM) (fns : gset objptr) (rank : objptr → nat) (fuel : nat) (p : objptr) : Prop := {
  so_packable : packable v fns rank;
  so_in : p ∈ fns;
  so_fuel : (rank p < fuel)%nat;
  so_script : ∀ fn, function_at v p = Some fn → arity fn = 0 ∧ upvalueCount fn = 0%nat;
  so_fits : ∀ g, packed_files v fuel p = Some g → fits g = true
}.
Lemma script_image v fns rank fuel p name : script_ok v fns rank fuel p → ∃ image, packScript fuel name p false v = Some (Some image) ∧
  ∀ ctx R location w, can_load ctx R w → location mod 8 = 0 →
    ∃ q w', loadPackageFromBuffer ctx location image w = Some (Some q, w') ∧ same_function v w' p q ∧ loaded ctx R w w'.
Proof.
  intros [Hpack Hp Hr Hscript Hfits]. destruct (packed_files_ok v fns rank fuel p Hpack Hp Hr) as (g & is' & Eg & Hg).
  pose proof (fits_spec g (Hfits g Eg)) as Hf.
  destruct (pack_ok v fns rank p g is' Hpack Hscript Hg Hf name) as (chunks & os & Hc & Hos & Epack & Hlen).
  exists (pack_header g ++ package_body v g chunks os). split.
  - unfold packScript, packed_files, blank_files in *. cbv zeta. destruct (flattenConstants _ _ _ _) as [f|]; [|done]. cbn [mbind option_bind] in *.
    rewrite Eg. cbn [mbind option_bind]. rewrite <-Epack. by destruct g.
  - intros ctx R location w Hw Hloc. by apply (load_image v fns rank p g is' os chunks Hpack Hscript Hg Hf Hc Hos ctx R location w Hlen Hw Hloc).
Qed.

(** C5. A script that can be packed has a package, and any machine that has the
    room and aligned memory loads it: the answer is a function with the code,
    the sizes and the constants of the script, as have all functions that it
    leads to; the stack, the other objects and the rest of the state are as
    they were.  Integers come back with their value, but not as literals. *)
Theorem pack_load_roundtrip v fns rank fuel p name : script_ok v fns rank fuel p →
  ∃ image, packScript fuel name p false v = Some (Some image) ∧ ∀ ctx R location w, can_load ctx R w → location mod 8 = 0 →
    ∃ q w', loadPackageFromBuffer ctx location image w = Some (Some q, w') ∧ same_function v w' p q ∧ loaded ctx R w w'.
Proof. apply script_image. Qed.

(** C6. The package of a script that passes the verifier loads as functions that
    pass it: what holds of compiled code when it runs holds of loaded code. *)
Theorem package_verified v fns rank fuel p name : script_ok v fns rank fuel p → verified_set fns v →
  ∃ image, packScript fuel name p false v = Some (Some image) ∧ ∀ ctx R location w, can_load ctx R w → location mod 8 = 0 →
    ∃ q w' fin, loadPackageFromBuffer ctx location image w = Some (Some q, w') ∧ q ∈ fin ∧ verified_set fin w'.
Proof.
  intros H HV. destruct (script_image v fns rank fuel p name H) as (image & E & Hl). exists image. split; [done|].
  intros ctx R location w Hw Hloc. destruct (Hl ctx R location w Hw Hloc) as (q & w' & El & Hs & _).
  destruct (same_function_verified v w' p q fns Hs (so_in _ _ _ _ _ H) HV) as (fin & Hq & HF). by exists q, w', fin.
Qed.
End Trip.

(** ** An example *)
#[local] Existing Instance Noise.
#[local] Existing Instance LP64.
#[local] Existing Instance PlainHost.
#[local] Existing Instance ZeroMemory.

(** Code is verified if it has a list of the places that it gets to. *)
Definition certified (F : FnInfo) (C : list Z) (n : nat) (l : list (nat * nat)) : bool :=
  bool_decide ((0%nat, n) ∈ l) &&
  forallb (λ x, match abstract_step F C x.1 x.2 with Some k => forallb (λ y, bool_decide (y ∈ l)) k | None => false end) l.
Lemma certified_verified F C n l : certified F C n l = true → verified F C n.
Proof.
  unfold certified. rewrite andb_true_iff, bool_decide_eq_true, forallb_forall. intros [H0 H]. exists (λ o d, (o, d) ∈ l). split; [done|].
  intros o d Hl. right. specialize (H _ (proj1 (list_elem_of_In _ _) Hl)). simpl in H. destruct (abstract_step F C o d) as [k|]; [|done].
  exists k. split; [done|]. apply list.Forall_forall. intros y Hy. rewrite forallb_forall in H.
  destruct y as [o' d']. by apply (bool_decide_eq_true _), (H (o', d')), list_elem_of_In.
Qed.

(** A script with constants of all kinds; the function it makes a closure of
    answers its argument. *)
Definition sample_name : strptr := (with_name "hi" (demo_vm true 2)).1.
Definition sample_constants : list Value :=
  [DOUBLE_VAL (S754_finite false 3 (-1)); INT_VAL (SmallInt three); STRING_VAL sample_name; FUNCTION_VAL 12; INT_VAL (BigInt true 1); ADDRESS_VAL 4096].
Definition push_pop (i : Z) : list Z := [encode OP_CONSTANT; i; encode OP_POP].
Definition sample_code : list Z :=
  push_pop 0 ++ push_pop 1 ++ push_pop 2 ++ push_pop 4 ++ push_pop 5 ++ [encode OP_CLOSURE; 3; encode OP_RETURN].
Definition sample_script : ObjFunction := mkFunction 0 0 (mkChunk 32 sample_code [] (mkArray 8 6 (sample_constants ++ [NIL_VAL; NIL_VAL]))) None.
Definition sample_inner : ObjFunction := mkFunction 1 0 (mkChunk 8 [encode OP_GET_LOCAL; 1; encode OP_RETURN] [] initDynamicValueArray) None.
Definition sample_vm : VM :=
  let v := (with_name "hi" (demo_vm true 2)).2 in
  let h := vm_heap v in
  set_heap (mkHeap (mem h) (brk h) (containers h) (storages h) (<[1%positive := big]> (ints h)))
    (set_objects (<[11%positive := OBJ_FUNCTION sample_script]> (<[12%positive := OBJ_FUNCTION sample_inner]> (vm_objects v))) v).
Definition sample_fns : gset objptr := {[ 11%positive; 12%positive ]}.
Definition sample_rank (p : objptr) : nat := if (p =? 11)%positive then 1 else 0.

Lemma sample_ok : script_ok sample_vm sample_fns sample_rank 3 11.
Proof.
  split.
  - intros p Hp. unfold sample_fns in Hp. apply elem_of_union in Hp as [->%elem_of_singleton| ->%elem_of_singleton].
    + exists sample_script. split; [done|]. split.
      * split; [done|split; [|done]|].
        { unfold is_byte. vm_compute. repeat constructor; discriminate. }
        constructor; [done|]. constructor; [by exists three; split; [|apply three_wf]|]. constructor; [exists [104; 105]|].
        { split; [eexists; split; [vm_compute; reflexivity|done]|]. repeat constructor; lia. }
        constructor; [by apply elem_of_union; right; apply elem_of_singleton|]. constructor; [by exists big; split; [|apply big_wf]|].
        constructor; [by vm_compute|constructor].
      * intros q Hq. unfold sample_rank. change (constants_of sample_script) with sample_constants in Hq. unfold sample_constants in Hq.
        rewrite !elem_of_cons in Hq. destruct Hq as [H|[H|[H|[H|[H|[H|H]]]]]]; try discriminate H; [|by apply elem_of_nil in H].
        injection H as ->. simpl. lia.
    + exists sample_inner. split; [done|]. split; [|by intros q Hq; apply elem_of_nil in Hq].
      split; [done|split; [|done]|constructor]. unfold is_byte. vm_compute. repeat constructor; discriminate.
  - apply elem_of_union. left. by apply elem_of_singleton.
  - unfold sample_rank. simpl. lia.
  - intros fn [= <-]. done.
  - intros g Hg. assert (match packed_files sample_vm 3 11 with Some g => fits g | None => false end = true) as H by (vm_compute; reflexivity).
    rewrite Hg in H. exact H.
Qed.
Lemma sample_verified : verified_set sample_fns sample_vm.
Proof.
  intros p Hp. unfold sample_fns in Hp. apply elem_of_union in Hp as [->%elem_of_singleton| ->%elem_of_singleton].
  - exists sample_script. split; [done|]. split.
    + apply certified_verified with (l := (flat_map (λ i, [(3 * i, 1); (3 * i + 2, 2)]) (seq 0 5) ++ [(15, 1); (17, 2)])%nat). vm_compute. reflexivity.
    + intros q Hq. change (fconsts sample_script) with sample_constants in Hq. unfold sample_constants in Hq.
      rewrite !elem_of_cons in Hq. destruct Hq as [H|[H|[H|[H|[H|[H|H]]]]]]; try discriminate H; [|by apply elem_of_nil in H].
      injection H as ->. apply elem_of_union. right. by apply elem_of_singleton.
  - exists sample_inner. split; [done|]. split; [|by intros q Hq; apply elem_of_nil in Hq].
    apply certified_verified with (l := [(0, 2); (2, 3)]%nat). vm_compute. reflexivity.
Qed.
Lemma sample_can_load : can_load 1 (demo_routine true 2) (demo_vm true 2).
Proof. split; [done|apply demo_wf; lia|done|simpl; lia|apply empty_pool_ok]. Qed.

Lemma pack_load_roundtrip_witness : ∃ image q w', packScript 3 [] 11 false sample_vm = Some (Some image) ∧
  loadPackageFromBuffer 1 4096 image (demo_vm true 2) = Some (Some q, w') ∧ same_function sample_vm w' 11 q.
Proof.
  destruct (pack_load_roundtrip sample_vm sample_fns sample_rank 3 11 [] sample_ok) as (image & E & H).
  destruct (H 1%positive (demo_routine true 2) 4096 (demo_vm true 2) sample_can_load eq_refl) as (q & w' & El & Hs & _). exists image, q, w'.
  split; [exact E|]. split; [exact El|exact Hs].
Defined.
Lemma package_verified_witness : ∃ image q w' fin, packScript 3 [] 11 false sample_vm = Some (Some image) ∧
  loadPackageFromBuffer 1 4096 image (demo_vm true 2) = Some (Some q, w') ∧ q ∈ fin ∧ verified_set fin w'.
Proof.
  destruct (package_verified sample_vm sample_fns sample_rank 3 11 [] sample_ok sample_verified) as (image & E & H).
  destruct (H 1%positive (demo_routine true 2) 4096 (demo_vm true 2) sample_can_load eq_refl) as (q & w' & fin & El & Hs). exists image, q, w', fin.
  split; [exact E|]. split; [exact El|exact Hs].
Defined.
