(* ===== verification/ParserTokens.v ===== *)
(** * The tokens ahead of the parser

    The scanner as a list of tokens: those that are left, without the
    erroneous ones, which the parser passes, and without the end token, which
    comes again and again.  And the rules for commands that may fail or run out
    of fuel. *)
From Stdlib Require Import String Ascii.
From S2P Require Import ScannerSpec.
From S2P Require Export Parser.
Open Scope Z_scope.

(** ** Weakest preconditions: [u] allows undefined behaviour, [t] allows a run
    to need more fuel *)
Section Wp.
Variables u t : Prop.
Context {S : Type}.

Definition wp {A} (c : run_ S A) (s : S) (Q : A → S → Prop) : Prop :=
  match c s with Done (a, s') => Q a s' | Undef => u | Timeout => t end.

Lemma wp_ret {A} (a : A) s (Q : A → S → Prop) : Q a s → wp (mret a) s Q.
Proof. done. Qed.
Lemma wp_bind {A B} (c : run_ S A) (f : A → run_ S B) s Q : wp c s (λ a s', wp (f a) s' Q) → wp (c ≫= f) s Q.
Proof. unfold wp, mbind, run_bind. by destruct (c s) as [[? ?]| |]. Qed.
Lemma wp_mono {A} (c : run_ S A) s (Q Q' : A → S → Prop) : wp c s Q → (∀ a s', Q a s' → Q' a s') → wp c s Q'.
Proof. unfold wp. destruct (c s) as [[? ?]| |]; auto. Qed.
Lemma wp_get s (Q : S → S → Prop) : Q s s → wp get_ s Q.
Proof. done. Qed.
Lemma wp_modify f s (Q : () → S → Prop) : Q () (f s) → wp (modify_ f) s Q.
Proof. done. Qed.
Lemma wp_undefined {A} s (Q : A → S → Prop) : u → wp undefined s Q.
Proof. done. Qed.
Lemma wp_timeout {A} s (Q : A → S → Prop) : t → wp timeout s Q.
Proof. done. Qed.
Lemma wp_within {T A} (part : S → T) put (c : st T A) s (Q : A → S → Prop) :
  post c (part s) (λ a x, Q a (put x s)) → u ∨ (∃ r, c (part s) = Some r) → wp (within part put c) s Q.
Proof.
  intros HQ H. unfold wp, within. destruct (c (part s)) as [[a x]|] eqn:E; [by apply HQ|].
  destruct H as [H|[r H]]; [done|congruence].
Qed.
End Wp.

(** ** The scanner as a list *)
Definition scan_ok (sc : ObjScanner) : Prop := inv sc ∧ no_final_backslash (Scanner.source sc).

(** A scanner that has come to the terminator stays there. *)
Lemma scan_at_end sc : inv sc → cur sc = 0 →
  ∃ tok sc', scanToken sc = Some (tok, sc') ∧ type tok = TOKEN_EOF ∧ inv sc' ∧ cur sc' = 0 ∧
    Scanner.source sc' = Scanner.source sc ∧ Scanner.current sc' = Scanner.current sc.
Proof.
  intros HI Hc. unfold scanToken, scanToken_.
  assert (skipWhitespace (S (length (Scanner.source sc))) sc = Some ((), sc)) as Ew.
  { cbn [skipWhitespace]. step_with (peek_run sc HI). by rewrite Hc. }
  step_with Ew. step_with (eq_refl (get_scanner sc)). step_with (eq_refl (set_start (Scanner.current sc) sc)).
  set (s2 := mkScanner _ _ _ _). assert (inv s2) as I2 by (destruct HI; by split).
  step_with (isAtEnd_run s2 I2). change (cur s2) with (cur sc). rewrite Hc. simpl.
  eexists _, s2. by split.
Qed.

(** At most [n] tokens. *)
Fixpoint toks (n : nat) (sc : ObjScanner) : list Token :=
  match n with
  | O => []
  | S n' =>
      match scanToken sc with
      | Some (tok, sc') =>
          if bool_decide (type tok = TOKEN_EOF) then []
          else if bool_decide (type tok = TOKEN_ERROR) then toks n' sc' else tok :: toks n' sc'
      | None => []
      end
  end.
Definition left_ (sc : ObjScanner) : nat := (length (Scanner.source sc) - Scanner.current sc)%nat.
Definition tokens_of (sc : ObjScanner) : list Token := toks (S (length (Scanner.source sc))) sc.

Lemma scan_run sc : scan_ok sc →
  ∃ tok sc', scanToken sc = Some (tok, sc') ∧ scan_ok sc' ∧ Scanner.source sc' = Scanner.source sc ∧
    (type tok = TOKEN_EOF → cur sc' = 0) ∧ (type tok ≠ TOKEN_EOF → (left_ sc' < left_ sc)%nat).
Proof.
  intros [HI Hb]. destruct (scanToken_run sc HI Hb) as (tok & sc' & E & HI' & Hs & Hc & _ & _ & Hd).
  exists tok, sc'. split; [done|]. split; [split; [done|by rewrite Hs]|]. split; [done|]. pose proof (inv_in _ HI') as Hin. unfold left_.
  rewrite Hs in *. destruct (decide (type tok = TOKEN_EOF)); split; try done; [|lia]. intros _. apply Hd.
Qed.

Lemma toks_enough n : ∀ n' sc, scan_ok sc → (left_ sc < n)%nat → (left_ sc < n')%nat → toks n sc = toks n' sc.
Proof.
  induction n as [|n IH]; intros n' sc Hok Hn Hn'; [lia|]. destruct n' as [|n']; [lia|]. cbn [toks].
  destruct (scan_run sc Hok) as (tok & sc' & -> & Hok' & _ & _ & Hl).
  case_bool_decide as He; [done|]. specialize (Hl He).
  case_bool_decide; [apply IH; [done|lia..]|f_equal; apply IH; [done|lia..]].
Qed.

(** What the next token makes of the list. *)
Lemma tokens_step sc tok sc' : scan_ok sc → scanToken sc = Some (tok, sc') →
  tokens_of sc = if bool_decide (type tok = TOKEN_EOF) then []
                 else if bool_decide (type tok = TOKEN_ERROR) then tokens_of sc' else tok :: tokens_of sc'.
Proof.
  intros Hok E. destruct (scan_run sc Hok) as (? & ? & E' & Hok' & Hs & _ & Hl). rewrite E in E'. injection E' as <- <-.
  unfold tokens_of at 1. cbn [toks]. rewrite E. case_bool_decide as He; [done|]. specialize (Hl He).
  assert (toks (length (Scanner.source sc)) sc' = tokens_of sc') as ->; [|done].
  apply toks_enough; [done| |]; unfold left_ in *; lia.
Qed.
Lemma tokens_at_end sc : scan_ok sc → cur sc = 0 → tokens_of sc = [].
Proof.
  intros Hok Hc. destruct (scan_at_end sc (proj1 Hok) Hc) as (tok & sc' & E & Ht & _).
  rewrite (tokens_step _ _ _ Hok E). by rewrite bool_decide_true.
Qed.

(** Every token takes a character. *)
Lemma toks_length n : ∀ sc, scan_ok sc → (length (toks n sc) <= left_ sc)%nat.
Proof.
  induction n as [|n IH]; intros sc Hok; [simpl; lia|]. cbn [toks].
  destruct (scan_run sc Hok) as (tok & sc' & -> & Hok' & _ & _ & Hl). case_bool_decide as He; [simpl; lia|].
  specialize (Hl He). specialize (IH sc' Hok'). case_bool_decide; simpl; lia.
Qed.
Lemma tokens_length sc : scan_ok sc → (length (tokens_of sc) <= length (Scanner.source sc))%nat.
Proof. intros Hok. pose proof (toks_length (S (length (Scanner.source sc))) sc Hok). unfold tokens_of, left_ in *. lia. Qed.

(** ** What the parser sees: the current token and those that follow *)
Record view (src : list Z) (s : ObjParser) (ts : list Token) : Prop := {
  v_scan : scan_ok (scanner s);
  v_source : Scanner.source (scanner s) = src;
  v_error : type (current_token s) ≠ TOKEN_ERROR;
  v_tokens : if decide (type (current_token s) = TOKEN_EOF) then ts = [] ∧ cur (scanner s) = 0
             else ts = current_token s :: tokens_of (scanner s)
}.

(** The type of the first token. *)
Definition head_type (ts : list Token) : TokenType := match ts with [] => TOKEN_EOF | x :: _ => type x end.

Lemma view_type src s ts : view src s ts → type (current_token s) = head_type ts.
Proof. intros [_ _ _ H]. destruct (decide _) as [E|]; [by destruct H as [-> _]|by subst]. Qed.
Lemma view_rest src s ts : view src s ts → tokens_of (scanner s) = tail ts.
Proof. intros [Hs _ _ H]. destruct (decide _); [destruct H as [-> ?]; by apply tokens_at_end|by subst]. Qed.
Lemma view_head src s ts : view src s ts → type (current_token s) ≠ TOKEN_EOF → ts = current_token s :: tail ts.
Proof. intros [_ _ _ H] Hne. rewrite decide_False in H by done. by subst. Qed.
Lemma view_length src s ts : view src s ts → (length ts <= S (length src))%nat.
Proof.
  intros [Hok <- _ H]. pose proof (tokens_length _ Hok). destruct (decide _); [destruct H as [-> _]; simpl; lia|].
  rewrite H. simpl. lia.
Qed.
