(* ===== verification/ParserInv.v ===== *)
(** * What holds while the parser runs

    The invariant of the parser, what a step may change, and the steps that
    all functions of the parser are made of: nodes, strings, the stack, errors
    and tokens.

    Two booleans say what is promised.  With [u = false], no run is undefined:
    the machine is in order, the stack has room, and the tokens are tame.  With
    [t = false], no run lacks fuel: the tokens do not contain [struct].  With
    both [true] nothing is asked of the machine or of the source, and what is
    proved is what a run that returns has made. *)
From Stdlib Require Import String Ascii.
From S2P Require Import ScannerSpec ErrorSpec AstWf CompilerFrame.
From S2P Require Export ParserTokens.
Open Scope Z_scope.

(** ** Tame tokens *)
Definition is_struct (x : Token) : bool := bool_decide (type x = TOKEN_STRUCT).
Definition no_struct (ts : list Token) : bool := forallb (λ x, negb (is_struct x)) ts.

(** A decimal number that is in order: of at most 500 digits, or one that
    [strtod] reads to the end. *)
Definition decimal_tame `{HO : Host} (cs text : list Z) : bool :=
  match number_scan cs 0 NUMBER_START 0 with
  | inl (NUMBER_ZERO, msb) | inl (NUMBER_MSB, msb) => (length cs <=? 500)%nat && forallb isDigit (drop msb cs)
  | inl (NUMBER_DOT_AND_MSB, _) | inl (NUMBER_FRAC, _) | inl (NUMBER_EXPONENT, _) =>
      (snd (strtod_prefix (length (cstr text)) (cstr text)) =? length cs)%nat
  | _ => false
  end.
Definition number_tame `{HO : Host} (cs text : list Z) : bool :=
  match radix_prefix cs with
  | Some (Some bits) => bool_decide (is_Some (strtoNum (drop 2 cs) bits))
  | Some None => decimal_tame (drop 2 cs) (drop 2 text)
  | None => decimal_tame cs text
  end.
(** The source from the token on. *)
Definition text_from (src : list Z) (x : Token) : list Z :=
  match tstart x with inl i => drop i src | inr message => message end.
(** Not a reserved word, no number out of range, no type word that is called
    and that has no function, no escape without a character. *)
Definition token_tame `{HO : Host} (src : list Z) (x : Token) (next : TokenType) : bool :=
  let cs := token_text src x in
  match type x with
  | TOKEN_BREAK | TOKEN_CONST | TOKEN_CONTINUE | TOKEN_DEFER | TOKEN_STRUCT => false
  | TOKEN_BOOL | TOKEN_ANY => negb (bool_decide (next = TOKEN_LEFT_PAREN))
  | TOKEN_ADDRESS => bool_decide (is_Some (strtoNum (drop 2 cs) 4))
  | TOKEN_STRING => bool_decide (is_Some (unescape (take (length cs - 2) (drop 1 cs))))
  | TOKEN_NUMBER => number_tame cs (text_from src x)
  | _ => true
  end.
Fixpoint tame `{HO : Host} (src : list Z) (ts : list Token) : bool :=
  match ts with [] => true | x :: rest => token_tame src x (head_type rest) && tame src rest end.

Lemma tame_no_struct `{HO : Host} src ts : tame src ts = true → no_struct ts = true.
Proof.
  induction ts as [|x ts IH]; [done|]. simpl. intros [H1 H2]%andb_true_iff. rewrite IH, andb_true_r by done.
  unfold is_struct. apply negb_true_iff, bool_decide_eq_false. intros E. unfold token_tame in H1. by rewrite E in H1.
Qed.

Lemma mode_cases (b : bool) : b = true ∨ b = false.
Proof. destruct b; auto. Qed.
(** Arithmetic on what is left. *)
Ltac b2n := cbn [Nat.b2n negb andb] in *; lia.

(** The modes, and a routine whose stack has room for [room] nodes above
    [base]. *)
Class Setting (u t : bool) (base : cells) (room : nat) (R0 : ObjRoutine) : Prop := {
  defined_ends : u = false → t = false;
  room_ok : Z.of_nat (length base + room) < 2 ^ 31;
  R0_grows : addSlice R0 = true
}.

Section Inv.
Context `{U : Uninit} `{TG : Target} `{HO : Host} `{FM : FreshMemory}.
(** The routine that compiles, as it is at the start, and the source. *)
Context (u t : bool) (base : cells) (room : nat) (R0 : ObjRoutine).
Context {ST : Setting u t base room R0}.
Variable ctx : objptr.
Variable src : list Z.
Abbreviation wp := (wp (u = true) (t = true)).

(** ** The invariant; [m]: tokens that are left, [d]: nodes on the stack *)
Definition count (s : ObjParser) : nat := length (perrors s) + (if panic s then 0 else 1).

Record good (v : VM) (d : nat) : Prop := {
  g_routine : ∃ R above, vm_objects v !! ctx = Some (OBJ_ROUTINE R) ∧ with_stack R0 (base ++ above) R ∧ length above = d;
  g_pool : pool_ok (vm_pool v);
  g_room : (d <= room)%nat
}.
(** The machine and the errors; and the tokens. *)
Record sound (s : ObjParser) (d : nat) : Prop := {
  h_context : pcontext s = ctx;
  h_routine : is_routine (pvm s) ctx;
  h_panic : panic s = true → perrors s ≠ [];
  h_good : u = false → good (pvm s) d
}.
Definition ahead (ts : list Token) : Prop := no_struct ts = true ∧ (u = false → tame src ts = true).
Record holds (s : ObjParser) (m d : nat) : Prop := {
  h_sound : sound s d;
  h_view : t = false → ∃ ts, view src s ts ∧ length ts = m ∧ ahead ts
}.

(** What a step changes.  With [k], it takes a token if there is one.  Errors
    and tokens together do not grow; with [q], they get fewer with the tokens. *)
Record moves (k q : bool) (s : ObjParser) (m : nat) (s' : ObjParser) (m' : nat) : Prop := {
  m_fns : same_fns ctx (pvm s) (pvm s');
  m_errors : ∃ l, perrors s' = perrors s ++ l;
  m_left : t = false → (m' <= m - Nat.b2n k)%nat;
  m_count : t = false → (count s' + m' + (if q then 1 `min` (m - m') else 0) <= count s + m)%nat
}.
Lemma moves_same s s' m : same_fns ctx (pvm s) (pvm s') → perrors s' = perrors s → panic s' = panic s → moves false true s m s' m.
Proof.
  intros Hf He Hp. split; [done|by exists []; rewrite He, app_nil_r|intros _; b2n|intros _; unfold count; rewrite He, Hp; b2n].
Qed.
Lemma moves_refl s m d : holds s m d → moves false true s m s m.
Proof. intros H. apply moves_same; [split; [apply H|done]|done|done]. Qed.
Lemma moves_trans k q k1 q1 s1 m1 s2 m2 s3 m3 :
  moves k1 q1 s1 m1 s2 m2 → (q = true → q1 = true) → moves (k && negb k1) (q && negb k1) s2 m2 s3 m3 →
  moves k q s1 m1 s3 m3.
Proof.
  intros [A1 [l A2] A3 A4] Hq [B1 [l' B2] B3 B4]. split.
  - destruct A1 as [_ A], B1 as [B C]. split; [done|]. intros p. by rewrite C, A.
  - exists (l ++ l'). by rewrite B2, A2, app_assoc.
  - intros Ht. specialize (A3 Ht). specialize (B3 Ht). destruct k, k1; b2n.
  - intros Ht. specialize (A4 Ht). specialize (B4 Ht). specialize (A3 Ht). specialize (B3 Ht).
    destruct q; [specialize (Hq eq_refl); subst q1|]; destruct k, k1; b2n.
Qed.
Lemma moves_clean k q s m s' m' : moves k q s m s' m' → perrors s' = [] → perrors s = [].
Proof. intros [_ [l ->] _ _] H. by apply app_eq_nil in H as [? _]. Qed.
Lemma moves_weak k q k' q' s m s' m' : moves k q s m s' m' → (k' = true → k = true) → (q' = true → q = true) →
  moves k' q' s m s' m'.
Proof.
  intros [A1 A2 A3 A4] Hk Hq. split; try done; intros Ht; [specialize (A3 Ht)|specialize (A4 Ht)].
  - destruct k'; [by rewrite Hk in A3|b2n].
  - destruct q'; [by rewrite Hq in A4|b2n].
Qed.

(** [c] keeps the invariant and ends with [d'] nodes on the stack; [F] is what
    is known of the answer, and [R] what is known of it if there has been no
    error to the end. *)
Definition ends {A} (k q : bool) (c : PA A) (d' : nat) (s : ObjParser) (m : nat) (F : A → ObjParser → Prop) (R : A → Prop) : Prop :=
  wp c s (λ a s', ∃ m', holds s' m' d' ∧ moves k q s m s' m' ∧ F a s' ∧ (perrors s' = [] → R a)).

Lemma ends_ret {A} (a : A) d s m q (F : A → ObjParser → Prop) (R : A → Prop) :
  holds s m d → F a s → (perrors s = [] → R a) → ends false q (mret a) d s m F R.
Proof.
  intros H HF HR. exists m. split; [done|]. split; [|done]. by eapply moves_weak; [eapply moves_refl| |].
Qed.
Lemma ends_mono {A} k q (c : PA A) d s m (F F' : A → ObjParser → Prop) (R R' : A → Prop) :
  ends k q c d s m F R → (∀ a s', F a s' → F' a s') → (∀ a, R a → R' a) → ends k q c d s m F' R'.
Proof.
  intros H HF HR. eapply wp_mono; [exact H|]. intros a s' (m' & H1 & H2 & H3 & H4). exists m'. split; [done|]. split; [done|]. split; auto.
Qed.
Lemma ends_weak {A} k q k' q' (c : PA A) d s m (F : A → ObjParser → Prop) (R : A → Prop) :
  ends k q c d s m F R → (k' = true → k = true) → (q' = true → q = true) → ends k' q' c d s m F R.
Proof.
  intros H Hk Hq. eapply wp_mono; [exact H|]. intros a s' (m' & H1 & H2 & H3 & H4). exists m'. split; [done|].
  split; [by eapply moves_weak|done].
Qed.
Lemma ends_sub {A} k q k' q' (c : PA A) d s m (F F' : A → ObjParser → Prop) (R R' : A → Prop) :
  ends k q c d s m F R → (k' = true → k = true) → (q' = true → q = true) →
  (∀ a s', F a s' → F' a s') → (∀ a, R a → R' a) → ends k' q' c d s m F' R'.
Proof. intros H Hk Hq HF HR. eapply ends_weak; [by eapply ends_mono|done|done]. Qed.
(** The rest of a command runs from the state that its first part leaves; what
    the first part promises in the absence of errors is then known at the
    end. *)
Lemma ends_bind {A B} k q k1 q1 (c : PA A) (f : A → PA B) d1 d s m (F1 : A → ObjParser → Prop) (R1 : A → Prop)
  (F : B → ObjParser → Prop) (R : B → Prop) :
  ends k1 q1 c d1 s m F1 R1 → (q = true → q1 = true) →
  (∀ a s1 m1, holds s1 m1 d1 → moves k1 q1 s m s1 m1 → F1 a s1 →
    ends (k && negb k1) (q && negb k1) (f a) d s1 m1 F (λ b, R1 a → R b)) →
  ends k q (c ≫= f) d s m F R.
Proof.
  intros H Hq Hf. apply wp_bind. eapply wp_mono; [exact H|]. cbv beta. intros a s1 (m1 & H1 & M1 & HF1 & HR1).
  eapply wp_mono; [exact (Hf a s1 m1 H1 M1 HF1)|]. cbv beta. intros b s2 (m2 & H2 & M2 & HF2 & HR2).
  exists m2. split; [done|]. split; [by eapply moves_trans|]. split; [done|]. intros Hc. apply HR2; [done|].
  apply HR1. by eapply moves_clean.
Qed.
Lemma ends_skip {A B} k q (a : A) (f : A → PA B) d s m (F : B → ObjParser → Prop) (R : B → Prop) :
  ends k q (f a) d s m F R → ends k q (mret a ≫= f) d s m F R.
Proof. done. Qed.
Lemma ends_get {B} k q (f : ObjParser → PA B) d s m (F : B → ObjParser → Prop) (R : B → Prop) :
  ends k q (f s) d s m F R → ends k q (get_ ≫= f) d s m F R.
Proof. done. Qed.

(** ** The machine *)
Lemma sound_vm s d v d' : sound s d → same_fns ctx (pvm s) v → (u = false → good v d') → sound (set_pvm v s) d'.
Proof. intros [A1 A2 A3 A4] Hf Hg. split; [done|apply Hf|done|done]. Qed.
Lemma holds_vm s m d v d' : holds s m d → same_fns ctx (pvm s) v → (u = false → good v d') → holds (set_pvm v s) m d'.
Proof.
  intros [HS HV] Hf Hg. split; [by eapply sound_vm|]. intros Ht. destruct (HV Ht) as (ts & [] & ?). by exists ts.
Qed.

(** A command on the machine that keeps the functions. *)
Definition vm_good {A} (c : VMM A) (d d' : nat) : Prop :=
  ∀ v, good v d → ∃ a v', c v = Some (a, v') ∧ good v' d'.
Lemma wp_vm {A} (c : VMM A) s d d' (Q : A → ObjParser → Prop) :
  is_routine (pvm s) ctx → (u = false → good (pvm s) d) → calm ctx c → (u = false → vm_good c d d') →
  (∀ a v, c (pvm s) = Some (a, v) → same_fns ctx (pvm s) v → (u = false → good v d') → Q a (set_pvm v s)) → wp (vmp c) s Q.
Proof.
  intros Hr HS Hc Hg HQ. apply wp_within.
  - intros a v E. apply HQ; [done|by apply (Hc _ Hr a v E)|]. intros Hu.
    destruct (Hg Hu _ (HS Hu)) as (a' & v' & E' & H). rewrite E in E'. by injection E' as <- <-.
  - destruct (mode_cases u) as [Hu|Hu]; [by left|right]. destruct (Hg Hu _ (HS Hu)) as (a' & v' & E' & _). by eexists.
Qed.
Lemma ends_vm {A} (c : VMM A) s m d d' : holds s m d → calm ctx c → (u = false → vm_good c d d') →
  ends false true (vmp c) d' s m (λ a s', ∃ v, c (pvm s) = Some (a, v) ∧ s' = set_pvm v s) (λ _, True).
Proof.
  intros H Hc Hg. eapply (wp_vm c s d d'); [apply H|apply H|done|done|]. intros a v E Hf Hg'. exists m.
  split; [by eapply holds_vm|]. split; [by apply moves_same|by eauto].
Qed.

Lemma good_same v v' d : good v d → vm_objects v' = vm_objects v → vm_pool v' = vm_pool v → good v' d.
Proof. intros [A1 A2 A3] H1 H2. split; [by rewrite H1|by rewrite H2|done]. Qed.
Lemma allocate_ends s m d : holds s m d → ends false true allocate d s m (λ _ _, True) (λ _, True).
Proof.
  intros H. eapply ends_mono; [apply (ends_vm newYargType s m d d H); [apply calm_still, still_newYargType|]|done|done].
  intros _ v Hv. eexists _, _. split; [done|]. by eapply good_same.
Qed.
Lemma intern_good cs d : vm_good (intern cs) d d.
Proof.
  intros v [A1 A2 A3]. destruct (intern_run cs v A2) as (k & P & E & HP & _). exists k, (set_pool P v). split; [done|]. by split.
Qed.
Lemma copyString_ends cs s m d : holds s m d → ends false true (copyStringP cs) d s m (λ _ _, True) (λ _, True).
Proof.
  intros H. eapply ends_mono; [apply (ends_vm (intern cs) s m d d H); [apply calm_still, still_intern|]|done|done].
  intros _. apply intern_good.
Qed.

(** ** The stack *)
Lemma routine_state v d : good v d → ∃ R above, vm_objects v !! ctx = Some (OBJ_ROUTINE R) ∧ wf_stack R ∧ addSlice R = true ∧
  rest_of R = rest_of R0 ∧ stack_of R = base ++ above ∧ length above = d ∧ addressable (stack_of R).
Proof.
  intros [(R & above & HR & (W & S & E) & Hd) _ Hr]. exists R, above. split; [done|]. split; [done|]. split.
  { pose proof R0_grows. unfold rest_of in E. congruence. }
  split; [done|]. split; [done|]. split; [done|]. unfold addressable. rewrite S, length_app. pose proof room_ok. lia.
Qed.
Lemma good_upd v R above d : pool_ok (vm_pool v) → (d <= room)%nat → with_stack R0 (base ++ above) R → length above = d →
  good (upd ctx R v) d.
Proof. intros HP Hd HR Ha. split; [|done|done]. exists R, above. split; [apply upd_eq|done]. Qed.

Lemma push_good w d : (d < room)%nat → vm_good (push ctx w) d (S d).
Proof.
  intros Hd v Hv. destruct (routine_state v d Hv) as (R & above & HR & W & G & E & S & L & A).
  destruct (push_run ctx w v R HR W A G) as (R' & E' & (W' & S' & F') & _). eexists _, _. split; [exact E'|].
  eapply (good_upd _ _ (above ++ [_])); [apply Hv|lia| |by rewrite length_app, Nat.add_comm, L].
  split; [done|]. split; [by rewrite S', S, <-app_assoc|congruence].
Qed.
Lemma pop_good d : vm_good (pop ctx) (S d) d.
Proof.
  intros v Hv. destruct (routine_state v (S d) Hv) as (R & above & HR & W & G & E & S & L & A).
  destruct (exists_last (l := above)) as (l & c & ->); [by destruct above|]. rewrite length_app in L. simpl in L.
  rewrite app_assoc in S. destruct (pop_run ctx v R (base ++ l) c HR W A S) as (R' & E' & (W' & S' & F') & _).
  eexists _, _. split; [exact E'|]. eapply (good_upd _ _ l); [apply Hv|pose proof (g_room _ _ Hv); lia| |lia].
  split; [done|]. split; [done|congruence].
Qed.

Lemma pushWorkingNode_ends n s m d : holds s m d → (u = false → d < room)%nat →
  ends false true (pushWorkingNode n) (S d) s m (λ _ s', ∃ v, s' = set_pvm v s) (λ _, True).
Proof.
  intros H Hd. apply ends_get. rewrite (h_context _ _ (h_sound _ _ _ H)).
  eapply ends_mono; [apply (ends_vm _ s m d (S d) H); [apply calm_push|]|by intros ? ? (v & _ & ->); exists v|done]. intros Hu. by apply push_good, Hd.
Qed.
Lemma set_prevExpr_ends n s m d : holds s m d →
  ends false true (modify_ (set_prevExpr n)) d s m (λ _ s', s' = set_prevExpr n s) (λ _, True).
Proof.
  intros [HS HV]. apply wp_modify. exists m. split; [|split; [apply moves_same; [split; [apply HS|done]|done|done]|done]].
  split; [by split; apply HS|]. intros Ht. destruct (HV Ht) as (ts & [] & ?). by exists ts.
Qed.
Lemma popWorkingNode_ends s m d : holds s m (S d) → ends false true popWorkingNode d s m (λ _ _, True) (λ _, True).
Proof.
  intros H. apply ends_get. rewrite (h_context _ _ (h_sound _ _ _ H)).
  eapply ends_bind; [apply (ends_vm _ s m (S d) d H); [apply calm_pop|intros _; apply pop_good]|done|].
  intros a s1 m1 H1 _ _. by apply ends_ret with (d := d).
Qed.
Lemma pushNode_ends n s m d : holds s m d → (u = false → d < room)%nat →
  ends false true (pushNode n) (S d) s m (λ _ s', ∃ v, s' = set_pvm v s) (λ _, True).
Proof. apply pushWorkingNode_ends. Qed.
Lemma new_named_ends cs s m d : holds s m d → (u = false → d < room)%nat →
  ends false true (new_named cs) d s m (λ _ _, True) (λ _, True).
Proof.
  intros H Hd. eapply ends_bind; [by apply allocate_ends|done|]. intros p s1 m1 H1 M1 _.
  eapply ends_bind; [by apply pushWorkingNode_ends|done|]. intros ? s2 m2 H2 M2 _.
  eapply ends_bind; [by apply copyString_ends|done|]. intros k s3 m3 H3 M3 _.
  eapply ends_bind; [by apply popWorkingNode_ends|done|]. intros ? s4 m4 H4 M4 _.
  by eapply ends_ret.
Qed.
Lemma leaf_ends e s m d (R : Expr → Prop) : holds s m d → R [e] →
  ends false true (leaf e) d s m (λ n _, n ≠ None) (λ n, R (tree n)).
Proof.
  intros H HR. eapply ends_bind; [by apply allocate_ends|done|]. intros p s1 m1 H1 M1 _. by eapply ends_ret.
Qed.

(** ** Errors *)
Record reports (s s' : ObjParser) (d : nat) : Prop := {
  rp_sound : sound s' d;
  rp_scanner : scanner s' = scanner s;
  rp_current : current_token s' = current_token s;
  rp_previous : previous s' = previous s;
  rp_fns : same_fns ctx (pvm s) (pvm s');
  rp_errors : ∃ l, perrors s' = perrors s ++ l;
  rp_count : (count s' <= count s)%nat;
  rp_some : perrors s' ≠ []
}.
Lemma reports_moves s s' d m : reports s s' d → moves false true s m s' m.
Proof. intros [? ? ? ? ? ? ? ?]. split; [done|done|intros _; b2n|intros _; b2n]. Qed.
Lemma reports_holds s s' m d : holds s m d → reports s s' d → holds s' m d.
Proof.
  intros [HS HV] [? Hsc Hcu Hpr ? ? ? ?]. split; [done|]. intros Ht. destruct (HV Ht) as (ts & [V1 V2 V3 V4] & Hm & Ha).
  exists ts. split; [|done]. split; by rewrite ?Hsc, ?Hcu.
Qed.

Lemma errorAt_wp tok report s d : sound s d → wp (errorAt tok report) s (λ _ s', reports s s' d).
Proof.
  intros HS. unfold errorAt. apply wp_bind, wp_get. destruct (panic s) eqn:Ep.
  - apply wp_ret. split; try done; [split; [apply HS|done]|by exists []; rewrite app_nil_r|by apply (h_panic _ _ HS)].
  - apply wp_bind, wp_modify, wp_bind, wp_bind, wp_get, wp_ret. apply wp_bind.
    apply (wp_vm (intern _) _ d d); [apply HS|apply HS|apply calm_still, still_intern|intros _; apply intern_good|].
    intros k v _ Hf Hg. apply wp_bind, wp_get, wp_modify. cbn [set_panicking set_pvm set_perrors perrors pvm] in *.
    split; try done.
    + split; [apply HS|apply Hf|intros _; by destruct (perrors s)|done].
    + by exists [k].
    + unfold count. cbn [perrors panic set_perrors set_pvm set_panicking]. rewrite Ep, length_app. simpl. lia.
    + cbn [perrors set_perrors set_pvm set_panicking]. by destruct (perrors s).
Qed.
Lemma errorAt_ends tok report s m d : holds s m d → ends false true (errorAt tok report) d s m (λ _ s', perrors s' ≠ []) (λ _, False).
Proof.
  intros H. eapply wp_mono; [apply errorAt_wp, H|]. cbv beta. intros _ s' Hr. exists m.
  split; [by eapply reports_holds|]. split; [by eapply reports_moves|]. split; [exact (rp_some _ _ _ Hr)|]. intros E. by destruct (rp_some _ _ _ Hr E).
Qed.
Lemma error_ends message s m d : holds s m d → ends false true (error_ message) d s m (λ _ s', perrors s' ≠ []) (λ _, False).
Proof. intros H. unfold error_, errorAtCurrent. apply ends_get. exact (errorAt_ends _ _ s m d H). Qed.
Lemma errorAtCurrent_ends message s m d : holds s m d →
  ends false true (errorAtCurrent message) d s m (λ _ s', perrors s' ≠ []) (λ _, False).
Proof. intros H. unfold error_, errorAtCurrent. apply ends_get. exact (errorAt_ends _ _ s m d H). Qed.
(** An error that may be. *)
Lemma error_if_ends (b : bool) message s m d : holds s m d →
  ends false true (if b then error_ message else mret ()) d s m (λ _ _, True) (λ _, b = false).
Proof.
  intros H. destruct b; [|by eapply ends_ret]. eapply ends_mono; [by apply error_ends|done|done].
Qed.

(** ** Tokens *)

(** The token before the current one is what it was when it was ahead. *)
Definition passed (s : ObjParser) : Prop := t = false → type (previous s) ≠ TOKEN_EOF →
  is_struct (previous s) = false ∧ (u = false → token_tame src (previous s) (type (current_token s)) = true).
(** The loop of [advance], with the tokens that are left. *)
Lemma advance_loop_wp n : ∀ s d, sound s d →
  (t = false → scan_ok (scanner s) ∧ Scanner.source (scanner s) = src ∧ (left_ (scanner s) < n)%nat) →
  wp (advance_loop n) s (λ _ s', sound s' d ∧ previous s' = previous s ∧ same_fns ctx (pvm s) (pvm s') ∧
    (∃ l, perrors s' = perrors s ++ l) ∧ (count s' <= count s)%nat ∧ (t = false → view src s' (tokens_of (scanner s)))).
Proof.
  induction n as [|n IH]; intros s d HS HV.
  { apply wp_timeout. destruct (mode_cases t) as [?|Ht]; [done|]. destruct (HV Ht) as (_ & _ & ?). lia. }
  cbn [advance_loop]. apply wp_bind, wp_within.
  2:{ destruct (mode_cases u) as [?|Hu]; [by left|right]. destruct (HV (defined_ends Hu)) as (Hok & _ & _).
      destruct (scan_run _ Hok) as (? & ? & -> & _). by eexists. }
  intros tok sc E. apply wp_bind, wp_modify. set (s1 := set_current_token tok (set_scanner sc s)).
  assert (sound s1 d) as HS1 by (split; apply HS).
  assert (t = false → scan_ok sc ∧ Scanner.source sc = src ∧ (type tok ≠ TOKEN_EOF → (left_ sc < n)%nat) ∧
    (type tok = TOKEN_EOF → cur sc = 0)) as HV1.
  { intros Ht. destruct (HV Ht) as (Hok & Hs & Hl). destruct (scan_run _ Hok) as (? & ? & E' & Hok' & Hs' & He & Hlt).
    rewrite E in E'. injection E' as <- <-. split; [done|]. split; [congruence|]. split; [|done].
    intros Hne. specialize (Hlt Hne). lia. }
  assert (t = false → tokens_of (scanner s) = if bool_decide (type tok = TOKEN_EOF) then []
                 else if bool_decide (type tok = TOKEN_ERROR) then tokens_of sc else tok :: tokens_of sc) as Hts.
  { intros Ht. apply (tokens_step _ _ _ (proj1 (HV Ht)) E). }
  destruct (decide (type tok = TOKEN_ERROR)) as [Herr|Herr].
  - rewrite (bool_decide_true (type tok = TOKEN_ERROR)) by done. unfold errorAtCurrent. apply wp_bind, wp_bind, wp_get.
    eapply wp_mono; [exact (errorAt_wp _ _ s1 d HS1)|]. cbv beta. intros _ s2 [A1 A2 A3 A4 A5 A6 A7 _].
    eapply wp_mono; [apply (IH s2 d A1)|]; cbv beta.
    + intros Ht. rewrite A2. destruct (HV1 Ht) as (? & ? & H & _). split; [done|]. split; [done|]. apply H. by rewrite Herr.
    + intros _ s3 (B1 & B2 & B3 & [l B4] & B5 & B6). destruct A6 as [l' A6]. split; [done|]. split; [by rewrite B2, A4|]. split.
      { split; [apply B3|]. intros p. by rewrite (same_fn _ _ _ B3), (same_fn _ _ _ A5). }
      split; [exists (l' ++ l); by rewrite B4, A6, app_assoc|]. split; [change (count s) with (count s1); lia|].
      intros Ht. rewrite (Hts Ht), Herr, bool_decide_false, bool_decide_true by done. specialize (B6 Ht). by rewrite A2 in B6.
  - rewrite (bool_decide_false (type tok = TOKEN_ERROR)) by done. apply wp_ret. split; [done|]. split; [done|]. split; [split; [apply HS|done]|]. split; [by exists []; rewrite app_nil_r|].
    split; [done|]. intros Ht. destruct (HV1 Ht) as (H1 & H2 & H3 & H4). rewrite (Hts Ht), (bool_decide_false (type tok = TOKEN_ERROR)) by done.
    split; [done|done|done|]. simpl. case_bool_decide as He; [rewrite decide_True by done; auto|]. by rewrite decide_False.
Qed.

Lemma holds_more s m d : holds s m d → t = false → type (current_token s) ≠ TOKEN_EOF → (1 <= m)%nat.
Proof.
  intros [_ HV] Ht Hne. destruct (HV Ht) as (ts & Hv & <- & _). rewrite (view_head _ _ _ Hv Hne). simpl. lia.
Qed.
Lemma holds_end s m d : holds s m d → t = false → type (current_token s) = TOKEN_EOF → m = O.
Proof.
  intros [_ HV] Ht He. destruct (HV Ht) as (ts & [_ _ _ H] & <- & _). rewrite decide_True in H by done. by destruct H as [-> _].
Qed.

Lemma advance_ends s m d : holds s m d →
  ends true true advance d s m (λ _ s', previous s' = current_token s ∧ passed s') (λ _, True).
Proof.
  intros H. unfold advance. apply wp_bind, wp_modify, wp_bind, wp_get. set (s1 := set_previous (current_token s) s).
  pose proof (h_sound _ _ _ H) as HS. assert (sound s1 d) as HS1 by (split; apply HS).
  eapply wp_mono; [apply (advance_loop_wp _ s1 d HS1)|]; cbv beta.
  { intros Ht. destruct (h_view _ _ _ H Ht) as (ts & Hv & _). split; [apply Hv|]. split; [apply Hv|]. unfold left_. simpl. lia. }
  intros _ s' (A1 & A2 & A3 & A4 & A5 & A6). exists (m - 1)%nat.
  assert (t = false → ∃ ts, view src s ts ∧ length ts = m ∧ ahead ts ∧ view src s' (tail ts)) as HV.
  { intros Ht. destruct (h_view _ _ _ H Ht) as (ts & Hv & Hm & Ha). exists ts. split; [done|]. split; [done|]. split; [done|].
    rewrite <-(view_rest _ _ _ Hv). exact (A6 Ht). }
  split; [|split; [|split]].
  - split; [done|]. intros Ht. destruct (HV Ht) as (ts & Hv & <- & [Hn Hu] & Hv'). exists (tail ts). split; [done|].
    destruct ts as [|x ts]; [done|]. split; [simpl; lia|]. simpl in Hn. apply andb_true_iff in Hn as [_ Hn]. split; [done|].
    intros Hu'. specialize (Hu Hu'). simpl in Hu. by apply andb_true_iff in Hu as [_ ?].
  - split; [done|done|intros _; b2n|]. intros _. change (count s) with (count s1). b2n.
  - split; [done|]. intros Ht Hne. rewrite A2 in *. simpl in *. destruct (HV Ht) as (ts & Hv & _ & [Hn Hu] & Hv').
    rewrite (view_head _ _ _ Hv Hne) in Hn, Hu. simpl in Hn, Hu. apply andb_true_iff in Hn as [Hn _].
    split; [by apply negb_true_iff in Hn|]. intros Hu'. specialize (Hu Hu'). apply andb_true_iff in Hu as [Hu _].
    by rewrite (view_type _ _ _ Hv').
  - done.
Qed.

Lemma advance_true_ends s m d : holds s m d → ends true true (advance ;; mret true) d s m
  (λ b s', b = true ∧ previous s' = current_token s ∧ passed s') (λ _, True).
Proof.
  intros H. apply wp_bind. eapply wp_mono; [by apply advance_ends|]. cbv beta. intros _ s1 (m1 & H1 & M1 & E1 & _).
  exists m1. done.
Qed.

(** Commands that look at the current token. *)
Section Look.
Context {B : Type}.
Variables (k q : bool) (d' : nat) (s : ObjParser) (m d : nat) (F : B → ObjParser → Prop) (R : B → Prop).
Hypothesis H : holds s m d.

Lemma ends_rest (c : PA B) s1 m1 (R1 : Prop) : ends false false c d' s1 m1 F R → ends (k && negb true) (q && negb true) c d' s1 m1 F (λ b, R1 → R b).
Proof. intros He. destruct k, q; (eapply ends_mono; [exact He|done|auto]). Qed.
Lemma ends_current_type (f : TokenType → PA B) : ends k q (f (type (current_token s))) d' s m F R → ends k q (current_type ≫= f) d' s m F R.
Proof. done. Qed.
Lemma ends_previous_type (f : TokenType → PA B) : ends k q (f (type (previous s))) d' s m F R → ends k q (previous_type ≫= f) d' s m F R.
Proof. done. Qed.
Lemma ends_text_of tok (f : list Z → PA B) :
  ends k q (f (token_text (Scanner.source (scanner s)) tok)) d' s m F R → ends k q (text_of tok ≫= f) d' s m F R.
Proof. done. Qed.
Lemma ends_previous_text (f : list Z → PA B) :
  ends k q (f (token_text (Scanner.source (scanner s)) (previous s))) d' s m F R → ends k q (previous_text ≫= f) d' s m F R.
Proof. done. Qed.
Lemma ends_line (g : PA Z) (f : Z → PA B) : g = current_line ∨ g = previous_line →
  (∀ z, ends k q (f z) d' s m F R) → ends k q (g ≫= f) d' s m F R.
Proof. intros [-> | ->] Hf; apply Hf. Qed.
Lemma ends_check ty (f : bool → PA B) :
  (type (current_token s) = ty → ends k q (f true) d' s m F R) →
  (type (current_token s) ≠ ty → ends k q (f false) d' s m F R) → ends k q (check ty ≫= f) d' s m F R.
Proof.
  intros H1 H2. change (ends k q (f (bool_decide (type (current_token s) = ty))) d' s m F R).
  case_bool_decide; auto.
Qed.
Lemma ends_check_is ty (f : bool → PA B) :
  ends k q (f (bool_decide (type (current_token s) = ty))) d' s m F R → ends k q (check ty ≫= f) d' s m F R.
Proof. done. Qed.
Lemma ends_type_is (f : bool → PA B) :
  ends k q (f (is_type_token (type (current_token s)))) d' s m F R → ends k q (checkTypeToken ≫= f) d' s m F R.
Proof. done. Qed.
Lemma ends_type_token (f : bool → PA B) :
  (is_type_token (type (current_token s)) = true → ends k q (f true) d' s m F R) →
  (is_type_token (type (current_token s)) = false → ends k q (f false) d' s m F R) → ends k q (checkTypeToken ≫= f) d' s m F R.
Proof.
  intros H1 H2. change (ends k q (f (is_type_token (type (current_token s)))) d' s m F R).
  destruct (is_type_token _); auto.
Qed.
Lemma ends_advance (f : () → PA B) :
  (∀ s1 m1, holds s1 m1 d → moves true true s m s1 m1 → previous s1 = current_token s → passed s1 →
    ends false false (f ()) d' s1 m1 F R) → ends k q (advance ≫= f) d' s m F R.
Proof.
  intros Hf. eapply ends_bind; [by apply advance_ends|done|]. intros [] s1 m1 H1 M1 [E1 P1]. by apply ends_rest, Hf.
Qed.
Lemma ends_match ty (f : bool → PA B) :
  (∀ s1 m1, holds s1 m1 d → moves true true s m s1 m1 → (t = false → ty ≠ TOKEN_EOF → 1 <= m)%nat →
    type (previous s1) = ty → passed s1 → ends false false (f true) d' s1 m1 F R) →
  (type (current_token s) ≠ ty → ends k q (f false) d' s m F R) → ends k q (match_ ty ≫= f) d' s m F R.
Proof.
  intros H1 H2. unfold match_.
  assert (∀ b : bool, (type (current_token s) = ty → b = true) → (type (current_token s) ≠ ty → b = false) →
    ends k q ((if b then advance ;; mret true else mret false) ≫= f) d' s m F R) as Hb.
  { intros b Ht Hf. destruct (decide (type (current_token s) = ty)) as [E|E]; [rewrite Ht by done|rewrite Hf by done; by apply H2].
    eapply ends_bind; [by apply advance_true_ends|done|].
    intros b1 s1 m1 Hs1 M1 (-> & E1 & P1). apply ends_rest, H1; try done; [|by rewrite E1].
    intros Ht' Hne. apply (holds_more s m d H Ht'). by rewrite E. }
  apply (Hb (bool_decide (type (current_token s) = ty))); intros; [by apply bool_decide_true|by apply bool_decide_false].
Qed.
End Look.

Lemma consume_hit ty message s m d : holds s m d → type (current_token s) = ty →
  ends true true (consume ty message) d s m (λ _ _, True) (λ _, True).
Proof.
  intros H E. unfold consume. apply ends_check; [intros _|done]. eapply ends_mono; [by apply advance_ends|done|done].
Qed.
Lemma consume_ends ty message s m d : holds s m d →
  ends false true (consume ty message) d s m (λ _ _, True) (λ _, type (current_token s) = ty).
Proof.
  intros H. unfold consume. apply ends_check.
  - intros E. eapply ends_weak; [eapply ends_mono; [by apply advance_ends|done|done]|done|done].
  - intros _. eapply ends_mono; [by apply errorAtCurrent_ends|done|done].
Qed.
End Inv.
Arguments h_view {HO u t base room R0 ctx src s m d}.
Arguments h_sound {HO u t base room R0 ctx src s m d}.
Arguments h_good {u base room R0 ctx s d}.
Arguments m_fns {t ctx k q s m s' m'}.
Arguments m_errors {t ctx k q s m s' m'}.
Arguments m_left {t ctx k q s m s' m'}.
Arguments m_count {t ctx k q s m s' m'}.
