(* ===== verification/ParserLeaves.v ===== *)
(** * Tokens that are an expression

    Names, strings, numbers and the words for values, builtins and types: what
    the parser makes of one token.  Numbers that are in order fit into the
    object that is allocated for them. *)
From Stdlib Require Import String Ascii.
From S2P Require Import ScannerSpec IntSpec AstWf CompilerFrame ErrorSpec.
From S2P Require Export ParserInv.
Open Scope Z_scope.

(** ** Room for numbers *)
Definition room_fits (n : nat) : bool :=
  (int_room (Z.of_nat n) =? literal_digits n)%nat && Nat.even (int_room (Z.of_nat n)) &&
  (2 <=? int_room (Z.of_nat n))%nat && (int_room (Z.of_nat n) <=? 254)%nat.
Lemma rooms_fit : forallb room_fits (seq 1 1000) = true.
Proof. vm_compute. reflexivity. Qed.
Lemma room_fit n : (1 <= n <= 1000)%nat →
  int_room (Z.of_nat n) = literal_digits n ∧ Nat.Even (int_room (Z.of_nat n)) ∧ (2 <= int_room (Z.of_nat n) <= 254)%nat.
Proof.
  intros Hn. assert (room_fits n = true) as H.
  { pose proof rooms_fit as H. rewrite forallb_forall in H. apply H, in_seq. lia. }
  unfold room_fits in H. rewrite !andb_true_iff in H. destruct H as [[[H1 H2] H3] H4].
  apply Nat.eqb_eq in H1. apply Nat.even_spec in H2. apply Nat.leb_le in H3, H4. done.
Qed.
Lemma alloc_new s : Nat.Even s → (2 <= s <= 254)%nat → alloc (mkInt false false false false 0 s (replicate s 0)).
Proof.
  intros He Hs. split; simpl; [by rewrite length_replicate|done|done|].
  apply list.Forall_forall. intros x Hx. apply elem_of_replicate in Hx as [-> _]. by unfold digit.
Qed.

(** A sequence of digits is read into the object for more digits than that. *)
Lemma digits_fit `{U : Uninit} cs n p io (st : store) : Forall (λ c, isDigit c = true) cs → (length cs <= n)%nat → (1 <= n <= 1000)%nat →
  st !! p = Some io → alloc io → m_ io = int_room (Z.of_nat n) →
  ∃ R, int_set_s cs p st = Some ((), <[p := R]> st) ∧ wf R ∧ overflow_ R = false ∧ val R = dval cs.
Proof.
  intros Hd Hl Hn Hp Ha Hm. assert (Forall dec_digit cs) as Hd'.
  { eapply list.Forall_impl; [exact Hd|]. intros c Hc. unfold isDigit, Scanner.between in Hc. apply andb_true_iff in Hc as [H1 H2].
    apply Z.leb_le in H1, H2. done. }
  assert (split_sign cs = (false, cs)) as Es.
  { destruct Hd' as [|c cs' Hc _]; [done|]. unfold dec_digit in Hc. unfold split_sign. by rewrite (proj2 (Z.eqb_neq _ _)) by lia. }
  destruct (int_set_s_run cs p io st Hp Ha) as (R & E & WR & OR & _ & _ & VR).
  - by rewrite Es.
  - rewrite Es. cbn [snd]. destruct (room_fit n Hn) as (Hr & _). pose proof (literal_size n ltac:(lia)) as Hs.
    rewrite Hm, Hr. pose proof (dval_bound cs Hd'). assert (10 ^ Z.of_nat (length cs) <= 10 ^ Z.of_nat n) by (apply Z.pow_le_mono_r; lia). lia.
  - exists R. unfold text_val in VR. by rewrite Es in VR.
Qed.

(** The index of the first digit is one of the text. *)
Lemma number_scan_msb cs : ∀ i state msb state' msb', number_scan cs i state msb = inl (state', msb') →
  (msb <= i)%nat → (msb' <= i + length cs)%nat.
Proof.
  induction cs as [|c cs IH]; intros i state msb state' msb' E Hm; simpl in E; [injection E as <- <-; simpl; lia|].
  destruct (number_step state c) as [[st here]|]; [|done]. apply IH in E; [simpl; lia|]. destruct here; lia.
Qed.

(** ** Numbers with a radix *)
Lemma to_double_nonneg n : 0 <= n → 0 <= to_double n.
Proof.
  intros Hn. unfold to_double. destruct (n <? 2 ^ 53); [done|]. cbv zeta. apply Z.shiftl_nonneg.
  assert (0 <= Z.shiftr n (Z.log2 n - 52)) by (by apply Z.shiftr_nonneg). case_match; lia.
Qed.
Lemma digit_value_range c : 0 <= digit_value c < 16.
Proof.
  unfold digit_value, Scanner.between. repeat case_match; try done.
  all: repeat match goal with H : _ && _ = true |- _ => apply andb_true_iff in H as [?%Z.leb_le ?%Z.leb_le] end.
  all: vm_compute ch in *; lia.
Qed.
Lemma strtoNum_loop_nonneg bits cs : ∀ power val value, strtoNum_loop bits cs power val = Some value → 0 <= val → 0 <= value.
Proof.
  induction cs as [|c cs IH]; intros power val value; simpl; [congruence|].
  repeat (case_match; [done|]). intros E Hv. eapply IH; [exact E|]. apply to_double_nonneg.
  pose proof (to_double_nonneg val Hv). pose proof (digit_value_range c).
  pose proof (Z.pow_nonneg 2 (bits * power) ltac:(done)). nia.
Qed.
Lemma strtoNum_nonneg cs bits value : strtoNum cs bits = Some value → 0 <= value.
Proof. intros E. by eapply strtoNum_loop_nonneg. Qed.

Section Leaves.
Context `{U : Uninit} `{TG : Target} `{HO : Host} `{FM : FreshMemory}.
Context (u t : bool) (base : cells) (room : nat) (R0 : ObjRoutine).
Context {ST : Setting u t base room R0}.
Variable ctx : objptr.
Variable src : list Z.
Abbreviation holds := (holds u t base room R0 ctx src).
Abbreviation ends := (ends u t base room R0 ctx src).
Abbreviation moves := (moves t ctx).
Abbreviation passed := (passed u t src).
Abbreviation vm_good := (vm_good base room R0 ctx).

(** ** What the functions that start an expression answer: a chain, or null
    where the parser has reported an error, or before a parenthesis *)
Definition made (n : option Node) (s : ObjParser) : Prop :=
  match n with
  | Some (_, es) => es ≠ []
  | None => u = true ∧ (perrors s ≠ [] ∨ type (current_token s) = TOKEN_LEFT_PAREN)
  end.
Definition fine (n : option Node) : Prop := match n with Some (_, es) => wf_expr es = true | None => True end.
(** A chain of one element. *)
Definition element (P : ObjExpr → bool) (n : option Node) : Prop :=
  match n with Some (_, [e]) => P e = true | _ => False end.
Lemma element_fine n : element (λ e, operand e && wf_elt e) n → fine n.
Proof.
  destruct n as [[p [|e [|e' es]]]|]; try done. intros [H1 H2]%andb_true_iff. simpl. unfold wf_expr, expr_of. simpl.
  by rewrite H1, H2.
Qed.

Lemma null_ends s m d : holds s m d → u = true → perrors s ≠ [] → ends false true (mret None) d s m made fine.
Proof. intros H Hu He. eapply ends_ret; [done| |done]. split; [done|by left]. Qed.
Lemma leaf_made e s m d : holds s m d → wf_expr [e] = true → ends false true (leaf e) d s m made fine.
Proof.
  intros H He. eapply ends_bind; [by apply allocate_ends|done|]. intros p s1 m1 H1 M1 _. by eapply ends_ret.
Qed.

(** ** Numbers *)
Lemma ints_good {A} (c : M A) d : (∀ st, ∃ a st', c st = Some (a, st')) → vm_good (vm_ints c) d d.
Proof.
  intros Hc v Hv. destruct (Hc (ints (vm_heap v))) as (a & st' & E). unfold vm_ints, with_heap, with_ints. rewrite E.
  eexists _, _. split; [done|]. by eapply good_same.
Qed.
(** What sets a number, in an object of this size. *)
Definition settable (n : nat) (set_ : ptr → M ()) : Prop :=
  ∀ p io st, st !! p = Some io → alloc io → m_ io = n → ∃ R, set_ p st = Some ((), <[p := R]> st).
Lemma new_int_ok s set_ : Nat.Even s → (2 <= s <= 254)%nat → settable s set_ →
  ∀ st, ∃ i st', with_object (mkInt false false false false 0 s (replicate s 0)) (λ q, set_ q ;; get q) st = Some (i, st').
Proof.
  intros He Hs Hset st. destruct (with_object_ex (mkInt false false false false 0 s (replicate s 0)) (λ q, set_ q ;; get q) st
    (λ _ _, True)) as (a & s' & E & _); [|by exists a, s'].
  intros p Hp. destruct (Hset p _ (<[p := mkInt false false false false 0 s (replicate s 0)]> st) (lookup_insert_eq _ _ _))
    as (R & E); [by apply alloc_new|done|]. exists R. eexists. split; [|done].
  rewrite (st_bind_run _ _ _ _ _ E). apply get_run, lookup_insert_eq.
Qed.
Lemma newExprNumberInt_ends n set_ s m d : holds s m d →
  (u = false → Nat.Even (int_room n) ∧ (2 <= int_room n <= 254)%nat ∧ settable (int_room n) set_) →
  ends false true (newExprNumberInt n set_) d s m made fine.
Proof.
  intros H Hs. eapply ends_bind; [by apply allocate_ends|done|]. intros p s1 m1 H1 M1 _.
  eapply ends_bind; [apply (ends_vm _ _ _ _ _ _ _ _ s1 m1 d d H1)|done|].
  - apply calm_still, still_heap.
  - intros Hu. destruct (Hs Hu) as (He & Hr & Hset). apply ints_good, new_int_ok; [done|lia|done].
  - intros i s2 m2 H2 M2 _. by eapply ends_ret.
Qed.
Lemma number_error_ends message s m d : holds s m d → u = true → ends false true (number_error message) d s m made fine.
Proof.
  intros H Hu. eapply ends_bind; [by apply errorAtCurrent_ends|done|]. intros ? s1 m1 H1 M1 He.
  eapply ends_mono; [by apply null_ends|done|done].
Qed.

Lemma not_tame : (u = false → false = true) → u = true.
Proof. intros H. destruct (mode_cases u) as [?|Hu]; [done|]. by specialize (H Hu). Qed.
Lemma whole_ends cs msb s m d : holds s m d → (msb <= length cs)%nat → (1 <= length cs)%nat →
  (u = false → (length cs <=? 500)%nat && forallb isDigit (drop msb cs) = true) →
  ends false true (newExprNumberInt (Z.of_nat (msb + length cs)) (int_set_s (drop msb cs))) d s m made fine.
Proof.
  intros H Hm Hc Hd. apply newExprNumberInt_ends; [done|]. intros Hu.
  destruct (proj1 (andb_true_iff _ _) (Hd Hu)) as [Hl%Nat.leb_le Hdig].
  assert (Forall (λ c, isDigit c = true) (drop msb cs)) as HF by (by apply List.Forall_forall, forallb_forall).
  destruct (room_fit (msb + length cs) ltac:(lia)) as (_ & He & Hr). split; [done|]. split; [done|].
  intros p io st Hp Ha Hio. destruct (digits_fit (drop msb cs) (msb + length cs) p io st) as (R & E & _);
    [done|rewrite length_drop; lia|lia|done..|]. by exists R.
Qed.
Lemma decimal_ends cs text s m d : holds s m d → (u = false → decimal_tame cs text = true) →
  ends false true (decimal_number cs text) d s m made fine.
Proof.
  intros H Hd. unfold decimal_number, decimal_tame in *.
  destruct (number_scan cs 0 NUMBER_START 0) as [[state msb]|message] eqn:E.
  2:{ apply number_error_ends; [done|by apply not_tame]. }
  pose proof (number_scan_msb cs _ _ _ _ _ E ltac:(done)) as Hm. simpl in Hm.
  assert (state ≠ NUMBER_START → 1 <= length cs)%nat as Hc.
  { destruct cs; [|simpl; lia]. injection E as <- _. done. }
  destruct state; first [by apply number_error_ends; [done|apply not_tame] | by apply whole_ends; [|done|apply Hc|] | idtac].
  all: destruct (strtod_prefix _ _) as [x n]; eapply ends_bind; [by apply leaf_made|done|]; intros val s1 m1 H1 M1 Hv; cbn [snd] in Hd.
  all: destruct (n =? length cs)%nat; [by eapply ends_ret|].
  all: eapply ends_mono; [apply number_error_ends; [done|by apply not_tame]|done|done].
Qed.
Lemma radix_room value : In (if value <=? 255 then 3 else if value <=? 65535 then 5 else if value <=? 4294967295 then 10 else 20) [3; 5; 10; 20].
Proof. repeat case_match; simpl; auto. Qed.
Lemma radix_ends cs bits s m d : holds s m d → (u = false → is_Some (strtoNum cs bits)) →
  ends false true (radix_number cs bits) d s m made fine.
Proof.
  intros H Hd. unfold radix_number. destruct (strtoNum cs bits) as [value|] eqn:E.
  2:{ apply wp_undefined, not_tame. intros Hu. by destruct (Hd Hu). }
  apply newExprNumberInt_ends; [done|]. intros Hu.
  pose proof (strtoNum_nonneg _ _ _ E) as Hv.
  assert (∃ k, (if value <=? 255 then 3 else if value <=? 65535 then 5 else if value <=? 4294967295 then 10 else 20) = Z.of_nat k ∧
    (1 <= k <= 1000)%nat) as (k & -> & Hk).
  { destruct (radix_room value) as [<-|[<-|[<-|[<-|[]]]]]; [exists 3%nat|exists 5%nat|exists 10%nat|exists 20%nat]; lia. }
  destruct (room_fit k Hk) as (_ & He & Hr). split; [done|]. split; [done|]. intros p io st Hp Ha Hio.
  destruct (int_set_u_run value p io st Hp Ha Hv) as (R & ER & _). by exists R.
Qed.

(** ** The token before the current one *)
Lemma previous_tame s : passed s → u = false → type (previous s) ≠ TOKEN_EOF →
  token_tame src (previous s) (type (current_token s)) = true.
Proof. intros Hp Hu Hne. by apply (Hp (defined_ends Hu)). Qed.
Lemma same_source s m d : holds s m d → t = false → Scanner.source (scanner s) = src.
Proof. intros H Ht. destruct (h_view H Ht) as (ts & [] & _). done. Qed.

Lemma number_ends s m d : holds s m d → passed s → type (previous s) = TOKEN_NUMBER →
  ends false true number d s m made fine.
Proof.
  intros H Hp E. unfold number. apply ends_get, ends_previous_text. cbv zeta.
  set (cs := token_text _ _). set (text := match tstart _ with inl _ => _ | inr _ => _ end).
  assert (u = false → number_tame cs text = true) as Ht.
  { intros Hu. pose proof (previous_tame s Hp Hu ltac:(by rewrite E)) as Ht. unfold token_tame in Ht. rewrite E in Ht.
    unfold cs, text. by rewrite (same_source _ _ _ H (defined_ends Hu)). }
  clearbody cs text. unfold number_tame in Ht. destruct (radix_prefix cs) as [[bits|]|].
  - apply radix_ends; [done|]. intros Hu. exact (proj1 (bool_decide_eq_true _) (Ht Hu)).
  - by apply decimal_ends.
  - by apply decimal_ends.
Qed.
Lemma address_ends s m d : holds s m d → passed s → type (previous s) = TOKEN_ADDRESS →
  ends false true address d s m made fine.
Proof.
  intros H Hp E. unfold address. apply ends_previous_text.
  assert (u = false → is_Some (strtoNum (drop 2 (token_text (Scanner.source (scanner s)) (previous s))) 4)) as Ht.
  { intros Hu. pose proof (previous_tame s Hp Hu ltac:(by rewrite E)) as Ht. unfold token_tame in Ht. rewrite E in Ht.
    rewrite (same_source _ _ _ H (defined_ends Hu)). by apply bool_decide_eq_true in Ht. }
  destruct (strtoNum _ _) as [value|].
  - by apply leaf_made.
  - apply wp_undefined, not_tame. intros Hu. by destruct (Ht Hu).
Qed.

(** ** Words *)
Lemma string_ends s m d : holds s m d → passed s → type (previous s) = TOKEN_STRING → (u = false → d < room)%nat →
  ends false true string_rule d s m made fine.
Proof.
  intros H Hp E Hd. unfold string_rule. apply ends_previous_text. set (cs := take _ _).
  eapply ends_bind; [by apply allocate_ends|done|]. intros p s1 m1 H1 M1 _.
  eapply ends_bind; [by apply pushWorkingNode_ends|done|]. intros ? s2 m2 H2 M2 _.
  eapply ends_bind; [apply (ends_vm _ _ _ _ _ _ _ _ s2 m2 (S d) (S d) H2)|done|].
  - apply calm_still, still_pool.
  - intros Hu v Hv. pose proof (previous_tame s Hp Hu ltac:(by rewrite E)) as Ht. unfold token_tame in Ht. rewrite E in Ht.
    apply bool_decide_eq_true in Ht as [text Ht]. rewrite <-(same_source _ _ _ H (defined_ends Hu)) in Ht.
    change (unescape cs = Some text) in Ht. unfold copyStringWithEscapes. unfold with_pool. rewrite Ht.
    destruct (intern_good base room R0 ctx text (S d) v Hv) as (k & v' & E' & Hv'). unfold intern, with_pool in E'.
    eexists _, _. split; [exact E'|done].
  - intros k s3 m3 H3 M3 _. eapply ends_bind; [by apply popWorkingNode_ends|done|]. intros ? s4 m4 H4 M4 _. by eapply ends_ret.
Qed.
Lemma literal_ends s m d : holds s m d → prefix (rules (type (previous s))) = Some literal_ →
  ends false true literal d s m made fine.
Proof.
  intros H E. unfold literal. apply ends_previous_type. destruct (type (previous s)); try done; by apply leaf_made.
Qed.
Lemma reserved_ends s m d : holds s m d → passed s → prefix (rules (type (previous s))) = Some reserved_ →
  ends false true reserved d s m made fine.
Proof.
  intros H Hp E. unfold reserved. assert (u = true) as Hu.
  { apply not_tame. intros Hu. pose proof (previous_tame s Hp Hu) as Ht. unfold token_tame in Ht.
    destruct (type (previous s)); try done; by apply Ht. }
  eapply ends_bind; [by apply error_ends|done|]. intros ? s1 m1 H1 M1 He.
  eapply ends_mono; [by apply null_ends|done|done].
Qed.
Lemma builtin_ends s m d : holds s m d →
  match expr_builtin (type (previous s)) with Some _ => True | None => u = true ∧ type (current_token s) = TOKEN_LEFT_PAREN end →
  ends false true builtin d s m made fine.
Proof.
  intros H E. unfold builtin. apply ends_previous_type. destruct (expr_builtin _).
  - by apply leaf_made.
  - destruct E as [Hu E]. eapply ends_ret; [done| |done]. split; [done|by right].
Qed.
End Leaves.
