(* ===== verification/ParserExprs.v ===== *)
(** * What the functions for expressions and types make

    Under the invariant, and given that what the parser calls again keeps it,
    every function for expressions keeps it and makes a chain that the compiler
    can compile. *)
From Stdlib Require Import String Ascii.
From S2P Require Import ScannerSpec AstWf CompilerFrame ErrorSpec.
From S2P Require Export ParserLeaves.
Open Scope Z_scope.

(** Fuel and room for what is left of the tokens. *)
Definition enough (t : bool) (fuel c m : nat) : Prop := t = false → (3 * m + c <= fuel)%nat.
Definition deep (u : bool) (room c d m : nat) : Prop := u = false → (d + 16 * m + c <= room)%nat.

Abbreviation any := (λ _ _, True).
Definition good_expr (n : option Node) : Prop := wf_expr (tree n) = true.
Abbreviation good_opt := (λ e, AstWf.opt_of wf_elt e = true).
Abbreviation good_item := (λ x, item_of wf_elt x.1 = true).
(** One element, which starts a chain or goes on with one. *)
Definition single (n : option Node) (s : ObjParser) : Prop := ∃ p e, n = Some (p, [e]).
Abbreviation starts := (element (λ e, operand e && wf_elt e)).
Abbreviation continues := (element (λ e, postfix e && wf_elt e)).
(** The functions that the parser calls again. *)
Class Recursive `{HO : Host} (u t : bool) base room R0 ctx src (parsePrecedence : Precedence → PA (option Node))
  (typeExpression : PA (option Node)) (fuel : nat) : Prop := {
  prec_ends prec s m d : (1 <= prec <= PREC_CALL)%nat → holds u t base room R0 ctx src s m d → enough t fuel 1 m → deep u room 4 d m →
    ends u t base room R0 ctx src true true (parsePrecedence prec) d s m any good_expr;
  type_ends s m d : holds u t base room R0 ctx src s m d → enough t fuel 1 m → deep u room 4 d m →
    ends u t base room R0 ctx src false true typeExpression d s m any
      (λ n, if is_type_token (type (current_token s)) then good_expr n else n = None)
}.

(** Arithmetic on the tokens that are left. *)
Ltac left_facts Ht := repeat match goal with
  | M : ParserInv.moves _ _ _ _ _ _ _ _ |- _ =>
      let L := fresh "L" in pose proof (m_left M Ht) as L; cbn [Nat.b2n negb andb] in L; clear M
  | E : enough _ _ _ _ |- _ => let L := fresh "L" in pose proof (E Ht) as L; clear E
  | E : _ = false → _ ≠ TOKEN_EOF → _ |- _ => let L := fresh "L" in pose proof (E Ht ltac:(done)) as L; clear E
  | E : ?t = false → (_ <= _)%nat |- _ => let L := fresh "L" in pose proof (E Ht) as L; clear E
  end.
Ltac need := match goal with
  | |- enough _ _ _ _ => let Ht := fresh "Ht" in intros Ht; first [congruence | left_facts Ht; lia]
  | |- deep _ _ _ _ _ => let Hu := fresh "Hu" in intros Hu;
      repeat match goal with D : deep _ _ _ _ _ |- _ => specialize (D Hu) end;
      let Ht := fresh "Ht" in pose proof (defined_ends Hu) as Ht; first [congruence | left_facts Ht; lia]
  | |- _ = false → (_ < _)%nat => let Hu := fresh "Hu" in intros Hu;
      repeat match goal with D : deep _ _ _ _ _ |- _ => specialize (D Hu) end;
      let Ht := fresh "Ht" in pose proof (defined_ends Hu) as Ht; first [congruence | left_facts Ht; lia]
  end.
(** The next command of a sequence, and the commands that look at the current
    token. *)
Ltac settle := try match goal with |- Setting _ _ _ _ _ => eassumption | |- Recursive _ _ _ _ _ _ _ _ _ _ => eassumption end.
Tactic Notation "next" uconstr(H) "as" simple_intropattern(a) ident(s) ident(m) ident(Hs) ident(M) simple_intropattern(F) :=
  eapply ends_bind; [eapply H; settle|done|intros a s m Hs M F].
Tactic Notation "matched" "as" ident(s) ident(m) ident(Hs) ident(M) ident(Hm) :=
  eapply ends_match; settle; [eassumption|intros s m Hs M Hm _ _|intros _].
Tactic Notation "passing" "as" ident(s) ident(m) ident(Hs) ident(M) ident(E) ident(P) :=
  eapply ends_advance; settle; [eassumption|intros s m Hs M E P].
(** The last command of a sequence. *)
Tactic Notation "last" uconstr(H) := eapply ends_sub; [eapply H; settle|done|done|try done|try done].

Section Exprs.
Context `{U : Uninit} `{TG : Target} `{HO : Host} `{FM : FreshMemory}.
Context (u t : bool) (base : cells) (room : nat) (R0 : ObjRoutine).
Context {ST : Setting u t base room R0}.
Variable ctx : objptr.
Variable src : list Z.
Abbreviation holds := (holds u t base room R0 ctx src).
Abbreviation ends := (ends u t base room R0 ctx src).
Abbreviation moves := (moves t ctx).
Abbreviation passed := (passed u t src).

(** What the parser calls again. *)
Variable parsePrecedence : Precedence → PA (option Node).
Variable typeExpression : PA (option Node).
Variable fuel : nat.
Abbreviation enough := (enough t fuel).
Abbreviation deep := (deep u room).
Context {RC : Recursive u t base room R0 ctx src parsePrecedence typeExpression fuel}.

Lemma expression_ends s m d : holds s m d → enough 1 m → deep 4 d m →
  ends true true (expression parsePrecedence) d s m any good_expr.
Proof. intros H He Hd. unfold expression. apply prec_ends; try done. unfold PREC_ASSIGNMENT, PREC_CALL. lia. Qed.
(** An expression as a tree. *)
Lemma tree_ends s m d : holds s m d → enough 1 m → deep 4 d m →
  ends true true (e ← expression parsePrecedence; mret (tree e)) d s m any (λ e, wf_expr e = true).
Proof.
  intros H He Hd. next expression_ends as e s1 m1 H1 M1 _; [done|need|need|]. by eapply ends_ret.
Qed.

(** ** Lists *)
Lemma comma_loop_ends {A} k (item : PA A) message (P : A → Prop) d n : ∀ s m items,
  (∀ s m', (t = false → m' <= m)%nat → holds s m' d → ends k true item d s m' any P) →
  holds s m d → (t = false → m + 1 <= n)%nat →
  ends k true (comma_loop n item message items) d s m (λ l _, t = false → length l <= length items + m + 1)%nat
    (λ l, Forall P items → Forall P l ∧ few l = true).
Proof.
  induction n as [|n IH]; intros s m items Hitem H Hn.
  { apply wp_timeout. destruct (mode_cases t) as [?|Ht]; [done|]. specialize (Hn Ht). lia. }
  cbn [comma_loop]. next Hitem as x s1 m1 H1 M1 _; [done|done|]. cbv zeta.
  next error_if_ends as ? s2 m2 H2 M2 _; [done|]. matched as s3 m3 H3 M3 Hm.
  - last IH; [|done| | |].
    + intros s' m' Hm' H'. apply Hitem; [|done]. intros Ht. specialize (Hm' Ht). left_facts Ht. lia.
    + intros Ht. specialize (Hn Ht). left_facts Ht. lia.
    + intros l s4 Hl Ht. specialize (Hl Ht). rewrite length_app in Hl. simpl in Hl. left_facts Ht. lia.
    + intros l Hl Hf Hx Hi. apply Hl, Forall_app_2; [done|by constructor].
  - eapply (ends_weak _ _ _ _ _ _ _ false true); [|by destruct k|done]. eapply ends_ret; [done| |].
    + intros Ht. rewrite length_app. simpl. lia.
    + intros _ Hf Hx Hi. split; [by apply Forall_app_2; [|constructor]|]. unfold few. apply Nat.ltb_ge in Hf. by apply Nat.leb_le.
Qed.
Lemma arguments_ends s m d : holds s m d → enough 1 m → deep 4 d m →
  ends false true (comma_loop fuel (e ← expression parsePrecedence; mret (tree e)) "Can't have more than 255 arguments." []) d s m any
    (λ l, args_of wf_elt l = true).
Proof.
  intros H He Hd. last comma_loop_ends; [|done| |].
  - intros s' m' Hm H'. last tree_ends; [done|need|need].
  - intros Ht. left_facts Ht. lia.
  - intros l Hl. destruct (Hl (List.Forall_nil _)) as [HF Hw]. unfold args_of. rewrite Hw. by apply forallb_forall, List.Forall_forall.
Qed.
Lemma expressionList_ends s m d : holds s m d → enough 1 m → deep 4 d m →
  ends false true (expressionList parsePrecedence fuel) d s m any (λ l, args_of wf_elt l = true).
Proof.
  intros H He Hd. unfold expressionList. apply ends_check; intros _.
  - apply ends_skip. next consume_ends as ? s1 m1 H1 M1 _; [done|]. by eapply ends_ret.
  - next arguments_ends as l s1 m1 H1 M1 _; [done..|]. next consume_ends as ? s2 m2 H2 M2 _; [done|]. by eapply ends_ret.
Qed.
Lemma call_arguments_ends s m d : holds s m d → enough 1 m → deep 4 d m →
  ends false true (call_arguments parsePrecedence fuel) d s m any (λ call, call_of wf_elt call = true).
Proof.
  intros H He Hd. unfold call_arguments. matched as s1 m1 H1 M1 Hm; [|by eapply ends_ret].
  next allocate_ends as ? s2 m2 H2 M2 _; [done|].
  next expressionList_ends as l s3 m3 H3 M3 _; [done|need|need|]. by eapply ends_ret.
Qed.

(** ** Names and assignments *)
Lemma opt_expr e : wf_expr e = true → good_opt e.
Proof. intros H. unfold AstWf.opt_of. change (AstWf.absent e || wf_expr e = true). by rewrite H, orb_true_r. Qed.
Lemma assigned_ends canAssign s m d : holds s m d → enough 1 m → deep 4 d m →
  ends false true (assigned parsePrecedence canAssign) d s m any good_opt.
Proof.
  intros H He Hd. destruct canAssign; [|by eapply ends_ret]. cbn [assigned]. matched as s1 m1 H1 M1 Hm; [|by eapply ends_ret].
  last tree_ends; [done|need|need|]. intros e. apply opt_expr.
Qed.
(** The assignment of a name, with a node at work. *)
Lemma assignment_ends (canAssign : bool) p s m d : holds s m d → enough 1 m → deep 6 d m →
  ends false true (if canAssign then
                  m ← match_ TOKEN_EQUAL;
                  if (m : bool) then pushWorkingNode (Some p) ;; e ← expression parsePrecedence; popWorkingNode ;; mret (tree e)
                  else mret []
                else mret []) d s m any good_opt.
Proof.
  intros H He Hd. destruct canAssign; [|by eapply ends_ret]. matched as s1 m1 H1 M1 Hm; [|by eapply ends_ret].
  next pushWorkingNode_ends as ? s2 m2 H2 M2 _; [done|need|].
  next expression_ends as e s3 m3 H3 M3 _; [done|need|need|].
  next popWorkingNode_ends as ? s4 m4 H4 M4 _; [done|]. eapply ends_ret; [done|done|]. intros. by apply opt_expr.
Qed.
Lemma namedVariable_ends name canAssign s m d : holds s m d → enough 1 m → deep 8 d m →
  ends false true (namedVariable parsePrecedence name canAssign) d s m single starts.
Proof.
  intros H He Hd. unfold namedVariable. apply ends_text_of.
  next copyString_ends as k s1 m1 H1 M1 _; [done|].
  next pushWorkingNode_ends as ? s2 m2 H2 M2 _; [done|need|].
  next new_named_ends as [p k2] s3 m3 H3 M3 _; [done|need|].
  next assignment_ends as e s4 m4 H4 M4 _; [done|need|need|].
  next popWorkingNode_ends as ? s5 m5 H5 M5 _; [done|].
  eapply ends_ret; [done|by eexists _, _|]. intros _ _ Hx _ _ _. exact Hx.
Qed.

(** ** Collections *)
Lemma item_expr e : wf_expr e = true → item_of wf_elt e = true.
Proof. intros H. destruct e as [|[] e]; done. Qed.
Lemma appendInitializer_ends s m d : holds s m d → enough 1 m → deep 4 d m →
  ends true true (appendInitializer parsePrecedence) d s m any good_item.
Proof.
  intros H He Hd. unfold appendInitializer. next expression_ends as key s1 m1 H1 M1 _; [done..|].
  matched as s2 m2 H2 M2 Hm.
  - next pushNode_ends as ? s3 m3 H3 M3 _; [done|need|]. next expression_ends as value s4 m4 H4 M4 _; [done|need|need|].
    next pushNode_ends as ? s5 m5 H5 M5 _; [done|need|]. next allocate_ends as ? s6 m6 H6 M6 _; [done|].
    next popWorkingNode_ends as ? s7 m7 H7 M7 _; [done|]. next popWorkingNode_ends as ? s8 m8 H8 M8 _; [done|].
    eapply ends_ret; [done|done|]. intros _ _ _ _ _ Hv _ Hk. simpl. change (wf_expr (tree key) && wf_expr (tree value) && true = true).
    unfold good_expr in Hk, Hv. by rewrite Hk, Hv.
  - eapply ends_ret; [done|done|]. intros _ Hk. by apply item_expr.
Qed.
Lemma collectionInitializers_ends s m d : holds s m d → enough 1 m → deep 4 d m →
  ends false true (collectionInitializers parsePrecedence fuel) d s m (λ l _, t = false → length l <= m + 1)%nat (Forall good_item).
Proof.
  intros H He Hd. unfold collectionInitializers. apply ends_check; intros _; [eapply ends_ret; [done|simpl; lia|by constructor]|].
  last comma_loop_ends; [|done| |].
  - intros s' m' Hm H'. last appendInitializer_ends; [done|need|need].
  - intros Ht. left_facts Ht. lia.
  - intros l Hl. by apply Hl.
Qed.
Lemma newExprNumberFromCint_ends z s m d : holds s m d → (u = false → INT64_MIN <= z <= INT64_MAX) →
  ends false true (vmp (newExprNumberFromCint z)) d s m any (λ _, True).
Proof.
  intros H Hz. eapply ends_mono; [apply (ends_vm _ _ _ _ _ _ _ _ s m d d H)|done|done].
  - apply calm_still. unfold newExprNumberFromCint, vm_ints. still.
  - intros Hu v Hv. unfold newExprNumberFromCint. erewrite st_bind_run by done.
    assert (∀ st, ∃ i st', with_object (mkInt false false false false 0 2 [0; 0]) (λ q, int_set_i z q ;; get q) st = Some (i, st')) as Hn.
    { apply (new_int_ok 2); [by exists 1%nat|lia|]. intros p io st Hp Ha _.
      destruct (int_set_i_run z p io st Hp Ha (Hz Hu)) as (R & E & _). by exists R. }
    assert (good base room R0 ctx (set_next_type (Pos.succ (next_type v)) v) d) as Hv' by (by eapply good_same).
    destruct (ints_good base room R0 ctx _ d Hn _ Hv') as (i & v' & E & Hv''). rewrite (st_bind_run _ _ _ _ _ E). by eexists _, _.
Qed.
Lemma collectioninit_ends s m d : holds s m d → enough 1 m → deep 8 d m →
  ends false true (collectioninit parsePrecedence fuel) d s m single starts.
Proof.
  intros H He Hd. unfold collectioninit. next allocate_ends as p s1 m1 H1 M1 _; [done|].
  next pushWorkingNode_ends as ? s2 m2 H2 M2 _; [done|need|].
  next collectionInitializers_ends as items s3 m3 H3 M3 Hl; [done|need|need|].
  next consume_ends as ? s4 m4 H4 M4 _; [done|].
  next newExprNumberFromCint_ends as [cardinality q] s5 m5 H5 M5 _; [done| |].
  { intros Hu. pose proof (defined_ends Hu) as Ht. specialize (Hl Ht). specialize (Hd Hu). left_facts Ht.
    pose proof room_ok. unfold INT64_MIN, INT64_MAX. lia. }
  next popWorkingNode_ends as ? s6 m6 H6 M6 _; [done|]. eapply ends_ret; [done|by eexists _, _|].
  intros _ _ _ _ Hi _ _. simpl. rewrite orb_true_r, andb_true_r. apply forallb_forall. intros x Hx.
  apply in_map_iff in Hx as (y & <- & Hy). rewrite List.Forall_forall in Hi. by apply Hi.
Qed.

(** ** Members and elements *)
Lemma super_ends s m d : holds s m d → enough 1 m → deep 8 d m →
  ends false true (super_ parsePrecedence fuel) d s m single starts.
Proof.
  intros H He Hd. unfold super_. next consume_ends as ? s1 m1 H1 M1 _; [done|]. next consume_ends as ? s2 m2 H2 M2 _; [done|].
  apply ends_previous_text. next new_named_ends as [p k] s3 m3 H3 M3 _; [done|need|].
  next pushWorkingNode_ends as ? s4 m4 H4 M4 _; [done|need|]. next call_arguments_ends as call s5 m5 H5 M5 _; [done|need|need|].
  next popWorkingNode_ends as ? s6 m6 H6 M6 _; [done|]. eapply ends_ret; [done|by eexists _, _|]. by intros _ _ Hc.
Qed.
Lemma match_ends ty s m d : holds s m d → ends false true (match_ ty) d s m any (λ _, True).
Proof.
  intros H. unfold match_. apply ends_check; intros _; [|by eapply ends_ret].
  next advance_ends as ? s1 m1 H1 M1 _; [done|]. by eapply ends_ret.
Qed.
Lemma maybe_match_ends (b : bool) ty s m d : holds s m d →
  ends false true (if b then match_ ty else mret false) d s m any (λ _, True).
Proof. intros H. destruct b; [by apply match_ends|by eapply ends_ret]. Qed.
Lemma dot_rest_ends (b : bool) s m d : holds s m d → enough 1 m → deep 4 d m →
  ends false true (if b then e ← expression parsePrecedence; mret (tree e, None)
                   else call ← call_arguments parsePrecedence fuel; mret ([], call)) d s m any
    (λ r, good_opt r.1 ∧ call_of wf_elt r.2 = true).
Proof.
  intros H He Hd. destruct b.
  - next expression_ends as e s1 m1 H1 M1 _; [done..|]. eapply ends_ret; [done|done|]. intros. split; [by apply opt_expr|done].
  - next call_arguments_ends as call s1 m1 H1 M1 _; [done..|]. by eapply ends_ret.
Qed.
Lemma dot_ends canAssign s m d : holds s m d → enough 1 m → deep 8 d m →
  ends false true (dot parsePrecedence fuel canAssign) d s m single continues.
Proof.
  intros H He Hd. unfold dot. next consume_ends as ? s1 m1 H1 M1 _; [done|]. apply ends_previous_text.
  next new_named_ends as [p k] s2 m2 H2 M2 _; [done|need|]. next pushWorkingNode_ends as ? s3 m3 H3 M3 _; [done|need|].
  next maybe_match_ends as b s4 m4 H4 M4 _; [done|]. next dot_rest_ends as [asg args] s5 m5 H5 M5 _; [done|need|need|].
  next popWorkingNode_ends as ? s6 m6 H6 M6 _; [done|]. eapply ends_ret; [done|by eexists _, _|].
  intros _ _ [Ha Hc] _ _ _ _. simpl in *. by rewrite Ha, Hc.
Qed.
Lemma deref_ends canAssign s m d : holds s m d → enough 1 m → deep 8 d m →
  ends false true (deref parsePrecedence canAssign) d s m single continues.
Proof.
  intros H He Hd. unfold deref. next allocate_ends as p s1 m1 H1 M1 _; [done|]. next pushWorkingNode_ends as ? s2 m2 H2 M2 _; [done|need|].
  next expression_ends as e s3 m3 H3 M3 _; [done|need|need|]. next consume_ends as ? s4 m4 H4 M4 _; [done|].
  next assigned_ends as asg s5 m5 H5 M5 _; [done|need|need|].
  next popWorkingNode_ends as ? s6 m6 H6 M6 _; [done|]. eapply ends_ret; [done|by eexists _, _|].
  intros _ _ Ha _ He'. intros. simpl. change (wf_expr (tree e) && AstWf.opt_of wf_elt asg = true). by rewrite Ha, He'.
Qed.
Lemma call_ends s m d : holds s m d → enough 1 m → deep 8 d m →
  ends false true (call parsePrecedence fuel) d s m single continues.
Proof.
  intros H He Hd. unfold call. next allocate_ends as p s1 m1 H1 M1 _; [done|]. next pushWorkingNode_ends as ? s2 m2 H2 M2 _; [done|need|].
  next expressionList_ends as l s3 m3 H3 M3 _; [done|need|need|].
  next popWorkingNode_ends as ? s4 m4 H4 M4 _; [done|]. eapply ends_ret; [done|by eexists _, _|]. by intros _ _ Hl.
Qed.
End Exprs.
