(* ===== verification/ParserRules.v ===== *)
(** * Types, operators, the table of rules, and precedence

    Every function of the table keeps the invariant; and so does parsing by
    precedence, which puts the elements that they make into one chain.  With
    one more unit of fuel than what it calls, [parsePrecedence] makes a chain
    that can be compiled. *)
From Stdlib Require Import String Ascii.
From S2P Require Import ScannerSpec AstWf CompilerFrame ErrorSpec.
From S2P Require Export ParserExprs.
Open Scope Z_scope.

Section Rules.
Context `{U : Uninit} `{TG : Target} `{HO : Host} `{FM : FreshMemory}.
Context (u t : bool) (base : cells) (room : nat) (R0 : ObjRoutine).
Context {ST : Setting u t base room R0}.
Variable ctx : objptr.
Variable src : list Z.
Abbreviation holds := (holds u t base room R0 ctx src).
Abbreviation ends := (ends u t base room R0 ctx src).
Abbreviation passed := (passed u t src).
Variable parsePrecedence : Precedence → PA (option Node).
Variable typeExpression : PA (option Node).
Variable fuel : nat.
Context {RC : Recursive u t base room R0 ctx src parsePrecedence typeExpression fuel}.
Abbreviation enough := (enough t fuel).
Abbreviation deep := (deep u room).

(** ** Types *)
Lemma nil_ends s m d : holds s m d → ends false true (leaf (OBJ_EXPR_LITERAL EXPR_LITERAL_NIL)) d s m any good_expr.
Proof. intros H. last (leaf_ends u t base room R0 ctx src _ s m d (λ e, wf_expr e = true)); done. Qed.
(** A structure: there is no promise that it ends. *)
Lemma field_type_ends s m d : holds s m d → t = true →
  ends false true (if is_type_token (type (current_token s)) then typeExpression else leaf (OBJ_EXPR_LITERAL EXPR_LITERAL_NIL))
    d s m any good_expr.
Proof.
  intros H Ht. destruct (is_type_token _) eqn:E; [|by apply nil_ends].
  last type_ends; [done|need|need|]. cbv beta. by rewrite E.
Qed.
Lemma field_offset_ends (b : bool) s m d : holds s m d → t = true →
  ends false true (if b then expression parsePrecedence else leaf (OBJ_EXPR_LITERAL EXPR_LITERAL_NIL)) d s m any good_expr.
Proof. intros H Ht. destruct b; [|by apply nil_ends]. last expression_ends; [done|need|need]. Qed.
Lemma pushNewStmt_ends s m d : holds s m d → (u = false → d < room)%nat → ends false true pushNewStmt (S d) s m any (λ _, True).
Proof.
  intros H Hd. unfold pushNewStmt. next allocate_ends as p s1 m1 H1 M1 _; [done|]. by last pushWorkingNode_ends.
Qed.
Lemma declared_ends cs s m d : holds s m d → (u = false → d < room)%nat →
  ends false true (pushNewStmtDeclaration cs) (S d) s m any (λ _, True).
Proof.
  intros H Hd. unfold pushNewStmtDeclaration. next pushNewStmt_ends as ? s1 m1 H1 M1 _; [done..|].
  by last copyString_ends.
Qed.
Lemma fieldStmt_ends s m d : holds s m d → t = true →
  ends false true (fieldStmt parsePrecedence typeExpression) d s m any (λ f, is_field f && wf_stmt f = true).
Proof.
  intros H Ht.
  unfold fieldStmt. apply ends_type_is. next field_type_ends as ty s1 m1 H1 M1 _; [done..|].
  next pushNode_ends as ? s2 m2 H2 M2 _; [done|need|]. next (match_ends _ _ _ _ _ _ _ TOKEN_AT) as b s3 m3 H3 M3 _; [done|].
  next field_offset_ends as offset s4 m4 H4 M4 _; [done..|].
  next pushNode_ends as ? s5 m5 H5 M5 _; [done|need|]. next consume_ends as ? s6 m6 H6 M6 _; [done|].
  apply ends_get, ends_previous_text. next declared_ends as name s7 m7 H7 M7 _; [done|need|].
  next consume_ends as ? s8 m8 H8 M8 _; [done|].
  next popWorkingNode_ends as ? s9 m9 H9 M9 _; [done|]. next popWorkingNode_ends as ? s10 m10 H10 M10 _; [done|].
  next popWorkingNode_ends as ? s11 m11 H11 M11 _; [done|]. eapply ends_ret; [done|done|].
  intros _ _ _ _ _ _ _ _ Ho _ _ Hty. unfold good_expr in *. simpl. change (wf_expr (tree ty) && wf_expr (tree offset) = true). by rewrite Ho, Hty.
Qed.
Lemma field_loop_ends n : ∀ fields s m d, holds s m d → t = true →
  ends false true (field_loop parsePrecedence typeExpression n fields) d s m any
    (λ fs, forallb (λ f, is_field f && wf_stmt f) fields = true → forallb (λ f, is_field f && wf_stmt f) fs = true).
Proof.
  induction n as [|n IH]; intros fields s m d H Ht; [by apply wp_timeout|]. cbn [field_loop]. apply ends_check; intros _; [by eapply ends_ret|].
  next fieldStmt_ends as f s1 m1 H1 M1 _; [done..|]. last IH; [done..|]. intros fs Hfs Hf Hi. apply Hfs.
  rewrite forallb_app, Hi. simpl. by rewrite Hf.
Qed.
Lemma structExpression_ends s m d : holds s m d → t = true →
  ends false true (structExpression parsePrecedence typeExpression fuel) d s m single starts.
Proof.
  intros H Ht.
  unfold structExpression. next consume_ends as ? s1 m1 H1 M1 _; [done|]. next allocate_ends as p s2 m2 H2 M2 _; [done|].
  next pushWorkingNode_ends as ? s3 m3 H3 M3 _; [done|need|]. next field_loop_ends as fs s4 m4 H4 M4 _; [done..|].
  next consume_ends as ? s5 m5 H5 M5 _; [done|]. next popWorkingNode_ends as ? s6 m6 H6 M6 _; [done|].
  eapply ends_ret; [done|by eexists _, _|]. intros _ _ _ Hf _ _ _. by apply Hf.
Qed.

Lemma index_ends (c : bool) s m d : holds s m d → enough 1 m → deep 4 d m →
  ends false true (if c then mret None else parsePrecedence PREC_ASSIGNMENT) d s m any (λ n, n ≠ None → good_expr n).
Proof.
  intros H He Hd. destruct c; [by eapply ends_ret|]. last (expression_ends u t base room R0 ctx src parsePrecedence); [done..|]. auto.
Qed.
Lemma index_error_ends (n : option Node) message s m d : holds s m d →
  ends false true (match n with None => error_ message | Some _ => mret () end) d s m any (λ _, n ≠ None).
Proof. intros H. destruct n; [by eapply ends_ret|]. by last error_ends. Qed.
(** The type goes on with an index type, or not. *)
Definition typed (e : ObjExpr) (n : option Node) (s : ObjParser) : Prop := ∃ p es, n = Some (p, e :: es).
Lemma consumeCollectionIndex_ends p e s m d : holds s m d → enough 1 m → deep 4 d m →
  ends false true (consumeCollectionIndex parsePrecedence (Some (p, [e]))) d s m (typed e) (λ n, wf_expr [e] = true → good_expr n).
Proof.
  intros H He Hd. unfold consumeCollectionIndex. matched as s1 m1 H1 M1 Hm; [|by eapply ends_ret; [|eexists _, _|]].
  next allocate_ends as q s2 m2 H2 M2 _; [done|].
  eapply (ends_bind _ _ _ _ _ _ _ _ _ false true _ _ d d s2 m2 any (λ _, True)); [|done|intros c s3 m3 H3 M3 _].
  { by apply ends_ret with (a := bool_decide (type (current_token s2) = TOKEN_RIGHT_SQUARE_BRACKET)). }
  next index_ends as n s4 m4 H4 M4 _; [done|need|need|]. next index_error_ends as ? s5 m5 H5 M5 _; [done|].
  next consume_ends as ? s6 m6 H6 M6 _; [done|]. eapply ends_ret; [done|by eexists _, _|].
  intros _ _ Hn Hi _ _ We. specialize (Hi Hn). unfold good_expr, wf_expr, expr_of in *. simpl in *.
  apply andb_true_iff in We as [-> We]. rewrite andb_true_r in We. rewrite We. simpl. unfold expr_of. by rewrite Hi.
Qed.
Lemma type_node_ends s m d : holds s m d → passed s → is_type_token (type (previous s)) = true →
  ends false true (type_node parsePrecedence typeExpression fuel) d s m single starts.
Proof.
  intros H Hp E. unfold type_node. apply ends_previous_type. case_bool_decide as Es.
  - apply structExpression_ends; [done|]. destruct (mode_cases t) as [?|Ht]; [done|].
    destruct (Hp Ht) as [Hs _]; [by rewrite Es|]. unfold is_struct in Hs. by rewrite bool_decide_true in Hs.
  - assert (∃ e, type_word (type (previous s)) = Some e ∧ operand e && wf_elt e = true) as (e & -> & He).
    { destruct (type (previous s)); try done; by eexists. }
    next allocate_ends as p s1 m1 H1 M1 _; [done|]. by eapply ends_ret; [|eexists _, _|].
Qed.
(** A type and its index. *)
Lemma type_index_ends n s m d : holds s m d → single n s → enough 1 m → deep 8 d m →
  ends false true (pushNode n ;; e ← consumeCollectionIndex parsePrecedence n; popWorkingNode ;; mret e) d s m
    (λ n' s', ∃ e, typed e n' s') (λ n', starts n → good_expr n').
Proof.
  intros H (p & e & ->) He Hd. next pushNode_ends as ? s1 m1 H1 M1 _; [done|need|].
  next consumeCollectionIndex_ends as n s2 m2 H2 M2 T; [done|need|need|]. next popWorkingNode_ends as ? s3 m3 H3 M3 _; [done|].
  eapply ends_ret; [done|by exists e|]. intros _ _ Hn _ Hs. apply Hn. simpl in Hs. apply andb_true_iff in Hs as [H4 H5].
  unfold wf_expr, expr_of. simpl. by rewrite H4, H5.
Qed.
Lemma type_rule_ends s m d : holds s m d → passed s → prefix (rules (type (previous s))) = Some type_ → enough 1 m → deep 8 d m →
  ends false true (type_rule parsePrecedence typeExpression fuel) d s m (made u) fine.
Proof.
  intros H Hp E He Hd. unfold type_rule. apply ends_check; intros Ec.
  - apply builtin_ends; [done|]. destruct (expr_builtin _) eqn:Eb; [done|]. split; [|done].
    apply not_tame. intros Hu. pose proof (previous_tame u t base room R0 src s Hp Hu) as Ht. unfold token_tame in Ht.
    rewrite Ec in Ht. destruct (type (previous s)); try done; by apply Ht.
  - next type_node_ends as n s1 m1 H1 M1 Hn; [done|done|by destruct (type (previous s))|].
    last type_index_ends; [done|done|need|need| |].
    + intros n' s' (e & p & es & ->). done.
    + intros n' Hg Hs. specialize (Hg Hs). by destruct n' as [[]|].
Qed.

(** ** Operators *)
(** The operand is on the stack while the node is allocated. *)
Lemma operand_ends rhs (mk : objptr → option Node) (P : ObjExpr → bool) s m d : holds s m d → (u = false → d < room)%nat →
  (∀ p, ∃ e, mk p = Some (p, [e]) ∧ (good_expr rhs → P e = true)) →
  ends false true (pushNode rhs ;; p ← allocate; popWorkingNode ;; mret (mk p)) d s m single (λ n, good_expr rhs → element P n).
Proof.
  intros H Hd Hmk. next pushNode_ends as ? s1 m1 H1 M1 _; [done|done|].
  next allocate_ends as p s2 m2 H2 M2 _; [done|]. next popWorkingNode_ends as ? s3 m3 H3 M3 _; [done|].
  destruct (Hmk p) as (e & -> & He). eapply ends_ret; [done|by eexists _, _|]. auto.
Qed.
Lemma operation_good op rhs assignment : good_expr rhs → good_opt assignment →
  wf_elt (OBJ_EXPR_OPERATION op (tree rhs) assignment) = true.
Proof.
  intros H1 H2. change (wf_expr (tree rhs) && AstWf.opt_of wf_elt assignment = true). unfold good_expr in H1. by rewrite H1, H2.
Qed.
Lemma unary_ends s m d : holds s m d → prefix (rules (type (previous s))) = Some unary_ → enough 1 m → deep 8 d m →
  ends false true (unary parsePrecedence) d s m single starts.
Proof.
  intros H E He Hd. unfold unary. apply ends_previous_type.
  assert (∃ op, unary_op (type (previous s)) = Some op ∧ AstWf.unary op = true) as (op & -> & Hop).
  { destruct (type (previous s)); try done; by eexists. }
  next prec_ends as rhs s1 m1 H1 M1 _; [unfold PREC_UNARY, PREC_CALL; lia|done|need|need|].
  last (operand_ends rhs (λ p, operation p op rhs []) (λ e, operand e && wf_elt e)); [done|need|].
  intros p. eexists. split; [done|]. intros Hg. cbn [operand postfix]. rewrite Hop. by apply operation_good.
Qed.
Lemma unaryPlace_ends canAssign s m d : holds s m d → prefix (rules (type (previous s))) = Some unaryPlace_ → enough 1 m → deep 8 d m →
  ends false true (unaryPlace parsePrecedence canAssign) d s m single starts.
Proof.
  intros H E He Hd. unfold unaryPlace. apply ends_previous_type.
  assert (type (previous s) = TOKEN_STAR) as -> by (by destruct (type (previous s))).
  next prec_ends as rhs s1 m1 H1 M1 _; [unfold PREC_UNARY, PREC_CALL; lia|done|need|need|].
  next pushNode_ends as ? s2 m2 H2 M2 _; [done|need|]. rewrite bool_decide_true by done.
  next allocate_ends as p s3 m3 H3 M3 _; [done|]. next popWorkingNode_ends as ? s4 m4 H4 M4 _; [done|].
  next pushWorkingNode_ends as ? s5 m5 H5 M5 _; [done|need|]. next assigned_ends as asg s6 m6 H6 M6 _; [done|need|need|].
  next popWorkingNode_ends as ? s7 m7 H7 M7 _; [done|]. eapply ends_ret; [done|by eexists _, _|].
  intros _ _ Ha _ _ _ _ Hr. cbn [element operation operand]. by apply operation_good.
Qed.
Lemma grouping_ends s m d : holds s m d → enough 1 m → deep 8 d m →
  ends false true (grouping parsePrecedence) d s m single starts.
Proof.
  intros H He Hd. unfold grouping. next expression_ends as e s1 m1 H1 M1 _; [done|need|need|].
  next pushNode_ends as ? s2 m2 H2 M2 _; [done|need|]. next consume_ends as ? s3 m3 H3 M3 _; [done|].
  next allocate_ends as p s4 m4 H4 M4 _; [done|]. next popWorkingNode_ends as ? s5 m5 H5 M5 _; [done|].
  eapply ends_ret; [done|by eexists _, _|]. by intros _ _ _ _ _ Hg.
Qed.
Lemma logical_ends prec op s m d : holds s m d → (1 <= prec <= PREC_CALL)%nat → AstWf.unary op = false → enough 1 m → deep 8 d m →
  ends false true (logical parsePrecedence prec op) d s m single continues.
Proof.
  intros H Hprec Hop He Hd. unfold logical. next prec_ends as rhs s1 m1 H1 M1 _; [done|done|need|need|].
  last (operand_ends rhs (λ p, operation p op rhs []) (λ e, postfix e && wf_elt e)); [done|need|].
  intros p. eexists. split; [done|]. intros Hg. cbn [operand postfix]. rewrite Hop. by apply operation_good.
Qed.
Lemma binary_ends s m d : holds s m d → infix (rules (type (previous s))) = Some binary_ → enough 1 m → deep 8 d m →
  ends false true (binary parsePrecedence) d s m single continues.
Proof.
  intros H E He Hd. unfold binary. apply ends_previous_type.
  assert (∃ op, binary_op (type (previous s)) = Some op ∧ AstWf.unary op = false ∧ (1 <= S (precedence (rules (type (previous s)))) <= PREC_CALL)%nat)
    as (op & -> & Hop & Hprec).
  { unfold PREC_CALL. destruct (type (previous s)); try done; eexists; (split; [done|]; split; [done|]); cbv [precedence rules PREC_TERM PREC_FACTOR PREC_EQUALITY PREC_COMPARISON]; lia. }
  next prec_ends as rhs s1 m1 H1 M1 _; [done|done|need|need|].
  last (operand_ends rhs (λ p, operation p op rhs []) (λ e, postfix e && wf_elt e)); [done|need|].
  intros p. eexists. split; [done|]. intros Hg. cbn [operand postfix]. rewrite Hop. by apply operation_good.
Qed.

(** ** The table *)
Lemma single_made n s : single n s → made u n s.
Proof. by intros (p & e & ->). Qed.
Lemma variable_ends canAssign s m d : holds s m d → enough 1 m → deep 8 d m →
  ends false true (variable parsePrecedence canAssign) d s m single starts.
Proof. intros H He Hd. unfold variable. apply ends_get. by apply (namedVariable_ends u t base room R0 ctx src parsePrecedence typeExpression fuel). Qed.
Lemma prefix_ends f canAssign s m d : holds s m d → passed s → prefix (rules (type (previous s))) = Some f → enough 1 m → deep 8 d m →
  ends false true (parse_fn parsePrecedence typeExpression fuel f canAssign) d s m (made u) fine.
Proof.
  intros H Hp E He Hd.
  assert (∀ c, ends false true c d s m single starts → ends false true c d s m (made u) fine) as Hs.
  { intros c Hc. eapply ends_mono; [exact Hc|apply single_made|]. intros n. apply element_fine. }
  destruct f; cbn [parse_fn].
  all: try (by exfalso; destruct (type (previous s))).
  - by apply Hs, grouping_ends.
  - apply Hs. by apply (collectioninit_ends u t base room R0 ctx src parsePrecedence typeExpression fuel).
  - by apply Hs, unary_ends.
  - by apply Hs, unaryPlace_ends.
  - apply address_ends; settle; [done|done|]. by destruct (type (previous s)).
  - by apply Hs, variable_ends.
  - apply string_ends; settle; [done|done|by destruct (type (previous s))|need].
  - apply number_ends; settle; [done|done|by destruct (type (previous s))].
  - by apply type_rule_ends.
  - by apply reserved_ends.
  - apply builtin_ends; [done|]. by destruct (type (previous s)).
  - by apply literal_ends.
  - apply Hs. by apply (super_ends u t base room R0 ctx src parsePrecedence typeExpression fuel).
  - by apply Hs, variable_ends.
Qed.
Lemma infix_ends f canAssign s m d : holds s m d → infix (rules (type (previous s))) = Some f →
  (1 <= precedence (rules (type (previous s))))%nat → enough 1 m → deep 8 d m →
  ends false true (parse_fn parsePrecedence typeExpression fuel f canAssign) d s m single continues.
Proof.
  intros H E Hprec He Hd. destruct f; cbn [parse_fn].
  all: try (by exfalso; destruct (type (previous s)); simpl in *; unfold PREC_NONE in *; (done || lia)).
  - by apply (call_ends u t base room R0 ctx src parsePrecedence typeExpression fuel).
  - by apply (deref_ends u t base room R0 ctx src parsePrecedence typeExpression fuel).
  - by apply (dot_ends u t base room R0 ctx src parsePrecedence typeExpression fuel).
  - by apply binary_ends.
  - apply logical_ends; try done. unfold PREC_AND, PREC_CALL. lia.
  - apply logical_ends; try done. unfold PREC_OR, PREC_CALL. lia.
Qed.
End Rules.

(** ** Parsing by precedence *)
Lemma wf_snoc before e : wf_expr before = true → postfix e && wf_elt e = true → wf_expr (before ++ [e]) = true.
Proof.
  unfold wf_expr, expr_of. destruct before as [|x before]; [done|]. intros H1 H2. simpl in *. rewrite !forallb_app. simpl.
  destruct (operand x), (forallb postfix before), (wf_elt x), (forallb wf_elt before), (postfix e), (wf_elt e); done.
Qed.
Lemma wf_first e es : wf_expr (e :: es) = true → wf_expr [e] = true.
Proof.
  unfold wf_expr, expr_of. simpl. destruct (operand e), (forallb postfix es), (wf_elt e); done.
Qed.

Section Prec.
Context `{U : Uninit} `{TG : Target} `{HO : Host} `{FM : FreshMemory}.
Context (u t : bool) (base : cells) (room : nat) (R0 : ObjRoutine).
Context {ST : Setting u t base room R0}.
Variable ctx : objptr.
Variable src : list Z.
Abbreviation holds := (holds u t base room R0 ctx src).
Abbreviation ends := (ends u t base room R0 ctx src).
Abbreviation passed := (passed u t src).
Variable parsePrecedence : Precedence → PA (option Node).
Variable typeExpression : PA (option Node).
Variable fuel : nat.
Context {RC : Recursive u t base room R0 ctx src parsePrecedence typeExpression fuel}.
Abbreviation enough := (enough t fuel).
Abbreviation deep := (deep u room).

Lemma rule_infix ty prec : (1 <= prec)%nat → (prec <=? precedence (rules ty))%nat = true →
  (∃ f, infix (rules ty) = Some f) ∧ ty ≠ TOKEN_EOF ∧ (1 <= precedence (rules ty))%nat.
Proof.
  intros Hp H%Nat.leb_le. destruct ty; simpl in *; unfold PREC_NONE in *; try lia; (split; [by eexists|]; split; [done|lia]).
Qed.
Lemma infix_loop_ends n : ∀ prec canAssign chain before next s m d, holds s m d → (1 <= prec)%nat →
  (t = false → m + 1 <= n)%nat → enough 1 m → deep 8 d m →
  ends false true (infix_loop parsePrecedence typeExpression fuel n prec canAssign chain (Some (before, next))) d s m any
    (λ c, wf_expr chain = true → wf_expr before = true → wf_expr c = true).
Proof.
  induction n as [|n IH]; intros prec canAssign chain before next s m d H Hp Hn He Hd.
  { apply wp_timeout. destruct (mode_cases t) as [?|Ht]; [done|]. specialize (Hn Ht). lia. }
  cbn [infix_loop]. apply ends_current_type. destruct (prec <=? _)%nat eqn:E; [|by eapply ends_ret].
  destruct (rule_infix _ _ Hp E) as ((f & Ef) & Hne & Hpos).
  pose proof (λ Ht, holds_more _ _ _ _ _ _ _ _ _ _ H Ht Hne) as Hm.
  passing as s1 m1 H1 M1 E1 P1. apply ends_previous_type. rewrite E1, Ef.
  next infix_ends as node s2 m2 H2 M2 (p & e & ->); [done|by rewrite E1|by rewrite E1|need|need|]. cbn [set_next fmap option_fmap option_map fst].
  next set_prevExpr_ends as ? s3 m3 H3 M3 _; [done|].
  last IH; [done|done| |need|need|].
  - intros Ht. specialize (Hn Ht). left_facts Ht. lia.
  - intros c Hc _ Hel _ Wb. assert (wf_expr (before ++ [e]) = true) as W by (by apply wf_snoc). by apply Hc.
Qed.
(** After a null node the loop writes through it, or ends. *)
Lemma null_loop_ends n prec canAssign s m d : holds s m d → (1 <= prec <= PREC_CALL)%nat → u = true →
  perrors s ≠ [] ∨ type (current_token s) = TOKEN_LEFT_PAREN → (t = false → 1 <= n)%nat → enough 1 m → deep 8 d m →
  ends false true (infix_loop parsePrecedence typeExpression fuel n prec canAssign [] None) d s m any (λ _, False).
Proof.
  intros H Hp Hu Hs Hn He Hd. destruct n as [|n].
  { apply wp_timeout. destruct (mode_cases t) as [?|Ht]; [done|]. specialize (Hn Ht). lia. }
  cbn [infix_loop]. apply ends_current_type. destruct (prec <=? _)%nat eqn:E.
  - destruct (rule_infix _ _ (proj1 Hp) E) as ((f & Ef) & Hne & Hpos).
    pose proof (λ Ht, holds_more _ _ _ _ _ _ _ _ _ _ H Ht Hne) as Hm.
    passing as s1 m1 H1 M1 E1 P1. apply ends_previous_type. rewrite E1, Ef.
    next infix_ends as node s2 m2 H2 M2 _; [done|by rewrite E1|by rewrite E1|need|need|]. by apply wp_undefined.
  - eapply ends_ret; [done|done|]. intros He'. destruct Hs as [?|Hs]; [done|]. rewrite Hs in E. apply Nat.leb_gt in E. simpl in E. lia.
Qed.
(** The operand, and what goes on with it. *)
Lemma chain_ends expr prec canAssign s m d : holds s m d → made u expr s → (1 <= prec <= PREC_CALL)%nat → enough 1 m → deep 8 d m →
  ends false true (infix_loop parsePrecedence typeExpression fuel fuel prec canAssign (tree expr) (start_cursor expr)) d s m any
    (λ c, fine expr → wf_expr c = true ∧ expr ≠ None).
Proof.
  intros H Hm Hp He Hd. destruct expr as [[p [|e next]]|]; [done| |].
  - last infix_loop_ends; [done|lia|intros Ht; left_facts Ht; lia|done|done|].
    intros c Hc Hf. simpl in Hf. split; [|done]. apply Hc; [done|]. by eapply wf_first.
  - destruct Hm as [Hu Hs]. by last null_loop_ends; [..|intros Ht; left_facts Ht; lia| |].
Qed.
Lemma parse_precedence_ends prec s m d : (1 <= prec <= PREC_CALL)%nat → holds s m d → ParserExprs.enough t (S fuel) 1 m → deep 4 d m →
  ends true true (parse_precedence parsePrecedence typeExpression fuel prec) d s m any good_expr.
Proof.
  intros Hp H He Hd. unfold parse_precedence. passing as s1 m1 H1 M1 E1 P1. apply ends_previous_type.
  destruct (prefix (rules (type (previous s1)))) as [f|] eqn:Ef.
  2:{ next error_ends as ? s2 m2 H2 M2 _; [done|]. by eapply ends_ret. }
  assert (t = false → 1 <= m)%nat as Hm.
  { intros Ht. apply (holds_more _ _ _ _ _ _ _ _ _ _ H Ht). rewrite <-E1. by destruct (type (previous s1)). }
  next prefix_ends as expr s2 m2 H2 M2 Hx; [done|done|done|need|need|].
  next set_prevExpr_ends as ? s3 m3 H3 M3 ->; [done|].
  next pushNode_ends as ? s4 m4 H4 M4 [v ->]; [done|need|].
  next chain_ends as chain s5 m5 H5 M5 _; [done|done|done|need|need|].
  next maybe_match_ends as b s6 m6 H6 M6 _; [done|]. next error_if_ends as ? s7 m7 H7 M7 _; [done|].
  next popWorkingNode_ends as ? s8 m8 H8 M8 _; [done|]. next set_prevExpr_ends as ? s9 m9 H9 M9 _; [done|].
  eapply ends_ret; [done|done|]. intros _ _ _ _ _ Hc _ _ Hf. specialize (Hc Hf) as [Hc Hn]. by destruct expr as [[]|].
Qed.

Lemma type_expression_ends s m d : holds s m d → ParserExprs.enough t (S fuel) 1 m → deep 4 d m →
  ends (is_type_token (type (current_token s))) true (type_expression parsePrecedence typeExpression fuel) d s m any
    (λ n, if is_type_token (type (current_token s)) then good_expr n else n = None).
Proof.
  intros H He Hd. unfold type_expression. apply ends_type_is. destruct (is_type_token _) eqn:E; [|by eapply ends_ret].
  assert (t = false → 1 <= m)%nat as Hm.
  { intros Ht. apply (holds_more _ _ _ _ _ _ _ _ _ _ H Ht). intros E'. by rewrite E' in E. }
  passing as s1 m1 H1 M1 E1 P1. next type_node_ends as n s2 m2 H2 M2 Hn; [done|done|by rewrite E1|].
  assert (∃ p e, n = Some (p, [e])) as (p & e & ->) by exact Hn.
  last type_index_ends; [done|done|need|need].
Qed.
(** One more unit of fuel. *)
Lemma recursive_next : Recursive u t base room R0 ctx src (parse_precedence parsePrecedence typeExpression fuel)
  (type_expression parsePrecedence typeExpression fuel) (S fuel).
Proof. split; [apply parse_precedence_ends|]. intros s m d H He Hd. by last type_expression_ends. Qed.
End Prec.
