(* ===== verification/ParserStmts.v ===== *)
(** * What the functions for statements and declarations make

    Under the invariant every function for statements keeps it, takes a token,
    and makes a statement that the compiler can compile.  Skipping to a
    statement after an error uses the error's account: tokens and errors
    together do not grow, so that the errors are no more than the tokens. *)
From Stdlib Require Import String Ascii.
From S2P Require Import ScannerSpec AstWf CompilerFrame ErrorSpec.
From S2P Require Export ParserRules.
Open Scope Z_scope.

Class Statements `{HO : Host} (u t : bool) base room R0 ctx src (statement declaration : PA ObjStmt) (fuel : nat) : Prop := {
  stmt_ends s m d : holds u t base room R0 ctx src s m d → enough t fuel 2 m → deep u room 8 d m →
    ends u t base room R0 ctx src true true statement d s m any (λ x, plain x && wf_stmt x = true);
  decl_ends s m d : holds u t base room R0 ctx src s m d → type (current_token s) ≠ TOKEN_EOF → enough t fuel 3 m → deep u room 8 d m →
    ends u t base room R0 ctx src true false declaration d s m any (λ x, no_field x && wf_stmt x = true)
}.
Ltac settle ::= try match goal with
  | |- Setting _ _ _ _ _ => eassumption
  | |- Recursive _ _ _ _ _ _ _ _ _ _ => eassumption
  | |- Statements _ _ _ _ _ _ _ _ _ _ => eassumption
  end.

Lemma plain_no_field s : plain s && wf_stmt s = true → no_field s && wf_stmt s = true.
Proof. destruct s as [? []]; done. Qed.

Section Stmts.
Context `{U : Uninit} `{TG : Target} `{HO : Host} `{FM : FreshMemory}.
Context (u t : bool) (base : cells) (room : nat) (R0 : ObjRoutine).
Context {ST : Setting u t base room R0}.
Variable ctx : objptr.
Variable src : list Z.
Abbreviation holds := (holds u t base room R0 ctx src).
Abbreviation ends := (ends u t base room R0 ctx src).
Abbreviation moves := (moves t ctx).
Abbreviation passed := (passed u t src).
Variable parsePrecedence : Precedence → PA (option Node).
Variable typeExpression : PA (option Node).
Variable statement declaration : PA ObjStmt.
Variable fuel : nat.
Context {RC : Recursive u t base room R0 ctx src parsePrecedence typeExpression fuel}.
Context {SC : Statements u t base room R0 ctx src statement declaration fuel}.
Abbreviation enough := (enough t fuel).
Abbreviation deep := (deep u room).

(** ** Statements of an expression *)
Lemma expression_or_not_ends (kind : Expr → Stmt) (expect : bool) msg s m d : holds s m d → enough 1 m → deep 6 d m →
  (∀ line e, wf_expr e = true → plain (mkStmt line (kind e)) && wf_stmt (mkStmt line (kind e)) = true) →
  (expect = false → ∀ line, plain (mkStmt line (kind [])) && wf_stmt (mkStmt line (kind [])) = true) →
  ends true true (expressionStatement parsePrecedence kind expect msg) d s m any (λ x, plain x && wf_stmt x = true).
Proof.
  intros H He Hd Hk Hn. unfold expressionStatement. apply ends_line; [by left|]. intros line.
  next pushNewStmt_ends as ? s1 m1 H1 M1 _; [done|need|]. matched as s2 m2 H2 M2 Hm.
  - eapply (ends_bind _ _ _ _ _ _ _ _ _ false true _ _ (S d) d s2 m2 any (λ e, e = [] ∧ expect = false)); [|done|].
    { next error_if_ends as ? s3 m3 H3 M3 _; [done|]. by eapply ends_ret. }
    intros e s3 m3 H3 M3 _. next popWorkingNode_ends as ? s4 m4 H4 M4 _; [done|]. eapply ends_ret; [done|done|].
    intros _ _ [-> He'] _. by apply Hn.
  - eapply (ends_bind _ _ _ _ _ _ _ _ _ true true _ _ (S d) d s1 m1 any (λ e, wf_expr e = true)); [|done|].
    { next expression_ends as e s3 m3 H3 M3 _; [done|need|need|]. next consume_ends as ? s4 m4 H4 M4 _; [done|]. by eapply ends_ret. }
    intros e s3 m3 H3 M3 _. next popWorkingNode_ends as ? s4 m4 H4 M4 _; [done|]. eapply ends_ret; [done|done|]. auto.
Qed.
Lemma poke_value_ends (b : bool) value s m d : holds s m d → enough 1 m → deep 4 d m →
  ends false true (if b then consume TOKEN_COMMA "Expect ',' after offset." ;; e ← expression parsePrecedence; mret (tree value, tree e)
    else mret ([], tree value)) d s m any (λ r, good_expr value → good_opt r.1 ∧ wf_expr r.2 = true).
Proof.
  intros H He Hd. destruct b; [|by eapply ends_ret]. next consume_ends as ? s1 m1 H1 M1 _; [done|].
  next expression_ends as e s2 m2 H2 M2 _; [done|need|need|]. eapply ends_ret; [done|done|].
  intros _ Hx _ Hv. split; [by apply opt_expr|done].
Qed.
Lemma pokeStatement_ends s m d : holds s m d → enough 1 m → deep 6 d m →
  ends false false (pokeStatement parsePrecedence) d s m any (λ x, plain x && wf_stmt x = true).
Proof.
  intros H He Hd. unfold pokeStatement. apply ends_line; [by left|]. intros line.
  next pushNewStmt_ends as ? s1 m1 H1 M1 _; [done|need|]. next expression_ends as location s2 m2 H2 M2 _; [done|need|need|].
  next consume_ends as ? s3 m3 H3 M3 _; [done|]. next expression_ends as value s4 m4 H4 M4 _; [done|need|need|].
  apply ends_check_is. next poke_value_ends as [offset asg] s5 m5 H5 M5 _; [done|need|need|].
  next consume_ends as ? s6 m6 H6 M6 _; [done|]. next popWorkingNode_ends as ? s7 m7 H7 M7 _; [done|].
  eapply ends_ret; [done|done|]. intros _ _ _ Hr Hv _ Hl _. destruct (Hr Hv) as [Ho Ha].
  change (wf_expr (tree location) && AstWf.opt_of wf_elt offset && wf_expr asg = true). unfold good_expr in Hl. simpl in Ho, Ha. by rewrite Hl, Ho, Ha.
Qed.

(** ** Variables *)
Definition depth (n : option Node) (d : nat) : nat := match n with Some _ => S d | None => d end.
Lemma depth_le n d : (d <= depth n d <= S d)%nat.
Proof. destruct n; simpl; lia. Qed.
Lemma maybe_push_ends (n : option Node) s m d : holds s m d → (u = false → d < room)%nat →
  ends false true (match n with Some _ => pushNode n | None => mret () end) (depth n d) s m any (λ _, True).
Proof. intros H Hd. destruct n; [by last pushNode_ends|by eapply ends_ret]. Qed.
Lemma maybe_pop_ends (n : option Node) s m d : holds s m (S (depth n d)) →
  ends false true (match n with Some _ => popWorkingNode | None => mret () end) (S d) s m any (λ _, True).
Proof. intros H. destruct n; [by last popWorkingNode_ends|by eapply ends_ret]. Qed.
Lemma initialiser_ends (b : bool) s m d : holds s m d → enough 1 m → deep 4 d m →
  ends false true (if b then e ← expression parsePrecedence; mret (tree e) else mret []) d s m any good_opt.
Proof.
  intros H He Hd. destruct b; [|by eapply ends_ret]. last tree_ends; [done|need|need|]. intros e. apply opt_expr.
Qed.
Lemma varDeclaration_ends s m d : holds s m d → enough 1 m → deep 6 d m →
  ends (is_type_token (type (current_token s))) true (varDeclaration parsePrecedence typeExpression fuel) d s m any
    (λ x, no_field x && wf_stmt x = true).
Proof.
  intros H He Hd. unfold varDeclaration. next type_expression_ends as ty s1 m1 H1 M1 _; [done|need|need|].
  replace (_ && negb _) with false by (by destruct (is_type_token _)). replace (true && negb _) with (negb (is_type_token (type (current_token s)))) by done.
  eapply (ends_weak _ _ _ _ _ _ _ false true); [|done|done].
  pose proof (depth_le ty d). next maybe_push_ends as ? s2 m2 H2 M2 _; [done|need|]. next consume_ends as ? s3 m3 H3 M3 _; [done|].
  apply ends_line; [by right|]. intros line. apply ends_previous_text. next declared_ends as name s4 m4 H4 M4 _; [done|need|].
  next match_ends as b s5 m5 H5 M5 _; [done|]. next initialiser_ends as init s6 m6 H6 M6 _; [done|need|need|].
  next consume_ends as ? s7 m7 H7 M7 _; [done|]. next maybe_pop_ends as ? s8 m8 H8 M8 _; [done|].
  next popWorkingNode_ends as ? s9 m9 H9 M9 _; [done|]. eapply ends_ret; [done|done|].
  intros _ _ _ _ Hi _ _ _ _ Ht. simpl. change (AstWf.opt_of wf_elt (tree ty) && AstWf.opt_of wf_elt init = true). rewrite Hi, andb_true_r.
  destruct (is_type_token _); [by apply opt_expr|by subst].
Qed.

(** ** Blocks *)
Lemma braces_loop_ends {A} (item : PA A) (P : A → Prop) d n : ∀ s m items,
  (∀ s m', (t = false → m' <= m)%nat → holds s m' d → type (current_token s) ≠ TOKEN_EOF → ends true false item d s m' any P) →
  holds s m d → (t = false → m + 1 <= n)%nat →
  ends false false (braces_loop n item items) d s m any (λ l, Forall P items → Forall P l).
Proof.
  induction n as [|n IH]; intros s m items Hitem H Hn.
  { apply wp_timeout. destruct (mode_cases t) as [?|Ht]; [done|]. specialize (Hn Ht). lia. }
  cbn [braces_loop]. apply ends_current_type. case_bool_decide as E1; [by eapply ends_ret|].
  case_bool_decide as E2; [by eapply ends_ret|]. simpl.
  pose proof (λ Ht, holds_more _ _ _ _ _ _ _ _ _ _ H Ht E2) as Hm.
  next Hitem as x s1 m1 H1 M1 _; [done|done|done|]. last IH; [|done| |].
  - intros s' m' Hm' H'. apply Hitem; [|done]. intros Ht. specialize (Hm' Ht). left_facts Ht. lia.
  - intros Ht. specialize (Hn Ht). left_facts Ht. lia.
  - intros l Hl Hx Hi. apply Hl, Forall_app_2; [done|by constructor].
Qed.
Lemma block_ends s m d : holds s m d → ParserExprs.enough t fuel 3 m → deep 8 d m →
  ends false false (block fuel declaration) d s m any (λ ss, body_of wf_stmt ss = true).
Proof.
  intros H He Hd. unfold block. next braces_loop_ends as ss s1 m1 H1 M1 _; [|done| |].
  - intros s' m' Hm H' E. last decl_ends; [done|done|need|need].
  - intros Ht. left_facts Ht. lia.
  - next consume_ends as ? s2 m2 H2 M2 _; [done|]. eapply ends_ret; [done|done|]. intros _ _ Hs.
    apply forallb_forall, List.Forall_forall, Hs. constructor.
Qed.
Lemma blockStatement_ends s m d : holds s m d → enough 3 m → deep 10 d m →
  ends false false (blockStatement fuel declaration) d s m any (λ x, plain x && wf_stmt x = true).
Proof.
  intros H He Hd. unfold blockStatement. apply ends_line; [by right|]. intros line.
  next pushNewStmt_ends as ? s1 m1 H1 M1 _; [done|need|]. next block_ends as ss s2 m2 H2 M2 _; [done|need|need|].
  next popWorkingNode_ends as ? s3 m3 H3 M3 _; [done|]. by eapply ends_ret; [| |intros _ _ Hs].
Qed.
Lemma else_ends (b : bool) s m d : holds s m d → enough 2 m → deep 8 d m →
  ends false true (if b then s ← statement; mret [s] else mret []) d s m any (λ ss, plain_of wf_stmt ss = true).
Proof.
  intros H He Hd. destruct b; [|by eapply ends_ret]. next stmt_ends as x s1 m1 H1 M1 _; [done|need|need|].
  eapply ends_ret; [done|done|]. intros _ Hx. simpl. by rewrite Hx.
Qed.
Lemma ifStatement_ends s m d : holds s m d → enough 3 m → deep 10 d m →
  ends false true (ifStatement parsePrecedence statement) d s m any (λ x, plain x && wf_stmt x = true).
Proof.
  intros H He Hd. unfold ifStatement. apply ends_line; [by right|]. intros line.
  next pushNewStmt_ends as ? s1 m1 H1 M1 _; [done|need|]. next consume_ends as ? s2 m2 H2 M2 _; [done|].
  next expression_ends as test s3 m3 H3 M3 _; [done|need|need|]. next consume_ends as ? s4 m4 H4 M4 _; [done|].
  next stmt_ends as x s5 m5 H5 M5 _; [done|need|need|]. next match_ends as b s6 m6 H6 M6 _; [done|].
  next else_ends as y s7 m7 H7 M7 _; [done|need|need|]. next popWorkingNode_ends as ? s8 m8 H8 M8 _; [done|].
  eapply ends_ret; [done|done|]. intros _ _ Hy _ Hx _ Ht _ _. unfold good_expr in Ht.
  change (wf_expr (tree test) && plain_of wf_stmt [x] && plain_of wf_stmt y = true). rewrite Ht, Hy. simpl. by rewrite Hx.
Qed.
Lemma whileStatement_ends s m d : holds s m d → enough 3 m → deep 10 d m →
  ends false true (whileStatement parsePrecedence statement) d s m any (λ x, plain x && wf_stmt x = true).
Proof.
  intros H He Hd. unfold whileStatement. apply ends_line; [by right|]. intros line.
  next pushNewStmt_ends as ? s1 m1 H1 M1 _; [done|need|]. next consume_ends as ? s2 m2 H2 M2 _; [done|].
  next expression_ends as test s3 m3 H3 M3 _; [done|need|need|]. next consume_ends as ? s4 m4 H4 M4 _; [done|].
  next stmt_ends as x s5 m5 H5 M5 _; [done|need|need|]. next popWorkingNode_ends as ? s6 m6 H6 M6 _; [done|].
  eapply ends_ret; [done|done|]. intros _ _ Hx _ Ht _ _. unfold good_expr in Ht.
  change (wf_expr (tree test) && plain_of wf_stmt [x] = true). rewrite Ht. simpl. by rewrite Hx.
Qed.

(** ** Loops *)
Lemma for_clause_ends end_ message s m d : holds s m d → enough 1 m → deep 4 d m →
  ends false true (for_clause parsePrecedence end_ message) d s m any good_opt.
Proof.
  intros H He Hd. unfold for_clause. matched as s1 m1 H1 M1 Hm; [by eapply ends_ret|].
  next expression_ends as e s1 m1 H1 M1 _; [done..|]. next consume_ends as ? s2 m2 H2 M2 _; [done|].
  eapply ends_ret; [done|done|]. intros. by apply opt_expr.
Qed.
Lemma var_or_expression_ends (b : bool) s m d : holds s m d → enough 1 m → deep 6 d m →
  ends false true (if b then varDeclaration parsePrecedence typeExpression fuel
                   else expressionStatement parsePrecedence OBJ_STMT_EXPRESSION true "Expect ';' after expression.") d s m any
    (λ x, no_field x && wf_stmt x = true).
Proof.
  intros H He Hd. destruct b; [by last varDeclaration_ends|].
  last expression_or_not_ends; [done|done|done| | |].
  - intros line e W. exact W.
  - done.
  - intros x. apply plain_no_field.
Qed.
Lemma for_initializer_ends s m d : holds s m d → enough 1 m → deep 6 d m →
  ends false true (for_initializer parsePrecedence typeExpression fuel) d s m any (λ ss, body_of wf_stmt ss = true).
Proof.
  intros H He Hd. unfold for_initializer. matched as s1 m1 H1 M1 Hm; [by eapply ends_ret|].
  next match_ends as b s1 m1 H1 M1 _; [done|]. next var_or_expression_ends as x s2 m2 H2 M2 _; [done|need|need|].
  eapply ends_ret; [done|done|]. intros _ Hx _. simpl. by rewrite Hx.
Qed.
Lemma forStatement_ends s m d : holds s m d → enough 3 m → deep 10 d m →
  ends false true (forStatement parsePrecedence typeExpression fuel statement) d s m any (λ x, plain x && wf_stmt x = true).
Proof.
  intros H He Hd. unfold forStatement. apply ends_line; [by right|]. intros line.
  next pushNewStmt_ends as ? s1 m1 H1 M1 _; [done|need|]. next consume_ends as ? s2 m2 H2 M2 _; [done|].
  next for_initializer_ends as init s3 m3 H3 M3 _; [done|need|need|]. next for_clause_ends as c s4 m4 H4 M4 _; [done|need|need|].
  next for_clause_ends as l s5 m5 H5 M5 _; [done|need|need|]. next stmt_ends as x s6 m6 H6 M6 _; [done|need|need|].
  next popWorkingNode_ends as ? s7 m7 H7 M7 _; [done|]. eapply ends_ret; [done|done|]. intros _ _ Hx Hl Hc Hi _ _.
  change (body_of wf_stmt init && AstWf.opt_of wf_elt c && AstWf.opt_of wf_elt l && plain_of wf_stmt [x] = true).
  rewrite Hi, Hc, Hl. simpl. by rewrite Hx.
Qed.

(** ** The first of the words *)
Lemma match_first_ends {A} (P : A → Prop) (cases : list (TokenType * PA A)) (otherwise : PA A) q s m d : holds s m d →
  Forall (λ c, ∀ s1 m1, holds s1 m1 d → moves true true s m s1 m1 → (t = false → c.1 ≠ TOKEN_EOF → 1 <= m)%nat →
    ends false false c.2 d s1 m1 any P) cases →
  ends true q otherwise d s m any P → ends true q (match_first cases otherwise) d s m any P.
Proof.
  intros H HF Ho. induction HF as [|[ty c] cases Hc HF IH]; [done|]. cbn [match_first]. matched as s1 m1 H1 M1 Hm; [|done].
  by apply Hc.
Qed.
Lemma parse_statement_ends s m d : holds s m d → enough 1 m → deep 8 d m →
  ends true true (parse_statement parsePrecedence typeExpression fuel statement declaration) d s m any (λ x, plain x && wf_stmt x = true).
Proof.
  intros H He Hd. unfold parse_statement. apply match_first_ends; [done| |].
  - repeat (apply List.Forall_cons; [cbn [fst snd]; intros s1 m1 H1 M1 Hm|]); [..|apply List.Forall_nil].
    + last expression_or_not_ends; [done|need|need|done|done].
    + last pokeStatement_ends; [done|need|need].
    + last expression_or_not_ends; [done|need|need|done|done].
    + last forStatement_ends; [done|need|need].
    + last ifStatement_ends; [done|need|need].
    + last expression_or_not_ends; [done|need|need| |done]. intros ? e. apply opt_expr.
    + last expression_or_not_ends; [done|need|need| |done]. intros ? e. apply opt_expr.
    + last whileStatement_ends; [done|need|need].
    + last blockStatement_ends; [done|need|need].
  - apply expression_or_not_ends; [done|need|need|done|done].
Qed.

(** ** Functions and classes *)
Lemma parameters_ends s m d : holds s m d → enough 1 m → deep 4 d m →
  ends true true (comma_loop fuel (e ← expression parsePrecedence; mret (tree e)) "Can't have more than 255 parameters." []) d s m any (λ _, True).
Proof.
  intros H He Hd. eapply ends_mono; [eapply (comma_loop_ends _ _ _ _ _ _ _ true _ _ (λ _, True)); [|done|]|done|done].
  - intros s' m' Hm H'. last tree_ends; [done|need|need].
  - intros Ht. left_facts Ht. lia.
Qed.
(** The parameters with the parenthesis: one of them takes a token. *)
Lemma parameter_list_ends {B} (f : list Expr → PA B) d' (P : B → Prop) s m d : holds s m d → enough 1 m → deep 4 d m →
  (∀ l s1 m1, holds s1 m1 d → moves true true s m s1 m1 → ends false false (f l) d' s1 m1 any P) →
  ends true false (parameters ← parameters_ parsePrecedence fuel;
    consume TOKEN_RIGHT_PAREN "Expect ')' after parameters." ;; f parameters) d' s m any P.
Proof.
  intros H He Hd Hf. unfold parameters_.
  eapply (ends_bind _ _ _ _ _ _ _ _ _ (bool_decide (type (current_token s) ≠ TOKEN_RIGHT_PAREN)) true _ _ d d' s m
    (λ _ s1, type (current_token s) = TOKEN_RIGHT_PAREN → s1 = s) (λ _, True)); [|done|].
  - apply ends_check; intros E.
    + rewrite bool_decide_false by auto. by eapply ends_ret.
    + rewrite bool_decide_true by done. by last parameters_ends.
  - intros l s1 m1 H1 M1 E1. case_bool_decide as E; simpl.
    + next consume_ends as ? s2 m2 H2 M2 _; [done|]. eapply ends_mono; [eapply Hf; [done|]|done|auto].
      eapply moves_trans; [exact M1|done|]. eapply moves_weak; [exact M2|done|done].
    + specialize (E1 E). subst s1.
      eapply ends_bind; [by apply consume_hit|done|]. intros ? s2 m2 H2 M2 _.
      eapply ends_mono; [eapply Hf; [done|]|done|auto]. by eapply moves_trans; [exact M1| |exact M2].
Qed.
Lemma funDeclaration_ends msg s m d : holds s m d → ParserExprs.enough t fuel 3 m → deep 10 d m →
  ends true false (funDeclaration parsePrecedence fuel declaration msg) d s m any (λ r, fun_of wf_stmt r.2 = true).
Proof.
  intros H He Hd. unfold funDeclaration. next consume_ends as ? s1 m1 H1 M1 _; [done|].
  apply ends_line; [by right|]. intros line. apply ends_previous_text. next declared_ends as name s2 m2 H2 M2 _; [done|need|].
  next consume_ends as ? s3 m3 H3 M3 _; [done|]. eapply parameter_list_ends; settle; [done|need|need|]. intros ps s4 m4 H4 M4.
  next consume_ends as ? s5 m5 H5 M5 _; [done|]. next block_ends as body s6 m6 H6 M6 _; [done|need|need|].
  next popWorkingNode_ends as ? s7 m7 H7 M7 _; [done|]. eapply ends_ret; [done|done|]. by intros _ _ Hb.
Qed.
Lemma superclass_ends cs s m d : holds s m d → enough 1 m → deep 8 d m →
  ends false true (superclass_ parsePrecedence cs) d s m any (λ _, True).
Proof.
  intros H He Hd. unfold superclass_. matched as s1 m1 H1 M1 Hm; [|by eapply ends_ret].
  next consume_ends as ? s2 m2 H2 M2 _; [done|]. next variable_ends as n s3 m3 H3 M3 _; [done|need|need|].
  apply ends_previous_text. next error_if_ends as ? s4 m4 H4 M4 _; [done|]. by eapply ends_ret.
Qed.
Lemma classDeclaration_ends s m d : holds s m d → ParserExprs.enough t fuel 3 m → deep 12 d m →
  ends false false (classDeclaration parsePrecedence fuel declaration) d s m any (λ x, no_field x && wf_stmt x = true).
Proof.
  intros H He Hd. unfold classDeclaration. next consume_ends as ? s1 m1 H1 M1 _; [done|].
  apply ends_line; [by right|]. intros line. apply ends_previous_text. next declared_ends as name s2 m2 H2 M2 _; [done|need|].
  next superclass_ends as super s3 m3 H3 M3 _; [done|need|need|]. next consume_ends as ? s4 m4 H4 M4 _; [done|].
  next braces_loop_ends as ms s5 m5 H5 M5 _; [|done| |].
  - intros s' m' Hm H' E. last funDeclaration_ends; [done|need|need].
  - intros Ht. left_facts Ht. lia.
  - next consume_ends as ? s6 m6 H6 M6 _; [done|]. next popWorkingNode_ends as ? s7 m7 H7 M7 _; [done|].
    eapply ends_ret; [done|done|]. intros _ _ _ Hms _ _ _ _. specialize (Hms (List.Forall_nil _)). simpl.
    apply forallb_forall. intros f Hf. apply in_map_iff in Hf as (r & <- & Hr). rewrite List.Forall_forall in Hms. by apply Hms.
Qed.
Lemma fun_statement_ends s m d : holds s m d → ParserExprs.enough t fuel 3 m → deep 10 d m →
  ends false false ('(line, decl) ← funDeclaration parsePrecedence fuel declaration "Expect function name.";
    mret (mkStmt line (OBJ_STMT_FUNDECLARATION decl))) d s m any (λ x, no_field x && wf_stmt x = true).
Proof.
  intros H He Hd. next funDeclaration_ends as [line f] s1 m1 H1 M1 _; [done..|]. by eapply ends_ret; [| |intros _ Hf].
Qed.

(** ** Places *)
Lemma placeAliasDeclaration_ends s m d : holds s m d → enough 1 m → deep 6 d m →
  ends true true (placeAliasDeclaration parsePrecedence) d s m any (λ a, wf_expr a.2 = true).
Proof.
  intros H He Hd. unfold placeAliasDeclaration. next expression_ends as e s1 m1 H1 M1 _; [done|need|need|].
  next pushNode_ends as ? s2 m2 H2 M2 _; [done|need|]. next consume_ends as ? s3 m3 H3 M3 _; [done|]. apply ends_previous_text.
  next new_named_ends as [p k] s4 m4 H4 M4 _; [done|need|]. next popWorkingNode_ends as ? s5 m5 H5 M5 _; [done|].
  next consume_ends as ? s6 m6 H6 M6 _; [done|]. eapply ends_ret; [done|done|]. by intros _ _ _ _ _ _ He'.
Qed.
Lemma place_aliases_ends s m d : holds s m d → enough 1 m → deep 6 d m →
  ends false false (place_aliases parsePrecedence fuel) d s m any (Forall (λ a, wf_expr a.2 = true)).
Proof.
  intros H He Hd. unfold place_aliases. matched as s1 m1 H1 M1 Hm.
  - next braces_loop_ends as l s2 m2 H2 M2 _; [|done| |].
    + intros s' m' Hm' H' E. last placeAliasDeclaration_ends; [done|need|need].
    + intros Ht. left_facts Ht. lia.
    + next consume_ends as ? s3 m3 H3 M3 _; [done|]. eapply ends_ret; [done|done|]. intros _ _ Hl. apply Hl. constructor.
  - next placeAliasDeclaration_ends as a s1 m1 H1 M1 _; [done..|]. eapply ends_ret; [done|done|]. intros _ Ha. by constructor.
Qed.
Lemma placeDeclaration_ends s m d : holds s m d → enough 1 m → deep 8 d m →
  ends false false (placeDeclaration parsePrecedence fuel) d s m any (λ x, no_field x && wf_stmt x = true).
Proof.
  intros H He Hd. unfold placeDeclaration. apply ends_line; [by right|]. intros line.
  next pushNewStmt_ends as ? s1 m1 H1 M1 _; [done|need|]. next expression_ends as ty s2 m2 H2 M2 _; [done|need|need|].
  next place_aliases_ends as l s3 m3 H3 M3 _; [done|need|need|]. next popWorkingNode_ends as ? s4 m4 H4 M4 _; [done|].
  eapply ends_ret; [done|done|]. intros _ _ Hl Hty _. unfold good_expr in Hty.
  change (wf_expr (tree ty) && forallb (λ a, wf_expr a.2) l = true). rewrite Hty. by apply forallb_forall, List.Forall_forall.
Qed.
End Stmts.
