(* ===== verification/ParserProgram.v ===== *)
(** * Declarations, and the whole program

    A declaration skips to a statement after an error; a program is a list of
    declarations.  The functions that call each other, with a measure of fuel,
    all keep the invariant. *)
From Stdlib Require Import String Ascii.
From S2P Require Import ScannerSpec AstWf CompilerFrame ErrorSpec.
From S2P Require Export ParserStmts.
Open Scope Z_scope.

Section Declarations.
Context `{U : Uninit} `{TG : Target} `{HO : Host} `{FM : FreshMemory}.
Context (u t : bool) (base : cells) (room : nat) (R0 : ObjRoutine).
Context {ST : Setting u t base room R0}.
Variable ctx : objptr.
Variable src : list Z.
Abbreviation holds := (holds u t base room R0 ctx src).
Abbreviation ends := (ends u t base room R0 ctx src).
Abbreviation moves := (moves t ctx).
Abbreviation wp := (wp (u = true) (t = true)).
Variable parsePrecedence : Precedence → PA (option Node).
Variable typeExpression : PA (option Node).
Variable statement declaration : PA ObjStmt.
Variable fuel : nat.
Context {RC : Recursive u t base room R0 ctx src parsePrecedence typeExpression fuel}.
Context {SC : Statements u t base room R0 ctx src statement declaration fuel}.
Abbreviation enough := (enough t fuel).
Abbreviation deep := (deep u room).

(** ** Skipping to a statement *)
Lemma synchronize_loop_ends n : ∀ s m d, holds s m d → (t = false → m + 1 <= n)%nat →
  ends false true (synchronize_loop n) d s m any (λ _, True).
Proof.
  induction n as [|n IH]; intros s m d H Hn.
  { apply wp_timeout. destruct (mode_cases t) as [?|Ht]; [done|]. specialize (Hn Ht). lia. }
  cbn [synchronize_loop]. apply ends_current_type. case_bool_decide as E; [by eapply ends_ret|].
  pose proof (λ Ht, holds_more _ _ _ _ _ _ _ _ _ _ H Ht E) as Hm.
  apply ends_previous_type. destruct (_ || _); [by eapply ends_ret|]. passing as s1 m1 H1 M1 E1 P1.
  last IH; [done|]. intros Ht. specialize (Hn Ht). left_facts Ht. lia.
Qed.
(** An error more may be reported afterwards. *)
Lemma synchronize_wp s m d : holds s m d → wp synchronize s (λ _ s', ∃ m', holds s' m' d ∧ same_fns ctx (pvm s) (pvm s') ∧
  (∃ l, perrors s' = perrors s ++ l) ∧ (t = false → (m' <= m)%nat) ∧ (t = false → (count s' + m' <= S (count s) + m)%nat)).
Proof.
  intros H. unfold synchronize. apply wp_bind, wp_modify, wp_bind, wp_get. set (s1 := set_panicking false s).
  assert (holds s1 m d) as H1.
  { destruct H as [HS HV]. split; [by split; [apply HS|apply HS| |apply HS]|]. intros Ht. destruct (HV Ht) as (ts & [] & ?). by exists ts. }
  eapply wp_mono; [apply (synchronize_loop_ends _ s1 m d H1)|]; cbv beta.
  - intros Ht. destruct (h_view H1 Ht) as (ts & Hv & <- & _). pose proof (view_length _ _ _ Hv) as Hl. rewrite (v_source _ _ _ Hv).
    lia.
  - intros _ s' (m' & H' & M & _). exists m'. split; [done|]. split; [exact (m_fns M)|]. split; [exact (m_errors M)|].
    split; [intros Ht; pose proof (m_left M Ht); b2n|]. intros Ht. pose proof (m_count M Ht) as Hc. cbn [andb] in Hc.
    assert (count s1 <= S (count s))%nat by (unfold count; simpl; destruct (panic s); lia). lia.
Qed.

Lemma any_declaration_ends s m d : holds s m d → ParserExprs.enough t (S fuel) 3 m → deep 8 d m →
  ends true true (match_first [
      (TOKEN_CLASS, classDeclaration parsePrecedence fuel declaration);
      (TOKEN_FUN, '(line, decl) ← funDeclaration parsePrecedence fuel declaration "Expect function name."; mret (mkStmt line (OBJ_STMT_FUNDECLARATION decl)));
      (TOKEN_VAR, varDeclaration parsePrecedence typeExpression fuel)]
    (c ← checkTypeToken;
     if (c : bool) then varDeclaration parsePrecedence typeExpression fuel
     else match_first [(TOKEN_PLACE, placeDeclaration parsePrecedence fuel)] (parse_statement parsePrecedence typeExpression fuel statement declaration)))
    d s m any (λ x, no_field x && wf_stmt x = true).
Proof.
  intros H He Hd. apply match_first_ends; settle; [done| |].
  - repeat (apply List.Forall_cons; [cbn [fst snd]; intros s1 m1 H1 M1 Hm|]); [..|apply List.Forall_nil].
    + last classDeclaration_ends; [done|need|need].
    + last fun_statement_ends; [done|need|need].
    + last varDeclaration_ends; [done|need|need].
  - apply ends_type_is. destruct (is_type_token (type (current_token s))) eqn:E.
    + last varDeclaration_ends; [done|need|need].
    + apply match_first_ends; settle; [done| |].
      * apply List.Forall_cons; [cbn [fst snd]; intros s1 m1 H1 M1 Hm|apply List.Forall_nil]. last placeDeclaration_ends; [done|need|need].
      * last parse_statement_ends; [done|need|need|]. intros x. apply plain_no_field.
Qed.
Lemma parse_declaration_ends s m d : holds s m d → type (current_token s) ≠ TOKEN_EOF → ParserExprs.enough t (S fuel) 3 m → deep 8 d m →
  ends true false (parse_declaration parsePrecedence typeExpression fuel statement declaration) d s m any (λ x, no_field x && wf_stmt x = true).
Proof.
  intros H Hne He Hd. unfold parse_declaration. apply wp_bind. eapply wp_mono; [by apply any_declaration_ends|]. cbv beta.
  intros x s1 (m1 & H1 & M1 & _ & R1). apply wp_bind, wp_get. destruct (panic s1).
  - apply wp_bind. eapply wp_mono; [by apply synchronize_wp|]. cbv beta. intros _ s2 (m2 & H2 & Hf & [l Hl] & Hm2 & Hc2).
    apply wp_ret. exists m2. split; [done|]. split; [|split; [done|]].
    + destruct M1 as [A1 [l' A2] A3 A4]. split.
      * split; [apply Hf|]. intros p. by rewrite (same_fn _ _ _ Hf), (same_fn _ _ _ A1).
      * exists (l' ++ l). by rewrite Hl, A2, app_assoc.
      * intros Ht. specialize (A3 Ht). specialize (Hm2 Ht). b2n.
      * intros Ht. specialize (A3 Ht). specialize (A4 Ht). specialize (Hc2 Ht).
        pose proof (holds_more _ _ _ _ _ _ _ _ _ _ H Ht Hne). b2n.
    + intros Hn. apply R1. rewrite Hl in Hn. by apply app_eq_nil in Hn as [? _].
  - apply wp_bind, wp_ret, wp_ret. exists m1. split; [done|]. split; [|done]. by eapply moves_weak.
Qed.
(** One more unit of fuel. *)
Lemma statements_next : Statements u t base room R0 ctx src (parse_statement parsePrecedence typeExpression fuel statement declaration)
  (parse_declaration parsePrecedence typeExpression fuel statement declaration) (S fuel).
Proof. split; [|apply parse_declaration_ends]. intros s m d H He Hd. last parse_statement_ends; [done|need|need]. Qed.
End Declarations.

(** ** The parser *)
Section Program.
Context `{U : Uninit} `{TG : Target} `{HO : Host} `{FM : FreshMemory}.
Context (u t : bool) (base : cells) (room : nat) (R0 : ObjRoutine).
Context {ST : Setting u t base room R0}.
Variable ctx : objptr.
Variable src : list Z.
Abbreviation holds := (holds u t base room R0 ctx src).
Abbreviation ends := (ends u t base room R0 ctx src).
Abbreviation moves := (moves t ctx).
Abbreviation wp := (wp (u = true) (t = true)).
Abbreviation good := (good base room R0 ctx).

Lemma parsers_ends n : Recursive u t base room R0 ctx src (p_prec (parsers n)) (p_type (parsers n)) n ∧
  Statements u t base room R0 ctx src (p_stmt (parsers n)) (p_decl (parsers n)) n.
Proof.
  induction n as [|n [IR IS]].
  - assert (∀ c m, (1 <= c)%nat → enough t 0 c m → t = true) as Ht.
    { intros c m Hc He. destruct (mode_cases t) as [?|Ht]; [done|]. specialize (He Ht). lia. }
    split; split; simpl; intros; apply wp_timeout; eapply Ht; try eassumption; lia.
  - split; [exact (recursive_next u t base room R0 ctx src (p_prec (parsers n)) (p_type (parsers n)) n)|].
    exact (statements_next u t base room R0 ctx src (p_prec (parsers n)) (p_type (parsers n)) (p_stmt (parsers n)) (p_decl (parsers n)) n).
Qed.

Lemma program_loop_ends fuel n : ∀ s m statements, holds s m 0 → (t = false → m + 1 <= n)%nat → enough t fuel 3 m → deep u room 8 0 m →
  ends false false (program_loop (p_decl (parsers fuel)) n statements) 0 s m any
    (λ l, wf_program statements = true → wf_program l = true).
Proof.
  destruct (parsers_ends fuel) as [IR IS]. induction n as [|n IH]; intros s m statements H Hn He Hd.
  { apply wp_timeout. destruct (mode_cases t) as [?|Ht]; [done|]. specialize (Hn Ht). lia. }
  cbn [program_loop]. destruct (decide (type (current_token s) = TOKEN_EOF)) as [E|E].
  - eapply ends_match; settle; [done|intros s1 m1 H1 M1 _ _ _; by eapply ends_ret|done].
  - pose proof (λ Ht, holds_more _ _ _ _ _ _ _ _ _ _ H Ht E) as Hm1.
    matched as s1 m1 H1 M1 Hm; [by eapply ends_ret|]. next decl_ends as x s1 m1 H1 M1 _; [done|done|need|need|].
    last IH; [done| |need|need|].
    + intros Ht. specialize (Hn Ht). left_facts Ht. lia.
    + intros l Hl Hx Hs. apply Hl. unfold wf_program, body_of in *. rewrite forallb_app, Hs. simpl. by rewrite Hx.
Qed.

Lemma strings_good l d : sizeof_Value * Z.of_nat (length l) < 2 ^ size_bits → vm_good base room R0 ctx (duplicateAsValueArray l) d d.
Proof.
  intros Hl v Hv. destruct l as [|k ks]; [by exists NIL_VAL, v|]. unfold duplicateAsValueArray.
  destruct (allocValueArray_run (Z.of_nat (length (k :: ks))) v) as (q & c & h & p & E & HA & _ & _); [simpl; lia|done|].
  set (e := TYPED_VAL _ (Some q)) in *. set (v1 := set_heap h (set_next_type (Pos.succ p) v)) in *.
  destruct (fill_array_run e _ c (k :: ks) 0 v1 HA) as (m' & E2 & _); [lia|].
  eexists e, _. split.
  - rewrite (st_bind_run _ _ _ _ _ E). change 0 with (Z.of_nat 0). by rewrite (st_bind_run _ _ _ _ _ E2).
  - by eapply (good_same _ _ _ _ v).
Qed.
(** Nil stands for no errors. *)
Lemma strings_answer l v a v' : duplicateAsValueArray l v = Some (a, v') →
  (a = NIL_VAL ∧ l = []) ∨ (l ≠ [] ∧ ∃ p n c, a = TYPED_VAL (Array p n None) c).
Proof.
  destruct l as [|k ks]; [intros [= <- _]; by left|]. right. split; [done|]. revert H.
  unfold duplicateAsValueArray, allocValueArray. unfold mbind, st_bind. cbv beta zeta.
  destruct (newYargType v) as [[p v1]|]; [|done]. unfold with_heap. destruct (newPackedValueContainer _ _) as [[c h]|]; [|done].
  cbn [mret st_ret]. destruct (fill_array _ _ _ _) as [[]|]; intros E; inversion E. by eexists _, _, _.
Qed.
Lemma strings_nil l v a v' : duplicateAsValueArray l v = Some (a, v') → a = NIL_VAL ↔ l = [].
Proof. intros E. destruct (strings_answer l v a v' E) as [[-> ->]|(Hl & p & n & c & ->)]; done. Qed.

(** What a run of the parser leaves. *)
Record parsed (tokens : list Token) (v : VM) (r : Stmts * Value) (s : ObjParser) : Prop := {
  pr_fns : same_fns ctx v (pvm s);
  pr_good : u = false → good (pvm s) 0;
  pr_count : t = false → (length (perrors s) <= S (length tokens))%nat;
  pr_nil : r.2 = NIL_VAL ↔ perrors s = [];
  pr_tree : r.2 = NIL_VAL → wf_program r.1 = true;
  pr_answer : r.2 = NIL_VAL ∨ ∃ p n c, r.2 = TYPED_VAL (Array p n None) c
}.
Lemma parse_wp fuel v sc : let tokens := tokens_of sc in
  is_routine v ctx → (u = false → good v 0) → (t = false → scan_ok sc ∧ Scanner.source sc = src ∧ ahead u src tokens) →
  enough t fuel 3 (length tokens) → deep u room 8 0 (length tokens) →
  (u = false → sizeof_Value * Z.of_nat (S (length tokens)) < 2 ^ size_bits) →
  wp (parse fuel) (newParser ctx sc v) (parsed tokens v).
Proof.
  intros tokens Hr Hg Hsc He Hd Hb. unfold parse. apply wp_bind. unfold Parser.advance. apply wp_bind, wp_modify, wp_bind, wp_get.
  set (s0 := set_previous _ _). assert (sound u base room R0 ctx s0 0) as HS by (by split).
  eapply wp_mono; [apply (advance_loop_wp u t base room R0 ctx src _ s0 0 HS)|]; cbv beta.
  { intros Ht. destruct (Hsc Ht) as (Hok & Hs & _). split; [done|]. split; [done|]. unfold left_. simpl. lia. }
  intros _ s1 (S1 & _ & F1 & _ & C1 & V1).
  assert (holds s1 (length tokens) 0) as H1.
  { split; [done|]. intros Ht. exists tokens. split; [exact (V1 Ht)|]. split; [done|]. by apply Hsc. }
  apply wp_bind. eapply wp_mono; [apply (program_loop_ends fuel fuel s1 (length tokens) [] H1); [|done|done]|]; cbv beta.
  { intros Ht. specialize (He Ht). lia. }
  intros stmts s2 (m2 & H2 & M2 & _ & R2). apply wp_bind, wp_get, wp_bind.
  assert (t = false → (length (perrors s2) <= S (length tokens))%nat) as Hc.
  { intros Ht. pose proof (m_count M2 Ht) as Hc. unfold count in Hc, C1. simpl in Hc, C1. destruct (panic s1), (panic s2); lia. }
  apply (wp_vm u t base room R0 ctx _ _ 0 0); [apply H2|apply H2|apply calm_still, still_strings| |].
  { intros Hu. apply strings_good. specialize (Hb Hu). specialize (Hc (defined_ends Hu)). pose proof target_ok as (_ & _ & ? & _). nia. }
  intros e v' E Hf Hg'. apply wp_ret. pose proof (strings_nil _ _ _ _ E) as Hn. split; simpl; [|done|done|done| |].
  - split; [apply Hf|]. intros p. rewrite (same_fn _ _ _ Hf), (same_fn _ _ _ (m_fns M2)), (same_fn _ _ _ F1). done.
  - intros Hnil. apply R2; [by apply Hn|done].
  - destruct (strings_answer _ _ _ _ E) as [[-> _]|(_ & H)]; [by left|by right].
Qed.
End Program.
