(* ===== verification/ParserSpec.v ===== *)
(** * The parser returns trees that can be compiled

    For every source and every amount of fuel, if the parser returns and has no
    error to report, the tree has the shape that the compiler expects; a source
    without [struct] is parsed with fuel for three calls a token; a tame one
    without undefined behaviour, and the stack is left as it was.  The text of
    a literal is read exactly, up to what a [double] can hold. *)
From Stdlib Require Import String Ascii.
From S2P Require Import ScannerSpec IntSpec StackSpec CompilerSpec AstWf CompilerFrame ErrorSpec.
From S2P Require Export ParserProgram.
Open Scope Z_scope.

Section Spec.
Context `{U : Uninit} `{TG : Target} `{HO : Host} `{FM : FreshMemory}.

Lemma newScanner_ok src : no_final_backslash src → scan_ok (newScanner src).
Proof. intros H. split; [|done]. split; [simpl; lia|done]. Qed.
(** The tokens of a source. *)
Definition tokens (src : list Z) : list Token := tokens_of (newScanner src).

(** A routine to stand for any, where nothing is asked of it. *)
Lemma lax_setting (t : bool) : Setting true t [] 0 (set_addSlice true initRoutine).
Proof. split; [done|simpl; lia|done]. Qed.

(** C8. What is parsed can be compiled.  If the parser returns and has no error to
    report, the tree has the shape that the compiler expects, and the functions
    of the machine are what they were. *)
Theorem parse_well_formed fuel ctx src v stmts s' :
  is_routine v ctx → parse fuel (newParser ctx (newScanner src) v) = Done ((stmts, NIL_VAL), s') →
  wf_program stmts = true ∧ same_fns ctx v (pvm s').
Proof.
  intros Hr E. pose proof (lax_setting true) as ST.
  pose proof (parse_wp true true [] 0 (set_addSlice true initRoutine) ctx src fuel v (newScanner src) Hr) as H. unfold wp in H.
  rewrite E in H. destruct H as [Hf _ _ _ Ht _]; try done. by split; [apply Ht|].
Qed.


(** C12. Tame sources are parsed without undefined behaviour.  If the routine that
    compiles can grow its stack and the tokens are tame, the parser returns,
    leaves the stack as it was, records at most an error for each token and
    one more, and answers nil exactly if it has recorded none; then the tree has
    the shape that the compiler expects. *)
Theorem parse_total fuel ctx src v R :
  vm_objects v !! ctx = Some (OBJ_ROUTINE R) → wf_stack R → addSlice R = true → pool_ok (vm_pool v) →
  no_final_backslash src → tame src (tokens src) = true →
  Z.of_nat (length (stack_of R) + (16 * length (tokens src) + 8)) < 2 ^ 31 →
  sizeof_Value * Z.of_nat (S (length (tokens src))) < 2 ^ size_bits →
  (3 * length (tokens src) + 3 <= fuel)%nat →
  ∃ stmts errors s' R', parse fuel (newParser ctx (newScanner src) v) = Done ((stmts, errors), s') ∧
    vm_objects (pvm s') !! ctx = Some (OBJ_ROUTINE R') ∧ with_stack R (stack_of R) R' ∧ pool_ok (vm_pool (pvm s')) ∧
    (length (perrors s') <= S (length (tokens src)))%nat ∧ (errors = NIL_VAL ↔ perrors s' = []) ∧
    (errors = NIL_VAL → wf_program stmts = true).
Proof.
  intros HR HW HG HP Hb Ht Hroom Hsize Hf. set (room := (16 * length (tokens src) + 8)%nat) in *.
  assert (Setting false false (stack_of R) room R) as ST by (split; [done|exact Hroom|done]).
  assert (good (stack_of R) room R ctx v 0) as HG'.
  { split; [|done|lia]. exists R, []. split; [done|]. by rewrite app_nil_r. }
  assert (wp (false = true) (false = true) (parse fuel) (newParser ctx (newScanner src) v)
    (parsed false false (stack_of R) room R ctx (tokens src) v)) as H.
  { apply (parse_wp false false (stack_of R) room R ctx src); try done; [by exists R| | |].
    - intros _. split; [by apply newScanner_ok|]. split; [done|]. split; [by eapply tame_no_struct|done].
    - intros _. exact Hf.
    - intros _. unfold room, tokens. lia. }
  unfold wp in H. destruct (parse fuel _) as [[[stmts errors] s']| |]; [|done|done].
  destruct H as [_ Hg Hc Hn Hwf _]. destruct (Hg eq_refl) as [(R' & above & HR' & HS & Ha) HP' _].
  destruct above; [|done]. rewrite app_nil_r in HS.
  exists stmts, errors, s', R'. split; [done|]. split; [done|]. split; [done|]. split; [done|]. split; [by apply Hc|done].
Qed.

(** ** Structures *)

(** At the end of the source, the loop over the fields takes no token and finds
    no brace. *)
Definition at_end (s : ObjParser) : Prop := type (current_token s) = TOKEN_EOF.
Abbreviation lax := (wp True True).
Definition stays {A} (c : PA A) : Prop := ∀ s, at_end s → lax c s (λ _ s', at_end s').
Lemma stays_bind {A B} (c : PA A) (f : A → PA B) : stays c → (∀ a, stays (f a)) → stays (c ≫= f).
Proof. intros Hc Hf s H. apply wp_bind. eapply wp_mono; [by apply Hc|]. intros a s'. apply Hf. Qed.
Lemma stays_ret {A} (a : A) : stays (mret a).
Proof. by intros s H. Qed.
Lemma stays_vm {A} (c : VMM A) : stays (vmp c).
Proof. intros s H. apply wp_within; [|by left]. by intros a v _. Qed.
Lemma stays_get {A} (f : ObjParser → PA A) : (∀ s, stays (f s)) → stays (get_ ≫= f).
Proof. intros Hf s H. by apply Hf. Qed.
Lemma stays_errorAt tok report : stays (errorAt tok report).
Proof.
  apply stays_get. intros s. destruct (panic s); [apply stays_ret|]. apply stays_bind; [by intros ?|intros _].
  apply stays_get. intros ?. apply stays_bind; [apply stays_vm|intros ?]. apply stays_get. by intros ? ?.
Qed.
Lemma stays_errorAtCurrent message : stays (errorAtCurrent message).
Proof. apply stays_get. intros s. apply stays_errorAt. Qed.
Lemma stays_push p : stays (pushWorkingNode p).
Proof. apply stays_get. intros s. apply stays_vm. Qed.
Lemma stays_pop : stays popWorkingNode.
Proof. apply stays_get. intros s. apply stays_bind; [apply stays_vm|intros _; apply stays_ret]. Qed.
Lemma stays_leaf e : stays (leaf e).
Proof. apply stays_bind; [apply stays_vm|intros ?; apply stays_ret]. Qed.
Lemma stays_check {A} ty (f : bool → PA A) : ty ≠ TOKEN_EOF → stays (f false) → stays (check ty ≫= f).
Proof.
  intros Hty Hf s H. change (lax (f (bool_decide (type (current_token s) = ty))) s (λ _ s', at_end s')).
  rewrite bool_decide_false by congruence. by apply Hf.
Qed.
Lemma stays_consume ty message : ty ≠ TOKEN_EOF → stays (consume ty message).
Proof. intros H. apply stays_check; [done|]. apply stays_errorAtCurrent. Qed.
Lemma stays_match {A} ty (f : bool → PA A) : ty ≠ TOKEN_EOF → stays (f false) → stays (match_ ty ≫= f).
Proof.
  intros Hty Hf s H. apply wp_bind. unfold match_.
  change (lax (if bool_decide (type (current_token s) = ty) then advance ;; mret true else mret false) s (λ b s', lax (f b) s' (λ _ s', at_end s'))).
  rewrite bool_decide_false by congruence. by apply wp_ret, Hf.
Qed.
Lemma stays_type {A} (f : bool → PA A) : stays (f false) → stays (checkTypeToken ≫= f).
Proof.
  intros Hf s H. change (lax (f (is_type_token (type (current_token s)))) s (λ _ s', at_end s')). rewrite H. by apply Hf.
Qed.
Lemma stays_previous_text : stays previous_text.
Proof. apply stays_get. intros s. apply stays_get. intros ?. apply stays_ret. Qed.
Lemma stays_declared cs : stays (pushNewStmtDeclaration cs).
Proof.
  apply stays_bind; [|intros ?; apply stays_vm]. apply stays_bind; [apply stays_vm|intros ?; apply stays_push].
Qed.
Create HintDb stays.
#[local] Hint Resolve stays_ret stays_leaf stays_push stays_pop stays_previous_text stays_declared : stays.
Ltac stays := repeat lazymatch goal with
  | |- stays (checkTypeToken ≫= _) => apply stays_type
  | |- stays (match_ _ ≫= _) => apply stays_match; [done|]
  | |- stays (get_ ≫= _) => apply stays_get; intros ?
  | |- stays (_ ≫= _) => apply stays_bind; [|intros ?]
  | |- stays (consume _ _) => by apply stays_consume
  | |- stays _ => solve [auto with stays nocore]
  end.
Lemma stays_field parsePrecedence typeExpression : stays (fieldStmt parsePrecedence typeExpression).
Proof. unfold fieldStmt, pushNode. stays. Qed.
Lemma field_loop_never parsePrecedence typeExpression n : ∀ fields s, at_end s →
  lax (field_loop parsePrecedence typeExpression n fields) s (λ _ _, False).
Proof.
  induction n as [|n IH]; intros fields s H; [by apply wp_timeout|]. cbn [field_loop].
  change (lax (if bool_decide (type (current_token s) = TOKEN_RIGHT_BRACE) then mret fields
    else field ← fieldStmt parsePrecedence typeExpression; field_loop parsePrecedence typeExpression n (fields ++ [field])) s (λ _ _, False)).
  rewrite bool_decide_false by congruence. apply wp_bind. eapply wp_mono; [by apply stays_field|]. cbv beta. intros f s' H'. by apply IH.
Qed.

(** A structure that the source breaks off is never parsed: at the end of
    the source, no amount of fuel is enough for the expression of a structure,
    whatever its fields could be. *)
Theorem struct_never_ends parsePrecedence typeExpression fuel s :
  type (current_token s) = TOKEN_EOF → ∀ r, structExpression parsePrecedence typeExpression fuel s ≠ Done r.
Proof.
  intros H r E. enough (lax (structExpression parsePrecedence typeExpression fuel) s (λ _ _, False)) as Hw.
  { unfold wp in Hw. rewrite E in Hw. by destruct r. }
  unfold structExpression. apply wp_bind. eapply wp_mono; [by apply (stays_consume TOKEN_LEFT_BRACE)|]. cbv beta. intros _ s1 H1.
  apply wp_bind. eapply wp_mono; [by apply (stays_vm newYargType)|]. cbv beta. intros p s2 H2.
  apply wp_bind. eapply wp_mono; [by apply stays_push|]. cbv beta. intros _ s3 H3.
  apply wp_bind. eapply wp_mono; [by apply field_loop_never|]. done.
Qed.

(** ** Numbers *)
Lemma skip_zero c cs : c = 48 → dval (c :: cs) = dval cs.
Proof. intros ->. cbn [dval]. lia. Qed.
Lemma digit_step c : isDigit c = true →
  (c = 48 ∧ number_step NUMBER_START c = inl (NUMBER_ZERO, false) ∧ number_step NUMBER_ZERO c = inl (NUMBER_ZERO, false) ∨
   number_step NUMBER_START c = inl (NUMBER_MSB, true) ∧ number_step NUMBER_ZERO c = inl (NUMBER_MSB, true)) ∧
  number_step NUMBER_MSB c = inl (NUMBER_MSB, false).
Proof.
  intros H. unfold isDigit, Scanner.between in H. apply andb_true_iff in H as [H1%Z.leb_le H2%Z.leb_le].
  change (ch "0") with 48 in H1. change (ch "9") with 57 in H2. unfold number_step.
  change (ch "0") with 48. change (ch ".") with 46. change (ch "e") with 101. change (ch "E") with 69. change (ch "-") with 45.
  assert (c =? 46 = false) as -> by lia. assert (c =? 101 = false) as -> by lia. assert (c =? 69 = false) as -> by lia.
  assert (c =? 45 = false) as -> by lia. destruct (Z.eqb_spec c 48); auto.
Qed.
Lemma scan_after_msb cs : ∀ i m, Forall (λ c, isDigit c = true) cs → number_scan cs i NUMBER_MSB m = inl (NUMBER_MSB, m).
Proof.
  induction cs as [|c cs IH]; intros i m H; [done|]. apply list.Forall_cons in H as [Hc H].
  cbn [number_scan]. rewrite (proj2 (digit_step c Hc)). by apply IH.
Qed.
(** The digits from the most significant one on have the value of all. *)
Lemma scan_digits cs : ∀ i state, (state = NUMBER_START ∧ cs ≠ []) ∨ state = NUMBER_ZERO → Forall (λ c, isDigit c = true) cs →
  number_scan cs i state 0 = inl (NUMBER_ZERO, 0%nat) ∨
  ∃ j, number_scan cs i state 0 = inl (NUMBER_MSB, (i + j)%nat) ∧ (j < length cs)%nat ∧ dval (drop j cs) = dval cs.
Proof.
  induction cs as [|c cs IH]; intros i state Hs H; [left; by destruct Hs as [[_ ?]| ->]|].
  apply list.Forall_cons in H as [Hc H]. cbn [number_scan]. destruct (digit_step c Hc) as [[(Hz & E1 & E2)|(E1 & E2)] E3].
  - assert (number_step state c = inl (NUMBER_ZERO, false)) as -> by (destruct Hs as [[-> _]| ->]; done).
    destruct (IH (S i) NUMBER_ZERO) as [E|(j & E & Hj & Hv)]; [by right|done|by left|right].
    exists (S j). rewrite E. split; [do 2 f_equal; lia|]. split; [simpl; lia|]. simpl drop. by rewrite Hv, skip_zero.
  - assert (number_step state c = inl (NUMBER_MSB, true)) as -> by (destruct Hs as [[-> _]| ->]; done).
    right. exists 0%nat. rewrite scan_after_msb by done. split; [do 2 f_equal; lia|]. split; [simpl; lia|done].
Qed.

Definition new_int (s : nat) : Int := mkInt false false false false 0 s (replicate s 0).
Lemma newExprNumberInt_run n set_ s i st' : let v := set_next_type (Pos.succ (next_type (pvm s))) (pvm s) in
  with_object (new_int (int_room n)) (λ q, set_ q ;; get q) (ints (vm_heap v)) = Some (i, st') →
  newExprNumberInt n set_ s = Done (Some (next_type (pvm s), [OBJ_EXPR_NUMBER (NUMBER_INT i)]),
    set_pvm (set_heap (with_store st' (vm_heap v)) v) (set_pvm v s)).
Proof.
  intros v E. unfold newExprNumberInt. unfold mbind at 1, run_bind. unfold allocate, vmp at 1, within at 1, newYargType. fold v.
  unfold mbind at 1, vmp, within. cbn [set_pvm pvm]. unfold vm_ints, with_heap, with_ints. cbv zeta. fold (new_int (int_room n)).
  by rewrite E.
Qed.

(** C24. A whole number is read exactly: for up to 500 digits, the literal is the
    integer that the digits denote, leading zeros and all, in an object that is
    large enough. *)
Theorem decimal_exact cs text s :
  Forall (λ c, isDigit c = true) cs → (1 <= length cs <= 500)%nat →
  ∃ p i s', decimal_number cs text s = Done (Some (p, [OBJ_EXPR_NUMBER (NUMBER_INT i)]), s') ∧
    wf i ∧ overflow_ i = false ∧ val i = dval cs.
Proof.
  intros Hd Hl.
  assert (∃ msb, (number_scan cs 0 NUMBER_START 0 = inl (NUMBER_ZERO, msb) ∨ number_scan cs 0 NUMBER_START 0 = inl (NUMBER_MSB, msb)) ∧
    (msb <= length cs)%nat ∧ dval (drop msb cs) = dval cs) as (msb & Es & Hm & Hv).
  { destruct (scan_digits cs 0 NUMBER_START) as [E|(j & E & Hj & Hv)]; [left; by destruct cs; simpl in *; [lia|]|done| |].
    - exists 0%nat. split; [by left|]. split; [lia|done].
    - exists j. split; [by right|]. split; [lia|done]. }
  assert (decimal_number cs text s = newExprNumberInt (Z.of_nat (msb + length cs)) (int_set_s (drop msb cs)) s) as ->
    by (unfold decimal_number; by destruct Es as [-> | ->]).
  set (o := new_int (int_room (Z.of_nat (msb + length cs)))). destruct (room_fit (msb + length cs) ltac:(lia)) as (_ & He & Hr).
  destruct (with_object_ex o (λ q, int_set_s (drop msb cs) q ;; get q) (ints (vm_heap (set_next_type (Pos.succ (next_type (pvm s))) (pvm s))))
    (λ i _, wf i ∧ overflow_ i = false ∧ val i = dval cs)) as (i & st' & E & Hi).
  { intros q Hq. destruct (digits_fit (drop msb cs) (msb + length cs) q o
      (<[q := o]> (ints (vm_heap (set_next_type (Pos.succ (next_type (pvm s))) (pvm s)))))) as (R & ER & WR & OR & VR).
    - by apply Forall_drop.
    - rewrite length_drop. lia.
    - lia.
    - apply lookup_insert_eq.
    - by apply alloc_new.
    - done.
    - exists R. eexists. rewrite (st_bind_run _ _ _ _ _ ER). split; [apply get_run, lookup_insert_eq|].
      split; [done|]. split; [done|]. by rewrite VR. }
  eexists _, i, _. split; [|exact Hi]. exact (newExprNumberInt_run _ _ s i st' E).
Qed.

(** What digits denote, to the radix [2 ^ bits]. *)
Definition radix_value (bits : Z) (cs : list Z) : Z := fold_left (λ v c, v * 2 ^ bits + digit_value c) cs 0.
Lemma radix_snoc bits cs c : radix_value bits (cs ++ [c]) = radix_value bits cs * 2 ^ bits + digit_value c.
Proof. unfold radix_value. by rewrite fold_left_app. Qed.
Lemma radix_nonneg bits cs : 0 <= bits → 0 <= radix_value bits cs.
Proof.
  intros Hb. induction cs as [|c cs IH] using rev_ind; [done|]. rewrite radix_snoc. pose proof (digit_value_range c).
  pose proof (Z.pow_nonneg 2 bits ltac:(done)). nia.
Qed.
Lemma strtoNum_loop_exact bits cs : 0 < bits → ∀ power val, 0 <= power → 0 <= val →
  bits * (power + Z.of_nat (length cs)) <= 1024 → val + 2 ^ (bits * power) * radix_value bits (rev cs) < 2 ^ 53 →
  strtoNum_loop bits cs power val = Some (val + 2 ^ (bits * power) * radix_value bits (rev cs)).
Proof.
  intros Hb. induction cs as [|c cs IH]; intros power val Hp Hv Hl Hs; cbn [strtoNum_loop].
  { f_equal. simpl. unfold radix_value. simpl. lia. }
  cbn [rev length] in *. rewrite radix_snoc in *.
  assert (2 ^ (bits * (power + 1)) = 2 ^ (bits * power) * 2 ^ bits) as Epow.
  { replace (bits * (power + 1)) with (bits * power + bits) by lia. rewrite Z.pow_add_r by nia. done. }
  pose proof (radix_nonneg bits (rev cs) ltac:(lia)) as Hr. pose proof (digit_value_range c) as Hc.
  pose proof (Z.pow_pos_nonneg 2 (bits * power) ltac:(done) ltac:(nia)) as Hpow. pose proof (Z.pow_pos_nonneg 2 bits ltac:(done) ltac:(lia)) as Hb2.
  assert (0 <= 2 ^ (bits * power) * (radix_value bits (rev cs) * 2 ^ bits)) as Hrest by nia.
  assert (val + digit_value c * 2 ^ (bits * power) < 2 ^ 53) as Hsum by nia.
  assert (∀ n, n < 2 ^ 53 → to_double n = n) as Hd.
  { intros n Hn. unfold to_double. by rewrite (proj2 (Z.ltb_lt _ _) Hn). }
  rewrite (proj2 (Z.leb_gt 1024 (bits * power))) by nia. rewrite (Hd val) by nia. rewrite Hd by done. cbv zeta.
  rewrite (proj2 (Z.leb_gt (2 ^ 64) _)) by lia. rewrite IH; [|lia|nia|lia|].
  - f_equal. rewrite Epow. nia.
  - rewrite Epow. nia.
Qed.
End Spec.

(** ** Examples *)
#[local] Existing Instance Noise.
#[local] Existing Instance LP64.
#[local] Existing Instance PlainHost.
#[local] Existing Instance ZeroMemory.

(** The answer of a run, without the machine. *)
Inductive answer := Parsed (stmts : Stmts) | Errors (n : nat) | Undefined | Fuel.
Definition answer_of (fuel : nat) (source : string) : answer :=
  match parse fuel (newParser 1 (newScanner (codes source)) (demo_vm true 2)) with
  | Done ((stmts, e), p) => if IS_NIL e then Parsed stmts else Errors (length (perrors p))
  | Undef => Undefined
  | Timeout => Fuel
  end.
Lemma demo_is_routine : is_routine (demo_vm true 2) 1.
Proof. exists (demo_routine true 2). vm_compute. reflexivity. Qed.

Definition demo_source : string := "fun f(a) { while (a < 3) a = a + 1; return a[2].b(1); } print -f(0x1F) * 2;".
Definition parsed_ok (o : outcome ((Stmts * Value) * ObjParser)) : bool :=
  match o with Done ((_, NIL_VAL), _) => true | _ => false end.
Lemma demo_parsed : parsed_ok (parse 60 (newParser 1 (newScanner (codes demo_source)) (demo_vm true 2))) = true.
Proof. vm_compute. reflexivity. Qed.
Lemma parse_well_formed_witness :
  ∃ stmts s', parse 60 (newParser 1 (newScanner (codes demo_source)) (demo_vm true 2)) = Done ((stmts, NIL_VAL), s') ∧
    wf_program stmts = true ∧ same_fns 1 (demo_vm true 2) (pvm s').
Proof.
  pose proof demo_parsed as H. destruct (parse 60 _) as [[[stmts e] s']| |] eqn:E; try discriminate H.
  destruct e; try discriminate H. exists stmts, s'. split; [reflexivity|].
  exact (parse_well_formed 60 1 (codes demo_source) (demo_vm true 2) stmts s' demo_is_routine E).
Defined.

(** Errors, also of characters that start no token. *)
Definition wrong_source : string := "var 1 = $; print (2; }".
Lemma wrong_source_plain : no_struct (tokens (codes wrong_source)) = true ∧ length (tokens (codes wrong_source)) = 9%nat.
Proof. split; vm_compute; reflexivity. Qed.

Lemma demo_tame : tame (codes demo_source) (tokens (codes demo_source)) = true ∧ length (tokens (codes demo_source)) = 39%nat.
Proof. split; vm_compute; reflexivity. Qed.
Lemma demo_stack : length (stack_of (demo_routine true 2)) = 2%nat.
Proof. vm_compute. reflexivity. Qed.
Lemma parse_total_witness :
  ∃ stmts errors s' R', parse 120 (newParser 1 (newScanner (codes demo_source)) (demo_vm true 2)) = Done ((stmts, errors), s') ∧
    vm_objects (pvm s') !! 1%positive = Some (OBJ_ROUTINE R') ∧ with_stack (demo_routine true 2) (stack_of (demo_routine true 2)) R' ∧
    pool_ok (vm_pool (pvm s')) ∧ (length (perrors s') <= S (length (tokens (codes demo_source))))%nat ∧
    (errors = NIL_VAL ↔ perrors s' = []) ∧ (errors = NIL_VAL → wf_program stmts = true).
Proof.
  destruct demo_tame as [Ht Hl]. apply (parse_total 120 1 (codes demo_source) (demo_vm true 2) (demo_routine true 2)).
  - vm_compute. reflexivity.
  - apply demo_wf. lia.
  - reflexivity.
  - apply empty_pool_ok.
  - vm_compute. discriminate.
  - exact Ht.
  - rewrite Hl, demo_stack. vm_compute. reflexivity.
  - rewrite Hl. vm_compute. reflexivity.
  - rewrite Hl. lia.
Defined.

(** A parser at the end of its source. *)
Definition eof_token : Token := mkToken TOKEN_EOF (inl 0%nat) 0 1.
Definition ended : ObjParser := set_current_token eof_token (newParser 1 (newScanner []) (demo_vm true 2)).
Lemma struct_never_ends_witness : type (current_token ended) = TOKEN_EOF ∧
  ∀ r, structExpression (p_prec (parsers 9)) (p_type (parsers 9)) 9 ended ≠ Done r.
Proof.
  split; [reflexivity|]. apply (struct_never_ends (p_prec (parsers 9)) (p_type (parsers 9)) 9 ended). reflexivity.
Defined.
Lemma decimal_exact_witness :
  ∃ p i s', decimal_number (codes "00070000000000000000000000") [] ended = Done (Some (p, [OBJ_EXPR_NUMBER (NUMBER_INT i)]), s') ∧
    wf i ∧ overflow_ i = false ∧ val i = dval (codes "00070000000000000000000000").
Proof.
  apply (decimal_exact (codes "00070000000000000000000000") [] ended); [|vm_compute; lia].
  vm_compute. repeat constructor.
Defined.

(** ** What the parser makes of some sources *)

(** Of two index types in a row the first is lost. *)
Example index_type_lost : ∃ i, answer_of 60 "print int[3][4];" = Parsed [mkStmt 1 (OBJ_STMT_PRINT
  [OBJ_EXPR_TYPE EXPR_TYPE_LITERAL_INT; OBJ_EXPR_COLLECTION_ELEMENT [OBJ_EXPR_NUMBER (NUMBER_INT i)] []])].
Proof. eexists. vm_compute. reflexivity. Qed.
(** A type word that is no function, called; a reserved word with an operator;
    a number that is not in order, with one: each makes the parser write
    through a null pointer. *)
Example null_written : answer_of 60 "print bool(1);" = Undefined ∧ answer_of 60 "break + 2;" = Undefined ∧
  answer_of 60 "print 1e-+2;" = Undefined.
Proof. split; [|split]; vm_compute; reflexivity. Qed.
(** Hexadecimal numbers: two that are taken for one another, and one that
    cannot be converted. *)
Example hexadecimal_lost : strtoNum (codes "20000000000001") 4 = strtoNum (codes "20000000000000") 4 ∧
  strtoNum (codes "FFFFFFFFFFFFFFFF") 4 = None.
Proof. split; vm_compute; reflexivity. Qed.
(** A letter in a number is taken for a digit. *)
Example letter_in_number : ∃ i, answer_of 60 "print 1x5;" = Parsed [mkStmt 1 (OBJ_STMT_PRINT [OBJ_EXPR_NUMBER (NUMBER_INT i)])] ∧ val i = 825.
Proof. eexists. split; vm_compute; reflexivity. Qed.
