(* ===== verification/CompileSpec.v ===== *)
(** * From source to verified code

    The parser and the compiler together: when [compile] returns, its result is
    a pair of errors and function, one of them nil; a function is verified
    ([Verify]), with all the functions that it makes closures of. *)
From Stdlib Require Import String Ascii.
From S2P Require Import ScannerSpec StackSpec PackedSpec StorageSpec CompilerSpec AstWf CompilerFrame ErrorSpec.
From S2P Require Export ParserProgram Compile.
Open Scope Z_scope.

(** ** Pairs *)
Section Pairs.
Context `{U : Uninit} `{TG : Target} `{HO : Host}.

Lemma first_count str checks k v t' b : tableSet (V := IndexValue) str checks initTable k v = Some (b, t') → count t' = 1.
Proof.
  unfold tableSet, adjustCapacity. unfold check, tableInvariant, too_full. simpl. rewrite !andb_false_r. simpl.
  destruct (findEntry _ _ _ _) as [i|]; [|done]. simpl. destruct (_ !! i) as [e|] eqn:Ee; [|done]. simpl.
  change (replicate 8 (mkEntry None nil_value) !! i = Some e) in Ee. apply lookup_replicate in Ee as [-> _]. simpl.
  by intros [= _ <-].
Qed.

(** The type of a pair: two fields without a type, one after the other. *)
Definition pair_layout (st : StructType) : Prop :=
  field_types st = [None; None] ∧ field_indexes st = [0; sizeof_Value] ∧ storage_size st = 2 * sizeof_Value.
Lemma pair_layout_post str l k st1 st : appendFieldType str (newYargStructType 2) None l = Some st1 →
  appendFieldType str st1 None k = Some st → pair_layout st.
Proof.
  pose proof target_ok as (Hb & _ & HV & _).
  assert (∀ x, 0 <= x < 2 ^ 32 → usize x = x) as Hsmall.
  { intros x Hx. unfold usize. apply Z.mod_small. destruct Hb as [-> | ->]; lia. }
  unfold appendFieldType at 1, next_field. simpl. destruct (tableSet _ _ _ _ _) as [[b names]|] eqn:E; [|done].
  apply first_count in E. simpl. intros [= <-]. unfold appendFieldType, next_field. simpl. rewrite E. simpl.
  destruct (tableSet _ _ _ _ _) as [[b' names']|]; [|done]. simpl. intros [= <-]. unfold pair_layout. simpl.
  rewrite !Zmod_0_l, !Z.sub_0_r, !Z_mod_same_full, !Z.add_0_l, !(Hsmall sizeof_Value) by lia.
  rewrite !Z_mod_same_full, !Z.sub_0_r, !Z_mod_same_full, !Z.add_0_r.
  rewrite (Hsmall sizeof_Value), !Hsmall by lia. split; [done|]. split; [done|lia].
Qed.
Lemma pair_value_post l r v : post (allocValueStructPair l r) v
  (λ x v', (∃ st c, is_struct_of (vm_heap v') x st c ∧ pair_layout st) ∧ vm_objects v' = vm_objects v).
Proof.
  intros x v' E. split.
  2:{ assert (still (allocValueStructPair l r)) as H; [unfold allocValueStructPair; still|]. exact (H v x v' E). }
  revert x v' E. unfold allocValueStructPair. apply post_bind. intros p v1 _. apply post_bind. intros k1 v2 _.
  apply post_bind. intros k2 v3 _. apply post_bind. intros ? v4 [= <- <-]. cbv zeta.
  apply post_bind. intros st1 v5 E1. apply post_bind. intros st v6 E2.
  unfold opt in E1, E2. destruct (appendFieldType _ (newYargStructType 2) _ _) as [st1'|] eqn:Est1; [|done]. injection E1 as -> <-.
  destruct (appendFieldType _ st1 _ _) as [st'|] eqn:Est; [|done]. injection E2 as -> <-.
  pose proof (pair_layout_post _ _ _ _ _ Est1 Est) as HP. pose proof HP as (HT & HI & HS).
  pose proof target_ok as (Hb & _ & HV & _).
  assert (2 ^ 32 <= 2 ^ size_bits) as H32 by (apply Z.pow_le_mono_r; [lia|destruct Hb; lia]).
  assert (fields_chain 0 (field_types st) (field_indexes st) (storage_size st)) as Hch.
  { rewrite HT, HI, HS. simpl. unfold yt_sizeof_type_storage. simpl. lia. }
  destruct (newPackedValueContainer_run (Some (Struct p st)) (vm_heap v3)) as (q & c & h' & E & _ & Hq & Ho & _).
  { simpl. split; [done|]. split; [rewrite HS; lia|]. by rewrite HT. }
  { unfold yt_sizeof_type_storage. simpl. rewrite HS. lia. }
  intros x v' Ex. unfold with_heap in Ex. rewrite (st_bind_run _ _ _ _ _ E) in Ex. injection Ex as <- <-.
  exists st, c. split; [|done]. split; [by exists p, q|done|exact Ho].
Qed.

(** Values that a field of any type keeps as they are. *)
Definition storable (v : Value) : Prop := match v with NIL_VAL => True | TYPED_VAL t _ => is_obj_yargtype (Some t) = true | _ => False end.
Lemma set_pair_run x st c (i : nat) rhs v : is_struct_of (vm_heap v) x st c → pair_layout st → (i < 2)%nat → storable rhs →
  ∃ h', with_heap (setStructField x i rhs) v = Some (true, set_heap h' v) ∧ is_struct_of h' x st c ∧
    fst <$> structField x i h' = Some rhs ∧
    ∀ j, (j < 2)%nat → j ≠ i → fst <$> structField x j h' = fst <$> structField x j (vm_heap v).
Proof.
  intros HS (HT & HI & HZ) Hi Hr.
  assert (∀ j, (j < 2)%nat → field_types st !! j = Some None) as Htj by (intros [|[]] ?; [by rewrite HT..|lia]).
  destruct (lookup_lt_is_Some_2 (field_indexes st) i) as [o Ho]; [rewrite HI; simpl; lia|].
  destruct (set_field_run x st c i None o rhs (vm_heap v) HS (Htj i Hi) Ho eq_refl) as (r & s' & E & H).
  { by destruct rhs. }
  { intros ob ->. done. }
  { done. }
  assert (assignToValueCellTarget None rhs (ints (vm_heap v)) = Some (Some rhs, ints (vm_heap v))) as E' by (by destruct rhs).
  rewrite E' in E. injection E as <- <-. destruct H as (h' & E1 & _ & HS' & Hread & Hrest).
  exists h'. split; [unfold with_heap; by rewrite E1|]. split; [done|]. split; [by rewrite Hread|].
  intros j Hj Hne. by apply (Hrest j None Hne (Htj j Hj)).
Qed.
(** Nil, or an array of strings. *)
Definition errors_value (v : Value) : Prop := v = NIL_VAL ∨ ∃ p n c, v = TYPED_VAL (Array p n None) c.
Lemma errors_storable v : errors_value v → storable v.
Proof. by intros [-> | (p & n & c & ->)]. Qed.
Lemma errors_nil v : errors_value v → IS_NIL v = true → v = NIL_VAL.
Proof. by intros [-> | (p & n & [c|] & ->)]. Qed.
Lemma strings_errors l v a v' : duplicateAsValueArray l v = Some (a, v') → errors_value a.
Proof. intros E. destruct (strings_answer l v a v' E) as [[-> _]|(_ & H)]; [by left|by right]. Qed.
End Pairs.

(** ** Commands that keep what is in the heap

    A command keeps a preorder of its states if all of its steps do. *)
Section Keeps.
Context {S : Type} (R : S → S → Prop) `{HR : !PreOrder R}.
Definition keeps {A} (c : st S A) : Prop := ∀ s, post c s (λ _ s', R s s').

Lemma keeps_bind {A B} (c : st S A) (f : A → st S B) : keeps c → (∀ a, keeps (f a)) → keeps (c ≫= f).
Proof. intros Hc Hf s. apply post_bind. intros a s1 E b s2 E2. etrans; [exact (Hc _ _ _ E)|exact (Hf _ _ _ _ E2)]. Qed.
Lemma keeps_ret {A} (a : A) : keeps (mret a).
Proof. intros s. by apply post_ret. Qed.
(** It only reads, or it fails. *)
Lemma keeps_read {A} (c : st S A) : (∀ s a s', c s = Some (a, s') → s' = s) → keeps c.
Proof. intros H s a s' E. by rewrite (H _ _ _ E). Qed.
End Keeps.

(** Containers stay, and so does the memory. *)
Record grows (h h' : Heap) : Prop := {
  gr_containers : ∀ q c, containers h !! q = Some c → containers h' !! q = Some c;
  gr_mem : ∀ x, is_Some (mem h !! x) → is_Some (mem h' !! x)
}.
#[export] Instance grows_preorder : PreOrder grows.
Proof. split; [by intros h|]. intros h1 h2 h3 [A B] [C D]. split; auto. Qed.
Definition vm_grows (v v' : VM) : Prop := grows (vm_heap v) (vm_heap v').
#[export] Instance vm_grows_preorder : PreOrder vm_grows.
Proof. unfold vm_grows. split; [by intros v|]. intros v1 v2 v3 A B. by etrans. Qed.
Definition same_heap (v v' : VM) : Prop := vm_heap v' = vm_heap v.
#[export] Instance same_heap_preorder : PreOrder same_heap.
Proof. unfold same_heap. split; [by intros v|]. intros v1 v2 v3 A B. by etrans. Qed.

(** Follow the binds and the matches; what is left are the steps. *)
Ltac keeps := repeat match goal with
  | |- keeps _ (mret _) => apply keeps_ret; exact _
  | |- keeps _ (mbind _ _) => apply keeps_bind; [exact _| |intros ?]
  | |- keeps _ (let '(_, _) := ?x in _) => destruct x
  | |- keeps _ (match ?x with _ => _ end) => destruct x
  | |- keeps _ (if ?x then _ else _) => destruct x
  end.
(** A step that reads. *)
Ltac reads := apply keeps_read; [exact _|];
  unfold of_opt, opt, fail, vm_fail, get_heap, get_vm, st_assert, st_fail;
  let a := fresh in let E := fresh in intros ? a ? E;
  repeat case_match; try discriminate; by injection E as _ <-.

Section Growing.
Context `{U : Uninit} `{TG : Target} `{HO : Host}.

Lemma grows_write a cs : keeps grows (write a cs).
Proof.
  intros h x h'. unfold write. destruct (write_cells _ _ _) as [m|] eqn:E; [|done]. intros [= _ <-]. split; [done|].
  simpl. generalize dependent m. generalize (mem h). revert a. induction cs as [|c cs IH]; intros a m0 m; simpl.
  - intros [= <-]. done.
  - destruct (m0 !! a) as [b|] eqn:Ea; [|done]. simpl. intros E y Hy. eapply IH; [exact E|].
    destruct (decide (y = a)) as [->|Hne]; [by rewrite lookup_insert_eq|by rewrite lookup_insert_ne].
Qed.
Lemma grows_ints {A} (c : M A) : keeps grows (with_ints c).
Proof. intros h a h'. unfold with_ints. destruct (c _) as [[? ?]|]; [|done]. by intros [= _ <-]. Qed.
Lemma grows_allocate n : keeps grows (allocate n).
Proof.
  intros h a h' [= _ <-]. split; [done|]. simpl. intros x Hx. generalize (brk h). induction n as [|n IH]; intros y; simpl; [done|].
  destruct (decide (x = y)) as [->|Hne]; [by rewrite lookup_insert_eq|rewrite lookup_insert_ne by done; apply IH].
Qed.
Lemma grows_container c : keeps grows (new_container c).
Proof.
  intros h a h' [= _ <-]. split; [|done]. simpl. intros q d Hq. rewrite lookup_insert_ne; [done|].
  intros <-. apply (is_fresh (dom (containers h))). by apply elem_of_dom_2 in Hq.
Qed.
Lemma grows_storage s : keeps grows (new_storage s).
Proof. by intros h a h' [= _ <-]. Qed.
Lemma grows_init base limit elements : ∀ addrs, keeps grows (init_values base limit elements addrs).
Proof.
  induction elements as [|[o t] elements IH]; intros addrs; simpl; [keeps|]. destruct (yt_packs_asValue t); [|apply IH].
  keeps; [reads|apply grows_ints|apply grows_write|apply IH].
Qed.
Lemma grows_newPacked t : keeps grows (newPackedValueContainer t).
Proof.
  unfold newPackedValueContainer, newPackedStorage. keeps; try reads; [apply grows_allocate|apply grows_init|apply grows_storage|apply grows_container].
Qed.
Lemma grows_set_placed c e o v : keeps grows (setPlacedContainerElement c e o v).
Proof.
  assert (∀ a x, keeps grows (setPlacedValue a x)) as HS.
  { intros a x. unfold setPlacedValue. destruct x; first [apply grows_write|reads]. }
  unfold setPlacedContainerElement. destruct (is_placeable_type e).
  - unfold assignToPlacedValueCellTarget. keeps; first [apply grows_ints|apply HS|reads].
  - keeps; first [apply grows_ints|apply grows_write].
Qed.
Lemma grows_setArrayElement a i v : keeps grows (setArrayElement a i v).
Proof.
  unfold setArrayElement, AS_PACKEDCONTAINER, get_container. destruct (type_of a) as [[]|]; try reads.
  keeps; first [apply grows_set_placed|reads].
Qed.

Lemma vm_grows_heap {A} (c : PM A) : keeps grows c → keeps vm_grows (with_heap c).
Proof. intros H v a v'. unfold with_heap. destruct (c _) as [[? ?]|] eqn:E; [|done]. intros [= _ <-]. exact (H _ _ _ E). Qed.
Lemma same_grows {A} (c : VMM A) : keeps same_heap c → keeps vm_grows c.
Proof. intros H v a v' E. unfold vm_grows. by rewrite (H _ _ _ E). Qed.
Lemma same_pool {A} (c : Pool → option (A * Pool)) : keeps same_heap (with_pool c).
Proof. intros v a v'. unfold with_pool. destruct (c _) as [[? ?]|]; [|done]. by intros [= _ <-]. Qed.
Lemma same_put f : (∀ v, vm_heap (f v) = vm_heap v) → keeps same_heap (put_vm f).
Proof. intros H v a v' [= _ <-]. apply H. Qed.
Lemma same_type : keeps same_heap newYargType.
Proof. by intros v a v' [= _ <-]. Qed.
Lemma same_get_obj p : keeps same_heap (get_obj p).
Proof. unfold get_obj. keeps; reads. Qed.
Lemma same_get_routine p : keeps same_heap (get_routine p).
Proof. unfold get_routine. keeps; [apply same_get_obj|reads..]. Qed.
Lemma same_modify r f : keeps same_heap (modify_routine r f).
Proof. unfold modify_routine. keeps; [apply same_get_routine|by apply same_put]. Qed.
Lemma same_pop r : keeps same_heap (pop r).
Proof. unfold pop, peek, peekCell. keeps; [apply same_get_routine|reads|apply same_modify]. Qed.
Lemma same_popN r n : keeps same_heap (popN r n).
Proof. induction n as [|n IH]; simpl; keeps; [apply same_pop|apply IH]. Qed.
Lemma same_trace fs : keeps same_heap (trace_frames fs).
Proof.
  induction fs as [|f fs IH]; simpl; keeps; [|apply IH].
  unfold trace_frame, get_closure, get_function, chars_of, intern. keeps; first [apply same_get_obj|apply same_pool|reads].
Qed.
Lemma grows_strings l : keeps vm_grows (duplicateAsValueArray l).
Proof.
  assert (∀ vs a i, keeps vm_grows (fill_array a i vs)) as HF.
  { induction vs as [|v vs IH]; intros a i; simpl; keeps; [apply vm_grows_heap, grows_setArrayElement|apply IH]. }
  unfold duplicateAsValueArray, allocValueArray. keeps; [apply same_grows, same_type|apply vm_grows_heap; keeps; apply grows_newPacked|apply HF].
Qed.
Lemma grows_push r v : keeps vm_grows (push r v).
Proof.
  unfold push, runtimeError, intern.
  keeps; first [apply grows_strings|apply same_grows; first [apply same_get_routine|apply same_pool|apply same_trace|apply same_modify|by apply same_put|reads]].
Qed.
Lemma struct_grows h h' x st c : grows h h' → is_struct_of h x st c → is_struct_of h' x st c.
Proof.
  intros [Gc Gm] [(p & q & -> & Hq) Hf Ho]. split; [exists p, q; split; [done|by apply Gc]|done|]. intros y Hy. by apply Gm, Ho.
Qed.
End Growing.

(** ** The whole run *)
Section Compiling.
Context `{U : Uninit} `{TG : Target} `{HO : Host} `{FM : FreshMemory}.
Variable ctx : objptr.
(** With [t = false], no run lacks fuel. *)
Variable t : bool.
Abbreviation lax := (wp (true = true) (t = true)).

Lemma gen_wp {A} (c : CM A) s (Q : A → CState → Prop) : post c s Q → lax (gen c) s Q.
Proof. intros H. apply wp_within; [exact H|by left]. Qed.
(** The same compilers, and the same functions. *)
Definition machine (s s' : CState) : Prop :=
  ∃ v, s' = mkCState v (compilers s) (classes s) ∧ same_fns ctx (cvm s) v.
Lemma vmr_wp {A} (c : VMM A) s : is_routine (cvm s) ctx → calm ctx c → lax (vmr c) s (λ a s', machine s s' ∧ c (cvm s) = Some (a, cvm s')).
Proof.
  intros Hr Hc. apply gen_wp. intros a s'. unfold vmc. destruct (c (cvm s)) as [[a' v]|] eqn:E; [|done]. intros [= <- <-].
  split; [|done]. exists v. split; [done|exact (Hc _ Hr _ _ E)].
Qed.
Lemma machine_routine s s' : machine s s' → is_routine (cvm s') ctx.
Proof. intros (v & -> & H). apply H. Qed.
Lemma machine_trans s s1 s2 : machine s s1 → machine s1 s2 → machine s s2.
Proof.
  intros (v & -> & H) (w & -> & H'). exists w. split; [done|]. split; [apply H'|]. intros p. by rewrite (same_fn _ _ _ H'), (same_fn _ _ _ H).
Qed.
Lemma machine_pushed s type f s1 s2 : pushed ctx s type f s1 → machine s1 s2 → pushed ctx s type f s2.
Proof.
  intros [P1 P2 P3 P4 P5] (v & -> & H). split; [done|done| | |apply H].
  - destruct P3 as (g & Hg & ?). exists g. split; [|done]. simpl. by rewrite (same_fn _ _ _ H).
  - intros p Hp. simpl. by rewrite (same_fn _ _ _ H), P4.
Qed.
Lemma calm_pushed_object : calm ctx (pushed_object ctx).
Proof. apply calm_bind; [apply calm_still, still_newYargType|intros ?; apply calm_push]. Qed.
Lemma calm_pushed_parser : calm ctx (pushed_parser ctx).
Proof.
  apply calm_bind; [apply calm_still, still_newYargType|intros ?]. apply calm_bind; [apply calm_push|intros _].
  apply calm_bind; [apply calm_pop|intros ?; apply calm_push].
Qed.
Lemma calm_popN n : calm ctx (popN ctx n).
Proof. induction n as [|n IH]; [apply calm_still, still_ret|]. apply calm_bind; [apply calm_pop|intros _; apply IH]. Qed.

(** The parser leaves the compilers alone. *)
Lemma run_parser_wp fuel source s : is_routine (cvm s) ctx →
  (t = false → no_final_backslash source ∧ no_struct (tokens_of (newScanner source)) = true ∧
    (3 * length (tokens_of (newScanner source)) + 3 <= fuel)%nat) →
  lax (run_parser fuel ctx source) s (λ r s', machine s s' ∧ errors_value r.2 ∧ (r.2 = NIL_VAL → wf_program r.1 = true)).
Proof.
  intros Hr Ht. assert (Setting true t [] 0 (set_addSlice true initRoutine)) as ST by (split; [done|simpl; lia|done]).
  pose proof (parse_wp true t [] 0 (set_addSlice true initRoutine) ctx source fuel (cvm s) (newScanner source) Hr) as H.
  unfold run_parser, wp in *. destruct (parse fuel _) as [[r p]| |]; [|done|].
  - destruct H as [Hf _ _ _ Htree Ha]; try done.
    + intros Hf. destruct (Ht Hf) as (H1 & H2 & _). split; [split; [split; [simpl; lia|done]|done]|done].
    + intros Hf. by destruct (Ht Hf) as (_ & _ & H3).
    + split; [by eexists|]. done.
  - apply H; try done; intros Hf; destruct (Ht Hf) as (H1 & H2 & H3); [|done].
    split; [split; [split; [simpl; lia|done]|done]|done].
Qed.


(** ** The function of the script *)
Definition same_compilers (s s' : CState) : Prop := compilers s' = compilers s.
#[local] Instance same_compilers_preorder : PreOrder same_compilers.
Proof. unfold same_compilers. split; [by intros s|]. intros s1 s2 s3 A B. by etrans. Qed.
Lemma same_vmc {A} (c : VMM A) : keeps same_compilers (vmc c).
Proof. intros s a s'. unfold vmc. destruct (c _) as [[? ?]|]; [|done]. by intros [= _ <-]. Qed.
Lemma same_compiler n : keeps same_compilers (compiler_at n).
Proof. unfold compiler_at. keeps; (apply keeps_read; [exact _|]); intros ? ? ?; [by intros [= _ <-]|]. unfold of_some. case_match; [by intros [= _ <-]|done]. Qed.
Lemma same_emitReturn : keeps same_compilers emitReturn.
Proof.
  assert (∀ b, keeps same_compilers (emitByte b)) as HE.
  { intros b. unfold emitByte, modify_chunk, current, get_fn, put_fn. keeps; first [apply same_compiler|apply same_vmc]. }
  unfold emitReturn, emitOpByte, emitBytes, emitOp, current. keeps; first [apply same_compiler|apply HE].
Qed.

(** What is between the last statement and the end of the compiler. *)
Definition collect_errors : CM Value :=
  c ← current; e ← vmc (duplicateAsValueArray (errors c)); vmc (push ctx e) ;; mret e.
Lemma quiet_collect : quiet ctx collect_errors.
Proof.
  apply quiet_bind; [apply quiet_compiler|intros c]. apply quiet_bind; [apply quiet_still, still_strings|intros e].
  apply quiet_bind; [apply quiet_vmc, calm_push|intros ?; apply quiet_ret].
Qed.
Definition compiled (parseErrors : Value) (ss : Stmts) : CM (Value * objptr) :=
  (if IS_NIL parseErrors then generate generateStmt ss else mret ()) ;;
  e ← collect_errors; '(_, f) ← endCompiler; mret (e, f).

Lemma compiled_post parseErrors ss v s p : is_routine v ctx → errors_value parseErrors → (parseErrors = NIL_VAL → wf_program ss = true) →
  pushed ctx (no_compiler v) TYPE_SCRIPT p s →
  post (compiled parseErrors ss) s (λ r s', is_routine (cvm s') ctx ∧ compilers s' = [] ∧ errors_value r.1 ∧
    (parseErrors = NIL_VAL → r.1 = NIL_VAL → ∃ fin, r.2 ∈ fin ∧ verified_set fin (cvm s'))).
Proof.
  intros Hr He Hwf HP. apply post_bind. intros ? s1 E1. apply post_bind. intros e s2 E2. apply post_bind. intros [c f] s4 E4.
  apply post_ret. simpl. unfold endCompiler in E4. revert E4. unfold mbind at 1, st_bind. destruct (emitReturn s2) as [[[] s3]|] eqn:E3; [|done].
  pose proof (same_emitReturn _ _ _ E3) as Hsame. unfold same_compilers in Hsame.
  assert (is_routine (cvm s3) ctx ∧ ∃ c3, compilers s3 = [c3] ∧ (parseErrors = NIL_VAL → errors c3 = [] →
    ∃ fin, cfunction c3 ∈ fin ∧ verified_set fin (cvm s3))) as (Hr3 & c3 & Hc3 & Hset).
  { destruct (IS_NIL parseErrors) eqn:Hn.
    - assert (parseErrors = NIL_VAL) as Hnil by (by apply errors_nil).
      destruct (script_body ctx collect_errors ss v s p quiet_collect Hr (Hwf Hnil) HP () s3) as (fin & HI3 & L & F).
      { by rewrite (st_bind_run _ _ _ _ _ E1), (st_bind_run _ _ _ _ _ E2). }
      split; [apply HI3|]. destruct (script_set ctx v s p s3 fin HP HI3 L F) as (c3 & Hc3 & <- & Hset). by exists c3.
    - injection E1 as ?. pose proof (pushed_inv _ _ _ _ _ _ (no_compiler_inv _ _ Hr) HP) as HI.
      subst s1. pose proof (quiet_collect ∅ s HI _ _ E2) as V2. destruct (emitReturn_post ctx ∅ s2 (e_inv _ _ _ _ _ _ V2) _ _ E3) as (R & V3 & _).
      split; [apply V3|]. destruct (pu_comp _ _ _ _ _ HP) as (c1 & Hc1 & _).
      pose proof (l_length _ _ _ _ (le_trans _ _ _ _ _ _ (e_le _ _ _ _ _ _ V2) (e_le _ _ _ _ _ _ V3))) as HL. rewrite Hc1 in HL.
      destruct (compilers s3) as [|c3 [|]]; simpl in HL; try lia. exists c3. split; [done|]. intros ->. done. }
  rewrite (st_bind_run get_state _ _ _ _ (eq_refl (Some (s3, s3)))), Hc3. intros [= <- <- <-]. simpl. split; [done|]. split; [done|].
  assert (errors_value e ∧ (e = NIL_VAL → errors c3 = [])) as [He1 He2].
  { unfold collect_errors in E2. revert E2. unfold mbind at 1, st_bind. destruct (current s1) as [[c0 s1']|] eqn:Ec; [|done].
    assert (s1' = s1 ∧ compilers s1 !! 0%nat = Some c0) as [-> Hc0].
    { refine (post_compiler 0 s1 (λ c s', s' = s1 ∧ compilers s1 !! 0%nat = Some c) _ c0 s1' Ec). done. }
    unfold mbind at 1, st_bind, vmc at 1. destruct (duplicateAsValueArray _ _) as [[e' v1]|] eqn:Ed; [|done].
    unfold mbind, st_bind. destruct (vmc _ _) as [[u s2']|] eqn:Ep; [|done]. intros [= -> ->].
    pose proof (same_vmc _ _ _ _ Ep) as Hs. unfold same_compilers in Hs. simpl in Hs. split; [by eapply strings_errors|].
    intros Hl. apply (strings_nil _ _ _ _ Ed) in Hl. rewrite <-Hs, <-Hsame, Hc3 in Hc0. by injection Hc0 as ->. }
  split; [done|]. intros H1 H2. apply Hset; auto.
Qed.

(** ** The pair that is returned *)
Definition answer_pair (e f : Value) : VMM Value :=
  result ← allocValueStructPair (codes "errors") (codes "result");
  push ctx result ;;
  with_heap (setStructField result 0 e) ;; with_heap (setStructField result 1 f) ;; popN ctx 7 ;; mret result.
Lemma answer_post e f v : storable e → storable f → post (answer_pair e f) v (λ r v',
  fst <$> structField r 0 (vm_heap v') = Some e ∧ fst <$> structField r 1 (vm_heap v') = Some f).
Proof.
  intros He Hf. apply post_bind. intros r v1 E1. destruct (pair_value_post _ _ _ _ _ E1) as ((st & c & HS & HL) & _).
  apply post_bind. intros ? v2 E2. pose proof (struct_grows _ _ _ _ _ (grows_push _ _ _ _ _ E2) HS) as HS2.
  destruct (set_pair_run r st c 0 e v2 HS2 HL) as (h3 & E3 & HS3 & R3 & _); [lia|done|].
  destruct (set_pair_run r st c 1 f (set_heap h3 v2) HS3 HL) as (h4 & E4 & _ & R4 & K4); [lia|done|].
  apply post_bind. intros ? v3 E. rewrite E3 in E. injection E as _ <-.
  apply post_bind. intros ? v4 E. rewrite E4 in E. injection E as _ <-.
  apply post_bind. intros ? v5 E5. apply post_ret. rewrite (same_popN _ _ _ _ _ E5). simpl in K4 |- *.
  rewrite R4, (K4 0%nat), R3 by lia. done.
Qed.

(** ** The whole of [compile] *)
Lemma gen_eq {A} (c : CM A) s : lax (gen c) s (λ a s', c s = Some (a, s')).
Proof. apply gen_wp. by intros a s'. Qed.
Lemma machine_verified fin s s' : machine s s' → verified_set fin (cvm s) → verified_set fin (cvm s').
Proof.
  intros (v & -> & H) HV p Hp. eapply (finished_mono fin (cvm s)); [done| |done|by apply HV].
  intros q g _. by rewrite <-(same_fn _ _ _ H).
Qed.
Lemma vmc_eq {A} (c : VMM A) s a s' : machine s s' → c (cvm s) = Some (a, cvm s') → vmc c s = Some (a, s').
Proof. intros (v & -> & _) E. unfold vmc. by rewrite E. Qed.

(** The errors and the function of a run. *)
Definition answers (v : VM) (r e f : Value) : Prop :=
  fst <$> structField r 0 (vm_heap v) = Some e ∧ fst <$> structField r 1 (vm_heap v) = Some f ∧
  (e = NIL_VAL → ∃ p fin, f = FUNCTION_VAL p ∧ p ∈ fin ∧ verified_set fin v) ∧ (e ≠ NIL_VAL → f = NIL_VAL).

(** One command of the machine, and one of the compiler. *)
Ltac vm_step Hr := apply wp_bind; eapply wp_mono; [apply vmr_wp; [exact Hr|]|cbv beta].
Ltac gen_step := apply wp_bind; eapply wp_mono; [apply gen_eq|]; cbv beta.

(** The source, and the objects that are on the stack all the time. *)
Definition source_of : VMM (list Z) := source ← peek ctx 0; k ← as_string source; chars_of k.
Definition opening : run_ CState (list Z) :=
  source ← vmr (peek ctx 0); source ← vmr (k ← as_string source; chars_of k);
  vmr (pushed_object ctx) ;; vmr (pushed_object ctx) ;; vmr (pushed_parser ctx) ;; mret source.
Lemma opening_lax s : is_routine (cvm s) ctx → lax opening s (λ source s', machine s s' ∧ fst <$> source_of (cvm s) = Some source).
Proof.
  intros Hr. vm_step Hr; [unfold peek, peekCell; apply calm_still; still|]. intros k s1 [M1 E1].
  vm_step (machine_routine _ _ M1); [apply calm_still; unfold as_string; still|]. intros source s2 [M2 E2].
  vm_step (machine_routine _ _ M2); [apply calm_pushed_object|]. intros ? s3 [M3 _].
  vm_step (machine_routine _ _ M3); [apply calm_pushed_object|]. intros ? s4 [M4 _].
  vm_step (machine_routine _ _ M4); [apply calm_pushed_parser|]. intros ? s5 [M5 _]. apply wp_ret. split; [|unfold source_of; by rewrite (st_bind_run _ _ _ _ _ E1), E2].
  exact (machine_trans _ _ _ (machine_trans _ _ _ (machine_trans _ _ _ (machine_trans _ _ _ M1 M2) M3) M4) M5).
Qed.

Definition middle (parseErrors : Value) (ss : Stmts) : run_ CState (Value * objptr) :=
  gen (if IS_NIL parseErrors then generate generateStmt ss else mret ()) ;;
  c ← gen current; e ← vmr (duplicateAsValueArray (errors c)); vmr (push ctx e) ;;
  '(_, f) ← gen endCompiler; mret (e, f).
Lemma middle_lax parseErrors ss s (Q : Value * objptr → CState → Prop) :
  post (compiled parseErrors ss) s Q → lax (middle parseErrors ss) s Q.
Proof.
  intros H. gen_step. intros ? s1 E1. gen_step. intros c s2 E2. gen_step. intros e s3 E3. gen_step. intros ? s4 E4.
  gen_step. intros [c' f] s5 E5. apply wp_ret, H. assert (collect_errors s1 = Some (e, s4)) as EC.
  { unfold collect_errors. rewrite (st_bind_run _ _ _ _ _ E2), (st_bind_run _ _ _ _ _ E3). by rewrite (st_bind_run _ _ _ _ _ E4). }
  unfold compiled. rewrite (st_bind_run _ _ _ _ _ E1), (st_bind_run _ _ _ _ _ EC). by rewrite (st_bind_run _ _ _ _ _ E5).
Qed.

Definition closing (e f : Value) : run_ CState Value :=
  result ← vmr (allocValueStructPair (codes "errors") (codes "result"));
  vmr (push ctx result) ;;
  vmr (with_heap (setStructField result 0 e)) ;; vmr (with_heap (setStructField result 1 f)) ;;
  vmr (popN ctx 7) ;; mret result.
Lemma closing_lax e f s : is_routine (cvm s) ctx → storable e → storable f → lax (closing e f) s (λ r s', machine s s' ∧
  fst <$> structField r 0 (vm_heap (cvm s')) = Some e ∧ fst <$> structField r 1 (vm_heap (cvm s')) = Some f).
Proof.
  intros Hr He Hf. vm_step Hr; [apply calm_still; unfold allocValueStructPair; still|]. intros r s1 [M1 E1].
  vm_step (machine_routine _ _ M1); [apply calm_push|]. intros ? s2 [M2 E2].
  vm_step (machine_routine _ _ M2); [apply calm_still, still_heap|]. intros ? s3 [M3 E3].
  vm_step (machine_routine _ _ M3); [apply calm_still, still_heap|]. intros ? s4 [M4 E4].
  vm_step (machine_routine _ _ M4); [apply calm_popN|]. intros ? s5 [M5 E5]. apply wp_ret. split.
  - exact (machine_trans _ _ _ (machine_trans _ _ _ (machine_trans _ _ _ (machine_trans _ _ _ M1 M2) M3) M4) M5).
  - apply (answer_post e f (cvm s)); [done|done|]. unfold answer_pair.
    rewrite (st_bind_run _ _ _ _ _ E1), (st_bind_run _ _ _ _ _ E2), (st_bind_run _ _ _ _ _ E3), (st_bind_run _ _ _ _ _ E4).
    by rewrite (st_bind_run _ _ _ _ _ E5).
Qed.

(** The same steps in groups. *)
Lemma seq_eq {S A B} (c : run_ S A) (f g : A → run_ S B) s : (∀ a s', f a s' = g a s') → (c ≫= f) s = (c ≫= g) s.
Proof. intros H. unfold mbind, run_bind. by destruct (c s) as [[? ?]| |]. Qed.
Lemma seq_assoc {S A B C} (c : run_ S A) (f : A → run_ S B) (g : B → run_ S C) (h : A → run_ S C) s :
  (∀ a s', h a s' = (f a ≫= g) s') → (c ≫= h) s = ((c ≫= f) ≫= g) s.
Proof. intros H. unfold mbind, run_bind. destruct (c s) as [[? ?]| |]; [apply H|done|done]. Qed.
Lemma seq_ret {S A B} (a : A) (f : A → run_ S B) s y : y = f a s → y = (mret a ≫= f) s.
Proof. by intros ->. Qed.
Lemma compile_eq fuel s : compile fuel ctx s = (source ← opening;
  gen (initCompiler TYPE_SCRIPT None ctx) ;;
  '(ss, parseErrors) ← run_parser fuel ctx source;
  vmr (push ctx parseErrors) ;;
  '(errors, f) ← middle parseErrors ss;
  vmr (push ctx (FUNCTION_VAL f)) ;;
  let '(e, f) := compile_result parseErrors errors f in closing e f) s.
Proof.
  unfold compile, opening. do 5 (apply seq_assoc; intros ? ?).
  apply seq_ret, seq_eq. intros ? ?. apply seq_eq. intros [ss parseErrors] ?. apply seq_eq. intros ? ?.
  unfold middle. do 4 (apply seq_assoc; intros ? ?). apply seq_assoc. intros [c f] ?. apply seq_ret.
  apply seq_eq. intros ? ?. by destruct (compile_result _ _ _).
Qed.

Lemma compile_lax fuel v : is_routine v ctx →
  (t = false → ∃ source, fst <$> source_of v = Some source ∧ no_final_backslash source ∧
    no_struct (tokens_of (newScanner source)) = true ∧ (3 * length (tokens_of (newScanner source)) + 3 <= fuel)%nat) →
  lax (compile fuel ctx) (no_compiler v)
  (λ r s, compilers s = [] ∧ ∃ e f, answers (cvm s) r e f).
Proof.
  intros Hr Ht. unfold wp. rewrite compile_eq. match goal with |- match ?c _ with _ => _ end => change (lax c (no_compiler v) (λ r s, compilers s = [] ∧ ∃ e f, answers (cvm s) r e f)) end.
  apply wp_bind. eapply wp_mono; [by apply opening_lax|]; cbv beta. intros source s1 [(w & -> & Hw) Hsrc].
  apply wp_bind. eapply wp_mono; [apply gen_wp, (initCompiler_post ctx TYPE_SCRIPT None ∅), no_compiler_inv, Hw|]; cbv beta.
  intros ? s2 (p & P2). apply wp_bind. eapply wp_mono; [apply run_parser_wp; [apply P2|]|] ; cbv beta.
  { intros Hf. destruct (Ht Hf) as (source' & Hs & H). simpl in Hsrc. rewrite Hsrc in Hs. by injection Hs as ->. }
  intros [ss parseErrors] s3 (M3 & HE & Hwf). simpl in HE, Hwf. vm_step (machine_routine _ _ M3); [apply calm_push|].
  intros ? s4 [M4 _]. pose proof (machine_pushed _ _ _ _ _ (machine_pushed _ _ _ _ _ P2 M3) M4) as P4.
  apply wp_bind. eapply wp_mono; [apply middle_lax, (compiled_post parseErrors ss w s4 p); try done; apply Hw|]; cbv beta.
  intros [e f] s5 (Hr5 & Hnone & He & Hset). simpl in He, Hset. vm_step Hr5; [apply calm_push|]. intros ? s6 [M6 _].
  destruct (compile_result parseErrors e f) as [e' f'] eqn:Er.
  assert (storable e' ∧ storable f' ∧ (e' = NIL_VAL → parseErrors = NIL_VAL ∧ e = NIL_VAL ∧ f' = FUNCTION_VAL f) ∧
    (e' ≠ NIL_VAL → f' = NIL_VAL)) as (Se & Sf & Hgood & Hbad).
  { unfold compile_result in Er. destruct (IS_NIL parseErrors) eqn:N1; simpl in Er.
    - apply (errors_nil _ HE) in N1. destruct (IS_NIL e) eqn:N2; simpl in Er; injection Er as <- <-.
      + by apply (errors_nil _ He) in N2.
      + split; [by apply errors_storable|]. split; [done|]. split; [intros ->; done|done].
    - injection Er as <- <-. split; [by apply errors_storable|]. split; [done|]. split; [intros ->; done|done]. }
  eapply wp_mono; [by apply closing_lax; [apply (machine_routine _ _ M6)| |]|]; cbv beta.
  intros r s7 (M7 & R1 & R2). pose proof (machine_trans _ _ _ M6 M7) as M. split; [by destruct M as (? & -> & _)|].
  exists e', f'. split; [done|]. split; [done|]. split; [|done]. intros (Hp & Hn & ->)%Hgood. destruct (Hset Hp Hn) as (fin & Hf & HV).
  exists f, fin. split; [done|]. split; [done|]. by eapply machine_verified.
Qed.
End Compiling.

Section Whole.
Context `{U : Uninit} `{TG : Target} `{HO : Host} `{FM : FreshMemory}.

(** C3. From source to verified code.  When [compile] returns, no compiler is
    left and its result is a pair of errors and function.  If the errors are
    nil, the function is one of a set of functions that are all verified and
    close over one another only; if not, the function is nil.  And it does
    return or fail, with fuel for three calls a token, if the source has no
    [struct] and does not end in a backslash. *)
Theorem compile_verified fuel ctx v : is_routine v ctx →
  (∀ r s, compile fuel ctx (no_compiler v) = Done (r, s) → compilers s = [] ∧
    ∃ e f, fst <$> structField r 0 (vm_heap (cvm s)) = Some e ∧ fst <$> structField r 1 (vm_heap (cvm s)) = Some f ∧
      (e = NIL_VAL → ∃ p fin, f = FUNCTION_VAL p ∧ p ∈ fin ∧ verified_set fin (cvm s)) ∧ (e ≠ NIL_VAL → f = NIL_VAL)) ∧
  (∀ source, fst <$> source_of ctx v = Some source → no_final_backslash source →
    no_struct (tokens_of (newScanner source)) = true → (3 * length (tokens_of (newScanner source)) + 3 <= fuel)%nat →
    compile fuel ctx (no_compiler v) ≠ Timeout).
Proof.
  intros Hr. split.
  - intros r s E. pose proof (compile_lax ctx true fuel v Hr) as H. unfold wp in H. rewrite E in H. by apply H.
  - intros source Hs Hb Hn Hf E. pose proof (compile_lax ctx false fuel v Hr) as H. unfold wp in H. rewrite E in H.
    enough (false = true) by done. apply H. intros _. by exists source.
Qed.
End Whole.

(** ** An example *)
#[local] Existing Instance Noise.
#[local] Existing Instance LP64.
#[local] Existing Instance PlainHost.
#[local] Existing Instance ZeroMemory.

Definition script_source : string := "fun f(a) { while (a < 3) a = a + 1; return a[2].b(1); } print -f(0x1F) * 2;".
Definition with_source (source : string) : VM :=
  match ('(k, v) ← intern (codes source) (demo_vm true 2); push 1 (STRING_VAL k) v) with
  | Some (_, v) => v
  | None => demo_vm true 2
  end.
Definition compiles (source : string) : option (option Value * option Value) :=
  match compile 130 1 (no_compiler (with_source source)) with
  | Done (r, s) => Some (fst <$> structField r 0 (vm_heap (cvm s)), fst <$> structField r 1 (vm_heap (cvm s)))
  | _ => None
  end.
Example script_compiles : compiles script_source = Some (Some NIL_VAL, Some (FUNCTION_VAL 5)).
Proof. vm_compute. reflexivity. Qed.
Example script_refused : (λ x, snd x) <$> compiles "{ var a; var a; }" = Some (Some NIL_VAL).
Proof. vm_compute. reflexivity. Qed.

Lemma script_routine : is_routine (with_source script_source) 1.
Proof. unfold is_routine. vm_compute. eexists. reflexivity. Qed.
Lemma compile_verified_witness : ∃ r s fin, compile 130 1 (no_compiler (with_source script_source)) = Done (r, s) ∧
  compilers s = [] ∧ 5%positive ∈ fin ∧ verified_set fin (cvm s).
Proof.
  pose proof script_compiles as H. unfold compiles in H.
  destruct (compile 130 1 _) as [[r s]| |] eqn:E; try discriminate H. injection H as H0 H1.
  destruct (proj1 (compile_verified 130 1 (with_source script_source) script_routine) r s E) as (Hc & e & f & He & Hf & Hgood & _).
  rewrite H0 in He. injection He as <-. rewrite H1 in Hf. injection Hf as <-.
  destruct (Hgood eq_refl) as (p & fin & Hp & Hin & HV). injection Hp as <-. exists r, s, fin. split; [reflexivity|].
  split; [exact Hc|]. split; [exact Hin|exact HV].
Defined.
