(* ===== verification/RunInv.v ===== *)
(** * What a routine keeps while it runs

    The functions and closures that are known, the shape of a routine (its
    frames and the height of its stack), and what the commands of the machine
    do to them: most keep them, the stack operations move the height. *)
From Stdlib Require Import String Ascii.
From S2P Require Import Scanner StackSpec.
From S2P Require Export CompilerSpec.
Open Scope Z_scope.

(** The functions that are known, and the functions of the closures that are
    known. *)
Abbreviation Fns := (gmap objptr ObjFunction).
Abbreviation Closures := (gmap objptr objptr).

(** ** Functions that can be run *)
Definition fn_info (Φ : Fns) (f : ObjFunction) : FnInfo :=
  mkInfo (fconsts f) (upvalueCount f) (λ q, upvalueCount <$> Φ !! q).

Record good_fn (Φ : Fns) (f : ObjFunction) : Prop := {
  g_verified : verified (fn_info Φ f) (fcode f) (S (Z.to_nat (arity f)));
  g_arity : 0 ≤ arity f;
  g_bytes : Forall (λ b, 0 ≤ b < 256) (fcode f)
}.
Definition good (Φ : Fns) : Prop := ∀ p f, Φ !! p = Some f → good_fn Φ f.

Lemma fn_info_le Φ Φ' f : Φ ⊆ Φ' → info_le (fn_info Φ f) (fn_info Φ' f).
Proof.
  intros H. split; simpl; [exists []; by rewrite app_nil_r|done|]. intros p n Hn.
  apply fmap_Some in Hn as (g & Hg & ->). by rewrite (lookup_weaken _ _ _ _ Hg H).
Qed.

(** ** The frames

    The code of each frame is safe from its instruction pointer on, at the
    depth that the stack has in the frame; in the frame of a caller, with one
    value in place of the call. *)
Definition frame_ok (Φ : Fns) (K : Closures) (f : CallFrame) (d : nat) : Prop :=
  ∃ c p fn i, closure f = Some c ∧ K !! c = Some p ∧ Φ !! p = Some fn ∧ ip f = Z.of_nat i ∧
    safe (fn_info Φ fn) (fcode fn) (λ _ _, False) i d.
Fixpoint frames_ok (Φ : Fns) (K : Closures) (fs : list CallFrame) (k H : nat) : Prop :=
  match k with
  | O => True
  | S k' => ∃ f e, fs !! k' = Some f ∧ stackEntryIndex f = Z.of_nat e ∧ (e ≤ H)%nat ∧
      frame_ok Φ K f (H - e) ∧ frames_ok Φ K fs k' (S e)
  end.

Lemma frame_ok_mono Φ K Φ' K' f d : Φ ⊆ Φ' → K ⊆ K' → frame_ok Φ K f d → frame_ok Φ' K' f d.
Proof.
  intros HF HK (c & p & fn & i & H1 & H2 & H3 & H4 & H5). exists c, p, fn, i. split; [done|].
  split; [by eapply lookup_weaken|]. split; [by eapply lookup_weaken|]. split; [done|].
  by eapply safe_le; [apply fn_info_le|].
Qed.
Lemma frames_ok_mono Φ K Φ' K' fs k H : Φ ⊆ Φ' → K ⊆ K' → frames_ok Φ K fs k H → frames_ok Φ' K' fs k H.
Proof.
  intros HF HK. revert H. induction k as [|k IH]; intros H; [done|]. intros (f & e & H1 & H2 & H3 & H4 & H5).
  exists f, e. split; [done|]. split; [done|]. split; [done|]. split; [by eapply frame_ok_mono|by apply IH].
Qed.
(** The entries above do not matter. *)
Lemma frames_ok_insert Φ K fs k H i f : (k ≤ i)%nat → frames_ok Φ K fs k H → frames_ok Φ K (<[i := f]> fs) k H.
Proof.
  revert H. induction k as [|k IH]; intros H Hi; [done|]. intros (g & e & H1 & H2 & H3 & H4 & H5).
  exists g, e. split; [by rewrite list_lookup_insert_ne by lia|]. repeat (split; [done|]). apply IH; [lia|done].
Qed.

(** ** The shape of a routine *)
Record Shape := mkShape {
  sframes : list CallFrame; scount : nat; sheight : nat; sentry : option objptr; sarg : Value
}.
Definition set_height (h : nat) (S : Shape) : Shape := mkShape (sframes S) (scount S) h (sentry S) (sarg S).
Definition set_sframes (fs : list CallFrame) (k : nat) (S : Shape) : Shape := mkShape fs k (sheight S) (sentry S) (sarg S).

Record shaped (S : Shape) (R : ObjRoutine) : Prop := {
  sh_stack : wf_stack R;
  sh_add : addSlice R = true;
  sh_state : state R = EXEC_RUNNING;
  sh_frames : frames R = sframes S;
  sh_count : frameCount R = scount S;
  sh_height : length (stack_of R) = sheight S;
  sh_entry : entryFunction R = sentry S;
  sh_arg : entryArg R = sarg S
}.

Record World (Φ : Fns) (K : Closures) (s : VM) : Prop := {
  W_fns : ∀ p f, Φ !! p = Some f → vm_objects s !! p = Some (OBJ_FUNCTION f);
  W_closures : ∀ c cl, vm_objects s !! c = Some (OBJ_CLOSURE cl) →
    ∃ f, Φ !! function cl = Some f ∧ length (upvalues cl) = upvalueCount f;
  W_known : ∀ c p, K !! c = Some p → ∃ cl, vm_objects s !! c = Some (OBJ_CLOSURE cl) ∧ function cl = p
}.
Record At (r : objptr) (Φ : Fns) (K : Closures) (S : Shape) (s : VM) : Prop := {
  at_world : World Φ K s;
  at_routine : ∃ R, vm_objects s !! r = Some (OBJ_ROUTINE R) ∧ shaped S R
}.
(** The routine has an error: the loop ends. *)
Definition Failed (r : objptr) (s : VM) : Prop :=
  ∃ R, vm_objects s !! r = Some (OBJ_ROUTINE R) ∧ state R = EXEC_ERROR.

(** ** Objects that can be changed at will *)
Definition unknown (r : objptr) (Φ : Fns) (K : Closures) (p : objptr) : Prop := p ≠ r ∧ Φ !! p = None ∧ K !! p = None.

(** An object of the kinds that the invariant does not look at. *)
Definition plain (o : Obj) : bool :=
  match o with OBJ_FUNCTION _ | OBJ_CLOSURE _ | OBJ_ROUTINE _ => false | _ => true end.

Section Kept.
Variables (r : objptr) (Φ : Fns) (K : Closures) (S : Shape).
Abbreviation At := (At r Φ K S).
Abbreviation unknown := (unknown r Φ K).

Lemma at_objects s s' : vm_objects s' = vm_objects s → At s → At s'.
Proof. intros E [[W1 W2 W3] (R & HR & HS)]. split; [split|]; rewrite ?E; [done..|]. by exists R. Qed.

Lemma world_plain s p o : World Φ K s → vm_objects s !! p = Some o → plain o = true → Φ !! p = None ∧ K !! p = None.
Proof.
  intros [W1 W2 W3] Hp Ho. split.
  - destruct (Φ !! p) as [f|] eqn:E; [|done]. rewrite (W1 _ _ E) in Hp. by injection Hp as <-.
  - destruct (K !! p) as [q|] eqn:E; [|done]. destruct (W3 _ _ E) as (cl & H & _). rewrite H in Hp. by injection Hp as <-.
Qed.
Lemma at_plain s p o : At s → vm_objects s !! p = Some o → plain o = true → unknown p.
Proof.
  intros [W (R & HR & _)] Hp Ho. split; [|by apply (world_plain s p o)].
  intros ->. rewrite HR in Hp. by injection Hp as <-.
Qed.
Lemma at_other s p R : At s → vm_objects s !! p = Some (OBJ_ROUTINE R) → p ≠ r → unknown p.
Proof.
  intros [[W1 W2 W3] _] Hp Hr. split; [done|]. split.
  - destruct (Φ !! p) as [f|] eqn:E; [|done]. by rewrite (W1 _ _ E) in Hp.
  - destruct (K !! p) as [q|] eqn:E; [|done]. destruct (W3 _ _ E) as (cl & H & _). by rewrite H in Hp.
Qed.
Lemma at_fresh s : At s → unknown (fresh (dom (vm_objects s))).
Proof.
  intros [[W1 W2 W3] (R & HR & _)]. pose proof (is_fresh (dom (vm_objects s))) as Hf.
  rewrite elem_of_dom, <-eq_None_not_Some in Hf. set (p := fresh _) in *. split; [intros E; by rewrite <-E, Hf in HR|]. split.
  - destruct (Φ !! p) as [f|] eqn:E; [|done]. by rewrite (W1 _ _ E) in Hf.
  - destruct (K !! p) as [q|] eqn:E; [|done]. destruct (W3 _ _ E) as (cl & H & _). by rewrite H in Hf.
Qed.

(** A change of an object that is not known, to anything but a bad closure. *)
Lemma at_insert s p o : At s → unknown p →
  (∀ cl, o = OBJ_CLOSURE cl → ∃ f, Φ !! function cl = Some f ∧ length (upvalues cl) = upvalueCount f) →
  At (set_objects (<[p := o]> (vm_objects s)) s).
Proof.
  intros [[W1 W2 W3] (R & HR & HS)] (U1 & U2 & U3) Ho. split; [split|]; simpl.
  - intros q f Hq. rewrite lookup_insert_ne by congruence. by apply W1.
  - intros c cl. destruct (decide (c = p)) as [->|Hc].
    + rewrite lookup_insert_eq. intros [= ->]. by apply Ho.
    + rewrite lookup_insert_ne by done. apply W2.
  - intros c q Hc. rewrite lookup_insert_ne by congruence. by apply W3.
  - exists R. by rewrite lookup_insert_ne.
Qed.
(** A known closure keeps its function and the number of its upvalues. *)
Lemma at_closure s c cl us : At s → vm_objects s !! c = Some (OBJ_CLOSURE cl) → length us = length (upvalues cl) →
  At (set_objects (<[c := OBJ_CLOSURE (mkClosure (function cl) us)]> (vm_objects s)) s).
Proof.
  intros [[W1 W2 W3] (R & HR & HS)] Hc Hus. split; [split|]; simpl.
  - intros q f Hq. rewrite lookup_insert_ne; [by apply W1|]. intros <-. by rewrite (W1 _ _ Hq) in Hc.
  - intros c' cl'. destruct (decide (c' = c)) as [->|Hn].
    + rewrite lookup_insert_eq. intros [= <-]. simpl. rewrite Hus. by apply (W2 c).
    + rewrite lookup_insert_ne by done. apply W2.
  - intros c' q Hq. destruct (W3 _ _ Hq) as (cl' & H' & Hf). destruct (decide (c' = c)) as [->|Hn].
    + rewrite lookup_insert_eq. rewrite H' in Hc. injection Hc as <-. by eexists.
    + rewrite lookup_insert_ne by done. by exists cl'.
  - exists R. rewrite lookup_insert_ne; [done|]. intros ->. by rewrite HR in Hc.
Qed.
(** Another shape, or the same. *)
Lemma at_upd s S' R : RunInv.At r Φ K S' s → shaped S R → At (upd r R s).
Proof.
  intros [[W1 W2 W3] (R' & HR & _)] HS. split; [split|]; simpl.
  - intros q f Hq. rewrite lookup_insert_ne; [by apply W1|]. intros <-. by rewrite (W1 _ _ Hq) in HR.
  - intros c cl. destruct (decide (c = r)) as [->|Hc]; [by rewrite lookup_insert_eq|].
    rewrite lookup_insert_ne by done. apply W2.
  - intros c q Hq. destruct (W3 _ _ Hq) as (cl & H & Hf). rewrite lookup_insert_ne; [by exists cl|]. intros <-. by rewrite HR in H.
  - exists R. by rewrite lookup_insert_eq.
Qed.
End Kept.

(** ** Commands

    Commands that leave the functions, the closures and the shape of the
    routine alone, and those that move the height of its stack. *)
Section Keeps.
Context `{U : Uninit} `{TG : Target} `{HO : Host}.
Variables (r : objptr) (Φ : Fns) (K : Closures).
Abbreviation At := (At r Φ K).
Abbreviation unknown := (unknown r Φ K).

Definition keeps {A} (c : VMM A) : Prop := ∀ X s, At X s → post c s (λ _ s', At X s').

Lemma keeps_still {A} (c : VMM A) : still c → keeps c.
Proof. intros Hc X s H a s' E. eapply at_objects; [|exact H]. by eapply Hc. Qed.
Lemma keeps_seq {A B} (c : VMM A) (f : A → VMM B) : keeps c → (∀ a, keeps (f a)) → keeps (c ≫= f).
Proof. intros Hc Hf X s H. apply post_bind. intros a s1 E. by apply (Hf a X s1), (Hc X s H a). Qed.

(** The lookup of an object tells that it can be changed. *)
Lemma keeps_lookup {A B} (c : VMM A) (P : A → Prop) (f : A → VMM B) :
  still c → (∀ X s a s', At X s → c s = Some (a, s') → P a) → (∀ a, P a → keeps (f a)) → keeps (c ≫= f).
Proof.
  intros Hc HP Hf X s H. apply post_bind. intros a s1 E. apply (Hf a); [by eapply HP|]. by eapply keeps_still.
Qed.

Lemma get_obj_inv p s o s' : get_obj p s = Some (o, s') → s' = s ∧ vm_objects s !! p = Some o.
Proof.
  unfold get_obj, get_vm, mbind, st_bind, opt. destruct (vm_objects s !! p) as [o'|]; [|done]. by intros [= <- <-].
Qed.
Ltac get_inv := match goal with |- ?g _ ?s = _ → _ => unfold g, mbind, st_bind end;
  let E := fresh in destruct (get_obj _ _) as [[o ?]|] eqn:E; [|done];
  apply get_obj_inv in E as [-> E]; destruct o; try done; by intros [= <- <-].
Lemma get_routine_inv p s R s' : get_routine p s = Some (R, s') → s' = s ∧ vm_objects s !! p = Some (OBJ_ROUTINE R).
Proof. get_inv. Qed.
Lemma get_function_inv p s f s' : get_function p s = Some (f, s') → s' = s ∧ vm_objects s !! p = Some (OBJ_FUNCTION f).
Proof. get_inv. Qed.
Lemma get_closure_inv p s cl s' : get_closure p s = Some (cl, s') → s' = s ∧ vm_objects s !! p = Some (OBJ_CLOSURE cl).
Proof. get_inv. Qed.
Lemma get_upvalue_inv p s u s' : get_upvalue p s = Some (u, s') → s' = s ∧ vm_objects s !! p = Some (OBJ_UPVALUE u).
Proof. get_inv. Qed.
Lemma get_class_inv p s k s' : get_class p s = Some (k, s') → s' = s ∧ vm_objects s !! p = Some (OBJ_CLASS k).
Proof. get_inv. Qed.
Lemma get_map_inv p s m s' : get_map p s = Some (m, s') → s' = s ∧ vm_objects s !! p = Some (OBJ_MAP m).
Proof. get_inv. Qed.
Lemma get_channel_inv p s c s' : get_channel p s = Some (c, s') → s' = s ∧ vm_objects s !! p = Some (OBJ_CHANNELCONTAINER c).
Proof. get_inv. Qed.
Lemma the_obj_inv v s o s' : the_obj v s = Some (o, s') →
  s' = s ∧ o = (p ← obj_at v; x ← vm_objects s !! p; Some (p, x)).
Proof. by intros [= <- <-]. Qed.

Lemma still_get_upvalue p : still (get_upvalue p).
Proof. unfold get_upvalue. still. Qed.
Lemma still_get_map p : still (get_map p).
Proof. unfold get_map. still. Qed.
Lemma still_get_channel p : still (get_channel p).
Proof. unfold get_channel. still. Qed.
Lemma still_the_obj v : still (the_obj v).
Proof. unfold the_obj. still. Qed.
#[local] Hint Resolve still_get_upvalue still_get_map still_get_channel still_the_obj : still.

Lemma keeps_get_class {B} p (f : _ → VMM B) : (∀ k, unknown p → keeps (f k)) → keeps (get_class p ≫= f).
Proof.
  intros Hf. apply (keeps_lookup _ (λ _, unknown p)); [still| |done].
  intros X s k s' H [-> Hp]%get_class_inv. by eapply at_plain.
Qed.
Lemma keeps_get_upvalue {B} p (f : _ → VMM B) : (∀ k, unknown p → keeps (f k)) → keeps (get_upvalue p ≫= f).
Proof.
  intros Hf. apply (keeps_lookup _ (λ _, unknown p)); [still| |done].
  intros X s k s' H [-> Hp]%get_upvalue_inv. by eapply at_plain.
Qed.
Lemma keeps_get_map {B} p (f : _ → VMM B) : (∀ k, unknown p → keeps (f k)) → keeps (get_map p ≫= f).
Proof.
  intros Hf. apply (keeps_lookup _ (λ _, unknown p)); [still| |done].
  intros X s k s' H [-> Hp]%get_map_inv. by eapply at_plain.
Qed.
Lemma keeps_get_channel {B} p (f : _ → VMM B) : (∀ k, unknown p → keeps (f k)) → keeps (get_channel p ≫= f).
Proof.
  intros Hf. apply (keeps_lookup _ (λ _, unknown p)); [still| |done].
  intros X s k s' H [-> Hp]%get_channel_inv. by eapply at_plain.
Qed.
Lemma keeps_other {B} p (f : _ → VMM B) : p ≠ r → (∀ R, unknown p → keeps (f R)) → keeps (get_routine p ≫= f).
Proof.
  intros Hp Hf. apply (keeps_lookup _ (λ _, unknown p)); [still| |done].
  intros X s R s' H [-> HR]%get_routine_inv. by eapply at_other.
Qed.
Definition obj_unknown (o : option (objptr * Obj)) : Prop :=
  match o with Some (p, ob) => plain ob = true → unknown p | None => True end.
Lemma keeps_the_obj {B} v (f : _ → VMM B) : (∀ o, obj_unknown o → keeps (f o)) → keeps (the_obj v ≫= f).
Proof.
  intros Hf. apply (keeps_lookup _ obj_unknown); [still| |done].
  intros X s o s' H [-> ->]%the_obj_inv. destruct (obj_at v) as [p|]; [|done]. simpl.
  destruct (vm_objects s !! p) as [ob|] eqn:E; [|done]. simpl. intros Hpl. by eapply at_plain.
Qed.

Lemma keeps_put p o : unknown p → (∀ cl, o ≠ OBJ_CLOSURE cl) → keeps (put_obj p o).
Proof. intros Hp Ho X s H ? s' [= <- <-]. apply at_insert; [done|done|]. by intros cl ?%Ho. Qed.
Lemma keeps_new {B} o (f : _ → VMM B) : (∀ cl, o ≠ OBJ_CLOSURE cl) → (∀ p, unknown p → keeps (f p)) → keeps (new_obj o ≫= f).
Proof.
  intros Ho Hf X s H. apply post_bind. intros p s1 [= <- <-]. pose proof (at_fresh _ _ _ _ _ H) as Hp.
  apply (Hf _ Hp X). apply at_insert; [done|done|]. by intros cl ?%Ho.
Qed.
Lemma keeps_new_obj o : (∀ cl, o ≠ OBJ_CLOSURE cl) → keeps (new_obj o).
Proof.
  intros Ho X s H ? ? [= <- <-]. apply at_insert; [done|by apply (at_fresh r Φ K X)|]. by intros cl ?%Ho.
Qed.

(** ** The routine itself *)
Lemma shaped_stack X R st R' : shaped X R → with_stack R st R' → shaped (set_height (length st) X) R'.
Proof.
  intros [] (W & HS & E). injection E. intros. split; simpl; try congruence; try done.
Qed.
Lemma set_slot_shaped X R i c R' : shaped X R → set_slot R i c = Some R' → shaped X R'.
Proof.
  intros [[Hs Ht] Ha Hst Hf Hc Hh He Hg]. unfold set_slot. destruct (_ <? _); [|done].
  destruct (stackSlices R !! _) as [sl|] eqn:E; [|done]. cbn [mbind option_bind]. intros [= <-].
  assert (wf_stack (set_slices (<[Z.to_nat (i / SLICE_MAX) := <[Z.to_nat (i mod SLICE_MAX) := c]> sl]> (stackSlices R)) R)) as W.
  { split; simpl; [|by rewrite length_insert]. apply Forall_insert; [done|]. rewrite length_insert.
    by apply (Forall_lookup_1 _ _ _ _ Hs E). }
  split; try done. rewrite stack_length by done. rewrite stack_length in Hh by done. done.
Qed.
Lemma keeps_modify f : (∀ X R, shaped X R → shaped X (f R)) → keeps (modify_routine r f).
Proof.
  intros Hf X s H. pose proof (at_routine _ _ _ _ _ H) as (R & HR & HS). intros ? s'.
  rewrite (modify_routine_run _ _ _ _ HR). intros [= <- <-]. eapply at_upd; [exact H|by apply Hf].
Qed.
Lemma modify_at X Y s f : At X s → (∀ R, shaped X R → shaped Y (f R)) → post (modify_routine r f) s (λ _, At Y).
Proof.
  intros H Hf. pose proof (at_routine _ _ _ _ _ H) as (R & HR & HS). intros ? s'.
  rewrite (modify_routine_run _ _ _ _ HR). intros [= <- <-]. eapply at_upd; [exact H|by apply Hf].
Qed.
Lemma keeps_setCell d c : keeps (setCell r d c).
Proof.
  intros X s H. pose proof (at_routine _ _ _ _ _ H) as (R & HR & HS). unfold setCell.
  apply post_bind. intros R0 s0. rewrite (get_routine_run _ _ _ HR). intros [= <- <-].
  apply post_bind. unfold opt. destruct (set_slot R _ c) as [R'|] eqn:E; [|done]. intros ? ? [= <- <-].
  intros ? s' [= <- <-]. by eapply at_upd, set_slot_shaped.
Qed.
Lemma keeps_write p c : keeps (write_contents p c).
Proof.
  unfold write_contents. apply keeps_get_upvalue. intros u Hp. destruct (contents_ u) as [q i|].
  - destruct (decide (q = r)) as [->|Hq].
    + intros X s H. pose proof (at_routine _ _ _ _ _ H) as (R & HR & HS).
      apply post_bind. intros R0 s0. rewrite (get_routine_run _ _ _ HR). intros [= <- <-].
      apply post_bind. unfold opt. destruct (set_slot R _ c) as [R'|] eqn:E; [|done]. intros ? ? [= <- <-].
      intros ? s' [= <- <-]. by eapply at_upd, set_slot_shaped.
    + apply keeps_other; [done|]. intros R Hu. apply keeps_seq; [apply keeps_still; still|]. intros R'.
      by apply keeps_put.
  - by apply keeps_put.
Qed.

Definition small (X : Shape) : Prop := Z.of_nat (sheight X) < 2 ^ 31.
Lemma push_at X s v : At X s → small X → post (push r v) s (λ _, At (set_height (S (sheight X)) X)).
Proof.
  intros H Hb ? s' E. pose proof (at_routine _ _ _ _ _ H) as (R & HR & HS).
  destruct (push_run r v s R HR) as (R' & E' & HR' & _); [apply HS|unfold addressable, small in *; by rewrite (sh_height _ _ HS)|apply HS|].
  rewrite E' in E. injection E as <- <-. eapply at_upd; [exact H|]. pose proof (shaped_stack _ _ _ _ HS HR') as HX.
  rewrite length_app, (sh_height _ _ HS), Nat.add_1_r in HX. exact HX.
Qed.
Lemma popN_at X s n : At X s → small X → (n ≤ sheight X)%nat → post (popN r n) s (λ _, At (set_height (sheight X - n) X)).
Proof.
  intros H Hb Hn ? s' E. pose proof (at_routine _ _ _ _ _ H) as (R & HR & HS). pose proof (sh_height _ _ HS) as Hh.
  assert (length (drop (sheight X - n) (stack_of R)) = n) as Hd by (rewrite length_drop; lia).
  destruct (popN_run r (take (sheight X - n) (stack_of R)) (drop (sheight X - n) (stack_of R)) s R HR) as (R' & E' & HR' & _);
    [apply HS|unfold addressable, small in *; by rewrite Hh|by rewrite take_drop|].
  rewrite Hd, E in E'. assert (s' = upd r R' s) as -> by congruence. eapply at_upd; [exact H|]. pose proof (shaped_stack _ _ _ _ HS HR') as HX.
  by rewrite length_take, Nat.min_l in HX by lia.
Qed.
Lemma pop_at X s : At X s → small X → (1 ≤ sheight X)%nat → post (pop r) s (λ _, At (set_height (pred (sheight X)) X)).
Proof.
  intros H Hb Hn v s' E. assert (popN r 1 s = Some ((), s')) as E1.
  { cbn [popN]. by rewrite (st_bind_run _ _ _ _ _ E). }
  pose proof (popN_at X s 1 H Hb Hn _ _ E1) as HX. by replace (sheight X - 1)%nat with (pred (sheight X)) in HX by lia.
Qed.
Lemma replace_at X s n v : At X s → small X → (n ≤ sheight X)%nat →
  post (replace_top r n v) s (λ _, At (set_height (S (sheight X - n)) X)).
Proof.
  intros H Hb Hn. unfold replace_top. apply post_bind. eapply post_mono; [by apply (popN_at X)|].
  intros ? s1 H1. eapply post_mono; [apply (push_at _ _ _ H1); unfold small in *; simpl; lia|]. done.
Qed.

(** ** Errors *)
Lemma runtimeError_at X s m : At X s → post (runtimeError r m) s (λ _, Failed r).
Proof.
  intros H. pose proof (at_routine _ _ _ _ _ H) as (R & HR & _). unfold runtimeError.
  apply post_bind. intros k s1 E1. apply still_intern in E1. apply post_bind. intros R1 s2 [-> HR1]%get_routine_inv.
  apply post_bind. intros ks s3 E3. apply still_trace in E3. apply post_bind. intros e s4 E4. apply still_strings in E4.
  assert (vm_objects s4 !! r = Some (OBJ_ROUTINE R1)) as HR4 by (by rewrite E4, E3).
  intros ? s'. rewrite (modify_routine_run _ _ _ _ HR4). intros [= <- <-]. eexists. split; [apply upd_eq|done].
Qed.
End Keeps.

(** ** Commands that only read *)
#[export] Hint Resolve still_get_upvalue still_get_map still_get_channel still_the_obj still_valueToString still_strings
  still_trace : still.

Section Reads.
Context `{U : Uninit} `{TG : Target} `{HO : Host}.
Ltac head_of t := match t with ?f _ => head_of f | _ => t end.
Ltac reads := intros; match goal with |- still ?c => let h := head_of c in unfold h end; still.

Lemma still_ints {A} (c : M A) : still (vm_ints c).
Proof. apply still_heap. Qed.
Lemma still_peekCell r d : still (peekCell r d).
Proof. reads. Qed.
#[local] Hint Resolve still_ints still_peekCell : still.
Lemma still_peek r d : still (peek r d).
Proof. reads. Qed.
Lemma still_get_frame r fi : still (get_frame r fi).
Proof. reads. Qed.
#[local] Hint Resolve still_peek still_get_frame : still.
Lemma still_frameSlot r f i : still (frameSlot r f i).
Proof. reads. Qed.
Lemma still_frame_function r fi : still (frame_function r fi).
Proof. reads. Qed.
Lemma still_frame_upvalue r fi i : still (frame_upvalue r fi i).
Proof. reads. Qed.
Lemma still_as_string v : still (as_string v).
Proof. reads. Qed.
Lemma still_as_obj v : still (as_obj v).
Proof. reads. Qed.
Lemma still_as_yargtype v : still (as_yargtype v).
Proof. reads. Qed.
Lemma still_table_get t k : still (table_get t k).
Proof. reads. Qed.
Lemma still_table_set t k v : still (table_set t k v).
Proof. reads. Qed.
Lemma still_field_index st k : still (field_index st k).
Proof. reads. Qed.
Lemma still_undefined_property k : still (undefined_property k).
Proof. reads. Qed.
Lemma still_read u : still (read_contents u).
Proof. reads. Qed.
Lemma still_find n prev cur o : still (find_upvalue n prev cur o).
Proof. revert prev cur. induction n as [|n IH]; intros prev cur; simpl; [still|]. still; apply IH. Qed.
Lemma still_upvalue_fuel : still upvalue_fuel.
Proof. reads. Qed.
Lemma still_assert b : still (st_assert b).
Proof. destruct b; [apply still_ret|by intros v a v']. Qed.
Lemma still_pair a b : still (resultPair a b).
Proof. unfold resultPair, allocValueStructPair. still. Qed.
End Reads.
#[export] Hint Resolve still_ints still_peekCell still_peek still_get_frame still_frameSlot still_frame_function
  still_frame_upvalue still_as_string still_as_obj still_as_yargtype still_table_get still_table_set still_field_index
  still_undefined_property still_read still_find still_upvalue_fuel still_assert still_pair : still.

(** ** Automation *)
Create HintDb keeps.
#[export] Hint Resolve keeps_put keeps_new_obj keeps_setCell keeps_write : keeps.
#[export] Hint Extern 1 (∀ _, _ ≠ OBJ_CLOSURE _) => discriminate : keeps.
#[export] Hint Extern 1 (_ ≠ OBJ_CLOSURE _) => discriminate : keeps.

(** Follow the commands; the lookups tell what may be changed. *)
Ltac keep_step :=
  match goal with
  | |- keeps _ _ _ (put_routine _ _) => unfold put_routine
  | |- keeps _ _ _ (put_upvalue _ _) => unfold put_upvalue
  | |- keeps _ _ _ (get_class _ ≫= _) => apply keeps_get_class; intros ? ?
  | |- keeps _ _ _ (get_upvalue _ ≫= _) => apply keeps_get_upvalue; intros ? ?
  | |- keeps _ _ _ (get_map _ ≫= _) => apply keeps_get_map; intros ? ?
  | |- keeps _ _ _ (get_channel _ ≫= _) => apply keeps_get_channel; intros ? ?
  | |- keeps _ _ _ (the_obj _ ≫= _) => apply keeps_the_obj; intros [[? []]|] ?; simpl in *
  | |- keeps _ _ _ (new_obj _ ≫= _) => apply keeps_new; [discriminate|intros ? ?]
  | |- keeps _ _ _ (_ ≫= _) => apply keeps_seq; [|intros ?]
  | |- keeps _ _ _ (let '(_, _) := ?x in _) => destruct x
  | |- keeps _ _ _ (match ?x with _ => _ end) => destruct x
  | |- keeps _ _ _ (if ?x then _ else _) => destruct x
  end.
Ltac keep := repeat first [ solve [apply keeps_still; still] | solve [eauto 4 with keeps] | keep_step ].

Section Kept.
Context `{U : Uninit} `{TG : Target} `{HO : Host}.
Variables (r : objptr) (Φ : Fns) (K : Closures).
Abbreviation keeps := (keeps r Φ K).

Lemma keeps_setOpen p : keeps (modify_routine r (set_openUpvalues p)).
Proof. apply keeps_modify. intros X R [[] ? ? ? ? ? ? ?]. by split. Qed.
Lemma keeps_setResult v : keeps (modify_routine r (set_result v)).
Proof. apply keeps_modify. intros X R [[] ? ? ? ? ? ? ?]. by split. Qed.
#[local] Hint Resolve keeps_setOpen keeps_setResult : keeps.
Lemma keeps_capture i o : keeps (captureUpvalue r i o).
Proof. unfold captureUpvalue, insert_upvalue, newUpvalue. keep. Qed.
Lemma keeps_close n last : keeps (close_upvalues n r last).
Proof. induction n as [|n IH]; simpl; keep; apply IH. Qed.
#[local] Hint Resolve keeps_capture keeps_close : keeps.
Lemma keeps_closeUpvalues last : keeps (closeUpvalues r last).
Proof. unfold closeUpvalues. keep. Qed.
Lemma keeps_promote : keeps (promote_top r).
Proof. unfold promote_top. keep. Qed.
Lemma keeps_newBuiltin b : keeps (newBuiltin b).
Proof. unfold newBuiltin. keep. Qed.
Lemma keeps_getBuiltin b : keeps (getBuiltin b).
Proof. unfold getBuiltin, newBuiltin. keep. Qed.
End Kept.
#[export] Hint Resolve keeps_setOpen keeps_setResult keeps_capture keeps_closeUpvalues keeps_promote keeps_newBuiltin
  keeps_getBuiltin : keeps.
