(* ===== verification/RunOps.v ===== *)
(** * The instructions of one frame

    How the code of a frame is read, the tactic that follows the commands of an
    instruction and keeps account of the height of the stack, and what an
    instruction does that goes on behind its operands, in the same frame: it
    moves the height as [Verify.effect] says, or ends in an error. *)
From Stdlib Require Import String Ascii.
From S2P Require Import Scanner StackSpec.
From S2P Require Export RunInv.
Open Scope Z_scope.

Section Frame.
Context `{U : Uninit} `{TG : Target} `{HO : Host}.
Variables (r : objptr) (Φ : Fns) (K : Closures).
(** The frame [fi] of the closure [c], with the function [fn]. *)
Variables (fs : list CallFrame) (k fi : nat) (ef : option objptr) (ea : Value).
Variables (c p : objptr) (fn : ObjFunction) (e : nat).
Hypothesis Hfi : (fi < length fs)%nat.
Hypothesis Hc : K !! c = Some p.
Hypothesis Hp : Φ !! p = Some fn.
Hypothesis HB : Forall (λ b, 0 ≤ b < 256) (fcode fn).

(** The frame at the offset [i] of its code, with [h] values on the stack. *)
Definition here (i h : nat) : Shape :=
  mkShape (<[fi := mkFrame (Some c) (Z.of_nat i) (Z.of_nat e)]> fs) k h ef ea.
Abbreviation At := (At r Φ K).
Abbreviation at_ i h := (At (here i h)).

(** ** Reading the code *)
Lemma frame_here i h s R : at_ i h s → vm_objects s !! r = Some (OBJ_ROUTINE R) →
  frames R !! fi = Some (mkFrame (Some c) (Z.of_nat i) (Z.of_nat e)).
Proof.
  intros H HR. destruct (at_routine _ _ _ _ _ H) as (R' & HR' & HS). rewrite HR in HR'. injection HR' as <-.
  rewrite (sh_frames _ _ HS). simpl. by apply list_lookup_insert_eq.
Qed.
Lemma frame_run i h s : at_ i h s → get_frame r fi s = Some (mkFrame (Some c) (Z.of_nat i) (Z.of_nat e), s).
Proof.
  intros H. destruct (at_routine _ _ _ _ _ H) as (R & HR & HS). unfold get_frame.
  rewrite (st_bind_run _ _ _ _ _ (get_routine_run _ _ _ HR)). by rewrite (frame_here i h s R).
Qed.
Lemma closure_run i h s : at_ i h s → ∃ cl, get_closure c s = Some (cl, s) ∧ function cl = p ∧
  vm_objects s !! c = Some (OBJ_CLOSURE cl).
Proof.
  intros [W _]. destruct (W_known _ _ _ W _ _ Hc) as (cl & Hcl & Hf). exists cl. by rewrite (get_closure_run _ _ _ Hcl).
Qed.
Lemma function_run i h s : at_ i h s → frame_function r fi s = Some (fn, s).
Proof.
  intros H. unfold frame_function. rewrite (st_bind_run _ _ _ _ _ (frame_run i h s H)). cbv beta.
  rewrite (st_bind_run _ _ _ _ _ (opt_run (Some c) c s eq_refl)). destruct (closure_run i h s H) as (cl & E & Hf & _).
  rewrite (st_bind_run _ _ _ _ _ E), Hf. apply get_function_run, (W_fns _ _ _ (at_world _ _ _ _ _ H)), Hp.
Qed.
Lemma move_at i i' h s z : at_ i h s → Z.of_nat i' = Z.of_nat i + z → post (move_ip r fi z) s (λ _, at_ i' h).
Proof.
  intros H Hz. unfold move_ip. apply post_bind. intros f s1. rewrite (frame_run i h s H). intros [= <- <-].
  eapply modify_at; [exact H|]. intros R [[] ? ? Hf ? Hh ? ?]. split; try done. simpl. rewrite Hf. simpl.
  rewrite list_insert_insert_eq. unfold set_ip. simpl. by rewrite Hz.
Qed.
Lemma read_at i h s : at_ i h s → post (READ_BYTE r fi) s (λ b s', fcode fn !! i = Some b ∧ at_ (S i) h s').
Proof.
  intros H. unfold READ_BYTE. apply post_bind. intros f s1. rewrite (frame_run i h s H). intros [= <- <-].
  apply post_bind. intros g s1. rewrite (function_run i h s H). intros [= <- <-].
  apply post_bind. intros b s1. simpl. rewrite (proj2 (Z.leb_le _ _)), Nat2Z.id by lia.
  unfold opt. fold (fcode fn). destruct (fcode fn !! i) as [b'|] eqn:E; [|done]. intros [= <- <-].
  apply post_bind. eapply post_mono; [apply (move_at i (S i) h s 1 H); lia|]. intros ? s' H'. by apply post_ret.
Qed.
Lemma read_short_at i h s : at_ i h s → post (READ_SHORT r fi) s (λ j s',
  ∃ hi lo, fcode fn !! i = Some hi ∧ fcode fn !! S i = Some lo ∧ 0 ≤ j ∧ j = 256 * hi + lo ∧ at_ (S (S i)) h s').
Proof.
  intros H. unfold READ_SHORT. apply post_bind. eapply post_mono; [by apply read_at|]. intros hi s1 [E1 H1].
  apply post_bind. eapply post_mono; [by apply read_at|]. intros lo s2 [E2 H2]. apply post_ret. exists hi, lo.
  split; [done|]. split; [done|]. pose proof (Forall_lookup_1 _ _ _ _ HB E1) as B1. pose proof (Forall_lookup_1 _ _ _ _ HB E2) as B2.
  simpl in B1, B2. assert (Z.lor (Z.shiftl hi 8) lo = 256 * hi + lo) as ->; [|split; [lia|done]].
  enough (Z.land (Z.shiftl hi 8) lo = 0) as E.
  { pose proof (Z.add_lor_land (Z.shiftl hi 8) lo) as HL. rewrite E, (Z.shiftl_mul_pow2 hi 8) in HL by lia. rewrite (Z.shiftl_mul_pow2 hi 8) by lia.
    change (2 ^ 8) with 256 in *. lia. }
  rewrite <-(Z.mod_small lo (2 ^ 8)) by (simpl; lia). rewrite <-Z.land_ones by lia. apply Z.bits_inj'. intros n Hn.
  rewrite !Z.land_spec, Z.bits_0. destruct (decide (n < 8)).
  - by rewrite Z.shiftl_spec_low.
  - rewrite Z.ones_spec_high by lia. by rewrite !andb_false_r.
Qed.
Lemma read_constant_at i h s : at_ i h s → post (READ_CONSTANT r fi) s (λ v s',
  ∃ b, fcode fn !! i = Some b ∧ constant (fn_info Φ fn) b = Some v ∧ at_ (S i) h s').
Proof.
  intros H. unfold READ_CONSTANT. apply post_bind. eapply post_mono; [by apply read_at|]. intros b s1 [E1 H1].
  apply post_bind. intros g s2. rewrite (function_run _ _ _ H1). intros [= <- <-]. cbv zeta. intros v s2. unfold opt.
  destruct (Z.ltb_spec b (Z.of_nat (acount (constants (chunk fn))))) as [Hb|]; [|done].
  destruct (avalues _ !! _) as [v'|] eqn:E; [|done]. intros [= <- <-]. exists b. split; [done|]. split; [|done].
  pose proof (Forall_lookup_1 _ _ _ _ HB E1) as Hb'. simpl in Hb'.
  unfold constant. simpl. unfold fconsts, used. rewrite lookup_take_lt by lia. done.
Qed.
Lemma skip_constant_at i h s : at_ i h s → post (READ_CONSTANT r fi) s (λ _, at_ (S i) h).
Proof. intros H. eapply post_mono; [by apply read_constant_at|]. by intros v s' (b & _ & _ & H'). Qed.
Lemma read_string_at i h s : at_ i h s → post (READ_STRING r fi) s (λ _, at_ (S i) h).
Proof.
  intros H. unfold READ_STRING. apply post_bind. eapply post_mono; [by apply read_constant_at|].
  intros v s1 (b & _ & _ & H1). by apply (keeps_still r Φ K (as_string v)); [still|].
Qed.

Lemma read_byte_at i h s : at_ i h s → post (READ_BYTE r fi) s (λ _, at_ (S i) h).
Proof. intros H. eapply post_mono; [by apply read_at|]. by intros b s' [_ H']. Qed.

(** ** Following a command *)
Definition ok (i h : nat) (s : VM) : Prop := Failed r s ∨ at_ i h s.
Definition next (i h : nat) (t : Turn) (s : VM) : Prop :=
  match t with Exit _ => True | Go fi' => Failed r s ∨ (fi' = fi ∧ at_ i h s) end.

Lemma at_eq i h i' h' s : at_ i h s → i = i' → h = h' → at_ i' h' s.
Proof. by intros H <- <-. Qed.
Lemma next_stays i h s : at_ i h s → next i h (Go fi) s.
Proof. intros H. by right. Qed.
Lemma post_fails m s i h : post (fails r m) s (next i h).
Proof. apply post_bind. intros ? s1 _. by apply post_ret. Qed.
Lemma post_exit {A} (cmd : VMM A) x s i h : post (cmd ≫= λ _ : A, mret (Exit x)) s (next i h).
Proof. apply post_bind. intros ? s1 _. by apply post_ret. Qed.
Lemma post_keep {A} (cmd : VMM A) X s : At X s → keeps r Φ K cmd → post cmd s (λ _, At X).
Proof. intros H Hk. by apply Hk. Qed.
Lemma post_the_obj {B} v (f : _ → VMM B) X s Q :
  At X s → (∀ o, obj_unknown r Φ K o → post (f o) s Q) → post (the_obj v ≫= f) s Q.
Proof.
  intros H Hf. apply post_bind. intros o s1 [-> ->]%the_obj_inv. apply Hf. destruct (obj_at v) as [q|]; [|done]. simpl.
  destruct (vm_objects s !! q) as [ob|] eqn:E; [|done]. simpl. intros Hpl. by eapply at_plain.
Qed.
Lemma post_get_class {B} q (f : _ → VMM B) X s Q :
  At X s → (∀ a, unknown r Φ K q → post (f a) s Q) → post (get_class q ≫= f) s Q.
Proof. intros H Hf. apply post_bind. intros a s1 [-> Hq]%get_class_inv. apply Hf. by eapply at_plain. Qed.
Lemma post_go {A} i h (cmd : VMM A) s : post cmd s (λ _, ok i h) → post (cmd ≫= λ _ : A, mret (Go fi)) s (next i h).
Proof.
  intros H. apply post_bind. eapply post_mono; [exact H|]. intros ? s1 H1. apply post_ret.
  destruct H1 as [H1|H1]; [by left|by right].
Qed.
End Frame.

(** [cmd H] runs one command from a state with the shape that [H] gives;
    [run] all of them, up to the end of the instruction. *)
Ltac heights := unfold small, here, set_height in *; simpl in *; lia.
Ltac shape := match goal with
  | H : At ?r ?F ?K ?X ?s |- At ?r ?F ?K ?Y ?s => first [exact H | eapply at_eq; [exact H|heights|heights]]
  end.
Ltac leaf := unfold ok, next; first [done | exact I | assumption | by left | by right; shape | by right; split; [|shape] | shape].
(** The procedures that have lemmas of their own. *)
Ltac procedure H := fail.
Ltac cmd H := first [ procedure H | lazymatch goal with
  | |- post (push _ _) _ _ => eapply push_at; [exact H|heights]
  | |- post (replace_top _ _ _) _ _ => eapply replace_at; [exact H|heights|heights]
  | |- post (popN _ _) _ _ => eapply popN_at; [exact H|heights|heights]
  | |- post (pop _) _ _ => eapply pop_at; [exact H|heights|heights]
  | |- post (runtimeError _ _) _ _ => eapply runtimeError_at; exact H
  | |- post (READ_STRING _ _) _ _ => eapply read_string_at; [eassumption..|exact H]
  | |- post (READ_CONSTANT _ _) _ _ => eapply skip_constant_at; [eassumption..|exact H]
  | |- post (READ_BYTE _ _) _ _ => eapply read_byte_at; [eassumption..|exact H]
  | |- _ => eapply post_keep; [exact H|solve [keep]]
  end ].
Ltac outcomes := repeat match goal with
  | H : ok _ _ _ _ _ _ _ _ _ _ _ _ _ |- _ => destruct H as [H|H]
  | H : context [if ?b then _ else _] |- _ => is_var b; destruct b
  end.
Ltac continue := cbv beta; lazymatch goal with |- post _ _ _ => idtac | |- _ => leaf end.
Ltac run_step := cbv zeta; lazymatch goal with
  | |- post (mret _) _ _ => apply post_ret; continue
  | |- post vm_fail _ _ => by intros ? ?
  | |- post (fails _ _) _ (next _ _ _ _ _ _ _ _ _ _ _ _) => apply post_fails
  | |- post (_ ;; mret (Exit _)) _ (next _ _ _ _ _ _ _ _ _ _ _ _) => apply post_exit
  | |- post (_ ;; mret (Go _)) _ (next _ _ _ _ _ _ _ _ _ _ _ _) => apply post_go
  | H : At _ _ _ _ ?s |- post (the_obj _ ≫= _) ?s _ => eapply post_the_obj; [exact H|intros [[? []]|] ?; simpl in *]
  | H : At _ _ _ _ ?s |- post (get_class _ ≫= _) ?s _ => eapply post_get_class; [exact H|intros ? ?]
  | |- post (match ?x with _ => _ end) _ _ => destruct x eqn:?
  | |- post (_ ≫= _) _ _ => apply post_bind
  | H : At _ _ _ _ ?s |- post _ ?s _ => eapply post_mono; [cmd H|cbv beta; clear H; intros ? ? ?; outcomes; continue]
  end.
Ltac run := intros; repeat run_step.

(** ** Procedures *)
Section Procedures.
Context `{U : Uninit} `{TG : Target} `{HO : Host}.
Variables (r : objptr) (Φ : Fns) (K : Closures).
Variables (fs : list CallFrame) (k fi : nat) (ef : option objptr) (ea : Value).
Variables (c : objptr) (e : nat).
Abbreviation at_ i h := (At r Φ K (here fs k fi ef ea c e i h)).
Abbreviation ok := (ok r Φ K fs k fi ef ea c e).

(** The instruction pointer is at [i], and the stack has the height [h]. *)
Variables (i h : nat) (s : VM).
Hypothesis H : at_ i h s.
Hypothesis Hh : Z.of_nat h + 8 < 2 ^ 31.

Lemma bindMethod_at q name : (1 ≤ h)%nat → post (bindMethod r q name) s (λ _, ok i h).
Proof. unfold bindMethod, newBoundMethod. run. Qed.
Lemma defineMethod_at name : (2 ≤ h)%nat → post (defineMethod r name) s (λ _, ok i (pred h)).
Proof. unfold defineMethod. run. Qed.
Lemma derefArrayElement_at : (2 ≤ h)%nat → post (derefArrayElement_vm r) s (λ _, ok i (pred h)).
Proof. unfold derefArrayElement_vm. run. Qed.
Lemma derefMapElement_at : (2 ≤ h)%nat → post (derefMapElement r) s (λ _, ok i (pred h)).
Proof. unfold derefMapElement. run. Qed.
Lemma derefStructElement_at : (2 ≤ h)%nat → post (derefStructElement_vm r) s (λ _, ok i (pred h)).
Proof. unfold derefStructElement_vm. run. Qed.
Lemma setAnArrayElement_at array index rhs : post (setAnArrayElement_vm r array index rhs) s
  (λ b s', if b then at_ i h s' else Failed r s').
Proof. unfold setAnArrayElement_vm. run. Qed.
Lemma setMapElement_at q key rhs : unknown r Φ K q → post (setMapElement r q key rhs) s
  (λ b s', if b then at_ i h s' else Failed r s').
Proof. unfold setMapElement. run. Qed.
Lemma derefPtr_at : (1 ≤ h)%nat → post (derefPtr r) s (λ _, ok i h).
Proof. unfold derefPtr. run. Qed.
Lemma concatenate_at : (2 ≤ h)%nat → post (concatenate r) s (λ _, ok i (pred h)).
Proof. unfold concatenate. run. Qed.
Lemma close_upvalues_at : (1 ≤ h)%nat → post (op_close_upvalues r) s (λ _, ok i (pred h)).
Proof. unfold op_close_upvalues. run. Qed.
End Procedures.

(** The lemmas above are for procedures in the middle of an instruction. *)
Ltac procedure H ::= (lazymatch goal with
  | |- post (bindMethod _ _ _) _ _ => eapply bindMethod_at
  | |- post (derefArrayElement_vm _) _ _ => eapply derefArrayElement_at
  | |- post (derefMapElement _) _ _ => eapply derefMapElement_at
  | |- post (derefStructElement_vm _) _ _ => eapply derefStructElement_at
  | |- post (setAnArrayElement_vm _ _ _ _) _ _ => eapply setAnArrayElement_at
  | |- post (setMapElement _ _ _ _) _ _ => eapply setMapElement_at
  | |- post (concatenate _) _ _ => eapply concatenate_at
  end); first [exact H | heights | by auto].

Section Instructions.
Context `{U : Uninit} `{TG : Target} `{HO : Host}.
Variables (r : objptr) (Φ : Fns) (K : Closures).
Variables (fs : list CallFrame) (k fi : nat) (ef : option objptr) (ea : Value).
Variables (c p : objptr) (fn : ObjFunction) (e : nat).
Hypothesis Hfi : (fi < length fs)%nat.
Hypothesis Hc : K !! c = Some p.
Hypothesis Hp : Φ !! p = Some fn.
Hypothesis HB : Forall (λ b, 0 ≤ b < 256) (fcode fn).
Abbreviation at_ i h := (At r Φ K (here fs k fi ef ea c e i h)).
Abbreviation next := (next r Φ K fs k fi ef ea c e).
Abbreviation ok := (ok r Φ K fs k fi ef ea c e).
(** What an operator does with two values. *)
Lemma outcome_at i h h' s n o E : at_ i h s → Z.of_nat h + 8 < 2 ^ 31 → (n ≤ h)%nat → h' = S (h - n) →
  (match o with OffsetPointer | Concatenate => n = 2%nat | _ => True end) →
  (∀ s', post E s' (next i h')) → post (Vm.outcome r n o E fi) s (next i h').
Proof. intros H Hh Hn -> Ho HE. unfold Vm.outcome. destruct o; [run|subst n; run|subst n; run|apply HE]. Qed.

Variables (i h : nat) (s : VM).
Hypothesis H : at_ i h s.
Hypothesis Hh : Z.of_nat h + 8 < 2 ^ 31.

(** ** Values and variables *)
Lemma immediate_at neg n : (1 ≤ n ≤ 3)%nat → post (op_immediate_turn r fi neg n) s (next (i + n) (S h)).
Proof.
  intros Hn. unfold op_immediate_turn.
  destruct n as [|[|[|[|n]]]]; try lia; cbn [Nat.ltb Nat.leb]; run.
Qed.
Lemma set_local_at : post (op_set_local r fi) s (next (S i) h).
Proof. unfold op_set_local, assign_cell, setFrameSlot. run. Qed.
Lemma get_local_at : post (op_get_local r fi) s (next (S i) (S h)).
Proof. unfold op_get_local. run. Qed.
Lemma get_global_at : post (op_get_global r fi) s (next (S i) (S h)).
Proof. unfold op_get_global, undefined_variable. run. Qed.
Lemma define_global_at : (1 ≤ h)%nat → post (op_define_global r fi) s (next (S i) (pred h)).
Proof. unfold op_define_global. run. Qed.
Lemma set_global_at : post (op_set_global r fi) s (next (S i) h).
Proof. unfold op_set_global, undefined_variable, assign_cell. run. Qed.
Lemma initialise_at : (2 ≤ h)%nat → post (op_initialise r fi) s (next i (pred h)).
Proof. unfold op_initialise. run. Qed.
Lemma duplicate_at : (1 ≤ h)%nat → post (op_duplicate r fi) s (next i h).
Proof. unfold op_duplicate. run. Qed.
Lemma get_upvalue_at : post (op_get_upvalue r fi) s (next (S i) (S h)).
Proof. unfold op_get_upvalue. run. Qed.
Lemma set_upvalue_at : post (op_set_upvalue r fi) s (next (S i) h).
Proof. unfold op_set_upvalue, assign_cell. run. Qed.

(** ** Properties and elements *)
Lemma deref_element_at : (2 ≤ h)%nat → post (op_deref_element r) s (λ _, ok i (pred h)).
Proof. unfold op_deref_element. run. Qed.
Lemma set_element_at : (3 ≤ h)%nat → post (op_set_element r) s (λ _, ok i (h - 2)).
Proof. unfold op_set_element. run. Qed.
Lemma get_property_at : (1 ≤ h)%nat → post (op_get_property r fi) s (next (S i) h).
Proof. unfold op_get_property, Step.no_field. run. Qed.
Lemma set_property_at : (2 ≤ h)%nat → post (op_set_property r fi) s (next (S i) (pred h)).
Proof. unfold op_set_property, Step.no_field. run. Qed.
Lemma get_super_at : (2 ≤ h)%nat → post (op_get_super r fi) s (next (S i) (pred h)).
Proof. unfold op_get_super. run. Qed.
Lemma close_upvalue_at : (1 ≤ h)%nat → post (op_close_upvalues r ;; mret (Go fi)) s (next i (pred h)).
Proof. intros Hn. apply post_go. by eapply close_upvalues_at. Qed.

(** ** Operators *)
Lemma binary_at op E : (2 ≤ h)%nat → (∀ s', post E s' (next i (pred h))) → post (binary r op E fi) s (next i (pred h)).
Proof. intros Hn HE. unfold binary. do 8 run_step. apply (outcome_at i h); [done|done|lia|lia|by case_match|done]. Qed.
Lemma compare_at op sign : (2 ≤ h)%nat → post (compare r op sign fi) s (next i (pred h)).
Proof.
  intros Hn. unfold compare. do 4 run_step.
  assert (∀ s', at_ i h s' → post (s ← get_vm; binary r (compare_vals (vm_loc s) op) (type_error r sign numbers) fi) s'
    (next i (pred h))) as Hb.
  { intros s2 H2. apply post_bind. eapply post_mono; [by apply (post_keep _ _ _ _ _ _ H2), keeps_still, still_get|].
    intros v s3 H3. cbv beta in H3 |- *. unfold binary. do 8 run_step. apply (outcome_at i h); [done|done|lia|lia|by case_match|]. intros s4. apply post_exit. }
  destruct a, a0; try (by apply Hb). do 2 run_step. apply (outcome_at i h); [done|done|lia|lia|by case_match|]. by intros ? ?.
Qed.
Lemma negate_outcome v t : post (op_negate v) t (λ o _, match o with OffsetPointer | Concatenate => False | _ => True end).
Proof.
  destruct v; simpl; repeat first [apply post_bind; intros ? ? _ | case_match | by apply post_ret].
Qed.
Lemma negate_at : (1 ≤ h)%nat →
  post (v ← peek r 0; o ← vm_ints (op_negate v); Vm.outcome r 1 o (fails r (codes "Operand must be a number or integer.")) fi) s
    (next i h).
Proof.
  intros Hn. do 2 run_step. apply post_bind. intros o s2 E. pose proof (still_ints _ _ _ _ E) as Ho.
  assert (match o with OffsetPointer | Concatenate => False | _ => True end) as Hk.
  { unfold vm_ints, with_heap, with_ints in E. destruct (op_negate a _) as [[o' t']|] eqn:En; [|done].
    injection E as <- _. exact (negate_outcome _ _ _ _ En). }
  apply (outcome_at i h); [eapply at_objects; [exact Ho|exact H]|done|lia|lia|by case_match|]. intros s4. apply post_fails.
Qed.

(** ** Struct types *)
Lemma type_struct_loop_at n : ∀ i h s st, at_ i h s → Z.of_nat h + 8 < 2 ^ 31 → (3 * n ≤ h)%nat →
  post (type_struct_loop r n st) s (λ st s', match st with Some _ => at_ i (h - 3 * n) s' | None => True end).
Proof.
  induction n as [|n IH]; intros i1 h1 s1 st H1 Hb Hn; cbn [type_struct_loop].
  { apply post_ret. by replace (h1 - 3 * 0)%nat with h1 by lia. }
  clear H. do 14 run_step.
  destruct a5; [|by apply post_ret]. apply post_bind. eapply post_mono; [cmd H|]. cbv beta. intros ? s2 H2.
  eapply post_mono; [apply (IH i1 (h1 - 3)%nat); [exact H2|lia|lia]|]. intros [st'|] s3 H3; [|done].
  eapply at_eq; [exact H3|done|lia].
Qed.
Lemma type_struct_at b : fcode fn !! i = Some b → (3 * Z.to_nat b ≤ h)%nat →
  post (op_type_struct_turn r fi) s (next (S i) (S (h - 3 * Z.to_nat b))).
Proof.
  intros Eb Hn. unfold op_type_struct_turn. apply post_bind. eapply post_mono; [eapply read_at; [exact Hfi|exact Hc|exact Hp|exact H]|].
  clear H. intros b' s1 [E H]. rewrite Eb in E. injection E as <-. do 4 run_step. apply post_bind.
  eapply post_mono; [apply (type_struct_loop_at _ (S i) h); [exact H|lia|done]|]. clear H. cbv beta. intros [st|] s4 H; run.
Qed.

(** ** Output *)
Lemma print_at : (1 ≤ h)%nat → post (op_print r fi) s (next i (pred h)).
Proof. unfold op_print. run. Qed.
Lemma poke_at : (2 ≤ h)%nat → post (op_poke r fi) s (next i (h - 2)).
Proof. unfold op_poke. run. Qed.

(** ** Classes *)
Lemma class_at : post (op_class r fi) s (next (S i) (S h)).
Proof. unfold op_class, newClass. run. Qed.
Lemma inherit_at : (2 ≤ h)%nat → post (op_inherit r fi) s (next i (pred h)).
Proof. unfold op_inherit. run. Qed.

(** ** Types and pointers *)
Lemma type_literal_at : post (op_type_literal r fi) s (next (S i) (S h)).
Proof. unfold op_type_literal. run. Qed.
Lemma type_collection_at : (2 ≤ h)%nat → post (op_type_indexed_collection_turn r fi) s (next i (pred h)).
Proof. unfold op_type_indexed_collection_turn. run. Qed.
Lemma set_cell_type_at : (1 ≤ h)%nat → post (op_set_cell_type r fi) s (next i h).
Proof. unfold op_set_cell_type, pushTyped. run. Qed.
Lemma set_ptr_target_at : (2 ≤ h)%nat → post (op_set_ptr_target r fi) s (next i (pred h)).
Proof. unfold op_set_ptr_target. run. Qed.
Lemma place_at : (2 ≤ h)%nat → post (op_place r fi) s (next i (pred h)).
Proof. unfold op_place. run. Qed.
End Instructions.
