(* ===== verification/RunVerified.v ===== *)
(** * Verified code runs within its bounds

    The instructions that leave the frame or its straight line: jumps, calls,
    closures and returns; then one turn of the loop, and any number of turns. *)
From Stdlib Require Import String Ascii.
From S2P Require Import Scanner StackSpec.
From S2P Require Export RunOps.
Open Scope Z_scope.

(** ** Instructions that only move the stack *)
Definition calls (o : OpCode) : bool := match o with OP_CALL | OP_INVOKE | OP_SUPER_INVOKE => true | _ => false end.

Create HintDb ops discriminated.
#[export] Hint Constants Opaque : ops.
#[export] Hint Resolve immediate_at set_local_at get_local_at get_global_at define_global_at set_global_at initialise_at
  duplicate_at get_upvalue_at set_upvalue_at get_property_at set_property_at get_super_at close_upvalue_at binary_at
  compare_at negate_at print_at poke_at class_at inherit_at type_literal_at type_struct_at type_collection_at
  set_cell_type_at set_ptr_target_at place_at : ops.
#[export] Hint Extern 1 (_ ≤ _)%nat => lia : ops.
#[export] Hint Extern 1 (_ ≤ _ ≤ _)%nat => lia : ops.
#[export] Hint Extern 1 (∀ _, post (fails _ _) _ _) => intros; apply post_fails : ops.
#[export] Hint Extern 1 (∀ _, post (type_error _ _ _) _ _) => intros; apply post_exit : ops.
Ltac procedure H ::= (lazymatch goal with
  | |- post (defineMethod _ _) _ _ => eapply defineMethod_at
  | |- post (op_deref_element _) _ _ => eapply deref_element_at
  | |- post (op_set_element _) _ _ => eapply set_element_at
  | |- post (derefPtr _) _ _ => eapply derefPtr_at
  end); first [exact H | eassumption | heights].

Section Plain.
Context `{U : Uninit} `{TG : Target} `{HO : Host}.
Variable foreign : Foreign → objptr → Z → VMM (option Value).
Variables (r : objptr) (Φ : Fns) (K : Closures).
Variables (fs : list CallFrame) (k fi : nat) (ef : option objptr) (ea : Value).
Variables (c p : objptr) (fn : ObjFunction) (e : nat).
Hypothesis Hfi : (fi < length fs)%nat.
Hypothesis Hc : K !! c = Some p.
Hypothesis Hp : Φ !! p = Some fn.
Hypothesis HB : Forall (λ b, 0 ≤ b < 256) (fcode fn).
Abbreviation at_ i h := (At r Φ K (here fs k fi ef ea c e i h)).
Abbreviation next := (next r Φ K fs k fi ef ea c e).

Lemma next_eq c' j h j' h' s : post c' s (next j h) → j = j' → h = h' → post c' s (next j' h').
Proof. by intros H <- <-. Qed.

Lemma plain_at i h s o args : at_ i h s → Z.of_nat h + 8 < 2 ^ 31 → falls_through o = true → calls o = false →
  length args = operand_bytes o → (∀ b, args = [b] → fcode fn !! i = Some b) → ((effect o args).1 ≤ h)%nat →
  post (instruction foreign r fi o) s (next (i + operand_bytes o) (h - (effect o args).1 + (effect o args).2)).
Proof.
  intros H Hh Hf Hcall HL Hb Hn.
  destruct args as [|b [|]]; destruct o; try done; cbn [instruction effect fst snd operand_bytes List.last] in *.
  all: try (eapply next_eq; [solve [eauto 4 with ops]|lia|lia]).
  all: run.
Qed.
End Plain.

(** What the abstract machine asks of an instruction. *)
Lemma step_inv F C o d l : abstract_step F C o d = Some l → ∃ b op args, C !! o = Some b ∧ decode b = Some op ∧
  (∀ j x, args !! j = Some x → C !! (S o + j)%nat = Some x) ∧ length args = operand_bytes op ∧
  ((effect op args).1 ≤ d)%nat ∧ operands_ok F op args d = true ∧
  successors F C op args (S o + operand_bytes op) (d - (effect op args).1 + (effect op args).2) = Some l.
Proof.
  unfold abstract_step. destruct (C !! o) as [b|]; [|done]. cbn [mbind option_bind].
  destruct (decode b) as [op|] eqn:Eo; [|done]. cbn [mbind option_bind]. set (args := take _ _).
  destruct (effect op args) as [need put] eqn:Ee. destruct (_ && _ && _) eqn:E; [|done].
  rewrite !andb_true_iff, Nat.eqb_eq, Nat.leb_le in E. destruct E as [[E1 E2] E3]. intros Hl. exists b, op, args.
  rewrite Ee. split; [done|]. split; [done|]. split; [|split; [exact E1|split; [exact E2|split; [exact E3|exact Hl]]]]. intros j x Hj. apply lookup_take_Some in Hj as [Hj _].
  by rewrite lookup_drop in Hj.
Qed.

Lemma error_exits `{U : Uninit} `{TG : Target} `{HO : Host} r s :
  post (op_error r) s (λ t _, match t with Exit _ => True | Go _ => False end).
Proof.
  unfold op_error, fails. apply post_bind. intros v s1 _. destruct (IS_NIL v); [|destruct (is_uniformarray v)].
  - apply post_bind. intros ? s2 _. by apply post_ret.
  - apply post_bind. intros ? s2 _. by apply post_ret.
  - do 3 (apply post_bind; intros ? ? _). by apply post_ret.
Qed.

(** ** A routine that runs verified code *)
Record Running (Φ : Fns) (K : Closures) (X : Shape) : Prop := {
  run_good : good Φ;
  run_length : length (sframes X) = FRAMES_MAX;
  run_count : (1 ≤ scount X ≤ FRAMES_MAX)%nat;
  run_frames : frames_ok Φ K (sframes X) (scount X) (sheight X)
}.
(** After a turn: an end, an error that the next turn sees, or the frame on
    top, with a stack of at most [h] values. *)
Definition turned (r : objptr) (ef : option objptr) (ea : Value) (h : nat) (t : Turn) (s : VM) : Prop :=
  match t with
  | Exit _ => True
  | Go fi => Failed r s ∨ ∃ Φ K X, At r Φ K X s ∧ Running Φ K X ∧ fi = pred (scount X) ∧ (sheight X ≤ h)%nat ∧
      sentry X = ef ∧ sarg X = ea
  end.

Lemma turned_more r ef ea hm hm' t s : turned r ef ea hm t s → (hm ≤ hm')%nat → turned r ef ea hm' t s.
Proof.
  intros H Hm. destruct t; [|done]. destruct H as [H|(Φ' & K' & X & H1 & H2 & H3 & H4 & H5)]; [by left|right].
  exists Φ', K', X. split; [done|]. split; [done|]. split; [done|]. split; [lia|done].
Qed.

(** What the calls of foreign functions promise: if they answer with a value,
    the frames and the height of the stack of the caller are as before.  More
    functions may be known afterwards. *)
Definition keeps_caller (r : objptr) (call : VMM (option Value)) : Prop :=
  ∀ Φ K X s, At r Φ K X s → good Φ → Z.of_nat (sheight X) + 8 < 2 ^ 31 → post call s (λ v s',
    match v with Some _ => ∃ Φ', Φ ⊆ Φ' ∧ good Φ' ∧ At r Φ' K X s' | None => True end).
Definition foreign_keeps (foreign : Foreign → objptr → Z → VMM (option Value)) (r : objptr) : Prop :=
  ∀ f argCount, keeps_caller r (foreign f r argCount).

Section Control.
Context `{U : Uninit} `{TG : Target} `{HO : Host}.
Variable foreign : Foreign → objptr → Z → VMM (option Value).
Variables (r : objptr) (Φ : Fns) (K : Closures).
Variables (fs : list CallFrame) (fi : nat) (ef : option objptr) (ea : Value).
Variables (c p : objptr) (fn : ObjFunction) (e : nat).
Hypothesis Hforeign : foreign_keeps foreign r.
Hypothesis Hfs : length fs = FRAMES_MAX.
Hypothesis Hfi : (fi < length fs)%nat.
Hypothesis Hc : K !! c = Some p.
Hypothesis Hp : Φ !! p = Some fn.
Hypothesis Hgood : good Φ.
(** The frames of the callers. *)
Hypothesis Hcallers : frames_ok Φ K fs fi (S e).
Abbreviation at_ i h := (At r Φ K (here fs (S fi) fi ef ea c e i h)).
Abbreviation next := (next r Φ K fs (S fi) fi ef ea c e).
Abbreviation safe_at j d := (safe (fn_info Φ fn) (fcode fn) (λ _ _, False) j d).

Lemma code_bytes : Forall (λ b, 0 ≤ b < 256) (fcode fn).
Proof. by apply (g_bytes Φ), (Hgood p). Qed.
Lemma code_byte i b : fcode fn !! i = Some b → 0 ≤ b < 256.
Proof. intros H. exact (Forall_lookup_1 _ _ _ _ code_bytes H). Qed.
#[local] Hint Resolve code_bytes : core.

Lemma running_here j h : (e ≤ h)%nat → safe_at j (h - e) → Running Φ K (here fs (S fi) fi ef ea c e j h).
Proof.
  intros He Hs. split; simpl; [done|by rewrite length_insert|unfold FRAMES_MAX in *; lia|].
  exists (mkFrame (Some c) (Z.of_nat j) (Z.of_nat e)), e. split; [by apply list_lookup_insert_eq|]. split; [done|].
  split; [done|]. split; [by exists c, p, fn, j|]. by apply frames_ok_insert.
Qed.
Lemma turned_next j h hm t s : next j h t s → (e ≤ h)%nat → safe_at j (h - e) → (h ≤ hm)%nat → turned r ef ea hm t s.
Proof.
  intros H He Hs Hm. destruct t; [|done]. destruct H as [H|[-> H]]; [by left|right].
  exists Φ, K, (here fs (S fi) fi ef ea c e j h). split; [done|]. split; [by apply running_here|]. by repeat split.
Qed.

(** ** Jumps *)
Lemma jump_at i h s hi lo : at_ i h s → fcode fn !! i = Some hi → fcode fn !! S i = Some lo →
  post (offset ← READ_SHORT r fi; move_ip r fi offset ;; mret (Go fi)) s (next (i + 2 + Z.to_nat (256 * hi + lo)) h).
Proof.
  intros H H1 H2. apply post_bind. eapply post_mono; [eapply read_short_at; eauto|].
  intros j s1 (hi' & lo' & E1 & E2 & Hj & -> & H'). rewrite H1 in E1. rewrite H2 in E2. injection E1 as <-. injection E2 as <-.
  apply post_go. eapply post_mono; [eapply (move_at r Φ K); [done|exact H'|]|].
  2:{ intros ? s2 H3. right. exact H3. }
  lia.
Qed.
Lemma loop_at i h s hi lo : at_ i h s → fcode fn !! i = Some hi → fcode fn !! S i = Some lo →
  (Z.to_nat (256 * hi + lo) ≤ i + 2)%nat →
  post (offset ← READ_SHORT r fi; move_ip r fi (- offset) ;; mret (Go fi)) s (next (i + 2 - Z.to_nat (256 * hi + lo)) h).
Proof.
  intros H H1 H2 Hle. apply post_bind. eapply post_mono; [eapply read_short_at; eauto|].
  intros j s1 (hi' & lo' & E1 & E2 & Hj & -> & H'). rewrite H1 in E1. rewrite H2 in E2. injection E1 as <-. injection E2 as <-.
  apply post_go. eapply post_mono; [eapply (move_at r Φ K); [done|exact H'|]|].
  2:{ intros ? s2 H3. right. exact H3. }
  lia.
Qed.
Lemma jump_if_at i h s hi lo : at_ i h s → fcode fn !! i = Some hi → fcode fn !! S i = Some lo →
  post (op_jump_if_false r fi) s (λ t s', next (i + 2) h t s' ∨ next (i + 2 + Z.to_nat (256 * hi + lo)) h t s').
Proof.
  intros H H1 H2. unfold op_jump_if_false. apply post_bind. eapply post_mono; [eapply read_short_at; eauto|].
  intros j s1 (hi' & lo' & E1 & E2 & Hj & -> & H'). rewrite H1 in E1. rewrite H2 in E2. injection E1 as <-. injection E2 as <-.
  apply post_bind. eapply post_mono; [apply (post_keep _ _ _ _ _ _ H'), keeps_still; still|]. cbv beta. intros v s2 H3.
  destruct (isFalsey v).
  - eapply post_mono; [apply post_go; eapply post_mono; [eapply (move_at r Φ K); [done|exact H3|]|]|].
    3:{ intros t s3 Ht. right. exact Ht. }
    2:{ intros ? s4 H4. right. exact H4. }
    lia.
  - apply post_bind, post_ret, post_ret. left. right. split; [done|]. by replace (i + 2)%nat with (S (S i)) by lia.
Qed.

(** ** Calls *)

(** After a call: another frame is on top, or the same. *)
Definition called (h : nat) (x : InterpretResult) (s : VM) : Prop :=
  match x with
  | INTERPRET_OK => ∃ Φ' K' X, At r Φ' K' X s ∧ Running Φ' K' X ∧ (sheight X ≤ h)%nat ∧ sentry X = ef ∧ sarg X = ea
  | INTERPRET_RUNTIME_ERROR => True
  end.
(** A call of [b] arguments at [i], with [h] values on the stack, can return. *)
Definition returns_to (i h : nat) (b : Z) : Prop :=
  0 ≤ b ∧ (e + S (Z.to_nat b) ≤ h)%nat ∧ safe_at i (S (h - S (Z.to_nat b) - e)).

Lemma called_here i h s : at_ i h s → (e ≤ h)%nat → safe_at i (h - e) → called h INTERPRET_OK s.
Proof. intros H He Hs. exists Φ, K, (here fs (S fi) fi ef ea c e i h). split; [done|]. split; [by apply running_here|]. by repeat split. Qed.

Lemma known_more q cl s X : At r Φ K X s → vm_objects s !! q = Some (OBJ_CLOSURE cl) →
  At r Φ (<[q := function cl]> K) X s ∧ K ⊆ <[q := function cl]> K.
Proof.
  intros [[W1 W2 W3] HR] Hq. split.
  - split; [split; [done|done|]|done]. intros c' p' Hc'. destruct (decide (c' = q)) as [->|Hn].
    + rewrite lookup_insert_eq in Hc'. injection Hc' as <-. by exists cl.
    + rewrite lookup_insert_ne in Hc' by done. by apply W3.
  - destruct (K !! q) as [p'|] eqn:E; [|by apply insert_subseteq]. destruct (W3 _ _ E) as (cl' & H & <-).
    rewrite Hq in H. injection H as <-. by rewrite insert_id.
Qed.
Lemma callfn_at q b i h s : at_ i h s → Z.of_nat h + 8 < 2 ^ 31 → returns_to i h b →
  post (callfn r q b) s (λ ok s', called h (interpret ok) s').
Proof.
  intros H Hh (Hb & Hn & Hs). unfold callfn. apply post_bind. intros cl s1 [-> Hq]%get_closure_inv.
  destruct (known_more q cl s _ H Hq) as [H' HK]. pose proof (at_world _ _ _ _ _ H) as W.
  destruct (W_closures _ _ _ W _ _ Hq) as (g & Hg & _).
  apply post_bind. intros g' s1 [-> Hg']%get_function_inv. rewrite (W_fns _ _ _ W _ _ Hg) in Hg'. injection Hg' as <-.
  destruct (Z.eqb_spec b (arity g)) as [->|]; simpl; [|by apply post_bind; intros ? s1 _; apply post_ret].
  destruct (at_routine _ _ _ _ _ H) as (R & HR & HS). apply post_bind. intros R' s1 [-> HR']%get_routine_inv.
  rewrite HR in HR'. injection HR' as <-. pose proof (sh_count _ _ HS) as Hk. simpl in Hk. rewrite Hk.
  destruct (Nat.eqb_spec (S fi) FRAMES_MAX) as [|Hmax]; [by apply post_bind; intros ? s1 _; apply post_ret|].
  set (X := mkShape (<[S fi := mkFrame (Some q) 0 (usize (stackTopIndex R - (arity g + 1)))]> (frames R)) (S (S fi)) h ef ea).
  apply post_bind. intros ? s1 [= _ <-]. apply post_ret. exists Φ, (<[q := function cl]> K), X.
  pose proof HS as [W1 W2 W3 W4 W5 W6 W7 W8]. simpl in W4, W6.
  pose proof (stack_length_Z R W1) as Htop. rewrite W6 in Htop.
  split; [eapply (at_upd _ _ _ _ _ _ _ H'); split; try done; by destruct W1|]. split; [|done].
  assert (usize (stackTopIndex R - (arity g + 1)) = Z.of_nat (h - S (Z.to_nat (arity g)))) as He by (rewrite usize_small; lia).
  split; [done|simpl; by rewrite W4, !length_insert|simpl; lia|]. cbn [frames_ok scount sframes sheight X].
  assert (S fi < length (frames R))%nat as Hin by (rewrite W4, length_insert; lia).
  exists (mkFrame (Some q) 0 (Z.of_nat (h - S (Z.to_nat (arity g))))), (h - S (Z.to_nat (arity g)))%nat.
  split; [rewrite He; by apply list_lookup_insert_eq|]. split; [done|]. split; [lia|]. split.
  { exists q, (function cl), g, 0%nat. split; [done|]. split; [apply lookup_insert_eq|]. split; [done|]. split; [done|].
    replace (h - (h - S (Z.to_nat (arity g))))%nat with (S (Z.to_nat (arity g))) by lia. by apply g_verified, (Hgood (function cl)). }
  exists (mkFrame (Some c) (Z.of_nat i) (Z.of_nat e)), e. rewrite list_lookup_insert_ne by lia.
  split; [rewrite W4; by apply list_lookup_insert_eq|]. split; [done|]. split; [lia|]. split.
  { eapply (frame_ok_mono Φ K); [done|exact HK|]. exists c, p, fn, i. repeat (split; [done|]).
    by replace (S (h - S (Z.to_nat (arity g))) - e)%nat with (S (h - S (Z.to_nat (arity g)) - e)) by lia. }
  apply frames_ok_insert; [lia|]. rewrite W4. apply frames_ok_insert; [lia|]. by eapply (frames_ok_mono Φ K).
Qed.

Lemma call_foreign_at f b i h s : at_ i h s → Z.of_nat h + 8 < 2 ^ 31 → returns_to i h b →
  post (call_foreign foreign f r b) s (called h).
Proof.
  intros H Hh (Hb & Hn & Hs). unfold call_foreign. apply post_bind. eapply post_mono; [by apply Hforeign|].
  intros [v|] s1; [|by intros _; apply post_ret]. intros (Φ' & HF & Hg' & H1). apply post_bind.
  eapply post_mono; [eapply replace_at; [exact H1|heights|heights]|]. cbv beta. intros ? s2 H2. apply post_ret.
  set (h2 := S (h - (Z.to_nat b + 1))). exists Φ', K, (here fs (S fi) fi ef ea c e i h2). split; [exact H2|].
  split; [|split; [simpl; lia|done]]. split; simpl; [done|by rewrite length_insert|unfold FRAMES_MAX in *; lia|].
  exists (mkFrame (Some c) (Z.of_nat i) (Z.of_nat e)), e. split; [by apply list_lookup_insert_eq|]. split; [done|].
  split; [lia|]. split; [|apply frames_ok_insert; [done|by eapply (frames_ok_mono Φ K)]].
  apply (frame_ok_mono Φ K); [done|done|]. exists c, p, fn, i. repeat (split; [done|]).
  by replace (h2 - e)%nat with (S (h - S (Z.to_nat b) - e)) by lia.
Qed.

Ltac call_step := lazymatch goal with
  | H : At _ _ _ _ ?s |- post (callfn _ _ _) ?s _ =>
      eapply post_mono; [eapply callfn_at; [exact H|heights|eassumption]|cbv beta; clear H; intros ? ? ?; continue]
  | H : At _ _ _ _ ?s |- post (call_foreign _ _ _ _) ?s _ => eapply call_foreign_at; [exact H|heights|eassumption]
  | |- _ => run_step
  end.
Ltac call := repeat call_step.

Lemma callValue_at v b i h s : at_ i h s → Z.of_nat h + 8 < 2 ^ 31 → returns_to i h b →
  post (callValue foreign r v b) s (called h).
Proof.
  intros H Hh Hret. unfold callValue, set_callee, newInstance. call.
  (* a class without an initializer *)
  apply post_ret. apply negb_false_iff, Z.eqb_eq in Heqb0 as ->. destruct Hret as (_ & Hn & Hs).
  apply (called_here i h); [done|lia|]. by replace (h - e)%nat with (S (h - S (Z.to_nat 0) - e)) by (simpl in *; lia).
Qed.
Lemma invokeFromClass_at q name b i h s : at_ i h s → Z.of_nat h + 8 < 2 ^ 31 → returns_to i h b →
  post (invokeFromClass r q name b) s (called h).
Proof. intros H Hh Hret. unfold invokeFromClass. call. Qed.
Lemma invoke_at name b i h s : at_ i h s → Z.of_nat h + 8 < 2 ^ 31 → returns_to i h b →
  post (invoke foreign r name b) s (called h).
Proof.
  intros H Hh Hret. unfold invoke, set_callee. call.
  - eapply callValue_at; [exact H|done|done].
  - eapply invokeFromClass_at; [exact H|done|done].
Qed.

Lemma after_call_at h x s : called h x s → post (after_call r x) s (turned r ef ea h).
Proof.
  intros H. destruct x; [|by apply post_ret]. destruct H as (Φ' & K' & X & H & HX & Hm). unfold after_call, top_frame.
  destruct (at_routine _ _ _ _ _ H) as (R & HR & HS). apply post_bind. intros R' s1 [-> HR']%get_routine_inv.
  rewrite HR in HR'. injection HR' as <-. apply post_ret. right. exists Φ', K', X. split; [done|]. split; [done|].
  by rewrite (sh_count _ _ HS).
Qed.
Ltac call_end := apply post_bind; eapply post_mono; [|intros ? ? ?; by apply after_call_at].

Lemma op_call_at b i h s : at_ i h s → Z.of_nat h + 8 < 2 ^ 31 → fcode fn !! i = Some b → returns_to (S i) h b →
  post (op_call foreign r fi) s (turned r ef ea h).
Proof.
  intros H Hh Hb Hret. unfold op_call. apply post_bind. eapply post_mono; [eapply read_at; eassumption|].
  clear H. intros b' s1 [E H]. rewrite Hb in E. injection E as <-. do 2 run_step. call_end.
  by eapply callValue_at.
Qed.
Lemma op_invoke_at b i h s : at_ i h s → Z.of_nat h + 8 < 2 ^ 31 → fcode fn !! S i = Some b → returns_to (S (S i)) h b →
  post (op_invoke foreign r fi) s (turned r ef ea h).
Proof.
  intros H Hh Hb Hret. pose proof code_bytes as HB. unfold op_invoke. do 2 run_step. apply post_bind. eapply post_mono; [eapply read_at; eassumption|].
  clear H. intros b' s1 [E H]. rewrite Hb in E. injection E as <-. call_end. by eapply invoke_at.
Qed.
Lemma op_super_invoke_at b i h s : at_ i h s → Z.of_nat h + 8 < 2 ^ 31 → fcode fn !! S i = Some b →
  returns_to (S (S i)) (pred h) b → post (op_super_invoke r fi) s (turned r ef ea h).
Proof.
  intros H Hh Hb Hret. pose proof Hret as (_ & Hn & _). pose proof code_bytes as HB. unfold op_super_invoke. do 2 run_step. apply post_bind.
  eapply post_mono; [eapply read_at; eassumption|]. clear H. intros b' s1 [E H]. rewrite Hb in E. injection E as <-.
  do 4 run_step. call_end. eapply post_mono; [eapply (invokeFromClass_at _ _ _ (S (S i)) (pred h)); [exact H|lia|done]|].
  intros x s2. destruct x; [|done]. intros (Φ' & K' & X & H1 & H2 & H3 & H4). exists Φ', K', X.
  split; [done|]. split; [done|]. split; [lia|done].
Qed.

(** ** Closures *)
Lemma capture_at q n : ∀ i j h s, at_ i h s → post (capture_all r fi q n j) s (λ _, at_ (i + 2 * n) h).
Proof.
  induction n as [|n IH]; intros i j h s H; cbn [capture_all].
  { apply post_ret. by replace (i + 2 * 0)%nat with i by lia. }
  do 4 run_step. apply post_bind. eapply post_mono; [apply (post_keep _ _ _ _ _ _ H); keep|]. clear H. cbv beta.
  intros u s1 H. apply post_bind. intros cl s2 [-> Hq]%get_closure_inv. apply post_bind. intros ? s2 [= _ <-].
  eapply post_mono; [apply (IH (S (S i)))|].
  - apply at_closure; [done|done|by rewrite length_insert].
  - cbv beta. intros ? s3 H3. by replace (i + 2 * S n)%nat with (S (S i) + 2 * n)%nat by lia.
Qed.
Lemma closure_at b n i h s : at_ i h s → Z.of_nat h + 8 < 2 ^ 31 → fcode fn !! i = Some b →
  closure_ups (fn_info Φ fn) b = Some n → post (op_closure r fi) s (next (S i + 2 * n) (S h)).
Proof.
  intros H Hh Hb Hn. unfold op_closure. apply post_bind. eapply post_mono; [eapply read_constant_at; eauto|].
  clear H. intros v s1 (b' & E & Hv & H). rewrite Hb in E. injection E as <-. unfold closure_ups in Hn. rewrite Hv in Hn.
  destruct v as [| | | | | |t q| |]; try done. destruct t as [[]| | | |]; try done. destruct q as [q|]; [|done].
  simpl in Hn. apply fmap_Some in Hn as (g & Hg & ->). apply post_bind. intros q' s2 [= <- <-].
  apply post_bind. intros g' s2 [-> Hg']%get_function_inv.
  rewrite (W_fns _ _ _ (at_world _ _ _ _ _ H) _ _ Hg) in Hg'. injection Hg' as <-.
  unfold newClosure. apply post_bind, post_bind. intros g' s2 [-> Hg']%get_function_inv.
  rewrite (W_fns _ _ _ (at_world _ _ _ _ _ H) _ _ Hg) in Hg'. injection Hg' as <-. intros cl s2 [= <- <-].
  assert (at_ (S i) h (set_objects (<[fresh (dom (vm_objects s1)) := OBJ_CLOSURE (mkClosure q (replicate (upvalueCount g) None))]>
    (vm_objects s1)) s1)) as H2.
  { apply at_insert; [done|by eapply at_fresh|]. intros cl [= <-]. exists g. split; [done|]. simpl. by rewrite length_replicate. }
  clear H. do 2 run_step. apply post_go. eapply post_mono; [eapply (capture_at _ _ (S i) _ (S h)); exact H|]. cbv beta. intros ? s3 H3. by right.
Qed.

(** ** Returns *)
Lemma return_at i h s hm : at_ i h s → Z.of_nat h + 8 < 2 ^ 31 → (e < h)%nat → (h ≤ hm)%nat →
  post (op_return_turn r fi) s (turned r ef ea hm).
Proof.
  intros H Hh He Hm. unfold op_return_turn. apply post_bind. intros f s0. rewrite (frame_run r Φ K fs (S fi) fi ef ea c e Hfi _ _ _ H).
  intros [= <- <-]. apply post_bind. unfold op_return. do 6 run_step.
  set (fs' := <[fi := mkFrame (Some c) (Z.of_nat i) (Z.of_nat e)]> fs).
  apply post_bind. eapply post_mono.
  { eapply (modify_at r Φ K _ (mkShape fs' fi (pred h) ef ea)); [exact H|]. intros R [[] ? ? ? Hk ? ? ?]. split; try done.
    simpl. by rewrite Hk. }
  clear H. cbv beta. intros ? s1 H. apply post_bind. eapply post_mono.
  { unfold popFrame. eapply (modify_at r Φ K _ (mkShape fs' fi e ef ea)); [exact H|]. intros R [[W1 W2] ? ? ? Hk Hh' ? ?].
    simpl in *. rewrite stack_length in Hh' by done.
    assert (wf_stack (set_top (Z.of_nat e) R)) as W by (split; simpl; [done|lia]). split; try done.
    rewrite stack_length by done. simpl. lia. }
  clear H. cbv beta. intros ? s2 H. do 2 run_step.
  apply post_bind. eapply post_mono; [eapply push_at; [exact H|unfold small; simpl; lia]|]. clear H. cbv beta. intros ? s3 H.
  pose proof (at_routine _ _ _ _ _ H) as (R & HR & HS). apply post_bind. intros R' s4 [-> HR']%get_routine_inv.
  rewrite HR in HR'. injection HR' as <-. pose proof (sh_count _ _ HS) as Hk. simpl in Hk. rewrite Hk. apply post_bind.
  destruct (Nat.eqb_spec fi 0) as [->|Hn]; [by intros ? s4 _; apply post_ret, post_ret|].
  intros ? s4 [= _ <-]. apply post_ret. rewrite (proj2 (Nat.eqb_neq _ _) Hn).
  assert (shaped (mkShape fs' fi (S e) ef ea) (set_result NIL_VAL R)) as HS' by (destruct HS as [[] ? ? ? ? ? ? ?]; by split).
  apply (after_call_at hm INTERPRET_OK). exists Φ, K, (mkShape fs' fi (S e) ef ea).
  split; [eapply (at_upd _ _ _ _ _ _ _ H HS')|]. split; [|simpl; split; [lia|done]].
  split; simpl; [done|by unfold fs'; rewrite length_insert|unfold FRAMES_MAX in *; lia|]. by apply frames_ok_insert.
Qed.

(** ** Any instruction *)
Lemma plain_turned i h s o args : at_ (S i) h s → Z.of_nat h + 8 < 2 ^ 31 → (e ≤ h)%nat →
  falls_through o = true → calls o = false → (∀ j x, args !! j = Some x → fcode fn !! (S i + j)%nat = Some x) →
  length args = operand_bytes o → ((effect o args).1 ≤ h - e)%nat →
  safe_at (S i + operand_bytes o) (h - e - (effect o args).1 + (effect o args).2) →
  post (instruction foreign r fi o) s (turned r ef ea (S h)).
Proof.
  intros H Hh He Hf Hcall Ha HL Hn Hs.
  assert ((effect o args).2 ≤ 1)%nat as Hput by (by destruct o; simpl; lia).
  eapply post_mono; [eapply (plain_at foreign r Φ K fs (S fi) fi ef ea c p fn e Hfi Hc Hp code_bytes (S i) h s o args)|]; try done.
  - intros b ->. specialize (Ha 0%nat b eq_refl). by rewrite Nat.add_0_r in Ha.
  - lia.
  - intros t s1 H1. eapply turned_next; [exact H1|lia| |lia].
    by replace (h - (effect o args).1 + (effect o args).2 - e)%nat with (h - e - (effect o args).1 + (effect o args).2)%nat by lia.
Qed.

Lemma at_depth j d j' d' : safe_at j d → j = j' → d = d' → safe_at j' d'.
Proof. by intros H <- <-. Qed.
Lemma call_returns i h b n : 0 ≤ b → (S (Z.to_nat b) ≤ h - e)%nat → n = (h - e - S (Z.to_nat b) + 1)%nat →
  safe_at i n → returns_to i h b.
Proof. intros Hb Hh -> Hs. split; [done|]. split; [lia|]. by replace (S (h - S (Z.to_nat b) - e)) with (h - e - S (Z.to_nat b) + 1)%nat by lia. Qed.

Lemma instruction_at i h s op args l : at_ (S i) h s → Z.of_nat h + 8 < 2 ^ 31 → (e ≤ h)%nat →
  (∀ j x, args !! j = Some x → fcode fn !! (S i + j)%nat = Some x) → length args = operand_bytes op →
  ((effect op args).1 ≤ h - e)%nat →
  successors (fn_info Φ fn) (fcode fn) op args (S i + operand_bytes op) (h - e - (effect op args).1 + (effect op args).2) = Some l →
  Forall (λ x, safe_at x.1 x.2) l → post (instruction foreign r fi op) s (turned r ef ea (S h)).
Proof.
  intros H Hh He Ha HL Hn Hsucc Hl.
  destruct (falls_through op && negb (calls op)) eqn:Ef.
  { apply andb_true_iff in Ef as [Ef Ec%negb_true_iff]. eapply plain_turned; try done.
    assert (l = [((S i + operand_bytes op)%nat, (h - e - (effect op args).1 + (effect op args).2)%nat)]) as ->.
    { destruct op; try done; by injection Hsucc as <-. }
    by apply list.Forall_cons in Hl as [Hl _]. }
  destruct op; try discriminate Ef; cbn [instruction operand_bytes] in *.
  all: destruct args as [|x [|y [|]]]; try discriminate HL; cbn [effect fst snd List.last successors] in *.
  all: try (pose proof (Ha 0%nat x eq_refl) as Hx; rewrite Nat.add_0_r in Hx).
  all: try (pose proof (Ha 1%nat y eq_refl) as Hy; rewrite Nat.add_1_r in Hy).
  all: try (injection Hsucc as <-; rewrite !list.Forall_cons in Hl; cbn [fst snd] in Hl).
  - eapply post_mono; [by eapply jump_at|]. intros t s1 H1. eapply turned_next; [exact H1|lia| |lia]. apply (at_depth _ _ _ _ (proj1 Hl)); lia.
  - eapply post_mono; [by eapply jump_if_at|]. intros t s1 [H1|H1]; (eapply turned_next; [exact H1|lia| |lia]).
    + apply (at_depth _ _ _ _ (proj1 Hl)); lia.
    + apply (at_depth _ _ _ _ (proj1 (proj2 Hl))); lia.
  - cbv zeta in Hsucc. destruct (Nat.leb_spec (Z.to_nat (256 * x + y)) (S i + 2)) as [Hle|]; [|done].
    injection Hsucc as <-. rewrite !list.Forall_cons in Hl; cbn [fst snd] in Hl.
    eapply post_mono; [by eapply loop_at|]. intros t s1 H1. eapply turned_next; [exact H1|lia| |lia]. apply (at_depth _ _ _ _ (proj1 Hl)); lia.
  - pose proof (code_byte _ _ Hx). eapply post_mono; [eapply op_call_at; [exact H|done|exact Hx|]|intros t s1 H1; eapply turned_more; [exact H1|lia]].
    eapply call_returns; [lia|lia|done|]. apply (at_depth _ _ _ _ (proj1 Hl)); lia.
  - pose proof (code_byte _ _ Hy). eapply post_mono; [eapply op_invoke_at; [exact H|done|exact Hy|]|intros t s1 H1; eapply turned_more; [exact H1|lia]].
    eapply call_returns; [lia|lia|done|]. apply (at_depth _ _ _ _ (proj1 Hl)); lia.
  - pose proof (code_byte _ _ Hy). eapply post_mono; [eapply op_super_invoke_at; [exact H|done|exact Hy|]|intros t s1 H1; eapply turned_more; [exact H1|lia]].
    eapply call_returns; [lia|lia|done|]. apply (at_depth _ _ _ _ (proj1 Hl)); lia.
  - destruct (closure_ups (fn_info Φ fn) x) as [n|] eqn:En; [|done]. cbn [mbind option_bind] in Hsucc.
    destruct (captures_ok _ _ _ _); [|done]. injection Hsucc as <-. rewrite !list.Forall_cons in Hl; cbn [fst snd] in Hl.
    eapply post_mono; [by eapply closure_at|]. intros t s1 H1. eapply turned_next; [exact H1|lia| |lia].
    apply (at_depth _ _ _ _ (proj1 Hl)); lia.
  - eapply return_at; [exact H|done|lia|lia].
  - unfold op_yield. apply post_bind. intros v s1 _. case_bool_decide; (apply post_bind; intros ? s2 _; by apply post_ret).
  - eapply post_mono; [apply error_exits|]. by intros [] s1 Ht.
Qed.
End Control.

(** ** Turns of the loop *)
Section Turns.
Context `{U : Uninit} `{TG : Target} `{HO : Host}.
Variable foreign : Foreign → objptr → Z → VMM (option Value).
Variable r : objptr.
Hypothesis Hforeign : foreign_keeps foreign r.

(** The frame on top, taken apart. *)
Lemma running_top Φ K X : Running Φ K X → ∃ fi c p fn e i h,
  X = here (sframes X) (S fi) fi (sentry X) (sarg X) c e i h ∧ scount X = S fi ∧ length (sframes X) = FRAMES_MAX ∧
  (fi < length (sframes X))%nat ∧ K !! c = Some p ∧ Φ !! p = Some fn ∧ good Φ ∧ frames_ok Φ K (sframes X) fi (S e) ∧
  (e ≤ h)%nat ∧ safe (fn_info Φ fn) (fcode fn) (λ _ _, False) i (h - e) ∧ h = sheight X.
Proof.
  intros [Hg HL Hk Hf]. destruct X as [fs k h ef ea]. simpl in *. destruct k as [|fi]; [lia|].
  destruct Hf as (f & e & Hlook & He & Hle & (c & p & fn & i & H1 & H2 & H3 & H4 & H5) & Hcal).
  exists fi, c, p, fn, e, i, h. split; [|split_and!; try done; unfold FRAMES_MAX in *; lia]. unfold here. f_equal.
  rewrite list_insert_id; [done|]. rewrite Hlook. destruct f. simpl in *. by subst.
Qed.
Lemma failed_turn s fi t s' : Failed r s → turn foreign r fi s = Some (t, s') → t = Exit INTERPRET_RUNTIME_ERROR.
Proof.
  intros (R & HR & Hst). unfold turn. rewrite (st_bind_run _ _ _ _ _ (get_routine_run _ _ _ HR)).
  rewrite bool_decide_eq_true_2 by done. unfold mbind, st_bind. destruct (st_assert _ _) as [[? ?]|]; [|done]. by intros [= <- _].
Qed.
Lemma turn_at Φ K X s : At r Φ K X s → Running Φ K X → Z.of_nat (sheight X) + 8 < 2 ^ 31 →
  post (turn foreign r (pred (scount X))) s (turned r (sentry X) (sarg X) (S (sheight X))).
Proof.
  intros H HX Hh. destruct (running_top _ _ _ HX) as (fi & c & p & fn & e & i & h & EX & Hk & HL & Hfi & Hc & Hp & Hg & Hcal & He & Hs & Eh).
  rewrite Hk. simpl pred. rewrite <-Eh in *. rewrite EX in H. unfold turn. apply post_bind. intros R s1 [-> HR]%get_routine_inv.
  destruct (at_routine _ _ _ _ _ H) as (R' & HR' & HS). rewrite HR in HR'. injection HR' as <-.
  rewrite bool_decide_eq_false_2 by (rewrite (sh_state _ _ HS); done). clear HR HS.
  destruct (safe_closed _ _ _ _ _ Hs) as [[]|(l & Hl & Hall)].
  destruct (step_inv _ _ _ _ _ Hl) as (b & op & args & Hb & Ho & Ha & HLa & Hn & _ & Hsucc).
  apply post_bind. eapply post_mono; [eapply (read_at r Φ K); eassumption|]. intros b' s1 [E H1]. rewrite Hb in E. injection E as <-.
  rewrite Ho. eapply (instruction_at foreign r Φ K (sframes X) fi (sentry X) (sarg X) c p fn e); eassumption.
Qed.

Lemma failed_turns n s fi : Failed r s →
  post (Step.turns foreign n r fi) s (λ x s', match x with inl _ => Failed r s' | inr _ => True end).
Proof.
  intros H. destruct n as [|n]; cbn [Step.turns]; [by apply post_ret|]. apply post_bind. intros t s1 E.
  rewrite (failed_turn _ _ _ _ H E). by apply post_ret.
Qed.
Lemma turns_at n : ∀ Φ K X s, At r Φ K X s → Running Φ K X → Z.of_nat (sheight X + n) + 8 < 2 ^ 31 →
  post (Step.turns foreign n r (pred (scount X))) s (λ x s',
    match x with inl fi => turned r (sentry X) (sarg X) (sheight X + n) (Go fi) s' | inr _ => True end).
Proof.
  induction n as [|n IH]; intros Φ K X s H HX Hn; cbn [Step.turns].
  { apply post_ret. right. exists Φ, K, X. repeat (split; [done|]). split; [lia|done]. }
  apply post_bind. eapply post_mono; [apply (turn_at Φ K X); [done|done|lia]|]. intros [fi|x] s1 Ht; [|by apply post_ret].
  destruct Ht as [Hf|(Φ' & K' & X' & H' & HX' & -> & Hh & He & Ha)].
  - eapply post_mono; [by apply failed_turns|]. intros [fi'|] s2 H2; [by left|done].
  - eapply post_mono; [by apply (IH Φ' K' X'); [done|done|lia]|]. intros [fi'|] s2 H2; [|done].
    rewrite He, Ha in H2. eapply turned_more; [exact H2|lia].
Qed.
End Turns.

(** ** The bounds *)

(** The frame [fi] is the one on top; the abstract machine can make the step
    that comes next, at the depth that the stack has in the frame. *)
Definition in_bounds (r : objptr) (s : VM) (fi : nat) : Prop :=
  ∃ R f c cl fn i e l, vm_objects s !! r = Some (OBJ_ROUTINE R) ∧ frameCount R = S fi ∧ (fi < FRAMES_MAX)%nat ∧
    frames R !! fi = Some f ∧ closure f = Some c ∧ vm_objects s !! c = Some (OBJ_CLOSURE cl) ∧
    fn_of s (function cl) = Some fn ∧ length (upvalues cl) = upvalueCount fn ∧
    ip f = Z.of_nat i ∧ stackEntryIndex f = Z.of_nat e ∧ (e ≤ length (stack_of R))%nat ∧
    abstract_step (mkInfo (fconsts fn) (length (upvalues cl)) (λ q, upvalueCount <$> fn_of s q)) (fcode fn) i
      (length (stack_of R) - e) = Some l.

Lemma running_in_bounds r Φ K X s : At r Φ K X s → Running Φ K X → in_bounds r s (pred (scount X)).
Proof.
  intros H HX. destruct (running_top _ _ _ HX) as (fi & c & p & fn & e & i & h & EX & Hk & HL & Hfi & Hc & Hp & Hg & _ & He & Hs & Eh).
  pose proof (at_world _ _ _ _ _ H) as W. destruct (at_routine _ _ _ _ _ H) as (R & HR & HS).
  destruct (W_known _ _ _ W _ _ Hc) as (cl & Hcl & Hf). destruct (W_closures _ _ _ W _ _ Hcl) as (fn' & Hp' & Hups).
  rewrite Hf, Hp in Hp'. injection Hp' as <-. destruct (safe_closed _ _ _ _ _ Hs) as [[]|(l & Hl & _)].
  exists R, (mkFrame (Some c) (Z.of_nat i) (Z.of_nat e)), c, cl, fn, i, e, l. rewrite Hk.
  assert (∀ q g, Φ !! q = Some g → fn_of s q = Some g) as Hfn.
  { intros q g Hq. unfold fn_of. by rewrite (W_fns _ _ _ W _ _ Hq). }
  split; [done|]. split; [by rewrite (sh_count _ _ HS)|]. split; [by rewrite <-HL|].
  split. { rewrite (sh_frames _ _ HS). rewrite EX at 1. simpl. by apply list_lookup_insert_eq. }
  split; [done|]. split; [done|]. split; [rewrite Hf; by apply Hfn|]. split; [done|]. split; [done|]. split; [done|].
  rewrite (sh_height _ _ HS), <-Eh. split; [done|]. eapply step_sim; [apply info_le_sim|exact Hl].
  split; simpl; [exists []; by rewrite app_nil_r|lia|]. intros q n Hq. apply fmap_Some in Hq as (g & Hq & ->). by rewrite (Hfn _ _ Hq).
Qed.

(** ** A machine with verified functions *)

(** The functions of [fin] are verified; their code is made of bytes, and every
    closure is one of them. *)
Record Loaded (fin : gset objptr) (s : VM) : Prop := {
  ld_verified : verified_set fin s;
  ld_types : ∀ p f, p ∈ fin → fn_of s p = Some f → 0 ≤ arity f ∧ Forall (λ b, 0 ≤ b < 256) (fcode f);
  ld_closures : ∀ c cl, vm_objects s !! c = Some (OBJ_CLOSURE cl) →
    function cl ∈ fin ∧ upvalueCount <$> fn_of s (function cl) = Some (length (upvalues cl))
}.
(** The routine has just been entered: its one frame is that of a closure,
    which is on the stack with its arguments. *)
Definition entered (r : objptr) (s : VM) (h : nat) : Prop :=
  ∃ R c cl fn, vm_objects s !! r = Some (OBJ_ROUTINE R) ∧ wf_stack R ∧ addSlice R = true ∧ state R = EXEC_RUNNING ∧
    length (frames R) = FRAMES_MAX ∧ frameCount R = 1%nat ∧ frames R !! 0%nat = Some (mkFrame (Some c) 0 0) ∧
    vm_objects s !! c = Some (OBJ_CLOSURE cl) ∧ fn_of s (function cl) = Some fn ∧
    length (stack_of R) = h ∧ h = S (Z.to_nat (arity fn)).

Definition known_fns (fin : gset objptr) (s : VM) : Fns :=
  map_imap (λ p o, match o with OBJ_FUNCTION f => if decide (p ∈ fin) then Some f else None | _ => None end) (vm_objects s).
Lemma known_fns_spec fin s p f : known_fns fin s !! p = Some f ↔ p ∈ fin ∧ fn_of s p = Some f.
Proof.
  unfold known_fns, fn_of. rewrite map_lookup_imap. destruct (vm_objects s !! p) as [[]|]; simpl; try by split; [|intros []].
  case_decide; split; [intros [= ->]|intros [_ [= ->]]| |intros [? _]]; done.
Qed.
Lemma loaded_good fin s : Loaded fin s → good (known_fns fin s).
Proof.
  intros [H1 H2 _] p f [Hp Hf]%known_fns_spec. destruct (H1 p Hp) as (g & Hg & Hv & _). rewrite Hf in Hg. injection Hg as <-.
  destruct (H2 p f Hp Hf). split; [|done|done]. eapply safe_le; [|exact Hv]. split; simpl; [exists []; by rewrite app_nil_r|done|].
  intros q n. unfold fin_ups. case_decide as Hq; [|done]. intros Hn. apply fmap_Some in Hn as (g & Hg & ->).
  by rewrite (proj2 (known_fns_spec fin s q g)).
Qed.
Lemma entered_running fin r s h : Loaded fin s → entered r s h →
  ∃ K X, At r (known_fns fin s) K X s ∧ Running (known_fns fin s) K X ∧ scount X = 1%nat ∧ sheight X = h.
Proof.
  intros HL (R & c & cl & fn & HR & W & Hadd & Hst & HF & Hk & H0 & Hcl & Hfn & Hh & Ha).
  pose proof (loaded_good _ _ HL) as Hg. destruct (ld_closures _ _ HL _ _ Hcl) as [Hin Hup].
  assert (known_fns fin s !! function cl = Some fn) as Hp by by apply known_fns_spec.
  exists {[ c := function cl ]}, (mkShape (frames R) 1 h (entryFunction R) (entryArg R)). split; [|split; [|done]].
  - split; [split|by exists R].
    + intros p f [_ Hf]%known_fns_spec. unfold fn_of in Hf. destruct (vm_objects s !! p) as [[]|]; try done. by injection Hf as <-.
    + intros c' cl' Hc'. destruct (ld_closures _ _ HL _ _ Hc') as [Hin' Hup']. apply fmap_Some in Hup' as (f & Hf & Hlen).
      exists f. split; [by apply known_fns_spec|done].
    + intros c' p Hc'. apply lookup_singleton_Some in Hc' as [<- <-]. by exists cl.
  - split; simpl; [done|done|unfold FRAMES_MAX; lia|]. exists (mkFrame (Some c) 0 0), 0%nat. split; [done|]. split; [done|].
    split; [lia|]. split; [|done]. exists c, (function cl), fn, 0%nat. split; [done|]. split; [by apply lookup_singleton_eq|].
    split; [done|]. split; [done|]. rewrite Nat.sub_0_r, Ha. by apply g_verified, (Hg (function cl)).
Qed.

(** ** What the next instruction reads *)
Fixpoint read_bytes `{U : Uninit} `{TG : Target} `{HO : Host} (n : nat) (r : objptr) (fi : nat) : VMM (list Z) :=
  match n with
  | O => mret []
  | S n' => b ← READ_BYTE r fi; bs ← read_bytes n' r fi; mret (b :: bs)
  end.
(** The byte at the instruction pointer is an opcode, its operands follow it,
    and the values that it takes are on the stack, in the frame. *)
Definition fetches `{U : Uninit} `{TG : Target} `{HO : Host} (r : objptr) (s : VM) (fi : nat) : Prop :=
  ∃ b op args s1 s2, READ_BYTE r fi s = Some (b, s1) ∧ decode b = Some op ∧
    read_bytes (operand_bytes op) r fi s1 = Some (args, s2) ∧
    ∀ d, (d < (effect op args).1)%nat → ∃ v, peek r (Z.of_nat d) s2 = Some (v, s2).

Section Fetch.
Context `{U : Uninit} `{TG : Target} `{HO : Host}.
Variables (r : objptr) (Φ : Fns) (K : Closures).
Variables (fs : list CallFrame) (k fi : nat) (ef : option objptr) (ea : Value).
Variables (c p : objptr) (fn : ObjFunction) (e : nat).
Hypothesis Hfi : (fi < length fs)%nat.
Hypothesis Hc : K !! c = Some p.
Hypothesis Hp : Φ !! p = Some fn.
Abbreviation at_ i h := (At r Φ K (here fs k fi ef ea c e i h)).

Lemma fetch_run i h s b : at_ i h s → fcode fn !! i = Some b → ∃ s', READ_BYTE r fi s = Some (b, s') ∧ at_ (S i) h s'.
Proof.
  intros H Hb. assert (∃ s', READ_BYTE r fi s = Some (b, s')) as [s' E].
  { unfold READ_BYTE. rewrite (st_bind_run _ _ _ _ _ (frame_run r Φ K fs k fi ef ea c e Hfi i h s H)). cbv beta.
    rewrite (st_bind_run _ _ _ _ _ (function_run r Φ K fs k fi ef ea c p fn e Hfi Hc Hp i h s H)). simpl.
    rewrite (proj2 (Z.leb_le _ _)), Nat2Z.id by lia. unfold fcode in Hb. rewrite (st_bind_run _ _ _ _ _ (opt_run _ _ s Hb)).
    destruct (at_routine _ _ _ _ _ H) as (R & HR & _). eexists. erewrite st_bind_run; [reflexivity|]. unfold move_ip.
    rewrite (st_bind_run _ _ _ _ _ (frame_run r Φ K fs k fi ef ea c e Hfi i h s H)). by apply modify_routine_run. }
  exists s'. split; [done|]. by destruct (read_at r Φ K fs k fi ef ea c p fn e Hfi Hc Hp i h s H b s' E) as [_ H'].
Qed.
Lemma read_bytes_run args : ∀ i h s, at_ i h s → (∀ j x, args !! j = Some x → fcode fn !! (i + j)%nat = Some x) →
  ∃ s', read_bytes (length args) r fi s = Some (args, s') ∧ at_ (i + length args) h s'.
Proof.
  induction args as [|x args IH]; intros i h s H Ha.
  { exists s. split; [done|]. simpl. by rewrite Nat.add_0_r. }
  pose proof (Ha 0%nat x eq_refl) as Hx. rewrite Nat.add_0_r in Hx. destruct (fetch_run i h s x H Hx) as (s1 & E1 & H1).
  destruct (IH (S i) h s1 H1) as (s2 & E2 & H2).
  { intros j y Hy. by rewrite Nat.add_succ_l, <-Nat.add_succ_r; apply (Ha (S j)). }
  exists s2. cbn [length read_bytes]. rewrite (st_bind_run _ _ _ _ _ E1), (st_bind_run _ _ _ _ _ E2). split; [done|].
  by rewrite Nat.add_succ_r, <-Nat.add_succ_l.
Qed.
Lemma peek_at i h s d : at_ i h s → (d < h)%nat → Z.of_nat h < 2 ^ 31 → ∃ v, peek r (Z.of_nat d) s = Some (v, s).
Proof.
  intros H Hd Hb. destruct (at_routine _ _ _ _ _ H) as (R & HR & HS). pose proof (sh_height _ _ HS) as Hh. simpl in Hh.
  destruct (lookup_lt_is_Some_2 (stack_of R) (h - S d)) as [x Hx]; [lia|].
  exists (cell_value x). eapply (stack_peek_run r s R (take (h - S d) (stack_of R)) x (drop (S (h - S d)) (stack_of R))).
  - done.
  - apply HS.
  - unfold addressable. by rewrite Hh.
  - by rewrite take_drop_middle.
  - rewrite length_drop. lia.
Qed.
End Fetch.

Section Verified.
Context `{U : Uninit} `{TG : Target} `{HO : Host}.

Lemma running_fetches r Φ K X s : At r Φ K X s → Running Φ K X → Z.of_nat (sheight X) < 2 ^ 31 →
  fetches r s (pred (scount X)).
Proof.
  intros H HX Hb. destruct (running_top _ _ _ HX) as (fi & c & p & fn & e & i & h & EX & Hk & HL & Hfi & Hc & Hp & Hg & _ & He & Hs & Eh).
  rewrite Hk. rewrite <-Eh in Hb. rewrite EX in H. destruct (safe_closed _ _ _ _ _ Hs) as [[]|(l & Hl & _)].
  destruct (step_inv _ _ _ _ _ Hl) as (b & op & args & Hcode & Ho & Ha & HLa & Hn & _ & _).
  destruct (fetch_run r Φ K _ _ fi _ _ c p fn e Hfi Hc Hp i h s b H Hcode) as (s1 & E1 & H1).
  destruct (read_bytes_run r Φ K _ _ fi _ _ c p fn e Hfi Hc Hp args (S i) h s1 H1 Ha) as (s2 & E2 & H2).
  exists b, op, args, s1, s2. split; [done|]. split; [done|]. rewrite <-HLa. split; [done|]. intros d Hd.
  eapply (peek_at r Φ K); first [exact H2|eassumption|lia].
Qed.

End Verified.

(** ** An example: a function that makes a closure over itself and calls it *)
#[local] Existing Instance Noise.
#[local] Existing Instance LP64.
#[local] Existing Instance PlainHost.

Definition one_constant (v : Value) : DynamicValueArray := mkArray 8 1 [v].
Definition code_of (cs : list Z) (a : DynamicValueArray) : Chunk := mkChunk 8 cs [] a.
Definition inner_fn : ObjFunction :=
  mkFunction 0 1 (code_of ([encode OP_GET_UPVALUE; 0] ++ [encode OP_RETURN]) initDynamicValueArray) None.
Definition outer_fn : ObjFunction :=
  mkFunction 0 0 (code_of (([encode OP_CLOSURE; 0; 1; 0] ++ [encode OP_CALL; 0]) ++ [encode OP_RETURN])
    (one_constant (FUNCTION_VAL 5))) None.
Definition outer_routine : ObjRoutine :=
  set_state EXEC_RUNNING (set_frames (<[0%nat := mkFrame (Some 3%positive) 0 0]> (frames initRoutine)) 1
    (set_top 1 (set_slices [mkCell (FUNCTION_VAL 3) None :: replicate 63 nil_cell] initRoutine))).
Definition outer_vm : VM :=
  set_objects (<[1%positive := OBJ_ROUTINE outer_routine]> (<[3%positive := OBJ_CLOSURE (mkClosure 4 [])]>
    (<[4%positive := OBJ_FUNCTION outer_fn]> (<[5%positive := OBJ_FUNCTION inner_fn]> ∅)))) (blank_vm 4096).

Lemma outer_loaded : Loaded {[ 4%positive; 5%positive ]} outer_vm.
Proof.
  split.
  - intros p Hp. assert (p = 4%positive ∨ p = 5%positive) as [->| ->] by set_solver.
    + exists outer_fn. split; [done|]. split.
      * apply (verified_stop _ _ OP_RETURN 1 2); [done|lia|]. eapply flow_app.
        { by apply (flow_closure _ 0 1 [1; 0] 1). }
        apply (flow_op _ OP_CALL [0] 2 2); [done|done|done|simpl; lia|done].
      * intros q Hq. change (FUNCTION_VAL q ∈ [FUNCTION_VAL 5]) in Hq. apply list.elem_of_cons in Hq as [[= ->]|Hq]; [set_solver|].
        by apply list.not_elem_of_nil in Hq.
    + exists inner_fn. split; [done|]. split; [|intros q Hq; by apply list.not_elem_of_nil in Hq].
      apply (verified_stop _ _ OP_RETURN 1 2); [done|lia|]. apply (flow_op _ OP_GET_UPVALUE [0] 1 2); [done|done|done|simpl; lia|done].
  - intros p f Hp Hf. assert (p = 4%positive ∨ p = 5%positive) as [->| ->] by set_solver; injection Hf as <-.
    + split; [done|]. by apply (bool_decide_unpack _).
    + split; [done|]. by apply (bool_decide_unpack _).
  - intros c cl Hc. assert (c = 3%positive ∧ cl = mkClosure 4 []) as [-> ->].
    { simpl in Hc. repeat (apply lookup_insert_Some in Hc as [[<- Hc]|[_ Hc]]; [first [discriminate Hc|by injection Hc as <-]|]). done. }
    split; [set_solver|done].
Qed.
Lemma outer_entered : entered 1 outer_vm 1.
Proof.
  exists outer_routine, 3%positive, (mkClosure 4 []), outer_fn. split_and!; try done.
  split; [by repeat constructor|done].
Qed.
Definition nil_foreign (f : Foreign) (r : objptr) (argCount : Z) : VMM (option Value) := mret (Some NIL_VAL).
Lemma nil_foreign_keeps r : foreign_keeps nil_foreign r.
Proof. intros f n Φ K X s H Hg _. apply post_ret. by exists Φ. Qed.

Definition state_at (r : objptr) (s : VM) : option ExecState :=
  match vm_objects s !! r with Some (OBJ_ROUTINE R) => Some (state R) | _ => None end.
Example outer_runs : (λ x, (x.1, state_at 1 x.2)) <$> Step.turns nil_foreign 3 1 0 outer_vm = Some (inl 1%nat, Some EXEC_RUNNING).
Proof. vm_compute. reflexivity. Qed.

