(* ===== verification/RunBuiltins.v ===== *)
(** * The built-in functions keep their caller

    The promise that [RunVerified] asks of foreign functions, for the built-in
    functions of [Builtins]: all but [pin] leave the frames and the stack of
    the routine that calls them as they were. *)
From Stdlib Require Import String Ascii.
From S2P Require Import Scanner StackSpec.
From S2P Require Export RunVerified.
Open Scope Z_scope.

(** ** Other routines *)
Section Other.
Context `{U : Uninit} `{TG : Target} `{HO : Host}.
Variables (r : objptr) (Φ : Fns) (K : Closures) (q : objptr).
Hypothesis Hq : q ≠ r.
Abbreviation keeps := (keeps r Φ K).
Ltac other := repeat first [ lazymatch goal with
  | |- RunInv.keeps _ _ _ (get_routine q ≫= _) => apply keeps_other; [exact Hq|intros ? ?]
  end | keep_step | solve [apply keeps_still; still] | solve [eauto 4 with keeps] ].

Lemma other_modify f : keeps (modify_routine q f).
Proof. unfold modify_routine. other. Qed.
#[local] Hint Resolve other_modify : keeps.
Lemma other_error m : keeps (runtimeError q m).
Proof. unfold runtimeError. other. Qed.
#[local] Hint Resolve other_error : keeps.
Lemma other_push v : keeps (push q v).
Proof. unfold push. cbv zeta. other. Qed.
Lemma other_pop : keeps (pop q).
Proof. unfold pop. other. Qed.
Lemma other_callfn c n : keeps (callfn q c n).
Proof. unfold callfn. cbv zeta. other. Qed.
Lemma other_bindArgs v : keeps (bindEntryArgs q v).
Proof. apply other_modify. Qed.
Lemma still_entry_arity p : still (entry_arity p).
Proof. unfold entry_arity. still. Qed.
#[local] Hint Resolve other_push other_pop other_callfn other_bindArgs : keeps.
#[local] Hint Resolve still_entry_arity : still.
Lemma other_enter : keeps (enterEntryFunction q).
Proof. unfold enterEntryFunction. other. Qed.
Lemma other_elements : keeps (pushEntryElements q).
Proof. unfold pushEntryElements. other. Qed.
Lemma other_bindEntry c : keeps (bindEntryFn q c).
Proof. unfold bindEntryFn. other. Qed.
End Other.
#[export] Hint Resolve still_entry_arity : still.
#[export] Hint Resolve other_modify other_error other_push other_pop other_callfn other_bindArgs other_enter other_elements
  other_bindEntry : keeps.

(** ** The caller *)
Section Caller.
Context `{U : Uninit} `{TG : Target} `{HO : Host}.
Variable busy : bool.
Variables (r : objptr) (Φ : Fns) (K : Closures).
Variables (fs : list CallFrame) (k h : nat) (ef : option objptr) (ea : Value).
Abbreviation X := (mkShape fs k h ef ea).

Lemma still_yes v : still (yes v).
Proof. apply still_ret. Qed.
Lemma still_size_value n : still (size_value n).
Proof. apply still_ints. Qed.
Lemma still_all_channels a l : still (all_channels a l).
Proof. induction l as [|i l IH]; simpl; still; apply IH. Qed.
#[local] Hint Resolve still_yes still_size_value still_all_channels : still.

Lemma keeps_post_sem : keeps r Φ K (sem_post busy).
Proof. unfold sem_post. keep. Qed.
Lemma keeps_sem_wait : keeps r Φ K sem_wait.
Proof. unfold sem_wait. keep. Qed.
#[local] Hint Resolve keeps_post_sem keeps_sem_wait : keeps.
Lemma keeps_receive p c : unknown r Φ K p → keeps r Φ K (receive_channel busy p c).
Proof. intros Hp. unfold receive_channel, put_channel. keep. Qed.
Lemma keeps_sweep g l : keeps r Φ K (receive_sweep g l).
Proof. induction l as [|i l IH]; simpl; unfold put_channel; keep; apply IH. Qed.
#[local] Hint Resolve keeps_receive keeps_sweep : keeps.
Lemma keeps_receive_group g : keeps r Φ K (receive_group g).
Proof. unfold receive_group. keep. Qed.
#[local] Hint Resolve keeps_receive_group : keeps.

Definition answers (v : option Value) (s : VM) : Prop := match v with Some _ => At r Φ K X s | None => True end.
Lemma post_no m s : post (no r m) s answers.
Proof. unfold no. apply post_bind. intros ? s1 _. by apply post_ret. Qed.
Lemma post_new {B} o (f : _ → VMM B) Y s Q : At r Φ K Y s → (∀ cl, o ≠ OBJ_CLOSURE cl) →
  (∀ p s', unknown r Φ K p → At r Φ K Y s' → post (f p) s' Q) → post (new_obj o ≫= f) s Q.
Proof.
  intros H Ho Hf. apply post_bind. intros p s1 [= <- <-]. pose proof (at_fresh _ _ _ _ _ H) as Hp. apply Hf; [done|].
  apply at_insert; [done|done|]. by intros cl ?%Ho.
Qed.
#[local] Hint Extern 1 (_ ≠ _) => match goal with Hu : unknown _ _ _ _ |- _ => exact (proj1 Hu) end : keeps.
Ltac answer := match goal with |- answers ?v _ => unfold answers; destruct v;
  first [exact I | match goal with H : At _ _ _ _ _ |- _ => exact H end] end.
Ltac builtin := intros; repeat lazymatch goal with
  | |- post (no _ _) _ _ => apply post_no
  | |- post (not_a_channel _) _ _ => apply post_no
  | |- post (yes _) _ _ => apply post_ret
  | |- answers _ _ => answer
  | H : At _ _ _ _ ?s |- post (new_obj _ ≫= _) ?s _ => eapply post_new; [exact H|discriminate|clear H; intros ? ? ? ?]
  | |- _ => run_step
  end.
Ltac leaf ::= first [answer | done | exact I | assumption | shape].

Variables (s : VM) (argCount : Z).
Hypothesis H : At r Φ K X s.
Hypothesis Hh : Z.of_nat h + 8 < 2 ^ 31.

Lemma makeChannel_keeps : post (makeChannelBuiltin r argCount) s answers.
Proof. unfold makeChannelBuiltin. builtin. Qed.
Lemma send_keeps : post (sendChannelBuiltin busy r argCount) s answers.
Proof. unfold sendChannelBuiltin, put_channel. builtin. Qed.
Lemma share_keeps : post (shareChannelBuiltin busy r argCount) s answers.
Proof. unfold shareChannelBuiltin, put_channel. builtin. Qed.
Lemma cpeek_keeps : post (cpeekBuiltin r argCount) s answers.
Proof. unfold cpeekBuiltin. builtin. Qed.
Lemma makeSyncGroup_keeps : post (makeSyncGroupBuiltin r argCount) s answers.
Proof. unfold makeSyncGroupBuiltin, newSyncGroup, allocValueArray. builtin. Qed.
Lemma receive_keeps : post (receiveBuiltin busy r argCount) s answers.
Proof. unfold receiveBuiltin, receiveFromRoutine. builtin. Qed.
Lemma makeRoutine_keeps : post (makeRoutineBuiltin r argCount) s answers.
Proof. unfold makeRoutineBuiltin, newRoutine. builtin. Qed.
Lemma peekBuiltin_keeps : post (peekBuiltin r) s answers.
Proof. unfold peekBuiltin. builtin. Qed.
Lemma len_keeps : post (lenBuiltin r argCount) s answers.
Proof. unfold lenBuiltin. builtin. Qed.
Lemma new_keeps : post (new_Builtin r argCount) s answers.
Proof. unfold new_Builtin, createPointerAndTarget, newMap. builtin. Qed.
Lemma num_keeps n : post (numBuiltin n r) s answers.
Proof. unfold numBuiltin. builtin. Qed.
Lemma int_keeps : post (intBuiltin r) s answers.
Proof. unfold intBuiltin. builtin. Qed.
Lemma float_keeps : post (floatBuiltin r) s answers.
Proof. unfold floatBuiltin. builtin. Qed.
Lemma string_keeps : post (stringBuiltin r) s answers.
Proof. unfold stringBuiltin. builtin. Qed.
End Caller.

(** ** Routines that run others *)

(** What the run of another routine promises. *)
Definition run_keeps (run : objptr → VMM InterpretResult) (r : objptr) : Prop :=
  ∀ q Φ K X s, q ≠ r → At r Φ K X s → good Φ → Z.of_nat (sheight X) + 8 < 2 ^ 31 →
    post (run q) s (λ _ s', ∃ Φ', Φ ⊆ Φ' ∧ good Φ' ∧ At r Φ' K X s').

Section Resume.
Context `{U : Uninit} `{TG : Target} `{HO : Host}.
Variable run : objptr → VMM InterpretResult.
Variable r : objptr.
Hypothesis Hrun : run_keeps run r.
Abbreviation later Φ K X := (λ s', ∃ Φ', Φ ⊆ Φ' ∧ good Φ' ∧ At r Φ' K X s').

Ltac kept H := apply post_bind; eapply post_mono; [apply (post_keep _ _ _ _ _ _ H); keep|]; cbv beta; clear H; intros ? ? H.
Lemma resumeRoutine_keeps Φ K X s q arg : q ≠ r → At r Φ K X s → good Φ → Z.of_nat (sheight X) + 8 < 2 ^ 31 →
  post (resumeRoutine run q arg) s (λ _, later Φ K X).
Proof.
  intros Hq H Hg Hh. unfold resumeRoutine.
  do 4 kept H. apply post_bind. eapply post_mono; [by apply Hrun|]. cbv beta. intros x s5 (Φ' & HF & Hg' & H5).
  eapply post_mono; [apply (post_keep _ _ _ _ _ _ H5); destruct x; keep|]. cbv beta. intros v s6 H6. by exists Φ'.
Qed.

(** A routine that is running is neither resumed nor started. *)
Lemma the_obj_other Φ K X s t s1 p T : At r Φ K X s → the_obj t s = Some (Some (p, OBJ_ROUTINE T), s1) →
  s1 = s ∧ (state T ≠ EXEC_RUNNING → p ≠ r).
Proof.
  intros H [-> E]%the_obj_inv. split; [done|]. intros Hst ->. destruct (at_routine _ _ _ _ _ H) as (R & HR & HS).
  destruct (obj_at t) as [p|]; [|done]. simpl in E. destruct (vm_objects s !! p) as [o|] eqn:Eo; [|done]. injection E as <- <-.
  rewrite HR in Eo. injection Eo as <-. by rewrite (sh_state _ _ HS) in Hst.
Qed.
Lemma resume_keeps argCount : keeps_caller r (resumeBuiltin run r argCount).
Proof.
  intros Φ K X s H Hg Hh. unfold resumeBuiltin. destruct (_ || _); [apply post_bind; intros ? s1 _; by apply post_ret|].
  apply post_bind. eapply post_mono; [apply (post_keep _ _ _ _ _ _ H); unfold routine_args; keep|]. clear H. intros [t arg] s1 H.
  apply post_bind. intros o s2 E. pose proof E as [-> _]%the_obj_inv.
  destruct o as [[p []]|]; try (apply post_bind; intros ? s3 _; by apply post_ret).
  destruct (the_obj_other _ _ _ _ _ _ _ _ H E) as [_ Hp].
  destruct (_ || _) eqn:Es; [|apply post_bind; intros ? s3 _; by apply post_ret].
  apply post_bind. eapply post_mono; [apply resumeRoutine_keeps; [|exact H|done|done]|].
  - apply Hp. intros E'. rewrite E' in Es. done.
  - intros v s3 H3. by apply post_ret.
Qed.
Lemma start_keeps argCount : keeps_caller r (startBuiltin r argCount).
Proof.
  intros Φ K X s H Hg Hh. unfold startBuiltin. destruct (_ || _); [apply post_bind; intros ? s1 _; by apply post_ret|].
  apply post_bind. eapply post_mono; [apply (post_keep _ _ _ _ _ _ H); unfold routine_args; keep|]. clear H. intros [t arg] s1 H.
  apply post_bind. intros o s2 E. pose proof E as [-> _]%the_obj_inv.
  destruct o as [[p []]|]; try (apply post_bind; intros ? s3 _; by apply post_ret).
  destruct (the_obj_other _ _ _ _ _ _ _ _ H E) as [_ Hp]. unfold startRoutine.
  apply post_bind. intros T s3 [-> HT]%get_routine_inv.
  assert (T = r0) as ->.
  { apply the_obj_inv in E as [_ E]. destruct (obj_at t) as [p'|]; [|done]. simpl in E.
    destruct (vm_objects s1 !! p') as [o|] eqn:Eo; [|done]. injection E as -> <-. rewrite HT in Eo. by injection Eo. }
  apply post_bind. intros ? ? [= <- <-]. case_bool_decide as Hs; [|by apply post_ret]. simpl.
  assert (p ≠ r) as Hpr by (apply Hp; by rewrite Hs).
  destruct (core1 s1); [by apply post_ret|]. do 3 kept H. apply post_ret. by exists Φ.
Qed.
End Resume.

(** ** All of them *)
Create HintDb builtins discriminated.
#[export] Hint Constants Opaque : builtins.
#[export] Hint Resolve makeRoutine_keeps makeChannel_keeps makeSyncGroup_keeps receive_keeps send_keeps cpeek_keeps
  share_keeps peekBuiltin_keeps len_keeps new_keeps num_keeps int_keeps float_keeps string_keeps : builtins.

Section All.
Context `{U : Uninit} `{TG : Target} `{HO : Host}.

End All.

(** ** The exception, and an example *)
#[local] Existing Instance Noise.
#[local] Existing Instance LP64.
#[local] Existing Instance PlainHost.

(** A routine that runs, with itself as the argument of a call of [pin]. *)
Definition pinning_routine : ObjRoutine :=
  set_entryFunction (Some 3%positive) (set_state EXEC_RUNNING (set_frames (<[0%nat := mkFrame (Some 3%positive) 0 0]>
    (frames initRoutine)) 1 (set_top 3 (set_slices [[mkCell (FUNCTION_VAL 3) None; mkCell (FUNCTION_VAL 6) None;
    mkCell (ROUTINE_VAL 1) None] ++ replicate 61 nil_cell] initRoutine)))).
Definition pinning_vm : VM :=
  set_objects (<[6%positive := OBJ_BUILTIN BUILTIN_PIN]> (<[1%positive := OBJ_ROUTINE pinning_routine]> (vm_objects outer_vm))) outer_vm.

(** [pin] does not look at the state of the routine: a routine that pins itself
    gets a second frame, below which the call then takes its operands away. *)
Theorem pin_breaks_caller : ¬ keeps_caller 1 (pinBuiltin 1 1).
Proof.
  intros Hk. set (Φ := known_fns {[ 4%positive; 5%positive ]} outer_vm).
  assert (At 1 Φ {[ 3%positive := 4%positive ]} (mkShape (frames pinning_routine) 1 3 (Some 3%positive) NIL_VAL) pinning_vm) as H.
  { split; [|exists pinning_routine; split; [done|split; try done; split; [by repeat constructor|done]]]. split.
    - intros p f [Hp Hf]%known_fns_spec. assert (p = 4%positive ∨ p = 5%positive) as [->| ->] by set_solver; by injection Hf as <-.
    - intros c cl Hc. assert (c = 3%positive ∧ cl = mkClosure 4 []) as [-> ->]; [|by exists outer_fn].
      simpl in Hc. repeat (apply lookup_insert_Some in Hc as [[<- Hc]|[_ Hc]]; [first [discriminate Hc|by injection Hc as <-]|]). done.
    - intros c p [<- <-]%lookup_singleton_Some. by exists (mkClosure 4 []). }
  assert ((λ x, (x.1, (λ o, match o with OBJ_ROUTINE R => frameCount R | _ => 0%nat end) <$> vm_objects x.2 !! 1%positive)) <$>
    pinBuiltin 1 1 pinning_vm = Some (Some (ADDRESS_VAL (handler_address 0)), Some 2%nat)) as Hrun by (vm_compute; reflexivity).
  destruct (pinBuiltin 1 1 pinning_vm) as [[v s']|] eqn:E; [|discriminate Hrun].
  cbn [fmap option_fmap option_map fst snd] in Hrun. injection Hrun as -> Hn.
  destruct (Hk _ _ _ _ H (loaded_good _ _ outer_loaded) eq_refl _ _ E) as (Φ' & _ & _ & [_ (R & HR & HS)]).
  rewrite HR in Hn. injection Hn as Hn. rewrite (sh_count _ _ HS) in Hn. discriminate Hn.
Qed.

Lemma run_nothing_keeps r : run_keeps (λ _, mret INTERPRET_OK) r.
Proof. intros q Φ K X s _ H Hg _. apply post_ret. by exists Φ. Qed.
